(* ===== verification/_CoqProject ===== *)
-Q . S2P
Prelude.v
Bitmap.v
Digraph.v
Csr.v
AdjacencyMap.v
Triplestore.v
Segment.v
Traversal.v
Cache.v
Scc.v
Components.v
Reachability.v
Kinds.v
Mapper.v
Properties.v
Nodes.v
NodeSets.v
IndexedSlice.v
Paths.v
EliasFano.v
PackedMap.v
DataTypes.v
TranslationCache.v
Framing.v
TranslationKey.v
WriteBatch.v
Walk.v
WalkTree.v
CypherAst.v
Analysis.v
Reordering.v
SourceReferences.v
Mentions.v
PatternSteps.v
Reversal.v
LoweringPlan.v
CountShapes.v
Optimizer.v
PlanTargets.v
Plans.v
Scope.v
SqlAst.v
Selectivity.v
Locality.v
Constraints.v
Steps.v
CountStore.v
IndexDefinitions.v
GraphSchema.v
SmallDatabase.v
IndexChanges.v
SchemaManager.v
ManagedGraphs.v
Composites.v
Batches.v
Upserts.v
PgBatch.v
