(* ===== verification/Prelude.v ===== *)
(** * DAWGS: verification library

    DAWGS (Database Abstraction Wrapper for Graph Schemas) is a Go library that
    stores property graphs in PostgreSQL or Neo4j and answers graph queries in
    memory.  This development models the parts that compute: the in-memory graph
    containers ([container/]), the algorithms over them ([algo/]), the caches
    ([cache/]), the bitmaps ([cardinality/]), the values of the graph model
    ([graph/]), and, of the PostgreSQL side, the schema manager, the mapper
    of rows, the translation cache and the batches of writes ([drivers/pg/]), the
    type tables of the SQL model, the walks over syntax trees, and those parts of the Cypher translator and its
    optimizer that decide where a clause or a constraint goes ([cypher/models/]).

    ** Parts and files

    Layer 0, shared:
    - [Prelude]: machine integers, outcomes of calls, loops as iterated steps,
      indexed slices, sorted lists; the tactics and hint databases.
    - [Framing]: texts built by concatenation that can be taken apart again.

    Layer 1, graphs:
    - [Bitmap]: cardinality/roaring64.go, lock.go, commutative.go.  [Duplex] and
      [bitmap64] operations; the roaring library itself is the class [Roaring],
      its documented set behaviour the class [RoaringLaws], with [gset Z] as the
      instance the witnesses run.
    - [Digraph]: container/digraph.go and graph.Direction.  [DirectedGraph] is
      the Go interface; [LawfulDigraph] states what an implementation promises
      (its nodes, its edges, that both directions agree).  [Reach], [BFSTree],
      [Degrees] and the rest are written and proved against it.
    - [Csr]: container/csr.go.  The builder, the fill of offset and adjacency
      arrays by index, the queries, [Normalize]; an instance of [LawfulDigraph].
    - [AdjacencyMap]: container/adjacencymap.go, the second instance.
    - [Triplestore]: container/triplestore.go, the store and its projections.
    - [Segment]: container/segment.go, path segments and their bytes.
    - [Traversal]: container/traversal.go, over the interface [TripleGraph].
    - [EliasFano], [PackedMap]: container/ef.go and container/pacmap.go, over
      the classes [BitSet], [CeilLog2] and [SortPending].

    Layer 2, algorithms and caches:
    - [Cache]: cache/.  [Cache]/[LawfulCache] is the interface cache.Cache with
      its contract relative to an overflow policy; SIEVE and the non-expiring
      map are its implementations.
    - [Scc]: algo/scc.go, Tarjan's algorithm with an explicit stack.
    - [Components]: algo/scc.go, the condensation and the searches over it; a
      client of [Scc], of [Digraph] and of the CSR builder.
    - [Reachability]: algo/reach.go, cached reachability; a client of
      [Components] and [Cache].

    Layer 3, the graph model:
    - [Kinds]: graph/kind.go, util.go.  Kind slices are headers over arrays in a
      memory, so that aliasing and in-place removal are visible.
    - [Mapper]: graph/mapper.go, dynamic values and their conversions.
    - [Properties]: graph/properties.go, property bags with change tracking.
    - [Nodes], [NodeSets], [IndexedSlice]: graph/node.go, types.go,
      relationships.go; [KindIndex]/[KindIndexLaws] is the interface both kind
      indexes implement.
    - [Paths]: graph/path.go and relationships.go, path trees in a heap.

    Layer 4, the PostgreSQL side:
    - [DataTypes]: cypher/models/pgsql/pgtypes.go, operators.go.
    - [TranslationCache]: drivers/pg/translation_cache.go as an interleaving of
      callers; a client of the interface [LawfulCache].
    - [TranslationKey]: the parameter shape in the key of that cache.
    - [WriteBatch]: new relationships (drivers/pg/batch.go) and the keys of
      graph/graph.go.
    - [IndexDefinitions]: drivers/pg/query/definitions.go and the index types of
      format.go, with the part of Go's regular expressions they use.
    - [GraphSchema]: drivers/pg/query/query.go, drivers/pg/model and
      graph/schema.go.  The database is the class [Database], what the driver sees
      of its state the class [Catalog], and what is used of PostgreSQL and pgx the
      class [DatabaseLaws]; [SmallDatabase] is an instance that runs.
      [IndexChanges]: the theorems about the indexes of a graph.
    - [SchemaManager]: drivers/pg/manager.go, its critical sections and the runs
      they make, sections that end with an error included; a client of
      [DatabaseLaws].  A run carries the kinds that failed sections have written to
      the maps, of which nothing is known.  [ManagedGraphs]: its graphs.
    - [Composites]: drivers/pg/types.go and mapper.go, rows read back into nodes,
      relationships and paths; a client of [SchemaManager].
    - [Batches]: drivers/pg/batch.go, the buffers of a batch, when they are flushed,
      the columns of creates and updates, and [CreateNodes].  The connection keeps
      the statements it has executed without an error, with their arguments, their
      answers and the state of the manager and the database at the time
      ([executed]); the theorems about batches are about these.
    - [Upserts]: drivers/pg/query/format.go and batch.go, updates merged by identity
      and the futures between nodes and relationships.  Nodes, relationships and
      futures are cells of a [heap], since merging writes to what the caller holds;
      a client of [Nodes], [WriteBatch] and [SchemaManager].
    - [PgBatch]: the batch put together, the buffers with all these flushes over one
      heap, and new relationships with the kinds of the manager.

    Layer 5, the Cypher translator ([cypher/models/]):
    - [Walk]: walk/walk.go, the walk with its stack of cursors, the handlers and
      the simple visitors, for any syntax.
    - [WalkTree]: the class [Syntax] of syntax trees whose branches are lighter
      than their node, the tree that a walk unfolds, and the closed forms of the
      visitors that look for a node, collect from all nodes or keep state between
      entering and leaving them; [CypherAst] and [SqlAst] are its instances.
    - [CypherAst]: the Cypher syntax tree (cypher/model.go) and its cursors
      (walk/walk_cypher.go).
    - [Analysis], [Reordering]: pgsql/optimize/analysis.go and reordering.go, the
      regions of reading clauses and the order of their MATCH clauses.
    - [SourceReferences]: pgsql/optimize/source_references.go and
      pattern_predicates.go, which symbols a query part refers to.  [Mentions]: the
      symbols that stand in a query part, by the types of the syntax tree alone, and
      the places that the collector overlooks; the specification of pruning.
    - [PatternSteps]: the steps of a pattern, the symbols that are declared before
      them and the selectivity of their ends (pgsql/optimize/lowering_plan.go).
    - [Reversal]: pgsql/optimize/direction.go, patterns turned around.
    - [LoweringPlan], [CountShapes]: pgsql/optimize/lowering.go and
      lowering_plan.go, the decisions of the planner; [Optimizer]:
      optimizer.go, the rules, of which any implementation of the interface is a
      value, and the plan of a query; [PlanTargets], [Plans]: the theorems about them.
    - [Scope]: pgsql/identifiers.go and pgsql/translate/tracking.go.  Frames,
      bindings and generators are cells of a [heap], since scopes and their
      snapshots share them.
    - [SqlAst]: the SQL syntax tree and its cursors (walk/walk_pgsql.go), the
      walks for one node or over all nodes, and the helpers of the translator
      that are such walks.
    - [Selectivity], [Locality]: pgsql/optimize/selectivity.go and locality.go.
    - [Constraints]: the constraint trackers of pgsql/translate/constraints.go and
      expression.go; [Steps]: traversal steps, their join conditions and their
      direction (pgsql/translate/constraints.go and model.go); clients of [Scope],
      [Selectivity] and [Locality].
    - [CountStore]: pgsql/translate/count_fast_path.go, counts answered by counting
      rows; a client of [Plans], [Reversal] and [SqlAst].

    ** How code becomes definitions

    A Go method [T.M] is the definition [T_M]; a struct is a record whose fields
    carry a short prefix.  State is passed explicitly and returned last.  A loop
    whose recursion is not structural is a step function run by [iterate]; a
    loop body is a definition of its own ([..._step], [..._turn], [..._loop]).
    A call that may panic returns an [outcome]; a Go error is the right side of
    a sum or an option.  A [uint64] is a [Z] with [wrap64] wherever the
    operation can leave the range; the integer types of [Mapper] carry their
    width.  A Go map is a [gmap] (an [option] of one where nil matters), a slice
    a list, or a header over a memory where two of them can share an array.  A
    range over a map runs over [map_to_list]; the theorems do not depend on
    that order.  A mutex makes a critical section one step.

    ** What the theorems show

    - Graph containers.  A built CSR graph, and an adjacency map, have exactly
      the nodes and edges given to them, and the two agree up to the order of
      neighbours and their repetition in both directions
      ([Build_adjacency], [implementations_agree]); [Normalize] is an
      isomorphism; [Reach] and [BFSTree] end with the reachable nodes and their
      shortest distances; a projection enumerates the surviving edges; walks of
      a triplestore hand out exactly the leaves of the bounded walk tree, in
      order; segments survive their byte form and truncated bytes are errors;
      Elias-Fano sets and packed maps give back what was put in.
    - Algorithms.  The components are the strongly connected ones
      ([StronglyConnectedComponents_correct]), the component graph is the
      condensation, [CanReach] is exact, a fresh cache answers exactly and a used
      one soundly.
    - Caches.  SIEVE refines a bounded map; its victim is the first unvisited
      entry of the sweep.
    - Graph model.  Kinds are interned; change tracking of properties and kinds
      is exact and [Merge] composes changes; [IndexedSlice] refines a finite
      map; sizes in a path tree stay the sums of their parts; paths are rebuilt
      from trunks.
    - Translation cache.  In every interleaving a hit has the statement of a
      build for the same key and the current generation, at most one caller
      builds a key at a time, and every caller returns.
    - Batches.  Distinct relationships make aligned columns in order; the array
      text and the type shape can be decoded.  The statements that a batch has
      executed hold what it was given once and in order, whatever fails in between,
      and their columns are those of the items ([batch_writes_once],
      [large_update_rows]); nodes created at once get their own identifiers or an
      error ([CreateNodes_exact]).  Updates with one
      identity become one row ([node_updates_merged]), rows of a statement differ in
      their identity ([upsert_rows_distinct]), and relationships are written between
      the nodes they name, with the kinds and properties of their updates
      ([relationship_ends]); new relationships with different keys are written as
      they are ([created_relationships_exact]).
    - Schema.  The text of an index is read back as its name, uniqueness and
      method ([pgPropertyIndexRegex_reads]); asserting a graph leaves exactly the
      indexes of its schema and nothing to change, for names that the database takes
      as they are ([assert_graph_settles], [assert_graph_manages]).  In every run of
      the manager's sections, and for all kinds that no section which failed has
      written to the maps, the maps agree with the table of kinds
      ([manager_coherent]), kinds and identifiers map to each other
      ([assert_kinds_round_trip], [map_kinds_exact]), and rows are read back with the
      kinds they were created with ([created_rows_read_back], [rows_read_back]).
    - Walks and the optimizer.  The walk with a stack is the walk by recursion for
      every visitor ([Generic_refines]), also one that prunes, stops or fails.
      Reordering permutes the clauses of a region and keeps every clause behind
      those that bind what it refers to ([reorderReadingClauses_safe]); its guard
      is exact.  The selectivity visitor computes the weight of the tree
      ([Measure_refines]).  A constraint that is called local leaves nothing free
      outside ([ExpressionReferencesOnlyLocalIdentifiers_sound]), and splitting a constraint changes no answer in three-valued logic
      ([PartitionConstraintByLocality_exact]).
    - Plans.  The collector of references is exact
      ([collectReferencedSourceIdentifiers_exact]), so that what a plan prunes is
      mentioned nowhere but in the few places that the walk or the collector overlook
      ([BuildLoweringPlan_prunes_unused]); a list of decisions has one
      for a step at most and in the order of the query
      ([BuildLoweringPlan_targets]), under the targets that the translator looks up
      ([indexed_targets_exact]); a suffix is pushed only into a step that is not
      rewritten otherwise; planning fails only on what cannot be walked.  A pattern
      that is turned around matches the same paths backwards
      ([reversal_matches]).  The plan that the optimizer returns belongs to the
      query that it returns, for any rules that keep their promises
      ([Optimizer_optimize_coherent]).
    - Counts.  The planner and the translator see the same shape
      ([countStore_planned]), and the select counts the matches of the pattern
      ([translateCountStoreFastPath_counts]).
    - The translator.  Generated identifiers are fresh in every run over a scope
      and its snapshots; no constraint is lost or applied twice
      ([tracker_run_conserves]); each part of a step consumes exactly what its
      identifiers satisfy; a step joins the edges its direction asks for, and
      flipping it keeps its rows, by the columns of its expansion where it has one
      ([OptimizePatternConstraintBalance_safe]).
    - Behaviour that departs from the intent is stated as a theorem too, next to
      the definitions it is about ([NumEdges_is_NumNodes],
      [Reach_cached_incomplete], [EFSet_Find_below_diverges],
      [PackedMap_second_compaction_wrong], [repeated_edge_wrong_row],
      [FlipDirection_disagrees], [join_constraint_rejected],
      [removed_kind_pruned], [map_literal_pruned], [rolled_back_kinds_stay],
      [failed_default_graph_stays], [upper_case_index_never_settles],
      [select_kind_id_never], [updates_without_identity_merge],
      [relationship_update_lost], ...).

    ** Bounds and fuel

    Loops over graphs take fuel computed from the graph ([digraph_fuel],
    [search_fuel], [reachable_fuel], [tarjan_fuel], [dfs_fuel]): one turn per
    node or edge and one to stop.  The theorems state that the loop ends with a
    result under that fuel, so it is enough.  A sweep of SIEVE takes two turns
    more than the queue is long.  The walks over trunks in [Paths] take the
    size of the heap, since a trunk has a smaller address.  [EFSet_Find] and the
    maps above it take any fuel of at least 64, the width of the halved
    interval.  A walk takes one turn per node and one per branch of the tree
    ([cost]); a tree of SQL or Cypher nodes is unfolded, and the checks of [Locality] that
    call each other run, on the weight of the node, of which every branch has
    less.  Generated identifiers are counted up to 2^62.  Lengths below 2^56 in [EliasFano] and [PackedMap], and edge
    counts below 2^64 in [Csr], keep positions within a word.

    ** Parameters

    Code outside the repository is a class or a section variable: the roaring
    bitmaps, the bit set, the float logarithm (accuracy only), [sort.Slice],
    [growslice], [json.Marshal], [hash.Hash], parsing of floats and times,
    [size.Of], the builder of translations, PostgreSQL and pgx, the type names in error messages.
    The statements of a batch go to [Exec] and [Query], which answer anything.  A kind
    is nil or a kind that [StringKind] has interned, the only implementation of the
    interface in the repository.
    Some functions of the repository are arbitrary arguments, so that what is
    proved holds whatever they answer: the selectivity of a MATCH clause in
    [Reordering], which [Optimizer] gives the one of [PatternSteps], and the type
    hints that may rewrite the operands of a conjunction in [Constraints]; and, in
    [Batches], the flushes of upserts and of new relationships, which [PgBatch] gives
    those of [Upserts] and [WriteBatch], and the large update, of which only the rows
    are modelled.  The kind mapper of the translator is a function in [CountStore].

    ** Not modelled

    - The calls of the drivers and their transactions, the text of most of their
      statements, the Neo4j driver, graphcache, opengraph, retriever,
      ops and traversal: they send statements to a server, or pump channels and
      files around such calls.
    - The generated Cypher parser; the frontend and the formatters that build and
      print syntax trees; the parts of the translator that emit SQL for traversals
      (expansions, projections, type inference), whose correctness would be relative
      to semantics of two query languages that the repository does not contain.
    - The 32-bit bitmaps (a copy at another width) and the sketches (calls of a
      library), commands, tools and tests.
    - JSON forms, logging, timing and statistics counters that nothing reads.

    ** Plan

    Next: the translation of ordered counts (aggregate_traversal_count.go) and of
    collected identifiers, the renamer and the type hints of the translator, the
    transactions of a large update, the remaining thread-safe sets. *)

From stdpp Require Export base numbers list gmap sorting relations strings.
From Stdlib Require Export ZArith Lia.

#[export] Set Default Goal Selector "!".

Notation concat := List.concat (only parsing).

(** ** Machine integers

    A Go [uint64] is a [Z] in [0, 2^64); every arithmetic operation that can
    leave that range is followed by [wrap64]. *)

Declare Scope go_scope.
Delimit Scope go_scope with go.

Definition two64 : Z := 2 ^ 64.
Definition wrap64 (z : Z) : Z := z mod two64.
Definition is_u64 (z : Z) : Prop := (0 <= z < two64)%Z.

Notation "x +u y" := (wrap64 (x + y)) (at level 50, left associativity) : go_scope.
Notation "x -u y" := (wrap64 (x - y)) (at level 50, left associativity) : go_scope.
Notation "x *u y" := (wrap64 (x * y)) (at level 40, left associativity) : go_scope.

#[export] Instance is_u64_dec z : Decision (is_u64 z).
Proof. unfold is_u64. apply _. Defined.

(** ** Outcomes

    A call either returns, panics (index out of range, nil dereference), or
    is still running when the fuel of the model is spent. *)

Inductive outcome (A : Type) : Type :=
| Done (a : A)
| Panic
| Spent.
Arguments Done {A} a.
Arguments Panic {A}.
Arguments Spent {A}.

#[export] Instance outcome_ret : MRet outcome := fun A a => Done a.
#[export] Instance outcome_bind : MBind outcome := fun A B f o =>
  match o with Done a => f a | Panic => Panic | Spent => Spent end.

(** A slice read [l[i]]: out of range is a panic. *)
Definition slice_get {A} (l : list A) (i : Z) : outcome A :=
  if decide (0 <= i)%Z then
    match l !! Z.to_nat i with Some a => Done a | None => Panic end
  else Panic.

(** ** Iteration with an early exit

    [Each(delegate)]: the delegate returns whether the iteration goes on. *)

Fixpoint each {A St} (f : A -> St -> St * bool) (l : list A) (s : St) : St :=
  match l with
  | [] => s
  | x :: l' => let '(s', continue) := f x s in if continue then each f l' s' else s'
  end.

(** [for] loops: [inl] is the state of the next turn, [inr] leaves the loop. *)
Fixpoint iterate {St R} (fuel : nat) (step : St -> St + R) (s : St) : option R :=
  match fuel with
  | O => None
  | S fuel' =>
      match step s with
      | inl s' => iterate fuel' step s'
      | inr r => Some r
      end
  end.

(** Total correctness of a loop: an invariant, and a measure below the fuel. *)
Lemma iterate_total {St R} (I : St -> Prop) (m : St -> nat) (Q : R -> Prop) (step : St -> St + R) :
  (forall s, I s -> match step s with
                    | inl s' => I s' /\ m s' < m s
                    | inr r => Q r
                    end) ->
  forall fuel s, I s -> m s < fuel -> exists r, iterate fuel step s = Some r /\ Q r.
Proof.
  intros Hstep fuel; induction fuel as [|fuel IH]; intros s HI Hm; [lia|].
  simpl. specialize (Hstep s HI). destruct (step s) as [s'|r]; [|by eauto].
  destruct Hstep as [HI' Hlt]. apply IH; [done|lia].
Qed.

(** A delegate that always continues folds over the whole list. *)
Lemma each_continue {A St} (f : A -> St -> St * bool) (g : A -> St -> St) l s :
  (forall x s, f x s = (g x s, true)) ->
  each f l s = foldl (fun s x => g x s) s l.
Proof.
  intros Hf. revert s. induction l as [|x l IH]; intros s; simpl; [done|].
  by rewrite Hf.
Qed.

Lemma each_app {A St} (f : A -> St -> St * bool) (g : A -> St -> St) l1 l2 s :
  (forall x s, f x s = (g x s, true)) ->
  each f (l1 ++ l2) s = each f l2 (each f l1 s).
Proof. intros Hf. by rewrite !(each_continue f g), foldl_app by done. Qed.

(** ** Lists *)

Lemma StronglySorted_lt_NoDup (l : list Z) : StronglySorted Z.lt l -> NoDup l.
Proof.
  induction 1 as [|x l Hs IH Hall]; constructor; [|done].
  rewrite Forall_forall in Hall. intros Hin. specialize (Hall x Hin). lia.
Qed.

(** The members of a set in strictly ascending order. *)
Lemma merge_sort_strict (s : gset Z) : StronglySorted Z.lt (merge_sort Z.le (elements s)).
Proof.
  pose proof (StronglySorted_merge_sort Z.le (elements s)) as Hs.
  assert (Hnd : NoDup (merge_sort Z.le (elements s))).
  { rewrite merge_sort_Permutation. apply NoDup_elements. }
  induction Hs as [|x l Hs IH Hall]; constructor.
  - apply IH. by inversion Hnd.
  - apply NoDup_cons in Hnd as [Hx _]. rewrite Forall_forall in Hall |- *.
    intros y Hy. specialize (Hall y Hy). assert (x <> y) by (by intros ->). lia.
Qed.

Lemma StronglySorted_filter {A} (R : A -> A -> Prop) (P : A -> Prop) `{forall x, Decision (P x)} l :
  StronglySorted R l -> StronglySorted R (filter P l).
Proof.
  induction 1 as [|x l Hs IH Hall]; [constructor|]. rewrite filter_cons. case_decide; [|done].
  constructor; [done|]. apply Forall_forall. intros y [_ Hy]%list_elem_of_filter.
  rewrite Forall_forall in Hall. by apply Hall.
Qed.

(** Two strictly ascending lists with the same members are equal. *)
Lemma StronglySorted_lt_unique (l1 l2 : list Z) :
  StronglySorted Z.lt l1 -> StronglySorted Z.lt l2 ->
  (forall x, x ∈ l1 <-> x ∈ l2) -> l1 = l2.
Proof.
  intros H1 H2 Hin.
  assert (Hle : forall l, StronglySorted Z.lt l -> StronglySorted Z.le l).
  { induction 1 as [|x l Hs IH Hall]; constructor; [done|].
    eapply Forall_impl; [exact Hall|]. simpl. lia. }
  apply (StronglySorted_unique Z.le); auto.
  apply NoDup_Permutation; auto using StronglySorted_lt_NoDup.
Qed.

(** The order of a strictly increasing list is the order of its positions. *)
Lemma sorted_lookup_lt (l : list Z) i j x y :
  StronglySorted Z.lt l -> l !! i = Some x -> l !! j = Some y -> (x < y)%Z <-> (i < j)%nat.
Proof.
  intros Hs. revert i j. induction Hs as [|z l Hs IH Hall]; intros i j Hx Hy; [done|].
  rewrite Forall_forall in Hall. destruct i as [|i], j as [|j]; cbn in Hx, Hy; simplify_eq.
  - lia.
  - split; [lia|]. intros _. apply Hall. by eapply list_elem_of_lookup_2.
  - split; [|lia]. assert (y < x)%Z by (apply Hall; by eapply list_elem_of_lookup_2). lia.
  - rewrite (IH i j) by done. lia.
Qed.


Lemma foldl_snoc {A} (l acc : list A) : foldl (fun s x => s ++ [x]) acc l = acc ++ l.
Proof.
  revert acc. induction l as [|x l IH]; intros acc; simpl; [by rewrite app_nil_r|].
  rewrite IH, <- app_assoc. done.
Qed.

(** Appending copies of an upper bound keeps a list sorted. *)
Lemma StronglySorted_snoc_bound (l : list nat) k m :
  StronglySorted le l -> (forall x, x ∈ l -> x <= k) -> StronglySorted le (l ++ replicate m k).
Proof.
  induction 1 as [|x l Hs IH Hall]; intros Hk; simpl.
  - clear Hk. induction m as [|m IH]; simpl; constructor; [done|].
    apply Forall_forall. intros y [-> _]%elem_of_replicate. lia.
  - constructor; [apply IH; intros; apply Hk; by right|].
    apply Forall_app. split; [done|]. apply Forall_forall. intros y [-> _]%elem_of_replicate.
    apply Hk. by left.
Qed.

(** ** Slices *)

(** [l[start:end]] of a slice whose capacity is its length. *)
Definition slice_sub {A} (l : list A) (start end_ : Z) : outcome (list A) :=
  if decide (0 <= start <= end_ /\ end_ <= Z.of_nat (length l))%Z
  then Done (take (Z.to_nat end_ - Z.to_nat start) (drop (Z.to_nat start) l))
  else Panic.

(** [l[i] = x]. *)
Definition slice_set {A} (l : list A) (i : Z) (x : A) : outcome (list A) :=
  if decide (0 <= i < Z.of_nat (length l))%Z then Done (<[Z.to_nat i := x]> l) else Panic.

Lemma slice_get_Done {A} (l : list A) i x :
  slice_get l i = Done x <-> (0 <= i)%Z /\ l !! Z.to_nat i = Some x.
Proof.
  unfold slice_get. case_decide; [|split; [done|lia]].
  destruct (l !! Z.to_nat i); naive_solver.
Qed.

Lemma slice_get_nat {A} (l : list A) (i : nat) x :
  l !! i = Some x -> slice_get l (Z.of_nat i) = Done x.
Proof. intros Hi. apply slice_get_Done. rewrite Nat2Z.id. split; [lia|done]. Qed.

Lemma slice_get_last {A} (l : list A) x :
  last l = Some x -> slice_get l (Z.of_nat (length l) - 1) = Done x.
Proof.
  intros Hx. apply slice_get_Done. rewrite last_lookup in Hx. split.
  - destruct l; [done|cbn; lia].
  - rewrite <- Hx. f_equal. lia.
Qed.

Lemma slice_set_middle {A} (l1 l2 : list A) i x y :
  i = Z.of_nat (length l1) -> slice_set (l1 ++ y :: l2) i x = Done (l1 ++ x :: l2).
Proof.
  intros ->. unfold slice_set. rewrite decide_True.
  - rewrite Nat2Z.id. f_equal. rewrite <- (Nat.add_0_r (length l1)). by rewrite insert_app_r.
  - rewrite length_app. simpl. lia.
Qed.

Lemma seq_snoc i n : seq i (S n) = seq i n ++ [i + n].
Proof. rewrite <- (Nat.add_1_r n), seq_app. done. Qed.

Lemma take_S_concat {A} (ls : list (list A)) i r :
  ls !! i = Some r -> concat (take (S i) ls) = concat (take i ls) ++ r.
Proof. intros Hi. rewrite (take_S_r _ _ _ Hi), concat_app. simpl. by rewrite app_nil_r. Qed.

(** [each] with the flag that says whether it ran to the end. *)
Fixpoint each_flag {A St} (f : A -> St -> St * bool) (l : list A) (s : St) : St * bool :=
  match l with
  | [] => (s, true)
  | x :: l' => let '(s', continue) := f x s in if continue then each_flag f l' s' else (s', false)
  end.

Lemma each_flag_fst {A St} (f : A -> St -> St * bool) l s : (each_flag f l s).1 = each f l s.
Proof.
  revert s. induction l as [|x l IH]; intros s; simpl; [done|].
  destruct (f x s) as [s' []]; [apply IH|done].
Qed.

Lemma each_flag_app {A St} (f : A -> St -> St * bool) l1 l2 s :
  each f (l1 ++ l2) s =
  if (each_flag f l1 s).2 then each f l2 (each_flag f l1 s).1 else (each_flag f l1 s).1.
Proof.
  revert s. induction l1 as [|x l1 IH]; intros s; simpl; [done|].
  destruct (f x s) as [s' []]; [apply IH|done].
Qed.

Lemma wrap64_small z : (0 <= z < two64)%Z -> wrap64 z = z.
Proof. apply Z.mod_small. Qed.

Lemma wrap64_add_l a b : wrap64 (wrap64 a + b) = wrap64 (a + b).
Proof. apply Zplus_mod_idemp_l. Qed.
Lemma wrap64_add_r a b : wrap64 (a + wrap64 b) = wrap64 (a + b).
Proof. apply Zplus_mod_idemp_r. Qed.
Lemma wrap64_sub_l a b : wrap64 (wrap64 a - b) = wrap64 (a - b).
Proof. apply Zminus_mod_idemp_l. Qed.

(** ** Closures of extensionally equal relations *)

Lemma tc_ext {A} (R R' : relation A) x y :
  (forall a b, R a b <-> R' a b) -> tc R x y <-> tc R' x y.
Proof.
  intros HR. split; apply (tc_congruence (fun a => a)); intros a b; apply HR.
Qed.

Lemma rtc_ext {A} (R R' : relation A) x y :
  (forall a b, R a b <-> R' a b) -> rtc R x y <-> rtc R' x y.
Proof.
  intros HR. split; apply (rtc_congruence (fun a => a)); intros a b; apply HR.
Qed.

Lemma nsteps_ext {A} (R R' : relation A) n x y :
  (forall a b, R a b <-> R' a b) -> nsteps R n x y <-> nsteps R' n x y.
Proof.
  intros HR. split; apply (nsteps_congruence (fun a => a)); intros a b; apply HR.
Qed.

(** Skipping elements inside the delegate is filtering the list. *)
Lemma each_filter {A St} (P : A -> Prop) `{forall x, Decision (P x)} (p : A -> bool)
    (f : A -> St -> St * bool) l st :
  (forall x, p x = bool_decide (P x)) ->
  each (fun x st => if p x then f x st else (st, true)) l st = each f (filter P l) st.
Proof.
  intros Hp. revert st. induction l as [|x l IH]; intros st; [done|].
  cbn [each]. rewrite Hp, filter_cons. case_bool_decide as HP.
  - rewrite decide_True by done. cbn [each]. destruct (f x st) as [st' []]; [apply IH|done].
  - rewrite decide_False by done. apply IH.
Qed.

(** Counting with a wrapping counter. *)
Lemma each_count {A} (P : A -> Prop) `{forall x, Decision (P x)} (p : A -> bool) l k :
  (forall x, p x = bool_decide (P x)) ->
  (0 <= k)%Z -> (k + Z.of_nat (length l) < two64)%Z ->
  each (fun x count => (if p x then wrap64 (count + 1) else count, true)) l k =
  (k + Z.of_nat (length (filter P l)))%Z.
Proof.
  intros Hp. revert k. induction l as [|x l IH]; intros k Hk Hlt; simpl in *; [lia|].
  rewrite Hp, filter_cons. case_bool_decide as HP.
  - rewrite decide_True by done. simpl. rewrite wrap64_small by lia. rewrite IH by lia. lia.
  - rewrite decide_False by done. apply IH; lia.
Qed.

Lemma omap_length_le {A C} (f : A -> option C) (l : list A) : length (omap f l) <= length l.
Proof.
  induction l as [|x l IH]; [done|]. change (x :: l) with ([x] ++ l) at 1.
  rewrite omap_app, length_app. assert (length (omap f [x]) <= 1) by (cbn; destruct (f x); simpl; lia).
  cbn [length]. lia.
Qed.

(** ** Double-ended queues

    A deque is the list of its elements from front to back. *)

Definition deque_PopBack {A} (q : list A) : option (A * list A) :=
  match reverse q with [] => None | x :: q' => Some (x, reverse q') end.

Lemma deque_PopBack_snoc {A} (q : list A) x : deque_PopBack (q ++ [x]) = Some (x, q).
Proof. unfold deque_PopBack. by rewrite reverse_snoc, reverse_involutive. Qed.

Lemma deque_PopBack_nil {A} : deque_PopBack (@nil A) = None.
Proof. done. Qed.

Lemma iterate_mono {St R} fuel fuel' (step : St -> St + R) s r :
  iterate fuel step s = Some r -> fuel <= fuel' -> iterate fuel' step s = Some r.
Proof.
  revert fuel' s. induction fuel as [|fuel IH]; intros fuel' s Hr Hle; [done|].
  destruct fuel' as [|fuel']; [lia|]. simpl in *. destruct (step s) as [s'|r']; [|done].
  apply IH; [done|lia].
Qed.

Lemma sum_list_with_fmap {A C} (f : C -> nat) (g : A -> C) l :
  sum_list_with f (g <$> l) = sum_list_with (fun x => f (g x)) l.
Proof. induction l as [|x l IH]; [done|]. rewrite fmap_cons. cbn [sum_list_with]. by rewrite IH. Qed.

Lemma elem_of_concat {A} (x : A) ls : x ∈ concat ls <-> exists l, x ∈ l /\ l ∈ ls.
Proof.
  induction ls as [|l ls IH]; cbn [List.concat].
  - split; [by intros ?%elem_of_nil|]. by intros (l & _ & ?%elem_of_nil).
  - rewrite elem_of_app, IH. split.
    + intros [Hx|(l' & Hx & Hl')]; [exists l; split; [done|by left]|exists l'; split; [done|by right]].
    + intros (l' & Hx & [->|Hl']%elem_of_cons); [by left|right; eauto].
Qed.

Lemma iterate_ext {St R} fuel (f g : St -> St + R) s :
  (forall s, f s = g s) -> iterate fuel f s = iterate fuel g s.
Proof.
  intros Hfg. revert s. induction fuel as [|fuel IH]; intros s; simpl; [done|].
  rewrite Hfg. by destruct (g s).
Qed.

Lemma StronglySorted_impl_in {A} (P Q : A -> A -> Prop) l :
  (forall x y, x ∈ l -> y ∈ l -> P x y -> Q x y) -> StronglySorted P l -> StronglySorted Q l.
Proof.
  induction l as [|x l IH]; intros HPQ Hs; [constructor|].
  apply StronglySorted_cons in Hs as [Hx Hs]. apply StronglySorted_cons. split.
  - apply Forall_forall. intros y Hy. rewrite Forall_forall in Hx.
    apply HPQ; [by left|by right|by apply Hx].
  - apply IH; [|done]. intros a b Ha Hb. apply HPQ; by right.
Qed.

(** ** Loops that never end *)

(** The state after [n] turns that do not leave the loop. *)
Fixpoint turns {St R} (n : nat) (step : St -> St + R) (s : St) : option St :=
  match n with
  | O => Some s
  | S n' => match step s with inl s' => turns n' step s' | inr _ => None end
  end.

Lemma iterate_turns {St R} n fuel (step : St -> St + R) s s' :
  turns n step s = Some s' -> iterate (n + fuel) step s = iterate fuel step s'.
Proof.
  revert s. induction n as [|n IH]; intros s; cbn; [by intros [= ->]|].
  destruct (step s); [apply IH|done].
Qed.

(** A loop that comes back to where it was runs for ever. *)
Lemma iterate_cycle {St R} n fuel (step : St -> St + R) s :
  turns (S n) step s = Some s -> iterate fuel step s = None.
Proof.
  intros Hc. destruct (iterate fuel step s) as [r|] eqn:Hr; [|done]. exfalso.
  assert (Hm : forall m, iterate (m * S n) step s = None).
  { induction m as [|m IH]; [done|]. cbn [Nat.mul]. by rewrite (iterate_turns (S n) (m * S n) _ _ s Hc). }
  specialize (Hm fuel). rewrite (iterate_mono fuel (fuel * S n) _ _ r Hr) in Hm; [done|lia].
Qed.
