(* ===== verification/Bitmap.v ===== *)
(** * Package cardinality: bitmaps of 64-bit identifiers *)

From S2P Require Import Prelude.

(** ** The roaring bitmap library *)

Class Roaring (B : Type) := {
  rb_New : B;
  rb_Add : Z -> B -> B;
  rb_AddMany : list Z -> B -> B;
  rb_CheckedAdd : Z -> B -> B * bool;
  rb_Remove : Z -> B -> B;
  rb_Contains : Z -> B -> bool;
  rb_Or : B -> B -> B;
  rb_And : B -> B -> B;
  rb_Xor : B -> B -> B;
  rb_AndNot : B -> B -> B;
  rb_Clear : B -> B;
  rb_Clone : B -> B;
  rb_GetCardinality : B -> Z;
  rb_ToArray : B -> list Z;
  rb_Iterator : B -> list Z
}.

Class RoaringLaws (B : Type) `{Roaring B} : Prop := {
  law_New x : rb_Contains x rb_New = false;
  law_Add x y b : rb_Contains x (rb_Add y b) = bool_decide (x = y) || rb_Contains x b;
  law_AddMany x l b : rb_Contains x (rb_AddMany l b) = bool_decide (x ∈ l) || rb_Contains x b;
  law_CheckedAdd y b : rb_CheckedAdd y b = (rb_Add y b, negb (rb_Contains y b));
  law_Remove x y b : rb_Contains x (rb_Remove y b) = bool_decide (x <> y) && rb_Contains x b;
  law_Or x b c : rb_Contains x (rb_Or b c) = rb_Contains x b || rb_Contains x c;
  law_And x b c : rb_Contains x (rb_And b c) = rb_Contains x b && rb_Contains x c;
  law_Xor x b c : rb_Contains x (rb_Xor b c) = xorb (rb_Contains x b) (rb_Contains x c);
  law_AndNot x b c : rb_Contains x (rb_AndNot b c) = rb_Contains x b && negb (rb_Contains x c);
  law_Clear x b : rb_Contains x (rb_Clear b) = false;
  law_Clone b : rb_Clone b = b;
  law_ToArray_sorted b : StronglySorted Z.lt (rb_ToArray b);
  law_ToArray x b : x ∈ rb_ToArray b <-> rb_Contains x b = true;
  law_Iterator b : rb_Iterator b = rb_ToArray b;
  law_GetCardinality b : rb_GetCardinality b = Z.of_nat (length (rb_ToArray b))
}.

(** A model of the library: finite sets of integers. *)

#[export] Instance roaring_gset : Roaring (gset Z) := {
  rb_New := ∅;
  rb_Add x s := {[x]} ∪ s;
  rb_AddMany l s := list_to_set l ∪ s;
  rb_CheckedAdd x s := ({[x]} ∪ s, negb (bool_decide (x ∈ s)));
  rb_Remove x s := s ∖ {[x]};
  rb_Contains x s := bool_decide (x ∈ s);
  rb_Or s t := s ∪ t;
  rb_And s t := s ∩ t;
  rb_Xor s t := (s ∖ t) ∪ (t ∖ s);
  rb_AndNot s t := s ∖ t;
  rb_Clear _ := ∅;
  rb_Clone s := s;
  rb_GetCardinality s := Z.of_nat (length (merge_sort Z.le (elements s)));
  rb_ToArray s := merge_sort Z.le (elements s);
  rb_Iterator s := merge_sort Z.le (elements s)
}.

#[export] Instance roaring_gset_laws : RoaringLaws (gset Z).
Proof.
  split; intros; simpl; try done.
  all: try (repeat case_bool_decide; simpl; done || set_solver).
  - apply merge_sort_strict.
  - rewrite merge_sort_Permutation, elem_of_elements, bool_decide_eq_true. done.
Qed.

(** ** bitmap64 and the provider interfaces *)

Section cardinality.
Context {B : Type} `{HB : Roaring B}.

Definition NewBitmap64 : B := rb_New.

Definition bitmap64_Add (values : list Z) (s : B) : B := rb_AddMany values s.

Definition NewBitmap64With (values : list Z) : B := bitmap64_Add values NewBitmap64.

Definition bitmap64_Clear (s : B) : B := rb_Clear s.

Definition bitmap64_Each {St} (delegate : Z -> St -> St * bool) (s : B) (st : St) : St :=
  each delegate (rb_Iterator s) st.

Definition bitmap64_Slice (s : B) : list Z := rb_ToArray s.

Definition bitmap64_Contains (value : Z) (s : B) : bool := rb_Contains value s.

Definition bitmap64_CheckedAdd (value : Z) (s : B) : B * bool := rb_CheckedAdd value s.

Definition bitmap64_Remove (value : Z) (s : B) : B := rb_Remove value s.

Definition bitmap64_Cardinality (s : B) : Z := rb_GetCardinality s.

Definition bitmap64_Clone (s : B) : B := rb_Clone s.

(** The implementations of [Duplex[uint64]]: a bitmap, or a duplex behind the
    mutex of [threadSafeDuplex]. The mutex serialises the calls, so each call
    is one step on the wrapped value. *)
Inductive Duplex : Type :=
| Bitmap64 (bitmap : B)
| ThreadSafe (provider : Duplex).

Definition ThreadSafeDuplex (provider : Duplex) : Duplex := ThreadSafe provider.

Fixpoint Duplex_Each {St} (delegate : Z -> St -> St * bool) (d : Duplex) (st : St) : St :=
  match d with
  | Bitmap64 b => bitmap64_Each delegate b st
  | ThreadSafe p => Duplex_Each delegate p st
  end.

Fixpoint Duplex_Contains (value : Z) (d : Duplex) : bool :=
  match d with
  | Bitmap64 b => bitmap64_Contains value b
  | ThreadSafe p => Duplex_Contains value p
  end.

Fixpoint Duplex_Cardinality (d : Duplex) : Z :=
  match d with
  | Bitmap64 b => bitmap64_Cardinality b
  | ThreadSafe p => Duplex_Cardinality p
  end.

Fixpoint Duplex_Slice (d : Duplex) : list Z :=
  match d with
  | Bitmap64 b => bitmap64_Slice b
  | ThreadSafe p => Duplex_Slice p
  end.

Fixpoint Duplex_Clone (d : Duplex) : Duplex :=
  match d with
  | Bitmap64 b => Bitmap64 (bitmap64_Clone b)
  | ThreadSafe p => ThreadSafeDuplex (Duplex_Clone p)
  end.

(** The type switches of the binary operations: a [bitmap64] operand is passed
    to the library, any other [Duplex] is enumerated with [Each]. *)
Definition bitmap64_Or (s : B) (provider : Duplex) : B :=
  match provider with
  | Bitmap64 b => rb_Or s b
  | ThreadSafe _ => Duplex_Each (fun nextValue s => (bitmap64_Add [nextValue] s, true)) provider s
  end.

Definition bitmap64_Xor (s : B) (provider : Duplex) : B :=
  match provider with
  | Bitmap64 b => rb_Xor s b
  | ThreadSafe _ =>
      let providerCopy :=
        Duplex_Each (fun value c => (rb_Add value c, true)) provider rb_New in
      rb_Xor s providerCopy
  end.

(** [And] and [AndNot] remove values from the receiver while its own iterator
    runs when the operand is not a [bitmap64]; the library leaves an iterator
    over a modified bitmap undefined, so that branch has no value ([None]). *)
Definition bitmap64_And (s : B) (provider : Duplex) : option B :=
  match provider with
  | Bitmap64 b => Some (rb_And s b)
  | ThreadSafe _ => None
  end.

Definition bitmap64_AndNot (s : B) (provider : Duplex) : option B :=
  match provider with
  | Bitmap64 b => Some (rb_AndNot s b)
  | ThreadSafe _ => None
  end.

(** State-changing calls on any duplex; the wrapper delegates. *)
Fixpoint Duplex_update (f : B -> B) (d : Duplex) : Duplex :=
  match d with
  | Bitmap64 b => Bitmap64 (f b)
  | ThreadSafe p => ThreadSafe (Duplex_update f p)
  end.

Definition Duplex_Add (values : list Z) (d : Duplex) : Duplex :=
  Duplex_update (bitmap64_Add values) d.
Definition Duplex_Remove (value : Z) (d : Duplex) : Duplex :=
  Duplex_update (bitmap64_Remove value) d.
Definition Duplex_Clear (d : Duplex) : Duplex := Duplex_update bitmap64_Clear d.
Definition Duplex_Or (other : Duplex) (d : Duplex) : Duplex :=
  Duplex_update (fun s => bitmap64_Or s other) d.
Definition Duplex_Xor (other : Duplex) (d : Duplex) : Duplex :=
  Duplex_update (fun s => bitmap64_Xor s other) d.

Fixpoint Duplex_CheckedAdd (value : Z) (d : Duplex) : Duplex * bool :=
  match d with
  | Bitmap64 b => let '(b', added) := bitmap64_CheckedAdd value b in (Bitmap64 b', added)
  | ThreadSafe p => let '(p', added) := Duplex_CheckedAdd value p in (ThreadSafe p', added)
  end.

(** *** Commutative unions of duplexes *)

Definition DuplexCommutation : Type := list Duplex.

Definition CommutativeOr (duplexes : list Duplex) : DuplexCommutation := duplexes.

Definition DuplexCommutation_Or (s : DuplexCommutation) (duplexes : list Duplex)
  : DuplexCommutation := s ++ duplexes.

Fixpoint DuplexCommutation_Contains (value : Z) (s : DuplexCommutation) : bool :=
  match s with
  | [] => false
  | duplex :: s' =>
      if (0 <? Duplex_Cardinality duplex)%Z && Duplex_Contains value duplex then true
      else DuplexCommutation_Contains value s'
  end.

Record CommutativeDuplexes : Type := {
  cd_or : list DuplexCommutation;
  cd_and : list DuplexCommutation
}.

Definition CommutativeDuplexes_Or (dc : DuplexCommutation) (s : CommutativeDuplexes) :=
  {| cd_or := cd_or s ++ [dc]; cd_and := cd_and s |}.
Definition CommutativeDuplexes_And (dc : DuplexCommutation) (s : CommutativeDuplexes) :=
  {| cd_or := cd_or s; cd_and := cd_and s ++ [dc] |}.

Fixpoint valueInOrSets (value : Z) (l : list DuplexCommutation) : bool :=
  match l with
  | [] => false
  | orSet :: l' => if DuplexCommutation_Contains value orSet then true else valueInOrSets value l'
  end.

Fixpoint valueInAndSets (value : Z) (l : list DuplexCommutation) : bool :=
  match l with
  | [] => true
  | andSet :: l' =>
      if negb (DuplexCommutation_Contains value andSet) then false else valueInAndSets value l'
  end.

Definition CommutativeDuplexes_Contains (value : Z) (s : CommutativeDuplexes) : bool :=
  valueInOrSets value (cd_or s) && valueInAndSets value (cd_and s).

(** ** The set a bitmap denotes *)

Definition bset (b : B) : gset Z := list_to_set (rb_ToArray b).

Fixpoint Duplex_set (d : Duplex) : gset Z :=
  match d with Bitmap64 b => bset b | ThreadSafe p => Duplex_set p end.

Context `{!RoaringLaws B}.

Lemma bset_Contains x b : bitmap64_Contains x b = bool_decide (x ∈ bset b).
Proof.
  unfold bset, bitmap64_Contains. apply eq_true_iff_eq.
  by rewrite bool_decide_eq_true, elem_of_list_to_set, law_ToArray.
Qed.

Lemma elem_of_bset x b : x ∈ bset b <-> rb_Contains x b = true.
Proof. unfold bset. by rewrite elem_of_list_to_set, law_ToArray. Qed.

Lemma elem_of_Slice x b : x ∈ bitmap64_Slice b <-> x ∈ bset b.
Proof. by rewrite elem_of_bset, <- law_ToArray. Qed.

Lemma Slice_NoDup b : NoDup (bitmap64_Slice b).
Proof. apply StronglySorted_lt_NoDup, law_ToArray_sorted. Qed.

Lemma length_Slice b : length (bitmap64_Slice b) = size (bset b).
Proof. unfold bset. by rewrite size_list_to_set by apply Slice_NoDup. Qed.

(** Bitmaps with the same members enumerate the same sequence. *)
Lemma Slice_ext b c : bset b = bset c -> bitmap64_Slice b = bitmap64_Slice c.
Proof.
  intros Heq. apply StronglySorted_lt_unique; try apply law_ToArray_sorted.
  intros x. change (x ∈ bitmap64_Slice b <-> x ∈ bitmap64_Slice c).
  by rewrite !elem_of_Slice, Heq.
Qed.

Lemma Each_Slice {St} (f : Z -> St -> St * bool) b st :
  bitmap64_Each f b st = each f (bitmap64_Slice b) st.
Proof. unfold bitmap64_Each. by rewrite law_Iterator. Qed.

Lemma bset_New : bset NewBitmap64 = ∅.
Proof. apply set_eq; intros x. rewrite elem_of_bset. unfold NewBitmap64. rewrite law_New. set_solver. Qed.

Lemma bset_rb_Add x b : bset (rb_Add x b) = {[x]} ∪ bset b.
Proof.
  apply set_eq; intros y.
  rewrite elem_of_union, elem_of_singleton, !elem_of_bset, law_Add, orb_true_iff, bool_decide_eq_true.
  done.
Qed.

Lemma bset_Add l b : bset (bitmap64_Add l b) = list_to_set l ∪ bset b.
Proof.
  apply set_eq; intros y. unfold bitmap64_Add.
  rewrite elem_of_union, elem_of_list_to_set, !elem_of_bset, law_AddMany, orb_true_iff,
    bool_decide_eq_true. done.
Qed.

Lemma bset_With l : bset (NewBitmap64With l) = list_to_set l.
Proof. unfold NewBitmap64With. rewrite bset_Add, bset_New. set_solver. Qed.

Lemma bset_CheckedAdd x b :
  bitmap64_CheckedAdd x b = (rb_Add x b, negb (bool_decide (x ∈ bset b))).
Proof. unfold bitmap64_CheckedAdd. rewrite law_CheckedAdd, <- bset_Contains. done. Qed.

Lemma bset_Remove x b : bset (bitmap64_Remove x b) = bset b ∖ {[x]}.
Proof.
  apply set_eq; intros y. unfold bitmap64_Remove.
  rewrite elem_of_difference, elem_of_singleton, !elem_of_bset, law_Remove, andb_true_iff,
    bool_decide_eq_true. tauto.
Qed.

Lemma bset_rb_Or b c : bset (rb_Or b c) = bset b ∪ bset c.
Proof.
  apply set_eq; intros y. rewrite elem_of_union, !elem_of_bset, law_Or, orb_true_iff. done.
Qed.

Lemma bset_rb_Xor b c : bset (rb_Xor b c) = (bset b ∖ bset c) ∪ (bset c ∖ bset b).
Proof.
  apply set_eq; intros y.
  rewrite elem_of_union, !elem_of_difference, !elem_of_bset, law_Xor.
  destruct (rb_Contains y b), (rb_Contains y c); simpl; intuition congruence.
Qed.

Lemma bset_Clear b : bset (bitmap64_Clear b) = ∅.
Proof.
  apply set_eq; intros y. unfold bitmap64_Clear. rewrite elem_of_bset, law_Clear. set_solver.
Qed.

Lemma Cardinality_size b : bitmap64_Cardinality b = Z.of_nat (size (bset b)).
Proof. unfold bitmap64_Cardinality. by rewrite law_GetCardinality, <- length_Slice. Qed.

(** Enumerating a duplex is enumerating its members in ascending order. *)
Lemma Duplex_Each_Slice {St} (f : Z -> St -> St * bool) d st :
  Duplex_Each f d st = each f (Duplex_Slice d) st.
Proof. induction d as [b|p IH]; simpl; [apply Each_Slice|done]. Qed.

Lemma elem_of_Duplex_Slice x d : x ∈ Duplex_Slice d <-> x ∈ Duplex_set d.
Proof. induction d as [b|p IH]; simpl; [apply elem_of_Slice|done]. Qed.

Lemma Duplex_Contains_spec x d : Duplex_Contains x d = bool_decide (x ∈ Duplex_set d).
Proof. induction d as [b|p IH]; simpl; [apply bset_Contains|done]. Qed.

Lemma Duplex_Cardinality_spec d : Duplex_Cardinality d = Z.of_nat (size (Duplex_set d)).
Proof. induction d as [b|p IH]; simpl; [apply Cardinality_size|done]. Qed.

Lemma foldl_Add_bset (add : Z -> B -> B) l b :
  (forall x b, bset (add x b) = {[x]} ∪ bset b) ->
  bset (foldl (fun s x => add x s) b l) = list_to_set l ∪ bset b.
Proof.
  intros Hadd. revert b. induction l as [|x l IH]; intros b; simpl; [set_solver|].
  rewrite IH, Hadd. set_solver.
Qed.

(** Both branches of the type switch of [Or] and [Xor] denote the set operation. *)
Lemma bset_Or b d : bset (bitmap64_Or b d) = bset b ∪ Duplex_set d.
Proof.
  destruct d as [c|p]; [apply bset_rb_Or|].
  cbn [bitmap64_Or]. rewrite Duplex_Each_Slice.
  rewrite (each_continue _ (fun x s => bitmap64_Add [x] s)) by done.
  rewrite (foldl_Add_bset (fun x s => bitmap64_Add [x] s)) by (intros; rewrite bset_Add; set_solver).
  apply set_eq; intros x.
  rewrite !elem_of_union, elem_of_list_to_set, elem_of_Duplex_Slice. tauto.
Qed.

Lemma bset_Xor b d :
  bset (bitmap64_Xor b d) = (bset b ∖ Duplex_set d) ∪ (Duplex_set d ∖ bset b).
Proof.
  destruct d as [c|p]; [apply bset_rb_Xor|].
  cbn [bitmap64_Xor]. rewrite bset_rb_Xor. f_equal; f_equal.
  all: rewrite Duplex_Each_Slice, (each_continue _ rb_Add) by done.
  all: rewrite (foldl_Add_bset rb_Add) by (intros; apply bset_rb_Add).
  all: change (rb_New) with NewBitmap64; rewrite bset_New.
  all: apply set_eq; intros x; rewrite elem_of_union, elem_of_list_to_set, elem_of_Duplex_Slice;
    set_solver.
Qed.

Lemma DuplexCommutation_Contains_spec x s :
  DuplexCommutation_Contains x s = true <-> exists d, d ∈ s /\ x ∈ Duplex_set d.
Proof.
  induction s as [|d s IH]; simpl; [set_solver|].
  destruct (_ && _) eqn:E.
  - apply andb_true_iff in E as [_ E]. rewrite Duplex_Contains_spec, bool_decide_eq_true in E.
    split; [|done]. intros _. exists d. split; [by left|done].
  - rewrite IH. split.
    + intros (d' & Hd & Hx). exists d'. split; [by right|done].
    + intros (d' & [->|Hd]%elem_of_cons & Hx); [|by eauto]. exfalso.
      rewrite Duplex_Contains_spec, bool_decide_eq_true_2, andb_true_r in E by done.
      rewrite Duplex_Cardinality_spec in E. apply Z.ltb_ge in E.
      assert (size (Duplex_set d) = 0) as Hs by lia.
      apply size_empty_inv in Hs. set_solver.
Qed.
End cardinality.

Arguments Duplex B : clear implicits.
Arguments DuplexCommutation B : clear implicits.
Arguments CommutativeDuplexes B : clear implicits.

#[export] Hint Rewrite @bset_New @bset_rb_Add @bset_Add @bset_With @bset_Remove @bset_rb_Or
  @bset_rb_Xor @bset_Clear @bset_Or @bset_Xor using typeclasses eauto : bset.
