(* ===== verification/Digraph.v ===== *)
(** * Directed graphs: the interface, reachability and breadth-first trees *)

From Stdlib Require Import SpecFloat.
From S2P Require Import Prelude Bitmap.

(** ** graph.Direction *)

Inductive Direction : Type := DirectionInbound | DirectionOutbound | DirectionBoth.

#[export] Instance Direction_eq_dec : EqDecision Direction.
Proof. solve_decision. Defined.

Definition Direction_Reverse (s : Direction) : Direction :=
  match s with
  | DirectionInbound => DirectionOutbound
  | DirectionOutbound => DirectionInbound
  | DirectionBoth => DirectionBoth
  end.

(** [PickID] and [PickReverseID]: [None] is [ErrInvalidDirection]. *)
Definition Direction_PickID (s : Direction) (start end_ : Z) : option Z :=
  match s with
  | DirectionInbound => Some end_
  | DirectionOutbound => Some start
  | DirectionBoth => None
  end.

Definition Direction_PickReverseID (s : Direction) (start end_ : Z) : option Z :=
  match s with
  | DirectionInbound => Some start
  | DirectionOutbound => Some end_
  | DirectionBoth => None
  end.

(** ** container.DirectedGraph

    The interface as the algorithms see it: the node count and two
    enumerations with an early exit. *)

Class DirectedGraph (G : Type) := {
  NumNodes : G -> Z;
  EachNode : forall {St : Type}, G -> (Z -> St -> St * bool) -> St -> St;
  EachAdjacentNode :
    forall {St : Type}, G -> Z -> Direction -> (Z -> St -> St * bool) -> St -> St
}.

(** What an implementation promises about one graph value: the enumerations
    run over fixed sequences, nodes are listed once, adjacency stays within
    the nodes, and the two directions mirror each other. *)
Class LawfulDigraph {G : Type} `{DirectedGraph G} (g : G) := {
  dg_nodes : list Z;
  dg_adj : Z -> Direction -> list Z;
  dg_NoDup : NoDup dg_nodes;
  dg_NumNodes : NumNodes g = Z.of_nat (length dg_nodes);
  dg_EachNode : forall St (f : Z -> St -> St * bool) s, EachNode g f s = each f dg_nodes s;
  dg_EachAdjacentNode : forall St n d (f : Z -> St -> St * bool) s,
    EachAdjacentNode g n d f s = each f (dg_adj n d) s;
  dg_closed : forall x y d, y ∈ dg_adj x d -> y ∈ dg_nodes;
  dg_mirror : forall x y, y ∈ dg_adj x DirectionOutbound <-> x ∈ dg_adj y DirectionInbound
}.

Arguments dg_nodes {G _} g {_}.
Arguments dg_adj {G _} g {_} _ _.

(** One step along the graph in a direction. *)
Definition dg_edge {G} `{DirectedGraph G} (g : G) `{!LawfulDigraph g} (d : Direction) (x y : Z) : Prop :=
  y ∈ dg_adj g x d.

(** ** Package-level functions of container/digraph.go *)

(** The 64-bit floating-point weights of [PathTerminal]. *)
Definition Weight : Type := spec_float.
Definition Weight_mul : Weight -> Weight -> Weight := SFmul 53 1024.

Record PathTerminal : Type := {
  pt_Node : Z;
  pt_Weight : Weight;
  pt_Distance : nat
}.

Section operations.
Context {G B : Type} `{DirectedGraph G} `{Roaring B}.

Definition Degrees (digraph : G) (node : Z) (direction : Direction) : Z :=
  EachAdjacentNode digraph node direction (fun _ degrees => (wrap64 (degrees + 1), true)) 0%Z.

Definition AdjacentNodes (digraph : G) (node : Z) (direction : Direction) : list Z :=
  EachAdjacentNode digraph node direction (fun adjacent nodes => (nodes ++ [adjacent], true)) [].

Definition Dimensions (digraph : G) (direction : Direction) : Z * Z :=
  let largestRow :=
    EachNode digraph
      (fun node largestRow =>
         let degrees := Degrees digraph node direction in
         (if (largestRow <? degrees)%Z then degrees else largestRow, true)) 0%Z in
  (NumNodes digraph, largestRow).

(** One turn of the queue loop of [Reach]. *)
Definition Reach_visit (adjacentNodeID : Z) (st : B * list Z) : (B * list Z) * bool :=
  let '(visited, queue) := st in
  let '(visited', added) := bitmap64_CheckedAdd adjacentNodeID visited in
  ((visited', if added then queue ++ [adjacentNodeID] else queue), true).

Definition Reach_step (digraph : G) (direction : Direction) (st : B * list Z)
  : (B * list Z) + B :=
  match st with
  | (visited, []) => inr visited
  | (visited, nextNode :: queue) =>
      inl (EachAdjacentNode digraph nextNode direction Reach_visit (visited, queue))
  end.

(** Every node enters the queue at most once, besides the start. *)
Definition digraph_fuel (digraph : G) : nat := S (S (Z.to_nat (NumNodes digraph))).

Definition Reach (digraph : G) (nodeID : Z) (direction : Direction) : option B :=
  iterate (digraph_fuel digraph) (Reach_step digraph direction) (NewBitmap64, [nodeID]).

Definition BFSTree_visit (nextCursor : PathTerminal) (adjacentNodeID : Z)
    (st : B * list PathTerminal * list PathTerminal)
  : (B * list PathTerminal * list PathTerminal) * bool :=
  let '(visited, queue, terminals) := st in
  let '(visited', added) := bitmap64_CheckedAdd adjacentNodeID visited in
  if added then
    let terminalCursor :=
      {| pt_Node := adjacentNodeID; pt_Weight := S754_zero false;
         pt_Distance := pt_Distance nextCursor + 1 |} in
    ((visited', queue ++ [terminalCursor], terminals ++ [terminalCursor]), true)
  else ((visited', queue, terminals), true).

Definition BFSTree_step (digraph : G) (direction : Direction)
    (st : B * list PathTerminal * list PathTerminal)
  : (B * list PathTerminal * list PathTerminal) + list PathTerminal :=
  match st with
  | (visited, [], terminals) => inr terminals
  | (visited, nextCursor :: queue, terminals) =>
      inl (EachAdjacentNode digraph (pt_Node nextCursor) direction (BFSTree_visit nextCursor)
             (visited, queue, terminals))
  end.

Definition BFSTree_root (nodeID : Z) : PathTerminal :=
  {| pt_Node := nodeID; pt_Weight := S754_zero false; pt_Distance := 0 |}.

Definition BFSTree (digraph : G) (nodeID : Z) (direction : Direction) : option (list PathTerminal) :=
  iterate (digraph_fuel digraph) (BFSTree_step digraph direction)
    (NewBitmap64, [BFSTree_root nodeID], []).
End operations.

(** ** The nodes a neighbour list adds to a visited set

    [fresh v l] lists the members of [l] outside [v], at their first
    occurrence: the order in which the searches discover them. *)
Fixpoint fresh (v : gset Z) (l : list Z) : list Z :=
  match l with
  | [] => []
  | x :: l' => if decide (x ∈ v) then fresh v l' else x :: fresh ({[x]} ∪ v) l'
  end.

Lemma elem_of_fresh v l x : x ∈ fresh v l <-> x ∈ l /\ x ∉ v.
Proof.
  revert v. induction l as [|y l IH]; intros v; simpl; [set_solver|].
  case_decide; rewrite ?elem_of_cons, IH, ?elem_of_cons, ?not_elem_of_union, ?not_elem_of_singleton.
  - split; [tauto|]. by intros [[->|] ?].
  - split.
    + intros [->|]; tauto.
    + intros [[->|] ?]; [by left|]. destruct (decide (x = y)) as [->|]; tauto.
Qed.

Lemma fresh_NoDup v l : NoDup (fresh v l).
Proof.
  revert v. induction l as [|y l IH]; intros v; simpl; [constructor|].
  case_decide; [done|]. constructor; [|done]. rewrite elem_of_fresh. set_solver.
Qed.

Lemma fresh_disjoint v l : list_to_set (fresh v l) ## v.
Proof. intros x Hx. rewrite elem_of_list_to_set, elem_of_fresh in Hx. set_solver. Qed.

Section fresh_visits.
Context {B : Type} `{Roaring B} `{!RoaringLaws B}.

Lemma Reach_visit_each l (v : B) q :
  exists v', each Reach_visit l (v, q) = (v', q ++ fresh (bset v) l) /\
             bset v' = list_to_set l ∪ bset v.
Proof.
  revert v q. induction l as [|x l IH]; intros v q; simpl.
  - exists v. rewrite app_nil_r. set_solver.
  - rewrite bset_CheckedAdd. simpl.
    destruct (IH (rb_Add x v) (if negb (bool_decide (x ∈ bset v)) then q ++ [x] else q))
      as (v' & -> & Hv').
    exists v'. split.
    + f_equal. autorewrite with bset. case_bool_decide; simpl.
      * rewrite decide_True by done. by replace ({[x]} ∪ bset v) with (bset v) by set_solver.
      * rewrite decide_False by done. by rewrite <- app_assoc.
    + rewrite Hv'. autorewrite with bset. set_solver.
Qed.

Definition BFSTree_child (c : PathTerminal) (x : Z) : PathTerminal :=
  {| pt_Node := x; pt_Weight := S754_zero false; pt_Distance := pt_Distance c + 1 |}.

Lemma BFSTree_visit_each c l (v : B) q ts :
  exists v', each (BFSTree_visit c) l (v, q, ts) =
               (v', q ++ (BFSTree_child c <$> fresh (bset v) l),
                    ts ++ (BFSTree_child c <$> fresh (bset v) l)) /\
             bset v' = list_to_set l ∪ bset v.
Proof.
  revert v q ts. induction l as [|x l IH]; intros v q ts; simpl.
  - exists v. rewrite !app_nil_r. set_solver.
  - rewrite bset_CheckedAdd. case_bool_decide; simpl.
    + rewrite decide_True by done.
      destruct (IH (rb_Add x v) q ts) as (v' & -> & Hv'). exists v'. rewrite Hv'.
      autorewrite with bset. replace ({[x]} ∪ bset v) with (bset v) by set_solver.
      split; [done|set_solver].
    + rewrite decide_False by done.
      destruct (IH (rb_Add x v) (q ++ [BFSTree_child c x]) (ts ++ [BFSTree_child c x]))
        as (v' & HE & Hv'). unfold BFSTree_child in HE at 1 2. rewrite HE. exists v'. rewrite Hv'.
      autorewrite with bset. rewrite <- !app_assoc. split; [done|set_solver].
Qed.
End fresh_visits.

Lemma elem_of_nodes_size (nodes : list Z) (v : gset Z) :
  NoDup nodes -> v ⊆ list_to_set nodes -> size v <= length nodes.
Proof.
  intros Hnd Hsub. rewrite <- (size_list_to_set (C := gset Z) nodes) by done.
  by apply subseteq_size.
Qed.

(** ** Searches over a lawful graph *)

Section searches.
Context {G B : Type} `{DirectedGraph G} `{Roaring B} `{!RoaringLaws B}.
Context (g : G) `{!LawfulDigraph g}.

Lemma AdjacentNodes_dg n d : AdjacentNodes g n d = dg_adj g n d.
Proof.
  unfold AdjacentNodes. rewrite dg_EachAdjacentNode.
  rewrite (each_continue _ (fun x l => l ++ [x])) by done.
  apply foldl_snoc.
Qed.

Lemma Degrees_dg n d :
  (Z.of_nat (length (dg_adj g n d)) < two64)%Z ->
  Degrees g n d = Z.of_nat (length (dg_adj g n d)).
Proof.
  unfold Degrees. rewrite dg_EachAdjacentNode.
  rewrite (each_continue _ (fun _ k => wrap64 (k + 1))) by done.
  assert (Hgen : forall l k, (0 <= k)%Z -> (k + Z.of_nat (length l) < two64)%Z ->
    foldl (fun k (_ : Z) => wrap64 (k + 1)) k l = (k + Z.of_nat (length l))%Z).
  { induction l as [|x l IH]; intros k Hk Hlt; simpl in *; [lia|].
    unfold wrap64 at 2. rewrite Z.mod_small by lia. rewrite IH by lia. lia. }
  intros Hlt. rewrite Hgen by lia. lia.
Qed.

Section reach.
Context (d : Direction) (n : Z).

Definition reach_inv (st : B * list Z) : Prop :=
  let '(v, q) := st in
  (forall x, x ∈ bset v -> tc (dg_edge g d) n x) /\
  (forall x, x ∈ q -> x = n \/ x ∈ bset v) /\
  (forall x y, x = n \/ x ∈ bset v -> dg_edge g d x y -> x ∈ q \/ y ∈ bset v) /\
  bset v ⊆ list_to_set (dg_nodes g).

Definition reach_measure (st : B * list Z) : nat :=
  let '(v, q) := st in length q + (length (dg_nodes g) - size (bset v)).

Lemma reach_inv_step v x q :
  reach_inv (v, x :: q) ->
  reach_inv (EachAdjacentNode g x d Reach_visit (v, q)) /\
  reach_measure (EachAdjacentNode g x d Reach_visit (v, q)) < reach_measure (v, x :: q).
Proof.
  intros (Hsound & Hq & Hclosed & Hsub). rewrite dg_EachAdjacentNode.
  destruct (Reach_visit_each (dg_adj g x d) v q) as (v' & -> & Hv').
  assert (Hx : forall y, y ∈ dg_adj g x d -> tc (dg_edge g d) n y).
  { intros y Hy. destruct (Hq x) as [->|Hxv]; [by left|by apply tc_once|].
    apply tc_r with x; [by apply Hsound|done]. }
  assert (Hsub' : bset v' ⊆ list_to_set (dg_nodes g)).
  { intros y. rewrite Hv', elem_of_union, !elem_of_list_to_set.
    intros [Hy|Hy]; [by eapply dg_closed|]. apply Hsub in Hy. by apply elem_of_list_to_set in Hy. }
  split.
  - split; [|split; [|split; [|done]]].
    + intros y. rewrite Hv', elem_of_union, elem_of_list_to_set. intros [Hy|Hy]; auto.
    + intros y. rewrite elem_of_app, elem_of_fresh, Hv', elem_of_union, elem_of_list_to_set.
      intros [Hy|[Hy _]]; [|by auto]. destruct (Hq y) as [->|Hyv]; [by right| |]; auto.
    + intros y z Hy Hyz. rewrite elem_of_app, elem_of_fresh, Hv', elem_of_union, elem_of_list_to_set.
      destruct (decide (y = x)) as [->|Hne]; [by right; left|].
      assert (y = n \/ y ∈ bset v \/ y ∈ dg_adj g x d /\ y ∉ bset v) as Hcases.
      { rewrite Hv', elem_of_union, elem_of_list_to_set in Hy.
        destruct (decide (y ∈ bset v)); tauto. }
      destruct Hcases as [Hyn|[Hyv|Hfresh]]; [| |tauto].
      all: destruct (Hclosed y z) as [Hin|Hz]; [tauto|done| |tauto].
      all: apply elem_of_cons in Hin as [|]; tauto.
  - simpl. rewrite length_app, Hv'.
    pose proof (elem_of_nodes_size _ _ dg_NoDup Hsub') as Hle. rewrite Hv' in Hle.
    replace (list_to_set (dg_adj g x d) ∪ bset v)
      with (list_to_set (fresh (bset v) (dg_adj g x d)) ∪ bset v) in *.
    2:{ apply set_eq; intros y. rewrite !elem_of_union, !elem_of_list_to_set, elem_of_fresh.
        destruct (decide (y ∈ bset v)); tauto. }
    rewrite size_union in * by apply fresh_disjoint.
    rewrite size_list_to_set in * by apply fresh_NoDup. lia.
Qed.

Lemma reach_closed (v : B) x :
  reach_inv (v, []) -> tc (dg_edge g d) n x -> x ∈ bset v.
Proof.
  intros (_ & _ & Hclosed & _) Htc.
  assert (Hgen : forall a b, tc (dg_edge g d) a b -> a = n \/ a ∈ bset v -> b ∈ bset v).
  { induction 1 as [a b Hab|a b c Hab Hbc IH]; intros Ha.
    - destruct (Hclosed a b Ha Hab) as [Hin|]; [by inversion Hin|done].
    - apply IH. right. destruct (Hclosed a b Ha Hab) as [Hin|]; [by inversion Hin|done]. }
  eapply Hgen; eauto.
Qed.

(** [Reach] always finishes and returns exactly the nodes at the end of a
    non-empty walk from the start. *)
Lemma Reach_total :
  exists b : B, Reach g n d = Some b /\ forall x, x ∈ bset b <-> tc (dg_edge g d) n x.
Proof.
  unfold Reach. apply iterate_total with (I := reach_inv) (m := reach_measure).
  - intros [v [|x q]] HI; simpl; [|by apply reach_inv_step].
    intros y. split; [apply HI|by apply reach_closed].
  - unfold reach_inv. rewrite bset_New. split_and!; set_solver.
  - simpl. unfold digraph_fuel. rewrite dg_NumNodes, bset_New, size_empty. lia.
Qed.
End reach.

Section bfs_tree.
Context (d : Direction) (n : Z).

Definition bfs_all (ts : list PathTerminal) : list PathTerminal := BFSTree_root n :: ts.

Definition bfs_inv (st : B * list PathTerminal * list PathTerminal) : Prop :=
  let '(v, q, ts) := st in
  (exists popped, bfs_all ts = popped ++ q /\
     forall t y, t ∈ popped -> dg_edge g d (pt_Node t) y ->
       exists t', t' ∈ ts /\ pt_Node t' = y /\ pt_Distance t' <= pt_Distance t + 1) /\
  StronglySorted le (pt_Distance <$> bfs_all ts) /\
  bset v = list_to_set (pt_Node <$> ts) /\
  NoDup (pt_Node <$> ts) /\
  (forall t, t ∈ bfs_all ts -> nsteps (dg_edge g d) (pt_Distance t) n (pt_Node t)) /\
  (forall t h, t ∈ bfs_all ts -> head q = Some h -> pt_Distance t <= pt_Distance h + 1) /\
  (forall t, t ∈ ts -> 1 <= pt_Distance t /\ pt_Node t ∈ dg_nodes g).

Definition bfs_measure (st : B * list PathTerminal * list PathTerminal) : nat :=
  let '(v, q, ts) := st in length q + (length (dg_nodes g) - length ts).

Lemma bfs_inv_step v c q ts :
  bfs_inv (v, c :: q, ts) ->
  bfs_inv (EachAdjacentNode g (pt_Node c) d (BFSTree_visit c) (v, q, ts)) /\
  bfs_measure (EachAdjacentNode g (pt_Node c) d (BFSTree_visit c) (v, q, ts))
    < bfs_measure (v, c :: q, ts).
Proof.
  intros ((popped & Hall & Hpop) & Hsort & Hv & Hnd & Hsteps & Hhead & Hpos).
  rewrite dg_EachAdjacentNode.
  destruct (BFSTree_visit_each c (dg_adj g (pt_Node c) d) v q ts) as (v' & -> & Hv').
  set (fr := fresh (bset v) (dg_adj g (pt_Node c) d)) in *.
  assert (Hc : c ∈ bfs_all ts) by (rewrite Hall; set_solver).
  assert (Hle : forall t, t ∈ bfs_all ts -> pt_Distance t <= pt_Distance c + 1).
  { intros t Ht. by apply (Hhead t c). }
  assert (Hnodes : pt_Node <$> (BFSTree_child c <$> fr) = fr).
  { rewrite <- list_fmap_compose. apply list_fmap_id. }
  assert (Hdist : pt_Distance <$> (BFSTree_child c <$> fr) = replicate (length fr) (pt_Distance c + 1)).
  { clear. induction fr as [|x l IH]; simpl; [done|]. f_equal. exact IH. }
  assert (Hfr : forall x, x ∈ fr <-> x ∈ dg_adj g (pt_Node c) d /\ x ∉ bset v).
  { intros x. apply elem_of_fresh. }
  assert (Hnd' : NoDup (pt_Node <$> (ts ++ (BFSTree_child c <$> fr)))).
  { rewrite fmap_app, Hnodes. apply NoDup_app. split_and!; [done| |apply fresh_NoDup].
    intros x Hx Hin%Hfr. rewrite Hv, elem_of_list_to_set in Hin. tauto. }
  assert (Hpos' : forall t, t ∈ ts ++ (BFSTree_child c <$> fr) ->
                    1 <= pt_Distance t /\ pt_Node t ∈ dg_nodes g).
  { intros t [Ht|(x & -> & Hx)%list_elem_of_fmap]%elem_of_app; [by apply Hpos|].
    apply Hfr in Hx as [Hx _]. simpl. split; [lia|by eapply dg_closed]. }
  split.
  - split_and!; [| | |done| | |done].
    + exists (popped ++ [c]). split; [unfold bfs_all in *; rewrite <- app_assoc; simpl;
        by rewrite app_comm_cons, Hall, <- app_assoc|].
      intros t y Ht Hy. apply elem_of_app in Ht as [Ht|Ht].
      * destruct (Hpop t y Ht Hy) as (t' & Ht' & Hn' & Hd'). exists t'. rewrite elem_of_app. auto.
      * apply list_elem_of_singleton in Ht as ->. destruct (decide (y ∈ bset v)) as [Hyv|Hyv].
        -- rewrite Hv, elem_of_list_to_set, list_elem_of_fmap in Hyv.
           destruct Hyv as (t' & -> & Ht'). exists t'. rewrite elem_of_app.
           split_and!; [by left|done|]. apply Hle. by right.
        -- exists (BFSTree_child c y). rewrite elem_of_app, list_elem_of_fmap.
           split_and!; [right; exists y; by rewrite Hfr|done|done].
    + unfold bfs_all. rewrite app_comm_cons, fmap_app, Hdist.
      apply StronglySorted_snoc_bound; [done|].
      intros x (t & -> & Ht)%list_elem_of_fmap. by apply Hle.
    + rewrite Hv', fmap_app, Hnodes, list_to_set_app_L, Hv.
      apply set_eq; intros x. rewrite !elem_of_union, !elem_of_list_to_set, Hfr, Hv, elem_of_list_to_set.
      destruct (decide (x ∈ pt_Node <$> ts)); tauto.
    + intros t Ht. unfold bfs_all in Ht. rewrite app_comm_cons, elem_of_app in Ht.
      destruct Ht as [Ht|(x & -> & Hx)%list_elem_of_fmap]; [by apply Hsteps|].
      apply Hfr in Hx as [Hx _]. simpl. rewrite Nat.add_1_r.
      eapply nsteps_r; [by apply Hsteps|done].
    + intros t h Ht Hh. assert (Hhd : pt_Distance c <= pt_Distance h).
      { destruct q as [|h' q'].
        - destruct fr as [|x fr']; [done|]. simpl in Hh. injection Hh as <-. simpl. lia.
        - simpl in Hh. injection Hh as ->. rewrite Hall, fmap_app in Hsort.
          apply StronglySorted_app_1_r in Hsort. inversion Hsort as [|? ? _ Hf].
          rewrite Forall_forall in Hf. apply Hf. by left. }
      unfold bfs_all in Ht. rewrite app_comm_cons, elem_of_app in Ht.
      destruct Ht as [Ht|(x & -> & Hx)%list_elem_of_fmap]; [apply Hle in Ht; lia|simpl; lia].
  - simpl. rewrite !length_app, !length_fmap.
    assert (length (ts ++ (BFSTree_child c <$> fr)) <= length (dg_nodes g)) as Hlen.
    { rewrite <- (length_fmap pt_Node). apply submseteq_length, NoDup_submseteq; [done|].
      intros x (t & -> & Ht)%list_elem_of_fmap. by apply Hpos'. }
    rewrite length_app, length_fmap in Hlen. lia.
Qed.

Lemma bfs_complete v ts k x :
  bfs_inv (v, [], ts) -> nsteps (dg_edge g d) (S k) n x ->
  exists t, t ∈ ts /\ pt_Node t = x /\ pt_Distance t <= S k.
Proof.
  intros ((popped & Hall & Hpop) & _). rewrite app_nil_r in Hall. subst popped.
  revert x. induction k as [|k IH]; intros x Hk.
  - apply nsteps_once_inv in Hk.
    destruct (Hpop (BFSTree_root n) x) as (t & Ht & Hx & Hd); [by left|done|]. by exists t.
  - apply nsteps_inv_r in Hk as (y & Hy & Hyx).
    destruct (IH y Hy) as (t & Ht & <- & Hd).
    destruct (Hpop t x) as (t' & Ht' & Hx & Hd'); [by right|done|].
    exists t'. split_and!; [done|done|lia].
Qed.

(** What [BFSTree] returns: one terminal per node reachable by a non-empty
    walk, at its shortest distance, in order of distance. *)
Definition bfs_tree_spec (ts : list PathTerminal) : Prop :=
  NoDup (pt_Node <$> ts) /\
  (forall x, x ∈ pt_Node <$> ts <-> tc (dg_edge g d) n x) /\
  (forall t, t ∈ ts ->
     nsteps (dg_edge g d) (pt_Distance t) n (pt_Node t) /\
     forall k, nsteps (dg_edge g d) (S k) n (pt_Node t) -> pt_Distance t <= S k) /\
  StronglySorted le (pt_Distance <$> ts).

Lemma bfs_inv_final v ts : bfs_inv (v, [], ts) -> bfs_tree_spec ts.
Proof.
  intros HI. pose proof HI as (_ & Hsort & _ & Hnd & Hsteps & _ & Hpos).
  split_and!; [done| | |by inversion Hsort].
  - intros x. rewrite tc_nsteps. split.
    + intros (t & -> & Ht)%list_elem_of_fmap. exists (pt_Distance t).
      split; [apply Hpos in Ht; lia|apply Hsteps; by right].
    + intros (k & Hk & Hx). destruct k as [|k]; [lia|].
      destruct (bfs_complete v ts k x HI Hx) as (t & Ht & <- & _). apply list_elem_of_fmap. eauto.
  - intros t Ht. split; [apply Hsteps; by right|]. intros k Hk.
    destruct (bfs_complete v ts k _ HI Hk) as (t' & Ht' & Hn & Hd).
    assert (t = t') as ->; [|done].
    apply list_elem_of_lookup in Ht as (i & Hi). apply list_elem_of_lookup in Ht' as (j & Hj).
    enough (i = j) by congruence.
    eapply NoDup_lookup; [exact Hnd| |]; rewrite list_lookup_fmap.
    + by rewrite Hi.
    + rewrite Hj. simpl. congruence.
Qed.

Lemma BFSTree_total : exists ts, BFSTree (B := B) g n d = Some ts /\ bfs_tree_spec ts.
Proof.
  unfold BFSTree. apply iterate_total with (I := bfs_inv) (m := bfs_measure).
  - intros [[v [|c q]] ts] HI; simpl; [by eapply bfs_inv_final|by apply bfs_inv_step].
  - split_and!.
    + exists []. split; [done|]. intros t y Ht. by inversion Ht.
    + simpl. repeat constructor.
    + rewrite bset_New. done.
    + constructor.
    + intros t Ht%list_elem_of_singleton. subst t. constructor.
    + intros t h Ht%list_elem_of_singleton [= <-]. subst t. lia.
    + intros t Ht. by inversion Ht.
  - simpl. unfold digraph_fuel. rewrite dg_NumNodes. lia.
Qed.
End bfs_tree.
End searches.
