(* ===== verification/Csr.v ===== *)
(** * container/csr.go: the compressed-sparse-row digraph and its builder *)

From S2P Require Import Prelude Bitmap Digraph.

(** ** The graph *)

Record csrDigraph : Type := {
  csr_idToDenseIdx : gmap Z Z;
  csr_denseIdxToID : list Z;
  csr_outOffsets : list Z;
  csr_outAdj : list Z;
  csr_inOffsets : list Z;
  csr_inAdj : list Z
}.

Definition csrDigraph_idx (s : csrDigraph) (node : Z) : option Z := csr_idToDenseIdx s !! node.

(** The slice of one vertex: [adj[offsets[idx]:offsets[idx+1]]]. *)
Definition csr_row (offsets adj : list Z) (idx : Z) : outcome (list Z) :=
  start ← slice_get offsets idx; end_ ← slice_get offsets (idx + 1); slice_sub adj start end_.

Definition csrDigraph_csrRange (s : csrDigraph) (idx : Z) (dir : Direction) : outcome (list Z) :=
  match dir with
  | DirectionOutbound => csr_row (csr_outOffsets s) (csr_outAdj s) idx
  | DirectionInbound => csr_row (csr_inOffsets s) (csr_inAdj s) idx
  | DirectionBoth =>
      outs ← csr_row (csr_outOffsets s) (csr_outAdj s) idx;
      ins ← csr_row (csr_inOffsets s) (csr_inAdj s) idx;
      Done (outs ++ ins)
  end.

Definition csrDigraph_NumNodes (s : csrDigraph) : Z := Z.of_nat (length (csr_denseIdxToID s)).

Definition csrDigraph_NumEdges (s : csrDigraph) : Z := Z.of_nat (length (csr_outAdj s)).

Definition csrDigraph_Nodes {B} `{Roaring B} (s : csrDigraph) : B :=
  NewBitmap64With (csr_denseIdxToID s).

Definition csrDigraph_EachNode {St} (s : csrDigraph) (delegate : Z -> St -> St * bool) (st : St) : St :=
  each delegate (csr_denseIdxToID s) st.

Definition csrDigraph_AdjacentNodes (s : csrDigraph) (node : Z) (direction : Direction)
  : outcome (list Z) :=
  match csrDigraph_idx s node with
  | Some idx => csrDigraph_csrRange s idx direction
  | None => Done []
  end.

Definition csr_degree (offsets : list Z) (idx : Z) : outcome Z :=
  hi ← slice_get offsets (idx + 1); lo ← slice_get offsets idx; Done (wrap64 (hi - lo)).

Definition csrDigraph_Degrees (s : csrDigraph) (node : Z) (direction : Direction) : outcome Z :=
  match csrDigraph_idx s node with
  | Some idx =>
      match direction with
      | DirectionOutbound => csr_degree (csr_outOffsets s) idx
      | DirectionInbound => csr_degree (csr_inOffsets s) idx
      | DirectionBoth =>
          o ← csr_degree (csr_outOffsets s) idx; i ← csr_degree (csr_inOffsets s) idx;
          Done (wrap64 (o + i))
      end
  | None => Done 0%Z
  end.

(** [for next, end := start, end; next < end; next++ { if !delegate(adj[next]) { return } }];
    the flag says whether the loop ran to its end. *)
Fixpoint csr_scan {St} (adj : list Z) (delegate : Z -> St -> St * bool)
    (turns : nat) (next : Z) (st : St) : outcome (St * bool) :=
  match turns with
  | O => Done (st, true)
  | S turns' =>
      x ← slice_get adj next;
      let '(st', continue) := delegate x st in
      if continue : bool then csr_scan adj delegate turns' (next + 1) st' else Done (st', false)
  end.

Definition csr_each {St} (offsets adj : list Z) (idx : Z) (delegate : Z -> St -> St * bool) (st : St)
  : outcome (St * bool) :=
  next ← slice_get offsets idx; end_ ← slice_get offsets (idx + 1);
  csr_scan adj delegate (Z.to_nat (end_ - next)) next st.

Definition csrDigraph_EachAdjacentNode {St} (s : csrDigraph) (node : Z) (direction : Direction)
    (delegate : Z -> St -> St * bool) (st : St) : outcome St :=
  match csrDigraph_idx s node with
  | Some idx =>
      match direction with
      | DirectionOutbound =>
          r ← csr_each (csr_outOffsets s) (csr_outAdj s) idx delegate st; Done r.1
      | DirectionInbound =>
          r ← csr_each (csr_inOffsets s) (csr_inAdj s) idx delegate st; Done r.1
      | DirectionBoth =>
          r ← csr_each (csr_outOffsets s) (csr_outAdj s) idx delegate st;
          if (r.2 : bool)
          then r' ← csr_each (csr_inOffsets s) (csr_inAdj s) idx delegate r.1; Done r'.1
          else Done r.1
      end
  | None => Done st
  end.

(** [Normalize]: the same offsets over the dense indices. A Go map read of a
    missing key is the zero value. *)
Definition csr_translate (s : csrDigraph) (origNeighbour : Z) : Z :=
  default 0%Z (csr_idToDenseIdx s !! origNeighbour).

Definition csrDigraph_Normalize (s : csrDigraph) : list Z * csrDigraph :=
  let dense := Z.of_nat <$> seq 0 (length (csr_denseIdxToID s)) in
  (csr_denseIdxToID s,
   {| csr_idToDenseIdx := foldl (fun m i => <[i := i]> m) ∅ dense;
      csr_denseIdxToID := dense;
      csr_outOffsets := csr_outOffsets s;
      csr_outAdj := csr_translate s <$> csr_outAdj s;
      csr_inOffsets := csr_inOffsets s;
      csr_inAdj := csr_translate s <$> csr_inAdj s |}).

(** ** The builder *)

Section builder.
Context {B : Type} `{Roaring B}.

Record CSRDigraphBuilder : Type := {
  cb_idToDenseIdx : gmap Z Z;
  cb_denseIdxToID : list Z;
  cb_outTmp : gmap Z B;
  cb_inTmp : gmap Z B
}.

Definition NewCSRDigraphBuilder : CSRDigraphBuilder :=
  {| cb_idToDenseIdx := ∅; cb_denseIdxToID := []; cb_outTmp := ∅; cb_inTmp := ∅ |}.

Definition CSRDigraphBuilder_ensureNode (s : CSRDigraphBuilder) (id : Z) : CSRDigraphBuilder * Z :=
  match cb_idToDenseIdx s !! id with
  | Some idx => (s, idx)
  | None =>
      let idx := Z.of_nat (length (cb_denseIdxToID s)) in
      ({| cb_idToDenseIdx := <[id := idx]> (cb_idToDenseIdx s);
          cb_denseIdxToID := cb_denseIdxToID s ++ [id];
          cb_outTmp := <[idx := NewBitmap64]> (cb_outTmp s);
          cb_inTmp := <[idx := NewBitmap64]> (cb_inTmp s) |}, idx)
  end.

Definition CSRDigraphBuilder_AddNode (s : CSRDigraphBuilder) (node : Z) : CSRDigraphBuilder :=
  (CSRDigraphBuilder_ensureNode s node).1.

(** [if existing, ok := m[k]; ok { existing.Add(v) } else { m[k] = NewBitmap64With(v) }]. *)
Definition adjacency_add (m : gmap Z B) (k v : Z) : gmap Z B :=
  match m !! k with
  | Some existingBitmap => <[k := bitmap64_Add [v] existingBitmap]> m
  | None => <[k := NewBitmap64With [v]]> m
  end.

Definition CSRDigraphBuilder_AddEdge (s : CSRDigraphBuilder) (start end_ : Z) : CSRDigraphBuilder :=
  let '(s1, startIdx) := CSRDigraphBuilder_ensureNode s start in
  let '(s2, endIdx) := CSRDigraphBuilder_ensureNode s1 end_ in
  {| cb_idToDenseIdx := cb_idToDenseIdx s2;
     cb_denseIdxToID := cb_denseIdxToID s2;
     cb_outTmp := adjacency_add (cb_outTmp s2) startIdx endIdx;
     cb_inTmp := adjacency_add (cb_inTmp s2) endIdx startIdx |}.

(** A call on [tmp[nextNode]]: the nil interface of a missing key panics. *)
Definition tmp_get (tmp : gmap Z B) (nextNode : Z) : outcome B :=
  match tmp !! nextNode with Some b => Done b | None => Panic end.

(** First loop of [Build], one side: [total += tmp[n].Cardinality(); offsets[n+1] = total]. *)
Definition Build_offsets_step (tmp : gmap Z B) (st : outcome (Z * list Z)) (nextNode : nat)
  : outcome (Z * list Z) :=
  '(total, offsets) ← st;
  b ← tmp_get tmp (Z.of_nat nextNode);
  let total' := wrap64 (total + bitmap64_Cardinality b) in
  offsets' ← slice_set offsets (Z.of_nat nextNode + 1) total';
  Done (total', offsets').

(** Inner delegate of the second loop: [adj[i] = denseIdxToID[a]; i++]. *)
Definition Build_fill_one (denseIdxToID : list Z) (adjacentDenseIndex : Z)
    (st : outcome (list Z * Z)) : outcome (list Z * Z) * bool :=
  (('(adj, denseIdx) ← st;
    id ← slice_get denseIdxToID adjacentDenseIndex;
    adj' ← slice_set adj denseIdx id;
    Done (adj', denseIdx + 1)%Z), true).

Definition Build_fill_step (tmp : gmap Z B) (denseIdxToID offsets : list Z)
    (st : outcome (list Z)) (nextNode : nat) : outcome (list Z) :=
  adj ← st;
  denseIdx ← slice_get offsets (Z.of_nat nextNode);
  b ← tmp_get tmp (Z.of_nat nextNode);
  r ← bitmap64_Each (Build_fill_one denseIdxToID) b (Done (adj, denseIdx));
  Done r.1.

(** One direction of [Build]: offsets, then adjacency. The two directions of
    the source share the loops and touch disjoint variables. *)
Definition Build_side (tmp : gmap Z B) (denseIdxToID : list Z) : outcome (list Z * list Z) :=
  let numNodes := length denseIdxToID in
  '(total, offsets) ←
    foldl (Build_offsets_step tmp) (Done (0%Z, replicate (numNodes + 1) 0%Z)) (seq 0 numNodes);
  adj ← foldl (Build_fill_step tmp denseIdxToID offsets)
          (Done (replicate (Z.to_nat total) 0%Z)) (seq 0 numNodes);
  Done (offsets, adj).

Definition CSRDigraphBuilder_Build (s : CSRDigraphBuilder) : outcome csrDigraph :=
  '(outOffsets, outAdj) ← Build_side (cb_outTmp s) (cb_denseIdxToID s);
  '(inOffsets, inAdj) ← Build_side (cb_inTmp s) (cb_denseIdxToID s);
  Done {| csr_idToDenseIdx := cb_idToDenseIdx s;
          csr_denseIdxToID := cb_denseIdxToID s;
          csr_outOffsets := outOffsets; csr_outAdj := outAdj;
          csr_inOffsets := inOffsets; csr_inAdj := inAdj |}.
End builder.

Arguments CSRDigraphBuilder B : clear implicits.

(** ** Rows behind the offsets

    A pair of offset and adjacency arrays stores the list of rows whose
    concatenation is the adjacency array. *)

Definition row_start (rows : list (list Z)) (i : nat) : Z := Z.of_nat (length (concat (take i rows))).
Definition offsets_of (rows : list (list Z)) : list Z := row_start rows <$> seq 0 (S (length rows)).

Lemma offsets_lookup (rows : list (list Z)) i :
  i <= length rows -> slice_get (offsets_of rows) (Z.of_nat i) = Done (row_start rows i).
Proof.
  intros Hi. apply slice_get_nat. unfold offsets_of.
  rewrite list_lookup_fmap, lookup_seq_lt by lia. done.
Qed.

Lemma row_start_S (rows : list (list Z)) i r :
  rows !! i = Some r -> row_start rows (S i) = (row_start rows i + Z.of_nat (length r))%Z.
Proof. intros Hi. unfold row_start. rewrite (take_S_concat _ _ _ Hi), length_app. lia. Qed.

Lemma concat_split (rows : list (list Z)) i r :
  rows !! i = Some r -> concat rows = concat (take i rows) ++ r ++ concat (drop (S i) rows).
Proof.
  intros Hi. rewrite <- (take_drop_middle rows i r Hi) at 1.
  rewrite concat_app. done.
Qed.

Section rows.
Context (rows : list (list Z)) (i : nat) (r : list Z) (Hi : rows !! i = Some r).

Lemma offsets_bounds :
  slice_get (offsets_of rows) (Z.of_nat i) = Done (row_start rows i) /\
  slice_get (offsets_of rows) (Z.of_nat i + 1) = Done (row_start rows i + Z.of_nat (length r))%Z.
Proof.
  pose proof (lookup_lt_Some _ _ _ Hi). split; [apply offsets_lookup; lia|].
  replace (Z.of_nat i + 1)%Z with (Z.of_nat (S i)) by lia.
  rewrite offsets_lookup by lia. by rewrite (row_start_S _ _ _ Hi).
Qed.

Lemma csr_row_rows : csr_row (offsets_of rows) (concat rows) (Z.of_nat i) = Done r.
Proof.
  unfold csr_row. destruct offsets_bounds as [-> ->]. simpl.
  rewrite (concat_split _ _ _ Hi). unfold row_start. unfold slice_sub. rewrite decide_True.
  - f_equal. rewrite Nat2Z.id, drop_app_length.
    replace (_ - _) with (length r) by lia. apply take_app_length.
  - rewrite !length_app. lia.
Qed.

Lemma csr_scan_rows {St} (f : Z -> St -> St * bool) pre l post st :
  csr_scan (pre ++ l ++ post) f (length l) (Z.of_nat (length pre)) st = Done (each_flag f l st).
Proof.
  revert pre st. induction l as [|x l IH]; intros pre st; simpl; [done|].
  rewrite (slice_get_nat _ _ x); [|by rewrite lookup_app_r, Nat.sub_diag by lia]. simpl.
  destruct (f x st) as [st' []]; [|done].
  specialize (IH (pre ++ [x]) st'). rewrite length_app, <- app_assoc in IH. simpl in IH.
  by replace (Z.of_nat (length pre) + 1)%Z with (Z.of_nat (length pre + 1)) by lia.
Qed.

Lemma csr_each_rows {St} (f : Z -> St -> St * bool) st :
  csr_each (offsets_of rows) (concat rows) (Z.of_nat i) f st = Done (each_flag f r st).
Proof.
  unfold csr_each. destruct offsets_bounds as [-> ->]. simpl.
  replace (Z.to_nat _) with (length r) by lia.
  rewrite (concat_split _ _ _ Hi). apply csr_scan_rows.
Qed.

Lemma csr_degree_rows :
  (Z.of_nat (length r) < two64)%Z ->
  csr_degree (offsets_of rows) (Z.of_nat i) = Done (Z.of_nat (length r)).
Proof.
  intros Hlt. unfold csr_degree. destruct offsets_bounds as [-> ->]. simpl. f_equal.
  rewrite wrap64_small by lia. lia.
Qed.
End rows.

(** ** [Build] lays the rows out *)

Section build.
Context {B : Type} `{Roaring B} `{!RoaringLaws B}.
Context (tmp : gmap Z B) (dense : list Z) (bms : list B).
Context (Hlen : length bms = length dense).
Context (Htmp : forall i b, bms !! i = Some b -> tmp !! Z.of_nat i = Some b).
Context (Hrange : forall b j, b ∈ bms -> j ∈ bset b -> (0 <= j < Z.of_nat (length dense))%Z).

Definition dense_id (j : Z) : Z := default 0%Z (dense !! Z.to_nat j).
Definition build_rows : list (list Z) := (fun b => dense_id <$> bitmap64_Slice b) <$> bms.

Context (Htotal : (Z.of_nat (length (concat build_rows)) < two64)%Z).

Lemma build_rows_lookup i b :
  bms !! i = Some b -> build_rows !! i = Some (dense_id <$> bitmap64_Slice b).
Proof. intros Hi. unfold build_rows. by rewrite list_lookup_fmap, Hi. Qed.

Lemma row_start_le i : (row_start build_rows i <= Z.of_nat (length (concat build_rows)))%Z.
Proof.
  unfold row_start. rewrite <- (take_drop i build_rows) at 2. rewrite concat_app, length_app. lia.
Qed.

Lemma Build_offsets_step_Done total offsets offsets' n b :
  tmp !! Z.of_nat n = Some b ->
  slice_set offsets (Z.of_nat n + 1) (wrap64 (total + bitmap64_Cardinality b)) = Done offsets' ->
  Build_offsets_step tmp (Done (total, offsets)) n =
  Done (wrap64 (total + bitmap64_Cardinality b), offsets').
Proof. intros Hb Hset. unfold Build_offsets_step, tmp_get. simpl. rewrite Hb. simpl. by rewrite Hset. Qed.

Lemma Build_offsets_prefix i :
  i <= length dense ->
  foldl (Build_offsets_step tmp) (Done (0%Z, replicate (length dense + 1) 0%Z)) (seq 0 i) =
  Done (row_start build_rows i,
        (row_start build_rows <$> seq 0 (S i)) ++ replicate (length dense - i) 0%Z).
Proof.
  induction i as [|i IH]; intros Hi.
  - simpl. rewrite Nat.sub_0_r, Nat.add_1_r. done.
  - rewrite seq_snoc, foldl_app, IH by lia. cbn [foldl]. change (0 + i) with i.
    destruct (lookup_lt_is_Some_2 bms i) as [b Hb]; [lia|].
    assert (Hnext : wrap64 (row_start build_rows i + bitmap64_Cardinality b) = row_start build_rows (S i)).
    { rewrite Cardinality_size, <- length_Slice, <- (length_fmap dense_id).
      rewrite <- (row_start_S build_rows) by by apply build_rows_lookup.
      pose proof (row_start_le (S i)). apply wrap64_small. unfold row_start in *. lia. }
    rewrite <- Hnext. apply Build_offsets_step_Done; [by apply Htmp|]. rewrite Hnext.
    replace (length dense - i) with (S (length dense - S i)) by lia.
    rewrite (seq_snoc 0 (S i)), fmap_app, <- app_assoc.
    apply slice_set_middle. rewrite length_fmap, length_seq. lia.
Qed.

Lemma Build_fill_row pre post js :
  (forall j, j ∈ js -> (0 <= j < Z.of_nat (length dense))%Z) ->
  length post >= length js ->
  each (Build_fill_one dense) js (Done (pre ++ post, Z.of_nat (length pre))) =
  Done (pre ++ (dense_id <$> js) ++ drop (length js) post,
        (Z.of_nat (length pre + length js))).
Proof.
  revert pre post. induction js as [|j js IH]; intros pre post Hjs Hpost; simpl.
  - by rewrite Nat.add_0_r.
  - destruct post as [|y post]; simpl in Hpost; [lia|].
    assert (0 <= j < Z.of_nat (length dense))%Z as Hj by (apply Hjs; by left).
    destruct (lookup_lt_is_Some_2 dense (Z.to_nat j)) as [id Hid]; [lia|].
    rewrite (proj2 (slice_get_Done dense j id)) by (split; [lia|done]). simpl.
    rewrite slice_set_middle by done. simpl.
    specialize (IH (pre ++ [id]) post). rewrite <- app_assoc in IH.
    rewrite length_app in IH. simpl in IH.
    replace (Z.of_nat (length pre) + 1)%Z with (Z.of_nat (length pre + 1)) by lia.
    rewrite IH; [|intros; apply Hjs; by right|lia]. f_equal. f_equal; [|lia].
    rewrite <- app_assoc. unfold dense_id at 2. rewrite Hid. done.
Qed.

Lemma Build_fill_prefix i :
  i <= length dense ->
  foldl (Build_fill_step tmp dense (offsets_of build_rows))
    (Done (replicate (length (concat build_rows)) 0%Z)) (seq 0 i) =
  Done (concat (take i build_rows) ++
        replicate (length (concat build_rows) - length (concat (take i build_rows))) 0%Z).
Proof.
  induction i as [|i IH]; intros Hi.
  - simpl. by rewrite Nat.sub_0_r.
  - rewrite seq_snoc, foldl_app, IH by lia. cbn [foldl]. change (0 + i) with i.
    destruct (lookup_lt_is_Some_2 bms i) as [b Hb]; [lia|].
    pose proof (build_rows_lookup i b Hb) as Hrow.
    unfold Build_fill_step, tmp_get. simpl mbind. rewrite (Htmp i b Hb).
    rewrite offsets_lookup by (unfold build_rows; rewrite length_fmap; lia). simpl mbind.
    rewrite Each_Slice. unfold row_start.
    pose proof (row_start_le (S i)) as Hle. unfold row_start in Hle.
    rewrite (take_S_concat _ _ _ Hrow), length_app, length_fmap in *.
    rewrite Build_fill_row.
    + simpl. rewrite <- app_assoc. do 3 f_equal. rewrite drop_replicate. f_equal. lia.
    + intros j Hj. apply elem_of_Slice in Hj. apply (Hrange b); [|done].
      by apply list_elem_of_lookup_2 in Hb.
    + rewrite length_replicate. lia.
Qed.

Lemma Build_side_rows : Build_side tmp dense = Done (offsets_of build_rows, concat build_rows).
Proof.
  assert (Hn : length build_rows = length dense).
  { unfold build_rows. by rewrite length_fmap. }
  assert (Htake : take (length dense) build_rows = build_rows) by (apply take_ge; lia).
  pose proof (Build_offsets_prefix (length dense) (le_n _)) as Hoff.
  pose proof (Build_fill_prefix (length dense) (le_n _)) as Hfill.
  replace (row_start build_rows <$> seq 0 (S (length dense))) with (offsets_of build_rows) in Hoff
    by (unfold offsets_of; by rewrite Hn).
  unfold row_start in Hoff. rewrite Htake, Nat.sub_diag, app_nil_r in Hoff, Hfill.
  unfold Build_side. rewrite Hoff. cbn [mbind outcome_bind]. rewrite Nat2Z.id, Hfill. done.
Qed.
End build.

(** ** The abstract graph a builder holds *)

Section builder_inv.
Context {B : Type} `{Roaring B} `{!RoaringLaws B}.

(** One adjacency map stores relation [R] between dense indices. *)
Definition side_rep (dense : list Z) (tmp : gmap Z B) (R : Z -> Z -> Prop) : Prop :=
  forall i x, dense !! i = Some x ->
    exists b, tmp !! Z.of_nat i = Some b /\
      forall j, j ∈ bset b <-> (0 <= j)%Z /\ exists y, dense !! Z.to_nat j = Some y /\ R x y.

(** A builder holds the nodes [N] and the edges [E]. *)
Record builder_inv (s : CSRDigraphBuilder B) (N : Z -> Prop) (E : Z -> Z -> Prop) : Prop := {
  bi_NoDup : NoDup (cb_denseIdxToID s);
  bi_idx : forall id idx, cb_idToDenseIdx s !! id = Some idx <->
             (0 <= idx)%Z /\ cb_denseIdxToID s !! Z.to_nat idx = Some id;
  bi_nodes : forall x, x ∈ cb_denseIdxToID s <-> N x;
  bi_edges : forall x y, E x y -> N x /\ N y;
  bi_out : side_rep (cb_denseIdxToID s) (cb_outTmp s) E;
  bi_in : side_rep (cb_denseIdxToID s) (cb_inTmp s) (fun x y => E y x)
}.

Lemma New_inv : builder_inv NewCSRDigraphBuilder (fun _ => False) (fun _ _ => False).
Proof.
  split; simpl; try done; try (by constructor).
  - intros id idx. rewrite lookup_empty, lookup_nil. naive_solver.
  - intros x. split; [by intros ?%elem_of_nil|done].
Qed.

Lemma side_rep_ext dense tmp (R R' : Z -> Z -> Prop) :
  (forall x y, R x y <-> R' x y) -> side_rep dense tmp R -> side_rep dense tmp R'.
Proof.
  intros HR Hs i x Hi. destruct (Hs i x Hi) as (b & Hb & Hm). exists b. split; [done|].
  intros j. rewrite Hm. by setoid_rewrite HR.
Qed.

Lemma side_rep_fresh dense tmp R id :
  (forall x y, R x y -> x ∈ dense /\ y ∈ dense) -> id ∉ dense ->
  side_rep dense tmp R ->
  side_rep (dense ++ [id]) (<[Z.of_nat (length dense) := NewBitmap64]> tmp) R.
Proof.
  intros HR Hid Hs i x Hi. apply lookup_snoc_Some in Hi as [[Hlt Hi]|[-> <-]].
  - destruct (Hs i x Hi) as (b & Hb & Hm). exists b. split; [by rewrite lookup_insert_ne by lia|].
    intros j. rewrite Hm. split; intros (Hj & y & Hy & HRy); split; [done| |done|].
    + exists y. split; [|done]. by apply lookup_app_l_Some.
    + exists y. split; [|done]. apply lookup_snoc_Some in Hy as [[_ Hy]|[_ ->]]; [done|].
      by apply HR in HRy as [_ ?].
  - exists NewBitmap64. split; [by rewrite lookup_insert_eq|]. intros j. rewrite bset_New.
    split; [set_solver|]. intros (_ & y & _ & [Hx _]%HR). done.
Qed.

Lemma side_rep_add dense tmp R i j a c :
  NoDup dense -> dense !! i = Some a -> dense !! j = Some c ->
  side_rep dense tmp R ->
  side_rep dense (adjacency_add tmp (Z.of_nat i) (Z.of_nat j))
    (fun x y => R x y \/ x = a /\ y = c).
Proof.
  intros Hnd Hi Hj Hs k x Hk. destruct (Hs k x Hk) as (b & Hb & Hm). unfold adjacency_add.
  destruct (Hs i a Hi) as (bi & Hbi & _). rewrite Hbi. destruct (decide (k = i)) as [->|Hne].
  - replace bi with b in * by congruence. replace x with a in * by congruence.
    exists (bitmap64_Add [Z.of_nat j] b). split; [by rewrite lookup_insert_eq|].
    intros l. autorewrite with bset. rewrite elem_of_union, Hm, list_to_set_cons, elem_of_union.
    rewrite elem_of_singleton. split.
    + intros [[->|Hl]|(Hl & y & Hy & HR)]; [|by apply elem_of_list_to_set, elem_of_nil in Hl|].
      * split; [lia|]. exists c. rewrite Nat2Z.id. auto.
      * split; [done|]. exists y. auto.
    + intros (Hl & y & Hy & [HR|[_ ->]]); [right; by eauto|left; left].
      rewrite <- (Z2Nat.id l) by done. f_equal. by eapply NoDup_lookup.
  - exists b. split; [by rewrite lookup_insert_ne by lia|]. intros l. rewrite Hm.
    assert (x <> a) by (intros ->; apply Hne; by eapply NoDup_lookup).
    split; intros (Hl & y & Hy & HR); (split; [done|]); exists y; naive_solver.
Qed.

Lemma ensureNode_inv s N E id s' idx :
  builder_inv s N E -> CSRDigraphBuilder_ensureNode s id = (s', idx) ->
  builder_inv s' (fun x => N x \/ x = id) E /\
  (0 <= idx)%Z /\ cb_denseIdxToID s' !! Z.to_nat idx = Some id /\
  cb_denseIdxToID s `prefix_of` cb_denseIdxToID s'.
Proof.
  intros Hinv Hens. unfold CSRDigraphBuilder_ensureNode in Hens.
  destruct (cb_idToDenseIdx s !! id) as [i|] eqn:Hid; injection Hens as <- <-.
  - apply (bi_idx _ _ _ Hinv) in Hid as [Hi Hid]. split; [|done].
    assert (N id) by (by eapply (bi_nodes _ _ _ Hinv), list_elem_of_lookup_2).
    destruct Hinv as [? ? Hn He ? ?]. split; try done.
    + intros x. rewrite Hn. naive_solver.
    + intros x y [? ?]%He. auto.
  - destruct Hinv as [Hnd Hidx Hn He Hout Hin].
    assert (Hfresh : id ∉ cb_denseIdxToID s).
    { intros Hin'. apply list_elem_of_lookup in Hin' as (k & Hk).
      enough (cb_idToDenseIdx s !! id = Some (Z.of_nat k)) by congruence.
      apply Hidx. rewrite Nat2Z.id. split; [lia|done]. }
    assert (HE : forall x y, E x y -> x ∈ cb_denseIdxToID s /\ y ∈ cb_denseIdxToID s).
    { intros x y [? ?]%He. by rewrite !Hn. }
    split; [split; simpl|split_and!; simpl].
    + apply NoDup_app. split_and!; [done| |apply NoDup_singleton].
      intros x Hx ->%list_elem_of_singleton. done.
    + intros x k. rewrite lookup_insert_Some, Hidx, lookup_snoc_Some. split.
      * intros [[-> <-]|(Hne & Hk & Hx)]; (split; [lia|]).
        -- right. split; [lia|done].
        -- left. split; [by eapply lookup_lt_Some|done].
      * intros (Hk & [[_ Hx]|[Hk' ->]]); [right|left; split; [done|lia]].
        split; [|done]. intros ->. by apply list_elem_of_lookup_2 in Hx.
    + intros x. rewrite elem_of_app, Hn, list_elem_of_singleton. done.
    + intros x y [? ?]%He. auto.
    + by apply side_rep_fresh.
    + apply side_rep_fresh; [|done|done]. intros x y Hxy%HE. tauto.
    + lia.
    + rewrite Nat2Z.id, lookup_app_r, Nat.sub_diag by lia. done.
    + by apply prefix_app_r.
Qed.

Lemma AddEdge_inv s N E a c :
  builder_inv s N E ->
  builder_inv (CSRDigraphBuilder_AddEdge s a c) (fun x => N x \/ x = a \/ x = c)
    (fun x y => E x y \/ x = a /\ y = c).
Proof.
  intros Hinv. unfold CSRDigraphBuilder_AddEdge.
  destruct (CSRDigraphBuilder_ensureNode s a) as [s1 i] eqn:E1.
  destruct (CSRDigraphBuilder_ensureNode s1 c) as [s2 j] eqn:E2.
  destruct (ensureNode_inv _ _ _ _ _ _ Hinv E1) as (H1 & Hi & Hai & _).
  destruct (ensureNode_inv _ _ _ _ _ _ H1 E2) as ([Hnd Hidx Hn He Hout Hin] & Hj & Hcj & Hpre).
  eapply prefix_lookup_Some in Hai; [|exact Hpre].
  rewrite <- (Z2Nat.id i), <- (Z2Nat.id j) by done. split; simpl; [done|done| | | |].
  - intros x. rewrite Hn. tauto.
  - intros x y [[? ?]%He|[-> ->]]; tauto.
  - by apply side_rep_add.
  - eapply side_rep_ext; [|by apply (side_rep_add _ _ (fun x y => E y x) _ _ c a)].
    simpl. intros; tauto.
Qed.

(** Any sequence of builder calls. *)
Inductive builder_op : Type :=
| OpAddNode (node : Z)
| OpAddEdge (start end_ : Z).

Definition apply_op (s : CSRDigraphBuilder B) (op : builder_op) : CSRDigraphBuilder B :=
  match op with
  | OpAddNode n => CSRDigraphBuilder_AddNode s n
  | OpAddEdge a c => CSRDigraphBuilder_AddEdge s a c
  end.

Definition run_builder (ops : list builder_op) : CSRDigraphBuilder B :=
  foldl apply_op NewCSRDigraphBuilder ops.

Definition op_node (ops : list builder_op) (x : Z) : Prop :=
  OpAddNode x ∈ ops \/ exists y, OpAddEdge x y ∈ ops \/ OpAddEdge y x ∈ ops.
Definition op_edge (ops : list builder_op) (x y : Z) : Prop := OpAddEdge x y ∈ ops.

Lemma builder_inv_ext s (N N' : Z -> Prop) (E E' : Z -> Z -> Prop) :
  (forall x, N x <-> N' x) -> (forall x y, E x y <-> E' x y) ->
  builder_inv s N E -> builder_inv s N' E'.
Proof.
  intros HN HE [Hnd Hidx Hn He Hout Hin]. split; [done|done| | | |].
  - intros x. by rewrite Hn.
  - intros x y. rewrite <- HE, <- !HN. apply He.
  - by eapply side_rep_ext.
  - eapply side_rep_ext; [|done]. simpl. intros. apply HE.
Qed.

Lemma run_builder_inv ops : builder_inv (run_builder ops) (op_node ops) (op_edge ops).
Proof.
  unfold run_builder. induction ops as [|op ops IH] using rev_ind.
  - eapply builder_inv_ext; [| |apply New_inv]; unfold op_node, op_edge; set_solver.
  - rewrite foldl_app. simpl. destruct op as [n|a c]; simpl.
    + unfold CSRDigraphBuilder_AddNode.
      destruct (CSRDigraphBuilder_ensureNode _ n) as [s' i] eqn:Hens.
      destruct (ensureNode_inv _ _ _ _ _ _ IH Hens) as [Hinv _].
      eapply builder_inv_ext; [| |exact Hinv]; unfold op_node, op_edge; set_solver.
    + eapply builder_inv_ext; [| |apply AddEdge_inv; exact IH]; unfold op_node, op_edge.
      * intros x. set_solver.
      * set_solver.
Qed.
End builder_inv.

(** ** The graph [Build] returns *)

(** [rows] stores relation [R] over the dense indices, each neighbour once. *)
Definition rows_rep (dense : list Z) (rows : list (list Z)) (R : Z -> Z -> Prop) : Prop :=
  length rows = length dense /\
  forall i x r, dense !! i = Some x -> rows !! i = Some r ->
    NoDup r /\ forall y, y ∈ r <-> R x y.

Record csr_rep (g : csrDigraph) (N : Z -> Prop) (E : Z -> Z -> Prop)
    (outs ins : list (list Z)) : Prop := {
  cr_NoDup : NoDup (csr_denseIdxToID g);
  cr_idx : forall id idx, csr_idToDenseIdx g !! id = Some idx <->
             (0 <= idx)%Z /\ csr_denseIdxToID g !! Z.to_nat idx = Some id;
  cr_nodes : forall x, x ∈ csr_denseIdxToID g <-> N x;
  cr_edges : forall x y, E x y -> N x /\ N y;
  cr_outOffsets : csr_outOffsets g = offsets_of outs;
  cr_outAdj : csr_outAdj g = concat outs;
  cr_inOffsets : csr_inOffsets g = offsets_of ins;
  cr_inAdj : csr_inAdj g = concat ins;
  cr_out : rows_rep (csr_denseIdxToID g) outs E;
  cr_in : rows_rep (csr_denseIdxToID g) ins (fun x y => E y x)
}.

(** The edges stored by the rows, as pairs. *)
Definition row_pairs (dense : list Z) (rows : list (list Z)) : list (Z * Z) :=
  concat (zip_with (fun x r => pair x <$> r) dense rows).

Lemma row_pairs_length dense rows :
  length rows = length dense -> length (row_pairs dense rows) = length (concat rows).
Proof.
  unfold row_pairs. revert rows. induction dense as [|x dense IH]; intros [|r rows] Hlen; simpl in *;
    try lia. rewrite !length_app, length_fmap, IH by lia. done.
Qed.

Lemma elem_of_row_pairs dense rows p :
  p ∈ row_pairs dense rows <->
  exists i r, dense !! i = Some p.1 /\ rows !! i = Some r /\ p.2 ∈ r.
Proof.
  unfold row_pairs. revert rows. induction dense as [|x dense IH]; intros rows; simpl.
  - split; [by intros ?%elem_of_nil|]. intros (i & r & Hi & _). by rewrite lookup_nil in Hi.
  - destruct rows as [|r rows]; simpl.
    + split; [by intros ?%elem_of_nil|]. intros (i & r & _ & Hi & _). by rewrite lookup_nil in Hi.
    + rewrite elem_of_app, IH, list_elem_of_fmap. split.
      * intros [(y & -> & Hy)|(i & r' & Hi)]; [by exists 0, r|by exists (S i), r'].
      * intros ([|i] & r' & Hx & Hr & Hy); simpl in *; [left|right; by exists i, r'].
        exists p.2. destruct p. naive_solver.
Qed.

Lemma row_pairs_NoDup dense rows :
  NoDup dense -> (forall r, r ∈ rows -> NoDup r) -> NoDup (row_pairs dense rows).
Proof.
  unfold row_pairs. revert rows. induction dense as [|x dense IH]; intros rows Hnd Hrows; simpl; [constructor|].
  destruct rows as [|r rows]; simpl; [constructor|].
  apply NoDup_cons in Hnd as [Hx Hnd]. apply NoDup_app. split_and!.
  - apply NoDup_fmap_2; [by intros ? ? [= ->]|]. apply Hrows. by left.
  - intros p (y & -> & _)%list_elem_of_fmap Hp. apply elem_of_row_pairs in Hp as (i & r' & Hi & _).
    by apply list_elem_of_lookup_2 in Hi.
  - apply IH; [done|]. intros; apply Hrows. by right.
Qed.

Section built.
Context {B : Type} `{Roaring B} `{!RoaringLaws B}.

(** The bitmaps of one side, in dense order. *)
Lemma side_bitmaps dense (tmp : gmap Z B) R :
  side_rep dense tmp R ->
  exists bms, length bms = length dense /\
    (forall i b, bms !! i = Some b -> tmp !! Z.of_nat i = Some b) /\
    (forall i x b, dense !! i = Some x -> bms !! i = Some b -> forall j, j ∈ bset b <->
       (0 <= j)%Z /\ exists y, dense !! Z.to_nat j = Some y /\ R x y).
Proof.
  intros Hs. exists ((fun i => default NewBitmap64 (tmp !! Z.of_nat i)) <$> seq 0 (length dense)).
  split; [by rewrite length_fmap, length_seq|].
  assert (Hl : forall i b,
    ((fun i => default NewBitmap64 (tmp !! Z.of_nat i)) <$> seq 0 (length dense)) !! i = Some b ->
    tmp !! Z.of_nat i = Some b).
  { intros i b. rewrite list_lookup_fmap, fmap_Some. intros (k & [-> Hk]%lookup_seq & ->). simpl.
    destruct (lookup_lt_is_Some_2 dense i Hk) as [x Hx]. destruct (Hs i x Hx) as (b & -> & _). done. }
  split; [done|]. intros i x b Hx Hb%Hl j. destruct (Hs i x Hx) as (b' & Hb' & Hm).
  by replace b with b' by congruence.
Qed.

Lemma Build_side_rep dense (tmp : gmap Z B) R k :
  NoDup dense -> side_rep dense tmp R -> (forall x y, R x y -> x ∈ dense /\ y ∈ dense) ->
  (forall l : list (Z * Z), NoDup l -> (forall p, p ∈ l -> R p.1 p.2) -> length l <= k) ->
  (Z.of_nat k < two64)%Z ->
  exists rows, rows_rep dense rows R /\ Build_side tmp dense = Done (offsets_of rows, concat rows).
Proof.
  intros Hnd Hs HR Hk Hlt. destruct (side_bitmaps _ _ _ Hs) as (bms & Hlen & Htmp & Hm).
  assert (Hrows : rows_rep dense (build_rows dense bms) R).
  { split; [unfold build_rows; by rewrite length_fmap|]. intros i x r Hx Hr.
    unfold build_rows in Hr. rewrite list_lookup_fmap, fmap_Some in Hr.
    destruct Hr as (b & Hb & ->). specialize (Hm i x b Hx Hb). split.
    - apply NoDup_fmap_2_strong; [|apply Slice_NoDup]. intros j1 j2.
      rewrite !elem_of_Slice, !Hm. intros (? & y1 & Hy1 & _) (? & y2 & Hy2 & _).
      unfold dense_id. rewrite Hy1, Hy2. simpl. intros ->.
      pose proof (NoDup_lookup _ _ _ _ Hnd Hy1 Hy2). lia.
    - intros y. rewrite list_elem_of_fmap. setoid_rewrite elem_of_Slice. split.
      + intros (j & -> & (_ & z & Hz & HRz)%Hm). unfold dense_id. by rewrite Hz.
      + intros HRy. destruct (HR x y HRy) as [_ Hy]. apply list_elem_of_lookup in Hy as (j & Hj).
        exists (Z.of_nat j). unfold dense_id. rewrite Hm, Nat2Z.id, Hj.
        split; [done|split; [lia|by exists y]]. }
  exists (build_rows dense bms). split; [done|]. destruct Hrows as [Hrl Hrr].
  apply Build_side_rows; [done|done| |].
  - intros b j Hb Hj. apply list_elem_of_lookup in Hb as (i & Hi).
    destruct (lookup_lt_is_Some_2 dense i) as [x Hx].
    { rewrite <- Hlen. by eapply lookup_lt_Some. }
    destruct (proj1 (Hm i x b Hx Hi j) Hj) as (? & y & Hy & _).
    apply lookup_lt_Some in Hy. lia.
  - rewrite <- (row_pairs_length dense) by done.
    enough (length (row_pairs dense (build_rows dense bms)) <= k) by lia. apply Hk.
    + apply row_pairs_NoDup; [done|]. intros r Hr. apply list_elem_of_lookup in Hr as (i & Hi).
      destruct (lookup_lt_is_Some_2 dense i) as [x Hx].
      { rewrite <- Hrl. by eapply lookup_lt_Some. }
      by eapply Hrr.
    + intros p Hp. apply elem_of_row_pairs in Hp as (i & r & Hx & Hr & Hy).
      by apply (Hrr i _ r Hx Hr).
Qed.

Lemma Build_rep (s : CSRDigraphBuilder B) N E k :
  builder_inv s N E ->
  (forall l : list (Z * Z), NoDup l -> (forall p, p ∈ l -> E p.1 p.2) -> length l <= k) ->
  (Z.of_nat k < two64)%Z ->
  exists g outs ins, CSRDigraphBuilder_Build s = Done g /\ csr_rep g N E outs ins.
Proof.
  intros [Hnd Hidx Hn He Hout Hin] Hk Hlt.
  assert (HE : forall x y, E x y -> x ∈ cb_denseIdxToID s /\ y ∈ cb_denseIdxToID s).
  { intros x y [? ?]%He. by rewrite !Hn. }
  destruct (Build_side_rep _ _ _ k Hnd Hout HE Hk Hlt) as (outs & Houts & HBout).
  destruct (Build_side_rep _ _ _ k Hnd Hin) as (ins & Hins & HBin); [| |done|].
  - intros x y Hxy%HE. tauto.
  - intros l Hl Hp. rewrite <- (length_fmap (fun p => (p.2, p.1)) l). apply Hk.
    + apply NoDup_fmap_2; [by intros [] [] [= -> ->]|done].
    + intros p ([a c] & -> & Hac)%list_elem_of_fmap. by apply (Hp (a, c)).
  - eexists _, outs, ins. unfold CSRDigraphBuilder_Build. rewrite HBout, HBin. split; [done|].
    by split.
Qed.

Lemma op_edge_count ops (l : list (Z * Z)) :
  NoDup l -> (forall p, p ∈ l -> op_edge ops p.1 p.2) -> length l <= length ops.
Proof.
  intros Hnd Hl. rewrite <- (length_fmap (fun p => OpAddEdge p.1 p.2)).
  apply submseteq_length, NoDup_submseteq.
  - apply NoDup_fmap_2; [by intros [] [] [= -> ->]|done].
  - intros op (p & -> & Hp)%list_elem_of_fmap. by apply Hl.
Qed.

Lemma run_builder_Build ops :
  (Z.of_nat (length ops) < two64)%Z ->
  exists g outs ins, CSRDigraphBuilder_Build (run_builder (B := B) ops) = Done g /\
    csr_rep g (op_node ops) (op_edge ops) outs ins.
Proof.
  intros Hlt. eapply Build_rep; [apply run_builder_inv|apply op_edge_count|done].
Qed.
End built.

(** ** csrDigraph implements DirectedGraph

    The interface methods return the state on a panic; [csr_EachAdjacentNode_rep]
    shows that a built graph never panics. *)

#[export] Instance csr_DirectedGraph : DirectedGraph csrDigraph := {
  NumNodes := csrDigraph_NumNodes;
  EachNode St g f s := csrDigraph_EachNode g f s;
  EachAdjacentNode St g n d f s :=
    match csrDigraph_EachAdjacentNode g n d f s with Done s' => s' | _ => s end
}.

Section csr_lawful.
Context (g : csrDigraph) (N : Z -> Prop) (E : Z -> Z -> Prop) (outs ins : list (list Z)).
Context (Hrep : csr_rep g N E outs ins).

Definition csr_side (rows : list (list Z)) (x : Z) : list Z :=
  match csrDigraph_idx g x with Some i => default [] (rows !! Z.to_nat i) | None => [] end.

Definition csr_adj (x : Z) (d : Direction) : list Z :=
  match d with
  | DirectionOutbound => csr_side outs x
  | DirectionInbound => csr_side ins x
  | DirectionBoth => csr_side outs x ++ csr_side ins x
  end.

Lemma csr_idx_rows rows R x i :
  rows_rep (csr_denseIdxToID g) rows R -> csrDigraph_idx g x = Some i ->
  (0 <= i)%Z /\ rows !! Z.to_nat i = Some (csr_side rows x).
Proof.
  intros [Hlen _] Hi. unfold csr_side. rewrite Hi.
  apply (cr_idx _ _ _ _ _ Hrep) in Hi as [Hi Hx]. split; [done|].
  destruct (lookup_lt_is_Some_2 rows (Z.to_nat i)) as [r ->]; [|done].
  rewrite Hlen. by eapply lookup_lt_Some.
Qed.

Lemma csr_side_rep rows R x :
  rows_rep (csr_denseIdxToID g) rows R -> (forall x y, R x y -> N x) ->
  NoDup (csr_side rows x) /\ forall y, y ∈ csr_side rows x <-> R x y.
Proof.
  intros Hrows HN. destruct (csrDigraph_idx g x) as [i|] eqn:Hi.
  - destruct (csr_idx_rows rows R x i Hrows Hi) as [Hpos Hrow].
    apply (cr_idx _ _ _ _ _ Hrep) in Hi as [_ Hx]. by apply (proj2 Hrows (Z.to_nat i)).
  - unfold csr_side. rewrite Hi. split; [constructor|]. intros y.
    split; [by intros ?%elem_of_nil|]. intros HR%HN. exfalso.
    apply (cr_nodes _ _ _ _ _ Hrep), list_elem_of_lookup in HR as (k & Hk).
    enough (csr_idToDenseIdx g !! x = Some (Z.of_nat k)) by (unfold csrDigraph_idx in Hi; congruence).
    apply (cr_idx _ _ _ _ _ Hrep). rewrite Nat2Z.id. split; [lia|done].
Qed.

Lemma csr_out_rep x : NoDup (csr_side outs x) /\ forall y, y ∈ csr_side outs x <-> E x y.
Proof. apply csr_side_rep; [apply Hrep|]. intros a b Hab. by apply (cr_edges _ _ _ _ _ Hrep a b). Qed.

Lemma csr_in_rep x : NoDup (csr_side ins x) /\ forall y, y ∈ csr_side ins x <-> E y x.
Proof.
  apply (csr_side_rep ins (fun x y => E y x)); [apply Hrep|].
  intros a b Hab. by apply (cr_edges _ _ _ _ _ Hrep b a).
Qed.

Lemma csr_EachAdjacentNode_rep {St} n d (f : Z -> St -> St * bool) s :
  csrDigraph_EachAdjacentNode g n d f s = Done (each f (csr_adj n d) s).
Proof.
  unfold csrDigraph_EachAdjacentNode.
  rewrite (cr_outOffsets _ _ _ _ _ Hrep), (cr_outAdj _ _ _ _ _ Hrep),
    (cr_inOffsets _ _ _ _ _ Hrep), (cr_inAdj _ _ _ _ _ Hrep).
  destruct (csrDigraph_idx g n) as [i|] eqn:Hi.
  - destruct (csr_idx_rows outs _ n i (cr_out _ _ _ _ _ Hrep) Hi) as [Hpos Ho].
    destruct (csr_idx_rows ins _ n i (cr_in _ _ _ _ _ Hrep) Hi) as [_ Hin].
    rewrite <- (Z2Nat.id i) by done.
    destruct d; rewrite ?(csr_each_rows _ _ _ Ho), ?(csr_each_rows _ _ _ Hin); simpl;
      try by rewrite each_flag_fst.
    rewrite each_flag_app.
    destruct (each_flag f (csr_side outs n) s) as [s' []]; simpl; [|done].
    rewrite (csr_each_rows _ _ _ Hin). simpl. by rewrite each_flag_fst.
  - unfold csr_adj, csr_side. rewrite Hi. by destruct d.
Qed.

Lemma csr_AdjacentNodes_rep n d : csrDigraph_AdjacentNodes g n d = Done (csr_adj n d).
Proof.
  unfold csrDigraph_AdjacentNodes, csrDigraph_csrRange.
  rewrite (cr_outOffsets _ _ _ _ _ Hrep), (cr_outAdj _ _ _ _ _ Hrep),
    (cr_inOffsets _ _ _ _ _ Hrep), (cr_inAdj _ _ _ _ _ Hrep).
  destruct (csrDigraph_idx g n) as [i|] eqn:Hi.
  - destruct (csr_idx_rows outs _ n i (cr_out _ _ _ _ _ Hrep) Hi) as [Hpos Ho].
    destruct (csr_idx_rows ins _ n i (cr_in _ _ _ _ _ Hrep) Hi) as [_ Hin].
    rewrite <- (Z2Nat.id i) by done.
    destruct d; rewrite ?(csr_row_rows _ _ _ Ho), ?(csr_row_rows _ _ _ Hin); done.
  - unfold csr_adj, csr_side. rewrite Hi. by destruct d.
Qed.

Lemma csr_Degrees_rep n d :
  (Z.of_nat (length (csr_adj n DirectionBoth)) < two64)%Z ->
  csrDigraph_Degrees g n d = Done (Z.of_nat (length (csr_adj n d))).
Proof.
  unfold csr_adj at 1. rewrite length_app. intros Hlt. unfold csrDigraph_Degrees.
  rewrite (cr_outOffsets _ _ _ _ _ Hrep), (cr_inOffsets _ _ _ _ _ Hrep).
  destruct (csrDigraph_idx g n) as [i|] eqn:Hi.
  - destruct (csr_idx_rows outs _ n i (cr_out _ _ _ _ _ Hrep) Hi) as [Hpos Ho].
    destruct (csr_idx_rows ins _ n i (cr_in _ _ _ _ _ Hrep) Hi) as [_ Hin].
    rewrite <- (Z2Nat.id i) by done.
    destruct d; rewrite ?(csr_degree_rows _ _ _ Ho), ?(csr_degree_rows _ _ _ Hin) by lia; try done.
    simpl. f_equal. rewrite length_app, wrap64_small by lia. lia.
  - unfold csr_adj, csr_side. rewrite Hi. by destruct d.
Qed.

#[export] Instance csr_lawful : LawfulDigraph g.
Proof.
  refine {| dg_nodes := csr_denseIdxToID g; dg_adj := csr_adj |}.
  - apply Hrep.
  - done.
  - done.
  - intros. simpl. by rewrite csr_EachAdjacentNode_rep.
  - intros x y d Hy. apply (cr_nodes _ _ _ _ _ Hrep).
    assert (E x y \/ E y x) as Hxy.
    { destruct d; simpl in Hy; rewrite ?elem_of_app in Hy;
        rewrite ?(proj2 (csr_out_rep x)), ?(proj2 (csr_in_rep x)) in Hy; tauto. }
    destruct Hxy as [Hxy|Hxy]; by apply (cr_edges _ _ _ _ _ Hrep) in Hxy as [? ?].
  - intros x y. simpl. rewrite (proj2 (csr_out_rep x)), (proj2 (csr_in_rep y)). done.
Defined.
End csr_lawful.

(** *** Normalize *)

Definition normal_rows (g : csrDigraph) (rows : list (list Z)) : list (list Z) :=
  (fun r : list Z => csr_translate g <$> r) <$> rows.

(** The edge relation over dense indices. *)
Definition normal_edge (dense : list Z) (E : Z -> Z -> Prop) (i j : Z) : Prop :=
  exists x y, (0 <= i)%Z /\ (0 <= j)%Z /\
    dense !! Z.to_nat i = Some x /\ dense !! Z.to_nat j = Some y /\ E x y.

Section normalize.
Context (g : csrDigraph) (N : Z -> Prop) (E : Z -> Z -> Prop) (outs ins : list (list Z)).
Context (Hrep : csr_rep g N E outs ins).

Lemma offsets_normal rows : offsets_of (normal_rows g rows) = offsets_of rows.
Proof.
  unfold offsets_of, normal_rows. rewrite length_fmap. apply list_fmap_ext.
  intros i x _. unfold row_start. f_equal.
  rewrite <- fmap_take. generalize (take x rows). intros l.
  induction l as [|r l IH]; [done|].
  rewrite fmap_cons. cbn [List.concat]. rewrite !length_app, length_fmap, IH. done.
Qed.

Lemma concat_normal rows : csr_translate g <$> concat rows = concat (normal_rows g rows).
Proof.
  induction rows as [|r rows IH]; [done|]. cbn [List.concat]. rewrite fmap_app, IH. done.
Qed.

Lemma csr_translate_dense j y :
  (0 <= j)%Z -> csr_denseIdxToID g !! Z.to_nat j = Some y -> csr_translate g y = j.
Proof.
  intros Hj Hy. unfold csr_translate. by rewrite (proj2 (cr_idx _ _ _ _ _ Hrep y j)) by done.
Qed.

Lemma seq_dense (n k : nat) z :
  (Z.of_nat <$> seq 0 n) !! k = Some z <-> k < n /\ z = Z.of_nat k.
Proof.
  rewrite list_lookup_fmap, fmap_Some. split.
  - intros (j & [-> Hj]%lookup_seq & ->). simpl. done.
  - intros [Hk ->]. exists k. rewrite lookup_seq. done.
Qed.

Lemma normal_rows_rep rows R :
  rows_rep (csr_denseIdxToID g) rows R ->
  (forall x y, R x y -> y ∈ csr_denseIdxToID g) ->
  rows_rep (Z.of_nat <$> seq 0 (length (csr_denseIdxToID g))) (normal_rows g rows)
    (normal_edge (csr_denseIdxToID g) R).
Proof.
  intros [Hlen Hr] HR. split; [unfold normal_rows; by rewrite !length_fmap, length_seq|].
  intros i z r [Hi ->]%seq_dense Hrow. unfold normal_rows in Hrow.
  rewrite list_lookup_fmap, fmap_Some in Hrow. destruct Hrow as (r0 & Hr0 & ->).
  destruct (lookup_lt_is_Some_2 _ i Hi) as [x Hx]. destruct (Hr i x r0 Hx Hr0) as [Hnd Hmem].
  assert (Htr : forall y, y ∈ r0 -> exists j, csr_denseIdxToID g !! j = Some y /\
                            csr_translate g y = Z.of_nat j).
  { intros y Hy%Hmem%HR. apply list_elem_of_lookup in Hy as (j & Hj). exists j. split; [done|].
    apply csr_translate_dense; [lia|]. by rewrite Nat2Z.id. }
  split.
  - apply NoDup_fmap_2_strong; [|done]. intros y1 y2 Hy1 Hy2 Heq.
    destruct (Htr y1 Hy1) as (j1 & Hj1 & Ht1), (Htr y2 Hy2) as (j2 & Hj2 & Ht2).
    assert (j1 = j2) as -> by lia. congruence.
  - intros j. rewrite list_elem_of_fmap. split.
    + intros (y & -> & Hy). destruct (Htr y Hy) as (k & Hk & ->). exists x, y.
      rewrite !Nat2Z.id. split_and!; [lia|lia|done|done|by apply Hmem].
    + intros (x' & y & _ & Hj & Hx' & Hy & HRy). rewrite Nat2Z.id in Hx'.
      exists y. rewrite (csr_translate_dense j y) by done. split; [done|].
      apply Hmem. by replace x with x' by congruence.
Qed.

Lemma dense_identity (l : list nat) k v :
  foldl (fun m i => <[i := i]> m) (∅ : gmap Z Z) (Z.of_nat <$> l) !! k = Some v <->
  v = k /\ k ∈ Z.of_nat <$> l.
Proof.
  induction l as [|i l IH] using rev_ind; simpl.
  - rewrite lookup_empty. split; [done|]. by intros [_ ?%elem_of_nil].
  - rewrite fmap_app, foldl_app, elem_of_app. simpl.
    rewrite lookup_insert_Some, IH, list_elem_of_singleton.
    destruct (decide (Z.of_nat i = k)) as [->|Hne]; split; intros Hv; intuition congruence.
Qed.

Lemma Normalize_rep :
  (csrDigraph_Normalize g).1 = csr_denseIdxToID g /\
  csr_rep (csrDigraph_Normalize g).2
    (fun i => 0 <= i < Z.of_nat (length (csr_denseIdxToID g)))%Z
    (normal_edge (csr_denseIdxToID g) E)
    (normal_rows g outs) (normal_rows g ins).
Proof.
  split; [done|]. destruct Hrep as [Hnd Hidx Hn He Hoo Hoa Hio Hia Hout Hin].
  assert (HE : forall x y, E x y -> x ∈ csr_denseIdxToID g /\ y ∈ csr_denseIdxToID g).
  { intros x y [? ?]%He. by rewrite !Hn. }
  split; simpl.
  - apply NoDup_fmap_2; [apply _|apply NoDup_seq].
  - intros id idx. rewrite dense_identity, list_elem_of_fmap, seq_dense. split.
    + intros (-> & k & -> & Hk%elem_of_seq). rewrite Nat2Z.id. lia.
    + intros (Hpos & Hlt & ->). rewrite Z2Nat.id in * by done. split; [done|].
      exists (Z.to_nat idx). rewrite elem_of_seq. lia.
  - intros x. rewrite list_elem_of_fmap. setoid_rewrite elem_of_seq. split.
    + intros (k & -> & Hk). lia.
    + intros Hx. exists (Z.to_nat x). lia.
  - intros i j (x & y & Hi & Hj & Hx%lookup_lt_Some & Hy%lookup_lt_Some & _). lia.
  - by rewrite offsets_normal.
  - by rewrite Hoa, concat_normal.
  - by rewrite offsets_normal.
  - by rewrite Hia, concat_normal.
  - apply normal_rows_rep; [done|]. by intros x y [_ ?]%HE.
  - destruct (normal_rows_rep ins (fun x y => E y x)) as [Hl Hr]; [done|by intros x y [? _]%HE|].
    split; [done|]. intros i x r Hx Hrow. destruct (Hr i x r Hx Hrow) as [Hnd' Hm].
    split; [done|]. intros y. rewrite Hm. unfold normal_edge. naive_solver.
Qed.
End normalize.

(** ** Properties *)

(** Following an edge relation in a direction. *)
Definition dir_edge (E : Z -> Z -> Prop) (d : Direction) (x y : Z) : Prop :=
  match d with
  | DirectionOutbound => E x y
  | DirectionInbound => E y x
  | DirectionBoth => E x y \/ E y x
  end.

Lemma csr_dg_edge g N E outs ins (Hrep : csr_rep g N E outs ins) d x y :
  dg_edge g (LawfulDigraph0 := csr_lawful g N E outs ins Hrep) d x y <-> dir_edge E d x y.
Proof.
  unfold dg_edge. simpl. destruct d; simpl; rewrite ?elem_of_app,
    ?(proj2 (csr_out_rep _ _ _ _ _ Hrep x)), ?(proj2 (csr_in_rep _ _ _ _ _ Hrep x)); done.
Qed.

(** The rows of a built graph are no longer than the calls that built it. *)
Lemma csr_both_bound g outs ins ops x :
  csr_rep g (op_node ops) (op_edge ops) outs ins -> (Z.of_nat (length ops) < 2 ^ 63)%Z ->
  (Z.of_nat (length (csr_adj g outs ins x DirectionBoth)) < two64)%Z.
Proof.
  intros Hrep Hlt. destruct (csr_out_rep _ _ _ _ _ Hrep x) as [Hndo Ho], (csr_in_rep _ _ _ _ _ Hrep x) as [Hndi Hi].
  assert (length (csr_side g outs x) <= length ops /\ length (csr_side g ins x) <= length ops) as [? ?].
  { split.
    - rewrite <- (length_fmap (pair x)). apply op_edge_count.
      + by apply NoDup_fmap_2; [intros ? ? [= ->]|].
      + intros p (y & -> & Hy)%list_elem_of_fmap. by apply Ho.
    - rewrite <- (length_fmap (fun y => (y, x))). apply op_edge_count.
      + by apply NoDup_fmap_2; [intros ? ? [= ->]|].
      + intros p (y & -> & Hy)%list_elem_of_fmap. by apply Hi. }
  simpl. rewrite length_app. unfold two64. lia.
Qed.

(** [C6] Whatever sequence of [AddNode] and [AddEdge] calls fills a builder,
    [Build] returns a graph without panicking, its nodes are exactly the ones
    named, listed once, and the adjacency of every node in every direction is
    exactly the edges added, each neighbour once per direction, with
    [Degrees] the length of the adjacency. *)
Theorem Build_adjacency {B : Type} `{Roaring B} `{!RoaringLaws B} (ops : list builder_op) :
  (Z.of_nat (length ops) < 2 ^ 63)%Z ->
  exists g, CSRDigraphBuilder_Build (run_builder (B := B) ops) = Done g /\
    NoDup (csr_denseIdxToID g) /\
    (forall x, x ∈ csr_denseIdxToID g <-> op_node ops x) /\
    forall x, exists outs ins,
      csrDigraph_AdjacentNodes g x DirectionOutbound = Done outs /\
      csrDigraph_AdjacentNodes g x DirectionInbound = Done ins /\
      csrDigraph_AdjacentNodes g x DirectionBoth = Done (outs ++ ins) /\
      NoDup outs /\ (forall y, y ∈ outs <-> OpAddEdge x y ∈ ops) /\
      NoDup ins /\ (forall y, y ∈ ins <-> OpAddEdge y x ∈ ops) /\
      csrDigraph_Degrees g x DirectionOutbound = Done (Z.of_nat (length outs)) /\
      csrDigraph_Degrees g x DirectionInbound = Done (Z.of_nat (length ins)) /\
      csrDigraph_Degrees g x DirectionBoth = Done (Z.of_nat (length outs + length ins)).
Proof.
  intros Hlt. destruct (run_builder_Build (B := B) ops) as (g & outs & ins & HB & Hrep).
  { unfold two64. lia. }
  exists g. split_and!; [done|apply Hrep|apply Hrep|]. intros x.
  destruct (csr_out_rep _ _ _ _ _ Hrep x) as [Hndo Ho], (csr_in_rep _ _ _ _ _ Hrep x) as [Hndi Hi].
  exists (csr_side g outs x), (csr_side g ins x).
  pose proof (csr_both_bound _ _ _ _ x Hrep Hlt) as Hbound.
  rewrite !(csr_AdjacentNodes_rep _ _ _ _ _ Hrep), !(csr_Degrees_rep _ _ _ _ _ Hrep) by done.
  simpl. rewrite length_app. done.
Qed.

(** The bound above holds of the empty builder and of a diamond with a loop. *)
Lemma Build_adjacency_witness :
  exists g, CSRDigraphBuilder_Build
      (run_builder (B := gset Z) [OpAddEdge 7 3; OpAddEdge 7 5; OpAddEdge 3 7; OpAddNode 9]) = Done g /\
    csrDigraph_AdjacentNodes g 7 DirectionOutbound = Done [3; 5]%Z.
Proof.
  destruct (Build_adjacency (B := gset Z)
    [OpAddEdge 7 3; OpAddEdge 7 5; OpAddEdge 3 7; OpAddNode 9]) as (g & HB & _); [vm_compute; done|].
  exists g. split; [exact HB|]. vm_compute in HB. injection HB as <-. vm_compute. reflexivity.
Defined.

(** [Reach] over a built graph terminates, and the bitmap it returns holds
    exactly the nodes at the end of a non-empty walk from the start in the
    given direction. *)
Theorem Reach_built {B : Type} `{Roaring B} `{!RoaringLaws B} (ops : list builder_op) n d :
  (Z.of_nat (length ops) < two64)%Z ->
  exists g (b : B), CSRDigraphBuilder_Build (run_builder (B := B) ops) = Done g /\
    Reach g n d = Some b /\
    forall x, bitmap64_Contains x b = true <-> tc (dir_edge (op_edge ops) d) n x.
Proof.
  intros Hlt. destruct (run_builder_Build (B := B) ops Hlt) as (g & outs & ins & HB & Hrep).
  pose (csr_lawful _ _ _ _ _ Hrep).
  destruct (Reach_total (B := B) g d n) as (b & HR & Hb). exists g, b. split_and!; [done|done|].
  intros x. rewrite bset_Contains, bool_decide_eq_true, Hb.
  apply tc_ext. intros a c. apply csr_dg_edge.
Qed.

Lemma Reach_built_witness :
  exists g (b : gset Z),
    CSRDigraphBuilder_Build (run_builder (B := gset Z) [OpAddEdge 1 2; OpAddEdge 2 3; OpAddEdge 4 1])
      = Done g /\ Reach g 1 DirectionOutbound = Some b /\ bitmap64_Slice b = [2; 3]%Z.
Proof.
  destruct (Reach_built (B := gset Z) [OpAddEdge 1 2; OpAddEdge 2 3; OpAddEdge 4 1] 1
    DirectionOutbound) as (g & b & HB & HR & _); [vm_compute; done|].
  exists g, b. split_and!; [exact HB|exact HR|].
  vm_compute in HB. injection HB as <-. vm_compute in HR. injection HR as <-. vm_compute. reflexivity.
Defined.

(** [C18] [BFSTree] over a built graph terminates and lists every node that a
    non-empty walk reaches exactly once, with the length of a shortest such
    walk as its distance, in order of distance. *)
Theorem BFSTree_built {B : Type} `{Roaring B} `{!RoaringLaws B} (ops : list builder_op) n d :
  (Z.of_nat (length ops) < two64)%Z ->
  exists g ts, CSRDigraphBuilder_Build (run_builder (B := B) ops) = Done g /\
    BFSTree (B := B) g n d = Some ts /\
    NoDup (pt_Node <$> ts) /\
    (forall x, x ∈ pt_Node <$> ts <-> tc (dir_edge (op_edge ops) d) n x) /\
    (forall t, t ∈ ts ->
       nsteps (dir_edge (op_edge ops) d) (pt_Distance t) n (pt_Node t) /\
       forall k, 1 <= k -> nsteps (dir_edge (op_edge ops) d) k n (pt_Node t) -> pt_Distance t <= k) /\
    StronglySorted le (pt_Distance <$> ts).
Proof.
  intros Hlt. destruct (run_builder_Build (B := B) ops Hlt) as (g & outs & ins & HB & Hrep).
  pose (csr_lawful _ _ _ _ _ Hrep).
  destruct (BFSTree_total (B := B) g d n) as (ts & HT & Hnd & Hmem & Hdist & Hsort).
  exists g, ts. split_and!; [done|done|done| | |done].
  - intros x. rewrite Hmem. apply tc_ext. intros a c. apply csr_dg_edge.
  - intros t Ht. destruct (Hdist t Ht) as [Hn Hmin]. split.
    + eapply nsteps_ext; [|exact Hn]. intros a c. symmetry. apply csr_dg_edge.
    + intros [|k] Hk Hnk; [lia|]. apply Hmin. eapply nsteps_ext; [|exact Hnk].
      intros a c. apply csr_dg_edge.
Qed.

Lemma BFSTree_built_witness :
  exists g ts,
    CSRDigraphBuilder_Build (run_builder (B := gset Z)
      [OpAddEdge 1 2; OpAddEdge 2 3; OpAddEdge 1 3; OpAddEdge 3 1]) = Done g /\
    BFSTree (B := gset Z) g 1 DirectionOutbound = Some ts /\
    (fun t => (pt_Node t, pt_Distance t)) <$> ts = [(2%Z, 1); (3%Z, 1); (1%Z, 2)].
Proof.
  destruct (BFSTree_built (B := gset Z)
    [OpAddEdge 1 2; OpAddEdge 2 3; OpAddEdge 1 3; OpAddEdge 3 1] 1 DirectionOutbound)
    as (g & ts & HB & HT & _); [vm_compute; done|].
  exists g, ts. split_and!; [exact HB|exact HT|].
  vm_compute in HB. injection HB as <-. vm_compute in HT. injection HT as <-. vm_compute. reflexivity.
Defined.

(** [Normalize] of a built graph relabels it: node [i] of the new graph is
    the [i]-th entry of the returned list, and [i] is adjacent to [j] exactly
    when the nodes they stand for are. *)
Theorem Normalize_isomorphism {B : Type} `{Roaring B} `{!RoaringLaws B} (ops : list builder_op) :
  (Z.of_nat (length ops) < two64)%Z ->
  exists g reverse g', CSRDigraphBuilder_Build (run_builder (B := B) ops) = Done g /\
    csrDigraph_Normalize g = (reverse, g') /\
    csrDigraph_NumNodes g' = csrDigraph_NumNodes g /\
    NoDup reverse /\ (forall x, x ∈ reverse <-> op_node ops x) /\
    forall i x, reverse !! i = Some x ->
      exists outs ins,
        csrDigraph_AdjacentNodes g' (Z.of_nat i) DirectionOutbound = Done outs /\
        csrDigraph_AdjacentNodes g' (Z.of_nat i) DirectionInbound = Done ins /\
        (forall j y, reverse !! j = Some y ->
           (Z.of_nat j ∈ outs <-> OpAddEdge x y ∈ ops) /\
           (Z.of_nat j ∈ ins <-> OpAddEdge y x ∈ ops)).
Proof.
  intros Hlt. destruct (run_builder_Build (B := B) ops Hlt) as (g & outs & ins & HB & Hrep).
  destruct (Normalize_rep _ _ _ _ _ Hrep) as [Hrev Hrep'].
  exists g, (csrDigraph_Normalize g).1, (csrDigraph_Normalize g).2.
  split_and!; [done|by destruct (csrDigraph_Normalize g)| |apply Hrep|apply Hrep|].
  { unfold csrDigraph_NumNodes. simpl. by rewrite length_fmap, length_seq. }
  rewrite Hrev. intros i x Hx. do 2 eexists.
  split; [apply (csr_AdjacentNodes_rep _ _ _ _ _ Hrep')|].
  split; [apply (csr_AdjacentNodes_rep _ _ _ _ _ Hrep')|].
  intros j y Hy. simpl.
  rewrite (proj2 (csr_out_rep _ _ _ _ _ Hrep' _)), (proj2 (csr_in_rep _ _ _ _ _ Hrep' _)).
  unfold normal_edge. rewrite !Nat2Z.id, Hx, Hy. split; split.
  - by intros (? & ? & _ & _ & [= <-] & [= <-] & He).
  - intros He. exists x, y. split_and!; done || lia.
  - by intros (? & ? & _ & _ & [= <-] & [= <-] & He).
  - intros He. exists y, x. split_and!; done || lia.
Qed.

Lemma Normalize_isomorphism_witness :
  exists g reverse g',
    CSRDigraphBuilder_Build (run_builder (B := gset Z) [OpAddEdge 70 30; OpAddEdge 30 50]) = Done g /\
    csrDigraph_Normalize g = (reverse, g') /\ reverse = [70; 30; 50]%Z /\
    csrDigraph_AdjacentNodes g' 1 DirectionOutbound = Done [2%Z].
Proof.
  destruct (Normalize_isomorphism (B := gset Z) [OpAddEdge 70 30; OpAddEdge 30 50])
    as (g & r & g' & HB & HN & _); [vm_compute; done|].
  exists g, r, g'. split_and!; [exact HB|exact HN| |];
    vm_compute in HB; injection HB as <-; vm_compute in HN; injection HN as <- <-; vm_compute; reflexivity.
Defined.
