(* ===== verification/AdjacencyMap.v ===== *)
(** * container/adjacencymap.go: the mutable digraph over adjacency bitmaps *)

From S2P Require Import Prelude Bitmap Digraph Csr.

Section adjacency_map.
Context {B : Type} `{Roaring B}.

Record adjacencyMapDigraph : Type := {
  am_inbound : gmap Z B;
  am_outbound : gmap Z B;
  am_nodes : B
}.

Definition NewAdjacencyMapGraph : adjacencyMapDigraph :=
  {| am_inbound := ∅; am_outbound := ∅; am_nodes := NewBitmap64 |}.

Definition adjacencyMapDigraph_AddNode (s : adjacencyMapDigraph) (node : Z) : adjacencyMapDigraph :=
  {| am_inbound := am_inbound s; am_outbound := am_outbound s;
     am_nodes := bitmap64_Add [node] (am_nodes s) |}.

(** [if b, ok := m[k]; ok { b.Add(v) } else { b = NewBitmap64(); b.Add(v); m[k] = b }]. *)
Definition index_add (m : gmap Z B) (k v : Z) : gmap Z B :=
  match m !! k with
  | Some edgeBitmap => <[k := bitmap64_Add [v] edgeBitmap]> m
  | None => <[k := bitmap64_Add [v] NewBitmap64]> m
  end.

Definition adjacencyMapDigraph_AddEdge (s : adjacencyMapDigraph) (start end_ : Z)
  : adjacencyMapDigraph :=
  {| am_outbound := index_add (am_outbound s) start end_;
     am_inbound := index_add (am_inbound s) end_ start;
     am_nodes := bitmap64_Add [start; end_] (am_nodes s) |}.

(** Go ranges over [adj] in an unspecified order; the argument lists the
    entries in the order of one run. *)
Definition BuildAdjacencyMapGraph (adj : list (Z * list Z)) : adjacencyMapDigraph :=
  foldl (fun digraph '(src, outs) =>
    foldl (fun digraph dst =>
      adjacencyMapDigraph_AddEdge (adjacencyMapDigraph_AddNode digraph dst) src dst)
      (adjacencyMapDigraph_AddNode digraph src) outs)
    NewAdjacencyMapGraph adj.

Definition adjacencyMapDigraph_NumNodes (s : adjacencyMapDigraph) : Z :=
  bitmap64_Cardinality (am_nodes s).

Definition adjacencyMapDigraph_NumEdges (s : adjacencyMapDigraph) : Z :=
  bitmap64_Cardinality (am_nodes s).

Definition adjacencyMapDigraph_getAdjacent (s : adjacencyMapDigraph) (node : Z)
    (direction : Direction) : option B :=
  match direction with
  | DirectionOutbound => am_outbound s !! node
  | DirectionInbound => am_inbound s !! node
  | DirectionBoth =>
      match am_outbound s !! node, am_inbound s !! node with
      | Some outboundAdjacent, Some inboundAdjacent =>
          Some (bitmap64_Or (bitmap64_Clone outboundAdjacent) (Bitmap64 inboundAdjacent))
      | Some outboundAdjacent, None => Some outboundAdjacent
      | None, Some inboundAdjacent => Some inboundAdjacent
      | None, None => None
      end
  end.

Definition adjacencyMapDigraph_AdjacentNodes (s : adjacencyMapDigraph) (node : Z)
    (direction : Direction) : list Z :=
  match adjacencyMapDigraph_getAdjacent s node direction with
  | Some adjacent => bitmap64_Slice adjacent
  | None => []
  end.

Definition adjacencyMapDigraph_Degrees (s : adjacencyMapDigraph) (node : Z)
    (direction : Direction) : Z :=
  match adjacencyMapDigraph_getAdjacent s node direction with
  | Some adjacent => bitmap64_Cardinality adjacent
  | None => 0
  end.

Definition adjacencyMapDigraph_Nodes (s : adjacencyMapDigraph) : B := am_nodes s.

Definition adjacencyMapDigraph_EachNode {St} (s : adjacencyMapDigraph)
    (delegate : Z -> St -> St * bool) (st : St) : St :=
  bitmap64_Each delegate (am_nodes s) st.

Definition adjacencyMapDigraph_EachAdjacentNode {St} (s : adjacencyMapDigraph) (node : Z)
    (direction : Direction) (delegate : Z -> St -> St * bool) (st : St) : St :=
  match adjacencyMapDigraph_getAdjacent s node direction with
  | Some adjacent => bitmap64_Each delegate adjacent st
  | None => st
  end.

(** [Normalize], first enumeration: number the nodes in ascending order. The
    preallocated [reverseIDIndex[normalID] = node] fills the slice in order. *)
Definition Normalize_number (node : Z) (st : B * gmap Z Z * list Z)
  : (B * gmap Z Z * list Z) * bool :=
  let '(nodes, idIndex, reverseIDIndex) := st in
  let normalID := Z.of_nat (size idIndex) in
  ((bitmap64_Add [normalID] nodes, <[node := normalID]> idIndex, reverseIDIndex ++ [node]), true).

(** The two map rewrites; a read of a missing key is the zero value. *)
Definition Normalize_bitmap (idIndex : gmap Z Z) (originAdjacentBitmap : B) : B :=
  bitmap64_Each
    (fun originAdjacent normalAdjacent =>
       (bitmap64_Add [default 0%Z (idIndex !! originAdjacent)] normalAdjacent, true))
    originAdjacentBitmap NewBitmap64.

Definition Normalize_map (idIndex : gmap Z Z) (m : gmap Z B) : gmap Z B :=
  foldl (fun acc '(originID, originAdjacentBitmap) =>
    <[default 0%Z (idIndex !! originID) := Normalize_bitmap idIndex originAdjacentBitmap]> acc)
    ∅ (map_to_list m).

Definition adjacencyMapDigraph_Normalize (s : adjacencyMapDigraph) : list Z * adjacencyMapDigraph :=
  let '(nodes, idIndex, reverseIDIndex) :=
    adjacencyMapDigraph_EachNode s Normalize_number (NewBitmap64, ∅, []) in
  (reverseIDIndex,
   {| am_inbound := Normalize_map idIndex (am_inbound s);
      am_outbound := Normalize_map idIndex (am_outbound s);
      am_nodes := nodes |}).

#[export] Instance am_DirectedGraph : DirectedGraph adjacencyMapDigraph := {
  NumNodes := adjacencyMapDigraph_NumNodes;
  EachNode St g f s := adjacencyMapDigraph_EachNode g f s;
  EachAdjacentNode St g n d f s := adjacencyMapDigraph_EachAdjacentNode g n d f s
}.

(** ** The abstract graph *)

Context `{!RoaringLaws B}.

(** The set an index holds at a key. *)
Definition index_set (m : gmap Z B) (k : Z) : gset Z :=
  match m !! k with Some b => bset b | None => ∅ end.

Lemma index_set_empty k : index_set ∅ k = ∅.
Proof. unfold index_set. by rewrite lookup_empty. Qed.

Lemma index_set_add m k v k' :
  index_set (index_add m k v) k' =
  if decide (k = k') then {[v]} ∪ index_set m k' else index_set m k'.
Proof.
  unfold index_set, index_add. destruct (m !! k) as [b|] eqn:Hk; rewrite lookup_insert;
    case_decide; subst; rewrite ?Hk; autorewrite with bset; set_solver.
Qed.

Lemma index_add_keys m k v k' :
  is_Some (index_add m k v !! k') -> k' = k \/ is_Some (m !! k').
Proof.
  unfold index_add. destruct (m !! k); rewrite lookup_insert; case_decide; naive_solver.
Qed.

(** A graph value holds the nodes [N] and the edges [E]. *)
Record am_rep (s : adjacencyMapDigraph) (N : Z -> Prop) (E : Z -> Z -> Prop) : Prop := {
  ar_nodes : forall x, x ∈ bset (am_nodes s) <-> N x;
  ar_edges : forall x y, E x y -> N x /\ N y;
  ar_out : forall x y, y ∈ index_set (am_outbound s) x <-> E x y;
  ar_in : forall x y, y ∈ index_set (am_inbound s) x <-> E y x;
  ar_out_keys : forall k, is_Some (am_outbound s !! k) -> N k;
  ar_in_keys : forall k, is_Some (am_inbound s !! k) -> N k
}.

Lemma am_rep_ext s (N N' : Z -> Prop) (E E' : Z -> Z -> Prop) :
  (forall x, N x <-> N' x) -> (forall x y, E x y <-> E' x y) -> am_rep s N E -> am_rep s N' E'.
Proof.
  intros HN HE [H1 H2 H3 H4 H5 H6]. split.
  - intros x. by rewrite H1.
  - intros x y. rewrite <- HE, <- !HN. apply H2.
  - intros x y. by rewrite H3.
  - intros x y. by rewrite H4.
  - intros k. rewrite <- HN. apply H5.
  - intros k. rewrite <- HN. apply H6.
Qed.

Lemma am_New_rep : am_rep NewAdjacencyMapGraph (fun _ => False) (fun _ _ => False).
Proof.
  split; simpl; try done; intros *; rewrite ?bset_New, ?index_set_empty; try set_solver.
  all: rewrite lookup_empty; by intros [? ?].
Qed.

Lemma am_AddNode_rep s N E n :
  am_rep s N E -> am_rep (adjacencyMapDigraph_AddNode s n) (fun x => N x \/ x = n) E.
Proof.
  intros [H1 H2 H3 H4 H5 H6]. split; simpl; [|naive_solver|done|done|naive_solver|naive_solver].
  intros x. rewrite bset_Add, elem_of_union, H1. set_solver.
Qed.

Lemma am_AddEdge_rep s N E a c :
  am_rep s N E ->
  am_rep (adjacencyMapDigraph_AddEdge s a c) (fun x => N x \/ x = a \/ x = c)
    (fun x y => E x y \/ x = a /\ y = c).
Proof.
  intros [H1 H2 H3 H4 H5 H6]. split; simpl; [| | | |
    intros k [|]%index_add_keys; naive_solver|intros k [|]%index_add_keys; naive_solver].
  - intros x. rewrite bset_Add, elem_of_union, H1. set_solver.
  - naive_solver.
  - intros x y. rewrite index_set_add. case_decide as Hd;
      [rewrite elem_of_union, elem_of_singleton|]; rewrite H3; naive_solver.
  - intros x y. rewrite index_set_add. case_decide as Hd;
      [rewrite elem_of_union, elem_of_singleton|]; rewrite H4; naive_solver.
Qed.

Definition am_apply (s : adjacencyMapDigraph) (op : builder_op) : adjacencyMapDigraph :=
  match op with
  | OpAddNode n => adjacencyMapDigraph_AddNode s n
  | OpAddEdge a c => adjacencyMapDigraph_AddEdge s a c
  end.

Definition am_run (ops : list builder_op) : adjacencyMapDigraph :=
  foldl am_apply NewAdjacencyMapGraph ops.

Lemma am_run_rep ops : am_rep (am_run ops) (op_node ops) (op_edge ops).
Proof.
  unfold am_run. induction ops as [|op ops IH] using rev_ind.
  - eapply am_rep_ext; [| |apply am_New_rep]; unfold op_node, op_edge; set_solver.
  - rewrite foldl_app. simpl. destruct op as [n|a c]; simpl.
    + eapply am_rep_ext; [| |apply am_AddNode_rep, IH]; unfold op_node, op_edge; set_solver.
    + eapply am_rep_ext; [| |apply am_AddEdge_rep, IH]; unfold op_node, op_edge; set_solver.
Qed.

Section lawful.
Context (s : adjacencyMapDigraph) (N : Z -> Prop) (E : Z -> Z -> Prop) (Hrep : am_rep s N E).

Lemma getAdjacent_set x d y :
  y ∈ adjacencyMapDigraph_AdjacentNodes s x d <-> dir_edge E d x y.
Proof.
  pose proof (ar_out _ _ _ Hrep x y) as Ho. pose proof (ar_in _ _ _ Hrep x y) as Hi.
  unfold index_set in Ho, Hi.
  unfold adjacencyMapDigraph_AdjacentNodes, adjacencyMapDigraph_getAdjacent, dir_edge.
  destruct d, (am_outbound s !! x) as [bo|], (am_inbound s !! x) as [bi|];
    rewrite ?elem_of_Slice, ?bset_Or; unfold bitmap64_Clone; rewrite ?law_Clone; simpl; set_solver.
Qed.

Lemma am_AdjacentNodes_NoDup x d : NoDup (adjacencyMapDigraph_AdjacentNodes s x d).
Proof.
  unfold adjacencyMapDigraph_AdjacentNodes.
  destruct (adjacencyMapDigraph_getAdjacent s x d); [apply Slice_NoDup|constructor].
Qed.

#[export] Instance am_lawful : LawfulDigraph s.
Proof.
  refine {| dg_nodes := bitmap64_Slice (am_nodes s);
            dg_adj := adjacencyMapDigraph_AdjacentNodes s |}.
  - apply Slice_NoDup.
  - simpl. unfold adjacencyMapDigraph_NumNodes. by rewrite Cardinality_size, length_Slice.
  - intros. simpl. apply Each_Slice.
  - intros. simpl. unfold adjacencyMapDigraph_EachAdjacentNode, adjacencyMapDigraph_AdjacentNodes.
    destruct (adjacencyMapDigraph_getAdjacent s n d); [apply Each_Slice|done].
  - intros x y d Hy%getAdjacent_set. rewrite elem_of_Slice, (ar_nodes _ _ _ Hrep).
    pose proof (ar_edges _ _ _ Hrep). destruct d; simpl in Hy; naive_solver.
  - intros x y. by rewrite !getAdjacent_set.
Defined.
End lawful.

(** *** BuildAdjacencyMapGraph *)

Definition adj_node (adj : list (Z * list Z)) (x : Z) : Prop :=
  exists src outs, (src, outs) ∈ adj /\ (x = src \/ x ∈ outs).
Definition adj_edge (adj : list (Z * list Z)) (x y : Z) : Prop :=
  exists outs, (x, outs) ∈ adj /\ y ∈ outs.

Lemma build_entry_rep s N E src outs :
  am_rep s N E -> N src ->
  am_rep (foldl (fun g dst => adjacencyMapDigraph_AddEdge (adjacencyMapDigraph_AddNode g dst) src dst)
            s outs)
    (fun x => N x \/ x ∈ outs) (fun x y => E x y \/ x = src /\ y ∈ outs).
Proof.
  revert s N E. induction outs as [|dst outs IH]; intros s N E Hs Hsrc; simpl.
  - eapply am_rep_ext; [| |exact Hs]; set_solver.
  - eapply am_rep_ext; [| |apply IH; [apply am_AddEdge_rep, am_AddNode_rep, Hs|]].
    + intros x. simpl. set_solver.
    + intros x y. simpl. set_solver.
    + simpl. auto.
Qed.

Lemma BuildAdjacencyMapGraph_rep adj :
  am_rep (BuildAdjacencyMapGraph adj) (adj_node adj) (adj_edge adj).
Proof.
  unfold BuildAdjacencyMapGraph. induction adj as [|[src outs] adj IH] using rev_ind.
  - eapply am_rep_ext; [| |apply am_New_rep]; unfold adj_node, adj_edge; set_solver.
  - rewrite foldl_app. simpl.
    eapply am_rep_ext; [| |apply build_entry_rep; [apply am_AddNode_rep, IH|by right]].
    + intros x. unfold adj_node. split.
      * intros [[(a & l & Hin & Hx)| -> ]|Hx].
        -- exists a, l. rewrite elem_of_app. auto.
        -- exists src, outs. rewrite elem_of_app, list_elem_of_singleton. auto.
        -- exists src, outs. rewrite elem_of_app, list_elem_of_singleton. auto.
      * intros (a & l & Hin & Hx). rewrite elem_of_app, list_elem_of_singleton in Hin.
        destruct Hin as [Hin|[= -> ->]]; [left; left; by exists a, l|naive_solver].
    + intros x y. unfold adj_edge. split.
      * intros [(l & Hin & Hy)|[-> Hy]]; [exists l|exists outs];
          rewrite elem_of_app, list_elem_of_singleton; auto.
      * intros (l & Hin & Hy). rewrite elem_of_app, list_elem_of_singleton in Hin.
        destruct Hin as [Hin|[= -> ->]]; [left; by exists l|auto].
Qed.

(** The contents of a graph value are determined by the relation it holds. *)
Lemma am_AdjacentNodes_unique s1 s2 N E x d :
  am_rep s1 N E -> am_rep s2 N E ->
  adjacencyMapDigraph_AdjacentNodes s1 x d = adjacencyMapDigraph_AdjacentNodes s2 x d.
Proof.
  intros H1 H2. apply StronglySorted_lt_unique.
  - unfold adjacencyMapDigraph_AdjacentNodes.
    destruct (adjacencyMapDigraph_getAdjacent s1 x d); [apply law_ToArray_sorted|constructor].
  - unfold adjacencyMapDigraph_AdjacentNodes.
    destruct (adjacencyMapDigraph_getAdjacent s2 x d); [apply law_ToArray_sorted|constructor].
  - intros y. by rewrite (getAdjacent_set _ _ _ H1), (getAdjacent_set _ _ _ H2).
Qed.

(** *** Normalize *)

Lemma Normalize_number_each ns nodes idx rev0 :
  NoDup ns -> (forall x, x ∈ ns -> idx !! x = None) ->
  exists nodes' idx',
    each Normalize_number ns (nodes, idx, rev0) = (nodes', idx', rev0 ++ ns) /\
    (forall i, i ∈ bset nodes' <-> i ∈ bset nodes \/
       exists k, k < length ns /\ i = Z.of_nat (size idx + k)) /\
    (forall x i, idx' !! x = Some i <-> idx !! x = Some i \/
       exists k, ns !! k = Some x /\ i = Z.of_nat (size idx + k)).
Proof.
  revert nodes idx rev0. induction ns as [|n ns IH]; intros nodes idx rev0 Hnd Hnone.
  - exists nodes, idx. simpl. rewrite app_nil_r. split_and!; [done| |].
    + intros i. split; [by left|]. intros [|(k & Hk & _)]; [done|lia].
    + intros x i. split; [by left|]. intros [|(k & Hk & _)]; [done|by rewrite lookup_nil in Hk].
  - apply NoDup_cons in Hnd as [Hn Hnd].
    assert (Hfresh : idx !! n = None) by (apply Hnone; by left).
    destruct (IH (bitmap64_Add [Z.of_nat (size idx)] nodes) (<[n := Z.of_nat (size idx)]> idx)
                (rev0 ++ [n]) Hnd) as (nodes' & idx' & HE & Hnodes & Hidx).
    { intros x Hx. rewrite lookup_insert_ne by (by intros ->). apply Hnone. by right. }
    exists nodes', idx'. cbn [each Normalize_number]. rewrite HE, <- app_assoc.
    rewrite map_size_insert_None in Hnodes, Hidx by done. split_and!; [done| |].
    + intros i. rewrite Hnodes. autorewrite with bset. simpl. split.
      * intros [Hi|(k & Hk & ->)].
        -- apply elem_of_union in Hi as [Hi|Hi]; [right; exists 0; set_solver by lia|by left].
        -- right. exists (S k). split; [simpl; lia|lia].
      * intros [Hi|([|k] & Hk & ->)]; [left; set_solver|left; set_solver by lia|].
        right. exists k. split; [simpl in Hk; lia|lia].
    + intros x i. rewrite Hidx, lookup_insert_Some. split.
      * intros [[[-> <-]|[Hne Hx]]|(k & Hk & ->)]; [|by left|].
        -- right. exists 0. split; [done|lia].
        -- right. exists (S k). split; [done|lia].
      * intros [Hx|([|k] & Hk & ->)].
        -- left. right. split; [congruence|done].
        -- simpl in Hk. left. left. split; [congruence|lia].
        -- right. exists k. split; [done|lia].
Qed.

Lemma Normalize_bitmap_set idx b j :
  j ∈ bset (Normalize_bitmap idx b) <-> exists x, x ∈ bset b /\ j = default 0%Z (idx !! x).
Proof.
  unfold Normalize_bitmap. rewrite Each_Slice.
  rewrite (each_continue _ (fun x n => bitmap64_Add [default 0%Z (idx !! x)] n)) by done.
  transitivity (exists x, x ∈ bitmap64_Slice b /\ j = default 0%Z (idx !! x));
    [|by setoid_rewrite elem_of_Slice].
  induction (bitmap64_Slice b) as [|x l IH] using rev_ind.
  - cbn [foldl]. rewrite bset_New. set_solver.
  - rewrite foldl_app. cbn [foldl]. rewrite bset_Add, elem_of_union, IH. set_solver.
Qed.

Lemma Normalize_map_lookup idx m i b' :
  (forall k k', is_Some (m !! k) -> is_Some (m !! k') ->
     default 0%Z (idx !! k) = default 0%Z (idx !! k') -> k = k') ->
  Normalize_map idx m !! i = Some b' <->
  exists k b, m !! k = Some b /\ i = default 0%Z (idx !! k) /\ b' = Normalize_bitmap idx b.
Proof.
  intros Hinj. unfold Normalize_map.
  transitivity (exists k b, (k, b) ∈ map_to_list m /\ i = default 0%Z (idx !! k) /\
                  b' = Normalize_bitmap idx b); [|by setoid_rewrite elem_of_map_to_list].
  assert (Hinj' : forall k b k' b', (k, b) ∈ map_to_list m -> (k', b') ∈ map_to_list m ->
    default 0%Z (idx !! k) = default 0%Z (idx !! k') -> k = k').
  { intros k b k' b0 Hk%elem_of_map_to_list Hk'%elem_of_map_to_list. apply Hinj; by eexists. }
  pose proof (NoDup_fst_map_to_list m) as Hnd. clear Hinj.
  induction (map_to_list m) as [|[k b] l IH] using rev_ind; simpl.
  - rewrite lookup_empty. set_solver.
  - rewrite foldl_app. simpl. rewrite fmap_app in Hnd. apply NoDup_app in Hnd as (Hnd & Hdisj & _).
    rewrite lookup_insert_Some, IH; [|intros; eapply Hinj'; rewrite ?elem_of_app; eauto|done].
    setoid_rewrite elem_of_app. setoid_rewrite list_elem_of_singleton. split.
    + intros [[<- <-]|(_ & k' & b0 & Hk & -> & ->)]; [exists k, b|exists k', b0]; auto.
    + intros (k' & b0 & [Hk|[= -> ->]] & -> & ->); [|by left]. right. split; [|by exists k', b0].
      intros Heq. assert (k = k') as ->.
      { eapply Hinj'; rewrite ?elem_of_app, ?list_elem_of_singleton; eauto. }
      apply (Hdisj k'); [|by left]. apply list_elem_of_fmap. by exists (k', b0).
Qed.

Lemma Normalize_map_index (ns : list Z) idx m i x :
  (forall x k, idx !! x = Some k <-> exists j, ns !! j = Some x /\ k = Z.of_nat j) ->
  (forall k, is_Some (m !! k) -> k ∈ ns) -> ns !! i = Some x ->
  forall j, j ∈ index_set (Normalize_map idx m) (Z.of_nat i) <->
            exists y, y ∈ index_set m x /\ j = default 0%Z (idx !! y).
Proof.
  intros Hidx Hkeys Hx j.
  assert (Hns : forall k, k ∈ ns -> exists jk, ns !! jk = Some k /\ idx !! k = Some (Z.of_nat jk)).
  { intros k Hk. apply list_elem_of_lookup in Hk as (jk & Hjk). exists jk. split; [done|].
    apply Hidx. eauto. }
  assert (Hinj : forall k k', is_Some (m !! k) -> is_Some (m !! k') ->
    default 0%Z (idx !! k) = default 0%Z (idx !! k') -> k = k').
  { intros k k' Hk%Hkeys%Hns Hk'%Hkeys%Hns. destruct Hk as (a & Ha & ->), Hk' as (c & Hc & ->).
    simpl. intros Heq. assert (a = c) as -> by lia. congruence. }
  assert (Hix : idx !! x = Some (Z.of_nat i)) by (apply Hidx; eauto).
  unfold index_set. destruct (Normalize_map idx m !! Z.of_nat i) as [b'|] eqn:HN.
  - apply Normalize_map_lookup in HN as (k & b & Hk & Hi & ->); [|done].
    destruct (Hns k) as (jk & Hjk & Hik); [by apply Hkeys; eexists|].
    rewrite Hik in Hi. simpl in Hi. assert (k = x) as -> by (replace jk with i in Hjk by lia; congruence).
    rewrite Hk. apply Normalize_bitmap_set.
  - destruct (m !! x) as [b|] eqn:Hm; [|set_solver]. exfalso.
    enough (Normalize_map idx m !! Z.of_nat i = Some (Normalize_bitmap idx b)) by congruence.
    apply Normalize_map_lookup; [done|]. exists x, b. by rewrite Hix.
Qed.

Lemma am_Normalize_edges s N E :
  am_rep s N E ->
  let '(reverse, g') := adjacencyMapDigraph_Normalize s in
  reverse = bitmap64_Slice (am_nodes s) /\
  (forall i, i ∈ bset (am_nodes g') <-> exists k, k < length reverse /\ i = Z.of_nat k) /\
  forall i x, reverse !! i = Some x -> forall j y, reverse !! j = Some y ->
    (Z.of_nat j ∈ index_set (am_outbound g') (Z.of_nat i) <-> E x y) /\
    (Z.of_nat j ∈ index_set (am_inbound g') (Z.of_nat i) <-> E y x).
Proof.
  intros [Hn He Ho Hi Hok Hik]. unfold adjacencyMapDigraph_Normalize, adjacencyMapDigraph_EachNode.
  rewrite Each_Slice. set (ns := bitmap64_Slice (am_nodes s)).
  assert (Hns : NoDup ns) by apply Slice_NoDup.
  assert (Hmem : forall x, x ∈ ns <-> N x) by (intros x; unfold ns; by rewrite elem_of_Slice).
  destruct (Normalize_number_each ns NewBitmap64 ∅ [] Hns) as (nodes' & idx & -> & Hnodes & Hidx).
  { intros. apply lookup_empty. }
  rewrite map_size_empty in *. simpl. split_and!; [done| |].
  { intros i. rewrite Hnodes, bset_New. set_solver. }
  assert (Hidx' : forall x k, idx !! x = Some k <-> exists j, ns !! j = Some x /\ k = Z.of_nat j).
  { intros x k. rewrite Hidx, lookup_empty. naive_solver. }
  assert (Hside : forall m (R : Z -> Z -> Prop), (forall k, is_Some (m !! k) -> N k) ->
    (forall x y, R x y -> N y) -> (forall x y, y ∈ index_set m x <-> R x y) ->
    forall i x j y, ns !! i = Some x -> ns !! j = Some y ->
      Z.of_nat j ∈ index_set (Normalize_map idx m) (Z.of_nat i) <-> R x y).
  { intros m R Hk HR Hm i x j y Hx Hy.
    rewrite (Normalize_map_index ns idx m i x) by (done || (intros; apply Hmem; auto)).
    setoid_rewrite Hm. split.
    - intros (z & Hz & Hj). assert (z ∈ ns) as Hzn by (apply Hmem; eauto).
      apply list_elem_of_lookup in Hzn as (k & Hzk). rewrite (proj2 (Hidx' z (Z.of_nat k))) in Hj by eauto.
      simpl in Hj. assert (j = k) as -> by lia. by replace y with z by congruence.
    - intros HRy. exists y. split; [done|]. by rewrite (proj2 (Hidx' y (Z.of_nat j))) by eauto. }
  intros i x Hx j y Hy. split.
  - eapply (Hside _ E); eauto. intros a c Hac. by apply (He a c).
  - eapply (Hside _ (fun x y => E y x)); eauto. intros a c Hac. by apply (He c a).
Qed.
End adjacency_map.

Arguments adjacencyMapDigraph B : clear implicits.

(** ** Properties *)

(** The lists of a direction of an adjacency-map graph. *)
Lemma am_Degrees_length {B : Type} `{Roaring B} `{!RoaringLaws B} (s : adjacencyMapDigraph B) x d :
  adjacencyMapDigraph_Degrees s x d = Z.of_nat (length (adjacencyMapDigraph_AdjacentNodes s x d)).
Proof.
  unfold adjacencyMapDigraph_Degrees, adjacencyMapDigraph_AdjacentNodes.
  destruct (adjacencyMapDigraph_getAdjacent s x d) as [b|]; [|done]. by rewrite Cardinality_size, length_Slice.
Qed.

Lemma length_distinct (l l' : list Z) : NoDup l -> (forall y, y ∈ l <-> y ∈ l') -> length l = size (list_to_set (C := gset Z) l').
Proof.
  intros Hnd Hl. rewrite <- (size_list_to_set (C := gset Z) l) by done. f_equal. apply set_eq. intros y. by rewrite !elem_of_list_to_set, Hl.
Qed.

(** [C36] The adjacency-map graph and the compressed graph that fewer than 2^63 calls
    of [AddNode] and [AddEdge] build have the same set of nodes and the same number of
    them.  For every node they list the same outbound neighbours and the same inbound
    ones, each once, up to the order, and report the same outbound and inbound degree.
    In both directions the compressed graph lists the outbound neighbours and then the
    inbound ones, so that a neighbour may come twice, while the adjacency map lists
    the same neighbours each once; the degrees they report there are the lengths of
    these lists: the sum of the two degrees for the one, the number of distinct
    neighbours for the other. *)
Theorem implementations_agree {B : Type} `{Roaring B} `{!RoaringLaws B} (ops : list builder_op) :
  (Z.of_nat (length ops) < 2 ^ 63)%Z ->
  let am := am_run (B := B) ops in
  exists g, CSRDigraphBuilder_Build (run_builder (B := B) ops) = Done g /\
    bset (csrDigraph_Nodes (B := B) g) = bset (adjacencyMapDigraph_Nodes am) /\
    csrDigraph_NumNodes g = adjacencyMapDigraph_NumNodes am /\
    forall x, exists outs ins,
      csrDigraph_AdjacentNodes g x DirectionOutbound = Done outs /\
      csrDigraph_AdjacentNodes g x DirectionInbound = Done ins /\
      csrDigraph_AdjacentNodes g x DirectionBoth = Done (outs ++ ins) /\
      NoDup outs /\ outs ≡ₚ adjacencyMapDigraph_AdjacentNodes am x DirectionOutbound /\
      NoDup ins /\ ins ≡ₚ adjacencyMapDigraph_AdjacentNodes am x DirectionInbound /\
      NoDup (adjacencyMapDigraph_AdjacentNodes am x DirectionBoth) /\
      (forall y, y ∈ adjacencyMapDigraph_AdjacentNodes am x DirectionBoth <-> y ∈ outs ++ ins) /\
      csrDigraph_Degrees g x DirectionOutbound = Done (adjacencyMapDigraph_Degrees am x DirectionOutbound) /\
      csrDigraph_Degrees g x DirectionInbound = Done (adjacencyMapDigraph_Degrees am x DirectionInbound) /\
      csrDigraph_Degrees g x DirectionBoth =
        Done (adjacencyMapDigraph_Degrees am x DirectionOutbound + adjacencyMapDigraph_Degrees am x DirectionInbound)%Z /\
      adjacencyMapDigraph_Degrees am x DirectionBoth = Z.of_nat (size (list_to_set (C := gset Z) (outs ++ ins))).
Proof.
  intros Hlt am. destruct (run_builder_Build (B := B) ops) as (g & outs & ins & HB & Hrep); [unfold two64; lia|].
  pose proof (am_run_rep (B := B) ops) as Ham. exists g.
  assert (Hnodes : csr_denseIdxToID g ≡ₚ bitmap64_Slice (am_nodes am)).
  { apply NoDup_Permutation; [apply Hrep|apply Slice_NoDup|].
    intros x. rewrite elem_of_Slice, (cr_nodes _ _ _ _ _ Hrep). symmetry. apply (ar_nodes _ _ _ Ham). }
  split_and!; [done| | |].
  - apply set_eq. intros x. unfold csrDigraph_Nodes. rewrite bset_With, elem_of_list_to_set, Hnodes. by rewrite elem_of_Slice.
  - unfold csrDigraph_NumNodes, adjacencyMapDigraph_NumNodes. by rewrite Cardinality_size, <- length_Slice, Hnodes.
  - intros x. exists (csr_side g outs x), (csr_side g ins x).
    destruct (csr_out_rep _ _ _ _ _ Hrep x) as [Hndo Ho], (csr_in_rep _ _ _ _ _ Hrep x) as [Hndi Hi].
    assert (Hpo : csr_side g outs x ≡ₚ adjacencyMapDigraph_AdjacentNodes am x DirectionOutbound).
    { apply NoDup_Permutation; [done|apply am_AdjacentNodes_NoDup|]. intros y. by rewrite (getAdjacent_set am _ _ Ham), Ho. }
    assert (Hpi : csr_side g ins x ≡ₚ adjacencyMapDigraph_AdjacentNodes am x DirectionInbound).
    { apply NoDup_Permutation; [done|apply am_AdjacentNodes_NoDup|]. intros y. by rewrite (getAdjacent_set am _ _ Ham), Hi. }
    assert (Hb : forall y, y ∈ adjacencyMapDigraph_AdjacentNodes am x DirectionBoth <-> y ∈ csr_side g outs x ++ csr_side g ins x).
    { intros y. rewrite (getAdjacent_set am _ _ Ham), elem_of_app, Ho, Hi. done. }
    rewrite !(csr_AdjacentNodes_rep _ _ _ _ _ Hrep), !(csr_Degrees_rep _ _ _ _ _ Hrep) by (by eapply csr_both_bound).
    rewrite !am_Degrees_length. cbn [csr_adj]. rewrite length_app, <- Hpo, <- Hpi.
    split_and!; try done; [apply am_AdjacentNodes_NoDup|by rewrite Nat2Z.inj_add|].
    f_equal. apply length_distinct; [apply am_AdjacentNodes_NoDup|exact Hb].
Qed.

Lemma implementations_agree_witness :
  exists g, CSRDigraphBuilder_Build (run_builder (B := gset Z) [OpAddEdge 4 2; OpAddEdge 2 4; OpAddNode 8]) = Done g /\
    csrDigraph_NumNodes g = adjacencyMapDigraph_NumNodes (am_run (B := gset Z) [OpAddEdge 4 2; OpAddEdge 2 4; OpAddNode 8]) /\
    csrDigraph_Degrees g 4 DirectionBoth = Done 2%Z /\
    adjacencyMapDigraph_Degrees (am_run (B := gset Z) [OpAddEdge 4 2; OpAddEdge 2 4; OpAddNode 8]) 4 DirectionBoth = 1%Z.
Proof.
  destruct (implementations_agree (B := gset Z) [OpAddEdge 4 2; OpAddEdge 2 4; OpAddNode 8])
    as (g & HB & _ & HN & Hx); [vm_compute; done|].
  exists g. split; [exact HB|]. split; [exact HN|]. destruct (Hx 4%Z) as (outs & ins & _ & _ & _ & _ & _ & _ & _ & _ & _ & _ & _ & -> & _).
  split; vm_compute; reflexivity.
Defined.

(** Building from an adjacency map gives the same graph whatever order Go
    ranges over the map in: the neighbours of every node are the same list. *)
Theorem BuildAdjacencyMapGraph_order {B : Type} `{Roaring B} `{!RoaringLaws B} adj1 adj2 x d :
  Permutation adj1 adj2 ->
  adjacencyMapDigraph_AdjacentNodes (BuildAdjacencyMapGraph (B := B) adj1) x d =
  adjacencyMapDigraph_AdjacentNodes (BuildAdjacencyMapGraph (B := B) adj2) x d.
Proof.
  intros Hperm. eapply am_AdjacentNodes_unique; [apply BuildAdjacencyMapGraph_rep|].
  eapply am_rep_ext; [| |apply BuildAdjacencyMapGraph_rep].
  - intros y. unfold adj_node. by setoid_rewrite Hperm.
  - intros y z. unfold adj_edge. by setoid_rewrite Hperm.
Qed.

Lemma BuildAdjacencyMapGraph_order_witness :
  adjacencyMapDigraph_AdjacentNodes
    (BuildAdjacencyMapGraph (B := gset Z) [(1, [2; 3]); (2, [1])]%Z) 1 DirectionBoth =
  adjacencyMapDigraph_AdjacentNodes
    (BuildAdjacencyMapGraph (B := gset Z) [(2, [1]); (1, [2; 3])]%Z) 1 DirectionBoth.
Proof. apply BuildAdjacencyMapGraph_order. apply perm_swap. Defined.

(** [Normalize] of an adjacency-map graph relabels it by the ascending
    order of its node ids: [i] and [j] are adjacent exactly when the [i]-th and
    [j]-th entries of the returned list are. *)
Theorem am_Normalize_isomorphism {B : Type} `{Roaring B} `{!RoaringLaws B} (ops : list builder_op) :
  exists reverse g', adjacencyMapDigraph_Normalize (am_run (B := B) ops) = (reverse, g') /\
    StronglySorted Z.lt reverse /\ (forall x, x ∈ reverse <-> op_node ops x) /\
    forall i x j y, reverse !! i = Some x -> reverse !! j = Some y ->
      (Z.of_nat j ∈ adjacencyMapDigraph_AdjacentNodes g' (Z.of_nat i) DirectionOutbound <->
       OpAddEdge x y ∈ ops) /\
      (Z.of_nat j ∈ adjacencyMapDigraph_AdjacentNodes g' (Z.of_nat i) DirectionInbound <->
       OpAddEdge y x ∈ ops).
Proof.
  pose proof (am_run_rep (B := B) ops) as Ham.
  pose proof (am_Normalize_edges _ _ _ Ham) as HN.
  destruct (adjacencyMapDigraph_Normalize (am_run ops)) as [reverse g'].
  destruct HN as (-> & _ & Hedge). exists (bitmap64_Slice (am_nodes (am_run ops))), g'.
  split_and!; [done|apply law_ToArray_sorted| |].
  - intros x. by rewrite elem_of_Slice, (ar_nodes _ _ _ Ham).
  - intros i x j y Hx Hy. destruct (Hedge i x Hx j y Hy) as [Ho Hi].
    unfold index_set in *. unfold adjacencyMapDigraph_AdjacentNodes, adjacencyMapDigraph_getAdjacent.
    change (OpAddEdge x y ∈ ops) with (op_edge ops x y). change (OpAddEdge y x ∈ ops) with (op_edge ops y x).
    rewrite <- Ho, <- Hi.
    split.
    + destruct (am_outbound g' !! Z.of_nat i); [by rewrite elem_of_Slice|].
      split; [by intros ?%elem_of_nil|by intros ?%elem_of_empty].
    + destruct (am_inbound g' !! Z.of_nat i); [by rewrite elem_of_Slice|].
      split; [by intros ?%elem_of_nil|by intros ?%elem_of_empty].
Qed.

(** [NumEdges] of an adjacency-map graph is its node count, whatever its
    edges: the two graphs below hold the same edge, and only the compressed
    one counts it. *)
Theorem NumEdges_is_NumNodes :
  (forall (B : Type) (HB : Roaring B) (s : adjacencyMapDigraph B),
     adjacencyMapDigraph_NumEdges s = adjacencyMapDigraph_NumNodes s) /\
  adjacencyMapDigraph_NumEdges (am_run (B := gset Z) [OpAddEdge 1 2]) = 2%Z /\
  exists g, CSRDigraphBuilder_Build (run_builder (B := gset Z) [OpAddEdge 1 2]) = Done g /\
    csrDigraph_NumEdges g = 1%Z.
Proof.
  split_and!; [done|vm_compute; done|]. eexists. split; [vm_compute; reflexivity|done].
Qed.

Lemma am_Normalize_isomorphism_witness :
  exists reverse g', adjacencyMapDigraph_Normalize (am_run (B := gset Z) [OpAddEdge 9 4; OpAddEdge 4 6])
      = (reverse, g') /\ reverse = [4; 6; 9]%Z /\
    adjacencyMapDigraph_AdjacentNodes g' 2 DirectionOutbound = [0%Z].
Proof.
  destruct (am_Normalize_isomorphism (B := gset Z) [OpAddEdge 9 4; OpAddEdge 4 6])
    as (r & g' & HN & _).
  exists r, g'. split_and!; [exact HN| |]; vm_compute in HN; injection HN as <- <-; vm_compute; reflexivity.
Defined.
