(* ===== verification/Triplestore.v ===== *)
(** * container/triplestore.go: edge-indexed graphs and their projections *)

From S2P Require Import Prelude Bitmap Digraph Csr AdjacencyMap.

Record Edge : Type := { edge_ID : Z; edge_Start : Z; edge_End : Z }.

#[export] Instance Edge_eq_dec : EqDecision Edge.
Proof. solve_decision. Defined.

Definition Edge_Pick (s : Edge) (direction : Direction) : Z :=
  if decide (direction = DirectionOutbound) then edge_End s else edge_Start s.

(** Enumerating slice elements by index, as the delegates of the edge bitmaps
    do: [edges[i]] for each index, with an early exit. *)
Fixpoint each_get {A St} (l : list A) (f : A -> St -> St * bool) (indices : list Z) (st : St)
  : outcome St :=
  match indices with
  | [] => Done st
  | i :: indices' =>
      x ← slice_get l i;
      let '(st', continue) := f x st in
      if continue : bool then each_get l f indices' st' else Done st'
  end.

Section triplestore.
Context {B : Type} `{Roaring B}.

Record triplestore : Type := {
  ts_nodes : B;
  ts_edges : list Edge;
  ts_deletedEdges : B;
  ts_startIndex : gmap Z B;
  ts_endIndex : gmap Z B
}.

Definition NewTriplestore : triplestore :=
  {| ts_nodes := NewBitmap64; ts_edges := []; ts_deletedEdges := NewBitmap64;
     ts_startIndex := ∅; ts_endIndex := ∅ |}.

Definition triplestore_DeleteEdge (s : triplestore) (id : Z) : triplestore :=
  {| ts_nodes := ts_nodes s; ts_edges := ts_edges s;
     ts_deletedEdges := bitmap64_Add [id] (ts_deletedEdges s);
     ts_startIndex := ts_startIndex s; ts_endIndex := ts_endIndex s |}.

Definition triplestore_Edges (s : triplestore) : list Edge := ts_edges s.

Definition triplestore_NumNodes (s : triplestore) : Z := bitmap64_Cardinality (ts_nodes s).

Definition triplestore_AddNode (s : triplestore) (node : Z) : triplestore :=
  {| ts_nodes := bitmap64_Add [node] (ts_nodes s); ts_edges := ts_edges s;
     ts_deletedEdges := ts_deletedEdges s;
     ts_startIndex := ts_startIndex s; ts_endIndex := ts_endIndex s |}.

Definition triplestore_EachNode {St} (s : triplestore) (delegate : Z -> St -> St * bool) (st : St) : St :=
  bitmap64_Each delegate (ts_nodes s) st.

Definition triplestore_EachEdge {St} (s : triplestore) (delegate : Edge -> St -> St * bool) (st : St) : St :=
  each delegate (ts_edges s) st.

Definition triplestore_AddTriple (s : triplestore) (edge start end_ : Z) : triplestore :=
  let edges := ts_edges s ++ [{| edge_ID := edge; edge_Start := start; edge_End := end_ |}] in
  let edgeIdx := (Z.of_nat (length edges) - 1)%Z in
  {| ts_edges := edges;
     ts_startIndex := index_add (ts_startIndex s) start edgeIdx;
     ts_endIndex := index_add (ts_endIndex s) end_ edgeIdx;
     ts_nodes := bitmap64_Add [start; end_] (ts_nodes s);
     ts_deletedEdges := ts_deletedEdges s |}.

(** [if b, ok := index[node]; ok { edgeIndices.Or(b) }]. *)
Definition or_index (index : gmap Z B) (node : Z) (edgeIndices : B) : B :=
  match index !! node with
  | Some edges => bitmap64_Or edgeIndices (Bitmap64 edges)
  | None => edgeIndices
  end.

Definition triplestore_adjacentEdgeIndices (s : triplestore) (node : Z) (direction : Direction) : B :=
  let edgeIndices := NewBitmap64 in
  match direction with
  | DirectionOutbound => or_index (ts_startIndex s) node edgeIndices
  | DirectionInbound => or_index (ts_endIndex s) node edgeIndices
  | DirectionBoth => or_index (ts_endIndex s) node (or_index (ts_startIndex s) node edgeIndices)
  end.

Definition triplestore_AdjacentEdges (s : triplestore) (node : Z) (direction : Direction)
  : outcome (list Z) :=
  each_get (ts_edges s) (fun edge edgeIDs => (edgeIDs ++ [edge_ID edge], true))
    (rb_Iterator (triplestore_adjacentEdgeIndices s node direction)) [].

Definition triplestore_adjacent (s : triplestore) (node : Z) (direction : Direction) : outcome B :=
  each_get (ts_edges s)
    (fun edge nodes =>
       (if negb (bitmap64_Contains (edge_ID edge) (ts_deletedEdges s)) then
          match direction with
          | DirectionOutbound => bitmap64_Add [edge_End edge] nodes
          | DirectionInbound => bitmap64_Add [edge_Start edge] nodes
          | DirectionBoth => bitmap64_Add [edge_Start edge] (bitmap64_Add [edge_End edge] nodes)
          end
        else nodes, true))
    (rb_Iterator (triplestore_adjacentEdgeIndices s node direction)) NewBitmap64.

Definition triplestore_AdjacentNodes (s : triplestore) (node : Z) (direction : Direction)
  : outcome (list Z) :=
  nodes ← triplestore_adjacent s node direction; Done (bitmap64_Slice nodes).

Definition triplestore_EachAdjacentNode {St} (s : triplestore) (node : Z) (direction : Direction)
    (delegate : Z -> St -> St * bool) (st : St) : outcome St :=
  nodes ← triplestore_adjacent s node direction; Done (bitmap64_Each delegate nodes st).

Definition triplestore_Degrees (s : triplestore) (node : Z) (direction : Direction) : outcome Z :=
  nodes ← triplestore_adjacent s node direction; Done (bitmap64_Cardinality nodes).

Definition triplestore_NumEdges (s : triplestore) : Z := Z.of_nat (length (ts_edges s)).

Definition triplestore_EachAdjacentEdge {St} (s : triplestore) (node : Z) (direction : Direction)
    (delegate : Edge -> St -> St * bool) (st : St) : outcome St :=
  each_get (ts_edges s) delegate (rb_Iterator (triplestore_adjacentEdgeIndices s node direction)) st.

(** ** Projections: a store with nodes and edges masked out *)

Record triplestoreProjection : Type := {
  tp_origin : triplestore;
  tp_deletedNodes : B;
  tp_deletedEdges : B
}.

Definition triplestore_Projection (s : triplestore) (deletedNodes deletedEdges : B)
  : triplestoreProjection :=
  {| tp_origin := s; tp_deletedNodes := deletedNodes; tp_deletedEdges := deletedEdges |}.

Definition triplestoreProjection_Projection (s : triplestoreProjection) (deletedNodes deletedEdges : B)
  : triplestoreProjection :=
  {| tp_origin := tp_origin s;
     tp_deletedNodes := bitmap64_Or (bitmap64_Clone (tp_deletedNodes s)) (Bitmap64 deletedNodes);
     tp_deletedEdges := bitmap64_Or (bitmap64_Clone (tp_deletedEdges s)) (Bitmap64 deletedEdges) |}.

(** The guard repeated by the edge enumerations. *)
Definition tp_live (s : triplestoreProjection) (next : Edge) : bool :=
  negb (bitmap64_Contains (edge_ID next) (tp_deletedEdges s)) &&
  negb (bitmap64_Contains (edge_Start next) (tp_deletedNodes s)) &&
  negb (bitmap64_Contains (edge_End next) (tp_deletedNodes s)).

Definition triplestoreProjection_NumNodes (s : triplestoreProjection) : Z :=
  triplestore_EachNode (tp_origin s)
    (fun value count =>
       (if negb (bitmap64_Contains value (tp_deletedNodes s)) then wrap64 (count + 1) else count, true))
    0%Z.

Definition triplestoreProjection_NumEdges (s : triplestoreProjection) : Z :=
  triplestore_EachEdge (tp_origin s)
    (fun next count => (if tp_live s next then wrap64 (count + 1) else count, true)) 0%Z.

Definition triplestoreProjection_EachNode {St} (s : triplestoreProjection)
    (delegate : Z -> St -> St * bool) (st : St) : St :=
  triplestore_EachNode (tp_origin s)
    (fun node st => if negb (bitmap64_Contains node (tp_deletedNodes s))
                    then delegate node st else (st, true)) st.

Definition triplestoreProjection_EachEdge {St} (s : triplestoreProjection)
    (delegate : Edge -> St -> St * bool) (st : St) : St :=
  triplestore_EachEdge (tp_origin s)
    (fun next st => if tp_live s next then delegate next st else (st, true)) st.

Definition triplestoreProjection_EachAdjacentEdge {St} (s : triplestoreProjection) (node : Z)
    (direction : Direction) (delegate : Edge -> St -> St * bool) (st : St) : outcome St :=
  triplestore_EachAdjacentEdge (tp_origin s) node direction
    (fun next st => if tp_live s next then delegate next st else (st, true)) st.

Definition triplestoreProjection_EachAdjacentNode {St} (s : triplestoreProjection) (node : Z)
    (direction : Direction) (delegate : Z -> St -> St * bool) (st : St) : outcome St :=
  triplestoreProjection_EachAdjacentEdge s node direction
    (fun next st => delegate (Edge_Pick next direction) st) st.
End triplestore.

Arguments triplestore B : clear implicits.
Arguments triplestoreProjection B : clear implicits.

(** ** Which edges an index enumeration visits *)

(** The positions, from [k] on, of the elements that satisfy [P]. *)
Fixpoint select {A} (P : A -> Prop) `{forall x, Decision (P x)} (k : Z) (l : list A) : list Z :=
  match l with
  | [] => []
  | x :: l' => if decide (P x) then k :: select P (k + 1) l' else select P (k + 1) l'
  end.

Section select.
Context {A : Type} (P : A -> Prop) `{forall x, Decision (P x)}.

Lemma elem_of_select k l i :
  i ∈ select P k l <-> exists j x, l !! j = Some x /\ P x /\ i = (k + Z.of_nat j)%Z.
Proof.
  revert k. induction l as [|x l IH]; intros k; simpl.
  - split; [by intros ?%elem_of_nil|]. intros (j & x & Hj & _). by rewrite lookup_nil in Hj.
  - assert (Htail : (exists j y, l !! j = Some y /\ P y /\ i = (k + 1 + Z.of_nat j)%Z) ->
                    exists j y, (x :: l) !! j = Some y /\ P y /\ i = (k + Z.of_nat j)%Z).
    { intros (j & y & Hj & HP & ->). exists (S j), y. split_and!; [done|done|lia]. }
    case_decide as HP; rewrite ?elem_of_cons, IH.
    + split.
      * intros [->|Hin]; [|by apply Htail]. exists 0, x. split_and!; [done|done|lia].
      * intros ([|j] & y & Hj & Hy & ->); [left; lia|right]. exists j, y. split_and!; [done|done|lia].
    + split; [apply Htail|]. intros ([|j] & y & Hj & Hy & ->); simpl in Hj; [by simplify_eq|].
      exists j, y. split_and!; [done|done|lia].
Qed.

Lemma select_sorted k l : StronglySorted Z.lt (select P k l).
Proof.
  revert k. induction l as [|x l IH]; intros k; simpl; [constructor|]. case_decide; [|done].
  constructor; [done|]. apply Forall_forall. intros i (j & y & _ & _ & ->)%elem_of_select. lia.
Qed.

Lemma each_get_select {St} (f : A -> St -> St * bool) pre l st :
  each_get (pre ++ l) f (select P (Z.of_nat (length pre)) l) st = Done (each f (filter P l) st).
Proof.
  revert pre st. induction l as [|x l IH]; intros pre st; simpl; [done|].
  assert (Hnext : forall st, each_get (pre ++ x :: l) f (select P (Z.of_nat (length pre) + 1) l) st =
                             Done (each f (filter P l) st)).
  { intros st'. specialize (IH (pre ++ [x]) st'). rewrite <- app_assoc, length_app in IH. simpl in IH.
    by replace (Z.of_nat (length pre) + 1)%Z with (Z.of_nat (length pre + 1)) by lia. }
  rewrite filter_cons. case_decide as HP; [|apply Hnext]. cbn [each_get].
  rewrite (slice_get_nat _ _ x) by (by rewrite lookup_app_r, Nat.sub_diag by lia). simpl.
  destruct (f x st) as [st' []]; [apply Hnext|done].
Qed.
End select.

(** ** The store *)

(** The edges a direction considers at a node. *)
Definition incident (n : Z) (d : Direction) (e : Edge) : Prop :=
  match d with
  | DirectionOutbound => edge_Start e = n
  | DirectionInbound => edge_End e = n
  | DirectionBoth => edge_Start e = n \/ edge_End e = n
  end.

#[export] Instance incident_dec n d e : Decision (incident n d e).
Proof. destruct d; simpl; apply _. Defined.

(** The nodes [adjacent] collects from an edge. *)
Definition endpoint (d : Direction) (e : Edge) (y : Z) : Prop :=
  match d with
  | DirectionOutbound => y = edge_End e
  | DirectionInbound => y = edge_Start e
  | DirectionBoth => y = edge_End e \/ y = edge_Start e
  end.

Section store.
Context {B : Type} `{Roaring B} `{!RoaringLaws B}.

Definition index_inv (key : Edge -> Z) (edges : list Edge) (index : gmap Z B) : Prop :=
  forall n i, i ∈ index_set index n <->
    exists j e, edges !! j = Some e /\ key e = n /\ i = Z.of_nat j.

Record ts_inv (s : triplestore B) : Prop := {
  ti_start : index_inv edge_Start (ts_edges s) (ts_startIndex s);
  ti_end : index_inv edge_End (ts_edges s) (ts_endIndex s);
  ti_nodes : forall e, e ∈ ts_edges s -> edge_Start e ∈ bset (ts_nodes s) /\ edge_End e ∈ bset (ts_nodes s)
}.

Lemma index_inv_add key edges index e :
  index_inv key edges index ->
  index_inv key (edges ++ [e]) (index_add index (key e) (Z.of_nat (length (edges ++ [e])) - 1)).
Proof.
  intros Hinv n i. rewrite index_set_add. rewrite length_app. simpl.
  setoid_rewrite lookup_snoc_Some. case_decide as Hn.
  - rewrite elem_of_union, elem_of_singleton, (Hinv n i). split.
    + intros [->|(j & x & Hj & Hk & ->)].
      * exists (length edges), e. split_and!; [by right|done|lia].
      * exists j, x. split_and!; [left; split; [by eapply lookup_lt_Some|done]|done|done].
    + intros (j & x & [[_ Hj]|[-> <-]] & Hk & ->); [right; by eauto|left; lia].
  - rewrite (Hinv n i). split.
    + intros (j & x & Hj & Hk & ->). exists j, x.
      split_and!; [left; split; [by eapply lookup_lt_Some|done]|done|done].
    + intros (j & x & [[_ Hj]|[-> <-]] & Hk & ->); [by eauto|done].
Qed.

Inductive ts_op : Type :=
| TsAddNode (node : Z)
| TsAddTriple (edge start end_ : Z)
| TsDeleteEdge (id : Z).

Definition ts_apply (s : triplestore B) (op : ts_op) : triplestore B :=
  match op with
  | TsAddNode n => triplestore_AddNode s n
  | TsAddTriple e a c => triplestore_AddTriple s e a c
  | TsDeleteEdge id => triplestore_DeleteEdge s id
  end.

Definition ts_run (ops : list ts_op) : triplestore B := foldl ts_apply NewTriplestore ops.

(** The triples added, in order, and the identifiers deleted. *)
Definition op_triple (op : ts_op) : option Edge :=
  match op with
  | TsAddTriple e a c => Some {| edge_ID := e; edge_Start := a; edge_End := c |}
  | _ => None
  end.

Lemma ts_run_inv ops : ts_inv (ts_run ops).
Proof.
  unfold ts_run. induction ops as [|op ops IH] using rev_ind.
  - split; simpl.
    + intros n i. rewrite index_set_empty. setoid_rewrite lookup_nil. set_solver.
    + intros n i. rewrite index_set_empty. setoid_rewrite lookup_nil. set_solver.
    + by intros e ?%elem_of_nil.
  - rewrite foldl_app. simpl. destruct IH as [Hs He Hn].
    destruct op as [n|e a c|id]; simpl; split; try done; simpl.
    + intros e Hin%Hn. rewrite bset_Add. set_solver.
    + by apply (index_inv_add edge_Start _ _ {| edge_ID := e; edge_Start := a; edge_End := c |}).
    + by apply (index_inv_add edge_End _ _ {| edge_ID := e; edge_Start := a; edge_End := c |}).
    + intros x. rewrite elem_of_app, list_elem_of_singleton, bset_Add. intros [Hx%Hn| ->]; set_solver.
Qed.

Lemma ts_run_edges ops : ts_edges (ts_run ops) = omap op_triple ops.
Proof.
  unfold ts_run. induction ops as [|op ops IH] using rev_ind; [done|].
  rewrite foldl_app, omap_app. cbn [foldl]. rewrite <- IH.
  destruct op; simpl; rewrite ?app_nil_r; done.
Qed.

Lemma ts_run_deleted ops id : id ∈ bset (ts_deletedEdges (ts_run ops)) <-> TsDeleteEdge id ∈ ops.
Proof.
  unfold ts_run. induction ops as [|op ops IH] using rev_ind.
  - cbn [foldl ts_deletedEdges NewTriplestore]. rewrite bset_New. set_solver.
  - rewrite foldl_app. destruct op; simpl; rewrite ?bset_Add; set_solver.
Qed.

Context (s : triplestore B) (Hinv : ts_inv s).

Lemma or_index_set index n (b : B) : bset (or_index index n b) = bset b ∪ index_set index n.
Proof. unfold or_index, index_set. destruct (index !! n); autorewrite with bset; set_solver. Qed.

Lemma adjacentEdgeIndices_select n d :
  rb_Iterator (triplestore_adjacentEdgeIndices s n d) = select (incident n d) 0 (ts_edges s).
Proof.
  rewrite law_Iterator. apply StronglySorted_lt_unique; [apply law_ToArray_sorted|apply select_sorted|].
  intros i. change (rb_ToArray ?b) with (bitmap64_Slice b).
  rewrite elem_of_Slice, elem_of_select. simpl.
  pose proof (ti_start _ Hinv n i) as Hs. pose proof (ti_end _ Hinv n i) as He.
  unfold triplestore_adjacentEdgeIndices.
  destruct d; rewrite !or_index_set, bset_New, !elem_of_union, ?Hs, ?He; simpl; set_solver.
Qed.

(** The edges at a node are enumerated in the order they were added. *)
Lemma EachAdjacentEdge_filter {St} n d (f : Edge -> St -> St * bool) st :
  triplestore_EachAdjacentEdge s n d f st = Done (each f (filter (incident n d) (ts_edges s)) st).
Proof.
  unfold triplestore_EachAdjacentEdge. rewrite adjacentEdgeIndices_select.
  apply (each_get_select _ _ []).
Qed.

Lemma adjacent_set n d :
  exists b, triplestore_adjacent s n d = Done b /\
    forall y, y ∈ bset b <-> exists e, e ∈ ts_edges s /\ incident n d e /\
      edge_ID e ∉ bset (ts_deletedEdges s) /\
      endpoint d e y.
Proof.
  unfold triplestore_adjacent. rewrite adjacentEdgeIndices_select.
  eexists. split; [apply (each_get_select (incident n d) _ [])|]. intros y.
  rewrite (each_continue _ (fun edge nodes => if negb (bitmap64_Contains (edge_ID edge) (ts_deletedEdges s)) then
          match d with
          | DirectionOutbound => bitmap64_Add [edge_End edge] nodes
          | DirectionInbound => bitmap64_Add [edge_Start edge] nodes
          | DirectionBoth => bitmap64_Add [edge_Start edge] (bitmap64_Add [edge_End edge] nodes)
          end
        else nodes)) by done.
  transitivity (exists e, e ∈ filter (incident n d) (ts_edges s) /\
      edge_ID e ∉ bset (ts_deletedEdges s) /\
      endpoint d e y); [|setoid_rewrite list_elem_of_filter; naive_solver].
  induction (filter (incident n d) (ts_edges s)) as [|e l IH] using rev_ind.
  - cbn [foldl]. rewrite bset_New. set_solver.
  - setoid_rewrite elem_of_app. setoid_rewrite list_elem_of_singleton.
    transitivity ((exists e0, e0 ∈ l /\ edge_ID e0 ∉ bset (ts_deletedEdges s) /\
      endpoint d e0 y) \/ edge_ID e ∉ bset (ts_deletedEdges s) /\
      endpoint d e y); [|naive_solver].
    rewrite <- IH, foldl_app. cbn [foldl]. rewrite bset_Contains. clear IH.
    case_bool_decide; cbn [negb]; [tauto|].
    unfold endpoint. destruct d; rewrite !bset_Add; set_solver.
Qed.
End store.

(** ** Projections *)

Section projections.
Context {B : Type} `{Roaring B} `{!RoaringLaws B}.

(** An edge survives a projection when neither it nor an end is masked. *)
Definition survives (dn de : gset Z) (e : Edge) : Prop :=
  edge_ID e ∉ de /\ edge_Start e ∉ dn /\ edge_End e ∉ dn.

#[export] Instance survives_dec dn de e : Decision (survives dn de e).
Proof. unfold survives. apply _. Defined.

Lemma tp_live_spec (p : triplestoreProjection B) e :
  tp_live p e = bool_decide (survives (bset (tp_deletedNodes p)) (bset (tp_deletedEdges p)) e).
Proof.
  unfold tp_live, survives. rewrite !bset_Contains. repeat case_bool_decide; naive_solver.
Qed.

Section one.
Context (p : triplestoreProjection B) (Hinv : ts_inv (tp_origin p)).

Definition tp_edges : list Edge :=
  filter (survives (bset (tp_deletedNodes p)) (bset (tp_deletedEdges p))) (ts_edges (tp_origin p)).

Definition tp_nodes : list Z :=
  filter (fun n => n ∉ bset (tp_deletedNodes p)) (bitmap64_Slice (ts_nodes (tp_origin p))).

Lemma projection_EachEdge {St} (f : Edge -> St -> St * bool) st :
  triplestoreProjection_EachEdge p f st = each f tp_edges st.
Proof. apply each_filter. intros e. apply tp_live_spec. Qed.

Lemma projection_EachNode {St} (f : Z -> St -> St * bool) st :
  triplestoreProjection_EachNode p f st = each f tp_nodes st.
Proof.
  unfold triplestoreProjection_EachNode, triplestore_EachNode. rewrite Each_Slice.
  apply each_filter. intros n. rewrite bset_Contains. repeat case_bool_decide; naive_solver.
Qed.

Lemma projection_EachAdjacentEdge {St} n d (f : Edge -> St -> St * bool) st :
  triplestoreProjection_EachAdjacentEdge p n d f st =
  Done (each f (filter (incident n d) tp_edges) st).
Proof.
  unfold triplestoreProjection_EachAdjacentEdge.
  rewrite EachAdjacentEdge_filter by done. f_equal.
  rewrite (each_filter (survives (bset (tp_deletedNodes p)) (bset (tp_deletedEdges p))))
    by (intros e; apply tp_live_spec).
  unfold tp_edges. rewrite !list_filter_filter. f_equal. apply list_filter_iff. tauto.
Qed.

Lemma projection_NumEdges :
  (Z.of_nat (length (ts_edges (tp_origin p))) < two64)%Z ->
  triplestoreProjection_NumEdges p = Z.of_nat (length tp_edges).
Proof.
  intros Hlt. unfold triplestoreProjection_NumEdges, triplestore_EachEdge.
  rewrite (each_count (survives (bset (tp_deletedNodes p)) (bset (tp_deletedEdges p)))).
  - done.
  - intros e. apply tp_live_spec.
  - lia.
  - lia.
Qed.

Lemma projection_NumNodes :
  (Z.of_nat (size (bset (ts_nodes (tp_origin p)))) < two64)%Z ->
  triplestoreProjection_NumNodes p = Z.of_nat (length tp_nodes).
Proof.
  intros Hlt. unfold triplestoreProjection_NumNodes, triplestore_EachNode. rewrite Each_Slice.
  rewrite (each_count (fun n => n ∉ bset (tp_deletedNodes p))).
  - done.
  - intros n. rewrite bset_Contains. repeat case_bool_decide; naive_solver.
  - lia.
  - rewrite length_Slice. lia.
Qed.
End one.

(** Projecting a projection is projecting once with the union of the masks. *)
Lemma projection_projection (p : triplestoreProjection B) dn de :
  tp_edges (triplestoreProjection_Projection p dn de) =
    filter (survives (bset dn) (bset de)) (tp_edges p) /\
  tp_nodes (triplestoreProjection_Projection p dn de) =
    filter (fun n => n ∉ bset dn) (tp_nodes p).
Proof.
  unfold tp_edges, tp_nodes. simpl. unfold bitmap64_Clone. rewrite !law_Clone.
  rewrite !list_filter_filter. split; apply list_filter_iff; intros x;
    rewrite ?bset_rb_Or; unfold survives; set_solver.
Qed.
End projections.

(** ** Properties *)

(** After any sequence of [AddNode], [AddTriple] and [DeleteEdge] calls
    the edge enumeration at a node visits, without panic and in the order they
    were added, exactly the triples incident to it in the given direction, and
    stops when the delegate asks. *)
Theorem EachAdjacentEdge_visits {B : Type} `{Roaring B} `{!RoaringLaws B} {St : Type}
    (ops : list ts_op) n d (f : Edge -> St -> St * bool) st :
  triplestore_EachAdjacentEdge (ts_run (B := B) ops) n d f st =
  Done (each f (filter (incident n d) (omap op_triple ops)) st).
Proof. rewrite EachAdjacentEdge_filter by apply ts_run_inv. by rewrite ts_run_edges. Qed.

Lemma EachAdjacentEdge_visits_witness :
  triplestore_EachAdjacentEdge
    (ts_run (B := gset Z) [TsAddTriple 10 1 2; TsAddTriple 11 3 1; TsAddTriple 12 1 3])
    1 DirectionOutbound (fun e l => (l ++ [edge_ID e], true)) [] = Done [10; 12]%Z.
Proof. rewrite EachAdjacentEdge_visits. vm_compute. reflexivity. Defined.

(** The neighbours [AdjacentNodes] lists are the far ends of the triples
    incident to the node whose id was not deleted; in [DirectionBoth] both ends
    of each such triple, so the node itself as well. *)
Theorem AdjacentNodes_far_ends {B : Type} `{Roaring B} `{!RoaringLaws B} (ops : list ts_op) n d :
  exists l, triplestore_AdjacentNodes (ts_run (B := B) ops) n d = Done l /\ StronglySorted Z.lt l /\
    triplestore_Degrees (ts_run (B := B) ops) n d = Done (Z.of_nat (length l)) /\
    forall y, y ∈ l <-> exists e, e ∈ omap op_triple ops /\ incident n d e /\
      TsDeleteEdge (edge_ID e) ∉ ops /\ endpoint d e y.
Proof.
  pose proof (ts_run_inv (B := B) ops) as Hinv.
  destruct (adjacent_set _ Hinv n d) as (b & Hb & Hmem). exists (bitmap64_Slice b).
  unfold triplestore_AdjacentNodes, triplestore_Degrees. rewrite Hb. simpl.
  split_and!; [done|apply law_ToArray_sorted|by rewrite Cardinality_size, <- length_Slice|].
  intros y. rewrite elem_of_Slice, Hmem, ts_run_edges.
  by setoid_rewrite ts_run_deleted.
Qed.

Lemma AdjacentNodes_far_ends_witness :
  exists l, triplestore_AdjacentNodes
      (ts_run (B := gset Z) [TsAddTriple 10 1 2; TsAddTriple 11 3 1; TsAddTriple 12 1 4; TsDeleteEdge 12])
      1 DirectionBoth = Done l /\ l = [1; 2; 3]%Z.
Proof.
  destruct (AdjacentNodes_far_ends (B := gset Z)
    [TsAddTriple 10 1 2; TsAddTriple 11 3 1; TsAddTriple 12 1 4; TsDeleteEdge 12] 1 DirectionBoth)
    as (l & Hl & _).
  exists l. split; [exact Hl|]. vm_compute in Hl. injection Hl as <-. reflexivity.
Defined.

(** A projection enumerates exactly the triples that keep their id and both
    ends, in order; its counters are the lengths of its enumerations, and a
    projection of a projection masks the union. *)
Theorem projection_enumerates {B : Type} `{Roaring B} `{!RoaringLaws B} (ops : list ts_op)
    (dn de dn' de' : B) :
  (Z.of_nat (length ops) < 2 ^ 62)%Z ->
  let p := triplestore_Projection (ts_run (B := B) ops) dn de in
  let q := triplestoreProjection_Projection p dn' de' in
  let kept := filter (survives (bset dn) (bset de)) (omap op_triple ops) in
  (forall St (f : Edge -> St -> St * bool) st, triplestoreProjection_EachEdge p f st = each f kept st) /\
  (forall St n d (f : Edge -> St -> St * bool) st,
     triplestoreProjection_EachAdjacentEdge p n d f st = Done (each f (filter (incident n d) kept) st)) /\
  triplestoreProjection_NumEdges p = Z.of_nat (length kept) /\
  (forall St (f : Edge -> St -> St * bool) st,
     triplestoreProjection_EachEdge q f st = each f (filter (survives (bset dn') (bset de')) kept) st).
Proof.
  intros Hlt p q kept.
  assert (Hkept : tp_edges p = kept).
  { unfold kept, tp_edges. simpl. by rewrite ts_run_edges. }
  assert (Hinv : ts_inv (tp_origin p)) by apply ts_run_inv.
  split_and!.
  - intros. by rewrite projection_EachEdge, Hkept.
  - intros. by rewrite projection_EachAdjacentEdge, Hkept.
  - rewrite projection_NumEdges, Hkept; [done|]. simpl. rewrite ts_run_edges.
    pose proof (omap_length_le op_triple ops). unfold two64. lia.
  - intros. rewrite projection_EachEdge. unfold q.
    destruct (projection_projection p dn' de') as [-> _]. by rewrite Hkept.
Qed.

Lemma projection_enumerates_witness :
  triplestoreProjection_NumEdges
    (triplestore_Projection (ts_run (B := gset Z) [TsAddTriple 10 1 2; TsAddTriple 11 2 3; TsAddTriple 12 3 4])
       {[1%Z]} {[12%Z]}) = 1%Z.
Proof.
  destruct (projection_enumerates (B := gset Z)
    [TsAddTriple 10 1 2; TsAddTriple 11 2 3; TsAddTriple 12 3 4] {[1%Z]} {[12%Z]} ∅ ∅)
    as (_ & _ & Hnum & _); [vm_compute; done|].
  rewrite Hnum. vm_compute. reflexivity.
Defined.

(** [DirectionBoth] means three different things over the single edge from
    1 to 2: the compressed graph lists the neighbour 2, the store lists both
    ends, and a projection of the store, which picks the start of every edge,
    lists 1 and never reaches 2. *)
Theorem DirectionBoth_disagrees :
  (exists g, CSRDigraphBuilder_Build (run_builder (B := gset Z) [OpAddEdge 1 2]) = Done g /\
     csrDigraph_AdjacentNodes g 1 DirectionBoth = Done [2%Z]) /\
  triplestore_AdjacentNodes (ts_run (B := gset Z) [TsAddTriple 7 1 2]) 1 DirectionBoth = Done [1; 2]%Z /\
  triplestoreProjection_EachAdjacentNode
    (triplestore_Projection (ts_run (B := gset Z) [TsAddTriple 7 1 2]) ∅ ∅) 1 DirectionBoth
    (fun n l => (l ++ [n], true)) [] = Done [1%Z].
Proof.
  split_and!; [eexists; split; vm_compute; reflexivity|vm_compute; reflexivity|vm_compute; reflexivity].
Qed.
