(* ===== verification/Segment.v ===== *)
(** * container/segment.go: path segments and their byte encoding *)

From S2P Require Import Prelude.

(** ** Segments

    A [*Segment]: nil, or a cell with its [Previous] pointer. No operation
    writes to a segment once it is linked, so the chain is a value. *)
Inductive Segment : Type :=
| SegNil
| Seg (Node Edge : Z) (Previous : Segment).

Definition seg_is_nil (s : Segment) : bool := match s with SegNil => true | _ => false end.

(** [Each]: the delegate sees every cursor from the segment to the root. *)
Fixpoint Segment_Each {St} (s : Segment) (visitor : Segment -> St -> St * bool) (st : St) : St :=
  match s with
  | SegNil => st
  | Seg _ _ p => let '(st', continue) := visitor s st in
                 if continue : bool then Segment_Each p visitor st' else st'
  end.

(** The loops of the other methods, over the same cursors. *)
Fixpoint Segment_loop {St} (s : Segment) (body : Z -> Z -> Segment -> St -> St) (st : St) : St :=
  match s with
  | SegNil => st
  | Seg n e p => Segment_loop p body (body n e p st)
  end.

Definition Segment_Root (s : Segment) : Z := Segment_loop s (fun node _ _ _ => node) 0%Z.

Definition Segment_Trunk (s : Segment) : Z :=
  Segment_loop s (fun _ edge previous trunk => if seg_is_nil previous then trunk else edge) 0%Z.

Definition Segment_Edges (s : Segment) : list Z :=
  Segment_loop s (fun _ edge previous edges => if seg_is_nil previous then edges else edges ++ [edge]) [].

Definition Segment_Nodes (s : Segment) : list Z :=
  Segment_loop s (fun node _ _ nodes => nodes ++ [node]) [].

Definition Segment_Depth (s : Segment) : nat := Segment_loop s (fun _ _ _ depth => depth + 1) 0.

(** ** The byte encoding *)

(** [binary.LittleEndian.PutUint64] and [Uint64]. *)
Fixpoint le_put (n : nat) (v : Z) : list Z :=
  match n with
  | O => []
  | S n' => (v mod 256)%Z :: le_put n' (v / 256)%Z
  end.
Fixpoint le_get (bytes : list Z) : Z :=
  match bytes with
  | [] => 0
  | b :: bytes' => b + 256 * le_get bytes'
  end.

Definition PutUint64 (v : Z) : list Z := le_put 8 v.

(** [MarshalSegment] over any writer: a call either takes the bytes or fails. *)
Section marshal.
Context {W Err : Type} (write : list Z -> W -> W * option Err).

Fixpoint MarshalSegment (segment : Segment) (writer : W) : W * option Err :=
  match segment with
  | SegNil => (writer, None)
  | Seg node edge previous =>
      match write (PutUint64 node) writer with
      | (writer', Some err) => (writer', Some err)
      | (writer', None) =>
          if negb (seg_is_nil previous) then
            match write (PutUint64 edge) writer' with
            | (writer'', Some err) => (writer'', Some err)
            | (writer'', None) => MarshalSegment previous writer''
            end
          else MarshalSegment previous writer'
      end
  end.
End marshal.

(** A buffer that takes everything. *)
Definition buffer_write (bytes : list Z) (w : list Z) : list Z * option unit := (w ++ bytes, None).

(** [UnmarshalSegment] allocates one cell at a time and fills it through a
    moving pointer. The heap is the list of cells, each one's [Previous] the
    next; [um_cursor] is [nextSegment]. *)
Record unmarshal_state : Type := {
  um_cells : list (Z * Z);
  um_cursor : option nat
}.

Definition unmarshal_step (st : unmarshal_state) (nextID : Z) : unmarshal_state :=
  match um_cursor st with
  | None =>
      {| um_cells := alter (fun c => (nextID, c.2)) 0 (um_cells st); um_cursor := Some 0 |}
  | Some i =>
      if decide (S i = length (um_cells st)) then
        {| um_cells := alter (fun c => (c.1, nextID)) i (um_cells st) ++ [(0, 0)%Z];
           um_cursor := Some i |}
      else
        {| um_cells := alter (fun c => (nextID, c.2)) (S i) (um_cells st); um_cursor := Some (S i) |}
  end.

Fixpoint cells_segment (cells : list (Z * Z)) : Segment :=
  match cells with
  | [] => SegNil
  | (n, e) :: cells' => Seg n e (cells_segment cells')
  end.

(** The loop over [byteNum]; [fuel] bounds the number of 8-byte words. Slices
    whose capacity is their length, as [scanner.Bytes] and literals give. *)
Fixpoint unmarshal_loop (fuel : nat) (bytes : list Z) (byteNum : nat) (st : unmarshal_state)
  : outcome unmarshal_state :=
  match fuel with
  | O => Spent
  | S fuel' =>
      if decide (byteNum * 8 < length bytes) then
        let startIdx := (Z.of_nat byteNum * 8)%Z in
        word ← slice_sub bytes startIdx (startIdx + 8);
        unmarshal_loop fuel' bytes (byteNum + 1) (unmarshal_step st (le_get word))
      else Done st
  end.

Definition UnmarshalSegment (segmentBytes : list Z) : outcome Segment :=
  st ← unmarshal_loop (S (length segmentBytes)) segmentBytes 0
         {| um_cells := [(0, 0)%Z]; um_cursor := None |};
  Done (cells_segment (um_cells st)).

(** ** SerializedSegment *)

Record SerializedSegment : Type := { ss_Nodes : list Z; ss_Edges : list Z }.

(** One turn of the loop of [ToSegment]; the cursor cell is [(Node, Edge,
    Previous)]. *)
Definition ToSegment_step (s : SerializedSegment) (st : outcome (Z * Z * Segment)) (nodeIndex : nat)
  : outcome (Z * Z * Segment) :=
  '(_, edge, previous) ← st;
  node ← slice_get (ss_Nodes s) (Z.of_nat nodeIndex);
  if decide (nodeIndex < length (ss_Edges s)) then
    e ← slice_get (ss_Edges s) (Z.of_nat nodeIndex - 1);
    Done (0%Z, e, Seg node edge previous)
  else Done (node, edge, previous).

Definition SerializedSegment_ToSegment (s : SerializedSegment) : outcome Segment :=
  '(node, edge, previous) ←
    foldl (ToSegment_step s) (Done (0%Z, 0%Z, SegNil)) (seq 0 (length (ss_Nodes s)));
  Done (Seg node edge previous).

(** ** Format *)

(** [strconv.FormatUint(v, 10)]: the decimal digits, least significant first
    while [v] is reduced. *)
Fixpoint decimal_digits (fuel : nat) (v : Z) (acc : string) : string :=
  match fuel with
  | O => acc
  | S fuel' =>
      let digit := String (Ascii.ascii_of_nat (48 + Z.to_nat (v mod 10))) acc in
      if (v <? 10)%Z then digit else decimal_digits fuel' (v / 10) digit
  end.

(** Twenty digits hold every uint64. *)
Definition FormatUint (v : Z) : string := decimal_digits 20 v "".

Definition Segment_Format (s : Segment) : string :=
  Segment_loop s
    (fun node edge previous builder =>
       let builder := (builder +:+ "(" +:+ FormatUint node +:+ ")")%string in
       if seg_is_nil previous then builder
       else (builder +:+ "-[" +:+ FormatUint edge +:+ "]->")%string) ""%string.

(** ** The words of a segment *)

Fixpoint seg_words (s : Segment) : list Z :=
  match s with
  | SegNil => []
  | Seg n e p => n :: (if seg_is_nil p then [] else e :: seg_words p)
  end.

(** What survives the encoding: the edge field of the root cell is not written. *)
Fixpoint clear_root_edge (s : Segment) : Segment :=
  match s with
  | SegNil => SegNil
  | Seg n e p => Seg n (if seg_is_nil p then 0%Z else e) (clear_root_edge p)
  end.

Fixpoint seg_u64 (s : Segment) : Prop :=
  match s with
  | SegNil => True
  | Seg n e p => is_u64 n /\ is_u64 e /\ seg_u64 p
  end.

Lemma seg_words_u64 s : seg_u64 s -> Forall is_u64 (seg_words s).
Proof.
  induction s as [|n e p IH]; simpl; [constructor|]. intros (Hn & He & Hp).
  constructor; [done|]. destruct (seg_is_nil p); [constructor|]. constructor; auto.
Qed.

Lemma le_put_length n v : length (le_put n v) = n.
Proof. revert v. induction n as [|n IH]; intros v; simpl; [done|]. by rewrite IH. Qed.

Lemma le_get_put n v : (0 <= v)%Z -> le_get (le_put n v) = (v mod 256 ^ Z.of_nat n)%Z.
Proof.
  revert v. induction n as [|n IH]; intros v Hv; cbn [le_put le_get].
  - by rewrite Z.mod_1_r.
  - rewrite IH by (apply Z.div_pos; lia). rewrite Nat2Z.inj_succ, Z.pow_succ_r by lia.
    rewrite Z.rem_mul_r by lia. done.
Qed.

Lemma PutUint64_get v : is_u64 v -> le_get (PutUint64 v) = v.
Proof.
  intros Hv. unfold PutUint64. unfold is_u64, two64 in Hv. rewrite le_get_put by lia.
  apply Z.mod_small. exact Hv.
Qed.

Lemma MarshalSegment_words s w :
  MarshalSegment buffer_write s w = (w ++ concat (PutUint64 <$> seg_words s), None).
Proof.
  revert w. induction s as [|n e p IH]; intros w; [by simpl; rewrite app_nil_r|].
  cbn [MarshalSegment seg_words]. destruct p as [|n' e' p'].
  - cbn [seg_is_nil negb buffer_write MarshalSegment]. rewrite fmap_cons, fmap_nil. cbn [List.concat].
    by rewrite app_nil_r.
  - cbn [seg_is_nil negb buffer_write]. rewrite IH. rewrite !fmap_cons.
    cbn [List.concat]. by rewrite <- !app_assoc.
Qed.

Lemma concat_words_length (ws : list Z) : length (concat (PutUint64 <$> ws)) = 8 * length ws.
Proof.
  induction ws as [|w ws IH]; [done|]. rewrite fmap_cons. cbn [List.concat length].
  rewrite length_app, IH. unfold PutUint64. rewrite le_put_length. lia.
Qed.

(** Reading back words written one after the other. *)
Lemma unmarshal_loop_words ws pre fuel st :
  Forall is_u64 ws -> length ws < fuel ->
  unmarshal_loop fuel (concat (PutUint64 <$> (pre ++ ws))) (length pre) st =
  Done (foldl unmarshal_step st ws).
Proof.
  revert pre fuel st. induction ws as [|w ws IH]; intros pre fuel st Hws Hfuel.
  - destruct fuel as [|fuel]; [simpl in Hfuel; lia|]. cbn [unmarshal_loop].
    rewrite concat_words_length, length_app, Nat.add_0_r, decide_False by (simpl; lia). done.
  - destruct fuel as [|fuel]; [simpl in Hfuel; lia|]. cbn [unmarshal_loop foldl].
    apply Forall_cons in Hws as [Hw Hws].
    rewrite concat_words_length, decide_True by (rewrite length_app; simpl; lia).
    replace (slice_sub _ _ _) with (Done (PutUint64 w)).
    + cbn [mbind outcome_bind]. rewrite PutUint64_get by done.
      specialize (IH (pre ++ [w]) fuel (unmarshal_step st w)).
      rewrite <- app_assoc, length_app in IH. apply IH; [done|simpl in Hfuel; lia].
    + unfold slice_sub. rewrite fmap_app, fmap_cons, concat_app. cbn [List.concat].
      assert (Hlen : length (concat (PutUint64 <$> pre)) = 8 * length pre) by apply concat_words_length.
      assert (H8 : length (PutUint64 w) = 8) by apply le_put_length.
      rewrite decide_True by (rewrite !length_app; lia). f_equal.
      replace (Z.to_nat (Z.of_nat (length pre) * 8)) with (length (concat (PutUint64 <$> pre))) by lia.
      rewrite drop_app_length.
      replace (Z.to_nat (Z.of_nat (length pre) * 8 + 8) - length (concat (PutUint64 <$> pre)))
        with (length (PutUint64 w)) by lia.
      by rewrite take_app_length.
Qed.

(** The decoder is waiting for the node of a fresh last cell. *)
Definition expect_node (pre : list (Z * Z)) : unmarshal_state :=
  {| um_cells := pre ++ [(0, 0)%Z];
     um_cursor := match pre with [] => None | _ => Some (length pre - 1) end |}.

Fixpoint seg_cells (s : Segment) : list (Z * Z) :=
  match s with SegNil => [] | Seg n e p => (n, e) :: seg_cells p end.

Lemma cells_segment_cells s : cells_segment (seg_cells s) = s.
Proof. induction s as [|n e p IH]; simpl; [done|]. by rewrite IH. Qed.

Lemma alter_last {A} (f : A -> A) l x i : i = length l -> alter f i (l ++ [x]) = l ++ [f x].
Proof. intros ->. rewrite <- (Nat.add_0_r (length l)). by rewrite alter_app_r. Qed.

Lemma unmarshal_node pre n :
  unmarshal_step (expect_node pre) n =
  {| um_cells := pre ++ [(n, 0)%Z]; um_cursor := Some (length pre) |}.
Proof.
  destruct pre as [|c pre]; [done|]. unfold unmarshal_step, expect_node.
  cbn [um_cursor um_cells]. rewrite decide_False by (rewrite length_app; simpl; lia).
  replace (S (length (c :: pre) - 1)) with (length (c :: pre)) by (simpl; lia).
  by rewrite alter_last.
Qed.

Lemma unmarshal_edge pre n e :
  unmarshal_step {| um_cells := pre ++ [(n, 0)%Z]; um_cursor := Some (length pre) |} e =
  expect_node (pre ++ [(n, e)]).
Proof.
  unfold unmarshal_step, expect_node. cbn [um_cursor um_cells].
  rewrite decide_True by (rewrite length_app; simpl; lia). rewrite alter_last by done. f_equal.
  destruct (pre ++ [(n, e)]) eqn:E; [by destruct pre|]. rewrite <- E, length_app. simpl. f_equal. lia.
Qed.

Lemma unmarshal_words pre n e p :
  um_cells (foldl unmarshal_step (expect_node pre) (seg_words (Seg n e p))) =
  pre ++ seg_cells (clear_root_edge (Seg n e p)).
Proof.
  revert pre n e. induction p as [|n' e' p IH]; intros pre n e.
  - cbn [seg_words seg_is_nil foldl]. by rewrite unmarshal_node.
  - change (seg_words (Seg n e (Seg n' e' p))) with (n :: e :: seg_words (Seg n' e' p)).
    cbn [foldl]. rewrite unmarshal_node, unmarshal_edge, IH, <- app_assoc. done.
Qed.

(** ** Properties *)

(** [C37] Decoding what [MarshalSegment] wrote gives the segment back, except
    that the edge field of the root, which has no incoming edge, reads as 0. *)
Theorem segment_roundtrip (s : Segment) :
  s <> SegNil -> seg_u64 s ->
  exists bytes, MarshalSegment buffer_write s [] = (bytes, None) /\
    UnmarshalSegment bytes = Done (clear_root_edge s).
Proof.
  intros Hs Hu. rewrite MarshalSegment_words, app_nil_l. eexists. split; [done|].
  destruct s as [|n e p]; [done|]. unfold UnmarshalSegment.
  pose proof (unmarshal_loop_words (seg_words (Seg n e p)) []
    (S (length (concat (PutUint64 <$> seg_words (Seg n e p)))))
    {| um_cells := [(0, 0)%Z]; um_cursor := None |}) as Hloop.
  cbn [app length] in Hloop. rewrite Hloop.
  - cbn [mbind outcome_bind]. f_equal.
    change {| um_cells := [(0, 0)%Z]; um_cursor := None |} with (expect_node []).
    rewrite unmarshal_words, app_nil_l. apply cells_segment_cells.
  - by apply seg_words_u64.
  - rewrite concat_words_length. lia.
Qed.

Lemma segment_roundtrip_witness :
  exists bytes, MarshalSegment buffer_write (Seg 3 8 (Seg 300 0 SegNil)) [] = (bytes, None) /\
    UnmarshalSegment bytes = Done (Seg 3 8 (Seg 300 0 SegNil)).
Proof.
  apply (segment_roundtrip (Seg 3 8 (Seg 300 0 SegNil))); [done|].
  vm_compute. repeat split; discriminate.
Defined.

(** Bytes whose length is not a multiple of eight make [UnmarshalSegment]
    panic. *)
Theorem UnmarshalSegment_truncated (bytes : list Z) :
  length bytes mod 8 <> 0 -> UnmarshalSegment bytes = Panic.
Proof.
  intros Hmod. unfold UnmarshalSegment.
  assert (Hloop : forall fuel k st, k * 8 < length bytes -> length bytes < fuel + k ->
            unmarshal_loop fuel bytes k st = Panic).
  { induction fuel as [|fuel IH]; intros k st Hk Hf; [lia|]. cbn [unmarshal_loop].
    rewrite decide_True by done. unfold slice_sub. case_decide as Hd; [|done].
    cbn [mbind outcome_bind]. apply IH; [|lia].
    enough (length bytes <> (k + 1) * 8) by lia. intros Heq. apply Hmod. rewrite Heq.
    apply Nat.Div0.mod_mul. }
  rewrite Hloop; [done| |lia]. enough (length bytes <> 0) by lia. intros Heq. by rewrite Heq in Hmod.
Qed.

Lemma UnmarshalSegment_truncated_witness : UnmarshalSegment [1; 2; 3]%Z = Panic.
Proof. apply UnmarshalSegment_truncated. discriminate. Defined.

(** The accessors agree with the node and edge sequences: a segment of
    depth [d] has [d] nodes and [d - 1] edges, [Root] is the last node and
    [Trunk] the last edge. *)
Theorem segment_accessors (s : Segment) :
  length (Segment_Nodes s) = Segment_Depth s /\
  length (Segment_Edges s) = Segment_Depth s - 1 /\
  Segment_Root s = default 0%Z (last (Segment_Nodes s)) /\
  Segment_Trunk s = default 0%Z (last (Segment_Edges s)).
Proof.
  assert (Hgen : forall s ns es d r t,
    length ns = d -> length es = d - (if decide (d = 0) then 0 else if seg_is_nil s then 1 else 0) ->
    r = default 0%Z (last ns) -> t = default 0%Z (last es) ->
    let ns' := Segment_loop s (fun node _ _ nodes => nodes ++ [node]) ns in
    let es' := Segment_loop s
      (fun _ edge previous edges => if seg_is_nil previous then edges else edges ++ [edge]) es in
    let d' := Segment_loop s (fun _ _ _ depth => depth + 1) d in
    length ns' = d' /\ length es' = d' - 1 /\
    Segment_loop s (fun node _ _ _ => node) r = default 0%Z (last ns') /\
    Segment_loop s (fun _ edge previous trunk => if seg_is_nil previous then trunk else edge) t =
      default 0%Z (last es')).
  { clear s. induction s as [|n e p IH]; intros ns es d r t Hns Hes Hr Ht; simpl.
    - split_and!; [done| |done|done]. rewrite Hes. destruct (decide (d = 0)); simpl; lia.
    - apply IH.
      + rewrite length_app. simpl. lia.
      + rewrite decide_False by lia. cbn [seg_is_nil] in Hes. destruct (seg_is_nil p).
        * rewrite Hes. destruct (decide (d = 0)); lia.
        * rewrite length_app, Hes. simpl. destruct (decide (d = 0)); lia.
      + by rewrite last_snoc.
      + destruct (seg_is_nil p); [done|]. by rewrite last_snoc. }
  apply Hgen; done.
Qed.

(** [ToSegment] reads [Edges[-1]] on its first turn: it panics on every
    serialized segment that has a node and an edge. *)
Theorem ToSegment_panics (s : SerializedSegment) :
  ss_Nodes s <> [] -> ss_Edges s <> [] -> SerializedSegment_ToSegment s = Panic.
Proof.
  destruct s as [[|n ns] [|e es]]; try done. intros _ _.
  unfold SerializedSegment_ToSegment. cbn [ss_Nodes length seq foldl].
  assert (HP : forall l, foldl (ToSegment_step {| ss_Nodes := n :: ns; ss_Edges := e :: es |}) Panic l = Panic).
  { induction l as [|x l IH]; simpl; done. }
  unfold ToSegment_step at 2. simpl. by rewrite HP.
Qed.

Lemma ToSegment_panics_witness :
  SerializedSegment_ToSegment {| ss_Nodes := [1; 2]%Z; ss_Edges := [5]%Z |} = Panic.
Proof. apply ToSegment_panics; discriminate. Defined.

Lemma Segment_Depth_cons n e p : Segment_Depth (Seg n e p) = S (Segment_Depth p).
Proof.
  assert (Hshift : forall s k, Segment_loop s (fun _ _ _ depth => depth + 1) (S k) =
    S (Segment_loop s (fun _ _ _ depth => depth + 1) k)).
  { induction s as [|n' e' s IH]; intros k; simpl; [done|]. apply IH. }
  apply (Hshift p 0).
Qed.
