(* ===== verification/Traversal.v ===== *)
(** * container/traversal.go: depth- and breadth-first walks of a triplestore

    [TSDFS], [TSBFS] and [TSStatelessBFS] unfold the tree of the walks from a
    root and hand its leaves to a handler.  The first part proves, for any tree
    of bounded depth, that popping a pending item and pushing its expansions
    visits the leaves in depth-first or breadth-first order; the second part
    translates the three functions over the interface [TripleGraph] and shows
    that their turns are of that shape. *)

From Stdlib Require Import SpecFloat.
From S2P Require Import Prelude Bitmap Digraph Csr AdjacencyMap Triplestore Segment.

(** ** The part of the Triplestore interface the walks use *)

Class TripleGraph (T : Type) := {
  EachAdjacentEdge : forall {St : Type}, T -> Z -> Direction -> (Edge -> St -> St * bool) -> St -> outcome St
}.

(** The promise: the enumeration runs over a fixed sequence of edges. *)
Class LawfulTriples {T : Type} `{TripleGraph T} (ts : T) := {
  tg_edges : Z -> Direction -> list Edge;
  tg_each : forall St n d (f : Edge -> St -> St * bool) st,
    EachAdjacentEdge ts n d f st = Done (each f (tg_edges n d) st)
}.
Arguments tg_edges {T _} ts {_} _ _.

#[export] Instance triplestore_graph {B} `{Roaring B} : TripleGraph (triplestore B) := {
  EachAdjacentEdge St s n d f st := triplestore_EachAdjacentEdge s n d f st
}.
#[export] Instance projection_graph {B} `{Roaring B} : TripleGraph (triplestoreProjection B) := {
  EachAdjacentEdge St s n d f st := triplestoreProjection_EachAdjacentEdge s n d f st
}.

(** ** Unfolding a tree of bounded depth *)

Section unfolding.
Context {I H : Type}.
Context (expand : I -> list I) (leaf : I -> bool) (visit : I -> Z * H -> (Z * H) * bool).
Context (depth : I -> Z) (limit : Z).

(** One turn: a leaf is visited, any other item is replaced by its expansions. *)
Definition turn (x : I) (rest : list I) (incomplete : Z) (h : H)
  : (list I * Z * H) + outcome (Z * H) :=
  if leaf x then
    let '(st', continue) := visit x (incomplete, h) in
    if continue : bool then inl (rest, st'.1, st'.2) else inr (Done st')
  else inl (rest ++ expand x, incomplete, h).

Definition stack_step (st : list I * Z * H) : (list I * Z * H) + outcome (Z * H) :=
  let '(items, incomplete, h) := st in
  match deque_PopBack items with
  | None => inr (Done (incomplete, h))
  | Some (x, rest) => turn x rest incomplete h
  end.

Definition queue_step (st : list I * Z * H) : (list I * Z * H) + outcome (Z * H) :=
  let '(items, incomplete, h) := st in
  match items with
  | [] => inr (Done (incomplete, h))
  | x :: rest => turn x rest incomplete h
  end.

(** The leaves below an item, [k] levels at most, in the order of each walk. *)
Fixpoint dfs_leaves (k : nat) (x : I) : list I :=
  if leaf x then [x]
  else match k with
       | O => []
       | S k' => concat (dfs_leaves k' <$> reverse (expand x))
       end.

Fixpoint bfs_leaves (k : nat) (level : list I) : list I :=
  filter (fun x => leaf x = true) level ++
  match k with
  | O => []
  | S k' => bfs_leaves k' (concat (expand <$> level))
  end.

(** [k] more levels pass the limit. *)
Definition deep_enough (k : nat) (x : I) : Prop := (limit < depth x + Z.of_nat k)%Z.

Fixpoint tree_size (k : nat) (x : I) : nat :=
  S match k with O => 0 | S k' => sum_list_with (tree_size k') (expand x) end.

Lemma tree_size_S k x : tree_size (S k) x = S (sum_list_with (tree_size k) (expand x)).
Proof. done. Qed.

Context (expand_leaf : forall x, leaf x = true -> expand x = []).
Context (expand_depth : forall x c, c ∈ expand x -> depth c = (depth x + 1)%Z).
Context (expand_limit : forall x, (limit < depth x)%Z -> expand x = []).

Lemma expand_bottom x : deep_enough 0 x -> expand x = [].
Proof. intros Hd. apply expand_limit. unfold deep_enough in Hd. lia. Qed.

Lemma expand_deep k x : deep_enough (S k) x -> Forall (deep_enough k) (expand x).
Proof.
  intros Hd. apply Forall_forall. intros c Hc%expand_depth.
  unfold deep_enough in *. lia.
Qed.

(** A pending item with the levels it may still go down. *)
Definition pending_leaves (p : nat * I) : list I := dfs_leaves p.1 p.2.

Lemma stack_pending fuel ks incomplete h :
  Forall (fun p => deep_enough p.1 p.2) ks ->
  sum_list_with (fun p => tree_size p.1 p.2) ks < fuel ->
  iterate fuel stack_step (snd <$> ks, incomplete, h) =
  Some (Done (each visit (concat (pending_leaves <$> reverse ks)) (incomplete, h))).
Proof.
  revert ks incomplete h. induction fuel as [|fuel IH]; intros ks incomplete h Hks Hfuel; [lia|].
  destruct ks as [|[k s] ks _] using rev_ind; [done|].
  apply Forall_app in Hks as [Hks Hs]. rewrite Forall_singleton in Hs. cbn [fst snd] in Hs.
  rewrite sum_list_with_app in Hfuel. cbn [sum_list_with fst snd] in Hfuel.
  rewrite reverse_snoc, fmap_cons. cbn [List.concat].
  cbn [iterate stack_step]. rewrite fmap_app. cbn [fmap list_fmap snd]. rewrite deque_PopBack_snoc.
  unfold turn.
  unfold pending_leaves at 1. cbn [fst snd]. destruct (leaf s) eqn:Hleaf.
  - replace (dfs_leaves k s) with [s] by (destruct k; simpl; by rewrite Hleaf).
    cbn [app each]. destruct (visit s (incomplete, h)) as [[i' h'] []]; [|done].
    apply IH; [done|]. destruct k; simpl in Hfuel; lia.
  - destruct k as [|k].
    + rewrite expand_bottom, app_nil_r by done. cbn [dfs_leaves]. rewrite Hleaf.
      apply IH; [done|]. simpl in Hfuel. lia.
    + specialize (IH (ks ++ (pair k <$> expand s)) incomplete h).
      rewrite fmap_app, <- list_fmap_compose, list_fmap_id in IH. rewrite IH.
      * cbn [dfs_leaves]. rewrite Hleaf. do 3 f_equal.
        rewrite reverse_app, fmap_app, concat_app, <- fmap_reverse, <- list_fmap_compose. done.
      * apply Forall_app. split; [done|]. apply Forall_fmap. exact (expand_deep k s Hs).
      * rewrite sum_list_with_app, sum_list_with_fmap. cbn [fst snd].
        rewrite tree_size_S in Hfuel.
        change (fun x => tree_size k x) with (tree_size k). lia.
Qed.

Definition next_leaves (k : nat) (l : list I) : list I :=
  match k with O => [] | S k' => bfs_leaves k' l end.

Lemma queue_levels k l nx fuel incomplete h :
  Forall (deep_enough k) l ->
  match k with O => nx = [] | S k' => Forall (deep_enough k') nx end ->
  sum_list_with (tree_size k) l + sum_list_with (tree_size (pred k)) nx < fuel ->
  iterate fuel queue_step (l ++ nx, incomplete, h) =
  Some (Done (each visit (filter (fun s => leaf s = true) l ++
                          next_leaves k (nx ++ concat (expand <$> l))) (incomplete, h))).
Proof.
  revert l nx fuel incomplete h. induction k as [|k IHk];
    intros l; induction l as [|s l IHl]; intros nx fuel incomplete h Hl Hnx Hfuel.
  - subst nx. destruct fuel as [|fuel]; [simpl in Hfuel; lia|]. done.
  - subst nx. rewrite app_nil_r in *. destruct fuel as [|fuel]; [lia|].
    apply Forall_cons in Hl as [Hs Hl]. cbn [iterate queue_step].
    unfold turn. rewrite expand_bottom by done. rewrite app_nil_r.
    cbn [sum_list_with tree_size] in Hfuel.
    assert (Hrec : forall i h, iterate fuel queue_step (l, i, h) =
      Some (Done (each visit (filter (fun s => leaf s = true) l) (i, h)))).
    { intros i h'. specialize (IHl [] fuel i h' Hl eq_refl). cbn [sum_list_with] in IHl.
      rewrite !app_nil_r in IHl. apply IHl.
      change (fun _ : I => 1) with (tree_size 0) in Hfuel. lia. }
    cbn [next_leaves]. rewrite app_nil_r, filter_cons. destruct (leaf s).
    + rewrite decide_True by done. cbn [each].
      destruct (visit s (incomplete, h)) as [[i' h'] []]; [apply Hrec|done].
    + rewrite decide_False by done. apply Hrec.
  - cbn [fmap list_fmap List.concat filter list_filter next_leaves app] in *. rewrite app_nil_r.
    destruct nx as [|s nx].
    + destruct fuel as [|fuel]; [simpl in Hfuel; lia|].
      assert (Hnil : forall k, bfs_leaves k [] = []) by (induction k0; simpl; done).
      rewrite Hnil. done.
    + specialize (IHk (s :: nx) [] fuel incomplete h Hnx). rewrite app_nil_r in IHk.
      rewrite IHk; [|by destruct k; [|constructor]|].
      * rewrite app_nil_l. by destruct k.
      * cbn [pred sum_list_with] in *. lia.
  - destruct fuel as [|fuel]; [lia|]. apply Forall_cons in Hl as [Hs Hl].
    cbn [iterate queue_step app]. unfold turn.
    cbn [sum_list_with] in Hfuel. rewrite tree_size_S in Hfuel.
    assert (Hrec : forall i h, iterate fuel queue_step ((l ++ nx) ++ expand s, i, h) =
      Some (Done (each visit (filter (fun s => leaf s = true) l ++
        next_leaves (S k) (nx ++ concat (expand <$> (s :: l)))) (i, h)))).
    { intros i h'. rewrite <- app_assoc. rewrite IHl; [|done| |].
      - rewrite fmap_cons. cbn [List.concat]. by rewrite <- app_assoc.
      - apply Forall_app. split; [done|]. by apply expand_deep.
      - rewrite sum_list_with_app. cbn [pred] in *. lia. }
    rewrite filter_cons. destruct (leaf s) eqn:Hleaf.
    + rewrite decide_True by done. cbn [app each].
      rewrite (expand_leaf s Hleaf), app_nil_r in Hrec.
      destruct (visit s (incomplete, h)) as [[i' h'] []]; [apply Hrec|done].
    + rewrite decide_False by done. apply Hrec.
Qed.
(** Both orders list the same leaves. *)
Lemma dfs_leaves_split k x :
  dfs_leaves (S k) x ≡ₚ filter (fun x => leaf x = true) [x] ++ concat (dfs_leaves k <$> expand x).
Proof.
  cbn [dfs_leaves]. rewrite filter_cons, filter_nil. destruct (leaf x) eqn:Hleaf.
  - by rewrite decide_True, expand_leaf by done.
  - rewrite decide_False by done. cbn [app]. by rewrite reverse_Permutation.
Qed.

Lemma bfs_leaves_dfs k l : bfs_leaves k l ≡ₚ concat (dfs_leaves k <$> l).
Proof.
  revert l. induction k as [|k IHk]; intros l.
  - cbn [bfs_leaves]. rewrite app_nil_r. induction l as [|x l IH]; [done|].
    rewrite filter_cons, fmap_cons. cbn [List.concat dfs_leaves].
    rewrite <- IH. destruct (leaf x); [by rewrite decide_True|by rewrite decide_False].
  - cbn [bfs_leaves]. rewrite IHk. induction l as [|x l IH]; [done|].
    rewrite !fmap_cons. cbn [List.concat]. rewrite dfs_leaves_split, <- IH.
    rewrite fmap_app, concat_app.
    change (x :: l) with ([x] ++ l) at 1. rewrite filter_app. solve_Permutation.
Qed.

(** They are the items without expansions that can be reached from the root. *)
Lemma elem_of_dfs_leaves k x y : deep_enough k x ->
  y ∈ dfs_leaves k x <-> rtc (fun a c => c ∈ expand a) x y /\ leaf y = true.
Proof.
  revert x. induction k as [|k IH]; intros x Hd.
  - cbn [dfs_leaves]. assert (Hself : rtc (fun a c => c ∈ expand a) x y -> y = x).
    { intros Hr; apply rtc_inv in Hr as [->|(c & Hc & _)]; [done|].
      rewrite expand_bottom in Hc by done. by apply elem_of_nil in Hc. }
    destruct (leaf x) eqn:Hleaf.
    + rewrite list_elem_of_singleton. split; [intros ->; by split; [apply rtc_refl|]|]. intros [Hr _]. by apply Hself.
    + rewrite elem_of_nil. split; [done|]. intros [Hr Hy]. rewrite (Hself Hr) in Hy. congruence.
  - rewrite dfs_leaves_split, elem_of_app, list_elem_of_filter, list_elem_of_singleton.
    pose proof (expand_deep _ _ Hd) as Hx. rewrite Forall_forall in Hx. split.
    + intros [[Hy ->]|Hy]; [by split; [apply rtc_refl|]|].
      apply elem_of_concat in Hy as (l & Hy & (c & -> & Hc)%list_elem_of_fmap).
      apply IH in Hy as [Hr Hy]; [|by apply Hx]. split; [by eapply rtc_l|done].
    + intros [Hr Hy]. apply rtc_inv in Hr as [<-|(c & Hc & Hr)]; [by left|]. right.
      apply elem_of_concat.
      exists (dfs_leaves k c). split; [|apply list_elem_of_fmap; by exists c].
      apply IH; [by apply Hx|done].
Qed.
(** Breadth-first order is by depth. *)
Lemma bfs_leaves_sorted k l d :
  Forall (fun x => depth x = d) l ->
  StronglySorted Z.le (depth <$> bfs_leaves k l) /\ Forall (fun x => (d <= depth x)%Z) (bfs_leaves k l).
Proof.
  revert l d. induction k as [|k IH]; intros l d Hl; cbn [bfs_leaves];
    assert (Hf : Forall (fun x => depth x = d) (filter (fun x => leaf x = true) l))
      by (apply Forall_forall; intros x [_ Hx]%list_elem_of_filter; by eapply Forall_forall in Hl);
    assert (Hs : forall m, Forall (fun x => depth x = d) m -> StronglySorted Z.le (depth <$> m))
      by (intros m Hm; induction Hm as [|x m Hx Hm IHm]; [constructor|]; rewrite fmap_cons;
          constructor; [done|]; apply Forall_fmap; eapply Forall_impl; [exact Hm|]; simpl; lia).
  - rewrite app_nil_r. split; [by apply Hs|]. eapply Forall_impl; [exact Hf|]. simpl; lia.
  - destruct (IH (concat (expand <$> l)) (d + 1)%Z) as [Hsort Hge].
    { apply Forall_forall. intros c (m & Hc & (x & -> & Hx)%list_elem_of_fmap)%elem_of_concat.
      apply expand_depth in Hc. rewrite Forall_forall in Hl. rewrite (Hl x Hx) in Hc. done. }
    split.
    + rewrite fmap_app. apply StronglySorted_app. split_and!; [|by apply Hs|done].
      intros a b (x & -> & Hx)%list_elem_of_fmap (y & -> & Hy)%list_elem_of_fmap.
      rewrite Forall_forall in Hf, Hge. rewrite (Hf x Hx). pose proof (Hge y Hy). lia.
    + apply Forall_app. split; (eapply Forall_impl; [eassumption|]); simpl; lia.
Qed.
Lemma stack_leaves k x h : deep_enough k x ->
  exists N, forall fuel, N <= fuel -> iterate fuel stack_step ([x], 0%Z, h) =
    Some (Done (each visit (dfs_leaves k x) (0%Z, h))).
Proof.
  intros Hd. exists (S (tree_size k x)). intros fuel Hfuel.
  rewrite (stack_pending fuel [(k, x)]).
  - cbn. by rewrite app_nil_r.
  - by apply Forall_singleton.
  - simpl. lia.
Qed.

Lemma queue_leaves k x h : deep_enough k x ->
  exists N, forall fuel, N <= fuel -> iterate fuel queue_step ([x], 0%Z, h) =
    Some (Done (each visit (bfs_leaves k [x]) (0%Z, h))).
Proof.
  intros Hd. exists (S (tree_size k x)). intros fuel Hfuel.
  rewrite (queue_levels k [x] []); [by destruct k|by apply Forall_singleton|by destruct k|].
  simpl. lia.
Qed.

Lemma elem_of_bfs_leaves k x y : deep_enough k x ->
  y ∈ bfs_leaves k [x] <-> rtc (fun a c => c ∈ expand a) x y /\ leaf y = true.
Proof.
  intros Hd. rewrite bfs_leaves_dfs. cbn. rewrite app_nil_r. by apply elem_of_dfs_leaves.
Qed.
End unfolding.

(** ** TSDFS and TSBFS *)

Definition seg_node (s : Segment) : Z := match s with SegNil => 0 | Seg n _ _ => n end.

Section walks.
Context {T H : Type} `{TripleGraph T}.
Context (ts : T) (direction : Direction) (maxDepth : Z).
Context (descentFilter : Edge -> bool) (handler : Segment -> H -> H * bool).

Definition depthExceeded (segmentDepth : nat) : bool :=
  (0 <? maxDepth)%Z && (maxDepth <? Z.of_nat segmentDepth)%Z.

(** [if descentFilter(nextEdge) { traversals.PushBack(&Segment{...}) }]. *)
Definition push_child (nextSegment : Segment) (nextEdge : Edge) (traversals : list Segment)
  : list Segment * bool :=
  (if descentFilter nextEdge
   then traversals ++ [Seg (Edge_Pick nextEdge direction) (edge_ID nextEdge) nextSegment]
   else traversals, true).

(** One turn of the loop once a segment is popped; [inl] goes on. *)
Definition walk_turn (remainingTraversals : nat) (nextSegment : Segment)
    (traversals : list Segment) (incomplete : Z) (h : H)
  : (list Segment * Z * H) + outcome (Z * H) :=
  let segmentDepth := Segment_Depth nextSegment in
  let exceeded := depthExceeded segmentDepth in
  let expanded :=
    if exceeded then Done traversals
    else EachAdjacentEdge ts (seg_node nextSegment) direction (push_child nextSegment) traversals in
  match expanded with
  | Done traversals' =>
      if (1 <? segmentDepth) && (remainingTraversals - 1 =? length traversals') then
        let incomplete' := if exceeded then (incomplete + 1)%Z else incomplete in
        let '(h', continue) := handler nextSegment h in
        if continue : bool then inl (traversals', incomplete', h') else inr (Done (incomplete', h'))
      else inl (traversals', incomplete, h)
  | Panic => inr Panic
  | Spent => inr Spent
  end.

Definition TSDFS_step (st : list Segment * Z * H) : (list Segment * Z * H) + outcome (Z * H) :=
  let '(traversals, incomplete, h) := st in
  match deque_PopBack traversals with
  | None => inr (Done (incomplete, h))
  | Some (nextSegment, rest) => walk_turn (length traversals) nextSegment rest incomplete h
  end.

Definition TSBFS_step (st : list Segment * Z * H) : (list Segment * Z * H) + outcome (Z * H) :=
  let '(traversals, incomplete, h) := st in
  match traversals with
  | [] => inr (Done (incomplete, h))
  | nextSegment :: rest => walk_turn (length traversals) nextSegment rest incomplete h
  end.

Definition TSDFS (fuel : nat) (nodeID : Z) (h : H) : option (outcome (Z * H)) :=
  iterate fuel TSDFS_step ([Seg nodeID 0 SegNil], 0%Z, h).

Definition TSBFS (fuel : nat) (nodeID : Z) (h : H) : option (outcome (Z * H)) :=
  iterate fuel TSBFS_step ([Seg nodeID 0 SegNil], 0%Z, h).

(** ** The tree of walks *)

Context `{!LawfulTriples ts}.

Definition children (s : Segment) : list Segment :=
  (fun e => Seg (Edge_Pick e direction) (edge_ID e) s)
    <$> filter (fun e => descentFilter e = true) (tg_edges ts (seg_node s) direction).

(** The children a turn pushes. *)
Definition expansions (s : Segment) : list Segment :=
  if depthExceeded (Segment_Depth s) then [] else children s.

(** What a turn does with a popped segment that did not expand: call the
    handler, and count the walk when the depth limit cut it. *)
Definition visit_leaf (s : Segment) (st : Z * H) : (Z * H) * bool :=
  let '(incomplete, h) := st in
  let '(h', continue) := handler s h in
  ((if depthExceeded (Segment_Depth s) then (incomplete + 1)%Z else incomplete, h'), continue).

(** A walk of at least one edge that cannot be continued. *)
Definition is_leaf (s : Segment) : bool :=
  (1 <? Segment_Depth s) && match expansions s with [] => true | _ => false end.

Lemma push_child_each s l traversals :
  each (push_child s) l traversals =
  traversals ++ ((fun e => Seg (Edge_Pick e direction) (edge_ID e) s)
                   <$> filter (fun e => descentFilter e = true) l).
Proof.
  revert traversals. induction l as [|e l IH]; intros traversals; [by rewrite app_nil_r|].
  cbn [each push_child]. rewrite filter_cons. destruct (descentFilter e) eqn:He.
  - rewrite decide_True by done. rewrite IH, <- app_assoc. done.
  - rewrite decide_False by done. apply IH.
Qed.

Lemma walk_turn_spec remaining s rest incomplete h :
  remaining = S (length rest) ->
  walk_turn remaining s rest incomplete h = turn expansions is_leaf visit_leaf s rest incomplete h.
Proof.
  intros ->. unfold walk_turn, turn, is_leaf, expansions, visit_leaf.
  assert (Hexp : (if depthExceeded (Segment_Depth s) then Done rest
           else EachAdjacentEdge ts (seg_node s) direction (push_child s) rest) =
           Done (rest ++ if depthExceeded (Segment_Depth s) then [] else children s)).
  { destruct (depthExceeded _); [by rewrite app_nil_r|]. by rewrite tg_each, push_child_each. }
  rewrite Hexp. set (xs := if depthExceeded (Segment_Depth s) then [] else children s).
  replace (S (length rest) - 1 =? length (rest ++ xs)) with (match xs with [] => true | _ => false end).
  - destruct (1 <? Segment_Depth s); simpl; [|done]. destruct xs; [|done].
    rewrite app_nil_r. by destruct (handler s h) as [h' []].
  - rewrite length_app. destruct xs; simpl; symmetry; [apply Nat.eqb_eq; lia|apply Nat.eqb_neq; lia].
Qed.

Lemma TSDFS_step_turn st : TSDFS_step st = stack_step expansions is_leaf visit_leaf st.
Proof.
  destruct st as [[items i] h]. unfold TSDFS_step, stack_step, deque_PopBack.
  destruct (reverse items) as [|x rest] eqn:Hrev; [done|]. apply walk_turn_spec.
  rewrite <- (reverse_involutive items), Hrev, reverse_cons, length_app. simpl. lia.
Qed.

Lemma TSBFS_step_turn st : TSBFS_step st = queue_step expansions is_leaf visit_leaf st.
Proof. destruct st as [[[|x rest] i] h]; [done|]. by apply walk_turn_spec. Qed.

Lemma expansions_leaf s : is_leaf s = true -> expansions s = [].
Proof. unfold is_leaf. intros [_ Hx]%andb_true_iff. by destruct (expansions s). Qed.

Lemma expansions_depth s c :
  c ∈ expansions s -> Z.of_nat (Segment_Depth c) = (Z.of_nat (Segment_Depth s) + 1)%Z.
Proof.
  unfold expansions. destruct (depthExceeded _); [by intros ?%elem_of_nil|].
  intros (e & -> & _)%list_elem_of_fmap. rewrite Segment_Depth_cons. lia.
Qed.

Lemma expansions_limit s :
  (0 < maxDepth)%Z -> (maxDepth < Z.of_nat (Segment_Depth s))%Z -> expansions s = [].
Proof.
  intros Hlimit Hd. unfold expansions, depthExceeded.
  by rewrite !(proj2 (Z.ltb_lt _ _)) by lia.
Qed.
End walks.

(** ** TSStatelessBFS *)

Section stateless.
Context {T H : Type} `{TripleGraph T}.
Context (ts : T) (direction : Direction) (maxDepth : Z).
Context (descentFilter : Edge -> Weight * bool) (terminalHandler : PathTerminal -> H -> H * bool).

(** [descentFilter]'s weight, scaled by the weight so far after the first edge. *)
Definition child_terminal (nextSegment : PathTerminal) (nextEdge : Edge) (weight : Weight) : PathTerminal :=
  {| pt_Node := Edge_Pick nextEdge direction;
     pt_Weight := if 0 <? pt_Distance nextSegment
                  then Weight_mul weight (pt_Weight nextSegment) else weight;
     pt_Distance := pt_Distance nextSegment + 1 |}.

Definition push_terminal (nextSegment : PathTerminal) (nextEdge : Edge)
    (st : list PathTerminal * bool) : (list PathTerminal * bool) * bool :=
  let '(traversals, hasExpansions) := st in
  let '(weight, shouldDescend) := descentFilter nextEdge in
  (if shouldDescend : bool
   then (traversals ++ [child_terminal nextSegment nextEdge weight], true)
   else (traversals, hasExpansions), true).

Definition TSStatelessBFS_step (st : list PathTerminal * Z * H)
  : (list PathTerminal * Z * H) + outcome (Z * H) :=
  let '(traversals, incomplete, h) := st in
  match traversals with
  | [] => inr (Done (incomplete, h))
  | nextSegment :: rest =>
      let exceeded := (0 <? maxDepth)%Z && (maxDepth <? Z.of_nat (pt_Distance nextSegment))%Z in
      let expanded :=
        if exceeded then Done (rest, false)
        else EachAdjacentEdge ts (pt_Node nextSegment) direction (push_terminal nextSegment) (rest, false) in
      match expanded with
      | Done (traversals', hasExpansions) =>
          if (1 <=? pt_Distance nextSegment) && negb hasExpansions then
            let incomplete' := if exceeded then (incomplete + 1)%Z else incomplete in
            let '(h', continue) := terminalHandler nextSegment h in
            if continue : bool then inl (traversals', incomplete', h') else inr (Done (incomplete', h'))
          else inl (traversals', incomplete, h)
      | Panic => inr Panic
      | Spent => inr Spent
      end
  end.

Definition TSStatelessBFS_root (rootNode : Z) : PathTerminal :=
  {| pt_Node := rootNode; pt_Weight := S754_zero false; pt_Distance := 0 |}.

Definition TSStatelessBFS (fuel : nat) (rootNode : Z) (h : H) : option (outcome (Z * H)) :=
  iterate fuel TSStatelessBFS_step ([TSStatelessBFS_root rootNode], 0%Z, h).

Context `{!LawfulTriples ts}.

Definition terminal_exceeded (t : PathTerminal) : bool :=
  (0 <? maxDepth)%Z && (maxDepth <? Z.of_nat (pt_Distance t))%Z.

Definition terminal_children (t : PathTerminal) : list PathTerminal :=
  (fun e => child_terminal t e (descentFilter e).1)
    <$> filter (fun e => (descentFilter e).2 = true) (tg_edges ts (pt_Node t) direction).

Definition terminal_expansions (t : PathTerminal) : list PathTerminal :=
  if terminal_exceeded t then [] else terminal_children t.

Definition visit_terminal (t : PathTerminal) (st : Z * H) : (Z * H) * bool :=
  let '(incomplete, h) := st in
  let '(h', continue) := terminalHandler t h in
  ((if terminal_exceeded t then (incomplete + 1)%Z else incomplete, h'), continue).

Definition is_terminal (t : PathTerminal) : bool :=
  (1 <=? pt_Distance t) && match terminal_expansions t with [] => true | _ => false end.

Lemma push_terminal_each t l traversals flag :
  let pushed := (fun e => child_terminal t e (descentFilter e).1)
                  <$> filter (fun e => (descentFilter e).2 = true) l in
  each (push_terminal t) l (traversals, flag) =
  (traversals ++ pushed, flag || match pushed with [] => false | _ => true end).
Proof.
  revert traversals flag. induction l as [|e l IH]; intros traversals flag.
  - cbn. by rewrite app_nil_r, orb_false_r.
  - cbn [each]. unfold push_terminal at 1. rewrite filter_cons.
    destruct (descentFilter e) as [w []] eqn:He; cbn [fst snd].
    + rewrite decide_True by done. rewrite IH, <- app_assoc, fmap_cons, He. by rewrite orb_true_r.
    + rewrite decide_False by done. apply IH.
Qed.

Lemma TSStatelessBFS_step_turn st :
  TSStatelessBFS_step st = queue_step terminal_expansions is_terminal visit_terminal st.
Proof.
  destruct st as [[[|t rest] i] h]; [done|]. unfold TSStatelessBFS_step, queue_step, turn.
  unfold is_terminal, visit_terminal. fold (terminal_exceeded t).
  assert (Hexp : (if terminal_exceeded t then Done (rest, false)
    else EachAdjacentEdge ts (pt_Node t) direction (push_terminal t) (rest, false)) =
    Done (rest ++ terminal_expansions t, match terminal_expansions t with [] => false | _ => true end)).
  { unfold terminal_expansions. destruct (terminal_exceeded t); [by rewrite app_nil_r|].
    rewrite tg_each. f_equal. apply push_terminal_each. }
  rewrite Hexp. destruct (1 <=? pt_Distance t); cbn [andb]; [|done].
  destruct (terminal_expansions t); cbn [negb]; [|done].
  rewrite app_nil_r. by destruct (terminalHandler t h) as [h' []].
Qed.

Lemma terminal_expansions_leaf t : is_terminal t = true -> terminal_expansions t = [].
Proof. unfold is_terminal. intros [_ Hx]%andb_true_iff. by destruct (terminal_expansions t). Qed.

Lemma terminal_expansions_depth t c :
  c ∈ terminal_expansions t -> Z.of_nat (pt_Distance c) = (Z.of_nat (pt_Distance t) + 1)%Z.
Proof.
  unfold terminal_expansions. destruct (terminal_exceeded _); [by intros ?%elem_of_nil|].
  intros (e & -> & _)%list_elem_of_fmap. simpl. lia.
Qed.

Lemma terminal_expansions_limit t :
  (0 < maxDepth)%Z -> (maxDepth < Z.of_nat (pt_Distance t))%Z -> terminal_expansions t = [].
Proof.
  intros Hlimit Hd. unfold terminal_expansions, terminal_exceeded.
  by rewrite !(proj2 (Z.ltb_lt _ _)) by lia.
Qed.
End stateless.

(** ** Stores and projections keep the promise *)

#[export, refine] Instance store_lawful {B} `{Roaring B} `{!RoaringLaws B} (ops : list ts_op) :
  LawfulTriples (ts_run (B := B) ops) :=
  {| tg_edges n d := filter (incident n d) (ts_edges (ts_run (B := B) ops)) |}.
Proof. intros St n d f st. apply EachAdjacentEdge_filter, ts_run_inv. Defined.

#[export, refine] Instance projection_lawful {B} `{Roaring B} `{!RoaringLaws B} (ops : list ts_op) (dn de : B) :
  LawfulTriples (triplestore_Projection (ts_run (B := B) ops) dn de) :=
  {| tg_edges n d := filter (incident n d) (tp_edges (triplestore_Projection (ts_run (B := B) ops) dn de)) |}.
Proof. intros St n d f st. apply projection_EachAdjacentEdge, ts_run_inv. Defined.

(** ** Properties *)

(** With a depth limit, the depth-first walk of a store terminates, and it
    hands its handler, in depth-first order and until the handler stops it,
    the walks from the root that cannot be continued: every walk along accepted
    edges that has an edge and either ends where no accepted edge leaves or has
    passed the limit. *)
Theorem TSDFS_leaves {T H : Type} `{TripleGraph T} (ts : T) `{!LawfulTriples ts}
    direction maxDepth filter (handler : Segment -> H -> H * bool) root h :
  (0 < maxDepth)%Z ->
  let expand := expansions ts direction maxDepth filter in
  let leaf := is_leaf ts direction maxDepth filter in
  let leaves := dfs_leaves expand leaf (Z.to_nat maxDepth) (Seg root 0 SegNil) in
  (exists N, forall fuel, N <= fuel ->
     TSDFS ts direction maxDepth filter handler fuel root h =
     Some (Done (each (visit_leaf maxDepth handler) leaves (0%Z, h)))) /\
  (forall s, s ∈ leaves <-> rtc (fun a c => c ∈ expand a) (Seg root 0 SegNil) s /\ leaf s = true).
Proof.
  intros Hlimit expand leaf leaves.
  assert (Hd : deep_enough (fun s => Z.of_nat (Segment_Depth s)) maxDepth (Z.to_nat maxDepth)
                 (Seg root 0 SegNil)) by (unfold deep_enough; rewrite Segment_Depth_cons; lia).
  split.
  - unfold TSDFS. setoid_rewrite (iterate_ext _ _ _ _ (TSDFS_step_turn ts direction maxDepth filter handler)).
    eapply stack_leaves; [apply expansions_depth|intros; by apply expansions_limit|done].
  - intros s. eapply elem_of_dfs_leaves;
      [apply expansions_leaf|apply expansions_depth|intros; by apply expansions_limit|done].
Qed.

(** The store of the examples: 1 -> 2 -> 3 and 1 -> 3. *)
Definition example_ops : list ts_op := [TsAddTriple 10 1 2; TsAddTriple 11 2 3; TsAddTriple 12 1 3].

Lemma TSDFS_leaves_witness :
  exists N, forall fuel, N <= fuel ->
    TSDFS (ts_run (B := gset Z) example_ops) DirectionOutbound 5 (fun _ => true)
      (fun s l => (l ++ [Segment_Nodes s], true)) fuel 1 [] =
    Some (Done (0, [[3; 1]; [3; 2; 1]]))%Z.
Proof.
  destruct (TSDFS_leaves (ts_run (B := gset Z) example_ops) DirectionOutbound 5 (fun _ => true)
    (fun s l => (l ++ [Segment_Nodes s], true)) 1 [] eq_refl) as [(N & HN) _].
  exists N. intros fuel Hfuel. rewrite (HN fuel Hfuel). vm_compute. reflexivity.
Defined.

(** The breadth-first walk terminates under a depth limit and hands over
    the same walks as the depth-first one, by increasing depth. *)
Theorem TSBFS_leaves {T H : Type} `{TripleGraph T} (ts : T) `{!LawfulTriples ts}
    direction maxDepth filter (handler : Segment -> H -> H * bool) root h :
  (0 < maxDepth)%Z ->
  let expand := expansions ts direction maxDepth filter in
  let leaf := is_leaf ts direction maxDepth filter in
  let leaves := bfs_leaves expand leaf (Z.to_nat maxDepth) [Seg root 0 SegNil] in
  (exists N, forall fuel, N <= fuel ->
     TSBFS ts direction maxDepth filter handler fuel root h =
     Some (Done (each (visit_leaf maxDepth handler) leaves (0%Z, h)))) /\
  leaves ≡ₚ dfs_leaves expand leaf (Z.to_nat maxDepth) (Seg root 0 SegNil) /\
  StronglySorted Z.le ((fun s => Z.of_nat (Segment_Depth s)) <$> leaves).
Proof.
  intros Hlimit expand leaf leaves.
  assert (Hd : deep_enough (fun s => Z.of_nat (Segment_Depth s)) maxDepth (Z.to_nat maxDepth)
                 (Seg root 0 SegNil)) by (unfold deep_enough; rewrite Segment_Depth_cons; lia).
  split_and!.
  - unfold TSBFS. setoid_rewrite (iterate_ext _ _ _ _ (TSBFS_step_turn ts direction maxDepth filter handler)).
    eapply queue_leaves; [apply expansions_leaf|apply expansions_depth|intros; by apply expansions_limit|done].
  - unfold leaves. rewrite bfs_leaves_dfs by apply expansions_leaf. cbn. by rewrite app_nil_r.
  - eapply (bfs_leaves_sorted _ _ (fun s => Z.of_nat (Segment_Depth s)));
      [apply expansions_depth|by apply Forall_singleton].
Qed.

Lemma TSBFS_leaves_witness :
  exists N, forall fuel, N <= fuel ->
    TSBFS (triplestore_Projection (ts_run (B := gset Z) example_ops) ∅ {[12%Z]}) DirectionOutbound 1
      (fun _ => true) (fun s l => (l ++ [Segment_Nodes s], true)) fuel 1 [] =
    Some (Done (1, [[2; 1]]))%Z.
Proof.
  destruct (TSBFS_leaves (triplestore_Projection (ts_run (B := gset Z) example_ops) ∅ {[12%Z]})
    DirectionOutbound 1 (fun _ => true) (fun s l => (l ++ [Segment_Nodes s], true)) 1 [] eq_refl)
    as [(N & HN) _].
  exists N. intros fuel Hfuel. rewrite (HN fuel Hfuel). vm_compute. reflexivity.
Defined.

(** The stateless walk terminates under a depth limit and reports, by
    increasing distance, exactly the terminals whose walk cannot be continued,
    each with its distance and the product of its edge weights. *)
Theorem TSStatelessBFS_terminals {T H : Type} `{TripleGraph T} (ts : T) `{!LawfulTriples ts}
    direction maxDepth filter (handler : PathTerminal -> H -> H * bool) root h :
  (0 < maxDepth)%Z ->
  let expand := terminal_expansions ts direction maxDepth filter in
  let leaf := is_terminal ts direction maxDepth filter in
  exists leaves,
  (exists N, forall fuel, N <= fuel ->
     TSStatelessBFS ts direction maxDepth filter handler fuel root h =
     Some (Done (each (visit_terminal maxDepth handler) leaves (0%Z, h)))) /\
  (forall t, t ∈ leaves <-> rtc (fun a c => c ∈ expand a) (TSStatelessBFS_root root) t /\ leaf t = true) /\
  StronglySorted Z.le ((fun t => Z.of_nat (pt_Distance t)) <$> leaves).
Proof.
  intros Hlimit expand leaf.
  assert (Hd : deep_enough (fun t => Z.of_nat (pt_Distance t)) maxDepth (S (Z.to_nat maxDepth))
                 (TSStatelessBFS_root root)) by (unfold deep_enough; simpl; lia).
  exists (bfs_leaves expand leaf (S (Z.to_nat maxDepth)) [TSStatelessBFS_root root]).
  split_and!.
  - unfold TSStatelessBFS.
    setoid_rewrite (iterate_ext _ _ _ _ (TSStatelessBFS_step_turn ts direction maxDepth filter handler)).
    eapply queue_leaves;
      [apply terminal_expansions_leaf|apply terminal_expansions_depth
      |intros; by apply terminal_expansions_limit|done].
  - intros t. eapply elem_of_bfs_leaves;
      [apply terminal_expansions_leaf|apply terminal_expansions_depth
      |intros; by apply terminal_expansions_limit|done].
  - eapply (bfs_leaves_sorted _ _ (fun t => Z.of_nat (pt_Distance t)));
      [apply terminal_expansions_depth|by apply Forall_singleton].
Qed.

Lemma TSStatelessBFS_terminals_witness :
  exists leaves N, forall fuel, N <= fuel ->
    TSStatelessBFS (ts_run (B := gset Z) example_ops) DirectionOutbound 5
      (fun e => (S754_finite false 2 0, true)) (fun t (l : list PathTerminal) => (l ++ [t], true)) fuel 1 [] =
    Some (Done (each (visit_terminal 5 (fun t (l : list PathTerminal) => (l ++ [t], true))) leaves (0%Z, []))).
Proof.
  destruct (TSStatelessBFS_terminals (ts_run (B := gset Z) example_ops) DirectionOutbound 5
    (fun e => (S754_finite false 2 0, true)) (fun t (l : list PathTerminal) => (l ++ [t], true)) 1 [] eq_refl)
    as (leaves & (N & HN) & _).
  exists leaves, N. exact HN.
Defined.
