(* ===== verification/Cache.v ===== *)
(** * cache/: statistics, the non-expiring map cache and the SIEVE cache

    Both caches are modelled as the sequence of their critical sections: every
    method holds the lock for its whole body.  [Get] of the SIEVE cache holds the
    lock for reading only, so several may run together; [Sieve_Gets_commute] shows
    that their order does not matter.

    The eviction queue is a [container/list.List]: the sequence of its elements
    from front to back, each with its address and the key it carries; the hand
    and the entries refer to an element by its address. *)

From S2P Require Import Prelude.

(** Go's [int64] counters wrap around. *)
Definition wrap_int64 (z : Z) : Z := ((z + 2 ^ 63) mod two64 - 2 ^ 63)%Z.

(** ** Stats *)

Record Stats : Type := {
  stats_hits : Z;
  stats_misses : Z;
  stats_size : Z;
  stats_Capacity : Z
}.

Definition NewStats (capacity : Z) : Stats :=
  {| stats_hits := 0; stats_misses := 0; stats_size := 0; stats_Capacity := capacity |}.

Definition Stats_Combined (s other : Stats) : Stats :=
  {| stats_hits := wrap_int64 (wrap_int64 (0 + stats_hits s) + stats_hits other);
     stats_misses := wrap_int64 (wrap_int64 (0 + stats_misses s) + stats_misses other);
     stats_size := wrap_int64 (wrap_int64 (0 + stats_size s) + stats_size other);
     stats_Capacity := wrap_int64 (stats_Capacity s + stats_Capacity other) |}.

Definition Stats_Miss (s : Stats) : Stats :=
  {| stats_hits := stats_hits s; stats_misses := wrap_int64 (stats_misses s + 1);
     stats_size := stats_size s; stats_Capacity := stats_Capacity s |}.
Definition Stats_Hit (s : Stats) : Stats :=
  {| stats_hits := wrap_int64 (stats_hits s + 1); stats_misses := stats_misses s;
     stats_size := stats_size s; stats_Capacity := stats_Capacity s |}.
Definition Stats_Put (s : Stats) : Stats :=
  {| stats_hits := stats_hits s; stats_misses := stats_misses s;
     stats_size := wrap_int64 (stats_size s + 1); stats_Capacity := stats_Capacity s |}.
Definition Stats_Delete (s : Stats) : Stats :=
  {| stats_hits := stats_hits s; stats_misses := stats_misses s;
     stats_size := wrap_int64 (stats_size s + -1); stats_Capacity := stats_Capacity s |}.

Section caches.
Context {K V : Type} `{Countable K} (zero : V).

(** ** NonExpiringMapCache *)

Record NonExpiringMapCache : Type := { ne_store : gmap K V; ne_stats : Stats }.

Definition NewNonExpiringMapCache (capacity : Z) : NonExpiringMapCache :=
  {| ne_store := ∅; ne_stats := NewStats capacity |}.

Definition NonExpiringMapCache_Put (s : NonExpiringMapCache) (key : K) (value : V)
  : NonExpiringMapCache :=
  match ne_store s !! key with
  | Some _ => {| ne_store := <[key := value]> (ne_store s); ne_stats := ne_stats s |}
  | None =>
      if (stats_size (ne_stats s) <? stats_Capacity (ne_stats s))%Z
      then {| ne_store := <[key := value]> (ne_store s); ne_stats := Stats_Put (ne_stats s) |}
      else s
  end.

Definition NonExpiringMapCache_Get (s : NonExpiringMapCache) (key : K)
  : (V * bool) * NonExpiringMapCache :=
  match ne_store s !! key with
  | Some value => ((value, true), {| ne_store := ne_store s; ne_stats := Stats_Hit (ne_stats s) |})
  | None => ((zero, false), {| ne_store := ne_store s; ne_stats := Stats_Miss (ne_stats s) |})
  end.

Definition NonExpiringMapCache_Delete (s : NonExpiringMapCache) (key : K) : NonExpiringMapCache :=
  match ne_store s !! key with
  | Some _ => {| ne_store := delete key (ne_store s); ne_stats := Stats_Delete (ne_stats s) |}
  | None => s
  end.

(** ** container/list *)

Notation element := nat.
Notation queue := (list (element * K)).

(** [e.Value]. *)
Fixpoint Element_Value (q : queue) (e : element) : option K :=
  match q with
  | [] => None
  | (a, k) :: q' => if Nat.eqb a e then Some k else Element_Value q' e
  end.

(** [e.Prev()]: the element towards the front, nil at the front. *)
Fixpoint Element_Prev (q : queue) (e : element) : option element :=
  match q with
  | (a, _) :: (((b, _) :: _) as q') => if Nat.eqb b e then Some a else Element_Prev q' e
  | _ => None
  end.

Definition List_Back (q : queue) : option element := fst <$> last q.
Definition List_Remove (q : queue) (e : element) : queue := filter (fun p => p.1 <> e) q.

(** ** Sieve *)

Record entry : Type := {
  entry_key : K;
  entry_value : V;
  entry_visited : bool;
  entry_element : element
}.

Definition set_visited (b : bool) (e : entry) : entry :=
  {| entry_key := entry_key e; entry_value := entry_value e; entry_visited := b;
     entry_element := entry_element e |}.

Record Sieve : Type := {
  sv_store : gmap K entry;
  sv_queue : queue;
  sv_hand : option element;
  sv_stats : Stats;
  sv_next : element  (** the address the next list element is allocated at *)
}.

Definition NewSieve (capacity : Z) : Sieve :=
  let capacity := if (capacity <=? 0)%Z then 1%Z else capacity in
  {| sv_store := ∅; sv_queue := []; sv_hand := None; sv_stats := NewStats capacity; sv_next := 0 |}.

Definition Sieve_removeEntry (s : Sieve) (e : entry) : Sieve :=
  {| sv_store := delete (entry_key e) (sv_store s);
     sv_queue := List_Remove (sv_queue s) (entry_element e);
     sv_hand := sv_hand s; sv_stats := Stats_Delete (sv_stats s); sv_next := sv_next s |}.

(** [entry = s.store[hand.Value.(K)]]: a nil hand or a key without entry is a
    nil dereference. *)
Definition hand_entry (q : queue) (store : gmap K entry) (hand : element) : option entry :=
  k ← Element_Value q hand; store !! k.

(** [hand = hand.Prev(); hand == nil -> s.queue.Back()]. *)
Definition hand_back (q : queue) (hand : element) : option element :=
  match Element_Prev q hand with
  | Some hand' => Some hand'
  | None => List_Back q
  end.

(** A turn of [for entry.visited.Load()]: the loop ends with the hand, the entry
    to evict and the store with the flags it cleared. *)
Definition evict_step (q : queue) (st : element * entry * gmap K entry)
  : (element * entry * gmap K entry) + outcome (element * entry * gmap K entry) :=
  let '(hand, e, store) := st in
  if entry_visited e then
    let store' := <[entry_key e := set_visited false e]> store in
    match hand_back q hand with
    | Some hand' =>
        match hand_entry q store' hand' with
        | Some e' => inl (hand', e', store')
        | None => inr Panic
        end
    | None => inr Panic
    end
  else inr (Done (hand, e, store)).

Definition Sieve_evict (s : Sieve) : outcome Sieve :=
  let q := sv_queue s in
  let start := match sv_hand s with Some hand => Some hand | None => List_Back q end in
  match (hand ← start; e ← hand_entry q (sv_store s) hand; Some (hand, e)) with
  | None => Panic
  | Some (hand, e) =>
      match iterate (S (S (length q))) (evict_step q) (hand, e, sv_store s) with
      | None => Spent
      | Some Panic => Panic
      | Some Spent => Spent
      | Some (Done (hand', e', store')) =>
          Done (Sieve_removeEntry
            {| sv_store := store'; sv_queue := q; sv_hand := Element_Prev q hand';
               sv_stats := sv_stats s; sv_next := sv_next s |} e')
      end
  end.

Definition Sieve_putEntry (s : Sieve) (key : K) (value : V) : outcome Sieve :=
  evicted ← (if (stats_Capacity (sv_stats s) <=? Z.of_nat (length (sv_queue s)))%Z
             then Sieve_evict s else Done s);
  Done {| sv_store := <[key := {| entry_key := key; entry_value := value; entry_visited := false;
                                  entry_element := sv_next evicted |}]> (sv_store evicted);
          sv_queue := (sv_next evicted, key) :: sv_queue evicted;
          sv_hand := sv_hand evicted;
          sv_stats := Stats_Put (sv_stats evicted);
          sv_next := S (sv_next evicted) |}.

Definition Sieve_Put (s : Sieve) (key : K) (value : V) : outcome Sieve :=
  match sv_store s !! key with
  | Some existingEntry =>
      Done {| sv_store := <[key := {| entry_key := entry_key existingEntry; entry_value := value;
                                      entry_visited := true;
                                      entry_element := entry_element existingEntry |}]> (sv_store s);
              sv_queue := sv_queue s; sv_hand := sv_hand s; sv_stats := sv_stats s;
              sv_next := sv_next s |}
  | None => Sieve_putEntry s key value
  end.

Definition Sieve_Get (s : Sieve) (key : K) : (V * bool) * Sieve :=
  match sv_store s !! key with
  | Some e =>
      ((entry_value e, true),
       {| sv_store := <[key := set_visited true e]> (sv_store s); sv_queue := sv_queue s;
          sv_hand := sv_hand s; sv_stats := Stats_Hit (sv_stats s); sv_next := sv_next s |})
  | None =>
      ((zero, false),
       {| sv_store := sv_store s; sv_queue := sv_queue s; sv_hand := sv_hand s;
          sv_stats := Stats_Miss (sv_stats s); sv_next := sv_next s |})
  end.

Definition Sieve_Delete (s : Sieve) (key : K) : Sieve :=
  match sv_store s !! key with
  | Some e =>
      let hand' :=
        match sv_hand s with
        | Some hand => if Nat.eqb (entry_element e) hand then Element_Prev (sv_queue s) hand else Some hand
        | None => None
        end in
      Sieve_removeEntry
        {| sv_store := sv_store s; sv_queue := sv_queue s; sv_hand := hand';
           sv_stats := sv_stats s; sv_next := sv_next s |} e
  | None => s
  end.

(** ** The queue *)

Lemma Element_Value_lookup (q : queue) i a k :
  NoDup q.*1 -> q !! i = Some (a, k) -> Element_Value q a = Some k.
Proof.
  revert i. induction q as [|[b l] q IH]; intros i Hnd Hi; [done|].
  rewrite fmap_cons in Hnd. apply NoDup_cons in Hnd as [Hb Hnd]. cbn [Element_Value].
  destruct i as [|i]; simplify_eq/=.
  - by rewrite Nat.eqb_refl.
  - rewrite (proj2 (Nat.eqb_neq _ _)); [by eapply IH|]. intros ->. apply Hb.
    apply list_elem_of_fmap. exists (a, k). split; [done|]. by eapply list_elem_of_lookup_2.
Qed.

(** [Prev] is the element before. *)
Lemma Element_Prev_lookup (q : queue) i a k :
  NoDup q.*1 -> q !! i = Some (a, k) ->
  Element_Prev q a = match i with O => None | S j => fst <$> q !! j end.
Proof.
  revert i. induction q as [|[b l] q IH]; intros i Hnd Hi; [done|].
  rewrite fmap_cons in Hnd. apply NoDup_cons in Hnd as [Hb Hnd]. cbn [Element_Prev].
  destruct q as [|[c m] q]; [destruct i as [|[|i]]; done|].
  destruct i as [|i]; simplify_eq/=.
  - assert (Hne : forall x, x ∈ ((c, m) :: q).*1 -> a <> x) by (intros x Hx ->; done).
    assert (Hnone : forall q', (forall x, x ∈ q'.*1 -> a <> x) -> Element_Prev q' a = None).
    { clear. induction q' as [|[b l] [|[c m] q'] IH]; intros Hne; [done|done|].
      cbn [Element_Prev]. rewrite (proj2 (Nat.eqb_neq _ _)).
      - apply IH. intros x Hx. apply Hne. rewrite fmap_cons. by right.
      - intros Heq. apply (Hne c); [by right; left|done]. }
    rewrite (proj2 (Nat.eqb_neq _ _)); [by apply (Hnone ((c, m) :: q))|].
    intros Heq. apply (Hne c); [by left|done].
  - destruct (Nat.eqb c a) eqn:Hc.
    + apply Nat.eqb_eq in Hc as ->. destruct i as [|i]; [done|]. exfalso.
      apply NoDup_cons in Hnd as [Hc _]. apply Hc.
      simpl in Hi. apply list_elem_of_fmap. exists (a, k). split; [done|]. by eapply list_elem_of_lookup_2.
    + rewrite (IH _ Hnd Hi). destruct i as [|i]; [|done].
      simpl in Hi. injection Hi as -> ->. by rewrite Nat.eqb_refl in Hc.
Qed.

(** ** The order of a sweep *)

(** From the hand towards the front, then from the back. *)
Definition sweep_start (q : queue) (hand : option element) : nat :=
  match hand with
  | None => 0
  | Some a => match list_find (fun p => p.1 = a) (reverse q) with Some (i, _) => i | None => 0 end
  end.
Definition sweep_order (q : queue) (hand : option element) : queue :=
  rotate (sweep_start q hand) (reverse q).

Lemma hand_back_reverse (q : queue) i a k :
  NoDup q.*1 -> reverse q !! i = Some (a, k) ->
  hand_back q a = fst <$> reverse q !! ((i + 1) mod length q).
Proof.
  intros Hnd Hi. pose proof (lookup_lt_Some _ _ _ Hi) as Hlt. rewrite length_reverse in Hlt.
  rewrite reverse_lookup in Hi by done. unfold hand_back.
  rewrite (Element_Prev_lookup _ _ _ _ Hnd Hi).
  destruct (length q - S i) as [|j] eqn:Hj.
  - replace (i + 1) with (length q) by lia. rewrite Nat.Div0.mod_same.
    rewrite reverse_lookup by lia. unfold List_Back. rewrite last_lookup.
    by replace (Init.Nat.pred (length q)) with (length q - 1) by lia.
  - rewrite Nat.mod_small by lia. rewrite reverse_lookup by lia.
    replace (length q - S (i + 1)) with j by lia.
    destruct (q !! j) as [b|] eqn:Hb; [done|]. apply lookup_ge_None in Hb. lia.
Qed.

Lemma lookup_sweep (q : queue) hand j :
  j < length q ->
  sweep_order q hand !! j = reverse q !! ((sweep_start q hand + j) mod length q).
Proof.
  intros Hj. unfold sweep_order. rewrite lookup_rotate_r by (by rewrite length_reverse).
  f_equal. unfold rotate_nat_add. rewrite length_reverse, <- Nat2Z.inj_add, <- Nat2Z.inj_mod.
  by rewrite Nat2Z.id.
Qed.

Lemma length_sweep (q : queue) hand : length (sweep_order q hand) = length q.
Proof. unfold sweep_order. by rewrite length_rotate, length_reverse. Qed.

Lemma sweep_Permutation (q : queue) hand : sweep_order q hand ≡ₚ q.
Proof.
  unfold sweep_order, rotate. rewrite Permutation_app_comm, take_drop. apply reverse_Permutation.
Qed.

(** Moving the hand back goes on to the next element of the sweep, and from the
    last one to the first. *)
Lemma hand_back_sweep (q : queue) hand j p :
  NoDup q.*1 -> sweep_order q hand !! j = Some p ->
  hand_back q p.1 = fst <$> sweep_order q hand !! ((j + 1) mod length q).
Proof.
  intros Hnd Hj. pose proof (lookup_lt_Some _ _ _ Hj) as Hlt. rewrite length_sweep in Hlt.
  destruct p as [a k]. rewrite lookup_sweep in Hj by done. cbn [fst].
  rewrite (hand_back_reverse _ _ _ _ Hnd Hj).
  rewrite lookup_sweep by (apply Nat.mod_upper_bound; lia).
  do 2 f_equal. rewrite Nat.Div0.add_mod_idemp_l, Nat.Div0.add_mod_idemp_r. f_equal. lia.
Qed.

(** ** The entry a sweep finds *)

Definition visited (store : gmap K entry) (k : K) : bool :=
  match store !! k with Some e => entry_visited e | None => false end.

Definition clear_flags (store : gmap K entry) (ps : queue) : gmap K entry :=
  foldl (fun st p => alter (set_visited false) p.2 st) store ps.

(** The first element that is not visited, or [first] when all are; and the
    elements passed on the way. *)
Fixpoint sweep (store : gmap K entry) (todo : queue) (first : element * K)
  : (element * K) * queue :=
  match todo with
  | [] => (first, [])
  | p :: todo' =>
      if visited store p.2
      then let '(v, passed) := sweep store todo' first in (v, p :: passed)
      else (p, [])
  end.

(** The store and the queue hold the same keys. *)
Record queue_inv (store : gmap K entry) (q : queue) : Prop := {
  qi_addr : NoDup q.*1;
  qi_store : forall k e, store !! k = Some e -> entry_key e = k /\ (entry_element e, k) ∈ q;
  qi_queue : forall a k, (a, k) ∈ q -> exists e, store !! k = Some e /\ entry_element e = a
}.

Lemma queue_inv_keys store q : queue_inv store q -> NoDup q.*2.
Proof.
  intros [Haddr _ Hq]. apply NoDup_fmap_2_strong.
  - intros [a k] [b l] Ha Hb Heq. simpl in Heq. subst l.
    destruct (Hq _ _ Ha) as (e & He & <-), (Hq _ _ Hb) as (e' & He' & <-). by simplify_eq.
  - by eapply NoDup_fmap_1.
Qed.

Lemma queue_inv_size store q : queue_inv store q -> size store = length q.
Proof.
  intros Hinv. rewrite <- size_dom.
  replace (dom store) with (list_to_set q.*2 : gset K).
  - rewrite size_list_to_set by by eapply queue_inv_keys. by rewrite length_fmap.
  - apply set_eq. intros k. rewrite elem_of_list_to_set, elem_of_dom, list_elem_of_fmap. split.
    + intros ([a k'] & -> & Hin). destruct (qi_queue _ _ Hinv _ _ Hin) as (e & He & _). by exists e.
    + intros [e He]. destruct (qi_store _ _ Hinv _ _ He) as [_ Hin]. by exists (entry_element e, k).
Qed.

(** Entries may change value and flag. *)
Lemma queue_inv_alter store q k f :
  (forall e, entry_key (f e) = entry_key e) -> (forall e, entry_element (f e) = entry_element e) ->
  queue_inv store q -> queue_inv (alter f k store) q.
Proof.
  intros Hkey Helt [Haddr Hs Hq]. split; [done| |].
  - intros k' e' He'. destruct (decide (k = k')) as [<-|Hne].
    + rewrite lookup_alter_eq in He'. apply fmap_Some in He' as (e & He & ->).
      rewrite Hkey, Helt. by apply Hs.
    + rewrite lookup_alter_ne in He' by done. by apply Hs.
  - intros a k' Hin. destruct (Hq _ _ Hin) as (e & He & <-). destruct (decide (k = k')) as [<-|Hne].
    + exists (f e). rewrite lookup_alter_eq, He. by rewrite Helt.
    + exists e. by rewrite lookup_alter_ne.
Qed.

Lemma queue_inv_clear store q ps : queue_inv store q -> queue_inv (clear_flags store ps) q.
Proof.
  unfold clear_flags. revert store. induction ps as [|p ps IH]; intros store Hinv; [done|].
  cbn [foldl]. apply IH, queue_inv_alter; done.
Qed.

Lemma sweep_alter store todo first k f : k ∉ todo.*2 ->
  sweep (alter f k store) todo first = sweep store todo first.
Proof.
  induction todo as [|p todo IH]; intros Hk; [done|]. rewrite fmap_cons, not_elem_of_cons in Hk.
  destruct Hk as [Hne Hk]. cbn [sweep]. rewrite (IH Hk). unfold visited.
  by rewrite lookup_alter_ne.
Qed.

Section one_sweep.
Context (q : queue) (hand : option element) (first : element * K).
Context (Hnd : NoDup q.*1) (Hfirst : head (sweep_order q hand) = Some first).

Lemma sweep_next don p todo :
  sweep_order q hand = don ++ p :: todo ->
  hand_back q p.1 = Some (default first (head todo)).1 /\ default first (head todo) ∈ q.
Proof using Hnd Hfirst.
  intros Hord. assert (Hp : sweep_order q hand !! length don = Some p)
    by (rewrite Hord; apply list_lookup_middle; done).
  assert (Hnext : sweep_order q hand !! ((length don + 1) mod length q) =
                  Some (default first (head todo))).
  { pose proof (length_sweep q hand) as Hlen. rewrite Hord, length_app in Hlen. simpl in Hlen.
    destruct todo as [|p' todo]; simpl in *.
    - replace (length don + 1) with (length q) by lia. rewrite Nat.Div0.mod_same.
      by destruct (sweep_order q hand); simplify_eq/=.
    - rewrite Nat.mod_small by lia. rewrite Hord, lookup_app_r by lia.
      by replace (length don + 1 - length don) with 1 by lia. }
  split.
  - by rewrite (hand_back_sweep _ _ _ _ Hnd Hp), Hnext.
  - rewrite <- (sweep_Permutation q hand). by eapply list_elem_of_lookup_2.
Qed.

Lemma sweep_keys store don p todo :
  queue_inv store q -> sweep_order q hand = don ++ p :: todo -> p.2 ∉ don.*2 /\ p.2 ∉ todo.*2.
Proof using Type.
  intros Hinv Hord. pose proof (queue_inv_keys _ _ Hinv) as Hk.
  rewrite <- (sweep_Permutation q hand), Hord, fmap_app, fmap_cons in Hk.
  apply NoDup_app in Hk as (_ & Hd & Hk). apply NoDup_cons in Hk as [Hk _].
  split; [|done]. intros Hin'. apply (Hd _ Hin'). by left.
Qed.

Lemma insert_clear (store : gmap K entry) k e :
  store !! k = Some e -> entry_key e = k ->
  <[entry_key e := set_visited false e]> store = alter (set_visited false) k store.
Proof using Type.
  intros He Hkey. rewrite Hkey. apply map_eq. intros k'. destruct (decide (k' = k)) as [->|Hne].
  - by rewrite lookup_insert_eq, lookup_alter_eq, He.
  - by rewrite lookup_insert_ne, lookup_alter_ne by done.
Qed.

(** One turn of the loop on a visited entry. *)
Lemma evict_step_visited don p todo store e :
  queue_inv store q -> sweep_order q hand = don ++ p :: todo ->
  store !! p.2 = Some e -> entry_visited e = true ->
  exists e', alter (set_visited false) p.2 store !! (default first (head todo)).2 = Some e' /\
    evict_step q (p.1, e, store) =
    inl ((default first (head todo)).1, e', alter (set_visited false) p.2 store).
Proof using Hnd Hfirst.
  intros Hinv Hord He Hvis. destruct (sweep_next _ _ _ Hord) as [Hback Hin].
  assert (Hinv' : queue_inv (alter (set_visited false) p.2 store) q) by by apply queue_inv_alter.
  unfold evict_step. rewrite Hvis, Hback.
  rewrite (insert_clear _ _ _ He (proj1 (qi_store _ _ Hinv _ _ He))).
  destruct (default first (head todo)) as [a k]. cbn [fst snd].
  destruct (qi_queue _ _ Hinv' _ _ Hin) as (e' & He' & _). exists e'. split; [done|].
  apply list_elem_of_lookup_1 in Hin as [i Hi]. unfold hand_entry.
  rewrite (Element_Value_lookup _ _ _ _ Hnd Hi). cbn [mbind option_bind]. by rewrite He'.
Qed.

(** The loop of [evict] ends at the entry the sweep finds. *)
Lemma evict_loop todo don store fuel e :
  queue_inv store q -> sweep_order q hand = don ++ todo ->
  (forall p, p ∈ don -> visited store p.2 = false) ->
  length todo < fuel ->
  store !! (default first (head todo)).2 = Some e ->
  exists e', clear_flags store (sweep store todo first).2 !! (sweep store todo first).1.2 = Some e' /\
    iterate fuel (evict_step q) ((default first (head todo)).1, e, store) =
    Some (Done ((sweep store todo first).1.1, e', clear_flags store (sweep store todo first).2)).
Proof using Hnd Hfirst.
  revert don store fuel e. induction todo as [|p todo IH];
    intros don store fuel e Hinv Hord Hdone Hfuel He; (destruct fuel as [|fuel]; [simpl in Hfuel; lia|]).
  - rewrite app_nil_r in Hord. simpl in *.
    assert (Hvis : entry_visited e = false).
    { specialize (Hdone first). unfold visited in Hdone. rewrite He in Hdone. apply Hdone.
      rewrite <- Hord. destruct (sweep_order q hand); simplify_eq/=. by left. }
    exists e. rewrite Hvis. done.
  - cbn [head default from_option id] in He |- *. cbn [sweep iterate].
    assert (Hv : visited store p.2 = entry_visited e) by (unfold visited; by rewrite He).
    rewrite Hv. destruct (entry_visited e) eqn:Hvis; [|exists e; cbn; by rewrite Hvis].
    destruct (evict_step_visited _ _ _ _ _ Hinv Hord He Hvis) as (en & Hen & ->).
    destruct (sweep_keys _ _ _ _ Hinv Hord) as [Hkd Hkt].
    destruct (IH (don ++ [p]) (alter (set_visited false) p.2 store) fuel en) as (e' & He' & Hloop).
    + by apply queue_inv_alter.
    + by rewrite <- app_assoc.
    + intros x [Hx|Hx%list_elem_of_singleton]%elem_of_app; unfold visited.
      * rewrite lookup_alter_ne; [by apply Hdone|].
        intros Heq. apply Hkd. rewrite Heq. by apply list_elem_of_fmap_2.
      * subst x. by rewrite lookup_alter_eq, He.
    + simpl in Hfuel. lia.
    + done.
    + rewrite sweep_alter in He', Hloop by done.
      destruct (sweep store todo first) as [v passed]. by exists e'.
Qed.
End one_sweep.

(** ** The invariant of the cache *)

Record sieve_inv (s : Sieve) : Prop := {
  si_queue : queue_inv (sv_store s) (sv_queue s);
  si_hand : forall a, sv_hand s = Some a -> a ∈ (sv_queue s).*1;
  si_fresh : forall a, a ∈ (sv_queue s).*1 -> a < sv_next s;
  si_size : stats_size (sv_stats s) = Z.of_nat (length (sv_queue s));
  si_bound : (Z.of_nat (length (sv_queue s)) <= stats_Capacity (sv_stats s))%Z;
  si_capacity : (1 <= stats_Capacity (sv_stats s) < 2 ^ 63)%Z
}.

Lemma wrap_int64_small z : (- 2 ^ 63 <= z < 2 ^ 63)%Z -> wrap_int64 z = z.
Proof. intros Hz. unfold wrap_int64, two64. rewrite Z.mod_small by lia. lia. Qed.

Lemma sweep_head q hand :
  q <> [] -> (forall a, hand = Some a -> a ∈ q.*1) ->
  exists p, head (sweep_order q hand) = Some p /\
    match hand with Some h => Some h | None => List_Back q end = Some p.1.
Proof.
  intros Hq Hhand. assert (Hlen : 0 < length q) by (destruct q; simpl; [done|lia]).
  rewrite head_lookup, lookup_sweep, Nat.add_0_r by done. unfold sweep_start.
  destruct hand as [a|].
  - destruct (list_find (fun p => p.1 = a) (reverse q)) as [[i p]|] eqn:Hf.
    + apply list_find_Some in Hf as (Hi & <- & _). exists p. split; [|done].
      pose proof (lookup_lt_Some _ _ _ Hi) as Hlt. rewrite length_reverse in Hlt.
      by rewrite Nat.mod_small.
    + exfalso. specialize (Hhand a eq_refl). apply list_elem_of_fmap in Hhand as (p & -> & Hp).
      rewrite list_find_None, Forall_forall in Hf. apply (Hf p); [by apply elem_of_reverse|done].
  - rewrite Nat.Div0.mod_0_l. destruct q as [|p q _] using rev_ind; [done|].
    exists p. unfold List_Back. by rewrite reverse_snoc, last_snoc.
Qed.

Lemma sweep_found store todo first : (sweep store todo first).1 ∈ first :: todo.
Proof.
  induction todo as [|p todo IH]; [by left|]. cbn [sweep].
  destruct (visited store p.2); [|by right; left].
  destruct (sweep store todo first) as [v passed]. cbn [fst] in *.
  apply elem_of_cons in IH as [->|IH]; [by left|by right; right].
Qed.

Lemma Sieve_evict_sweep s : sieve_inv s -> sv_queue s <> [] ->
  exists first, head (sweep_order (sv_queue s) (sv_hand s)) = Some first /\
  let '(v, passed) := sweep (sv_store s) (sweep_order (sv_queue s) (sv_hand s)) first in
  v ∈ sv_queue s /\
  Sieve_evict s = Done
    {| sv_store := delete v.2 (clear_flags (sv_store s) passed);
       sv_queue := List_Remove (sv_queue s) v.1;
       sv_hand := Element_Prev (sv_queue s) v.1;
       sv_stats := Stats_Delete (sv_stats s);
       sv_next := sv_next s |}.
Proof.
  intros [Hinv Hhand _ _ _ _] Hq. destruct (sweep_head _ _ Hq Hhand) as (first & Hfirst & Hstart).
  exists first. split; [done|]. pose proof (qi_addr _ _ Hinv) as Hnd.
  assert (Hd : default first (head (sweep_order (sv_queue s) (sv_hand s))) = first) by by rewrite Hfirst.
  assert (Hin : first ∈ sv_queue s).
  { rewrite <- (sweep_Permutation _ (sv_hand s)). apply head_Some_elem_of in Hfirst. done. }
  destruct first as [a k]. destruct (qi_queue _ _ Hinv _ _ Hin) as (e & He & _).
  destruct (evict_loop _ _ _ Hnd Hfirst (sweep_order (sv_queue s) (sv_hand s)) [] (sv_store s)
              (S (S (length (sv_queue s)))) e) as (e' & He' & Hloop).
  - done.
  - done.
  - by intros p ?%elem_of_nil.
  - rewrite length_sweep. lia.
  - by rewrite Hd.
  - rewrite Hd in Hloop. unfold Sieve_evict. rewrite Hstart. cbn [mbind option_bind fst].
    apply list_elem_of_lookup_1 in Hin as [i Hi]. unfold hand_entry.
    rewrite (Element_Value_lookup _ _ _ _ Hnd Hi). cbn [mbind option_bind]. rewrite He.
    cbn [mbind option_bind fst] in *. rewrite Hloop.
    pose proof (sweep_found (sv_store s) (sweep_order (sv_queue s) (sv_hand s)) (a, k)) as Hv.
    destruct (sweep (sv_store s) (sweep_order (sv_queue s) (sv_hand s)) (a, k)) as [[b l] passed].
    cbn [fst snd] in *. pose proof (queue_inv_clear _ _ passed Hinv) as Hinv'.
    assert (Hvq : (b, l) ∈ sv_queue s).
    { rewrite sweep_Permutation in Hv. apply elem_of_cons in Hv as [Hv|Hv]; [|done].
      rewrite Hv. by eapply list_elem_of_lookup_2. }
    split; [done|]. unfold Sieve_removeEntry. cbn [sv_store sv_queue sv_hand sv_stats sv_next].
    destruct (qi_store _ _ Hinv' _ _ He') as [-> _].
    destruct (qi_queue _ _ Hinv' _ _ Hvq) as (e'' & He'' & <-). by simplify_eq.
Qed.

Lemma queue_inv_remove store q a k : queue_inv store q -> (a, k) ∈ q ->
  queue_inv (delete k store) (List_Remove q a) /\ S (length (List_Remove q a)) = length q.
Proof.
  intros Hinv Hin. destruct (qi_queue _ _ Hinv _ _ Hin) as (e & He & Ha).
  assert (Haddr : forall b l l', (b, l) ∈ q -> (b, l') ∈ q -> l = l').
  { intros b l l' [i Hi]%list_elem_of_lookup_1 [j Hj]%list_elem_of_lookup_1.
    apply (Element_Value_lookup _ _ _ _ (qi_addr _ _ Hinv)) in Hi, Hj. congruence. }
  assert (Hkeep : forall b l, (b, l) ∈ List_Remove q a <-> (b, l) ∈ q /\ l <> k).
  { intros b l. unfold List_Remove. rewrite list_elem_of_filter. simpl. split.
    - intros [Hne Hb]. split; [done|]. intros ->.
      destruct (qi_queue _ _ Hinv _ _ Hb) as (e' & He' & Hb'). simplify_eq.
    - intros [Hb Hne]. split; [|done]. intros ->. apply Hne.
      by eapply Haddr. }
  assert (Hinv' : queue_inv (delete k store) (List_Remove q a)).
  { split.
    - apply NoDup_fmap_2_strong; [|eapply NoDup_filter, NoDup_fmap_1, (qi_addr _ _ Hinv)].
      intros [b l] [b' l'] [Hb _]%Hkeep [Hb' _]%Hkeep Heq. simpl in Heq. subst b'.
      f_equal. by eapply Haddr.
    - intros l e' [Hne He']%lookup_delete_Some. destruct (qi_store _ _ Hinv _ _ He') as [Hk Hq].
      split; [done|]. by apply Hkeep.
    - intros b l [Hb Hne]%Hkeep. destruct (qi_queue _ _ Hinv _ _ Hb) as (e' & He' & Hb').
      exists e'. by rewrite lookup_delete_ne by done. }
  split; [done|]. rewrite <- (queue_inv_size _ _ Hinv'), <- (queue_inv_size _ _ Hinv).
  rewrite map_size_delete_Some by (by exists e).
  assert (size store <> 0) by (apply map_size_ne_0_lookup; exists k; by exists e). lia.
Qed.

Lemma Element_Prev_remove q a k b :
  NoDup q.*1 -> (a, k) ∈ q -> Element_Prev q a = Some b -> b ∈ (List_Remove q a).*1.
Proof.
  intros Hnd [i Hi]%list_elem_of_lookup_1 Hprev. rewrite (Element_Prev_lookup _ _ _ _ Hnd Hi) in Hprev.
  destruct i as [|j]; [done|]. apply fmap_Some in Hprev as ([b' l] & Hj & ->).
  apply list_elem_of_fmap. exists (b', l). split; [done|]. apply list_elem_of_filter.
  split; [|by eapply list_elem_of_lookup_2]. simpl. intros ->.
  enough (j = S j) by lia. eapply (NoDup_lookup q.*1 j (S j) a); [done| |]; rewrite list_lookup_fmap.
  - by rewrite Hj.
  - by rewrite Hi.
Qed.

(** Removing an entry and moving the hand off it keep the invariant. *)
Lemma sieve_inv_remove store q hand stats next a k :
  queue_inv store q -> (a, k) ∈ q -> (forall b, hand = Some b -> b ∈ (List_Remove q a).*1) ->
  (forall b, b ∈ q.*1 -> b < next) ->
  stats_size stats = Z.of_nat (length q) ->
  (Z.of_nat (length q) <= stats_Capacity stats)%Z -> (1 <= stats_Capacity stats < 2 ^ 63)%Z ->
  sieve_inv {| sv_store := delete k store; sv_queue := List_Remove q a; sv_hand := hand;
               sv_stats := Stats_Delete stats; sv_next := next |}.
Proof.
  intros Hinv Hin Hhand Hfresh Hsize Hbound Hcap.
  destruct (queue_inv_remove _ _ _ _ Hinv Hin) as [Hinv' Hlen].
  split; cbn; [done|done| | |lia|done].
  - intros b (p & -> & [_ Hp]%list_elem_of_filter)%list_elem_of_fmap.
    apply Hfresh. by apply list_elem_of_fmap_2.
  - rewrite wrap_int64_small; lia.
Qed.

Lemma Sieve_evict_inv s s' : sieve_inv s -> Sieve_evict s = Done s' -> sv_queue s <> [] ->
  sieve_inv s' /\ S (length (sv_queue s')) = length (sv_queue s).
Proof.
  intros Hinv He Hq. destruct (Sieve_evict_sweep _ Hinv Hq) as (first & _ & Hsw).
  destruct (sweep _ _ _) as [[a k] passed]. destruct Hsw as [Hin Heq].
  rewrite Heq in He. injection He as <-. destruct Hinv as [Hqi Hhand Hfresh Hsize Hbound Hcap].
  pose proof (queue_inv_clear _ _ passed Hqi) as Hqi'. cbn [fst snd].
  split; [|by apply (queue_inv_remove _ _ _ _ Hqi' Hin)].
  apply sieve_inv_remove; try done. intros b. apply (Element_Prev_remove _ _ k); [apply Hqi|done].
Qed.

(** ** What each method does to the contents *)

Definition Sieve_contents (s : Sieve) : gmap K V := entry_value <$> sv_store s.

Lemma contents_alter (store : gmap K entry) k f : (forall e, entry_value (f e) = entry_value e) ->
  entry_value <$> alter f k store = entry_value <$> store.
Proof.
  intros Hf. apply map_eq. intros l. rewrite !lookup_fmap. destruct (decide (k = l)) as [<-|Hne].
  - rewrite lookup_alter_eq. destruct (store !! k); [|done]. simpl. by rewrite Hf.
  - by rewrite lookup_alter_ne.
Qed.

Lemma contents_clear (store : gmap K entry) ps : entry_value <$> clear_flags store ps = entry_value <$> store.
Proof.
  unfold clear_flags. revert store. induction ps as [|p ps IH]; intros store; [done|].
  cbn [foldl]. rewrite IH. by apply contents_alter.
Qed.

Lemma contents_lookup s k : Sieve_contents s !! k = entry_value <$> sv_store s !! k.
Proof. apply lookup_fmap. Qed.

Lemma contents_size s : sieve_inv s -> size (Sieve_contents s) = length (sv_queue s).
Proof. intros Hinv. unfold Sieve_contents. rewrite map_size_fmap. apply queue_inv_size, Hinv. Qed.

(** A new key at the front. *)
Lemma sieve_inv_push s k v :
  sieve_inv s -> sv_store s !! k = None ->
  (Z.of_nat (length (sv_queue s)) < stats_Capacity (sv_stats s))%Z ->
  sieve_inv {| sv_store := <[k := {| entry_key := k; entry_value := v; entry_visited := false;
                                     entry_element := sv_next s |}]> (sv_store s);
               sv_queue := (sv_next s, k) :: sv_queue s; sv_hand := sv_hand s;
               sv_stats := Stats_Put (sv_stats s); sv_next := S (sv_next s) |}.
Proof.
  intros [[Haddr Hs Hq] Hhand Hfresh Hsize Hbound Hcap] Hk Hroom. split; cbn.
  - split.
    + rewrite fmap_cons. constructor; [|done]. intros Hin%Hfresh. simpl in Hin. lia.
    + intros l e [[<- <-]|[Hne He]]%lookup_insert_Some; [split; [done|by left]|].
      destruct (Hs _ _ He). split; [done|by right].
    + intros a l [[= -> ->]|Hin]%elem_of_cons; [eexists; by rewrite lookup_insert_eq|].
      destruct (Hq _ _ Hin) as (e & He & Ha). exists e. rewrite lookup_insert_ne; [done|].
      intros <-. congruence.
  - intros a Ha. right. by apply Hhand.
  - intros a [->|Ha]%elem_of_cons; [lia|]. apply Hfresh in Ha. lia.
  - rewrite wrap_int64_small; lia.
  - lia.
  - done.
Qed.

Lemma sieve_inv_update s k e e' :
  sieve_inv s -> sv_store s !! k = Some e -> entry_key e' = entry_key e ->
  entry_element e' = entry_element e ->
  forall stats, stats_size stats = stats_size (sv_stats s) ->
  stats_Capacity stats = stats_Capacity (sv_stats s) ->
  sieve_inv {| sv_store := <[k := e']> (sv_store s); sv_queue := sv_queue s; sv_hand := sv_hand s;
               sv_stats := stats; sv_next := sv_next s |}.
Proof.
  intros [[Haddr Hs Hq] Hhand Hfresh Hsize Hbound Hcap] He Hkey Helt stats Hst Hc.
  split; cbn; rewrite ?Hst, ?Hc; try done. split; [done| |].
  - intros l x [[<- <-]|[Hne Hx]]%lookup_insert_Some; [|by apply Hs].
    rewrite Hkey, Helt. by apply Hs.
  - intros a l Hin. destruct (Hq _ _ Hin) as (x & Hx & Ha). destruct (decide (k = l)) as [<-|Hne].
    + exists e'. rewrite lookup_insert_eq. split; [done|]. congruence.
    + exists x. by rewrite lookup_insert_ne.
Qed.

(** ** The Cache interface

    The methods of [Cache[K, V]], and the promise: the contents are a map that
    the calls update as a bounded map, with [overflow] saying what a [Put] of a
    new key may do when the map is full; the size counter is the number of keys. *)

Inductive cache_op : Type :=
| CachePut (key : K) (value : V)
| CacheGet (key : K)
| CacheDelete (key : K).

Class Cache (C : Type) := {
  cache_Put : C -> K -> V -> outcome C;
  cache_Get : C -> K -> (V * bool) * C;
  cache_Delete : C -> K -> C;
  cache_Stats : C -> Stats
}.

Definition overflow_policy : Type := gmap K V -> K -> V -> gmap K V -> Prop.

Inductive cache_step (capacity : Z) (overflow : overflow_policy) (m : gmap K V)
  : cache_op -> option (V * bool) -> gmap K V -> Prop :=
| step_update k v w : m !! k = Some w ->
    cache_step capacity overflow m (CachePut k v) None (<[k := v]> m)
| step_insert k v : m !! k = None -> (Z.of_nat (size m) < capacity)%Z ->
    cache_step capacity overflow m (CachePut k v) None (<[k := v]> m)
| step_overflow k v m' : m !! k = None -> (capacity <= Z.of_nat (size m))%Z -> overflow m k v m' ->
    cache_step capacity overflow m (CachePut k v) None m'
| step_hit k v : m !! k = Some v -> cache_step capacity overflow m (CacheGet k) (Some (v, true)) m
| step_miss k : m !! k = None -> cache_step capacity overflow m (CacheGet k) (Some (zero, false)) m
| step_delete k : cache_step capacity overflow m (CacheDelete k) None (delete k m).

Inductive cache_steps (capacity : Z) (overflow : overflow_policy)
  : gmap K V -> list cache_op -> list (option (V * bool)) -> gmap K V -> Prop :=
| steps_nil m : cache_steps capacity overflow m [] [] m
| steps_cons m op r m' ops rs m'' :
    cache_step capacity overflow m op r m' -> cache_steps capacity overflow m' ops rs m'' ->
    cache_steps capacity overflow m (op :: ops) (r :: rs) m''.

Section interface.
Context {C : Type} `{Cache C}.

Definition cache_do (c : C) (op : cache_op) : outcome (option (V * bool) * C) :=
  match op with
  | CachePut k v => c' ← cache_Put c k v; Done (None, c')
  | CacheGet k => let '(r, c') := cache_Get c k in Done (Some r, c')
  | CacheDelete k => Done (None, cache_Delete c k)
  end.

Fixpoint cache_run (c : C) (ops : list cache_op) : outcome (list (option (V * bool)) * C) :=
  match ops with
  | [] => Done ([], c)
  | op :: ops' =>
      '(r, c') ← cache_do c op;
      '(rs, c'') ← cache_run c' ops';
      Done (r :: rs, c'')
  end.

Class LawfulCache (overflow : overflow_policy) := {
  cache_inv : C -> Prop;
  cache_contents : C -> gmap K V;
  cache_size : forall c, cache_inv c -> stats_size (cache_Stats c) = Z.of_nat (size (cache_contents c));
  cache_bound : forall c, cache_inv c ->
    (Z.of_nat (size (cache_contents c)) <= Z.max 0 (stats_Capacity (cache_Stats c)))%Z;
  cache_law : forall c op, cache_inv c -> exists r c',
    cache_do c op = Done (r, c') /\ cache_inv c' /\
    stats_Capacity (cache_Stats c') = stats_Capacity (cache_Stats c) /\
    cache_step (stats_Capacity (cache_Stats c)) overflow (cache_contents c) op r (cache_contents c')
}.

Lemma cache_run_law overflow `{!LawfulCache overflow} c ops : cache_inv c ->
  exists rs c', cache_run c ops = Done (rs, c') /\ cache_inv c' /\
    stats_Capacity (cache_Stats c') = stats_Capacity (cache_Stats c) /\
    cache_steps (stats_Capacity (cache_Stats c)) overflow (cache_contents c) ops rs (cache_contents c').
Proof.
  revert c. induction ops as [|op ops IH]; intros c Hc.
  - exists [], c. split_and!; [done|done|done|constructor].
  - destruct (cache_law c op Hc) as (r & c1 & Hdo & Hc1 & Hcap1 & Hstep).
    destruct (IH c1 Hc1) as (rs & c2 & Hrun & Hc2 & Hcap2 & Hsteps).
    exists (r :: rs), c2. cbn [cache_run]. rewrite Hdo. cbn [mbind outcome_bind]. rewrite Hrun.
    cbn [mbind outcome_bind]. split_and!; [done|done|congruence|].
    econstructor; [done|]. by rewrite <- Hcap1.
Qed.
End interface.

(** ** The SIEVE cache keeps the promise: one key makes room for the new one *)

#[export] Instance Sieve_Cache : Cache Sieve := {
  cache_Put := Sieve_Put;
  cache_Get := Sieve_Get;
  cache_Delete := Sieve_Delete;
  cache_Stats := sv_stats
}.

Definition evicts_one : overflow_policy := fun m k v m' =>
  exists k' w, m !! k' = Some w /\ m' = <[k := v]> (delete k' m).

(** [Put] of a new key into a full cache. *)
Lemma Sieve_Put_full s k v : sieve_inv s -> sv_store s !! k = None ->
  (stats_Capacity (sv_stats s) <= Z.of_nat (length (sv_queue s)))%Z ->
  exists first s', head (sweep_order (sv_queue s) (sv_hand s)) = Some first /\
    Sieve_Put s k v = Done s' /\ sieve_inv s' /\
    let '(victim, passed) := sweep (sv_store s) (sweep_order (sv_queue s) (sv_hand s)) first in
    victim ∈ sv_queue s /\
    sv_store s' = <[k := {| entry_key := k; entry_value := v; entry_visited := false;
                            entry_element := sv_next s |}]>
                  (delete victim.2 (clear_flags (sv_store s) passed)) /\
    sv_hand s' = Element_Prev (sv_queue s) victim.1 /\
    sv_stats s' = Stats_Put (Stats_Delete (sv_stats s)).
Proof.
  intros Hinv Hk Hfull.
  assert (Hq : sv_queue s <> []).
  { intros Heq. rewrite Heq in Hfull. pose proof (si_capacity _ Hinv). simpl in Hfull. lia. }
  destruct (Sieve_evict_sweep _ Hinv Hq) as (first & Hfirst & Hsw). exists first.
  destruct (sweep _ _ _) as [victim passed]. destruct Hsw as [Hin Hev].
  destruct (Sieve_evict_inv _ _ Hinv Hev Hq) as [Hinv' Hlen].
  eexists. split; [done|]. unfold Sieve_Put, Sieve_putEntry. rewrite Hk.
  rewrite (proj2 (Z.leb_le _ _)) by done. rewrite Hev. cbn [mbind outcome_bind]. split; [done|].
  split; [|split; [done|]; done].
  apply (sieve_inv_push _ k v) in Hinv'; [exact Hinv'| |].
  - cbn. rewrite lookup_delete_None. right. apply eq_None_not_Some. intros [e He].
    destruct (qi_store _ _ (queue_inv_clear _ _ passed (si_queue _ Hinv)) _ _ He) as [_ Hke].
    destruct (qi_queue _ _ (si_queue _ Hinv) _ _ Hke) as (x & Hx & _). congruence.
  - pose proof (si_bound _ Hinv). cbn in *. lia.
Qed.

Lemma Sieve_Put_law s k v : sieve_inv s -> exists s',
  Sieve_Put s k v = Done s' /\ sieve_inv s' /\
  stats_Capacity (sv_stats s') = stats_Capacity (sv_stats s) /\
  cache_step (stats_Capacity (sv_stats s)) evicts_one (Sieve_contents s) (CachePut k v) None
    (Sieve_contents s').
Proof.
  intros Hinv. destruct (sv_store s !! k) as [e|] eqn:He.
  - unfold Sieve_Put. rewrite He. eexists. split; [done|]. split; [|split; [done|]].
    + by apply (sieve_inv_update s k e).
    + unfold Sieve_contents. cbn [sv_store]. rewrite fmap_insert. cbn [entry_value].
      apply (step_update _ _ _ _ _ (entry_value e)). by rewrite lookup_fmap, He.
  - assert (Hnone : Sieve_contents s !! k = None) by by rewrite contents_lookup, He.
    destruct (Z.le_gt_cases (stats_Capacity (sv_stats s)) (Z.of_nat (length (sv_queue s)))) as [Hle|Hgt].
    + destruct (Sieve_Put_full _ k v Hinv He Hle) as (first & s' & _ & Hput & Hinv' & Hsw).
      destruct (sweep _ _ _) as [victim passed]. destruct Hsw as (Hin & Hst & _ & Hstats).
      exists s'. split_and!; [done|done|by rewrite Hstats|].
      apply step_overflow; [done|by rewrite contents_size|].
      destruct victim as [a k']. destruct (qi_queue _ _ (si_queue _ Hinv) _ _ Hin) as (x & Hx & _).
      exists k', (entry_value x). split; [by rewrite contents_lookup, Hx|].
      unfold Sieve_contents. rewrite Hst, fmap_insert, fmap_delete, contents_clear. done.
    + unfold Sieve_Put, Sieve_putEntry. rewrite He. rewrite (proj2 (Z.leb_gt _ _)) by done.
      cbn [mbind outcome_bind]. eexists. split; [done|]. split; [by apply sieve_inv_push|].
      split; [done|]. unfold Sieve_contents at 2. cbn [sv_store]. rewrite fmap_insert.
      apply (step_insert _ _ (Sieve_contents s)); [done|]. by rewrite contents_size.
Qed.

Lemma Sieve_Delete_inv s k : sieve_inv s -> sieve_inv (Sieve_Delete s k).
Proof.
  intros Hinv. unfold Sieve_Delete. destruct (sv_store s !! k) as [e|] eqn:He; [|done].
  destruct Hinv as [Hqi Hhand Hfresh Hsize Hbound Hcap].
  destruct (qi_store _ _ Hqi _ _ He) as [<- Hin].
  apply sieve_inv_remove; try done. cbn [sv_queue].
  intros b. destruct (sv_hand s) as [h|]; [|done].
  destruct (Nat.eqb (entry_element e) h) eqn:Heq.
  - apply Nat.eqb_eq in Heq as <-. apply (Element_Prev_remove _ _ (entry_key e)); [apply Hqi|done].
  - intros [= <-]. apply Nat.eqb_neq in Heq. specialize (Hhand h eq_refl).
    apply list_elem_of_fmap in Hhand as (p & -> & Hp). apply list_elem_of_fmap_2.
    apply list_elem_of_filter. split; [congruence|done].
Qed.

Lemma Sieve_Delete_contents s k : sieve_inv s -> Sieve_contents (Sieve_Delete s k) = delete k (Sieve_contents s).
Proof.
  intros Hinv. unfold Sieve_Delete. destruct (sv_store s !! k) as [e|] eqn:He.
  - destruct (qi_store _ _ (si_queue _ Hinv) _ _ He) as [Hkey _].
    unfold Sieve_contents, Sieve_removeEntry. cbn [sv_store]. by rewrite fmap_delete, Hkey.
  - symmetry. apply delete_id. by rewrite contents_lookup, He.
Qed.

Lemma Sieve_Get_law s k : sieve_inv s -> exists s',
  Sieve_Get s k = (match Sieve_contents s !! k with Some v => (v, true) | None => (zero, false) end, s') /\
  sieve_inv s' /\ stats_Capacity (sv_stats s') = stats_Capacity (sv_stats s) /\
  Sieve_contents s' = Sieve_contents s.
Proof.
  intros Hinv. unfold Sieve_Get. rewrite contents_lookup. destruct (sv_store s !! k) as [e|] eqn:He.
  - eexists. split; [done|]. split; [by eapply sieve_inv_update|]. split; [done|].
    unfold Sieve_contents. cbn [sv_store]. rewrite fmap_insert. apply insert_id. by rewrite lookup_fmap, He.
  - eexists. split; [done|]. by split; [destruct Hinv|].
Qed.

(** A [Put] leaves only the new pair and old ones. *)
Lemma evicts_one_entries capacity m k v r m' k' w :
  cache_step capacity evicts_one m (CachePut k v) r m' -> m' !! k' = Some w ->
  k' = k /\ w = v \/ m !! k' = Some w.
Proof.
  intros Hstep Hk'. inversion Hstep as [? ? x Hx|? ? Hx Hlt|? ? ? Hx Hle Hov| | |]; subst.
  - apply lookup_insert_Some in Hk' as [[-> ->]|[_ ?]]; auto.
  - apply lookup_insert_Some in Hk' as [[-> ->]|[_ ?]]; auto.
  - destruct Hov as (l & u & Hl & ->).
    apply lookup_insert_Some in Hk' as [[-> ->]|[_ [_ ?]%lookup_delete_Some]]; auto.
Qed.

#[export, refine] Instance Sieve_lawful : LawfulCache (C := Sieve) evicts_one := {
  cache_inv := sieve_inv;
  cache_contents := Sieve_contents
}.
Proof.
  - intros s Hinv. rewrite contents_size by done. apply Hinv.
  - intros s Hinv. rewrite contents_size by done. pose proof (si_bound _ Hinv). cbn. lia.
  - intros s [k v|k|k] Hinv; cbn.
    + destruct (Sieve_Put_law s k v Hinv) as (s' & -> & Hinv' & Hcap & Hstep). by exists None, s'.
    + destruct (Sieve_Get_law s k Hinv) as (s' & -> & Hinv' & Hcap & Heq).
      eexists _, s'. split; [done|]. rewrite Heq. split_and!; [done|done|].
      destruct (Sieve_contents s !! k) eqn:Hk; by constructor.
    + eexists _, _. split; [done|]. split; [by apply Sieve_Delete_inv|]. split.
      * unfold Sieve_Delete. by destruct (sv_store s !! k).
      * rewrite Sieve_Delete_contents by done. constructor.
Defined.

(** ** The non-expiring cache keeps the promise: a new key is turned away *)

#[export] Instance NonExpiringMapCache_Cache : Cache NonExpiringMapCache := {
  cache_Put s k v := Done (NonExpiringMapCache_Put s k v);
  cache_Get := NonExpiringMapCache_Get;
  cache_Delete := NonExpiringMapCache_Delete;
  cache_Stats := ne_stats
}.

Definition rejects : overflow_policy := fun m _ _ m' => m' = m.

Record ne_inv (s : NonExpiringMapCache) : Prop := {
  ni_size : stats_size (ne_stats s) = Z.of_nat (size (ne_store s));
  ni_bound : (Z.of_nat (size (ne_store s)) <= Z.max 0 (stats_Capacity (ne_stats s)))%Z;
  ni_capacity : (stats_Capacity (ne_stats s) < 2 ^ 63)%Z
}.

#[export, refine] Instance NonExpiringMapCache_lawful : LawfulCache (C := NonExpiringMapCache) rejects := {
  cache_inv := ne_inv;
  cache_contents := ne_store
}.
Proof.
  - intros s Hinv. apply Hinv.
  - intros s Hinv. apply Hinv.
  - intros s [k v|k|k] [Hsize Hbound Hcap]; cbn.
    + eexists _, _; split; [done|]. unfold NonExpiringMapCache_Put. destruct (ne_store s !! k) as [w|] eqn:Hk.
      * split; [|split; [done|by eapply step_update]].
        split; cbn [ne_store ne_stats Stats_Put Stats_Delete stats_size stats_Capacity];
          rewrite ?map_size_insert_Some by (by exists w); done.
      * rewrite Hsize. destruct (Z.of_nat (size (ne_store s)) <? stats_Capacity (ne_stats s))%Z eqn:Hlt.
        -- apply Z.ltb_lt in Hlt. split; [|split; [done|by eapply step_insert]].
           split; cbn [ne_store ne_stats Stats_Put Stats_Delete stats_size stats_Capacity];
          rewrite ?map_size_insert_None by done; [|lia|done].
           rewrite Hsize, wrap_int64_small; lia.
        -- apply Z.ltb_ge in Hlt. split; [done|]. split; [done|by apply step_overflow].
    + unfold NonExpiringMapCache_Get. destruct (ne_store s !! k) as [w|] eqn:Hk; cbn;
        eexists _, _; (split; [done|]); (split; [done|]); (split; [done|]); by constructor.
    + eexists _, _; split; [done|]. unfold NonExpiringMapCache_Delete. destruct (ne_store s !! k) as [w|] eqn:Hk.
      * assert (size (ne_store s) <> 0) by (apply map_size_ne_0_lookup; exists k; by exists w).
        split; [|split; [done|constructor]].
        split; cbn [ne_store ne_stats Stats_Put Stats_Delete stats_size stats_Capacity];
          rewrite ?map_size_delete_Some by (by exists w); [|lia|done].
        rewrite Hsize, wrap_int64_small; lia.
      * split; [done|]. split; [done|].
        replace (ne_store s) with (delete k (ne_store s)) at 2 by (by apply delete_id). constructor.
Defined.

Lemma NewSieve_inv capacity : (capacity < 2 ^ 63)%Z -> sieve_inv (NewSieve capacity).
Proof.
  intros Hcap. split; cbn.
  - split; [constructor| |].
    + intros k e He. by rewrite lookup_empty in He.
    + by intros a k ?%elem_of_nil.
  - done.
  - by intros a ?%elem_of_nil.
  - done.
  - destruct (Z.leb_spec capacity 0); lia.
  - destruct (Z.leb_spec capacity 0); lia.
Qed.

(** The victim in the order of the sweep. *)
Lemma sweep_split store order first v passed : sweep store order first = (v, passed) ->
  (forall p, p ∈ passed -> visited store p.2 = true) /\
  ((exists rest, order = passed ++ v :: rest /\ visited store v.2 = false) \/ (order = passed /\ v = first)).
Proof.
  revert v passed. induction order as [|p order IH]; intros v passed Hsw; cbn [sweep] in Hsw.
  - injection Hsw as <- <-. split; [by intros p ?%elem_of_nil|by right].
  - destruct (visited store p.2) eqn:Hp.
    + destruct (sweep store order first) as [v' passed'] eqn:Hrec. injection Hsw as <- <-.
      destruct (IH _ _ eq_refl) as [Hall Hcase]. split.
      * intros x [->|Hx]%elem_of_cons; [done|by apply Hall].
      * destruct Hcase as [(rest & -> & Hv)|[-> ->]]; [left; by exists rest|by right].
    + injection Hsw as <- <-. split; [by intros x ?%elem_of_nil|]. left. by exists order.
Qed.

Lemma visited_clear store ps l :
  visited (clear_flags store ps) l = if decide (l ∈ ps.*2) then false else visited store l.
Proof.
  unfold clear_flags. revert store. induction ps as [|p ps IH]; intros store; [done|].
  cbn [foldl]. rewrite IH, fmap_cons. unfold visited.
  destruct (decide (l = p.2)) as [->|Hne].
  - rewrite (decide_True (P := p.2 ∈ p.2 :: ps.*2)) by by left.
    case_decide; [done|]. rewrite lookup_alter_eq. by destruct (store !! p.2).
  - rewrite lookup_alter_ne by done. apply decide_ext. rewrite elem_of_cons. tauto.
Qed.

Lemma visited_after store passed (victim : element * K) k e l :
  entry_visited e = false ->
  visited (<[k := e]> (delete victim.2 (clear_flags store passed))) l =
  if decide (l = k \/ l ∈ (victim :: passed).*2) then false else visited store l.
Proof.
  intros He. pose proof (visited_clear store passed l) as Hclear. unfold visited in *.
  rewrite fmap_cons. destruct (decide (l = k)) as [->|Hk].
  - rewrite lookup_insert_eq, He. by rewrite decide_True by by left.
  - rewrite lookup_insert_ne by done. destruct (decide (l = victim.2)) as [->|Hv].
    + rewrite lookup_delete_eq. rewrite decide_True; [done|]. right. by left.
    + rewrite lookup_delete_ne, Hclear by done. apply decide_ext. rewrite elem_of_cons. tauto.
Qed.
End caches.

(** ** Properties *)

(** [C9] A SIEVE cache behaves as a bounded map: every sequence of calls on a new
    cache returns (no panic, and the eviction loop ends), [Get] answers from
    the contents, a [Put] of a new key into a full cache removes exactly one
    other key, the size counter is the number of keys, and the number of keys
    never exceeds the capacity. *)
Theorem Sieve_refines {K V : Type} `{Countable K} (zero : V) capacity (ops : list (cache_op (K := K))) :
  (capacity < 2 ^ 63)%Z ->
  exists rs s, cache_run (C := Sieve) (H0 := Sieve_Cache zero) (NewSieve capacity) ops = Done (rs, s) /\
    cache_steps zero (Z.max 1 capacity) evicts_one ∅ ops rs (Sieve_contents s) /\
    stats_size (sv_stats s) = Z.of_nat (size (Sieve_contents s)) /\
    (Z.of_nat (size (Sieve_contents s)) <= Z.max 1 capacity)%Z.
Proof.
  intros Hcap. destruct (cache_run_law zero evicts_one (NewSieve capacity) ops) as
    (rs & s & Hrun & Hinv & Hsc & Hsteps); [by apply NewSieve_inv|].
  assert (Hc : stats_Capacity (sv_stats (NewSieve (K := K) (V := V) capacity)) = Z.max 1 capacity).
  { simpl. destruct (Z.leb_spec capacity 0); lia. }
  exists rs, s. cbn [cache_Stats Sieve_Cache cache_contents Sieve_lawful] in *. rewrite Hc in Hsteps, Hsc.
  split_and!; [done| |exact (cache_size zero s Hinv)|].
  - unfold Sieve_contents at 1 in Hsteps. simpl in Hsteps. by rewrite fmap_empty in Hsteps.
  - pose proof (cache_bound zero s Hinv) as Hb.
    cbn [cache_Stats Sieve_Cache cache_contents Sieve_lawful] in Hb. lia.
Qed.

Lemma Sieve_refines_witness :
  exists rs s, cache_run (C := Sieve) (H0 := Sieve_Cache 0%Z) (NewSieve (K := Z) 2)
      [CachePut 1 10; CachePut 2 20; CacheGet 1; CachePut 3 30; CacheGet 2; CacheGet 1]%Z = Done (rs, s) /\
    rs = [None; None; Some (10, true); None; Some (0, false); Some (10, true)]%Z.
Proof.
  destruct (Sieve_refines (K := Z) 0%Z 2
    [CachePut 1 10; CachePut 2 20; CacheGet 1; CachePut 3 30; CacheGet 2; CacheGet 1]%Z) as (rs & s & Hrun & _).
  { reflexivity. }
  exists rs, s. split; [exact Hrun|]. vm_compute in Hrun. injection Hrun as <- _. reflexivity.
Defined.

(** The eviction is SIEVE's: a [Put] of a new key into a full cache sweeps
    from the hand towards the front of the queue and around from its back; the
    victim is the first entry that is not visited, or the one at the hand when
    all are; the entries passed lose their mark and every other entry keeps
    its own; the hand moves to the victim's predecessor. *)
Theorem Sieve_Put_victim {K V : Type} `{Countable K} (zero : V) capacity ops rs s k v :
  (capacity < 2 ^ 63)%Z ->
  cache_run (C := Sieve) (H0 := Sieve_Cache zero) (NewSieve (K := K) capacity) ops = Done (rs, s) ->
  Sieve_contents s !! k = None ->
  (Z.max 1 capacity <= Z.of_nat (size (Sieve_contents s)))%Z ->
  let order := sweep_order (sv_queue s) (sv_hand s) in
  exists victim passed s', Sieve_Put s k v = Done s' /\
    ((exists rest, order = passed ++ victim :: rest /\ visited (sv_store s) victim.2 = false) \/
     (order = passed /\ head order = Some victim)) /\
    (forall p, p ∈ passed -> visited (sv_store s) p.2 = true) /\
    Sieve_contents s' = <[k := v]> (delete victim.2 (Sieve_contents s)) /\
    (forall l, visited (sv_store s') l =
       if decide (l = k \/ l ∈ (victim :: passed).*2) then false else visited (sv_store s) l) /\
    sv_hand s' = Element_Prev (sv_queue s) victim.1.
Proof.
  intros Hcap Hrun Hk Hfull order.
  destruct (cache_run_law zero evicts_one (NewSieve capacity) ops) as
    (rs' & s'' & Hrun' & Hinv & Hsc & _); [by apply NewSieve_inv|].
  rewrite Hrun' in Hrun. injection Hrun as -> ->. cbn [cache_Stats Sieve_Cache] in Hsc.
  rewrite contents_lookup in Hk. apply fmap_None in Hk.
  assert (Hle : (stats_Capacity (sv_stats s) <= Z.of_nat (length (sv_queue s)))%Z).
  { rewrite <- (contents_size _ Hinv), Hsc. simpl. destruct (Z.leb_spec capacity 0); lia. }
  destruct (Sieve_Put_full s k v Hinv Hk Hle) as (first & s' & Hfirst & Hput & _ & Hsw).
  fold order in Hfirst, Hsw. destruct (sweep _ _ _) as [victim passed] eqn:Hs.
  destruct Hsw as (_ & Hst & Hhand & _).
  destruct (sweep_split _ _ _ _ _ Hs) as [Hall Hcase]. exists victim, passed, s'.
  split; [done|]. split; [|split; [done|split; [|split; [|done]]]].
  - destruct Hcase as [?|[-> ->]]; [by left|by right].
  - unfold Sieve_contents. by rewrite Hst, fmap_insert, fmap_delete, contents_clear.
  - intros l. rewrite Hst. by apply visited_after.
Qed.

(** A cache of two keys of which the older was read. *)
Definition example_run : outcome (list (option (Z * bool)) * Sieve (K := Z) (V := Z)) :=
  cache_run (C := Sieve) (H0 := Sieve_Cache 0%Z) (NewSieve 2) [CachePut 1 10; CachePut 2 20; CacheGet 1]%Z.

Lemma Sieve_Put_victim_witness :
  exists rs s s', example_run = Done (rs, s) /\ Sieve_Put s 3%Z 30%Z = Done s' /\
    Sieve_contents s' = <[3%Z := 30%Z]> (delete 2%Z (Sieve_contents s)).
Proof.
  destruct (cache_run (C := Sieve) (H0 := Sieve_Cache 0%Z) (NewSieve (K := Z) 2)
    [CachePut 1 10; CachePut 2 20; CacheGet 1]%Z) as [[rs s]| |] eqn:Hrun;
    [|vm_compute in Hrun; discriminate|vm_compute in Hrun; discriminate].
  exists rs, s.
  destruct (Sieve_Put_victim 0%Z 2 _ rs s 3%Z 30%Z eq_refl Hrun) as (victim & passed & s' & Hput & _ & _ & Hc & _ & _).
  - vm_compute in Hrun. injection Hrun as <- <-. reflexivity.
  - vm_compute in Hrun. injection Hrun as <- <-. vm_compute. discriminate.
  - exists s'. split; [exact Hrun|]. split; [exact Hput|]. rewrite Hc. do 2 f_equal.
    vm_compute in Hrun. injection Hrun as <- <-. vm_compute in Hput. injection Hput as <-.
    apply (f_equal (fun m => m !! 2%Z)) in Hc. 
    destruct (decide (victim.2 = 2%Z)) as [->|Hne]; [reflexivity|].
    exfalso. rewrite lookup_insert_ne, lookup_delete_ne in Hc by done. vm_compute in Hc. discriminate.
Defined.

(** [Get] only takes the lock for reading.  Two [Get]s that run together
    answer the same and leave the same cache in either order. *)
Theorem Sieve_Gets_commute {K V : Type} `{Countable K} (zero : V) (s : Sieve (K := K) (V := V)) k1 k2 :
  let '(r1, s1) := Sieve_Get zero s k1 in
  let '(r2, s2) := Sieve_Get zero s k2 in
  (Sieve_Get zero s1 k2).1 = r2 /\ (Sieve_Get zero s2 k1).1 = r1 /\
  (Sieve_Get zero s1 k2).2 = (Sieve_Get zero s2 k1).2.
Proof.
  unfold Sieve_Get.
  destruct (sv_store s !! k1) as [e1|] eqn:H1, (sv_store s !! k2) as [e2|] eqn:H2; cbn;
    rewrite ?H1, ?H2; try done.
  - destruct (decide (k1 = k2)) as [<-|Hne].
    + rewrite H1 in H2. injection H2 as <-. rewrite lookup_insert_eq. done.
    + rewrite !lookup_insert_ne, H1, H2 by done. cbn. split_and!; [done|done|].
      f_equal. by apply insert_insert_ne.
  - rewrite lookup_insert_ne by congruence. by rewrite H2.
  - rewrite lookup_insert_ne by congruence. by rewrite H1.
Qed.

(** A non-expiring cache behaves as a bounded map that turns new keys away
    when it is full; its size counter is the number of keys. *)
Theorem NonExpiringMapCache_refines {K V : Type} `{Countable K} (zero : V) capacity
    (ops : list (cache_op (K := K))) :
  (capacity < 2 ^ 63)%Z ->
  exists rs s, cache_run (C := NonExpiringMapCache) (H0 := NonExpiringMapCache_Cache zero)
      (NewNonExpiringMapCache capacity) ops = Done (rs, s) /\
    cache_steps zero capacity rejects ∅ ops rs (ne_store s) /\
    stats_size (ne_stats s) = Z.of_nat (size (ne_store s)) /\
    (Z.of_nat (size (ne_store s)) <= Z.max 0 capacity)%Z.
Proof.
  intros Hcap. destruct (cache_run_law zero rejects (NewNonExpiringMapCache capacity) ops) as
    (rs & s & Hrun & Hinv & Hsc & Hsteps).
  { split; cbn [NewNonExpiringMapCache ne_store ne_stats NewStats stats_size stats_Capacity];
      rewrite ?map_size_empty; lia. }
  exists rs, s. destruct Hinv as [Hsize Hbound _]. cbn [cache_Stats NonExpiringMapCache_Cache] in Hsc.
  rewrite Hsc in Hbound. done.
Qed.

Lemma NonExpiringMapCache_refines_witness :
  exists rs s, cache_run (C := NonExpiringMapCache) (H0 := NonExpiringMapCache_Cache 0%Z)
      (NewNonExpiringMapCache (K := Z) 1) [CachePut 1 10; CachePut 2 20; CacheGet 2]%Z = Done (rs, s) /\
    rs = [None; None; Some (0, false)]%Z.
Proof.
  destruct (NonExpiringMapCache_refines (K := Z) 0%Z 1 [CachePut 1 10; CachePut 2 20; CacheGet 2]%Z)
    as (rs & s & Hrun & _). { reflexivity. }
  exists rs, s. split; [exact Hrun|]. vm_compute in Hrun. injection Hrun as <- _. reflexivity.
Defined.
