(* ===== verification/Scc.v ===== *)
(** * algo/scc.go: strongly connected components

    [StronglyConnectedComponents] is Tarjan's algorithm with an explicit stack
    of descent cursors.  The loop is the step function [tarjan_step]; a state
    holds the variables the Go closure shares.  Slices that are used as stacks
    are lists with the top at the end. *)

From S2P Require Import Prelude Bitmap Digraph Csr.

(** A Go map read: the zero value when the key is absent. *)
Definition map_get (m : gmap Z Z) (k : Z) : Z := default 0%Z (m !! k).

Record descentCursor : Type := {
  dc_id : Z;
  dc_branches : list Z;
  dc_branchIdx : nat
}.

Section tarjan.
Context {G B : Type} `{DirectedGraph G} `{Roaring B}.

Record tarjan : Type := {
  tj_index : Z;
  tj_discIdx : gmap Z Z;
  tj_lowLink : gmap Z Z;
  tj_onStack : B;
  tj_stack : list Z;
  tj_dfsStack : list descentCursor;
  tj_components : list B;
  tj_nodeToComp : gmap Z Z
}.

Definition tarjan_init : tarjan :=
  {| tj_index := 0; tj_discIdx := ∅; tj_lowLink := ∅; tj_onStack := NewBitmap64; tj_stack := [];
     tj_dfsStack := []; tj_components := []; tj_nodeToComp := ∅ |}.

(** [dfsStack = append(dfsStack, &descentCursor{...}); tarjanPush(v)]. *)
Definition tarjan_descend (digraph : G) (v : Z) (s : tarjan) : tarjan :=
  {| tj_index := tj_index s + 1;
     tj_discIdx := <[v := tj_index s]> (tj_discIdx s);
     tj_lowLink := <[v := tj_index s]> (tj_lowLink s);
     tj_onStack := bitmap64_Add [v] (tj_onStack s);
     tj_stack := tj_stack s ++ [v];
     tj_dfsStack := tj_dfsStack s ++
       [{| dc_id := v; dc_branches := AdjacentNodes digraph v DirectionOutbound; dc_branchIdx := 0 |}];
     tj_components := tj_components s;
     tj_nodeToComp := tj_nodeToComp s |}.

(** [if lowLink[v] > low { lowLink[v] = low }]. *)
Definition lower_link (v low : Z) (lowLink : gmap Z Z) : gmap Z Z :=
  if (low <? map_get lowLink v)%Z then <[v := low]> lowLink else lowLink.

(** The unwinding loop, over the Tarjan stack from its top; popping an empty
    stack is an index out of range. *)
Fixpoint unwind (id compIdx : Z) (from_top : list Z) (onStack compBitmap : B) (nodeToComp : gmap Z Z)
  : outcome (list Z * B * B * gmap Z Z) :=
  match from_top with
  | [] => Panic
  | top :: rest =>
      let onStack' := bitmap64_Remove top onStack in
      let compBitmap' := bitmap64_Add [top] compBitmap in
      let nodeToComp' := <[top := compIdx]> nodeToComp in
      if (top =? id)%Z then Done (reverse rest, onStack', compBitmap', nodeToComp')
      else unwind id compIdx rest onStack' compBitmap' nodeToComp'
  end.

(** All neighbours processed: pop the cursor, propagate its low-link to the
    parent and unwind the stack at a root. *)
Definition tarjan_pop (nextEntry : descentCursor) (rest : list descentCursor) (s : tarjan) : outcome tarjan :=
  let id := dc_id nextEntry in
  let lowLink :=
    match last rest with
    | Some parent => lower_link (dc_id parent) (map_get (tj_lowLink s) id) (tj_lowLink s)
    | None => tj_lowLink s
    end in
  if (map_get lowLink id =? map_get (tj_discIdx s) id)%Z then
    '(stack, onStack, compBitmap, nodeToComp) ←
      unwind id (Z.of_nat (length (tj_components s))) (reverse (tj_stack s)) (tj_onStack s)
        NewBitmap64 (tj_nodeToComp s);
    Done {| tj_index := tj_index s; tj_discIdx := tj_discIdx s; tj_lowLink := lowLink;
            tj_onStack := onStack; tj_stack := stack; tj_dfsStack := rest;
            tj_components := tj_components s ++ [compBitmap]; tj_nodeToComp := nodeToComp |}
  else
    Done {| tj_index := tj_index s; tj_discIdx := tj_discIdx s; tj_lowLink := lowLink;
            tj_onStack := tj_onStack s; tj_stack := tj_stack s; tj_dfsStack := rest;
            tj_components := tj_components s; tj_nodeToComp := tj_nodeToComp s |}.

(** A neighbour is left: descend into it, or follow a back edge. *)
Definition tarjan_scan (digraph : G) (nextEntry : descentCursor) (rest : list descentCursor)
    (neighbour : Z) (s : tarjan) : tarjan :=
  let advanced := {| dc_id := dc_id nextEntry; dc_branches := dc_branches nextEntry;
                     dc_branchIdx := S (dc_branchIdx nextEntry) |} in
  let s' := {| tj_index := tj_index s; tj_discIdx := tj_discIdx s; tj_lowLink := tj_lowLink s;
               tj_onStack := tj_onStack s; tj_stack := tj_stack s;
               tj_dfsStack := rest ++ [advanced];
               tj_components := tj_components s; tj_nodeToComp := tj_nodeToComp s |} in
  match tj_discIdx s !! neighbour with
  | None => tarjan_descend digraph neighbour s'
  | Some discovered =>
      if bitmap64_Contains neighbour (tj_onStack s) then
        {| tj_index := tj_index s; tj_discIdx := tj_discIdx s;
           tj_lowLink := lower_link (dc_id nextEntry) discovered (tj_lowLink s);
           tj_onStack := tj_onStack s; tj_stack := tj_stack s;
           tj_dfsStack := rest ++ [advanced];
           tj_components := tj_components s; tj_nodeToComp := tj_nodeToComp s |}
      else s'
  end.

Definition tarjan_step (digraph : G) (s : tarjan) : tarjan + outcome tarjan :=
  match deque_PopBack (tj_dfsStack s) with
  | None => inr (Done s)
  | Some (nextEntry, rest) =>
      match dc_branches nextEntry !! dc_branchIdx nextEntry with
      | Some neighbour => inl (tarjan_scan digraph nextEntry rest neighbour s)
      | None =>
          match tarjan_pop nextEntry rest s with
          | Done s' => inl s'
          | Panic => inr Panic
          | Spent => inr Spent
          end
      end
  end.

(** Every turn uses up a neighbour or pops a cursor. *)
Definition tarjan_fuel (digraph : G) : nat :=
  EachNode digraph
    (fun n fuel => (fuel + S (length (AdjacentNodes digraph n DirectionOutbound)), true)) 1.

Definition tarjan_start (digraph : G) (start : Z) (st : outcome tarjan) : outcome tarjan * bool :=
  (s ← st;
   match tj_discIdx s !! start with
   | Some _ => Done s
   | None =>
       match iterate (tarjan_fuel digraph) (tarjan_step digraph) (tarjan_descend digraph start s) with
       | Some r => r
       | None => Spent
       end
   end, true).

Definition StronglyConnectedComponents (digraph : G) : outcome (list B * gmap Z Z) :=
  s ← EachNode digraph (tarjan_start digraph) (Done tarjan_init);
  Done (tj_components s, tj_nodeToComp s).
End tarjan.
Arguments tarjan B : clear implicits.

(** ** The invariant

    White nodes are not discovered, grey ones have a cursor, the others are
    finished.  A finished node is either still on the Tarjan stack or assigned
    to a component. *)

Section invariant.
Context {G : Type} `{DirectedGraph G} (g : G) `{!LawfulDigraph g}.

Notation E := (dg_edge g DirectionOutbound).
Notation R := (rtc E).
Notation dnum disc := (map_get disc).

(** Discovery numbers: the stack is sorted by them. *)
Record disc_inv (disc : gmap Z Z) (index : Z) (stack : list Z) : Prop := {
  di_nodes : forall x i, disc !! x = Some i -> x ∈ dg_nodes g;
  di_lt : forall x i, disc !! x = Some i -> (0 <= i < index)%Z;
  di_inj : forall x y i, disc !! x = Some i -> disc !! y = Some i -> x = y;
  di_sorted : StronglySorted (fun x y => dnum disc x < dnum disc y)%Z stack;
  di_stack : forall x, x ∈ stack -> is_Some (disc !! x)
}.

(** The components assigned so far: closed under edges, and exactly the classes of
    mutual reachability. *)
Record comp_inv (disc : gmap Z Z) (stack : list Z) (comp : gmap Z Z) (k : nat) : Prop := {
  ci_dom : forall x, is_Some (comp !! x) <-> is_Some (disc !! x) /\ x ∉ stack;
  ci_range : forall x i, comp !! x = Some i -> (0 <= i < Z.of_nat k)%Z;
  ci_closed : forall x i y, comp !! x = Some i -> E x y -> exists j, comp !! y = Some j /\ (j <= i)%Z;
  ci_scc : forall x y i j, comp !! x = Some i -> comp !! y = Some j -> (i = j <-> R x y /\ R y x)
}.

(** The grey path. *)
Record grey_inv (disc : gmap Z Z) (stack : list Z) (dfs : list descentCursor) : Prop := {
  gi_stack : forall c, c ∈ dfs -> dc_id c ∈ stack;
  gi_sorted : StronglySorted (fun c c' => dnum disc (dc_id c) < dnum disc (dc_id c'))%Z dfs;
  gi_branches : forall c, c ∈ dfs ->
    dc_branches c = dg_adj g (dc_id c) DirectionOutbound /\ dc_branchIdx c <= length (dc_branches c);
  gi_reach : forall x y, x ∈ stack -> y ∈ stack -> (dnum disc x <= dnum disc y)%Z -> R x y;
  gi_back : forall y, y ∈ stack ->
    exists c, c ∈ dfs /\ (dnum disc (dc_id c) <= dnum disc y)%Z /\ R y (dc_id c)
}.

(** Low-links: the number of a node on the stack that can be reached, and a lower
    bound for every edge already followed from the part of the stack between a
    grey node and the next one.  [pending] is an edge the top cursor has just
    advanced past. *)
Record low_inv (pending : option (Z * Z)) (disc low : gmap Z Z) (stack : list Z)
    (dfs : list descentCursor) : Prop := {
  li_sound : forall c, c ∈ dfs ->
    (map_get low (dc_id c) <= dnum disc (dc_id c))%Z /\
    exists w, w ∈ stack /\ map_get low (dc_id c) = dnum disc w /\ R (dc_id c) w;
  li_bound : forall pre c post x y, dfs = pre ++ c :: post ->
    x ∈ stack -> (dnum disc (dc_id c) <= dnum disc x)%Z ->
    Forall (fun c' => dnum disc x < dnum disc (dc_id c'))%Z post ->
    E x y -> (x = dc_id c -> y ∈ take (dc_branchIdx c) (dc_branches c)) -> pending <> Some (x, y) ->
    is_Some (disc !! y) /\ (y ∈ stack -> map_get low (dc_id c) <= dnum disc y)%Z
}.

(** ** Discovery of a node *)

Section push.
Context (disc low : gmap Z Z) (index : Z) (stack : list Z) (y : Z).
Context (Hdisc : disc_inv disc index stack) (Hy : disc !! y = None) (Hnode : y ∈ dg_nodes g).
Context (Hindex : (0 <= index)%Z).

Lemma push_dnum x : is_Some (disc !! x) -> dnum (<[y := index]> disc) x = dnum disc x.
Proof using Hy.
  intros [i Hi]. unfold map_get. rewrite lookup_insert_ne; [done|]. intros <-. congruence.
Qed.

Lemma push_dnum_new : dnum (<[y := index]> disc) y = index.
Proof using Type. unfold map_get. by rewrite lookup_insert_eq. Qed.

Lemma stack_dnum x : x ∈ stack -> (0 <= dnum disc x < index)%Z.
Proof using Hdisc.
  intros [i Hi]%(di_stack _ _ _ Hdisc). unfold map_get. rewrite Hi. by apply (di_lt _ _ _ Hdisc x).
Qed.

Lemma push_stack_dnum x : x ∈ stack -> dnum (<[y := index]> disc) x = dnum disc x.
Proof using Hdisc Hy. intros Hx. by apply push_dnum, (di_stack _ _ _ Hdisc). Qed.

Lemma push_not_stack : y ∉ stack.
Proof using Hdisc Hy. intros [i Hi]%(di_stack _ _ _ Hdisc). congruence. Qed.

Lemma disc_inv_push : disc_inv (<[y := index]> disc) (index + 1) (stack ++ [y]).
Proof using Hdisc Hy Hnode Hindex.
  split.
  - intros x i [[<- <-]|[_ Hx]]%lookup_insert_Some; [done|]. by apply (di_nodes _ _ _ Hdisc x i).
  - intros x i [[<- <-]|[_ Hx]]%lookup_insert_Some; [lia|]. apply (di_lt _ _ _ Hdisc) in Hx. lia.
  - intros x z i [[<- <-]|[_ Hx]]%lookup_insert_Some [[<- Hi]|[_ Hz]]%lookup_insert_Some; try done.
    + apply (di_lt _ _ _ Hdisc) in Hz. lia.
    + subst i. apply (di_lt _ _ _ Hdisc) in Hx. lia.
    + by eapply (di_inj _ _ _ Hdisc).
  - apply StronglySorted_app. split_and!.
    + intros x z Hx ->%list_elem_of_singleton. rewrite push_dnum_new, push_stack_dnum by done.
      by apply stack_dnum.
    + eapply StronglySorted_impl_in; [|exact (di_sorted _ _ _ Hdisc)].
      intros x z Hx Hz. by rewrite !push_stack_dnum.
    + repeat constructor.
  - intros x [Hx| ->%list_elem_of_singleton]%elem_of_app.
    + destruct (di_stack _ _ _ Hdisc x Hx) as [i Hi]. exists i. rewrite lookup_insert_ne; [done|].
      intros <-. congruence.
    + eexists. apply lookup_insert_eq.
Qed.

Lemma comp_inv_push comp k : comp_inv disc stack comp k -> comp_inv (<[y := index]> disc) (stack ++ [y]) comp k.
Proof using Hy.
  intros [Hdom Hrange Hclosed Hscc]. split; [|done..].
  intros x. rewrite Hdom, elem_of_app, list_elem_of_singleton, lookup_insert_is_Some. split.
  - intros [[i Hi] Hx]. assert (x <> y) by (intros ->; congruence). split; [right; by split; [|exists i]|].
    by intros [?|?].
  - intros [[Heq|[_ Hx]] Hn]; [destruct Hn; by right|]. split; [done|]. intros Hs. apply Hn. by left.
Qed.

Definition new_cursor : descentCursor :=
  {| dc_id := y; dc_branches := dg_adj g y DirectionOutbound; dc_branchIdx := 0 |}.

Context (dfs : list descentCursor).
Context (Hfrom : dfs = [] \/ exists rest c, dfs = rest ++ [c] /\ E (dc_id c) y).

Lemma grey_inv_push : grey_inv disc stack dfs ->
  grey_inv (<[y := index]> disc) (stack ++ [y]) (dfs ++ [new_cursor]).
Proof using Hdisc Hy Hfrom.
  intros [Hgs Hsorted Hbr Hreach Hback].
  assert (Hto : forall x, x ∈ stack -> R x y).
  { intros x Hx. destruct (Hback x Hx) as (c & Hc & Hle & Hr).
    destruct Hfrom as [->|(rest & t & -> & Ht)]; [by apply elem_of_nil in Hc|].
    etrans; [exact Hr|]. eapply rtc_r; [|exact Ht]. apply Hreach; [by apply Hgs| |].
    - apply Hgs, elem_of_app. right. by left.
    - apply elem_of_app in Hc as [Hc| ->%list_elem_of_singleton]; [|done].
      apply Z.lt_le_incl. eapply (StronglySorted_app_1_elem_of _ _ _ c t) in Hsorted; [done|done|by left]. }
  split.
  - intros c [Hc| ->%list_elem_of_singleton]%elem_of_app; apply elem_of_app; [left; by apply Hgs|by right; left].
  - apply StronglySorted_app. split_and!; [| |repeat constructor].
    + intros c c' Hc ->%list_elem_of_singleton. cbn [dc_id new_cursor].
      rewrite push_dnum_new, push_stack_dnum by (by apply Hgs). by apply stack_dnum, Hgs.
    + eapply StronglySorted_impl_in; [|exact Hsorted]. intros c c' Hc Hc'.
      by rewrite !push_stack_dnum by (by apply Hgs).
  - intros c [Hc| ->%list_elem_of_singleton]%elem_of_app; [by apply Hbr|]. split; [done|]. simpl. lia.
  - intros x z [Hx| ->%list_elem_of_singleton]%elem_of_app [Hz| ->%list_elem_of_singleton]%elem_of_app.
    + rewrite !push_stack_dnum by done. by apply Hreach.
    + intros _. by apply Hto.
    + rewrite push_dnum_new, push_stack_dnum by done. pose proof (stack_dnum z Hz). lia.
    + done.
  - intros z [Hz| ->%list_elem_of_singleton]%elem_of_app.
    + destruct (Hback z Hz) as (c & Hc & Hle & Hr). exists c.
      rewrite !push_stack_dnum by (try apply Hgs; done). split_and!; [by apply elem_of_app; left|done|done].
    + exists new_cursor. split_and!; [by apply elem_of_app; right; left|done|done].
Qed.

Lemma low_inv_push v : grey_inv disc stack dfs -> low_inv (Some (v, y)) disc low stack dfs ->
  low_inv None (<[y := index]> disc) (<[y := index]> low) (stack ++ [y]) (dfs ++ [new_cursor]).
Proof using Hdisc Hy Hfrom.
  intros [Hgs Hsorted _ _ _] [Hsound Hbound].
  assert (Hlow : forall x, x ∈ stack -> map_get (<[y := index]> low) x = map_get low x).
  { intros x Hx. unfold map_get. rewrite lookup_insert_ne; [done|].
    intros Heq. apply push_not_stack. by rewrite Heq. }
  split.
  - intros c [Hc| ->%list_elem_of_singleton]%elem_of_app.
    + destruct (Hsound c Hc) as [Hle (w & Hw & Heq & Hr)].
      rewrite Hlow, push_stack_dnum by (by apply Hgs). split; [done|]. exists w.
      rewrite push_stack_dnum by done. split_and!; [by apply elem_of_app; left|done|done].
    + cbn [dc_id new_cursor]. rewrite push_dnum_new. unfold map_get at 1. rewrite lookup_insert_eq.
      split; [done|]. exists y. unfold map_get at 1. rewrite lookup_insert_eq, push_dnum_new.
      split_and!; [by apply elem_of_app; right; left|done|done].
  - intros pre c post x z Hsplit Hx Hle Hpost Hxz Htake _.
    destruct post as [|q post _] using rev_ind.
    + apply app_inj_tail in Hsplit as [-> <-]. cbn [dc_id new_cursor dc_branchIdx] in *.
      apply elem_of_app in Hx as [Hx| ->%list_elem_of_singleton].
      * exfalso. rewrite push_dnum_new, push_stack_dnum in Hle by done. pose proof (stack_dnum x Hx). lia.
      * specialize (Htake eq_refl). by apply elem_of_nil in Htake.
    + rewrite app_comm_cons, app_assoc in Hsplit. apply app_inj_tail in Hsplit as [Hsplit <-].
      apply Forall_app in Hpost as [Hpost Hq]. rewrite Forall_singleton in Hq.
      cbn [dc_id new_cursor] in Hq. rewrite push_dnum_new in Hq.
      assert (Hc : c ∈ dfs) by (rewrite Hsplit; apply elem_of_app; right; by left).
      apply elem_of_app in Hx as [Hx| ->%list_elem_of_singleton]; [|rewrite push_dnum_new in Hq; lia].
      rewrite push_stack_dnum in Hle by (by apply Hgs). rewrite push_stack_dnum in Hle by done.
      destruct (decide (z = y)) as [->|Hne].
      * split; [eexists; apply lookup_insert_eq|]. intros _. rewrite push_dnum_new, Hlow by (by apply Hgs).
        pose proof (proj1 (Hsound c Hc)). pose proof (stack_dnum _ (Hgs c Hc)). lia.
      * rewrite lookup_insert_ne by done. rewrite Hlow by (by apply Hgs).
        destruct (Hbound pre c post x z) as [Hvis Hlz]; [done|done|done| |done|done|congruence|].
        -- apply Forall_forall. intros c' Hc'. rewrite Forall_forall in Hpost. specialize (Hpost c' Hc').
           rewrite !push_stack_dnum in Hpost; [done| |done].
           apply Hgs. rewrite Hsplit. apply elem_of_app. right. by right.
        -- split; [done|]. rewrite push_dnum by done.
           intros [Hz| ->%list_elem_of_singleton]%elem_of_app; [by apply Hlz|done].
Qed.
End push.

(** ** Following a neighbour *)

Definition advance (c : descentCursor) : descentCursor :=
  {| dc_id := dc_id c; dc_branches := dc_branches c; dc_branchIdx := S (dc_branchIdx c) |}.

Lemma grey_inv_advance disc stack rest c y :
  dc_branches c !! dc_branchIdx c = Some y ->
  grey_inv disc stack (rest ++ [c]) -> grey_inv disc stack (rest ++ [advance c]).
Proof.
  intros Hnext [Hgs Hsorted Hbr Hreach Hback].
  assert (Hlast : c ∈ rest ++ [c]) by (apply elem_of_app; right; by left).
  split; [| | |done|].
  - intros c' [Hc| ->%list_elem_of_singleton]%elem_of_app; [apply Hgs, elem_of_app; by left|by apply (Hgs c)].
  - apply StronglySorted_app in Hsorted as (Hlt & Hs & _). apply StronglySorted_app.
    split_and!; [|done|repeat constructor].
    intros c' t Hc' ->%list_elem_of_singleton. apply (Hlt c' c); [done|by left].
  - intros c' [Hc| ->%list_elem_of_singleton]%elem_of_app; [apply Hbr, elem_of_app; by left|].
    split; [by apply (Hbr c)|]. simpl. by eapply lookup_lt_Some.
  - intros z Hz. destruct (Hback z Hz) as (c' & Hc' & Hle & Hr).
    apply elem_of_app in Hc' as [Hc'| ->%list_elem_of_singleton].
    + exists c'. split_and!; [apply elem_of_app; by left|done|done].
    + exists (advance c). split_and!; [apply elem_of_app; right; by left|done|done].
Qed.

Lemma low_inv_advance disc low stack rest c y :
  dc_branches c !! dc_branchIdx c = Some y ->
  low_inv None disc low stack (rest ++ [c]) -> low_inv (Some (dc_id c, y)) disc low stack (rest ++ [advance c]).
Proof.
  intros Hnext [Hsound Hbound]. split.
  - intros c' [Hc| ->%list_elem_of_singleton]%elem_of_app.
    + apply Hsound, elem_of_app. by left.
    + apply (Hsound c), elem_of_app. right. by left.
  - intros pre c' post x z Hsplit Hx Hle Hpost Hxz Htake Hne.
    destruct post as [|q post _] using rev_ind.
    + apply app_inj_tail in Hsplit as [<- <-].
      apply (Hbound rest c [] x z); [done|done|done|constructor|done| |done].
      intros Heq. specialize (Htake Heq). cbn [advance dc_branchIdx dc_branches] in Htake.
      rewrite (take_S_r _ _ _ Hnext), elem_of_app, list_elem_of_singleton in Htake.
      destruct Htake as [?| ->]; [done|congruence].
    + rewrite app_comm_cons, app_assoc in Hsplit. apply app_inj_tail in Hsplit as [-> <-].
      apply Forall_app in Hpost as [Hpost Hq]. rewrite Forall_singleton in Hq.
      apply (Hbound pre c' (post ++ [c]) x z); [by rewrite <- app_assoc|done|done| |done|done|done].
      apply Forall_app. split; [done|]. by apply Forall_singleton.
Qed.

Lemma map_get_lower v l low x : map_get (lower_link v l low) x =
  if decide (x = v) then Z.min l (map_get low x) else map_get low x.
Proof.
  unfold lower_link. destruct (Z.ltb_spec l (map_get low v)); case_decide as Hx; subst; try done.
  - unfold map_get at 1. rewrite lookup_insert_eq. simpl. lia.
  - unfold map_get. by rewrite lookup_insert_ne.
  - lia.
Qed.

(** A neighbour that is already numbered lowers the link when it is on the stack. *)
Lemma low_inv_back disc low stack rest c y :
  is_Some (disc !! y) -> y ∈ stack -> E (dc_id c) y ->
  low_inv (Some (dc_id c, y)) disc low stack (rest ++ [c]) ->
  low_inv None disc (lower_link (dc_id c) (dnum disc y) low) stack (rest ++ [c]).
Proof.
  intros Hy Hys He [Hsound Hbound].
  split.
  - intros c' Hc'. destruct (Hsound c' Hc') as [Hle (w & Hw & Heq & Hr)]. rewrite map_get_lower.
    case_decide as Hid; [|split; [done|by exists w]]. split; [lia|].
    destruct (Z.min_spec (dnum disc y) (map_get low (dc_id c'))) as [[_ ->]|[_ ->]].
    + exists y. rewrite Hid. split_and!; [done|done|by apply rtc_once].
    + by exists w.
  - intros pre c' post x z Hsplit Hx Hle Hpost Hxz Htake _. rewrite map_get_lower.
    destruct (decide (x = dc_id c /\ z = y)) as [[-> ->]|Hne].
    + split; [done|]. intros _. destruct post as [|q post _] using rev_ind.
      * apply app_inj_tail in Hsplit as [_ <-]. rewrite decide_True by done. lia.
      * exfalso. rewrite app_comm_cons, app_assoc in Hsplit. apply app_inj_tail in Hsplit as [_ <-].
        apply Forall_app in Hpost as [_ Hq]. rewrite Forall_singleton in Hq. lia.
    + destruct (Hbound pre c' post x z) as [Hvis Hlz]; [done|done|done|done|done|done|naive_solver|].
      split; [done|]. intros Hz. specialize (Hlz Hz). case_decide; lia.
Qed.

Lemma low_inv_skip disc low stack dfs v y :
  is_Some (disc !! y) -> y ∉ stack ->
  low_inv (Some (v, y)) disc low stack dfs -> low_inv None disc low stack dfs.
Proof.
  intros Hy Hys [Hsound Hbound]. split; [done|]. intros pre c post x z Hsplit Hx Hle Hpost Hxz Htake _.
  destruct (decide (z = y)) as [->|Hne]; [by split|]. apply (Hbound pre c post x z); try done. congruence.
Qed.

(** ** Leaving a node *)

Section pop.
Context (disc low : gmap Z Z) (index : Z) (stack : list Z) (rest : list descentCursor) (c : descentCursor).
Context (Hdisc : disc_inv disc index stack) (Hgrey : grey_inv disc stack (rest ++ [c])).
Context (Hlow : low_inv None disc low stack (rest ++ [c])).
Context (Hdone : dc_branches c !! dc_branchIdx c = None).

(** The parent takes the smaller link. *)
Definition parent_low : gmap Z Z :=
  match last rest with
  | Some parent => lower_link (dc_id parent) (map_get low (dc_id c)) low
  | None => low
  end.

Lemma top_elem : c ∈ rest ++ [c].
Proof using Type. apply elem_of_app. right. by left. Qed.

Lemma below_top c' : c' ∈ rest -> (dnum disc (dc_id c') < dnum disc (dc_id c))%Z.
Proof using Hgrey.
  intros Hc'. pose proof (gi_sorted _ _ _ Hgrey) as Hs.
  by eapply (StronglySorted_app_1_elem_of _ _ _ c' c) in Hs; [|done|left].
Qed.

Lemma parent_low_top : map_get parent_low (dc_id c) = map_get low (dc_id c).
Proof using Hgrey.
  unfold parent_low. destruct (last rest) as [p|] eqn:Hp; [|done]. rewrite map_get_lower.
  case_decide as Heq; [|done]. apply last_Some_elem_of in Hp. apply below_top in Hp. rewrite Heq in Hp. lia.
Qed.

(** Every edge from the part of the stack above the top cursor was followed. *)
Lemma top_bound x y : x ∈ stack -> (dnum disc (dc_id c) <= dnum disc x)%Z -> E x y ->
  is_Some (disc !! y) /\ (y ∈ stack -> map_get low (dc_id c) <= dnum disc y)%Z.
Proof using Hgrey Hlow Hdone.
  intros Hx Hle Hxy. apply (li_bound _ _ _ _ _ Hlow rest c [] x y); try done.
  intros ->. destruct (gi_branches _ _ _ Hgrey c top_elem) as [Hbr _].
  apply lookup_ge_None in Hdone. rewrite take_ge by done. by rewrite Hbr.
Qed.

Lemma parent_low_le v : (map_get parent_low v <= map_get low v)%Z.
Proof using Type.
  unfold parent_low. destruct (last rest); [|done]. rewrite map_get_lower. case_decide; lia.
Qed.

(** The links stay sound on any part of the stack that keeps the witnesses. *)
Lemma parent_low_sound c' : c' ∈ rest ->
  (map_get parent_low (dc_id c') <= dnum disc (dc_id c'))%Z /\
  exists w, w ∈ stack /\ map_get parent_low (dc_id c') = dnum disc w /\ R (dc_id c') w.
Proof using Hgrey Hlow.
  intros Hc'. assert (Hin : c' ∈ rest ++ [c]) by (apply elem_of_app; by left).
  destruct (li_sound _ _ _ _ _ Hlow c' Hin) as [Hle (w & Hw & Heq & Hr)].
  split; [pose proof (parent_low_le (dc_id c')); lia|]. unfold parent_low.
  destruct (last rest) as [p|] eqn:Hp; [|by exists w]. rewrite map_get_lower.
  case_decide as Hid; [|by exists w].
  destruct (Z.min_spec (map_get low (dc_id c)) (map_get low (dc_id c'))) as [[_ ->]|[_ ->]]; [|by exists w].
  destruct (li_sound _ _ _ _ _ Hlow c top_elem) as [_ (u & Hu & Hequ & Hru)].
  exists u. split_and!; [done|done|]. etrans; [|exact Hru].
  apply (gi_reach _ _ _ Hgrey); [by apply (gi_stack _ _ _ Hgrey)|apply (gi_stack _ _ _ Hgrey), top_elem|].
  apply Z.lt_le_incl. by apply below_top.
Qed.

(** The bound for the cursors that stay, on any part [stack'] of the stack such
    that what lies above the top cursor is covered by the top's bound. *)
Lemma parent_low_bound pre c' post x y :
  rest = pre ++ c' :: post -> x ∈ stack -> (dnum disc (dc_id c') <= dnum disc x)%Z ->
  Forall (fun c' => dnum disc x < dnum disc (dc_id c'))%Z post ->
  E x y -> (x = dc_id c' -> y ∈ take (dc_branchIdx c') (dc_branches c')) ->
  is_Some (disc !! y) /\ (y ∈ stack -> map_get parent_low (dc_id c') <= dnum disc y)%Z.
Proof using Hgrey Hlow Hdone.
  intros Hsplit Hx Hle Hpost Hxy Htake.
  destruct (Z.lt_ge_cases (dnum disc x) (dnum disc (dc_id c))) as [Hlt|Hge].
  - destruct (li_bound _ _ _ _ _ Hlow pre c' (post ++ [c]) x y) as [Hvis Hb]; try done.
    + by rewrite Hsplit, <- app_assoc.
    + apply Forall_app. split; [done|]. by apply Forall_singleton.
    + split; [done|]. intros Hy. specialize (Hb Hy). pose proof (parent_low_le (dc_id c')). lia.
  - destruct (top_bound x y Hx Hge Hxy) as [Hvis Hb]. split; [done|]. intros Hy. specialize (Hb Hy).
    destruct post as [|q post _] using rev_ind.
    + unfold parent_low. rewrite Hsplit, last_snoc, map_get_lower, decide_True by done. lia.
    + exfalso. apply Forall_app in Hpost as [_ Hq]. rewrite Forall_singleton in Hq.
      assert (q ∈ rest) as Hqr%below_top; [|lia].
      rewrite Hsplit. apply elem_of_app. right. right. apply elem_of_app. right. by left.
Qed.

(** A node that is not the root of its component stays on the stack. *)
Lemma grey_inv_leave : map_get low (dc_id c) <> dnum disc (dc_id c) -> grey_inv disc stack rest.
Proof using Hgrey Hlow.
  intros Hne. pose proof Hgrey as [Hgs Hsorted Hbr Hreach Hback]. split; [| | |done|].
  - intros c' Hc'. apply Hgs, elem_of_app. by left.
  - by eapply StronglySorted_app_1_l.
  - intros c' Hc'. apply Hbr, elem_of_app. by left.
  - intros z Hz. destruct (Hback z Hz) as (c' & Hc' & Hle & Hr).
    apply elem_of_app in Hc' as [Hc'| ->%list_elem_of_singleton]; [by exists c'|].
    destruct (li_sound _ _ _ _ _ Hlow c top_elem) as [Hlow_le (w & Hw & Heq & Hrw)].
    destruct (Hback w Hw) as (c' & Hc' & Hle' & Hr').
    apply elem_of_app in Hc' as [Hc'| ->%list_elem_of_singleton]; [|lia].
    exists c'. split_and!; [done|lia|]. by do 2 (etrans; [eassumption|]).
Qed.

Lemma low_inv_leave : low_inv None disc parent_low stack rest.
Proof using Hgrey Hlow Hdone.
  split; [by apply parent_low_sound|]. intros pre c' post x y Hsplit Hx Hle Hpost Hxy Htake _.
  by eapply parent_low_bound.
Qed.

(** The root of a component: everything above it on the stack belongs to it. *)
Context (s1 s2 : list Z) (Hstack : stack = s1 ++ dc_id c :: s2).
Context (Hroot : map_get low (dc_id c) = dnum disc (dc_id c)).

Lemma below_root x : x ∈ s1 -> (dnum disc x < dnum disc (dc_id c))%Z.
Proof using Hdisc Hstack.
  intros Hx. pose proof (di_sorted _ _ _ Hdisc) as Hs. rewrite Hstack in Hs.
  by eapply (StronglySorted_app_1_elem_of _ _ _ x (dc_id c)) in Hs; [|done|left].
Qed.

Lemma above_root x : x ∈ dc_id c :: s2 -> (dnum disc (dc_id c) <= dnum disc x)%Z.
Proof using Hdisc Hstack.
  intros [->|Hx]%elem_of_cons; [done|]. pose proof (di_sorted _ _ _ Hdisc) as Hs. rewrite Hstack in Hs.
  apply StronglySorted_app_1_r, StronglySorted_cons in Hs as [Hs _]. rewrite Forall_forall in Hs.
  by apply Z.lt_le_incl, Hs.
Qed.

Lemma stack_split x : x ∈ stack -> x ∈ s1 \/ x ∈ dc_id c :: s2.
Proof using Hstack. rewrite Hstack. by intros ?%elem_of_app. Qed.

Lemma low_stack x : x ∈ stack -> (dnum disc x < dnum disc (dc_id c))%Z -> x ∈ s1.
Proof using Hdisc Hstack. intros [?|Hx%above_root]%stack_split Hlt; [done|lia]. Qed.

Lemma s1_stack x : x ∈ s1 -> x ∈ stack.
Proof using Hstack. rewrite Hstack. intros. apply elem_of_app. by left. Qed.

Lemma s2_stack x : x ∈ dc_id c :: s2 -> x ∈ stack.
Proof using Hstack. rewrite Hstack. intros. apply elem_of_app. by right. Qed.

Lemma disc_inv_unwind : disc_inv disc index s1.
Proof using Hdisc Hstack.
  destruct Hdisc as [Hn Hlt Hinj Hsorted Hs]. rewrite Hstack in Hsorted. split; try done.
  - by eapply StronglySorted_app_1_l.
  - intros x Hx. by apply Hs, s1_stack.
Qed.

Lemma grey_inv_unwind : grey_inv disc s1 rest.
Proof using Hdisc Hgrey Hstack.
  pose proof Hgrey as [Hgs Hsorted Hbr Hreach Hback]. split.
  - intros c' Hc'. apply low_stack; [apply Hgs, elem_of_app; by left|by apply below_top].
  - by eapply StronglySorted_app_1_l.
  - intros c' Hc'. apply Hbr, elem_of_app. by left.
  - intros x y Hx Hy. apply Hreach; by apply s1_stack.
  - intros z Hz. destruct (Hback z) as (c' & Hc' & Hle & Hr); [by apply s1_stack|].
    apply elem_of_app in Hc' as [Hc'| ->%list_elem_of_singleton]; [by exists c'|].
    apply below_root in Hz. lia.
Qed.

Lemma low_inv_unwind : low_inv None disc parent_low s1 rest.
Proof using Hdisc Hgrey Hlow Hdone Hstack.
  split.
  - intros c' Hc'. destruct (parent_low_sound c' Hc') as [Hle (w & Hw & Heq & Hr)]. split; [done|].
    exists w. split_and!; [|done|done]. apply low_stack; [done|]. apply below_top in Hc'. lia.
  - intros pre c' post x y Hsplit Hx Hle Hpost Hxy Htake _.
    destruct (parent_low_bound pre c' post x y) as [Hvis Hb]; try done; [by apply s1_stack|].
    split; [done|]. intros Hy. by apply Hb, s1_stack.
Qed.

Context (comp : gmap Z Z) (k : nat) (Hcomp : comp_inv disc stack comp k).

(** What is assigned stays assigned along edges. *)
Lemma assigned_closed x y i : comp !! x = Some i -> R x y -> is_Some (comp !! y).
Proof using Hcomp.
  intros Hx Hr. revert i Hx. induction Hr as [x|x z y Hxz _ IH]; intros i Hx; [by exists i|].
  destruct (ci_closed _ _ _ _ Hcomp _ _ _ Hx Hxz) as (j & Hj & _). by eapply IH.
Qed.

Lemma assigned_not_stack x i : comp !! x = Some i -> x ∉ stack.
Proof using Hcomp. intros Hx. apply (ci_dom _ _ _ _ Hcomp). by exists i. Qed.

(** The nodes above the root reach each other. *)
Lemma root_mutual x y : x ∈ dc_id c :: s2 -> y ∈ dc_id c :: s2 -> R x y.
Proof using Hdisc Hgrey Hstack.
  intros Hx Hy. pose proof Hgrey as [Hgs Hsorted _ Hreach Hback].
  pose proof (Hgs c top_elem) as Hcs.
  transitivity (dc_id c).
  - destruct (Hback x) as (c' & Hc' & Hle & Hr); [by apply s2_stack|]. etrans; [exact Hr|].
    apply Hreach; [by apply Hgs|done|].
    apply elem_of_app in Hc' as [Hc'| ->%list_elem_of_singleton]; [|done].
    apply below_top in Hc'. lia.
  - apply Hreach; [done|by apply s2_stack|by apply above_root].
Qed.

Lemma comp_inv_unwind comp' :
  (forall x, comp' !! x = if decide (x ∈ dc_id c :: s2) then Some (Z.of_nat k) else comp !! x) ->
  comp_inv disc s1 comp' (S k).
Proof using Hdisc Hgrey Hlow Hdone Hstack Hroot Hcomp.
  intros Hcomp'. split.
  - intros x. rewrite Hcomp'. case_decide as Hx.
    + split; [|by eauto]. intros _. split; [by apply (di_stack _ _ _ Hdisc), s2_stack|].
      intros Hs1%below_root. apply above_root in Hx. lia.
    + rewrite (ci_dom _ _ _ _ Hcomp). split; intros [Hd Hn]; (split; [done|]).
      * intros Hs1. by apply Hn, s1_stack.
      * intros [?|?]%stack_split; done.
  - intros x i. rewrite Hcomp'. case_decide as Hx; [intros [= <-]; lia|].
    intros Hi%(ci_range _ _ _ _ Hcomp). lia.
  - intros x i y. rewrite !Hcomp'. case_decide as Hx.
    + intros [= <-] Hxy. destruct (top_bound x y) as [Hvis Hb]; [by apply s2_stack|by apply above_root|done|].
      case_decide as Hy; [by exists (Z.of_nat k)|].
      destruct (proj2 (ci_dom _ _ _ _ Hcomp y)) as [j Hj].
      { split; [done|]. intros Hys. specialize (Hb Hys). apply stack_split in Hys as [Hys|?]; [|done].
        apply below_root in Hys. lia. }
      exists j. split; [done|]. apply (ci_range _ _ _ _ Hcomp) in Hj. lia.
    + intros Hi Hxy. destruct (ci_closed _ _ _ _ Hcomp _ _ _ Hi Hxy) as (j & Hj & Hle).
      rewrite decide_False; [by exists j|]. intros Hy%s2_stack. by apply assigned_not_stack in Hj.
  - intros x y i j. rewrite !Hcomp'.
    assert (Hmix : forall x y j, x ∈ dc_id c :: s2 -> comp !! y = Some j -> R y x -> False).
    { intros a b n Ha Hb Hr. destruct (assigned_closed _ _ _ Hb Hr) as [m Hm].
      apply assigned_not_stack in Hm. by apply Hm, s2_stack. }
    case_decide as Hx; case_decide as Hy.
    + intros [= <-] [= <-]. split; [|done]. intros _. split; by apply root_mutual.
    + intros [= <-] Hj. split.
      * intros <-. apply (ci_range _ _ _ _ Hcomp) in Hj. lia.
      * intros [_ Hr]. exfalso. by eapply Hmix.
    + intros Hi [= <-]. split.
      * intros ->. apply (ci_range _ _ _ _ Hcomp) in Hi. lia.
      * intros [Hr _]. exfalso. by eapply Hmix.
    + apply (ci_scc _ _ _ _ Hcomp).
Qed.
End pop.
End invariant.

(** ** The loop *)

Section loop.
Context {G B : Type} `{DirectedGraph G} `{Roaring B} `{!RoaringLaws B} (g : G) `{!LawfulDigraph g}.

Notation E := (dg_edge g DirectionOutbound).
Notation R := (rtc E).

Lemma unwind_spec id k (s1 s2 : list Z) (onStack comp : B) n2c : id ∉ s2 ->
  exists onStack' comp' n2c',
    unwind id k (reverse (s1 ++ id :: s2)) onStack comp n2c = Done (s1, onStack', comp', n2c') /\
    bset onStack' = bset onStack ∖ list_to_set (id :: s2) /\
    bset comp' = list_to_set (id :: s2) ∪ bset comp /\
    forall x, n2c' !! x = if decide (x ∈ id :: s2) then Some k else n2c !! x.
Proof.
  revert onStack comp n2c. induction s2 as [|t s2 IH] using rev_ind; intros onStack comp n2c Hid.
  - rewrite reverse_snoc. cbn [unwind]. rewrite Z.eqb_refl, reverse_involutive.
    eexists _, _, _. split; [done|]. autorewrite with bset. split_and!; [set_solver|set_solver|].
    intros x. case_decide as Hx; apply list_elem_of_singleton in Hx || rewrite list_elem_of_singleton in Hx.
    + subst. by rewrite lookup_insert_eq.
    + by rewrite lookup_insert_ne.
  - apply not_elem_of_app in Hid as [Hid Ht]. rewrite list_elem_of_singleton in Ht.
    rewrite app_comm_cons, app_assoc, reverse_snoc. cbn [unwind].
    rewrite (proj2 (Z.eqb_neq _ _)) by done.
    destruct (IH (bitmap64_Remove t onStack) (bitmap64_Add [t] comp) (<[t := k]> n2c) Hid)
      as (onStack' & comp' & n2c' & -> & Hon & Hc & Hn).
    eexists _, _, _. split; [done|]. rewrite Hon, Hc. autorewrite with bset.
    split_and!; [set_solver|set_solver|].
    intros x. rewrite Hn. destruct (decide (x = t)) as [->|Hne].
    + rewrite (decide_True (P := t ∈ (id :: s2) ++ [t])) by (apply elem_of_app; right; by left).
      case_decide; [done|]. by rewrite lookup_insert_eq.
    + rewrite lookup_insert_ne by done. repeat case_decide; set_solver.
Qed.

Record tj_inv (s : tarjan B) : Prop := {
  tv_index : (0 <= tj_index s)%Z;
  tv_disc : disc_inv g (tj_discIdx s) (tj_index s) (tj_stack s);
  tv_comp : comp_inv g (tj_discIdx s) (tj_stack s) (tj_nodeToComp s) (length (tj_components s));
  tv_grey : grey_inv g (tj_discIdx s) (tj_stack s) (tj_dfsStack s);
  tv_low : low_inv g None (tj_discIdx s) (tj_lowLink s) (tj_stack s) (tj_dfsStack s);
  tv_onStack : bset (tj_onStack s) = list_to_set (tj_stack s);
  tv_components : forall i b, tj_components s !! i = Some b ->
    forall x, x ∈ bset b <-> tj_nodeToComp s !! x = Some (Z.of_nat i);
  tv_inhabited : forall i, i < length (tj_components s) -> exists x, tj_nodeToComp s !! x = Some (Z.of_nat i)
}.

(** The work left: the neighbours of undiscovered nodes and of open cursors. *)
Definition degree (n : Z) : nat := length (dg_adj g n DirectionOutbound).
Definition white_work (disc : gmap Z Z) (nodes : list Z) : nat :=
  sum_list_with (fun n => match disc !! n with Some _ => 0 | None => S (degree n) end) nodes.
Definition cursor_work (c : descentCursor) : nat := S (length (dc_branches c) - dc_branchIdx c).
Definition work (s : tarjan B) : nat :=
  white_work (tj_discIdx s) (dg_nodes g) + sum_list_with cursor_work (tj_dfsStack s).

Lemma white_work_other disc y i nodes : y ∉ nodes ->
  white_work (<[y := i]> disc) nodes = white_work disc nodes.
Proof.
  unfold white_work. induction nodes as [|n nodes IH]; intros Hn; [done|].
  apply not_elem_of_cons in Hn as [Hne Hn]. cbn [sum_list_with]. rewrite IH by done.
  by rewrite lookup_insert_ne.
Qed.

Lemma white_work_discover disc y i nodes : NoDup nodes -> y ∈ nodes -> disc !! y = None ->
  white_work (<[y := i]> disc) nodes + S (degree y) = white_work disc nodes.
Proof.
  intros Hnd Hy Hnone. induction nodes as [|n nodes IH]; [by apply elem_of_nil in Hy|].
  apply NoDup_cons in Hnd as [Hn Hnd]. unfold white_work in *. cbn [sum_list_with].
  apply elem_of_cons in Hy as [->|Hy].
  - pose proof (white_work_other disc n i nodes Hn) as Heq. unfold white_work in Heq.
    rewrite Heq, lookup_insert_eq, Hnone. lia.
  - assert (n <> y) by (intros ->; done). rewrite lookup_insert_ne by done.
    specialize (IH Hnd Hy). lia.
Qed.

Lemma descend_inv s y v :
  (0 <= tj_index s)%Z -> disc_inv g (tj_discIdx s) (tj_index s) (tj_stack s) ->
  comp_inv g (tj_discIdx s) (tj_stack s) (tj_nodeToComp s) (length (tj_components s)) ->
  grey_inv g (tj_discIdx s) (tj_stack s) (tj_dfsStack s) ->
  low_inv g (Some (v, y)) (tj_discIdx s) (tj_lowLink s) (tj_stack s) (tj_dfsStack s) ->
  bset (tj_onStack s) = list_to_set (tj_stack s) ->
  (forall i b, tj_components s !! i = Some b ->
    forall x, x ∈ bset b <-> tj_nodeToComp s !! x = Some (Z.of_nat i)) ->
  (forall i, i < length (tj_components s) -> exists x, tj_nodeToComp s !! x = Some (Z.of_nat i)) ->
  tj_discIdx s !! y = None -> y ∈ dg_nodes g ->
  (tj_dfsStack s = [] \/ exists rest c, tj_dfsStack s = rest ++ [c] /\ E (dc_id c) y) ->
  tj_inv (tarjan_descend g y s) /\ work (tarjan_descend g y s) = work s.
Proof.
  intros Hix Hdisc Hcomp Hgrey Hlow Hon Hcs Hinh Hy Hnode Hfrom. split.
  - split; cbn [tarjan_descend tj_index tj_discIdx tj_lowLink tj_onStack tj_stack tj_dfsStack
                tj_components tj_nodeToComp]; rewrite ?(AdjacentNodes_dg g); try done.
    + lia.
    + by apply disc_inv_push.
    + by apply comp_inv_push.
    + by apply grey_inv_push.
    + by eapply low_inv_push.
    + autorewrite with bset. rewrite Hon, list_to_set_app_L. set_solver.
  - unfold work. cbn [tarjan_descend tj_discIdx tj_dfsStack]. rewrite (AdjacentNodes_dg g).
    rewrite <- (white_work_discover _ y (tj_index s) _ (dg_NoDup (g := g)) Hnode Hy).
    rewrite sum_list_with_app. cbn [sum_list_with]. unfold cursor_work at 2.
    cbn [dc_branches dc_branchIdx]. unfold degree. lia.
Qed.

Lemma scan_inv s rest c y : tj_inv s -> tj_dfsStack s = rest ++ [c] ->
  dc_branches c !! dc_branchIdx c = Some y ->
  tj_inv (tarjan_scan g c rest y s) /\ work (tarjan_scan g c rest y s) < work s.
Proof.
  intros [Hix Hdisc Hcomp Hgrey Hlow Hon Hcs Hinh] Hdfs Hnext. rewrite Hdfs in Hgrey, Hlow.
  assert (Hedge : E (dc_id c) y).
  { unfold dg_edge. destruct (gi_branches _ _ _ _ Hgrey c) as [<- _]; [apply top_elem|].
    by eapply list_elem_of_lookup_2. }
  pose proof (grey_inv_advance g _ _ _ _ _ Hnext Hgrey) as Hgrey'.
  pose proof (low_inv_advance g _ _ _ _ _ _ Hnext Hlow) as Hlow'.
  assert (Hwork : S (sum_list_with cursor_work (rest ++ [advance c])) = sum_list_with cursor_work (rest ++ [c])).
  { rewrite !sum_list_with_app. cbn [sum_list_with]. unfold cursor_work at 2 4, advance.
    cbn [dc_branches dc_branchIdx]. apply lookup_lt_Some in Hnext. lia. }
  unfold tarjan_scan. fold (advance c). destruct (tj_discIdx s !! y) as [dy|] eqn:Hy.
  - assert (Hdy : map_get (tj_discIdx s) y = dy) by (unfold map_get; by rewrite Hy).
    rewrite bset_Contains, Hon. case_bool_decide as Hin; rewrite elem_of_list_to_set in Hin.
    + split; [|unfold work; cbn [tj_discIdx tj_dfsStack]; rewrite Hdfs; lia].
      split; cbn [tj_index tj_discIdx tj_lowLink tj_onStack tj_stack tj_dfsStack tj_components tj_nodeToComp];
        try done.
      rewrite <- Hdy. apply (low_inv_back g _ _ _ _ (advance c) y); done.
    + split; [|unfold work; cbn [tj_discIdx tj_dfsStack]; rewrite Hdfs; lia].
      split; cbn [tj_index tj_discIdx tj_lowLink tj_onStack tj_stack tj_dfsStack tj_components tj_nodeToComp];
        try done.
      by eapply low_inv_skip.
  - match goal with |- tj_inv (tarjan_descend _ _ ?t) /\ _ => set (s' := t) end.
    destruct (descend_inv s' y (dc_id c)) as [Hinv' Hw]; try done.
    + by apply (dg_closed (g := g) (dc_id c) y DirectionOutbound).
    + right. by exists rest, (advance c).
    + split; [done|]. rewrite Hw. unfold work, s'. cbn [tj_discIdx tj_dfsStack]. rewrite Hdfs. lia.
Qed.

(** The new component goes to the end. *)
Lemma components_snoc (cs : list B) b (n2c n2c' : gmap Z Z) (members : list Z) :
  (forall i b, cs !! i = Some b -> forall x, x ∈ bset b <-> n2c !! x = Some (Z.of_nat i)) ->
  bset b = list_to_set members ->
  (forall x, n2c' !! x = if decide (x ∈ members) then Some (Z.of_nat (length cs)) else n2c !! x) ->
  (forall x i, n2c !! x = Some i -> 0 <= i < Z.of_nat (length cs))%Z ->
  (forall x, x ∈ members -> n2c !! x = None) ->
  forall i b', (cs ++ [b]) !! i = Some b' -> forall x, x ∈ bset b' <-> n2c' !! x = Some (Z.of_nat i).
Proof.
  intros Hcs Hb Hn' Hrange Hnone i b' Hi x. rewrite Hn'.
  apply lookup_snoc_Some in Hi as [[Hlt Hi]|[-> <-]].
  - rewrite (Hcs _ _ Hi). case_decide as Hx; [|done]. rewrite (Hnone x Hx). split; [done|].
    intros [= Heq]. lia.
  - rewrite Hb, elem_of_list_to_set. case_decide as Hx; [done|]. split; [done|].
    intros Heq. apply Hrange in Heq. lia.
Qed.

Lemma pop_inv s rest c : tj_inv s -> tj_dfsStack s = rest ++ [c] ->
  dc_branches c !! dc_branchIdx c = None ->
  exists s', tarjan_pop c rest s = Done s' /\ tj_inv s' /\ work s' < work s /\
    tj_discIdx s' = tj_discIdx s.
Proof.
  intros [Hix Hdisc Hcomp Hgrey Hlow Hon Hcs Hinh] Hdfs Hnext. rewrite Hdfs in Hgrey, Hlow.
  assert (Hwork : forall s', tj_discIdx s' = tj_discIdx s -> tj_dfsStack s' = rest -> work s' < work s).
  { intros s' Hd Hr. unfold work. rewrite Hd, Hr, Hdfs, sum_list_with_app. cbn [sum_list_with].
    unfold cursor_work at 3. lia. }
  unfold tarjan_pop. fold (parent_low (tj_lowLink s) rest c). rewrite (parent_low_top g _ _ _ _ _ Hgrey).
  destruct (Z.eqb_spec (map_get (tj_lowLink s) (dc_id c)) (map_get (tj_discIdx s) (dc_id c))) as [Hroot|Hne].
  - pose proof (gi_stack _ _ _ _ Hgrey c (top_elem _ _)) as Hin.
    apply list_elem_of_split in Hin as (s1 & s2 & Hstack).
    assert (Hid : dc_id c ∉ s2).
    { pose proof (di_sorted _ _ _ _ Hdisc) as Hs. rewrite Hstack in Hs.
      apply StronglySorted_app_1_r, StronglySorted_cons in Hs as [Hs _].
      intros Hin. rewrite Forall_forall in Hs. specialize (Hs _ Hin). lia. }
    rewrite Hstack.
    destruct (unwind_spec (dc_id c) (Z.of_nat (length (tj_components s))) s1 s2 (tj_onStack s) NewBitmap64
                (tj_nodeToComp s) Hid) as (on' & comp' & n2c' & -> & Hon' & Hc' & Hn').
    cbn [mbind outcome_bind]. eexists. split; [done|].
    assert (Hcomp' : comp_inv g (tj_discIdx s) s1 n2c' (S (length (tj_components s))))
      by (by eapply comp_inv_unwind).
    split; [|split; [by apply Hwork|done]].
    split; cbn [tj_index tj_discIdx tj_lowLink tj_onStack tj_stack tj_dfsStack tj_components tj_nodeToComp].
    + done.
    + by eapply disc_inv_unwind.
    + by rewrite length_app, Nat.add_comm.
    + by eapply grey_inv_unwind.
    + by eapply low_inv_unwind.
    + rewrite Hon', Hon, Hstack, list_to_set_app_L.
      assert (list_to_set s1 ## (list_to_set (dc_id c :: s2) : gset Z)); [|set_solver].
      intros x Hx1 Hx2. rewrite elem_of_list_to_set in Hx1, Hx2.
      pose proof (below_root g _ _ _ _ Hdisc s1 s2 Hstack x Hx1).
      pose proof (above_root g _ _ _ _ Hdisc s1 s2 Hstack x Hx2). lia.
    + apply (components_snoc _ _ (tj_nodeToComp s) _ (dc_id c :: s2)); try done.
      * rewrite Hc'. autorewrite with bset. set_solver.
      * intros x i Hx. by apply (ci_range _ _ _ _ _ Hcomp x).
      * intros x Hx. apply eq_None_not_Some. intros [i Hi]. apply (assigned_not_stack g _ _ _ _ Hcomp) in Hi.
        apply Hi. rewrite Hstack. apply elem_of_app. by right.
    + intros i. rewrite length_app. simpl. intros Hi.
      destruct (decide (i = length (tj_components s))) as [->|Hne].
      * exists (dc_id c). rewrite Hn'. by rewrite decide_True by by left.
      * destruct (Hinh i) as [x Hx]; [lia|]. exists x. rewrite Hn', decide_False; [done|].
        intros Hx2. apply (assigned_not_stack g _ _ _ _ Hcomp) in Hx. apply Hx. rewrite Hstack.
        apply elem_of_app. by right.
  - eexists. split; [done|]. split; [|split; [by apply Hwork|done]].
    split; cbn [tj_index tj_discIdx tj_lowLink tj_onStack tj_stack tj_dfsStack tj_components tj_nodeToComp];
      try done.
    + by eapply grey_inv_leave.
    + by eapply low_inv_leave.
Qed.

Lemma scan_disc s rest c y x :
  is_Some (tj_discIdx s !! x) -> is_Some (tj_discIdx (tarjan_scan g c rest y s) !! x).
Proof.
  intros Hx. unfold tarjan_scan. destruct (tj_discIdx s !! y) eqn:Hy; [by destruct (bitmap64_Contains _ _)|].
  cbn [tarjan_descend tj_discIdx]. apply lookup_insert_is_Some'. by right.
Qed.

(** One depth-first search, from a state where [D] is discovered. *)
Lemma tarjan_loop (D : Z -> Prop) fuel s :
  tj_inv s -> (forall x, D x -> is_Some (tj_discIdx s !! x)) -> work s < fuel ->
  exists s', iterate fuel (tarjan_step g) s = Some (Done s') /\ tj_inv s' /\ tj_dfsStack s' = [] /\
    (forall x, D x -> is_Some (tj_discIdx s' !! x)).
Proof.
  intros Hinv HD Hfuel.
  destruct (iterate_total (fun s => tj_inv s /\ forall x, D x -> is_Some (tj_discIdx s !! x)) work
    (fun r => exists s', r = Done s' /\ tj_inv s' /\ tj_dfsStack s' = [] /\
       (forall x, D x -> is_Some (tj_discIdx s' !! x))) (tarjan_step g)) with (fuel := fuel) (s := s)
    as (r & Hr & s' & -> & Hs'); [|done|done|by exists s'].
  clear s Hinv HD Hfuel. intros s [Hinv HD]. unfold tarjan_step.
  destruct (tj_dfsStack s) as [|c rest _] eqn:Hdfs using rev_ind.
  - rewrite deque_PopBack_nil. by exists s.
  - rewrite deque_PopBack_snoc. destruct (dc_branches c !! dc_branchIdx c) as [y|] eqn:Hnext.
    + destruct (scan_inv _ _ _ _ Hinv Hdfs Hnext) as [Hinv' Hw]. split; [|done]. split; [done|].
      intros x Hx. by apply scan_disc, HD.
    + destruct (pop_inv _ _ _ Hinv Hdfs Hnext) as (s' & -> & Hinv' & Hw & Heq).
      split; [|done]. split; [done|]. by rewrite Heq.
Qed.

Lemma tarjan_fuel_work disc : white_work disc (dg_nodes g) < tarjan_fuel g.
Proof.
  unfold tarjan_fuel. rewrite dg_EachNode.
  rewrite (each_continue _ (fun n fuel => fuel + S (length (AdjacentNodes g n DirectionOutbound)))) by done.
  assert (Hgen : forall nodes k, white_work disc nodes + k <=
    foldl (fun fuel n => fuel + S (length (AdjacentNodes g n DirectionOutbound))) k nodes).
  { induction nodes as [|n nodes IH]; intros k; [done|]. cbn [foldl]. rewrite <- IH.
    unfold white_work. cbn [sum_list_with]. rewrite (AdjacentNodes_dg g). unfold degree.
    destruct (disc !! n); lia. }
  specialize (Hgen (dg_nodes g) 1). lia.
Qed.

Lemma tarjan_start_inv (D : Z -> Prop) s n :
  tj_inv s -> tj_dfsStack s = [] -> (forall x, D x -> is_Some (tj_discIdx s !! x)) -> n ∈ dg_nodes g ->
  exists s', (tarjan_start g n (Done s)).1 = Done s' /\ tj_inv s' /\ tj_dfsStack s' = [] /\
    (forall x, D x \/ x = n -> is_Some (tj_discIdx s' !! x)).
Proof.
  intros Hinv Hdfs HD Hn. unfold tarjan_start. cbn [mbind outcome_bind fst].
  destruct (tj_discIdx s !! n) as [i|] eqn:Hi.
  { exists s. split_and!; [done..|]. intros x [?| ->]; [by apply HD|by exists i]. }
  destruct Hinv as [Hix Hdisc Hcomp Hgrey Hlow Hon Hcs Hinh].
  destruct (descend_inv s n 0) as [Hinv' Hw]; try done.
  { rewrite Hdfs. split; [by intros c ?%elem_of_nil|]. intros [] ????; done. }
  { by left. }
  destruct (tarjan_loop (fun x => D x \/ x = n) (tarjan_fuel g) (tarjan_descend g n s)) as (s' & -> & Hs').
  - done.
  - intros x Hx. cbn [tarjan_descend tj_discIdx]. apply lookup_insert_is_Some'.
    destruct Hx as [Hx| ->]; [right; by apply HD|by left].
  - rewrite Hw. unfold work. rewrite Hdfs. cbn [sum_list_with].
    pose proof (tarjan_fuel_work (tj_discIdx s)). lia.
  - by exists s'.
Qed.

Lemma tj_inv_init : tj_inv tarjan_init.
Proof.
  split; cbn [tarjan_init tj_index tj_discIdx tj_lowLink tj_onStack tj_stack tj_dfsStack tj_components
              tj_nodeToComp]; try done.
  - split; intros *; rewrite ?lookup_empty; try done; [constructor|by intros ?%elem_of_nil].
  - split; intros *; rewrite ?lookup_empty; try done. split; [by intros []|by intros [[] _]].
  - split; intros *; rewrite ?elem_of_nil; try done. constructor.
  - split; [by intros c ?%elem_of_nil|]. intros [] ????; done.
  - apply bset_New.
  - intros i Hi. simpl in Hi. lia.
Qed.

Lemma tarjan_starts nodes (D : Z -> Prop) s :
  tj_inv s -> tj_dfsStack s = [] -> (forall x, D x -> is_Some (tj_discIdx s !! x)) ->
  (forall x, x ∈ nodes -> x ∈ dg_nodes g) ->
  exists s', each (tarjan_start g) nodes (Done s) = Done s' /\ tj_inv s' /\ tj_dfsStack s' = [] /\
    (forall x, D x \/ x ∈ nodes -> is_Some (tj_discIdx s' !! x)).
Proof.
  revert D s. induction nodes as [|n nodes IH]; intros D s Hinv Hdfs HD Hsub.
  - exists s. split_and!; [done..|]. intros x [?|?%elem_of_nil]; [by apply HD|done].
  - destruct (tarjan_start_inv D s n Hinv Hdfs HD) as (s1 & Hs1 & Hinv1 & Hdfs1 & HD1);
      [apply Hsub; by left|].
    destruct (IH (fun x => D x \/ x = n) s1 Hinv1 Hdfs1 HD1) as (s2 & Hs2 & Hinv2 & Hdfs2 & HD2);
      [intros x Hx; apply Hsub; by right|].
    exists s2. cbn [each]. unfold tarjan_start at 1. unfold tarjan_start at 1 in Hs1. cbn [fst] in Hs1.
    rewrite Hs1. split_and!; [done..|]. intros x Hx. apply HD2. rewrite elem_of_cons in Hx. tauto.
Qed.

(** The result of the whole function. *)
Record scc_spec (components : list B) (nodeToComp : gmap Z Z) : Prop := {
  scc_dom : forall x, is_Some (nodeToComp !! x) <-> x ∈ dg_nodes g;
  scc_range : forall x i, nodeToComp !! x = Some i -> (0 <= i < Z.of_nat (length components))%Z;
  scc_members : forall i b, components !! i = Some b ->
    forall x, x ∈ bset b <-> nodeToComp !! x = Some (Z.of_nat i);
  scc_inhabited : forall i, i < length components -> exists x, nodeToComp !! x = Some (Z.of_nat i);
  scc_classes : forall x y i j, nodeToComp !! x = Some i -> nodeToComp !! y = Some j ->
    (i = j <-> R x y /\ R y x);
  scc_order : forall x y i j, nodeToComp !! x = Some i -> nodeToComp !! y = Some j -> E x y -> (j <= i)%Z
}.

Lemma StronglyConnectedComponents_total :
  exists components nodeToComp,
    StronglyConnectedComponents (B := B) g = Done (components, nodeToComp) /\
    scc_spec components nodeToComp.
Proof.
  unfold StronglyConnectedComponents. rewrite dg_EachNode.
  destruct (tarjan_starts (dg_nodes g) (fun _ => False) tarjan_init tj_inv_init) as (s & -> & Hinv & Hdfs & HD);
    [done|done|done|].
  exists (tj_components s), (tj_nodeToComp s). split; [done|].
  destruct Hinv as [_ Hdisc Hcomp Hgrey _ _ Hcs Hinh].
  assert (Hstack : forall x, x ∉ tj_stack s).
  { intros x Hx. destruct (gi_back _ _ _ _ Hgrey x Hx) as (c & Hc & _). rewrite Hdfs in Hc.
    by apply elem_of_nil in Hc. }
  split; try done.
  - intros x. rewrite (ci_dom _ _ _ _ _ Hcomp). split.
    + intros [[i Hi] _]. by eapply (di_nodes _ _ _ _ Hdisc).
    + intros Hx. split; [|done]. apply HD. by right.
  - intros x i. apply (ci_range _ _ _ _ _ Hcomp).
  - intros x y i j. apply (ci_scc _ _ _ _ _ Hcomp).
  - intros x y i j Hx Hy Hxy. destruct (ci_closed _ _ _ _ _ Hcomp _ _ _ Hx Hxy) as (j' & Hj' & Hle).
    congruence.
Qed.
End loop.

(** ** Properties *)

(** [C5] [StronglyConnectedComponents] terminates without panic on every lawful
    graph.  Every node gets a component number; two nodes get the same number
    exactly when each reaches the other; the bitmap at a number holds exactly
    the nodes with it and is not empty; and an edge never leads to a later
    component, so the components come in reverse topological order. *)
Theorem StronglyConnectedComponents_correct {G B : Type} `{DirectedGraph G} `{Roaring B} `{!RoaringLaws B}
    (g : G) `{!LawfulDigraph g} :
  exists components nodeToComp,
    StronglyConnectedComponents (B := B) g = Done (components, nodeToComp) /\
    scc_spec g components nodeToComp.
Proof. apply StronglyConnectedComponents_total. Qed.

(** 1 -> 2 -> 3 -> 1 and 3 -> 4. *)
Lemma StronglyConnectedComponents_correct_witness :
  exists g (components : list (gset Z)) nodeToComp,
    CSRDigraphBuilder_Build (run_builder (B := gset Z)
      [OpAddEdge 1 2; OpAddEdge 2 3; OpAddEdge 3 1; OpAddEdge 3 4]) = Done g /\
    StronglyConnectedComponents g = Done (components, nodeToComp) /\
    bitmap64_Slice <$> components = [[4]; [1; 2; 3]]%Z.
Proof.
  destruct (run_builder_Build (B := gset Z)
    [OpAddEdge 1 2; OpAddEdge 2 3; OpAddEdge 3 1; OpAddEdge 3 4]) as (g & outs & ins & HB & Hrep);
    [vm_compute; done|].
  destruct (StronglyConnectedComponents_correct (B := gset Z) g
    (LawfulDigraph0 := csr_lawful _ _ _ _ _ Hrep)) as (cs & m & Hrun & _).
  exists g, cs, m. split_and!; [exact HB|exact Hrun|].
  vm_compute in HB. injection HB as <-. vm_compute in Hrun. injection Hrun as <- _. reflexivity.
Defined.
