(* ===== verification/Components.v ===== *)
(** * algo/scc.go: the graph of strongly connected components

    [NewComponentGraph] contracts every component to a vertex;
    [ComponentSearch] and [ComponentReachable] search the contracted graph, the
    second from both ends.  The context of the Go code is the sequence of
    answers [util.IsContextLive] gives, one per call. *)

From S2P Require Import Prelude Bitmap Digraph Csr Scc.

Section component_graph.
Context {G B : Type} `{DirectedGraph G} `{Roaring B}.

Record ComponentGraph : Type := {
  cg_componentMembers : list B;
  cg_memberComponentLookup : gmap Z Z;
  cg_digraph : G
}.

Definition ComponentGraph_HasMember (s : ComponentGraph) (memberID : Z) : bool :=
  match cg_memberComponentLookup s !! memberID with Some _ => true | None => false end.

Definition ComponentGraph_KnownMembers (s : ComponentGraph) : B :=
  foldl (fun members entry => bitmap64_Add [entry.1] members) NewBitmap64
    (map_to_list (cg_memberComponentLookup s)).

Definition ComponentGraph_Digraph (s : ComponentGraph) : G := cg_digraph s.

(** [None] is the Go pair [(0, false)]. *)
Definition ComponentGraph_ContainingComponent (s : ComponentGraph) (memberID : Z) : option Z :=
  cg_memberComponentLookup s !! memberID.

Definition ComponentGraph_ComponentMembers (s : ComponentGraph) (componentID : Z) : outcome B :=
  slice_get (cg_componentMembers s) componentID.

Definition ComponentGraph_CollectComponentMembers (s : ComponentGraph) (componentID : Z) (members : B)
  : outcome B :=
  b ← slice_get (cg_componentMembers s) componentID;
  Done (bitmap64_Or members (Bitmap64 b)).

(** ** ComponentSearch *)

Definition search_visit (endComponent adjacentComponent : Z) (st : B * list Z * bool)
  : (B * list Z * bool) * bool :=
  let '(visited, traversals, _) := st in
  if (adjacentComponent =? endComponent)%Z then ((visited, traversals, true), false)
  else
    let '(visited', added) := bitmap64_CheckedAdd adjacentComponent visited in
    ((visited', if added then traversals ++ [adjacentComponent] else traversals, false), true).

Definition search_step (s : ComponentGraph) (endComponent : Z) (direction : Direction)
    (st : B * list Z * bool) : (B * list Z * bool) + bool :=
  let '(visited, traversals, reachable) := st in
  if reachable : bool then inr true
  else match traversals with
       | [] => inr reachable
       | nextComponent :: rest =>
           inl (EachAdjacentNode (cg_digraph s) nextComponent direction (search_visit endComponent)
                  (visited, rest, reachable))
       end.

(** A component enters the queue once, besides the start. *)
Definition search_fuel (s : ComponentGraph) : nat := S (S (S (Z.to_nat (NumNodes (cg_digraph s))))).

Definition ComponentGraph_ComponentSearch (s : ComponentGraph) (startComponent endComponent : Z)
    (direction : Direction) : option bool :=
  if (startComponent =? endComponent)%Z then Some true
  else iterate (search_fuel s) (search_step s endComponent direction)
         (NewBitmap64, [startComponent], false).

(** ** ComponentReachable *)

Record bidirectional : Type := {
  bd_outboundQueue : list Z;
  bd_inboundQueue : list Z;
  bd_outboundComponents : B;
  bd_inboundComponents : B;
  bd_visitedComponents : B;
  bd_reachable : bool
}.

(** The body of both enumerations: [mine] is the side being extended, [other]
    the opposite one. *)
Definition reach_visit (other : B) (adjacentComponent : Z) (st : B * list Z * bool)
  : (B * list Z * bool) * bool :=
  let '(mine, queue, reachable) := st in
  let '(mine', added) := bitmap64_CheckedAdd adjacentComponent mine in
  if added : bool then
    let reachable' := bitmap64_Contains adjacentComponent other in
    ((mine', queue ++ [adjacentComponent], reachable'), negb reachable')
  else ((mine', queue, reachable), negb reachable).

Definition outbound_turn (s : ComponentGraph) (direction : Direction) (nextComponent : Z)
    (outboundQueue : list Z) (st : bidirectional) : bidirectional :=
  let '(visited, added) := bitmap64_CheckedAdd nextComponent (bd_visitedComponents st) in
  if added : bool then
    let '(outbound, queue, reachable) :=
      EachAdjacentNode (cg_digraph s) nextComponent direction (reach_visit (bd_inboundComponents st))
        (bd_outboundComponents st, outboundQueue, bd_reachable st) in
    {| bd_outboundQueue := queue; bd_inboundQueue := bd_inboundQueue st;
       bd_outboundComponents := outbound; bd_inboundComponents := bd_inboundComponents st;
       bd_visitedComponents := visited; bd_reachable := reachable |}
  else
    {| bd_outboundQueue := outboundQueue; bd_inboundQueue := bd_inboundQueue st;
       bd_outboundComponents := bd_outboundComponents st;
       bd_inboundComponents := bd_inboundComponents st;
       bd_visitedComponents := visited; bd_reachable := bd_reachable st |}.

(** The [else if inboundQueueLen > 0] and [else { break }] branches. *)
Definition inbound_turn (s : ComponentGraph) (direction : Direction) (st : bidirectional)
  : bidirectional + bool :=
  match bd_inboundQueue st with
  | [] => inr (bd_reachable st)
  | nextComponent :: inboundQueue =>
      let '(inbound, queue, reachable) :=
        EachAdjacentNode (cg_digraph s) nextComponent (Direction_Reverse direction)
          (reach_visit (bd_outboundComponents st))
          (bd_inboundComponents st, inboundQueue, bd_reachable st) in
      inl {| bd_outboundQueue := bd_outboundQueue st; bd_inboundQueue := queue;
             bd_outboundComponents := bd_outboundComponents st; bd_inboundComponents := inbound;
             bd_visitedComponents := bd_visitedComponents st; bd_reachable := reachable |}
  end.

Definition reachable_step (s : ComponentGraph) (direction : Direction) (st : bidirectional)
  : bidirectional + bool :=
  if bd_reachable st then inr true
  else match bd_outboundQueue st with
       | nextComponent :: outboundQueue =>
           if length (bd_outboundQueue st) <=? length (bd_inboundQueue st)
           then inl (outbound_turn s direction nextComponent outboundQueue st)
           else inbound_turn s direction st
       | [] => inbound_turn s direction st
       end.

(** A component enters each queue once. *)
Definition reachable_fuel (s : ComponentGraph) : nat := 4 + 2 * Z.to_nat (NumNodes (cg_digraph s)).

Definition ComponentGraph_ComponentReachable (s : ComponentGraph) (startComponent endComponent : Z)
    (direction : Direction) : option bool :=
  if (startComponent =? endComponent)%Z then Some true
  else iterate (reachable_fuel s) (reachable_step s direction)
         {| bd_outboundQueue := [startComponent]; bd_inboundQueue := [endComponent];
            bd_outboundComponents := bitmap64_Add [startComponent] NewBitmap64;
            bd_inboundComponents := bitmap64_Add [endComponent] NewBitmap64;
            bd_visitedComponents := NewBitmap64; bd_reachable := false |}.

(** [histogram[component] += 1] for the origin nodes that are members. *)
Definition ComponentGraph_ComponentHistogram (s : ComponentGraph) (originNodes : list Z) : gmap Z Z :=
  foldl (fun histogram originNode =>
           match ComponentGraph_ContainingComponent s originNode with
           | Some component => <[component := wrap64 (map_get histogram component + 1)]> histogram
           | None => histogram
           end) ∅ originNodes.

Definition ComponentGraph_OriginReachable (s : ComponentGraph) (startID endID : Z) : option bool :=
  match ComponentGraph_ContainingComponent s startID, ComponentGraph_ContainingComponent s endID with
  | Some startComponent, Some endComponent =>
      ComponentGraph_ComponentReachable s startComponent endComponent DirectionBoth
  | _, _ => Some false
  end.
End component_graph.
Arguments ComponentGraph G B : clear implicits.

(** ** NewComponentGraph *)

Section new.
Context {G B : Type} `{DirectedGraph G} `{Roaring B}.

(** The answer of the [k]-th call to [util.IsContextLive(ctx)]. *)
Definition context : Type := nat -> bool.

Definition link_inbound (live : context) (lookup : gmap Z Z) (nodeComponent adjacent : Z)
    (st : CSRDigraphBuilder B * nat) : (CSRDigraphBuilder B * nat) * bool :=
  let '(builder, k) := st in
  let adjacentComponent := map_get lookup adjacent in
  ((if (nodeComponent =? adjacentComponent)%Z then builder
    else CSRDigraphBuilder_AddEdge builder adjacentComponent nodeComponent, S k), live k).

Definition link_outbound (live : context) (lookup : gmap Z Z) (nodeComponent adjacent : Z)
    (st : CSRDigraphBuilder B * nat) : (CSRDigraphBuilder B * nat) * bool :=
  let '(builder, k) := st in
  let adjacentComponent := map_get lookup adjacent in
  ((if (nodeComponent =? adjacentComponent)%Z then builder
    else CSRDigraphBuilder_AddEdge builder nodeComponent adjacentComponent, S k), live k).

Definition link_node (live : context) (originGraph : G) (lookup : gmap Z Z) (node : Z)
    (st : CSRDigraphBuilder B * nat) : (CSRDigraphBuilder B * nat) * bool :=
  let nodeComponent := map_get lookup node in
  let st1 := EachAdjacentNode originGraph node DirectionInbound (link_inbound live lookup nodeComponent) st in
  let st2 := EachAdjacentNode originGraph node DirectionOutbound (link_outbound live lookup nodeComponent) st1 in
  ((st2.1, S st2.2), live st2.2).

Definition NewComponentGraph (live : context) (originGraph : G) : outcome (ComponentGraph csrDigraph B) :=
  '(componentMembers, memberComponentLookup) ← StronglyConnectedComponents (B := B) originGraph;
  let builder :=
    foldl (fun builder componentID => CSRDigraphBuilder_AddNode builder (Z.of_nat componentID))
      NewCSRDigraphBuilder (seq 0 (length componentMembers)) in
  let '(builder', _) :=
    EachNode originGraph (link_node live originGraph memberComponentLookup) (builder, 0) in
  digraph ← CSRDigraphBuilder_Build builder';
  Done {| cg_componentMembers := componentMembers;
          cg_memberComponentLookup := memberComponentLookup;
          cg_digraph := digraph |}.
End new.

(** ** The searches are exact *)

Section searches.
Context {G B : Type} `{DirectedGraph G} `{Roaring B} `{!RoaringLaws B}.
Context (cg : ComponentGraph G B) `{!LawfulDigraph (cg_digraph cg)}.

Notation g := (cg_digraph cg).

(** The nodes a search has not seen. *)
Definition unseen (v : gset Z) : nat := size (list_to_set (dg_nodes g) ∖ v).

Lemma unseen_fresh v l : (forall x, x ∈ l -> x ∈ dg_nodes g) ->
  unseen (list_to_set l ∪ v) + length (fresh v l) = unseen v.
Proof.
  intros Hl. unfold unseen. rewrite <- (size_list_to_set (C := gset Z) (fresh v l)) by apply fresh_NoDup.
  rewrite <- size_union.
  - f_equal. apply set_eq. intros x.
    rewrite elem_of_union, !elem_of_difference, elem_of_union, !elem_of_list_to_set, elem_of_fresh.
    destruct (decide (x ∈ v)), (decide (x ∈ l)); naive_solver.
  - intros x. rewrite elem_of_difference, elem_of_union, !elem_of_list_to_set, elem_of_fresh. tauto.
Qed.

Lemma unseen_all v : unseen v <= Z.to_nat (NumNodes g).
Proof.
  unfold unseen. rewrite dg_NumNodes, Nat2Z.id.
  rewrite <- (size_list_to_set (C := gset Z)) by apply dg_NoDup.
  apply subseteq_size. set_solver.
Qed.

Lemma search_visit_each e l (v : B) q :
  if decide (e ∈ l) then exists v' q', each (search_visit e) l (v, q, false) = (v', q', true)
  else exists v', each (search_visit e) l (v, q, false) = (v', q ++ fresh (bset v) l, false) /\
         bset v' = list_to_set l ∪ bset v.
Proof.
  revert v q. induction l as [|x l IH]; intros v q.
  - rewrite decide_False by (by intros ?%elem_of_nil). exists v. cbn. rewrite app_nil_r. split; [done|set_solver].
  - cbn [each search_visit]. destruct (Z.eqb_spec x e) as [->|Hne].
    { rewrite decide_True by by left. by exists v, q. }
    rewrite bset_CheckedAdd. cbn [fresh].
    specialize (IH (rb_Add x v) (if negb (bool_decide (x ∈ bset v)) then q ++ [x] else q)).
    destruct (decide (e ∈ l)) as [Hin|Hnin].
    + rewrite decide_True by by right. exact IH.
    + rewrite decide_False by (intros [|]%elem_of_cons; done).
      destruct IH as (v' & -> & Hv'). exists v'. rewrite Hv'. autorewrite with bset.
      split; [|set_solver]. f_equal. f_equal. case_bool_decide; simpl.
      * rewrite decide_True by done. by replace ({[x]} ∪ bset v) with (bset v) by set_solver.
      * rewrite decide_False by done. by rewrite <- app_assoc.
Qed.

Section component_search.
Context (d : Direction) (a e : Z) (Hae : a <> e).

Notation E := (dg_edge g d).

Record search_inv (v : B) (q : list Z) : Prop := {
  sr_queue : forall x, x ∈ q -> x = a \/ x ∈ bset v;
  sr_sound : forall x, x ∈ bset v -> rtc E a x;
  sr_closed : forall x y, x = a \/ x ∈ bset v -> E x y -> x ∈ q \/ y ∈ bset v;
  sr_end : e ∉ bset v
}.

Definition search_ok (st : B * list Z * bool) : Prop :=
  let '(v, q, reachable) := st in
  if reachable : bool then rtc E a e else search_inv v q.

Definition search_measure (st : B * list Z * bool) : nat :=
  let '(v, q, reachable) := st in if reachable : bool then 0 else S (unseen (bset v) + length q).

Lemma search_inv_step v x q : search_inv v (x :: q) -> e ∉ dg_adj g x d ->
  forall v', bset v' = list_to_set (dg_adj g x d) ∪ bset v ->
  search_inv v' (q ++ fresh (bset v) (dg_adj g x d)).
Proof.
  intros [Hq Hs Hc He] Hnin v' Hv'.
  assert (Hx : x = a \/ x ∈ bset v) by (apply Hq; by left).
  assert (Hreach : forall y, y = a \/ y ∈ bset v -> rtc E a y) by (intros y [->|Hy]; [done|by apply Hs]).
  split.
  - intros y. rewrite elem_of_app, elem_of_fresh, Hv', elem_of_union, elem_of_list_to_set.
    intros [Hy|[Hy _]]; [|by auto]. destruct (Hq y) as [?|?]; [by right|by left|by auto].
  - intros y. rewrite Hv', elem_of_union, elem_of_list_to_set.
    intros [Hy|Hy]; [|by apply Hs]. by eapply rtc_r; [apply Hreach|].
  - intros y z Hy Hyz. rewrite elem_of_app, elem_of_fresh, Hv', elem_of_union, elem_of_list_to_set.
    destruct (decide (y = x)) as [->|Hne]; [by right; left|].
    rewrite Hv', elem_of_union, elem_of_list_to_set in Hy.
    destruct (decide (y = a \/ y ∈ bset v)) as [Hold|Hnew]; [|left; right; tauto].
    destruct (Hc y z Hold Hyz) as [[?|?]%elem_of_cons|?]; [done|by left; left|by right; right].
  - rewrite Hv', elem_of_union, elem_of_list_to_set. tauto.
Qed.

Lemma search_complete v : search_inv v [] -> ~ rtc E a e.
Proof using Hae.
  intros [_ _ Hc He] Hr.
  assert (Hall : forall x, rtc E a x -> x = a \/ x ∈ bset v).
  { apply rtc_ind_r; [by left|]. intros x y _ Hxy IH.
    destruct (Hc x y IH Hxy) as [?%elem_of_nil|?]; [done|by right]. }
  destruct (Hall e Hr) as [->|?]; done.
Qed.

Lemma ComponentSearch_exact :
  exists r, iterate (search_fuel cg) (search_step cg e d) (NewBitmap64, [a], false) = Some r /\
    (r = true <-> rtc E a e).
Proof using Hae RoaringLaws0.
  apply iterate_total with (I := search_ok) (m := search_measure).
  - intros [[v q] []] Hok; [done|]. unfold search_step. destruct q as [|x q].
    { split; [done|]. by intros ?%(search_complete v). }
    rewrite dg_EachAdjacentNode. pose proof (search_visit_each e (dg_adj g x d) v q) as Hvisit.
    destruct (decide (e ∈ dg_adj g x d)) as [Hin|Hnin].
    + destruct Hvisit as (v' & q' & ->). split; [|simpl; lia]. simpl. destruct Hok as [Hq Hs _ _].
      eapply rtc_r; [|exact Hin]. destruct (Hq x) as [->|?]; [by left|done|by apply Hs].
    + destruct Hvisit as (v' & -> & Hv'). split; [by eapply search_inv_step|]. simpl.
      rewrite Hv', length_app. rewrite <- (unseen_fresh (bset v) (dg_adj g x d)); [lia|].
      intros y. apply dg_closed.
  - split; rewrite ?bset_New; set_solver.
  - simpl. pose proof (unseen_all (bset NewBitmap64)). unfold search_fuel. lia.
Qed.
End component_search.

Lemma reach_visit_each (other : B) l (mine : B) q :
  (exists x m' q', x ∈ l /\ x ∈ bset other /\ each (reach_visit other) l (mine, q, false) = (m', q', true)) \/
  ((forall x, x ∈ l -> x ∉ bset mine -> x ∉ bset other) /\
   exists m', each (reach_visit other) l (mine, q, false) = (m', q ++ fresh (bset mine) l, false) /\
     bset m' = list_to_set l ∪ bset mine).
Proof.
  revert mine q. induction l as [|x l IH]; intros mine q.
  - right. split; [by intros x ?%elem_of_nil|]. exists mine. cbn. rewrite app_nil_r. split; [done|set_solver].
  - cbn [each reach_visit]. rewrite bset_CheckedAdd, bset_Contains. cbn [fresh].
    assert (Hlift : forall m0 q0, bset m0 = {[x]} ∪ bset mine ->
      (x ∉ bset mine -> x ∉ bset other) ->
      q0 ++ fresh (bset m0) l = q ++ (if decide (x ∈ bset mine) then fresh (bset mine) l
                                      else x :: fresh ({[x]} ∪ bset mine) l) ->
      (exists y m' q', y ∈ x :: l /\ y ∈ bset other /\ each (reach_visit other) l (m0, q0, false) = (m', q', true)) \/
      ((forall y, y ∈ x :: l -> y ∉ bset mine -> y ∉ bset other) /\
       exists m', each (reach_visit other) l (m0, q0, false) =
           (m', q ++ (if decide (x ∈ bset mine) then fresh (bset mine) l
                      else x :: fresh ({[x]} ∪ bset mine) l), false) /\
         bset m' = list_to_set (x :: l) ∪ bset mine)).
    { intros m0 q0 Hm0 Hx Hq0. destruct (IH m0 q0) as [(y & m' & q' & Hy & Ho & Heq)|[Hall (m' & Heq & Hm')]].
      - left. exists y, m', q'. split_and!; [by right|done|done].
      - right. split.
        + intros y [->|Hy]%elem_of_cons Hn; [by apply Hx|].
          destruct (decide (y = x)) as [->|Hne]; [by apply Hx|]. apply Hall; [done|]. rewrite Hm0. set_solver.
        + exists m'. rewrite Heq, Hq0, Hm', Hm0. split; [done|set_solver]. }
    case_bool_decide as Hin; cbn [negb].
    + apply Hlift; [by autorewrite with bset|done|]. rewrite decide_True by done.
      autorewrite with bset. by replace ({[x]} ∪ bset mine) with (bset mine) by set_solver.
    + case_bool_decide as Ho; cbn [negb].
      * left. eexists x, _, _. split_and!; [by left|done|done].
      * apply Hlift; [by autorewrite with bset|done|]. rewrite decide_False by done.
        autorewrite with bset. by rewrite <- app_assoc.
Qed.

Section component_reachable.
Context (d : Direction) (a e : Z) (Hae : a <> e).

Notation E := (dg_edge g d).

Context (Hmirror : forall x y, E x y <-> dg_edge g (Direction_Reverse d) y x).

Record bd_inv (st : bidirectional (B := B)) : Prop := {
  bi_start : a ∈ bset (bd_outboundComponents st);
  bi_out : forall x, x ∈ bset (bd_outboundComponents st) -> rtc E a x;
  bi_outQueue : forall x, x ∈ bd_outboundQueue st -> x ∈ bset (bd_outboundComponents st);
  bi_endpoint : e ∈ bset (bd_inboundComponents st);
  bi_in : forall x, x ∈ bset (bd_inboundComponents st) -> rtc E x e;
  bi_inQueue : forall x, x ∈ bd_inboundQueue st -> x ∈ bset (bd_inboundComponents st);
  bi_inClosed : forall x y, x ∈ bset (bd_inboundComponents st) -> E y x ->
    x ∈ bd_inboundQueue st \/ y ∈ bset (bd_inboundComponents st);
  bi_apart : forall x, x ∈ bset (bd_outboundComponents st) -> x ∉ bset (bd_inboundComponents st)
}.

Definition bd_ok (st : bidirectional (B := B)) : Prop :=
  if bd_reachable st then rtc E a e else bd_inv st.

Definition bd_measure (st : bidirectional (B := B)) : nat :=
  if bd_reachable st then 0
  else S (unseen (bset (bd_outboundComponents st)) + unseen (bset (bd_inboundComponents st)) +
          length (bd_outboundQueue st) + length (bd_inboundQueue st)).

Lemma outbound_turn_ok st x q : bd_inv st -> bd_reachable st = false -> bd_outboundQueue st = x :: q ->
  bd_ok (outbound_turn cg d x q st) /\ bd_measure (outbound_turn cg d x q st) < bd_measure st.
Proof.
  intros Hinv Hr Hq. pose proof Hinv as [Ha Hout HoutQ He Hin HinQ HinC Hap].
  assert (Hx : x ∈ bset (bd_outboundComponents st)) by (apply HoutQ; rewrite Hq; by left).
  unfold outbound_turn. rewrite bset_CheckedAdd, Hr. case_bool_decide; cbn [negb].
  - unfold bd_ok, bd_measure. cbn. rewrite Hr, Hq. simpl. split; [|lia].
    split; try done. cbn. intros y Hy. apply HoutQ. rewrite Hq. by right.
  - rewrite dg_EachAdjacentNode.
    destruct (reach_visit_each (bd_inboundComponents st) (dg_adj g x d) (bd_outboundComponents st) q)
      as [(y & m' & q' & Hy & Hyin & ->)|[Hnew (m' & -> & Hm')]].
    + unfold bd_ok, bd_measure. cbn. rewrite Hr. split; [|lia].
      transitivity x; [by apply Hout|]. eapply rtc_l; [exact Hy|by apply Hin].
    + unfold bd_ok, bd_measure. cbn. rewrite Hr, Hq, Hm', length_app. cbn [length].
      rewrite <- (unseen_fresh (bset (bd_outboundComponents st)) (dg_adj g x d)); [|intros y; apply dg_closed].
      split; [|lia]. split; cbn; try done; try intros y; rewrite ?Hm', ?elem_of_union, ?elem_of_list_to_set.
      * by right.
      * intros [Hy|Hy]; [|by apply Hout]. eapply rtc_r; [by apply Hout|done].
      * rewrite elem_of_app, elem_of_fresh. intros [Hy|[Hy _]]; [|by left].
        right. apply HoutQ. rewrite Hq. by right.
      * intros [Hy|Hy]; [|by apply Hap]. destruct (decide (y ∈ bset (bd_outboundComponents st))); [by apply Hap|].
        by apply Hnew.
Qed.

Lemma inbound_turn_ok st : bd_inv st -> bd_reachable st = false ->
  match inbound_turn cg d st with
  | inl st' => bd_ok st' /\ bd_measure st' < bd_measure st
  | inr r => r = true <-> rtc E a e
  end.
Proof using Hmirror RoaringLaws0.
  intros Hinv Hr. pose proof Hinv as [Ha Hout HoutQ He Hin HinQ HinC Hap].
  unfold inbound_turn. rewrite Hr. destruct (bd_inboundQueue st) as [|x q] eqn:Hq.
  - split; [done|]. intros Hae'. exfalso.
    assert (Hall : forall x y, rtc E x y -> y ∈ bset (bd_inboundComponents st) -> x ∈ bset (bd_inboundComponents st)).
    { intros x y. induction 1 as [|x z y Hxz _ IH]; [done|]. intros Hy.
      destruct (HinC z x (IH Hy) Hxz) as [?%elem_of_nil|?]; done. }
    by apply (Hap a Ha), (Hall a e).
  - assert (Hx : x ∈ bset (bd_inboundComponents st)) by (apply HinQ; by left).
    rewrite dg_EachAdjacentNode.
    destruct (reach_visit_each (bd_outboundComponents st) (dg_adj g x (Direction_Reverse d))
                (bd_inboundComponents st) q)
      as [(y & m' & q' & Hy & Hyout & ->)|[Hnew (m' & -> & Hm')]].
    + unfold bd_ok, bd_measure. cbn. rewrite Hr. split; [|lia].
      transitivity y; [by apply Hout|]. eapply rtc_l; [by apply Hmirror|by apply Hin].
    + unfold bd_ok, bd_measure. cbn. rewrite Hr, Hq, Hm', length_app. cbn [length].
      rewrite <- (unseen_fresh (bset (bd_inboundComponents st)) (dg_adj g x (Direction_Reverse d)));
        [|intros y; apply dg_closed].
      split; [|lia]. split; cbn; try done; try intros y; rewrite ?Hm', ?elem_of_union, ?elem_of_list_to_set.
      * by right.
      * intros [Hy|Hy]; [|by apply Hin]. eapply rtc_l; [by apply Hmirror|by apply Hin].
      * rewrite elem_of_app, elem_of_fresh. intros [Hy|[Hy _]]; [|by left]. right. apply HinQ. by right.
      * intros z Hyz Hzy. rewrite ?elem_of_union, ?elem_of_list_to_set, elem_of_app, elem_of_fresh.
        destruct (decide (y = x)) as [->|Hne]; [right; left; by apply Hmirror|].
        destruct (decide (y ∈ bset (bd_inboundComponents st))) as [Hold|Hfresh].
        -- destruct (HinC y z Hold Hzy) as [[?|?]%elem_of_cons|?]; [done|by left; left|by right; right].
        -- apply elem_of_union in Hyz as [Hyz|?]; [|done]. apply elem_of_list_to_set in Hyz. by left; right.
      * intros Hy [Hy'|Hy']; [|by apply (Hap y)]. apply (Hnew y Hy'); [|done]. by apply Hap.
Qed.

Lemma ComponentReachable_exact : 
  exists r, iterate (reachable_fuel cg) (reachable_step cg d)
    {| bd_outboundQueue := [a]; bd_inboundQueue := [e];
       bd_outboundComponents := bitmap64_Add [a] NewBitmap64;
       bd_inboundComponents := bitmap64_Add [e] NewBitmap64;
       bd_visitedComponents := NewBitmap64; bd_reachable := false |} = Some r /\
    (r = true <-> rtc E a e).
Proof using Hae Hmirror RoaringLaws0.
  apply iterate_total with (I := bd_ok) (m := bd_measure).
  - intros st Hok. unfold reachable_step, bd_ok in *. destruct (bd_reachable st) eqn:Hr; [done|].
    destruct (bd_outboundQueue st) as [|x q] eqn:Hq; [by apply inbound_turn_ok|].
    destruct (length (x :: q) <=? length (bd_inboundQueue st)); [by apply outbound_turn_ok|by apply inbound_turn_ok].
  - unfold bd_ok. cbn. split; cbn; intros *; autorewrite with bset; set_solver.
  - unfold bd_measure. cbn.
    pose proof (unseen_all (bset (bitmap64_Add [a] NewBitmap64))).
    pose proof (unseen_all (bset (bitmap64_Add [e] NewBitmap64))). unfold reachable_fuel. lia.
Qed.
End component_reachable.
End searches.

(** ** The contracted graph *)

Section condensation.
Context {G B : Type} `{DirectedGraph G} `{Roaring B} `{!RoaringLaws B} (g : G) `{!LawfulDigraph g}.

Notation E := (dg_edge g DirectionOutbound).

(** An edge between two components is an edge between members of them. *)
Definition component_edge (lookup : gmap Z Z) (i j : Z) : Prop :=
  i <> j /\ exists x y, E x y /\ lookup !! x = Some i /\ lookup !! y = Some j.

Lemma link_each (src dst : Z -> Z) (f : Z -> CSRDigraphBuilder B * nat -> (CSRDigraphBuilder B * nat) * bool) :
  (forall x b k, f x (b, k) =
     ((if decide (src x = dst x) then b else CSRDigraphBuilder_AddEdge b (src x) (dst x), S k), true)) ->
  forall l b k (N : Z -> Prop) (R : Z -> Z -> Prop),
  builder_inv b N R -> (forall x, x ∈ l -> N (src x) /\ N (dst x)) ->
  exists b' k', each f l (b, k) = (b', k') /\
    builder_inv b' N (fun i j => R i j \/ exists x, x ∈ l /\ src x <> dst x /\ i = src x /\ j = dst x).
Proof.
  intros Hf l. induction l as [|x l IH]; intros b k N R Hb HN; cbn [each].
  - exists b, k. split; [done|]. eapply builder_inv_ext; [done| |exact Hb].
    intros i j. split; [by left|]. intros [?|(x & ?%elem_of_nil & _)]; done.
  - rewrite Hf. destruct (HN x) as [Hs Hd]; [by left|]. case_decide as Heq.
    + destruct (IH b (S k) N R Hb) as (b' & k' & -> & Hb'); [intros y Hy; apply HN; by right|].
      exists b', k'. split; [done|]. eapply builder_inv_ext; [done| |exact Hb'].
      intros i j. setoid_rewrite elem_of_cons. naive_solver.
    + destruct (IH (CSRDigraphBuilder_AddEdge b (src x) (dst x)) (S k) N
        (fun i j => R i j \/ i = src x /\ j = dst x)) as (b' & k' & -> & Hb').
      * eapply builder_inv_ext; [| |apply AddEdge_inv; exact Hb]; [|done]. naive_solver.
      * intros y Hy. apply HN. by right.
      * exists b', k'. split; [done|]. eapply builder_inv_ext; [done| |exact Hb'].
        intros i j. setoid_rewrite elem_of_cons. naive_solver.
Qed.

Section linking.
Context (live : context) (Hlive : forall k, live k = true).
Context (components : list B) (lookup : gmap Z Z) (Hscc : scc_spec g components lookup).

Definition in_range (i : Z) : Prop := (0 <= i < Z.of_nat (length components))%Z.

Lemma lookup_node x : x ∈ dg_nodes g -> lookup !! x = Some (map_get lookup x) /\ in_range (map_get lookup x).
Proof using Hscc.
  intros [i Hi]%(scc_dom _ _ _ Hscc). unfold map_get. rewrite Hi. split; [done|].
  by apply (scc_range _ _ _ Hscc x).
Qed.

Lemma lookup_adjacent x y d : y ∈ dg_adj g x d -> in_range (map_get lookup y).
Proof using Hscc. intros Hy. by apply lookup_node, (dg_closed x y d). Qed.

(** What linking one node adds. *)
Definition node_edge (n i j : Z) : Prop :=
  i <> j /\ ((exists x, E x n /\ i = map_get lookup x /\ j = map_get lookup n) \/
             (exists x, E n x /\ i = map_get lookup n /\ j = map_get lookup x)).

Lemma link_node_inv n b k (R : Z -> Z -> Prop) : n ∈ dg_nodes g -> builder_inv b in_range R ->
  exists b' k', link_node live g lookup n (b, k) = ((b', k'), true) /\
    builder_inv b' in_range (fun i j => R i j \/ node_edge n i j).
Proof using Hlive Hscc RoaringLaws0.
  intros Hn Hb. pose proof (proj2 (lookup_node n Hn)) as Hrange. unfold link_node.
  rewrite !dg_EachAdjacentNode.
  destruct (link_each (map_get lookup) (fun _ => map_get lookup n)
    (link_inbound live lookup (map_get lookup n))) with (l := dg_adj g n DirectionInbound) (b := b) (k := k)
    (N := in_range) (R := R) as (b1 & k1 & -> & Hb1); [|done| |].
  { intros x b0 k0. unfold link_inbound. rewrite Hlive.
    destruct (Z.eqb_spec (map_get lookup n) (map_get lookup x)); case_decide; congruence. }
  { intros x Hx. split; [by eapply lookup_adjacent|done]. }
  destruct (link_each (fun _ => map_get lookup n) (map_get lookup)
    (link_outbound live lookup (map_get lookup n))) with (l := dg_adj g n DirectionOutbound) (b := b1) (k := k1)
    (N := in_range) (R := fun i j => R i j \/ exists x, x ∈ dg_adj g n DirectionInbound /\
       map_get lookup x <> map_get lookup n /\ i = map_get lookup x /\ j = map_get lookup n)
    as (b2 & k2 & -> & Hb2); [|done| |].
  { intros x b0 k0. unfold link_outbound. rewrite Hlive.
    destruct (Z.eqb_spec (map_get lookup n) (map_get lookup x)); case_decide; congruence. }
  { intros x Hx. split; [done|by eapply lookup_adjacent]. }
  exists b2, (S k2). cbn [fst snd]. rewrite Hlive. split; [done|].
  eapply builder_inv_ext; [done| |exact Hb2]. intros i j. unfold node_edge, dg_edge.
  setoid_rewrite <- (dg_mirror (g := g)). naive_solver.
Qed.

Lemma link_nodes_inv nodes b k (R : Z -> Z -> Prop) :
  (forall n, n ∈ nodes -> n ∈ dg_nodes g) -> builder_inv b in_range R ->
  exists b' k', each (link_node live g lookup) nodes (b, k) = (b', k') /\
    builder_inv b' in_range (fun i j => R i j \/ exists n, n ∈ nodes /\ node_edge n i j).
Proof using Hlive Hscc RoaringLaws0.
  revert b k R. induction nodes as [|n nodes IH]; intros b k R Hn Hb; cbn [each].
  - exists b, k. split; [done|]. eapply builder_inv_ext; [done| |exact Hb].
    intros i j. split; [by left|]. intros [?|(x & ?%elem_of_nil & _)]; done.
  - destruct (link_node_inv n b k R) as (b1 & k1 & -> & Hb1); [apply Hn; by left|done|].
    destruct (IH b1 k1 _ (fun x Hx => Hn x (list_elem_of_further _ _ _ Hx)) Hb1) as (b2 & k2 & -> & Hb2).
    exists b2, k2. split; [done|]. eapply builder_inv_ext; [done| |exact Hb2].
    intros i j. setoid_rewrite elem_of_cons. naive_solver.
Qed.

(** Linking every node adds the edges between components. *)
Lemma node_edges i j : (exists n, n ∈ dg_nodes g /\ node_edge n i j) <-> component_edge lookup i j.
Proof using Hscc.
  unfold node_edge, component_edge. split.
  - intros (n & Hn & Hne & [(x & Hx & -> & ->)|(x & Hx & -> & ->)]); (split; [done|]).
    + exists x, n. split_and!; [done| |by apply lookup_node].
      apply lookup_node. apply (dg_closed n x DirectionInbound). by apply dg_mirror.
    + exists n, x. split_and!; [done|by apply lookup_node|].
      apply lookup_node. by apply (dg_closed n x DirectionOutbound).
  - intros (Hne & x & y & Hxy & Hx & Hy). exists x.
    assert (Hn : x ∈ dg_nodes g) by (apply (scc_dom _ _ _ Hscc); by exists i).
    split; [done|]. split; [done|]. right. exists y. unfold map_get. by rewrite Hx, Hy.
Qed.

Lemma add_components_inv n (b : CSRDigraphBuilder B) N R :
  builder_inv b N R ->
  builder_inv (foldl (fun b i => CSRDigraphBuilder_AddNode b (Z.of_nat i)) b (seq 0 n))
    (fun x => N x \/ (0 <= x < Z.of_nat n)%Z) R.
Proof.
  intros Hb. induction n as [|n IH].
  - eapply builder_inv_ext; [|done|exact Hb]. intros x. split; [by left|]. intros [?|?]; [done|lia].
  - rewrite seq_S, foldl_app. cbn [foldl]. unfold CSRDigraphBuilder_AddNode at 1.
    destruct (CSRDigraphBuilder_ensureNode _ (Z.of_nat (0 + n))) as [s' idx] eqn:Hens.
    destruct (ensureNode_inv _ _ _ _ _ _ IH Hens) as [Hinv _]. cbn [fst].
    eapply builder_inv_ext; [|done|exact Hinv]. intros x. simpl. split.
    + intros [[?|?]| ->]; [by left|right; lia|right; lia].
    + intros [?|?]; [by left; left|]. destruct (decide (x = Z.of_nat n)); [by right|left; right; lia].
Qed.

(** There are no more components than nodes. *)
Lemma components_le : length components <= length (dg_nodes g).
Proof using Hscc.
  assert (Hsub : (Z.of_nat <$> seq 0 (length components)) ⊆+ (map_get lookup <$> dg_nodes g)).
  { apply NoDup_submseteq; [apply NoDup_fmap_2; [intros ? ?; apply Nat2Z.inj|apply NoDup_seq]|].
    intros z (i & -> & Hi%elem_of_seq)%list_elem_of_fmap.
    destruct (scc_inhabited _ _ _ Hscc i) as [x Hx]; [lia|]. apply list_elem_of_fmap. exists x.
    unfold map_get. rewrite Hx. split; [done|]. apply (scc_dom _ _ _ Hscc). by exists (Z.of_nat i). }
  apply submseteq_length in Hsub. by rewrite !length_fmap, length_seq in Hsub.
Qed.

(** Pairs of numbers below [n]. *)
Lemma pairs_bound n (l : list (Z * Z)) : NoDup l ->
  (forall p, p ∈ l -> (0 <= p.1 < Z.of_nat n)%Z /\ (0 <= p.2 < Z.of_nat n)%Z) -> length l <= n * n.
Proof.
  intros Hnd Hl. set (ids := Z.of_nat <$> seq 0 n).
  assert (Hids : forall z, (0 <= z < Z.of_nat n)%Z -> z ∈ ids).
  { intros z Hz. apply list_elem_of_fmap. exists (Z.to_nat z). split; [lia|]. apply elem_of_seq. lia. }
  replace (n * n) with (length (list_prod ids ids))
    by (rewrite length_prod; unfold ids; rewrite length_fmap, length_seq; done).
  apply submseteq_length, NoDup_submseteq; [done|]. intros [a c] Hp. destruct (Hl _ Hp) as [Ha Hc].
  apply list_elem_of_In, in_prod; apply list_elem_of_In; by apply Hids.
Qed.
End linking.

Lemma NewComponentGraph_total (live : context) :
  (forall k, live k = true) -> (Z.of_nat (length (dg_nodes g)) < 2 ^ 32)%Z ->
  exists cg outs ins, NewComponentGraph (B := B) live g = Done cg /\
    scc_spec g (cg_componentMembers cg) (cg_memberComponentLookup cg) /\
    csr_rep (cg_digraph cg) (in_range (cg_componentMembers cg))
      (component_edge (cg_memberComponentLookup cg)) outs ins.
Proof.
  intros Hlive Hsize. unfold NewComponentGraph.
  destruct (StronglyConnectedComponents_total (B := B) g) as (cs & lookup & -> & Hscc).
  cbn [mbind outcome_bind]. rewrite dg_EachNode.
  destruct (link_nodes_inv live Hlive cs lookup Hscc (dg_nodes g)
    (foldl (fun b i => CSRDigraphBuilder_AddNode b (Z.of_nat i)) NewCSRDigraphBuilder (seq 0 (length cs)))
    0 (fun _ _ => False)) as (b & k & -> & Hb); [done| |].
  { eapply builder_inv_ext; [| |apply add_components_inv, New_inv]; unfold in_range; naive_solver. }
  assert (Hb' : builder_inv b (in_range cs) (component_edge lookup)).
  { eapply builder_inv_ext; [done| |exact Hb]. intros i j. rewrite <- (node_edges cs lookup Hscc).
    naive_solver. }
  destruct (Build_rep b (in_range cs) (component_edge lookup) (length cs * length cs) Hb')
    as (dg & outs & ins & -> & Hrep).
  - intros l Hnd Hl. apply pairs_bound; [done|]. intros p Hp.
    destruct (Hl p Hp) as (_ & x & y & _ & Hx & Hy).
    split; by eapply (scc_range _ _ _ Hscc).
  - pose proof (components_le cs lookup Hscc). unfold two64. nia.
  - eexists _, outs, ins. cbn [mbind outcome_bind]. split; [done|]. done.
Qed.
End condensation.

(** ** Reachability between components is reachability between members *)

Section lifting.
Context {G B : Type} `{DirectedGraph G} `{Roaring B} `{!RoaringLaws B} (g : G) `{!LawfulDigraph g}.
Context (components : list B) (lookup : gmap Z Z) (Hscc : scc_spec g components lookup).

Notation E := (dg_edge g DirectionOutbound).

Lemma rtc_flip_dir (R : Z -> Z -> Prop) x y : rtc R x y -> rtc (fun a b => R b a) y x.
Proof. induction 1 as [|x z y Hxz _ IH]; [done|]. by eapply rtc_r. Qed.

(** Members of one component reach each other in every direction. *)
Lemma same_component d x y i : lookup !! x = Some i -> lookup !! y = Some i -> rtc (dir_edge E d) x y.
Proof using Hscc.
  intros Hx Hy. destruct (proj1 (scc_classes _ _ _ Hscc _ _ _ _ Hx Hy) eq_refl) as [Hxy Hyx].
  destruct d; [by apply (rtc_flip_dir E)|done|]. eapply rtc_subrel; [|exact Hxy]. by left.
Qed.

Lemma lift_edge d x y i j : dir_edge E d x y -> lookup !! x = Some i -> lookup !! y = Some j ->
  rtc (dir_edge (component_edge g lookup) d) i j.
Proof using Type.
  intros Hxy Hx Hy. destruct (decide (i = j)) as [->|Hne]; [done|]. apply rtc_once.
  destruct d; simpl in *.
  - split; [done|]. by exists y, x.
  - split; [done|]. by exists x, y.
  - destruct Hxy; [left|right]; (split; [done|]); [by exists x, y|by exists y, x].
Qed.

Lemma dir_edge_nodes d x y : dir_edge E d x y -> y ∈ dg_nodes g.
Proof using Type.
  assert (Hboth : forall a b, E a b -> a ∈ dg_nodes g /\ b ∈ dg_nodes g).
  { intros a b Hab. split; [|by apply (dg_closed a b DirectionOutbound)].
    apply (dg_closed b a DirectionInbound). by apply dg_mirror. }
  destruct d; simpl; [by intros [? _]%Hboth|by intros [_ ?]%Hboth|].
  intros [[_ ?]%Hboth|[? _]%Hboth]; done.
Qed.

Lemma component_reach d x y i j : lookup !! x = Some i -> lookup !! y = Some j ->
  rtc (dir_edge E d) x y <-> rtc (dir_edge (component_edge g lookup) d) i j.
Proof using Hscc.
  intros Hx Hy. split.
  - intros Hr. revert i Hx. induction Hr as [x|x z y Hxz _ IH]; intros i Hx; [by simplify_eq|].
    destruct (proj2 (scc_dom _ _ _ Hscc z)) as [m Hm]; [by eapply dir_edge_nodes|].
    etrans; [by eapply lift_edge|]. by apply IH.
  - intros Hr. revert x Hx. induction Hr as [i|i m j Him _ IH]; intros x Hx; [by eapply same_component|].
    assert (exists u v, dir_edge E d u v /\ lookup !! u = Some i /\ lookup !! v = Some m)
      as (u & v & Huv & Hu & Hv).
    { destruct d; simpl in *; [| |destruct Him as [Him|Him]];
        destruct Him as (_ & p & q & Hpq & Hp & Hq); naive_solver. }
    etrans; [by eapply (same_component d x u)|]. eapply rtc_l; [exact Huv|]. by apply IH.
Qed.
End lifting.

(** A contracted graph answers for its members. *)
Section answers.
Context {B : Type} `{Roaring B} `{!RoaringLaws B} (cg : ComponentGraph csrDigraph B).
Context (N : Z -> Prop) (R : Z -> Z -> Prop) (outs ins : list (list Z)).
Context (Hrep : csr_rep (cg_digraph cg) N R outs ins).

Lemma ComponentReachable_rep i j d :
  exists r, ComponentGraph_ComponentReachable cg i j d = Some r /\ (r = true <-> rtc (dir_edge R d) i j).
Proof using Hrep RoaringLaws0.
  unfold ComponentGraph_ComponentReachable. destruct (Z.eqb_spec i j) as [->|Hne]; [by exists true|].
  destruct (ComponentReachable_exact (B := B) cg (LawfulDigraph0 := csr_lawful _ _ _ _ _ Hrep) d i j Hne) as (r & Hr & Hiff).
  { intros x y. rewrite !(csr_dg_edge _ _ _ _ _ Hrep). destruct d; simpl; tauto. }
  exists r. split; [exact Hr|]. rewrite Hiff. apply rtc_ext. intros x y. apply csr_dg_edge.
Qed.

Lemma ComponentSearch_rep i j d :
  exists r, ComponentGraph_ComponentSearch cg i j d = Some r /\ (r = true <-> rtc (dir_edge R d) i j).
Proof using Hrep RoaringLaws0.
  unfold ComponentGraph_ComponentSearch. destruct (Z.eqb_spec i j) as [->|Hne]; [by exists true|].
  destruct (ComponentSearch_exact (B := B) cg (LawfulDigraph0 := csr_lawful _ _ _ _ _ Hrep) d i j Hne) as (r & Hr & Hiff).
  exists r. split; [exact Hr|]. rewrite Hiff. apply rtc_ext. intros x y. apply csr_dg_edge.
Qed.
End answers.

(** ** Properties *)

(** [C7] While the context stays live, [NewComponentGraph] returns the
    condensation of a graph with fewer than 2^32 nodes: its members are the
    strongly connected components, its vertices their numbers, and it has an edge
    from one component to another exactly when some member of the first has an
    edge to a member of the second; every edge leads to a smaller number, so
    the contracted graph has no cycle. *)
Theorem NewComponentGraph_condensation {G B : Type} `{DirectedGraph G} `{Roaring B} `{!RoaringLaws B}
    (g : G) `{!LawfulDigraph g} (live : context) :
  (forall k, live k = true) -> (Z.of_nat (length (dg_nodes g)) < 2 ^ 32)%Z ->
  exists cg, NewComponentGraph (B := B) live g = Done cg /\
    scc_spec g (cg_componentMembers cg) (cg_memberComponentLookup cg) /\
    (forall i, i ∈ csr_denseIdxToID (cg_digraph cg) <-> (0 <= i < Z.of_nat (length (cg_componentMembers cg)))%Z) /\
    (forall i, exists outs, csrDigraph_AdjacentNodes (cg_digraph cg) i DirectionOutbound = Done outs /\
       NoDup outs /\ forall j, j ∈ outs <-> component_edge g (cg_memberComponentLookup cg) i j) /\
    (forall i j, component_edge g (cg_memberComponentLookup cg) i j -> (j < i)%Z).
Proof.
  intros Hlive Hsize. destruct (NewComponentGraph_total (B := B) g live Hlive Hsize)
    as (cg & outs & ins & Hnew & Hscc & Hrep).
  exists cg. split_and!; [done|done|apply Hrep| |].
  - intros i. exists (csr_side (cg_digraph cg) outs i).
    rewrite (csr_AdjacentNodes_rep _ _ _ _ _ Hrep). split; [done|]. apply (csr_out_rep _ _ _ _ _ Hrep).
  - intros i j (Hne & x & y & Hxy & Hx & Hy).
    pose proof (scc_order _ _ _ Hscc _ _ _ _ Hx Hy Hxy). lia.
Qed.

(** 1 -> 2 -> 1, 2 -> 3 and the node 4. *)
Definition example_graph : list builder_op := [OpAddEdge 1 2; OpAddEdge 2 1; OpAddEdge 2 3; OpAddNode 4].

Lemma NewComponentGraph_condensation_witness :
  exists g cg, CSRDigraphBuilder_Build (run_builder (B := gset Z) example_graph) = Done g /\
    NewComponentGraph (B := gset Z) (fun _ => true) g = Done cg /\
    bitmap64_Slice <$> cg_componentMembers cg = [[3]; [1; 2]; [4]]%Z /\
    csrDigraph_AdjacentNodes (cg_digraph cg) 1 DirectionOutbound = Done [0%Z].
Proof.
  destruct (run_builder_Build (B := gset Z) example_graph) as (g & outs & ins & HB & Hrep);
    [vm_compute; done|].
  destruct (NewComponentGraph_condensation (B := gset Z) g (LawfulDigraph0 := csr_lawful _ _ _ _ _ Hrep)
    (fun _ => true)) as (cg & Hnew & _).
  - reflexivity.
  - vm_compute in HB. injection HB as <-. vm_compute. reflexivity.
  - exists g, cg. split_and!; [exact HB|exact Hnew| |];
      vm_compute in HB; injection HB as <-; vm_compute in Hnew; injection Hnew as <-; vm_compute; reflexivity.
Defined.

(** Both searches of the contracted graph terminate and agree, and they answer
    for the original graph: from the component of one node the component of
    another is reached in a direction exactly when the node reaches the other
    in that direction. *)
Theorem ComponentReachable_members {G B : Type} `{DirectedGraph G} `{Roaring B} `{!RoaringLaws B}
    (g : G) `{!LawfulDigraph g} (live : context) cg x y i j d :
  (forall k, live k = true) -> (Z.of_nat (length (dg_nodes g)) < 2 ^ 32)%Z ->
  NewComponentGraph (B := B) live g = Done cg ->
  ComponentGraph_ContainingComponent cg x = Some i -> ComponentGraph_ContainingComponent cg y = Some j ->
  exists r, ComponentGraph_ComponentReachable cg i j d = Some r /\
    ComponentGraph_ComponentSearch cg i j d = Some r /\
    (r = true <-> rtc (dir_edge (dg_edge g DirectionOutbound) d) x y).
Proof.
  intros Hlive Hsize Hnew Hx Hy. destruct (NewComponentGraph_total (B := B) g live Hlive Hsize)
    as (cg' & outs & ins & Hnew' & Hscc & Hrep).
  rewrite Hnew' in Hnew. injection Hnew as ->.
  destruct (ComponentReachable_rep cg _ _ _ _ Hrep i j d) as (r & Hr & Hiff).
  destruct (ComponentSearch_rep cg _ _ _ _ Hrep i j d) as (r' & Hr' & Hiff').
  rewrite <- (component_reach g _ _ Hscc d x y i j Hx Hy) in Hiff, Hiff'.
  exists r. split_and!; [done| |done]. rewrite Hr'. f_equal. destruct r, r'; naive_solver.
Qed.

Lemma ComponentReachable_members_witness :
  exists g cg r, CSRDigraphBuilder_Build (run_builder (B := gset Z) example_graph) = Done g /\
    NewComponentGraph (B := gset Z) (fun _ => true) g = Done cg /\
    ComponentGraph_ComponentReachable cg 1 0 DirectionOutbound = Some r /\ r = true.
Proof.
  destruct (run_builder_Build (B := gset Z) example_graph) as (g & outs & ins & HB & Hrep);
    [vm_compute; done|].
  destruct (NewComponentGraph (B := gset Z) (fun _ => true) g) as [cg| |] eqn:Hnew.
  - destruct (ComponentReachable_members (B := gset Z) g (LawfulDigraph0 := csr_lawful _ _ _ _ _ Hrep)
      (fun _ => true) cg 1 3 1 0 DirectionOutbound) as (r & Hr & _).
    + reflexivity.
    + vm_compute in HB. injection HB as <-. vm_compute. reflexivity.
    + exact Hnew.
    + vm_compute in HB. injection HB as <-. vm_compute in Hnew. injection Hnew as <-. vm_compute. reflexivity.
    + vm_compute in HB. injection HB as <-. vm_compute in Hnew. injection Hnew as <-. vm_compute. reflexivity.
    + exists g, cg, r. split_and!; [exact HB|exact Hnew|exact Hr|].
      vm_compute in HB. injection HB as <-. vm_compute in Hnew. injection Hnew as <-.
      vm_compute in Hr. injection Hr as <-. reflexivity.
  - exfalso. vm_compute in HB. injection HB as <-. vm_compute in Hnew. discriminate.
  - exfalso. vm_compute in HB. injection HB as <-. vm_compute in Hnew. discriminate.
Defined.

(** [OriginReachable] ignores the direction of the edges: over 1 -> 2 it
    answers that 2 reaches 1, which no walk does. *)
Theorem OriginReachable_undirected :
  exists g cg, CSRDigraphBuilder_Build (run_builder (B := gset Z) [OpAddEdge 1 2]) = Done g /\
    NewComponentGraph (B := gset Z) (fun _ => true) g = Done cg /\
    ComponentGraph_OriginReachable cg 2 1 = Some true /\
    ~ rtc (op_edge [OpAddEdge 1 2]) 2%Z 1%Z.
Proof.
  eexists _, _. split; [vm_compute; reflexivity|]. split; [vm_compute; reflexivity|].
  split; [vm_compute; reflexivity|]. intros Hr. apply rtc_inv in Hr as [?|(z & Hz & _)]; [done|].
  apply list_elem_of_singleton in Hz. congruence.
Qed.
