(* ===== verification/Reachability.v ===== *)
(** * algo/reach.go: the reachability cache

    [ReachabilityCache] computes the components reachable from a component by a
    depth-first search over the contracted graph and keeps what it computes in
    two SIEVE caches, one per direction.  The stack of cursors is a list from
    its bottom to its top; the ancestor of a cursor is the one below it, and the
    root cursor, whose reach doubles as the set of visited components, is at the
    bottom. *)

From S2P Require Import Prelude Bitmap Digraph Csr Scc Components Cache.

Section reachability.
Context {B : Type} `{Roaring B}.

Record reachCursor : Type := {
  rc_component : Z;
  rc_adjacent : list Z;
  rc_adjacentIdx : nat;
  rc_reach : B
}.

(** [s.ancestor.reach.Or(s.reach)]; [None] is a nil ancestor. *)
Definition reachCursor_Complete (s : reachCursor) (ancestor : option reachCursor) : option reachCursor :=
  (fun a => {| rc_component := rc_component a; rc_adjacent := rc_adjacent a;
               rc_adjacentIdx := rc_adjacentIdx a;
               rc_reach := bitmap64_Or (rc_reach a) (Bitmap64 (rc_reach s)) |}) <$> ancestor.

Definition reachCursor_NextAdjacent (s : reachCursor) : option (Z * reachCursor) :=
  match rc_adjacent s !! rc_adjacentIdx s with
  | Some next =>
      Some (next, {| rc_component := rc_component s; rc_adjacent := rc_adjacent s;
                     rc_adjacentIdx := rc_adjacentIdx s + 1; rc_reach := rc_reach s |})
  | None => None
  end.

Record ReachabilityCache : Type := {
  ra_components : ComponentGraph csrDigraph B;
  ra_inboundComponentReach : Sieve (K := Z) (V := B);
  ra_outboundComponentReach : Sieve (K := Z) (V := B)
}.

Definition NewReachabilityCache {G} `{DirectedGraph G} (live : context) (digraph : G) (maxCacheSize : Z)
  : outcome ReachabilityCache :=
  components ← NewComponentGraph live digraph;
  Done {| ra_components := components;
          ra_inboundComponentReach := NewSieve maxCacheSize;
          ra_outboundComponentReach := NewSieve maxCacheSize |}.

Definition newReachCursor (s : ReachabilityCache) (component : Z) (direction : Direction) : reachCursor :=
  let adjacentComponents := AdjacentNodes (cg_digraph (ra_components s)) component direction in
  {| rc_component := component; rc_adjacent := adjacentComponents; rc_adjacentIdx := 0;
     rc_reach := NewBitmap64With (adjacentComponents ++ [component]) |}.

Definition newRootReachCursor (s : ReachabilityCache) (component : Z) (direction : Direction) : reachCursor :=
  {| rc_component := component;
     rc_adjacent := AdjacentNodes (cg_digraph (ra_components s)) component direction;
     rc_adjacentIdx := 0;
     rc_reach := NewBitmap64With [component] |}.

Definition ReachabilityCache_Stats (s : ReachabilityCache) : Stats :=
  Stats_Combined (sv_stats (ra_inboundComponentReach s)) (sv_stats (ra_outboundComponentReach s)).

Definition ReachabilityCache_CanReach (s : ReachabilityCache) (startID endID : Z) (direction : Direction)
  : option bool :=
  match ComponentGraph_ContainingComponent (ra_components s) startID,
        ComponentGraph_ContainingComponent (ra_components s) endID with
  | Some startComponent, Some endComponent =>
      ComponentGraph_ComponentReachable (ra_components s) startComponent endComponent direction
  | _, _ => Some false
  end.

Definition componentReachToMemberReachBitmap (s : ReachabilityCache) (componentReach : B) : outcome B :=
  bitmap64_Each
    (fun reachableComponent members =>
       (m ← members; ComponentGraph_CollectComponentMembers (ra_components s) reachableComponent m, true))
    componentReach (Done NewBitmap64).

Definition componentReachToMemberReachSlice (s : ReachabilityCache) (componentReach : B) : outcome (list B) :=
  bitmap64_Each
    (fun reachableComponent members =>
       (ms ← members; m ← ComponentGraph_ComponentMembers (ra_components s) reachableComponent;
        Done (ms ++ [m]), true))
    componentReach (Done []).

Definition cacheComponentReach (s : ReachabilityCache) (cursor : reachCursor) (direction : Direction)
  : outcome ReachabilityCache :=
  match direction with
  | DirectionInbound =>
      c ← Sieve_Put (ra_inboundComponentReach s) (rc_component cursor) (rc_reach cursor);
      Done {| ra_components := ra_components s; ra_inboundComponentReach := c;
              ra_outboundComponentReach := ra_outboundComponentReach s |}
  | DirectionOutbound =>
      c ← Sieve_Put (ra_outboundComponentReach s) (rc_component cursor) (rc_reach cursor);
      Done {| ra_components := ra_components s;
              ra_inboundComponentReach := ra_inboundComponentReach s; ra_outboundComponentReach := c |}
  | DirectionBoth => Done s
  end.

(** The nil duplex of a miss is never read. *)
Definition cachedComponentReach (s : ReachabilityCache) (component : Z) (direction : Direction)
  : option B * ReachabilityCache :=
  match direction with
  | DirectionInbound =>
      let '((entry, found), c) := Sieve_Get NewBitmap64 (ra_inboundComponentReach s) component in
      (if found : bool then Some entry else None,
       {| ra_components := ra_components s; ra_inboundComponentReach := c;
          ra_outboundComponentReach := ra_outboundComponentReach s |})
  | DirectionOutbound =>
      let '((entry, found), c) := Sieve_Get NewBitmap64 (ra_outboundComponentReach s) component in
      (if found : bool then Some entry else None,
       {| ra_components := ra_components s;
          ra_inboundComponentReach := ra_inboundComponentReach s; ra_outboundComponentReach := c |})
  | DirectionBoth => (None, s)
  end.

Definition set_reach (b : B) (c : reachCursor) : reachCursor :=
  {| rc_component := rc_component c; rc_adjacent := rc_adjacent c;
     rc_adjacentIdx := rc_adjacentIdx c; rc_reach := b |}.

(** [rootCursor.reach.CheckedAdd(component)], the root being at the bottom. *)
Definition root_CheckedAdd (component : Z) (stack : list reachCursor) : list reachCursor * bool :=
  match stack with
  | [] => ([], false)
  | root :: rest =>
      let '(reach, added) := bitmap64_CheckedAdd component (rc_reach root) in
      (set_reach reach root :: rest, added)
  end.

(** The state of the loop: the cache and the stack. *)
Definition dfs_state : Type := ReachabilityCache * list reachCursor.

(** A turn on the top cursor [nextCursor] over the stack [below]. *)
Definition dfs_turn (direction : Direction) (s : ReachabilityCache) (below : list reachCursor)
    (nextCursor : reachCursor) : outcome (ReachabilityCache * list reachCursor) :=
  match reachCursor_NextAdjacent nextCursor with
  | None =>
      let below' :=
        match deque_PopBack below with
        | Some (ancestor, rest) =>
            match reachCursor_Complete nextCursor (Some ancestor) with
            | Some ancestor' => rest ++ [ancestor']
            | None => below
            end
        | None => below
        end in
      s' ← cacheComponentReach s nextCursor direction;
      Done (s', below')
  | Some (nextAdjacentComponent, nextCursor') =>
      let '(stack, added) := root_CheckedAdd nextAdjacentComponent (below ++ [nextCursor']) in
      if added : bool then
        match deque_PopBack stack with
        | None => Panic
        | Some (top, rest) =>
            let '(cached, s') := cachedComponentReach s nextAdjacentComponent direction in
            match cached with
            | Some cachedReach =>
                Done (s', rest ++ [set_reach (bitmap64_Or (rc_reach top) (Bitmap64 cachedReach)) top])
            | None => Done (s', stack ++ [newReachCursor s' nextAdjacentComponent direction])
            end
        end
      else Done (s, stack)
  end.

(** One turn of the loop.  When the last cursor is popped it is the root, and its
    reach is the result. *)
Definition dfs_step (direction : Direction) (st : dfs_state) : dfs_state + outcome (B * ReachabilityCache) :=
  let '(s, stack) := st in
  match deque_PopBack stack with
  | None => inr Panic
  | Some (nextCursor, below) =>
      match dfs_turn direction s below nextCursor with
      | Done (s', []) => inr (Done (rc_reach nextCursor, s'))
      | Done st' => inl st'
      | Panic => inr Panic
      | Spent => inr Spent
      end
  end.

(** Every turn uses up a neighbour or pops a cursor. *)
Definition dfs_fuel (s : ReachabilityCache) (component : Z) (direction : Direction) : nat :=
  EachNode (cg_digraph (ra_components s))
    (fun n fuel => (fuel + S (length (AdjacentNodes (cg_digraph (ra_components s)) n direction)), true))
    (2 + length (AdjacentNodes (cg_digraph (ra_components s)) component direction)).

Definition componentReachDFS (s : ReachabilityCache) (component : Z) (direction : Direction)
  : outcome (B * ReachabilityCache) :=
  let '(cached, s') := cachedComponentReach s component direction in
  match cached with
  | Some cachedReach => Done (cachedReach, s')
  | None =>
      match iterate (dfs_fuel s' component direction) (dfs_step direction)
              (s', [newRootReachCursor s' component direction]) with
      | Some r => r
      | None => Spent
      end
  end.

Definition ReachSliceOfComponentContainingMember (s : ReachabilityCache) (member : Z) (direction : Direction)
  : outcome (list B * ReachabilityCache) :=
  match ComponentGraph_ContainingComponent (ra_components s) member with
  | Some rootComponent =>
      '(reach, s') ← componentReachDFS s rootComponent direction;
      members ← componentReachToMemberReachSlice s' reach;
      Done (members, s')
  | None => Done ([], s)
  end.

Definition ReachOfComponentContainingMember (s : ReachabilityCache) (member : Z) (direction : Direction)
  : outcome (B * ReachabilityCache) :=
  match ComponentGraph_ContainingComponent (ra_components s) member with
  | Some rootComponent =>
      '(reach, s') ← componentReachDFS s rootComponent direction;
      members ← componentReachToMemberReachBitmap s' reach;
      Done (members, s')
  | None => Done (NewBitmap64, s)
  end.

Definition OrReach (s : ReachabilityCache) (node : Z) (direction : Direction) (duplex : Duplex B)
  : outcome (Duplex B * ReachabilityCache) :=
  '(reach, s') ← ReachOfComponentContainingMember s node direction;
  Done (Duplex_Remove node (Duplex_Or (Bitmap64 reach) duplex), s').

Definition XorReach (s : ReachabilityCache) (node : Z) (direction : Direction) (duplex : Duplex B)
  : outcome (Duplex B * ReachabilityCache) :=
  '(reach, s') ← ReachOfComponentContainingMember s node direction;
  Done (Duplex_Xor (Bitmap64 (bitmap64_Remove node (bitmap64_Clone reach))) duplex, s').
End reachability.
Arguments ReachabilityCache B : clear implicits.
Arguments reachCursor B : clear implicits.

(** ** The caches *)

Section caches.
Context {B : Type} `{Roaring B} `{!RoaringLaws B}.

Definition caches_ok (s : ReachabilityCache B) : Prop :=
  sieve_inv (ra_inboundComponentReach s) /\ sieve_inv (ra_outboundComponentReach s).

(** What is cached for a direction. *)
Definition entries (s : ReachabilityCache B) (d : Direction) : gmap Z B :=
  match d with
  | DirectionInbound => Sieve_contents (ra_inboundComponentReach s)
  | DirectionOutbound => Sieve_contents (ra_outboundComponentReach s)
  | DirectionBoth => ∅
  end.

Lemma cached_spec s c d : caches_ok s ->
  exists s', cachedComponentReach s c d = (entries s d !! c, s') /\ caches_ok s' /\
    ra_components s' = ra_components s /\ forall d', entries s' d' = entries s d'.
Proof.
  intros [Hin Hout]. destruct d; cbn [cachedComponentReach entries].
  - destruct (Sieve_Get_law NewBitmap64 _ c Hin) as (c' & -> & Hc' & _ & Heq).
    eexists. split; [by destruct (Sieve_contents _ !! c)|]. split; [done|]. split; [done|]. by intros [].
  - destruct (Sieve_Get_law NewBitmap64 _ c Hout) as (c' & -> & Hc' & _ & Heq).
    eexists. split; [by destruct (Sieve_contents _ !! c)|]. split; [done|]. split; [done|]. by intros [].
  - rewrite lookup_empty. by exists s.
Qed.

Lemma cache_spec s (cur : reachCursor B) d : caches_ok s ->
  exists s', cacheComponentReach s cur d = Done s' /\ caches_ok s' /\ ra_components s' = ra_components s /\
    forall d' c b, entries s' d' !! c = Some b ->
      d' = d /\ c = rc_component cur /\ b = rc_reach cur \/ entries s d' !! c = Some b.
Proof.
  intros [Hin Hout]. destruct d; cbn [cacheComponentReach].
  - destruct (Sieve_Put_law NewBitmap64 _ (rc_component cur) (rc_reach cur) Hin) as (c' & -> & Hc' & _ & Hstep).
    eexists. split; [done|]. split; [done|]. split; [done|]. intros [] c b Hb; try by right.
    eapply evicts_one_entries in Hstep; [|exact Hb]. destruct Hstep as [[-> ->]|?]; [by left|by right].
  - destruct (Sieve_Put_law NewBitmap64 _ (rc_component cur) (rc_reach cur) Hout) as (c' & -> & Hc' & _ & Hstep).
    eexists. split; [done|]. split; [done|]. split; [done|]. intros [] c b Hb; try by right.
    eapply evicts_one_entries in Hstep; [|exact Hb]. destruct Hstep as [[-> ->]|?]; [by left|by right].
  - exists s. split_and!; try done. intros d' c b Hb. by right.
Qed.
End caches.

(** ** The depth-first search *)

Section search.
Context {B : Type} `{Roaring B} `{!RoaringLaws B}.
Context (components : ComponentGraph csrDigraph B) `{!LawfulDigraph (cg_digraph components)}.
Context (d : Direction) (a : Z).

Notation g := (cg_digraph components).
Notation R := (dg_edge g d).

(** The visited components: the reach of the root. *)
Definition seen (stack : list (reachCursor B)) : gset Z :=
  match stack with [] => ∅ | root :: _ => bset (rc_reach root) end.

(** In the reach of some cursor. *)
Definition covered (stack : list (reachCursor B)) (x : Z) : Prop :=
  exists c, c ∈ stack /\ x ∈ bset (rc_reach c).

Definition next_covered (stack : list (reachCursor B)) (x : Z) : Prop :=
  forall y, R x y -> covered stack y.

Definition open (stack : list (reachCursor B)) (x : Z) : Prop :=
  exists c, c ∈ stack /\ rc_component c = x.

(** The cursors: each carries part of the reach of its component, contains its own
    component, and follows an edge from the one below. *)
Record stack_inv (stack : list (reachCursor B)) : Prop := {
  sk_root : head (rc_component <$> stack) = Some a;
  sk_chain : forall pre p c post, rc_component <$> stack = pre ++ p :: c :: post -> R p c;
  sk_adjacent : forall c, c ∈ stack -> rc_adjacent c = dg_adj g (rc_component c) d;
  sk_from : forall c, c ∈ stack -> rtc R a (rc_component c);
  sk_reach : forall c x, c ∈ stack -> x ∈ bset (rc_reach c) -> rtc R (rc_component c) x;
  sk_own : forall c, c ∈ stack -> rc_component c ∈ seen stack;
  sk_scanned : forall c y, c ∈ stack -> y ∈ take (rc_adjacentIdx c) (rc_adjacent c) -> y ∈ seen stack
}.

(** Nothing visited is forgotten: a visited component is open, or its neighbours
    are covered; what a cursor covers is visited, still to be scanned by it, or
    has its neighbours covered.  [pending] was just visited. *)
Record cover_inv (pending : option Z) (stack : list (reachCursor B)) : Prop := {
  cv_seen : forall x, x ∈ seen stack -> pending <> Some x -> open stack x \/ next_covered stack x;
  cv_reach : forall c x, c ∈ stack -> x ∈ bset (rc_reach c) ->
    x ∈ seen stack \/ x ∈ drop (rc_adjacentIdx c) (rc_adjacent c) \/ next_covered stack x
}.

(** What is cached is reachable, and where [exact] holds it is complete unless it
    was visited. *)
Record entries_inv (exact : Prop) (s : ReachabilityCache B) (visited : gset Z) : Prop := {
  en_caches : caches_ok s;
  en_components : ra_components s = components;
  en_sound : forall d' c b x, entries s d' !! c = Some b -> x ∈ bset b -> rtc (dg_edge g d') c x;
  en_exact : exact -> forall c b x, entries s d !! c = Some b -> rtc R c x -> c ∈ visited \/ x ∈ bset b
}.

Definition root_add (y : Z) (stack : list (reachCursor B)) : list (reachCursor B) :=
  match stack with [] => [] | root :: rest => set_reach (rb_Add y (rc_reach root)) root :: rest end.

Lemma root_CheckedAdd_spec y stack : stack <> [] ->
  root_CheckedAdd y stack = (root_add y stack, negb (bool_decide (y ∈ seen stack))).
Proof. destruct stack as [|r rest]; [done|]. intros _. simpl. by rewrite bset_CheckedAdd. Qed.

Lemma root_add_components y stack : rc_component <$> root_add y stack = rc_component <$> stack.
Proof. by destruct stack. Qed.

Lemma seen_root_add y stack : stack <> [] -> seen (root_add y stack) = {[y]} ∪ seen stack.
Proof. destruct stack; [done|]. intros _. simpl. by autorewrite with bset. Qed.

(** The cursors of [root_add] are those of the stack, the root with one more. *)
Lemma elem_of_root_add y stack c : c ∈ root_add y stack ->
  exists c0, c0 ∈ stack /\ rc_component c = rc_component c0 /\ rc_adjacent c = rc_adjacent c0 /\
    rc_adjacentIdx c = rc_adjacentIdx c0 /\
    (forall x, x ∈ bset (rc_reach c) -> x ∈ bset (rc_reach c0) \/
       x = y /\ Some (rc_component c0) = head (rc_component <$> stack)).
Proof.
  destruct stack as [|r rest]; simpl; [by intros ?%elem_of_nil|]. intros [->|Hc]%elem_of_cons.
  - exists r. split_and!; [by left|done..|]. simpl. autorewrite with bset.
    intros x. rewrite elem_of_union, elem_of_singleton. tauto.
  - exists c. split_and!; [by right|done..|]. tauto.
Qed.

Lemma root_add_elem y stack c : c ∈ stack ->
  exists c', c' ∈ root_add y stack /\ rc_component c' = rc_component c /\ bset (rc_reach c) ⊆ bset (rc_reach c').
Proof.
  destruct stack as [|r rest]; simpl; [by intros ?%elem_of_nil|]. intros [->|Hc]%elem_of_cons.
  - eexists. split_and!; [by left|done|]. simpl. autorewrite with bset. set_solver.
  - exists c. split_and!; [by right|done..].
Qed.

Lemma covered_root_add y stack x : covered stack x -> covered (root_add y stack) x.
Proof.
  intros (c & Hc & Hx). destruct (root_add_elem y _ _ Hc) as (c' & Hc' & _ & Hsub). exists c'. auto.
Qed.

Lemma open_root_add y stack x : open stack x -> open (root_add y stack) x.
Proof.
  intros (c & Hc & <-). destruct (root_add_elem y _ _ Hc) as (c' & Hc' & Heq & _). by exists c'.
Qed.

Definition step_cursor (c : reachCursor B) : reachCursor B :=
  {| rc_component := rc_component c; rc_adjacent := rc_adjacent c;
     rc_adjacentIdx := rc_adjacentIdx c + 1; rc_reach := rc_reach c |}.

Section advance.
Context (below : list (reachCursor B)) (top : reachCursor B) (y : Z).
Context (Hsk : stack_inv (below ++ [top])) (Hnext : rc_adjacent top !! rc_adjacentIdx top = Some y).

Lemma seen_step : seen (below ++ [step_cursor top]) = seen (below ++ [top]).
Proof. by destruct below. Qed.

Lemma elem_of_step c : c ∈ below ++ [step_cursor top] ->
  c ∈ below \/ c = step_cursor top.
Proof. intros [?| ->%list_elem_of_singleton]%elem_of_app; auto. Qed.

Lemma components_step : rc_component <$> below ++ [step_cursor top] = rc_component <$> below ++ [top].
Proof. by rewrite !fmap_app. Qed.

Lemma top_in : top ∈ below ++ [top].
Proof. apply elem_of_app. right. by left. Qed.

Lemma below_in c : c ∈ below -> c ∈ below ++ [top].
Proof. intros. apply elem_of_app. by left. Qed.

Lemma top_edge : R (rc_component top) y.
Proof using Hsk Hnext.
  unfold dg_edge. rewrite <- (sk_adjacent _ Hsk top top_in). by eapply list_elem_of_lookup_2.
Qed.

Lemma covered_step x : covered (below ++ [step_cursor top]) x <-> covered (below ++ [top]) x.
Proof.
  unfold covered. setoid_rewrite elem_of_app. setoid_rewrite list_elem_of_singleton. split.
  - intros (c & [Hc| ->] & Hx); [by exists c; auto|by exists top; auto].
  - intros (c & [Hc| ->] & Hx); [by exists c; auto|by exists (step_cursor top); auto].
Qed.

Lemma open_step x : open (below ++ [top]) x -> open (below ++ [step_cursor top]) x.
Proof.
  unfold open. setoid_rewrite elem_of_app. setoid_rewrite list_elem_of_singleton.
  intros (c & [Hc| ->] & Hx); [by exists c; auto|by exists (step_cursor top); auto].
Qed.

Lemma stack_inv_advance : stack_inv (root_add y (below ++ [step_cursor top])).
Proof using Hsk Hnext RoaringLaws0.
  assert (Hne : below ++ [step_cursor top] <> []) by by destruct below.
  destruct Hsk as [Hroot Hchain Hadj Hfrom Hreach Hown Hscan].
  split; rewrite ?root_add_components, ?components_step; try done.
  - intros c (c0 & Hc0 & -> & -> & _)%elem_of_root_add.
    apply elem_of_step in Hc0 as [Hc0| ->]; [by apply Hadj, below_in|by apply (Hadj top), top_in].
  - intros c (c0 & Hc0 & -> & _)%elem_of_root_add.
    apply elem_of_step in Hc0 as [Hc0| ->]; [by apply Hfrom, below_in|by apply (Hfrom top), top_in].
  - intros c x (c0 & Hc0 & -> & _ & _ & Hx)%elem_of_root_add [Hin|[-> Hhd]]%Hx.
    + apply elem_of_step in Hc0 as [Hc0| ->]; [by apply Hreach; [apply below_in|]|by apply (Hreach top); [apply top_in|]].
    + rewrite components_step, Hroot in Hhd. injection Hhd as ->.
      eapply rtc_r; [apply (Hfrom top), top_in|apply top_edge].
  - intros c (c0 & Hc0 & -> & _)%elem_of_root_add. rewrite seen_root_add, seen_step by done. apply elem_of_union_r.
    apply elem_of_step in Hc0 as [Hc0| ->]; [by apply Hown, below_in|by apply (Hown top), top_in].
  - intros c z (c0 & Hc0 & _ & -> & -> & _)%elem_of_root_add. rewrite seen_root_add, seen_step by done.
    apply elem_of_step in Hc0 as [Hc0| ->].
    + intros Hz. apply elem_of_union_r. by apply (Hscan c0); [apply below_in|].
    + cbn [step_cursor rc_adjacentIdx rc_adjacent]. rewrite Nat.add_1_r, (take_S_r _ _ _ Hnext).
      rewrite elem_of_app, list_elem_of_singleton. intros [Hz| ->]; [|set_solver].
      apply elem_of_union_r. by apply (Hscan top); [apply top_in|].
Qed.

Lemma cover_inv_advance : cover_inv None (below ++ [top]) ->
  cover_inv (if decide (y ∈ seen (below ++ [top])) then None else Some y)
    (root_add y (below ++ [step_cursor top])).
Proof using Hsk Hnext RoaringLaws0.
  intros [Hseen Hreach].
  assert (Hne : below ++ [step_cursor top] <> []) by by destruct below.
  assert (Hnc : forall x, next_covered (below ++ [top]) x -> next_covered (root_add y (below ++ [step_cursor top])) x).
  { intros x Hx z Hz. apply covered_root_add, covered_step. by apply Hx. }
  split; rewrite seen_root_add, seen_step by done.
  - intros x Hx Hp. assert (Hold : x ∈ seen (below ++ [top])).
    { apply elem_of_union in Hx as [->%elem_of_singleton|?]; [|done]. by case_decide. }
    destruct (Hseen x Hold) as [?|?]; [done|left; by apply open_root_add, open_step|right; by apply Hnc].
  - intros c x (c0 & Hc0 & _ & -> & -> & Hx)%elem_of_root_add [Hin|[-> _]]%Hx; [|left; set_solver].
    apply elem_of_step in Hc0 as [Hc0| ->].
    + destruct (Hreach c0 x) as [?|[?|?]]; [by apply below_in|done|left; set_solver|auto|auto].
    + destruct (Hreach top x) as [?|[Hd|?]]; [apply top_in|done|left; set_solver| |auto].
      cbn [step_cursor rc_adjacentIdx rc_adjacent]. rewrite (drop_S _ _ _ Hnext) in Hd.
      rewrite Nat.add_1_r. apply elem_of_cons in Hd as [->|Hd]; [left; set_solver|auto].
Qed.
End advance.

(** A cached reach joins the top cursor. *)
Section join.
Context (rest : list (reachCursor B)) (top : reachCursor B) (b : B) (y : Z).
Context (Hedge : R (rc_component top) y).
Context (Hb : forall x, x ∈ bset b -> rtc R y x).

Definition joined : reachCursor B := set_reach (bitmap64_Or (rc_reach top) (Bitmap64 b)) top.

Lemma joined_reach x : x ∈ bset (rc_reach joined) <-> x ∈ bset (rc_reach top) \/ x ∈ bset b.
Proof using RoaringLaws0. unfold joined. cbn [set_reach rc_reach]. rewrite bset_Or. apply elem_of_union. Qed.

Lemma seen_joined x : x ∈ seen (rest ++ [joined]) <->
  x ∈ seen (rest ++ [top]) \/ rest = [] /\ x ∈ bset b.
Proof using RoaringLaws0.
  clear Hedge Hb. destruct rest as [|r rest']; simpl.
  - rewrite joined_reach. naive_solver.
  - naive_solver.
Qed.

Lemma covered_joined x : covered (rest ++ [top]) x \/ x ∈ bset b -> covered (rest ++ [joined]) x.
Proof using RoaringLaws0.
  unfold covered. intros [(c & [Hc| ->%list_elem_of_singleton]%elem_of_app & Hx)|Hx].
  - exists c. split; [apply elem_of_app; by left|done].
  - exists joined. split; [apply elem_of_app; right; by left|]. apply joined_reach. by left.
  - exists joined. split; [apply elem_of_app; right; by left|]. apply joined_reach. by right.
Qed.

Lemma stack_inv_join : stack_inv (rest ++ [top]) -> stack_inv (rest ++ [joined]).
Proof using Hedge Hb RoaringLaws0.
  intros [Hroot Hchain Hadj Hfrom Hreach Hown Hscan].
  assert (Hcomps : rc_component <$> rest ++ [joined] = rc_component <$> rest ++ [top]) by by rewrite !fmap_app.
  assert (Htop : top ∈ rest ++ [top]) by (apply elem_of_app; right; by left).
  assert (Hrest : forall c, c ∈ rest -> c ∈ rest ++ [top]) by (intros; apply elem_of_app; by left).
  split; rewrite ?Hcomps; try done.
  - intros c [Hc| ->%list_elem_of_singleton]%elem_of_app; [by apply Hadj, Hrest|by apply (Hadj top)].
  - intros c [Hc| ->%list_elem_of_singleton]%elem_of_app; [by apply Hfrom, Hrest|by apply (Hfrom top)].
  - intros c x [Hc| ->%list_elem_of_singleton]%elem_of_app; [by apply Hreach, Hrest|].
    rewrite joined_reach. intros [Hx|Hx%Hb]; [by apply (Hreach top)|]. by eapply rtc_l.
  - intros c Hc. apply seen_joined. left. apply elem_of_app in Hc as [Hc| ->%list_elem_of_singleton];
      [by apply Hown, Hrest|by apply (Hown top)].
  - intros c z Hc Hz. apply seen_joined. left. apply elem_of_app in Hc as [Hc| ->%list_elem_of_singleton];
      [by eapply Hscan; [apply Hrest|]|by eapply (Hscan top)].
Qed.

Lemma cover_inv_join : (forall x, rtc R y x -> x ∈ bset b) -> cover_inv (Some y) (rest ++ [top]) -> cover_inv None (rest ++ [joined]).
Proof using Hedge Hb RoaringLaws0.
  intros Hall [Hseen Hreach].
  assert (Hclosed : forall x, x ∈ bset b -> next_covered (rest ++ [joined]) x).
  { intros x Hx z Hz. apply covered_joined. right. apply Hall. eapply rtc_r; [by apply Hb|done]. }
  assert (Hnc : forall x, next_covered (rest ++ [top]) x -> next_covered (rest ++ [joined]) x).
  { intros x Hx z Hz. apply covered_joined. left. by apply Hx. }
  assert (Hopen : forall x, open (rest ++ [top]) x -> open (rest ++ [joined]) x).
  { intros x (c & [Hc| ->%list_elem_of_singleton]%elem_of_app & Heq).
    - exists c. split; [apply elem_of_app; by left|done].
    - exists joined. split; [apply elem_of_app; right; by left|done]. }
  split.
  - intros x [Hx|[_ Hx]]%seen_joined _; [|right; by apply Hclosed].
    destruct (decide (x = y)) as [->|Hne]; [right; by apply Hclosed, Hall|].
    destruct (Hseen x Hx) as [?|?]; [congruence|left; by apply Hopen|right; by apply Hnc].
  - intros c x [Hc| ->%list_elem_of_singleton]%elem_of_app Hx.
    + destruct (Hreach c x) as [?|[?|?]]; [apply elem_of_app; by left|done| |auto|auto].
      left. apply seen_joined. by left.
    + apply joined_reach in Hx as [Hx|Hx]; [|right; right; by apply Hclosed].
      destruct (Hreach top x) as [?|[?|?]]; [apply elem_of_app; right; by left|done| |auto|auto].
      left. apply seen_joined. by left.
Qed.
End join.

(** A new cursor on top. *)
Definition pushed (y : Z) : reachCursor B :=
  {| rc_component := y; rc_adjacent := dg_adj g y d; rc_adjacentIdx := 0;
     rc_reach := NewBitmap64With (dg_adj g y d ++ [y]) |}.

Lemma pushed_reach y x : x ∈ bset (rc_reach (pushed y)) <-> x ∈ dg_adj g y d \/ x = y.
Proof.
  unfold pushed. cbn [rc_reach]. autorewrite with bset.
  by rewrite elem_of_list_to_set, elem_of_app, list_elem_of_singleton.
Qed.

Section push.
Context (stack rest : list (reachCursor B)) (top : reachCursor B) (y : Z).
Context (Hstack : stack = rest ++ [top]) (Hedge : R (rc_component top) y) (Hy : y ∈ seen stack).

Lemma seen_push : seen (stack ++ [pushed y]) = seen stack.
Proof using Hstack. rewrite Hstack. by destruct rest. Qed.

Lemma stack_inv_push : stack_inv stack -> stack_inv (stack ++ [pushed y]).
Proof using Hstack Hedge Hy RoaringLaws0.
  intros Hsk. pose proof Hsk as [Hroot Hchain Hadj Hfrom Hreach Hown Hscan].
  assert (Htop : top ∈ stack) by (rewrite Hstack; apply elem_of_app; right; by left).
  split; rewrite ?seen_push.
  - rewrite fmap_app. by destruct (rc_component <$> stack).
  - intros pre p c post Heq. rewrite fmap_app in Heq. cbn [fmap list_fmap pushed rc_component] in Heq.
    destruct post as [|z post _] using rev_ind.
    + assert (Heq' : (rc_component <$> stack) ++ [y] = (pre ++ [p]) ++ [c]) by (by rewrite <- app_assoc).
      apply app_inj_tail in Heq' as [Heq' <-]. rewrite Hstack, fmap_app in Heq'.
      apply app_inj_tail in Heq' as [_ <-]. done.
    + assert (Heq' : (rc_component <$> stack) ++ [y] = (pre ++ p :: c :: post) ++ [z])
        by (by rewrite <- app_assoc).
      apply app_inj_tail in Heq' as [Heq' _]. by eapply Hchain.
  - intros c [Hc| ->%list_elem_of_singleton]%elem_of_app; [by apply Hadj|done].
  - intros c [Hc| ->%list_elem_of_singleton]%elem_of_app; [by apply Hfrom|].
    eapply rtc_r; [by apply (Hfrom top)|done].
  - intros c x [Hc| ->%list_elem_of_singleton]%elem_of_app; [by apply Hreach|].
    rewrite pushed_reach. intros [Hx| ->]; [by apply rtc_once|done].
  - intros c [Hc| ->%list_elem_of_singleton]%elem_of_app; [by apply Hown|done].
  - intros c z [Hc| ->%list_elem_of_singleton]%elem_of_app; [by apply Hscan|]. by intros ?%elem_of_nil.
Qed.

Lemma cover_inv_push : cover_inv (Some y) stack -> cover_inv None (stack ++ [pushed y]).
Proof using Hstack Hy RoaringLaws0.
  intros [Hseen Hreach].
  assert (Hnc : forall x, next_covered stack x -> next_covered (stack ++ [pushed y]) x).
  { intros x Hx z Hz. destruct (Hx z Hz) as (c & Hc & Hcz). exists c. split; [apply elem_of_app; by left|done]. }
  split; rewrite seen_push.
  - intros x Hx _. destruct (decide (x = y)) as [->|Hne].
    + left. exists (pushed y). split; [apply elem_of_app; right; by left|done].
    + destruct (Hseen x Hx) as [(c & Hc & Heq)|?]; [congruence| |right; by apply Hnc].
      left. exists c. split; [apply elem_of_app; by left|done].
  - intros c x [Hc| ->%list_elem_of_singleton]%elem_of_app Hx.
    + destruct (Hreach c x Hc Hx) as [?|[?|?]]; auto.
    + apply pushed_reach in Hx as [Hx| ->]; [|by left]. right. left. cbn [pushed rc_adjacentIdx rc_adjacent].
      by rewrite drop_0.
Qed.
End push.

(** The top cursor is done: its reach rolls up. *)
Section complete.
Context (rest : list (reachCursor B)) (anc top : reachCursor B).
Context (Hsk : stack_inv ((rest ++ [anc]) ++ [top])).
Context (Hdone : rc_adjacent top !! rc_adjacentIdx top = None).

Definition rolled : reachCursor B := joined anc (rc_reach top).

Lemma complete_edge : R (rc_component anc) (rc_component top).
Proof using Hsk.
  apply (sk_chain _ Hsk (rc_component <$> rest) _ _ []). by rewrite !fmap_app, <- app_assoc.
Qed.

Lemma seen_complete x : x ∈ seen (rest ++ [rolled]) <->
  x ∈ seen ((rest ++ [anc]) ++ [top]) \/ rest = [] /\ x ∈ bset (rc_reach top).
Proof using RoaringLaws0.
  clear Hsk Hdone. unfold rolled. rewrite seen_joined. by destruct rest.
Qed.

Lemma covered_complete x : covered ((rest ++ [anc]) ++ [top]) x -> covered (rest ++ [rolled]) x.
Proof using RoaringLaws0.
  intros (c & [Hc| ->%list_elem_of_singleton]%elem_of_app & Hx); apply covered_joined; [left|by right].
  by exists c.
Qed.

Lemma stack_inv_complete : stack_inv (rest ++ [rolled]).
Proof using Hsk RoaringLaws0.
  pose proof Hsk as [Hroot Hchain Hadj Hfrom Hreach Hown Hscan].
  assert (Hcomps : rc_component <$> rest ++ [rolled] = rc_component <$> rest ++ [anc]) by by rewrite !fmap_app.
  assert (Hin : forall c, c ∈ rest ++ [anc] -> c ∈ (rest ++ [anc]) ++ [top]) by (intros; apply elem_of_app; by left).
  assert (Hanc : anc ∈ rest ++ [anc]) by (apply elem_of_app; right; by left).
  assert (Hrest : forall c, c ∈ rest -> c ∈ rest ++ [anc]) by (intros; apply elem_of_app; by left).
  split; rewrite ?Hcomps.
  - rewrite fmap_app in Hroot. destruct (rc_component <$> rest ++ [anc]) eqn:Heq; [|done].
    rewrite fmap_app in Heq. by destruct (rc_component <$> rest).
  - intros pre p c post Heq. rewrite fmap_app, Heq in Hchain. eapply (Hchain pre p c).
    by rewrite <- app_assoc.
  - intros c [Hc| ->%list_elem_of_singleton]%elem_of_app; [by apply Hadj, Hin, Hrest|by apply (Hadj anc), Hin].
  - intros c [Hc| ->%list_elem_of_singleton]%elem_of_app; [by apply Hfrom, Hin, Hrest|by apply (Hfrom anc), Hin].
  - intros c x [Hc| ->%list_elem_of_singleton]%elem_of_app; [by apply Hreach, Hin, Hrest|].
    unfold rolled. rewrite joined_reach. intros [Hx|Hx]; [by apply (Hreach anc); [apply Hin|]|].
    eapply rtc_l; [apply complete_edge|]. apply (Hreach top); [|done]. apply elem_of_app. right. by left.
  - intros c Hc. apply seen_complete. left. apply elem_of_app in Hc as [Hc| ->%list_elem_of_singleton];
      [by apply Hown, Hin, Hrest|by apply (Hown anc), Hin].
  - intros c z Hc Hz. apply seen_complete. left. apply elem_of_app in Hc as [Hc| ->%list_elem_of_singleton];
      [by eapply Hscan; [apply Hin, Hrest|]|by eapply (Hscan anc); [apply Hin|]].
Qed.

(** The neighbours of the finished component were all visited. *)
Lemma finished_covered : forall y, R (rc_component top) y -> y ∈ seen ((rest ++ [anc]) ++ [top]).
Proof using Hsk Hdone.
  intros y Hy. assert (Htop : top ∈ (rest ++ [anc]) ++ [top]) by (apply elem_of_app; right; by left).
  apply (sk_scanned _ Hsk top); [done|]. apply lookup_ge_None in Hdone.
  rewrite take_ge by done. by rewrite (sk_adjacent _ Hsk top Htop).
Qed.

Lemma cover_inv_complete : cover_inv None ((rest ++ [anc]) ++ [top]) -> cover_inv None (rest ++ [rolled]).
Proof using Hsk Hdone RoaringLaws0.
  intros [Hseen Hreach].
  assert (Hnc : forall x, next_covered ((rest ++ [anc]) ++ [top]) x -> next_covered (rest ++ [rolled]) x).
  { intros x Hx z Hz. by apply covered_complete, Hx. }
  assert (Hcs : forall x, x ∈ seen ((rest ++ [anc]) ++ [top]) -> covered (rest ++ [rolled]) x).
  { intros x Hx. apply covered_complete. destruct rest as [|r rest']; [exists anc|exists r]; simpl in *; set_solver. }
  assert (Hv : forall x, x ∈ seen ((rest ++ [anc]) ++ [top]) -> open (rest ++ [rolled]) x \/ next_covered (rest ++ [rolled]) x).
  { intros x Hx. destruct (Hseen x Hx) as [(c & [Hc| ->%list_elem_of_singleton]%elem_of_app & <-)|?];
      [done| |right; intros z Hz; by apply Hcs, finished_covered|right; by apply Hnc].
    left. apply elem_of_app in Hc as [Hc| ->%list_elem_of_singleton].
    - exists c. split; [apply elem_of_app; by left|done].
    - exists rolled. split; [apply elem_of_app; right; by left|done]. }
  assert (Htop : forall x, x ∈ bset (rc_reach top) ->
    x ∈ seen ((rest ++ [anc]) ++ [top]) \/ next_covered (rest ++ [rolled]) x).
  { intros x Hx. destruct (Hreach top x) as [?|[Hd|?]]; [apply elem_of_app; right; by left|done|by left| |right; by apply Hnc].
    apply lookup_ge_None in Hdone. rewrite drop_ge in Hd by done. by apply elem_of_nil in Hd. }
  split.
  - intros x [Hx|[_ Hx]]%seen_complete _; [by apply Hv|]. destruct (Htop x Hx); [by apply Hv|by right].
  - intros c x [Hc| ->%list_elem_of_singleton]%elem_of_app Hx.
    + destruct (Hreach c x) as [?|[?|?]]; [apply elem_of_app; left; apply elem_of_app; by left|done| |auto|auto].
      left. apply seen_complete. by left.
    + unfold rolled in Hx. apply joined_reach in Hx as [Hx|Hx].
      * destruct (Hreach anc x) as [?|[?|?]]; [apply elem_of_app; left; apply elem_of_app; right; by left|done| |auto|auto].
        left. apply seen_complete. by left.
      * destruct (Htop x Hx); [left; apply seen_complete; by left|auto].
Qed.
End complete.

(** ** The loop *)

Definition unseen_work (v : gset Z) (nodes : list Z) : nat :=
  sum_list_with (fun n => if decide (n ∈ v) then 0 else S (length (dg_adj g n d))) nodes.
Definition cursor_left (c : reachCursor B) : nat := S (length (rc_adjacent c) - rc_adjacentIdx c).
Definition dfs_work (stack : list (reachCursor B)) : nat :=
  unseen_work (seen stack) (dg_nodes g) + sum_list_with cursor_left stack.

Lemma unseen_work_mono v v' nodes : v ⊆ v' -> unseen_work v' nodes <= unseen_work v nodes.
Proof.
  intros Hsub. unfold unseen_work. induction nodes as [|n nodes IH]; simpl; [done|].
  repeat case_decide; [lia|lia|set_solver|lia].
Qed.

Lemma unseen_work_add v y nodes : y ∈ nodes -> y ∉ v ->
  unseen_work ({[y]} ∪ v) nodes + S (length (dg_adj g y d)) <= unseen_work v nodes.
Proof.
  intros Hy Hv. induction nodes as [|n nodes IH]; [by apply elem_of_nil in Hy|].
  unfold unseen_work in *. cbn [sum_list_with]. apply elem_of_cons in Hy as [<-|Hy].
  - rewrite decide_True, (decide_False (P := y ∈ v)) by set_solver.
    assert (Hmono : unseen_work ({[y]} ∪ v) nodes <= unseen_work v nodes)
      by (apply unseen_work_mono; set_solver).
    unfold unseen_work in Hmono. lia.
  - specialize (IH Hy). repeat case_decide; [lia|lia|set_solver|lia].
Qed.

Lemma sum_root_add y stack : sum_list_with cursor_left (root_add y stack) = sum_list_with cursor_left stack.
Proof. by destruct stack. Qed.

Lemma entries_inv_mono exact s v v' : v ⊆ v' -> entries_inv exact s v -> entries_inv exact s v'.
Proof.
  intros Hsub [Hc Hcomp Hs He]. split; try done. intros Hex c b x Hb Hr.
  destruct (He Hex c b x Hb Hr); [left; by apply Hsub|by right].
Qed.

Lemma entries_inv_cached exact s v c : entries_inv exact s v ->
  exists s', cachedComponentReach s c d = (entries s d !! c, s') /\ entries_inv exact s' v.
Proof.
  intros [Hc Hcomp Hs He]. destruct (cached_spec s c d Hc) as (s' & -> & Hc' & Hcomp' & Hent).
  exists s'. split; [done|]. split; [done|congruence| |].
  - intros d' c' b x. rewrite Hent. apply Hs.
  - intros Hex c' b x. rewrite Hent. by apply He.
Qed.

Lemma entries_inv_put exact s v (cur : reachCursor B) : entries_inv exact s v ->
  (forall x, x ∈ bset (rc_reach cur) -> rtc R (rc_component cur) x) -> rc_component cur ∈ v ->
  exists s', cacheComponentReach s cur d = Done s' /\ entries_inv exact s' v.
Proof.
  intros [Hc Hcomp Hs He] Hreach Hown. destruct (cache_spec s cur d Hc) as (s' & -> & Hc' & Hcomp' & Hent).
  exists s'. split; [done|]. split; [done|congruence| |].
  - intros d' c b x Hb Hx. destruct (Hent d' c b Hb) as [(-> & -> & ->)|Hold]; [by apply Hreach|by eapply Hs].
  - intros Hex c b x Hb Hr. destruct (Hent d c b Hb) as [(_ & -> & ->)|Hold]; [by left|by eapply He].
Qed.

Record dfs_ok (exact : Prop) (s : ReachabilityCache B) (stack : list (reachCursor B)) : Prop := {
  ok_stack : stack_inv stack;
  ok_entries : entries_inv exact s (seen stack);
  ok_cover : exact -> cover_inv None stack
}.

(** The components visited when the stack runs empty are the reachable ones. *)
Lemma root_closed top : stack_inv [top] -> rc_adjacent top !! rc_adjacentIdx top = None ->
  cover_inv None [top] -> forall x, rtc R a x -> x ∈ bset (rc_reach top).
Proof.
  intros Hsk Hdone [Hseen _]. pose proof (sk_root _ Hsk) as Hroot. simpl in Hroot. injection Hroot as Hroot.
  assert (Htop : top ∈ [top]) by by left.
  apply rtc_ind_r.
  - rewrite <- Hroot. apply (sk_own _ Hsk top Htop).
  - intros x y _ Hxy Hx. destruct (Hseen x Hx) as [(c & ->%list_elem_of_singleton & <-)|Hnc]; [done| |].
    + apply (sk_scanned _ Hsk top y Htop). apply lookup_ge_None in Hdone.
      rewrite take_ge by done. by rewrite (sk_adjacent _ Hsk top Htop).
    + by destruct (Hnc y Hxy) as (c & ->%list_elem_of_singleton & Hy).
Qed.

Lemma newReachCursor_pushed exact s v y : entries_inv exact s v -> newReachCursor s y d = pushed y.
Proof. intros [_ Hcomp _ _]. unfold newReachCursor. rewrite Hcomp, (AdjacentNodes_dg g). done. Qed.

(** A turn that scans a neighbour. *)
Lemma scan_turn exact s below top y :
  dfs_ok exact s (below ++ [top]) -> rc_adjacent top !! rc_adjacentIdx top = Some y ->
  exists s' stack', dfs_turn d s below top = Done (s', stack') /\ stack' <> [] /\
    dfs_ok exact s' stack' /\ dfs_work stack' < dfs_work (below ++ [top]).
Proof.
  intros [Hsk Hen Hcv] Hnext. unfold dfs_turn, reachCursor_NextAdjacent. rewrite Hnext.
  fold (step_cursor top). assert (Hne : below ++ [step_cursor top] <> []) by by destruct below.
  rewrite root_CheckedAdd_spec, seen_step by done.
  pose proof (stack_inv_advance _ _ _ Hsk Hnext) as Hsk1.
  pose proof (fun Hex => cover_inv_advance _ _ _ Hsk Hnext (Hcv Hex)) as Hcv1.
  assert (Hseen1 : seen (root_add y (below ++ [step_cursor top])) = {[y]} ∪ seen (below ++ [top]))
    by (by rewrite seen_root_add, seen_step).
  assert (Hwork1 : S (sum_list_with cursor_left (root_add y (below ++ [step_cursor top]))) =
                   sum_list_with cursor_left (below ++ [top])).
  { rewrite sum_root_add, !sum_list_with_app. cbn [sum_list_with]. unfold cursor_left at 2 4.
    cbn [step_cursor rc_adjacent rc_adjacentIdx]. apply lookup_lt_Some in Hnext. lia. }
  assert (Hsub : seen (below ++ [top]) ⊆ seen (root_add y (below ++ [step_cursor top]))) by set_solver.
  assert (Hle : dfs_work (root_add y (below ++ [step_cursor top])) < dfs_work (below ++ [top])).
  { unfold dfs_work. pose proof (unseen_work_mono _ _ (dg_nodes g) Hsub). lia. }
  case_bool_decide as Hy; cbn [negb].
  - eexists s, _. split; [done|]. split; [by destruct below|]. split; [|done].
    split; [done|by eapply entries_inv_mono|]. intros Hex. specialize (Hcv1 Hex). by case_decide.
  - assert (Hpend : exact -> cover_inv (Some y) (root_add y (below ++ [step_cursor top]))).
    { intros Hex. specialize (Hcv1 Hex). by case_decide. }
    destruct (root_add y (below ++ [step_cursor top])) as [|t rest _] eqn:Hroot using rev_ind;
      [by destruct below|].
    rewrite deque_PopBack_snoc.
    destruct (entries_inv_cached _ _ _ y Hen) as (s' & -> & Hen').
    assert (Hedge : R (rc_component t) y).
    { replace (rc_component t) with (rc_component top); [by eapply top_edge|].
      assert (Heq : rc_component <$> rest ++ [t] = rc_component <$> below ++ [top])
        by (by rewrite <- Hroot, root_add_components, components_step).
      rewrite !fmap_app in Heq. by apply app_inj_tail in Heq as [_ ?]. }
    destruct (entries s d !! y) as [b|] eqn:Hb.
    + eexists s', _. split; [done|]. split; [by destruct rest|]. fold (joined t b).
      assert (Hbs : forall x, x ∈ bset b -> rtc R y x) by (intros x; by apply (en_sound _ _ _ Hen d y b)).
      assert (Hsub2 : seen (rest ++ [t]) ⊆ seen (rest ++ [joined t b]))
        by (intros x Hx; apply seen_joined; by left).
      split; [split|].
      * by eapply stack_inv_join.
      * eapply entries_inv_mono; [|exact Hen']. set_solver.
      * intros Hex. eapply cover_inv_join; [done|done| |by apply Hpend].
        intros x Hx. by destruct (en_exact _ _ _ Hen Hex y b x Hb Hx).
      * enough (dfs_work (rest ++ [joined t b]) <= dfs_work (rest ++ [t])) by lia.
        unfold dfs_work. pose proof (unseen_work_mono _ _ (dg_nodes g) Hsub2).
        rewrite !sum_list_with_app. cbn [sum_list_with].
        change (cursor_left (joined t b)) with (cursor_left t). lia.
    + eexists s', _. rewrite (newReachCursor_pushed _ _ _ y Hen'). split; [done|].
      split; [by destruct rest|].
      assert (Hyseen : y ∈ seen (rest ++ [t])) by (rewrite Hseen1; set_solver).
      split; [split|].
      * by eapply stack_inv_push.
      * rewrite (seen_push _ rest t y) by done. eapply entries_inv_mono; [exact Hsub|done].
      * intros Hex. eapply cover_inv_push; [done|done|by apply Hpend].
      * unfold dfs_work. rewrite (seen_push _ rest t y) by done.
        rewrite sum_list_with_app. cbn [sum_list_with]. unfold cursor_left at 2.
        cbn [pushed rc_adjacent rc_adjacentIdx].
        assert (Hn : y ∈ dg_nodes g) by (by apply (dg_closed (g := g) (rc_component t) y d)).
        pose proof (unseen_work_add _ _ _ Hn Hy). rewrite Hseen1. lia.
Qed.

(** A turn that pops a cursor above another. *)
Lemma pop_turn exact s rest anc top :
  dfs_ok exact s ((rest ++ [anc]) ++ [top]) -> rc_adjacent top !! rc_adjacentIdx top = None ->
  exists s', dfs_turn d s (rest ++ [anc]) top = Done (s', rest ++ [rolled anc top]) /\
    dfs_ok exact s' (rest ++ [rolled anc top]) /\
    dfs_work (rest ++ [rolled anc top]) < dfs_work ((rest ++ [anc]) ++ [top]).
Proof.
  intros [Hsk Hen Hcv] Hdone. unfold dfs_turn, reachCursor_NextAdjacent. rewrite Hdone, deque_PopBack_snoc.
  assert (Htop : top ∈ (rest ++ [anc]) ++ [top]) by (apply elem_of_app; right; by left).
  destruct (entries_inv_put exact s _ top Hen) as (s' & -> & Hen').
  { intros x. by apply (sk_reach _ Hsk). }
  { by apply (sk_own _ Hsk). }
  cbn [mbind outcome_bind reachCursor_Complete fmap option_fmap option_map].
  assert (Hsub : seen ((rest ++ [anc]) ++ [top]) ⊆ seen (rest ++ [rolled anc top]))
    by (intros x Hx; apply seen_complete; by left).
  exists s'. split; [done|]. split; [split|].
  - by apply stack_inv_complete.
  - by eapply entries_inv_mono.
  - intros Hex. by apply cover_inv_complete; [| |apply Hcv].
  - unfold dfs_work. pose proof (unseen_work_mono _ _ (dg_nodes g) Hsub).
    rewrite !sum_list_with_app. cbn [sum_list_with].
    change (cursor_left (rolled anc top)) with (cursor_left anc).
    assert (0 < cursor_left top) by (unfold cursor_left; lia). lia.
Qed.

Lemma dfs_loop exact fuel s stack : dfs_ok exact s stack -> stack <> [] -> dfs_work stack < fuel ->
  exists b s', iterate fuel (dfs_step d) (s, stack) = Some (Done (b, s')) /\
    (forall x, x ∈ bset b -> rtc R a x) /\ (exact -> forall x, rtc R a x -> x ∈ bset b) /\
    entries_inv False s' ∅.
Proof.
  intros Hok Hne Hfuel.
  destruct (iterate_total (fun st => st.2 <> [] /\ dfs_ok exact st.1 st.2) (fun st => dfs_work st.2)
    (fun r => exists b s', r = Done (b, s') /\
      (forall x, x ∈ bset b -> rtc R a x) /\ (exact -> forall x, rtc R a x -> x ∈ bset b) /\
      entries_inv False s' ∅) (dfs_step d)) with (fuel := fuel) (s := (s, stack))
    as (r & Hr & b & s' & -> & Hb); [|done|done|by exists b, s'].
  clear s stack Hok Hne Hfuel. intros [s stack] [Hne Hok]. cbn [fst snd] in *. unfold dfs_step.
  destruct stack as [|top below _] using rev_ind; [done|]. rewrite deque_PopBack_snoc.
  destruct (rc_adjacent top !! rc_adjacentIdx top) as [y|] eqn:Hnext.
  - destruct (scan_turn _ _ _ _ _ Hok Hnext) as (s' & stack' & -> & Hne' & Hok' & Hw).
    destruct stack' as [|c stack']; [done|]. done.
  - destruct below as [|anc rest _] using rev_ind.
    + destruct Hok as [Hsk Hen Hcv]. assert (Htop : top ∈ [top]) by by left. cbn [app] in *.
      destruct (entries_inv_put exact s _ top Hen) as (s' & Hput & Hen').
      { intros x. by apply (sk_reach _ Hsk). }
      { by apply (sk_own _ Hsk). }
      unfold dfs_turn, reachCursor_NextAdjacent. rewrite Hnext, deque_PopBack_nil, Hput.
      cbn [mbind outcome_bind]. exists (rc_reach top), s'. split; [done|].
      pose proof (sk_root _ Hsk) as Hroot. simpl in Hroot. injection Hroot as Hroot.
      split; [intros x Hx; rewrite <- Hroot; by apply (sk_reach _ Hsk top)|].
      split; [intros Hex; apply root_closed; [done|done|by apply Hcv]|].
      destruct Hen' as [? ? ? _]. by split.
    + destruct (pop_turn _ _ _ _ _ Hok Hnext) as (s' & -> & Hok' & Hw).
      destruct (rest ++ [rolled anc top]) eqn:Heq; [by destruct rest|]. done.
Qed.

Lemma dfs_fuel_work s v exact : entries_inv exact s v ->
  unseen_work v (dg_nodes g) + S (length (dg_adj g a d)) < dfs_fuel s a d.
Proof.
  intros [_ Hcomp _ _]. unfold dfs_fuel. rewrite Hcomp, (AdjacentNodes_dg g), dg_EachNode.
  rewrite (each_continue _ (fun n fuel => fuel + S (length (AdjacentNodes g n d)))) by done.
  assert (Hgen : forall nodes k, unseen_work v nodes + k <=
    foldl (fun fuel n => fuel + S (length (AdjacentNodes g n d))) k nodes).
  { induction nodes as [|n nodes IH]; intros k; [done|]. cbn [foldl]. rewrite <- IH.
    unfold unseen_work. cbn [sum_list_with]. rewrite (AdjacentNodes_dg g). case_decide; lia. }
  specialize (Hgen (dg_nodes g) (2 + length (dg_adj g a d))). lia.
Qed.

(** The search from [a]: sound, and complete when the cached entries are. *)
Lemma componentReachDFS_total exact s : entries_inv exact s ∅ ->
  exists b s', componentReachDFS s a d = Done (b, s') /\
    (forall x, x ∈ bset b -> rtc R a x) /\ (exact -> forall x, rtc R a x -> x ∈ bset b) /\
    entries_inv False s' ∅.
Proof.
  intros Hen. unfold componentReachDFS. destruct (entries_inv_cached _ _ _ a Hen) as (s1 & -> & Hen1).
  destruct (entries s d !! a) as [b|] eqn:Hb.
  - exists b, s1. split; [done|]. split; [intros x; by apply (en_sound _ _ _ Hen d a b)|]. split.
    + intros Hex x Hx. destruct (en_exact _ _ _ Hen Hex a b x Hb Hx); [set_solver|done].
    + destruct Hen1 as [? ? ? _]. by split.
  - assert (Hroot : newRootReachCursor s1 a d =
      {| rc_component := a; rc_adjacent := dg_adj g a d; rc_adjacentIdx := 0; rc_reach := NewBitmap64With [a] |}).
    { unfold newRootReachCursor. by rewrite (en_components _ _ _ Hen1), (AdjacentNodes_dg g). }
    rewrite Hroot. set (root := {| rc_component := a |}).
    assert (Hreach : forall x, x ∈ bset (rc_reach root) <-> x = a).
    { intros x. unfold root. cbn [rc_reach]. autorewrite with bset. set_solver. }
    destruct (dfs_loop exact (dfs_fuel s1 a d) s1 [root]) as (b & s' & -> & Hres); [|done| |by exists b, s'].
    + split.
      * split; [done| | | | | |].
        -- intros [|? [|? ?]] p c post Heq; simplify_eq/=.
        -- by intros c ->%list_elem_of_singleton.
        -- by intros c ->%list_elem_of_singleton.
        -- by intros c x ->%list_elem_of_singleton ->%Hreach.
        -- intros c ->%list_elem_of_singleton. by apply Hreach.
        -- intros c y ->%list_elem_of_singleton ?%elem_of_nil. done.
      * eapply entries_inv_mono; [|exact Hen1]. set_solver.
      * intros _. split.
        -- intros x ->%Hreach _. left. exists root. split; [by left|done].
        -- intros c x ->%list_elem_of_singleton Hx. by left.
    + unfold dfs_work. cbn [sum_list_with].
      change (cursor_left root) with (S (length (dg_adj g a d) - 0)).
      assert (Hen2 : entries_inv exact s1 (seen [root]))
        by (eapply entries_inv_mono; [|exact Hen1]; set_solver).
      pose proof (dfs_fuel_work _ _ _ Hen2). lia.
Qed.
End search.

(** ** Members *)

Section members.
Context {G B : Type} `{DirectedGraph G} `{Roaring B} `{!RoaringLaws B} (g : G) `{!LawfulDigraph g}.

Notation E := (dg_edge g DirectionOutbound).

(** A cache over the contracted graph of [g]. *)
Definition cache_of (cg : ComponentGraph csrDigraph B) (s : ReachabilityCache B) : Prop :=
  ra_components s = cg /\ scc_spec g (cg_componentMembers cg) (cg_memberComponentLookup cg) /\
  exists outs ins, csr_rep (cg_digraph cg) (in_range (cg_componentMembers cg))
    (component_edge g (cg_memberComponentLookup cg)) outs ins.

Lemma member_bitmap cg s i b : cache_of cg s -> (0 <= i < Z.of_nat (length (cg_componentMembers cg)))%Z ->
  exists b', slice_get (cg_componentMembers (ra_components s)) i = Done b' /\
    bset (bitmap64_Or b (Bitmap64 b')) = bset b ∪ bset b' /\
    forall y, y ∈ bset b' <-> cg_memberComponentLookup cg !! y = Some i.
Proof.
  intros (-> & Hscc & _) Hi. unfold slice_get. rewrite decide_True by lia.
  destruct (lookup_lt_is_Some_2 (cg_componentMembers cg) (Z.to_nat i)) as [b' Hb']; [lia|].
  rewrite Hb'. exists b'. split; [done|]. split; [by rewrite bset_Or|].
  intros y. rewrite (scc_members _ _ _ Hscc _ _ Hb' y). by rewrite Z2Nat.id by lia.
Qed.

Lemma members_bitmap cg s reach : cache_of cg s ->
  (forall i, i ∈ bset reach -> (0 <= i < Z.of_nat (length (cg_componentMembers cg)))%Z) ->
  exists m, componentReachToMemberReachBitmap s reach = Done m /\
    forall y, y ∈ bset m <-> exists i, i ∈ bset reach /\ cg_memberComponentLookup cg !! y = Some i.
Proof.
  intros Hof Hrange. unfold componentReachToMemberReachBitmap. rewrite Each_Slice.
  assert (Hgen : forall l b, (forall i, i ∈ l -> (0 <= i < Z.of_nat (length (cg_componentMembers cg)))%Z) ->
    exists m, each (fun reachableComponent members =>
       (m ← members; ComponentGraph_CollectComponentMembers (ra_components s) reachableComponent m, true))
       l (Done b) = Done m /\
    forall y, y ∈ bset m <-> y ∈ bset b \/ exists i, i ∈ l /\ cg_memberComponentLookup cg !! y = Some i).
  { induction l as [|i l IH]; intros b Hl; cbn [each].
    - exists b. split; [done|]. intros y. split; [by left|]. by intros [?|(i & ?%elem_of_nil & _)].
    - destruct (member_bitmap cg s i b Hof) as (b' & Hget & Hor & Hmem); [apply Hl; by left|].
      cbn [mbind outcome_bind]. unfold ComponentGraph_CollectComponentMembers at 2.
      rewrite Hget. cbn [mbind outcome_bind].
      destruct (IH (bitmap64_Or b (Bitmap64 b'))) as (m & Hm & Hy); [intros j Hj; apply Hl; by right|].
      exists m. split; [exact Hm|]. intros y. rewrite Hy, Hor, elem_of_union, Hmem.
      setoid_rewrite elem_of_cons. naive_solver. }
  destruct (Hgen (bitmap64_Slice reach) NewBitmap64) as (m & Hm & Hy).
  - intros i Hi%elem_of_Slice. by apply Hrange.
  - exists m. split; [exact Hm|]. intros y. rewrite Hy, bset_New. setoid_rewrite elem_of_Slice. set_solver.
Qed.

Lemma members_slice cg s reach : cache_of cg s ->
  (forall i, i ∈ bset reach -> (0 <= i < Z.of_nat (length (cg_componentMembers cg)))%Z) ->
  exists ms, componentReachToMemberReachSlice s reach = Done ms /\
    forall y, (exists m, m ∈ ms /\ y ∈ bset m) <->
      exists i, i ∈ bset reach /\ cg_memberComponentLookup cg !! y = Some i.
Proof.
  intros Hof Hrange. unfold componentReachToMemberReachSlice. rewrite Each_Slice.
  assert (Hgen : forall l ms, (forall i, i ∈ l -> (0 <= i < Z.of_nat (length (cg_componentMembers cg)))%Z) ->
    exists ms', each (fun reachableComponent members =>
       (ms ← members; m ← ComponentGraph_ComponentMembers (ra_components s) reachableComponent;
        Done (ms ++ [m]), true)) l (Done ms) = Done ms' /\
    forall y, (exists m, m ∈ ms' /\ y ∈ bset m) <-> (exists m, m ∈ ms /\ y ∈ bset m) \/
      exists i, i ∈ l /\ cg_memberComponentLookup cg !! y = Some i).
  { induction l as [|i l IH]; intros ms Hl; cbn [each].
    - exists ms. split; [done|]. intros y. split; [by left|]. by intros [?|(i & ?%elem_of_nil & _)].
    - destruct (member_bitmap cg s i NewBitmap64 Hof) as (b' & Hget & _ & Hmem); [apply Hl; by left|].
      cbn [mbind outcome_bind]. unfold ComponentGraph_ComponentMembers at 2. rewrite Hget.
      cbn [mbind outcome_bind].
      destruct (IH (ms ++ [b'])) as (m & Hm & Hy); [intros j Hj; apply Hl; by right|].
      exists m. split; [exact Hm|]. intros y. rewrite Hy. setoid_rewrite elem_of_app.
      setoid_rewrite list_elem_of_singleton. setoid_rewrite elem_of_cons.
      specialize (Hmem y). naive_solver. }
  destruct (Hgen (bitmap64_Slice reach) []) as (m & Hm & Hy).
  - intros i Hi%elem_of_Slice. by apply Hrange.
  - exists m. split; [exact Hm|]. intros y. rewrite Hy. setoid_rewrite elem_of_Slice. set_solver.
Qed.

(** Queries answered from a cache whose entries are sound, and complete where
    [exact] holds. *)
Definition query_ok (cg : ComponentGraph csrDigraph B) (exact : Prop) (d : Direction)
    (s : ReachabilityCache B) : Prop :=
  cache_of cg s /\ caches_ok s /\
  (forall d' c b x, entries s d' !! c = Some b -> x ∈ bset b ->
     rtc (dir_edge (component_edge g (cg_memberComponentLookup cg)) d') c x) /\
  (exact -> forall c b x, entries s d !! c = Some b ->
     rtc (dir_edge (component_edge g (cg_memberComponentLookup cg)) d) c x -> x ∈ bset b).

Lemma query_search cg exact d s i : query_ok cg exact d s ->
  exists b s', componentReachDFS s i d = Done (b, s') /\
    (forall x, x ∈ bset b -> rtc (dir_edge (component_edge g (cg_memberComponentLookup cg)) d) i x) /\
    (exact -> forall x, rtc (dir_edge (component_edge g (cg_memberComponentLookup cg)) d) i x -> x ∈ bset b) /\
    (forall d', query_ok cg False d' s').
Proof.
  intros ((Hcomp & Hscc & outs & ins & Hrep) & Hcaches & Hsound & Hexact).
  set (law := csr_lawful _ _ _ _ _ Hrep).
  assert (Hedge : forall d x y, rtc (dg_edge (cg_digraph cg) (LawfulDigraph0 := law) d) x y <->
    rtc (dir_edge (component_edge g (cg_memberComponentLookup cg)) d) x y)
    by (intros; apply rtc_ext; intros; apply csr_dg_edge).
  destruct (componentReachDFS_total cg (LawfulDigraph0 := law) d i exact s) as (b & s' & Hrun & Hb & Hc & Hen).
  { split; [done|done| |].
    - intros d' c b x Hb Hx. apply Hedge. by eapply Hsound.
    - intros Hex c b x Hb Hx. right. eapply Hexact; [done|done|]. by apply Hedge. }
  exists b, s'. split; [done|]. split; [intros x Hx; by apply Hedge, Hb|].
  split; [intros Hex x Hx; by apply Hc, Hedge|]. intros d'. destruct Hen as [Hcs' Hcomp' Hs' _].
  split; [split; [done|split; [done|by exists outs, ins]]|]. split; [done|]. split; [|done].
  intros d'' c b' x Hb' Hx. apply Hedge. by eapply Hs'.
Qed.

Lemma reach_in_range (cg : ComponentGraph csrDigraph B) d i x outs ins :
  csr_rep (cg_digraph cg) (in_range (cg_componentMembers cg))
    (component_edge g (cg_memberComponentLookup cg)) outs ins ->
  (0 <= i < Z.of_nat (length (cg_componentMembers cg)))%Z ->
  rtc (dir_edge (component_edge g (cg_memberComponentLookup cg)) d) i x ->
  (0 <= x < Z.of_nat (length (cg_componentMembers cg)))%Z.
Proof.
  intros Hrep Hi Hr. revert Hi. induction Hr as [|i j x Hij _ IH]; [done|]. intros Hi. apply IH.
  destruct d; simpl in Hij; [| |destruct Hij as [Hij|Hij]]; by apply (cr_edges _ _ _ _ _ Hrep) in Hij as [? ?].
Qed.

(** The nodes a query returns. *)
Lemma query_members cg exact d s x i : query_ok cg exact d s ->
  cg_memberComponentLookup cg !! x = Some i ->
  exists b m s', componentReachDFS s i d = Done (b, s') /\
    componentReachToMemberReachBitmap s' b = Done m /\
    (forall y, y ∈ bset m -> rtc (dir_edge E d) x y) /\
    (exact -> forall y, rtc (dir_edge E d) x y -> y ∈ dg_nodes g -> y ∈ bset m) /\
    (exists ms, componentReachToMemberReachSlice s' b = Done ms /\
       forall y, (exists m, m ∈ ms /\ y ∈ bset m) <-> y ∈ bset m) /\
    (forall d', query_ok cg False d' s').
Proof.
  intros Hq Hx. pose proof Hq as ((Hcomp & Hscc & outs & ins & Hrep) & _).
  destruct (query_search cg exact d s i Hq) as (b & s' & Hrun & Hb & Hc & Hq').
  pose proof (Hq' d) as (Hof & _).
  assert (Hrange : forall j, j ∈ bset b -> (0 <= j < Z.of_nat (length (cg_componentMembers cg)))%Z).
  { intros j Hj. eapply (reach_in_range cg d i); [exact Hrep|by eapply (scc_range _ _ _ Hscc)|by apply Hb]. }
  destruct (members_bitmap cg s' b Hof Hrange) as (m & Hm & Hmem).
  destruct (members_slice cg s' b Hof Hrange) as (ms & Hms & Hmems).
  exists b, m, s'. split_and!; [done|done| | |exists ms; split; [done|]|done].
  - intros y (j & Hj & Hy)%Hmem. apply (component_reach g _ _ Hscc d x y i j Hx Hy). by apply Hb.
  - intros Hex y Hr Hn. apply Hmem. destruct (proj2 (scc_dom _ _ _ Hscc y) Hn) as [j Hj].
    exists j. split; [|done]. apply Hc; [done|]. by apply (component_reach g _ _ Hscc d x y i j Hx Hj).
  - intros y. by rewrite Hmems, Hmem.
Qed.

Lemma fresh_query_ok (live : context) size s d :
  (forall k, live k = true) -> (Z.of_nat (length (dg_nodes g)) < 2 ^ 32)%Z -> (size < 2 ^ 63)%Z ->
  NewReachabilityCache live g size = Done s -> query_ok (ra_components s) True d s.
Proof.
  intros Hlive Hn Hsize Hnew.
  destruct (NewComponentGraph_total (B := B) g live Hlive Hn) as (cg & outs & ins & Hcg & Hscc & Hrep).
  unfold NewReachabilityCache in Hnew. rewrite Hcg in Hnew. cbn [mbind outcome_bind] in Hnew.
  injection Hnew as <-. cbn [ra_components].
  assert (Hempty : forall d' c, entries {| ra_components := cg; ra_inboundComponentReach := NewSieve size;
    ra_outboundComponentReach := NewSieve size |} d' !! c = None).
  { intros [] c; cbn [entries]; [| |done];
      unfold Sieve_contents; cbn; by rewrite lookup_fmap, lookup_empty. }
  split; [split; [done|split; [done|by exists outs, ins]]|].
  split; [split; by apply NewSieve_inv|]. split.
  - intros d' c b x Hb. by rewrite Hempty in Hb.
  - intros _ c b x Hb. by rewrite Hempty in Hb.
Qed.
End members.

(** ** Properties *)

(** [C17] The first query of a new cache is exact, when the context is never cancelled
    while the cache is built, the graph has fewer than 2^32 nodes and the size is below
    2^63: for a node of the graph, [ReachOfComponentContainingMember] returns exactly
    the nodes it reaches in the given direction, itself included, and
    [ReachSliceOfComponentContainingMember] the same nodes as a list of bitmaps.
    (A cancelled context leaves a truncated cache without an error.) *)
Theorem Reach_fresh_exact {G B : Type} `{DirectedGraph G} `{Roaring B} `{!RoaringLaws B}
    (g : G) `{!LawfulDigraph g} (live : context) size s x d :
  (forall k, live k = true) -> (Z.of_nat (length (dg_nodes g)) < 2 ^ 32)%Z -> (size < 2 ^ 63)%Z ->
  NewReachabilityCache (B := B) live g size = Done s -> x ∈ dg_nodes g ->
  exists b bs s', ReachOfComponentContainingMember s x d = Done (b, s') /\
    ReachSliceOfComponentContainingMember s x d = Done (bs, s') /\
    (forall y, y ∈ dg_nodes g -> bitmap64_Contains y b = true <->
       rtc (dir_edge (dg_edge g DirectionOutbound) d) x y) /\
    (forall y, (exists m, m ∈ bs /\ bitmap64_Contains y m = true) <-> bitmap64_Contains y b = true).
Proof.
  intros Hlive Hn Hsize Hnew Hx. pose proof (fresh_query_ok g live size s d Hlive Hn Hsize Hnew) as Hq.
  pose proof Hq as ((_ & Hscc & _) & _). destruct (proj2 (scc_dom _ _ _ Hscc x) Hx) as [i Hi].
  destruct (query_members g _ True d s x i Hq Hi) as (b & m & s' & Hrun & Hm & Hs & Hc & (ms & Hms & Hmems) & _).
  exists m, ms, s'. unfold ReachOfComponentContainingMember, ReachSliceOfComponentContainingMember,
    ComponentGraph_ContainingComponent. rewrite Hi, Hrun. cbn [mbind outcome_bind]. rewrite Hm, Hms.
  split_and!; [done|done| |].
  - intros y Hy. rewrite bset_Contains, bool_decide_eq_true. split; [apply Hs|]. intros Hr. by apply Hc.
  - intros y. setoid_rewrite bset_Contains. setoid_rewrite bool_decide_eq_true. apply Hmems.
Qed.

(** 1 -> 2, 1 -> 3, 2 -> 4, 3 -> 4, 4 -> 5. *)
Definition diamond : list builder_op :=
  [OpAddEdge 1 2; OpAddEdge 1 3; OpAddEdge 2 4; OpAddEdge 3 4; OpAddEdge 4 5].

Lemma Reach_fresh_exact_witness :
  exists g s b s', CSRDigraphBuilder_Build (run_builder (B := gset Z) diamond) = Done g /\
    NewReachabilityCache (B := gset Z) (fun _ => true) g 10 = Done s /\
    ReachOfComponentContainingMember s 3 DirectionOutbound = Done (b, s') /\
    bitmap64_Slice b = [3; 4; 5]%Z.
Proof.
  destruct (run_builder_Build (B := gset Z) diamond) as (g & outs & ins & HB & Hrep); [vm_compute; done|].
  destruct (NewReachabilityCache (B := gset Z) (fun _ => true) g 10) as [s| |] eqn:Hnew.
  - destruct (Reach_fresh_exact (B := gset Z) g (LawfulDigraph0 := csr_lawful _ _ _ _ _ Hrep)
      (fun _ => true) 10 s 3 DirectionOutbound) as (b & bs & s' & Hr & _).
    + reflexivity.
    + vm_compute in HB. injection HB as <-. vm_compute. reflexivity.
    + reflexivity.
    + exact Hnew.
    + vm_compute in HB. injection HB as <-. vm_compute. right. right. by left.
    + exists g, s, b, s'. split_and!; [exact HB|exact Hnew|exact Hr|].
      vm_compute in HB. injection HB as <-. vm_compute in Hnew. injection Hnew as <-.
      vm_compute in Hr. injection Hr as <- _. vm_compute. reflexivity.
  - exfalso. vm_compute in HB. injection HB as <-. vm_compute in Hnew. discriminate.
  - exfalso. vm_compute in HB. injection HB as <-. vm_compute in Hnew. discriminate.
Defined.

(** A sequence of queries. *)
Fixpoint run_queries {B : Type} `{Roaring B} (s : ReachabilityCache B) (qs : list (Z * Direction))
  : outcome (list B * ReachabilityCache B) :=
  match qs with
  | [] => Done ([], s)
  | (x, d) :: qs' =>
      '(b, s1) ← ReachOfComponentContainingMember s x d;
      '(bs, s2) ← run_queries s1 qs';
      Done (b :: bs, s2)
  end.

Lemma run_queries_sound {G B : Type} `{DirectedGraph G} `{Roaring B} `{!RoaringLaws B}
    (g : G) `{!LawfulDigraph g} (cg : ComponentGraph csrDigraph B) qs s :
  (forall d, query_ok g cg False d s) ->
  exists bs s', run_queries s qs = Done (bs, s') /\
    Forall2 (fun q b => forall y, y ∈ bset b -> rtc (dir_edge (dg_edge g DirectionOutbound) q.2) q.1 y) qs bs.
Proof.
  revert s. induction qs as [|[x d] qs IH]; intros s Hq; cbn [run_queries].
  - by exists [], s.
  - pose proof (Hq d) as ((Hcomp & _) & _). unfold ReachOfComponentContainingMember,
      ComponentGraph_ContainingComponent. rewrite Hcomp.
    destruct (cg_memberComponentLookup cg !! x) as [i|] eqn:Hi.
    + destruct (query_members g cg False d s x i (Hq d) Hi) as (b & m & s1 & -> & Hm & Hs & _ & _ & Hq1).
      cbn [mbind outcome_bind]. rewrite Hm. cbn [mbind outcome_bind].
      destruct (IH s1 Hq1) as (bs & s2 & -> & Hall). exists (m :: bs), s2.
      split; [done|]. by constructor.
    + cbn [mbind outcome_bind]. destruct (IH s Hq) as (bs & s2 & -> & Hall).
      exists (NewBitmap64 :: bs), s2. split; [done|]. constructor; [|done].
      intros y. rewrite bset_New. set_solver.
Qed.

(** Whatever sequence of queries a cache answers, in whatever directions and
    with whatever evictions, no call panics or loops, and every node it reports
    is reachable from the queried node in the queried direction. *)
Theorem Reach_queries_sound {G B : Type} `{DirectedGraph G} `{Roaring B} `{!RoaringLaws B}
    (g : G) `{!LawfulDigraph g} (live : context) size s qs :
  (forall k, live k = true) -> (Z.of_nat (length (dg_nodes g)) < 2 ^ 32)%Z -> (size < 2 ^ 63)%Z ->
  NewReachabilityCache (B := B) live g size = Done s ->
  exists bs s', run_queries s qs = Done (bs, s') /\
    Forall2 (fun q b => forall y, bitmap64_Contains y b = true ->
      rtc (dir_edge (dg_edge g DirectionOutbound) q.2) q.1 y) qs bs.
Proof.
  intros Hlive Hn Hsize Hnew.
  destruct (run_queries_sound g (ra_components s) qs s) as (bs & s' & Hrun & Hall).
  - intros d. destruct (fresh_query_ok g live size s d Hlive Hn Hsize Hnew) as (Hof & Hc & Hs & _).
    by split; [|split; [|split]].
  - exists bs, s'. split; [done|]. eapply Forall2_impl; [exact Hall|]. intros q b Hb y.
    rewrite bset_Contains, bool_decide_eq_true. apply Hb.
Qed.

Lemma Reach_queries_sound_witness :
  exists g s bs s', CSRDigraphBuilder_Build (run_builder (B := gset Z) diamond) = Done g /\
    NewReachabilityCache (B := gset Z) (fun _ => true) g 10 = Done s /\
    run_queries s [(1, DirectionOutbound); (4, DirectionInbound)]%Z = Done (bs, s') /\
    bitmap64_Slice <$> bs = [[1; 2; 3; 4; 5]; [1; 2; 3; 4]]%Z.
Proof.
  destruct (run_builder_Build (B := gset Z) diamond) as (g & outs & ins & HB & Hrep); [vm_compute; done|].
  destruct (NewReachabilityCache (B := gset Z) (fun _ => true) g 10) as [s| |] eqn:Hnew.
  - destruct (Reach_queries_sound (B := gset Z) g (LawfulDigraph0 := csr_lawful _ _ _ _ _ Hrep)
      (fun _ => true) 10 s [(1, DirectionOutbound); (4, DirectionInbound)]%Z) as (bs & s' & Hr & _).
    + reflexivity.
    + vm_compute in HB. injection HB as <-. vm_compute. reflexivity.
    + reflexivity.
    + exact Hnew.
    + exists g, s, bs, s'. split_and!; [exact HB|exact Hnew|exact Hr|].
      vm_compute in HB. injection HB as <-. vm_compute in Hnew. injection Hnew as <-.
      vm_compute in Hr. injection Hr as <- _. vm_compute. reflexivity.
  - exfalso. vm_compute in HB. injection HB as <-. vm_compute in Hnew. discriminate.
  - exfalso. vm_compute in HB. injection HB as <-. vm_compute in Hnew. discriminate.
Defined.

(** Later queries can miss nodes.  In the graph 1 -> 2, 1 -> 3, 2 -> 4, 3 -> 4,
    4 -> 5, node 3 reaches 5.  After a query for 1 the cache holds, for 3, the
    reach of a cursor that skipped 4 because the branch through 2 had visited
    it, and a query for 3 answers 3 and 4 only. *)
Theorem Reach_cached_incomplete :
  exists g s bs s', CSRDigraphBuilder_Build (run_builder (B := gset Z) diamond) = Done g /\
    NewReachabilityCache (B := gset Z) (fun _ => true) g 10 = Done s /\
    run_queries s [(1, DirectionOutbound); (3, DirectionOutbound)]%Z = Done (bs, s') /\
    bitmap64_Slice <$> bs = [[1; 2; 3; 4; 5]; [3; 4]]%Z /\
    rtc (op_edge diamond) 3%Z 5%Z.
Proof.
  eexists _, _, _, _. split; [vm_compute; reflexivity|]. split; [vm_compute; reflexivity|].
  split; [vm_compute; reflexivity|]. split; [vm_compute; reflexivity|].
  apply rtc_l with 4%Z; [|apply rtc_once]; unfold op_edge, diamond; set_solver.
Qed.

(** [CanReach] is exact: for two nodes it answers whether the first reaches
    the second in the given direction, and it answers no when one of them is not
    a node. *)
Theorem CanReach_exact {G B : Type} `{DirectedGraph G} `{Roaring B} `{!RoaringLaws B}
    (g : G) `{!LawfulDigraph g} (live : context) size s x y d :
  (forall k, live k = true) -> (Z.of_nat (length (dg_nodes g)) < 2 ^ 32)%Z -> (size < 2 ^ 63)%Z ->
  NewReachabilityCache (B := B) live g size = Done s ->
  exists r, ReachabilityCache_CanReach s x y d = Some r /\
    (r = true <-> x ∈ dg_nodes g /\ y ∈ dg_nodes g /\ rtc (dir_edge (dg_edge g DirectionOutbound) d) x y).
Proof.
  intros Hlive Hn Hsize Hnew.
  destruct (fresh_query_ok g live size s d Hlive Hn Hsize Hnew) as ((_ & Hscc & outs & ins & Hrep) & _).
  unfold ReachabilityCache_CanReach, ComponentGraph_ContainingComponent.
  pose proof (scc_dom _ _ _ Hscc x) as Hx. pose proof (scc_dom _ _ _ Hscc y) as Hy.
  destruct (cg_memberComponentLookup (ra_components s) !! x) as [i|] eqn:Hi;
    [|exists false; split; [done|]; split; [done|]; intros (Hn' & _); by apply Hx in Hn' as []].
  destruct (cg_memberComponentLookup (ra_components s) !! y) as [j|] eqn:Hj;
    [|exists false; split; [done|]; split; [done|]; intros (_ & Hn' & _); by apply Hy in Hn' as []].
  destruct (ComponentReachable_rep (ra_components s) _ _ _ _ Hrep i j d) as (r & Hr & Hiff).
  exists r. split; [done|]. rewrite Hiff, <- (component_reach g _ _ Hscc d x y i j Hi Hj).
  rewrite <- Hx, <- Hy. naive_solver.
Qed.

Lemma CanReach_exact_witness :
  exists g s r, CSRDigraphBuilder_Build (run_builder (B := gset Z) diamond) = Done g /\
    NewReachabilityCache (B := gset Z) (fun _ => true) g 10 = Done s /\
    ReachabilityCache_CanReach s 5 1 DirectionInbound = Some r /\ r = true.
Proof.
  destruct (run_builder_Build (B := gset Z) diamond) as (g & outs & ins & HB & Hrep); [vm_compute; done|].
  destruct (NewReachabilityCache (B := gset Z) (fun _ => true) g 10) as [s| |] eqn:Hnew.
  - destruct (CanReach_exact (B := gset Z) g (LawfulDigraph0 := csr_lawful _ _ _ _ _ Hrep)
      (fun _ => true) 10 s 5 1 DirectionInbound) as (r & Hr & _).
    + reflexivity.
    + vm_compute in HB. injection HB as <-. vm_compute. reflexivity.
    + reflexivity.
    + exact Hnew.
    + exists g, s, r. split_and!; [exact HB|exact Hnew|exact Hr|].
      vm_compute in HB. injection HB as <-. vm_compute in Hnew. injection Hnew as <-.
      vm_compute in Hr. injection Hr as <-. reflexivity.
  - exfalso. vm_compute in HB. injection HB as <-. vm_compute in Hnew. discriminate.
  - exfalso. vm_compute in HB. injection HB as <-. vm_compute in Hnew. discriminate.
Defined.

(** [OrReach] and [XorReach] combine the reach of a node, without the node
    itself, with a bitmap: the first yields the union less the node, the second
    the symmetric difference with the reach less the node. *)
Theorem OrReach_XorReach_sets {B : Type} `{Roaring B} `{!RoaringLaws B} (s : ReachabilityCache B)
    node d duplex reach s' :
  ReachOfComponentContainingMember s node d = Done (reach, s') ->
  exists union xor, OrReach s node d duplex = Done (union, s') /\ XorReach s node d duplex = Done (xor, s') /\
    Duplex_set union = (Duplex_set duplex ∪ bset reach) ∖ {[node]} /\
    Duplex_set xor = (Duplex_set duplex ∖ (bset reach ∖ {[node]})) ∪ ((bset reach ∖ {[node]}) ∖ Duplex_set duplex).
Proof.
  intros Hreach. unfold OrReach, XorReach. rewrite Hreach. cbn [mbind outcome_bind].
  eexists _, _. split; [done|]. split; [done|].
  assert (Hupdate : forall (f : B -> B) (F : gset Z -> gset Z) D, (forall b, bset (f b) = F (bset b)) ->
    Duplex_set (Duplex_update f D) = F (Duplex_set D)).
  { intros f F D Hf. induction D as [b|p IH]; simpl; [apply Hf|done]. }
  unfold Duplex_Remove, Duplex_Or, Duplex_Xor. split.
  - rewrite (Hupdate _ (fun v => v ∖ {[node]})) by (intros; apply bset_Remove).
    by rewrite (Hupdate _ (fun v => v ∪ bset reach)) by (intros b; by rewrite bset_Or).
  - rewrite (Hupdate _ (fun v => (v ∖ (bset reach ∖ {[node]})) ∪ ((bset reach ∖ {[node]}) ∖ v))); [done|].
    intros b. rewrite bset_Xor. cbn [Duplex_set]. unfold bitmap64_Clone. rewrite law_Clone.
    by rewrite bset_Remove.
Qed.

Lemma OrReach_XorReach_sets_witness :
  exists g s reach s' union xor, CSRDigraphBuilder_Build (run_builder (B := gset Z) diamond) = Done g /\
    NewReachabilityCache (B := gset Z) (fun _ => true) g 10 = Done s /\
    ReachOfComponentContainingMember s 4 DirectionOutbound = Done (reach, s') /\
    OrReach s 4 DirectionOutbound (Bitmap64 {[4%Z; 9%Z]}) = Done (union, s') /\
    XorReach s 4 DirectionOutbound (Bitmap64 {[5%Z; 9%Z]}) = Done (xor, s').
Proof.
  destruct (CSRDigraphBuilder_Build (run_builder (B := gset Z) diamond)) as [g| |] eqn:HB;
    [|vm_compute in HB; discriminate|vm_compute in HB; discriminate].
  destruct (NewReachabilityCache (B := gset Z) (fun _ => true) g 10) as [s| |] eqn:Hnew;
    [|vm_compute in HB; injection HB as <-; vm_compute in Hnew; discriminate
     |vm_compute in HB; injection HB as <-; vm_compute in Hnew; discriminate].
  destruct (ReachOfComponentContainingMember s 4 DirectionOutbound) as [[reach s']| |] eqn:Hr.
  - destruct (OrReach_XorReach_sets s 4 DirectionOutbound (Bitmap64 {[4%Z; 9%Z]}) reach s' Hr) as (u & _ & Hu & _).
    destruct (OrReach_XorReach_sets s 4 DirectionOutbound (Bitmap64 {[5%Z; 9%Z]}) reach s' Hr) as (_ & x & _ & Hx & _).
    exists g, s, reach, s', u, x. split_and!; done.
  - exfalso. vm_compute in HB. injection HB as <-. vm_compute in Hnew. injection Hnew as <-.
    vm_compute in Hr. discriminate.
  - exfalso. vm_compute in HB. injection HB as <-. vm_compute in Hnew. injection Hnew as <-.
    vm_compute in Hr. discriminate.
Defined.
