(* ===== verification/Kinds.v ===== *)
(** * Kinds (graph/kind.go)

    A [Kind] is nil or a pointer to an interned [stringKind].  The first part
    models the intern table [kindCache] and shows that two pointers handed out
    by [StringKind] are equal exactly when the strings are, which lets the
    rest of the file write a kind as its string.

    [Kinds] is a slice: a header over a backing array that other headers may
    share.  [Add] and [Remove] write through that array, so the operations run
    on a memory of arrays; [Rep] relates a header to the list it shows and
    [apart] says that two headers do not share an array. *)

From S2P Require Import Prelude.

(** ** Interning *)

(** [objs] are the [stringKind] values allocated so far, by address; every
    call of [StringKind] allocates one, cached or not. *)
Record KindCache := mkKindCache {
  objs : list string;
  cache : gmap string nat
}.

Definition kindCache_empty : KindCache := mkKindCache [] ∅.

Definition StringKind (c : KindCache) (str : string) : KindCache * nat :=
  let fresh := length (objs c) in
  let objs' := objs c ++ [str] in
  match cache c !! str with
  | Some cached => (mkKindCache objs' (cache c), cached)
  | None => (mkKindCache objs' (<[str := fresh]> (cache c)), fresh)
  end.

Fixpoint StringsToKinds (c : KindCache) (strs : list string) : KindCache * list nat :=
  match strs with
  | [] => (c, [])
  | str :: strs' =>
      let '(c1, k) := StringKind c str in
      let '(c2, ks) := StringsToKinds c1 strs' in
      (c2, k :: ks)
  end.

(** ** Kinds as values *)

(** A [Kind] interface value: nil, or the interned kind of a string.  The interface is
    open and [stringKind], which [StringKind] interns, its only implementation in the
    repository; what is proved of kinds is proved of these, for which [==] and
    comparison by [String] are the same. *)
Definition Kind : Type := option string.

Definition EmptyKind : Kind := Some EmptyString.

(** A method call on a nil interface panics. *)
Definition Kind_String (k : Kind) : outcome string :=
  match k with Some s => Done s | None => Panic end.

Fixpoint stringKind_Is (s : string) (other : list Kind) : outcome bool :=
  match other with
  | [] => Done false
  | k :: other' =>
      o ← Kind_String k;
      if decide (s = o) then Done true else stringKind_Is s other'
  end.

Fixpoint Kinds_ContainsOneOf (s : list Kind) (others : list Kind) : outcome bool :=
  match s with
  | [] => Done false
  | None :: s' => Kinds_ContainsOneOf s' others
  | Some kind :: s' =>
      matches ← stringKind_Is kind others;
      if matches : bool then Done true else Kinds_ContainsOneOf s' others
  end.

Fixpoint Kinds_Strings (s : list Kind) : outcome (list string) :=
  match s with
  | [] => Done []
  | k :: s' => str ← Kind_String k; strs ← Kinds_Strings s'; Done (str :: strs)
  end.

(** ** Slices over shared arrays *)

Record Slice := mkSlice { base : nat; len : nat }.

Definition nilKinds : Slice := mkSlice 0 0.

(** Backing arrays by address; address 0 is the nil slice's, never allocated. *)
Record Mem := mkMem { arrays : gmap nat (list Kind); next : nat }.

Definition array (m : Mem) (b : nat) : list Kind := default [] (arrays m !! b).
Definition view (m : Mem) (s : Slice) : list Kind := take (len s) (array m (base s)).
Definition cap (m : Mem) (s : Slice) : nat := length (array m (base s)).

Definition alloc (m : Mem) (contents : list Kind) : Mem * nat :=
  (mkMem (<[next m := contents]> (arrays m)) (S (next m)), next m).

(** A slice literal, or the slice built for explicit variadic arguments. *)
Definition literal (m : Mem) (contents : list Kind) : Mem * Slice :=
  let '(m', b) := alloc m contents in (m', mkSlice b (length contents)).

Section slices.

(** The capacity [append] gives a grown array; at least what is needed. *)
Variable growslice : nat -> nat -> nat.

(** Write [elems] after the elements of [s], in its array. *)
Definition overwrite (m : Mem) (s : Slice) (elems : list Kind) : Mem :=
  mkMem (alter (fun arr => take (len s) arr ++ elems ++ drop (len s + length elems) arr)
           (base s) (arrays m)) (next m).

(** [append(s, elems...)]: in place when the capacity allows it. *)
Definition append_slice (m : Mem) (s : Slice) (elems : list Kind) : Mem * Slice :=
  let n := len s + length elems in
  if decide (n <= cap m s) then
    (overwrite m s elems, mkSlice (base s) n)
  else
    let '(m', b) := alloc m (view m s ++ elems ++ replicate (growslice (cap m s) n - n) None) in
    (m', mkSlice b n).

Definition Kinds_Copy (m : Mem) (s : Slice) : Mem * Slice :=
  if decide (base s = 0) then (m, nilKinds) else literal m (view m s).

Definition Kinds_Concatenate (m : Mem) (s kinds : Slice) : Mem * Slice :=
  literal m (view m s ++ view m kinds).

Definition Kinds_ConcatenateAll (m : Mem) (s : Slice) (kindBags : list Slice) : Mem * Slice :=
  foldl (fun '(m, combined) kindBag => Kinds_Concatenate m combined kindBag) (m, s) kindBags.

(** The loop of [Exclude] only reads [s]; the result has its own array of
    capacity [len(s)]. *)
Fixpoint Exclude_loop (s exclusions kinds : list Kind) : outcome (list Kind) :=
  match s with
  | [] => Done kinds
  | kind :: s' =>
      has ← Kinds_ContainsOneOf exclusions [kind];
      Exclude_loop s' exclusions (if has : bool then kinds else kinds ++ [kind])
  end.

Definition Kinds_Exclude (m : Mem) (s exclusions : Slice) : outcome (Mem * Slice) :=
  kinds ← Exclude_loop (view m s) (view m exclusions) [];
  let '(m', b) := alloc m (kinds ++ replicate (len s - length kinds) None) in
  Done (m', mkSlice b (length kinds)).

(** The first index whose kind is the same pointer; nil matches nil. *)
Fixpoint find_kind (kind : Kind) (s : list Kind) : option nat :=
  match s with
  | [] => None
  | nodeKind :: s' => if decide (kind = nodeKind) then Some 0 else S <$> find_kind kind s'
  end.

(** [append(s[:idx], s[idx+1:]...)] moves the tail down in [s]'s own array. *)
Definition Kinds_Remove (m : Mem) (s : Slice) (kind : Kind) : Mem * Slice :=
  match find_kind kind (view m s) with
  | Some idx => append_slice m (mkSlice (base s) idx) (drop (S idx) (view m s))
  | None => (m, s)
  end.

(** The range over the variadic slice reads each element when its turn comes. *)
Fixpoint Add_loop (m : Mem) (ref kinds : Slice) (idx : list nat) : outcome (Mem * Slice) :=
  match idx with
  | [] => Done (m, ref)
  | i :: idx' =>
      kind ← slice_get (view m kinds) (Z.of_nat i);
      has ← Kinds_ContainsOneOf (view m ref) [kind];
      if has : bool then Add_loop m ref kinds idx'
      else let '(m', ref') := append_slice m ref [kind] in Add_loop m' ref' kinds idx'
  end.

Definition Kinds_Add (m : Mem) (s kinds : Slice) : outcome (Mem * Slice) :=
  Add_loop m s kinds (seq 0 (len kinds)).

(** [Add(kind)] with one explicit argument. *)
Definition Kinds_Add1 (m : Mem) (s : Slice) (kind : Kind) : outcome (Mem * Slice) :=
  let '(m', kinds) := literal m [kind] in Kinds_Add m' s kinds.

End slices.

(** ** Interning is by string *)

Definition cache_ok (c : KindCache) : Prop :=
  forall str a, cache c !! str = Some a -> objs c !! a = Some str.

Lemma kindCache_empty_ok : cache_ok kindCache_empty.
Proof. intros s a Hs. simpl in Hs. by rewrite lookup_empty in Hs. Qed.

Lemma StringKind_ok c str c' a :
  cache_ok c -> StringKind c str = (c', a) ->
  cache_ok c' /\ cache c' !! str = Some a /\ cache c ⊆ cache c'.
Proof.
  intros Hok. unfold StringKind. destruct (cache c !! str) as [k|] eqn:E; intros [= <- <-]; simpl.
  - split_and!; [|done..]. intros s b Hs. apply lookup_app_l_Some, Hok, Hs.
  - split_and!; [|apply lookup_insert_eq|apply insert_subseteq, E].
    intros s b Hs. simpl in Hs. apply lookup_insert_Some in Hs as [[<- <-]|[_ Hs]].
    + simpl. by rewrite lookup_app_r, Nat.sub_diag by lia.
    + apply lookup_app_l_Some, Hok, Hs.
Qed.

Lemma StringsToKinds_ok strs : forall c c' ks,
  cache_ok c -> StringsToKinds c strs = (c', ks) ->
  cache_ok c' /\ cache c ⊆ cache c' /\ Forall2 (fun str a => cache c' !! str = Some a) strs ks.
Proof.
  induction strs as [|str strs IH]; intros c c' ks Hok; simpl; [intros [= <- <-]; by auto|].
  destruct (StringKind c str) as [c1 k] eqn:E1.
  destruct (StringsToKinds c1 strs) as [c2 ks'] eqn:E2. intros [= <- <-].
  destruct (StringKind_ok _ _ _ _ Hok E1) as (Hok1 & Hk & Hsub1).
  destruct (IH _ _ _ Hok1 E2) as (Hok2 & Hsub2 & Hks).
  split_and!; [done|by etrans|]. constructor; [|done]. by eapply lookup_weaken.
Qed.

(** Interning.  After any sequence of [StringKind] calls, each returned
    pointer addresses a [stringKind] holding the requested string, and two of
    the pointers are equal exactly when the strings they were requested with
    are, so that comparing kinds by pointer (as [Kinds.Remove] does) and by
    string (as [Is] does) agree. *)
Theorem StringKind_interned (strs : list string) :
  let '(c, ks) := StringsToKinds kindCache_empty strs in
  Forall2 (fun str a => objs c !! a = Some str) strs ks /\
  forall i j si sj ai aj,
    strs !! i = Some si -> strs !! j = Some sj -> ks !! i = Some ai -> ks !! j = Some aj ->
    (ai = aj <-> si = sj).
Proof.
  destruct (StringsToKinds kindCache_empty strs) as [c ks] eqn:E.
  destruct (StringsToKinds_ok strs _ _ _ kindCache_empty_ok E)
    as (Hok & _ & Hks).
  split; [by eapply Forall2_impl|]. intros i j si sj ai aj Hi Hj Hai Haj.
  pose proof (Forall2_lookup_lr _ _ _ _ _ _ Hks Hi Hai) as H1.
  pose proof (Forall2_lookup_lr _ _ _ _ _ _ Hks Hj Haj) as H2. simpl in *.
  split; [intros ->; apply Hok in H1, H2|intros ->]; congruence.
Qed.

(** ** The Boolean tests *)

Definition nonnil (k : Kind) : Prop := is_Some k.

Lemma stringKind_Is_spec s others :
  Forall nonnil others -> stringKind_Is s others = Done (bool_decide (Some s ∈ others)).
Proof.
  induction 1 as [|k others [o ->] _ IH]; simpl.
  { done. }
  destruct (decide (s = o)) as [->|Ho].
  - by rewrite bool_decide_eq_true_2 by set_solver.
  - rewrite IH. f_equal. apply bool_decide_ext. set_solver.
Qed.

Lemma Kinds_ContainsOneOf_spec s others :
  Forall nonnil others ->
  Kinds_ContainsOneOf s others = Done (bool_decide (Exists (.∈ others) s)).
Proof.
  intros Hnn. induction s as [|[k|] s IH]; simpl.
  - done.
  - rewrite stringKind_Is_spec by done. simpl. destruct (decide (Some k ∈ others)) as [Hk|Hk].
    + rewrite !bool_decide_eq_true_2; [done|by left|done].
    + rewrite bool_decide_eq_false_2, IH by done. f_equal. apply bool_decide_ext.
      rewrite Exists_cons. naive_solver.
  - rewrite IH. f_equal. apply bool_decide_ext. rewrite Exists_cons. split; [by auto|].
    intros [Ho|?]; [|done]. by destruct (proj1 (Forall_forall _ _) Hnn _ Ho).
Qed.

Lemma Kinds_ContainsOneOf_one s k :
  nonnil k -> Kinds_ContainsOneOf s [k] = Done (bool_decide (k ∈ s)).
Proof.
  intros Hk. rewrite Kinds_ContainsOneOf_spec by auto. f_equal. apply bool_decide_ext.
  rewrite Exists_exists. set_solver.
Qed.

(** ** Headers, views and separation *)

Definition mem_ok (m : Mem) : Prop :=
  0 < next m /\ forall b, is_Some (arrays m !! b) -> 0 < b < next m.

(** [s] is a header of [m] that shows the list [l]. *)
Record Rep (m : Mem) (s : Slice) (l : list Kind) : Prop := {
  rep_base : base s < next m;
  rep_len : len s <= cap m s;
  rep_view : view m s = l
}.

Definition apart (s t : Slice) : Prop := base s = 0 \/ base s <> base t.

(** What an operation on the header [s] leaves alone, its result being [s']:
    every header apart from [s], which is then apart from [s'] too. *)
Definition frame (m m' : Mem) (s s' : Slice) : Prop :=
  forall t l, apart t s -> Rep m t l -> Rep m' t l /\ apart t s'.

(** An operation on [s] in [m] that turns the list [l] into [l']. *)
Definition updates (m : Mem) (s : Slice) (r : Mem * Slice) (l' : list Kind) : Prop :=
  mem_ok r.1 /\ Rep r.1 r.2 l' /\ frame m r.1 s r.2.

(** [mem_ok] by computation, for concrete memories. *)
Lemma mem_ok_check m :
  bool_decide (0 < next m /\ map_Forall (fun b _ => 0 < b < next m) (arrays m)) = true -> mem_ok m.
Proof. intros [H0 H]%bool_decide_eq_true. split; [done|]. intros b [x Hb]. exact (H b x Hb). Qed.

Lemma apart_sym s t : apart s t -> apart t s.
Proof. unfold apart. lia. Qed.

#[export] Hint Resolve apart_sym : core.

Lemma frame_refl m s : frame m m s s.
Proof. by intros t l. Qed.

Lemma frame_trans m1 m2 m3 s1 s2 s3 :
  frame m1 m2 s1 s2 -> frame m2 m3 s2 s3 -> frame m1 m3 s1 s3.
Proof. intros H1 H2 t l Ht HR. destruct (H1 t l Ht HR) as [HR2 Ht2]. by apply H2. Qed.

Lemma updates_refl m s l : mem_ok m -> Rep m s l -> updates m s (m, s) l.
Proof. intros ??. split_and!; eauto using frame_refl. Qed.

Lemma updates_trans m s m1 s1 l1 r l2 :
  updates m s (m1, s1) l1 -> updates m1 s1 r l2 -> updates m s r l2.
Proof. intros (_ & _ & F1) (H & R & F2). split_and!; eauto using frame_trans. Qed.

Lemma array_nil m : mem_ok m -> array m 0 = [].
Proof.
  intros [_ Hm]. unfold array. destruct (arrays m !! 0) eqn:E; [|done].
  destruct (Hm 0 (mk_is_Some _ _ E)). lia.
Qed.

Lemma rep_length m s l : Rep m s l -> length l = len s.
Proof. intros [_ Hl <-]. unfold view. rewrite length_take. unfold cap in Hl. lia. Qed.

Lemma rep_nil m : mem_ok m -> Rep m nilKinds [].
Proof. intros Hm. split; simpl; [by destruct Hm|lia|done]. Qed.

Lemma alloc_frame m contents t l :
  mem_ok m -> Rep m t l -> Rep (alloc m contents).1 t l /\ base t <> next m.
Proof.
  intros Hm [Hb Hl Hv]. split; [|lia].
  assert (E : array (alloc m contents).1 (base t) = array m (base t)).
  { unfold array. simpl. rewrite lookup_insert_ne by lia. done. }
  split; [simpl; lia|unfold cap; by rewrite E|unfold view; by rewrite E].
Qed.

Lemma alloc_ok m contents : mem_ok m -> mem_ok (alloc m contents).1.
Proof.
  intros [Hn Hm]. split; simpl; [lia|]. intros b Hb.
  destruct (decide (b = next m)) as [->|Hne]; [lia|].
  rewrite lookup_insert_ne in Hb by done. apply Hm in Hb. lia.
Qed.

Lemma alloc_rep m contents n :
  n <= length contents ->
  Rep (alloc m contents).1 (mkSlice (next m) n) (take n contents).
Proof.
  intros Hn. assert (E : array (alloc m contents).1 (next m) = contents).
  { unfold array. simpl. by rewrite lookup_insert_eq. }
  split; [simpl; lia|unfold cap; cbn [base len]; by rewrite E|unfold view; cbn [base len]; by rewrite E].
Qed.

(** A result in a fresh array leaves every header alone. *)
Lemma alloc_updates m s contents n :
  mem_ok m -> n <= length contents ->
  updates m s ((alloc m contents).1, mkSlice (next m) n) (take n contents).
Proof.
  intros Hm Hn. split_and!; [by apply alloc_ok|by apply alloc_rep|].
  intros t l _ HR. destruct (alloc_frame m contents t l Hm HR) as [HR' Hne].
  split; [done|]. right. done.
Qed.

Lemma literal_rep m contents :
  mem_ok m ->
  let r := literal m contents in
  mem_ok r.1 /\ Rep r.1 r.2 contents /\ forall t l, Rep m t l -> Rep r.1 t l /\ apart t r.2.
Proof.
  intros Hm. simpl. split_and!; [by apply alloc_ok| |].
  - pose proof (alloc_rep m contents (length contents) ltac:(lia)) as H.
    by rewrite take_ge in H.
  - intros t l HR. destruct (alloc_frame m contents t l Hm HR). split; [done|]. by right.
Qed.

Lemma overwrite_array m s l elems :
  Rep m s l -> len s + length elems <= cap m s ->
  array (overwrite m s elems) (base s) = l ++ elems ++ drop (len s + length elems) (array m (base s)).
Proof.
  intros [_ Hl <-] Hc. unfold view, cap, array in *. simpl. rewrite lookup_alter_eq.
  destruct (arrays m !! base s) eqn:Ea; simpl in *; [done|].
  rewrite take_nil, drop_nil. destruct elems; [done|simpl in Hc; lia].
Qed.

Lemma overwrite_other m s l elems t :
  mem_ok m -> Rep m s l -> len s + length elems <= cap m s -> apart t s ->
  array (overwrite m s elems) (base t) = array m (base t).
Proof.
  intros Hm HR Hc Ht. destruct (decide (base t = base s)) as [Hts|Hts].
  - destruct Ht as [Ht|Ht]; [|done]. pose proof (rep_length _ _ _ HR) as Hlen.
    rewrite Hts, (overwrite_array m s l elems) by done.
    assert (E : array m (base s) = []) by (rewrite <- Hts, Ht; by apply array_nil).
    unfold cap in Hc. rewrite E in *. simpl in Hc.
    rewrite drop_nil, app_nil_r. apply nil_length_inv. rewrite length_app. lia.
  - unfold array. simpl. by rewrite lookup_alter_ne.
Qed.

Lemma overwrite_updates m s l elems :
  mem_ok m -> Rep m s l -> len s + length elems <= cap m s ->
  updates m s (overwrite m s elems, mkSlice (base s) (len s + length elems)) (l ++ elems).
Proof.
  intros Hm HR Hc. pose proof (rep_length _ _ _ HR) as Hlen.
  pose proof (overwrite_array m s l elems HR Hc) as E.
  split_and!; simpl.
  - destruct Hm as [Hn Hm]. split; [done|]. simpl. intros b. rewrite lookup_alter_is_Some. apply Hm.
  - split; [apply HR| |].
    + unfold cap. cbn [base len]. rewrite E, !length_app, length_drop. unfold cap in Hc. lia.
    + unfold view. cbn [base len]. rewrite E, app_assoc, take_app_length'; [done|]. rewrite length_app. lia.
  - intros t lt Ht [Hbt Hlt Hvt]. split; [|done].
    pose proof (overwrite_other m s l elems t Hm HR Hc Ht) as Et.
    split; [done|unfold cap; by rewrite Et|unfold view; by rewrite Et].
Qed.

Lemma append_slice_updates g m s l elems :
  mem_ok m -> Rep m s l -> updates m s (append_slice g m s elems) (l ++ elems).
Proof.
  intros Hm HR. pose proof (rep_length _ _ _ HR) as Hlen. unfold append_slice.
  case_decide as Hc; [by apply overwrite_updates|].
  rewrite (rep_view _ _ _ HR). simpl.
  pose proof (alloc_updates m s (l ++ elems ++ replicate (g (cap m s) (len s + length elems) -
    (len s + length elems)) None) (len s + length elems) Hm) as H.
  rewrite app_assoc, take_app_length' in H by (rewrite length_app; lia).
  rewrite app_assoc. apply H. rewrite !length_app. lia.
Qed.

(** ** The lists the operations compute *)

Definition kinds_add (l : list Kind) (ks : list Kind) : list Kind :=
  foldl (fun l k => if decide (k ∈ l) then l else l ++ [k]) l ks.

Fixpoint kinds_remove (k : Kind) (l : list Kind) : list Kind :=
  match l with
  | [] => []
  | x :: l' => if decide (k = x) then l' else x :: kinds_remove k l'
  end.

Lemma elem_of_kinds_add ks : forall l k, k ∈ kinds_add l ks <-> k ∈ l \/ k ∈ ks.
Proof.
  induction ks as [|k' ks IH]; intros l k; simpl; [set_solver|].
  rewrite IH. case_decide; set_solver.
Qed.

Lemma NoDup_kinds_add ks : forall l, NoDup l -> NoDup (kinds_add l ks).
Proof.
  induction ks as [|k ks IH]; intros l Hl; simpl; [done|]. apply IH. case_decide; [done|].
  apply NoDup_app. split_and!; [done|set_solver|apply NoDup_singleton].
Qed.

Lemma kinds_remove_notin k l : k ∉ l -> kinds_remove k l = l.
Proof. induction l; simpl; [done|]. intros. case_decide; [set_solver|]. f_equal. set_solver. Qed.

Lemma elem_of_kinds_remove k l x : NoDup l -> x ∈ kinds_remove k l <-> x ∈ l /\ x <> k.
Proof. induction 1; simpl; [set_solver|]. case_decide; set_solver. Qed.

Lemma sublist_kinds_remove k l : kinds_remove k l `sublist_of` l.
Proof. induction l; simpl; [done|]. case_decide; by constructor. Qed.

Lemma NoDup_kinds_remove k l : NoDup l -> NoDup (kinds_remove k l).
Proof. intros H. eapply sublist_NoDup; [done|apply sublist_kinds_remove]. Qed.

Lemma find_kind_None k l : find_kind k l = None -> k ∉ l.
Proof.
  induction l as [|x l IH]; simpl; [set_solver|]. case_decide; [done|].
  intros Hl%fmap_None. set_solver.
Qed.

Lemma find_kind_Some k l : forall i,
  find_kind k l = Some i -> i < length l /\ take i l ++ drop (S i) l = kinds_remove k l.
Proof.
  induction l as [|x l IH]; intros i; simpl; [done|]. case_decide as Hk.
  - intros [= <-]. simpl. split; [lia|by rewrite drop_0].
  - intros (j & Hj & ->)%fmap_Some. destruct (IH j Hj) as [Hlt E]. simpl.
    split; [lia|by rewrite E].
Qed.

(** ** What [Remove] and [Add] do to memory *)

Lemma rep_prefix m s l i : Rep m s l -> i <= len s -> Rep m (mkSlice (base s) i) (take i l).
Proof.
  intros [Hb Hl <-] Hi. split; [done|unfold cap in *; cbn [base len]; lia|].
  unfold view. cbn [base len]. by rewrite take_take, Nat.min_l.
Qed.

Lemma Remove_updates g m s l k :
  mem_ok m -> Rep m s l -> updates m s (Kinds_Remove g m s k) (kinds_remove k l).
Proof.
  intros Hm HR. unfold Kinds_Remove. rewrite (rep_view _ _ _ HR).
  destruct (find_kind k l) as [i|] eqn:E.
  - apply find_kind_Some in E as [Hi <-]. rewrite (rep_length _ _ _ HR) in Hi.
    apply (append_slice_updates g m (mkSlice (base s) i)); [done|].
    apply rep_prefix; [done|lia].
  - rewrite kinds_remove_notin by by apply find_kind_None. by apply updates_refl.
Qed.

Lemma Add_loop_updates g kinds ks : forall idx m s l,
  mem_ok m -> Rep m s l -> Rep m kinds ks -> apart kinds s ->
  Forall nonnil ks -> Forall (fun i => i < length ks) idx ->
  exists r, Add_loop g m s kinds idx = Done r /\
            updates m s r (kinds_add l (omap (ks !!.) idx)).
Proof.
  induction idx as [|i idx IH]; intros m s l Hm Hs Hks Hap Hnn Hidx; simpl.
  { eexists. split; [done|]. by apply updates_refl. }
  apply Forall_cons in Hidx as [Hi Hidx].
  destruct (lookup_lt_is_Some_2 ks i Hi) as [k Hk].
  rewrite (rep_view _ _ _ Hks), (slice_get_nat _ _ _ Hk), (rep_view _ _ _ Hs), Hk. simpl.
  rewrite Kinds_ContainsOneOf_one by by eapply Forall_lookup_1. simpl.
  destruct (decide (k ∈ l)) as [Hin|Hin]; [rewrite bool_decide_eq_true_2 by done; by apply IH|].
  rewrite bool_decide_eq_false_2 by done.
  pose proof (append_slice_updates g m s l [k] Hm Hs) as Hup.
  destruct (append_slice g m s [k]) as [m1 s1]. pose proof Hup as (Hm1 & Hs1 & Hf).
  destruct (Hf kinds ks Hap Hks) as [Hks1 Hap1].
  destruct (IH m1 s1 (l ++ [k])) as (r & Hr & Hur); [done..|].
  exists r. split; [done|]. by eapply updates_trans.
Qed.

Lemma omap_lookup_seq {A} (l : list A) : omap (l !!.) (seq 0 (length l)) = l.
Proof.
  induction l as [|x l IH] using rev_ind; [done|].
  rewrite length_app, Nat.add_comm. cbn [length Nat.add]. rewrite seq_snoc, omap_app. simpl.
  rewrite list_lookup_middle by done. f_equal. rewrite <- IH at 2.
  apply list_omap_ext, Forall_Forall2_diag, Forall_forall.
  intros i Hi%elem_of_seq. rewrite lookup_app_l by lia. done.
Qed.

Lemma Add_updates g m s l kinds ks :
  mem_ok m -> Rep m s l -> Rep m kinds ks -> apart kinds s -> Forall nonnil ks ->
  exists r, Kinds_Add g m s kinds = Done r /\ updates m s r (kinds_add l ks).
Proof.
  intros Hm Hs Hks Hap Hnn. unfold Kinds_Add. rewrite <- (rep_length _ _ _ Hks).
  destruct (Add_loop_updates g kinds ks (seq 0 (length ks)) m s l) as (r & Hr & Hu); try done.
  { apply Forall_forall. intros i Hi%elem_of_seq. lia. }
  exists r. by rewrite omap_lookup_seq in Hu.
Qed.

Lemma Add1_updates g m s l k :
  mem_ok m -> Rep m s l -> nonnil k ->
  exists r, Kinds_Add1 g m s k = Done r /\ updates m s r (kinds_add l [k]).
Proof.
  intros Hm Hs Hk. unfold Kinds_Add1.
  destruct (literal_rep m [k] Hm) as (Hm1 & Hlit & Hfr).
  destruct (literal m [k]) as [m1 kinds]. destruct (Hfr s l Hs) as [Hs1 Hap].
  destruct (Add_updates g m1 s l kinds [k]) as (r & Hr & Hm' & HR & Hf); auto.
  exists r. split; [done|]. split_and!; [done..|].
  intros t lt Ht HRt. apply Hf; [done|]. by apply Hfr.
Qed.

(** The receiver's own header still covers the array [Remove] shifted. *)
Lemma Remove_receiver g m s l k :
  Rep m s l -> k ∈ l ->
  view (Kinds_Remove g m s k).1 s = kinds_remove k l ++ drop (length l - 1) l.
Proof.
  intros HR Hk. pose proof (rep_length _ _ _ HR) as Hlen. unfold Kinds_Remove.
  rewrite (rep_view _ _ _ HR).
  destruct (find_kind k l) as [i|] eqn:E; [|by apply find_kind_None in E].
  apply find_kind_Some in E as [Hi <-].
  pose proof (rep_prefix m s l i HR ltac:(lia)) as Hp.
  assert (Hc : i + length (drop (S i) l) <= cap m (mkSlice (base s) i)).
  { rewrite length_drop. destruct HR. unfold cap in *. cbn [base]. lia. }
  unfold append_slice. cbn [len]. rewrite decide_True by done. cbn [fst].
  pose proof (overwrite_array _ _ _ _ Hp Hc) as Ha. cbn [base len] in Ha.
  unfold view at 1. rewrite Ha.
  rewrite app_assoc, take_app, take_ge
    by (rewrite length_app, length_take, length_drop; lia).
  f_equal. rewrite length_app, length_take, !length_drop, <- Hlen.
  rewrite Nat.min_l by lia. replace (length l - (i + (length l - S i))) with 1 by lia.
  replace (i + (length l - S i)) with (length l - 1) by lia.
  replace (drop (length l - 1) l) with (drop (length l - 1) (take (len s) (array m (base s))))
    by (f_equal; apply HR).
  rewrite skipn_firstn_comm. f_equal. lia.
Qed.

(** [Kinds.Remove] of a present kind returns the receiver's kinds less
    the first occurrence, in the same order, and writes no array but the
    receiver's: a header apart from it shows what it showed.  The receiver
    itself, unless reassigned, shows the shortened list with its last element
    doubled, so [k] may still be counted in it. *)
Theorem Kinds_Remove_in_place g m s l k :
  mem_ok m -> Rep m s l -> k ∈ l ->
  let '(m', s') := Kinds_Remove g m s k in
  Rep m' s' (kinds_remove k l) /\ frame m m' s s' /\
  view m' s = kinds_remove k l ++ drop (length l - 1) l.
Proof.
  intros Hm HR Hk. pose proof (Remove_receiver g m s l k HR Hk) as Hv.
  destruct (Remove_updates g m s l k Hm HR) as (_ & HR' & Hf).
  by destruct (Kinds_Remove g m s k) as [m' s'].
Qed.

Lemma Kinds_Remove_in_place_witness :
  let m := mkMem {[ 1 := [Some "A"; Some "B"; Some "C"] ]} 2 in
  view (Kinds_Remove (fun _ n => n) m (mkSlice 1 3) (Some "A")).1 (mkSlice 1 3)
  = [Some "B"; Some "C"; Some "C"].
Proof.
  intros m.
  assert (H := Kinds_Remove_in_place (fun _ n => n) m (mkSlice 1 3)
    [Some "A"; Some "B"; Some "C"] (Some "A")).
  destruct (Kinds_Remove _ m (mkSlice 1 3) (Some "A")) as [m' s'].
  destruct H as (_ & _ & H); [| |left|exact H].
  - by apply mem_ok_check.
  - split; [simpl; lia|vm_compute; lia|reflexivity].
Defined.

Lemma Exclude_loop_spec exclusions s : forall kinds,
  Forall nonnil s ->
  Exclude_loop s exclusions kinds = Done (kinds ++ filter (.∉ exclusions) s).
Proof.
  induction s as [|k s IH]; intros kinds Hs; simpl; [by rewrite app_nil_r|].
  apply Forall_cons in Hs as [Hk Hs]. rewrite Kinds_ContainsOneOf_one by done. simpl.
  rewrite IH, filter_cons by done. destruct (decide (k ∈ exclusions)) as [Hin|Hin].
  - by rewrite bool_decide_eq_true_2, decide_False by (done || tauto).
  - by rewrite bool_decide_eq_false_2, decide_True, <- app_assoc by done.
Qed.

(** The copying operations leave every header of the memory alone and give a
    header whose array is its own. *)
Definition fresh_result (m : Mem) (r : Mem * Slice) (l : list Kind) : Prop :=
  mem_ok r.1 /\ Rep r.1 r.2 l /\ forall t lt, Rep m t lt -> Rep r.1 t lt /\ apart t r.2.

Lemma Kinds_Copy_fresh m s l : mem_ok m -> Rep m s l -> fresh_result m (Kinds_Copy m s) l.
Proof.
  intros Hm HR. unfold Kinds_Copy. case_decide as Hb.
  - split_and!; [done| |].
    + destruct HR as [_ Hl <-]. unfold view, cap in *. rewrite Hb, array_nil, take_nil by done.
      by apply rep_nil.
    + intros t lt Ht. split; [done|]. unfold apart. simpl. lia.
  - rewrite (rep_view _ _ _ HR). by apply literal_rep.
Qed.

Lemma Kinds_ConcatenateAll_spec bags : forall m s l ls,
  mem_ok m -> Rep m s l -> Forall2 (Rep m) bags ls ->
  let r := Kinds_ConcatenateAll m s bags in
  mem_ok r.1 /\ Rep r.1 r.2 (l ++ concat ls) /\ forall t lt, Rep m t lt -> Rep r.1 t lt.
Proof.
  induction bags as [|b bags IH]; intros m s l ls Hm HR Hbags.
  { apply Forall2_nil_inv_l in Hbags as ->. simpl. by rewrite app_nil_r. }
  apply Forall2_cons_inv_l in Hbags as (lb & ls' & Hb & Hbags & ->).
  assert (E : Kinds_Concatenate m s b = literal m (l ++ lb))
    by (unfold Kinds_Concatenate; by rewrite (rep_view _ _ _ HR), (rep_view _ _ _ Hb)).
  unfold Kinds_ConcatenateAll. cbn [foldl]. rewrite E.
  destruct (literal_rep m (l ++ lb) Hm) as (Hm1 & HR1 & Hf).
  destruct (literal m (l ++ lb)) as [m1 s1].
  destruct (IH m1 s1 (l ++ lb) ls' Hm1 HR1) as (Hm' & HR' & Hf').
  { eapply Forall2_impl; [done|]. intros t lt Ht. by apply Hf. }
  split_and!; [done| |].
  - rewrite <- app_assoc in HR'. exact HR'.
  - intros t lt Ht. by apply Hf', Hf.
Qed.

(** [Exclude] of kinds without nil entries returns exactly the kinds not
    among the exclusions, in order; [Concatenate] appends; both (and [Copy])
    build a new array and leave every existing header alone. *)
Theorem Kinds_Exclude_Concatenate m s l t lt :
  mem_ok m -> Rep m s l -> Rep m t lt -> Forall nonnil l ->
  (exists r, Kinds_Exclude m s t = Done r /\ fresh_result m r (filter (.∉ lt) l)) /\
  fresh_result m (Kinds_Concatenate m s t) (l ++ lt) /\
  fresh_result m (Kinds_Copy m s) l.
Proof.
  intros Hm HR HT Hnn. split_and!.
  - unfold Kinds_Exclude. rewrite (rep_view _ _ _ HR), (rep_view _ _ _ HT), Exclude_loop_spec by done.
    set (kept := filter (.∉ lt) l). eexists. split; [reflexivity|].
    change ([] ++ kept) with kept. set (arr := kept ++ replicate (len s - length kept) None).
    pose proof (alloc_rep m arr (length kept) ltac:(unfold arr; rewrite length_app; lia)) as HRk.
    unfold arr in HRk at 2. rewrite take_app_length in HRk.
    split_and!; [by apply alloc_ok|done|].
    intros u lu Hu. destruct (alloc_frame m arr u lu Hm Hu). split; [done|by right].
  - unfold Kinds_Concatenate. rewrite (rep_view _ _ _ HR), (rep_view _ _ _ HT). by apply literal_rep.
  - by apply Kinds_Copy_fresh.
Qed.

Lemma Kinds_Exclude_Concatenate_witness :
  let m := mkMem {[ 1 := [Some "A"; Some "B"; Some "C"]; 2 := [Some "B"; None] ]} 3 in
  exists r, Kinds_Exclude m (mkSlice 1 3) (mkSlice 2 1) = Done r /\
            fresh_result m r [Some "A"; Some "C"].
Proof.
  intros m.
  refine (proj1 (Kinds_Exclude_Concatenate m (mkSlice 1 3) [Some "A"; Some "B"; Some "C"]
    (mkSlice 2 1) [Some "B"] _ _ _ _)).
  - by apply mem_ok_check.
  - split; [simpl; lia|vm_compute; lia|reflexivity].
  - split; [simpl; lia|vm_compute; lia|reflexivity].
  - repeat constructor; by eexists.
Defined.

(** ** Hashing *)

(** The bytes of a Go string. *)
Definition bytes_of (s : string) : list Z :=
  (fun c => Z.of_N (Ascii.N_of_ascii c)) <$> String.list_ascii_of_string s.

(** [binary.PutUvarint] into a buffer of [binary.MaxVarintLen64] bytes; the
    index runs out of the buffer after ten. *)
Fixpoint PutUvarint (room : nat) (x : Z) : outcome (list Z) :=
  match room with
  | O => Panic
  | S room' =>
      if decide (128 <= x)%Z then
        rest ← PutUvarint room' (Z.shiftr x 7);
        Done (Z.lor (x mod 256) 128 :: rest)
      else Done [x mod 256]%Z
  end.

Definition MaxVarintLen64 : nat := 10.

Section hashing.

(** The digest: third-party code, known by its [Write]. *)
Context {D E : Type} (Write : D -> list Z -> D * option E).

Fixpoint HashInto_loop (h : D) (ks : list string) : outcome (D * option E) :=
  match ks with
  | [] => Done (h, None)
  | kind :: ks' =>
      lenbuf ← PutUvarint MaxVarintLen64 (wrap64 (Z.of_nat (String.length kind)));
      match Write h lenbuf with
      | (h1, Some err) => Done (h1, Some err)
      | (h1, None) =>
          match Write h1 (bytes_of kind) with
          | (h2, Some err) => Done (h2, Some err)
          | (h2, None) => HashInto_loop h2 ks'
          end
      end
  end.

Definition Kinds_HashInto (h : D) (s : list Kind) : outcome (D * option E) :=
  if decide (length s = 0) then Done (h, None)
  else ks ← Kinds_Strings s; HashInto_loop h (merge_sort String.le ks).

End hashing.

(** The writer that records what it is given. *)
Definition record_Write (stream : list Z) (p : list Z) : list Z * option Empty_set :=
  (stream ++ p, None).

Lemma lor_128 x : Z.lor (x mod 256) 128 = (x mod 128 + 128)%Z.
Proof.
  assert (Hall : Forall (fun b => Z.lor b 128 = b mod 128 + 128)%Z (Z.of_nat <$> seq 0 256)).
  { apply (bool_decide_unpack _). vm_compute. exact I. }
  assert (Hx : (0 <= x mod 256 < 256)%Z) by (apply Z.mod_pos_bound; lia).
  pose proof (proj1 (Forall_forall _ _) Hall (x mod 256)%Z) as H. cbv beta in H.
  rewrite H.
  - f_equal. rewrite <- Znumtheory.Zmod_div_mod; [done|lia..|]. by exists 2%Z.
  - apply list_elem_of_fmap. exists (Z.to_nat (x mod 256)). split; [lia|].
    apply elem_of_seq. lia.
Qed.

(** Enough room for the value: ten bytes hold 64 bits. *)
Lemma PutUvarint_Done room : forall x,
  (0 <= x < 128 ^ Z.of_nat (S room))%Z -> exists l, PutUvarint (S room) x = Done l.
Proof.
  induction room as [|room IH]; intros x Hx; cbn [PutUvarint].
  { rewrite decide_False by (change (128 ^ Z.of_nat 1)%Z with 128%Z in Hx; lia). by eexists. }
  case_decide; [|by eexists]. fold (PutUvarint (S room) (Z.shiftr x 7)).
  destruct (IH (Z.shiftr x 7)) as [l Hl]; [|cbn [PutUvarint] in Hl; rewrite Hl; by eexists].
  rewrite Z.shiftr_div_pow2 by lia. change (2 ^ 7)%Z with 128%Z.
  rewrite (Nat2Z.inj_succ (S room)), Z.pow_succ_r in Hx by lia.
  split; [apply Z.div_pos; lia|apply Z.div_lt_upper_bound; lia].
Qed.

(** The encoding is prefix-free and injective. *)
Lemma PutUvarint_inj room : forall x y lx ly rx ry,
  (0 <= x)%Z -> (0 <= y)%Z ->
  PutUvarint room x = Done lx -> PutUvarint room y = Done ly ->
  lx ++ rx = ly ++ ry -> x = y /\ rx = ry.
Proof.
  induction room as [|room IH]; intros x y lx ly rx ry Hx Hy; cbn [PutUvarint]; [done|].
  assert (Hb : forall z, (0 <= z mod 128 < 128)%Z) by (intros; apply Z.mod_pos_bound; lia).
  pose proof (Hb x); pose proof (Hb y).
  destruct (decide (128 <= x)%Z), (decide (128 <= y)%Z); rewrite ?lor_128.
  - destruct (PutUvarint room (Z.shiftr x 7)) as [l1| |] eqn:E1; [|done..].
    destruct (PutUvarint room (Z.shiftr y 7)) as [l2| |] eqn:E2; [|done..].
    simpl. intros [= <-] [= <-] [= Hm Hr].
    destruct (IH _ _ _ _ _ _ (proj2 (Z.shiftr_nonneg x 7) Hx) (proj2 (Z.shiftr_nonneg y 7) Hy)
      E1 E2 Hr) as [Hs ->].
    rewrite !Z.shiftr_div_pow2 in Hs by lia. change (2 ^ 7)%Z with 128%Z in Hs.
    split; [|done]. rewrite (Z.div_mod x 128), (Z.div_mod y 128) by lia. lia.
  - destruct (PutUvarint room (Z.shiftr x 7)) as [l1| |]; [|done..].
    simpl. intros [= <-] [= <-] [= Hm _]. rewrite (Z.mod_small y) in Hm by lia. lia.
  - destruct (PutUvarint room (Z.shiftr y 7)) as [l1| |]; [|done..].
    simpl. intros [= <-] [= <-] [= Hm _]. rewrite (Z.mod_small x) in Hm by lia. lia.
  - intros [= <-] [= <-] [= Hm ->]. rewrite !Z.mod_small in Hm by lia. done.
Qed.

(** What the recording writer holds after [HashInto]: the framed strings. *)
Definition framed (kind : string) : list Z :=
  match PutUvarint MaxVarintLen64 (wrap64 (Z.of_nat (String.length kind))) with
  | Done lenbuf => lenbuf ++ bytes_of kind
  | _ => []
  end.

(** A Go string's length is an [int]. *)
Definition go_length (s : string) : Prop := (Z.of_nat (String.length s) < 2 ^ 63)%Z.

Lemma length_bytes_of s : length (bytes_of s) = String.length s.
Proof. unfold bytes_of. rewrite length_fmap. induction s; simpl; congruence. Qed.

Lemma bytes_of_inj s t : bytes_of s = bytes_of t -> s = t.
Proof.
  intros H. apply list_fmap_eq_inj in H.
  - rewrite <- (String.string_of_list_ascii_of_string s),
      <- (String.string_of_list_ascii_of_string t). by rewrite H.
  - intros c d Hcd. apply N2Z.inj in Hcd.
    rewrite <- (Ascii.ascii_N_embedding c), <- (Ascii.ascii_N_embedding d). by rewrite Hcd.
Qed.

Lemma PutUvarint_go_length s :
  go_length s -> exists lenbuf,
    PutUvarint MaxVarintLen64 (wrap64 (Z.of_nat (String.length s))) = Done lenbuf.
Proof.
  intros Hs. apply PutUvarint_Done. unfold go_length in Hs.
  rewrite wrap64_small by (change two64 with (2 ^ 64)%Z; lia).
  split; [lia|]. etrans; [exact Hs|]. done.
Qed.

Lemma framed_inj s t r1 r2 :
  go_length s -> go_length t -> framed s ++ r1 = framed t ++ r2 -> s = t /\ r1 = r2.
Proof.
  intros Hs Ht. unfold framed.
  destruct (PutUvarint_go_length s Hs) as [ls Els]. destruct (PutUvarint_go_length t Ht) as [lt Elt].
  rewrite Els, Elt, <- !app_assoc. intros Heq. unfold go_length in *.
  rewrite wrap64_small in Els, Elt by (change two64 with (2 ^ 64)%Z; lia).
  destruct (PutUvarint_inj _ _ _ _ _ _ _ (Nat2Z.is_nonneg _) (Nat2Z.is_nonneg _) Els Elt Heq) as [Hl Hr].
  apply app_inj_1 in Hr as [Hb ->]; [|rewrite !length_bytes_of; lia].
  split; [by apply bytes_of_inj|done].
Qed.

Lemma PutUvarint_nonempty room x l : PutUvarint room x = Done l -> l <> [].
Proof.
  destruct room; [done|]. cbn [PutUvarint]. case_decide; [|by intros [= <-]].
  destruct (PutUvarint room (Z.shiftr x 7)); [|done..]. by intros [= <-].
Qed.

Lemma framed_nonempty s : go_length s -> framed s <> [].
Proof.
  intros Hs. unfold framed. destruct (PutUvarint_go_length s Hs) as [l El]. rewrite El.
  apply PutUvarint_nonempty in El. by destruct l.
Qed.

(** The framed stream determines the list of strings. *)
Lemma concat_framed_inj ks : forall ks',
  Forall go_length ks -> Forall go_length ks' ->
  concat (framed <$> ks) = concat (framed <$> ks') -> ks = ks'.
Proof.
  induction ks as [|k ks IH]; intros [|k' ks'] H H' Heq; [done|..]; simpl in Heq.
  - apply Forall_cons in H' as [H' _]. by destruct (framed_nonempty k' H'); destruct (framed k').
  - apply Forall_cons in H as [H _]. by destruct (framed_nonempty k H); destruct (framed k).
  - apply Forall_cons in H as [Hk H], H' as [Hk' H'].
    destruct (framed_inj _ _ _ _ Hk Hk' Heq) as [-> Hr]. f_equal. by apply IH.
Qed.

Lemma HashInto_loop_record ks : forall h,
  Forall go_length ks ->
  HashInto_loop record_Write h ks = Done (h ++ concat (framed <$> ks), None).
Proof.
  induction ks as [|k ks IH]; intros h Hks; [cbn; by rewrite app_nil_r|].
  apply Forall_cons in Hks as [Hk Hks]. destruct (PutUvarint_go_length k Hk) as [l El].
  assert (Ef : framed k = l ++ bytes_of k) by (unfold framed; by rewrite El).
  rewrite fmap_cons. cbn [HashInto_loop List.concat]. rewrite El, Ef.
  cbn [mbind outcome_bind record_Write]. rewrite IH by done. by rewrite <- !app_assoc.
Qed.

Lemma Kinds_Strings_Some strs : Kinds_Strings (Some <$> strs) = Done strs.
Proof.
  induction strs as [|s strs IH]; [done|]. rewrite fmap_cons. cbn [Kinds_Strings]. by rewrite IH.
Qed.

Lemma Kinds_HashInto_record h strs :
  Forall go_length strs ->
  Kinds_HashInto record_Write h (Some <$> strs)
  = Done (h ++ concat (framed <$> merge_sort String.le strs), None).
Proof.
  intros Hs. unfold Kinds_HashInto. case_decide as Hl.
  - rewrite length_fmap in Hl. apply nil_length_inv in Hl as ->. simpl. by rewrite app_nil_r.
  - rewrite Kinds_Strings_Some. simpl. apply HashInto_loop_record. by rewrite merge_sort_Permutation.
Qed.

Lemma merge_sort_unique strs1 strs2 :
  strs1 ≡ₚ strs2 -> merge_sort String.le strs1 = merge_sort String.le strs2.
Proof.
  intros Hp. apply (StronglySorted_unique String.le); [apply StronglySorted_merge_sort; apply _..|].
  by rewrite !merge_sort_Permutation.
Qed.

(** [Kinds.HashInto] feeds the digest a stream that depends on the
    multiset of kind names and on nothing else: two [Kinds] have the same
    names in some order exactly when every writer, from every state, ends in
    the same state with the same error after hashing either. *)
Theorem Kinds_HashInto_exact (strs1 strs2 : list string) :
  Forall go_length strs1 -> Forall go_length strs2 ->
  strs1 ≡ₚ strs2 <->
  forall (D E : Type) (Write : D -> list Z -> D * option E) h,
    Kinds_HashInto Write h (Some <$> strs1) = Kinds_HashInto Write h (Some <$> strs2).
Proof.
  intros H1 H2. split.
  - intros Hp D E Write h. unfold Kinds_HashInto. rewrite !length_fmap, !Kinds_Strings_Some, (Permutation_length Hp).
    simpl. by rewrite (merge_sort_unique _ _ Hp).
  - intros Hall. specialize (Hall _ _ record_Write []).
    rewrite !Kinds_HashInto_record in Hall by done. injection Hall as Heq.
    apply concat_framed_inj in Heq; [|by rewrite merge_sort_Permutation..].
    by rewrite <- (merge_sort_Permutation String.le strs1), Heq, merge_sort_Permutation.
Qed.

Lemma Kinds_HashInto_exact_witness :
  Kinds_HashInto record_Write [] (Some <$> ["ab"; "c"])
  = Done ([2; 97; 98; 1; 99]%Z, None) /\
  ~ forall (D E : Type) (Write : D -> list Z -> D * option E) h,
    Kinds_HashInto Write h (Some <$> ["ab"; "c"]) = Kinds_HashInto Write h (Some <$> ["a"; "bc"]).
Proof.
  split; [reflexivity|]. intros H.
  apply Kinds_HashInto_exact in H;
    [apply Permutation_length_2_inv in H; destruct H; discriminate| |];
    repeat (constructor; [reflexivity|]); constructor.
Defined.
