(* ===== verification/Mapper.v ===== *)
(** * Dynamic values and the value mapper (graph/mapper.go)

    [any] is the closed set of dynamic types the mapper distinguishes.
    Integers carry their Go type and are kept in its range by [wrap]; floats
    are IEEE numbers in the Standard Library's [spec_float].  Parsing of
    float and time literals is a parameter. *)

From S2P Require Import Prelude Kinds.
From Stdlib Require Import SpecFloat.

(** ** Types *)

(** The type [numeric] of the source: integer kinds, [ID], and floats. *)
Inductive intty := tuint | tuint8 | tuint16 | tuint32 | tuint64
                 | tint | tint8 | tint16 | tint32 | tint64 | tID.
Inductive fltty := tfloat32 | tfloat64.
Inductive numeric := NInt (t : intty) | NFlt (t : fltty).

#[export] Instance intty_eq_dec : EqDecision intty.
Proof. solve_decision. Defined.
#[export] Instance fltty_eq_dec : EqDecision fltty.
Proof. solve_decision. Defined.
#[export] Instance numeric_eq_dec : EqDecision numeric.
Proof. solve_decision. Defined.

Definition width (t : intty) : Z :=
  match t with
  | tuint8 | tint8 => 8 | tuint16 | tint16 => 16 | tuint32 | tint32 => 32
  | _ => 64
  end.

Definition signed (t : intty) : bool :=
  match t with tint | tint8 | tint16 | tint32 | tint64 => true | _ => false end.

Definition in_range (t : intty) (z : Z) : Prop :=
  if signed t then (- 2 ^ (width t - 1) <= z < 2 ^ (width t - 1))%Z
  else (0 <= z < 2 ^ width t)%Z.

#[export] Instance in_range_dec t z : Decision (in_range t z).
Proof. unfold in_range. destruct (signed t); apply _. Defined.

(** Integer conversion [T(z)]: the low bits, read with [T]'s sign. *)
Definition wrap (t : intty) (z : Z) : Z :=
  if signed t then (z + 2 ^ (width t - 1)) mod 2 ^ width t - 2 ^ (width t - 1)
  else z mod 2 ^ width t.

(** A [time.Time] as seconds and nanoseconds of its instant. *)
Definition time : Type := Z * Z.
Definition time_Unix (sec nsec : Z) : time := (sec, nsec).

Inductive any : Type :=
| Nil
| Bool (b : bool)
| Str (s : string)
| Int (t : intty) (z : Z)
| Flt (t : fltty) (f : spec_float)
| Time (t : time)
| SliceAny (l : list any)
| SliceStr (l : list string)
| SliceInt (t : intty) (l : list Z)
| SliceFlt (t : fltty) (l : list spec_float)
| Other (tag : nat).

(** ** Conversions of the language *)

Definition prec (t : fltty) : Z := match t with tfloat32 => 24 | tfloat64 => 53 end.
Definition emax (t : fltty) : Z := match t with tfloat32 => 128 | tfloat64 => 1024 end.

Definition int_to_flt (t : fltty) (z : Z) : spec_float :=
  binary_normalize (prec t) (emax t) z 0 false.

Definition flt_to_flt (t : fltty) (f : spec_float) : spec_float :=
  match f with
  | S754_finite s m e => binary_normalize (prec t) (emax t) (cond_Zopp s (Zpos m)) e s
  | _ => f
  end.

(** Truncation toward zero; [None] for infinities and NaN. *)
Definition trunc (f : spec_float) : option Z :=
  match f with
  | S754_zero _ => Some 0%Z
  | S754_finite s m e => Some (cond_Zopp s (Z.shiftl (Zpos m) e))
  | _ => None
  end.

Section mapper.

(** The result of converting a float an integer type cannot hold, which the
    language leaves to the implementation. *)
Variable flt_overflow : intty -> spec_float -> Z.
(** [strconv.ParseFloat(s, 64)] and [time.Parse(time.RFC3339Nano, s)]. *)
Variable ParseFloat : string -> option spec_float.
Variable ParseTime : string -> option time.

Definition flt_to_int (t : intty) (f : spec_float) : Z :=
  match trunc f with
  | Some z => if decide (in_range t z) then z else wrap t (flt_overflow t f)
  | None => wrap t (flt_overflow t f)
  end.

Definition conv_int (T : numeric) (z : Z) : any :=
  match T with NInt t => Int t (wrap t z) | NFlt t => Flt t (int_to_flt t z) end.

Definition conv_flt (T : numeric) (f : spec_float) : any :=
  match T with NInt t => Int t (flt_to_int t f) | NFlt t => Flt t (flt_to_flt t f) end.

(** [strconv.ParseInt(s, 10, 64)]: an optional sign, digits only, in range. *)
Definition digit (c : Ascii.ascii) : option Z :=
  let n := Z.of_N (Ascii.N_of_ascii c) in
  if decide (48 <= n <= 57)%Z then Some (n - 48)%Z else None.

Fixpoint digits (acc : Z) (s : string) : option Z :=
  match s with
  | EmptyString => Some acc
  | String.String c s' => d ← digit c; digits (acc * 10 + d) s'
  end.

Definition unsigned_digits (s : string) : option Z :=
  match s with EmptyString => None | _ => digits 0 s end.

Definition ParseInt (s : string) : option Z :=
  z ← match s with
      | EmptyString => None
      | String.String c s' =>
          if decide (c = Ascii.ascii_of_nat 43) then unsigned_digits s'
          else if decide (c = Ascii.ascii_of_nat 45) then Z.opp <$> unsigned_digits s'
          else unsigned_digits s
      end;
  if decide (in_range tint64 z) then Some z else None.

(** ** Numbers *)

(** [AsNumeric[T](rawValue)]; [None] is the error.  The switch has no case
    for the dynamic type [ID]. *)
Definition AsNumeric (T : numeric) (rawValue : any) : option any :=
  match rawValue with
  | Int tID _ => None
  | Int _ z => Some (conv_int T z)
  | Flt _ f => Some (conv_flt T f)
  | Str s =>
      match ParseInt s with
      | None => match ParseFloat s with
                | None => None
                | Some f => Some (conv_flt T f)
                end
      | Some z => Some (conv_int T z)
      end
  | _ => None
  end.

Fixpoint castNumericSlice (R : numeric) (src : list any) : option (list any) :=
  match src with
  | [] => Some []
  | v :: src' =>
      match AsNumeric R v with
      | None => None
      | Some n => dst ← castNumericSlice R src'; Some (n :: dst)
      end
  end.

Definition AsNumericSlice (T : numeric) (rawValue : any) : option (list any) :=
  match rawValue with
  | SliceAny l => castNumericSlice T l
  | SliceInt tID _ => None
  | SliceInt t l => castNumericSlice T (Int t <$> l)
  | SliceFlt t l => castNumericSlice T (Flt t <$> l)
  | _ => None
  end.

(** ** Strings, kinds and times *)

Fixpoint strings_of (l : list any) : option (list string) :=
  match l with
  | [] => Some []
  | Str s :: l' => strs ← strings_of l'; Some (s :: strs)
  | _ :: _ => None
  end.

(** [SliceOf[string](raw)]. *)
Definition SliceOf_string (raw : any) : option (list string) :=
  match raw with SliceAny l => strings_of l | _ => None end.

Definition AsKinds (rawValue : any) : option (list Kind) :=
  match SliceOf_string rawValue with Some strs => Some (Some <$> strs) | None => None end.

Definition AsTime (value : any) : option time :=
  match value with
  | Str s => ParseTime s
  | Flt tfloat64 f => Some (time_Unix (flt_to_int tint64 f) 0)
  | Int tint64 z => Some (time_Unix z 0)
  | Time t => Some t
  | _ => None
  end.

(** ** Targets *)

(** The pointer types of [defaultMapValue]'s switch; [POther] is any other. *)
Inductive target :=
| PNum (T : numeric) | PNumSlice (T : numeric) | PBool | PKind | PString
| PKindSlice | PKinds | PStringSlice | PTime | POther (tag : nat).

(** What a successful mapping stores through the pointer. *)
Inductive stored :=
| SNum (v : any) | SNumSlice (l : list any) | SBool (b : bool) | SKind (k : Kind)
| SString (s : string) | SKinds (ks : list Kind) | SStringSlice (l : list string)
| STime (t : time).

Definition defaultMapValue (rawValue : any) (tgt : target) : option stored :=
  match tgt with
  | PNum T => SNum <$> AsNumeric T rawValue
  | PNumSlice T => SNumSlice <$> AsNumericSlice T rawValue
  | PBool => match rawValue with Bool b => Some (SBool b) | _ => None end
  | PKind => match rawValue with Str s => Some (SKind (Some s)) | _ => None end
  | PString => match rawValue with Str s => Some (SString s) | _ => None end
  | PKindSlice => SKinds <$> AsKinds rawValue
  | PKinds => SKinds <$> AsKinds rawValue
  | PStringSlice => SStringSlice <$> SliceOf_string rawValue
  | PTime => STime <$> AsTime rawValue
  | POther _ => None
  end.

(** A [MapFunc] that succeeds stores through its target; one that fails is
    taken to store nothing, as [defaultMapValue] does. *)
Definition MapFunc : Type := any -> target -> option stored.

Definition NewValueMapper (mappers : list MapFunc) : list MapFunc :=
  mappers ++ [defaultMapValue].

Fixpoint ValueMapper_Map (mapperFuncs : list MapFunc) (value : any) (tgt : target) : option stored :=
  match mapperFuncs with
  | [] => None
  | mapperFunc :: rest =>
      match mapperFunc value tgt with
      | Some v => Some v
      | None => ValueMapper_Map rest value tgt
      end
  end.

(** The loop stops at the first target that cannot be mapped; the stores
    already made stay, so the result lists them with the final Boolean. *)
Fixpoint MapAll_loop (fs : list MapFunc) (values : list any) (targets : list target)
    : list stored * bool :=
  match values, targets with
  | v :: values', t :: targets' =>
      match ValueMapper_Map fs v t with
      | None => ([], false)
      | Some s => let '(ss, ok) := MapAll_loop fs values' targets' in (s :: ss, ok)
      end
  | _, _ => ([], true)
  end.

Definition ValueMapper_MapAll (fs : list MapFunc) (values : list any) (targets : list target)
    : list stored * bool :=
  if decide (length values = length targets) then MapAll_loop fs values targets
  else ([], false).

End mapper.

(** ** Machine conversions *)

Lemma width_pos t : (0 < width t)%Z.
Proof. by destruct t. Qed.

Lemma pow_width t : (2 ^ width t = 2 * 2 ^ (width t - 1))%Z.
Proof. rewrite <- Z.pow_succ_r by (pose proof (width_pos t); lia). f_equal. lia. Qed.

Lemma pow_half_pos t : (0 < 2 ^ (width t - 1))%Z.
Proof. apply Z.pow_pos_nonneg; [lia|]. pose proof (width_pos t). lia. Qed.

Lemma wrap_in_range t z : in_range t (wrap t z).
Proof.
  unfold in_range, wrap. pose proof (pow_half_pos t). pose proof (pow_width t).
  destruct (signed t).
  - pose proof (Z.mod_pos_bound (z + 2 ^ (width t - 1)) (2 ^ width t)). lia.
  - apply Z.mod_pos_bound. lia.
Qed.

Lemma wrap_id t z : in_range t z -> wrap t z = z.
Proof.
  unfold in_range, wrap. pose proof (pow_half_pos t). pose proof (pow_width t).
  destruct (signed t); intros; rewrite Z.mod_small; lia.
Qed.

Lemma wrap_mod t z : (wrap t z mod 2 ^ width t = z mod 2 ^ width t)%Z.
Proof.
  unfold wrap. pose proof (pow_half_pos t). pose proof (pow_width t).
  destruct (signed t).
  - rewrite Zminus_mod_idemp_l. f_equal. lia.
  - apply Z.mod_mod. lia.
Qed.

(** [wrap t] depends only on the low bits of its argument. *)
Lemma wrap_cong t x y :
  (x mod 2 ^ width t = y mod 2 ^ width t)%Z -> wrap t x = wrap t y.
Proof.
  intros H. unfold wrap. destruct (signed t); [|done]. f_equal.
  rewrite <- Zplus_mod_idemp_l, H, Zplus_mod_idemp_l. done.
Qed.

(** Going through a type at least as wide loses nothing. *)
Lemma wrap_wrap t u z : (width t <= width u)%Z -> wrap t (wrap u z) = wrap t z.
Proof.
  intros Hw. apply wrap_cong. pose proof (wrap_mod u z) as H. pose proof (width_pos t).
  assert (Hd : (2 ^ width t | 2 ^ width u)%Z).
  { exists (2 ^ (width u - width t))%Z. rewrite <- Z.pow_add_r by lia. f_equal. lia. }
  rewrite (Znumtheory.Zmod_div_mod (2 ^ width t) (2 ^ width u) (wrap u z)), H,
    <- Znumtheory.Zmod_div_mod; [done|..]; try done; apply Z.pow_pos_nonneg; lia.
Qed.

Lemma width_max t : (width t <= 64)%Z.
Proof. by destruct t. Qed.

Lemma flt_to_int_in_range ovf t f : in_range t (flt_to_int ovf t f).
Proof.
  unfold flt_to_int. destruct (trunc f); [case_decide; [done|]|]; apply wrap_in_range.
Qed.

(** ** Numbers *)

Definition int_any (v : any) : Prop := match v with Int t _ => t <> tID | _ => False end.

(** The value has the dynamic type [T] and, for integers, its range. *)
Definition has_numeric (T : numeric) (v : any) : Prop :=
  match T, v with
  | NInt t, Int t' z => t' = t /\ in_range t z
  | NFlt t, Flt t' _ => t' = t
  | _, _ => False
  end.

Lemma conv_int_has T z : has_numeric T (conv_int T z).
Proof. destruct T; simpl; auto using wrap_in_range. Qed.

Lemma conv_flt_has ovf T f : has_numeric T (conv_flt ovf T f).
Proof. destruct T; simpl; auto using flt_to_int_in_range. Qed.

Lemma AsNumeric_has ovf pf T raw v : AsNumeric ovf pf T raw = Some v -> has_numeric T v.
Proof.
  unfold AsNumeric. intros H. repeat case_match; simplify_eq; auto using conv_int_has, conv_flt_has.
Qed.

(** Integer negotiation.  For a raw integer of any of the ten built-in
    integer types, [AsNumeric] into an integer type never fails and returns
    the integer of the target's range with the same low bits; it is the
    original number exactly when that number is in the target's range, so
    narrowing silently changes the others; and going through [int64] (as the
    database drivers do) and back returns the original. *)
Theorem AsNumeric_integers ovf pf (t u : intty) (z : Z) :
  t <> tID -> in_range t z ->
  exists z', AsNumeric ovf pf (NInt u) (Int t z) = Some (Int u z') /\
    in_range u z' /\ (z' mod 2 ^ width u = z mod 2 ^ width u)%Z /\ (z' = z <-> in_range u z) /\
    exists w, AsNumeric ovf pf (NInt tint64) (Int t z) = Some (Int tint64 w) /\
              AsNumeric ovf pf (NInt t) (Int tint64 w) = Some (Int t z).
Proof.
  intros Ht Hz. exists (wrap u z).
  split_and!; [by destruct t|apply wrap_in_range|apply wrap_mod| |].
  - split; [intros <-; apply wrap_in_range|apply wrap_id].
  - exists (wrap tint64 z). split; [by destruct t|]. simpl.
    rewrite wrap_wrap by apply width_max. by rewrite wrap_id.
Qed.

Lemma AsNumeric_integers_witness :
  exists z', AsNumeric (fun _ _ => 0%Z) (fun _ => None) (NInt tuint8) (Int tint64 300) = Some (Int tuint8 z').
Proof.
  destruct (AsNumeric_integers (fun _ _ => 0%Z) (fun _ => None) tint64 tuint8 300) as (z' & H & _);
    [done|vm_compute; split; congruence|by exists z'].
Defined.

Lemma castNumericSlice_spec ovf pf T src :
  castNumericSlice ovf pf T src = mapM (AsNumeric ovf pf T) src.
Proof.
  induction src as [|v src IH]; [done|]. simpl. rewrite IH. by destruct (AsNumeric ovf pf T v).
Qed.

(** ** What the mapper stores *)

(** [s] has the type the target points to. *)
Definition has_target (tgt : target) (s : stored) : Prop :=
  match tgt, s with
  | PNum T, SNum v => has_numeric T v
  | PNumSlice T, SNumSlice l => Forall (has_numeric T) l
  | PBool, SBool _ | PString, SString _ | PStringSlice, SStringSlice _ | PTime, STime _ => True
  | PKind, SKind k => nonnil k
  | PKindSlice, SKinds ks | PKinds, SKinds ks => Forall nonnil ks
  | _, _ => False
  end.

Definition typed_mapper (f : MapFunc) : Prop :=
  forall v tgt s, f v tgt = Some s -> has_target tgt s.

Lemma castNumericSlice_has ovf pf T src l :
  castNumericSlice ovf pf T src = Some l -> Forall (has_numeric T) l.
Proof.
  rewrite castNumericSlice_spec. intros H%mapM_Some.
  induction H; constructor; eauto using AsNumeric_has.
Qed.

Lemma AsNumericSlice_has ovf pf T raw l :
  AsNumericSlice ovf pf T raw = Some l -> Forall (has_numeric T) l.
Proof.
  unfold AsNumericSlice. intros H. repeat case_match; simplify_eq; eauto using castNumericSlice_has.
Qed.

Lemma AsKinds_nonnil raw ks : AsKinds raw = Some ks -> Forall nonnil ks.
Proof.
  unfold AsKinds. destruct (SliceOf_string raw); [|done]. intros [= <-].
  apply Forall_fmap, Forall_true. intros; by eexists.
Qed.

Lemma defaultMapValue_typed ovf pf pt : typed_mapper (defaultMapValue ovf pf pt).
Proof.
  intros v tgt s. destruct tgt; simpl; intros H; try done;
    try (apply fmap_Some in H as (x & Hx & ->); simpl;
         eauto using AsNumeric_has, AsNumericSlice_has, AsKinds_nonnil; done);
    destruct v; simplify_eq; simpl; by try eexists.
Qed.

Lemma ValueMapper_Map_typed fs : Forall typed_mapper fs -> typed_mapper (ValueMapper_Map fs).
Proof.
  induction 1 as [|f fs Hf _ IH]; intros v tgt s; simpl; [done|].
  destruct (f v tgt) eqn:E; [intros [= <-]; eauto|apply IH].
Qed.

Lemma MapAll_loop_spec fs values : forall targets,
  Forall typed_mapper fs -> length values = length targets ->
  let '(ss, ok) := MapAll_loop fs values targets in
  Forall2 has_target (take (length ss) targets) ss /\
  (ok = true <-> Forall2 (fun v tgt => is_Some (ValueMapper_Map fs v tgt)) values targets) /\
  (ok = true -> length ss = length targets).
Proof.
  induction values as [|v values IH]; intros [|tgt targets] Hfs Hlen; simplify_eq/=; [by auto|].
  destruct (ValueMapper_Map fs v tgt) as [s|] eqn:E; simpl.
  - specialize (IH targets Hfs Hlen).
    destruct (MapAll_loop fs values targets) as [ss ok]. destruct IH as (IH1 & IH2 & IH3). simpl.
    split_and!.
    + constructor; [|done]. by eapply ValueMapper_Map_typed.
    + rewrite IH2, Forall2_cons, E. intuition eauto.
    + intros Hok. f_equal. auto.
  - split_and!; [constructor| |done]. rewrite Forall2_cons, E. split; [done|].
    by intros [[? [=]] _].
Qed.

(** [C38] Mapping a row.  With mappers that respect their targets' types ahead
    of [defaultMapValue], [MapAll] returns true exactly when there are as many
    values as targets and each value can be mapped to its target; then it
    filled every target.  Whatever it returns, what it stored has the type of
    its target: integers in range, kinds never nil. *)
Theorem ValueMapper_MapAll_exact ovf pf pt (ms : list MapFunc) values targets :
  Forall typed_mapper ms ->
  let fs := NewValueMapper ovf pf pt ms in
  let '(ss, ok) := ValueMapper_MapAll fs values targets in
  Forall2 has_target (take (length ss) targets) ss /\
  (ok = true <-> Forall2 (fun v tgt => is_Some (ValueMapper_Map fs v tgt)) values targets) /\
  (ok = true -> length ss = length targets).
Proof.
  intros Hms fs. unfold ValueMapper_MapAll. case_decide as Hlen.
  - apply MapAll_loop_spec; [|done]. apply Forall_app. split; [done|].
    constructor; [apply defaultMapValue_typed|done].
  - split_and!; [constructor| |done]. split; [done|]. intros H%Forall2_length. done.
Qed.

Lemma ValueMapper_MapAll_exact_witness :
  let fs := NewValueMapper (fun _ _ => 0%Z) (fun _ => None) (fun _ => None) [] in
  ValueMapper_MapAll fs [Str "42"; Str "User"; SliceAny [Int tint64 7; Str "-8"]]
    [PNum (NInt tint64); PKind; PNumSlice (NInt tID)]
  = ([SNum (Int tint64 42); SKind (Some "User"); SNumSlice [Int tID 7; Int tID (2 ^ 64 - 8)]], true) /\
  Forall2 has_target [PNum (NInt tint64); PKind; PNumSlice (NInt tID)]
    [SNum (Int tint64 42); SKind (Some "User"); SNumSlice [Int tID 7; Int tID (2 ^ 64 - 8)]].
Proof.
  split; [reflexivity|].
  exact (proj1 (ValueMapper_MapAll_exact (fun _ _ => 0%Z) (fun _ => None) (fun _ => None) []
    [Str "42"; Str "User"; SliceAny [Int tint64 7; Str "-8"]]
    [PNum (NInt tint64); PKind; PNumSlice (NInt tID)] (Forall_nil_2 _))).
Defined.

(** A raw value of the package's own type [ID] is not accepted by any
    numeric target, not even by a [*ID] or, for a slice, by a [*[]ID]. *)
Theorem AsNumeric_rejects_ID ovf pf pt (T : numeric) (z : Z) (l : list Z) :
  defaultMapValue ovf pf pt (Int tID z) (PNum T) = None /\
  defaultMapValue ovf pf pt (SliceInt tID l) (PNumSlice T) = None.
Proof. done. Qed.
