(* ===== verification/Properties.v ===== *)
(** * Properties (graph/properties.go)

    A property bag with change tracking: [Map] holds the values, [Modified]
    and [Deleted] the keys set and deleted since it was read.  Each of the
    three Go maps may be nil, so each is an [option].  [apply] says what the
    tracked changes mean for a stored record; [Merge] is shown to compose
    changes with respect to it. *)

From S2P Require Import Prelude Kinds Mapper.
From Stdlib Require Import SpecFloat.

(** ** Negotiated values *)

(** The errors of this file, without their texts. *)
Inductive perr :=
| ErrPropertyNotFound (key : string)
| ErrType (expected : string)
| ErrNumeric
| ErrTime.

Definition result (A : Type) : Type := A + perr.

Definition perr_bind {A B} (r : result A) (f : A -> result B) : result B :=
  match r with inl a => f a | inr e => inr e end.

Record safePropertyValue := mkPropertyValue {
  key : string;
  value : any;
  defaultValue : any
}.

Definition safePropertyValue_IsNil (s : safePropertyValue) : bool :=
  match value s with Nil => true | _ => false end.

Definition safePropertyValue_Any (s : safePropertyValue) : any := value s.

Definition safePropertyValue_getValue (s : safePropertyValue) : result any :=
  if safePropertyValue_IsNil s then
    match defaultValue s with
    | Nil => inr (ErrPropertyNotFound (key s))
    | v => inl v
    end
  else inl (value s).

Fixpoint stringSlice_loop (l : list any) : result (list string) :=
  match l with
  | [] => inl []
  | Str s :: l' => perr_bind (stringSlice_loop l') (fun strs => inl (s :: strs))
  | _ :: _ => inr (ErrType "string")
  end.

Definition interfaceSliceToStringSlice (value : any) : result (list string) :=
  match value with SliceAny l => stringSlice_loop l | _ => inr (ErrType "[]any") end.

Section negotiate.

Variable flt_overflow : intty -> spec_float -> Z.
Variable ParseFloat : string -> option spec_float.
Variable ParseTime : string -> option time.
(** [dbtype.Time] and its siblings: driver values with a [Time()] method, as
    the [Other] values it is defined on. *)
Variable dbtype_Time : nat -> option time.

Fixpoint int64Slice_loop (l : list any) : result (list Z) :=
  match l with
  | [] => inl []
  | Int tint64 z :: l' => perr_bind (int64Slice_loop l') (fun zs => inl (z :: zs))
  | Flt tfloat64 f :: l' =>
      perr_bind (int64Slice_loop l') (fun zs => inl (flt_to_int flt_overflow tint64 f :: zs))
  | _ :: _ => inr (ErrType "int64")
  end.

Definition interfaceSliceToInt64Slice (value : any) : result (list Z) :=
  match value with SliceAny l => int64Slice_loop l | _ => inr (ErrType "[]any") end.

(** [ID(int64)] reinterprets the bits. *)
Definition int64SliceToIDSlice (int64Slice : list Z) : list Z := wrap tID <$> int64Slice.

Definition safePropertyValue_Int64Slice (s : safePropertyValue) : result (list Z) :=
  perr_bind (safePropertyValue_getValue s) interfaceSliceToInt64Slice.

Definition safePropertyValue_IDSlice (s : safePropertyValue) : result (list Z) :=
  perr_bind (safePropertyValue_Int64Slice s) (fun l => inl (int64SliceToIDSlice l)).

Definition safePropertyValue_StringSlice (s : safePropertyValue) : result (list string) :=
  perr_bind (safePropertyValue_getValue s) interfaceSliceToStringSlice.

Definition safePropertyValue_Bool (s : safePropertyValue) : result bool :=
  perr_bind (safePropertyValue_getValue s)
    (fun v => match v with Bool b => inl b | _ => inr (ErrType "bool") end).

Definition safePropertyValue_String (s : safePropertyValue) : result string :=
  perr_bind (safePropertyValue_getValue s)
    (fun v => match v with Str str => inl str | _ => inr (ErrType "string") end).

(** [Int], [Int64], [Uint64] and [Float64]: [AsNumeric] at the type [T]. *)
Definition safePropertyValue_Numeric (T : numeric) (s : safePropertyValue) : result any :=
  perr_bind (safePropertyValue_getValue s)
    (fun v => match AsNumeric flt_overflow ParseFloat T v with
              | Some n => inl n | None => inr ErrNumeric end).

Definition safePropertyValue_Int := safePropertyValue_Numeric (NInt tint).
Definition safePropertyValue_Int64 := safePropertyValue_Numeric (NInt tint64).
Definition safePropertyValue_Uint64 := safePropertyValue_Numeric (NInt tuint64).
Definition safePropertyValue_Float64 := safePropertyValue_Numeric (NFlt tfloat64).

Definition safePropertyValue_Time (s : safePropertyValue) : result time :=
  perr_bind (safePropertyValue_getValue s)
    (fun v => match v with
              | Str str => match ParseTime str with Some t => inl t | None => inr ErrTime end
              | Other tag => match dbtype_Time tag with Some t => inl t | None => inr ErrTime end
              | Flt tfloat64 f => inl (time_Unix (flt_to_int flt_overflow tint64 f) 0)
              | Int tint64 z => inl (time_Unix z 0)
              | Time t => inl t
              | _ => inr ErrTime
              end).

End negotiate.

(** No constructor of the package sets [defaultValue]. *)
Definition NewPropertyResult (key : string) (value : any) : safePropertyValue :=
  mkPropertyValue key value Nil.

(** ** The bag *)

Record Properties := mkProperties {
  Map : option (gmap string any);
  Deleted : option (gset string);
  Modified : option (gset string)
}.

Definition NewProperties : Properties := mkProperties None None None.
Definition NewPropertiesRed : Properties := NewProperties.

(** Reading a nil map finds nothing. *)
Definition props (p : Properties) : gmap string any := default ∅ (Map p).
Definition deleted (p : Properties) : gset string := default ∅ (Deleted p).
Definition modified (p : Properties) : gset string := default ∅ (Modified p).

(** [m[k]] of a missing key is the zero value of [any], nil. *)
Definition map_read (m : gmap string any) (k : string) : any := default Nil (m !! k).

Definition Properties_Set (s : Properties) (key : string) (value : any) : Properties :=
  mkProperties
    (Some (<[key := value]> (props s)))
    ((.∖ {[key]}) <$> Deleted s)
    (Some ({[key]} ∪ modified s)).

(** The range over [other] may take its entries in any order. *)
Definition Properties_SetAll (s : Properties) (other : list (string * any)) : Properties :=
  foldl (fun s '(key, value) => Properties_Set s key value) s other.

Definition Properties_Delete (s : Properties) (key : string) : Properties :=
  mkProperties
    (delete key <$> Map s)
    (Some ({[key]} ∪ deleted s))
    ((.∖ {[key]}) <$> Modified s).

(** [if len(other) > 0 && s == nil { s = make(...) }]. *)
Definition ensure {M} (other_empty : bool) (empty : M) (s : option M) : option M :=
  match s with
  | Some m => Some m
  | None => if other_empty then None else Some empty
  end.

(** The loops write through the receiver's maps, which are nil only when the
    loop has no turns. *)
Definition Properties_Merge_body (s other : Properties) : Properties :=
  let Map1 := ensure (bool_decide (props other = ∅)) ∅ (Map s) in
  let Map2 := (fun m => foldl (fun m '(k, v) => <[k := v]> m) m (map_to_list (props other))) <$> Map1 in
  let Modified1 := ensure (bool_decide (modified other = ∅)) ∅ (Modified s) in
  let Modified2 := (fun m => foldl (fun m k => {[k]} ∪ m) m (elements (modified other))) <$> Modified1 in
  let Deleted1 := (fun d => foldl (fun d k => d ∖ {[k]}) d (elements (modified other))) <$> Deleted s in
  let Deleted2 := ensure (bool_decide (deleted other = ∅)) ∅ Deleted1 in
  let Deleted3 := (fun d => foldl (fun d k => {[k]} ∪ d) d (elements (deleted other))) <$> Deleted2 in
  let Map3 := (fun m => foldl (fun m k => delete k m) m (elements (deleted other))) <$> Map2 in
  let Modified3 := (fun m => foldl (fun m k => m ∖ {[k]}) m (elements (deleted other))) <$> Modified2 in
  mkProperties Map3 Deleted3 Modified3.

(** Both pointers may be nil: a nil argument returns at once, a nil receiver
    is dereferenced. *)
Definition Properties_Merge (s other : option Properties) : outcome (option Properties) :=
  match other with
  | None => Done s
  | Some o => match s with
              | None => Panic
              | Some p => Done (Some (Properties_Merge_body p o))
              end
  end.

Definition Properties_MapOrEmpty (s : option Properties) : gmap string any :=
  match s with Some p => props p | None => ∅ end.

Definition Properties_Len (s : Properties) : nat := size (props s).

Definition Properties_ModifiedProperties (s : Properties) : gmap string any :=
  match Modified s with
  | None => ∅
  | Some m => foldl (fun ps k => <[k := map_read (props s) k]> ps) ∅ (elements m)
  end.

(** In the map's iteration order; nil without a [Deleted] map. *)
Definition Properties_DeletedProperties (s : Properties) : list string :=
  match Deleted s with None => [] | Some d => elements d end.

Definition Properties_Get (s : Properties) (key : string) : safePropertyValue :=
  match Map s with
  | None => NewPropertyResult key Nil
  | Some m => NewPropertyResult key (map_read m key)
  end.

Definition Properties_Clone (s : Properties) : Properties :=
  mkProperties
    ((fun m => foldl (fun n '(k, v) => <[k := v]> n) ∅ (map_to_list m)) <$> Map s)
    ((fun d => foldl (fun n k => {[k]} ∪ n) ∅ (elements d)) <$> Deleted s)
    ((fun d => foldl (fun n k => {[k]} ∪ n) ∅ (elements d)) <$> Modified s).

Definition Properties_Exists (s : Properties) (key : string) : bool :=
  match Map s with None => false | Some m => bool_decide (is_Some (m !! key)) end.

Definition nonnil_read (m : gmap string any) (k : string) : option any :=
  match m !! k with Some Nil | None => None | Some v => Some v end.

Fixpoint fallback_loop (m : gmap string any) (value : any) (fallbackKeys : list string) : any :=
  match fallbackKeys with
  | [] => value
  | k :: ks => match nonnil_read m k with Some v => v | None => fallback_loop m value ks end
  end.

Definition Properties_GetWithFallback (s : Properties) (key : string) (defaultValue : any)
    (fallbackKeys : list string) : safePropertyValue :=
  let value :=
    match Map s with
    | None => defaultValue
    | Some m =>
        match m !! key with
        | Some Nil => defaultValue
        | Some v => v
        | None => fallback_loop m defaultValue fallbackKeys
        end
    end in
  NewPropertyResult key value.

Definition Properties_GetOrDefault (s : Properties) (key : string) (defaultValue : any) : safePropertyValue :=
  Properties_GetWithFallback s key defaultValue [].

Definition Properties_Keys (s : Properties) (ignoredKeys : gset string) : list string :=
  merge_sort String.le (filter (.∉ ignoredKeys) (map_to_list (props s)).*1).

Section hashing.

(** The digest's [Write] and [json.Marshal]. *)
Context {D E : Type} (Write : D -> list Z -> D * option E).
Variable Marshal : any -> list Z + E.

Definition writeKeyValueToHash (h : D) (key : string) (value : any) : D * option E :=
  match Write h (bytes_of key) with
  | (h1, Some err) => (h1, Some err)
  | (h1, None) =>
      match Marshal value with
      | inr err => (h1, Some err)
      | inl encodedValue => Write h1 encodedValue
      end
  end.

Fixpoint hash_keys (m : gmap string any) (h : D) (keys : list string) : D * option E :=
  match keys with
  | [] => (h, None)
  | key :: keys' =>
      match writeKeyValueToHash h key (map_read m key) with
      | (h1, Some err) => (h1, Some err)
      | (h1, None) => hash_keys m h1 keys'
      end
  end.

Definition Properties_HashInto (s : Properties) (h : D) (ignoredKeys : gset string) : D * option E :=
  hash_keys (props s) h (Properties_Keys s ignoredKeys).

End hashing.

(** Symbols negotiate to strings; of two with the same string, the one the
    iteration meets last wins. *)
Definition symbolMapToStringMap (symbols : list (string * any)) : gmap string any :=
  foldl (fun store '(k, v) => <[k := v]> store) ∅ symbols.

Definition AsProperties_symbols (symbols : list (string * any)) : Properties :=
  mkProperties (Some (symbolMapToStringMap symbols)) None None.

(** [map[string]any] is kept as it is, nil included. *)
Definition AsProperties (rawStore : option (gmap string any)) : Properties :=
  mkProperties rawStore None None.

(** ** Closed forms of the loops *)

Lemma foldl_insert (l : list (string * any)) : forall m : gmap string any,
  NoDup l.*1 -> foldl (fun m '(k, v) => <[k := v]> m) m l = list_to_map l ∪ m.
Proof.
  induction l as [|[k v] l IH]; intros m Hd; [simpl; by rewrite (left_id_L ∅ (∪))|].
  rewrite fmap_cons in Hd. apply NoDup_cons in Hd as [Hk Hd]. simpl. rewrite IH by done.
  rewrite <- insert_union_l, insert_union_r; [done|]. by apply not_elem_of_list_to_map_1.
Qed.

Lemma foldl_insert_map (m n : gmap string any) :
  foldl (fun m '(k, v) => <[k := v]> m) m (map_to_list n) = n ∪ m.
Proof. by rewrite foldl_insert, list_to_map_to_list by apply NoDup_fst_map_to_list. Qed.

Lemma foldl_add (l : list string) : forall d : gset string,
  foldl (fun d k => {[k]} ∪ d) d l = d ∪ list_to_set l.
Proof. induction l as [|k l IH]; intros d; simpl; [set_solver|]. rewrite IH. set_solver. Qed.

Lemma foldl_remove (l : list string) : forall d : gset string,
  foldl (fun d k => d ∖ {[k]}) d l = d ∖ list_to_set l.
Proof. induction l as [|k l IH]; intros d; simpl; [set_solver|]. rewrite IH. set_solver. Qed.

Lemma foldl_delete (l : list string) : forall m : gmap string any,
  foldl (fun m k => delete k m) m l = filter (fun kv => kv.1 ∉ l) m.
Proof.
  induction l as [|k l IH]; intros m; simpl.
  - symmetry. apply map_filter_id. set_solver.
  - rewrite IH. apply map_eq. intros j. apply option_eq. intros v.
    rewrite !map_lookup_filter_Some, lookup_delete_Some. simpl. set_solver.
Qed.

Lemma foldl_reads (m : gmap string any) (l : list string) : forall (ps : gmap string any) k,
  foldl (fun ps k => <[k := map_read m k]> ps) ps l !! k
  = if decide (k ∈ l) then Some (map_read m k) else ps !! k.
Proof.
  induction l as [|j l IH]; intros ps k; simpl; [done|]. rewrite IH.
  destruct (decide (k ∈ l)); [by rewrite decide_True by set_solver|].
  destruct (decide (k = j)) as [->|Hne].
  - by rewrite lookup_insert_eq, decide_True by set_solver.
  - rewrite lookup_insert_ne, decide_False by set_solver. done.
Qed.

Lemma ModifiedProperties_lookup p k :
  Properties_ModifiedProperties p !! k
  = if decide (k ∈ modified p) then Some (map_read (props p) k) else None.
Proof.
  unfold Properties_ModifiedProperties, modified. destruct (Modified p) as [m|]; simpl.
  - rewrite foldl_reads. destruct (decide (k ∈ m)); destruct (decide (k ∈ elements m));
      rewrite ?lookup_empty; set_solver.
  - by rewrite lookup_empty, decide_False by set_solver.
Qed.

Lemma DeletedProperties_elem p k : k ∈ Properties_DeletedProperties p <-> k ∈ deleted p.
Proof. unfold Properties_DeletedProperties, deleted. destruct (Deleted p); set_solver. Qed.

Lemma Merge_props s o :
  props (Properties_Merge_body s o) = filter (fun kv => kv.1 ∉ deleted o) (props o ∪ props s).
Proof.
  assert (Hext : forall m : gmap string any,
    filter (fun kv => kv.1 ∉ elements (deleted o)) m = filter (fun kv => kv.1 ∉ deleted o) m)
    by (intros; apply map_filter_ext; set_solver).
  destruct s as [[m|] d e]; unfold Properties_Merge_body; unfold props at 1; cbn.
  - rewrite foldl_delete, foldl_insert_map. apply Hext.
  - rewrite (right_id_L ∅ (∪)). case_bool_decide as Ho; cbn.
    + by rewrite Ho, map_filter_empty.
    + rewrite foldl_delete, foldl_insert_map, (right_id_L ∅ (∪)). apply Hext.
Qed.

Lemma Merge_modified s o :
  modified (Properties_Merge_body s o) = (modified s ∪ modified o) ∖ deleted o.
Proof.
  destruct s as [m d [e|]]; unfold Properties_Merge_body; unfold modified at 1; cbn;
    [|case_bool_decide; cbn]; rewrite ?foldl_remove, ?foldl_add; set_solver.
Qed.

Lemma Merge_deleted s o :
  deleted (Properties_Merge_body s o) = (deleted s ∖ modified o) ∪ deleted o.
Proof.
  destruct s as [m [d|] e]; unfold Properties_Merge_body; unfold deleted at 1; cbn;
    [|case_bool_decide; cbn]; rewrite ?foldl_remove, ?foldl_add; set_solver.
Qed.

Lemma Clone_eq p : Properties_Clone p = p.
Proof.
  destruct p as [m d e]. unfold Properties_Clone. simpl. f_equal.
  - destruct m; simpl; [|done]. by rewrite foldl_insert_map, (right_id_L ∅ (∪)).
  - destruct d; simpl; [|done]. rewrite foldl_add. f_equal. set_solver.
  - destruct e; simpl; [|done]. rewrite foldl_add. f_equal. set_solver.
Qed.

(** ** What the tracked changes mean *)

(** The record a driver leaves after writing [p]'s modified properties over
    the stored ones and removing the deleted ones. *)
Definition apply_changes (p : Properties) (db : gmap string any) : gmap string any :=
  filter (fun kv => kv.1 ∉ Properties_DeletedProperties p) (Properties_ModifiedProperties p ∪ db).

Lemma apply_changes_lookup p db k :
  apply_changes p db !! k
  = if decide (k ∈ deleted p) then None
    else if decide (k ∈ modified p) then Some (map_read (props p) k) else db !! k.
Proof.
  unfold apply_changes. rewrite map_lookup_filter, lookup_union, ModifiedProperties_lookup.
  pose proof (DeletedProperties_elem p k) as Hd.
  destruct (decide (k ∈ deleted p)) as [Hk|Hk].
  - destruct (_ ∪ _) as [v|]; simpl; [|done]. rewrite option_guard_False; [done|].
    simpl. tauto.
  - destruct (decide (k ∈ modified p)) as [Hm|Hm].
    + rewrite union_Some_l. simpl. rewrite option_guard_True by (simpl; tauto). done.
    + rewrite (left_id_L None (∪)). destruct (db !! k); simpl; [|done].
      rewrite option_guard_True by (simpl; tauto). done.
Qed.

(** Well-formed tracking: what is modified has a value and is not deleted. *)
Record tracked (p : Properties) : Prop := {
  tracked_values : modified p ⊆ dom (props p);
  tracked_apart : modified p ## deleted p
}.

(** The edits a caller makes to a bag it has read. *)
Inductive edit := ESet (k : string) (v : any) | ESetAll (kvs : list (string * any))
                | EDelete (k : string) | EClone.

Definition run_edit (p : Properties) (e : edit) : Properties :=
  match e with
  | ESet k v => Properties_Set p k v
  | ESetAll kvs => Properties_SetAll p kvs
  | EDelete k => Properties_Delete p k
  | EClone => Properties_Clone p
  end.

(** Relative to the record [db] it was read from, [p] tracks its changes
    exactly. *)
Definition exact (db : gmap string any) (p : Properties) : Prop :=
  tracked p /\ deleted p ## dom (props p) /\ apply_changes p db = props p.

Lemma Set_props p k v : props (Properties_Set p k v) = <[k := v]> (props p).
Proof. done. Qed.
Lemma Set_modified p k v : modified (Properties_Set p k v) = {[k]} ∪ modified p.
Proof. done. Qed.
Lemma Set_deleted p k v : deleted (Properties_Set p k v) = deleted p ∖ {[k]}.
Proof. destruct p as [m [d|] e]; unfold deleted; simpl; [done|set_solver]. Qed.
Lemma Delete_props p k : props (Properties_Delete p k) = delete k (props p).
Proof. destruct p as [[m|] d e]; unfold props; simpl; [done|]. by rewrite delete_empty. Qed.
Lemma Delete_modified p k : modified (Properties_Delete p k) = modified p ∖ {[k]}.
Proof. destruct p as [m d [e|]]; unfold modified; simpl; [done|set_solver]. Qed.
Lemma Delete_deleted p k : deleted (Properties_Delete p k) = {[k]} ∪ deleted p.
Proof. done. Qed.

Create HintDb props.
#[export] Hint Rewrite Set_props Set_modified Set_deleted Delete_props Delete_modified
  Delete_deleted Merge_props Merge_modified Merge_deleted : props.

Lemma map_read_insert m k v j :
  map_read (<[k := v]> m) j = if decide (k = j) then v else map_read m j.
Proof. unfold map_read. rewrite lookup_insert. by case_decide. Qed.

Lemma exact_Set db p k v : exact db p -> exact db (Properties_Set p k v).
Proof.
  intros ([Hv Ha] & Hd & Happ). split_and!; [split|..]; autorewrite with props.
  - rewrite dom_insert_L. set_solver.
  - set_solver.
  - rewrite dom_insert_L. set_solver.
  - apply map_eq. intros j. apply (f_equal (.!! j)) in Happ. rewrite apply_changes_lookup in Happ.
    rewrite apply_changes_lookup. autorewrite with props. rewrite map_read_insert, lookup_insert.
    destruct (decide (k = j)) as [<-|Hne].
    + rewrite decide_False, decide_True by set_solver. done.
    + rewrite <- Happ. destruct (decide (j ∈ deleted p)), (decide (j ∈ modified p));
        destruct (decide (j ∈ deleted p ∖ {[k]})), (decide (j ∈ {[k]} ∪ modified p)); set_solver.
Qed.

Lemma exact_Delete db p k : exact db p -> exact db (Properties_Delete p k).
Proof.
  intros ([Hv Ha] & Hd & Happ). split_and!; [split|..]; autorewrite with props.
  - rewrite dom_delete_L. set_solver.
  - set_solver.
  - rewrite dom_delete_L. set_solver.
  - apply map_eq. intros j. apply (f_equal (.!! j)) in Happ. rewrite apply_changes_lookup in Happ.
    rewrite apply_changes_lookup. autorewrite with props. rewrite lookup_delete.
    destruct (decide (k = j)) as [<-|Hne]; [by rewrite decide_True by set_solver|].
    rewrite <- Happ. unfold map_read. rewrite lookup_delete_ne by done.
    destruct (decide (j ∈ deleted p)), (decide (j ∈ modified p));
      destruct (decide (j ∈ {[k]} ∪ deleted p)), (decide (j ∈ modified p ∖ {[k]})); set_solver.
Qed.

Lemma exact_SetAll db kvs : forall p, exact db p -> exact db (Properties_SetAll p kvs).
Proof. induction kvs as [|[k v] kvs IH]; intros p Hp; simpl; [done|]. by apply IH, exact_Set. Qed.

Lemma exact_AsProperties db : exact (default ∅ db) (AsProperties db).
Proof.
  split_and!; [split; unfold modified; set_solver|unfold deleted; set_solver|].
  apply map_eq. intros j. rewrite apply_changes_lookup. unfold deleted, modified, props. simpl.
  by rewrite !decide_False by set_solver.
Qed.

(** [C19] Change tracking is exact.  Start from a record as it was read and
    make any sequence of [Set], [SetAll], [Delete] and [Clone] calls: every
    modified key has a value and is not marked deleted, no deleted key is left
    in [Map], and writing [ModifiedProperties] over the original record and
    removing [DeletedProperties] gives exactly [Map]. *)
Theorem Properties_tracking_exact (db : option (gmap string any)) (edits : list edit) :
  exact (default ∅ db) (foldl run_edit (AsProperties db) edits).
Proof.
  assert (H : forall p, exact (default ∅ db) p -> exact (default ∅ db) (foldl run_edit p edits)).
  { induction edits as [|e edits IH]; intros p Hp; simpl; [done|]. apply IH.
    destruct e; simpl; auto using exact_Set, exact_SetAll, exact_Delete. by rewrite Clone_eq. }
  apply H, exact_AsProperties.
Qed.

(** The merged bag brings no value of its own for a key [s] modified. *)
Definition no_stale (s o : Properties) : Prop :=
  forall k, k ∈ modified s -> k ∈ dom (props o) -> k ∈ modified o \/ k ∈ deleted o.

(** [Merge] composes changes.  When neither bag's tracking is ill-formed
    and [other] holds no unmodified value for a key the receiver modified,
    [Merge] keeps the tracking well-formed, and writing the merged changes to
    any record is writing the receiver's and then [other]'s. *)
Theorem Properties_Merge_composes (s o : Properties) (db : gmap string any) :
  tracked s -> tracked o -> no_stale s o ->
  exists p, Properties_Merge (Some s) (Some o) = Done (Some p) /\ tracked p /\
            apply_changes p db = apply_changes o (apply_changes s db).
Proof.
  intros [Hv Ha] [Hvo Hao] Hst. eexists. split; [reflexivity|]. split; [split|].
  - autorewrite with props. intros k Hk. apply elem_of_dom.
    assert (Hin : is_Some ((props o ∪ props s) !! k)).
    { apply elem_of_dom. rewrite dom_union_L. set_solver. }
    destruct Hin as [v Hin]. exists v. apply map_lookup_filter_Some. simpl. set_solver.
  - autorewrite with props. set_solver.
  - apply map_eq. intros k. rewrite !apply_changes_lookup. autorewrite with props.
    destruct (decide (k ∈ deleted o)) as [Hd|Hd]; [by rewrite decide_True by set_solver|].
    assert (Er : map_read (filter (fun kv => kv.1 ∉ deleted o) (props o ∪ props s)) k
                 = map_read (props o ∪ props s) k).
    { unfold map_read. rewrite map_lookup_filter.
      destruct ((props o ∪ props s) !! k); simpl; [|done]. by rewrite option_guard_True. }
    rewrite Er. unfold map_read. rewrite lookup_union.
    destruct (decide (k ∈ modified o)) as [Hm|Hm].
    + rewrite decide_False, decide_True by set_solver.
      assert (Hi : is_Some (props o !! k)) by (apply elem_of_dom; set_solver).
      destruct Hi as [v ->]. by rewrite union_Some_l.
    + destruct (decide (k ∈ deleted s)) as [Hds|Hds]; [by rewrite decide_True by set_solver|].
      rewrite decide_False by set_solver.
      destruct (decide (k ∈ modified s)) as [Hms|Hms].
      * rewrite decide_True by set_solver.
        assert (Hn : props o !! k = None).
        { apply not_elem_of_dom. intros Hk. destruct (Hst k Hms Hk); done. }
        by rewrite Hn, (left_id_L None (∪)).
      * by rewrite decide_False by set_solver.
Qed.

Lemma Properties_Merge_composes_witness :
  let s := Properties_Set (AsProperties (Some {[ "a" := Str "1" ]})) "b" (Str "2") in
  let o := Properties_Delete (Properties_Set NewProperties "b" (Str "3")) "a" in
  exists p, Properties_Merge (Some s) (Some o) = Done (Some p) /\ tracked p /\
            apply_changes p ∅ = apply_changes o (apply_changes s ∅).
Proof.
  intros s o. apply (Properties_Merge_composes s o ∅).
  - split; apply (bool_decide_unpack _); vm_compute; exact I.
  - split; apply (bool_decide_unpack _); vm_compute; exact I.
  - intros k _ Hk. left. revert k Hk.
    change (dom (props o) ⊆ modified o). apply (bool_decide_unpack _). vm_compute. exact I.
Defined.

(** Without [no_stale] a change is lost: the receiver's modified value is
    replaced by the one [other] was read with, and stays marked modified. *)
Theorem Properties_Merge_stale :
  let db : gmap string any := {[ "a" := Str "old" ]} in
  let s := Properties_Set (AsProperties (Some db)) "a" (Str "new") in
  let o := AsProperties (Some db) in
  apply_changes o (apply_changes s db) !! "a" = Some (Str "new") /\
  exists p, Properties_Merge (Some s) (Some o) = Done (Some p) /\
            apply_changes p db !! "a" = Some (Str "old") /\ "a" ∈ modified p.
Proof.
  split; [reflexivity|]. eexists. split; [reflexivity|]. split; [reflexivity|].
  apply (bool_decide_unpack _). vm_compute. exact I.
Qed.

(** ** Keys and hashing *)

Lemma Keys_elem p ign k : k ∈ Properties_Keys p ign <-> k ∈ dom (props p) /\ k ∉ ign.
Proof.
  unfold Properties_Keys. rewrite merge_sort_Permutation, list_elem_of_filter, elem_of_dom.
  rewrite list_elem_of_fmap. split.
  - intros [Hk ([j v] & -> & Hj%elem_of_map_to_list)]. simpl in *. split; [by eexists|done].
  - intros [[v Hv] Hk]. split; [done|]. exists (k, v). split; [done|]. by apply elem_of_map_to_list.
Qed.

Lemma Keys_NoDup p ign : NoDup (Properties_Keys p ign).
Proof.
  unfold Properties_Keys. rewrite merge_sort_Permutation.
  apply NoDup_filter, NoDup_fst_map_to_list.
Qed.

Lemma Keys_sorted p ign : StronglySorted String.le (Properties_Keys p ign).
Proof. apply StronglySorted_merge_sort; apply _. Qed.

Lemma Keys_ext p q ign :
  (forall k, k ∉ ign -> props p !! k = props q !! k) -> Properties_Keys p ign = Properties_Keys q ign.
Proof.
  intros H. apply (StronglySorted_unique String.le); [apply Keys_sorted..|].
  apply NoDup_Permutation; [apply Keys_NoDup..|]. intros k. rewrite !Keys_elem, !elem_of_dom.
  split; intros [Hk Hn]; (split; [|done]); [rewrite <- H by done|rewrite H by done]; done.
Qed.

(** [Keys] lists each property outside the ignored ones once, in
    lexicographic order, and [HashInto] depends on those properties alone:
    bags that agree outside [ignoredKeys] drive every digest to the same state
    and error, whatever the maps' iteration orders and the ignored values. *)
Theorem Properties_HashInto_stable (p q : Properties) (ign : gset string) :
  (forall k, k ∉ ign -> props p !! k = props q !! k) ->
  (StronglySorted String.le (Properties_Keys p ign) /\ NoDup (Properties_Keys p ign) /\
   forall k, k ∈ Properties_Keys p ign <-> k ∈ dom (props p) /\ k ∉ ign) /\
  forall (D E : Type) (Write : D -> list Z -> D * option E) Marshal h,
    Properties_HashInto Write Marshal p h ign = Properties_HashInto Write Marshal q h ign.
Proof.
  intros H. split; [eauto using Keys_sorted, Keys_NoDup, Keys_elem|].
  intros D E Write Marshal h. unfold Properties_HashInto. rewrite <- (Keys_ext p q ign H).
  assert (Hin : forall k, k ∈ Properties_Keys p ign -> map_read (props p) k = map_read (props q) k).
  { intros k [_ Hk]%Keys_elem. unfold map_read. by rewrite H. }
  revert h Hin. induction (Properties_Keys p ign) as [|k ks IH]; intros h Hin; simpl; [done|].
  rewrite (Hin k) by set_solver.
  destruct (writeKeyValueToHash Write Marshal h k (map_read (props q) k)) as [h1 [e|]]; [done|].
  apply IH. set_solver.
Qed.

Lemma Properties_HashInto_stable_witness :
  let m : gmap string any := {[ "b" := Bool true; "a" := Nil ]} in
  let p := AsProperties (Some (<["id" := Int tint64 1]> m)) in
  let q := AsProperties (Some (<["id" := Int tint64 2]> m)) in
  Properties_Keys p {[ "id" ]} = ["a"; "b"] /\
  Properties_HashInto record_Write (fun _ => inl []) p [] {[ "id" ]}
  = Properties_HashInto record_Write (fun _ => inl []) q [] {[ "id" ]}.
Proof.
  intros m p q. split; [reflexivity|]. apply (Properties_HashInto_stable p q {[ "id" ]}).
  intros k Hk. unfold p, q, props, AsProperties. cbn [Map default from_option id].
  rewrite !lookup_insert_ne by set_solver. reflexivity.
Defined.

(** A key and its encoded value are written one after the other with nothing
    between: bags with different properties can feed the digest the same
    bytes. *)
Theorem Properties_HashInto_unframed (Marshal : any -> list Z + Empty_set) :
  Marshal (Int tint64 12) = inl (bytes_of "12") -> Marshal (Int tint64 2) = inl (bytes_of "2") ->
  let p := AsProperties (Some {[ "a" := Int tint64 12 ]}) in
  let q := AsProperties (Some {[ "a1" := Int tint64 2 ]}) in
  props p <> props q /\
  Properties_HashInto record_Write Marshal p [] ∅ = Properties_HashInto record_Write Marshal q [] ∅.
Proof.
  intros H12 H2 p q. split; [intros H; by apply (f_equal (.!! "a")) in H|].
  unfold Properties_HashInto.
  replace (Properties_Keys p ∅) with ["a"] by reflexivity.
  replace (Properties_Keys q ∅) with ["a1"] by reflexivity.
  unfold hash_keys, writeKeyValueToHash, record_Write.
  replace (map_read (props p) "a") with (Int tint64 12) by reflexivity.
  replace (map_read (props q) "a1") with (Int tint64 2) by reflexivity.
  by rewrite H12, H2.
Qed.
