(* ===== verification/Nodes.v ===== *)
(** * Nodes (graph/node.go)

    A [Node] holds three slices of kinds (its kinds, and the ones added and
    deleted since it was read) and a property bag.  The operations run on the
    memory of [Kinds]; [node_rep] says what the three slices show and that
    they do not share arrays. *)

From S2P Require Import Prelude Kinds Mapper Properties.

Definition UnregisteredNodeID : Z := 2 ^ 63 - 1.

Record Node := mkNode {
  node_ID : Z;
  node_Kinds : Slice;
  node_AddedKinds : Slice;
  node_DeletedKinds : Slice;
  node_Properties : option Properties
}.

Definition with_Kinds (n : Node) (s : Slice) : Node :=
  mkNode (node_ID n) s (node_AddedKinds n) (node_DeletedKinds n) (node_Properties n).
Definition with_Added (n : Node) (s : Slice) : Node :=
  mkNode (node_ID n) (node_Kinds n) s (node_DeletedKinds n) (node_Properties n).
Definition with_Deleted (n : Node) (s : Slice) : Node :=
  mkNode (node_ID n) (node_Kinds n) (node_AddedKinds n) s (node_Properties n).
Definition with_Properties (n : Node) (p : option Properties) : Node :=
  mkNode (node_ID n) (node_Kinds n) (node_AddedKinds n) (node_DeletedKinds n) p.

(** ** Operations *)

(** The variadic slice becomes the node's own. *)
Definition NewNode (id : Z) (properties : option Properties) (kinds : Slice) : Node :=
  mkNode id kinds nilKinds nilKinds properties.

Section operations.

Variable growslice : nat -> nat -> nat.

(** [PrepareNode] appends the kinds that are not nil to a nil slice. *)
Definition PrepareNode (m : Mem) (properties : option Properties) (kinds : Slice) : Mem * Node :=
  let '(m', filtered) :=
    foldl (fun '(m, filtered) k =>
             match k with
             | None => (m, filtered)
             | Some _ => append_slice growslice m filtered [k]
             end) (m, nilKinds) (view m kinds) in
  (m', NewNode UnregisteredNodeID properties filtered).

(** One turn of [AddKinds] with the element just read. *)
Definition AddKinds_turn (m : Mem) (s : Node) (kind : Kind) : outcome (Mem * Node) :=
  match kind with
  | None => Done (m, s)
  | Some _ =>
      '(m1, ks) ← Kinds_Add1 growslice m (node_Kinds s) kind;
      '(m2, added) ← Kinds_Add1 growslice m1 (node_AddedKinds s) kind;
      let '(m3, dels) := Kinds_Remove growslice m2 (node_DeletedKinds s) kind in
      Done (m3, mkNode (node_ID s) ks added dels (node_Properties s))
  end.

Definition DeleteKinds_turn (m : Mem) (s : Node) (kind : Kind) : outcome (Mem * Node) :=
  let '(m1, ks) := Kinds_Remove growslice m (node_Kinds s) kind in
  let '(m2, added) := Kinds_Remove growslice m1 (node_AddedKinds s) kind in
  '(m3, dels) ← Kinds_Add1 growslice m2 (node_DeletedKinds s) kind;
  Done (m3, mkNode (node_ID s) ks added dels (node_Properties s)).

(** [for _, kind := range kinds]: the header is read once, each element when
    its turn comes. *)
Fixpoint range_kinds (turn : Mem -> Node -> Kind -> outcome (Mem * Node))
    (m : Mem) (s : Node) (kinds : Slice) (idx : list nat) : outcome (Mem * Node) :=
  match idx with
  | [] => Done (m, s)
  | i :: idx' =>
      kind ← slice_get (view m kinds) (Z.of_nat i);
      '(m', s') ← turn m s kind;
      range_kinds turn m' s' kinds idx'
  end.

Definition Node_AddKinds (m : Mem) (s : Node) (kinds : Slice) : outcome (Mem * Node) :=
  range_kinds AddKinds_turn m s kinds (seq 0 (len kinds)).

Definition Node_DeleteKinds (m : Mem) (s : Node) (kinds : Slice) : outcome (Mem * Node) :=
  range_kinds DeleteKinds_turn m s kinds (seq 0 (len kinds)).

Definition Merge_added_turn (m : Mem) (s : Node) (otherKind : Kind) : outcome (Mem * Node) :=
  let '(m1, dels) := Kinds_Remove growslice m (node_DeletedKinds s) otherKind in
  Done (m1, with_Deleted s dels).

Definition Merge_deleted_turn (m : Mem) (s : Node) (otherKind : Kind) : outcome (Mem * Node) :=
  let '(m1, ks) := Kinds_Remove growslice m (node_Kinds s) otherKind in
  let '(m2, added) := Kinds_Remove growslice m1 (node_AddedKinds s) otherKind in
  Done (m2, with_Added (with_Kinds s ks) added).

Definition Node_Merge (m : Mem) (s other : Node) : outcome (Mem * Node) :=
  '(m1, ks) ← Kinds_Add growslice m (node_Kinds s) (node_Kinds other);
  let s1 := with_Kinds s ks in
  '(m2, s2) ← range_kinds Merge_added_turn m1 s1 (node_AddedKinds other)
                (seq 0 (len (node_AddedKinds other)));
  '(m3, s3) ← range_kinds Merge_deleted_turn m2 s2 (node_DeletedKinds other)
                (seq 0 (len (node_DeletedKinds other)));
  '(m4, added) ← Kinds_Add growslice m3 (node_AddedKinds s3) (node_AddedKinds other);
  '(m5, dels) ← Kinds_Add growslice m4 (node_DeletedKinds s3) (node_DeletedKinds other);
  ps ← Properties_Merge (node_Properties s3) (node_Properties other);
  Done (m5, with_Properties (with_Deleted (with_Added s3 added) dels) ps).

End operations.

(** One turn of [StripAllPropertiesExcept]. *)
Definition strip_turn (old : Properties) (newProperties : Properties) (exclusion : string) : Properties :=
  let new1 :=
    if Properties_Exists old exclusion
    then Properties_Set newProperties exclusion (safePropertyValue_Any (Properties_Get old exclusion))
    else newProperties in
  if decide (exclusion ∈ deleted old) then Properties_Delete new1 exclusion else new1.

Definition Node_StripAllPropertiesExcept (s : Node) (except : list string) : Node :=
  match node_Properties s with
  | None => with_Properties s (Some NewProperties)
  | Some old => with_Properties s (Some (foldl (strip_turn old) NewProperties except))
  end.

(** [MarshalJSON] serialises this; the encoder is the library's. *)
Record serializableNode := mkSerializable {
  ser_ID : Z;
  ser_Kinds : list string;
  ser_AddedKinds : list string;
  ser_DeletedKinds : list string;
  ser_Properties : option Properties
}.

Definition Node_MarshalJSON (m : Mem) (s : Node) : outcome serializableNode :=
  ks ← Kinds_Strings (view m (node_Kinds s));
  added ← Kinds_Strings (view m (node_AddedKinds s));
  dels ← Kinds_Strings (view m (node_DeletedKinds s));
  Done (mkSerializable (node_ID s) ks added dels (node_Properties s)).

(** The decoding side of [NodeSet.UnmarshalJSON], for one entry. *)
Definition unmarshal_node (m : Mem) (value : serializableNode) : Mem * Node :=
  let '(m1, ks) := literal m (Some <$> ser_Kinds value) in
  let '(m2, added) := literal m1 (Some <$> ser_AddedKinds value) in
  let '(m3, dels) := literal m2 (Some <$> ser_DeletedKinds value) in
  (m3, mkNode (ser_ID value) ks added dels (ser_Properties value)).

(** ** What a node shows *)

Record node_rep (m : Mem) (n : Node) (K A D : list Kind) : Prop := {
  nr_mem : mem_ok m;
  nr_K : Rep m (node_Kinds n) K;
  nr_A : Rep m (node_AddedKinds n) A;
  nr_D : Rep m (node_DeletedKinds n) D;
  nr_KA : apart (node_Kinds n) (node_AddedKinds n);
  nr_KD : apart (node_Kinds n) (node_DeletedKinds n);
  nr_AD : apart (node_AddedKinds n) (node_DeletedKinds n)
}.

(** A header that shares no array with the node. *)
Record outside (m : Mem) (n : Node) (t : Slice) (l : list Kind) : Prop := {
  out_rep : Rep m t l;
  out_K : apart t (node_Kinds n);
  out_A : apart t (node_AddedKinds n);
  out_D : apart t (node_DeletedKinds n)
}.

(** A step from [(m, n)] that changes what the node shows and nothing that
    lies outside it. *)
Definition steps_to (m : Mem) (n : Node) (r : Mem * Node) (K A D : list Kind) : Prop :=
  node_rep r.1 r.2 K A D /\ (forall t l, outside m n t l -> outside r.1 r.2 t l) /\
  node_Properties r.2 = node_Properties n /\ node_ID r.2 = node_ID n.

Lemma steps_refl m n K A D : node_rep m n K A D -> steps_to m n (m, n) K A D.
Proof. by intros. Qed.

Lemma steps_trans m n m1 n1 K1 A1 D1 r K A D :
  steps_to m n (m1, n1) K1 A1 D1 -> steps_to m1 n1 r K A D -> steps_to m n r K A D.
Proof.
  intros (_ & F1 & P1 & I1) (R & F & P & I). simpl in *. split_and!; [done|auto|congruence|congruence].
Qed.

Lemma update_Kinds m n K A D m' s' K' :
  node_rep m n K A D -> updates m (node_Kinds n) (m', s') K' ->
  steps_to m n (m', with_Kinds n s') K' A D.
Proof.
  intros [Hm HK HA HD HKA HKD HAD] (Hm' & HK' & Hf). simpl in *.
  destruct (Hf _ _ (apart_sym _ _ HKA) HA) as [HA' HA'a].
  destruct (Hf _ _ (apart_sym _ _ HKD) HD) as [HD' HD'a].
  split_and!; [by split; auto| |done..].
  intros t l [Ht1 Ht2 Ht3 Ht4]. destruct (Hf t l Ht2 Ht1). by split.
Qed.

Lemma update_Added m n K A D m' s' A' :
  node_rep m n K A D -> updates m (node_AddedKinds n) (m', s') A' ->
  steps_to m n (m', with_Added n s') K A' D.
Proof.
  intros [Hm HK HA HD HKA HKD HAD] (Hm' & HA' & Hf). simpl in *.
  destruct (Hf _ _ HKA HK) as [HK' HK'a].
  destruct (Hf _ _ (apart_sym _ _ HAD) HD) as [HD' HD'a].
  split_and!; [by split; auto| |done..].
  intros t l [Ht1 Ht2 Ht3 Ht4]. destruct (Hf t l Ht3 Ht1). by split.
Qed.

Lemma update_Deleted m n K A D m' s' D' :
  node_rep m n K A D -> updates m (node_DeletedKinds n) (m', s') D' ->
  steps_to m n (m', with_Deleted n s') K A D'.
Proof.
  intros [Hm HK HA HD HKA HKD HAD] (Hm' & HD' & Hf). simpl in *.
  destruct (Hf _ _ HKD HK) as [HK' HK'a].
  destruct (Hf _ _ HAD HA) as [HA' HA'a].
  split_and!; [by split; auto| |done..].
  intros t l [Ht1 Ht2 Ht3 Ht4]. destruct (Hf t l Ht4 Ht1). by split.
Qed.

(** ** The turns *)

Section turns.

Context (g : nat -> nat -> nat).

Lemma AddKinds_turn_steps m n K A D k :
  node_rep m n K A D -> nonnil k ->
  exists r, AddKinds_turn g m n k = Done r /\
    steps_to m n r (kinds_add K [k]) (kinds_add A [k]) (kinds_remove k D).
Proof.
  intros Hn Hk. destruct Hk as [str ->]. set (k := Some str).
  assert (Hk : nonnil k) by by eexists. unfold AddKinds_turn, k at 1. fold k.
  destruct (Add1_updates g m _ K k (nr_mem _ _ _ _ _ Hn) (nr_K _ _ _ _ _ Hn) Hk) as ([m1 s1] & E1 & U1).
  rewrite E1. simpl. pose proof (update_Kinds _ _ _ _ _ _ _ _ Hn U1) as S1.
  pose proof (proj1 S1) as N1.
  destruct (Add1_updates g m1 _ A k (nr_mem _ _ _ _ _ N1) (nr_A _ _ _ _ _ N1) Hk) as ([m2 s2] & E2 & U2).
  simpl in E2. rewrite E2. simpl. pose proof (update_Added _ _ _ _ _ _ _ _ N1 U2) as S2.
  pose proof (proj1 S2) as N2.
  pose proof (Remove_updates g m2 _ D k (nr_mem _ _ _ _ _ N2) (nr_D _ _ _ _ _ N2)) as U3.
  simpl in U3. destruct (Kinds_Remove g m2 (node_DeletedKinds n) k) as [m3 s3].
  pose proof (update_Deleted _ _ _ _ _ _ _ _ N2 U3) as S3.
  eexists. split; [done|]. exact (steps_trans _ _ _ _ _ _ _ _ _ _ _ (steps_trans _ _ _ _ _ _ _ _ _ _ _ S1 S2) S3).
Qed.

Lemma Merge_deleted_turn_steps m n K A D k :
  node_rep m n K A D ->
  exists r, Merge_deleted_turn g m n k = Done r /\
    steps_to m n r (kinds_remove k K) (kinds_remove k A) D.
Proof.
  intros Hn. unfold Merge_deleted_turn.
  pose proof (Remove_updates g m _ K k (nr_mem _ _ _ _ _ Hn) (nr_K _ _ _ _ _ Hn)) as U1.
  destruct (Kinds_Remove g m (node_Kinds n) k) as [m1 s1].
  pose proof (update_Kinds _ _ _ _ _ _ _ _ Hn U1) as S1. pose proof (proj1 S1) as N1.
  pose proof (Remove_updates g m1 _ A k (nr_mem _ _ _ _ _ N1) (nr_A _ _ _ _ _ N1)) as U2.
  simpl in U2. destruct (Kinds_Remove g m1 (node_AddedKinds n) k) as [m2 s2].
  pose proof (update_Added _ _ _ _ _ _ _ _ N1 U2) as S2.
  eexists. split; [done|]. exact (steps_trans _ _ _ _ _ _ _ _ _ _ _ S1 S2).
Qed.

Lemma DeleteKinds_turn_steps m n K A D k :
  node_rep m n K A D -> nonnil k ->
  exists r, DeleteKinds_turn g m n k = Done r /\
    steps_to m n r (kinds_remove k K) (kinds_remove k A) (kinds_add D [k]).
Proof.
  intros Hn Hk. destruct (Merge_deleted_turn_steps m n K A D k Hn) as ([m2 n2] & E2 & S2).
  unfold Merge_deleted_turn in E2. unfold DeleteKinds_turn.
  destruct (Kinds_Remove g m (node_Kinds n) k) as [m1 s1].
  destruct (Kinds_Remove g m1 (node_AddedKinds n) k) as [m2' s2]. injection E2 as <- <-.
  pose proof (proj1 S2) as N2.
  destruct (Add1_updates g m2' _ D k (nr_mem _ _ _ _ _ N2) (nr_D _ _ _ _ _ N2) Hk) as ([m3 s3] & E3 & U3).
  simpl in E3. rewrite E3. simpl. pose proof (update_Deleted _ _ _ _ _ _ _ _ N2 U3) as S3.
  eexists. split; [done|]. exact (steps_trans _ _ _ _ _ _ _ _ _ _ _ S2 S3).
Qed.

Lemma Merge_added_turn_steps m n K A D k :
  node_rep m n K A D ->
  exists r, Merge_added_turn g m n k = Done r /\ steps_to m n r K A (kinds_remove k D).
Proof.
  intros Hn. unfold Merge_added_turn.
  pose proof (Remove_updates g m _ D k (nr_mem _ _ _ _ _ Hn) (nr_D _ _ _ _ _ Hn)) as U1.
  destruct (Kinds_Remove g m (node_DeletedKinds n) k) as [m1 s1].
  eexists. split; [done|]. exact (update_Deleted _ _ _ _ _ _ _ _ Hn U1).
Qed.

End turns.

(** A range over a slice outside the node: the turns' effects on the three
    lists, one after the other. *)
Definition lists : Type := list Kind * list Kind * list Kind.

Definition node_shows (m : Mem) (n : Node) (l : lists) : Prop :=
  node_rep m n l.1.1 l.1.2 l.2.

Lemma range_kinds_steps turn (f : Kind -> lists -> lists) (P : Kind -> Prop) kinds ks :
  (forall m n l k, node_shows m n l -> P k ->
     exists r, turn m n k = Done r /\ steps_to m n r (f k l).1.1 (f k l).1.2 (f k l).2) ->
  Forall P ks ->
  forall idx m n l, node_shows m n l -> outside m n kinds ks -> Forall (fun i => i < length ks) idx ->
  exists r, range_kinds turn m n kinds idx = Done r /\
    let l' := foldl (fun l k => f k l) l (omap (ks !!.) idx) in
    steps_to m n r l'.1.1 l'.1.2 l'.2.
Proof.
  intros Hturn Hks. induction idx as [|i idx IH]; intros m n l Hn Hout Hidx; simpl.
  { eexists. split; [done|]. by apply steps_refl. }
  apply Forall_cons in Hidx as [Hi Hidx]. destruct (lookup_lt_is_Some_2 ks i Hi) as [k Hk].
  rewrite (rep_view _ _ _ (out_rep _ _ _ _ Hout)), (slice_get_nat _ _ _ Hk), Hk. simpl.
  destruct (Hturn m n l k Hn) as ([m1 n1] & E & S); [by eapply Forall_lookup_1|]. rewrite E. simpl.
  destruct (IH m1 n1 (f k l)) as (r & Er & Sr); [apply S|by apply S|done|].
  exists r. split; [done|]. by eapply steps_trans.
Qed.

Lemma range_kinds_all turn f (P : Kind -> Prop) kinds ks m n l :
  (forall m n l k, node_shows m n l -> P k ->
     exists r, turn m n k = Done r /\ steps_to m n r (f k l).1.1 (f k l).1.2 (f k l).2) ->
  Forall P ks -> node_shows m n l -> outside m n kinds ks ->
  exists r, range_kinds turn m n kinds (seq 0 (len kinds)) = Done r /\
    let l' := foldl (fun l k => f k l) l ks in
    steps_to m n r l'.1.1 l'.1.2 l'.2.
Proof.
  intros Hturn Hks Hn Hout.
  destruct (range_kinds_steps turn f P kinds ks Hturn Hks (seq 0 (len kinds)) m n l Hn Hout)
    as (r & Er & Sr).
  - rewrite <- (rep_length _ _ _ (out_rep _ _ _ _ Hout)).
    apply Forall_forall. intros i Hi%elem_of_seq. lia.
  - exists r. split; [done|].
    by rewrite <- (rep_length _ _ _ (out_rep _ _ _ _ Hout)), omap_lookup_seq in Sr.
Qed.

(** ** The effects on the lists *)

Definition add_kind (k : Kind) (l : lists) : lists :=
  match k with
  | None => l
  | Some _ => (kinds_add l.1.1 [k], kinds_add l.1.2 [k], kinds_remove k l.2)
  end.
Definition delete_kind (k : Kind) (l : lists) : lists :=
  (kinds_remove k l.1.1, kinds_remove k l.1.2, kinds_add l.2 [k]).

Lemma Node_AddKinds_steps g m n l kinds ks :
  node_shows m n l -> outside m n kinds ks ->
  exists r, Node_AddKinds g m n kinds = Done r /\
    let l' := foldl (fun l k => add_kind k l) l ks in steps_to m n r l'.1.1 l'.1.2 l'.2.
Proof.
  intros Hn Hout. apply (range_kinds_all _ add_kind (fun _ => True)); [|by apply Forall_true|done..].
  intros m' n' l' [k|] Hn' _; [|eexists; split; [done|by apply steps_refl]].
  apply AddKinds_turn_steps; [done|by eexists].
Qed.

Lemma Node_DeleteKinds_steps g m n l kinds ks :
  node_shows m n l -> outside m n kinds ks -> Forall nonnil ks ->
  exists r, Node_DeleteKinds g m n kinds = Done r /\
    let l' := foldl (fun l k => delete_kind k l) l ks in steps_to m n r l'.1.1 l'.1.2 l'.2.
Proof.
  intros Hn Hout Hks. apply (range_kinds_all _ delete_kind nonnil); [|done..].
  intros m' n' l' k Hn' Hk. by apply DeleteKinds_turn_steps.
Qed.

(** ** Tracking *)

(** Relative to the kinds [db] the node was read with, the three lists have no
    duplicates, nothing is both added and deleted, and the node's kinds are
    the stored ones and the added ones less the deleted ones. *)
Record kinds_exact (db : list Kind) (l : lists) : Prop := {
  ke_K : NoDup l.1.1;
  ke_A : NoDup l.1.2;
  ke_D : NoDup l.2;
  ke_AD : forall k, k ∈ l.1.2 -> k ∉ l.2;
  ke_kinds : forall k, k ∈ l.1.1 <-> (k ∈ db \/ k ∈ l.1.2) /\ k ∉ l.2
}.

Lemma kinds_exact_add db l k : kinds_exact db l -> kinds_exact db (add_kind k l).
Proof.
  intros [HK HA HD HAD Hk]. destruct k as [s|]; [|by split].
  set (k := Some s). unfold add_kind, k. fold k. split; cbn [fst snd].
  - by apply NoDup_kinds_add.
  - by apply NoDup_kinds_add.
  - by apply NoDup_kinds_remove.
  - intros x. rewrite elem_of_kinds_remove by done. rewrite elem_of_kinds_add.
    intros [Hx|Hx]; [intros [? _]; by eapply HAD|]. set_solver.
  - intros x. rewrite elem_of_kinds_remove by done. rewrite !elem_of_kinds_add, Hk.
    destruct (decide (x = k)) as [->|Hne]; set_solver.
Qed.

Lemma kinds_exact_delete db l k : kinds_exact db l -> kinds_exact db (delete_kind k l).
Proof.
  intros [HK HA HD HAD Hk]. unfold delete_kind. split; cbn [fst snd].
  - by apply NoDup_kinds_remove.
  - by apply NoDup_kinds_remove.
  - by apply NoDup_kinds_add.
  - intros x. rewrite elem_of_kinds_remove, elem_of_kinds_add by done.
    intros [Hx Hne] [Hd|Hd]; [by eapply HAD|set_solver].
  - intros x. rewrite !elem_of_kinds_remove, elem_of_kinds_add, Hk by done.
    destruct (decide (x = k)) as [->|Hne]; set_solver.
Qed.

(** A call with explicit kinds, which allocates its variadic slice. *)
Inductive kind_edit := KAdd (ks : list Kind) | KDelete (ks : list Kind).

Definition run_kind_edit (g : nat -> nat -> nat) (r : Mem * Node) (e : kind_edit) : outcome (Mem * Node) :=
  match e with
  | KAdd ks => let '(m, kinds) := literal r.1 ks in Node_AddKinds g m r.2 kinds
  | KDelete ks => let '(m, kinds) := literal r.1 ks in Node_DeleteKinds g m r.2 kinds
  end.

Fixpoint run_kind_edits (g : nat -> nat -> nat) (r : Mem * Node) (es : list kind_edit) : outcome (Mem * Node) :=
  match es with [] => Done r | e :: es' => r' ← run_kind_edit g r e; run_kind_edits g r' es' end.

Definition edit_ok (e : kind_edit) : Prop :=
  match e with KAdd _ => True | KDelete ks => Forall nonnil ks end.

Lemma literal_outside m n l ks :
  node_shows m n l ->
  let '(m', kinds) := literal m ks in node_shows m' n l /\ outside m' n kinds ks.
Proof.
  intros [Hm HK HA HD HKA HKD HAD]. destruct (literal_rep m ks Hm) as (Hm' & HR & Hf).
  destruct (literal m ks) as [m' kinds]. simpl in *.
  destruct (Hf _ _ HK), (Hf _ _ HA), (Hf _ _ HD). split; [by split|]. split; auto.
Qed.

Lemma run_kind_edit_exact g db m n l e :
  node_shows m n l -> kinds_exact db l -> edit_ok e ->
  exists m' n' l', run_kind_edit g (m, n) e = Done (m', n') /\ node_shows m' n' l' /\ kinds_exact db l'.
Proof.
  intros Hn Hl He. destruct e as [ks|ks]; cbn [run_kind_edit edit_ok fst snd] in *.
  - pose proof (literal_outside m n l ks Hn) as Hlit. destruct (literal m ks) as [m1 kinds].
    destruct Hlit as [Hn1 Hout].
    destruct (Node_AddKinds_steps g m1 n l kinds ks Hn1 Hout) as ([m' n'] & E & S).
    exists m', n', (foldl (fun l k => add_kind k l) l ks). split_and!; [done|apply S|].
    clear -Hl. revert l Hl. induction ks; intros l Hl; simpl; auto using kinds_exact_add.
  - pose proof (literal_outside m n l ks Hn) as Hlit. destruct (literal m ks) as [m1 kinds].
    destruct Hlit as [Hn1 Hout].
    destruct (Node_DeleteKinds_steps g m1 n l kinds ks Hn1 Hout He) as ([m' n'] & E & S).
    exists m', n', (foldl (fun l k => delete_kind k l) l ks). split_and!; [done|apply S|].
    clear -Hl. revert l Hl. induction ks; intros l Hl; simpl; auto using kinds_exact_delete.
Qed.

Lemma run_kind_edits_exact g db es : forall m n l,
  node_shows m n l -> kinds_exact db l -> Forall edit_ok es ->
  exists m' n' l', run_kind_edits g (m, n) es = Done (m', n') /\ node_shows m' n' l' /\ kinds_exact db l'.
Proof.
  induction es as [|e es IH]; intros m n l Hn Hl He; [by exists m, n, l|].
  apply Forall_cons in He as [He Hes].
  destruct (run_kind_edit_exact g db m n l e Hn Hl He) as (m1 & n1 & l1 & E & Hn1 & Hl1).
  destruct (IH m1 n1 l1 Hn1 Hl1 Hes) as (m' & n' & l' & E' & Hn' & Hl').
  exists m', n', l'. simpl. by rewrite E.
Qed.

Lemma NewNode_shows m id ps kinds ks :
  mem_ok m -> Rep m kinds ks -> node_shows m (NewNode id ps kinds) (ks, [], []).
Proof.
  intros Hm HR. split; simpl; auto using rep_nil; unfold apart; simpl; lia.
Qed.

Lemma kinds_exact_new ks : NoDup ks -> kinds_exact ks (ks, [], []).
Proof. intros H. split; simpl; [done|constructor|constructor|set_solver|set_solver]. Qed.

(** [C32] Kind tracking is exact, for kinds as [StringKind] interns them.  Start from a
    node as it was read, whose kinds have no duplicates, and make any sequence of
    [AddKinds] and [DeleteKinds] calls whose arguments are fresh slices and that delete
    no nil kind, which would panic: no call panics, none of the three slices gets
    a duplicate or shares an array with another, no kind is both added and
    deleted, and the node's kinds are always the stored ones, with the added
    ones, without the deleted ones. *)
Theorem Node_kinds_tracking g m id ps kinds ks (es : list kind_edit) :
  mem_ok m -> Rep m kinds ks -> NoDup ks -> Forall edit_ok es ->
  exists m' n' l, run_kind_edits g (m, NewNode id ps kinds) es = Done (m', n') /\
    node_shows m' n' l /\ kinds_exact ks l.
Proof.
  intros Hm HR Hnd Hes. apply run_kind_edits_exact with (l := (ks, [], [])); [|by apply kinds_exact_new|done].
  by apply NewNode_shows.
Qed.

Lemma Node_kinds_tracking_witness :
  let m := mkMem {[ 1 := [Some "User"; Some "Base"] ]} 2 in
  exists m' n' l, run_kind_edits (fun _ n => 2 * n) (m, NewNode 7 None (mkSlice 1 2))
      [KAdd [Some "Group"; None]; KDelete [Some "Base"; Some "X"]; KAdd [Some "X"]] = Done (m', n') /\
    node_shows m' n' l /\ kinds_exact [Some "User"; Some "Base"] l.
Proof.
  intros m. apply Node_kinds_tracking.
  - by apply mem_ok_check.
  - split; [simpl; lia|vm_compute; lia|reflexivity].
  - apply (bool_decide_unpack _). vm_compute. exact I.
  - repeat constructor; by eexists.
Defined.

(** [node.DeleteKinds(node.Kinds...)] passes the node's own slice: removing a
    kind shifts the array the loop is still reading, and a kind is skipped. *)
Theorem Node_DeleteKinds_own_kinds :
  let m := mkMem {[ 1 := [Some "A"; Some "B"; Some "C"] ]} 2 in
  let n := NewNode 7 None (mkSlice 1 3) in
  exists m' n', Node_DeleteKinds (fun _ needed => needed) m n (node_Kinds n) = Done (m', n') /\
    view m' (node_Kinds n') = [Some "B"] /\ ~ Some "B" ∈ view m' (node_DeletedKinds n').
Proof.
  intros m n. eexists _, _. split; [reflexivity|]. split; [reflexivity|].
  apply (bool_decide_unpack _). vm_compute. exact I.
Qed.

(** ** Merge *)

Definition remove_all (l : list Kind) (ks : list Kind) : list Kind :=
  foldl (fun l k => kinds_remove k l) l ks.

Lemma NoDup_remove_all ks : forall l, NoDup l -> NoDup (remove_all l ks).
Proof. induction ks; intros l Hl; simpl; auto using NoDup_kinds_remove. Qed.

Lemma elem_of_remove_all ks : forall l x, NoDup l -> x ∈ remove_all l ks <-> x ∈ l /\ x ∉ ks.
Proof.
  induction ks as [|k ks IH]; intros l x Hl; simpl; [set_solver|].
  rewrite IH by by apply NoDup_kinds_remove. rewrite elem_of_kinds_remove by done. set_solver.
Qed.

Lemma foldl_deleted_only ks : forall l : lists,
  foldl (fun l k => (l.1.1, l.1.2, kinds_remove k l.2)) l ks = (l.1.1, l.1.2, remove_all l.2 ks).
Proof. induction ks as [|k ks IH]; intros [[K A] D]; simpl; [done|]. by rewrite IH. Qed.

Lemma foldl_kinds_added ks : forall l : lists,
  foldl (fun l k => (kinds_remove k l.1.1, kinds_remove k l.1.2, l.2)) l ks
  = (remove_all l.1.1 ks, remove_all l.1.2 ks, l.2).
Proof. induction ks as [|k ks IH]; intros [[K A] D]; simpl; [done|]. by rewrite IH. Qed.

(** The receiver and the other node share no arrays. *)
Definition separate (m : Mem) (s o : Node) (lo : lists) : Prop :=
  outside m s (node_Kinds o) lo.1.1 /\ outside m s (node_AddedKinds o) lo.1.2 /\
  outside m s (node_DeletedKinds o) lo.2.

Lemma separate_steps m s r K A D o lo :
  steps_to m s r K A D -> separate m s o lo -> separate r.1 r.2 o lo.
Proof. intros (_ & F & _) (H1 & H2 & H3). split_and!; auto. Qed.

Definition merged (l lo : lists) : lists :=
  (remove_all (kinds_add l.1.1 lo.1.1) lo.2,
   kinds_add (remove_all l.1.2 lo.2) lo.1.2,
   kinds_add (remove_all l.2 lo.1.2) lo.2).

Lemma Merge_added_loop g m s l o lo :
  node_shows m s l -> separate m s o lo ->
  exists m' s', range_kinds (Merge_added_turn g) m s (node_AddedKinds o)
                  (seq 0 (len (node_AddedKinds o))) = Done (m', s') /\
    steps_to m s (m', s') l.1.1 l.1.2 (remove_all l.2 lo.1.2) /\ separate m' s' o lo.
Proof.
  intros Hs Hsep. pose proof Hsep as (_ & O2 & _).
  destruct (range_kinds_all (Merge_added_turn g) (fun k l => (l.1.1, l.1.2, kinds_remove k l.2))
    (fun _ => True) (node_AddedKinds o) lo.1.2 m s l) as ([m' s'] & E & S); [|by apply Forall_true|done..|].
  { intros m' n' l' k Hn _. by apply Merge_added_turn_steps. }
  cbv zeta in S. rewrite foldl_deleted_only in S.
  exists m', s'. split_and!; [done..|]. exact (separate_steps _ _ _ _ _ _ _ _ S Hsep).
Qed.

Lemma Merge_deleted_loop g m s l o lo :
  node_shows m s l -> separate m s o lo ->
  exists m' s', range_kinds (Merge_deleted_turn g) m s (node_DeletedKinds o)
                  (seq 0 (len (node_DeletedKinds o))) = Done (m', s') /\
    steps_to m s (m', s') (remove_all l.1.1 lo.2) (remove_all l.1.2 lo.2) l.2 /\ separate m' s' o lo.
Proof.
  intros Hs Hsep. pose proof Hsep as (_ & _ & O3).
  destruct (range_kinds_all (Merge_deleted_turn g)
    (fun k l => (kinds_remove k l.1.1, kinds_remove k l.1.2, l.2))
    (fun _ => True) (node_DeletedKinds o) lo.2 m s l) as ([m' s'] & E & S); [|by apply Forall_true|done..|].
  { intros m' n' l' k Hn _. by apply Merge_deleted_turn_steps. }
  cbv zeta in S. rewrite foldl_kinds_added in S.
  exists m', s'. split_and!; [done..|]. exact (separate_steps _ _ _ _ _ _ _ _ S Hsep).
Qed.

(** The three [Add] calls of [Merge]. *)
Lemma Merge_add_Kinds g m s l o lo :
  node_shows m s l -> separate m s o lo -> Forall nonnil lo.1.1 ->
  exists m' ks, Kinds_Add g m (node_Kinds s) (node_Kinds o) = Done (m', ks) /\
    steps_to m s (m', with_Kinds s ks) (kinds_add l.1.1 lo.1.1) l.1.2 l.2 /\
    separate m' (with_Kinds s ks) o lo.
Proof.
  intros Hs Hsep HK. pose proof Hsep as ([] & _ & _).
  destruct (Add_updates g m (node_Kinds s) l.1.1 (node_Kinds o) lo.1.1) as ([m' ks] & E & U);
    [by destruct Hs..|].
  pose proof (update_Kinds _ _ _ _ _ _ _ _ Hs U) as S.
  exists m', ks. split_and!; [done..|]. exact (separate_steps _ _ _ _ _ _ _ _ S Hsep).
Qed.

Lemma Merge_add_Added g m s l o lo :
  node_shows m s l -> separate m s o lo -> Forall nonnil lo.1.2 ->
  exists m' ks, Kinds_Add g m (node_AddedKinds s) (node_AddedKinds o) = Done (m', ks) /\
    steps_to m s (m', with_Added s ks) l.1.1 (kinds_add l.1.2 lo.1.2) l.2 /\
    separate m' (with_Added s ks) o lo.
Proof.
  intros Hs Hsep HK. pose proof Hsep as (_ & [] & _).
  destruct (Add_updates g m (node_AddedKinds s) l.1.2 (node_AddedKinds o) lo.1.2) as ([m' ks] & E & U);
    [by destruct Hs..|].
  pose proof (update_Added _ _ _ _ _ _ _ _ Hs U) as S.
  exists m', ks. split_and!; [done..|]. exact (separate_steps _ _ _ _ _ _ _ _ S Hsep).
Qed.

Lemma Merge_add_Deleted g m s l o lo :
  node_shows m s l -> separate m s o lo -> Forall nonnil lo.2 ->
  exists m' ks, Kinds_Add g m (node_DeletedKinds s) (node_DeletedKinds o) = Done (m', ks) /\
    steps_to m s (m', with_Deleted s ks) l.1.1 l.1.2 (kinds_add l.2 lo.2) /\
    separate m' (with_Deleted s ks) o lo.
Proof.
  intros Hs Hsep HK. pose proof Hsep as (_ & _ & []).
  destruct (Add_updates g m (node_DeletedKinds s) l.2 (node_DeletedKinds o) lo.2) as ([m' ks] & E & U);
    [by destruct Hs..|].
  pose proof (update_Deleted _ _ _ _ _ _ _ _ Hs U) as S.
  exists m', ks. split_and!; [done..|]. exact (separate_steps _ _ _ _ _ _ _ _ S Hsep).
Qed.

Lemma steps_shows m s r K A D : steps_to m s r K A D -> node_shows r.1 r.2 (K, A, D).
Proof. by intros [H _]. Qed.

Lemma Node_Merge_steps g m s o l lo ps :
  node_shows m s l -> separate m s o lo ->
  Forall nonnil lo.1.1 -> Forall nonnil lo.1.2 -> Forall nonnil lo.2 ->
  Properties_Merge (node_Properties s) (node_Properties o) = Done ps ->
  exists m' s', Node_Merge g m s o = Done (m', s') /\ node_shows m' s' (merged l lo) /\
    (forall t lt, outside m s t lt -> outside m' s' t lt) /\
    separate m' s' o lo /\ node_Properties s' = ps /\ node_ID s' = node_ID s.
Proof.
  intros Hs Hsep HK HA HD Hps. unfold Node_Merge.
  destruct (Merge_add_Kinds g m s l o lo Hs Hsep HK) as (m1 & ks & E1 & S1 & Sep1).
  rewrite E1. cbn [mbind outcome_bind].
  destruct (Merge_added_loop g m1 (with_Kinds s ks) _ o lo (steps_shows _ _ _ _ _ _ S1) Sep1) as (m2 & s2 & E2 & S2 & Sep2).
  rewrite E2. cbn [mbind outcome_bind].
  destruct (Merge_deleted_loop g m2 s2 _ o lo (steps_shows _ _ _ _ _ _ S2) Sep2) as (m3 & s3 & E3 & S3 & Sep3).
  rewrite E3. cbn [mbind outcome_bind].
  destruct (Merge_add_Added g m3 s3 _ o lo (steps_shows _ _ _ _ _ _ S3) Sep3 HA) as (m4 & added & E4 & S4 & Sep4).
  rewrite E4. cbn [mbind outcome_bind].
  destruct (Merge_add_Deleted g m4 (with_Added s3 added) _ o lo (steps_shows _ _ _ _ _ _ S4) Sep4 HD) as (m5 & dels & E5 & S5 & Sep5).
  cbn [node_DeletedKinds with_Added] in E5. rewrite E5. cbn [mbind outcome_bind].
  pose proof (steps_trans _ _ _ _ _ _ _ _ _ _ _ S1 (steps_trans _ _ _ _ _ _ _ _ _ _ _ S2 S3))
    as S3'.
  pose proof (steps_trans _ _ _ _ _ _ _ _ _ _ _ S3' (steps_trans _ _ _ _ _ _ _ _ _ _ _ S4 S5)) as (_ & Hframe & _).
  destruct S3' as (_ & _ & Hp & Hi).
  cbn [snd] in Hp, Hi. rewrite Hp, Hps. eexists _, _. split; [reflexivity|].
  split_and!; [| |by destruct Sep5 as ([] & [] & [])|done|done].
  - destruct S5 as [[] _]. by split.
  - intros t lt Ht. destruct (Hframe t lt Ht). by split.
Qed.

(** A kind the stored record has after the changes of [l] are written to a
    record whose kinds are [db]. *)
Definition kinds_after (l : lists) (db : Kind -> Prop) (k : Kind) : Prop :=
  (db k \/ k ∈ l.1.2) /\ k ∉ l.2.

Record lists_ok (l : lists) : Prop := {
  lo_K : NoDup l.1.1; lo_A : NoDup l.1.2; lo_D : NoDup l.2;
  lo_AD : forall k, k ∈ l.1.2 -> k ∉ l.2
}.

Lemma merged_ok l lo : lists_ok l -> lists_ok lo -> lists_ok (merged l lo).
Proof.
  intros [HK HA HD HAD] [HKo HAo HDo HADo]. split; cbn [merged fst snd].
  - by apply NoDup_remove_all, NoDup_kinds_add.
  - by apply NoDup_kinds_add, NoDup_remove_all.
  - by apply NoDup_kinds_add, NoDup_remove_all.
  - intros k. rewrite !elem_of_kinds_add, !elem_of_remove_all by done.
    intros [[Ha Hn]|Ha] [[Hd Hn']|Hd]; try done; [by eapply HAD|by eapply HADo].
Qed.

(** [Node.Merge] composes the changes of two updates of one node that
    share no slice: it never panics while the receiver has properties, the
    other node is left as it was, the three lists stay free of duplicates with
    nothing both added and deleted, the merged kinds are the kinds of both
    less the ones the other deleted, and writing the merged kind changes to
    any record is writing the receiver's and then the other's.  The property
    bags are merged by [Properties.Merge]. *)
Theorem Node_Merge_composes g m s o l lo p q :
  node_shows m s l -> separate m s o lo -> lists_ok l -> lists_ok lo ->
  Forall nonnil (lo.1.1 ++ lo.1.2 ++ lo.2) ->
  node_Properties s = Some p -> node_Properties o = Some q ->
  exists m' s' l', Node_Merge g m s o = Done (m', s') /\
    node_shows m' s' l' /\ separate m' s' o lo /\ lists_ok l' /\
    (forall k, k ∈ l'.1.1 <-> (k ∈ l.1.1 \/ k ∈ lo.1.1) /\ k ∉ lo.2) /\
    (forall db k, kinds_after l' db k <-> kinds_after lo (kinds_after l db) k) /\
    node_Properties s' = Some (Properties_Merge_body p q) /\ node_ID s' = node_ID s.
Proof.
  intros Hs Hsep Hl Hlo [H1 [H2 H3]%Forall_app]%Forall_app Hp Hq.
  destruct (Node_Merge_steps g m s o l lo (Some (Properties_Merge_body p q)) Hs Hsep H1 H2 H3)
    as (m' & s' & E & Hs' & _ & Hsep' & Hps & Hid); [by rewrite Hp, Hq|].
  exists m', s', (merged l lo). pose proof Hl as [HK HA HD HAD]. pose proof Hlo as [HKo HAo HDo HADo].
  split_and!; [done..|by apply merged_ok| | |done|done].
  - intros k. cbn [merged fst snd]. rewrite elem_of_remove_all by by apply NoDup_kinds_add.
    by rewrite elem_of_kinds_add.
  - intros db k. unfold kinds_after. cbn [merged fst snd].
    rewrite !elem_of_kinds_add, !elem_of_remove_all by done.
    destruct (decide (k ∈ lo.1.2)), (decide (k ∈ lo.2)); tauto.
Qed.

Lemma Node_Merge_composes_witness :
  let m := mkMem {[ 1 := [Some "A"; Some "B"]; 2 := [Some "B"; Some "C"]; 3 := [Some "C"]; 4 := [Some "A"] ]} 5 in
  let s := mkNode 1 (mkSlice 1 2) nilKinds nilKinds (Some NewProperties) in
  let o := mkNode 1 (mkSlice 2 2) (mkSlice 3 1) (mkSlice 4 1) (Some NewProperties) in
  exists m' s' l', Node_Merge (fun _ n => n) m s o = Done (m', s') /\ node_shows m' s' l' /\
    forall k, k ∈ l'.1.1 <-> (k ∈ [Some "A"; Some "B"] \/ k ∈ [Some "B"; Some "C"]) /\ k ∉ [Some "A"].
Proof.
  intros m s o.
  destruct (Node_Merge_composes (fun _ n => n) m s o ([Some "A"; Some "B"], [], [])
    ([Some "B"; Some "C"], [Some "C"], [Some "A"]) NewProperties NewProperties)
    as (m' & s' & l' & E & Hs' & _ & _ & Hk & _).
  - split; simpl; try (by apply mem_ok_check);
      try (split; [simpl; lia|vm_compute; lia|reflexivity]); unfold apart; simpl; lia.
  - split_and!; (split; [split; [simpl; lia|vm_compute; lia|reflexivity]|unfold apart; simpl; lia..]).
  - split; try (apply (bool_decide_unpack _); vm_compute; exact I). simpl. set_solver.
  - split; try (apply (bool_decide_unpack _); vm_compute; exact I). simpl. set_solver.
  - repeat constructor; by eexists.
  - reflexivity.
  - reflexivity.
  - by exists m', s', l'.
Defined.

(** ** Stripping and serialisation *)

(** What the stripped bag holds once the keys [seen] have been handled. *)
Definition strips (old : Properties) (seen : list string) (p : Properties) : Prop :=
  (forall k, props p !! k = if decide (k ∈ seen) then props old !! k else None) /\
  (forall k, k ∈ modified p <-> k ∈ seen /\ k ∈ dom (props old)) /\
  (forall k, k ∈ deleted p <-> k ∈ seen /\ k ∈ deleted old).

Lemma Exists_dom p k : Properties_Exists p k = bool_decide (k ∈ dom (props p)).
Proof.
  unfold Properties_Exists, props. destruct (Map p) as [m|]; simpl.
  - apply bool_decide_ext. by rewrite elem_of_dom.
  - by rewrite bool_decide_eq_false_2 by set_solver.
Qed.

Lemma Get_value p k : value (Properties_Get p k) = map_read (props p) k.
Proof. unfold Properties_Get, props. by destruct (Map p). Qed.

Lemma strips_turn old seen p x :
  deleted old ## dom (props old) -> strips old seen p ->
  strips old (x :: seen) (strip_turn old p x).
Proof.
  intros Hd (HP & HM & HD). unfold strip_turn. rewrite Exists_dom.
  unfold safePropertyValue_Any. rewrite Get_value.
  destruct (decide (x ∈ dom (props old))) as [Hx|Hx].
  - rewrite bool_decide_eq_true_2, decide_False by set_solver.
    apply elem_of_dom in Hx as Hv. destruct Hv as [v Hv].
    split_and!; intros k; autorewrite with props.
    + rewrite lookup_insert. destruct (decide (x = k)) as [<-|Hne].
      * rewrite decide_True by set_solver. unfold map_read. by rewrite Hv.
      * rewrite HP. apply decide_ext. set_solver.
    + rewrite elem_of_union, HM. set_solver.
    + rewrite elem_of_difference, HD. set_solver.
  - rewrite bool_decide_eq_false_2 by done. apply not_elem_of_dom in Hx as Hn.
    destruct (decide (x ∈ deleted old)) as [Hxd|Hxd]; split_and!; intros k; autorewrite with props.
    + rewrite lookup_delete. destruct (decide (x = k)) as [<-|Hne]; [by case_decide|].
      rewrite HP. apply decide_ext. set_solver.
    + rewrite elem_of_difference, HM. set_solver.
    + rewrite elem_of_union, HD. set_solver.
    + rewrite HP. destruct (decide (k = x)) as [->|Hne]; [by repeat case_decide|].
      apply decide_ext. set_solver.
    + rewrite HM. set_solver.
    + rewrite HD. set_solver.
Qed.

Lemma strips_fold old except : forall seen p,
  deleted old ## dom (props old) -> strips old seen p ->
  strips old (reverse except ++ seen) (foldl (strip_turn old) p except).
Proof.
  induction except as [|x except IH]; intros seen p Hd Hp; simpl; [done|].
  rewrite reverse_cons, <- app_assoc. by apply IH, strips_turn.
Qed.

(** Stripping keeps exactly the named changes.  For a node whose bag
    tracks its changes exactly against the stored record [db],
    [StripAllPropertiesExcept] leaves a bag whose changes, written to [db], set
    every named property to the node's value (or remove it, if the node deleted
    it) and leave every other property of [db] alone. *)
Theorem Node_Strip_exact (s : Node) (old : Properties) (except : list string) (db : gmap string any) :
  node_Properties s = Some old -> exact db old ->
  exists p, node_Properties (Node_StripAllPropertiesExcept s except) = Some p /\ tracked p /\
    forall k, apply_changes p db !! k = if decide (k ∈ except) then props old !! k else db !! k.
Proof.
  intros Hs ([Hv Ha] & Hd & Happ). unfold Node_StripAllPropertiesExcept. rewrite Hs.
  eexists. split; [done|].
  assert (Hnew : strips old [] NewProperties).
  { split_and!; intros k; unfold modified, deleted, props; simpl; set_solver. }
  destruct (strips_fold old except [] NewProperties Hd Hnew) as (HP & HM & HD).
  rewrite app_nil_r in *. set (p := foldl _ _ _) in *. split; [split|].
  - intros k [Hk Hdom]%HM. apply elem_of_dom. rewrite HP, decide_True by done. by apply elem_of_dom.
  - intros k [_ Hk]%HM [_ Hk']%HD. set_solver.
  - intros k. rewrite apply_changes_lookup. unfold map_read. rewrite HP.
    apply (f_equal (.!! k)) in Happ. rewrite apply_changes_lookup in Happ.
    assert (Hin : k ∈ reverse except <-> k ∈ except) by (by rewrite elem_of_reverse).
    destruct (decide (k ∈ except)) as [Hk|Hk].
    + rewrite (decide_True (P := k ∈ reverse except)) by tauto.
      destruct (decide (k ∈ deleted p)) as [Hkd|Hkd].
      * rewrite <- Happ. rewrite decide_True by by apply HD. done.
      * assert (Hnd : k ∉ deleted old) by (intros H; apply Hkd, HD; tauto).
        rewrite decide_False in Happ by done.
        destruct (decide (k ∈ modified p)) as [Hm|Hm].
        -- apply HM in Hm as [_ Hm]. apply elem_of_dom in Hm as [v ->]. done.
        -- assert (Hnm : props old !! k = None) by (apply not_elem_of_dom; intros H; apply Hm, HM; tauto).
           rewrite decide_False in Happ; [congruence|]. intros H. apply Hv, elem_of_dom in H.
           destruct H. congruence.
    + rewrite !decide_False; [done|rewrite HM; tauto|rewrite HD; tauto].
Qed.

Lemma Node_Strip_exact_witness :
  let db : gmap string any := {[ "a" := Str "1"; "b" := Str "2" ]} in
  let s := mkNode 1 nilKinds nilKinds nilKinds
             (Some (Properties_Delete (Properties_Set (AsProperties (Some db)) "c" (Str "3")) "a")) in
  exists p, node_Properties (Node_StripAllPropertiesExcept s ["a"; "b"]) = Some p /\ tracked p.
Proof.
  intros db s.
  destruct (Node_Strip_exact s _ ["a"; "b"] db eq_refl) as (p & Hp & Ht & _); [|by exists p].
  apply exact_Delete, exact_Set, (exact_AsProperties (Some db)).
Defined.

(** A node written by [MarshalJSON] and read back by [UnmarshalJSON] shows the
    same kinds, added kinds and deleted kinds, in slices of its own. *)
Lemma Marshal_unmarshal m n K A D :
  node_rep m n (Some <$> K) (Some <$> A) (Some <$> D) ->
  exists v, Node_MarshalJSON m n = Done v /\
    let '(m', n') := unmarshal_node m v in
    node_rep m' n' (Some <$> K) (Some <$> A) (Some <$> D) /\ node_ID n' = node_ID n /\
    node_Properties n' = node_Properties n.
Proof.
  intros [Hm HK HA HD _ _ _]. unfold Node_MarshalJSON.
  rewrite (rep_view _ _ _ HK), (rep_view _ _ _ HA), (rep_view _ _ _ HD), !Kinds_Strings_Some.
  eexists. split; [done|]. unfold unmarshal_node. cbn [ser_Kinds ser_AddedKinds ser_DeletedKinds].
  destruct (literal_rep m (Some <$> K) Hm) as (Hm1 & R1 & F1).
  destruct (literal m (Some <$> K)) as [m1 s1]. cbn [fst snd] in *.
  destruct (literal_rep m1 (Some <$> A) Hm1) as (Hm2 & R2 & F2).
  destruct (literal m1 (Some <$> A)) as [m2 s2]. cbn [fst snd] in *.
  destruct (literal_rep m2 (Some <$> D) Hm2) as (Hm3 & R3 & F3).
  destruct (literal m2 (Some <$> D)) as [m3 s3]. cbn [fst snd] in *.
  destruct (F2 _ _ R1) as [R1' Ap1]. destruct (F3 _ _ R1') as [R1'' Ap2]. destruct (F3 _ _ R2) as [R2' Ap3].
  split; [|done]. by split.
Qed.
