(* ===== verification/NodeSets.v ===== *)
(** * Node sets and kind indexes (graph/node.go, graph/types.go, graph/util.go)

    [NodeSet] maps IDs to nodes; [NodeKindSet] and [KindBitmaps] index nodes
    by the names of their kinds.  The set operations only read a node's [ID]
    and [Kinds], so they run under a fixed memory [m] of kind arrays.  A range
    over a Go map runs over [map_to_list]; the theorems give closed forms, in
    which no iteration order is left.

    [KindIndex] is what both indexes promise; the theorems about indexing a
    collection of nodes are proved once, against it. *)

From S2P Require Import Prelude Bitmap Kinds Mapper Properties Nodes.

(** ** NodeSet *)

Notation NodeSet := (gmap Z Node).
Notation NodeKindSet := (gmap string NodeSet).
Notation KindBitmaps B := (gmap string (Duplex B)).

Definition EmptyNodeSet : NodeSet := ∅.

Definition NodeSet_Pick (s : NodeSet) : option Node := snd <$> head (map_to_list s).
Definition NodeSet_Remove (s : NodeSet) (id : Z) : NodeSet := delete id s.
Definition NodeSet_Get (s : NodeSet) (id : Z) : option Node := s !! id.
Definition NodeSet_Len (s : NodeSet) : nat := size s.
Definition NodeSet_ContainsID (s : NodeSet) (id : Z) : bool := bool_decide (is_Some (s !! id)).
Definition NodeSet_Contains (s : NodeSet) (node : Node) : bool := NodeSet_ContainsID s (node_ID node).

Definition NodeSet_Add (s : NodeSet) (nodes : list Node) : NodeSet :=
  foldl (fun s node => <[node_ID node := node]> s) s nodes.

Definition NodeSet_AddIfNotExists (s : NodeSet) (node : Node) : NodeSet * bool :=
  match s !! node_ID node with
  | Some _ => (s, false)
  | None => (<[node_ID node := node]> s, true)
  end.

Definition NodeSet_AddSet (s set : NodeSet) : NodeSet :=
  foldl (fun s '(k, v) => <[k := v]> s) s (map_to_list set).

Definition NodeSet_Copy (s : NodeSet) : NodeSet :=
  foldl (fun s '(k, v) => <[k := v]> s) ∅ (map_to_list s).

Definition NodeSet_Slice (s : NodeSet) : list Node := (map_to_list s).*2.
Definition NodeSet_IDs (s : NodeSet) : list Z := node_ID <$> NodeSet_Slice s.

Definition NewNodeSet (nodes : list Node) : NodeSet :=
  foldl (fun s node => <[node_ID node := node]> s) ∅ nodes.

Definition MergeNodeSets (sets : list NodeSet) : NodeSet := foldl NodeSet_AddSet ∅ sets.

(** *** ID slices *)

Definition ID_Uint64 (id : Z) : Z := wrap tuint64 id.
Definition ID_Uint32 (id : Z) : Z := wrap tuint32 id.
Definition ID_Int64 (id : Z) : Z := wrap tint64 id.

Definition Uint32SliceToIDs (raw : list Z) : list Z := wrap tID <$> raw.
Definition Uint64SliceToIDs (raw : list Z) : list Z := wrap tID <$> raw.
Definition IDsToUint32Slice (ids : list Z) : list Z := ID_Uint32 <$> ids.
Definition IDsToUint64Slice (ids : list Z) : list Z := ID_Uint64 <$> ids.
Definition CopyIDSlice (ids : list Z) : list Z := ids.

(** [sort.Slice] by the signed value. *)
Definition id_le (i j : Z) : Prop := (ID_Int64 i <= ID_Int64 j)%Z.
#[export] Instance id_le_dec : RelDecision id_le.
Proof. intros i j. unfold id_le. apply _. Defined.

Definition SortIDSlice (ids : list Z) : list Z := merge_sort id_le ids.

(** The slots of [results] are [Get]'s answers, nil for a missing ID. *)
Definition SortNodeSetById (set : NodeSet) : list (option Node) :=
  NodeSet_Get set <$> SortIDSlice (NodeSet_IDs set).

(** [nodes[skip:skip+limit]] panics out of range; [NewNodeSet] dereferences. *)
Definition SortAndSliceNodeSet (set : NodeSet) (skip limit : Z) : outcome NodeSet :=
  let nodes := SortNodeSetById set in
  let n := Z.of_nat (length nodes) in
  chosen ← (if decide (skip = 0 /\ limit = 0)%Z then Done nodes
            else if decide (limit = 0)%Z then slice_sub nodes skip n
            else if decide (skip = 0)%Z then slice_sub nodes 0 limit
            else slice_sub nodes skip (skip + limit));
  match mapM id chosen with
  | Some ns => Done (NewNodeSet ns)
  | None => Panic
  end.

Section with_memory.

Variable m : Mem.

Definition kinds_of (n : Node) : list Kind := view m (node_Kinds n).

Fixpoint ContainingNodeKinds_loop (kinds : list Kind) (nodes : list Node) (newNodeSet : NodeSet)
    : outcome NodeSet :=
  match nodes with
  | [] => Done newNodeSet
  | node :: nodes' =>
      has ← Kinds_ContainsOneOf (kinds_of node) kinds;
      ContainingNodeKinds_loop kinds nodes'
        (if has : bool then NodeSet_Add newNodeSet [node] else newNodeSet)
  end.

Definition NodeSet_ContainingNodeKinds (s : NodeSet) (kinds : list Kind) : outcome NodeSet :=
  ContainingNodeKinds_loop kinds (NodeSet_Slice s) EmptyNodeSet.

(** ** NodeKindSet *)

Fixpoint addNode_loop (s : NodeKindSet) (node : Node) (kinds : list Kind) : outcome NodeKindSet :=
  match kinds with
  | [] => Done s
  | nodeKind :: kinds' =>
      str ← Kind_String nodeKind;
      addNode_loop
        (match s !! str with
         | None => <[str := {[node_ID node := node]}]> s
         | Some existingNodeSet => <[str := NodeSet_Add existingNodeSet [node]]> s
         end) node kinds'
  end.

Definition addNode (s : NodeKindSet) (node : Node) : outcome NodeKindSet :=
  addNode_loop s node (kinds_of node).

Fixpoint NodeKindSet_Add (s : NodeKindSet) (nodes : list Node) : outcome NodeKindSet :=
  match nodes with [] => Done s | node :: nodes' => s' ← addNode s node; NodeKindSet_Add s' nodes' end.

Fixpoint NodeKindSet_AddSets (s : NodeKindSet) (nodeSets : list NodeSet) : outcome NodeKindSet :=
  match nodeSets with
  | [] => Done s
  | nodeSet :: rest => s' ← NodeKindSet_Add s (NodeSet_Slice nodeSet); NodeKindSet_AddSets s' rest
  end.

Definition NodeKindSet_AddKindSet (s set : NodeKindSet) : outcome NodeKindSet :=
  NodeKindSet_AddSets s (map_to_list set).*2.

Definition NewNodeKindSet (nodeSets : list NodeSet) : outcome NodeKindSet :=
  NodeKindSet_AddSets ∅ nodeSets.

Definition NodeKindSet_Copy (s : NodeKindSet) : outcome NodeKindSet :=
  NodeKindSet_AddKindSet ∅ s.

Definition NodeSet_KindSet (s : NodeSet) : outcome NodeKindSet :=
  NodeKindSet_Add ∅ (NodeSet_Slice s).

Fixpoint NodeKindSet_GetCombined_loop (s : NodeKindSet) (kinds : list Kind) (combinedSet : NodeSet)
    : outcome NodeSet :=
  match kinds with
  | [] => Done combinedSet
  | kind :: kinds' =>
      str ← Kind_String kind;
      NodeKindSet_GetCombined_loop s kinds'
        (match s !! str with Some set => NodeSet_AddSet combinedSet set | None => combinedSet end)
  end.

Definition NodeKindSet_GetCombined (s : NodeKindSet) (kinds : list Kind) : outcome NodeSet :=
  NodeKindSet_GetCombined_loop s kinds EmptyNodeSet.

Definition NodeKindSet_Get (s : NodeKindSet) (kind : Kind) : outcome NodeSet :=
  str ← Kind_String kind;
  Done (match s !! str with Some set => set | None => EmptyNodeSet end).

(** The first set, in iteration order, that has the node. *)
Fixpoint GetNode_loop (sets : list NodeSet) (id : Z) : option Node :=
  match sets with
  | [] => None
  | set :: sets' => match NodeSet_Get set id with Some n => Some n | None => GetNode_loop sets' id end
  end.

Definition NodeKindSet_GetNode (s : NodeKindSet) (id : Z) : option Node :=
  GetNode_loop (map_to_list s).*2 id.

Definition NodeKindSet_AllNodes (s : NodeKindSet) : NodeSet :=
  foldl NodeSet_AddSet EmptyNodeSet (map_to_list s).*2.

Definition NodeKindSet_RemoveNode (s : NodeKindSet) (id : Z) : NodeKindSet :=
  (fun nodeSet => NodeSet_Remove nodeSet id) <$> s.

(** Every node of every inner set, in iteration order. *)
Definition entries (s : NodeKindSet) : list Node := set ← (map_to_list s).*2; NodeSet_Slice set.

Section bitmaps.
Context {B : Type} `{HB : Roaring B}.

Definition NodeSet_IDBitmap (s : NodeSet) : B :=
  foldl (fun bitmap id => bitmap64_Add [ID_Uint64 id] bitmap) NewBitmap64 (map_to_list s).*1.

Definition NodeSetToBitmap (s : NodeSet) : B :=
  foldl (fun bitmap node => bitmap64_Add [ID_Uint64 (node_ID node)] bitmap) NewBitmap64 (NodeSet_Slice s).

Definition NodeSetToDuplex (s : NodeSet) : Duplex B := Bitmap64 (NodeSet_IDBitmap s).

Definition NodeIDsToDuplex (nodeIDs : list Z) : Duplex B :=
  Bitmap64 (foldl (fun d id => bitmap64_Add [ID_Uint64 id] d) NewBitmap64 nodeIDs).

Definition DuplexToGraphIDs (provider : Duplex B) : list Z :=
  Duplex_Each (fun value ids => (ids ++ [wrap tID value], true)) provider [].

(** [EachNode]: an error of the delegate ends the iteration. *)
Fixpoint EachNode_loop {St E} (delegate : Node -> St -> St * option E) (visitedIDs : B) (nodes : list Node) (st : St)
    : St * option E :=
  match nodes with
  | [] => (st, None)
  | node :: nodes' =>
      if bitmap64_Contains (ID_Uint64 (node_ID node)) visitedIDs then EachNode_loop delegate visitedIDs nodes' st
      else match delegate node st with
           | (st', Some err) => (st', Some err)
           | (st', None) => EachNode_loop delegate (bitmap64_Add [ID_Uint64 (node_ID node)] visitedIDs) nodes' st'
           end
  end.

Definition NodeKindSet_EachNode {St E} (delegate : Node -> St -> St * option E) (s : NodeKindSet) (st : St)
    : St * option E :=
  EachNode_loop delegate NewBitmap64 (entries s) st.

Definition ids_bitmap (nodes : list Node) : B :=
  foldl (fun bitmap node => bitmap64_Add [ID_Uint64 (node_ID node)] bitmap) NewBitmap64 nodes.

Definition NodeKindSet_AllNodeIDs (s : NodeKindSet) : list Z :=
  wrap tID <$> bitmap64_Slice (ids_bitmap (entries s)).

Definition NodeKindSet_CountAll (s : NodeKindSet) : Z :=
  wrap tint64 (bitmap64_Cardinality (ids_bitmap (entries s))).

Fixpoint Count_loop (s : NodeKindSet) (kinds : list Kind) (bitmap : B) : outcome B :=
  match kinds with
  | [] => Done bitmap
  | kind :: kinds' =>
      str ← Kind_String kind;
      Count_loop s kinds'
        (match s !! str with
         | Some set => foldl (fun b node => bitmap64_Add [ID_Uint64 (node_ID node)] b) bitmap (NodeSet_Slice set)
         | None => bitmap
         end)
  end.

Definition NodeKindSet_Count (s : NodeKindSet) (kinds : list Kind) : outcome Z :=
  bitmap ← Count_loop s kinds NewBitmap64;
  Done (wrap tint64 (bitmap64_Cardinality bitmap)).

(** ** KindBitmaps *)

Definition add_to (s : KindBitmaps B) (kindStr : string) (id : Z) : KindBitmaps B :=
  match s !! kindStr with
  | None => <[kindStr := Bitmap64 (bitmap64_Add [id] NewBitmap64)]> s
  | Some bitmap => <[kindStr := Duplex_Add [id] bitmap]> s
  end.

Definition or_to (s : KindBitmaps B) (kindStr : string) (ids : Duplex B) : KindBitmaps B :=
  match s !! kindStr with
  | None => <[kindStr := Bitmap64 (bitmap64_Or NewBitmap64 ids)]> s
  | Some bitmap => <[kindStr := Duplex_Or ids bitmap]> s
  end.

Definition KindBitmaps_AddIDToKind (s : KindBitmaps B) (id : Z) (kind : Kind) : outcome (KindBitmaps B) :=
  kindStr ← Kind_String kind; Done (add_to s kindStr (ID_Uint64 id)).

Fixpoint KindBitmaps_AddIDToKinds (s : KindBitmaps B) (id : Z) (kinds : list Kind) : outcome (KindBitmaps B) :=
  match kinds with
  | [] => Done s
  | kind :: kinds' =>
      kindStr ← Kind_String kind;
      KindBitmaps_AddIDToKinds (add_to s kindStr (ID_Uint64 id)) id kinds'
  end.

Definition KindBitmaps_AddDuplexToKind (s : KindBitmaps B) (ids : Duplex B) (kind : Kind) : outcome (KindBitmaps B) :=
  kindStr ← Kind_String kind; Done (or_to s kindStr ids).

Fixpoint KindBitmaps_AddNodes (s : KindBitmaps B) (nodes : list Node) : outcome (KindBitmaps B) :=
  match nodes with
  | [] => Done s
  | node :: nodes' =>
      s' ← KindBitmaps_AddIDToKinds s (node_ID node) (kinds_of node); KindBitmaps_AddNodes s' nodes'
  end.

Fixpoint KindBitmaps_AddSets (s : KindBitmaps B) (nodeSets : list NodeSet) : outcome (KindBitmaps B) :=
  match nodeSets with
  | [] => Done s
  | nodeSet :: rest => s' ← KindBitmaps_AddNodes s (NodeSet_Slice nodeSet); KindBitmaps_AddSets s' rest
  end.

Definition KindBitmaps_Or (s bitmaps : KindBitmaps B) : KindBitmaps B :=
  foldl (fun s '(kindStr, leftBitmap) => or_to s kindStr leftBitmap) s (map_to_list bitmaps).

Definition KindBitmaps_OrAll (s : KindBitmaps B) : B :=
  foldl bitmap64_Or NewBitmap64 (map_to_list s).*2.

Fixpoint Get_loop (s : KindBitmaps B) (kinds : list Kind) (bitmap : B) : outcome B :=
  match kinds with
  | [] => Done bitmap
  | kind :: kinds' =>
      str ← Kind_String kind;
      Get_loop s kinds' (match s !! str with Some b => bitmap64_Or bitmap b | None => bitmap end)
  end.

Definition KindBitmaps_Get (s : KindBitmaps B) (kinds : list Kind) : outcome B :=
  if decide (length kinds = 0) then Done (KindBitmaps_OrAll s) else Get_loop s kinds NewBitmap64.

Definition KindBitmaps_Count (s : KindBitmaps B) (kinds : list Kind) : outcome Z :=
  b ← KindBitmaps_Get s kinds; Done (bitmap64_Cardinality b).

Definition KindBitmaps_Contains (s : KindBitmaps B) (node : Node) : bool :=
  existsb (Duplex_Contains (ID_Uint64 (node_ID node))) (map_to_list s).*2.

(** [ThreadSafeKindBitmap]: the operations of its own, each under the lock. *)
Definition ThreadSafeKindBitmap_Get := KindBitmaps_Get.
Definition ThreadSafeKindBitmap_Cardinality := KindBitmaps_Count.

Definition ThreadSafeKindBitmap_Or (s : KindBitmaps B) (kind : Kind) (other : Duplex B) : outcome (KindBitmaps B) :=
  str ← Kind_String kind;
  Done (match s !! str with
        | Some kindBitmap => <[str := Duplex_Or other kindBitmap]> s
        | None => <[str := Duplex_Clone other]> s
        end).

Definition ThreadSafeKindBitmap_Clone (s : KindBitmaps B) : KindBitmaps B :=
  foldl (fun clone '(kind, kindBitmap) => <[kind := Duplex_Clone kindBitmap]> clone) ∅ (map_to_list s).

Definition ThreadSafeKindBitmap_Contains (s : KindBitmaps B) (kind : Kind) (value : Z) : outcome bool :=
  str ← Kind_String kind;
  Done (match s !! str with Some b => Duplex_Contains value b | None => false end).

Definition ThreadSafeKindBitmap_Add (s : KindBitmaps B) (kind : Kind) (value : Z) : outcome (KindBitmaps B) :=
  str ← Kind_String kind;
  Done (match s !! str with
        | Some kindBitmap => <[str := Duplex_Add [value] kindBitmap]> s
        | None => <[str := Bitmap64 (NewBitmap64With [value])]> s
        end).

Definition ThreadSafeKindBitmap_CheckedAdd (s : KindBitmaps B) (kind : Kind) (value : Z)
    : outcome (KindBitmaps B * bool) :=
  str ← Kind_String kind;
  Done (match s !! str with
        | Some kindBitmap => let '(b, added) := Duplex_CheckedAdd value kindBitmap in (<[str := b]> s, added)
        | None => (<[str := Bitmap64 (NewBitmap64With [value])]> s, true)
        end).

End bitmaps.
End with_memory.


(** ** What an index promises *)

Section index.

Context (m : Mem).

(** A node that can be indexed: its ID is a [uint64] and no kind is nil. *)
Definition fit (n : Node) : Prop := in_range tID (node_ID n) /\ Forall nonnil (kinds_of m n).

#[export] Instance fit_dec n : Decision (fit n).
Proof. unfold fit, nonnil. apply _. Defined.

Class KindIndex (S : Type) := {
  ki_empty : S;
  ki_add : S -> Node -> outcome S;
  ki_has : S -> string -> Z -> Prop
}.

Class KindIndexLaws (S : Type) `{KindIndex S} : Prop := {
  ki_has_empty k i : ~ ki_has ki_empty k i;
  ki_add_has s n : fit n -> exists s', ki_add s n = Done s' /\
    forall k i, ki_has s' k i <-> ki_has s k i \/ (i = node_ID n /\ Some k ∈ kinds_of m n)
}.

Fixpoint ki_add_all {S} `{KindIndex S} (s : S) (nodes : list Node) : outcome S :=
  match nodes with [] => Done s | n :: nodes' => s' ← ki_add s n; ki_add_all s' nodes' end.

Lemma ki_add_all_has {S} `{KindIndexLaws S} nodes : forall s,
  Forall fit nodes ->
  exists s', ki_add_all s nodes = Done s' /\
    forall k i, ki_has s' k i <-> ki_has s k i \/ exists n, n ∈ nodes /\ i = node_ID n /\ Some k ∈ kinds_of m n.
Proof.
  induction nodes as [|n nodes IH]; intros s Hfit; simpl.
  { exists s. split; [done|]. set_solver. }
  apply Forall_cons in Hfit as [Hn Hfit]. destruct (ki_add_has s n Hn) as (s1 & E1 & H1).
  rewrite E1. simpl. destruct (IH s1 Hfit) as (s' & E & H'). exists s'. split; [done|].
  intros k i. rewrite H', H1. set_solver.
Qed.

(** The index holds exactly [nodes]. *)
Definition indexes {S} `{KindIndex S} (s : S) (nodes : list Node) : Prop :=
  forall k i, ki_has s k i <-> exists n, n ∈ nodes /\ i = node_ID n /\ Some k ∈ kinds_of m n.

Lemma ki_add_all_indexes {S} `{KindIndexLaws S} nodes :
  Forall fit nodes -> exists s, ki_add_all ki_empty nodes = Done s /\ indexes s nodes.
Proof.
  intros Hfit. destruct (ki_add_all_has nodes ki_empty Hfit) as (s & E & Hs). exists s.
  split; [done|]. intros k i. rewrite Hs. pose proof (ki_has_empty k i). tauto.
Qed.

(** *** NodeKindSet *)

#[export] Instance NodeKindSet_index : KindIndex NodeKindSet := {
  ki_empty := ∅;
  ki_add s n := addNode m s n;
  ki_has s k i := exists set, s !! k = Some set /\ is_Some (set !! i)
}.

Lemma NodeKindSet_has_insert (s : NodeKindSet) str set k i :
  ki_has (<[str := set]> s) k i <-> (str = k /\ is_Some (set !! i)) \/ (str <> k /\ ki_has s k i).
Proof.
  simpl. destruct (decide (str = k)) as [<-|Hne].
  - split; [intros (? & Hs & Hi); rewrite lookup_insert_eq in Hs; simplify_eq; by left|].
    intros [[_ Hi]|[? _]]; [|done]. exists set. by rewrite lookup_insert_eq.
  - split; [intros (? & Hs & Hi); rewrite lookup_insert_ne in Hs by done; right; eauto|].
    intros [[? _]|[_ (? & Hs & Hi)]]; [done|]. exists x. by rewrite lookup_insert_ne.
Qed.

Lemma addNode_loop_has node kinds : forall s,
  Forall nonnil kinds ->
  exists s', addNode_loop s node kinds = Done s' /\
    forall k i, ki_has s' k i <-> ki_has s k i \/ (i = node_ID node /\ Some k ∈ kinds).
Proof.
  induction kinds as [|kd kinds IH]; intros s Hk; cbn [addNode_loop].
  { exists s. split; [done|]. set_solver. }
  apply Forall_cons in Hk as [[str ->] Hk]. cbn [Kind_String mbind outcome_bind].
  set (s1 := match s !! str with None => _ | Some _ => _ end).
  assert (H1 : forall k i, ki_has s1 k i <-> ki_has s k i \/ (i = node_ID node /\ k = str)).
  { intros k i. subst s1. destruct (s !! str) as [set|] eqn:E; rewrite NodeKindSet_has_insert.
    - unfold NodeSet_Add. cbn [foldl]. rewrite lookup_insert_is_Some.
      destruct (decide (str = k)) as [<-|Hne]; [|simpl; naive_solver].
      assert (Hh : ki_has s str i <-> is_Some (set !! i)) by (simpl; rewrite E; naive_solver).
      rewrite Hh. destruct (decide (node_ID node = i)); naive_solver.
    - rewrite lookup_singleton_is_Some.
      destruct (decide (str = k)) as [<-|Hne]; [|naive_solver].
      assert (Hh : ~ ki_has s str i) by (simpl; rewrite E; naive_solver). naive_solver. }
  destruct (IH s1 Hk) as (s' & E & H'). exists s'. split; [done|].
  intros k i. rewrite H', H1. set_solver.
Qed.

#[export] Instance NodeKindSet_laws : KindIndexLaws NodeKindSet.
Proof.
  split.
  - intros k i (set & Hset & _). simpl in Hset. by rewrite lookup_empty in Hset.
  - intros s n [_ Hk]. apply addNode_loop_has, Hk.
Qed.

Lemma NodeKindSet_Add_all s nodes : NodeKindSet_Add m s nodes = ki_add_all s nodes.
Proof.
  revert s. induction nodes as [|n nodes IH]; intros s; [done|]. simpl.
  destruct (addNode m s n); simpl; auto.
Qed.

Lemma ki_add_all_app {S} `{KindIndex S} l1 l2 : forall s,
  ki_add_all s (l1 ++ l2) = (s' ← ki_add_all s l1; ki_add_all s' l2).
Proof.
  induction l1 as [|n l1 IH]; intros s; [done|]. simpl. destruct (ki_add s n); simpl; auto.
Qed.

(** The nodes of a list of sets, in iteration order. *)
Definition all_nodes (nodeSets : list NodeSet) : list Node := set ← nodeSets; NodeSet_Slice set.

Lemma NodeKindSet_AddSets_all nodeSets : forall s,
  NodeKindSet_AddSets m s nodeSets = ki_add_all s (all_nodes nodeSets).
Proof.
  induction nodeSets as [|set nodeSets IH]; intros s; [done|].
  unfold all_nodes. rewrite bind_cons, ki_add_all_app. simpl. rewrite NodeKindSet_Add_all.
  destruct (ki_add_all s (NodeSet_Slice set)); simpl; auto.
Qed.
End index.

(** *** Membership in updated duplexes *)

Section duplexes.
Context {B : Type} `{HB : Roaring B} `{HL : !RoaringLaws B}.

Lemma Duplex_set_update (f : B -> B) (F : gset Z -> gset Z) d :
  (forall b, bset (f b) = F (bset b)) -> Duplex_set (Duplex_update f d) = F (Duplex_set d).
Proof. intros Hf. induction d; simpl; auto. Qed.

Lemma Duplex_set_Add l d : Duplex_set (Duplex_Add l d) = list_to_set l ∪ Duplex_set d.
Proof. apply (Duplex_set_update _ (fun s => list_to_set l ∪ s)). intros. apply bset_Add. Qed.

Lemma Duplex_set_Or o d : Duplex_set (Duplex_Or o d) = Duplex_set d ∪ Duplex_set o.
Proof. apply (Duplex_set_update _ (fun s => s ∪ Duplex_set o)). intros. apply bset_Or. Qed.

Lemma Duplex_set_Clone d : Duplex_set (Duplex_Clone d) = Duplex_set d.
Proof. induction d as [b|p IH]; simpl; [|done]. unfold bitmap64_Clone. by rewrite law_Clone. Qed.
End duplexes.

Section bitmap_index.
Context (m : Mem) {B : Type} `{HB : Roaring B} `{HL : !RoaringLaws B}.

#[export] Instance KindBitmaps_index : KindIndex (KindBitmaps B) := {
  ki_empty := ∅;
  ki_add s n := KindBitmaps_AddIDToKinds s (node_ID n) (kinds_of m n);
  ki_has s k i := exists d, s !! k = Some d /\ i ∈ Duplex_set d
}.

Lemma KindBitmaps_has_insert (s : KindBitmaps B) str d k i :
  ki_has (<[str := d]> s) k i <-> (str = k /\ i ∈ Duplex_set d) \/ (str <> k /\ ki_has s k i).
Proof using m.
  simpl. destruct (decide (str = k)) as [<-|Hne].
  - split; [intros (? & Hs & Hi); rewrite lookup_insert_eq in Hs; simplify_eq; by left|].
    intros [[_ Hi]|[? _]]; [|done]. exists d. by rewrite lookup_insert_eq.
  - split; [intros (? & Hs & Hi); rewrite lookup_insert_ne in Hs by done; right; eauto|].
    intros [[? _]|[_ (? & Hs & Hi)]]; [done|]. exists x. by rewrite lookup_insert_ne.
Qed.

(** Both branches of the indexed update add the new members. *)
Lemma add_to_has (s : KindBitmaps B) str x k i :
  ki_has (add_to s str x) k i <-> ki_has s k i \/ (k = str /\ i = x).
Proof using HL.
  unfold add_to. destruct (s !! str) as [d|] eqn:E; rewrite KindBitmaps_has_insert.
  - rewrite Duplex_set_Add. destruct (decide (str = k)) as [<-|Hne]; [|naive_solver].
    assert (Hh : ki_has s str i <-> i ∈ Duplex_set d) by (simpl; rewrite E; naive_solver).
    rewrite Hh. set_solver.
  - cbn [Duplex_set]. rewrite bset_Add, bset_New.
    destruct (decide (str = k)) as [<-|Hne]; [|naive_solver].
    assert (Hh : ~ ki_has s str i) by (simpl; rewrite E; naive_solver). set_solver.
Qed.

Lemma or_to_has (s : KindBitmaps B) str o k i :
  ki_has (or_to s str o) k i <-> ki_has s k i \/ (k = str /\ i ∈ Duplex_set o).
Proof using HL.
  unfold or_to. destruct (s !! str) as [d|] eqn:E; rewrite KindBitmaps_has_insert.
  - rewrite Duplex_set_Or. destruct (decide (str = k)) as [<-|Hne]; [|naive_solver].
    assert (Hh : ki_has s str i <-> i ∈ Duplex_set d) by (simpl; rewrite E; naive_solver).
    rewrite Hh. set_solver.
  - cbn [Duplex_set]. rewrite bset_Or, bset_New.
    destruct (decide (str = k)) as [<-|Hne]; [|naive_solver].
    assert (Hh : ~ ki_has s str i) by (simpl; rewrite E; naive_solver). set_solver.
Qed.

Lemma AddIDToKinds_has id kinds : forall s : KindBitmaps B,
  in_range tID id -> Forall nonnil kinds ->
  exists s', KindBitmaps_AddIDToKinds s id kinds = Done s' /\
    forall k i, ki_has s' k i <-> ki_has s k i \/ (i = id /\ Some k ∈ kinds).
Proof using HL.
  induction kinds as [|kd kinds IH]; intros s Hid Hk; cbn [KindBitmaps_AddIDToKinds].
  { exists s. split; [done|]. set_solver. }
  apply Forall_cons in Hk as [[str ->] Hk]. cbn [Kind_String mbind outcome_bind].
  unfold ID_Uint64. assert (Hw : wrap tuint64 id = id) by (apply wrap_id, Hid). rewrite Hw.
  destruct (IH (add_to s str id) Hid Hk) as (s' & E & H'). exists s'. split; [done|].
  intros k i. rewrite H', add_to_has. set_solver.
Qed.

#[export] Instance KindBitmaps_laws : KindIndexLaws m (KindBitmaps B).
Proof using HL.
  split.
  - intros k i (set & Hset & _). simpl in Hset. by rewrite lookup_empty in Hset.
  - intros s n [Hid Hk]. by apply AddIDToKinds_has.
Qed.

Lemma KindBitmaps_AddNodes_all (s : KindBitmaps B) nodes : KindBitmaps_AddNodes m s nodes = ki_add_all s nodes.
Proof using Type.
  revert s. induction nodes as [|n nodes IH]; intros s; [done|]. simpl.
  destruct (KindBitmaps_AddIDToKinds s (node_ID n) (kinds_of m n)); simpl; auto.
Qed.

Lemma KindBitmaps_AddSets_all nodeSets : forall s : KindBitmaps B,
  KindBitmaps_AddSets m s nodeSets = ki_add_all s (all_nodes nodeSets).
Proof using Type.
  induction nodeSets as [|set nodeSets IH]; intros s; [done|].
  unfold all_nodes. rewrite bind_cons, ki_add_all_app. simpl. rewrite KindBitmaps_AddNodes_all.
  destruct (ki_add_all s (NodeSet_Slice set)); simpl; auto.
Qed.

(** ** Queries *)

Lemma Get_loop_set (s : KindBitmaps B) kinds : forall b,
  Forall nonnil kinds ->
  exists b', Get_loop s kinds b = Done b' /\
    forall i, i ∈ bset b' <-> i ∈ bset b \/ exists k, Some k ∈ kinds /\ ki_has s k i.
Proof using HL.
  induction kinds as [|kd kinds IH]; intros b Hk; cbn [Get_loop].
  { exists b. split; [done|]. set_solver. }
  apply Forall_cons in Hk as [[str ->] Hk]. cbn [Kind_String mbind outcome_bind].
  set (b1 := match s !! str with Some _ => _ | None => _ end).
  assert (H1 : forall i, i ∈ bset b1 <-> i ∈ bset b \/ ki_has s str i).
  { intros i. subst b1. simpl. destruct (s !! str) as [d|]; [rewrite bset_Or|]; set_solver. }
  destruct (IH b1 Hk) as (b' & E & H'). exists b'. split; [done|].
  intros i. rewrite H', H1. set_solver.
Qed.

Lemma OrAll_set (s : KindBitmaps B) i : i ∈ bset (KindBitmaps_OrAll s) <-> exists k, ki_has s k i.
Proof using HL.
  unfold KindBitmaps_OrAll.
  assert (H : forall l (b : B), i ∈ bset (foldl bitmap64_Or b l) <-> i ∈ bset b \/ exists d, d ∈ l /\ i ∈ Duplex_set d).
  { induction l as [|d l IH]; intros b; simpl; [set_solver|]. rewrite IH, bset_Or. set_solver. }
  rewrite H, bset_New. split.
  - intros [?|(d & Hd & Hi)]; [set_solver|]. apply list_elem_of_fmap in Hd as ([k d'] & -> & Hk).
    exists k, d'. split; [by apply elem_of_map_to_list|done].
  - intros (k & d & Hk & Hi). right. exists d. split; [|done].
    apply list_elem_of_fmap. exists (k, d). split; [done|]. by apply elem_of_map_to_list.
Qed.

Lemma KindBitmaps_Get_set (s : KindBitmaps B) kinds :
  Forall nonnil kinds ->
  exists b, KindBitmaps_Get s kinds = Done b /\
    forall i, i ∈ bset b <-> exists k, (kinds = [] \/ Some k ∈ kinds) /\ ki_has s k i.
Proof using HL.
  intros Hk. unfold KindBitmaps_Get. case_decide as Hl.
  - apply nil_length_inv in Hl as ->. exists (KindBitmaps_OrAll s). split; [done|].
    intros i. rewrite OrAll_set. set_solver.
  - destruct (Get_loop_set s kinds NewBitmap64 Hk) as (b & E & H). exists b. split; [done|].
    intros i. rewrite H, bset_New. destruct kinds; [done|]. set_solver.
Qed.

Lemma foldl_ids_bitmap nodes : forall b : B,
  Forall (fun n => in_range tID (node_ID n)) nodes ->
  bset (foldl (fun b node => bitmap64_Add [ID_Uint64 (node_ID node)] b) b nodes)
  = bset b ∪ list_to_set (node_ID <$> nodes).
Proof using HL.
  induction nodes as [|n nodes IH]; intros b Hn; simpl; [set_solver|].
  apply Forall_cons in Hn as [Hid Hn]. rewrite IH, bset_Add by done.
  unfold ID_Uint64. assert (Hw : wrap tuint64 (node_ID n) = node_ID n) by (apply wrap_id, Hid).
  rewrite Hw. set_solver.
Qed.
End bitmap_index.

Section queries.
Context (m : Mem).

(** Every node is filed under its own ID. *)
Definition keyed (set : NodeSet) : Prop := forall i n, set !! i = Some n -> node_ID n = i /\ in_range tID i.
Definition all_keyed (s : NodeKindSet) : Prop := forall k set, s !! k = Some set -> keyed set.

Lemma keyed_insert set n : keyed set -> in_range tID (node_ID n) -> keyed (<[node_ID n := n]> set).
Proof.
  intros Hs Hn i x [[<- <-]|[_ Hx]]%lookup_insert_Some; [done|]. by apply Hs.
Qed.

Lemma addNode_loop_keyed n kinds : forall s s',
  in_range tID (node_ID n) -> all_keyed s -> addNode_loop s n kinds = Done s' -> all_keyed s'.
Proof.
  induction kinds as [|kd kinds IH]; intros s s' Hn Hs; cbn [addNode_loop]; [by intros [= <-]|].
  destruct kd as [str|]; [|done]. cbn [Kind_String mbind outcome_bind]. apply IH; [done|].
  destruct (s !! str) as [set|] eqn:E; intros k x [[<- <-]|[_ Hx]]%lookup_insert_Some; try by eapply Hs.
  - apply keyed_insert; [by eapply Hs|done].
  - rewrite <- insert_empty. apply keyed_insert; [|done]. intros i y Hy. by rewrite lookup_empty in Hy.
Qed.

Lemma ki_add_all_keyed nodes : forall s s' : NodeKindSet,
  Forall (fit m) nodes -> all_keyed s -> @ki_add_all _ (NodeKindSet_index m) s nodes = Done s' -> all_keyed s'.
Proof.
  induction nodes as [|n nodes IH]; intros s s' Hf Hs; simpl; [by intros [= <-]|].
  apply Forall_cons in Hf as [Hn Hf]. destruct (addNode m s n) as [s1| |] eqn:E; simpl; [|done..].
  apply IH; [done|]. eapply addNode_loop_keyed; [apply Hn|exact Hs|exact E].
Qed.

Lemma AddSet_dom (s set : NodeSet) : dom (NodeSet_AddSet s set) = dom s ∪ dom set.
Proof.
  unfold NodeSet_AddSet. rewrite <- (list_to_map_to_list set) at 2.
  generalize (map_to_list set). intros l. revert s.
  induction l as [|[k v] l IH]; intros s; simpl; [set_solver|]. rewrite IH, !dom_insert_L. set_solver.
Qed.

Lemma GetCombined_dom (s : NodeKindSet) kinds :
  Forall nonnil kinds ->
  exists c, NodeKindSet_GetCombined s kinds = Done c /\
    forall i, i ∈ dom c <-> exists k, Some k ∈ kinds /\ @ki_has _ (NodeKindSet_index m) s k i.
Proof.
  intros Hk. unfold NodeKindSet_GetCombined.
  assert (H : forall c0, exists c, NodeKindSet_GetCombined_loop s kinds c0 = Done c /\
    forall i, i ∈ dom c <-> i ∈ dom c0 \/ exists k, Some k ∈ kinds /\ @ki_has _ (NodeKindSet_index m) s k i).
  { induction Hk as [|kd kinds [str ->] _ IH]; intros c0; cbn [NodeKindSet_GetCombined_loop].
    { exists c0. split; [done|]. set_solver. }
    cbn [Kind_String mbind outcome_bind]. set (c1 := match s !! str with Some _ => _ | None => _ end).
    assert (H1 : forall i, i ∈ dom c1 <-> i ∈ dom c0 \/ @ki_has _ (NodeKindSet_index m) s str i).
    { intros i. subst c1. simpl. destruct (s !! str) as [set|]; [|naive_solver].
      rewrite AddSet_dom, elem_of_union, (elem_of_dom set). naive_solver. }
    destruct (IH c1) as (c & E & Hc). exists c. split; [done|].
    intros i. rewrite Hc, H1. set_solver. }
  destruct (H EmptyNodeSet) as (c & E & Hc). exists c. split; [done|].
  intros i. rewrite Hc. unfold EmptyNodeSet. set_solver.
Qed.

Lemma Slice_ids set : keyed set -> list_to_set (node_ID <$> NodeSet_Slice set) =@{gset Z} dom set.
Proof.
  intros Hs. apply set_eq. intros i. rewrite elem_of_list_to_set, list_elem_of_fmap, elem_of_dom.
  unfold NodeSet_Slice. split.
  - intros (n & -> & ([j n'] & -> & Hj%elem_of_map_to_list)%list_elem_of_fmap). simpl.
    destruct (Hs j n' Hj) as [-> _]. by eexists.
  - intros [n Hn]. exists n. destruct (Hs i n Hn) as [<- _]. split; [done|].
    apply list_elem_of_fmap. exists (node_ID n, n). split; [done|]. by apply elem_of_map_to_list.
Qed.

Lemma Slice_in_range set : keyed set -> Forall (fun n => in_range tID (node_ID n)) (NodeSet_Slice set).
Proof.
  intros Hs. apply Forall_forall.
  intros n ([j n'] & -> & Hj%elem_of_map_to_list)%list_elem_of_fmap.
  destruct (Hs j n' Hj) as [<- ?]. done.
Qed.

End queries.

Section counting.
Context (m : Mem) {B : Type} `{HB : Roaring B} `{HL : !RoaringLaws B}.

Lemma Count_loop_set (s : NodeKindSet) kinds : forall b : B,
  all_keyed s -> Forall nonnil kinds ->
  exists b', Count_loop s kinds b = Done b' /\
    forall i, i ∈ bset b' <-> i ∈ bset b \/ exists k, Some k ∈ kinds /\ @ki_has _ (NodeKindSet_index m) s k i.
Proof using HL.
  induction kinds as [|kd kinds IH]; intros b Hs Hk; cbn [Count_loop].
  { exists b. split; [done|]. set_solver. }
  apply Forall_cons in Hk as [[str ->] Hk]. cbn [Kind_String mbind outcome_bind].
  set (b1 := match s !! str with Some _ => _ | None => _ end).
  assert (H1 : forall i, i ∈ bset b1 <-> i ∈ bset b \/ @ki_has _ (NodeKindSet_index m) s str i).
  { intros i. subst b1. simpl. destruct (s !! str) as [set|] eqn:E; [|naive_solver].
    pose proof (Hs _ _ E) as Hset. rewrite foldl_ids_bitmap by by apply Slice_in_range.
    rewrite Slice_ids, elem_of_union, elem_of_dom by done. naive_solver. }
  destruct (IH b1 Hs Hk) as (b' & E & H'). exists b'. split; [done|].
  intros i. rewrite H', H1. set_solver.
Qed.

(** The two kind indexes agree and are exact.  Build a [NodeKindSet] and
    a [KindBitmaps] from the same node sets (64-bit IDs,
    no nil kinds): neither panics, and for every non-empty query
    of kinds, [GetCombined] and [Get] return exactly the IDs of the nodes that
    have one of the kinds, each once, and both [Count]s are the number of
    those nodes. *)
Theorem kind_indexes_agree (nodeSets : list NodeSet) :
  Forall (fit m) (all_nodes nodeSets) ->
  exists (ks : NodeKindSet) (bm : KindBitmaps B),
    NewNodeKindSet m nodeSets = Done ks /\ KindBitmaps_AddSets m ∅ nodeSets = Done bm /\
    forall kinds, Forall nonnil kinds -> kinds <> [] ->
    exists c b, NodeKindSet_GetCombined ks kinds = Done c /\ KindBitmaps_Get bm kinds = Done b /\
      (forall i, i ∈ dom c <-> exists n k, n ∈ all_nodes nodeSets /\ i = node_ID n /\ k ∈ kinds /\ k ∈ kinds_of m n) /\
      bset b = dom c /\ KindBitmaps_Count bm kinds = Done (Z.of_nat (size c)) /\
      ((Z.of_nat (size c) < 2 ^ 63)%Z -> NodeKindSet_Count (B := B) ks kinds = Done (Z.of_nat (size c))).
Proof using HB HL.
  intros Hfit.
  destruct (@ki_add_all_indexes m _ (NodeKindSet_index m) (NodeKindSet_laws m) _ Hfit) as (ks & Eks & Hks).
  destruct (@ki_add_all_indexes m _ (KindBitmaps_index m) (KindBitmaps_laws m) _ Hfit) as (bm & Ebm & Hbm).
  assert (Hkeyed : all_keyed ks).
  { eapply ki_add_all_keyed; [exact Hfit| |exact Eks]. intros k set Hs. simpl in Hs. by rewrite lookup_empty in Hs. }
  exists ks, bm. split_and!.
  { unfold NewNodeKindSet. by rewrite NodeKindSet_AddSets_all. }
  { by rewrite KindBitmaps_AddSets_all. }
  intros kinds Hk Hne. destruct (GetCombined_dom m ks kinds Hk) as (c & Ec & Hc).
  destruct (KindBitmaps_Get_set m bm kinds Hk) as (b & Eb & Hb).
  assert (Hdom : forall i, i ∈ dom c <-> exists n k, n ∈ all_nodes nodeSets /\ i = node_ID n /\ k ∈ kinds /\ k ∈ kinds_of m n).
  { intros i. rewrite Hc. split.
    - intros (k & Hki & (n & Hn & -> & Hkn)%Hks). by exists n, (Some k).
    - intros (n & k & Hn & -> & Hkk & Hkn).
      destruct (proj1 (Forall_forall _ _) Hk k Hkk) as [str ->]. exists str. split; [done|].
      apply Hks. by exists n. }
  assert (Hset : bset b = dom c).
  { apply set_eq. intros i. rewrite Hb, Hc. split; intros (k & Hkk & Hh).
    - destruct Hkk as [?|Hkk]; [done|]. exists k. split; [done|]. by apply Hks, Hbm.
    - exists k. split; [by right|]. by apply Hbm, Hks. }
  exists c, b. split_and!; try done.
  - unfold KindBitmaps_Count. rewrite Eb. simpl. by rewrite Cardinality_size, Hset, size_dom.
  - intros Hlt. unfold NodeKindSet_Count.
    destruct (Count_loop_set ks kinds NewBitmap64 Hkeyed Hk) as (b' & Eb' & Hb').
    rewrite Eb'. simpl. assert (Hs' : bset b' = dom c).
    { apply set_eq. intros i. rewrite Hb', bset_New, Hc. set_solver. }
    rewrite Cardinality_size, Hs', size_dom, wrap_id; [done|]. unfold in_range. simpl. lia.
Qed.
End counting.

Lemma kind_indexes_agree_witness :
  let m := mkMem {[ 1 := [Some "User"; Some "Base"]; 2 := [Some "Group"; Some "Base"] ]} 3 in
  let sets := [ {[ 4%Z := mkNode 4 (mkSlice 1 2) nilKinds nilKinds None;
                   5%Z := mkNode 5 (mkSlice 2 2) nilKinds nilKinds None ]} ] in
  exists ks bm, NewNodeKindSet m sets = Done ks /\ KindBitmaps_AddSets (B := gset Z) m ∅ sets = Done bm /\
    exists b, KindBitmaps_Get bm [Some "Base"; Some "User"] = Done b.
Proof.
  intros m sets.
  destruct (kind_indexes_agree (B := gset Z) m sets) as (ks & bm & Eks & Ebm & Hq).
  - apply (bool_decide_unpack _). vm_compute. exact I.
  - exists ks, bm. split; [done|]. split; [done|].
    destruct (Hq [Some "Base"; Some "User"]) as (c & b & _ & Hb & _); [|done|by exists b].
    repeat constructor; by eexists.
Defined.
