(* ===== verification/IndexedSlice.v ===== *)
(** * IndexedSlice (graph/types.go)

    A map from keys to positions in a slice of values, with a running size.
    It implements a finite map: [denotes] relates the two, every operation is
    shown to commute with it, and a sequence of calls refines the same calls
    on the map.  Slice reads keep their bounds check. *)

From S2P Require Import Prelude.

Section indexed.

Context {K : Type} `{Countable K} {V : Type}.
(** [sizeOf]: the value's own [SizeOf] or the size of its type. *)
Variable sizeOf : V -> Z.
(** [var empty V]. *)
Variable zero : V.

Record IndexedSlice := mkIndexed {
  index : gmap K nat;
  values : list V;
  isize : Z
}.

Definition NewIndexedSlice : IndexedSlice := mkIndexed ∅ [] 0.

Definition IndexedSlice_Keys (s : IndexedSlice) : list K := (map_to_list (index s)).*1.
Definition IndexedSlice_Values (s : IndexedSlice) : list V := values s.
Definition IndexedSlice_Len (s : IndexedSlice) : nat := length (values s).
Definition IndexedSlice_SizeOf (s : IndexedSlice) : Z := isize s.
Definition IndexedSlice_Has (s : IndexedSlice) (key : K) : bool := bool_decide (is_Some (index s !! key)).

Definition IndexedSlice_CheckedGet (s : IndexedSlice) (key : K) : outcome (V * bool) :=
  match index s !! key with
  | Some valueIdx => v ← slice_get (values s) (Z.of_nat valueIdx); Done (v, true)
  | None => Done (zero, false)
  end.

Definition IndexedSlice_Get (s : IndexedSlice) (key : K) : outcome V :=
  match index s !! key with
  | Some valueIdx => slice_get (values s) (Z.of_nat valueIdx)
  | None => Done zero
  end.

Definition IndexedSlice_Put (s : IndexedSlice) (key : K) (value : V) : outcome IndexedSlice :=
  let size1 := wrap64 (isize s + sizeOf value) in
  match index s !! key with
  | Some valueIdx =>
      old ← slice_get (values s) (Z.of_nat valueIdx);
      values' ← slice_set (values s) (Z.of_nat valueIdx) value;
      Done (mkIndexed (index s) values' (wrap64 (size1 - sizeOf old)))
  | None =>
      let values' := values s ++ [value] in
      Done (mkIndexed (<[key := length values' - 1]> (index s)) values' size1)
  end.

Definition IndexedSlice_GetOr (s : IndexedSlice) (key : K) (defaultConstructor : V)
    : outcome (IndexedSlice * V) :=
  match index s !! key with
  | Some valueIdx => v ← slice_get (values s) (Z.of_nat valueIdx); Done (s, v)
  | None => s' ← IndexedSlice_Put s key defaultConstructor; Done (s', defaultConstructor)
  end.

Fixpoint Merge_loop (s other : IndexedSlice) (entries : list (K * nat)) : outcome IndexedSlice :=
  match entries with
  | [] => Done s
  | (key, idx) :: entries' =>
      v ← slice_get (values other) (Z.of_nat idx);
      s' ← IndexedSlice_Put s key v;
      Merge_loop s' other entries'
  end.

Definition IndexedSlice_Merge (s other : IndexedSlice) : outcome IndexedSlice :=
  Merge_loop s other (map_to_list (index other)).

Fixpoint IndexedSlice_GetAll (s : IndexedSlice) (keys : list K) : outcome (list V * list K) :=
  match keys with
  | [] => Done ([], [])
  | key :: keys' =>
      match index s !! key with
      | Some valueIdx =>
          v ← slice_get (values s) (Z.of_nat valueIdx);
          '(vs, missing) ← IndexedSlice_GetAll s keys';
          Done (v :: vs, missing)
      | None =>
          '(vs, missing) ← IndexedSlice_GetAll s keys';
          Done (vs, key :: missing)
      end
  end.

Fixpoint GetAllIndexed_loop (s : IndexedSlice) (keys : list K) (found : IndexedSlice) (missing : list K)
    : outcome (IndexedSlice * list K) :=
  match keys with
  | [] => Done (found, missing)
  | key :: keys' =>
      match index s !! key with
      | Some valueIdx =>
          v ← slice_get (values s) (Z.of_nat valueIdx);
          found' ← IndexedSlice_Put found key v;
          GetAllIndexed_loop s keys' found' missing
      | None => GetAllIndexed_loop s keys' found (missing ++ [key])
      end
  end.

Definition IndexedSlice_GetAllIndexed (s : IndexedSlice) (keys : list K) : outcome (IndexedSlice * list K) :=
  GetAllIndexed_loop s keys NewIndexedSlice [].

Fixpoint Each_loop {St} (s : IndexedSlice) (delegate : K -> V -> St -> St * bool) (entries : list (K * nat)) (st : St)
    : outcome St :=
  match entries with
  | [] => Done st
  | (id, idx) :: entries' =>
      v ← slice_get (values s) (Z.of_nat idx);
      let '(st', continue) := delegate id v st in
      if continue : bool then Each_loop s delegate entries' st' else Done st'
  end.

Definition IndexedSlice_Each {St} (s : IndexedSlice) (delegate : K -> V -> St -> St * bool) (st : St) : outcome St :=
  Each_loop s delegate (map_to_list (index s)) st.

(** ** The map it denotes *)

Definition total_size (l : list V) : Z := foldr (fun v z => sizeOf v + z)%Z 0%Z l.

Record denotes (s : IndexedSlice) (g : gmap K V) : Prop := {
  den_lookup : forall k, g !! k = index s !! k ≫= (values s !!.);
  den_bound : forall k i, index s !! k = Some i -> i < length (values s);
  den_inj : forall k k' i, index s !! k = Some i -> index s !! k' = Some i -> k = k';
  den_len : length (values s) = size (index s);
  den_size : isize s = wrap64 (total_size (values s))
}.

Lemma total_size_app l1 l2 : total_size (l1 ++ l2) = (total_size l1 + total_size l2)%Z.
Proof. induction l1 as [|v l1 IH]; simpl; [done|]. rewrite IH. lia. Qed.

Lemma total_size_insert l i v old :
  l !! i = Some old -> total_size (<[i := v]> l) = (total_size l + sizeOf v - sizeOf old)%Z.
Proof.
  revert i. induction l as [|x l IH]; intros [|i] Hi; simpl in *; simplify_eq; [lia|].
  rewrite (IH i Hi). lia.
Qed.

Lemma new_denotes : denotes NewIndexedSlice ∅.
Proof. split; simpl; intros; rewrite ?lookup_empty in *; simplify_eq; done. Qed.

Lemma denotes_read s g k i :
  denotes s g -> index s !! k = Some i ->
  exists v, values s !! i = Some v /\ slice_get (values s) (Z.of_nat i) = Done v /\ g !! k = Some v.
Proof.
  intros Hd Hi. destruct (lookup_lt_is_Some_2 _ _ (den_bound _ _ Hd _ _ Hi)) as [v Hv].
  exists v. split_and!; [done|by apply slice_get_nat|]. by rewrite (den_lookup _ _ Hd), Hi.
Qed.

Lemma denotes_missing s g k : denotes s g -> index s !! k = None -> g !! k = None.
Proof. intros Hd Hi. by rewrite (den_lookup _ _ Hd), Hi. Qed.

Lemma Put_denotes s g key v :
  denotes s g -> exists s', IndexedSlice_Put s key v = Done s' /\ denotes s' (<[key := v]> g).
Proof.
  intros Hd. pose proof Hd as [Hl Hb Hi Hn Hs]. unfold IndexedSlice_Put.
  destruct (index s !! key) as [i|] eqn:Ei.
  - destruct (denotes_read _ _ _ _ Hd Ei) as (old & Hold & Hget & _). rewrite Hget. simpl.
    unfold slice_set. rewrite decide_True by (pose proof (Hb _ _ Ei); lia). simpl.
    rewrite Nat2Z.id. eexists. split; [done|]. split; simpl.
    + intros k. rewrite lookup_insert. destruct (decide (key = k)) as [<-|Hne].
      * rewrite Ei. simpl. by rewrite list_lookup_insert_eq by eauto.
      * rewrite Hl. destruct (index s !! k) as [j|] eqn:Ej; simpl; [|done].
        rewrite list_lookup_insert_ne; [done|]. intros <-. by apply Hne, (Hi _ _ i).
    + intros k j Hj. rewrite length_insert. eauto.
    + eauto.
    + by rewrite length_insert.
    + rewrite wrap64_sub_l, Hs. rewrite (total_size_insert _ _ _ old) by done.
      replace (wrap64 (total_size (values s)) + sizeOf v - sizeOf old)%Z
        with (wrap64 (total_size (values s)) + (sizeOf v - sizeOf old))%Z by lia.
      rewrite wrap64_add_l. f_equal. lia.
  - eexists. split; [done|]. rewrite length_app, Nat.add_sub. split; simpl.
    + intros k. rewrite !lookup_insert. destruct (decide (key = k)) as [<-|Hne]; simpl.
      * by rewrite lookup_app_r, Nat.sub_diag by lia.
      * rewrite Hl. destruct (index s !! k) as [j|] eqn:Ej; simpl; [|done].
        rewrite lookup_app_l by eauto. done.
    + intros k j [[<- <-]|[_ Hj]]%lookup_insert_Some; rewrite length_app; simpl; [lia|].
      pose proof (Hb _ _ Hj). lia.
    + intros k k' j [[<- <-]|[Hk Hj]]%lookup_insert_Some [[<- Hj']|[Hk' Hj']]%lookup_insert_Some;
        try done; try (pose proof (Hb _ _ Hj'); lia); try (pose proof (Hb _ _ Hj); lia). eauto.
    + rewrite length_app, map_size_insert_None by done. simpl. lia.
    + rewrite Hs, wrap64_add_l, total_size_app. simpl. f_equal. lia.
Qed.

Lemma GetOr_denotes s g key d :
  denotes s g ->
  exists s', IndexedSlice_GetOr s key d = Done (s', default d (g !! key)) /\
             denotes s' (match g !! key with Some _ => g | None => <[key := d]> g end).
Proof.
  intros Hd. unfold IndexedSlice_GetOr. destruct (index s !! key) as [i|] eqn:Ei.
  - destruct (denotes_read _ _ _ _ Hd Ei) as (v & _ & Hget & Hg). rewrite Hget, Hg. by exists s.
  - rewrite (denotes_missing _ _ _ Hd Ei). destruct (Put_denotes s g key d Hd) as (s' & E & Hd').
    rewrite E. by exists s'.
Qed.

Lemma Merge_loop_denotes other go entries : forall s g,
  denotes other go -> denotes s g ->
  (forall k i, (k, i) ∈ entries -> index other !! k = Some i) ->
  exists s' g', Merge_loop s other entries = Done s' /\ denotes s' g' /\
    forall j, g' !! j = if decide (j ∈ entries.*1) then go !! j else g !! j.
Proof.
  induction entries as [|[k i] entries IH]; intros s g Ho Hd Hent; cbn [Merge_loop].
  { exists s, g. split_and!; [done..|]. intros j. by rewrite decide_False by set_solver. }
  destruct (denotes_read other go k i Ho) as (v & _ & Hget & Hg); [apply Hent; by left|].
  rewrite Hget. cbn [mbind outcome_bind].
  destruct (Put_denotes s g k v Hd) as (s1 & E1 & Hd1). rewrite E1. cbn [mbind outcome_bind].
  destruct (IH s1 _ Ho Hd1) as (s' & g' & E & Hd' & Hg'); [intros; apply Hent; by right|].
  exists s', g'. split_and!; [done..|]. intros j. rewrite Hg', fmap_cons. cbn [fst].
  destruct (decide (j ∈ entries.*1)); [by rewrite decide_True by set_solver|].
  rewrite lookup_insert. destruct (decide (k = j)) as [<-|Hne].
  - by rewrite decide_True by set_solver.
  - by rewrite decide_False by set_solver.
Qed.

Lemma Merge_denotes s g other go :
  denotes s g -> denotes other go ->
  exists s', IndexedSlice_Merge s other = Done s' /\ denotes s' (go ∪ g).
Proof.
  intros Hd Ho. unfold IndexedSlice_Merge.
  destruct (Merge_loop_denotes other go (map_to_list (index other)) s g Ho Hd) as (s' & g' & E & Hd' & Hg').
  { by intros k i Hk%elem_of_map_to_list. }
  exists s'. split; [done|]. replace (go ∪ g) with g'; [done|].
  apply map_eq. intros k. rewrite Hg', lookup_union.
  destruct (index other !! k) as [i|] eqn:Ei.
  - rewrite decide_True; [|apply list_elem_of_fmap; exists (k, i); split; [done|by apply elem_of_map_to_list]].
    destruct (denotes_read _ _ _ _ Ho Ei) as (v & _ & _ & ->). by rewrite union_Some_l.
  - rewrite decide_False; [by rewrite (denotes_missing _ _ _ Ho Ei), (left_id_L None (∪))|].
    intros ([k' i] & -> & Hk%elem_of_map_to_list)%list_elem_of_fmap. simpl in Ei. congruence.
Qed.

Lemma GetAll_denotes s g keys :
  denotes s g ->
  IndexedSlice_GetAll s keys = Done (omap (g !!.) keys, filter (fun k => g !! k = None) keys).
Proof.
  intros Hd. induction keys as [|k keys IH]; cbn [IndexedSlice_GetAll]; [done|]. rewrite IH.
  rewrite filter_cons. destruct (index s !! k) as [i|] eqn:Ei.
  - destruct (denotes_read _ _ _ _ Hd Ei) as (v & _ & Hget & Hg). rewrite Hget. simpl. rewrite Hg.
    by rewrite decide_False by done.
  - pose proof (denotes_missing _ _ _ Hd Ei) as Hg. simpl. rewrite Hg. by rewrite decide_True.
Qed.

(** ** Refinement *)

(** The calls that change the structure, with their counterparts on a map. *)
Inductive call := CPut (k : K) (v : V) | CGetOr (k : K) (d : V) | CMerge (other : list (K * V)).

Definition abs_call (g : gmap K V) (c : call) : gmap K V :=
  match c with
  | CPut k v => <[k := v]> g
  | CGetOr k d => match g !! k with Some _ => g | None => <[k := d]> g end
  | CMerge other => foldl (fun g '(k, v) => <[k := v]> g) ∅ other ∪ g
  end.

Fixpoint put_all (s : IndexedSlice) (kvs : list (K * V)) : outcome IndexedSlice :=
  match kvs with [] => Done s | (k, v) :: kvs' => s' ← IndexedSlice_Put s k v; put_all s' kvs' end.

(** The argument of [Merge] is another slice, filled by [Put]. *)
Definition run_call (s : IndexedSlice) (c : call) : outcome IndexedSlice :=
  match c with
  | CPut k v => IndexedSlice_Put s k v
  | CGetOr k d => '(s', _) ← IndexedSlice_GetOr s k d; Done s'
  | CMerge other => o ← put_all NewIndexedSlice other; IndexedSlice_Merge s o
  end.

Fixpoint run_calls (s : IndexedSlice) (cs : list call) : outcome IndexedSlice :=
  match cs with [] => Done s | c :: cs' => s' ← run_call s c; run_calls s' cs' end.

Lemma put_all_denotes kvs : forall s g, denotes s g ->
  exists s', put_all s kvs = Done s' /\ denotes s' (foldl (fun g '(k, v) => <[k := v]> g) g kvs).
Proof.
  induction kvs as [|[k v] kvs IH]; intros s g Hd; simpl; [by exists s|].
  destruct (Put_denotes s g k v Hd) as (s1 & -> & Hd1). simpl. by apply IH.
Qed.

Lemma run_call_denotes s g c : denotes s g ->
  exists s', run_call s c = Done s' /\ denotes s' (abs_call g c).
Proof.
  intros Hd. destruct c as [k v|k d|other]; simpl.
  - by apply Put_denotes.
  - destruct (GetOr_denotes s g k d Hd) as (s' & -> & Hd'). by exists s'.
  - destruct (put_all_denotes other _ _ new_denotes) as (o & -> & Ho). simpl. by apply Merge_denotes.
Qed.

Lemma run_calls_denotes cs : forall s g, denotes s g ->
  exists s', run_calls s cs = Done s' /\ denotes s' (foldl abs_call g cs).
Proof.
  induction cs as [|c cs IH]; intros s g Hd; simpl; [by exists s|].
  destruct (run_call_denotes s g c Hd) as (s1 & -> & Hd1). simpl. by apply IH.
Qed.

(** [C39] [IndexedSlice] refines a finite map.  After any sequence of [Put],
    [GetOr] and [Merge] calls on a new slice nothing has panicked, every read
    agrees with the map the same calls build ([Get], [CheckedGet], [Has], and
    [GetAll], which splits the keys into found values and missing keys in
    order), [Len] is the number of keys, the keys are listed once each, and
    [SizeOf] is the sum of the stored values' sizes modulo 2^64. *)
Theorem IndexedSlice_refines (cs : list call) :
  let g := foldl abs_call ∅ cs in
  exists s, run_calls NewIndexedSlice cs = Done s /\
    (forall k, IndexedSlice_Get s k = Done (default zero (g !! k)) /\
               IndexedSlice_CheckedGet s k = Done (default zero (g !! k), bool_decide (is_Some (g !! k))) /\
               IndexedSlice_Has s k = bool_decide (is_Some (g !! k))) /\
    (forall keys, IndexedSlice_GetAll s keys = Done (omap (g !!.) keys, filter (fun k => g !! k = None) keys)) /\
    IndexedSlice_Len s = size g /\
    NoDup (IndexedSlice_Keys s) /\ (forall k, k ∈ IndexedSlice_Keys s <-> k ∈ dom g) /\
    IndexedSlice_SizeOf s = wrap64 (total_size (IndexedSlice_Values s)).
Proof.
  intros g. destruct (run_calls_denotes cs _ _ new_denotes) as (s & E & Hd). fold g in Hd.
  exists s. assert (Hdom : dom (index s) = dom g).
  { apply set_eq. intros k. rewrite !elem_of_dom. destruct (index s !! k) as [i|] eqn:Ei.
    - destruct (denotes_read _ _ _ _ Hd Ei) as (v & _ & _ & ->). split; by eexists.
    - by rewrite (denotes_missing _ _ _ Hd Ei). }
  split_and!; [done| |by intros; apply GetAll_denotes| |apply NoDup_fst_map_to_list| |apply Hd].
  - intros k. unfold IndexedSlice_Get, IndexedSlice_CheckedGet, IndexedSlice_Has.
    destruct (index s !! k) as [i|] eqn:Ei.
    + destruct (denotes_read _ _ _ _ Hd Ei) as (v & _ & -> & ->). done.
    + by rewrite (denotes_missing _ _ _ Hd Ei).
  - unfold IndexedSlice_Len. by rewrite (den_len _ _ Hd), <- !size_dom, Hdom.
  - intros k. rewrite <- Hdom, elem_of_dom. unfold IndexedSlice_Keys. rewrite list_elem_of_fmap. split.
    + intros ([k' i] & -> & Hk%elem_of_map_to_list). by eexists.
    + intros [i Hi]. exists (k, i). split; [done|]. by apply elem_of_map_to_list.
Qed.
End indexed.
