(* ===== verification/Paths.v ===== *)
(** * Relationships, paths and path trees (graph/relationships.go, graph/path.go)

    A path tree is a heap of [PathSegment]s with trunk and branch pointers; an
    address is the position of the segment in the heap, and [Descend] appends.
    Each walk over trunks takes fuel; a trunk has a smaller address than the
    segment ([trunks_down]), so the number of segments is enough.

    The sizes of nodes and relationships measure Go's memory layout and are
    parameters; the arithmetic on them is modelled modulo 2^64. *)

From S2P Require Import Prelude Kinds Mapper Properties Nodes NodeSets.
From stdpp Require Import pretty.

(** ** Relationships *)

Record Relationship := mkRelationship {
  rel_ID : Z;
  rel_StartID : Z;
  rel_EndID : Z;
  rel_Kind : Kind;
  rel_Properties : option Properties
}.

Definition NewRelationship (id startID endID : Z) (properties : option Properties) (kind : Kind) : Relationship :=
  mkRelationship id startID endID kind properties.

Definition PrepareRelationship (properties : option Properties) (kind : Kind) : Relationship :=
  mkRelationship 0 0 0 kind properties.

Definition Relationship_Merge (s other : Relationship) : outcome Relationship :=
  ps ← Properties_Merge (rel_Properties s) (rel_Properties other);
  Done (mkRelationship (rel_ID s) (rel_StartID s) (rel_EndID s) (rel_Kind s) ps).

Notation RelationshipSet := (gmap Z Relationship).

Definition RelationshipSet_Len (s : RelationshipSet) : nat := size s.
Definition RelationshipSet_Get (s : RelationshipSet) (id : Z) : option Relationship := s !! id.
Definition RelationshipSet_ContainsID (s : RelationshipSet) (id : Z) : bool := bool_decide (is_Some (s !! id)).
Definition RelationshipSet_Contains (s : RelationshipSet) (relationship : Relationship) : bool :=
  RelationshipSet_ContainsID s (rel_ID relationship).
Definition RelationshipSet_Add (s : RelationshipSet) (relationships : list Relationship) : RelationshipSet :=
  foldl (fun s r => <[rel_ID r := r]> s) s relationships.
Definition RelationshipSet_Slice (s : RelationshipSet) : list Relationship := (map_to_list s).*2.
Definition RelationshipSet_AddSet (s other : RelationshipSet) : RelationshipSet :=
  foldl (fun s '(k, v) => <[k := v]> s) s (map_to_list other).
Definition NewRelationshipSet (relationships : list Relationship) : RelationshipSet :=
  foldl (fun s r => <[rel_ID r := r]> s) ∅ relationships.

(** ** Paths *)

(** Slots of a path may still be nil. *)
Record Path := mkPath { Nodes : list (option Node); Edges : list (option Relationship) }.

Definition AllocatePath (pathDepth : nat) : Path :=
  mkPath (replicate (pathDepth + 1) None) (replicate pathDepth None).

Definition visitor (St : Type) : Type :=
  option Node -> option Node -> option Relationship -> St -> St * bool.

Fixpoint Path_Walk_loop {St} (s : Path) (delegate : visitor St) (idxs : list nat) (st : St) : outcome St :=
  match idxs with
  | [] => Done st
  | idx :: idxs' =>
      start ← slice_get (Nodes s) (Z.of_nat idx - 1);
      end_ ← slice_get (Nodes s) (Z.of_nat idx);
      rel ← slice_get (Edges s) (Z.of_nat idx - 1);
      let '(st', shouldContinue) := delegate start end_ rel st in
      if shouldContinue : bool then Path_Walk_loop s delegate idxs' st' else Done st'
  end.

Definition Path_Walk {St} (s : Path) (delegate : visitor St) (st : St) : outcome St :=
  Path_Walk_loop s delegate (seq 1 (length (Nodes s) - 1)) st.

Definition Path_WalkReverse {St} (s : Path) (delegate : visitor St) (st : St) : outcome St :=
  Path_Walk_loop s delegate (reverse (seq 1 (length (Nodes s) - 1))) st.

Definition Path_Root (s : Path) : outcome (option Node) := slice_get (Nodes s) 0.
Definition Path_Terminal (s : Path) : outcome (option Node) :=
  slice_get (Nodes s) (Z.of_nat (length (Nodes s)) - 1).

Fixpoint ContainsNode_loop (id : Z) (nodes : list (option Node)) : outcome bool :=
  match nodes with
  | [] => Done false
  | None :: _ => Panic
  | Some node :: nodes' => if decide (node_ID node = id) then Done true else ContainsNode_loop id nodes'
  end.

Definition Path_ContainsNode (s : Path) (id : Z) : outcome bool := ContainsNode_loop id (Nodes s).

(** *** Path sets *)

Definition PathSet : Type := list Path.

Definition NewPathSet (paths : list Path) : PathSet := paths.
Definition PathSet_Paths (s : PathSet) : list Path := s.
Definition PathSet_Len (s : PathSet) : nat := length s.

Fixpoint all_edges (filter_ : option Relationship -> outcome bool) (edges : list (option Relationship)) : outcome bool :=
  match edges with
  | [] => Done true
  | edge :: edges' => ok ← filter_ edge; if ok : bool then all_edges filter_ edges' else Done false
  end.

Fixpoint PathSet_FilterByEdge (filter_ : option Relationship -> outcome bool) (s : PathSet) : outcome PathSet :=
  match s with
  | [] => Done []
  | path :: s' =>
      include ← all_edges filter_ (Edges path);
      rest ← PathSet_FilterByEdge filter_ s';
      Done (if include : bool then path :: rest else rest)
  end.

Definition edge_kind (edge : option Relationship) : outcome Kind :=
  match edge with Some e => Done (rel_Kind e) | None => Panic end.

Definition PathSet_IncludeByEdgeKinds (edgeKinds : list Kind) (s : PathSet) : outcome PathSet :=
  PathSet_FilterByEdge (fun edge => k ← edge_kind edge; Kinds_ContainsOneOf edgeKinds [k]) s.

Definition PathSet_ExcludeByEdgeKinds (edgeKinds : list Kind) (s : PathSet) : outcome PathSet :=
  PathSet_FilterByEdge
    (fun edge => k ← edge_kind edge; has ← Kinds_ContainsOneOf edgeKinds [k]; Done (negb has)) s.

(** [NodeSet.Add] dereferences each node. *)
Definition add_nodes (s : NodeSet) (nodes : list (option Node)) : outcome NodeSet :=
  match mapM id nodes with Some ns => Done (NodeSet_Add s ns) | None => Panic end.

Fixpoint PathSet_collect (pick : Path -> outcome (list (option Node))) (s : PathSet) (nodes : NodeSet) : outcome NodeSet :=
  match s with
  | [] => Done nodes
  | path :: s' => ns ← pick path; nodes' ← add_nodes nodes ns; PathSet_collect pick s' nodes'
  end.

Definition PathSet_Roots (s : PathSet) : outcome NodeSet :=
  PathSet_collect (fun p => n ← Path_Root p; Done [n]) s ∅.
Definition PathSet_Terminals (s : PathSet) : outcome NodeSet :=
  PathSet_collect (fun p => n ← Path_Terminal p; Done [n]) s ∅.
Definition PathSet_AllNodes (s : PathSet) : outcome NodeSet :=
  PathSet_collect (fun p => Done (Nodes p)) s ∅.

Definition PathSet_AddPath (s : PathSet) (path : Path) : PathSet :=
  if decide (0 < length (Edges path)) then s ++ [path] else s.
Definition PathSet_AddPathSet (s pathSet : PathSet) : PathSet := s ++ PathSet_Paths pathSet.

(** ** Path trees *)

Record PathSegment := mkSegment {
  seg_Node : Node;
  seg_Trunk : option nat;
  seg_Edge : option Relationship;
  seg_Branches : list nat;
  seg_cap : nat;
  seg_size : Z
}.

Notation heap := (list PathSegment).

Definition seg (h : heap) (a : nat) : outcome PathSegment := slice_get h (Z.of_nat a).

Definition with_size (s : PathSegment) (z : Z) : PathSegment :=
  mkSegment (seg_Node s) (seg_Trunk s) (seg_Edge s) (seg_Branches s) (seg_cap s) z.
Definition with_Branches (s : PathSegment) (bs : list nat) (c : nat) : PathSegment :=
  mkSegment (seg_Node s) (seg_Trunk s) (seg_Edge s) bs c (seg_size s).

Section trees.

Variable nodeSize : Node -> Z.
Variable edgeSize : Relationship -> Z.
Variable growslice : nat -> nat -> nat.

(** [NewTree] leaves the size of its root at zero. *)
Definition NewTree (root : Node) : heap := [mkSegment root None None [] 0 0].

(** [size.Of] of a pointer and [unsafe.Sizeof] of a [Size] are 8 bytes, of a
    slice header 24. *)
Definition own_size (s : PathSegment) : Z :=
  (8 + 8 + nodeSize (seg_Node s) +
   match seg_Edge s with Some e => edgeSize e | None => 0 end +
   match seg_Trunk s with Some _ => 8 | None => 0 end +
   24 * Z.of_nat (seg_cap s))%Z.

(** The recursion over the branches; the segment's size is set last. *)
Fixpoint computeAndSetSize (fuel : nat) (h : heap) (a : nat) : outcome heap :=
  match fuel with
  | O => Spent
  | S fuel' =>
      s ← seg h a;
      let fix branches (h : heap) (total : Z) (bs : list nat) {struct bs} : outcome (heap * Z) :=
        match bs with
        | [] => Done (h, total)
        | b :: bs' =>
            h1 ← computeAndSetSize fuel' h b;
            sb ← seg h1 b;
            branches h1 (wrap64 (total + seg_size sb)) bs'
        end in
      '(h', total) ← branches h (wrap64 (own_size s)) (seg_Branches s);
      Done (alter (fun s => with_size s total) a h')
  end.

Definition NewRootPathSegment (root : Node) : outcome heap :=
  computeAndSetSize 1 (NewTree root) 0.

Definition PathSegment_GetTrunkSegment (h : heap) (a : nat) : outcome (option nat) :=
  s ← seg h a; Done (seg_Trunk s).
Definition PathSegment_SizeOf (h : heap) (a : nat) : outcome Z := s ← seg h a; Done (seg_size s).

(** *** Walks towards the root *)

Fixpoint PathSegment_Depth (fuel : nat) (h : heap) (cursor : nat) : outcome nat :=
  match fuel with
  | O => Spent
  | S fuel' =>
      s ← seg h cursor;
      match seg_Trunk s with
      | None => Done 0
      | Some t => d ← PathSegment_Depth fuel' h t; Done (S d)
      end
  end.

Fixpoint IsCycle_loop (fuel : nat) (h : heap) (terminal : Node) (cursor : nat) : outcome bool :=
  match fuel with
  | O => Spent
  | S fuel' =>
      s ← seg h cursor;
      if decide (node_ID terminal = node_ID (seg_Node s)) then Done true
      else match seg_Trunk s with
           | Some t => IsCycle_loop fuel' h terminal t
           | None => Done false
           end
  end.

Definition PathSegment_IsCycle (h : heap) (a : nat) : outcome bool :=
  s ← seg h a;
  match seg_Trunk s with
  | Some t => IsCycle_loop (length h) h (seg_Node s) t
  | None => Done false
  end.

(** The cursor loop of [Path], filling the slots from the end. *)
Fixpoint Path_fill (fuel : nat) (h : heap) (cursor : nat) (depthIdx : Z) (path : Path) : outcome Path :=
  match fuel with
  | O => Spent
  | S fuel' =>
      s ← seg h cursor;
      nodes ← slice_set (Nodes path) depthIdx (Some (seg_Node s));
      match seg_Trunk s with
      | None => Done (mkPath nodes (Edges path))
      | Some t =>
          edges ← slice_set (Edges path) (depthIdx - 1) (seg_Edge s);
          Path_fill fuel' h t (depthIdx - 1) (mkPath nodes edges)
      end
  end.

Definition PathSegment_Path (h : heap) (a : nat) : outcome Path :=
  depthIdx ← PathSegment_Depth (length h) h a;
  Path_fill (length h) h a (Z.of_nat depthIdx) (AllocatePath depthIdx).

(** [Slice] allocates [Depth] slots. *)
Fixpoint Slice_fill (fuel : nat) (h : heap) (cursor : nat) (containerIdx : Z) (container : list (option nat))
    : outcome (list (option nat)) :=
  match fuel with
  | O => Spent
  | S fuel' =>
      s ← seg h cursor;
      container' ← slice_set container (containerIdx - 1) (Some cursor);
      match seg_Trunk s with
      | None => Done container'
      | Some t => Slice_fill fuel' h t (containerIdx - 1) container'
      end
  end.

Definition PathSegment_Slice (h : heap) (a : nat) : outcome (list (option nat)) :=
  containerIdx ← PathSegment_Depth (length h) h a;
  Slice_fill (length h) h a (Z.of_nat containerIdx) (replicate containerIdx None).

Fixpoint PathSegment_WalkReverse {St} (fuel : nat) (h : heap) (cursor : nat)
    (delegate : nat -> St -> St * bool) (st : St) : outcome St :=
  match fuel with
  | O => Spent
  | S fuel' =>
      s ← seg h cursor;
      let '(st', continue) := delegate cursor st in
      if continue : bool then
        match seg_Trunk s with
        | Some t => PathSegment_WalkReverse fuel' h t delegate st'
        | None => Done st'
        end
      else Done st'
  end.

Fixpoint PathSegment_Search (fuel : nat) (h : heap) (cursor : nat) (delegate : nat -> bool)
    : outcome (option Node) :=
  match fuel with
  | O => Spent
  | S fuel' =>
      s ← seg h cursor;
      if delegate cursor then Done (Some (seg_Node s))
      else match seg_Trunk s with
           | Some t => PathSegment_Search fuel' h t delegate
           | None => Done None
           end
  end.

(** *** Growing and cutting the tree *)

(** [size += delta] on the segment and its trunks. *)
Fixpoint add_size (fuel : nat) (h : heap) (sizeCursor : nat) (delta : Z) : outcome heap :=
  match fuel with
  | O => Spent
  | S fuel' =>
      s ← seg h sizeCursor;
      let h' := alter (fun s => with_size s (wrap64 (seg_size s + delta))) sizeCursor h in
      match seg_Trunk s with
      | Some t => add_size fuel' h' t delta
      | None => Done h'
      end
  end.

Definition PathSegment_Descend (h : heap) (a : nat) (node : Node) (relationship : option Relationship)
    : outcome (heap * nat) :=
  let next := length h in
  h1 ← computeAndSetSize 1 (h ++ [mkSegment node (Some a) relationship [] 0 0]) next;
  sn ← seg h1 next;
  s ← seg h1 a;
  let sizeAdded := seg_size sn in
  let n := length (seg_Branches s) + 1 in
  let oldBranchCapacity := seg_cap s in
  let newCapacity := if decide (n <= oldBranchCapacity) then oldBranchCapacity
                     else Nat.max n (growslice oldBranchCapacity n) in
  let h2 := alter (fun s => with_Branches s (seg_Branches s ++ [next]) newCapacity) a h1 in
  let sizeAdded' :=
    if decide (newCapacity = oldBranchCapacity) then sizeAdded
    else wrap64 (sizeAdded + wrap64 (24 * (Z.of_nat newCapacity - Z.of_nat oldBranchCapacity))) in
  h3 ← add_size (length h2) h2 a sizeAdded';
  Done (h3, next).

(** The first branch whose edge has the same ID and kind. *)
Fixpoint find_branch (h : heap) (e : Relationship) (bs : list nat) : outcome (option nat) :=
  match bs with
  | [] => Done None
  | b :: bs' =>
      sb ← seg h b;
      match seg_Edge sb with
      | None => Panic
      | Some eb =>
          same ← (if decide (rel_ID eb = rel_ID e) then
                    match rel_Kind eb with
                    | None => Panic
                    | Some k => stringKind_Is k [rel_Kind e]
                    end
                  else Done false);
          if same : bool then Done (Some 0)
          else i ← find_branch h e bs'; Done (S <$> i)
      end
  end.

Definition PathSegment_Detach (h : heap) (a : nat) : outcome heap :=
  s ← seg h a;
  let sizeDetached := seg_size s in
  h1 ← match seg_Trunk s with
       | None => Done h
       | Some t =>
           st ← seg h t;
           match seg_Branches st, seg_Edge s with
           | [], _ => Done h
           | _ :: _, None => Panic
           | bs, Some e =>
               found ← find_branch h e bs;
               Done (match found with
                     | None => h
                     | Some i => alter (fun st => with_Branches st (take i bs ++ drop (S i) bs) (seg_cap st)) t h
                     end)
           end
       end;
  add_size (length h1) h1 a (- sizeDetached).

(** *** Formatting *)

Variable m : Mem.

Fixpoint join (sep : string) (l : list string) : string :=
  match l with
  | [] => ""
  | [x] => x
  | x :: l' => x +:+ sep +:+ join sep l'
  end.

Definition ID_String (id : Z) : string := pretty (ID_Int64 id).

Definition format_segment (s : PathSegment) : outcome string :=
  kinds ← Kinds_Strings (kinds_of m (seg_Node s));
  let head := "(" +:+ ID_String (node_ID (seg_Node s)) +:+ ":" +:+ join "|" kinds +:+ ")" in
  match seg_Trunk s with
  | None => Done head
  | Some _ =>
      match seg_Edge s with
      | None => Panic
      | Some e => k ← Kind_String (rel_Kind e); Done (head +:+ "<-[" +:+ k +:+ "]-")
      end
  end.

Fixpoint FormatPathSegment (fuel : nat) (h : heap) (segment : nat) : outcome string :=
  match fuel with
  | O => Spent
  | S fuel' =>
      s ← seg h segment;
      str ← format_segment s;
      match seg_Trunk s with
      | None => Done str
      | Some t => rest ← FormatPathSegment fuel' h t; Done (str +:+ rest)
      end
  end.

End trees.

(** ** Walks terminate *)

Definition trunks_down (h : heap) : Prop :=
  forall a s t, h !! a = Some s -> seg_Trunk s = Some t -> t < a.

(** The segments a trunk cursor started at [a] visits. *)
Inductive chain (h : heap) : nat -> list nat -> Prop :=
| chain_root a s : h !! a = Some s -> seg_Trunk s = None -> chain h a [a]
| chain_up a s t c : h !! a = Some s -> seg_Trunk s = Some t -> chain h t c -> chain h a (a :: c).

Lemma chain_exists h a : trunks_down h -> a < length h -> exists c, chain h a c /\ length c <= S a.
Proof.
  intros Hd. induction (lt_wf a) as [a _ IH]. intros Ha.
  destruct (lookup_lt_is_Some_2 h a Ha) as [s Hs]. destruct (seg_Trunk s) as [t|] eqn:Et.
  - pose proof (Hd _ _ _ Hs Et). destruct (IH t) as (c & Hc & Hl); [done|lia|].
    exists (a :: c). split; [by eapply chain_up|simpl; lia].
  - exists [a]. split; [by eapply chain_root|simpl; lia].
Qed.

Lemma chain_fuel h a : trunks_down h -> a < length h -> exists c, chain h a c /\ length c <= length h.
Proof. intros Hd Ha. destruct (chain_exists h a Hd Ha) as (c & Hc & Hl). exists c. split; [done|lia]. Qed.

Lemma seg_Done h a s : h !! a = Some s -> seg h a = Done s.
Proof. apply slice_get_nat. Qed.

Ltac walk_fuel fuel Hf := destruct fuel as [|fuel]; [simpl in Hf; lia|].

Lemma Depth_chain h a c : chain h a c -> forall fuel,
  length c <= fuel -> PathSegment_Depth fuel h a = Done (length c - 1).
Proof.
  induction 1 as [a s Hs Ht|a s t c Hs Ht Hc IH]; intros fuel Hf; walk_fuel fuel Hf; simpl;
    rewrite (seg_Done _ _ _ Hs); simpl; rewrite Ht; [done|].
  rewrite IH by (simpl in Hf; lia). simpl. f_equal. destruct Hc; simpl; lia.
Qed.

Lemma IsCycle_chain h n a c : chain h a c -> forall fuel,
  length c <= fuel ->
  IsCycle_loop fuel h n a = Done (bool_decide (Exists (fun b => node_ID <$> (seg_Node <$> h !! b) = Some (node_ID n)) c)).
Proof.
  induction 1 as [a s Hs Ht|a s t c Hs Ht Hc IH]; intros fuel Hf; walk_fuel fuel Hf; simpl;
    rewrite (seg_Done _ _ _ Hs); simpl; (destruct (decide (node_ID n = node_ID (seg_Node s))) as [Hn|Hn];
      [rewrite bool_decide_eq_true_2; [done|]; left; rewrite Hs; simpl; congruence|]); rewrite Ht.
  - rewrite bool_decide_eq_false_2; [done|]. rewrite Exists_cons, Exists_nil, Hs. simpl. intuition congruence.
  - rewrite IH by (simpl in Hf; lia). f_equal. apply bool_decide_ext. rewrite Exists_cons, Hs. simpl.
    intuition congruence.
Qed.

(** What the segments of a chain hold. *)
Definition chain_nodes (h : heap) (c : list nat) : list (option Node) := (fun a => seg_Node <$> h !! a) <$> c.
Definition chain_edges (h : heap) (c : list nat) : list (option Relationship) :=
  (fun a => h !! a ≫= seg_Edge) <$> c.

Lemma slice_set_last {A} (l r : list A) x y i :
  i = Z.of_nat (length l) -> slice_set (l ++ x :: r) i y = Done (l ++ y :: r).
Proof.
  intros ->. unfold slice_set. rewrite decide_True by (rewrite length_app; simpl; lia).
  rewrite Nat2Z.id. by rewrite insert_app_r_alt, Nat.sub_diag by lia.
Qed.

Lemma replicate_S_app {A} n (x : A) l : replicate (S n) x ++ l = replicate n x ++ x :: l.
Proof. by rewrite replicate_S_end, <- app_assoc. Qed.

Lemma Path_fill_chain h a c : chain h a c -> forall fuel nodes edges,
  length c <= fuel ->
  Path_fill fuel h a (Z.of_nat (length c) - 1)
    (mkPath (replicate (length c) None ++ nodes) (replicate (length c - 1) None ++ edges))
  = Done (mkPath (chain_nodes h (reverse c) ++ nodes) (chain_edges h (reverse (take (length c - 1) c)) ++ edges)).
Proof.
  induction 1 as [a s Hs Ht|a s t c Hs Ht Hc IH]; intros fuel nodes edges Hf; walk_fuel fuel Hf; cbn [Path_fill];
    rewrite (seg_Done _ _ _ Hs); cbn [mbind outcome_bind Nodes Edges].
  - cbn [length replicate app]. rewrite (slice_set_last [] nodes None (Some (seg_Node s))) by done.
    cbn [mbind outcome_bind app]. rewrite Ht. unfold chain_nodes. simpl. by rewrite Hs.
  - cbn [length] in *. destruct (length c) as [|k] eqn:El; [by destruct Hc|].
    rewrite (replicate_S_app (S k)), slice_set_last by (rewrite length_replicate; lia).
    cbn [mbind outcome_bind app]. rewrite Ht. replace (S (S k) - 1) with (S k) by lia.
    rewrite (replicate_S_app (A := option Relationship) k), slice_set_last by (rewrite length_replicate; lia).
    cbn [mbind outcome_bind app].
    replace (Z.of_nat (S (S k)) - 1 - 1)%Z with (Z.of_nat (S k) - 1)%Z by lia.
    specialize (IH fuel (Some (seg_Node s) :: nodes) (seg_Edge s :: edges)).
    replace (S k - 1) with k in IH by lia. rewrite IH by (simpl in Hf; lia).
    rewrite !reverse_cons. unfold chain_nodes, chain_edges. rewrite fmap_app, <- app_assoc. simpl. rewrite Hs.
    simpl.
    rewrite reverse_cons, fmap_app, <- app_assoc. simpl. by rewrite Hs.
Qed.

Lemma Slice_fill_chain h a c : chain h a c -> forall fuel slots,
  length c <= fuel -> Slice_fill fuel h a (Z.of_nat (length c) - 1) slots = Panic.
Proof.
  induction 1 as [a s Hs Ht|a s t c Hs Ht Hc IH]; intros fuel slots Hf; walk_fuel fuel Hf; cbn [Slice_fill];
    rewrite (seg_Done _ _ _ Hs); cbn [mbind outcome_bind]; unfold slice_set at 1.
  - rewrite decide_False by (simpl; lia). done.
  - case_decide; [|done]. cbn [mbind outcome_bind]. rewrite Ht.
    replace (Z.of_nat (length (a :: c)) - 1 - 1)%Z with (Z.of_nat (length c) - 1)%Z by (simpl; lia).
    apply IH. simpl in Hf. lia.
Qed.

(** Reading a path off a tree.  In a heap whose trunks point to earlier
    segments, a segment has a trunk chain that ends at a root; [Depth] is its
    length less one, [Path] returns the nodes from the root to the segment
    and the edges between them, one fewer, in that order, and [IsCycle] tells
    whether a proper ancestor has the segment's node ID.  None of the walks
    gets stuck or panics. *)
Theorem PathSegment_Path_exact (h : heap) (a : nat) :
  trunks_down h -> a < length h ->
  exists c, chain h a c /\
    PathSegment_Depth (length h) h a = Done (length c - 1) /\
    PathSegment_Path h a = Done (mkPath (chain_nodes h (reverse c)) (chain_edges h (reverse (take (length c - 1) c)))) /\
    PathSegment_IsCycle h a = Done (bool_decide (Exists (fun b => node_ID <$> (seg_Node <$> h !! b) = (node_ID <$> (seg_Node <$> h !! a))) (tail c))).
Proof.
  intros Hd Ha. destruct (chain_fuel h a Hd Ha) as (c & Hc & Hl). exists c.
  split_and!; [done|by apply Depth_chain| |].
  - unfold PathSegment_Path. rewrite (Depth_chain _ _ _ Hc) by done. cbn [mbind outcome_bind].
    unfold AllocatePath. assert (1 <= length c) by (destruct Hc; simpl; lia).
    pose proof (Path_fill_chain h a c Hc (length h) [] [] Hl) as E. rewrite !app_nil_r in E.
    replace (length c - 1 + 1) with (length c) by lia.
    replace (Z.of_nat (length c - 1)) with (Z.of_nat (length c) - 1)%Z by lia. done.
  - unfold PathSegment_IsCycle. destruct Hc as [a s Hs Ht|a s t c Hs Ht Hc];
      rewrite (seg_Done _ _ _ Hs); cbn [mbind outcome_bind]; rewrite Ht; [done|].
    rewrite (IsCycle_chain _ _ _ _ Hc) by (simpl in Hl; lia). simpl. by rewrite Hs.
Qed.

(** [Slice] writes one slot more than it allocates, on every segment. *)
Theorem PathSegment_Slice_panics (h : heap) (a : nat) :
  trunks_down h -> a < length h -> PathSegment_Slice h a = Panic.
Proof.
  intros Hd Ha. destruct (chain_fuel h a Hd Ha) as (c & Hc & Hl). unfold PathSegment_Slice.
  rewrite (Depth_chain _ _ _ Hc) by done. cbn [mbind outcome_bind].
  assert (1 <= length c) by (destruct Hc; simpl; lia).
  replace (Z.of_nat (length c - 1)) with (Z.of_nat (length c) - 1)%Z by lia. by apply (Slice_fill_chain _ _ _ Hc).
Qed.

(** ** Size accounting *)

Section sizes.

Context (nodeSize : Node -> Z) (edgeSize : Relationship -> Z) (growslice : nat -> nat -> nat).

Definition size_at (h : heap) (b : nat) : Z := match h !! b with Some s => seg_size s | None => 0%Z end.

Definition branch_total (h : heap) (bs : list nat) : Z := foldr (fun b z => size_at h b + z)%Z 0%Z bs.

(** A tree as [Descend] builds it: trunks point down, the branches of a
    segment are its children, each once, and every recorded size is the
    segment's own and its branches'. *)
Record tree_ok (h : heap) : Prop := {
  ok_down : trunks_down h;
  ok_branch : forall a s b, h !! a = Some s ->
    b ∈ seg_Branches s <-> exists sb, h !! b = Some sb /\ seg_Trunk sb = Some a;
  ok_nodup : forall a s, h !! a = Some s -> NoDup (seg_Branches s);
  ok_size : forall a s, h !! a = Some s ->
    seg_size s = wrap64 (own_size nodeSize edgeSize s + branch_total h (seg_Branches s))
}.

(** The structure of a heap, sizes aside. *)
Definition same_shape (h h' : heap) : Prop :=
  length h = length h' /\
  forall a, (fun s => with_size s 0) <$> h !! a = (fun s => with_size s 0) <$> h' !! a.

Lemma chain_bound h a c : trunks_down h -> chain h a c -> Forall (fun b => b <= a) c.
Proof.
  intros Hd. induction 1 as [a s Hs Ht|a s t c Hs Ht Hc IH]; [by repeat constructor|].
  constructor; [lia|]. pose proof (Hd _ _ _ Hs Ht). eapply Forall_impl; [exact IH|]. simpl. lia.
Qed.

Lemma chain_tail_below h a s t c : trunks_down h -> h !! a = Some s -> seg_Trunk s = Some t -> chain h t c ->
  Forall (fun b => b < a) c.
Proof.
  intros Hd Hs Ht Hc. pose proof (Hd _ _ _ Hs Ht).
  eapply Forall_impl; [exact (chain_bound h t c Hd Hc)|]. simpl. lia.
Qed.

Lemma chain_mem_lt h a c b : trunks_down h -> chain h a c -> b ∈ c -> b <= a.
Proof. intros Hd Hc Hb. exact (proj1 (Forall_forall _ _) (chain_bound h a c Hd Hc) b Hb). Qed.

Lemma chain_inv h a c s : chain h a c -> h !! a = Some s ->
  (seg_Trunk s = None /\ c = [a]) \/ exists t c', seg_Trunk s = Some t /\ c = a :: c' /\ chain h t c'.
Proof. destruct 1; intros; simplify_eq; [left; done|right; eauto 10]. Qed.

(** Adding to the sizes along a trunk chain. *)
Lemma add_size_chain h0 a c (Hc : chain h0 a c) : trunks_down h0 -> forall fuel h delta,
  length c <= fuel -> same_shape h0 h ->
  exists h', add_size fuel h a delta = Done h' /\ same_shape h h' /\
    forall x, size_at h' x = if decide (x ∈ c) then wrap64 (size_at h x + delta) else size_at h x.
Proof.
  intros Hd. induction Hc as [a s Hs Ht|a s t c Hs Ht Hc IH]; intros fuel h delta Hf Hsh;
    walk_fuel fuel Hf; pose proof (proj2 Hsh a) as Ea; rewrite Hs in Ea; simpl in Ea;
    destruct (h !! a) as [s'|] eqn:Hs'; simpl in Ea; try done; injection Ea as E1 E2 E3 E4 E5;
    cbn [add_size]; rewrite (seg_Done _ _ _ Hs'); cbn [mbind outcome_bind]; rewrite <- E2, Ht;
    set (h1 := alter _ a h);
    (assert (Hsh1 : same_shape h h1) by
       (split; [by unfold h1; rewrite length_alter|]; intros x; unfold h1;
        destruct (decide (a = x)) as [<-|Hne];
        [by rewrite list_lookup_alter_eq, Hs'|by rewrite list_lookup_alter_ne]));
    (assert (Hz : forall x, size_at h1 x = if decide (x = a) then wrap64 (size_at h x + delta) else size_at h x) by
       (intros x; unfold size_at, h1; destruct (decide (x = a)) as [->|Hne];
        [by rewrite list_lookup_alter_eq, Hs'|by rewrite list_lookup_alter_ne])).
  - exists h1. split_and!; [done..|]. intros x. rewrite Hz. apply decide_ext. set_solver.
  - destruct (IH fuel h1 delta) as (h' & E & Hsh' & Hz').
    { simpl in Hf. lia. }
    { destruct Hsh as [Hl1 Hsh], Hsh1 as [Hl2 Hsh1]. split; [congruence|]. intros x. by rewrite Hsh. }
    exists h'. split_and!; [done| |].
    { destruct Hsh1 as [Hl1 Hsh1], Hsh' as [Hl2 Hsh']. split; [congruence|]. intros x. by rewrite Hsh1. }
    intros x. rewrite Hz', !Hz.
    pose proof (chain_tail_below h0 a s t c Hd Hs Ht Hc) as Hb.
    destruct (decide (x ∈ c)) as [Hx|Hx].
    + pose proof (proj1 (Forall_forall _ _) Hb x Hx) as Hlt. simpl in Hlt.
      rewrite decide_False by lia. by rewrite decide_True by set_solver.
    + apply decide_ext. set_solver.
Qed.

(** The child of [x] on the chain, when [x] is on it above the start. *)
Lemma chain_child h a c x : trunks_down h -> chain h a c ->
  (exists b sb, b ∈ c /\ h !! b = Some sb /\ seg_Trunk sb = Some x) <-> x ∈ c /\ x <> a.
Proof.
  intros Hd. induction 1 as [a s Hs Ht|a s t c Hs Ht Hc IH].
  - split; [|set_solver]. intros (b & sb & ->%list_elem_of_singleton & Hb & Htb). congruence.
  - pose proof (chain_tail_below h a s t c Hd Hs Ht Hc) as Hb.
    assert (Htc : t ∈ c) by (destruct Hc; set_solver). split.
    + intros (b & sb & [->|Hbc]%elem_of_cons & Hsb & Htb).
      * assert (x = t) as -> by congruence. pose proof (Hd _ _ _ Hs Ht). split; [by right|lia].
      * destruct IH as [IH _]. destruct IH as [Hxc _]; [by exists b, sb|]. split; [by right|].
        pose proof (proj1 (Forall_forall _ _) Hb x Hxc). simpl in *. lia.
    + intros [[->|Hxc]%elem_of_cons Hne]; [done|]. destruct (decide (x = t)) as [->|Hxt].
      * exists a, s. split_and!; [by left|done..].
      * destruct IH as [_ IH]. destruct IH as (b & sb & Hbc & Hsb & Htb); [done|].
        exists b, sb. split_and!; [by right|done..].
Qed.

Lemma chain_child_unique h a c b b' sb sb' x : trunks_down h -> chain h a c ->
  b ∈ c -> b' ∈ c -> h !! b = Some sb -> h !! b' = Some sb' ->
  seg_Trunk sb = Some x -> seg_Trunk sb' = Some x -> b = b'.
Proof.
  intros Hd. induction 1 as [a s Hs Ht|a s t c Hs Ht Hc IH]; [set_solver|].
  assert (Hno : forall y sy, y ∈ c -> h !! y = Some sy -> seg_Trunk sy <> Some t).
  { intros y sy Hy Hsy Hty. pose proof (Hd _ _ _ Hsy Hty). pose proof (chain_mem_lt h t c y Hd Hc Hy). lia. }
  intros [->|Hb]%elem_of_cons [->|Hb']%elem_of_cons Hsb Hsb' Htb Htb'; [done|..].
  - assert (x = t) by congruence. subst x. by destruct (Hno b' sb').
  - assert (x = t) by congruence. subst x. by destruct (Hno b sb).
  - by apply IH.
Qed.

(** The total of some branches after the sizes along [c] grew by [delta]. *)
Lemma branch_total_grown h h' (c : list nat) delta bs k :
  (forall x, size_at h' x = if decide (x ∈ c) then wrap64 (size_at h x + delta) else size_at h x) ->
  NoDup bs -> (forall b b', b ∈ bs -> b' ∈ bs -> b ∈ c -> b' ∈ c -> b = b') ->
  wrap64 (k + branch_total h' bs)
  = wrap64 (k + branch_total h bs + (if decide (Exists (.∈ c) bs) then delta else 0)).
Proof.
  intros Hz. revert k. induction bs as [|b bs IH]; intros k Hnd Huniq; [simpl; f_equal; lia|].
  apply NoDup_cons in Hnd as [Hb Hnd]. cbn [branch_total foldr]. fold (branch_total h' bs) (branch_total h bs).
  rewrite Hz. replace (k + ((if decide (b ∈ c) then wrap64 (size_at h b + delta) else size_at h b) + branch_total h' bs))%Z
    with ((k + (if decide (b ∈ c) then wrap64 (size_at h b + delta) else size_at h b)) + branch_total h' bs)%Z by lia.
  rewrite IH; [|done|intros; apply Huniq; set_solver].
  destruct (decide (b ∈ c)) as [Hbc|Hbc].
  - rewrite (decide_False (P := Exists (.∈ c) bs)), (decide_True (P := Exists (.∈ c) (b :: bs))).
    + replace (k + wrap64 (size_at h b + delta) + branch_total h bs + 0)%Z
        with (k + branch_total h bs + wrap64 (size_at h b + delta))%Z by lia.
      rewrite wrap64_add_r. f_equal. lia.
    + by left.
    + intros (b' & Hb' & Hbc')%Exists_exists. apply Hb. rewrite (Huniq b b'); set_solver.
  - f_equal. rewrite (decide_ext (Exists (.∈ c) bs) (Exists (.∈ c) (b :: bs)));
      [lia|]. rewrite Exists_cons. tauto.
Qed.

(** *** Descend *)

(** The new segment, and the tree once it is linked but before the sizes of
    the trunks are updated. *)
Definition new_segment (a : nat) (node : Node) (rel : option Relationship) : PathSegment :=
  let s := mkSegment node (Some a) rel [] 0 0 in
  with_size s (wrap64 (own_size nodeSize edgeSize s)).

Definition grown_cap (s : PathSegment) : nat :=
  let n := length (seg_Branches s) + 1 in
  if decide (n <= seg_cap s) then seg_cap s else Nat.max n (growslice (seg_cap s) n).

Definition linked (h : heap) (a : nat) (s : PathSegment) (node : Node) (rel : option Relationship) : heap :=
  alter (fun s' => with_Branches s' (seg_Branches s' ++ [length h]) (grown_cap s)) a (h ++ [new_segment a node rel]).

Definition descend_delta (a : nat) (s : PathSegment) (node : Node) (rel : option Relationship) : Z :=
  (seg_size (new_segment a node rel) + 24 * (Z.of_nat (grown_cap s) - Z.of_nat (seg_cap s)))%Z.

Lemma computeAndSetSize_leaf h s :
  seg_Branches s = [] ->
  computeAndSetSize nodeSize edgeSize 1 (h ++ [s]) (length h)
  = Done (h ++ [with_size s (wrap64 (own_size nodeSize edgeSize s))]).
Proof.
  intros Hb. cbn [computeAndSetSize].
  rewrite (seg_Done _ (length h) s) by (by rewrite lookup_app_r, Nat.sub_diag by lia).
  cbn [mbind outcome_bind]. rewrite Hb. cbn [mbind outcome_bind]. f_equal.
  by rewrite alter_app_r_alt, Nat.sub_diag by lia.
Qed.

Lemma linked_lookup h a s node rel x : h !! a = Some s ->
  linked h a s node rel !! x =
    if decide (x = a) then Some (with_Branches s (seg_Branches s ++ [length h]) (grown_cap s))
    else (h ++ [new_segment a node rel]) !! x.
Proof.
  intros Hs. unfold linked. case_decide as Hx.
  - subst x. rewrite list_lookup_alter_eq, lookup_app_l by by eapply lookup_lt_Some. by rewrite Hs.
  - by rewrite list_lookup_alter_ne.
Qed.

Lemma linked_down h a s node rel : h !! a = Some s -> trunks_down h -> trunks_down (linked h a s node rel).
Proof.
  intros Hs Hd x sx t Hx Ht. pose proof (lookup_lt_Some _ _ _ Hs). rewrite linked_lookup in Hx by done.
  case_decide as Hxa; [subst; simplify_eq; by eapply Hd|].
  apply lookup_app_Some in Hx as [Hx|[Hge Hx]]; [by eapply Hd|].
  apply list_lookup_singleton_Some in Hx as [Hx <-]. simpl in Ht. simplify_eq. lia.
Qed.

Lemma Descend_steps h a s node rel : h !! a = Some s -> trunks_down h ->
  exists h' c, PathSegment_Descend nodeSize edgeSize growslice h a node rel = Done (h', length h) /\
    chain (linked h a s node rel) a c /\ same_shape (linked h a s node rel) h' /\
    forall x, size_at h' x = if decide (x ∈ c)
      then wrap64 (size_at (linked h a s node rel) x + descend_delta a s node rel)
      else size_at (linked h a s node rel) x.
Proof.
  intros Hs Hd. pose proof (lookup_lt_Some _ _ _ Hs) as Ha.
  set (h2 := linked h a s node rel). pose proof (linked_down h a s node rel Hs Hd) as Hd2. fold h2 in Hd2.
  assert (Hl : length h2 = S (length h)) by (unfold h2, linked; rewrite length_alter, length_app; simpl; lia).
  destruct (chain_fuel h2 a Hd2) as (c & Hc & Hlc); [lia|].
  destruct (add_size_chain h2 a c Hc Hd2 (length h2) h2
    (if decide (grown_cap s = seg_cap s) then seg_size (new_segment a node rel)
     else wrap64 (seg_size (new_segment a node rel) +
                  wrap64 (24 * (Z.of_nat (grown_cap s) - Z.of_nat (seg_cap s))))) Hlc)
    as (h' & E & Hsh & Hz); [done|].
  exists h', c. split_and!; [|done..|].
  - unfold PathSegment_Descend. rewrite computeAndSetSize_leaf by done. cbn [mbind outcome_bind].
    fold (new_segment a node rel).
    rewrite (seg_Done _ (length h) (new_segment a node rel)) by (by rewrite lookup_app_r, Nat.sub_diag by lia).
    cbn [mbind outcome_bind]. rewrite (seg_Done _ a s) by (by rewrite lookup_app_l by done).
    cbn [mbind outcome_bind]. fold (grown_cap s). fold (linked h a s node rel). fold h2. by rewrite E.
  - intros x. rewrite Hz. destruct (decide (x ∈ c)); [|done]. unfold descend_delta.
    case_decide as Hcap.
    + f_equal. rewrite Hcap. lia.
    + rewrite wrap64_add_r. rewrite Z.add_assoc, wrap64_add_r. f_equal. lia.
Qed.

Lemma shape_lookup h h' x s' : same_shape h h' -> h' !! x = Some s' ->
  exists s, h !! x = Some s /\ s' = with_size s (size_at h' x).
Proof.
  intros [_ Hsh] Hx. specialize (Hsh x). unfold size_at. rewrite Hx in *. simpl in Hsh.
  destruct (h !! x) as [s|]; [|done]. exists s. split; [done|].
  destruct s, s'. simpl in *. by simplify_eq.
Qed.

Lemma shape_lookup' h h' x s : same_shape h h' -> h !! x = Some s ->
  h' !! x = Some (with_size s (size_at h' x)).
Proof.
  intros [_ Hsh] Hx. specialize (Hsh x). unfold size_at. rewrite Hx in Hsh. simpl in Hsh.
  destruct (h' !! x) as [s'|]; [|done]. destruct s, s'. simpl in *. by simplify_eq.
Qed.

(** Trunks in the linked tree: those of [h], and the new segment's. *)
Lemma linked_trunk h a s node rel b x : h !! a = Some s ->
  (exists sb, linked h a s node rel !! b = Some sb /\ seg_Trunk sb = Some x) <->
  (exists sb, h !! b = Some sb /\ seg_Trunk sb = Some x) \/ (b = length h /\ x = a).
Proof.
  intros Hs. pose proof (lookup_lt_Some _ _ _ Hs) as Ha. rewrite linked_lookup by done.
  destruct (decide (b = a)) as [->|Hba].
  - split; [intros (sb & [= <-] & Ht); left; by exists s|].
    intros [(sb & Hsb & Ht)|[-> _]]; [|lia]. simplify_eq. by eexists.
  - split.
    + intros (sb & [Hb|[Hge Hb]]%lookup_app_Some & Ht); [left; by exists sb|].
      apply list_lookup_singleton_Some in Hb as [Hb <-]. simpl in Ht. simplify_eq. right. split; [lia|done].
    + intros [(sb & Hsb & Ht)|[-> ->]].
      * exists sb. split; [|done]. by apply lookup_app_l_Some.
      * exists (new_segment a node rel). split; [|done]. by rewrite lookup_app_r, Nat.sub_diag by lia.
Qed.

(** The branches of a segment of the linked tree. *)
Lemma linked_branches h a s node rel x sx : h !! a = Some s -> linked h a s node rel !! x = Some sx ->
  (x = a /\ sx = with_Branches s (seg_Branches s ++ [length h]) (grown_cap s)) \/
  (x <> a /\ h !! x = Some sx) \/ (x = length h /\ sx = new_segment a node rel).
Proof.
  intros Hs Hx. rewrite linked_lookup in Hx by done. case_decide as Hxa; [left; by simplify_eq|].
  apply lookup_app_Some in Hx as [Hx|[Hge Hx]]; [by right; left|].
  apply list_lookup_singleton_Some in Hx as [Hx <-]. right; right. split; [lia|done].
Qed.

Lemma linked_branch h a s node rel x sx b :
  tree_ok h -> h !! a = Some s -> linked h a s node rel !! x = Some sx ->
  b ∈ seg_Branches sx <-> exists sb, linked h a s node rel !! b = Some sb /\ seg_Trunk sb = Some x.
Proof.
  intros Hok Hs Hx. rewrite linked_trunk by done.
  destruct (linked_branches h a s node rel x sx Hs Hx) as [[-> ->]|[[Hne Hx']|[-> ->]]].
  - simpl. rewrite elem_of_app, (ok_branch _ Hok a s b Hs). set_solver.
  - rewrite (ok_branch _ Hok x sx b Hx'). intuition.
  - pose proof (lookup_lt_Some _ _ _ Hs). split; [set_solver|].
    intros [(sb & Hsb & Ht)|[_ Hx']]; [|lia]. pose proof (ok_down _ Hok _ _ _ Hsb Ht).
    apply lookup_lt_Some in Hsb. lia.
Qed.

Lemma linked_nodup h a s node rel x sx :
  tree_ok h -> h !! a = Some s -> linked h a s node rel !! x = Some sx -> NoDup (seg_Branches sx).
Proof.
  intros Hok Hs Hx.
  destruct (linked_branches h a s node rel x sx Hs Hx) as [[-> ->]|[[Hne Hx']|[-> ->]]].
  - simpl. apply NoDup_app. split_and!; [by apply (ok_nodup _ Hok a)| |apply NoDup_singleton].
    intros b Hb%(ok_branch _ Hok a s b Hs) ->%list_elem_of_singleton. destruct Hb as (sb & Hsb & _).
    apply lookup_lt_Some in Hsb. lia.
  - by apply (ok_nodup _ Hok x).
  - constructor.
Qed.

Lemma size_at_linked h a s node rel x : h !! a = Some s ->
  size_at (linked h a s node rel) x = if decide (x = length h) then seg_size (new_segment a node rel) else size_at h x.
Proof.
  intros Hs. pose proof (lookup_lt_Some _ _ _ Hs) as Ha. unfold size_at. rewrite linked_lookup by done.
  destruct (decide (x = a)) as [->|Hxa]; [rewrite decide_False by lia; by rewrite Hs|].
  destruct (decide (x = length h)) as [->|Hxl]; [by rewrite lookup_app_r, Nat.sub_diag by lia|].
  destruct (decide (x < length h)); [by rewrite lookup_app_l|].
  rewrite (lookup_ge_None_2 h), lookup_ge_None_2 by (rewrite ?length_app; simpl; lia). done.
Qed.

Lemma branch_total_linked h a s node rel bs : h !! a = Some s -> Forall (fun b => b < length h) bs ->
  branch_total (linked h a s node rel) bs = branch_total h bs.
Proof.
  intros Hs. induction 1 as [|b bs Hb _ IH]; simpl; [done|]. rewrite IH, size_at_linked by done.
  by rewrite decide_False by lia.
Qed.

Lemma branches_bound h x sx : tree_ok h -> h !! x = Some sx -> Forall (fun b => b < length h) (seg_Branches sx).
Proof.
  intros Hok Hx. apply Forall_forall. intros b (sb & Hsb & _)%(ok_branch _ Hok x sx b Hx).
  by eapply lookup_lt_Some.
Qed.

Lemma branch_total_snoc h bs b : branch_total h (bs ++ [b]) = (branch_total h bs + size_at h b)%Z.
Proof. induction bs as [|x bs IH]; simpl; [lia|]. unfold branch_total in *. rewrite IH. lia. Qed.

(** The size equation of the linked tree, once the sizes along the chain have
    grown by the new segment's and the new capacity's. *)
Lemma linked_size h a s node rel c x sx :
  tree_ok h -> h !! a = Some s -> chain (linked h a s node rel) a c -> linked h a s node rel !! x = Some sx ->
  wrap64 (size_at (linked h a s node rel) x + (if decide (x ∈ c) then descend_delta a s node rel else 0))
  = wrap64 (own_size nodeSize edgeSize sx + branch_total (linked h a s node rel) (seg_Branches sx)
            + (if decide (Exists (.∈ c) (seg_Branches sx)) then descend_delta a s node rel else 0)).
Proof.
  intros Hok Hs Hc Hx. pose proof (linked_down h a s node rel Hs (ok_down _ Hok)) as Hd2.
  pose proof (lookup_lt_Some _ _ _ Hs) as Ha. set (h2 := linked h a s node rel) in *.
  assert (Hex : Exists (.∈ c) (seg_Branches sx) <-> x ∈ c /\ x <> a).
  { rewrite <- (chain_child h2 a c x Hd2 Hc), Exists_exists. split.
    - intros (b & Hb & Hbc). apply (linked_branch h a s node rel x sx b Hok Hs Hx) in Hb as (sb & Hsb & Ht). eauto.
    - intros (b & sb & Hbc & Hsb & Ht). exists b. split; [|done].
      apply (linked_branch h a s node rel x sx b Hok Hs Hx). eauto. }
  assert (Hac : a ∈ c) by (destruct Hc; set_solver).
  destruct (linked_branches h a s node rel x sx Hs Hx) as [[-> ->]|[[Hne Hx']|[-> ->]]].
  - rewrite (decide_False (P := Exists _ _)), decide_True by tauto. simpl.
    rewrite branch_total_snoc. unfold h2. rewrite !size_at_linked, decide_False, decide_True by (done || lia).
    rewrite branch_total_linked by (done || by apply (branches_bound h a)).
    unfold size_at at 1. rewrite Hs, (ok_size _ Hok a s Hs), wrap64_add_l. f_equal.
    unfold own_size, descend_delta. simpl. lia.
  - rewrite (decide_ext (Exists (.∈ c) (seg_Branches sx)) (x ∈ c)) by tauto.
    pose proof (lookup_lt_Some _ _ _ Hx'). unfold h2 at 1. rewrite size_at_linked, decide_False by (done || lia).
    unfold size_at. rewrite Hx', (ok_size _ Hok x sx Hx'), wrap64_add_l.
    unfold h2. rewrite branch_total_linked by (done || by apply (branches_bound h x)). f_equal.
  - assert (Hn : length h ∉ c) by (intros Hin; pose proof (chain_mem_lt h2 a c _ Hd2 Hc Hin); lia).
    rewrite !decide_False by tauto. unfold h2. rewrite size_at_linked, decide_True by done. simpl.
    rewrite !Z.add_0_r. unfold wrap64. rewrite Z.mod_mod by done. done.
Qed.

Lemma Descend_ok h a node rel :
  tree_ok h -> a < length h ->
  exists h', PathSegment_Descend nodeSize edgeSize growslice h a node rel = Done (h', length h) /\
    tree_ok h' /\ length h' = S (length h).
Proof.
  intros Hok Ha. destruct (lookup_lt_is_Some_2 h a Ha) as [s Hs].
  destruct (Descend_steps h a s node rel Hs (ok_down _ Hok)) as (h' & c & E & Hc & Hsh & Hz).
  pose proof (linked_down h a s node rel Hs (ok_down _ Hok)) as Hd2. exists h'. split; [done|].
  split; [|destruct Hsh as [<- _]; unfold linked; rewrite length_alter, length_app; simpl; lia].
  split.
  - intros x sx t Hx Ht. destruct (shape_lookup _ _ _ _ Hsh Hx) as (s2 & Hs2 & ->). exact (Hd2 _ _ _ Hs2 Ht).
  - intros x sx b Hx. destruct (shape_lookup _ _ _ _ Hsh Hx) as (s2 & Hs2 & ->). simpl.
    rewrite (linked_branch h a s node rel x s2 b Hok Hs Hs2). split; intros (sb & Hsb & Ht).
    + eexists. split; [by apply (shape_lookup' _ _ _ _ Hsh Hsb)|done].
    + destruct (shape_lookup _ _ _ _ Hsh Hsb) as (s3 & Hs3 & ->). eauto.
  - intros x sx Hx. destruct (shape_lookup _ _ _ _ Hsh Hx) as (s2 & Hs2 & ->).
    exact (linked_nodup h a s node rel x s2 Hok Hs Hs2).
  - intros x sx Hx. destruct (shape_lookup _ _ _ _ Hsh Hx) as (s2 & Hs2 & ->).
    change (own_size nodeSize edgeSize (with_size s2 (size_at h' x))) with (own_size nodeSize edgeSize s2).
    cbn [seg_size with_size seg_Branches].
    rewrite (branch_total_grown (linked h a s node rel) h' c _ _ _ Hz).
    + rewrite <- (linked_size h a s node rel c x s2 Hok Hs Hc Hs2), Hz. case_decide; [done|].
      rewrite Z.add_0_r.
      destruct (linked_branches h a s node rel x s2 Hs Hs2) as [[-> ->]|[[Hne Hx']|[-> ->]]].
      * destruct Hc; set_solver.
      * rewrite size_at_linked by done. apply lookup_lt_Some in Hx' as ?. rewrite decide_False by lia.
        unfold size_at. rewrite Hx', (ok_size _ Hok x s2 Hx'). unfold wrap64. by rewrite Z.mod_mod.
      * rewrite size_at_linked, decide_True by done. simpl. unfold wrap64. by rewrite Z.mod_mod.
    + by eapply linked_nodup.
    + intros b b' Hb Hb' Hbc Hbc'.
      apply (linked_branch h a s node rel x s2 b Hok Hs Hs2) in Hb as (sb & Hsb & Ht).
      apply (linked_branch h a s node rel x s2 b' Hok Hs Hs2) in Hb' as (sb' & Hsb' & Ht').
      by eapply chain_child_unique.
Qed.
End sizes.

(** The calls that grow a tree: the segment to descend from, the node and the
    relationship. *)
Definition descent : Type := nat * Node * option Relationship.

Fixpoint grow (nodeSize : Node -> Z) (edgeSize : Relationship -> Z) (growslice : nat -> nat -> nat)
    (h : heap) (ds : list descent) : outcome heap :=
  match ds with
  | [] => Done h
  | (a, node, rel) :: ds' =>
      '(h', _) ← PathSegment_Descend nodeSize edgeSize growslice h a node rel;
      grow nodeSize edgeSize growslice h' ds'
  end.

Lemma root_ok nodeSize edgeSize root :
  exists h, NewRootPathSegment nodeSize edgeSize root = Done h /\ tree_ok nodeSize edgeSize h /\ length h = 1.
Proof.
  eexists. split; [by apply (computeAndSetSize_leaf nodeSize edgeSize [] (mkSegment root None None [] 0 0))|].
  split; [|done]. split.
  - intros a s t Ha Ht. apply list_lookup_singleton_Some in Ha as [_ <-]. done.
  - intros a s b Ha. apply list_lookup_singleton_Some in Ha as [_ <-]. simpl. split; [set_solver|].
    intros (sb & Hb & Ht). apply list_lookup_singleton_Some in Hb as [_ <-]. done.
  - intros a s Ha. apply list_lookup_singleton_Some in Ha as [_ <-]. constructor.
  - intros a s Ha. apply list_lookup_singleton_Some in Ha as [_ <-]. simpl. by rewrite Z.add_0_r.
Qed.

Lemma grow_ok nodeSize edgeSize growslice ds : forall h,
  tree_ok nodeSize edgeSize h ->
  (forall i a n r, ds !! i = Some (a, n, r) -> a < length h + i) ->
  exists h', grow nodeSize edgeSize growslice h ds = Done h' /\ tree_ok nodeSize edgeSize h' /\
    length h' = length h + length ds.
Proof.
  induction ds as [|[[a n] r] ds IH]; intros h Hok Hds; simpl.
  { exists h. split_and!; [done..|lia]. }
  destruct (Descend_ok nodeSize edgeSize growslice h a n r Hok) as (h1 & E1 & Hok1 & Hl1).
  { specialize (Hds 0 a n r eq_refl). lia. }
  rewrite E1. simpl. destruct (IH h1 Hok1) as (h' & E & Hok' & Hl').
  { intros i b n' r' Hi. specialize (Hds (S i) b n' r' Hi). lia. }
  exists h'. split_and!; [done..|lia].
Qed.

(** Size accounting of path trees.  However a tree is grown from
    [NewRootPathSegment] by [Descend] calls on its segments, no call panics or
    gets stuck, trunks and branches stay inverse to each other without
    duplicates or cycles, and at every segment the running size kept by the
    incremental updates is what recomputing it would give: the segment's own
    size, the capacity of its branch slice and the sizes of its branches,
    modulo 2^64. *)
Theorem PathTree_sizes nodeSize edgeSize growslice root (ds : list descent) :
  (forall i a n r, ds !! i = Some (a, n, r) -> a <= i) ->
  exists h0 h, NewRootPathSegment nodeSize edgeSize root = Done h0 /\
    grow nodeSize edgeSize growslice h0 ds = Done h /\
    tree_ok nodeSize edgeSize h /\ length h = S (length ds).
Proof.
  intros Hds. destruct (root_ok nodeSize edgeSize root) as (h0 & E0 & Hok0 & Hl0).
  destruct (grow_ok nodeSize edgeSize growslice ds h0 Hok0) as (h & E & Hok & Hl).
  { intros i a n r Hi. specialize (Hds i a n r Hi). lia. }
  exists h0, h. split_and!; [done..|lia].
Qed.

Definition sample_node (id : Z) : Node := mkNode id nilKinds nilKinds nilKinds None.

Lemma PathTree_sizes_witness :
  exists h0 h, NewRootPathSegment (fun _ => 100%Z) (fun _ => 50%Z) (sample_node 1) = Done h0 /\
    grow (fun _ => 100%Z) (fun _ => 50%Z) (fun c n => 2 * c) h0
      [(0, sample_node 2, None); (0, sample_node 3, None); (1, sample_node 4, None)] = Done h /\
    tree_ok (fun _ => 100%Z) (fun _ => 50%Z) h.
Proof.
  destruct (PathTree_sizes (fun _ => 100%Z) (fun _ => 50%Z) (fun c n => 2 * c) (sample_node 1)
    [(0, sample_node 2, None); (0, sample_node 3, None); (1, sample_node 4, None)])
    as (h0 & h & E0 & E & Hok & _); [|by exists h0, h].
  intros [|[|[|i]]] a n r Hi; simplify_eq/=; lia.
Defined.

Lemma PathSegment_Path_exact_witness :
  let h := [mkSegment (sample_node 1) None None [1] 1 0; mkSegment (sample_node 2) (Some 0) None [2] 1 0;
            mkSegment (sample_node 1) (Some 1) None [] 0 0] in
  exists c, chain h 2 c /\ PathSegment_IsCycle h 2 = Done true.
Proof.
  intros h. destruct (PathSegment_Path_exact h 2) as (c & Hc & _ & _ & _).
  - intros [|[|[|a]]] s t Ha Ht; simplify_eq/=; lia.
  - simpl. lia.
  - by exists c.
Defined.
