(* ===== verification/EliasFano.v ===== *)
(** * Elias-Fano sets (container/ef.go)

    An [EFSet] keeps an ascending list of 64-bit values in two bit sets: the
    high part of value number [i] is the position of the [i]-th set bit of
    [upperBits], less [i + 1]; its low bits stand in [lowerBits], most
    significant first, from position [i * lowerBitsLength + 1].

    The bit set library is a class with its documented behaviour as laws, and
    so is the rounded-up binary logarithm of [math], of which only the accuracy
    is used: the theorems do not depend on how it rounds. *)

From S2P Require Import Prelude.

(** ** The bit set library *)

Class BitSet (B : Type) := {
  bs_New : Z -> B;
  bs_Len : B -> Z;
  bs_Set : Z -> B -> B;
  bs_SetTo : Z -> bool -> B -> B;
  bs_Test : Z -> B -> bool;
  bs_Select : Z -> B -> Z;
  bs_NextSet : Z -> B -> Z * bool
}.

Class BitSetLaws (B : Type) `{BitSet B} : Prop := {
  bl_New n i : bs_Test i (bs_New n) = false;
  bl_Set i j b : bs_Test j (bs_Set i b) = bool_decide (j = i) || bs_Test j b;
  bl_SetTo i v j b : bs_Test j (bs_SetTo i v b) = if decide (j = i) then v else bs_Test j b;
  (** the position of set bit number [n], counted from zero *)
  bl_Select (l : list Z) n i b : StronglySorted Z.lt l -> (forall j, j ∈ l <-> bs_Test j b = true) ->
    l !! n = Some i -> bs_Select (Z.of_nat n) b = i;
  (** the first set bit at or after [i] *)
  bl_NextSet i k b : (i <= k)%Z -> bs_Test k b = true -> (forall j, (i <= j < k)%Z -> bs_Test j b = false) ->
    bs_NextSet i b = (k, true)
}.

(** A model of the library: a length and the set of the bits that are set.
    Writing past the end extends it; [Select] past the last set bit is the length. *)
Record bits := mkBits { bits_len : Z; bits_set : gset Z }.

Definition bits_sorted (b : bits) : list Z := merge_sort Z.le (elements (bits_set b)).

#[export] Instance BitSet_bits : BitSet bits := {
  bs_New n := mkBits n ∅;
  bs_Len := bits_len;
  bs_Set i b := mkBits (Z.max (bits_len b) (i + 1)) ({[i]} ∪ bits_set b);
  bs_SetTo i v b :=
    if v then mkBits (Z.max (bits_len b) (i + 1)) ({[i]} ∪ bits_set b)
    else mkBits (bits_len b) (bits_set b ∖ {[i]});
  bs_Test i b := bool_decide (i ∈ bits_set b);
  bs_Select n b :=
    if decide (n < Z.of_nat (length (bits_sorted b)))%Z then default (bits_len b) (bits_sorted b !! Z.to_nat n)
    else bits_len b;
  bs_NextSet i b :=
    match filter (fun k => (i <= k)%Z) (bits_sorted b) with k :: _ => (k, true) | [] => (0%Z, false) end
}.

Lemma bits_sorted_strict b : StronglySorted Z.lt (bits_sorted b).
Proof. apply merge_sort_strict. Qed.

Lemma elem_of_bits_sorted b i : i ∈ bits_sorted b <-> i ∈ bits_set b.
Proof. unfold bits_sorted. by rewrite merge_sort_Permutation, elem_of_elements. Qed.

#[export] Instance BitSetLaws_bits : BitSetLaws bits.
Proof.
  split; cbn.
  - intros n i. by rewrite bool_decide_eq_false_2.
  - intros i j b. repeat case_bool_decide; cbn; done || set_solver.
  - intros i v j b. destruct v; cbn; case_decide; case_bool_decide; try case_bool_decide; done || set_solver.
  - intros l n i b Hl Hin Hn.
    replace (bits_sorted b) with l; [rewrite decide_True, Nat2Z.id, Hn; [done|apply lookup_lt_Some in Hn; lia]|].
    apply StronglySorted_lt_unique; [done|apply bits_sorted_strict|].
    intros x. rewrite Hin, elem_of_bits_sorted. apply bool_decide_eq_true.
  - intros i k b Hik Hk Hbefore. apply bool_decide_eq_true in Hk.
    destruct (filter (fun k => (i <= k)%Z) (bits_sorted b)) as [|x l] eqn:Hf.
    { exfalso. eapply filter_nil_not_elem_of; [exact Hf|exact Hik|]. by apply elem_of_bits_sorted. }
    assert (Hx : x ∈ filter (fun k => (i <= k)%Z) (bits_sorted b)) by (rewrite Hf; by left).
    apply list_elem_of_filter in Hx as [Hix Hx]. rewrite elem_of_bits_sorted in Hx.
    assert (Hk' : k ∈ x :: l).
    { rewrite <- Hf. apply list_elem_of_filter. by rewrite elem_of_bits_sorted. }
    assert (Hs : StronglySorted Z.lt (x :: l)).
    { rewrite <- Hf. apply StronglySorted_filter, bits_sorted_strict. }
    apply StronglySorted_cons in Hs as [Hall _]. rewrite Forall_forall in Hall.
    apply elem_of_cons in Hk' as [->|Hk']; [done|]. specialize (Hall k Hk').
    specialize (Hbefore x). rewrite bool_decide_eq_false in Hbefore. exfalso. apply Hbefore; [lia|done].
Qed.

(** ** math.Ceil(math.Log2(float64(x)))

    What is used of it: it is monotone and within one of the exact value. *)
Class CeilLog2 := {
  ceil_log2 : Z -> Z;
  cl_mono x y : (1 <= x <= y)%Z -> (y < two64)%Z -> (ceil_log2 x <= ceil_log2 y)%Z;
  cl_low x : (2 <= x < two64)%Z -> (1 <= ceil_log2 x)%Z /\ (2 ^ (ceil_log2 x - 1) <= x)%Z;
  cl_high x : (2 <= x < two64)%Z -> (x < 2 ^ (ceil_log2 x + 1))%Z
}.

(** ** The set *)

Section efset.
Context {B : Type} `{HB : BitSet B} `{HL : CeilLog2}.

Inductive EFError := ErrUnorderedAppend | ErrValueOutsideUniverse.

Record EFSet := mkEFSet {
  upperBits : B;
  lowerBits : B;
  universeMin : Z;
  universeMax : Z;
  ef_last : Z;
  upperBitsLength : Z;
  lowerBitsLength : Z;
  lowerBitsMask : Z;
  ef_len : Z
}.

(** The lengths both constructors compute. *)
Definition upper_length (maxValues : Z) : Z := ceil_log2 (Z.max maxValues 2).
Definition lower_length (universeMax maxValues : Z) : Z :=
  Z.max (ceil_log2 (Z.max universeMax 2)) (ceil_log2 (wrap64 (maxValues + 2))) - upper_length maxValues.

Definition NewEFSet (universeMin universeMax maxValues : Z) : EFSet :=
  let lowerBitsLength := lower_length universeMax maxValues in
  mkEFSet (bs_New 0) (bs_New 0) universeMin universeMax 0 (upper_length maxValues) lowerBitsLength
    (wrap64 (wrap64 (Z.shiftl 1 lowerBitsLength) - 1)) 0.

Definition AllocateEFSet (universeMin universeMax maxValues : Z) : EFSet :=
  let lowerBitsLength := lower_length universeMax maxValues in
  let upperBitsetLength := wrap64 (maxValues + Z.shiftr universeMax lowerBitsLength + 2) in
  mkEFSet (bs_New upperBitsetLength) (bs_New (wrap64 (maxValues * lowerBitsLength))) universeMin universeMax 0
    (upper_length maxValues) lowerBitsLength (wrap64 (wrap64 (Z.shiftl 1 lowerBitsLength) - 1)) 0.

Definition EFSet_Len (s : EFSet) : Z := ef_len s.

(** The loop that reads low bits [idx .. bound): at most [lowerBitsLength] turns. *)
Fixpoint read_lower (turns : nat) (b : B) (idx bound lower : Z) : Z :=
  match turns with
  | O => lower
  | S turns' =>
      if (idx <? bound)%Z then
        let lower := wrap64 (Z.shiftl lower 1) in
        let lower := if bs_Test (wrap64 (idx + 1)) b then wrap64 (lower + 1) else lower in
        read_lower turns' b (wrap64 (idx + 1)) bound lower
      else lower
  end.

Definition EFSet_Lookup (s : EFSet) (index : Z) : Z :=
  let upper := wrap64 (bs_Select index (upperBits s) - index - 1) in
  let lowerIndex := wrap64 (index * lowerBitsLength s) in
  let lower := read_lower (Z.to_nat (lowerBitsLength s)) (lowerBits s) lowerIndex
                 (wrap64 (lowerIndex + lowerBitsLength s)) 0 in
  wrap64 (Z.lor (wrap64 (Z.shiftl upper (lowerBitsLength s))) lower + universeMin s).

(** The loop that writes the low bits. *)
Fixpoint write_lower (turns : nat) (bitIdx l lower lowerOffset : Z) (b : B) : B :=
  match turns with
  | O => b
  | S turns' =>
      let lowerBitValue := Z.land lower (wrap64 (Z.shiftl 1 (wrap64 (l - bitIdx - 1)))) in
      write_lower turns' (bitIdx + 1) l lower lowerOffset
        (bs_SetTo (wrap64 (lowerOffset + bitIdx + 1)) (0 <? lowerBitValue)%Z b)
  end.

Definition EFSet_append (s : EFSet) (value : Z) : EFSet :=
  let adjusted := wrap64 (value - universeMin s) in
  let upper := Z.shiftr adjusted (lowerBitsLength s) in
  let lower := Z.land adjusted (lowerBitsMask s) in
  let lowerOffset := wrap64 (ef_len s * lowerBitsLength s) in
  mkEFSet (bs_Set (wrap64 (upper + ef_len s + 1)) (upperBits s))
    (write_lower (Z.to_nat (lowerBitsLength s)) 0 (lowerBitsLength s) lower lowerOffset (lowerBits s))
    (universeMin s) (universeMax s) value (upperBitsLength s) (lowerBitsLength s) (lowerBitsMask s)
    (wrap64 (ef_len s + 1)).

Definition EFSet_Append (s : EFSet) (value : Z) : EFSet * option EFError :=
  if (value <? universeMin s)%Z || (universeMax s <? value)%Z then (s, Some ErrValueOutsideUniverse)
  else if (value <? ef_last s)%Z then (s, Some ErrUnorderedAppend)
  else (EFSet_append s value, None).

Definition EFSet_MustAppend (s : EFSet) (value : Z) : outcome EFSet :=
  if (value <? universeMin s)%Z || (universeMax s <? value)%Z then Panic
  else if (value <? ef_last s)%Z then Panic
  else Done (EFSet_append s value).

Definition Find_step (s : EFSet) (target : Z) (st : Z * Z) : (Z * Z) + (Z * bool) :=
  let '(lowEntry, highEntry) := st in
  if (lowEntry <=? highEntry)%Z then
    let midEntry := wrap64 (lowEntry + wrap64 (highEntry - lowEntry) / 2) in
    let nextValue := EFSet_Lookup s midEntry in
    if (nextValue =? target)%Z then inr (midEntry, true)
    else if (nextValue <? target)%Z then inl (wrap64 (midEntry + 1), highEntry)
    else inl (lowEntry, wrap64 (midEntry - 1))
  else inr (0%Z, false).

Definition EFSet_Find (fuel : nat) (s : EFSet) (target : Z) : outcome (Z * bool) :=
  match iterate fuel (Find_step s target) (0%Z, wrap64 (ef_len s - 1)) with
  | Some r => Done r
  | None => Spent
  end.

Fixpoint must_append_all (s : EFSet) (values : list Z) : outcome EFSet :=
  match values with
  | [] => Done s
  | v :: values' => s' ← EFSet_MustAppend s v; must_append_all s' values'
  end.

Definition CompressToEFSet (values : list Z) : outcome EFSet :=
  first ← slice_get values 0;
  final ← slice_get values (Z.of_nat (length values) - 1);
  must_append_all (AllocateEFSet first final (Z.of_nat (length values))) values.

(** *** The iterator *)

Record EFSetIterator := mkIterator { it_upperIdx : Z; it_lowerIdx : Z }.

Definition NewEFSetIterator : EFSetIterator := mkIterator 0 0.

Definition advanceHigherBitsPosition (s : EFSet) (it : EFSetIterator) : EFSetIterator :=
  let upperIdx := if (0 <? it_upperIdx it)%Z then wrap64 (it_upperIdx it + 1) else it_upperIdx it in
  mkIterator (bs_NextSet upperIdx (upperBits s)).1 (it_lowerIdx it).

Definition EFSetIterator_Next (s : EFSet) (it : EFSetIterator) : Z * EFSetIterator :=
  let lowerLookupIdx := wrap64 (it_lowerIdx it * lowerBitsLength s) in
  let it := advanceHigherBitsPosition s it in
  let nextLower := read_lower (Z.to_nat (lowerBitsLength s)) (lowerBits s) lowerLookupIdx
                     (wrap64 (lowerLookupIdx + lowerBitsLength s)) 0 in
  let upper := wrap64 (it_upperIdx it - it_lowerIdx it - 1) in
  (wrap64 (Z.lor (wrap64 (Z.shiftl upper (lowerBitsLength s))) nextLower + universeMin s),
   mkIterator (it_upperIdx it) (wrap64 (it_lowerIdx it + 1))).

(** The loop of [Iterator], [turns] being [s.len - idx]. *)
Fixpoint iterator_loop {St} (turns : nat) (s : EFSet) (yield : Z -> Z -> St -> St * bool) (idx : Z)
    (it : EFSetIterator) (st : St) : St :=
  match turns with
  | O => st
  | S turns' =>
      let '(v, it') := EFSetIterator_Next s it in
      let '(st', continue) := yield idx v st in
      if continue then iterator_loop turns' s yield (wrap64 (idx + 1)) it' st' else st'
  end.

Definition EFSet_Iterator {St} (s : EFSet) (yield : Z -> Z -> St -> St * bool) (st : St) : St :=
  iterator_loop (Z.to_nat (ef_len s)) s yield 0 NewEFSetIterator st.

(** ** Bits *)

Lemma div_pow2_step x m : (0 <= m)%Z ->
  (x / 2 ^ m = 2 * (x / 2 ^ (m + 1)) + Z.b2z (Z.testbit x m))%Z.
Proof using Type.
  intros Hm. rewrite Z.testbit_spec', Z.pow_add_r, <- Zdiv.Zdiv_Zdiv by lia.
  change (2 ^ 1)%Z with 2%Z. apply Z.div_mod. lia.
Qed.

(** Reading the low bits gives the value below the high part. *)
Lemma read_lower_from n (b : B) base l x :
  (0 <= x)%Z -> (0 <= base)%Z -> (l <= 63)%Z -> (base + l + 1 < two64)%Z -> (Z.of_nat n <= l)%Z ->
  (forall j, (0 <= j < l)%Z -> bs_Test (base + j + 1)%Z b = Z.testbit x (l - 1 - j)) ->
  read_lower n b (base + (l - Z.of_nat n)) (base + l) (x mod 2 ^ l / 2 ^ Z.of_nat n) = (x mod 2 ^ l)%Z.
Proof using Type.
  intros Hx Hb Hl Hroom. induction n as [|n IH]; intros Hn Hbits.
  { cbn [read_lower]. by rewrite Z.div_1_r. }
  assert (Hy : (0 <= x mod 2 ^ l < 2 ^ l)%Z) by (apply Z.mod_pos_bound; lia).
  assert (Hq : (0 <= x mod 2 ^ l / 2 ^ Z.of_nat (S n) < 2 ^ 62)%Z).
  { split; [apply Z.div_pos; lia|]. apply Z.div_lt_upper_bound; [lia|].
    rewrite <- Z.pow_add_r by lia. eapply Z.lt_le_trans; [apply Hy|]. apply Z.pow_le_mono_r; lia. }
  cbn [read_lower]. rewrite (proj2 (Z.ltb_lt _ _)) by lia.
  replace (base + (l - Z.of_nat (S n)) + 1)%Z with (base + (l - Z.of_nat n))%Z by lia.
  rewrite !(wrap64_small (base + _)) by lia.
  assert (Htest : bs_Test (base + (l - Z.of_nat n))%Z b = Z.testbit x (Z.of_nat n)).
  { specialize (Hbits (l - Z.of_nat n - 1)%Z ltac:(lia)).
    replace (base + (l - Z.of_nat n - 1) + 1)%Z with (base + (l - Z.of_nat n))%Z in Hbits by lia.
    rewrite Hbits. f_equal. lia. }
  rewrite Htest.
  rewrite Z.shiftl_mul_pow2 by lia. change (2 ^ 1)%Z with 2%Z.
  rewrite (wrap64_small (_ * 2)) by (unfold two64; lia).
  rewrite (wrap64_small (_ * 2 + 1)) by (unfold two64; lia).
  rewrite <- IH at 3 by (done || lia). f_equal.
  rewrite (div_pow2_step (x mod 2 ^ l) (Z.of_nat n)) by lia.
  replace (Z.of_nat n + 1)%Z with (Z.of_nat (S n)) by lia.
  rewrite Z.mod_pow2_bits_low by lia. destruct (Z.testbit x (Z.of_nat n)); cbn [Z.b2z]; lia.
Qed.

Lemma read_lower_exact (b : B) base l x :
  (0 <= x)%Z -> (0 <= base)%Z -> (0 <= l <= 63)%Z -> (base + l + 1 < two64)%Z ->
  (forall j, (0 <= j < l)%Z -> bs_Test (base + j + 1)%Z b = Z.testbit x (l - 1 - j)) ->
  read_lower (Z.to_nat l) b base (base + l) 0 = (x mod 2 ^ l)%Z.
Proof using Type.
  intros Hx Hb Hl Hroom Hbits.
  pose proof (read_lower_from (Z.to_nat l) b base l x Hx Hb ltac:(lia) Hroom ltac:(lia) Hbits) as H.
  rewrite Z2Nat.id in H by lia. rewrite Z.sub_diag, Z.add_0_r in H. rewrite Z.div_small in H; [done|].
  apply Z.mod_pos_bound. lia.
Qed.

(** The high and the low part make up the value. *)
Lemma join_parts x l : (0 <= l)%Z -> (0 <= x < two64)%Z ->
  Z.lor (wrap64 (Z.shiftl (x / 2 ^ l) l)) (x mod 2 ^ l) = x.
Proof using Type.
  intros Hl Hx. rewrite Z.shiftl_mul_pow2 by done.
  assert (Hdm := Z.div_mod x (2 ^ l) ltac:(lia)). assert (Hm := Z.mod_pos_bound x (2 ^ l) ltac:(lia)).
  rewrite wrap64_small by (split; [apply Z.mul_nonneg_nonneg; [apply Z.div_pos|]; lia|lia]).
  apply Z.bits_inj'. intros n Hn. rewrite Z.lor_spec. destruct (Z.lt_ge_cases n l) as [Hlt|Hge].
  - rewrite Z.mul_pow2_bits_low by done. by rewrite Z.mod_pow2_bits_low by lia.
  - rewrite (Z.mod_pow2_bits_high x l n) by lia. rewrite orb_false_r.
    rewrite Z.mul_pow2_bits by done. rewrite Z.div_pow2_bits by lia. f_equal. lia.
Qed.

Lemma land_bit x m : (0 <= x)%Z -> (0 <= m)%Z -> (0 <? Z.land x (2 ^ m))%Z = Z.testbit x m.
Proof using Type.
  intros Hx Hm. destruct (Z.testbit x m) eqn:Ht.
  - apply Z.ltb_lt. assert (Z.land x (2 ^ m) <> 0)%Z.
    { intros E. assert (Hb := Z.land_spec x (2 ^ m) m). rewrite E, Z.bits_0, Ht, Z.pow2_bits_true in Hb by done. done. }
    assert (0 <= Z.land x (2 ^ m))%Z by (apply Z.land_nonneg; lia). lia.
  - apply Z.ltb_ge. enough (Z.land x (2 ^ m) = 0)%Z by lia. apply Z.bits_inj'. intros n Hn.
    rewrite Z.land_spec, Z.bits_0. destruct (decide (m = n)) as [<-|Hne]; [by rewrite Ht|].
    rewrite Z.pow2_bits_false by done. apply andb_false_r.
Qed.

Context `{HBL : !BitSetLaws B}.

(** Writing the low bits of one value leaves the others. *)
Lemma write_lower_from n k l lower off (b : B) :
  (0 <= k)%Z -> (k + Z.of_nat n = l)%Z -> (l <= 63)%Z -> (0 <= lower)%Z -> (0 <= off)%Z -> (off + l + 1 < two64)%Z ->
  forall p, bs_Test p (write_lower n k l lower off b) =
    if decide (off + k + 1 <= p < off + l + 1)%Z then Z.testbit lower (l - 1 - (p - off - 1)) else bs_Test p b.
Proof using HBL.
  revert k b. induction n as [|n IH]; intros k b Hk Hkn Hl Hlo Hoff Hroom p; cbn [write_lower].
  { by rewrite decide_False by lia. }
  rewrite IH by lia. rewrite bl_SetTo. rewrite (wrap64_small (l - k - 1)) by (unfold two64; lia).
  rewrite (wrap64_small (off + k + 1)) by lia.
  rewrite Z.shiftl_mul_pow2, Z.mul_1_l by lia.
  assert (0 < 2 ^ (l - k - 1) < two64)%Z.
  { split; [apply Z.pow_pos_nonneg; lia|]. apply Z.pow_lt_mono_r; lia. }
  rewrite wrap64_small by lia. rewrite land_bit by lia.
  destruct (decide (p = off + k + 1)%Z) as [->|Hne].
  - rewrite decide_False, decide_True by lia. f_equal. lia.
  - apply decide_ext. lia.
Qed.

Lemma write_lower_exact l lower off (b : B) :
  (0 <= l <= 63)%Z -> (0 <= lower)%Z -> (0 <= off)%Z -> (off + l + 1 < two64)%Z ->
  forall p, bs_Test p (write_lower (Z.to_nat l) 0 l lower off b) =
    if decide (off + 1 <= p < off + l + 1)%Z then Z.testbit lower (l - (p - off)) else bs_Test p b.
Proof using HBL.
  intros Hl Hlo Hoff Hroom p. rewrite write_lower_from by lia. rewrite Z.add_0_r.
  case_decide; [|done]. f_equal. lia.
Qed.

(** ** What a set holds *)

(** The positions of the high parts. *)
Definition positions (s : EFSet) (vs : list Z) : list Z :=
  imap (fun i v => (v - universeMin s) / 2 ^ lowerBitsLength s + Z.of_nat i + 1)%Z vs.

Record efset_rep (s : EFSet) (vs : list Z) : Prop := {
  er_l : (0 <= lowerBitsLength s <= 63)%Z;
  er_mask : lowerBitsMask s = (2 ^ lowerBitsLength s - 1)%Z;
  er_len : ef_len s = Z.of_nat (length vs);
  er_universe : (0 <= universeMin s)%Z /\ (universeMax s < two64)%Z;
  er_in : forall v, v ∈ vs -> (universeMin s <= v <= universeMax s)%Z;
  er_sorted : StronglySorted Z.le vs;
  er_last : ef_last s = default 0%Z (last vs);
  er_upper : forall p, bs_Test p (upperBits s) = true <-> p ∈ positions s vs;
  er_lower : forall i v j, vs !! i = Some v -> (0 <= j < lowerBitsLength s)%Z ->
    bs_Test (Z.of_nat i * lowerBitsLength s + j + 1)%Z (lowerBits s) =
    Z.testbit (v - universeMin s) (lowerBitsLength s - 1 - j)
}.

(** [n] values have room: no position overflows. *)
Definition room (s : EFSet) (n : Z) : Prop :=
  ((universeMax s - universeMin s) / 2 ^ lowerBitsLength s + n + 1 < two64)%Z /\
  (n * lowerBitsLength s + 1 < two64)%Z.

Lemma StronglySorted_imap (f : nat -> Z -> Z) (vs : list Z) :
  (forall i j v w, i < j -> vs !! i = Some v -> vs !! j = Some w -> (f i v < f j w)%Z) ->
  StronglySorted Z.lt (imap f vs).
Proof using Type.
  revert f. induction vs as [|v vs IH]; intros f Hf; cbn [imap]; constructor.
  - apply IH. intros i j x y Hij Hx Hy. apply (Hf (S i) (S j)); [lia|done..].
  - apply Forall_forall. intros y Hy. apply list_elem_of_lookup in Hy as [j Hj].
    rewrite list_lookup_imap in Hj. destruct (vs !! j) as [w|] eqn:Hw; [|done]. injection Hj as <-.
    apply (Hf 0 (S j)); [lia|done..].
Qed.

Lemma sorted_lookup_le (vs : list Z) i j v w :
  StronglySorted Z.le vs -> i <= j -> vs !! i = Some v -> vs !! j = Some w -> (v <= w)%Z.
Proof using Type.
  intros Hs. revert i j. induction Hs as [|x vs Hs IH Hall]; intros i j Hij Hv Hw; [done|].
  destruct i as [|i], j as [|j]; cbn in Hv, Hw; simplify_eq; try lia.
  - rewrite Forall_forall in Hall. apply Hall. by eapply list_elem_of_lookup_2.
  - apply (IH i j); [lia|done..].
Qed.

(** A sorted list lies between its ends. *)
Lemma sorted_ends (vs : list Z) first final v :
  StronglySorted Z.le vs -> vs !! 0 = Some first -> last vs = Some final -> v ∈ vs -> (first <= v <= final)%Z.
Proof using Type.
  intros Hs Hf Hl Hv. apply list_elem_of_lookup in Hv as [i Hi]. pose proof (lookup_lt_Some _ _ _ Hi) as Hlt.
  rewrite last_lookup in Hl. split.
  - eapply (sorted_lookup_le _ 0 i); [exact Hs|lia|exact Hf|exact Hi].
  - eapply (sorted_lookup_le _ i); [exact Hs| |exact Hi|exact Hl]. lia.
Qed.

Lemma last_le_next (vs : list Z) v rest :
  StronglySorted Z.le (vs ++ v :: rest) -> (0 <= v)%Z -> (default 0%Z (last vs) <= v)%Z.
Proof using Type.
  intros Hs Hv. destruct (last vs) as [x|] eqn:Hx; cbn; [|done].
  apply last_Some in Hx as [vs' ->]. rewrite <- app_assoc in Hs. cbn in Hs.
  eapply (sorted_lookup_le _ (length vs') (S (length vs'))); [exact Hs|lia|..].
  - by rewrite lookup_app_r, Nat.sub_diag by lia.
  - rewrite lookup_app_r by lia. by rewrite Nat.sub_succ_l, Nat.sub_diag by lia.
Qed.

Section rep.
Context (s : EFSet) (vs : list Z) (Hrep : efset_rep s vs) (Hroom : room s (Z.of_nat (length vs))).

Lemma rep_pow : (0 < 2 ^ lowerBitsLength s)%Z.
Proof using Hrep. apply Z.pow_pos_nonneg; [lia|apply Hrep]. Qed.

Lemma rep_high i v : vs !! i = Some v ->
  (0 <= (v - universeMin s) / 2 ^ lowerBitsLength s <= (universeMax s - universeMin s) / 2 ^ lowerBitsLength s)%Z.
Proof using Hrep.
  intros Hi. pose proof rep_pow. pose proof (er_in _ _ Hrep v ltac:(by eapply list_elem_of_lookup_2)).
  split; [apply Z.div_pos; lia|]. apply Z.div_le_mono; lia.
Qed.

Lemma positions_sorted : StronglySorted Z.lt (positions s vs).
Proof using Hrep.
  apply StronglySorted_imap. intros i j v w Hij Hv Hw.
  assert (v <= w)%Z by (eapply sorted_lookup_le; [apply Hrep| |exact Hv|exact Hw]; lia).
  pose proof rep_pow.
  assert ((v - universeMin s) / 2 ^ lowerBitsLength s <= (w - universeMin s) / 2 ^ lowerBitsLength s)%Z
    by (apply Z.div_le_mono; lia).
  lia.
Qed.

Lemma positions_at i v : vs !! i = Some v ->
  positions s vs !! i = Some ((v - universeMin s) / 2 ^ lowerBitsLength s + Z.of_nat i + 1)%Z.
Proof using Type. intros Hi. unfold positions. by rewrite list_lookup_imap, Hi. Qed.

Lemma rep_select i v : vs !! i = Some v ->
  bs_Select (Z.of_nat i) (upperBits s) = ((v - universeMin s) / 2 ^ lowerBitsLength s + Z.of_nat i + 1)%Z.
Proof using Hrep HBL.
  intros Hi. eapply bl_Select; [apply positions_sorted|intros p; symmetry; apply Hrep|by apply positions_at].
Qed.

(** Both readers rebuild value number [i] from its position and its low bits. *)
Lemma rep_value i v pos : vs !! i = Some v ->
  pos = ((v - universeMin s) / 2 ^ lowerBitsLength s + Z.of_nat i + 1)%Z ->
  wrap64 (Z.lor (wrap64 (Z.shiftl (wrap64 (pos - Z.of_nat i - 1)) (lowerBitsLength s)))
    (read_lower (Z.to_nat (lowerBitsLength s)) (lowerBits s) (wrap64 (Z.of_nat i * lowerBitsLength s))
       (wrap64 (wrap64 (Z.of_nat i * lowerBitsLength s) + lowerBitsLength s)) 0) + universeMin s) = v.
Proof using Hrep Hroom.
  intros Hi ->. pose proof (er_l _ _ Hrep) as Hl. pose proof (er_universe _ _ Hrep) as [Hmin Hmax].
  pose proof (er_in _ _ Hrep v ltac:(by eapply list_elem_of_lookup_2)) as Hv.
  pose proof (rep_high i v Hi) as Hh. destruct Hroom as [Hr1 Hr2]. pose proof (lookup_lt_Some _ _ _ Hi) as Hlt.
  assert (Hil : (0 <= Z.of_nat i * lowerBitsLength s)%Z /\
                (Z.of_nat i * lowerBitsLength s + lowerBitsLength s + 1 < two64)%Z) by nia.
  replace ((v - universeMin s) / 2 ^ lowerBitsLength s + Z.of_nat i + 1 - Z.of_nat i - 1)%Z
    with ((v - universeMin s) / 2 ^ lowerBitsLength s)%Z by lia.
  rewrite (wrap64_small (_ / _)) by lia. rewrite (wrap64_small (Z.of_nat i * _)) by lia.
  rewrite (wrap64_small (_ * _ + _)) by lia.
  rewrite (read_lower_exact _ _ _ (v - universeMin s)) by (lia || (intros j Hj; by apply Hrep)).
  rewrite join_parts by lia. rewrite wrap64_small by lia. lia.
Qed.

Lemma Lookup_exact i v : vs !! i = Some v -> EFSet_Lookup s (Z.of_nat i) = v.
Proof using Hrep Hroom HBL.
  intros Hi. unfold EFSet_Lookup. by apply (rep_value i v), rep_select.
Qed.

End rep.

(** *** Appending *)

Lemma positions_snoc s s' vs value :
  universeMin s' = universeMin s -> lowerBitsLength s' = lowerBitsLength s ->
  positions s' (vs ++ [value]) =
  positions s vs ++ [(value - universeMin s) / 2 ^ lowerBitsLength s + Z.of_nat (length vs) + 1]%Z.
Proof using Type.
  intros Hm Hl. unfold positions. rewrite Hm, Hl, imap_app. cbn. by rewrite Nat.add_0_r.
Qed.

Lemma StronglySorted_snoc_le (vs : list Z) value :
  StronglySorted Z.le vs -> (default value (last vs) <= value)%Z -> StronglySorted Z.le (vs ++ [value]).
Proof using Type.
  induction 1 as [|x vs Hs IH Hall]; intros Hle; [repeat constructor|].
  cbn [app]. destruct vs as [|y vs].
  - cbn in *. repeat constructor. done.
  - rewrite last_cons_cons in Hle. constructor; [by apply IH|]. apply Forall_app. split; [done|].
    constructor; [|done]. rewrite Forall_forall in Hall. destruct (last (y :: vs)) as [z|] eqn:Hz.
    + assert (x <= z)%Z by (by apply Hall, last_Some_elem_of). cbn in Hle. lia.
    + by apply last_None in Hz.
Qed.

Lemma append_rep s vs value :
  efset_rep s vs -> room s (Z.of_nat (length vs) + 1) ->
  (universeMin s <= value <= universeMax s)%Z -> (ef_last s <= value)%Z ->
  efset_rep (EFSet_append s value) (vs ++ [value]).
Proof using HBL.
  intros Hrep [Hr1 Hr2] Hv Hlast. destruct Hrep as [Hl Hmask Hlen [Hmin Hmax] Hin Hsort Hla Hup Hlow].
  assert (Hpow : (0 < 2 ^ lowerBitsLength s)%Z) by (apply Z.pow_pos_nonneg; lia).
  assert (Hh : (0 <= (value - universeMin s) / 2 ^ lowerBitsLength s <=
               (universeMax s - universeMin s) / 2 ^ lowerBitsLength s)%Z)
    by (split; [apply Z.div_pos|apply Z.div_le_mono]; lia).
  assert (Hoff : (0 <= Z.of_nat (length vs) * lowerBitsLength s)%Z /\
    (Z.of_nat (length vs) * lowerBitsLength s + lowerBitsLength s + 1 < two64)%Z) by nia.
  split; cbn [EFSet_append lowerBitsLength lowerBitsMask ef_len universeMin universeMax ef_last]; try done.
  - rewrite Hlen, length_app. cbn [length]. rewrite wrap64_small; lia.
  - intros v [Hvs|Hvs]%elem_of_app; [by apply Hin|]. by apply list_elem_of_singleton in Hvs as ->.
  - apply StronglySorted_snoc_le; [done|]. rewrite Hla in Hlast. destruct (last vs); cbn in *; lia.
  - by rewrite last_snoc.
  - intros p. unfold EFSet_append. cbn [upperBits]. rewrite bl_Set, orb_true_iff, bool_decide_eq_true, Hup.
    erewrite positions_snoc by done. rewrite elem_of_app, list_elem_of_singleton.
    rewrite Hlen, (wrap64_small (value - _)), Z.shiftr_div_pow2, wrap64_small by lia. tauto.
  - intros i v j Hi Hj. unfold EFSet_append. cbn [lowerBits].
    rewrite Hlen, (wrap64_small (value - _)), (wrap64_small (_ * _)), Hmask by lia.
    rewrite write_lower_exact by (lia || apply Z.land_nonneg; lia).
    replace (2 ^ lowerBitsLength s - 1)%Z with (Z.ones (lowerBitsLength s)) by (rewrite Z.ones_equiv; lia).
    rewrite Z.land_ones by lia. apply lookup_app_Some in Hi as [Hi|[Hge Hi]].
    + pose proof (lookup_lt_Some _ _ _ Hi). rewrite decide_False by nia. by apply Hlow.
    + apply list_lookup_singleton_Some in Hi as [Hz <-]. rewrite decide_True by nia.
      rewrite Z.mod_pow2_bits_low by nia. f_equal. nia.
Qed.

(** What one [Append] does to the list, and its verdict. *)
Definition spec_Append (uMin uMax : Z) (vs : list Z) (v : Z) : list Z * option EFError :=
  if decide (uMin <= v <= uMax)%Z then
    if decide (default 0 (last vs) <= v)%Z then (vs ++ [v], None) else (vs, Some ErrUnorderedAppend)
  else (vs, Some ErrValueOutsideUniverse).

Lemma Append_exact s vs value :
  efset_rep s vs -> room s (Z.of_nat (length vs) + 1) ->
  (EFSet_Append s value).2 = (spec_Append (universeMin s) (universeMax s) vs value).2 /\
  efset_rep (EFSet_Append s value).1 (spec_Append (universeMin s) (universeMax s) vs value).1 /\
  universeMin (EFSet_Append s value).1 = universeMin s /\ universeMax (EFSet_Append s value).1 = universeMax s /\
  (forall m, room s m -> room (EFSet_Append s value).1 m) /\
  length (spec_Append (universeMin s) (universeMax s) vs value).1 <= length vs + 1.
Proof using HBL.
  intros Hrep Hroom. unfold EFSet_Append, spec_Append. rewrite <- (er_last _ _ Hrep).
  destruct (Z.ltb_spec value (universeMin s)), (Z.ltb_spec (universeMax s) value); cbn [orb fst snd];
    try (rewrite decide_False by lia; split_and!; (done || (cbn; lia))).
  rewrite decide_True by lia.
  destruct (Z.ltb_spec value (ef_last s)); [rewrite decide_False by lia; split_and!; (done || (cbn; lia))|].
  rewrite decide_True by lia. split_and!; try done; [by apply append_rep|]. cbn. rewrite length_app. cbn. lia.
Qed.

(** *** The constructors *)

Lemma lower_length_bounds uMax n : (0 <= uMax < two64)%Z -> (0 <= n < 2 ^ 56)%Z ->
  (0 <= lower_length uMax n <= 63)%Z /\ (uMax / 2 ^ lower_length uMax n < 2 ^ 59)%Z.
Proof using Type.
  intros Hmax Hn. unfold lower_length, upper_length.
  rewrite (wrap64_small (n + 2)) by (unfold two64; lia).
  set (u := ceil_log2 (Z.max n 2)). set (a := ceil_log2 (Z.max uMax 2)). set (k := ceil_log2 (n + 2)).
  assert (Hu : (1 <= u)%Z /\ (2 ^ (u - 1) <= Z.max n 2)%Z) by (apply cl_low; unfold two64; lia).
  assert (Ha : (1 <= a)%Z /\ (2 ^ (a - 1) <= Z.max uMax 2)%Z) by (apply cl_low; unfold two64 in *; lia).
  assert (Hk : (1 <= k)%Z /\ (2 ^ (k - 1) <= n + 2)%Z) by (apply cl_low; unfold two64; lia).
  assert (Huk : (u <= k)%Z) by (apply cl_mono; unfold two64; lia).
  assert (Ha' : (Z.max uMax 2 < 2 ^ (a + 1))%Z) by (apply cl_high; unfold two64 in *; lia).
  assert (Hcap : forall x y, (1 <= x)%Z -> (2 ^ (x - 1) <= y < two64)%Z -> (x <= 64)%Z).
  { intros x y Hx1 Hy. apply Z.nlt_ge. intros Hgt.
    assert (2 ^ 64 <= 2 ^ (x - 1))%Z by (apply Z.pow_le_mono_r; lia). unfold two64 in Hy. lia. }
  assert (a <= 64)%Z by (eapply (Hcap _ (Z.max uMax 2)); unfold two64 in *; lia).
  assert (k <= 64)%Z by (eapply (Hcap _ (n + 2)%Z); unfold two64 in *; lia).
  split; [lia|].
  set (l := (Z.max a k - u)%Z). assert (Hl : (0 <= l)%Z) by lia.
  apply Z.div_lt_upper_bound; [apply Z.pow_pos_nonneg; lia|].
  assert (2 ^ (a + 1) <= 2 ^ (l + (u + 1)))%Z as Hal by (apply Z.pow_le_mono_r; lia).
  assert (2 ^ (u - 1) * 4 = 2 ^ (u + 1))%Z as Hu4 
    by (replace (u + 1)%Z with (u - 1 + 2)%Z by lia; rewrite Z.pow_add_r by lia; lia).
  rewrite (Z.pow_add_r 2 l) in Hal by lia.
  assert (2 ^ (u + 1) <= 2 ^ 59)%Z by lia.
  assert (0 < 2 ^ l)%Z by (apply Z.pow_pos_nonneg; lia).
  apply Z.lt_le_trans with (2 ^ l * 2 ^ (u + 1))%Z; [|apply Z.mul_le_mono_nonneg_l; lia].
  eapply Z.lt_le_trans; [|exact Hal]. lia.
Qed.

Lemma mask_exact l : (0 <= l <= 63)%Z -> wrap64 (wrap64 (Z.shiftl 1 l) - 1) = (2 ^ l - 1)%Z.
Proof using Type.
  intros Hl. rewrite Z.shiftl_mul_pow2, Z.mul_1_l by lia.
  assert (0 < 2 ^ l < two64)%Z by (split; [apply Z.pow_pos_nonneg; lia|apply Z.pow_lt_mono_r; lia]).
  rewrite (wrap64_small (2 ^ l)), wrap64_small by lia. done.
Qed.

Lemma new_rep uMin uMax n s :
  s = NewEFSet uMin uMax n \/ s = AllocateEFSet uMin uMax n ->
  (0 <= uMin)%Z -> (0 <= uMax < two64)%Z -> (0 <= n < 2 ^ 56)%Z ->
  efset_rep s [] /\ universeMin s = uMin /\ universeMax s = uMax /\ forall m, (0 <= m <= n)%Z -> room s m.
Proof using HBL.
  intros Hs Hmin Hmax Hn. destruct (lower_length_bounds uMax n Hmax Hn) as [Hl Hq].
  assert (Hshape : lowerBitsLength s = lower_length uMax n /\ lowerBitsMask s = (2 ^ lower_length uMax n - 1)%Z /\
    ef_len s = 0%Z /\ ef_last s = 0%Z /\ universeMin s = uMin /\ universeMax s = uMax /\
    forall p, bs_Test p (upperBits s) = false).
  { destruct Hs as [-> | ->]; cbn; rewrite mask_exact by lia; split_and!; try done; intros p; apply bl_New. }
  destruct Hshape as (El & Em & En & Ela & Emin & Emax & Eup).
  split_and!; [|done|done|].
  - split; rewrite ?El, ?Em, ?En, ?Ela, ?Emin, ?Emax; try done.
    + split; [done|apply Hmax].
    + by intros v ?%elem_of_nil.
    + constructor.
    + intros p. rewrite Eup. split; [done|]. unfold positions. cbn. by intros ?%elem_of_nil.
  - intros m Hm. unfold room. rewrite El, Emin, Emax. split; [|unfold two64; nia].
    assert ((uMax - uMin) / 2 ^ lower_length uMax n <= uMax / 2 ^ lower_length uMax n)%Z.
    { apply Z.div_le_mono; [apply Z.pow_pos_nonneg; lia|lia]. }
    unfold two64. lia.
Qed.

Lemma must_append_all_rep s vs values :
  efset_rep s vs -> room s (Z.of_nat (length vs + length values)) ->
  StronglySorted Z.le (vs ++ values) -> (forall v, v ∈ values -> (universeMin s <= v <= universeMax s)%Z) ->
  exists s', must_append_all s values = Done s' /\ efset_rep s' (vs ++ values) /\
    room s' (Z.of_nat (length (vs ++ values))).
Proof using HBL.
  revert s vs. induction values as [|v values IH]; intros s vs Hrep Hroom Hsort Hin.
  { exists s. rewrite app_nil_r. rewrite Nat.add_0_r in Hroom. done. }
  cbn [must_append_all length] in *. pose proof (Hin v ltac:(by left)) as Hv.
  pose proof (er_universe _ _ Hrep) as [Hmin _].
  assert (Hlast : (ef_last s <= v)%Z)
    by (rewrite (er_last _ _ Hrep); eapply last_le_next; [exact Hsort|lia]).
  assert (Hroom1 : room s (Z.of_nat (length vs) + 1)).
  { destruct (er_l _ _ Hrep). destruct Hroom. split; nia. }
  unfold EFSet_MustAppend.
  rewrite (proj2 (Z.ltb_ge v (universeMin s))), (proj2 (Z.ltb_ge (universeMax s) v)), (proj2 (Z.ltb_ge v (ef_last s))) by lia.
  cbn [orb mbind outcome_bind].
  destruct (IH (EFSet_append s v) (vs ++ [v])) as (s' & Hs' & Hrep' & Hroom').
  - apply append_rep; [done|done|lia|done].
  - rewrite length_app. cbn [length]. replace (length vs + 1 + length values) with (length vs + S (length values)) by lia. done.
  - by rewrite <- app_assoc.
  - intros x Hx. apply Hin. by right.
  - exists s'. rewrite <- app_assoc in Hrep', Hroom'. done.
Qed.

Lemma Compress_rep values :
  values <> [] -> StronglySorted Z.le values -> (forall v, v ∈ values -> is_u64 v) ->
  (Z.of_nat (length values) < 2 ^ 56)%Z ->
  exists s, CompressToEFSet values = Done s /\ efset_rep s values /\ room s (Z.of_nat (length values)).
Proof using HBL.
  intros Hne Hsort Hu Hlen. unfold CompressToEFSet.
  destruct values as [|first rest]; [done|]. cbn [slice_get]. change (slice_get (first :: rest) 0) with (Done first).
  destruct (last (first :: rest)) as [final|] eqn:Hfinal; [|by apply last_None in Hfinal].
  rewrite (slice_get_last _ _ Hfinal). cbn [mbind outcome_bind].
  assert (Hends : forall v, v ∈ first :: rest -> (first <= v <= final)%Z) by (intros v; by apply sorted_ends).
  assert (Hf : is_u64 first) by (apply Hu; by left).
  assert (Hl : is_u64 final) by (by apply Hu, last_Some_elem_of).
  destruct (new_rep first final (Z.of_nat (length (first :: rest))) _ (or_intror eq_refl)) as (Hrep & Emin & Emax & Hroom);
    [apply Hf|apply Hl|lia|].
  apply (must_append_all_rep _ [] (first :: rest)); [done|apply Hroom; cbn; lia|done|].
  by rewrite Emin, Emax.
Qed.

(** *** The iterator *)

(** Where the iterator stands before value number [i]. *)
Definition iterator_at (s : EFSet) (vs : list Z) (i : nat) : EFSetIterator :=
  mkIterator (match i with O => 0%Z | S i' => default 0%Z (positions s vs !! i') end) (Z.of_nat i).

Lemma next_position s vs i v : efset_rep s vs -> room s (Z.of_nat (length vs)) -> vs !! i = Some v ->
  advanceHigherBitsPosition s (iterator_at s vs i) =
  mkIterator ((v - universeMin s) / 2 ^ lowerBitsLength s + Z.of_nat i + 1)%Z (Z.of_nat i).
Proof using HBL.
  intros Hrep Hroom Hi. unfold advanceHigherBitsPosition. f_equal.
  pose proof (positions_at s vs i v Hi) as Hp. pose proof (positions_sorted s vs Hrep) as Hs.
  pose proof (rep_high s vs Hrep i v Hi) as Hh. set (pos := ((v - universeMin s) / 2 ^ lowerBitsLength s + Z.of_nat i + 1)%Z) in *.
  assert (Hstart : exists start, (if (0 <? it_upperIdx (iterator_at s vs i))%Z then wrap64 (it_upperIdx (iterator_at s vs i) + 1)
      else it_upperIdx (iterator_at s vs i)) = start /\ (start <= pos)%Z /\
    forall j x, positions s vs !! j = Some x -> j < i -> (x < start)%Z).
  { destruct i as [|i]; cbn [iterator_at it_upperIdx].
    - exists 0%Z. split_and!; [done|lia|lia].
    - destruct (lookup_lt_is_Some_2 vs i) as [w Hw]; [apply lookup_lt_Some in Hi; lia|].
      pose proof (positions_at s vs i w Hw) as Hq. pose proof (rep_high s vs Hrep i w Hw) as Hhw. rewrite Hq. cbn [from_option id].
      set (prev := ((w - universeMin s) / 2 ^ lowerBitsLength s + Z.of_nat i + 1)%Z) in *.
      assert (prev < pos)%Z by (apply (sorted_lookup_lt _ i (S i) _ _ Hs Hq Hp); lia).
      rewrite (proj2 (Z.ltb_lt 0 prev)) by lia. destruct Hroom as [Hr1 _]. apply lookup_lt_Some in Hi.
      exists (prev + 1)%Z. rewrite wrap64_small by (subst pos; lia). split_and!; [done|lia|].
      intros j x Hx Hj. destruct (decide (j = i)) as [->|Hne]; [simplify_eq; lia|].
      assert (x < prev)%Z by (apply (sorted_lookup_lt _ j i _ _ Hs Hx Hq); lia). lia. }
  destruct Hstart as (start & -> & Hle & Hbefore).
  rewrite (bl_NextSet start pos); [done|done| |].
  - apply Hrep. by eapply list_elem_of_lookup_2.
  - intros j Hj. apply not_true_iff_false. intros Ht. apply (er_upper _ _ Hrep) in Ht.
    apply list_elem_of_lookup in Ht as [m Hm].
    assert (m < i) by (apply (sorted_lookup_lt _ m i _ _ Hs Hm Hp); lia). specialize (Hbefore m j Hm ltac:(done)). lia.
Qed.

Lemma Next_exact s vs i v : efset_rep s vs -> room s (Z.of_nat (length vs)) -> vs !! i = Some v ->
  EFSetIterator_Next s (iterator_at s vs i) = (v, iterator_at s vs (S i)).
Proof using HBL.
  intros Hrep Hroom Hi. unfold EFSetIterator_Next. rewrite (next_position s vs i v) by done.
  cbn [iterator_at it_upperIdx it_lowerIdx]. f_equal; [by apply (rep_value s vs Hrep Hroom i v)|].
  unfold iterator_at. rewrite (positions_at s vs i v Hi). cbn [from_option id]. f_equal.
  apply lookup_lt_Some in Hi. destruct Hroom as [Hr _]. pose proof (er_universe _ _ Hrep) as [Hmin Hmax].
  assert (0 <= (universeMax s - universeMin s) / 2 ^ lowerBitsLength s)%Z.
  { apply Z.div_pos; [|by apply rep_pow with vs]. destruct vs as [|w vs]; [cbn in Hi; lia|].
    pose proof (er_in _ _ Hrep w ltac:(by left)). lia. }
  rewrite wrap64_small; lia.
Qed.

Lemma Iterator_exact {St} s vs (yield : Z -> Z -> St -> St * bool) st :
  efset_rep s vs -> room s (Z.of_nat (length vs)) ->
  EFSet_Iterator s yield st =
  each (fun '(i, v) st => yield i v st) (imap (fun i v => (Z.of_nat i, v)) vs) st.
Proof using HBL.
  intros Hrep Hroom. unfold EFSet_Iterator. rewrite (er_len _ _ Hrep), Nat2Z.id.
  assert (Hgen : forall rest don st, vs = don ++ rest ->
    iterator_loop (length rest) s yield (Z.of_nat (length don)) (iterator_at s vs (length don)) st =
    each (fun '(i, v) st => yield i v st) (imap (fun i v => (Z.of_nat (length don + i), v)) rest) st).
  { induction rest as [|v rest IH]; intros don st' Hvs; [done|].
    cbn [length iterator_loop]. rewrite (Next_exact s vs (length don) v); [|done..|].
    2: { by rewrite Hvs, lookup_app_r, Nat.sub_diag by lia. }
    cbn [imap each]. rewrite Nat.add_0_r. destruct (yield _ v st') as [st1 []]; [|done].
    assert (Hlt : (Z.of_nat (length don) + 1 < two64)%Z).
    { destruct Hroom as [Hr _]. rewrite Hvs, length_app in Hr. cbn [length] in Hr.
      assert (0 <= (universeMax s - universeMin s) / 2 ^ lowerBitsLength s)%Z; [|lia].
      apply Z.div_pos; [|by apply rep_pow with vs].
      pose proof (er_in _ _ Hrep v ltac:(rewrite Hvs; set_solver)). lia. }
    rewrite wrap64_small by lia. specialize (IH (don ++ [v]) st1). rewrite length_app in IH. cbn [length] in IH.
    replace (Z.of_nat (length don) + 1)%Z with (Z.of_nat (length don + 1)) by lia.
    replace (S (length don)) with (length don + 1) by lia. rewrite IH by (by rewrite <- app_assoc).
    f_equal. apply imap_ext. intros i x _. cbn. f_equal. lia. }
  exact (Hgen vs [] st eq_refl).
Qed.

(** *** Binary search *)

(** The turns left when [d] entries are between the ends. *)
Definition turns_left (d : Z) : nat := if decide (d <= 0)%Z then 0 else S (Z.to_nat (Z.log2 d)).

Lemma turns_left_half d d' : (0 < d)%Z -> (d' <= d / 2)%Z -> turns_left d' < turns_left d.
Proof using Type.
  intros Hd Hd'. unfold turns_left. rewrite (decide_False (P := (d <= 0)%Z)) by lia.
  case_decide; [lia|]. assert (2 <= d)%Z by (apply Z.nlt_ge; intros ?; assert (d / 2 = 0)%Z by (apply Z.div_small; lia); lia).
  assert (Z.log2 d' <= Z.log2 (d / 2))%Z by (by apply Z.log2_le_mono).
  assert (Z.log2 (d / 2) = Z.log2 d - 1)%Z.
  { rewrite <- Z.div2_div, Z.div2_spec, Z.log2_shiftr by lia. pose proof (Z.log2_le_mono 2 d). cbn in *. lia. }
  pose proof (Z.log2_nonneg d'). lia.
Qed.

Section find.
Context (s : EFSet) (vs : list Z) (Hrep : efset_rep s vs) (Hroom : room s (Z.of_nat (length vs))).
Context (Hlen : (Z.of_nat (length vs) < 2 ^ 56)%Z) (target first : Z).
Context (Hfirst : vs !! 0 = Some first) (Htarget : (first <= target)%Z).

Definition find_inv (st : Z * Z) : Prop :=
  (0 <= st.1 <= st.2 + 1)%Z /\ (0 <= st.2 < Z.of_nat (length vs))%Z /\
  (forall i v, vs !! i = Some v -> (Z.of_nat i < st.1)%Z -> (v < target)%Z) /\
  (forall i v, vs !! i = Some v -> (st.2 < Z.of_nat i)%Z -> (target < v)%Z).

Lemma Find_turn st : find_inv st ->
  match Find_step s target st with
  | inl st' => find_inv st' /\ turns_left (st'.2 + 1 - st'.1) < turns_left (st.2 + 1 - st.1)
  | inr (i, true) => (0 <= i)%Z /\ vs !! Z.to_nat i = Some target
  | inr (i, false) => i = 0%Z /\ target ∉ vs
  end.
Proof using HBL Hrep Hroom Hlen Hfirst Htarget.
  destruct st as [low high]. intros (Hlow & Hhigh & Hbelow & Habove). cbn [fst snd] in *. unfold Find_step.
  destruct (Z.leb_spec low high) as [Hle|Hgt].
  - set (half := ((high - low) / 2)%Z).
    assert (Hhalf : (0 <= half)%Z /\ (2 * half <= high - low < 2 * half + 2)%Z).
    { subst half. pose proof (Z.div_mod (high - low) 2). pose proof (Z.mod_pos_bound (high - low) 2). lia. }
    rewrite (wrap64_small (high - low)) by (unfold two64; lia). fold half.
    rewrite (wrap64_small (low + half)) by (unfold two64; lia). set (mid := (low + half)%Z).
    destruct (lookup_lt_is_Some_2 vs (Z.to_nat mid)) as [v Hv]; [lia|].
    replace (EFSet_Lookup s mid) with v.
    2: { symmetry. rewrite <- (Z2Nat.id mid) by lia. by apply (Lookup_exact s vs). }
    destruct (Z.eqb_spec v target) as [->|Hne]; [split; [lia|done]|].
    pose proof (er_sorted _ _ Hrep) as Hsort.
    destruct (Z.ltb_spec v target) as [Hlt|Hge].
    + rewrite wrap64_small by (unfold two64; lia). split; [|cbn [fst snd]; apply turns_left_half; [lia|]].
      * unfold find_inv. cbn [fst snd]. split_and!; [lia..| |done]. intros i x Hx Hi.
        assert (x <= v)%Z by (eapply sorted_lookup_le; [exact Hsort| |exact Hx|exact Hv]; lia). lia.
      * apply Z.div_le_lower_bound; lia.
    + assert (Hmid : (0 < mid)%Z).
      { apply Z.nle_gt. intros ?. assert (Hz : mid = 0%Z) by lia. rewrite Hz in Hv. change (Z.to_nat 0) with 0 in Hv.
        rewrite Hfirst in Hv. injection Hv as ->. lia. }
      rewrite wrap64_small by (unfold two64; lia). split; [|cbn [fst snd]; apply turns_left_half; [lia|]].
      * unfold find_inv. cbn [fst snd]. split_and!; [lia..|done|]. intros i x Hx Hi.
        assert (v <= x)%Z by (eapply sorted_lookup_le; [exact Hsort| |exact Hv|exact Hx]; lia). lia.
      * apply Z.div_le_lower_bound; lia.
  - split; [done|]. intros Hin. apply list_elem_of_lookup in Hin as [i Hi].
    destruct (Z.lt_ge_cases (Z.of_nat i) low) as [Hil|Hil].
    + specialize (Hbelow i target Hi Hil). lia.
    + specialize (Habove i target Hi ltac:(lia)). lia.
Qed.

Lemma Find_exact fuel : 64 <= fuel ->
  exists i found, EFSet_Find fuel s target = Done (i, found) /\
    if found then (0 <= i)%Z /\ vs !! Z.to_nat i = Some target else i = 0%Z /\ target ∉ vs.
Proof using HBL Hrep Hroom Hlen Hfirst Htarget.
  intros Hfuel. unfold EFSet_Find. rewrite (er_len _ _ Hrep). pose proof (lookup_lt_Some _ _ _ Hfirst) as Hpos.
  rewrite wrap64_small by (unfold two64; lia).
  set (Q := fun r : Z * bool => if r.2 then (0 <= r.1)%Z /\ vs !! Z.to_nat r.1 = Some target else r.1 = 0%Z /\ target ∉ vs).
  assert (Hturn : forall st, find_inv st -> match Find_step s target st with
    | inl st' => find_inv st' /\ turns_left (st'.2 + 1 - st'.1) < turns_left (st.2 + 1 - st.1) | inr r => Q r end).
  { intros st Hst. pose proof (Find_turn st Hst) as Ht. by destruct (Find_step s target st) as [st'|[i []]]. }
  destruct (iterate_total find_inv (fun st => turns_left (st.2 + 1 - st.1)) Q (Find_step s target) Hturn fuel
    (0%Z, (Z.of_nat (length vs) - 1)%Z)) as ([i found] & -> & Hr).
  - unfold find_inv. cbn [fst snd]. split_and!; [lia..| |].
    + intros i v _ Hi. lia.
    + intros i v Hi%lookup_lt_Some Hge. lia.
  - cbn [fst snd]. unfold turns_left. case_decide; [lia|].
    assert (Z.log2 (Z.of_nat (length vs) - 1 + 1 - 0) < 56)%Z by (apply Z.log2_lt_pow2; lia). lia.
  - exists i, found. split; [done|]. by destruct found.
Qed.
End find.

End efset.

#[export, refine] Instance CeilLog2_exact : CeilLog2 := { ceil_log2 := Z.log2_up }.
Proof.
  - intros x y Hxy _. apply Z.log2_up_le_mono; lia.
  - intros x Hx. split; [apply (Z.log2_up_le_mono 2); lia|].
    pose proof (Z.log2_up_spec x ltac:(lia)) as [Hl _]. rewrite <- Z.sub_1_r in Hl. lia.
  - intros x Hx. pose proof (Z.log2_up_spec x ltac:(lia)) as [_ Hh].
    pose proof (Z.log2_up_nonneg x). rewrite Z.pow_add_r by lia. lia.
Defined.

(** ** Properties *)

Section properties.
Context {B : Type} `{HB : BitSet B} `{HBL : !BitSetLaws B} `{HL : CeilLog2}.

(** Everything a set can be asked, against the list it holds. *)
Definition reads_back (s : EFSet (B := B)) (vs : list Z) : Prop :=
  EFSet_Len s = Z.of_nat (length vs) /\
  (forall i v, vs !! i = Some v -> EFSet_Lookup s (Z.of_nat i) = v) /\
  EFSet_Iterator s (fun i v acc => (acc ++ [(i, v)], true)) [] = imap (fun i v => (Z.of_nat i, v)) vs.

Lemma rep_reads_back s vs : efset_rep s vs -> room s (Z.of_nat (length vs)) -> reads_back s vs.
Proof using HBL.
  intros Hrep Hroom. split_and!.
  - apply Hrep.
  - intros i v. by apply Lookup_exact.
  - rewrite (Iterator_exact s vs) by done.
    rewrite (each_continue _ (fun p acc => acc ++ [p])) by (by intros [] ?). by rewrite foldl_snoc.
Qed.

(** Compression loses nothing: for every non-empty ascending list of 64-bit
    values, [CompressToEFSet] returns without panic a set of the same length in
    which [Lookup] of each index and the iteration give the list back. *)
Theorem CompressToEFSet_roundtrip (values : list Z) :
  values <> [] -> StronglySorted Z.le values -> (forall v, v ∈ values -> is_u64 v) ->
  (Z.of_nat (length values) < 2 ^ 56)%Z ->
  exists s, CompressToEFSet (B := B) values = Done s /\ reads_back s values.
Proof using HBL.
  intros Hne Hs Hu Hlen. destruct (Compress_rep values Hne Hs Hu Hlen) as (s & Hc & Hrep & Hroom).
  exists s. split; [done|]. by apply rep_reads_back.
Qed.

(** [C40] [Find] in a compressed list: for a target not below the first value the
    binary search ends within 64 turns, with the index of an occurrence exactly
    when there is one. *)
Theorem EFSet_Find_exact (values : list Z) first target fuel :
  StronglySorted Z.le values -> (forall v, v ∈ values -> is_u64 v) -> (Z.of_nat (length values) < 2 ^ 56)%Z ->
  values !! 0 = Some first -> (first <= target)%Z -> 64 <= fuel ->
  exists s i found, CompressToEFSet (B := B) values = Done s /\ EFSet_Find fuel s target = Done (i, found) /\
    if found then values !! Z.to_nat i = Some target else i = 0%Z /\ target ∉ values.
Proof using HBL.
  intros Hs Hu Hlen Hf Hle Hfuel.
  destruct (Compress_rep values) as (s & Hc & Hrep & Hroom); [by intros ->|done..|].
  destruct (Find_exact s values Hrep Hroom Hlen target first Hf Hle fuel Hfuel) as (i & found & Hfind & Hr).
  exists s, i, found. split_and!; [done|done|]. destruct found; [apply Hr|done].
Qed.

Fixpoint run_Append {A} (f : A -> Z -> A * option EFError) (s : A) (values : list Z) : A * list (option EFError) :=
  match values with
  | [] => (s, [])
  | v :: values' => let '(s', e) := f s v in let '(s'', es) := run_Append f s' values' in (s'', e :: es)
  end.

Lemma run_Append_rep s vs values uMin uMax :
  universeMin s = uMin -> universeMax s = uMax ->
  efset_rep s vs -> (forall m, (0 <= m <= Z.of_nat (length vs + length values))%Z -> room s m) ->
  (run_Append EFSet_Append s values).2 = (run_Append (spec_Append uMin uMax) vs values).2 /\
  reads_back (run_Append EFSet_Append s values).1 (run_Append (spec_Append uMin uMax) vs values).1.
Proof using HBL.
  revert s vs. induction values as [|v values IH]; intros s vs Hmin Hmax Hrep Hroom.
  { split; [done|]. apply rep_reads_back; [done|]. apply Hroom. cbn. lia. }
  cbn [run_Append length] in *.
  destruct (Append_exact s vs v Hrep ltac:(apply Hroom; lia)) as (He & Hrep' & Hmin' & Hmax' & Hroom' & Hl).
  subst uMin uMax.
  destruct (EFSet_Append s v) as [s' e], (spec_Append (universeMin s) (universeMax s) vs v) as [vs' e']. cbn [fst snd] in *. subst e'.
  destruct (IH s' vs' Hmin' Hmax' Hrep') as [Hes Hrb]; [intros m Hm; apply Hroom', Hroom; lia|].
  destruct (run_Append EFSet_Append s' values), (run_Append (spec_Append (universeMin s) (universeMax s)) vs' values). cbn [fst snd] in *.
  by subst.
Qed.

(** [Append] refines a bounded ascending list: over any run of calls within
    the capacity asked for, each call reports exactly the error the list would
    (outside the universe first, then out of order), a refused value changes
    nothing, and the set reads back as the list of the accepted values. *)
Theorem EFSet_Append_refines uMin uMax n values :
  is_u64 uMin -> is_u64 uMax -> (Z.of_nat (length values) <= n < 2 ^ 56)%Z ->
  (run_Append EFSet_Append (NewEFSet (B := B) uMin uMax n) values).2 =
    (run_Append (spec_Append uMin uMax) [] values).2 /\
  reads_back (run_Append EFSet_Append (NewEFSet (B := B) uMin uMax n) values).1
    (run_Append (spec_Append uMin uMax) [] values).1.
Proof using HBL.
  intros Hmin Hmax Hn.
  destruct (new_rep uMin uMax n _ (or_introl eq_refl)) as (Hrep & Emin & Emax & Hroom); [apply Hmin|apply Hmax|lia|].
  apply run_Append_rep; [done|done|done|]. intros m Hm. apply Hroom. cbn in Hm. lia.
Qed.
End properties.

(** ** Examples *)

Definition some_values : list Z := [5; 9; 9; 20; 1000]%Z.

Lemma some_values_ok : StronglySorted Z.le some_values /\ (forall v, v ∈ some_values -> is_u64 v).
Proof.
  split; [repeat (constructor; [|repeat constructor; lia]); constructor|].
  intros v Hv. unfold some_values, is_u64, two64 in *. repeat (apply elem_of_cons in Hv as [->|Hv]; [lia|]).
  by apply elem_of_nil in Hv.
Qed.

Lemma CompressToEFSet_roundtrip_witness :
  exists s, CompressToEFSet (B := bits) some_values = Done s /\ reads_back s some_values.
Proof.
  apply CompressToEFSet_roundtrip; [done|apply some_values_ok|apply some_values_ok|cbn; lia].
Defined.

Lemma EFSet_Find_exact_witness :
  exists s i found, CompressToEFSet (B := bits) some_values = Done s /\ EFSet_Find 64 s 20 = Done (i, found) /\
    if found then some_values !! Z.to_nat i = Some 20%Z else i = 0%Z /\ 20%Z ∉ some_values.
Proof.
  apply (EFSet_Find_exact some_values 5 20 64); [apply some_values_ok|apply some_values_ok|cbn; lia|done|lia|lia].
Defined.

Lemma EFSet_Append_refines_witness :
  (run_Append EFSet_Append (NewEFSet (B := bits) 3 100 4) [5; 2; 4; 7]%Z).2 =
    [None; Some ErrValueOutsideUniverse; Some ErrUnorderedAppend; None] /\
  reads_back (run_Append EFSet_Append (NewEFSet (B := bits) 3 100 4) [5; 2; 4; 7]%Z).1 [5; 7]%Z.
Proof.
  destruct (EFSet_Append_refines (B := bits) 3 100 4 [5; 2; 4; 7]%Z) as [He Hr];
    [unfold is_u64, two64; lia|unfold is_u64, two64; lia|cbn; lia|].
  split; [exact He|exact Hr].
Defined.

(** [Find] does not return for a target below every value: [highEntry] is
    unsigned, [midEntry - 1] wraps at zero, and in the one-element set the
    entries past the end read as values above the target until the search is
    back where it started. *)
Theorem EFSet_Find_below_diverges :
  exists s, CompressToEFSet (B := bits) [5]%Z = Done s /\ forall fuel, EFSet_Find fuel s 3 = Spent.
Proof.
  eexists. split; [vm_compute; reflexivity|]. intros fuel. unfold EFSet_Find.
  rewrite (iterate_cycle 63); [done|]. vm_compute. reflexivity.
Qed.
