(* ===== verification/PackedMap.v ===== *)
(** * Packed maps (container/pacmap.go)

    A [PackedMap] spreads its keys over buckets; a bucket keeps writes pending
    until [Compact] sorts them into an [EFSet] of keys with a slice of values
    beside it.  Buckets are pointers: the model keeps them in a store by
    address, and [buckets] and [allocatedBuckets] hold addresses. *)

From S2P Require Import Prelude EliasFano.

Record Parameters := mkParameters { BucketKeyStride : Z; NumMaxEntries : Z; NumBuckets : Z }.

Definition DefaultMaxValue : Z := two64 - 1.
Definition DefaultNumMaxEntries : Z := 8000000000.
Definition DefaultNumBuckets : Z := 1024 * 128.

Definition DefaultParameters : Parameters :=
  mkParameters (DefaultMaxValue / DefaultNumBuckets) DefaultNumMaxEntries DefaultNumBuckets.

Notation kvPair := (Z * Z)%type.

(** [sort.Slice] by key: some ordered permutation, not necessarily stable. *)
Class SortPending := {
  sort_pending : list kvPair -> list kvPair;
  sp_perm l : sort_pending l ≡ₚ l;
  sp_sorted l : StronglySorted Z.le (sort_pending l).*1
}.

Section packed.
Context {B : Type} `{HB : BitSet B} `{HL : CeilLog2} `{HS : SortPending}.

(** ** Buckets *)

Record packedBucket := mkBucket {
  pb_keys : option (EFSet (B := B));
  pb_values : list Z;
  pb_pending : list kvPair
}.

Definition newPacBucket : packedBucket := mkBucket None [] [].

Definition packedBucket_Find (fuel : nat) (s : packedBucket) (key : Z) : outcome (Z * bool) :=
  match pb_keys s with
  | None => Done (0%Z, false)
  | Some keys =>
      '(keyRank, found) ← EFSet_Find fuel keys key;
      if found : bool then v ← slice_get (pb_values s) keyRank; Done (v, true) else Done (0%Z, false)
  end.

Definition packedBucket_Append (s : packedBucket) (key value : Z) : packedBucket :=
  mkBucket (pb_keys s) (pb_values s) (pb_pending s ++ [(key, value)]).

(** The pending pairs up to the next key of the existing set. *)
Fixpoint merge_pending (pending : list kvPair) (nextKey : Z) (set : EFSet) (values : list Z)
    : list kvPair * EFSet * list Z :=
  match pending with
  | (k, v) :: pending' =>
      if (k <=? nextKey)%Z then
        if (k =? nextKey)%Z then merge_pending pending' nextKey set values
        else merge_pending pending' nextKey (EFSet_Append set k).1 (values ++ [v])
      else (pending, set, values)
  | [] => ([], set, values)
  end.

(** One turn over the existing set; reading [s.values] past its end panics. *)
Definition merge_turn (old : list Z) (nextKey : Z) (st : outcome (list kvPair * EFSet * list Z * Z))
    : outcome (list kvPair * EFSet * list Z * Z) * bool :=
  match st with
  | Done (pending, set, values, valueIdx) =>
      let '(pending, set, values) := merge_pending pending nextKey set values in
      let set := (EFSet_Append set nextKey).1 in
      match slice_get old valueIdx with
      | Done v => (Done (pending, set, values ++ [v], (valueIdx + 1)%Z), true)
      | _ => (Panic, false)
      end
  | _ => (st, false)
  end.

(** The loop over the pairs that are left, and the end of [merge]: the merged
    keys are kept, and the old values ([s.values[0:len(s.values)]]). *)
Definition packedBucket_merge (s : packedBucket) (keys : EFSet) : outcome packedBucket :=
  '(firstPendingKey, _) ← slice_get (pb_pending s) 0;
  '(lastPendingKey, _) ← slice_get (pb_pending s) (Z.of_nat (length (pb_pending s)) - 1);
  let newUniverseMin := if (firstPendingKey <? universeMin keys)%Z then firstPendingKey else universeMin keys in
  let newUniverseMax := if (universeMax keys <? lastPendingKey)%Z then lastPendingKey else universeMax keys in
  let maxLen := wrap64 (ef_len keys + Z.of_nat (length (pb_pending s))) in
  '(pending, set, values, _) ←
     EFSet_Iterator keys (fun _ nextKey st => merge_turn (pb_values s) nextKey st)
       (Done (pb_pending s, NewEFSet newUniverseMin newUniverseMax maxLen, [], 0%Z));
  let set := foldl (fun set kv => (EFSet_Append set kv.1).1) set pending in
  Done (mkBucket (Some set) (pb_values s) (pb_pending s)).

Definition packedBucket_Compact (s : packedBucket) : outcome packedBucket :=
  match pb_pending s with
  | [] => Done s
  | _ =>
      let pending := sort_pending (pb_pending s) in
      let s := mkBucket (pb_keys s) (pb_values s) pending in
      s ← match pb_keys s with
          | Some keys => packedBucket_merge s keys
          | None =>
              '(newUniverseMin, _) ← slice_get pending 0;
              '(newUniverseMax, _) ← slice_get pending (Z.of_nat (length pending) - 1);
              let keys := NewEFSet newUniverseMin newUniverseMax (Z.of_nat (length pending)) in
              Done (mkBucket (Some (foldl (fun set kv => (EFSet_Append set kv.1).1) keys pending)) pending.*2 pending)
          end;
      Done (mkBucket (pb_keys s) (pb_values s) [])
  end.

(** ** Maps *)

Record PackedMap := mkPackedMap {
  pm_buckets : list (option nat);
  pm_allocated : list nat;
  pm_store : list packedBucket;
  pm_parameters : Parameters
}.

Definition NewPacMap (parameters : Parameters) : outcome PackedMap :=
  if decide (0 <= NumBuckets parameters)%Z
  then Done (mkPackedMap (replicate (Z.to_nat (NumBuckets parameters)) None) [] [] parameters)
  else Panic.

Definition getBucket (s : PackedMap) (entityIDHash : Z) : outcome (nat * PackedMap) :=
  if decide (BucketKeyStride (pm_parameters s) = 0)%Z then Panic
  else
    let bucketIdx := (entityIDHash / BucketKeyStride (pm_parameters s))%Z in
    let len := Z.of_nat (length (pm_buckets s)) in
    let bucketIdx := if (len <=? bucketIdx)%Z then (len - 1)%Z else bucketIdx in
    existing ← slice_get (pm_buckets s) bucketIdx;
    match existing with
    | Some a => Done (a, s)
    | None =>
        let a := length (pm_store s) in
        buckets ← slice_set (pm_buckets s) bucketIdx (Some a);
        Done (a, mkPackedMap buckets (pm_allocated s ++ [a]) (pm_store s ++ [newPacBucket]) (pm_parameters s))
    end.

Definition bucket_at (s : PackedMap) (a : nat) : outcome packedBucket :=
  match pm_store s !! a with Some b => Done b | None => Panic end.

Definition set_bucket (s : PackedMap) (a : nat) (b : packedBucket) : PackedMap :=
  mkPackedMap (pm_buckets s) (pm_allocated s) (<[a := b]> (pm_store s)) (pm_parameters s).

Definition PackedMap_Get (fuel : nat) (s : PackedMap) (key : Z) : outcome ((Z * bool) * PackedMap) :=
  '(a, s) ← getBucket s key;
  b ← bucket_at s a;
  r ← packedBucket_Find fuel b key;
  Done (r, s).

Definition PackedMap_Put (s : PackedMap) (key value : Z) : outcome PackedMap :=
  '(a, s) ← getBucket s key;
  b ← bucket_at s a;
  Done (set_bucket s a (packedBucket_Append b key value)).

(** Compacting the buckets of a list of addresses one after the other. *)
Fixpoint compact_all (s : PackedMap) (addresses : list nat) : outcome PackedMap :=
  match addresses with
  | [] => Done s
  | a :: addresses' =>
      b ← bucket_at s a;
      b' ← packedBucket_Compact b;
      compact_all (set_bucket s a b') addresses'
  end.

Definition PackedMap_Compact (s : PackedMap) : outcome PackedMap := compact_all s (pm_allocated s).

(** The workers take the buckets off a channel: each bucket is compacted by one
    worker, in an order that the scheduler chooses and the buckets, being
    separate, do not notice.  Without a worker the first send blocks for ever. *)
Definition PackedMap_CompactParallel (s : PackedMap) (workers : Z) (order : list nat) : outcome PackedMap :=
  if (workers <=? 0)%Z then match pm_allocated s with [] => Done s | _ => Spent end else compact_all s order.

Fixpoint put_all (s : PackedMap) (kvs : list kvPair) : outcome PackedMap :=
  match kvs with
  | [] => Done s
  | (k, v) :: kvs' => s' ← PackedMap_Put s k v; put_all s' kvs'
  end.


(** ** The first compaction *)

Context `{HBL : !BitSetLaws B}.

Lemma fold_Append_rep (s : EFSet) vs (kvs : list kvPair) :
  efset_rep s vs -> (forall m, (0 <= m <= Z.of_nat (length vs + length kvs))%Z -> room s m) ->
  StronglySorted Z.le (vs ++ kvs.*1) -> (forall v, v ∈ kvs.*1 -> (universeMin s <= v <= universeMax s)%Z) ->
  let s' := foldl (fun set kv => (EFSet_Append set kv.1).1) s kvs in
  efset_rep s' (vs ++ kvs.*1) /\ room s' (Z.of_nat (length vs + length kvs)).
Proof using HBL.
  revert s vs. induction kvs as [|[k v] kvs IH]; intros s vs Hrep Hroom Hs Hin; cbn [foldl].
  { rewrite app_nil_r. split; [done|]. apply Hroom. cbn. lia. }
  rewrite fmap_cons in Hs, Hin |- *. cbn [length fst] in *.
  destruct (Append_exact s vs k Hrep ltac:(apply Hroom; lia)) as (_ & Hrep' & Hmin & Hmax & Hroom' & _).
  pose proof (Hin k ltac:(by left)) as Hk. pose proof (er_universe _ _ Hrep) as [H0 _].
  assert (Hspec : (spec_Append (universeMin s) (universeMax s) vs k).1 = vs ++ [k]).
  { unfold spec_Append. rewrite decide_True by done. rewrite decide_True; [done|]. eapply last_le_next; [done|lia]. }
  rewrite Hspec in Hrep'.
  destruct (IH _ (vs ++ [k]) Hrep') as [H1 H2].
  - rewrite length_app. cbn [length]. intros m Hm. apply Hroom', Hroom. lia.
  - by rewrite <- app_assoc.
  - rewrite Hmin, Hmax. intros x Hx. apply Hin. by right.
  - rewrite <- app_assoc in H1. split; [done|]. rewrite length_app in H2. cbn [length] in H2.
    replace (length vs + S (length kvs)) with (length vs + 1 + length kvs) by lia. done.
Qed.

(** What a bucket holds once [pend] has been compacted into it. *)
Definition compacted (b : packedBucket) (pend : list kvPair) : Prop :=
  pend <> [] /\ exists sorted keys, sorted ≡ₚ pend /\ StronglySorted Z.le sorted.*1 /\ pb_keys b = Some keys /\
    efset_rep keys sorted.*1 /\ room keys (Z.of_nat (length sorted)) /\
    pb_values b = sorted.*2 /\ pb_pending b = [].

Lemma Compact_exact pend :
  pend <> [] -> (forall k, k ∈ pend.*1 -> is_u64 k) -> (Z.of_nat (length pend) < 2 ^ 56)%Z ->
  exists b, packedBucket_Compact (mkBucket None [] pend) = Done b /\ compacted b pend.
Proof using HBL.
  intros Hne Hu Hlen. unfold packedBucket_Compact. cbn [pb_pending pb_keys pb_values].
  destruct pend as [|kv pend']; [done|]. set (pend := kv :: pend') in *.
  pose proof (sp_perm pend) as Hperm. pose proof (sp_sorted pend) as Hsort. set (sorted := sort_pending pend) in *.
  assert (Hls : length sorted = length pend) by (by apply Permutation_length).
  destruct (last sorted) as [[kn vn]|] eqn:Hlast; [|apply last_None in Hlast; rewrite Hlast in Hls; done].
  destruct (sorted !! 0) as [[k0 v0]|] eqn:Hfirst; [|apply lookup_ge_None in Hfirst; subst pend; cbn in *; lia].
  assert (Hget : slice_get sorted 0 = Done (k0, v0)) by (by apply (slice_get_nat _ 0)).
  rewrite Hget. cbn [mbind outcome_bind]. rewrite (slice_get_last _ _ Hlast). cbn [mbind outcome_bind pb_keys pb_values].
  assert (Hk0 : sorted.*1 !! 0 = Some k0) by (by rewrite list_lookup_fmap, Hfirst).
  assert (Hkn : last sorted.*1 = Some kn) by (by rewrite fmap_last, Hlast).
  assert (Hu' : forall k, k ∈ sorted.*1 -> is_u64 k) by (intros k; rewrite Hperm; apply Hu).
  assert (U0 : is_u64 k0) by (apply Hu'; by eapply list_elem_of_lookup_2).
  assert (Un : is_u64 kn) by (by apply Hu', last_Some_elem_of).
  destruct (new_rep k0 kn (Z.of_nat (length sorted)) _ (or_introl eq_refl)) as (Hrep & Emin & Emax & Hroom);
    [apply U0|apply Un|lia|].
  destruct (fold_Append_rep _ [] sorted Hrep) as [Hrep' Hroom']; [done|done| |].
  { rewrite Emin, Emax. intros v. by apply sorted_ends. }
  eexists. split; [reflexivity|]. split; [done|]. eexists sorted, _. by split_and!.
Qed.

Lemma compacted_Find b pend k v fuel :
  compacted b pend -> NoDup pend.*1 -> (Z.of_nat (length pend) < 2 ^ 56)%Z -> (k, v) ∈ pend -> 64 <= fuel ->
  packedBucket_Find fuel b k = Done (v, true).
Proof using HBL.
  intros (_ & sorted & keys & Hperm & Hsort & Hk & Hrep & Hroom & Hvals & _) Hnd Hlen Hin Hfuel.
  unfold packedBucket_Find. rewrite Hk. rewrite <- (Permutation_length Hperm) in Hlen. rewrite <- Hperm in Hin, Hnd.
  assert (Hik : k ∈ sorted.*1) by (apply list_elem_of_fmap; by exists (k, v)).
  destruct (sorted.*1 !! 0) as [k0|] eqn:H0; [|apply lookup_ge_None in H0; destruct sorted.*1; [by apply elem_of_nil in Hik|cbn in H0; lia]].
  assert (Hle : (k0 <= k)%Z).
  { apply list_elem_of_lookup in Hik as [i Hi]. eapply (sorted_lookup_le _ 0 i); [exact Hsort|lia|exact H0|exact Hi]. }
  destruct (Find_exact keys sorted.*1 Hrep ltac:(by rewrite length_fmap) ltac:(by rewrite length_fmap) k k0 H0 Hle fuel Hfuel)
    as (i & found & -> & Hr). cbn [mbind outcome_bind].
  destruct found; [|by destruct Hr]. destruct Hr as [Hi Hr].
  rewrite list_lookup_fmap in Hr. destruct (sorted !! Z.to_nat i) as [[k' v']|] eqn:Hs; [|done]. cbn in Hr. injection Hr as ->.
  assert (v' = v) as ->.
  { apply list_elem_of_lookup in Hin as [j Hj].
    assert (Z.to_nat i = j) as <-; [|congruence].
    eapply NoDup_lookup; [exact Hnd|..]; rewrite list_lookup_fmap; [by rewrite Hs|by rewrite Hj]. }
  assert (Hv : slice_get (pb_values b) i = Done v).
  { apply slice_get_Done. split; [done|]. by rewrite Hvals, list_lookup_fmap, Hs. }
  by rewrite Hv.
Qed.

Lemma compacted_miss b pend k k0 fuel :
  compacted b pend -> (Z.of_nat (length pend) < 2 ^ 56)%Z -> k ∉ pend.*1 -> k0 ∈ pend.*1 -> (k0 <= k)%Z -> 64 <= fuel ->
  packedBucket_Find fuel b k = Done (0%Z, false).
Proof using HBL.
  intros (_ & sorted & keys & Hperm & Hsort & Hk & Hrep & Hroom & Hvals & _) Hlen Hnot Hin Hle Hfuel.
  unfold packedBucket_Find. rewrite Hk. rewrite <- (Permutation_length Hperm) in Hlen. rewrite <- Hperm in Hin, Hnot.
  apply list_elem_of_lookup in Hin as [j Hj].
  destruct (sorted.*1 !! 0) as [first|] eqn:H0; [|apply lookup_ge_None in H0; apply lookup_lt_Some in Hj; lia].
  assert (Hf : (first <= k)%Z).
  { etransitivity; [|exact Hle]. eapply (sorted_lookup_le _ 0 j); [exact Hsort|lia|exact H0|exact Hj]. }
  destruct (Find_exact keys sorted.*1 Hrep ltac:(by rewrite length_fmap) ltac:(by rewrite length_fmap) k first H0 Hf fuel Hfuel)
    as (i & found & -> & Hr). cbn [mbind outcome_bind].
  destruct found; [|done]. destruct Hr as [_ Hr]. destruct Hnot. by eapply list_elem_of_lookup_2.
Qed.

(** ** The bucket table *)

(** The bucket a key falls in. *)
Definition bucket_of (p : Parameters) (key : Z) : nat :=
  Z.to_nat (Z.min (key / BucketKeyStride p) (NumBuckets p - 1)).

(** Bucket number [i] holds [P i], in the sense of [R]. *)
Record table (R : packedBucket -> list kvPair -> Prop) (p : Parameters) (m : PackedMap) (P : nat -> list kvPair) : Prop := {
  tb_par : pm_parameters m = p;
  tb_len : length (pm_buckets m) = Z.to_nat (NumBuckets p);
  tb_alloc : pm_allocated m = seq 0 (length (pm_store m));
  tb_some : forall i a, pm_buckets m !! i = Some (Some a) -> exists b, pm_store m !! a = Some b /\ R b (P i);
  tb_none : forall i, pm_buckets m !! i = Some None -> P i = [];
  tb_inj : forall i j a, pm_buckets m !! i = Some (Some a) -> pm_buckets m !! j = Some (Some a) -> i = j;
  tb_all : forall a, a < length (pm_store m) -> exists i, pm_buckets m !! i = Some (Some a)
}.

Lemma getBucket_exact R p m P key :
  table R p m P -> R newPacBucket [] -> (0 < BucketKeyStride p)%Z -> (0 < NumBuckets p)%Z -> (0 <= key)%Z ->
  exists a m', getBucket m key = Done (a, m') /\ table R p m' P /\ pm_buckets m' !! bucket_of p key = Some (Some a) /\
    (pm_buckets m !! bucket_of p key <> Some None -> m' = m).
Proof using Type.
  intros Ht Hnew Hst Hnb Hkey. destruct Ht as [Hpar Hlen Halloc Hsome Hnone Hinj Hall].
  unfold getBucket. rewrite Hpar, decide_False by lia.
  assert (Hidx : (if (Z.of_nat (length (pm_buckets m)) <=? key / BucketKeyStride p)%Z
      then Z.of_nat (length (pm_buckets m)) - 1 else key / BucketKeyStride p)%Z = Z.of_nat (bucket_of p key)).
  { pose proof (Z.div_pos key (BucketKeyStride p) Hkey Hst). unfold bucket_of.
    destruct (Z.leb_spec (Z.of_nat (length (pm_buckets m))) (key / BucketKeyStride p)); lia. }
  rewrite Hidx. set (i := bucket_of p key) in *.
  assert (Hi : i < length (pm_buckets m)).
  { pose proof (Z.div_pos key (BucketKeyStride p) Hkey Hst). subst i. unfold bucket_of. lia. }
  destruct (lookup_lt_is_Some_2 _ _ Hi) as [[a|] Hb]; rewrite (slice_get_nat _ _ _ Hb); cbn [mbind outcome_bind].
  - exists a, m. by split_and!.
  - unfold slice_set. rewrite decide_True, Nat2Z.id by lia. cbn [mbind outcome_bind].
    eexists _, _. split; [reflexivity|]. split; [|split; cbn; [by rewrite list_lookup_insert_eq|congruence]].
    split; cbn [pm_parameters pm_buckets pm_allocated pm_store].
    + done.
    + by rewrite length_insert.
    + rewrite length_app, Halloc. cbn [length]. rewrite Nat.add_1_r. by rewrite seq_snoc.
    + intros j a [(<- & [= <-] & _)|[Hne Hj]]%list_lookup_insert_Some.
      * exists newPacBucket. rewrite (Hnone i Hb). split; [|done]. by rewrite lookup_app_r, Nat.sub_diag by lia.
      * destruct (Hsome j a Hj) as (b & Hb' & HR). exists b. split; [by apply lookup_app_l_Some|done].
    + intros j [(_ & ? & _)|[_ Hj]]%list_lookup_insert_Some; [done|by apply Hnone].
    + assert (Hfresh : forall j a, pm_buckets m !! j = Some (Some a) -> a < length (pm_store m)).
      { intros j a Hj. destruct (Hsome j a Hj) as (b & Hb' & _). by eapply lookup_lt_Some. }
      intros j j' a [(<- & [= <-] & _)|[Hne Hj]]%list_lookup_insert_Some [(<- & E & _)|[Hne' Hj']]%list_lookup_insert_Some;
        [done|apply Hfresh in Hj'; lia|injection E as <-; apply Hfresh in Hj; lia|by eapply Hinj].
    + intros a. rewrite length_app. cbn [length]. intros Ha.
      destruct (decide (a = length (pm_store m))) as [->|Hne]; [exists i; by rewrite list_lookup_insert_eq|].
      destruct (Hall a) as [j Hj]; [lia|]. exists j. rewrite list_lookup_insert_ne; [done|]. congruence.
Qed.

Lemma table_ext R p m P Q : (forall i, P i = Q i) -> table R p m P -> table R p m Q.
Proof using Type.
  intros HPQ [H1 H2 H3 H4 H5 H6 H7]. split; try done.
  - intros i a. rewrite <- HPQ. apply H4.
  - intros i. rewrite <- HPQ. apply H5.
Qed.

(** *** Puts *)

Definition waiting (b : packedBucket) (l : list kvPair) : Prop := b = mkBucket None [] l.

Lemma Put_exact p m P k v :
  table waiting p m P -> (0 < BucketKeyStride p)%Z -> (0 < NumBuckets p)%Z -> (0 <= k)%Z ->
  exists m', PackedMap_Put m k v = Done m' /\
    table waiting p m' (fun i => P i ++ filter (fun kv => bucket_of p kv.1 = i) [(k, v)]).
Proof using Type.
  intros Ht Hst Hnb Hk. unfold PackedMap_Put.
  destruct (getBucket_exact waiting p m P k Ht eq_refl Hst Hnb Hk) as (a & m1 & -> & Ht1 & Hb & _).
  cbn [mbind outcome_bind]. destruct (tb_some _ _ _ _ Ht1 _ _ Hb) as (bk & Hbk & ->).
  unfold bucket_at. rewrite Hbk. cbn [mbind outcome_bind]. eexists. split; [reflexivity|].
  destruct Ht1 as [H1 H2 H3 H4 H5 H6 H7].
  split; cbn [set_bucket pm_parameters pm_buckets pm_allocated pm_store]; try done.
  - by rewrite length_insert.
  - intros i a' Hi. rewrite filter_cons, filter_nil. cbn [fst]. destruct (decide (bucket_of p k = i)) as [<-|Hne].
    + simplify_eq. eexists. split; [by apply list_lookup_insert_eq; eapply lookup_lt_Some|done].
    + destruct (H4 i a' Hi) as (b' & Hb' & HR). exists b'. rewrite app_nil_r. split; [|done].
      rewrite list_lookup_insert_ne; [done|]. intros ->. by destruct Hne; eapply H6.
  - intros i Hi. rewrite filter_cons, filter_nil. cbn [fst]. rewrite decide_False; [|congruence]. by rewrite H5.
  - intros a'. rewrite length_insert. apply H7.
Qed.

Lemma put_all_exact p m P kvs :
  table waiting p m P -> (0 < BucketKeyStride p)%Z -> (0 < NumBuckets p)%Z -> (forall k, k ∈ kvs.*1 -> is_u64 k) ->
  exists m', put_all m kvs = Done m' /\ table waiting p m' (fun i => P i ++ filter (fun kv => bucket_of p kv.1 = i) kvs).
Proof using Type.
  intros Ht Hst Hnb. revert m P Ht. induction kvs as [|[k v] kvs IH]; intros m P Ht Hu.
  { exists m. split; [done|]. eapply table_ext; [|done]. intros i. by rewrite filter_nil, app_nil_r. }
  rewrite fmap_cons in Hu. cbn [put_all].
  destruct (Put_exact p m P k v Ht Hst Hnb) as (m1 & -> & Ht1); [apply Hu; by left|]. cbn [mbind outcome_bind].
  destruct (IH m1 _ Ht1) as (m2 & -> & Ht2); [intros x Hx; apply Hu; by right|].
  exists m2. split; [done|]. eapply table_ext; [|done]. intros i. cbn beta. rewrite <- app_assoc, <- filter_app. done.
Qed.

(** *** Compaction *)

Definition settled (b : packedBucket) (l : list kvPair) : Prop := (l = [] /\ b = newPacBucket) \/ compacted b l.

Lemma Compact_settled b l :
  waiting b l -> (forall k, k ∈ l.*1 -> is_u64 k) -> (Z.of_nat (length l) < 2 ^ 56)%Z ->
  exists b', packedBucket_Compact b = Done b' /\ settled b' l.
Proof using HBL.
  intros -> Hu Hlen. destruct (decide (l = [])) as [->|Hne].
  - eexists. split; [reflexivity|]. by left.
  - destruct (Compact_exact l Hne Hu Hlen) as (b' & Hb & Hc). exists b'. split; [done|]. by right.
Qed.

(** The other fields stay, and each bucket named is compacted once. *)
Lemma compact_all_exact m addresses :
  NoDup addresses ->
  (forall a, a ∈ addresses -> exists b b', pm_store m !! a = Some b /\ packedBucket_Compact b = Done b') ->
  exists m', compact_all m addresses = Done m' /\ pm_buckets m' = pm_buckets m /\ pm_allocated m' = pm_allocated m /\
    pm_parameters m' = pm_parameters m /\ length (pm_store m') = length (pm_store m) /\
    (forall a, a ∉ addresses -> pm_store m' !! a = pm_store m !! a) /\
    (forall a b b', a ∈ addresses -> pm_store m !! a = Some b -> packedBucket_Compact b = Done b' ->
       pm_store m' !! a = Some b').
Proof using Type.
  revert m. induction addresses as [|a addresses IH]; intros m Hnd Hall.
  { exists m. split_and!; try done. by intros a b b' ?%elem_of_nil. }
  apply NoDup_cons in Hnd as [Ha Hnd]. cbn [compact_all].
  destruct (Hall a ltac:(by left)) as (b & b' & Hb & Hc). unfold bucket_at. rewrite Hb. cbn [mbind outcome_bind].
  rewrite Hc. cbn [mbind outcome_bind].
  destruct (IH (set_bucket m a b') Hnd) as (m' & -> & H1 & H2 & H3 & H4 & H5 & H6).
  { intros x Hx. cbn [set_bucket pm_store]. rewrite list_lookup_insert_ne by (intros ->; done). apply Hall. by right. }
  exists m'. cbn [set_bucket pm_store pm_buckets pm_allocated pm_parameters] in *. rewrite length_insert in H4. split_and!; try done.
  - intros x Hx. rewrite not_elem_of_cons in Hx. destruct Hx as [Hxa Hx]. rewrite H5 by done. by apply list_lookup_insert_ne.
  - intros x c c' [->|Hx]%elem_of_cons Hc1 Hc2.
    + rewrite H5 by done. simplify_eq. assert (c' = b') as -> by congruence. apply list_lookup_insert_eq. by eapply lookup_lt_Some.
    + apply (H6 x c c' Hx); [|done]. rewrite list_lookup_insert_ne; [done|]. by intros ->.
Qed.

Lemma compact_all_order m order1 order2 :
  NoDup order1 -> order1 ≡ₚ order2 ->
  (forall a, a ∈ order1 -> exists b b', pm_store m !! a = Some b /\ packedBucket_Compact b = Done b') ->
  exists m', compact_all m order1 = Done m' /\ compact_all m order2 = Done m'.
Proof using Type.
  intros Hnd Hperm Hall.
  destruct (compact_all_exact m order1 Hnd Hall) as (m1 & E1 & A1 & A2 & A3 & A4 & A5 & A6).
  destruct (compact_all_exact m order2) as (m2 & E2 & B1 & B2 & B3 & B4 & B5 & B6);
    [by rewrite <- Hperm|intros a; rewrite <- Hperm; apply Hall|].
  exists m1. split; [done|]. rewrite E2. f_equal.
  assert (Hst : pm_store m2 = pm_store m1).
  { apply list_eq. intros a. destruct (decide (a ∈ order1)) as [Ha|Ha].
    - destruct (Hall a Ha) as (b & b' & Hb & Hc). rewrite (A6 a b b' Ha Hb Hc). apply (B6 a b b'); [by rewrite <- Hperm|done..].
    - rewrite A5 by done. apply B5. by rewrite <- Hperm. }
  destruct m1, m2. cbn in *. by subst.
Qed.

Lemma table_compacts p m P :
  table waiting p m P -> (forall i k, k ∈ (P i).*1 -> is_u64 k) -> (forall i, (Z.of_nat (length (P i)) < 2 ^ 56)%Z) ->
  forall a, a ∈ pm_allocated m -> exists b b', pm_store m !! a = Some b /\ packedBucket_Compact b = Done b'.
Proof using HBL.
  intros [H1 H2 H3 H4 H5 H6 H7] Hu Hlen a. rewrite H3. intros [_ Ha]%elem_of_seq.
  destruct (H7 a Ha) as [i Hi]. destruct (H4 i a Hi) as (b & Hb & HR).
  destruct (Compact_settled b (P i) HR (Hu i) (Hlen i)) as (b' & Hb' & _). by exists b, b'.
Qed.

Lemma Compact_table p m P :
  table waiting p m P -> (forall i k, k ∈ (P i).*1 -> is_u64 k) -> (forall i, (Z.of_nat (length (P i)) < 2 ^ 56)%Z) ->
  exists m', PackedMap_Compact m = Done m' /\ table settled p m' P.
Proof using HBL.
  intros T Hu Hlen. unfold PackedMap_Compact.
  destruct (compact_all_exact m (pm_allocated m)) as (m' & -> & E1 & E2 & E3 & E4 & _ & E6).
  - rewrite (tb_alloc _ _ _ _ T). apply NoDup_seq.
  - by eapply table_compacts.
  - destruct T as [H1 H2 H3 H4 H5 H6 H7].
    exists m'. split; [done|]. split; rewrite ?E1, ?E2, ?E3, ?E4; try done.
    intros i a Hi. destruct (H4 i a Hi) as (b & Hb & HR).
    destruct (Compact_settled b (P i) HR (Hu i) (Hlen i)) as (b' & Hb' & Hs). exists b'. split; [|done].
    apply (E6 a b b'); [|done|done]. rewrite H3. apply elem_of_seq. apply lookup_lt_Some in Hb. lia.
Qed.

Lemma NewPacMap_table p : (0 < NumBuckets p)%Z ->
  exists m, NewPacMap p = Done m /\ table waiting p m (fun _ => []).
Proof using Type.
  intros Hnb. unfold NewPacMap. rewrite decide_True by lia. eexists. split; [reflexivity|].
  split; cbn [pm_parameters pm_buckets pm_allocated pm_store]; try done.
  - by rewrite length_replicate.
  - intros i a [? _]%lookup_replicate. done.
  - intros i j a [? _]%lookup_replicate. done.
  - cbn. lia.
Qed.

End packed.

(** A sort by key that keeps the order of equal keys. *)
Definition key_le (a b : kvPair) : Prop := (a.1 <= b.1)%Z.
#[export] Instance key_le_dec : RelDecision key_le.
Proof. intros a b. unfold key_le. apply _. Defined.

#[export, refine] Instance SortPending_merge : SortPending := { sort_pending := merge_sort key_le }.
Proof.
  - intros l. apply merge_sort_Permutation.
  - intros l. assert (Hs : StronglySorted key_le (merge_sort key_le l)).
    { apply StronglySorted_merge_sort.
      - intros a b c Hab Hbc. unfold key_le in *. lia.
      - intros a b. unfold key_le. lia. }
    induction Hs as [|x l' Hs IH Hall]; cbn; constructor; [done|].
    rewrite Forall_forall in Hall. apply Forall_forall. intros y (z & -> & Hz)%list_elem_of_fmap. by apply Hall.
Defined.


(** ** Properties *)

Section properties.
Context {B : Type} `{HB : BitSet B} `{HBL : !BitSetLaws B} `{HL : CeilLog2} `{HS : SortPending}.

Lemma filter_sub (P : kvPair -> Prop) `{forall x, Decision (P x)} (kvs : list kvPair) :
  (forall k, k ∈ (filter P kvs).*1 -> k ∈ kvs.*1) /\ length (filter P kvs) <= length kvs.
Proof using Type.
  split.
  - intros k (kv & -> & [_ Hkv]%list_elem_of_filter)%list_elem_of_fmap. apply list_elem_of_fmap. by exists kv.
  - apply length_filter.
Qed.

Lemma NoDup_fst_filter (P : kvPair -> Prop) `{forall x, Decision (P x)} (kvs : list kvPair) :
  NoDup kvs.*1 -> NoDup (filter P kvs).*1.
Proof using Type.
  induction kvs as [|kv kvs IH]; [done|]. rewrite fmap_cons, filter_cons. intros [Hn Hnd]%NoDup_cons.
  case_decide; [|by apply IH]. rewrite fmap_cons. apply NoDup_cons. split; [|by apply IH].
  intros Hin. by apply Hn, (filter_sub P).
Qed.

(** [Get] looks in the bucket of the key. *)
Lemma Get_bucket (R : packedBucket (B := B) -> list kvPair -> Prop) p m P k fuel :
  table R p m P -> R newPacBucket [] -> (0 < BucketKeyStride p)%Z -> (0 < NumBuckets p)%Z -> is_u64 k ->
  exists b m', R b (P (bucket_of p k)) /\ (P (bucket_of p k) <> [] -> m' = m) /\
    PackedMap_Get fuel m k = (r ← packedBucket_Find fuel b k; Done (r, m')).
Proof using Type.
  intros T Hnew Hst Hnb Hk.
  destruct (getBucket_exact R p m P k T Hnew Hst Hnb) as (a & m' & E & T' & Hb & Hsame); [apply Hk|].
  destruct (tb_some _ _ _ _ T' _ _ Hb) as (b & Hb' & HR). exists b, m'. split_and!; [done| |].
  - intros Hne. apply Hsame. intros Hn. by rewrite (tb_none _ _ _ _ T _ Hn) in Hne.
  - unfold PackedMap_Get. rewrite E. cbn [mbind outcome_bind]. unfold bucket_at. by rewrite Hb'.
Qed.

(** A packed map that was filled and compacted once is the map of the pairs
    put into it: for distinct keys, [Put] and [Compact] do not panic, every key
    is found with its value, and a key that was not put is not found if its
    bucket is empty or holds a smaller key.  Compacting in parallel gives the same
    map in every order of the buckets.  Before the compaction no key is found. *)
Theorem PackedMap_compacted (p : Parameters) (kvs : list kvPair) fuel :
  (0 < BucketKeyStride p)%Z -> (0 < NumBuckets p)%Z ->
  NoDup kvs.*1 -> (forall k, k ∈ kvs.*1 -> is_u64 k) -> (Z.of_nat (length kvs) < 2 ^ 56)%Z -> 64 <= fuel ->
  exists m0 m1 m2, NewPacMap (B := B) p = Done m0 /\ put_all m0 kvs = Done m1 /\ PackedMap_Compact m1 = Done m2 /\
    (forall workers order, (0 < workers)%Z -> order ≡ₚ pm_allocated m1 ->
       PackedMap_CompactParallel m1 workers order = Done m2) /\
    (forall k, is_u64 k -> exists m', PackedMap_Get fuel m1 k = Done ((0%Z, false), m')) /\
    (forall k v, (k, v) ∈ kvs -> PackedMap_Get fuel m2 k = Done ((v, true), m2)) /\
    (forall k, is_u64 k -> k ∉ kvs.*1 ->
       (forall k', k' ∈ kvs.*1 -> bucket_of p k' <> bucket_of p k) \/
       (exists k', k' ∈ kvs.*1 /\ bucket_of p k' = bucket_of p k /\ (k' <= k)%Z) ->
       exists m', PackedMap_Get fuel m2 k = Done ((0%Z, false), m')).
Proof using HBL.
  intros Hst Hnb Hnd Hu Hlen Hfuel.
  destruct (NewPacMap_table (B := B) p Hnb) as (m0 & E0 & T0).
  destruct (put_all_exact p m0 _ kvs T0 Hst Hnb Hu) as (m1 & E1 & T1).
  set (P := fun i => filter (fun kv : kvPair => bucket_of p kv.1 = i) kvs).
  apply (table_ext _ _ _ _ P) in T1; [|done].
  assert (Hl56 : forall i, (Z.of_nat (length (P i)) < 2 ^ 56)%Z).
  { intros i. pose proof (proj2 (filter_sub (fun kv => bucket_of p kv.1 = i) kvs)). subst P. cbn beta. lia. }
  assert (HuP : forall i k, k ∈ (P i).*1 -> is_u64 k).
  { intros i k Hk. apply Hu. by apply (filter_sub (fun kv => bucket_of p kv.1 = i)). }
  destruct (Compact_table p m1 P T1 HuP Hl56) as (m2 & E2 & T2).
  exists m0, m1, m2. split_and!; [done|done|done|..].
  - intros workers order Hw Hperm. unfold PackedMap_CompactParallel. rewrite (proj2 (Z.leb_gt workers 0)) by done.
    destruct (compact_all_order m1 (pm_allocated m1) order) as (m & F1 & F2).
    + rewrite (tb_alloc _ _ _ _ T1). apply NoDup_seq.
    + done.
    + by eapply table_compacts.
    + unfold PackedMap_Compact in E2. congruence.
  - intros k Hk. destruct (Get_bucket waiting p m1 P k fuel T1 eq_refl Hst Hnb Hk) as (b & m' & -> & _ & ->). by eexists.
  - intros k v Hin. assert (Hk : is_u64 k) by (apply Hu, list_elem_of_fmap; by exists (k, v)).
    assert (HP : (k, v) ∈ P (bucket_of p k)) by (by apply list_elem_of_filter).
    destruct (Get_bucket settled p m2 P k fuel T2 (or_introl (conj eq_refl eq_refl)) Hst Hnb Hk) as (b & m' & HR & Hm & ->).
    rewrite Hm by (intros E; rewrite E in HP; by apply elem_of_nil in HP).
    destruct HR as [[E _]|Hc]; [rewrite E in HP; by apply elem_of_nil in HP|].
    rewrite (compacted_Find b _ k v fuel Hc); [done|by apply NoDup_fst_filter|apply Hl56|done|done].
  - intros k Hk Hnot Hcase.
    destruct (Get_bucket settled p m2 P k fuel T2 (or_introl (conj eq_refl eq_refl)) Hst Hnb Hk) as (b & m' & HR & _ & ->).
    exists m'. destruct HR as [[_ ->]|Hc]; [done|].
    assert (Hkeys : forall k', k' ∈ (P (bucket_of p k)).*1 <-> k' ∈ kvs.*1 /\ bucket_of p k' = bucket_of p k).
    { intros k'. rewrite !list_elem_of_fmap. split.
      - intros (kv & -> & [Hb Hkv]%list_elem_of_filter). split; [by exists kv|done].
      - intros [(kv & -> & Hkv) Hb]. exists kv. split; [done|]. by apply list_elem_of_filter. }
    assert (Hex : exists k', k' ∈ (P (bucket_of p k)).*1 /\ (k' <= k)%Z).
    { destruct Hcase as [Hno|(k' & H1 & H2 & H3)]; [|exists k'; split; [by apply Hkeys|done]]. exfalso.
      destruct (P (bucket_of p k)) as [|kv l] eqn:E.
      - by destruct Hc.
      - apply (Hno kv.1); apply Hkeys; by left. }
    destruct Hex as (k' & Hk' & Hle). erewrite (compacted_miss b _ k k' fuel Hc); [done|apply Hl56| |done|done|done].
    intros Hin. by apply Hkeys in Hin as [? _].
Qed.
End properties.

(** ** Examples *)

Definition small_parameters : Parameters := mkParameters 100 10 3.
Definition some_pairs : list kvPair := [(9, 90); (5, 50); (105, 1); (900, 2)]%Z.

Lemma PackedMap_compacted_witness :
  exists m0 m1 m2, NewPacMap (B := bits) small_parameters = Done m0 /\ put_all m0 some_pairs = Done m1 /\
    PackedMap_Compact m1 = Done m2 /\ PackedMap_Get 64 m2 105 = Done ((1%Z, true), m2).
Proof.
  destruct (PackedMap_compacted (B := bits) small_parameters some_pairs 64) as (m0 & m1 & m2 & E0 & E1 & E2 & _ & _ & Hf & _).
  - done.
  - done.
  - apply (bool_decide_unpack _). vm_compute. reflexivity.
  - intros k Hk. unfold some_pairs, is_u64, two64 in *. cbn in Hk.
    repeat (apply elem_of_cons in Hk as [->|Hk]; [lia|]). by apply elem_of_nil in Hk.
  - cbn. lia.
  - lia.
  - exists m0, m1, m2. split_and!; [exact E0|exact E1|exact E2|]. apply Hf.
    apply (bool_decide_unpack _). vm_compute. reflexivity.
Defined.

(** A second compaction merges the new keys into the set and keeps the old
    values: the values slide under the keys, so that a new key at the end panics
    and a new key at the front is answered with another key's value. *)
Theorem PackedMap_second_compaction_wrong :
  (m0 ← NewPacMap (B := bits) small_parameters;
   m1 ← put_all m0 [(5, 50)]%Z; m2 ← PackedMap_Compact m1;
   m3 ← put_all m2 [(9, 90)]%Z; m4 ← PackedMap_Compact m3;
   PackedMap_Get 64 m4 9) = Panic /\
  (m0 ← NewPacMap (B := bits) small_parameters;
   m1 ← put_all m0 [(9, 90)]%Z; m2 ← PackedMap_Compact m1;
   m3 ← put_all m2 [(5, 50)]%Z; m4 ← PackedMap_Compact m3;
   r ← PackedMap_Get 64 m4 5; Done r.1) = Done (90%Z, true).
Proof. split; vm_compute; reflexivity. Qed.
