(* ===== verification/DataTypes.v ===== *)
(** * Data types of the SQL model (cypher/models/pgsql/pgtypes.go, operators.go)

    The types the translator infers for expressions, and the tables it consults:
    which types compare, which widen to which, what an operator returns, and the
    type of a parameter value.  The types are finitely many, so statements over
    all of them are checked by evaluation. *)

From S2P Require Import Prelude Kinds Mapper.
From stdpp Require Import finite.

(** ** Types *)

Inductive DataType :=
| UnsetDataType | UnknownDataType
| Null | Any | NodeComposite | EdgeComposite | PathComposite
| TInt | TInt2 | TInt4 | TInt8 | TFloat4 | TFloat8 | TBoolean | TText | TJSONB | TNumeric
| AnyArray | NodeCompositeArray | EdgeCompositeArray | IntArray | Int2Array | Int4Array | Int8Array
| Float4Array | Float8Array | TextArray | JSONBArray | NumericArray
| Date | TimeWithTimeZone | TimeWithoutTimeZone | Interval | TimestampWithTimeZone | TimestampWithoutTimeZone
| Scope | ParameterIdentifier | ExpansionPattern | ExpansionPath | ExpansionRootNode | ExpansionEdge
| ExpansionTerminalNode | PathEdge.

#[export] Instance DataType_eq_dec : EqDecision DataType.
Proof. solve_decision. Defined.

#[export, refine] Instance DataType_finite : Finite DataType := {
  enum := [UnsetDataType; UnknownDataType; Null; Any; NodeComposite; EdgeComposite; PathComposite; TInt; TInt2;
    TInt4; TInt8; TFloat4; TFloat8; TBoolean; TText; TJSONB; TNumeric; AnyArray; NodeCompositeArray;
    EdgeCompositeArray; IntArray; Int2Array; Int4Array; Int8Array; Float4Array; Float8Array; TextArray; JSONBArray;
    NumericArray; Date; TimeWithTimeZone; TimeWithoutTimeZone; Interval; TimestampWithTimeZone;
    TimestampWithoutTimeZone; Scope; ParameterIdentifier; ExpansionPattern; ExpansionPath; ExpansionRootNode;
    ExpansionEdge; ExpansionTerminalNode; PathEdge]
}.
Proof.
  - apply (bool_decide_unpack _). vm_compute. done.
  - intros t. apply (bool_decide_unpack _). destruct t; vm_compute; done.
Defined.

(** The text of a type: [string(s)]. *)
Definition DataType_String (s : DataType) : string :=
  match s with
  | UnsetDataType => "" | UnknownDataType => "unknown" | Null => "null" | Any => "any"
  | NodeComposite => "nodecomposite" | EdgeComposite => "edgecomposite" | PathComposite => "pathcomposite"
  | TInt => "int" | TInt2 => "int2" | TInt4 => "int4" | TInt8 => "int8" | TFloat4 => "float4" | TFloat8 => "float8"
  | TBoolean => "bool" | TText => "text" | TJSONB => "jsonb" | TNumeric => "numeric" | AnyArray => "anyarray"
  | NodeCompositeArray => "nodecomposite[]" | EdgeCompositeArray => "edgecomposite[]" | IntArray => "int[]"
  | Int2Array => "int2[]" | Int4Array => "int4[]" | Int8Array => "int8[]" | Float4Array => "float4[]"
  | Float8Array => "float8[]" | TextArray => "text[]" | JSONBArray => "jsonb[]" | NumericArray => "numeric[]"
  | Date => "date" | TimeWithTimeZone => "time with time zone" | TimeWithoutTimeZone => "time without time zone"
  | Interval => "interval" | TimestampWithTimeZone => "timestamp with time zone"
  | TimestampWithoutTimeZone => "timestamp without time zone" | Scope => "scope"
  | ParameterIdentifier => "parameter_identifier" | ExpansionPattern => "expansion_pattern"
  | ExpansionPath => "expansion_path" | ExpansionRootNode => "expansion_root_node" | ExpansionEdge => "expansion_edge"
  | ExpansionTerminalNode => "expansion_terminal_node" | PathEdge => "path_edge"
  end.

Inductive Operator :=
| UnsetOperator | OperatorUnion | OperatorConcatenate | OperatorArrayOverlap | OperatorEquals | OperatorNotEquals
| OperatorGreaterThan | OperatorGreaterThanOrEqualTo | OperatorLessThan | OperatorLessThanOrEqualTo | OperatorLike
| OperatorILike | OperatorPGArrayOverlap | OperatorPGArrayLHSContainsRHS | OperatorAnd | OperatorOr | OperatorNot
| OperatorJSONBFieldExists | OperatorJSONField | OperatorJSONTextField | OperatorAdd | OperatorSubtract
| OperatorMultiply | OperatorDivide | OperatorIn | OperatorIs | OperatorIsNot | OperatorSimilarTo | OperatorRegexMatch
| OperatorAdditionAssignment | OperatorCypherRegexMatch | OperatorCypherStartsWith | OperatorCypherContains
| OperatorCypherEndsWith | OperatorCypherNotEquals | OperatorPropertyLookup | OperatorKindAssignment.

(** [OperatorAssignment] is the same text as [OperatorEquals]. *)
Definition OperatorAssignment : Operator := OperatorEquals.

#[export] Instance Operator_eq_dec : EqDecision Operator.
Proof. solve_decision. Defined.

#[export, refine] Instance Operator_finite : Finite Operator := {
  enum := [UnsetOperator; OperatorUnion; OperatorConcatenate; OperatorArrayOverlap; OperatorEquals; OperatorNotEquals;
    OperatorGreaterThan; OperatorGreaterThanOrEqualTo; OperatorLessThan; OperatorLessThanOrEqualTo; OperatorLike;
    OperatorILike; OperatorPGArrayOverlap; OperatorPGArrayLHSContainsRHS; OperatorAnd; OperatorOr; OperatorNot;
    OperatorJSONBFieldExists; OperatorJSONField; OperatorJSONTextField; OperatorAdd; OperatorSubtract;
    OperatorMultiply; OperatorDivide; OperatorIn; OperatorIs; OperatorIsNot; OperatorSimilarTo; OperatorRegexMatch;
    OperatorAdditionAssignment; OperatorCypherRegexMatch; OperatorCypherStartsWith; OperatorCypherContains;
    OperatorCypherEndsWith; OperatorCypherNotEquals; OperatorPropertyLookup; OperatorKindAssignment]
}.
Proof.
  - apply (bool_decide_unpack _). vm_compute. done.
  - intros t. apply (bool_decide_unpack _). destruct t; vm_compute; done.
Defined.

Definition OperatorIsIn (operator : Operator) (matchers : list Operator) : bool :=
  existsb (fun m => bool_decide (m = operator)) matchers.

Definition OperatorIsComparator (operator : Operator) : bool :=
  OperatorIsIn operator
    [OperatorEquals; OperatorNotEquals; OperatorGreaterThan; OperatorGreaterThanOrEqualTo; OperatorLessThan;
     OperatorLessThanOrEqualTo; OperatorArrayOverlap; OperatorLike; OperatorILike; OperatorPGArrayOverlap;
     OperatorRegexMatch; OperatorSimilarTo; OperatorPGArrayLHSContainsRHS].

Definition IsKnown (s : DataType) : bool :=
  match s with UnsetDataType | UnknownDataType => false | _ => true end.

Definition IsTemporalType (s : DataType) : bool :=
  match s with
  | Date | TimeWithTimeZone | TimeWithoutTimeZone | TimestampWithTimeZone | TimestampWithoutTimeZone => true
  | _ => false
  end.

Definition TemporalIntervalArithmeticResultType (s : DataType) : DataType :=
  if decide (s = Date) then TimestampWithoutTimeZone else s.

Definition MatchesOneOf (s : DataType) (others : list DataType) : bool :=
  existsb (fun other => bool_decide (s = other)) others.

Definition IsArrayType (s : DataType) : bool :=
  match s with
  | AnyArray | Int2Array | Int4Array | Int8Array | IntArray | Float4Array | Float8Array | TextArray | JSONBArray
  | NodeCompositeArray | EdgeCompositeArray | NumericArray => true
  | _ => false
  end.

(** [None] is [ErrNoAvailableArrayDataType]. *)
Definition ToArrayType (s : DataType) : option DataType :=
  match s with
  | TInt2 | Int2Array => Some Int2Array
  | TInt4 | Int4Array => Some Int4Array
  | TInt8 | Int8Array => Some Int8Array
  | TInt | IntArray => Some IntArray
  | Any | AnyArray => Some AnyArray
  | TJSONB | JSONBArray => Some JSONBArray
  | NodeComposite | NodeCompositeArray => Some NodeCompositeArray
  | EdgeComposite | EdgeCompositeArray => Some EdgeCompositeArray
  | TFloat4 | Float4Array => Some Float4Array
  | TFloat8 | Float8Array => Some Float8Array
  | TText | TextArray => Some TextArray
  | TNumeric | NumericArray => Some NumericArray
  | _ => None
  end.

Definition ArrayBaseType (s : DataType) : DataType :=
  match s with
  | Int2Array => TInt2
  | Int4Array => TInt4
  | Int8Array => TInt8
  | Float4Array => TFloat4
  | Float8Array => TFloat8
  | TextArray => TText
  | NumericArray => TNumeric
  | JSONBArray => TJSONB
  | AnyArray => Any
  | NodeCompositeArray => NodeComposite
  | EdgeCompositeArray => EdgeComposite
  | _ => s
  end.

Definition IsComparable (s other : DataType) (operator : Operator) : bool :=
  match operator with
  | OperatorPGArrayOverlap | OperatorArrayOverlap | OperatorPGArrayLHSContainsRHS =>
      if negb (IsArrayType s) || negb (IsArrayType other) then false else bool_decide (s = other)
  | OperatorEquals | OperatorNotEquals | OperatorGreaterThan | OperatorGreaterThanOrEqualTo | OperatorLessThan
  | OperatorLessThanOrEqualTo =>
      match s with
      | NodeComposite | EdgeComposite | PathComposite | TJSONB | AnyArray | TText | TBoolean
      | IntArray | Int8Array | Int4Array | Int2Array | Float8Array | Float4Array | NumericArray | TextArray
      | Date | TimeWithTimeZone | TimeWithoutTimeZone | Interval | TimestampWithTimeZone | TimestampWithoutTimeZone =>
          bool_decide (other = s)
      | TInt | TInt8 | TInt4 | TInt2 =>
          match other with TInt | TInt8 | TInt4 | TInt2 | TFloat8 | TFloat4 | TNumeric => true | _ => false end
      | TFloat8 | TFloat4 | TNumeric =>
          match other with TInt | TInt8 | TInt4 | TInt2 | TFloat8 | TFloat4 | TNumeric => true | _ => false end
      | _ => false
      end
  | OperatorLike | OperatorILike | OperatorSimilarTo | OperatorRegexMatch =>
      match s with TText => bool_decide (other = s) | _ => false end
  | _ => false
  end.

(** [None] is [(UnknownDataType, false)]. *)
Definition CoerceToSupertype (s other : DataType) : option DataType :=
  match other with
  | UnknownDataType => Some s
  | _ =>
      match s with
      | UnknownDataType => Some other
      | TInt2 =>
          match other with TInt2 => Some s | TInt | TNumeric | TInt8 | TInt4 => Some other | _ => None end
      | TInt4 =>
          match other with TInt4 | TInt2 => Some s | TInt | TNumeric | TInt8 => Some other | _ => None end
      | TInt8 =>
          match other with TInt | TInt8 | TInt4 | TInt2 => Some s | TNumeric => Some other | _ => None end
      | TInt =>
          match other with TInt => Some s | TNumeric | TInt8 => Some other | _ => None end
      | TFloat4 =>
          match other with TFloat4 | TFloat8 | TNumeric => Some other | _ => None end
      | TFloat8 =>
          match other with TFloat4 => Some s | TFloat8 | TNumeric => Some other | _ => None end
      | TNumeric =>
          match other with
          | TFloat4 | TFloat8 | TInt8 | TInt | TInt4 | TInt2 => Some s
          | TNumeric => Some other
          | _ => None
          end
      | _ => None
      end
  end.

(** The arithmetic cases after equality and widening. *)
Definition arithmetic_result (s other : DataType) (operator : Operator) : DataType * bool :=
  let special :=
    match operator with
    | OperatorAdd =>
        if IsTemporalType s && bool_decide (other = Interval) then Some (TemporalIntervalArithmeticResultType s)
        else if bool_decide (s = Interval) && IsTemporalType other
        then Some (TemporalIntervalArithmeticResultType other) else None
    | OperatorSubtract =>
        if IsTemporalType s && bool_decide (other = Interval) then Some (TemporalIntervalArithmeticResultType s) else None
    | _ => None
    end in
  match special with
  | Some t => (t, true)
  | None =>
      match s, other with
      | Date, Date | Date, Interval => (Date, true)
      | Interval, Date => (Date, true)
      | Interval, Interval => (Interval, true)
      | _, _ => (UnknownDataType, false)
      end
  end.

Definition concatenate_result (s other : DataType) : DataType * bool :=
  if bool_decide (s = AnyArray) && IsArrayType other then (other, true)
  else if bool_decide (other = AnyArray) && IsArrayType s then (s, true)
  else if IsArrayType s then (s, bool_decide (s = other) || bool_decide (ArrayBaseType s = other))
  else if IsArrayType other then (other, bool_decide (s = other) || bool_decide (s = ArrayBaseType other))
  else match s with
       | UnknownDataType => (other, true)
       | TText => (s, true)
       | _ => if decide (other = TText) then (other, true) else (UnknownDataType, false)
       end.

Definition OperatorResultType (s other : DataType) (operator : Operator) : DataType * bool :=
  if OperatorIsComparator operator && IsComparable s other operator then (TBoolean, true)
  else
    match operator with
    | OperatorAnd | OperatorOr => (TBoolean, true)
    | OperatorAdd | OperatorSubtract | OperatorMultiply | OperatorDivide =>
        if decide (s = other) then (s, true)
        else match CoerceToSupertype s other with
             | Some supertype => (supertype, true)
             | None => arithmetic_result s other operator
             end
    | OperatorConcatenate => concatenate_result s other
    | _ => (UnknownDataType, false)
    end.

(** ** The types of parameter values *)

(** What the switches distinguish among the values outside [any]'s own cases. *)
Inductive other_kind :=
| KDuration | KKind | KKinds | KMapLiteral | KMap | KProperties | KListLiteral
| KForeign (type_name : string).

Section values.
(** The dynamic type of an [Other] value, and whether a time has a location
    other than the local one. *)
Variable kind_of : nat -> other_kind.
Variable has_zone : time -> bool.
(** [pgtype.JSONB.Set] of a map or of a property bag. *)
Variable jsonb : nat -> option any.

Fixpoint ValueToDataType (value : any) : option DataType :=
  match value with
  | Time t => Some (if has_zone t then TimestampWithTimeZone else TimestampWithoutTimeZone)
  | Int (tuint8 | tint8 | tint16) _ => Some TInt2
  | SliceInt (tuint8 | tint8 | tint16) _ => Some Int2Array
  | Int (tuint16 | tint32) _ => Some TInt4
  | SliceInt (tuint16 | tint32) _ => Some Int4Array
  | Int (tuint32 | tuint | tuint64 | tint | tint64 | tID) _ => Some TInt8
  | SliceInt (tuint32 | tuint | tuint64 | tint | tint64 | tID) _ => Some Int8Array
  | Flt tfloat32 _ => Some TFloat4
  | SliceFlt tfloat32 _ => Some Float4Array
  | Flt tfloat64 _ => Some TFloat8
  | SliceFlt tfloat64 _ => Some Float8Array
  | Str _ => Some TText
  | SliceStr _ => Some TextArray
  | Bool _ => Some TBoolean
  | Nil => None
  | SliceAny [] => Some Null
  | SliceAny (first :: rest) =>
      (* anySliceType *)
      match ValueToDataType first with
      | None => None
      | Some expectedType =>
          if (fix same (l : list any) : bool :=
                match l with
                | [] => true
                | element :: l' =>
                    match ValueToDataType element with
                    | None => false
                    | Some elementType => bool_decide (expectedType = elementType) && same l'
                    end
                end) rest
          then ToArrayType expectedType else None
      end
  | Other tag =>
      match kind_of tag with
      | KDuration => Some Interval
      | KKind => Some TInt2
      | KKinds => Some Int2Array
      | KMapLiteral | KMap | KProperties => Some TJSONB
      | KListLiteral => Some JSONBArray
      | KForeign _ => None
      end
  end.

(** [None] is the error of the JSON encoding. *)
Definition NegotiateValue (value : any) : option any :=
  match value with
  | Int tID z => Some (Int tuint64 z)
  | SliceInt tID l => Some (SliceInt tuint64 l)
  | Other tag => match kind_of tag with KMap | KProperties => jsonb tag | _ => Some value end
  | _ => Some value
  end.

(** The dynamic type names that [reflect] gives. *)
Definition intty_name (t : intty) : string :=
  match t with
  | tuint => "uint" | tuint8 => "uint8" | tuint16 => "uint16" | tuint32 => "uint32" | tuint64 => "uint64"
  | tint => "int" | tint8 => "int8" | tint16 => "int16" | tint32 => "int32" | tint64 => "int64" | tID => "graph.ID"
  end.

Definition fltty_name (t : fltty) : string := match t with tfloat32 => "float32" | tfloat64 => "float64" end.

Definition stableTypeName (value : any) : string :=
  match value with
  | Nil => "nil"
  | Bool _ => "bool"
  | Str _ => "string"
  | Int t _ => intty_name t
  | Flt t _ => fltty_name t
  | Time _ => "time.Time"
  | SliceAny _ => "[]interface {}"
  | SliceStr _ => "[]string"
  | SliceInt t _ => String.append "[]" (intty_name t)
  | SliceFlt t _ => String.append "[]" (fltty_name t)
  | Other tag =>
      match kind_of tag with
      | KDuration => "time.Duration"
      | KKind => "*graph.stringKind"
      | KKinds => "graph.Kinds"
      | KMapLiteral => "cypher.MapLiteral"
      | KMap => "map[string]interface {}"
      | KProperties => "*graph.Properties"
      | KListLiteral => "*cypher.ListLiteral"
      | KForeign type_name => type_name
      end
  end.

End values.

(** ** Properties *)

(** The two chains along which types widen. *)
Definition integer_chain : list DataType := [TInt2; TInt4; TInt; TInt8; TNumeric].
Definition float_chain : list DataType := [TFloat4; TFloat8; TNumeric].

Fixpoint position (t : DataType) (l : list DataType) : option nat :=
  match l with
  | [] => None
  | x :: l' => if decide (t = x) then Some 0 else S <$> position t l'
  end.

(** The later of two types of one chain. *)
Definition later (chain : list DataType) (s other : DataType) : option DataType :=
  i ← position s chain;
  j ← position other chain;
  Some (if decide (i <= j) then other else s).

Definition supertype (s other : DataType) : option DataType :=
  if decide (other = UnknownDataType) then Some s
  else if decide (s = UnknownDataType) then Some other
  else match later integer_chain s other with
       | Some t => Some t
       | None => later float_chain s other
       end.

(** [CoerceToSupertype] is the join of the two widening chains: it returns the
    later type of the chain both types are on, an unknown type takes the other
    one, and types on no common chain have no supertype.  It does not depend on
    the order of the types.  The exceptions are [int] before [int2] or [int4]. *)
Theorem CoerceToSupertype_chains : forall s other : DataType,
  (s = TInt /\ (other = TInt2 \/ other = TInt4) /\
     CoerceToSupertype s other = None /\ CoerceToSupertype other s = Some TInt) \/
  (CoerceToSupertype s other = supertype s other /\
     (other = TInt /\ (s = TInt2 \/ s = TInt4) \/ CoerceToSupertype other s = CoerceToSupertype s other)).
Proof. refine (bool_decide_unpack _ _). vm_compute. done. Qed.

(** Array types: the array type of a type is an array type and its own array
    type, and taking its base type gives the element type back ([int] excepted);
    an array concatenates with its element type on either side. *)
Theorem ToArrayType_roundtrip : forall t a : DataType, ToArrayType t = Some a ->
  IsArrayType a = true /\ ToArrayType a = Some a /\
  (IsArrayType t = false -> t <> TInt ->
     ArrayBaseType a = t /\ OperatorResultType a t OperatorConcatenate = (a, true) /\
     OperatorResultType t a OperatorConcatenate = (a, true)).
Proof. refine (bool_decide_unpack _ _). vm_compute. done. Qed.

Lemma ToArrayType_roundtrip_witness :
  ToArrayType TText = Some TextArray /\ ArrayBaseType TextArray = TText.
Proof. split; [reflexivity|]. apply (ToArrayType_roundtrip TText TextArray); [reflexivity|reflexivity|discriminate]. Defined.

(** [ArrayBaseType] has no case for [int[]], so that an [int[]] does not
    concatenate with an [int]. *)
Theorem ArrayBaseType_int_missing :
  ToArrayType TInt = Some IntArray /\ ArrayBaseType IntArray = IntArray /\
  OperatorResultType IntArray TInt OperatorConcatenate = (IntArray, false).
Proof. done. Qed.

(** Comparability does not depend on the order of the operands, and a comparison
    of comparable types is a boolean. *)
Theorem IsComparable_symmetric : forall (s other : DataType) (operator : Operator),
  IsComparable s other operator = IsComparable other s operator /\
  (IsComparable s other operator = true -> OperatorResultType s other operator = (TBoolean, true)).
Proof. refine (bool_decide_unpack _ _). vm_compute. done. Qed.

(** Negotiation keeps the data type of every value but those that become JSON. *)
Lemma NegotiateValue_type kind_of has_zone jsonb v w :
  NegotiateValue kind_of jsonb v = Some w ->
  (forall tag, v = Other tag -> kind_of tag <> KMap /\ kind_of tag <> KProperties) ->
  ValueToDataType kind_of has_zone w = ValueToDataType kind_of has_zone v.
Proof.
  intros Hn Hj. destruct v as [| | |[] z| | | | |[] l| |tag]; cbn in Hn; try (injection Hn as <-; reflexivity).
  destruct (Hj tag eq_refl). destruct (kind_of tag); try done; injection Hn as <-; reflexivity.
Qed.
