(* ===== verification/TranslationCache.v ===== *)
(** * The query translation cache (drivers/pg/translation_cache.go)

    Concurrent callers of [GetOrBuildContext] share one cache of translated
    queries.  A caller that misses registers a pending call and builds; the
    others for the same key wait for it.  The code between two lock
    operations is one step here, so a state holds the shared cache and where
    each caller stands, and the step relation interleaves the callers, [Invalidate]
    and [Close] in any order.  What a build returns is chosen by the step.

    The entries are kept in any [cache.Cache] that evicts one key when full;
    the theorems are proved against that interface ([Cache.LawfulCache]),
    which the SIEVE cache implements. *)

From S2P Require Import Prelude Cache Kinds Mapper DataTypes.

Definition maxCachedCypherBytes : Z := 64 * 1024.
Definition translationCacheKeyFormat : Z := 3.

(** ** Keys *)

Record translationCacheKey := mkKey {
  k_format : Z;
  k_queryDigest : Z;
  k_querySize : Z;
  k_graphID : Z;
  k_parameterTypes : string;
  k_policy : string;
  k_schemaGeneration : Z
}.

#[export] Instance key_eq_dec : EqDecision translationCacheKey.
Proof. solve_decision. Defined.

#[export] Instance key_countable : Countable translationCacheKey.
Proof.
  refine (inj_countable'
    (fun k => (k_format k, k_queryDigest k, k_querySize k, k_graphID k, k_parameterTypes k, k_policy k,
               k_schemaGeneration k))
    (fun '(a, b, c, d, e, f, g) => mkKey a b c d e f g) _).
  by intros [].
Defined.

Definition with_generation (k : translationCacheKey) (g : Z) : translationCacheKey :=
  mkKey (k_format k) (k_queryDigest k) (k_querySize k) (k_graphID k) (k_parameterTypes k) (k_policy k) g.

(** ** Builds, entries and bindings *)

Notation params := (gmap string any).

Record translationCacheBuildResult := mkBuildResult {
  br_parameters : params;
  br_parameterSources : gmap string string
}.

Record translationCacheEntry := mkEntry {
  e_sql : string;
  e_parameterSources : gmap string string
}.

(** What a build callback does: return, fail, or panic. *)
Inductive build_outcome :=
| BuildOk (sql : string) (result : translationCacheBuildResult)
| BuildErr
| BuildPanic.

Fixpoint sources_loop (result : translationCacheBuildResult) (parameters : params) (generated : list string)
    (sources : gmap string string) : option (gmap string string) :=
  match generated with
  | [] => Some sources
  | g :: generated' =>
      match br_parameterSources result !! g with
      | None => None
      | Some source =>
          if decide (source = "") then None
          else match parameters !! source with
               | None => None
               | Some _ => sources_loop result parameters generated' (<[g := source]> sources)
               end
      end
  end.

Definition cacheableTranslation (b : build_outcome) (parameters : params) : option translationCacheEntry :=
  match b with
  | BuildOk sql result =>
      if decide (size (br_parameters result) = size (br_parameterSources result)) then
        mkEntry sql <$> sources_loop result parameters (map_to_list (br_parameters result)).*1 ∅
      else None
  | _ => None
  end.

Section cache.

(** [pgsql.NegotiateValue], which is [DataTypes.NegotiateValue]; [None] is its
    error.  Nothing below depends on what it does. *)
Variable negotiate : any -> option any.

(** [inr] is the error; a nil map of bindings is the empty map. *)
Fixpoint bind_loop (sources : list (string * string)) (parameters : params) (bindings : params) : option params :=
  match sources with
  | [] => Some bindings
  | (generated, source) :: rest =>
      match parameters !! source with
      | None => None
      | Some value =>
          match negotiate value with
          | None => None
          | Some negotiated => bind_loop rest parameters (<[generated := negotiated]> bindings)
          end
      end
  end.

Definition bindCachedParameters (sources : gmap string string) (parameters : params) : option params :=
  if decide (size sources = 0) then Some ∅ else bind_loop (map_to_list sources) parameters ∅.

(** ** Shared state *)

Context {C : Type} `{HC : !@Cache translationCacheKey translationCacheEntry C}.
(** [cache.NewSieve(capacity)]. *)
Variable new_entries : Z -> C.

Record counters := mkCounters {
  hits : Z; misses : Z; coalesced : Z; bypasses : Z; insertions : Z; evictions : Z;
  bindingFailures : Z; buildFailures : Z; unoptimized : Z
}.

Definition add_hit c := mkCounters (wrap_int64 (hits c + 1)) (misses c) (coalesced c) (bypasses c) (insertions c) (evictions c) (bindingFailures c) (buildFailures c) (unoptimized c).
Definition add_miss c := mkCounters (hits c) (wrap_int64 (misses c + 1)) (coalesced c) (bypasses c) (insertions c) (evictions c) (bindingFailures c) (buildFailures c) (unoptimized c).
Definition add_coalesced c := mkCounters (hits c) (misses c) (wrap_int64 (coalesced c + 1)) (bypasses c) (insertions c) (evictions c) (bindingFailures c) (buildFailures c) (unoptimized c).
Definition add_bypass c := mkCounters (hits c) (misses c) (coalesced c) (wrap_int64 (bypasses c + 1)) (insertions c) (evictions c) (bindingFailures c) (buildFailures c) (unoptimized c).
Definition add_insertion c := mkCounters (hits c) (misses c) (coalesced c) (bypasses c) (wrap_int64 (insertions c + 1)) (evictions c) (bindingFailures c) (buildFailures c) (unoptimized c).
Definition add_eviction c := mkCounters (hits c) (misses c) (coalesced c) (bypasses c) (insertions c) (wrap_int64 (evictions c + 1)) (bindingFailures c) (buildFailures c) (unoptimized c).
Definition add_bindingFailure c := mkCounters (hits c) (misses c) (coalesced c) (bypasses c) (insertions c) (evictions c) (wrap_int64 (bindingFailures c + 1)) (buildFailures c) (unoptimized c).
Definition add_buildFailure c := mkCounters (hits c) (misses c) (coalesced c) (bypasses c) (insertions c) (evictions c) (bindingFailures c) (wrap_int64 (buildFailures c + 1)) (unoptimized c).
Definition add_unoptimized c := mkCounters (hits c) (misses c) (coalesced c) (bypasses c) (insertions c) (evictions c) (bindingFailures c) (buildFailures c) (wrap_int64 (unoptimized c + 1)).

(** [calls] holds every [translationCacheCall] by address: [None] while its
    [done] channel is open, then [Some reusable]. *)
Record translationCache := mkCache {
  tc_capacity : Z;
  tc_policy : string;
  tc_entries : option C;
  tc_pending : gmap translationCacheKey nat;
  tc_calls : list (option bool);
  tc_closed : bool;
  tc_generation : Z;
  tc_counters : counters
}.

Definition newTranslationCacheWithPolicy (capacity : Z) (policy : string) : translationCache :=
  let capacity := if decide (capacity < 0)%Z then 0%Z else capacity in
  let policy := if decide (policy = "") then "compiler-v4:optimized" else policy in
  mkCache capacity policy (if decide (0 < capacity)%Z then Some (new_entries capacity) else None)
    ∅ [] false 0 (mkCounters 0 0 0 0 0 0 0 0 0).

Definition set_entries (s : translationCache) (e : option C) : translationCache :=
  mkCache (tc_capacity s) (tc_policy s) e (tc_pending s) (tc_calls s) (tc_closed s) (tc_generation s) (tc_counters s).
Definition set_pending (s : translationCache) (p : gmap translationCacheKey nat) (calls : list (option bool)) : translationCache :=
  mkCache (tc_capacity s) (tc_policy s) (tc_entries s) p calls (tc_closed s) (tc_generation s) (tc_counters s).
Definition count (f : counters -> counters) (s : translationCache) : translationCache :=
  mkCache (tc_capacity s) (tc_policy s) (tc_entries s) (tc_pending s) (tc_calls s) (tc_closed s) (tc_generation s) (f (tc_counters s)).

(** [finish]: [doneOnce] keeps the first verdict. *)
Definition finish_call (calls : list (option bool)) (id : nat) (reusable : bool) : list (option bool) :=
  alter (fun st => match st with None => Some reusable | Some r => Some r end) id calls.

Definition translationCache_Invalidate (s : translationCache) : translationCache :=
  let g := wrap64 (tc_generation s + 1) in
  let e := if negb (tc_closed s) && bool_decide (0 < tc_capacity s)%Z
           then Some (new_entries (tc_capacity s)) else tc_entries s in
  mkCache (tc_capacity s) (tc_policy s) e (tc_pending s) (tc_calls s) (tc_closed s) g (tc_counters s).

Definition translationCache_Close (s : translationCache) : translationCache :=
  mkCache (tc_capacity s) (tc_policy s) None ∅
    (foldl (fun calls id => finish_call calls id false) (tc_calls s) (map_to_list (tc_pending s)).*2)
    true (tc_generation s) (tc_counters s).

(** ** Callers *)

Inductive answer :=
| Hit (sql : string) (bindings : params)
| Built (sql : string) (parameters : params)
| BindingError | BuildError | ContextError | Panicked.

(** Where a caller stands: at the top of the loop, waiting for a call, building
    for a call, building without the cache, or returned. *)
Inductive pc :=
| Start (key : translationCacheKey)
| Wait (key : translationCacheKey) (id : nat)
| Build (key : translationCacheKey) (id : nat)
| Uncached
| Returned (a : answer).

Record caller := mkCaller { c_params : params; c_pc : pc }.

(** The checks before the loop. *)
Definition GetOrBuildContext_begin (s : translationCache) (key : translationCacheKey) : translationCache * pc :=
  if decide (maxCachedCypherBytes < k_querySize key \/ tc_capacity s = 0)%Z
  then (count add_bypass s, Uncached) else (s, Start key).

(** The first critical section of a turn of the loop. *)
Definition enter (s : translationCache) (parameters : params) (key : translationCacheKey) : translationCache * pc :=
  if tc_closed s then (count add_bypass s, Uncached)
  else
    let '(found, s1) :=
      match tc_entries s with
      | None => (None, s)
      | Some c =>
          let '((entry, found), c') := cache_Get c key in
          (if found : bool then Some entry else None, set_entries s (Some c'))
      end in
    match found with
    | Some entry =>
        match bindCachedParameters (e_parameterSources entry) parameters with
        | None => (count add_bindingFailure s1, Returned BindingError)
        | Some bindings => (count add_hit s1, Returned (Hit (e_sql entry) bindings))
        end
    | None =>
        match tc_pending s1 !! key with
        | Some id => (s1, Wait key id)
        | None =>
            let id := length (tc_calls s1) in
            (count add_miss (set_pending s1 (<[key := id]> (tc_pending s1)) (tc_calls s1 ++ [None])), Build key id)
        end
    end.

(** A receive from [pending.done] that succeeded. *)
Definition wake (s : translationCache) (key : translationCacheKey) (reusable : bool) : translationCache * pc :=
  if reusable then (count add_coalesced s, Start key)
  else (count add_bypass (count add_coalesced s), Uncached).

(** The second critical section, once the build has returned: the entry is
    stored when the build can be reused ([panicked == nil] is part of
    [cacheableTranslation] here), ... *)
Definition complete_store (s : translationCache) (key : translationCacheKey) (entry : option translationCacheEntry)
    : outcome (translationCache * bool) :=
  match entry, bool_decide (k_schemaGeneration key = tc_generation s), tc_closed s with
  | Some e, true, false =>
      match tc_entries s with
      | None => Panic
      | Some c =>
          let s0 := if decide (tc_capacity s <= stats_size (cache_Stats c))%Z then count add_eviction s else s in
          c' ← cache_Put c key e;
          Done (count add_insertion (set_entries s0 (Some c')), true)
      end
  | _, _, _ => Done (s, false)
  end.

(** ... the call is taken off the pending map and finished, ... *)
Definition resolve (s : translationCache) (key : translationCacheKey) (id : nat) (reusable : bool) : translationCache :=
  set_pending s (if decide (tc_pending s !! key = Some id) then delete key (tc_pending s) else tc_pending s)
    (finish_call (tc_calls s) id reusable).

(** ... and the caller returns, or goes round again when the schema changed
    under the build.  [s] is the state at the second lock, [s2] at its unlock. *)
Definition complete_return (s : translationCache) (key : translationCacheKey) (b : build_outcome)
    (entry : option translationCacheEntry) (s2 : translationCache) : translationCache * pc :=
  match b with
  | BuildPanic => (s2, Returned Panicked)
  | BuildErr => (count add_buildFailure s2, Returned BuildError)
  | BuildOk sql result =>
      if negb (bool_decide (k_schemaGeneration key = tc_generation s)) && negb (tc_closed s)
      then (s2, Start (with_generation key (tc_generation s)))
      else if tc_closed s || negb (bool_decide (is_Some entry)) then
        (count add_bypass s2, Returned (Built sql (br_parameters result)))
      else (s2, Returned (Built sql (br_parameters result)))
  end.

Definition complete (s : translationCache) (parameters : params) (key : translationCacheKey) (id : nat)
    (b : build_outcome) : outcome (translationCache * pc) :=
  let entry := cacheableTranslation b parameters in
  '(s1, reusable) ← complete_store s key entry;
  Done (complete_return s key b entry (resolve s1 key id reusable)).

Definition buildUncached (s : translationCache) (b : build_outcome) : translationCache * pc :=
  match b with
  | BuildPanic => (s, Returned Panicked)
  | BuildErr => (count add_buildFailure s, Returned BuildError)
  | BuildOk sql result => (s, Returned (Built sql (br_parameters result)))
  end.

Definition BuildUnoptimized (s : translationCache) (b : build_outcome) : translationCache * pc :=
  buildUncached (count add_bypass (count add_unoptimized s)) b.

(** ** The system *)

Record system := mkSystem { shared : translationCache; callers : list caller }.

Definition move (w : system) (i : nat) (c : caller) (r : translationCache * pc) : system :=
  mkSystem r.1 (<[i := mkCaller (c_params c) r.2]> (callers w)).

(** A step is labelled with the build whose translation it stores, if any:
    the key, the parameters and what the build returned. *)
Definition label : Type := option (translationCacheKey * params * build_outcome).

Definition stores (s : translationCache) (parameters : params) (key : translationCacheKey) (b : build_outcome) : label :=
  match cacheableTranslation b parameters, bool_decide (k_schemaGeneration key = tc_generation s), tc_closed s with
  | Some _, true, false => Some (key, parameters, b)
  | _, _, _ => None
  end.

(** A caller goes on by itself. *)
Inductive caller_step (w : system) : label -> system -> Prop :=
| step_enter i c key : callers w !! i = Some c -> c_pc c = Start key ->
    caller_step w None (move w i c (enter (shared w) (c_params c) key))
| step_wake i c key id reusable : callers w !! i = Some c -> c_pc c = Wait key id ->
    tc_calls (shared w) !! id = Some (Some reusable) ->
    caller_step w None (move w i c (wake (shared w) key reusable))
| step_complete i c key id b r : callers w !! i = Some c -> c_pc c = Build key id ->
    complete (shared w) (c_params c) key id b = Done r ->
    caller_step w (stores (shared w) (c_params c) key b) (move w i c r)
| step_uncached i c b : callers w !! i = Some c -> c_pc c = Uncached ->
    caller_step w None (move w i c (buildUncached (shared w) b)).

(** The context of a caller is cancelled. *)
Inductive cancel_step (w : system) : system -> Prop :=
| step_cancel_start i c key : callers w !! i = Some c -> c_pc c = Start key ->
    cancel_step w (move w i c (shared w, Returned ContextError))
| step_cancel_wait i c key id : callers w !! i = Some c -> c_pc c = Wait key id ->
    cancel_step w (move w i c (shared w, Returned ContextError)).

Inductive step (w : system) : label -> system -> Prop :=
| step_call key parameters :
    step w None (mkSystem (GetOrBuildContext_begin (shared w) key).1
              (callers w ++ [mkCaller parameters (GetOrBuildContext_begin (shared w) key).2]))
| step_unoptimized b :
    step w None (mkSystem (BuildUnoptimized (shared w) b).1 (callers w))
| step_caller l w' : caller_step w l w' -> step w l w'
| step_cancel w' : cancel_step w w' -> step w None w'
| step_invalidate : step w None (mkSystem (translationCache_Invalidate (shared w)) (callers w))
| step_close : step w None (mkSystem (translationCache_Close (shared w)) (callers w)).

(** A run from a new cache without callers, with the builds it stored. *)
Inductive run (capacity : Z) (policy : string) : system -> list (translationCacheKey * params * build_outcome) -> Prop :=
| run_init : run capacity policy (mkSystem (newTranslationCacheWithPolicy capacity policy) []) []
| run_step w log l w' : run capacity policy w log -> step w l w' ->
    run capacity policy w' (match l with Some x => x :: log | None => log end).

(** ** A scheduler

    The same steps chosen by a script, for running the model. *)

Inductive action :=
| ACall (key : translationCacheKey) (parameters : params)
| AEnter (i : nat)
| AWake (i : nat)
| AComplete (i : nat) (b : build_outcome)
| AInvalidate
| AClose.

Definition exec (w : system) (a : action) : option (label * system) :=
  match a with
  | ACall key parameters =>
      Some (None, mkSystem (GetOrBuildContext_begin (shared w) key).1
              (callers w ++ [mkCaller parameters (GetOrBuildContext_begin (shared w) key).2]))
  | AEnter i =>
      c ← callers w !! i;
      match c_pc c with
      | Start key => Some (None, move w i c (enter (shared w) (c_params c) key))
      | _ => None
      end
  | AWake i =>
      c ← callers w !! i;
      match c_pc c with
      | Wait key id =>
          match tc_calls (shared w) !! id with
          | Some (Some reusable) => Some (None, move w i c (wake (shared w) key reusable))
          | _ => None
          end
      | _ => None
      end
  | AComplete i b =>
      c ← callers w !! i;
      match c_pc c with
      | Build key id =>
          match complete (shared w) (c_params c) key id b with
          | Done r => Some (stores (shared w) (c_params c) key b, move w i c r)
          | _ => None
          end
      | Uncached => Some (None, move w i c (buildUncached (shared w) b))
      | _ => None
      end
  | AInvalidate => Some (None, mkSystem (translationCache_Invalidate (shared w)) (callers w))
  | AClose => Some (None, mkSystem (translationCache_Close (shared w)) (callers w))
  end.

Fixpoint exec_all (w : system) (log : list (translationCacheKey * params * build_outcome)) (script : list action)
    : option (system * list (translationCacheKey * params * build_outcome)) :=
  match script with
  | [] => Some (w, log)
  | a :: script' =>
      '(l, w') ← exec w a;
      exec_all w' (match l with Some x => x :: log | None => log end) script'
  end.

Lemma exec_step w a l w' : exec w a = Some (l, w') -> step w l w'.
Proof using Type.
  destruct a as [key ps|i|i|i b| |]; cbn [exec].
  - intros [= <- <-]. apply step_call.
  - intros (c & Hi & Hc)%bind_Some. destruct (c_pc c) eqn:Hpc; try done. injection Hc as <- <-.
    by apply step_caller, step_enter.
  - intros (c & Hi & Hc)%bind_Some. destruct (c_pc c) as [|key id| | |] eqn:Hpc; try done.
    destruct (tc_calls (shared w) !! id) as [[r|]|] eqn:Hr; try done. injection Hc as <- <-.
    by eapply step_caller, step_wake.
  - intros (c & Hi & Hc)%bind_Some. destruct (c_pc c) as [| |key id| |] eqn:Hpc; try done.
    + destruct (complete _ _ key id b) as [r| |] eqn:Hr; try done. injection Hc as <- <-.
      by eapply step_caller, step_complete.
    + injection Hc as <- <-. by eapply step_caller, step_uncached.
  - intros [= <- <-]. apply step_invalidate.
  - intros [= <- <-]. apply step_close.
Qed.

Lemma exec_all_run capacity policy w log script w' log' :
  run capacity policy w log -> exec_all w log script = Some (w', log') -> run capacity policy w' log'.
Proof using Type.
  revert w log. induction script as [|a script IH]; intros w log Hrun; cbn [exec_all].
  - by intros [= <- <-].
  - intros ([l w1] & Ha & Hall)%bind_Some. eapply IH; [|done]. eapply run_step; [done|by eapply exec_step].
Qed.

(** ** Invariant *)

Context (zero : translationCacheEntry).
Context `{HL : !LawfulCache zero evicts_one}.

(** A new cache is empty and has the capacity asked for. *)
Context (Hnew : forall capacity, (0 < capacity < 2 ^ 63)%Z ->
  cache_inv zero (new_entries capacity) /\ cache_contents zero (new_entries capacity) = ∅ /\
  stats_Capacity (cache_Stats (new_entries capacity)) = capacity).

(** The keys and entries the cache holds, and where they come from. *)
Record entries_ok (s : translationCache) (log : list (translationCacheKey * params * build_outcome)) (c : C) : Prop := {
  en_inv : cache_inv zero c;
  en_cap : stats_Capacity (cache_Stats c) = tc_capacity s;
  en_gen : forall k e, cache_contents zero c !! k = Some e -> k_schemaGeneration k = tc_generation s;
  en_log : forall k e, cache_contents zero c !! k = Some e ->
    exists ps b, (k, ps, b) ∈ log /\ cacheableTranslation b ps = Some e;
  en_pending : forall k id, tc_pending s !! k = Some id -> cache_contents zero c !! k = None
}.

(** The call a caller waits for or builds for is over, or is the one pending
    for its key. *)
Definition tied (s : translationCache) (k : translationCacheKey) (id : nat) : Prop :=
  id < length (tc_calls s) /\ (tc_calls s !! id = Some None -> tc_pending s !! k = Some id).

Definition builds (cs : list caller) (i : nat) (k : translationCacheKey) (id : nat) : Prop :=
  exists c, cs !! i = Some c /\ c_pc c = Build k id.

Record inv (w : system) (log : list (translationCacheKey * params * build_outcome)) : Prop := {
  i_cap : (0 <= tc_capacity (shared w) < 2 ^ 63)%Z;
  i_entries : forall c, tc_entries (shared w) = Some c -> entries_ok (shared w) log c;
  i_open : tc_closed (shared w) = false -> (0 < tc_capacity (shared w))%Z -> is_Some (tc_entries (shared w));
  i_closed : tc_closed (shared w) = true -> tc_entries (shared w) = None /\ tc_pending (shared w) = ∅;
  i_pending : forall k id, tc_pending (shared w) !! k = Some id ->
    tc_calls (shared w) !! id = Some None /\ exists i, builds (callers w) i k id;
  i_none : tc_capacity (shared w) = 0%Z -> tc_entries (shared w) = None;
  i_build : forall i k id, builds (callers w) i k id ->
    tied (shared w) k id /\ (tc_closed (shared w) = false -> tc_calls (shared w) !! id = Some None);
  i_uniq : forall i j k k' id, builds (callers w) i k id -> builds (callers w) j k' id -> i = j /\ k = k';
  i_wait : forall i c k id, callers w !! i = Some c -> c_pc c = Wait k id -> tied (shared w) k id;
  i_loop : forall i c, callers w !! i = Some c ->
    match c_pc c with Start _ | Wait _ _ | Build _ _ => (0 < tc_capacity (shared w))%Z | _ => True end
}.

(** *** The entries *)

Lemma get_entries s log c key entry found c' :
  entries_ok s log c -> cache_Get c key = ((entry, found), c') ->
  entries_ok s log c' /\ cache_contents zero c' = cache_contents zero c /\
  (if found then cache_contents zero c !! key = Some entry else cache_contents zero c !! key = None).
Proof using Type.
  intros Hok E. destruct (cache_law zero c (CacheGet key) (en_inv _ _ _ Hok)) as (r & c1 & Hdo & Hinv & Hcap & Hstep).
  unfold cache_do in Hdo. rewrite E in Hdo. injection Hdo as <- <-.
  assert (Hc : cache_contents zero c' = cache_contents zero c /\
    (if found then cache_contents zero c !! key = Some entry else cache_contents zero c !! key = None)).
  { inversion Hstep; subst; auto. }
  destruct Hc as [Hc Hf]. split_and!; [|done..]. destruct Hok. split; rewrite ?Hc; try done. congruence.
Qed.

Lemma put_entries s log c key e :
  entries_ok s log c -> exists c', cache_Put c key e = Done c' /\ cache_inv zero c' /\
    stats_Capacity (cache_Stats c') = tc_capacity s /\
    forall k x, cache_contents zero c' !! k = Some x -> (k = key /\ x = e) \/ cache_contents zero c !! k = Some x.
Proof using Type.
  intros Hok. destruct (cache_law zero c (CachePut key e) (en_inv _ _ _ Hok)) as (r & c' & Hdo & Hinv & Hcap & Hstep).
  unfold cache_do in Hdo. destruct (cache_Put c key e) as [c1| |]; try done. injection Hdo as <- <-.
  exists c1. split_and!; [done..|destruct Hok; congruence|].
  intros k x Hk. destruct (evicts_one_entries _ _ _ _ _ _ _ _ _ Hstep Hk); auto.
Qed.

(** *** Callers that move *)

(** The caller [i] leaves [c] for a position that is not a build. *)
Lemma builds_move (cs : list caller) i c ps q j k id :
  cs !! i = Some c -> (forall k id, q <> Build k id) ->
  builds (<[i := mkCaller ps q]> cs) j k id <-> j <> i /\ builds cs j k id.
Proof using Type.
  intros Hi Hq. unfold builds. destruct (decide (i = j)) as [<-|Hne].
  - rewrite list_lookup_insert_eq by by eapply lookup_lt_Some.
    split; [intros (? & [= <-] & Hb); simpl in Hb; by destruct (Hq k id)|tauto].
  - rewrite list_lookup_insert_ne by done. intuition.
Qed.

Lemma builds_other (cs : list caller) i c j k id :
  cs !! i = Some c -> (forall k id, c_pc c <> Build k id) -> builds cs j k id -> j <> i.
Proof using Type. intros Hi Hc (c' & Hj & Hb) ->. simplify_eq. by destruct (Hc k id). Qed.

Lemma lookup_move (cs : list caller) i ps q j c : cs !! i = Some c ->
  forall x, <[i := mkCaller ps q]> cs !! j = Some x -> (j = i /\ x = mkCaller ps q) \/ (j <> i /\ cs !! j = Some x).
Proof using Type.
  intros Hi x Hx. destruct (decide (i = j)) as [<-|Hne].
  - rewrite list_lookup_insert_eq in Hx by by eapply lookup_lt_Some. left. by simplify_eq.
  - rewrite list_lookup_insert_ne in Hx by done. auto.
Qed.

(** Where a caller that does not build may stand. *)
Definition pc_ok (s : translationCache) (q : pc) : Prop :=
  match q with
  | Start _ => (0 < tc_capacity s)%Z
  | Wait k id => (0 < tc_capacity s)%Z /\ tied s k id
  | Build _ _ => False
  | _ => True
  end.

Lemma inv_move w log i c ps q :
  inv w log -> callers w !! i = Some c -> (forall k id, c_pc c <> Build k id) -> pc_ok (shared w) q ->
  inv (mkSystem (shared w) (<[i := mkCaller ps q]> (callers w))) log.
Proof using Type.
  intros [H1 H2 H3 H4 H5 H0 H6 H7 H8 H9] Hi Hc Hq.
  assert (Hnb : forall k id, q <> Build k id) by (intros k id ->; done).
  split; simpl; try done.
  - intros k id Hk. destruct (H5 k id Hk) as (Hcall & j & Hj). split; [done|]. exists j.
    apply (builds_move _ _ c); [done..|]. split; [by eapply builds_other|done].
  - intros j k id Hj. apply (builds_move _ _ c) in Hj as [_ Hj]; [|done..]. by eapply H6.
  - intros j j' k k' id Hj Hj'. apply (builds_move _ _ c) in Hj as [_ Hj]; [|done..].
    apply (builds_move _ _ c) in Hj' as [_ Hj']; [|done..]. by eapply H7.
  - intros j x k id Hx Hw. destruct (lookup_move _ _ _ _ _ _ Hi x Hx) as [[-> ->]|[_ Hx']]; [|by eapply H8].
    simpl in Hw. subst q. apply Hq.
  - intros j x Hx. destruct (lookup_move _ _ _ _ _ _ Hi x Hx) as [[-> ->]|[_ Hx']]; [|by eapply H9].
    simpl. destruct q; try done. apply Hq.
Qed.

(** Counters are no part of the invariant. *)
Lemma inv_count f s cs log : inv (mkSystem s cs) log -> inv (mkSystem (count f s) cs) log.
Proof using Type.
  intros [H1 H2 H3 H4 H5 H0 H6 H7 H8 H9]. split; simpl in *; try done.
  intros c Hc. destruct (H2 c Hc). by split.
Qed.

(** Replacing the cache by one with the same entries. *)
Lemma inv_entries s cs log c c' :
  inv (mkSystem s cs) log -> tc_entries s = Some c -> entries_ok s log c' ->
  inv (mkSystem (set_entries s (Some c')) cs) log.
Proof using Type.
  intros [H1 H2 H3 H4 H5 H0 H6 H7 H8 H9] Hc Hok'. split; simpl in *; try done.
  - intros x [= <-]. destruct Hok'. by split.
  - intros Hclosed. destruct (H4 Hclosed). congruence.
  - intros Hcap. rewrite (H0 Hcap) in Hc. done.
Qed.

(** *** Registering a build *)

Lemma tied_register s key k id :
  tc_pending s !! key = None -> tied s k id ->
  tied (set_pending s (<[key := length (tc_calls s)]> (tc_pending s)) (tc_calls s ++ [None])) k id.
Proof using Type.
  intros Hp [Hlt Hun]. split; simpl; [rewrite length_app; lia|].
  rewrite lookup_app_l by done. intros Hcall. specialize (Hun Hcall).
  rewrite lookup_insert_ne by congruence. done.
Qed.

Lemma inv_register s cs log i c key ps :
  inv (mkSystem s cs) log -> cs !! i = Some c -> c_pc c = Start key ->
  tc_closed s = false -> tc_pending s !! key = None ->
  (forall e, tc_entries s = Some e -> cache_contents zero e !! key = None) ->
  inv (mkSystem (set_pending s (<[key := length (tc_calls s)]> (tc_pending s)) (tc_calls s ++ [None]))
         (<[i := mkCaller ps (Build key (length (tc_calls s)))]> cs)) log.
Proof using Type.
  intros [H1 H2 H3 H4 H5 H0 H6 H7 H8 H9] Hi Hpc Hcl Hp Hmiss. simpl in *.
  assert (Hcap : (0 < tc_capacity s)%Z) by (specialize (H9 i c Hi); by rewrite Hpc in H9).
  assert (Hb : forall j k id, builds (<[i := mkCaller ps (Build key (length (tc_calls s)))]> cs) j k id ->
    (j = i /\ k = key /\ id = length (tc_calls s)) \/ (j <> i /\ builds cs j k id)).
  { intros j k id (x & Hx & Hxb). destruct (lookup_move _ _ _ _ _ _ Hi x Hx) as [[-> ->]|[Hne Hx']].
    - simpl in Hxb. simplify_eq. auto.
    - right. split; [done|]. by exists x. }
  split; simpl; try done.
  - intros e He. destruct (H2 e He). split; simpl; try done.
    intros k id [[<- <-]|[_ Hk]]%lookup_insert_Some; eauto.
  - rewrite Hcl. done.
  - intros k id [[<- <-]|[Hne Hk]]%lookup_insert_Some.
    + split; [by rewrite lookup_app_r, Nat.sub_diag by lia|]. exists i. eexists.
      rewrite list_lookup_insert_eq by by eapply lookup_lt_Some. done.
    + destruct (H5 k id Hk) as (Hcall & j & x & Hj & Hxb). split; [by apply lookup_app_l_Some|].
      exists j, x. split; [|done]. rewrite list_lookup_insert_ne; [done|]. intros ->. congruence.
  - intros j k id [(-> & -> & ->)|[Hne Hj]]%Hb.
    + split; [split; simpl; [rewrite length_app; simpl; lia|by rewrite lookup_insert_eq]|].
      intros _. by rewrite lookup_app_r, Nat.sub_diag by lia.
    + destruct (H6 j k id Hj) as [Ht Hl]. split; [by apply tied_register|].
      intros Hc. by apply lookup_app_l_Some, Hl.
  - intros j j' k k' id [(-> & -> & ->)|[Hne Hj]]%Hb [(-> & -> & E)|[Hne' Hj']]%Hb; [done|..].
    + destruct (H6 j' k' _ Hj') as [[Hlt _] _]. lia.
    + destruct (H6 j k _ Hj) as [[Hlt _] _]. lia.
    + by eapply H7.
  - intros j x k id Hx Hw. destruct (lookup_move _ _ _ _ _ _ Hi x Hx) as [[-> ->]|[_ Hx']]; [done|].
    apply tied_register; [done|]. by eapply H8.
  - intros j x Hx. destruct (lookup_move _ _ _ _ _ _ Hi x Hx) as [[-> ->]|[_ Hx']]; [done|by eapply H9].
Qed.

(** *** Resolving a call *)

Lemma finish_call_other calls id r j : j <> id -> finish_call calls id r !! j = calls !! j.
Proof using Type. intros Hne. unfold finish_call. by rewrite list_lookup_alter_ne. Qed.

Lemma finish_call_self calls id r : finish_call calls id r !! id <> Some None.
Proof using Type.
  unfold finish_call. rewrite list_lookup_alter_eq. by destruct (calls !! id) as [[]|].
Qed.

Lemma resolve_pending s key id r k j :
  tc_pending (resolve s key id r) !! k = Some j ->
  tc_pending s !! k = Some j /\ (k = key -> j <> id).
Proof using Type.
  simpl. case_decide as Hd.
  - intros [Hne Hk]%lookup_delete_Some. split; [done|]. intros ->. done.
  - intros Hk. split; [done|]. intros -> ->. done.
Qed.

Lemma resolve_pending' s key id r k j :
  tc_pending s !! k = Some j -> j <> id -> tc_pending (resolve s key id r) !! k = Some j.
Proof using Type.
  intros Hk Hne. simpl. case_decide as Hd; [|done]. rewrite lookup_delete_ne; [done|]. congruence.
Qed.

Lemma tied_resolve s key id r k j : tied s k j -> tied (resolve s key id r) k j.
Proof using Type.
  intros [Hlt Hun]. split; [simpl; unfold finish_call; by rewrite length_alter|].
  intros Hc. destruct (decide (j = id)) as [->|Hne]; [by destruct (finish_call_self (tc_calls s) id r)|].
  apply resolve_pending'; [|done]. apply Hun. simpl in Hc. by rewrite finish_call_other in Hc.
Qed.

Lemma inv_resolve s cs log i c key id r ps q :
  inv (mkSystem s cs) log -> cs !! i = Some c -> c_pc c = Build key id -> pc_ok s q ->
  inv (mkSystem (resolve s key id r) (<[i := mkCaller ps q]> cs)) log.
Proof using Type.
  intros [H1 H2 H3 H4 H5 H0 H6 H7 H8 H9] Hi Hpc Hq. cbn [shared callers] in *.
  assert (Hbi : builds cs i key id) by (by exists c).
  assert (Hnb : forall k id, q <> Build k id) by (intros k j ->; done).
  split; cbn [shared callers]; try done.
  - intros e He. destruct (H2 e He) as [E1 E2 E3 E4 E5]. split; try done.
    intros k j Hk%resolve_pending. destruct Hk. by eapply E5.
  - intros Hcl. destruct (H4 Hcl) as [He Hp]. split; [done|]. simpl. rewrite Hp.
    case_decide; [apply delete_empty|done].
  - intros k j Hk. apply resolve_pending in Hk as [Hk Hkey]. destruct (H5 k j Hk) as (Hcall & x & Hx).
    assert (Hne : j <> id). { intros ->. destruct (H7 _ _ _ _ _ Hx Hbi) as [-> ->]. by apply Hkey. }
    split; [simpl; by rewrite finish_call_other|]. exists x. apply (builds_move _ _ c); [done..|].
    split; [|done]. intros ->. destruct Hx as (c' & Hx & Hxb). simplify_eq. congruence.
  - intros j k x Hj. apply (builds_move _ _ c) in Hj as [Hne Hj]; [|done..].
    destruct (H6 j k x Hj) as [Ht Hl]. split; [by apply tied_resolve|]. intros Hcl. simpl.
    rewrite finish_call_other; [by apply Hl|]. intros ->. by destruct (H7 _ _ _ _ _ Hj Hbi).
  - intros j j' k k' x Hj Hj'. apply (builds_move _ _ c) in Hj as [_ Hj]; [|done..].
    apply (builds_move _ _ c) in Hj' as [_ Hj']; [|done..]. by eapply H7.
  - intros j x k y Hx Hw. destruct (lookup_move _ _ _ _ _ _ Hi x Hx) as [[-> ->]|[_ Hx']].
    + simpl in Hw. subst q. apply tied_resolve, Hq.
    + apply tied_resolve. by eapply H8.
  - intros j x Hx. destruct (lookup_move _ _ _ _ _ _ Hi x Hx) as [[-> ->]|[_ Hx']]; [|by eapply H9].
    simpl. destruct q; try done. apply Hq.
Qed.

(** *** The steps keep the invariant *)

Lemma inv_log w log x : inv w log -> inv w (x :: log).
Proof using Type.
  intros [H1 H2 H3 H4 H5 H0 H6 H7 H8 H9]. split; try done.
  intros c Hc. destruct (H2 c Hc) as [E1 E2 E3 E4 E5]. split; try done.
  intros k e (ps & b & Hin & Hb)%E4. exists ps, b. split; [by right|done].
Qed.

Lemma inv_call w log ps q : inv w log -> pc_ok (shared w) q ->
  inv (mkSystem (shared w) (callers w ++ [mkCaller ps q])) log.
Proof using Type.
  intros [H1 H2 H3 H4 H5 H0 H6 H7 H8 H9] Hq.
  assert (Hnew' : forall j x, (callers w ++ [mkCaller ps q]) !! j = Some x ->
    callers w !! j = Some x \/ x = mkCaller ps q).
  { intros j x [Hx|[_ Hx]]%lookup_app_Some; [by left|]. right. by apply list_lookup_singleton_Some in Hx as [_ <-]. }
  assert (Hb : forall j k id, builds (callers w ++ [mkCaller ps q]) j k id -> builds (callers w) j k id).
  { intros j k id (x & Hx & Hxb). destruct (Hnew' j x Hx) as [Hx'| ->]; [by exists x|].
    simpl in Hxb. by subst q. }
  split; cbn [shared callers]; try done.
  - intros k id Hk. destruct (H5 k id Hk) as (Hc & j & x & Hx & Hxb). split; [done|].
    exists j, x. split; [by apply lookup_app_l_Some|done].
  - intros j k id Hj%Hb. by apply (H6 j).
  - intros j j' k k' id Hj%Hb Hj'%Hb. by eapply H7.
  - intros j x k id Hx Hw. destruct (Hnew' j x Hx) as [Hx'| ->]; [by eapply H8|].
    simpl in Hw. subst q. apply Hq.
  - intros j x Hx. destruct (Hnew' j x Hx) as [Hx'| ->]; [by eapply H9|]. simpl. destruct q; try done. apply Hq.
Qed.

Lemma inv_missed s cs log i c key ps :
  inv (mkSystem s cs) log -> cs !! i = Some c -> c_pc c = Start key -> tc_closed s = false ->
  (forall e, tc_entries s = Some e -> cache_contents zero e !! key = None) ->
  let r := match tc_pending s !! key with
           | Some id => (s, Wait key id)
           | None => (count add_miss (set_pending s (<[key := length (tc_calls s)]> (tc_pending s)) (tc_calls s ++ [None])),
                      Build key (length (tc_calls s)))
           end in
  inv (mkSystem r.1 (<[i := mkCaller ps r.2]> cs)) log.
Proof using Type.
  intros Hinv Hi Hpc Hcl Hmiss. destruct (tc_pending s !! key) as [id|] eqn:Hp; cbn [fst snd].
  - apply (inv_move (mkSystem s cs) log i c); [done..|by rewrite Hpc|].
    split; [pose proof (i_loop _ _ Hinv i c Hi) as Hl; by rewrite Hpc in Hl|].
    split; [|done]. destruct (i_pending _ _ Hinv _ _ Hp) as [Hcall _]. by eapply lookup_lt_Some.
  - by apply inv_count, (inv_register _ _ _ _ c).
Qed.

Lemma inv_enter s cs log i c key :
  inv (mkSystem s cs) log -> cs !! i = Some c -> c_pc c = Start key ->
  let r := enter s (c_params c) key in inv (mkSystem r.1 (<[i := mkCaller (c_params c) r.2]> cs)) log.
Proof using Type.
  intros Hinv Hi Hpc. unfold enter. destruct (tc_closed s) eqn:Hcl.
  { apply inv_count, (inv_move (mkSystem s cs) log i c); [done..|by rewrite Hpc|done]. }
  destruct (tc_entries s) as [e|] eqn:He.
  - destruct (cache_Get e key) as [[entry found] e'] eqn:Hget.
    destruct (get_entries s log e key entry found e' (i_entries _ _ Hinv e He) Hget) as (Hok & Hsame & Hfound).
    pose proof (inv_entries s cs log e e' Hinv He Hok) as Hinv1. destruct found.
    + destruct (bindCachedParameters _ _);
        (apply inv_count, (inv_move (mkSystem _ cs) log i c); [done..|by rewrite Hpc|done]).
    + apply (inv_missed (set_entries s (Some e')) cs log i c key); [done..|].
      intros x [= <-]. by rewrite Hsame.
  - apply (inv_missed s cs log i c key); [done..|]. by rewrite He.
Qed.


(** The entry stored by a completed build. *)
Lemma complete_store_inv s ps key b s1 reusable :
  complete_store s key (cacheableTranslation b ps) = Done (s1, reusable) ->
  (s1 = s /\ stores s ps key b = None) \/
  (exists c e c' g, tc_entries s = Some c /\ cacheableTranslation b ps = Some e /\
     k_schemaGeneration key = tc_generation s /\ tc_closed s = false /\
     cache_Put c key e = Done c' /\ s1 = count g (set_entries s (Some c')) /\
     stores s ps key b = Some (key, ps, b)).
Proof using Type.
  unfold complete_store, stores. destruct (cacheableTranslation b ps) as [e|]; [|intros [= <- <-]; by left].
  case_bool_decide as Hg; [|intros [= <- <-]; by left]. destruct (tc_closed s) eqn:Hcl; [intros [= <- <-]; by left|].
  destruct (tc_entries s) as [c|]; [|done]. intros Hr. right. exists c, e.
  destruct (cache_Put c key e) as [c'| |]; try done. injection Hr as <- <-. exists c'.
  case_decide; [exists (fun n => add_insertion (add_eviction n))|exists add_insertion]; done.
Qed.

Lemma complete_return_inv s key b entry s2 cs log i ps :
  (forall q, match q with Start _ | Returned _ => True | _ => False end -> inv (mkSystem s2 (<[i := mkCaller ps q]> cs)) log) ->
  inv (mkSystem (complete_return s key b entry s2).1 (<[i := mkCaller ps (complete_return s key b entry s2).2]> cs)) log.
Proof using Type.
  intros Hinv. unfold complete_return.
  destruct b; repeat case_match; cbn [fst snd]; try apply inv_count; by apply Hinv.
Qed.

Lemma inv_complete s cs log i c key id b r :
  inv (mkSystem s cs) log -> cs !! i = Some c -> c_pc c = Build key id ->
  complete s (c_params c) key id b = Done r ->
  inv (mkSystem r.1 (<[i := mkCaller (c_params c) r.2]> cs))
    (match stores s (c_params c) key b with Some x => x :: log | None => log end).
Proof using Type.
  intros Hinv Hi Hpc Hr. unfold complete in Hr.
  destruct (complete_store s key _) as [[s1 reusable]| |] eqn:Hst; try done. injection Hr as <-.
  assert (Hcap : (0 < tc_capacity s)%Z) by (pose proof (i_loop _ _ Hinv i c Hi) as Hl; by rewrite Hpc in Hl).
  destruct (complete_store_inv _ _ _ _ _ _ Hst) as [[-> ->]|(x & e & x' & g & Hx & He & Hg & Hcl & Hput & -> & ->)].
  - apply complete_return_inv. intros q Hq. apply (inv_resolve _ _ _ _ c); [done..|by destruct q].
  - apply complete_return_inv. intros q Hq.
    change (resolve (count g (set_entries s (Some x'))) key id reusable)
      with (count g (set_entries (resolve s key id reusable) (Some x'))).
    apply inv_count, (inv_entries _ _ _ x); [by apply inv_log, (inv_resolve _ _ _ _ c); [..|destruct q]|done|].
    pose proof (i_entries _ _ Hinv x Hx) as Hok.
    destruct (put_entries s log x key e Hok) as (y & Hy & Hyinv & Hycap & Hyin).
    rewrite Hput in Hy. injection Hy as <-. split; [done|done|..].
    + intros k z [[-> ->]|Hz]%Hyin; [done|]. by apply (en_gen _ _ _ Hok k z).
    + intros k z [[-> ->]|Hz]%Hyin; [exists (c_params c), b; split; [by left|done]|].
      destruct (en_log _ _ _ Hok k z Hz) as (ps & b' & Hin & Hb'). exists ps, b'. split; [by right|done].
    + intros k j [Hk Hkey]%resolve_pending. destruct (cache_contents zero x' !! k) as [z|] eqn:Hz; [|done].
      apply Hyin in Hz as [[-> _]|Hz]; [|by rewrite (en_pending _ _ _ Hok k j Hk) in Hz].
      destruct (i_build _ _ Hinv i key id) as [[_ Ht] Hl]; [by exists c|].
      specialize (Ht (Hl Hcl)). simpl in Ht. destruct (Hkey eq_refl). congruence.
Qed.

Lemma inv_invalidate s cs log : inv (mkSystem s cs) log -> inv (mkSystem (translationCache_Invalidate s) cs) log.
Proof using Hnew.
  intros [H1 H2 H3 H4 H5 H0 H6 H7 H8 H9]. cbn [shared callers] in *. unfold translationCache_Invalidate.
  split; cbn [shared callers tc_capacity tc_entries tc_pending tc_calls tc_closed]; try done.
  - intros c. destruct (tc_closed s) eqn:Hcl; cbn [negb andb]; [by rewrite (proj1 (H4 eq_refl))|].
    case_bool_decide as Hpos; [|by rewrite H0 by lia]. intros [= <-].
    destruct (Hnew (tc_capacity s)) as (Hi & He & Hc); [lia|].
    by split; rewrite ?He; cbn; try intros ? ?; rewrite ?lookup_empty.
  - intros Hcl Hpos. rewrite Hcl, bool_decide_eq_true_2 by done. by eexists.
  - intros Hcl. rewrite Hcl. by apply H4.
  - intros Hz. rewrite bool_decide_eq_false_2 by lia. rewrite andb_false_r. by apply H0.
Qed.

Lemma finish_all ids calls j :
  foldl (fun calls id => finish_call calls id false) calls ids !! j = Some None ->
  calls !! j = Some None /\ j ∉ ids.
Proof using Type.
  revert calls. induction ids as [|id ids IH]; intros calls; [intros ?; split; [done|by intros ?%elem_of_nil]|].
  cbn [foldl]. intros [Hj Hn]%IH. destruct (decide (j = id)) as [->|Hne]; [by destruct (finish_call_self calls id false)|].
  rewrite finish_call_other in Hj by done. split; [done|]. by rewrite not_elem_of_cons.
Qed.

Lemma finish_all_length ids calls :
  length (foldl (fun calls id => finish_call calls id false) calls ids) = length calls.
Proof using Type.
  revert calls. induction ids as [|id ids IH]; intros calls; [done|]. cbn [foldl]. rewrite IH.
  unfold finish_call. by rewrite length_alter.
Qed.

Lemma tied_close s k id : tied s k id -> tied (translationCache_Close s) k id.
Proof using Type.
  intros [Hlt Hp]. split; cbn [translationCache_Close tc_calls tc_pending]; [by rewrite finish_all_length|].
  intros [Hc Hn]%finish_all. specialize (Hp Hc). destruct Hn. apply list_elem_of_fmap.
  exists (k, id). split; [done|]. by apply elem_of_map_to_list.
Qed.

Lemma inv_close s cs log : inv (mkSystem s cs) log -> inv (mkSystem (translationCache_Close s) cs) log.
Proof using Type.
  intros [H1 H2 H3 H4 H5 H0 H6 H7 H8 H9]. split; cbn [shared callers] in *; try done.
  - intros i k id Hb. split; [|done]. by apply tied_close, (H6 i).
  - intros i c k id Hi Hw. eapply tied_close, H8; done.
Qed.

Lemma inv_init capacity policy : (capacity < 2 ^ 63)%Z ->
  inv (mkSystem (newTranslationCacheWithPolicy capacity policy) []) [].
Proof using Hnew.
  intros Hcap. unfold newTranslationCacheWithPolicy.
  set (cap := if decide (capacity < 0)%Z then 0%Z else capacity).
  assert (Hb : (0 <= cap < 2 ^ 63)%Z) by (unfold cap; case_decide; lia).
  split; cbn [shared callers tc_capacity tc_entries tc_pending tc_calls tc_closed]; try done.
  - intros c. case_decide as Hpos; [|done]. intros [= <-]. destruct (Hnew cap) as (Hi & He & Hc); [lia|].
    by split; rewrite ?He; cbn; try intros ? ?; rewrite ?lookup_empty.
  - intros _ Hpos. rewrite decide_True by done. by eexists.
  - intros Hz. by rewrite decide_False by lia.
  - intros i k id (c & Hc & _). done.
  - intros i j k k' id (c & Hc & _). done.
Qed.

Lemma inv_caller_step w log l w' : inv w log -> caller_step w l w' ->
  inv w' (match l with Some x => x :: log | None => log end).
Proof using Type.
  destruct w as [s cs]. intros Hinv Hstep.
  destruct Hstep as [i c key Hi Hpc|i c key id reusable Hi Hpc Hcall|i c key id b r Hi Hpc Hr|i c b Hi Hpc];
    unfold move; cbn [shared callers] in *.
  - by apply inv_enter.
  - assert (Hmove : forall q, pc_ok s q -> inv (mkSystem s (<[i := mkCaller (c_params c) q]> cs)) log)
      by (intros q Hq; apply (inv_move (mkSystem s cs) log i c); [done..|by rewrite Hpc|done]).
    pose proof (i_loop _ _ Hinv i c Hi) as Hl. rewrite Hpc in Hl.
    destruct reusable; cbn [wake fst snd]; repeat apply inv_count; by apply Hmove.
  - by eapply inv_complete.
  - assert (Hmove : forall a, inv (mkSystem s (<[i := mkCaller (c_params c) (Returned a)]> cs)) log)
      by (intros a; apply (inv_move (mkSystem s cs) log i c); [done..|by rewrite Hpc|done]).
    destruct b; cbn [buildUncached fst snd]; try apply inv_count; apply Hmove.
Qed.

Lemma inv_step w log l w' : inv w log -> step w l w' ->
  inv w' (match l with Some x => x :: log | None => log end).
Proof using Hnew.
  destruct w as [s cs]. intros Hinv Hstep.
  destruct Hstep as [key ps|b|l w' Hstep|w' Hstep| |]; cbn [shared callers] in *.
  - unfold GetOrBuildContext_begin. case_decide as Hd; cbn [fst snd].
    + apply inv_count. by apply (inv_call (mkSystem s cs)).
    + apply (inv_call (mkSystem s cs)); [done|]. pose proof (i_cap _ _ Hinv). cbn in *. lia.
  - unfold BuildUnoptimized. destruct b; cbn [buildUncached fst]; by repeat apply inv_count.
  - by eapply inv_caller_step.
  - destruct Hstep as [i c key Hi Hpc|i c key id Hi Hpc];
      (apply (inv_move (mkSystem s cs) log i c); [done..|by rewrite Hpc|done]).
  - by apply inv_invalidate.
  - by apply inv_close.
Qed.

Lemma run_inv capacity policy w log : (capacity < 2 ^ 63)%Z -> run capacity policy w log -> inv w log.
Proof using Hnew. intros Hcap. induction 1; [by apply inv_init|by eapply inv_step]. Qed.

(** *** Termination *)

(** The builds a caller may still run: two when its key is of an older
    generation, since such a build is done again. *)
Definition builds_left (s : translationCache) (q : pc) : nat :=
  match q with
  | Start k | Wait k _ | Build k _ => if decide (k_schemaGeneration k = tc_generation s) then 1 else 2
  | _ => 0
  end.

(** The steps until its next build, at most. *)
Definition phase (s : translationCache) (q : pc) : nat :=
  match q with
  | Wait _ id => match tc_calls s !! id with Some (Some _) => 3 | _ => 1 end
  | Start _ => 2
  | Build _ _ | Uncached => 1
  | Returned _ => 0
  end.

Definition total (f : pc -> nat) (cs : list caller) : nat := sum_list_with (fun c => f (c_pc c)) cs.

Definition measure (w : system) : nat :=
  total (builds_left (shared w)) (callers w) * (3 * length (callers w) + 1) + total (phase (shared w)) (callers w).

Lemma total_insert f cs i c ps q : cs !! i = Some c ->
  total f (<[i := mkCaller ps q]> cs) + f (c_pc c) = total f cs + f q.
Proof using Type.
  intros Hi. unfold total. rewrite <- (take_drop_middle cs i c Hi) at 2.
  rewrite insert_take_drop by by eapply lookup_lt_Some.
  rewrite !sum_list_with_app. cbn [sum_list_with c_pc]. lia.
Qed.

Lemma total_ext f g cs : (forall i c, cs !! i = Some c -> f (c_pc c) = g (c_pc c)) -> total f cs = total g cs.
Proof using Type.
  unfold total. induction cs as [|c cs IH]; intros Hfg; [done|]. cbn [sum_list_with].
  rewrite (Hfg 0 c eq_refl). f_equal. apply IH. intros i x Hx. by apply (Hfg (S i)).
Qed.

Lemma total_le f m cs : (forall q, f q <= m) -> total f cs <= m * length cs.
Proof using Type.
  intros Hf. unfold total. induction cs as [|c cs IH]; cbn [sum_list_with length]; [lia|].
  specialize (Hf (c_pc c)). lia.
Qed.

Lemma phase_le s q : phase s q <= 3.
Proof using Type. destruct q as [|k id| | |]; cbn [phase]; try lia. destruct (tc_calls s !! id) as [[]|]; lia. Qed.

Lemma builds_left_le s q : builds_left s q <= 2.
Proof using Type. destruct q; cbn [builds_left]; try case_decide; lia. Qed.

Lemma builds_left_move s s' cs i c ps q : cs !! i = Some c -> tc_generation s' = tc_generation s ->
  total (builds_left s') (<[i := mkCaller ps q]> cs) + builds_left s (c_pc c) =
  total (builds_left s) cs + builds_left s q.
Proof using Type.
  intros Hi Hg. rewrite <- (total_insert (builds_left s) cs i c ps q Hi). f_equal.
  apply total_ext. intros j x _. unfold builds_left. by rewrite Hg.
Qed.

(** A caller that gets closer to its next build, in a step that ends no call. *)
Lemma measure_nearer s s' cs i c ps q :
  cs !! i = Some c -> tc_generation s' = tc_generation s ->
  (forall j x, cs !! j = Some x -> phase s' (c_pc x) = phase s (c_pc x)) ->
  builds_left s q <= builds_left s (c_pc c) -> phase s' q < phase s (c_pc c) ->
  measure (mkSystem s' (<[i := mkCaller ps q]> cs)) < measure (mkSystem s cs).
Proof using Type.
  intros Hi Hg Hph Hb Hp. unfold measure. cbn [shared callers]. rewrite length_insert.
  pose proof (builds_left_move s s' cs i c ps q Hi Hg) as HB.
  pose proof (total_insert (phase s') cs i c ps q Hi) as HP.
  rewrite (total_ext (phase s') (phase s) cs) in HP by done. rewrite (Hph i c Hi) in HP.
  pose proof (Nat.mul_le_mono_r (total (builds_left s') (<[i:=mkCaller ps q]> cs)) (total (builds_left s) cs)
    (3 * length cs + 1)). lia.
Qed.

(** A caller that is done with a build. *)
Lemma measure_built s s' cs i c ps q :
  cs !! i = Some c -> tc_generation s' = tc_generation s -> builds_left s q < builds_left s (c_pc c) ->
  measure (mkSystem s' (<[i := mkCaller ps q]> cs)) < measure (mkSystem s cs).
Proof using Type.
  intros Hi Hg Hb. unfold measure. cbn [shared callers]. rewrite length_insert.
  pose proof (builds_left_move s s' cs i c ps q Hi Hg) as HB.
  pose proof (total_le (phase s') 3 (<[i := mkCaller ps q]> cs) (phase_le s')) as HP. rewrite length_insert in HP.
  pose proof (Nat.mul_le_mono_r (S (total (builds_left s') (<[i:=mkCaller ps q]> cs))) (total (builds_left s) cs)
    (3 * length cs + 1)). lia.
Qed.

Lemma measure_le w : measure w <= 2 * length (callers w) * (3 * length (callers w) + 1) + 3 * length (callers w).
Proof using Type.
  unfold measure. pose proof (total_le _ _ (callers w) (phase_le (shared w))).
  pose proof (total_le _ _ (callers w) (builds_left_le (shared w))) as HB.
  pose proof (Nat.mul_le_mono_r _ _ (3 * length (callers w) + 1) HB). lia.
Qed.

(** A waiting caller's phase when calls are only added. *)
Lemma phase_more_calls s s' more log cs j x :
  inv (mkSystem s cs) log -> tc_calls s' = tc_calls s ++ more -> cs !! j = Some x ->
  phase s' (c_pc x) = phase s (c_pc x).
Proof using Type.
  intros Hinv Hcalls Hx. destruct (c_pc x) as [|k id| | |] eqn:Hpc; try done. cbn [phase].
  destruct (i_wait _ _ Hinv j x k id Hx Hpc) as [Hlt _]. by rewrite Hcalls, lookup_app_l.
Qed.

(** What entering the loop changes. *)
Lemma enter_shape s ps key : 
  let r := enter s ps key in
  tc_generation r.1 = tc_generation s /\
  ((tc_calls r.1 = tc_calls s /\ match r.2 with Uncached | Returned _ => True | _ => False end) \/
   (exists id, tc_calls r.1 = tc_calls s /\ r.2 = Wait key id /\ tc_pending s !! key = Some id) \/
   (tc_calls r.1 = tc_calls s ++ [None] /\ r.2 = Build key (length (tc_calls s)))).
Proof using Type.
  unfold enter. destruct (tc_closed s); [by split; [|left]|].
  destruct (tc_entries s) as [e|].
  - destruct (cache_Get e key) as [[entry found] e']. destruct found.
    + destruct (bindCachedParameters _ _); by split; [|left].
    + cbn [set_entries tc_pending]. destruct (tc_pending s !! key) as [id|] eqn:Hp; (split; [done|]); right; [left|right]; eauto.
  - destruct (tc_pending s !! key) as [id|] eqn:Hp; (split; [done|]); right; [left|right]; eauto.
Qed.

Lemma measure_enter s cs log i c key :
  inv (mkSystem s cs) log -> cs !! i = Some c -> c_pc c = Start key ->
  measure (move (mkSystem s cs) i c (enter s (c_params c) key)) < measure (mkSystem s cs).
Proof using Type.
  intros Hinv Hi Hpc. unfold move. cbn [shared callers].
  pose proof (enter_shape s (c_params c) key) as Hsh. destruct (enter s (c_params c) key) as [s' q].
  cbn [fst snd] in *. destruct Hsh as [Hg Hsh].
  assert (Hmore : exists more, tc_calls s' = tc_calls s ++ more).
  { destruct Hsh as [[-> _]|[(id & -> & _)|[-> _]]]; [exists []|exists []|by eexists]; by rewrite app_nil_r. }
  destruct Hmore as [more Hmore].
  apply (measure_nearer s s' cs i c); [done..|by intros j x Hx; eapply phase_more_calls| |]; rewrite Hpc.
  - destruct Hsh as [[_ Hq]|[(id & _ & -> & _)|[_ ->]]]; [|done..]. destruct q; cbn [builds_left]; try done; lia.
  - destruct Hsh as [[_ Hq]|[(id & Hc & -> & Hp)|[_ ->]]]; cbn [phase]; [destruct q; cbn [phase]; try done; lia| |lia].
    rewrite Hc. destruct (i_pending _ _ Hinv key id Hp) as [Hn _]. cbn [shared] in Hn. rewrite Hn. lia.
Qed.

(** What a completed build leaves for its caller to do. *)
Lemma complete_shape s ps key id b r : complete s ps key id b = Done r ->
  tc_generation r.1 = tc_generation s /\ builds_left s r.2 < builds_left s (Build key id).
Proof using Type.
  unfold complete. destruct (complete_store s key _) as [[s1 reusable]| |] eqn:Hst; try done.
  intros [= <-]. assert (Hg : tc_generation s1 = tc_generation s).
  { destruct (complete_store_inv _ _ _ _ _ _ Hst) as [[-> _]|(x & e & x' & g & _ & _ & _ & _ & _ & -> & _)]; done. }
  unfold complete_return. destruct b as [sql result| |]; cbn [fst snd]; [|split; [done|]; cbn; case_decide; lia..].
  case_bool_decide as Hcur; cbn [negb andb].
  - destruct (tc_closed s || _); split; try done; cbn; case_decide; lia.
  - destruct (tc_closed s); cbn [negb orb fst snd]; (split; [done|]); cbn [builds_left with_generation k_schemaGeneration].
    + rewrite decide_False by done. lia.
    + rewrite (decide_True (P := tc_generation s = tc_generation s)), decide_False by done. lia.
Qed.

Lemma measure_step w log l w' : inv w log -> (caller_step w l w' \/ cancel_step w w') -> measure w' < measure w.
Proof using Type.
  destruct w as [s cs]. intros Hinv [Hstep|Hstep].
  - destruct Hstep as [i c key Hi Hpc|i c key id reusable Hi Hpc Hcall|i c key id b r Hi Hpc Hr|i c b Hi Hpc];
      cbn [shared callers] in *.
    + by eapply measure_enter.
    + destruct reusable; (apply (measure_nearer s _ cs i c); [done..| |]); rewrite Hpc; cbn; rewrite ?Hcall; try lia.
    + destruct (complete_shape _ _ _ _ _ _ Hr) as [Hg Hb]. apply (measure_built s _ cs i c); [done..|]. by rewrite Hpc.
    + destruct b; (apply (measure_nearer s _ cs i c); [done..| |]); rewrite Hpc; cbn; lia.
  - destruct Hstep as [i c key Hi Hpc|i c key id Hi Hpc]; cbn [shared callers] in *;
      (apply (measure_nearer s _ cs i c); [done..| |]); rewrite Hpc; cbn; try lia.
    destruct (tc_calls s !! id) as [[]|]; lia.
Qed.

(** *** Progress *)

Lemma complete_total w log i c key id b :
  inv w log -> callers w !! i = Some c -> c_pc c = Build key id ->
  exists r, complete (shared w) (c_params c) key id b = Done r.
Proof using Type.
  intros Hinv Hi Hpc. unfold complete. unfold complete_store.
  destruct (cacheableTranslation b (c_params c)) as [e|]; [|by eexists]. case_bool_decide; [|by eexists].
  destruct (tc_closed (shared w)) eqn:Hcl; [by eexists|].
  pose proof (i_loop _ _ Hinv i c Hi) as Hl. rewrite Hpc in Hl.
  destruct (i_open _ _ Hinv Hcl Hl) as [x Hx]. rewrite Hx.
  destruct (put_entries _ _ _ key e (i_entries _ _ Hinv x Hx)) as (x' & -> & _). by eexists.
Qed.

Lemma progress w log i c :
  inv w log -> callers w !! i = Some c -> (forall a, c_pc c <> Returned a) -> exists l w', caller_step w l w'.
Proof using Type.
  intros Hinv Hi Hc.
  assert (Hbuild : forall j x k id, callers w !! j = Some x -> c_pc x = Build k id -> exists l w', caller_step w l w').
  { intros j x k id Hj Hx. destruct (complete_total w log j x k id BuildErr Hinv Hj Hx) as [r Hr].
    eexists _, _. by eapply step_complete. }
  destruct (c_pc c) as [key|key id|key id| |a] eqn:Hpc.
  - eexists _, _. by eapply step_enter.
  - destruct (i_wait _ _ Hinv i c key id Hi Hpc) as [Hlt Ht].
    destruct (lookup_lt_is_Some_2 _ _ Hlt) as [[r|] Hr].
    + eexists _, _. by eapply step_wake.
    + destruct (i_pending _ _ Hinv key id (Ht Hr)) as (_ & j & x & Hj & Hx). by eapply Hbuild.
  - by eapply Hbuild.
  - eexists _, _. by apply (step_uncached w i c BuildErr).
  - by destruct (Hc a).
Qed.

(** *** Entries and bindings *)

Lemma sources_loop_exact result ps gs (acc out : gmap string string) :
  acc ⊆ br_parameterSources result -> sources_loop result ps gs acc = Some out ->
  out ⊆ br_parameterSources result /\ dom acc ⊆ dom out /\ forall g, g ∈ gs -> g ∈ dom out.
Proof using Type.
  revert acc. induction gs as [|g gs IH]; intros acc Hacc; cbn [sources_loop].
  { intros [= <-]. split_and!; [done|done|by intros g ?%elem_of_nil]. }
  destruct (br_parameterSources result !! g) as [source|] eqn:Hg; [|done].
  case_decide; [done|]. destruct (ps !! source); [|done].
  intros Hout. destruct (IH (<[g := source]> acc)) as (H1 & H2 & H3); [|done|].
  - by apply insert_subseteq_l.
  - rewrite dom_insert_L in H2. apply union_subseteq in H2 as [Hg' H2]. split_and!; [done..|].
    intros x [->|Hx]%elem_of_cons; [by apply singleton_subseteq_l in Hg'|by apply H3].
Qed.

(** A build that can be cached names a source for each generated parameter,
    and the entry keeps them all. *)
Lemma cacheableTranslation_exact b ps e : cacheableTranslation b ps = Some e ->
  exists result, b = BuildOk (e_sql e) result /\ e_parameterSources e = br_parameterSources result /\
    dom (br_parameterSources result) = dom (br_parameters result).
Proof using Type.
  destruct b as [sql result| |]; try done. cbn [cacheableTranslation]. case_decide as Hsize; [|done].
  destruct (sources_loop result ps _ ∅) as [out|] eqn:Hloop; [|done]. intros [= <-]. exists result. cbn.
  destruct (sources_loop_exact _ _ _ _ _ (map_empty_subseteq _) Hloop) as (Hsub & _ & Hall).
  assert (Hdom : dom (br_parameters result) ⊆ dom out).
  { intros g [v Hv]%elem_of_dom. apply Hall, list_elem_of_fmap. exists (g, v). split; [done|].
    by apply elem_of_map_to_list. }
  assert (Heq : out = br_parameterSources result).
  { apply map_subseteq_size_eq; [done|]. rewrite <- Hsize, <- !size_dom. by apply subseteq_size. }
  split_and!; [done|done|]. symmetry. apply set_subseteq_size_eq; [by rewrite <- Heq|].
  rewrite !size_dom. lia.
Qed.

Lemma bind_loop_exact sources ps acc out : bind_loop sources ps acc = Some out -> NoDup sources.*1 ->
  (forall g s, (g, s) ∈ sources -> out !! g = (v ← ps !! s; negotiate v) /\ is_Some (out !! g)) /\
  (forall g, g ∉ sources.*1 -> out !! g = acc !! g).
Proof using Type.
  revert acc. induction sources as [|[g s] sources IH]; intros acc; cbn [bind_loop fmap list_fmap fst].
  { intros [= <-] _. split; [by intros g s ?%elem_of_nil|done]. }
  destruct (ps !! s) as [v|] eqn:Hs; [|done]. destruct (negotiate v) as [x|] eqn:Hv; [|done].
  intros Hout [Hg Hnd]%NoDup_cons. destruct (IH _ Hout Hnd) as [Hin Hnot]. split.
  - intros g' s' [[= -> ->]|Hx]%elem_of_cons; [|by apply Hin].
    rewrite (Hnot g Hg), lookup_insert_eq, Hs. cbn. by rewrite Hv.
  - intros g' Hg'. rewrite not_elem_of_cons in Hg'. destruct Hg' as [Hne Hg'].
    rewrite (Hnot g' Hg'). by rewrite lookup_insert_ne.
Qed.

(** Each generated parameter is bound to the negotiated value of its source. *)
Lemma bindCachedParameters_exact sources ps out : bindCachedParameters sources ps = Some out ->
  dom out = dom sources /\ forall g, out !! g = (s ← sources !! g; v ← ps !! s; negotiate v).
Proof using Type.
  unfold bindCachedParameters. case_decide as Hz.
  { intros [= <-]. apply map_size_empty_iff in Hz as ->. split; [by rewrite !dom_empty_L|].
    intros g. by rewrite !lookup_empty. }
  intros Hout. destruct (bind_loop_exact _ _ _ _ Hout (NoDup_fst_map_to_list _)) as [Hin Hnot].
  assert (Hg : forall g, out !! g = (s ← sources !! g; v ← ps !! s; negotiate v) /\
    (is_Some (out !! g) <-> is_Some (sources !! g))).
  { intros g. destruct (sources !! g) as [s|] eqn:Hs.
    - destruct (Hin g s) as [-> Hsome]; [by apply elem_of_map_to_list|]. split; [done|]. split; [by eexists|done].
    - rewrite Hnot; [by rewrite lookup_empty|]. intros ([g' s'] & Hx & Hin')%list_elem_of_fmap.
      simpl in Hx. subst. apply elem_of_map_to_list in Hin'. congruence. }
  split; [|intros g; apply Hg]. apply set_eq. intros g. rewrite !elem_of_dom. apply Hg.
Qed.

(** *** Single flight *)

Lemma single_flight w log i j key id id' :
  inv w log -> tc_closed (shared w) = false -> builds (callers w) i key id -> builds (callers w) j key id' -> i = j.
Proof using Type.
  intros Hinv Hcl Hi Hj. destruct (i_build _ _ Hinv i key id Hi) as [[_ Hp] Hl].
  destruct (i_build _ _ Hinv j key id' Hj) as [[_ Hp'] Hl']. specialize (Hp (Hl Hcl)). specialize (Hp' (Hl' Hcl)).
  assert (id = id') as <- by congruence. by eapply i_uniq.
Qed.

Lemma build_missed w log i key id e :
  inv w log -> tc_closed (shared w) = false -> builds (callers w) i key id -> tc_entries (shared w) = Some e ->
  cache_contents zero e !! key = None.
Proof using Type.
  intros Hinv Hcl Hi He. destruct (i_build _ _ Hinv i key id Hi) as [[_ Hp] Hl].
  eapply en_pending; [by eapply i_entries|by apply Hp, Hl].
Qed.

Lemma hit_current w log ps key s' sql bindings :
  inv w log -> enter (shared w) ps key = (s', Returned (Hit sql bindings)) ->
  tc_closed (shared w) = false /\ k_schemaGeneration key = tc_generation (shared w) /\
  exists ps0 result, (key, ps0, BuildOk sql result) ∈ log /\ dom bindings = dom (br_parameters result) /\
    forall g, bindings !! g = (s ← br_parameterSources result !! g; v ← ps !! s; negotiate v).
Proof using Type.
  intros Hinv. unfold enter. destruct (tc_closed (shared w)) eqn:Hcl; [done|].
  destruct (tc_entries (shared w)) as [e|] eqn:He; [|by destruct (tc_pending _ !! key)].
  destruct (cache_Get e key) as [[entry found] e'] eqn:Hget.
  pose proof (i_entries _ _ Hinv e He) as Hok.
  destruct (get_entries _ _ _ _ _ _ _ Hok Hget) as (_ & _ & Hfound).
  destruct found; [|by destruct (tc_pending _ !! key)].
  destruct (bindCachedParameters _ ps) as [out|] eqn:Hbind; [|done]. intros [= <- <- <-].
  destruct (en_log _ _ _ Hok key entry Hfound) as (ps0 & b & Hin & Hb).
  destruct (cacheableTranslation_exact b ps0 entry Hb) as (result & -> & Hsrc & Hdom).
  destruct (bindCachedParameters_exact _ _ _ Hbind) as [Hd Hl]. rewrite Hsrc in Hd, Hl.
  split_and!; [done|by eapply en_gen|]. exists ps0, result. by rewrite Hd.
Qed.

(** *** Storing a translation *)

Lemma store_exact w log i c key id b r :
  inv w log -> callers w !! i = Some c -> c_pc c = Build key id ->
  stores (shared w) (c_params c) key b = Some (key, c_params c, b) ->
  complete (shared w) (c_params c) key id b = Done r ->
  exists x x' e, tc_entries (shared w) = Some x /\ tc_entries r.1 = Some x' /\
    cacheableTranslation b (c_params c) = Some e /\ cache_contents zero x !! key = None /\
    (Z.of_nat (size (cache_contents zero x')) <= tc_capacity (shared w))%Z /\
    insertions (tc_counters r.1) = wrap_int64 (insertions (tc_counters (shared w)) + 1) /\
    if decide (Z.of_nat (size (cache_contents zero x)) < tc_capacity (shared w))%Z
    then cache_contents zero x' = <[key := e]> (cache_contents zero x) /\
         evictions (tc_counters r.1) = evictions (tc_counters (shared w))
    else (exists k v, cache_contents zero x !! k = Some v /\
            cache_contents zero x' = <[key := e]> (delete k (cache_contents zero x))) /\
         evictions (tc_counters r.1) = wrap_int64 (evictions (tc_counters (shared w)) + 1).
Proof using Type.
  intros Hinv Hi Hpc Hst Hr. unfold stores in Hst. unfold complete, complete_store in Hr.
  destruct (cacheableTranslation b (c_params c)) as [e|] eqn:He; [|done].
  case_bool_decide as Hg; [|done]. destruct (tc_closed (shared w)) eqn:Hcl; [done|].
  destruct (tc_entries (shared w)) as [x|] eqn:Hx; [|done].
  pose proof (i_entries _ _ Hinv x Hx) as Hok.
  assert (Hmiss : cache_contents zero x !! key = None) by (eapply build_missed; try done; by exists c).
  destruct (cache_law zero x (CachePut key e) (en_inv _ _ _ Hok)) as (r' & x' & Hdo & Hinv' & Hcap & Hstep).
  unfold cache_do in Hdo. destruct (cache_Put x key e) as [x1| |]; try done. injection Hdo as <- <-.
  rewrite (cache_size zero x (en_inv _ _ _ Hok)) in Hr.
  destruct (cacheableTranslation_exact _ _ _ He) as (result & -> & _ & _).
  injection Hr as <-. rewrite (en_cap _ _ _ Hok) in Hcap, Hstep. exists x, x1, e.
  assert (Hsmall : (Z.of_nat (size (cache_contents zero x1)) <= tc_capacity (shared w))%Z).
  { pose proof (cache_bound zero x1 Hinv') as Hb. rewrite Hcap in Hb. pose proof (i_cap _ _ Hinv). lia. }
  unfold complete_return. rewrite bool_decide_eq_true_2, Hcl by done. cbn [negb andb orb is_Some fst].
  inversion Hstep; [congruence|..].
  - rewrite (decide_True (P := (_ < _)%Z)), decide_False by lia. split_and!; try done; congruence.
  - rewrite (decide_False (P := (_ < _)%Z)), decide_True by lia. done.
Qed.

End cache.

(** ** The translation cache over SIEVE *)

Definition no_entry : translationCacheEntry := mkEntry "" ∅.

(** [cache.Sieve[translationCacheKey, translationCacheEntry]] *)
Notation entry_sieve := (@Sieve translationCacheKey translationCacheEntry _ _).

#[export] Instance entry_Cache : Cache (K := translationCacheKey) (V := translationCacheEntry) entry_sieve := Sieve_Cache no_entry.
#[export] Instance entry_lawful : LawfulCache (C := entry_sieve) no_entry evicts_one := Sieve_lawful no_entry.

Definition new_sieve (capacity : Z) : entry_sieve := NewSieve capacity.

(** The entries the SIEVE cache holds. *)
Definition held (s : translationCache (C := entry_sieve)) : gmap translationCacheKey translationCacheEntry :=
  match tc_entries s with Some c => Sieve_contents c | None => ∅ end.

Lemma new_sieve_new capacity : (0 < capacity < 2 ^ 63)%Z ->
  cache_inv no_entry (new_sieve capacity) /\ cache_contents no_entry (new_sieve capacity) = ∅ /\
  stats_Capacity (cache_Stats (new_sieve capacity)) = capacity.
Proof.
  intros Hcap. split_and!; [apply NewSieve_inv; lia|done|]. cbn. destruct (Z.leb_spec capacity 0); lia.
Qed.


Definition advance (negotiate : any -> option any) (w w' : system (C := entry_sieve)) : Prop :=
  (exists l, caller_step negotiate w l w') \/ cancel_step w w'.

Lemma held_contents (s : translationCache (C := entry_sieve)) c :
  tc_entries s = Some c -> held s = cache_contents no_entry c.
Proof. intros Hc. unfold held. by rewrite Hc. Qed.

(** [C8] A hit serves this key and this schema: whatever calls, invalidations
    and completions were interleaved before, a caller that finds an entry gets
    the SQL that a build for exactly this key returned and stored, the key is of
    the current schema generation, and each generated parameter is bound to the
    negotiated value of the caller's own parameter it came from. *)
Theorem translationCache_hit negotiate capacity policy w log ps key s' sql bindings :
  (capacity < 2 ^ 63)%Z ->
  run negotiate new_sieve capacity policy w log ->
  enter negotiate (shared w) ps key = (s', Returned (Hit sql bindings)) ->
  tc_closed (shared w) = false /\ k_schemaGeneration key = tc_generation (shared w) /\
  exists ps0 result, (key, ps0, BuildOk sql result) ∈ log /\ dom bindings = dom (br_parameters result) /\
    forall g, bindings !! g = (s ← br_parameterSources result !! g; v ← ps !! s; negotiate v).
Proof.
  intros Hcap Hrun. eapply hit_current, run_inv; [apply new_sieve_new|done|done].
Qed.

(** Single flight: while the cache is open, no two callers build the same
    key at once, and none builds a key whose translation is held. *)
Theorem translationCache_single_flight negotiate capacity policy w log i j key id id' :
  (capacity < 2 ^ 63)%Z ->
  run negotiate new_sieve capacity policy w log -> tc_closed (shared w) = false ->
  builds (callers w) i key id -> builds (callers w) j key id' ->
  i = j /\ held (shared w) !! key = None.
Proof.
  intros Hcap Hrun Hcl Hi Hj.
  pose proof (run_inv _ _ no_entry new_sieve_new _ _ _ _ Hcap Hrun) as Hinv.
  split; [by eapply single_flight|]. destruct (tc_entries (shared w)) as [c|] eqn:Hc.
  - rewrite (held_contents _ c Hc). by eapply build_missed.
  - unfold held. by rewrite Hc.
Qed.

(** [C28] Every caller returns: while a caller has not returned some caller can
    go on (a waiter's call is over or is being built; a completed build can
    always be stored), and from a state with n callers at most 2n(3n+1) + 3n
    steps of callers follow each other before a new call, an invalidation or a
    close, whatever the order and the outcomes of the builds. *)
Theorem translationCache_returns negotiate capacity policy w log :
  (capacity < 2 ^ 63)%Z ->
  run negotiate new_sieve capacity policy w log ->
  (forall i c, callers w !! i = Some c -> (forall a, c_pc c <> Returned a) ->
     exists l w', caller_step negotiate w l w') /\
  (forall n w', nsteps (advance negotiate) n w w' ->
     n <= 2 * length (callers w) * (3 * length (callers w) + 1) + 3 * length (callers w)).
Proof.
  intros Hcap Hrun. pose proof (run_inv _ _ no_entry new_sieve_new _ _ _ _ Hcap Hrun) as Hinv.
  split; [intros i c Hi Hc; by eapply progress|].
  intros n w' Hn. etransitivity; [|apply measure_le].
  clear Hrun. revert log Hinv. induction Hn as [w|n w w1 w' Hstep Hn IH]; intros log Hinv; [lia|].
  assert (Hw1 : measure w1 < measure w /\ exists log', inv no_entry w1 log').
  { destruct Hstep as [[l Hl]|Hc].
    - split; [by eapply measure_step; [|left]|]. eexists. by eapply inv_caller_step.
    - split; [by eapply (measure_step negotiate _ w log None); [|right]|]. eexists.
      by eapply (inv_step negotiate new_sieve no_entry new_sieve_new w log None), step_cancel. }
  destruct Hw1 as (Hlt & log' & Hinv1). specialize (IH log' Hinv1). lia.
Qed.

(** The stores and the counters: a reusable build adds its entry under a
    key that was absent, within the capacity; one insertion is counted, and an
    eviction exactly when the cache was full, in which case exactly one other
    entry makes room. *)
Theorem translationCache_store negotiate capacity policy w log i c key id b r :
  (capacity < 2 ^ 63)%Z ->
  run negotiate new_sieve capacity policy w log ->
  callers w !! i = Some c -> c_pc c = Build key id ->
  stores (shared w) (c_params c) key b = Some (key, c_params c, b) ->
  complete (shared w) (c_params c) key id b = Done r ->
  exists e, cacheableTranslation b (c_params c) = Some e /\ held (shared w) !! key = None /\
    (Z.of_nat (size (held r.1)) <= tc_capacity (shared w))%Z /\
    insertions (tc_counters r.1) = wrap_int64 (insertions (tc_counters (shared w)) + 1) /\
    if decide (Z.of_nat (size (held (shared w))) < tc_capacity (shared w))%Z
    then held r.1 = <[key := e]> (held (shared w)) /\
         evictions (tc_counters r.1) = evictions (tc_counters (shared w))
    else (exists k v, held (shared w) !! k = Some v /\ held r.1 = <[key := e]> (delete k (held (shared w)))) /\
         evictions (tc_counters r.1) = wrap_int64 (evictions (tc_counters (shared w)) + 1).
Proof.
  intros Hcap Hrun Hi Hpc Hst Hr.
  pose proof (run_inv _ _ no_entry new_sieve_new _ _ _ _ Hcap Hrun) as Hinv.
  destruct (store_exact _ _ _ _ _ _ _ _ _ Hinv Hi Hpc Hst Hr) as (x & x' & e & Hx & Hx' & H).
  exists e. by rewrite (held_contents _ x Hx), (held_contents _ x' Hx').
Qed.

(** ** Examples *)

(** Maps and property bags are encoded as themselves. *)
Definition demo_negotiate : any -> option any := NegotiateValue (fun _ => KMap) (fun tag => Some (Other tag)).

(** A cache for one entry, one key, one parameter and a build that reads it. *)
Definition demo_start : system (C := entry_sieve) := mkSystem (newTranslationCacheWithPolicy new_sieve 1 "") [].
Definition demo_key : translationCacheKey := mkKey translationCacheKeyFormat 7 24 1 "4:name=text;" "compiler-v4:optimized" 0.
Definition demo_params : params := {["name" := Str "alice"]}.
Definition demo_build : build_outcome :=
  BuildOk "select 1" (mkBuildResult {["pi0" := Str "alice"]} {["pi0" := "name"]}).

Definition demo (script : list action) : system * list (translationCacheKey * params * build_outcome) :=
  default (demo_start, []) (exec_all demo_negotiate new_sieve demo_start [] script).

Lemma demo_run script : run demo_negotiate new_sieve 1 "" (demo script).1 (demo script).2.
Proof.
  unfold demo. destruct (exec_all demo_negotiate new_sieve demo_start [] script) as [[w log]|] eqn:E; cbn; [|constructor].
  eapply exec_all_run; [|done]. constructor.
Qed.

Definition script_hit : list action := [ACall demo_key demo_params; AEnter 0; AComplete 0 demo_build].
Definition bob : params := {["name" := Str "bob"]}.

Lemma translationCache_hit_witness :
  let w := (demo script_hit).1 in
  (enter demo_negotiate (shared w) bob demo_key).2 = Returned (Hit "select 1" {["pi0" := Str "bob"]}) /\
  k_schemaGeneration demo_key = tc_generation (shared w).
Proof.
  assert (Hq : (enter demo_negotiate (shared (demo script_hit).1) bob demo_key).2 =
    Returned (Hit "select 1" {["pi0" := Str "bob"]})) by (vm_compute; reflexivity).
  split; [exact Hq|].
  destruct (translationCache_hit demo_negotiate 1 "" (demo script_hit).1 (demo script_hit).2 bob demo_key
    (enter demo_negotiate (shared (demo script_hit).1) bob demo_key).1 "select 1" {["pi0" := Str "bob"]}) as (_ & H & _);
    [lia|apply demo_run|by rewrite <- Hq, <- surjective_pairing|exact H].
Defined.

Definition script_wait : list action := [ACall demo_key demo_params; ACall demo_key demo_params; AEnter 0; AEnter 1].

Lemma translationCache_single_flight_witness :
  builds (callers (demo script_wait).1) 0 demo_key 0 /\ held (shared (demo script_wait).1) !! demo_key = None.
Proof.
  assert (Hb : builds (callers (demo script_wait).1) 0 demo_key 0)
    by (exists (mkCaller demo_params (Build demo_key 0)); split; vm_compute; reflexivity).
  split; [exact Hb|].
  destruct (translationCache_single_flight demo_negotiate 1 "" (demo script_wait).1 (demo script_wait).2 0 0 demo_key 0 0) as [_ H];
    [lia|apply demo_run|vm_compute; reflexivity|exact Hb|exact Hb|exact H].
Defined.

Lemma translationCache_returns_witness :
  (exists l w', caller_step demo_negotiate (demo script_wait).1 l w') /\
  ~ (exists w', nsteps (advance demo_negotiate) 35 (demo script_wait).1 w').
Proof.
  destruct (translationCache_returns demo_negotiate 1 "" (demo script_wait).1 (demo script_wait).2) as [Ha Hb]; [lia|apply demo_run|].
  split.
  - apply (Ha 0 (mkCaller demo_params (Build demo_key 0))); [vm_compute; reflexivity|discriminate].
  - intros [w' Hn]. assert (Hl : length (callers (demo script_wait).1) = 2) by (vm_compute; reflexivity).
    specialize (Hb 35 w' Hn). rewrite Hl in Hb. lia.
Defined.

Definition other_key : translationCacheKey := mkKey translationCacheKeyFormat 8 24 1 "4:name=text;" "compiler-v4:optimized" 0.
Definition script_full : list action := script_hit ++ [ACall other_key demo_params; AEnter 1].

Lemma translationCache_store_witness :
  exists r, complete (shared (demo script_full).1) demo_params other_key 1 demo_build = Done r /\
    evictions (tc_counters (shared (demo script_full).1)) = 0%Z /\ evictions (tc_counters r.1) = 1%Z /\
    held (shared (demo script_full).1) !! other_key = None.
Proof.
  assert (Hc : callers (demo script_full).1 !! 1 = Some (mkCaller demo_params (Build other_key 1)))
    by (vm_compute; reflexivity).
  pose proof (run_inv demo_negotiate new_sieve no_entry new_sieve_new 1 "" _ _ eq_refl (demo_run script_full)) as Hinv.
  destruct (complete_total no_entry _ _ 1 _ other_key 1 demo_build Hinv Hc eq_refl) as [r Hr].
  assert (Hs : stores (shared (demo script_full).1) demo_params other_key demo_build =
    Some (other_key, demo_params, demo_build)) by (vm_compute; reflexivity).
  destruct (translationCache_store demo_negotiate 1 "" (demo script_full).1 (demo script_full).2 1
    (mkCaller demo_params (Build other_key 1)) other_key 1 demo_build r) as (e & _ & Hmiss & _ & _ & Hev);
    [lia|apply demo_run|exact Hc|done|exact Hs|exact Hr|].
  assert (Hz : evictions (tc_counters (shared (demo script_full).1)) = 0%Z) by (vm_compute; reflexivity).
  assert (Hfull : size (held (shared (demo script_full).1)) = 1) by (vm_compute; reflexivity).
  assert (Hcap : tc_capacity (shared (demo script_full).1) = 1%Z) by (vm_compute; reflexivity).
  rewrite Hfull, Hcap, Hz in Hev. rewrite decide_False in Hev by lia. destruct Hev as [_ Hev].
  exists r. split_and!; [done|done|exact Hev|exact Hmiss].
Defined.
