(* ===== verification/Framing.v ===== *)
(** * Text that can be taken apart again

    Lemmas on strings built by concatenation: decimal numbers, separators that
    do not occur in a part, and parts of known length.  [strconv.Itoa] and the
    [%d] verb are [pretty]. *)

From S2P Require Import Prelude.
From stdpp Require Export pretty.
From Stdlib Require Import Ascii.

(** ** Characters of a string *)

Fixpoint has_char (c : ascii) (s : string) : bool :=
  match s with
  | EmptyString => false
  | String x s' => bool_decide (x = c) || has_char c s'
  end.

Lemma has_char_app c a b : has_char c (a +:+ b) = has_char c a || has_char c b.
Proof. induction a as [|x a IH]; [done|]. simpl. rewrite IH. apply orb_assoc. Qed.

Lemma append_assoc (a b c : string) : (a +:+ b) +:+ c = a +:+ (b +:+ c).
Proof.
  induction a as [|x a IH]; [done|]. change (String x ((a +:+ b) +:+ c) = String x (a +:+ (b +:+ c))). by rewrite IH.
Qed.

(** A part that ends at the first separator. *)
Lemma sep_inj c a b x y :
  has_char c a = false -> has_char c b = false -> a +:+ String c x = b +:+ String c y -> a = b /\ x = y.
Proof.
  revert b. induction a as [|u a IH]; intros [|w b] Ha Hb E; simpl in *.
  - by injection E as ->.
  - injection E as -> E. by rewrite bool_decide_eq_true_2 in Hb.
  - injection E as -> E. by rewrite bool_decide_eq_true_2 in Ha.
  - injection E as -> E. apply orb_false_iff in Ha as [_ Ha], Hb as [_ Hb].
    destruct (IH b Ha Hb E) as [-> ->]. done.
Qed.

(** A part of known length. *)
Lemma length_inj a b x y : String.length a = String.length b -> a +:+ x = b +:+ y -> a = b /\ x = y.
Proof.
  revert b. induction a as [|u a IH]; intros [|w b] Hl E; simpl in *; try done.
  injection E as -> E. injection Hl as Hl. destruct (IH b Hl E) as [-> ->]. done.
Qed.

(** ** Decimal numbers *)

Definition digit_free (c : ascii) : Prop := forall n, pretty_N_char n <> c.

Lemma pretty_N_go_char c n s : digit_free c -> has_char c s = false -> has_char c (pretty_N_go n s) = false.
Proof.
  intros Hc. revert s. induction (N.lt_wf_0 n) as [n _ IH]; intros s Hs.
  assert (n = 0 \/ 0 < n)%N as [->|Hn] by lia; [by rewrite pretty_N_go_0|].
  rewrite pretty_N_go_step by done. apply IH; [by apply N.div_lt|]. cbn.
  rewrite bool_decide_eq_false_2; [done|]. apply Hc.
Qed.

Lemma pretty_nat_char c (n : nat) : digit_free c -> has_char c (pretty n) = false.
Proof.
  intros Hc. unfold pretty, pretty_nat, pretty, pretty_N. case_decide.
  - cbn. rewrite bool_decide_eq_false_2; [done|]. apply (Hc 0%N).
  - by apply pretty_N_go_char.
Qed.

Lemma pretty_Z_char c (z : Z) : digit_free c -> c <> "-"%char -> has_char c (pretty z) = false.
Proof.
  intros Hc Hd. destruct z as [|p|p]; unfold pretty, pretty_Z, pretty, pretty_positive, pretty, pretty_N.
  - cbn. rewrite bool_decide_eq_false_2; [done|]. apply (Hc 0%N).
  - rewrite decide_False by done. by apply pretty_N_go_char.
  - rewrite decide_False by done. rewrite has_char_app. cbn. rewrite bool_decide_eq_false_2 by done. cbn.
    by apply pretty_N_go_char.
Qed.

Ltac digit_free := intros ?; unfold pretty_N_char; repeat case_match; discriminate.

(** ** Lists of framed parts *)

Definition concat_map {A} (f : A -> string) (l : list A) : string := foldr (fun x s => f x +:+ s) "" l.

(** A frame is unique when it can be told where it ends, and is not empty. *)
Lemma concat_map_inj {A} (f : A -> string) (P : A -> Prop) l1 l2 :
  (forall x, f x <> "") -> (forall x y s t, P x -> P y -> f x +:+ s = f y +:+ t -> x = y /\ s = t) ->
  (forall x, x ∈ l1 -> P x) -> (forall x, x ∈ l2 -> P x) -> concat_map f l1 = concat_map f l2 -> l1 = l2.
Proof.
  intros Hne Hf. revert l2. induction l1 as [|x l1 IH]; intros [|y l2] H1 H2 E; [done|..].
  - exfalso. cbn in E. specialize (Hne y). by destruct (f y).
  - exfalso. cbn in E. specialize (Hne x). by destruct (f x).
  - cbn in E. destruct (Hf x y _ _ (H1 x ltac:(by left)) (H2 y ltac:(by left)) E) as [-> E'].
    f_equal. apply IH; [intros z Hz; apply H1; by right|intros z Hz; apply H2; by right|done].
Qed.

(** ** Sorted names *)

Lemma merge_sort_ext (l1 l2 : list string) :
  NoDup l1 -> NoDup l2 -> (forall x, x ∈ l1 <-> x ∈ l2) -> merge_sort String.le l1 = merge_sort String.le l2.
Proof.
  intros H1 H2 Hin. apply (StronglySorted_unique String.le); [apply StronglySorted_merge_sort; apply _..|].
  rewrite !merge_sort_Permutation. by apply NoDup_Permutation.
Qed.
