(* ===== verification/TranslationKey.v ===== *)
(** * The type shape of a translation key (drivers/pg/translation_cache.go)

    The key under which a translation is cached names the parameters and their
    data types in one string.  The shape tells parameter maps apart by names and
    types: each name is framed by its length and each type by a semicolon. *)

From S2P Require Import Prelude Kinds Mapper Framing DataTypes.
From Stdlib Require Import Ascii.

Section shape.
Variable kind_of : nat -> other_kind.
Variable has_zone : time -> bool.

(** The text of a parameter's type. *)
Definition type_text (v : any) : string :=
  match ValueToDataType kind_of has_zone v with
  | Some dataType => DataType_String dataType
  | None => "unsupported:" +:+ stableTypeName kind_of v
  end.

(** [fmt.Fprintf(&shape, "%d:%s=%s;", len(name), name, dataType)] *)
Definition shape_entry (e : string * string) : string :=
  pretty (String.length e.1) +:+ ":" +:+ e.1 +:+ "=" +:+ e.2 +:+ ";".

Definition shape_entries (parameters : gmap string any) : list (string * string) :=
  (fun name => (name, type_text (default Nil (parameters !! name)))) <$>
    merge_sort String.le (map_to_list parameters).*1.

Definition parameterTypeShape (parameters : gmap string any) : string :=
  if decide (size parameters = 0) then "" else concat_map shape_entry (shape_entries parameters).

(** ** Properties *)

Lemma shape_entry_inj x y s t :
  has_char ";"%char x.2 = false -> has_char ";"%char y.2 = false ->
  shape_entry x +:+ s = shape_entry y +:+ t -> x = y /\ s = t.
Proof using Type.
  destruct x as [n u], y as [m v]. unfold shape_entry. cbn [fst snd]. intros Hu Hv.
  rewrite !append_assoc. intros E.
  apply (sep_inj ":"%char) in E as [El E]; [|apply pretty_nat_char; digit_free..].
  apply (inj pretty) in El.
  apply (length_inj n m) in E as [-> E]; [|done].
  injection E as E. apply (sep_inj ";"%char) in E as [-> ->]; done.
Qed.

Lemma DataType_String_semicolon : forall t : DataType, has_char ";"%char (DataType_String t) = false.
Proof using Type. refine (bool_decide_unpack _ _). vm_compute. done. Qed.

Lemma type_text_semicolon v :
  (forall tag name, v = Other tag -> kind_of tag = KForeign name -> has_char ";"%char name = false) ->
  has_char ";"%char (type_text v) = false.
Proof using Type.
  intros Hf. unfold type_text. destruct (ValueToDataType kind_of has_zone v) as [t|]; [apply DataType_String_semicolon|].
  rewrite has_char_app. cbn [has_char orb]. destruct v as [| | |[]|[]| | | |[]|[]|tag]; try done.
  cbn [stableTypeName]. destruct (kind_of tag) eqn:Hk; try done. by eapply Hf.
Qed.

Lemma elem_of_shape_entries parameters name text :
  (name, text) ∈ shape_entries parameters <-> type_text <$> parameters !! name = Some text.
Proof using Type.
  unfold shape_entries. rewrite list_elem_of_fmap. split.
  - intros (n & E & Hn). injection E as -> ->. rewrite merge_sort_Permutation in Hn.
    apply list_elem_of_fmap in Hn as ([n' v] & -> & Hv%elem_of_map_to_list). cbn. by rewrite Hv.
  - intros Hv. destruct (parameters !! name) as [v|] eqn:E; [|done]. injection Hv as <-.
    exists name. rewrite E. split; [done|]. rewrite merge_sort_Permutation.
    apply list_elem_of_fmap. exists (name, v). split; [done|]. by apply elem_of_map_to_list.
Qed.

(** The type names of foreign values hold no semicolon. *)
Definition plain_names (parameters : gmap string any) : Prop :=
  forall name tag type_name, parameters !! name = Some (Other tag) -> kind_of tag = KForeign type_name ->
    has_char ";"%char type_name = false.

Lemma shape_entries_plain parameters e :
  plain_names parameters -> e ∈ shape_entries parameters -> has_char ";"%char e.2 = false.
Proof using Type.
  intros Hp He. destruct e as [name text]. apply elem_of_shape_entries in He.
  destruct (parameters !! name) as [v|] eqn:E; [|done]. injection He as <-. apply type_text_semicolon.
  intros tag tn -> Hk. by eapply Hp.
Qed.

Lemma parameterTypeShape_entries parameters :
  parameterTypeShape parameters = concat_map shape_entry (shape_entries parameters).
Proof using Type.
  unfold parameterTypeShape. case_decide as Hz; [|done].
  apply map_size_empty_iff in Hz as ->. unfold shape_entries. by rewrite map_to_list_empty.
Qed.

(** The shape decides the types: two parameter maps have the same shape
    exactly when they have the same names with the same data type each, so that
    a translation is never shared between parameters of different types. *)
Theorem parameterTypeShape_exact (p q : gmap string any) :
  plain_names p -> plain_names q ->
  parameterTypeShape p = parameterTypeShape q <->
  (forall name, type_text <$> p !! name = type_text <$> q !! name).
Proof using Type.
  intros Hp Hq. rewrite !parameterTypeShape_entries. split.
  - intros E. apply (concat_map_inj shape_entry (fun e => has_char ";"%char e.2 = false)) in E.
    + intros name. apply option_eq. intros text. by rewrite <- !elem_of_shape_entries, E.
    + intros e He. unfold shape_entry in He. by destruct (pretty (String.length e.1)).
    + intros x y s t. apply shape_entry_inj.
    + intros e. by apply shape_entries_plain.
    + intros e. by apply shape_entries_plain.
  - intros Hsame. f_equal. unfold shape_entries.
    assert (Hnames : merge_sort String.le (map_to_list p).*1 = merge_sort String.le (map_to_list q).*1).
    { apply merge_sort_ext; [apply NoDup_fst_map_to_list..|]. intros name. specialize (Hsame name).
      assert (Hin : forall m : gmap string any, name ∈ (map_to_list m).*1 <-> is_Some (type_text <$> m !! name)).
      { intros m. rewrite list_elem_of_fmap, fmap_is_Some. split.
        - intros ([n v] & -> & Hv%elem_of_map_to_list). by exists v.
        - intros [v Hv]. exists (name, v). split; [done|]. by apply elem_of_map_to_list. }
      by rewrite !Hin, Hsame. }
    rewrite Hnames. apply list_fmap_ext. intros i name _. f_equal. specialize (Hsame name).
    by destruct (p !! name), (q !! name); cbn in *; simplify_eq.
Qed.

End shape.

Definition shape_left : gmap string any := {["id" := Int tID 7; "name" := Str "x"]}.
Definition shape_right : gmap string any := {["name" := Str "y"; "id" := Int tint64 9]}.

Lemma parameterTypeShape_exact_witness :
  parameterTypeShape (fun _ => KMap) (fun _ => false) shape_left = "2:id=int8;4:name=text;" /\
  parameterTypeShape (fun _ => KMap) (fun _ => false) shape_left =
  parameterTypeShape (fun _ => KMap) (fun _ => false) shape_right.
Proof.
  split; [vm_compute; reflexivity|].
  apply (parameterTypeShape_exact (fun _ => KMap) (fun _ => false) shape_left shape_right); [discriminate..|].
  intros name. unfold shape_left, shape_right.
  destruct (decide (name = "id")) as [->|H1]; [reflexivity|]. destruct (decide (name = "name")) as [->|H2]; [reflexivity|].
  rewrite !lookup_insert_ne, !lookup_singleton_ne by done. reflexivity.
Defined.
