(* ===== verification/WriteBatch.v ===== *)
(** * Batched writes of the PostgreSQL driver (drivers/pg/batch.go, graph/graph.go)

    The array text of kind identifiers, the identity keys under which updates of
    one node or relationship are merged, and the builder that turns a buffer of
    relationships into the columns of one insert.  A cloned property bag is owned
    by the builder, so bags are values here. *)

From S2P Require Import Prelude Kinds Mapper Framing Properties Paths.
From Stdlib Require Import Ascii.

(** ** Int2ArrayEncoder *)

Fixpoint Encode_loop (first : bool) (values : list Z) : string :=
  match values with
  | [] => ""
  | value :: values' => (if first then "" else ",") +:+ pretty value +:+ Encode_loop false values'
  end.

Definition Int2ArrayEncoder_Encode (values : list Z) : string := "{" +:+ Encode_loop true values +:+ "}".

(** ** Identity keys *)

(** The values of the identity properties one after the other; [inr] is the
    first error. *)
Fixpoint key_loop (p : Properties) (names : list string) : result string :=
  match names with
  | [] => inl ""
  | name :: names' =>
      perr_bind (safePropertyValue_String (Properties_Get p name)) (fun v =>
      perr_bind (key_loop p names') (fun rest => inl (v +:+ rest)))
  end.

Definition identity_key (p : Properties) (IdentityProperties : list string) : result string :=
  key_loop p (merge_sort String.le IdentityProperties).

(** [NodeUpdate.Key], of the node's properties. *)
Definition NodeUpdate_Key (p : Properties) (IdentityProperties : list string) : result string :=
  identity_key p IdentityProperties.

Definition RelationshipUpdate_Key (kind : Kind) (rel : Properties) (IdentityProperties : list string)
    (start : Properties) (StartIdentityProperties : list string)
    (end_ : Properties) (EndIdentityProperties : list string) : outcome (result string) :=
  k ← Kind_String kind;
  Done (perr_bind (NodeUpdate_Key start StartIdentityProperties) (fun startKey =>
        perr_bind (NodeUpdate_Key end_ EndIdentityProperties) (fun endKey =>
        perr_bind (identity_key rel IdentityProperties) (fun own => inl (k +:+ startKey +:+ own +:+ endKey))))).

(** ** The columns of an insert *)

Section batch.
(** The kind mapper and the JSON encoder; [None] is their error. *)
Context {J : Type}.
Variable MapKind : Kind -> option Z.
Variable PropertiesToJSONB : Properties -> option J.

Inductive batch_error := ErrMapKind | ErrEncode.

Record relationshipCreateBatch := mkCreateBatch {
  startIDs : list Z;
  endIDs : list Z;
  edgeKindIDs : list Z;
  edgePropertyBags : list J
}.

Definition newRelationshipCreateBatch : relationshipCreateBatch := mkCreateBatch [] [] [] [].

Definition relationshipCreateBatch_Add (s : relationshipCreateBatch) (startID endID edgeKindID : Z) : relationshipCreateBatch :=
  mkCreateBatch (startIDs s ++ [startID]) (endIDs s ++ [endID]) (edgeKindIDs s ++ [edgeKindID]) (edgePropertyBags s).

Fixpoint EncodeProperties (s : relationshipCreateBatch) (bags : list Properties) : relationshipCreateBatch * option batch_error :=
  match bags with
  | [] => (s, None)
  | p :: bags' =>
      match PropertiesToJSONB p with
      | None => (s, Some ErrEncode)
      | Some j => EncodeProperties (mkCreateBatch (startIDs s) (endIDs s) (edgeKindIDs s) (edgePropertyBags s ++ [j])) bags'
      end
  end.

Record relationshipCreateBatchBuilder := mkBuilder {
  keyToEdgeID : gmap string Z;
  relationshipUpdateBatch : relationshipCreateBatch;
  edgePropertiesIndex : gmap Z Z;
  edgePropertiesBatch : list Properties
}.

Definition newRelationshipCreateBatchBuilder : relationshipCreateBatchBuilder := mkBuilder ∅ newRelationshipCreateBatch ∅ [].

Definition edge_key (edge : Relationship) : outcome string :=
  k ← Kind_String (rel_Kind edge);
  Done (ID_String (rel_StartID edge) +:+ ID_String (rel_EndID edge) +:+ k).

(** A nil property bag has no [Clone]. *)
Definition Builder_Add (s : relationshipCreateBatchBuilder) (edge : Relationship)
    : outcome (relationshipCreateBatchBuilder * option batch_error) :=
  key ← edge_key edge;
  match keyToEdgeID s !! key with
  | Some existingPropertiesIdx =>
      bag ← slice_get (edgePropertiesBatch s) existingPropertiesIdx;
      merged ← Properties_Merge (Some bag) (rel_Properties edge);
      bags ← slice_set (edgePropertiesBatch s) existingPropertiesIdx (default bag merged);
      Done (mkBuilder (keyToEdgeID s) (relationshipUpdateBatch s) (edgePropertiesIndex s) bags, None)
  | None =>
      match rel_Properties edge with
      | None => Panic
      | Some p =>
          match MapKind (rel_Kind edge) with
          | None => Done (s, Some ErrMapKind)
          | Some edgeKindID =>
              let bags := edgePropertiesBatch s ++ [Properties_Clone p] in
              Done (mkBuilder (<[key := rel_ID edge]> (keyToEdgeID s))
                      (relationshipCreateBatch_Add (relationshipUpdateBatch s) (rel_StartID edge) (rel_EndID edge) edgeKindID)
                      (<[rel_ID edge := (Z.of_nat (length bags) - 1)%Z]> (edgePropertiesIndex s)) bags, None)
          end
      end
  end.

Definition Builder_Build (s : relationshipCreateBatchBuilder) : relationshipCreateBatch * option batch_error :=
  EncodeProperties (relationshipUpdateBatch s) (edgePropertiesBatch s).

(** The loop of [flushRelationshipCreateBuffer] and the call of [Build]. *)
Fixpoint add_all (s : relationshipCreateBatchBuilder) (edges : list Relationship)
    : outcome (relationshipCreateBatchBuilder * option batch_error) :=
  match edges with
  | [] => Done (s, None)
  | edge :: edges' =>
      '(s', e) ← Builder_Add s edge;
      match e : option batch_error with Some _ => Done (s', e) | None => add_all s' edges' end
  end.

Definition flush (edges : list Relationship) : outcome (relationshipCreateBatch * option batch_error) :=
  '(s, e) ← add_all newRelationshipCreateBatchBuilder edges;
  match e : option batch_error with Some _ => Done (relationshipUpdateBatch s, e) | None => Done (Builder_Build s) end.

End batch.

(** ** Properties *)

(** *** The array text *)

Lemma sep2_inj c d c1 c2 a b x y :
  has_char c a = false -> has_char d a = false -> has_char c b = false -> has_char d b = false ->
  (c1 = c \/ c1 = d) -> (c2 = c \/ c2 = d) ->
  a +:+ String c1 x = b +:+ String c2 y -> a = b /\ c1 = c2 /\ x = y.
Proof.
  revert b. induction a as [|u a IH]; intros [|w b] Hca Hda Hcb Hdb H1 H2 E; simpl in *.
  - by injection E as -> ->.
  - injection E as -> E. apply orb_false_iff in Hcb as [Hcb _], Hdb as [Hdb _].
    apply bool_decide_eq_false in Hcb, Hdb. naive_solver.
  - injection E as -> E. apply orb_false_iff in Hca as [Hca _], Hda as [Hda _].
    apply bool_decide_eq_false in Hca, Hda. naive_solver.
  - injection E as -> E. apply orb_false_iff in Hca as [_ Hca], Hda as [_ Hda], Hcb as [_ Hcb], Hdb as [_ Hdb].
    destruct (IH b Hca Hda Hcb Hdb H1 H2 E) as (-> & -> & ->). done.
Qed.

Lemma pretty_Z_sep (z : Z) : has_char ","%char (pretty z) = false /\ has_char "}"%char (pretty z) = false.
Proof. split; apply pretty_Z_char; first [digit_free | discriminate]. Qed.

Lemma pretty_Z_nonempty (z : Z) : pretty z <> "".
Proof.
  intros E. assert (Hn : forall n s, pretty_N_go n s = "" -> s = "").
  { intros n. induction (N.lt_wf_0 n) as [n _ IH]; intros s Hs.
    assert (n = 0 \/ 0 < n)%N as [->|Hn] by lia; [by rewrite pretty_N_go_0 in Hs|].
    rewrite pretty_N_go_step in Hs by done. apply IH in Hs; [done|by apply N.div_lt]. }
  destruct z as [|p|p]; unfold pretty, pretty_Z, pretty, pretty_positive, pretty, pretty_N in E; [done|..].
  - rewrite decide_False in E by done. rewrite pretty_N_go_step in E by done. by apply Hn in E.
  - done.
Qed.

(** What follows a number: a comma and the rest, or the closing brace. *)
Lemma Encode_tail values : exists c x, Encode_loop false values +:+ "}" = String c x /\ (c = ","%char \/ c = "}"%char).
Proof. destruct values as [|v values]; [by exists "}"%char, ""; auto|]. eexists ","%char, _. split; [reflexivity|auto]. Qed.

Lemma Encode_loop_inj first l1 l2 :
  Encode_loop first l1 +:+ "}" = Encode_loop first l2 +:+ "}" -> l1 = l2.
Proof.
  revert first l2. induction l1 as [|v l1 IH]; intros first [|w l2] E; [done|..]; cbn [Encode_loop] in E.
  - destruct first; [|done]. rewrite !append_assoc in E. destruct (Encode_tail l2) as (c & x & Ht & Hc). rewrite Ht in E.
    destruct (pretty_Z_sep w). apply (sep2_inj ","%char "}"%char "}"%char c "" (pretty w)) in E as (E & _); auto.
    by destruct (pretty_Z_nonempty w).
  - destruct first; [|done]. rewrite !append_assoc in E. destruct (Encode_tail l1) as (c & x & Ht & Hc). rewrite Ht in E.
    destruct (pretty_Z_sep v). apply (sep2_inj ","%char "}"%char c "}"%char (pretty v) "" x "") in E as (E & _); auto.
    by destruct (pretty_Z_nonempty v).
  - rewrite !append_assoc in E. destruct first; [|injection E as E].
    all: destruct (Encode_tail l1) as (c & x & Ht & Hc), (Encode_tail l2) as (d & y & Hu & Hd);
      destruct (pretty_Z_sep v), (pretty_Z_sep w);
      assert (Hkey : pretty v = pretty w /\ Encode_loop false l1 +:+ "}" = Encode_loop false l2 +:+ "}")
        by (rewrite Ht, Hu in E |- *; apply (sep2_inj ","%char "}"%char c d) in E as (-> & -> & ->); auto);
      destruct Hkey as [Hv%(inj pretty) Hl]; subst; f_equal; by apply (IH false).
Qed.

(** The array text can be read back: different lists of kind identifiers
    have different texts. *)
Theorem Int2ArrayEncoder_Encode_injective (l1 l2 : list Z) :
  Int2ArrayEncoder_Encode l1 = Int2ArrayEncoder_Encode l2 <-> l1 = l2.
Proof.
  split; [|by intros ->]. unfold Int2ArrayEncoder_Encode. intros E. injection E as E. by apply Encode_loop_inj in E.
Qed.

(** *** Identity keys *)

(** The key does not depend on the order in which the identity properties are
    named. *)
Lemma identity_key_order p names names' : names ≡ₚ names' -> identity_key p names = identity_key p names'.
Proof.
  intros Hp. unfold identity_key. f_equal.
  apply (StronglySorted_unique String.le); [apply StronglySorted_merge_sort; apply _..|].
  by rewrite !merge_sort_Permutation.
Qed.

(** Nothing stands between the values, so that two nodes that differ in every
    identity property can share a key, and their updates are merged into one node. *)
Theorem NodeUpdate_Key_collides :
  let p := AsProperties (Some {["domain" := Str "AB"; "name" := Str "C"]}) in
  let q := AsProperties (Some {["domain" := Str "A"; "name" := Str "BC"]}) in
  NodeUpdate_Key p ["domain"; "name"] = inl "ABC" /\ NodeUpdate_Key q ["name"; "domain"] = inl "ABC".
Proof. split; vm_compute; reflexivity. Qed.

(** *** The columns *)

Section columns.
Context {J : Type} (MapKind : Kind -> option Z) (PropertiesToJSONB : Properties -> option J).

(** The builder after edges with keys of their own. *)
Record holds (s : relationshipCreateBatchBuilder (J := J)) (keys : list string) (edges : list Relationship) : Prop := {
  ho_keys : forall k, k ∈ keys <-> is_Some (keyToEdgeID s !! k);
  ho_start : startIDs (relationshipUpdateBatch s) = rel_StartID <$> edges;
  ho_end : endIDs (relationshipUpdateBatch s) = rel_EndID <$> edges;
  ho_kind : Forall2 (fun e k => MapKind (rel_Kind e) = Some k) edges (edgeKindIDs (relationshipUpdateBatch s));
  ho_bags : Forall2 (fun e p => rel_Properties e = Some p) edges (edgePropertiesBatch s);
  ho_none : edgePropertyBags (relationshipUpdateBatch s) = []
}.

(** An edge that can be written. *)
Definition writable (e : Relationship) : Prop :=
  exists kind id p j, rel_Kind e = Some kind /\ MapKind (rel_Kind e) = Some id /\ rel_Properties e = Some p /\
    PropertiesToJSONB p = Some j.

Lemma edge_key_writable e : writable e ->
  exists k, edge_key e = Done k.
Proof using Type. intros (kind & id & p & j & Hk & _). unfold edge_key. rewrite Hk. by eexists. Qed.

Lemma Builder_Add_fresh s keys edges e key id p :
  holds s keys edges -> MapKind (rel_Kind e) = Some id -> rel_Properties e = Some p -> edge_key e = Done key -> key ∉ keys ->
  exists s', Builder_Add MapKind s e = Done (s', None) /\ holds s' (keys ++ [key]) (edges ++ [e]).
Proof using Type.
  clear PropertiesToJSONB. intros [Hk Hs He Hki Hb Hn] Hid Hp Hkey Hfresh.
  unfold Builder_Add. rewrite Hkey. cbn [mbind outcome_bind].
  destruct (keyToEdgeID s !! key) eqn:E; [exfalso; apply Hfresh, Hk; by eexists|].
  rewrite Hp, Hid. eexists. split; [reflexivity|].
  split; cbn [keyToEdgeID relationshipUpdateBatch edgePropertiesBatch relationshipCreateBatch_Add startIDs endIDs edgeKindIDs edgePropertyBags].
  - intros k. rewrite elem_of_app, list_elem_of_singleton, lookup_insert_is_Some, Hk. naive_solver.
  - by rewrite Hs, fmap_app.
  - by rewrite He, fmap_app.
  - apply Forall2_app; [done|]. by repeat constructor.
  - apply Forall2_app; [done|]. rewrite Clone_eq. by repeat constructor.
  - done.
Qed.

Lemma add_all_distinct s keys edges more mkeys :
  holds s keys edges -> Forall writable more -> Forall2 (fun e k => edge_key e = Done k) more mkeys -> NoDup (keys ++ mkeys) ->
  exists s', add_all MapKind s more = Done (s', None) /\ holds s' (keys ++ mkeys) (edges ++ more).
Proof using Type.
  revert s keys edges mkeys. induction more as [|e more IH]; intros s keys edges mkeys Hh Hw Hf Hnd.
  { apply Forall2_nil_inv_l in Hf as ->. exists s. by rewrite !app_nil_r. }
  apply Forall2_cons_inv_l in Hf as (key & mkeys' & Hkey & Hf & ->). apply Forall_cons in Hw as [Hwe Hw].
  destruct Hwe as (kind & id & p & j & _ & Hid & Hp & _).
  destruct (Builder_Add_fresh s keys edges e key id p Hh Hid Hp Hkey) as (s1 & Hadd & Hh1).
  { apply NoDup_app in Hnd as (_ & Hd & _). intros Hin. apply (Hd key Hin). by left. }
  destruct (IH s1 (keys ++ [key]) (edges ++ [e]) mkeys' Hh1 Hw Hf) as (s' & Hall & Hh'); [by rewrite <- app_assoc|].
  exists s'. cbn [add_all]. rewrite Hadd. cbn [mbind outcome_bind]. rewrite <- !app_assoc in Hh'. done.
Qed.

Lemma EncodeProperties_all (b : relationshipCreateBatch (J := J)) bags js :
  Forall2 (fun p j => PropertiesToJSONB p = Some j) bags js ->
  EncodeProperties PropertiesToJSONB b bags =
  (mkCreateBatch (startIDs b) (endIDs b) (edgeKindIDs b) (edgePropertyBags b ++ js), None).
Proof using Type.
  intros Hf. revert b. induction Hf as [|p j bags js Hp Hf IH]; intros b; cbn [EncodeProperties].
  - rewrite app_nil_r. by destruct b.
  - rewrite Hp, IH. cbn [startIDs endIDs edgeKindIDs edgePropertyBags]. by rewrite <- app_assoc.
Qed.

(** A flush writes what was buffered: when the edges can be written and
    their keys differ, the columns of the insert list the edges in order, each row
    with its endpoints, the identifier of its kind and its own properties. *)
Theorem flush_distinct (edges : list Relationship) (keys : list string) :
  Forall writable edges -> Forall2 (fun e k => edge_key e = Done k) edges keys -> NoDup keys ->
  exists b, flush MapKind PropertiesToJSONB edges = Done (b, None) /\
    startIDs b = rel_StartID <$> edges /\ endIDs b = rel_EndID <$> edges /\
    Forall2 (fun e k => MapKind (rel_Kind e) = Some k) edges (edgeKindIDs b) /\
    Forall2 (fun e j => exists p, rel_Properties e = Some p /\ PropertiesToJSONB p = Some j) edges (edgePropertyBags b).
Proof using Type.
  intros Hw Hf Hnd.
  destruct (add_all_distinct newRelationshipCreateBatchBuilder [] [] edges keys) as (s & Hall & Hh); [|done..|].
  { split; try done. intros k. cbn. rewrite lookup_empty. split; [by intros ?%elem_of_nil|by intros [? ?]]. }
  destruct Hh as [_ Hs He Hk Hb Hn]. cbn [app] in *.
  assert (Hjs : exists js, Forall2 (fun p j => PropertiesToJSONB p = Some j) (edgePropertiesBatch s) js /\
    Forall2 (fun e j => exists p, rel_Properties e = Some p /\ PropertiesToJSONB p = Some j) edges js).
  { clear - Hw Hb. revert Hw. induction Hb as [|e p es ps Hp Hb IH]; intros Hw; [by exists []|].
    apply Forall_cons in Hw as [(kind & id & p' & j & _ & _ & Hp' & Hj) Hw]. destruct (IH Hw) as (js & H1 & H2).
    assert (p' = p) as -> by congruence. exists (j :: js). split; constructor; eauto. }
  destruct Hjs as (js & Hj1 & Hj2). unfold flush. rewrite Hall. cbn [mbind outcome_bind]. unfold Builder_Build.
  rewrite (EncodeProperties_all _ _ js Hj1), Hn. eexists. split; [reflexivity|]. by split_and!.
Qed.

(** *** Rows stay aligned *)

Definition aligned (s : relationshipCreateBatchBuilder (J := J)) : Prop :=
  length (startIDs (relationshipUpdateBatch s)) = size (keyToEdgeID s) /\
  length (endIDs (relationshipUpdateBatch s)) = size (keyToEdgeID s) /\
  length (edgeKindIDs (relationshipUpdateBatch s)) = size (keyToEdgeID s) /\
  length (edgePropertiesBatch s) = size (keyToEdgeID s) /\
  edgePropertyBags (relationshipUpdateBatch s) = [].

Lemma Builder_Add_aligned s e s' r : aligned s -> Builder_Add MapKind s e = Done (s', r) ->
  aligned s' /\ (r = None -> exists k, edge_key e = Done k /\ dom (keyToEdgeID s') = {[k]} ∪ dom (keyToEdgeID s)).
Proof using Type.
  clear PropertiesToJSONB. intros Ha. unfold Builder_Add. destruct (edge_key e) as [key| |] eqn:Hkey; try done. cbn [mbind outcome_bind].
  destruct (keyToEdgeID s !! key) as [idx|] eqn:E.
  - destruct (slice_get (edgePropertiesBatch s) idx) as [bag| |]; try done. cbn [mbind outcome_bind].
    destruct (Properties_Merge (Some bag) (rel_Properties e)) as [merged| |]; try done. cbn [mbind outcome_bind].
    unfold slice_set. case_decide; [|done]. cbn [mbind outcome_bind]. intros [= <- <-]. split.
    + destruct Ha as (? & ? & ? & ? & ?). unfold aligned. cbn. by rewrite length_insert.
    + intros _. exists key. split; [done|]. cbn. apply elem_of_dom_2 in E. set_solver.
  - destruct (rel_Properties e) as [p|]; [|done]. destruct (MapKind (rel_Kind e)) as [id|]; [|intros [= <- <-]; done].
    intros [= <- <-]. split.
    + destruct Ha as (? & ? & ? & ? & ?). unfold aligned. cbn. rewrite !length_app, map_size_insert_None by done. cbn. split_and!; done || lia.
    + intros _. exists key. split; [done|]. cbn. by rewrite dom_insert_L.
Qed.

Lemma add_all_aligned s edges s' : aligned s -> add_all MapKind s edges = Done (s', None) ->
  aligned s' /\ exists keys, Forall2 (fun e k => edge_key e = Done k) edges keys /\
    dom (keyToEdgeID s') = list_to_set keys ∪ dom (keyToEdgeID s).
Proof using Type.
  clear PropertiesToJSONB. revert s. induction edges as [|e edges IH]; intros s Ha; cbn [add_all].
  { intros [= <-]. split; [done|]. exists []. split; [constructor|set_solver]. }
  destruct (Builder_Add MapKind s e) as [[s1 r]| |] eqn:E; try done. cbn [mbind outcome_bind].
  destruct r; [done|]. intros Hall. destruct (Builder_Add_aligned s e s1 None Ha E) as [Ha1 Hk].
  destruct (Hk eq_refl) as (k & Hek & Hd). destruct (IH s1 Ha1 Hall) as (Ha' & keys & Hf & Hd').
  split; [done|]. exists (k :: keys). split; [by constructor|]. rewrite Hd', Hd. set_solver.
Qed.

Lemma EncodeProperties_columns (b b' : relationshipCreateBatch (J := J)) bags :
  EncodeProperties PropertiesToJSONB b bags = (b', None) ->
  startIDs b' = startIDs b /\ endIDs b' = endIDs b /\ edgeKindIDs b' = edgeKindIDs b /\
  length (edgePropertyBags b') = length (edgePropertyBags b) + length bags.
Proof using Type.
  revert b. induction bags as [|p bags IH]; intros b; cbn [EncodeProperties].
  - intros [= <-]. cbn. split_and!; done || lia.
  - destruct (PropertiesToJSONB p); [|done]. intros Hb. apply IH in Hb as (H1 & H2 & H3 & H4).
    cbn in *. rewrite length_app in H4. cbn in H4. split_and!; try done. lia.
Qed.

(** The columns never come apart: whatever the buffer holds, a flush that
    succeeds writes columns of one length, one row for each different key. *)
Theorem flush_aligned (edges : list Relationship) b :
  flush MapKind PropertiesToJSONB edges = Done (b, None) ->
  exists keys, Forall2 (fun e k => edge_key e = Done k) edges keys /\
    let rows := size (list_to_set keys : gset string) in
    length (startIDs b) = rows /\ length (endIDs b) = rows /\ length (edgeKindIDs b) = rows /\
    length (edgePropertyBags b) = rows.
Proof using Type.
  unfold flush. destruct (add_all MapKind newRelationshipCreateBatchBuilder edges) as [[s r]| |] eqn:E; try done.
  cbn [mbind outcome_bind]. destruct r; [done|]. intros [= Hb].
  destruct (add_all_aligned newRelationshipCreateBatchBuilder edges s) as ((A1 & A2 & A3 & A4 & A5) & keys & Hf & Hd); [done|done|].
  unfold Builder_Build in Hb. apply EncodeProperties_columns in Hb as (B1 & B2 & B3 & B4). rewrite A5 in B4.
  exists keys. split; [done|]. cbn zeta.
  assert (Hrows : size (list_to_set keys : gset string) = size (keyToEdgeID s)).
  { rewrite <- size_dom, Hd. cbn. by rewrite dom_empty_L, (right_id_L ∅ (∪)). }
  rewrite Hrows, B1, B2, B3. cbn in B4. split_and!; congruence.
Qed.
End columns.

(** ** Examples *)

Definition demo_MapKind (k : Kind) : option Z := match k with Some _ => Some 4%Z | None => None end.
Definition demo_JSON (p : Properties) : option (list (string * any)) := Some (map_to_list (props p)).

Definition bag (k : string) (v : any) : option Properties := Some (AsProperties (Some {[k := v]})).
Definition edge (id s e : Z) (p : option Properties) : Relationship := mkRelationship id s e (Some "K") p.

Lemma flush_distinct_witness :
  exists b, flush demo_MapKind demo_JSON [edge 0 1 2 (bag "x" Nil); edge 0 2 1 (bag "y" Nil)] = Done (b, None) /\
    startIDs b = [1; 2]%Z /\ endIDs b = [2; 1]%Z.
Proof.
  destruct (flush_distinct demo_MapKind demo_JSON [edge 0 1 2 (bag "x" Nil); edge 0 2 1 (bag "y" Nil)] ["12K"; "21K"])
    as (b & Hb & Hs & He & _).
  - repeat constructor; (eexists _, _, _, _; split_and!; reflexivity).
  - repeat constructor.
  - apply (bool_decide_unpack _). vm_compute. done.
  - exists b. split; [exact Hb|]. split; [exact Hs|exact He].
Defined.

Lemma flush_aligned_witness :
  exists b, flush demo_MapKind demo_JSON [edge 0 1 2 (bag "x" Nil); edge 0 1 2 (bag "y" Nil)] = Done (b, None) /\
    length (startIDs b) = 1.
Proof.
  eexists. split; [vm_compute; reflexivity|].
  edestruct (flush_aligned demo_MapKind demo_JSON [edge 0 1 2 (bag "x" Nil); edge 0 1 2 (bag "y" Nil)])
    as (keys & Hf & Hrows & _); [vm_compute; reflexivity|].
  reflexivity.
Defined.

(** The key is not framed: the edges 1 -> 23 and 12 -> 3 share it, and the second
    is folded into the first instead of being written. *)
Theorem edge_key_collides :
  edge_key (edge 0 1 23 None) = edge_key (edge 0 12 3 None) /\
  exists b, flush demo_MapKind demo_JSON [edge 0 1 23 (bag "x" Nil); edge 0 12 3 (bag "y" Nil)] = Done (b, None) /\
    startIDs b = [1]%Z /\ edgePropertyBags b = [[("y", Nil); ("x", Nil)]].
Proof. split; [vm_compute; reflexivity|]. eexists. split; [vm_compute; reflexivity|]. split; reflexivity. Qed.

(** The row to merge into is looked up by the identifier of the edge, not by its
    place in the batch: among new edges, which have identifier 0, a repeated edge
    gives its properties to the first row, whichever edge that is. *)
Theorem repeated_edge_wrong_row :
  exists b, flush demo_MapKind demo_JSON
      [edge 0 1 2 (bag "x" Nil); edge 0 5 6 (bag "y" Nil); edge 0 5 6 (bag "z" Nil)] = Done (b, None) /\
    startIDs b = [1; 5]%Z /\ edgePropertyBags b = [[("z", Nil); ("x", Nil)]; [("y", Nil)]].
Proof. eexists. split; [vm_compute; reflexivity|]. split; reflexivity. Qed.
