(* ===== verification/Walk.v ===== *)
(** * Walking syntax trees (cypher/models/walk/walk.go)

    [Generic] walks a syntax tree with an explicit stack of cursors and calls a
    visitor on the way down, between branches and on the way up.  A visitor may
    consume a node (its branches are skipped), declare itself done or report an
    error.  A visitor's state is its handler together with its own data; the
    cursor constructor, an argument of the Go function too, says what the
    branches of a node are.

    The specification is the recursive walk of the tree the constructor
    unfolds; [Generic] is shown to compute it, within one turn per node and one
    per branch. *)

From S2P Require Import Prelude.

(** ** Handlers *)

Inductive error : Type :=
| Errorf (message : string)
| Join (first second : error).

Record cancelableVisitorHandler := mkHandler {
  vh_consumed : bool;
  vh_done : bool;
  vh_err : option error;
}.

Definition NewCancelableErrorHandler : cancelableVisitorHandler := mkHandler false false None.

Definition handler_SetDone (s : cancelableVisitorHandler) : cancelableVisitorHandler :=
  mkHandler (vh_consumed s) true (vh_err s).

Definition handler_SetError (err : option error) (s : cancelableVisitorHandler) : cancelableVisitorHandler :=
  match err with
  | None => s
  | Some e =>
      mkHandler (vh_consumed s) true
        (Some (match vh_err s with None => e | Some first => Join first e end))
  end.

Definition handler_Consume (s : cancelableVisitorHandler) : cancelableVisitorHandler :=
  mkHandler true (vh_done s) (vh_err s).

Definition handler_WasConsumed (s : cancelableVisitorHandler) : bool * cancelableVisitorHandler :=
  (vh_consumed s, mkHandler false (vh_done s) (vh_err s)).

(** ** Cursors *)

Record Cursor (N : Type) := mkCursor {
  cur_Node : N;
  cur_Branches : list N;
  cur_BranchIndex : nat;
}.
Arguments mkCursor {N}.
Arguments cur_Node {N}.
Arguments cur_Branches {N}.
Arguments cur_BranchIndex {N}.

Definition Cursor_AddBranches {N} (s : Cursor N) (branches : list N) : Cursor N :=
  mkCursor (cur_Node s) (cur_Branches s ++ branches) (cur_BranchIndex s).

Definition Cursor_NumBranchesRemaining {N} (s : Cursor N) : Z :=
  Z.of_nat (length (cur_Branches s)) - Z.of_nat (cur_BranchIndex s).

Definition Cursor_IsFirstVisit {N} (s : Cursor N) : bool := cur_BranchIndex s =? 0.

Definition Cursor_HasNext {N} (s : Cursor N) : bool := cur_BranchIndex s <? length (cur_Branches s).

Definition Cursor_NextBranch {N} (s : Cursor N) : outcome (N * Cursor N) :=
  nextBranch ← slice_get (cur_Branches s) (Z.of_nat (cur_BranchIndex s));
  Done (nextBranch, mkCursor (cur_Node s) (cur_Branches s) (S (cur_BranchIndex s))).

(** ** Visitors *)

Section walk.
Context {N St : Type}.

Notation vstate := (cancelableVisitorHandler * St)%type.

Record Visitor := mkVisitor {
  visitor_Enter : N -> vstate -> vstate;
  visitor_Visit : N -> vstate -> vstate;
  visitor_Exit : N -> vstate -> vstate;
}.

Definition NewVisitor : Visitor := mkVisitor (fun _ st => st) (fun _ st => st) (fun _ st => st).

Inductive Order := OrderPrefix | OrderInfix | OrderPostfix.

Definition Order_eqb (a b : Order) : bool :=
  match a, b with
  | OrderPrefix, OrderPrefix | OrderInfix, OrderInfix | OrderPostfix, OrderPostfix => true
  | _, _ => false
  end.

Definition NewSimpleVisitorWithOrder (order : Order) (visitorFunc : N -> vstate -> vstate) : Visitor :=
  let call o n st := if Order_eqb order o then visitorFunc n st else st in
  mkVisitor (call OrderPrefix) (call OrderInfix) (call OrderPostfix).

Definition NewSimpleVisitor (visitorFunc : N -> vstate -> vstate) : Visitor :=
  NewSimpleVisitorWithOrder OrderPrefix visitorFunc.

(** ** The walk *)

Section generic.
Variable visitor : Visitor.
Variable cursorConstructor : N -> Cursor N + error.

(** What a call of the visitor leads to. *)
Inductive flow :=
| Go (st : vstate)
| Stop (st : vstate) (err : option error).

(** [if err := visitor.Error(); err != nil ...; if visitor.Done() ...] *)
Definition check (st : vstate) : flow :=
  match vh_err st.1 with
  | Some e => Stop st (Some e)
  | None => if vh_done st.1 then Stop st None else Go st
  end.

Definition WasConsumed (st : vstate) : bool * vstate :=
  let '(consumed, h) := handler_WasConsumed st.1 in (consumed, (h, st.2)).

(** The node is exited, its consume flag cleared and its cursor popped. *)
Definition leave (n : N) (st : vstate) : flow :=
  let st' := visitor_Exit visitor n st in
  match vh_err st'.1 with
  | Some e => Stop st' (Some e)
  | None => Go (WasConsumed st').2
  end.

Definition turn_result : Type := ((list (Cursor N) * vstate) + outcome (vstate * option error))%type.

Definition resume (stack : list (Cursor N)) (f : flow) : turn_result :=
  match f with
  | Go st => inl (stack, st)
  | Stop st e => inr (Done (st, e))
  end.

Definition descend (nextNode : Cursor N) (rest : list (Cursor N)) (st : vstate) : turn_result :=
  match Cursor_NextBranch nextNode with
  | Done (branch, nextNode') =>
      match cursorConstructor branch with
      | inr err => inr (Done (st, Some err))
      | inl cursor => inl ((rest ++ [nextNode']) ++ [cursor], st)
      end
  | Panic => inr Panic
  | Spent => inr Spent
  end.

Definition Generic_step (s : list (Cursor N) * vstate) : turn_result :=
  let '(stack, st) := s in
  match deque_PopBack stack with
  | None => inr (Done (st, None))
  | Some (nextNode, rest) =>
      if vh_done st.1 then inr (Done (st, None))
      else
        let isFirstVisit := Cursor_IsFirstVisit nextNode in
        let n := cur_Node nextNode in
        match (if isFirstVisit then check (visitor_Enter visitor n st) else Go st) with
        | Stop st1 e => inr (Done (st1, e))
        | Go st1 =>
            if negb (Cursor_HasNext nextNode) then resume rest (leave n st1)
            else
              let '(consumed, st2) := WasConsumed st1 in
              if consumed then resume rest (leave n st2)
              else if isFirstVisit then descend nextNode rest st2
              else
                match check (visitor_Visit visitor n st2) with
                | Stop st3 e => inr (Done (st3, e))
                | Go st3 =>
                    let '(consumed', st4) := WasConsumed st3 in
                    if consumed' then resume rest (leave n st4) else descend nextNode rest st4
                end
        end
  end.

Definition Generic (fuel : nat) (node : N) (st : vstate) : outcome (vstate * option error) :=
  match cursorConstructor node with
  | inr err => Done (st, Some err)
  | inl cursor => default Spent (iterate fuel Generic_step ([cursor], st))
  end.
End generic.

(** ** The tree a constructor unfolds, and its recursive walk *)

Inductive tree :=
| Tree (n : N) (children : list tree)
| Broken (e : error).

Definition tree_rect_nested (P : tree -> Prop)
    (HT : forall n ts, Forall P ts -> P (Tree n ts)) (HB : forall e, P (Broken e)) : forall t, P t :=
  fix go t :=
    match t with
    | Tree n ts =>
        HT n ts ((fix all ts : Forall P ts :=
                    match ts with [] => List.Forall_nil _ | t :: ts' => List.Forall_cons _ _ _ (go t) (all ts') end) ts)
    | Broken e => HB e
    end.

Section spec.
Variable visitor : Visitor.
Variable cursorConstructor : N -> Cursor N + error.

(** Two lists of the same length, related element by element. *)
Definition pointwise (R : tree -> N -> Prop) : list tree -> list N -> Prop :=
  fix all ts ns :=
    match ts, ns with
    | [], [] => True
    | t :: ts', n :: ns' => R t n /\ all ts' ns'
    | _, _ => False
    end.

Fixpoint unfolds (t : tree) (node : N) {struct t} : Prop :=
  match t with
  | Broken e => cursorConstructor node = inr e
  | Tree n ts => exists ns, cursorConstructor node = inl (mkCursor n ns 0) /\ pointwise unfolds ts ns
  end.

(** The branches of [n], each walked by [rec]; between two of them the node is
    visited. *)
Definition branches (rec : tree -> vstate -> flow) (n : N) : bool -> list tree -> vstate -> flow :=
  fix go first ts st :=
    match ts with
    | [] => leave visitor n st
    | t :: ts' =>
        match (if first then Go st else check (visitor_Visit visitor n st)) with
        | Stop st1 e => Stop st1 e
        | Go st1 =>
            if negb first && vh_consumed st1.1 then leave visitor n (WasConsumed st1).2
            else
              match rec t st1 with
              | Stop st2 e => Stop st2 e
              | Go st2 => if vh_done st2.1 then Stop st2 None else go false ts' st2
              end
        end
    end.

Fixpoint walk (t : tree) (st : vstate) {struct t} : flow :=
  match t with
  | Broken e => Stop st (Some e)
  | Tree n ts =>
      match check (visitor_Enter visitor n st) with
      | Stop st1 e => Stop st1 e
      | Go st1 =>
          match ts with
          | [] => leave visitor n st1
          | _ =>
              if vh_consumed st1.1 then leave visitor n (WasConsumed st1).2
              else branches walk n true ts st1
          end
      end
  end.

(** One turn per node and one per branch. *)
Fixpoint cost (t : tree) : nat :=
  match t with
  | Broken _ => 0
  | Tree _ ts => S (foldr (fun t k => S (cost t) + k) 0 ts)
  end.

Definition walked (t : tree) (st : vstate) : vstate * option error :=
  match t with
  | Broken e => (st, Some e)
  | Tree _ _ =>
      if vh_done st.1 then (st, None)
      else match walk t st with Go st' => (st', None) | Stop st' e => (st', e) end
  end.

(** *** The walk computes it *)

Notation step := (Generic_step visitor cursorConstructor).

(** From [s] the loop does what [f] says within [k] turns, and goes on with
    [rest] when [f] goes on. *)
Definition leads (k : nat) (s : list (Cursor N) * vstate) (rest : list (Cursor N)) (f : flow) : Prop :=
  match f with
  | Go st => exists j, j <= k /\ forall fuel, iterate (j + fuel) step s = iterate fuel step (rest, st)
  | Stop st e => forall fuel, k <= fuel -> iterate fuel step s = Some (Done (st, e))
  end.

Lemma leads_resume k s rest f : 0 < k -> step s = resume rest f -> leads k s rest f.
Proof using Type.
  intros Hk Hs. destruct f as [st|st e]; simpl in *.
  - exists 1. split; [lia|]. intros fuel. simpl. by rewrite Hs.
  - intros [|fuel] Hf; [lia|]. simpl. by rewrite Hs.
Qed.

Lemma leads_turn k s s' rest f : step s = inl s' -> leads k s' rest f -> leads (S k) s rest f.
Proof using Type.
  intros Hs. destruct f as [st|st e]; simpl.
  - intros (j & Hj & Hgo). exists (S j). split; [lia|]. intros fuel. simpl. by rewrite Hs.
  - intros Hst [|fuel] Hf; [lia|]. simpl. rewrite Hs. apply Hst. lia.
Qed.

Lemma leads_seq k k' s rest st rest' f :
  leads k s rest (Go st) -> leads k' (rest, st) rest' f -> leads (k + k') s rest' f.
Proof using Type.
  intros (j & Hj & Hgo). destruct f as [st'|st' e]; simpl.
  - intros (j' & Hj' & Hgo'). exists (j + j'). split; [lia|]. intros fuel.
    by rewrite <- Nat.add_assoc, Hgo, Hgo'.
  - intros Hst fuel Hf. replace fuel with (j + (fuel - j)) by lia. rewrite Hgo. apply Hst. lia.
Qed.

Lemma leads_stop k k' s rest rest' st e : leads k s rest (Stop st e) -> k <= k' -> leads k' s rest' (Stop st e).
Proof using Type. intros H Hk fuel Hf. apply H. lia. Qed.

Lemma leads_mono k k' s rest f : leads k s rest f -> k <= k' -> leads k' s rest f.
Proof using Type.
  destruct f; simpl; [intros (j & ? & ?) ?; exists j; split; [lia|done]|intros H ? ? ?; apply H; lia].
Qed.

(** A walk that goes on has cleared the consume flag. *)
Lemma leave_clear n st st' : leave visitor n st = Go st' -> vh_consumed st'.1 = false.
Proof using Type. unfold leave. case_match; [done|]. by intros [= <-]. Qed.

Lemma WasConsumed_clear st : vh_consumed st.1 = false -> WasConsumed st = (false, st).
Proof using Type. destruct st as [[c d e] s]. simpl. intros ->. done. Qed.

Lemma check_Go st st' : check st = Go st' -> st' = st /\ vh_done st.1 = false.
Proof using Type. unfold check. repeat case_match; try done. by intros [= <-]. Qed.

Lemma branches_clear rec n first ts st st' : branches rec n first ts st = Go st' -> vh_consumed st'.1 = false.
Proof using Type.
  revert first st. induction ts as [|t ts IH]; intros first st; simpl; [apply leave_clear|].
  repeat case_match; try done; first [apply leave_clear|apply IH].
Qed.

Lemma walk_clear t st st' : walk t st = Go st' -> vh_consumed st'.1 = false.
Proof using Type.
  destruct t as [n ts|e]; simpl; [|done]. repeat case_match; try done; try apply leave_clear. apply branches_clear.
Qed.

(** A turn that goes down into the branch [t], given what follows it. *)
Definition below (t : tree) : Prop :=
  forall node cursor st rest, cursorConstructor node = inl cursor -> unfolds t node -> vh_done st.1 = false ->
    leads (cost t) (rest ++ [cursor], st) rest (walk t st).

Lemma run_descend n pre m ns t st s rest k (next : vstate -> flow) :
  below t -> unfolds t m -> vh_done st.1 = false ->
  step s = descend cursorConstructor (mkCursor n (pre ++ m :: ns) (length pre)) rest st ->
  0 < k ->
  (forall st', vh_done st'.1 = false -> vh_consumed st'.1 = false ->
    leads k (rest ++ [mkCursor n (pre ++ m :: ns) (S (length pre))], st') rest (next st')) ->
  leads (S (cost t) + k) s rest
    (match walk t st with
     | Stop st' e => Stop st' e
     | Go st' => if vh_done st'.1 then Stop st' None else next st'
     end).
Proof using Type.
  intros Ht Hm Hd Hs Hk Hnext. unfold descend, Cursor_NextBranch in Hs. cbn [cur_Branches cur_BranchIndex cur_Node] in Hs.
  rewrite (slice_get_nat _ _ m) in Hs by by apply list_lookup_middle. cbn in Hs.
  destruct (cursorConstructor m) as [cursor|err] eqn:Hc.
  2:{ destruct t as [n' ts|e]; [by destruct Hm as (? & Hm & _); rewrite Hc in Hm|].
      cbn [unfolds] in Hm. rewrite Hc in Hm. injection Hm as <-. intros [|fuel] Hf; [simpl in Hf; lia|].
      simpl. by rewrite Hs. }
  rewrite Nat.add_succ_l. apply (leads_turn _ _ _ _ _ Hs).
  specialize (Ht m cursor st (rest ++ [mkCursor n (pre ++ m :: ns) (S (length pre))]) Hc Hm Hd).
  destruct (walk t st) as [st'|st' e] eqn:Hw; [|eapply leads_stop; [exact Ht|lia]].
  apply (leads_seq _ _ _ _ _ _ _ Ht). destruct (vh_done st'.1) eqn:Hd'.
  - intros [|fuel] Hf; [lia|]. simpl. by rewrite deque_PopBack_snoc, Hd'.
  - apply Hnext; [done|]. by eapply walk_clear.
Qed.

Lemma run_branches n ns ts : Forall below ts -> forall pre ms st rest,
  ns = pre ++ ms -> pre <> [] -> pointwise unfolds ts ms -> vh_done st.1 = false -> vh_consumed st.1 = false ->
  leads (S (foldr (fun t k => S (cost t) + k) 0 ts)) (rest ++ [mkCursor n ns (length pre)], st) rest
    (branches walk n false ts st).
Proof using Type.
  induction 1 as [|t ts Ht _ IH]; intros pre ms st rest -> Hpre Hms Hd Hc.
  all: assert (Hfirst : (length pre =? 0) = false) by (destruct pre; [done|reflexivity]).
  all: destruct ms as [|m ms]; try done.
  - apply leads_resume; [lia|]. unfold Generic_step, Cursor_IsFirstVisit, Cursor_HasNext.
    rewrite deque_PopBack_snoc, Hd. cbn [cur_Node cur_Branches cur_BranchIndex]. rewrite Hfirst.
    by rewrite app_nil_r, Nat.ltb_irrefl.
  - destruct Hms as [Hm Hms].
    assert (Hstep : step (rest ++ [mkCursor n (pre ++ m :: ms) (length pre)], st) =
      match check (visitor_Visit visitor n st) with
      | Stop st3 e => inr (Done (st3, e))
      | Go st3 =>
          let '(consumed', st4) := WasConsumed st3 in
          if consumed' then resume rest (leave visitor n st4)
          else descend cursorConstructor (mkCursor n (pre ++ m :: ms) (length pre)) rest st4
      end).
    { unfold Generic_step, Cursor_IsFirstVisit, Cursor_HasNext. rewrite deque_PopBack_snoc, Hd.
      cbn [cur_Node cur_Branches cur_BranchIndex]. rewrite Hfirst.
      assert (length pre <? length (pre ++ m :: ms) = true) as -> by (apply Nat.ltb_lt; rewrite length_app; simpl; lia).
      cbn [negb]. by rewrite (WasConsumed_clear st Hc). }
    cbn [branches]. destruct (check (visitor_Visit visitor n st)) as [st3|st3 e] eqn:Hchk.
    2:{ apply leads_resume; [lia|]. by rewrite Hstep. }
    apply check_Go in Hchk as [-> Hd3]. set (st3 := visitor_Visit visitor n st) in *.
    destruct (vh_consumed st3.1) eqn:Hc3.
    { apply leads_resume; [lia|]. rewrite Hstep. unfold WasConsumed, handler_WasConsumed. by rewrite Hc3. }
    rewrite (WasConsumed_clear st3 Hc3) in Hstep. cbn [negb andb foldr].
    rewrite <- Nat.add_succ_r. eapply run_descend; [done..|lia|]. intros st' Hd' Hc'.
    change (S (length pre)) with (1 + length pre). rewrite Nat.add_comm.
    pose proof (IH (pre ++ [m]) ms st' rest) as Hrest. rewrite length_app in Hrest. apply Hrest; try done.
    + by rewrite <- app_assoc.
    + by destruct pre.
Qed.

Lemma run_tree t : below t.
Proof using Type.
  induction t as [n ts IH|e] using tree_rect_nested; intros node cursor st rest Hnode Hu Hd.
  2:{ cbn [unfolds] in Hu. by rewrite Hnode in Hu. }
  destruct Hu as (ns & Hc & Hns). rewrite Hnode in Hc. injection Hc as ->.
  assert (Hstep : step (rest ++ [mkCursor n ns 0], st) =
    match check (visitor_Enter visitor n st) with
    | Stop st1 e => inr (Done (st1, e))
    | Go st1 =>
        if negb (0 <? length ns) then resume rest (leave visitor n st1)
        else let '(consumed, st2) := WasConsumed st1 in
             if consumed then resume rest (leave visitor n st2)
             else descend cursorConstructor (mkCursor n ns 0) rest st2
    end).
  { unfold Generic_step. rewrite deque_PopBack_snoc, Hd. reflexivity. }
  cbn [walk cost]. destruct (check (visitor_Enter visitor n st)) as [st1|st1 e] eqn:Hchk.
  2:{ apply leads_resume; [lia|]. by rewrite Hstep. }
  apply check_Go in Hchk as [-> Hd1]. set (st1 := visitor_Enter visitor n st) in *.
  destruct ts as [|t ts], ns as [|m ns]; try done.
  { apply leads_resume; [lia|]. by rewrite Hstep. }
  destruct (vh_consumed st1.1) eqn:Hc1.
  { apply leads_resume; [lia|]. rewrite Hstep. unfold WasConsumed, handler_WasConsumed. by rewrite Hc1. }
  rewrite (WasConsumed_clear st1 Hc1) in Hstep. destruct Hns as [Hm Hns]. inversion IH; subst.
  cbn [foldr branches negb andb]. rewrite <- Nat.add_succ_r.
  apply (run_descend n [] m ns); try done; [lia|]. intros st' Hd' Hc'.
  by apply (run_branches n (m :: ns) ts ltac:(done) [m] ns).
Qed.
End spec.

Fixpoint intact (t : tree) : bool :=
  match t with Tree _ ts => forallb intact ts | Broken _ => false end.

(** The nodes at which a visitor of each order is called. *)
Fixpoint between (n : N) (ls : list (list N)) : list N :=
  match ls with
  | [] => []
  | [l] => l
  | l :: ls' => l ++ n :: between n ls'
  end.

Fixpoint visits (order : Order) (t : tree) : list N :=
  match t with
  | Broken _ => []
  | Tree n ts =>
      let ls := visits order <$> ts in
      match order with
      | OrderPrefix => n :: concat ls
      | OrderInfix => between n ls
      | OrderPostfix => concat ls ++ [n]
      end
  end.

Section folds.
Variable g : N -> St -> St.

Definition folding (order : Order) : Visitor :=
  NewSimpleVisitorWithOrder order (fun n st => (st.1, g n st.2)).

Notation fold := (foldl (fun s n => g n s)).

Lemma branches_fold order n ts : 
  Forall (fun t => intact t = true -> forall s, walk (folding order) t (NewCancelableErrorHandler, s) =
    Go (NewCancelableErrorHandler, fold s (visits order t))) ts ->
  forallb intact ts = true -> forall first s,
  branches (folding order) (walk (folding order)) n first ts (NewCancelableErrorHandler, s) =
    Go (NewCancelableErrorHandler,
        fold s (match order with
                | OrderPrefix => concat (visits order <$> ts)
                | OrderInfix => match first, ts with
                                | false, _ :: _ => n :: between n (visits order <$> ts)
                                | _, _ => between n (visits order <$> ts)
                                end
                | OrderPostfix => concat (visits order <$> ts) ++ [n]
                end)).
Proof using Type.
  induction 1 as [|t ts Ht _ IH]; intros Hi first s.
  - by destruct first, order.
  - apply andb_true_iff in Hi as [Hit Hi]. cbn [branches fmap list_fmap].
    assert (Hvisit : (if first then Go (NewCancelableErrorHandler, s)
                      else check (visitor_Visit (folding order) n (NewCancelableErrorHandler, s))) =
                     Go (NewCancelableErrorHandler, if first then s else if Order_eqb order OrderInfix then g n s else s)).
    { by destruct first, order. }
    rewrite Hvisit. cbn [fst vh_consumed NewCancelableErrorHandler]. rewrite andb_false_r, Ht by done. cbn [fst vh_done].
    change (mkHandler false false None) with NewCancelableErrorHandler. rewrite IH by done.
    f_equal. f_equal. destruct first, order, ts; cbn; rewrite ?foldl_app, ?app_nil_r; try done.
    all: by rewrite ?foldl_app.
Qed.

Lemma walk_fold order t : intact t = true -> forall s,
  walk (folding order) t (NewCancelableErrorHandler, s) = Go (NewCancelableErrorHandler, fold s (visits order t)).
Proof using Type.
  induction t as [n ts IH|e] using tree_rect_nested; intros Hi s; [|done]. cbn [intact] in Hi.
  pose proof (branches_fold order n ts IH Hi true) as Hb. cbn [walk visits].
  assert (check (visitor_Enter (folding order) n (NewCancelableErrorHandler, s)) =
          Go (NewCancelableErrorHandler, if Order_eqb order OrderPrefix then g n s else s)) as -> by by destruct order.
  destruct ts as [|t ts]; [by destruct order|]. cbn [fst vh_consumed NewCancelableErrorHandler].
  change (mkHandler false false None) with NewCancelableErrorHandler. rewrite Hb. by destruct order.
Qed.
End folds.

(** *** Prefix visitors that prune, stop and fail *)

Inductive action := Proceed | ConsumeNode | Finish | Fail (e : error).

Definition act (a : action) (h : cancelableVisitorHandler) : cancelableVisitorHandler :=
  match a with
  | Proceed => h
  | ConsumeNode => handler_Consume h
  | Finish => handler_SetDone h
  | Fail e => handler_SetError (Some e) h
  end.

Section scans.
Variable g : N -> St -> St * action.

Definition acting : N -> vstate -> vstate := fun n st => let '(s, a) := g n st.2 in (act a st.1, s).

(** A fold over the tree in prefix order; [Some] says that it has ended, and
    with which error. *)
Definition scan_all (rec : tree -> St -> St * option (option error)) : list tree -> St -> St * option (option error) :=
  fix go ts s :=
    match ts with
    | [] => (s, None)
    | t :: ts' => match rec t s with (s', None) => go ts' s' | ended => ended end
    end.

Fixpoint scan (t : tree) (s : St) : St * option (option error) :=
  match t with
  | Broken e => (s, Some (Some e))
  | Tree n ts =>
      let '(s', a) := g n s in
      match a with
      | Fail e => (s', Some (Some e))
      | Finish => (s', Some None)
      | ConsumeNode => (s', None)
      | Proceed => scan_all scan ts s'
      end
  end.

(** The walk agrees with the scan [r]. *)
Definition agrees (f : flow) (r : St * option (option error)) : Prop :=
  match r with
  | (s, None) => f = Go (NewCancelableErrorHandler, s)
  | (s, Some e) => exists h, f = Stop (h, s) e
  end.

Lemma branches_scan n ts :
  Forall (fun t => forall s, agrees (walk (NewSimpleVisitor acting) t (NewCancelableErrorHandler, s)) (scan t s)) ts ->
  forall first s, agrees (branches (NewSimpleVisitor acting) (walk (NewSimpleVisitor acting)) n first ts
    (NewCancelableErrorHandler, s)) (scan_all scan ts s).
Proof using Type.
  induction 1 as [|t ts Ht _ IH]; intros first s; [done|]. cbn [branches scan_all].
  assert ((if first then Go (NewCancelableErrorHandler, s)
           else check (visitor_Visit (NewSimpleVisitor acting) n (NewCancelableErrorHandler, s))) =
          Go (NewCancelableErrorHandler, s)) as -> by by destruct first.
  cbn [fst vh_consumed NewCancelableErrorHandler]. rewrite andb_false_r. change (mkHandler false false None) with NewCancelableErrorHandler.
  specialize (Ht s). destruct (scan t s) as [s' [e|]]; simpl in Ht.
  - destruct Ht as [h ->]. by exists h.
  - rewrite Ht. cbn. apply IH.
Qed.

Lemma walk_scan t : forall s,
  agrees (walk (NewSimpleVisitor acting) t (NewCancelableErrorHandler, s)) (scan t s).
Proof using Type.
  induction t as [n ts IH|e] using tree_rect_nested; intros s; [|by eexists].
  pose proof (branches_scan n ts IH true) as Hb.
  cbn [walk scan NewSimpleVisitor NewSimpleVisitorWithOrder visitor_Enter Order_eqb]. unfold acting at 1. cbn [fst snd].
  destruct (g n s) as [s' []]; cbn [act].
  - cbn. change (mkHandler false false None) with NewCancelableErrorHandler. destruct ts; [done|apply Hb].
  - cbn. by destruct ts.
  - by eexists.
  - by eexists.
Qed.
End scans.
End walk.

Lemma Generic_walked {N St} (visitor : Visitor (N := N) (St := St)) cursorConstructor t node st fuel :
  unfolds cursorConstructor t node -> cost t < fuel ->
  Generic visitor cursorConstructor fuel node st = Done (walked visitor t st).
Proof.
  intros Hu Hf. unfold Generic, walked. destruct t as [n ts|e]; [|by cbn in Hu; rewrite Hu].
  pose proof Hu as (ns & Hc & _). rewrite Hc. destruct (vh_done st.1) eqn:Hd.
  { destruct fuel as [|fuel]; [lia|]. cbn [iterate Generic_step].
    by rewrite (deque_PopBack_snoc [] (mkCursor n ns 0) : deque_PopBack [mkCursor n ns 0] = _), Hd. }
  pose proof (run_tree visitor cursorConstructor (Tree n ts) node _ st [] Hc Hu Hd) as Hrun. rewrite app_nil_l in Hrun.
  destruct (walk visitor (Tree n ts) st) as [st'|st' e].
  - destruct Hrun as (j & Hj & Hgo). replace fuel with (j + S (fuel - j - 1)) by lia. rewrite Hgo. done.
  - by rewrite (Hrun fuel) by lia.
Qed.

(** [C29] The walk of a syntax tree is the recursive one: for every visitor, also
    one that consumes nodes, declares itself done or reports errors on entering,
    between branches or on leaving, and for every tree the cursor constructor
    unfolds, also one with a node it rejects, Generic ends within one turn per
    node and one per branch, and returns the state and the error of the walk by
    recursion on the tree. *)
Theorem Generic_refines {N St} (visitor : Visitor (N := N) (St := St)) cursorConstructor t node st fuel :
  unfolds cursorConstructor t node -> cost t < fuel ->
  Generic visitor cursorConstructor fuel node st = Done (walked visitor t st).
Proof. apply Generic_walked. Qed.

(** A simple visitor runs its function over the nodes in the order it was
    made for: before the branches, after them, or between each two of them; the
    walk of a tree without rejected nodes reports no error. *)
Theorem NewSimpleVisitorWithOrder_order {N St} (g : N -> St -> St) order cursorConstructor t node s fuel :
  unfolds cursorConstructor t node -> intact t = true -> cost t < fuel ->
  Generic (NewSimpleVisitorWithOrder order (fun n st => (st.1, g n st.2))) cursorConstructor fuel node
    (NewCancelableErrorHandler, s) =
  Done ((NewCancelableErrorHandler, foldl (fun s n => g n s) s (visits order t)), None).
Proof.
  intros Hu Hi Hf. rewrite (Generic_walked _ _ t) by done. unfold walked.
  destruct t as [n ts|e]; [|done]. cbn [fst vh_done NewCancelableErrorHandler].
  change (mkHandler false false None) with NewCancelableErrorHandler.
  pose proof (walk_fold g order (Tree n ts) Hi s) as Hw. unfold folding in Hw. by rewrite Hw.
Qed.

Lemma Generic_scan {N St} (g : N -> St -> St * action) cursorConstructor t node s fuel :
  unfolds cursorConstructor t node -> cost t < fuel ->
  exists h, Generic (NewSimpleVisitor (acting g)) cursorConstructor fuel node (NewCancelableErrorHandler, s) =
    Done ((h, (scan g t s).1), mjoin (scan g t s).2).
Proof.
  intros Hu Hf. rewrite (Generic_walked _ _ t) by done. unfold walked.
  destruct t as [n ts|e]; [|by eexists]. cbn [fst vh_done NewCancelableErrorHandler].
  change (mkHandler false false None) with NewCancelableErrorHandler.
  pose proof (walk_scan g (Tree n ts) s) as Hw. unfold agrees in Hw.
  destruct (scan g (Tree n ts) s) as [s' [e|]]; [destruct Hw as [h ->]; by exists h|rewrite Hw; by eexists].
Qed.

(** A prefix visitor sees the tree in prefix order without what lies below
    the nodes it consumes, up to the node at which it is done or fails: the walk
    returns the error it set there, or that of a rejected node, and no error
    otherwise. *)
Theorem NewSimpleVisitor_scan {N St} (g : N -> St -> St * action) cursorConstructor t node s fuel :
  unfolds cursorConstructor t node -> cost t < fuel ->
  exists h, Generic (NewSimpleVisitor (acting g)) cursorConstructor fuel node (NewCancelableErrorHandler, s) =
    Done ((h, (scan g t s).1), mjoin (scan g t s).2).
Proof. apply Generic_scan. Qed.

(** *** A concrete tree of numbers, in which 9 has no cursor *)

Definition demo_cursor (n : nat) : Cursor nat + error :=
  match n with
  | 0 => inl (mkCursor 0 [1; 4; 5] 0)
  | 1 => inl (mkCursor 1 [2; 3] 0)
  | 9 => inr (Errorf "unable to negotiate")
  | 5 => inl (mkCursor 5 [6; 9] 0)
  | n => inl (mkCursor n [] 0)
  end.

Definition demo_left : tree (N := nat) := Tree 1 [Tree 2 []; Tree 3 []].
Definition demo_tree : tree (N := nat) :=
  Tree 0 [demo_left; Tree 4 []; Tree 5 [Tree 6 []; Broken (Errorf "unable to negotiate")]].

(** Consumes 1, which prunes 2 and 3, and logs every node. *)
Definition demo_log (n : nat) (s : list nat) : list nat * action :=
  (s ++ [n], if n =? 1 then ConsumeNode else Proceed).

Lemma demo_unfolds : unfolds demo_cursor demo_tree 0.
Proof. cbn. repeat (try eexists; try split; try done). Qed.

Lemma Generic_refines_witness :
  Generic (NewSimpleVisitor (acting demo_log)) demo_cursor 20 0 (NewCancelableErrorHandler, []) =
  Done ((NewCancelableErrorHandler, [0; 1; 4; 5; 6]), Some (Errorf "unable to negotiate")).
Proof.
  rewrite (Generic_refines _ _ demo_tree); [reflexivity|exact demo_unfolds|cbn; lia].
Defined.

Lemma NewSimpleVisitorWithOrder_order_witness :
  Generic (NewSimpleVisitorWithOrder OrderInfix (fun n st => (st.1, st.2 ++ [n]))) demo_cursor 9 1
    (NewCancelableErrorHandler, []) =
  Done ((NewCancelableErrorHandler, [1]), None).
Proof.
  apply (NewSimpleVisitorWithOrder_order (fun n s => s ++ [n]) OrderInfix demo_cursor demo_left 1 [] 9);
    [cbn; repeat (try eexists; try split; try done)|reflexivity|cbn; lia].
Defined.

Lemma NewSimpleVisitor_scan_witness :
  exists h, Generic (NewSimpleVisitor (acting demo_log)) demo_cursor 20 0 (NewCancelableErrorHandler, []) =
    Done ((h, [0; 1; 4; 5; 6]), Some (Errorf "unable to negotiate")).
Proof.
  apply (NewSimpleVisitor_scan demo_log demo_cursor demo_tree 0 [] 20); [exact demo_unfolds|cbn; lia].
Defined.
