(* ===== verification/WalkTree.v ===== *)
(** * Walks of a syntax (cypher/models/walk)

    What a syntax owes to the walk is a [Syntax] instance: the branches of each
    node, or the error of a node that has no cursor, and a weight that grows from
    a branch to its node.  Then the cursor constructor unfolds a finite tree
    ([tree_of]), a walk with one turn per node and one per branch ends, and the
    usual visitors have closed forms: one that looks for a node, one that
    collects from all of them, one that enters and leaves them. *)

From S2P Require Import Prelude Framing Walk.

Class Syntax (N : Type) := {
  branches_of : N -> list N + error;
  weight_of : N -> nat;
  branch_lighter : forall n bs b, branches_of n = inl bs -> b ∈ bs -> weight_of b < weight_of n;
}.

Section syntax.
Context {N : Type} `{Syntax N}.

Definition cursor_of (node : N) : Cursor N + error :=
  match branches_of node with inl bs => inl (mkCursor node bs 0) | inr err => inr err end.

(** ** The tree of a node *)

Fixpoint unfold_tree (fuel : nat) (n : N) : tree (N := N) :=
  match fuel with
  | 0 => Broken (Errorf "")
  | S fuel' =>
      match branches_of n with
      | inl bs => Tree n (unfold_tree fuel' <$> bs)
      | inr err => Broken err
      end
  end.

Definition tree_of (n : N) : tree (N := N) := unfold_tree (S (weight_of n)) n.

Lemma unfold_tree_enough fuel : forall fuel' n,
  weight_of n < fuel -> weight_of n < fuel' -> unfold_tree fuel n = unfold_tree fuel' n.
Proof using Type.
  induction fuel as [|fuel IH]; intros [|fuel'] n Hf Hf'; try lia. cbn [unfold_tree].
  destruct (branches_of n) as [bs|] eqn:Hb; [|done]. f_equal. apply list_fmap_ext. intros i b Hi.
  apply list_elem_of_lookup_2 in Hi. pose proof (branch_lighter _ _ _ Hb Hi). apply IH; lia.
Qed.

(** The tree of a node is the node over the trees of its branches. *)
Lemma tree_of_eq n :
  tree_of n = match branches_of n with inl bs => Tree n (tree_of <$> bs) | inr err => Broken err end.
Proof using Type.
  unfold tree_of at 1. cbn [unfold_tree]. destruct (branches_of n) as [bs|] eqn:Hb; [|done]. f_equal. apply list_fmap_ext.
  intros i b Hi. apply list_elem_of_lookup_2 in Hi. pose proof (branch_lighter _ _ _ Hb Hi). apply unfold_tree_enough; lia.
Qed.

(** Induction over the branches. *)
Lemma syntax_ind (P : N -> Prop) :
  (forall n, (forall bs, branches_of n = inl bs -> forall b, b ∈ bs -> P b) -> P n) -> forall n, P n.
Proof using Type.
  intros Hstep n. remember (weight_of n) as w eqn:Hw. revert n Hw. induction (lt_wf w) as [w _ IH]. intros n ->.
  apply Hstep. intros bs Hb b Hin. eapply IH; [|done]. by eapply branch_lighter.
Qed.

Lemma tree_of_unfolds n : unfolds cursor_of (tree_of n) n.
Proof using Type.
  induction n as [n IH] using syntax_ind. rewrite tree_of_eq. unfold cursor_of.
  destruct (branches_of n) as [bs|] eqn:Hb; cbn [unfolds]; rewrite Hb; [|done]. exists bs. split; [done|].
  specialize (IH bs eq_refl). clear Hb. induction bs as [|b bs IHbs]; [done|]. cbn. split; [apply IH; by left|].
  apply IHbs. intros b' Hb'. apply IH. by right.
Qed.

(** The walk meets no node without a cursor. *)
Definition walkable (n : N) : bool := intact (tree_of n).

Lemma walkable_branches n : walkable n = true -> exists bs, branches_of n = inl bs /\ forall b, b ∈ bs -> walkable b = true.
Proof using Type.
  unfold walkable. rewrite tree_of_eq. destruct (branches_of n) as [bs|] eqn:Hb; [|done]. cbn [intact]. intros Hi.
  exists bs. split; [done|]. intros b Hin. rewrite forallb_forall in Hi. apply Hi, list_elem_of_In, list_elem_of_fmap. by exists b.
Qed.

Lemma branches_walkable n bs : branches_of n = inl bs -> (forall b, b ∈ bs -> walkable b = true) -> walkable n = true.
Proof using Type.
  intros Hb Hall. unfold walkable. rewrite tree_of_eq, Hb. cbn [intact]. apply forallb_forall. intros t Ht.
  apply list_elem_of_In, list_elem_of_fmap in Ht as (b & -> & Hin). by apply Hall.
Qed.

(** The node and everything below it, in prefix order. *)
Definition nodes (n : N) : list N := visits OrderPrefix (tree_of n).

Lemma nodes_eq n bs : branches_of n = inl bs -> nodes n = n :: concat (nodes <$> bs).
Proof using Type. intros Hb. unfold nodes at 1. rewrite tree_of_eq, Hb. cbn [visits]. by rewrite <- list_fmap_compose. Qed.

(** ** The walk *)

Definition run_walk {St} (visitor : Visitor (N := N) (St := St)) (node : N) (s : St) : St * option error :=
  match Generic visitor cursor_of (S (cost (tree_of node))) node (NewCancelableErrorHandler, s) with
  | Done (st, err) => (st.2, err)
  | _ => (s, None)
  end.

Lemma run_walked {St} (visitor : Visitor (N := N) (St := St)) node s :
  run_walk visitor node s =
  let '(st, err) := walked visitor (tree_of node) (NewCancelableErrorHandler, s) in (st.2, err).
Proof using Type.
  unfold run_walk. rewrite (Generic_walked _ _ (tree_of node)); [|apply tree_of_unfolds|lia].
  by destruct (walked visitor (tree_of node) (NewCancelableErrorHandler, s)).
Qed.

Lemma run_scan {St} (g : N -> St -> St * action) node s :
  run_walk (NewSimpleVisitor (acting g)) node s =
  ((scan g (tree_of node) s).1, mjoin (scan g (tree_of node) s).2).
Proof using Type.
  unfold run_walk. destruct (Generic_scan g cursor_of (tree_of node) node s (S (cost (tree_of node)))) as [h ->];
    [apply tree_of_unfolds|lia|done].
Qed.

(** *** Looking for a node *)

Section finders.
Variable p : N -> bool.

(** Ends the walk at the first node with [p]. *)
Definition finder (n : N) (found : bool) : bool * action := if p n then (true, Finish) else (found, Proceed).

Definition find_result (b : bool) : bool * option (option error) := if b then (true, Some None) else (false, None).

Lemma scan_all_finder ts :
  Forall (fun t => scan finder t false = find_result (existsb p (visits OrderPrefix t))) ts ->
  scan_all (scan finder) ts false = find_result (existsb p (concat (visits OrderPrefix <$> ts))).
Proof using Type.
  induction 1 as [|t ts Ht _ IH]; [done|]. cbn [scan_all fmap list_fmap concat]. rewrite Ht, existsb_app.
  by destruct (existsb p (visits OrderPrefix t)).
Qed.

Lemma scan_finder t : intact t = true -> scan finder t false = find_result (existsb p (visits OrderPrefix t)).
Proof using Type.
  induction t as [n ts IH|e] using tree_rect_nested; [|done]. cbn [intact scan visits]. intros Hi. unfold finder at 1. cbn [existsb].
  destruct (p n); [done|]. cbn [orb]. apply scan_all_finder. rewrite forallb_forall in Hi.
  rewrite Forall_forall in IH |- *. intros t Ht. apply IH; [done|]. by apply Hi, list_elem_of_In.
Qed.

Lemma finder_nodes n : walkable n = true -> run_walk (NewSimpleVisitor (acting finder)) n false = (existsb p (nodes n), None).
Proof using Type. intros Hw. rewrite run_scan, scan_finder by done. unfold nodes. by destruct (existsb p _). Qed.
End finders.

(** *** Collecting from every node *)

Section collectors.
Context {St : Type}.
Variable g : N -> St -> St.

Definition collector (n : N) (s : St) : St * action := (g n s, Proceed).

Lemma scan_collector t : intact t = true -> forall s,
  scan collector t s = (foldl (fun s n => g n s) s (visits OrderPrefix t), None).
Proof using Type.
  induction t as [n ts IH|e] using tree_rect_nested; [|done]. cbn [intact scan visits]. intros Hi s. cbn [foldl collector].
  generalize (g n s). clear s. induction IH as [|t ts Ht _ IHts]; intros s; [done|]. cbn in Hi. apply andb_true_iff in Hi as [Hi1 Hi2].
  cbn [scan_all fmap list_fmap concat]. rewrite Ht by done. rewrite IHts by done. by rewrite foldl_app.
Qed.

Lemma collector_nodes n s : walkable n = true ->
  run_walk (NewSimpleVisitor (acting collector)) n s = (foldl (fun s n => g n s) s (nodes n), None).
Proof using Type. intros Hw. by rewrite run_scan, scan_collector. Qed.
End collectors.

(** *** Entering and leaving every node *)

Section brackets.
Context {St : Type}.
Variables enter exit : N -> St -> St.

Definition bracketing : Visitor (N := N) (St := St) :=
  mkVisitor (fun n st => (st.1, enter n st.2)) (fun _ st => st) (fun n st => (st.1, exit n st.2)).

Fixpoint bracket (t : tree (N := N)) (s : St) : St :=
  match t with
  | Broken _ => s
  | Tree n ts => exit n (foldl (fun s t => bracket t s) (enter n s) ts)
  end.

Lemma branches_bracket n ts :
  Forall (fun t => intact t = true -> forall s,
    walk bracketing t (NewCancelableErrorHandler, s) = Go (NewCancelableErrorHandler, bracket t s)) ts ->
  forallb intact ts = true -> forall first s,
  branches bracketing (walk bracketing) n first ts (NewCancelableErrorHandler, s) =
  Go (NewCancelableErrorHandler, exit n (foldl (fun s t => bracket t s) s ts)).
Proof using Type.
  induction 1 as [|t ts Ht _ IH]; intros Hi first s; [done|]. cbn in Hi. apply andb_true_iff in Hi as [Hit Hi].
  cbn [branches foldl].
  assert ((if first then Go (NewCancelableErrorHandler, s)
           else check (visitor_Visit bracketing n (NewCancelableErrorHandler, s))) = Go (NewCancelableErrorHandler, s))
    as -> by by destruct first.
  cbn [fst vh_consumed NewCancelableErrorHandler]. rewrite andb_false_r. change (mkHandler false false None) with NewCancelableErrorHandler.
  rewrite Ht by done. cbn [fst vh_done]. by apply IH.
Qed.

Lemma walk_bracket t : intact t = true -> forall s,
  walk bracketing t (NewCancelableErrorHandler, s) = Go (NewCancelableErrorHandler, bracket t s).
Proof using Type.
  induction t as [n ts IH|e] using tree_rect_nested; [|done]. intros Hi s. cbn [intact] in Hi.
  pose proof (branches_bracket n ts IH Hi true (enter n s)) as Hb. cbn [walk bracket visitor_Enter bracketing].
  cbn [check fst snd vh_err vh_done vh_consumed NewCancelableErrorHandler]. destruct ts; [done|]. apply Hb.
Qed.

(** A node without a cursor ends the walk with its error. *)
Lemma branches_bracket_broken n ts :
  Forall (fun t => (intact t = true -> forall s,
      walk bracketing t (NewCancelableErrorHandler, s) = Go (NewCancelableErrorHandler, bracket t s)) /\
    (intact t = false -> forall s, exists st e, walk bracketing t (NewCancelableErrorHandler, s) = Stop st (Some e))) ts ->
  forallb intact ts = false -> forall first s,
  exists st e, branches bracketing (walk bracketing) n first ts (NewCancelableErrorHandler, s) = Stop st (Some e).
Proof using Type.
  induction 1 as [|t ts [Ht Ht'] _ IH]; intros Hi first s; [done|]. cbn [forallb] in Hi. cbn [branches].
  assert ((if first then Go (NewCancelableErrorHandler, s)
           else check (visitor_Visit bracketing n (NewCancelableErrorHandler, s))) = Go (NewCancelableErrorHandler, s))
    as -> by by destruct first.
  cbn [fst vh_consumed NewCancelableErrorHandler]. rewrite andb_false_r. change (mkHandler false false None) with NewCancelableErrorHandler.
  destruct (intact t) eqn:Hit.
  - rewrite Ht by done. cbn [fst vh_done NewCancelableErrorHandler]. by apply IH.
  - destruct (Ht' eq_refl s) as (st & e & ->). by exists st, e.
Qed.

Lemma walk_bracket_broken t : intact t = false -> forall s,
  exists st e, walk bracketing t (NewCancelableErrorHandler, s) = Stop st (Some e).
Proof using Type.
  induction t as [n ts IH|e] using tree_rect_nested; intros Hi s; [|by eexists _, e]. cbn [intact] in Hi.
  assert (Hall : Forall (fun t => (intact t = true -> forall s,
      walk bracketing t (NewCancelableErrorHandler, s) = Go (NewCancelableErrorHandler, bracket t s)) /\
    (intact t = false -> forall s, exists st e, walk bracketing t (NewCancelableErrorHandler, s) = Stop st (Some e))) ts).
  { eapply Forall_impl; [exact IH|]. intros t Ht. split; [apply walk_bracket|done]. }
  destruct (branches_bracket_broken n ts Hall Hi true (enter n s)) as (st & e & Hb). exists st, e. cbn [walk visitor_Enter bracketing].
  cbn [check fst snd vh_err vh_done vh_consumed NewCancelableErrorHandler]. destruct ts; [done|]. apply Hb.
Qed.

Lemma run_bracket_broken n s : walkable n = false -> is_Some (run_walk bracketing n s).2.
Proof using Type.
  intros Hw. rewrite run_walked. unfold walked. unfold walkable in Hw.
  destruct (walk_bracket_broken (tree_of n) Hw s) as (st & e & Hb). destruct (tree_of n) as [m ts|e']; [|by eexists].
  cbn [fst vh_done NewCancelableErrorHandler]. change (mkHandler false false None) with NewCancelableErrorHandler. rewrite Hb. by eexists.
Qed.

Lemma run_bracket n s : walkable n = true -> run_walk bracketing n s = (bracket (tree_of n) s, None).
Proof using Type.
  intros Hw. rewrite run_walked. unfold walked. pose proof (walk_bracket (tree_of n) Hw s) as Hb. unfold walkable in Hw.
  destruct (tree_of n) as [m ts|e]; [|done]. cbn [fst vh_done NewCancelableErrorHandler].
  change (mkHandler false false None) with NewCancelableErrorHandler. by rewrite Hb.
Qed.
End brackets.
End syntax.
