(* ===== verification/CypherAst.v ===== *)
(** * The Cypher syntax tree and its walk (cypher/models/cypher/model.go, cypher/models/walk/walk_cypher.go)

    The types of the Cypher model with the fields that the optimizer reads.  A
    nil pointer or interface is [None]; an interface is never a typed nil pointer.
    [Expression] has a constructor for every type that the frontend puts into an
    expression, a shape that holds expressions is parametric in their type, and a
    node whose address is used as a map key carries it.

    [SyntaxNode] is what the walk negotiates.  The cursor constructor is total, a
    node is heavier than its branches together ([cypher_branches_weight]), so every walk
    ends and the collectors of the optimizer have closed forms. *)

From Stdlib Require Import Ascii.
From S2P Require Import Prelude Framing Walk WalkTree Kinds Digraph.

(** ** Tokens, operators and folding *)

Definition TokenLiteralAsterisk : string := "*".

Definition CountFunction : string := "count".
Definition RelationshipsFunction : string := "relationships".

Inductive QuantifierType := QuantifierTypeAll | QuantifierTypeAny | QuantifierTypeNone | QuantifierTypeSingle | QuantifierTypeInvalid.

Inductive Operator :=
| OperatorAdd | OperatorSubtract | OperatorMultiply | OperatorDivide | OperatorModulo | OperatorPowerOf
| OperatorEquals | OperatorRegexMatch | OperatorNotEquals | OperatorGreaterThan | OperatorGreaterThanOrEqualTo
| OperatorLessThan | OperatorLessThanOrEqualTo | OperatorStartsWith | OperatorEndsWith | OperatorContains | OperatorIn
| OperatorIs | OperatorIsNot | OperatorNot | OperatorAnd | OperatorOr | OperatorInvalid.

#[export] Instance CypherOperator_eq_dec : EqDecision Operator.
Proof. solve_decision. Defined.

Definition Operator_String (s : Operator) : string :=
  match s with
  | OperatorAdd => "+" | OperatorSubtract => "-" | OperatorMultiply => "*" | OperatorDivide => "/"
  | OperatorModulo => "%" | OperatorPowerOf => "^" | OperatorEquals => "=" | OperatorRegexMatch => "=~"
  | OperatorNotEquals => "<>" | OperatorGreaterThan => ">" | OperatorGreaterThanOrEqualTo => ">="
  | OperatorLessThan => "<" | OperatorLessThanOrEqualTo => "<=" | OperatorStartsWith => "starts with"
  | OperatorEndsWith => "ends with" | OperatorContains => "contains" | OperatorIn => "in" | OperatorIs => "is"
  | OperatorIsNot => "is not" | OperatorNot => "not" | OperatorAnd => "and" | OperatorOr => "or"
  | OperatorInvalid => ""
  end.

Definition lower (c : Ascii.ascii) : Ascii.ascii :=
  let n := Ascii.nat_of_ascii c in if (65 <=? n) && (n <=? 90) then Ascii.ascii_of_nat (n + 32) else c.

(** [strings.EqualFold] against an ASCII word: besides the letters of the other
    case, the long s folds to s and the Kelvin sign to k. *)
Fixpoint fold_case (s : string) : string :=
  match s with
  | String "197"%char (String "191"%char s') => String "s"%char (fold_case s')
  | String "226"%char (String "132"%char (String "170"%char s')) => String "k"%char (fold_case s')
  | String c s' => String (lower c) (fold_case s')
  | EmptyString => EmptyString
  end.

Definition EqualFold (s t : string) : bool := bool_decide (fold_case s = fold_case t).

(** ** Expressions *)

(** Of the value of a literal: a signed integer, a string, or something else. *)
Inductive literal_value := IntValue (z : Z) | StringValue (s : string) | OtherValue.

Record PatternRange := mkPatternRange {
  range_StartIndex : option Z;
  range_EndIndex : option Z;
}.

Section shapes.
Context {E : Type}.

Record NodePattern := mkNodePattern {
  np_Variable : option string;
  np_Kinds : list Kind;
  np_Properties : option E;
}.

Record RelationshipPattern := mkRelationshipPattern {
  rp_Variable : option string;
  rp_Kinds : list Kind;
  rp_Direction : Direction;
  rp_Range : option PatternRange;
  rp_Properties : option E;
}.

Inductive PatternElement :=
| NodeElement (nodePattern : NodePattern)
| RelationshipElement (relationshipPattern : RelationshipPattern)
| OtherElement (element : option E).

Record PatternPart := mkPatternPart {
  pp_addr : nat;
  pp_Variable : option string;
  pp_ShortestPathPattern : bool;
  pp_AllShortestPathsPattern : bool;
  pp_PatternElements : list (option PatternElement);
  pp_PathDirectionReversed : bool;
}.

Record IDInCollection := mkIDInCollection {
  ic_Variable : option string;
  ic_Expression : option E;
}.

Record FilterExpression := mkFilterExpression {
  fe_Specifier : option IDInCollection;
  fe_Where : option (list (option E));
}.
End shapes.

Arguments NodePattern E : clear implicits.
Arguments RelationshipPattern E : clear implicits.
Arguments PatternElement E : clear implicits.
Arguments PatternPart E : clear implicits.
Arguments IDInCollection E : clear implicits.
Arguments FilterExpression E : clear implicits.

(** The entries of a map literal are listed in the order of their keys, which is
    the order [ForEachItem] visits them in. *)
Inductive Expression :=
| EVariable (symbol : string)
| ELiteral (value : literal_value) (null : bool)
| EParameter (symbol : string)
| EPropertyLookup (atom : option Expression) (symbol : string)
| EKindMatcher (reference : option Expression) (kinds : list Kind) (isExclusive : bool)
| EMapLiteral (items : list (string * option Expression))
| EProperties (map : list (string * option Expression)) (parameter : option string)
| EListLiteral (expressions : list (option Expression))
| EFunctionInvocation (distinct : bool) (namespace : list string) (name : string) (arguments : list (option Expression))
| EParenthetical (expression : option Expression)
| EQuantifier (addr : nat) (type : QuantifierType) (filter : option (FilterExpression Expression))
| ERangeQuantifier (value : string)
| ENegation (expression : option Expression)
| EConjunction (expressions : list (option Expression))
| EDisjunction (expressions : list (option Expression))
| EExclusiveDisjunction (expressions : list (option Expression))
| EArithmeticExpression (left : option Expression) (partials : list (Operator * option Expression))
| EComparison (left : option Expression) (partials : list (Operator * option Expression))
| EUnaryAddOrSubtractExpression (operator : Operator) (right : option Expression)
| EPatternPredicate (addr : nat) (elements : list (option (PatternElement Expression)))
| EProjectionItem (expression : option Expression) (alias : option string)
| EOtherExpression (type_name : string).

(** ** Clauses and queries *)

Definition Where : Type := list (option Expression).

Record Match := mkMatch {
  match_Optional : bool;
  match_Pattern : list (option (PatternPart Expression));
  match_Where : option Where;
}.

Record Unwind := mkUnwind {
  unwind_Expression : option Expression;
  unwind_Variable : option string;
}.

(** A clause is a pointer: two clauses are the same when their addresses are. *)
Record ReadingClause := mkReadingClause {
  clause_addr : nat;
  clause_Match : option Match;
  clause_Unwind : option Unwind;
}.

Record SortItem := mkSortItem {
  si_Ascending : bool;
  si_Expression : option Expression;
}.

Definition Order : Type := list (option SortItem).

(** [Order], [Skip] and [Limit] are pointers; the last two hold a value. *)
Record Projection := mkProjection {
  pj_Distinct : bool;
  pj_All : bool;
  pj_Order : option Order;
  pj_Skip : option (option Expression);
  pj_Limit : option (option Expression);
  pj_Items : list (option Expression);
}.

Record With := mkWith {
  with_Projection : option Projection;
  with_Where : option Where;
}.

Record Return := mkReturn {
  return_Projection : option Projection;
}.

Record RemoveItem := mkRemoveItem {
  ri_KindMatcher : option (option Expression * list Kind);
  ri_Property : option Expression;
}.

Record SetItem := mkSetItem {
  set_Left : option Expression;
  set_Right : option Expression;
}.

Record MergeAction := mkMergeAction {
  ma_Set : option (list (option SetItem));
}.

Inductive UpdatingClause :=
| Create (pattern : list (option (PatternPart Expression)))
| Delete (expressions : list (option Expression))
| Remove (items : list (option RemoveItem))
| Set_ (items : list (option SetItem))
| Merge (patternPart : option (PatternPart Expression)) (mergeActions : list (option MergeAction))
| NoClause.

Record MultiPartQueryPart := mkMultiPartQueryPart {
  mp_ReadingClauses : list (option ReadingClause);
  mp_UpdatingClauses : list (option UpdatingClause);
  mp_With : option With;
}.

Record SinglePartQuery := mkSinglePartQuery {
  sp_ReadingClauses : list (option ReadingClause);
  sp_UpdatingClauses : list (option UpdatingClause);
  sp_Return : option Return;
}.

Record MultiPartQuery := mkMultiPartQuery {
  mq_Parts : list (option MultiPartQueryPart);
  mq_SinglePartQuery : option SinglePartQuery;
}.

Record SingleQuery := mkSingleQuery {
  sq_SinglePartQuery : option SinglePartQuery;
  sq_MultiPartQuery : option MultiPartQuery;
}.

(** A regular query is a pointer to one with a pointer to its single query. *)
Definition RegularQuery : Type := option (option SingleQuery).

(** ** Syntax nodes and their branches *)

Inductive SyntaxNode :=
| NExpression (expression : Expression)
| NMapItem (key : string) (value : option Expression)
| NOperator (operator : Operator)
| NPartialArithmeticExpression (operator : Operator) (right : option Expression)
| NPartialComparison (operator : Operator) (right : option Expression)
| NIDInCollection (specifier : IDInCollection Expression)
| NFilterExpression (filter : FilterExpression Expression)
| NWhere (where_ : Where)
| NPatternElement (element : PatternElement Expression)
| NNodePattern (nodePattern : NodePattern Expression)
| NRelationshipPattern (relationshipPattern : RelationshipPattern Expression)
| NPatternPart (patternPart : PatternPart Expression)
| NMatch (match_ : Match)
| NUnwind (unwind : Unwind)
| NReadingClause (readingClause : ReadingClause)
| NSortItem (item : SortItem)
| NOrder (order : Order)
| NSkip (value : option Expression)
| NLimit (value : option Expression)
| NProjection (projection : Projection)
| NWith (with_ : With)
| NReturn (return_ : Return)
| NRemoveItem (item : RemoveItem)
| NSetItem (item : SetItem)
| NSet (items : list (option SetItem))
| NMergeAction (action : MergeAction)
| NClause (clause : UpdatingClause)
| NUpdatingClause (clause : UpdatingClause)
| NMultiPartQueryPart (part : MultiPartQueryPart)
| NSinglePartQuery (part : SinglePartQuery)
| NMultiPartQuery (query : MultiPartQuery)
| NSingleQuery (query : SingleQuery)
| NRegularQuery (query : option SingleQuery)
| NNil (type_name : string).

Definition unsupported (type_name : string) : error :=
  Errorf ("unable to negotiate cypher model type " +:+ type_name +:+ " into a translation cursor").

(** A field that is added to the branches unless it is nil. *)
Definition optional {A} (f : A -> SyntaxNode) (o : option A) : list SyntaxNode :=
  match o with Some a => [f a] | None => [] end.

(** The elements of a slice are all added, the nil ones too. *)
Definition element {A} (type_name : string) (f : A -> SyntaxNode) (o : option A) : SyntaxNode :=
  match o with Some a => f a | None => NNil type_name end.

Definition addCypherBranches {A} (type_name : string) (f : A -> SyntaxNode) (branches : list (option A)) : list SyntaxNode :=
  element type_name f <$> branches.

Definition expressions_ (es : list (option Expression)) : list SyntaxNode := addCypherBranches "<nil>" NExpression es.
Definition elements_ (es : list (option (PatternElement Expression))) : list SyntaxNode :=
  addCypherBranches "*cypher.PatternElement" NPatternElement es.
Definition parts_ (ps : list (option (PatternPart Expression))) : list SyntaxNode :=
  addCypherBranches "*cypher.PatternPart" NPatternPart ps.

Definition newCypherWalkCursorWithMapItems (items : list (string * option Expression)) : list SyntaxNode :=
  (fun kv => NMapItem kv.1 kv.2) <$> items.

Definition expression_branches (e : Expression) : list SyntaxNode + error :=
  match e with
  | ERangeQuantifier _ | EMapLiteral _ | EParameter _ | ELiteral _ _ | EVariable _ => inl []
  | EKindMatcher reference _ _ => inl (optional NExpression reference)
  | EPropertyLookup atom _ => inl (optional NExpression atom)
  | EProperties map parameter =>
      match parameter with
      | Some symbol => inl [NExpression (EParameter symbol)]
      | None => inl (newCypherWalkCursorWithMapItems map)
      end
  | EListLiteral expressions => inl (expressions_ expressions)
  | EFunctionInvocation _ _ _ arguments => inl (expressions_ arguments)
  | EParenthetical expression => inl (optional NExpression expression)
  | EQuantifier _ _ filter => inl (optional NFilterExpression filter)
  | ENegation expression => inl (optional NExpression expression)
  | EConjunction expressions => inl (expressions_ expressions)
  | EDisjunction expressions => inl (expressions_ expressions)
  | EExclusiveDisjunction expressions => inl (expressions_ expressions)
  | EArithmeticExpression l partials =>
      inl (optional NExpression l ++ ((fun p => NPartialArithmeticExpression p.1 p.2) <$> partials))
  | EComparison l partials =>
      inl (optional NExpression l ++ ((fun p => NPartialComparison p.1 p.2) <$> partials))
  | EUnaryAddOrSubtractExpression _ r => inl (optional NExpression r)
  | EPatternPredicate _ elements => inl (elements_ elements)
  | EProjectionItem expression _ => inl (optional NExpression expression)
  | EOtherExpression type_name => inr (unsupported type_name)
  end.

Definition clause_branches (c : UpdatingClause) : list SyntaxNode :=
  match c with
  | Create pattern => parts_ pattern
  | Delete expressions => expressions_ expressions
  | Remove items => addCypherBranches "*cypher.RemoveItem" NRemoveItem items
  | Set_ items => addCypherBranches "*cypher.SetItem" NSetItem items
  | Merge patternPart mergeActions =>
      optional NPatternPart patternPart ++ addCypherBranches "*cypher.MergeAction" NMergeAction mergeActions
  | NoClause => []
  end.

Definition query_part_branches (readingClauses : list (option ReadingClause)) (updatingClauses : list (option UpdatingClause))
    (last : list SyntaxNode) : list SyntaxNode :=
  addCypherBranches "*cypher.ReadingClause" NReadingClause readingClauses ++
  addCypherBranches "*cypher.UpdatingClause" NUpdatingClause updatingClauses ++ last.

Definition cypher_branches (node : SyntaxNode) : list SyntaxNode + error :=
  match node with
  | NExpression e => expression_branches e
  | NMapItem _ value => inl (optional NExpression value)
  | NOperator _ => inl []
  | NPartialArithmeticExpression operator r => inl (NOperator operator :: optional NExpression r)
  | NPartialComparison _ r => inl (optional NExpression r)
  | NIDInCollection specifier => inl (optional NExpression (ic_Expression specifier))
  | NFilterExpression filter => inl (optional NIDInCollection (fe_Specifier filter) ++ optional NWhere (fe_Where filter))
  | NWhere where_ => inl (expressions_ where_)
  | NPatternElement (NodeElement n) => inl [NNodePattern n]
  | NPatternElement (RelationshipElement r) => inl [NRelationshipPattern r]
  | NPatternElement (OtherElement e) => inl (optional NExpression e)
  | NNodePattern n => inl (optional NExpression (np_Properties n))
  | NRelationshipPattern r => inl (optional NExpression (rp_Properties r))
  | NPatternPart p => inl (elements_ (pp_PatternElements p))
  | NMatch m => inl (parts_ (match_Pattern m) ++ optional NWhere (match_Where m))
  | NUnwind u =>
      inl (optional NExpression (unwind_Expression u) ++ optional (fun v => NExpression (EVariable v)) (unwind_Variable u))
  | NReadingClause c => inl (optional NMatch (clause_Match c) ++ optional NUnwind (clause_Unwind c))
  | NSortItem item => inl (optional NExpression (si_Expression item))
  | NOrder order => inl (addCypherBranches "*cypher.SortItem" NSortItem order)
  | NSkip _ | NLimit _ => inl []
  | NProjection p =>
      inl (expressions_ (pj_Items p) ++ optional NOrder (pj_Order p) ++ optional NSkip (pj_Skip p) ++ optional NLimit (pj_Limit p))
  | NWith w => inl (optional NProjection (with_Projection w) ++ optional NWhere (with_Where w))
  | NReturn r => inl (optional NProjection (return_Projection r))
  | NRemoveItem item => inl (optional NExpression (ri_Property item))
  | NSetItem item => inl (optional NExpression (set_Left item) ++ optional NExpression (set_Right item))
  | NSet items => inl (addCypherBranches "*cypher.SetItem" NSetItem items)
  | NMergeAction a => inl (optional NSet (ma_Set a))
  | NClause c => inl (clause_branches c)
  | NUpdatingClause NoClause => inl []
  | NUpdatingClause c => inl [NClause c]
  | NMultiPartQueryPart p =>
      inl (query_part_branches (mp_ReadingClauses p) (mp_UpdatingClauses p) (optional NWith (mp_With p)))
  | NSinglePartQuery p =>
      inl (query_part_branches (sp_ReadingClauses p) (sp_UpdatingClauses p) (optional NReturn (sp_Return p)))
  | NMultiPartQuery q =>
      inl (addCypherBranches "*cypher.MultiPartQueryPart" NMultiPartQueryPart (mq_Parts q) ++
           optional NSinglePartQuery (mq_SinglePartQuery q))
  | NSingleQuery q =>
      inl (optional NSinglePartQuery (sq_SinglePartQuery q) ++ optional NMultiPartQuery (sq_MultiPartQuery q))
  | NRegularQuery q => inl (optional NSingleQuery q)
  | NNil type_name => inr (unsupported type_name)
  end.

Definition newCypherWalkCursor (node : SyntaxNode) : Cursor SyntaxNode + error :=
  match cypher_branches node with inl branches => inl (mkCursor node branches 0) | inr err => inr err end.

(** ** The weight of a node *)

(** An absent field weighs nothing; the nil element of a slice is a node. *)
Definition opt_weight {A} (w : A -> nat) (o : option A) : nat := match o with Some a => w a | None => 0 end.
Definition elem_weight {A} (w : A -> nat) (o : option A) : nat := match o with Some a => w a | None => 1 end.
Definition list_weight {A} (w : A -> nat) : list (option A) -> nat := sum_list_with (elem_weight w).

Section shape_weights.
Context {E : Type} (w : E -> nat).

Definition node_weight (n : NodePattern E) : nat := S (opt_weight w (np_Properties n)).
Definition relationship_weight (r : RelationshipPattern E) : nat := S (opt_weight w (rp_Properties r)).
Definition pattern_element_weight (e : PatternElement E) : nat :=
  match e with
  | NodeElement n => S (node_weight n)
  | RelationshipElement r => S (relationship_weight r)
  | OtherElement e => S (opt_weight w e)
  end.
Definition part_weight (p : PatternPart E) : nat := S (list_weight pattern_element_weight (pp_PatternElements p)).
Definition specifier_weight (i : IDInCollection E) : nat := S (opt_weight w (ic_Expression i)).
Definition filter_weight (f : FilterExpression E) : nat :=
  S (opt_weight specifier_weight (fe_Specifier f) + opt_weight (fun es => S (list_weight w es)) (fe_Where f)).
End shape_weights.

Fixpoint expression_weight (e : Expression) : nat :=
  let maybe := opt_weight expression_weight in
  let many := list_weight expression_weight in
  S (match e with
     | EVariable _ | ELiteral _ _ | EParameter _ | ERangeQuantifier _ | EMapLiteral _ | EOtherExpression _ => 0
     | EPropertyLookup atom _ => maybe atom
     | EKindMatcher reference _ _ => maybe reference
     | EProperties map parameter => 1 + sum_list_with (fun kv => S (maybe kv.2)) map
     | EListLiteral es | EConjunction es | EDisjunction es | EExclusiveDisjunction es | EFunctionInvocation _ _ _ es => many es
     | EParenthetical e | ENegation e | EUnaryAddOrSubtractExpression _ e | EProjectionItem e _ => maybe e
     | EQuantifier _ _ filter => opt_weight (filter_weight expression_weight) filter
     | EArithmeticExpression l partials => maybe l + sum_list_with (fun p => 2 + maybe p.2) partials
     | EComparison l partials => maybe l + sum_list_with (fun p => S (maybe p.2)) partials
     | EPatternPredicate _ elements => list_weight (pattern_element_weight expression_weight) elements
     end).

Notation w := expression_weight.

Definition where_weight (es : Where) : nat := S (list_weight w es).
Definition match_weight (m : Match) : nat := S (list_weight (part_weight w) (match_Pattern m) + opt_weight where_weight (match_Where m)).
Definition unwind_weight (u : Unwind) : nat := S (opt_weight w (unwind_Expression u) + opt_weight (fun _ => 1) (unwind_Variable u)).
Definition reading_weight (c : ReadingClause) : nat :=
  S (opt_weight match_weight (clause_Match c) + opt_weight unwind_weight (clause_Unwind c)).
Definition sort_weight (i : SortItem) : nat := S (opt_weight w (si_Expression i)).
Definition order_weight (o : Order) : nat := S (list_weight sort_weight o).
Definition projection_weight (p : Projection) : nat :=
  S (list_weight w (pj_Items p) + (opt_weight order_weight (pj_Order p) +
     (opt_weight (fun _ => 1) (pj_Skip p) + opt_weight (fun _ => 1) (pj_Limit p)))).
Definition with_weight (x : With) : nat :=
  S (opt_weight projection_weight (with_Projection x) + opt_weight where_weight (with_Where x)).
Definition return_weight (r : Return) : nat := S (opt_weight projection_weight (return_Projection r)).
Definition remove_weight (i : RemoveItem) : nat := S (opt_weight w (ri_Property i)).
Definition set_weight (i : SetItem) : nat := S (opt_weight w (set_Left i) + opt_weight w (set_Right i)).
Definition sets_weight (items : list (option SetItem)) : nat := S (list_weight set_weight items).
Definition merge_weight (a : MergeAction) : nat := S (opt_weight sets_weight (ma_Set a)).
Definition clause_weight (c : UpdatingClause) : nat :=
  S (match c with
     | Create pattern => list_weight (part_weight w) pattern
     | Delete es => list_weight w es
     | Remove items => list_weight remove_weight items
     | Set_ items => list_weight set_weight items
     | Merge part actions => opt_weight (part_weight w) part + list_weight merge_weight actions
     | NoClause => 0
     end).
Definition updating_weight (c : UpdatingClause) : nat := S (clause_weight c).
Definition multi_part_weight (p : MultiPartQueryPart) : nat :=
  S (list_weight reading_weight (mp_ReadingClauses p) + (list_weight updating_weight (mp_UpdatingClauses p) +
     opt_weight with_weight (mp_With p))).
Definition single_part_weight (p : SinglePartQuery) : nat :=
  S (list_weight reading_weight (sp_ReadingClauses p) + (list_weight updating_weight (sp_UpdatingClauses p) +
     opt_weight return_weight (sp_Return p))).
Definition multi_weight (q : MultiPartQuery) : nat :=
  S (list_weight multi_part_weight (mq_Parts q) + opt_weight single_part_weight (mq_SinglePartQuery q)).
Definition single_weight (q : SingleQuery) : nat :=
  S (opt_weight single_part_weight (sq_SinglePartQuery q) + opt_weight multi_weight (sq_MultiPartQuery q)).

Definition weight (n : SyntaxNode) : nat :=
  match n with
  | NExpression e => w e
  | NMapItem _ value => S (opt_weight w value)
  | NOperator _ | NSkip _ | NLimit _ | NNil _ => 1
  | NPartialArithmeticExpression _ r => 2 + opt_weight w r
  | NPartialComparison _ r => S (opt_weight w r)
  | NIDInCollection i => specifier_weight w i
  | NFilterExpression f => filter_weight w f
  | NWhere es => where_weight es
  | NPatternElement e => pattern_element_weight w e
  | NNodePattern n => node_weight w n
  | NRelationshipPattern r => relationship_weight w r
  | NPatternPart p => part_weight w p
  | NMatch m => match_weight m
  | NUnwind u => unwind_weight u
  | NReadingClause c => reading_weight c
  | NSortItem i => sort_weight i
  | NOrder o => order_weight o
  | NProjection p => projection_weight p
  | NWith x => with_weight x
  | NReturn r => return_weight r
  | NRemoveItem i => remove_weight i
  | NSetItem i => set_weight i
  | NSet items => sets_weight items
  | NMergeAction a => merge_weight a
  | NClause c => clause_weight c
  | NUpdatingClause c => updating_weight c
  | NMultiPartQueryPart p => multi_part_weight p
  | NSinglePartQuery p => single_part_weight p
  | NMultiPartQuery q => multi_weight q
  | NSingleQuery q => single_weight q
  | NRegularQuery q => S (opt_weight single_weight q)
  end.

Notation weights := (sum_list_with weight).

Lemma cypher_weights_app ns ns' : weights (ns ++ ns') = weights ns + weights ns'.
Proof. induction ns; cbn; lia. Qed.

Lemma weights_optional {A} (f : A -> SyntaxNode) o : weights (optional f o) = opt_weight (fun a => weight (f a)) o.
Proof. destruct o; cbn; lia. Qed.

Lemma weights_slice {A} t (f : A -> SyntaxNode) os : weights (addCypherBranches t f os) = list_weight (fun a => weight (f a)) os.
Proof. induction os as [|[a|] os IH]; cbn; [done|..]; unfold addCypherBranches, list_weight in IH; by rewrite IH. Qed.

Lemma weights_fmap {A} (f : A -> SyntaxNode) l : weights (f <$> l) = sum_list_with (fun a => weight (f a)) l.
Proof. induction l as [|a l IH]; cbn; [done|]. by rewrite IH. Qed.

(** A node is heavier than its branches together. *)
Lemma cypher_branches_weight n bs : cypher_branches n = inl bs -> weights bs < weight n.
Proof.
  intros Hb. destruct n as [[]| | | | | | | |[]| | | | | | | | | | | | | | | | | |[]|[]| | | | | |]; cbn [cypher_branches expression_branches] in Hb;
    repeat case_match; simplify_eq;
    unfold query_part_branches, clause_branches, expressions_, elements_, parts_, newCypherWalkCursorWithMapItems;
    rewrite ?cypher_weights_app, ?weights_optional, ?weights_slice, ?weights_fmap; try apply Nat.lt_succ_diag_r;
    cbn; rewrite ?weights_optional; unfold updating_weight, clause_weight; cbn; rewrite ?Nat.add_0_r; first [lia|apply Nat.lt_succ_diag_r].
Qed.

Lemma cypher_branch_weight n bs b : cypher_branches n = inl bs -> b ∈ bs -> weight b < weight n.
Proof.
  intros Hb%cypher_branches_weight Hin. enough (weight b <= weights bs) by lia. clear Hb. induction Hin; cbn; lia.
Qed.

#[export] Instance Cypher_Syntax : Syntax SyntaxNode :=
  {| branches_of := cypher_branches; weight_of := weight; branch_lighter := cypher_branch_weight |}.

(** ** walk.Cypher *)

Notation cypher_tree := (tree_of (N := SyntaxNode)).

Definition Cypher {St} (visitor : Visitor (N := SyntaxNode) (St := St)) (node : SyntaxNode) (s : St) : St * option error :=
  match Generic visitor newCypherWalkCursor (S (cost (cypher_tree node))) node (NewCancelableErrorHandler, s) with
  | Done (st, err) => (st.2, err)
  | _ => (s, None)
  end.

Lemma Cypher_run {St} (visitor : Visitor (N := SyntaxNode) (St := St)) node s : Cypher visitor node s = run_walk visitor node s.
Proof. done. Qed.
