(* ===== verification/Analysis.v ===== *)
(** * Analysis of reading clauses (cypher/models/pgsql/optimize/analysis.go)

    The optimizer splits the reading clauses of a query part into regions of
    plain [MATCH] clauses, separated by barriers, and collects what each clause
    binds and what its expressions refer to.  Dependencies are collected by the
    walk of [CypherAst]. *)

From S2P Require Import Prelude Framing Walk WalkTree Kinds Digraph CypherAst.

(** ** Variables *)

Definition sortedMapKeys (values : gset string) : list string := merge_sort String.le (elements values).

Definition sortedUniqueStrings (values : list string) : list string :=
  sortedMapKeys (list_to_set (filter (fun value => value <> "") values)).

Definition collect_variable (node : SyntaxNode) (dependencies : gset string) : gset string :=
  match node with
  | NExpression (EVariable symbol) =>
      if bool_decide (symbol <> "" /\ symbol <> TokenLiteralAsterisk) then {[symbol]} ∪ dependencies else dependencies
  | _ => dependencies
  end.

(** The error of the walk is dropped; what was collected until then is used. *)
Definition sortedDependencies (node : option SyntaxNode) : list string :=
  match node with
  | None => []
  | Some node => sortedMapKeys (Cypher (NewSimpleVisitor (acting (collector collect_variable))) node ∅).1
  end.

Definition expression_dependencies (expression : option Expression) : list string :=
  sortedDependencies (NExpression <$> expression).

(** ** What a clause binds and refers to *)

Inductive BindingKind := BindingKindNode | BindingKindRelationship | BindingKindPath.

Record Binding := mkBinding {
  bd_Symbol : string;
  bd_Kind : BindingKind;
  bd_ClauseIndex : nat;
  bd_PatternIndex : nat;
}.

Definition BindingKind_String (k : BindingKind) : string :=
  match k with
  | BindingKindNode => "node"
  | BindingKindRelationship => "relationship"
  | BindingKindPath => "path"
  end.

Definition bind_variable (variable : option string) (kind : BindingKind) (clauseIndex patternIndex : nat) : list Binding :=
  match variable with
  | Some symbol => if bool_decide (symbol = "") then [] else [mkBinding symbol kind clauseIndex patternIndex]
  | None => []
  end.

Definition bind_element (clauseIndex patternIndex : nat) (element : option (PatternElement Expression)) : list Binding :=
  match element with
  | Some (NodeElement n) => bind_variable (np_Variable n) BindingKindNode clauseIndex patternIndex
  | Some (RelationshipElement r) => bind_variable (rp_Variable r) BindingKindRelationship clauseIndex patternIndex
  | _ => []
  end.

Definition bind_pattern (clauseIndex patternIndex : nat) (pattern : option (PatternPart Expression)) : list Binding :=
  match pattern with
  | None => []
  | Some pattern =>
      bind_variable (pp_Variable pattern) BindingKindPath clauseIndex patternIndex ++
      concat (bind_element clauseIndex patternIndex <$> pp_PatternElements pattern)
  end.

Definition bindingsForMatch (clauseIndex : nat) (m : Match) : list Binding :=
  concat (imap (bind_pattern clauseIndex) (match_Pattern m)).

Definition bindingsForReadingClause (clauseIndex : nat) (readingClause : option ReadingClause) : list Binding :=
  match readingClause ≫= clause_Match with
  | None => []
  | Some m => bindingsForMatch clauseIndex m
  end.

Record Predicate := mkPredicate {
  pr_ClauseIndex : nat;
  pr_ExpressionIndex : nat;
  pr_Dependencies : list string;
}.

Definition predicatesForWhere (clauseIndex : nat) (where_ : option Where) : list Predicate :=
  match where_ with
  | None => []
  | Some expressions =>
      imap (fun expressionIndex expression => mkPredicate clauseIndex expressionIndex (expression_dependencies expression))
        expressions
  end.

Definition dependenciesForMatch (m : option Match) : list string :=
  match m with
  | None => []
  | Some m => sortedUniqueStrings (concat (pr_Dependencies <$> predicatesForWhere 0 (match_Where m)))
  end.

Definition dependenciesForReadingClause (readingClause : option ReadingClause) : list string :=
  match readingClause with
  | None => []
  | Some c =>
      match clause_Match c, clause_Unwind c with
      | Some m, _ => dependenciesForMatch (Some m)
      | None, Some u => expression_dependencies (unwind_Expression u)
      | None, None => []
      end
  end.

Definition element_dependencies (element : option (PatternElement Expression)) : list string :=
  match element with
  | Some (NodeElement n) => expression_dependencies (np_Properties n)
  | Some (RelationshipElement r) => expression_dependencies (rp_Properties r)
  | _ => []
  end.

Definition pattern_dependencies (pattern : option (PatternPart Expression)) : list string :=
  match pattern with
  | None => []
  | Some pattern => concat (element_dependencies <$> pp_PatternElements pattern)
  end.

Definition localMatchDependencies (m : option Match) : list string :=
  match m with
  | None => []
  | Some m =>
      sortedUniqueStrings (concat (pattern_dependencies <$> match_Pattern m) ++ dependenciesForMatch (Some m))
  end.

(** ** Path variables *)

Record PathVariable := mkPathVariable {
  pv_Symbol : string;
  pv_ClauseIndex : nat;
  pv_PatternIndex : nat;
  pv_NodeCount : nat;
  pv_RelationshipCount : nat;
  pv_VariableLength : bool;
  pv_Dependencies : list string;
}.

Definition named (variable : option string) : list string :=
  match variable with Some v => if bool_decide (v = "") then [] else [v] | None => [] end.

Definition element_symbols (element : option (PatternElement Expression)) : list string :=
  match element with
  | Some (NodeElement n) => named (np_Variable n)
  | Some (RelationshipElement r) => named (rp_Variable r)
  | _ => []
  end.

Definition patternDependencies (pattern : PatternPart Expression) : list string :=
  sortedUniqueStrings (concat (element_symbols <$> pp_PatternElements pattern)).

Definition count_element (p : PathVariable) (element : option (PatternElement Expression)) : PathVariable :=
  match element with
  | Some (NodeElement _) =>
      mkPathVariable (pv_Symbol p) (pv_ClauseIndex p) (pv_PatternIndex p) (S (pv_NodeCount p))
        (pv_RelationshipCount p) (pv_VariableLength p) (pv_Dependencies p)
  | Some (RelationshipElement r) =>
      mkPathVariable (pv_Symbol p) (pv_ClauseIndex p) (pv_PatternIndex p) (pv_NodeCount p)
        (S (pv_RelationshipCount p)) (pv_VariableLength p || bool_decide (is_Some (rp_Range r))) (pv_Dependencies p)
  | _ => p
  end.

Definition path_variable (clauseIndex patternIndex : nat) (pattern : option (PatternPart Expression)) : list PathVariable :=
  match pattern with
  | Some pattern =>
      match pp_Variable pattern with
      | Some symbol =>
          if bool_decide (symbol = "") then []
          else [foldl count_element (mkPathVariable symbol clauseIndex patternIndex 0 0 false (patternDependencies pattern))
                  (pp_PatternElements pattern)]
      | None => []
      end
  | None => []
  end.

Definition pathVariablesForMatch (clauseIndex : nat) (m : Match) : list PathVariable :=
  concat (imap (path_variable clauseIndex) (match_Pattern m)).

(** ** Merging: the first occurrence of a key stays *)

Definition merge_by {A} (key : A -> string) (existing next : list A) : list A :=
  (foldl (fun st x => if bool_decide (key x ∈ st.2) then st else (st.1 ++ [x], {[key x]} ∪ st.2))
     (existing, list_to_set (C := gset string) (key <$> existing)) next).1.

Definition bindingKey (binding : Binding) : string := BindingKind_String (bd_Kind binding) +:+ ":" +:+ bd_Symbol binding.

Definition mergeBindings (existing next : list Binding) : list Binding := merge_by bindingKey existing next.

Definition mergePathVariables (existing next : list PathVariable) : list PathVariable :=
  merge_by pv_Symbol existing next.

(** ** Regions and barriers *)

Inductive BarrierKind := BarrierKindReturn | BarrierKindWith | BarrierKindUnwind | BarrierKindOptionalMatch | BarrierKindUpdate.

Record Barrier := mkBarrier {
  ba_QueryPartIndex : nat;
  ba_ClauseIndex : nat;
  ba_Kind : BarrierKind;
  ba_Dependencies : list string;
}.

Record MatchClause := mkMatchClause {
  mc_Index : nat;
  mc_PatternCount : nat;
  mc_WherePredicates : nat;
}.

Record Region := mkRegion {
  rg_QueryPartIndex : nat;
  rg_StartClause : nat;
  rg_EndClause : nat;
  rg_Clauses : list MatchClause;
  rg_Bindings : list Binding;
  rg_BindingOccurrences : list Binding;
  rg_PathVariables : list PathVariable;
  rg_Predicates : list Predicate;
}.

Definition wherePredicateCount (where_ : option Where) : nat :=
  match where_ with None => 0 | Some expressions => length expressions end.

(** [regions], [barriers] and [currentRegion] of the loop. *)
Definition analysis_state : Type := (list Region * list Barrier * option Region)%type.

Definition closeRegion (s : analysis_state) : analysis_state :=
  let '(regions, barriers, currentRegion) := s in
  match currentRegion with
  | Some r => (regions ++ [r], barriers, None)
  | None => s
  end.

Definition add_barrier (b : Barrier) (s : analysis_state) : analysis_state :=
  let '(regions, barriers, currentRegion) := s in (regions, barriers ++ [b], currentRegion).

Definition extend_region (clauseIndex : nat) (m : Match) (r : Region) : Region :=
  let nextBindings := bindingsForMatch clauseIndex m in
  mkRegion (rg_QueryPartIndex r) (rg_StartClause r) clauseIndex
    (rg_Clauses r ++ [mkMatchClause clauseIndex (length (match_Pattern m)) (wherePredicateCount (match_Where m))])
    (mergeBindings (rg_Bindings r) nextBindings)
    (rg_BindingOccurrences r ++ nextBindings)
    (mergePathVariables (rg_PathVariables r) (pathVariablesForMatch clauseIndex m))
    (rg_Predicates r ++ predicatesForWhere clauseIndex (match_Where m)).

Definition analyze_turn (queryPartIndex : nat) (clauseIndex : nat) (readingClause : option ReadingClause)
    (s : analysis_state) : analysis_state :=
  match readingClause with
  | None => closeRegion s
  | Some c =>
      match clause_Unwind c, clause_Match c with
      | Some _, _ =>
          add_barrier (mkBarrier queryPartIndex clauseIndex BarrierKindUnwind (dependenciesForReadingClause (Some c)))
            (closeRegion s)
      | None, None => s
      | None, Some m =>
          if match_Optional m then
            add_barrier (mkBarrier queryPartIndex clauseIndex BarrierKindOptionalMatch (dependenciesForMatch (Some m)))
              (closeRegion s)
          else
            let '(regions, barriers, currentRegion) := s in
            let r := default (mkRegion queryPartIndex clauseIndex clauseIndex [] [] [] [] []) currentRegion in
            (regions, barriers, Some (extend_region clauseIndex m r))
      end
  end.

Fixpoint analyze_loop (queryPartIndex clauseIndex : nat) (readingClauses : list (option ReadingClause))
    (s : analysis_state) : analysis_state :=
  match readingClauses with
  | [] => s
  | c :: cs => analyze_loop queryPartIndex (S clauseIndex) cs (analyze_turn queryPartIndex clauseIndex c s)
  end.

Definition analyzeReadingClauses (queryPartIndex : nat) (readingClauses : list (option ReadingClause))
    : list Region * list Barrier :=
  (closeRegion (analyze_loop queryPartIndex 0 readingClauses ([], [], None))).1.

(** ** Query parts *)

Definition projectionDependencies (projection : option Projection) : list string :=
  match projection with
  | None => []
  | Some p =>
      sortedUniqueStrings (concat (expression_dependencies <$> pj_Items p) ++ sortedDependencies (NOrder <$> pj_Order p) ++
        sortedDependencies (NSkip <$> pj_Skip p) ++ sortedDependencies (NLimit <$> pj_Limit p))
  end.

Inductive QueryPartKind := QueryPartKindSingle | QueryPartKindMulti.

Record QueryPart := mkQueryPart {
  qp_Index : nat;
  qp_Kind : QueryPartKind;
  qp_Regions : list Region;
  qp_Barriers : list Barrier;
  qp_ProjectionDependencies : list string;
}.

Definition analyze_part (index : nat) (kind : QueryPartKind) (readingClauses : list (option ReadingClause))
    (updatingClauses : nat) (projection : option (option Projection)) (barrier : BarrierKind) : QueryPart :=
  let '(regions, barriers) := analyzeReadingClauses index readingClauses in
  let updates :=
    if 0 <? updatingClauses then [mkBarrier index (length readingClauses) BarrierKindUpdate []] else [] in
  let dependencies := match projection with Some p => projectionDependencies p | None => [] end in
  let projected :=
    match projection with
    | Some _ => [mkBarrier index (length readingClauses + updatingClauses) barrier dependencies]
    | None => []
    end in
  mkQueryPart index kind regions (barriers ++ updates ++ projected) dependencies.

Definition analyzeMultiPartQueryPart (index : nat) (part : option MultiPartQueryPart) : QueryPart :=
  match part with
  | None => mkQueryPart index QueryPartKindMulti [] [] []
  | Some p => analyze_part index QueryPartKindMulti (mp_ReadingClauses p) (length (mp_UpdatingClauses p))
      (with_Projection <$> mp_With p) BarrierKindWith
  end.

Definition analyzeSinglePartQuery (index : nat) (kind : QueryPartKind) (part : option SinglePartQuery) : QueryPart :=
  match part with
  | None => mkQueryPart index kind [] [] []
  | Some p => analyze_part index kind (sp_ReadingClauses p) (length (sp_UpdatingClauses p))
      (return_Projection <$> sp_Return p) BarrierKindReturn
  end.

Definition analyzeMultiPartQuery (query : MultiPartQuery) : list QueryPart :=
  imap analyzeMultiPartQueryPart (mq_Parts query) ++
  match mq_SinglePartQuery query with
  | Some p => [analyzeSinglePartQuery (length (mq_Parts query)) QueryPartKindSingle (Some p)]
  | None => []
  end.

Definition Analyze (query : RegularQuery) : list QueryPart :=
  match mjoin query with
  | None => []
  | Some q =>
      match sq_MultiPartQuery q, sq_SinglePartQuery q with
      | Some m, _ => analyzeMultiPartQuery m
      | None, Some p => [analyzeSinglePartQuery 0 QueryPartKindSingle (Some p)]
      | None, None => []
      end
  end.

(** ** Dependencies are the variables *)

Definition syntax_variable (node : SyntaxNode) : option string :=
  match node with NExpression (EVariable s) => Some s | _ => None end.

Lemma collected nodes (acc : gset string) x :
  x ∈ foldl (fun s n => collect_variable n s) acc nodes <->
  x ∈ acc \/ (x <> "" /\ x <> TokenLiteralAsterisk /\ x ∈ omap syntax_variable nodes).
Proof.
  revert acc. induction nodes as [|n nodes IH]; intros acc; cbn [foldl]; [set_solver|]. rewrite IH.
  destruct n as [[]| | | | | | | | | | | | | | | | | | | | | | | | | | | | | | | | |]; cbn; try done.
  case_bool_decide; rewrite elem_of_cons; set_solver.
Qed.

Lemma elem_sortedMapKeys (values : gset string) x : x ∈ sortedMapKeys values <-> x ∈ values.
Proof. unfold sortedMapKeys. by rewrite merge_sort_Permutation, elem_of_elements. Qed.

Lemma elem_sortedUniqueStrings (values : list string) x : x ∈ sortedUniqueStrings values <-> x <> "" /\ x ∈ values.
Proof. unfold sortedUniqueStrings. by rewrite elem_sortedMapKeys, elem_of_list_to_set, list_elem_of_filter. Qed.

Lemma sortedDependencies_spec node x : walkable node = true ->
  x ∈ sortedDependencies (Some node) <->
  x <> "" /\ x <> TokenLiteralAsterisk /\ x ∈ omap syntax_variable (nodes node).
Proof.
  intros Hw. cbn [sortedDependencies]. rewrite elem_sortedMapKeys, Cypher_run, collector_nodes by done. cbn [fst].
  rewrite collected. set_solver.
Qed.

(** ** Regions hold no barrier *)

(** A clause that no region may contain. *)
Definition is_barrier (c : option ReadingClause) : bool :=
  match c with
  | None => true
  | Some c => bool_decide (is_Some (clause_Unwind c)) ||
              match clause_Match c with Some m => match_Optional m | None => false end
  end.

Definition covers (r : Region) (k : nat) : Prop := rg_StartClause r <= k <= rg_EndClause r.

(** The regions found so far cover no barrier, and the open one has none up to [n]. *)
Definition regions_ok (cs : list (option ReadingClause)) (n : nat) (s : analysis_state) : Prop :=
  (forall r k, r ∈ s.1.1 -> covers r k -> exists c, cs !! k = Some c /\ is_barrier c = false) /\
  (forall r, r ∈ s.1.1 -> rg_EndClause r < n) /\
  match s.2 with
  | None => True
  | Some r => rg_EndClause r < n /\
      forall k, rg_StartClause r <= k < n -> exists c, cs !! k = Some c /\ is_barrier c = false
  end.

Lemma regions_ok_close cs n s : regions_ok cs n s -> regions_ok cs n (closeRegion s).
Proof.
  destruct s as [[rs bs] [r|]]; [|done]. intros (H1 & H2 & H3 & H4). split_and!; [..|done]; cbn.
  - intros r' k Hr Hk. apply elem_of_app in Hr as [Hr|Hr]; [by eapply H1|].
    apply list_elem_of_singleton in Hr as ->. apply H4. unfold covers in Hk. lia.
  - intros r' Hr. apply elem_of_app in Hr as [Hr|Hr]; [by apply H2|]. by apply list_elem_of_singleton in Hr as ->.
Qed.

Lemma regions_ok_next cs n s : regions_ok cs n s -> s.2 = None -> regions_ok cs (S n) s.
Proof.
  destruct s as [[rs bs] o]. cbn. intros (H1 & H2 & _) ->. split_and!; [done|..|done]. intros r Hr. specialize (H2 r Hr). cbn. lia.
Qed.

Lemma regions_ok_barrier cs n b s : regions_ok cs n s -> regions_ok cs n (add_barrier b s).
Proof. by destruct s as [[rs bs] o]. Qed.

Lemma closeRegion_closed s : (closeRegion s).2 = None.
Proof. by destruct s as [[rs bs] [r|]]. Qed.

Lemma add_barrier_open b s : (add_barrier b s).2 = s.2.
Proof. by destruct s as [[rs bs] o]. Qed.

Lemma regions_ok_turn q cs n c s : cs !! n = Some c -> regions_ok cs n s -> regions_ok cs (S n) (analyze_turn q n c s).
Proof.
  intros Hc Hok. unfold analyze_turn. destruct c as [[a [m|] [u|]]|]; cbn [clause_Unwind clause_Match].
  all: try (apply regions_ok_next; [repeat apply regions_ok_barrier; by apply regions_ok_close|];
            rewrite ?add_barrier_open; apply closeRegion_closed).
  - destruct (match_Optional m) eqn:Hopt.
    { apply regions_ok_next; [apply regions_ok_barrier; by apply regions_ok_close|];
      rewrite ?add_barrier_open; apply closeRegion_closed. }
    destruct s as [[rs bs] o]. destruct Hok as (H1 & H2 & H3). split_and!; cbn in *; [done|..].
    + intros r Hr. specialize (H2 r Hr). lia.
    + split; [lia|]. intros k Hk.
      destruct (decide (k = n)) as [->|Hne]; [by exists (Some (mkReadingClause a (Some m) None))|].
      destruct o as [r|]; cbn in Hk; [|lia]. apply H3. lia.
  - destruct s as [[rs bs] o]. destruct Hok as (H1 & H2 & H3). split_and!; cbn in *; [done|..].
    + intros r Hr. specialize (H2 r Hr). lia.
    + destruct o as [r|]; [|done]. destruct H3 as [Hend H3]. split; [lia|]. intros k Hk.
      destruct (decide (k = n)) as [->|Hne]; [by exists (Some (mkReadingClause a None None))|]. apply H3. lia.
Qed.

Lemma regions_ok_loop q cs : forall rest n s, drop n cs = rest -> regions_ok cs n s ->
  regions_ok cs (n + length rest) (analyze_loop q n rest s).
Proof.
  induction rest as [|c rest IH]; intros n s Hd Hok; cbn [length analyze_loop]; [by rewrite Nat.add_0_r|].
  rewrite Nat.add_succ_r, <- Nat.add_succ_l. apply IH.
  - replace (S n) with (n + 1) by lia. by rewrite <- drop_drop, Hd.
  - apply regions_ok_turn; [|done]. by rewrite <- (Nat.add_0_r n), <- lookup_drop, Hd.
Qed.

Lemma regions_no_barrier q cs r k :
  r ∈ (analyzeReadingClauses q cs).1 -> covers r k -> exists c, cs !! k = Some c /\ is_barrier c = false.
Proof.
  intros Hr Hk. unfold analyzeReadingClauses in Hr.
  assert (Hok : regions_ok cs (0 + length cs) (closeRegion (analyze_loop q 0 cs ([], [], None)))).
  { apply regions_ok_close, regions_ok_loop; [done|]. split_and!; [..|done]; cbn; set_solver. }
  destruct Hok as [H1 _]. by apply (H1 r).
Qed.
