(* ===== verification/Reordering.v ===== *)
(** * Reordering of reading clauses (cypher/models/pgsql/optimize/reordering.go)

    Within a region of plain [MATCH] clauses the optimizer schedules more
    selective clauses first.  Every clause becomes a candidate with the symbols
    it declares and depends on; candidates are scheduled greedily among those
    whose dependencies are available, and a candidate whose dependencies nobody
    declares is a fixed point the others do not cross.

    The estimate of selectivity is a variable: what is proved holds for any
    score, since the score only chooses among safe orders. *)

From S2P Require Import Prelude Framing Walk WalkTree Kinds Digraph CypherAst Analysis.

Record reorderCandidate := mkCandidate {
  cand_clause : option ReadingClause;
  cand_declarations : gset string;
  cand_dependencies : gset string;
  cand_movable : bool;
  cand_score : Z;
  cand_index : nat;
}.

Section reordering.
Variable matchClauseSelectivity : option ReadingClause -> Z.

(** ** Candidates *)

(** The symbols of the bindings of a clause. *)
Definition clause_symbols (c : option ReadingClause) : list string := bd_Symbol <$> bindingsForReadingClause 0 c.

Definition declaredBeforeClause (readingClauses : list (option ReadingClause)) (clauseIndex : nat) : gset string :=
  list_to_set (concat (imap (fun idx c => bd_Symbol <$> bindingsForReadingClause idx c) (take clauseIndex readingClauses))).

(** [firstDeclaration], [declarations] and [dependencies] after one binding. *)
Definition candidate_binding (st : gset string * gset string * gset string) (symbol : string)
    : gset string * gset string * gset string :=
  let '(firstDeclaration, declarations, dependencies) := st in
  if bool_decide (symbol ∈ firstDeclaration) then (firstDeclaration, declarations, {[symbol]} ∪ dependencies)
  else ({[symbol]} ∪ firstDeclaration, {[symbol]} ∪ declarations, dependencies).

Definition candidate_turn (declaredBeforeRegion regionSymbols : gset string) (idx : nat) (clause : option ReadingClause)
    (firstDeclaration : gset string) : reorderCandidate * gset string :=
  let '(firstDeclaration', declarations, bound) :=
    foldl candidate_binding (firstDeclaration, ∅, ∅) (bd_Symbol <$> bindingsForReadingClause idx clause) in
  let dependencies := list_to_set (localMatchDependencies (clause ≫= clause_Match)) ∪ bound in
  let movable :=
    forallb (fun d => bool_decide (d ∈ declaredBeforeRegion) || bool_decide (d ∈ regionSymbols)) (elements dependencies) in
  (mkCandidate clause declarations dependencies movable (matchClauseSelectivity clause) idx, firstDeclaration').

Fixpoint candidates_loop (declaredBeforeRegion regionSymbols : gset string) (idx : nat)
    (clauses : list (option ReadingClause)) (firstDeclaration : gset string) : list reorderCandidate :=
  match clauses with
  | [] => []
  | clause :: clauses' =>
      let '(c, firstDeclaration') := candidate_turn declaredBeforeRegion regionSymbols idx clause firstDeclaration in
      c :: candidates_loop declaredBeforeRegion regionSymbols (S idx) clauses' firstDeclaration'
  end.

Definition reorderCandidates (regionClauses : list (option ReadingClause)) (declaredBeforeRegion : gset string)
    : list reorderCandidate :=
  let regionSymbols := list_to_set (concat (imap (fun idx c => bd_Symbol <$> bindingsForReadingClause idx c) regionClauses)) in
  candidates_loop declaredBeforeRegion regionSymbols 0 regionClauses declaredBeforeRegion.

(** ** Greedy scheduling *)

Definition candidateDependenciesSatisfied (candidate : reorderCandidate) (available : gset string) : bool :=
  forallb (fun d => bool_decide (d ∈ available) || bool_decide (d ∈ cand_declarations candidate))
    (elements (cand_dependencies candidate)).

Definition better (candidate best : reorderCandidate) : bool :=
  (cand_score best <? cand_score candidate)%Z ||
  ((cand_score candidate =? cand_score best)%Z && (cand_index candidate <? cand_index best)).

Definition best_turn (candidates : list reorderCandidate) (available : gset string) (bestIndex : option nat)
    (next : nat * reorderCandidate) : option nat :=
  let '(idx, candidate) := next in
  if negb (candidateDependenciesSatisfied candidate available) then bestIndex
  else
    match bestIndex ≫= (candidates !!.) with
    | None => Some idx
    | Some best => if better candidate best then Some idx else bestIndex
    end.

(** [None] is the index -1. *)
Definition bestSchedulableCandidateIndex (candidates : list reorderCandidate) (available : gset string) : option nat :=
  foldl (best_turn candidates available) None (imap pair candidates).

(** The candidates in their new order, and what is available after them; every
    turn takes one of [remaining], so its length is enough fuel. *)
Fixpoint movable_loop (fuel : nat) (remaining : list reorderCandidate) (available : gset string)
    : list reorderCandidate * gset string :=
  match fuel, remaining with
  | O, _ | _, [] => ([], available)
  | S fuel', _ =>
      match bestSchedulableCandidateIndex remaining available with
      | None => (remaining, available)
      | Some nextIndex =>
          match remaining !! nextIndex with
          | None => (remaining, available)
          | Some next =>
              let '(reordered, available') :=
                movable_loop fuel' (delete nextIndex remaining) (available ∪ cand_declarations next) in
              (next :: reordered, available')
          end
      end
  end.

Definition reorderMovableCandidates (candidates : list reorderCandidate) (available : gset string)
    : list reorderCandidate * gset string := movable_loop (length candidates) candidates available.

Definition merge_declarations (available : gset string) (cs : list reorderCandidate) : gset string :=
  foldl (fun a c => a ∪ cand_declarations c) available cs.

(** [reordered], [available] and [segment]. *)
Definition segments_state : Type := (list reorderCandidate * gset string * list reorderCandidate)%type.

Definition flushSegment (s : segments_state) : segments_state :=
  let '(reordered, available, segment) := s in
  match segment with
  | [] => s
  | _ =>
      let '(nextSegment, available') := reorderMovableCandidates segment available in
      (reordered ++ nextSegment, merge_declarations available' nextSegment, [])
  end.

Definition segments_turn (s : segments_state) (candidate : reorderCandidate) : segments_state :=
  if cand_movable candidate then let '(reordered, available, segment) := s in (reordered, available, segment ++ [candidate])
  else
    let '(reordered, available, segment) := flushSegment s in
    (reordered ++ [candidate], available ∪ cand_declarations candidate, segment).

Definition reorderCandidateSegments (candidates : list reorderCandidate) (declaredBeforeRegion : gset string)
    : list reorderCandidate :=
  (flushSegment (foldl segments_turn ([], declaredBeforeRegion, []) candidates)).1.1.

(** ** Regions *)

Definition address (c : option ReadingClause) : option nat := clause_addr <$> c.

Definition same_clause (a b : option ReadingClause) : bool := bool_decide (address a = address b).

Definition write_clause (old : option ReadingClause) (candidate : reorderCandidate) : option ReadingClause :=
  if same_clause old (cand_clause candidate) then old else cand_clause candidate.

Definition reorderRegionWouldApply (regionClauses : list (option ReadingClause)) (declaredBeforeRegion : gset string) : bool :=
  let reordered := reorderCandidateSegments (reorderCandidates regionClauses declaredBeforeRegion) declaredBeforeRegion in
  existsb (fun p => negb (same_clause p.1 (cand_clause p.2))) (zip regionClauses reordered).

(** Whether a clause moved, and the clauses written back. *)
Definition reorderRegion (regionClauses : list (option ReadingClause)) (declaredBeforeRegion : gset string)
    : list (option ReadingClause) * bool :=
  let reordered := reorderCandidateSegments (reorderCandidates regionClauses declaredBeforeRegion) declaredBeforeRegion in
  (zip_with write_clause regionClauses reordered,
   existsb (fun p => negb (same_clause p.1 (cand_clause p.2))) (zip regionClauses reordered)).

Definition region_in_range (readingClauses : list (option ReadingClause)) (region : Region) : bool :=
  (rg_EndClause region <? length readingClauses) && (rg_StartClause region <? rg_EndClause region).

Definition region_clauses (readingClauses : list (option ReadingClause)) (region : Region) : list (option ReadingClause) :=
  take (S (rg_EndClause region) - rg_StartClause region) (drop (rg_StartClause region) readingClauses).

Definition reorder_turn (st : list (option ReadingClause) * bool) (region : Region) : list (option ReadingClause) * bool :=
  let '(readingClauses, applied) := st in
  if region_in_range readingClauses region then
    let '(clauses, moved) :=
      reorderRegion (region_clauses readingClauses region)
        (declaredBeforeClause readingClauses (rg_StartClause region)) in
    (take (rg_StartClause region) readingClauses ++ clauses ++ drop (S (rg_EndClause region)) readingClauses,
     moved || applied)
  else st.

Definition reorderReadingClauses (readingClauses : list (option ReadingClause)) (regions : list Region)
    : list (option ReadingClause) * bool :=
  foldl reorder_turn (readingClauses, false) regions.

Definition readingClausesWouldReorder (readingClauses : list (option ReadingClause)) (regions : list Region) : bool :=
  existsb (fun region =>
    region_in_range readingClauses region &&
    reorderRegionWouldApply (region_clauses readingClauses region)
      (declaredBeforeClause readingClauses (rg_StartClause region))) regions.

(** ** Queries *)

Definition analysisQueryPart (analysis : list QueryPart) (index : nat) : option QueryPart :=
  list_find (fun p => qp_Index p = index) analysis ≫= fun r => Some r.2.

(** Clauses of part [index], reordered where the analysis knows the part. *)
Definition reorder_part (analysis : list QueryPart) (index : nat) (clauses : list (option ReadingClause))
    : list (option ReadingClause) * bool :=
  match analysisQueryPart analysis index with
  | Some p => reorderReadingClauses clauses (qp_Regions p)
  | None => (clauses, false)
  end.

Definition would_reorder_part (analysis : list QueryPart) (index : nat) (clauses : list (option ReadingClause)) : bool :=
  match analysisQueryPart analysis index with
  | Some p => readingClausesWouldReorder clauses (qp_Regions p)
  | None => false
  end.

Definition reorderSinglePartQuery (analysis : list QueryPart) (index : nat) (query : SinglePartQuery) : SinglePartQuery * bool :=
  let '(clauses, applied) := reorder_part analysis index (sp_ReadingClauses query) in
  (mkSinglePartQuery clauses (sp_UpdatingClauses query) (sp_Return query), applied).

Definition reorder_multi_part (analysis : list QueryPart) (index : nat) (part : option MultiPartQueryPart)
    : option MultiPartQueryPart * bool :=
  match part with
  | None => (None, false)
  | Some p =>
      let '(clauses, applied) := reorder_part analysis index (mp_ReadingClauses p) in
      (Some (mkMultiPartQueryPart clauses (mp_UpdatingClauses p) (mp_With p)), applied)
  end.

Definition reorderMultiPartQuery (analysis : list QueryPart) (query : MultiPartQuery) : MultiPartQuery * bool :=
  let parts := imap (reorder_multi_part analysis) (mq_Parts query) in
  let last := reorderSinglePartQuery analysis (length (mq_Parts query)) <$> mq_SinglePartQuery query in
  (mkMultiPartQuery (fst <$> parts) (fst <$> last), existsb snd parts || default false (snd <$> last)).

Definition queryWouldReorder (query : RegularQuery) (analysis : list QueryPart) : bool :=
  match mjoin query with
  | None => false
  | Some q =>
      match sq_MultiPartQuery q, sq_SinglePartQuery q with
      | Some m, _ =>
          existsb id (imap (fun index part =>
            match part with Some p => would_reorder_part analysis index (mp_ReadingClauses p) | None => false end) (mq_Parts m)) ||
          match mq_SinglePartQuery m with
          | Some p => would_reorder_part analysis (length (mq_Parts m)) (sp_ReadingClauses p)
          | None => false
          end
      | None, Some p => would_reorder_part analysis 0 (sp_ReadingClauses p)
      | None, None => false
      end
  end.

(** The reordering of a query, without the test that it changes anything. *)
Definition reorder_query (query : RegularQuery) (analysis : list QueryPart) : RegularQuery * bool :=
  match mjoin query with
  | None => (query, false)
  | Some q =>
      match sq_MultiPartQuery q, sq_SinglePartQuery q with
      | Some m, _ =>
          let '(m', applied) := reorderMultiPartQuery analysis m in
          (Some (Some (mkSingleQuery (sq_SinglePartQuery q) (Some m'))), applied)
      | None, Some p =>
          let '(p', applied) := reorderSinglePartQuery analysis 0 p in
          (Some (Some (mkSingleQuery (Some p') None)), applied)
      | None, None => (query, false)
      end
  end.

Definition ConservativePatternReorderingRule_Apply (query : RegularQuery) (analysis : list QueryPart) : RegularQuery * bool :=
  if queryWouldReorder query analysis then reorder_query query analysis else (query, false).
End reordering.

(** ** Orders that keep what is bound before

    [keeps U old new]: [new] is [old] in another order, and every symbol an
    element refers to that was bound before it, by [U] or an earlier element,
    still is. *)

Lemma split_unique {A} (c : A) p q p' q' : NoDup (p ++ c :: q) -> p ++ c :: q = p' ++ c :: q' -> p = p'.
Proof.
  revert p'. induction p as [|x p IH]; intros [|x' p'] Hnd E; cbn in *; [done|..].
  - exfalso. injection E as -> E. apply NoDup_cons in Hnd as [Hnd _]. apply Hnd. rewrite E. set_solver.
  - exfalso. injection E as -> E. apply NoDup_cons in Hnd as [Hnd _]. apply Hnd. set_solver.
  - injection E as -> E. f_equal. apply NoDup_cons in Hnd as [_ Hnd]. by apply IH.
Qed.

Section keeps.
Context {A : Type} (binds refs : A -> gset string).

Definition bound (l : list A) : gset string := ⋃ (binds <$> l).

Definition keeps (U : gset string) (old new : list A) : Prop :=
  old ≡ₚ new /\
  forall p c q p' q', old = p ++ c :: q -> new = p' ++ c :: q' ->
    forall d, d ∈ refs c -> d ∈ U ∪ bound p -> d ∈ U ∪ bound p'.

Lemma elem_bound l d : d ∈ bound l <-> exists c, c ∈ l /\ d ∈ binds c.
Proof using Type.
  unfold bound. rewrite elem_of_union_list. split.
  - intros (X & HX & Hd). apply list_elem_of_fmap in HX as (c & -> & Hc). by exists c.
  - intros (c & Hc & Hd). exists (binds c). split; [by apply list_elem_of_fmap_2|done].
Qed.

Lemma bound_app l1 l2 : bound (l1 ++ l2) = bound l1 ∪ bound l2.
Proof using Type. unfold bound. by rewrite fmap_app, union_list_app_L. Qed.

Lemma bound_cons c l : bound (c :: l) = binds c ∪ bound l.
Proof using Type. done. Qed.

Lemma bound_perm l1 l2 : l1 ≡ₚ l2 -> bound l1 = bound l2.
Proof using Type. intros Hp. apply set_eq. intros d. rewrite !elem_bound. by setoid_rewrite Hp. Qed.

Lemma keeps_refl U l : NoDup l -> keeps U l l.
Proof using Type. intros Hnd. split; [done|]. intros p c q p' q' -> E d _ Hd. by rewrite <- (split_unique c p q p' q' Hnd E). Qed.

Lemma keeps_trans U a b c : NoDup a -> keeps U a b -> keeps U b c -> keeps U a c.
Proof using Type.
  intros Hnd [Hp1 H1] [Hp2 H2]. split; [by transitivity b|]. intros p x q p' q' Ea Ec d Hd Hb.
  assert (Hx : x ∈ b) by (rewrite <- Hp1, Ea; set_solver).
  apply list_elem_of_split in Hx as (p0 & q0 & Eb). eapply H2; [done..|]. by eapply H1.
Qed.

Lemma keeps_app U l1 l1' l2 l2' :
  NoDup (l1 ++ l2) -> keeps U l1 l1' -> keeps (U ∪ bound l1) l2 l2' -> keeps U (l1 ++ l2) (l1' ++ l2').
Proof using Type.
  intros Hnd [Hp1 H1] [Hp2 H2]. split; [by rewrite Hp1, Hp2|]. apply NoDup_app in Hnd as (_ & Hnd & _).
  intros p c q p' q' E E' d Hd Hb.
  apply app_eq_inv in E as [(r & -> & Er)|(r & -> & ->)], E' as [(r' & -> & Er')|(r' & -> & ->)].
  - destruct r as [|x r], r' as [|x' r']; cbn in *.
    + rewrite !app_nil_r in *. subst. rewrite (bound_perm p p' Hp1) in Hb. done.
    + exfalso. injection Er' as -> ->. apply (Hnd x'); [rewrite Hp1; set_solver|]. subst. set_solver.
    + exfalso. injection Er as -> ->. apply (Hnd x); [set_solver|]. rewrite Hp2. subst. set_solver.
    + injection Er as -> ->. injection Er' as -> ->. by eapply H1.
  - destruct r as [|x r]; cbn in *.
    + subst. rewrite app_nil_r in *. rewrite bound_app, <- (bound_perm _ _ Hp1). set_solver.
    + exfalso. injection Er as -> ->. apply (Hnd x); [set_solver|]. rewrite Hp2. set_solver.
  - destruct r' as [|x r']; cbn in *.
    + subst. rewrite app_nil_r in *. specialize (H2 r c q [] q' eq_refl eq_refl d Hd).
      rewrite bound_app in Hb. rewrite <- (bound_perm _ _ Hp1). unfold bound at 3 in H2. cbn in H2. set_solver.
    + exfalso. injection Er' as -> ->. apply (Hnd x); [rewrite Hp1; set_solver|set_solver].
  - rewrite bound_app, <- (bound_perm _ _ Hp1), assoc_L by apply _. rewrite bound_app, assoc_L in Hb by apply _.
    by eapply H2.
Qed.
End keeps.

(** ** Scheduling keeps the order safe *)

Notation ckeeps := (keeps cand_declarations cand_dependencies).
Notation cbound := (bound cand_declarations).

(** Every symbol has one declaring candidate, and [U] declares none of them. *)
Definition fresh (U : gset string) (l : list reorderCandidate) : Prop :=
  (forall c, c ∈ l -> cand_declarations c ## U) /\
  (forall c c', c ∈ l -> c' ∈ l -> c <> c' -> cand_declarations c ## cand_declarations c').

Lemma fresh_sub U l l' : fresh U l -> (forall c, c ∈ l' -> c ∈ l) -> fresh U l'.
Proof. intros [H1 H2] Hs. split; [by eauto|]. intros c c' ? ?. apply H2; by apply Hs. Qed.

Lemma fresh_later U l1 l2 : NoDup (l1 ++ l2) -> fresh U (l1 ++ l2) -> fresh (U ∪ cbound l1) l2.
Proof.
  intros Hnd [H1 H2]. apply NoDup_app in Hnd as (_ & Hnd & _). split; [|intros c c' ? ?; apply H2; set_solver].
  intros c Hc d Hd Hu. apply elem_of_union in Hu as [Hu|Hu].
  - apply (H1 c ltac:(set_solver) d Hd Hu).
  - apply elem_bound in Hu as (c' & Hc' & Hd'). apply (H2 c c' ltac:(set_solver) ltac:(set_solver)) with d; [|done..].
    intros ->. by apply (Hnd c').
Qed.

Lemma best_schedulable cs available i :
  bestSchedulableCandidateIndex cs available = Some i ->
  exists c, cs !! i = Some c /\ candidateDependenciesSatisfied c available = true.
Proof.
  unfold bestSchedulableCandidateIndex.
  assert (Hgen : forall l best, (forall p, p ∈ l -> cs !! p.1 = Some p.2) ->
    (forall i, best = Some i -> exists c, cs !! i = Some c /\ candidateDependenciesSatisfied c available = true) ->
    forall i, foldl (best_turn cs available) best l = Some i ->
      exists c, cs !! i = Some c /\ candidateDependenciesSatisfied c available = true).
  { induction l as [|[j c] l IH]; intros best Hl Hb k; cbn [foldl]; [apply Hb|]. apply IH; [set_solver|].
    intros k'. unfold best_turn. destruct (candidateDependenciesSatisfied c available) eqn:Hsat; cbn [negb]; [|apply Hb].
    assert (Hj : cs !! j = Some c) by (apply (Hl (j, c)); by left).
    destruct (best ≫= (cs !!.)); [destruct (better _ _); [|apply Hb]|]; intros [= <-]; by exists c. }
  apply Hgen; [|done]. intros [j c] Hp. apply elem_of_lookup_imap in Hp as (k & y & [= -> ->] & Hk). done.
Qed.

Lemma delete_split (cs : list reorderCandidate) i c :
  cs !! i = Some c -> cs = take i cs ++ c :: drop (S i) cs /\ delete i cs = take i cs ++ drop (S i) cs.
Proof. intros Hi. split; [by rewrite take_drop_middle|apply delete_take_drop]. Qed.

(** What stood before [c] still does when another element is taken out. *)
Lemma taken_before (t r : list reorderCandidate) x p c q p0 q0 :
  NoDup (t ++ r) -> c <> x -> t ++ x :: r = p ++ c :: q -> t ++ r = p0 ++ c :: q0 -> forall y, y ∈ p -> y = x \/ y ∈ p0.
Proof.
  intros Hnd Hcx E E0 y Hy. apply app_eq_inv in E as [(k & -> & Ek)|(k & -> & Ek)].
  - destruct k as [|z k]; cbn in Ek; [by injection Ek as -> ->|]. injection Ek as -> ->.
    rewrite <- app_assoc in E0, Hnd. cbn in E0, Hnd. right. by rewrite <- (split_unique z p _ p0 q0 Hnd E0).
  - destruct k as [|z k]; cbn in Ek; [by injection Ek as -> ->|]. injection Ek as -> ->.
    rewrite app_assoc in E0, Hnd. rewrite <- (split_unique c (t ++ k) q p0 q0 Hnd E0). set_solver.
Qed.

Lemma movable_available fuel cs U : length cs <= fuel ->
  U ⊆ (movable_loop fuel cs U).2 /\ (movable_loop fuel cs U).2 ⊆ U ∪ cbound cs.
Proof.
  revert cs U. induction fuel as [|fuel IH]; intros [|c0 cs] U Hf; cbn [movable_loop length] in *; try (set_solver || lia).
  destruct (bestSchedulableCandidateIndex (c0 :: cs) U) as [i|]; [|set_solver].
  destruct ((c0 :: cs) !! i) as [c|] eqn:Hi; [|set_solver]. set (l := c0 :: cs) in *.
  destruct (delete_split l i c Hi) as [El Ed]. specialize (IH (delete i l) (U ∪ cand_declarations c)).
  assert (Hlen : length (delete i l) <= fuel) by (rewrite length_delete by (by eexists); cbn in *; lia).
  destruct (movable_loop fuel (delete i l) (U ∪ cand_declarations c)) as [out av]. cbn [snd] in *.
  destruct (IH Hlen) as [H1 H2]. assert (Hb : cbound l = cand_declarations c ∪ cbound (delete i l)).
  { rewrite Ed, bound_app. rewrite El at 1. rewrite bound_app. unfold bound at 2. cbn. set_solver. }
  rewrite Hb. set_solver.
Qed.

(** The candidate taken next finds its dependencies outside itself. *)
Lemma scheduled_satisfied U l x d p q :
  NoDup l -> fresh U l -> l = p ++ x :: q -> candidateDependenciesSatisfied x U = true ->
  d ∈ cand_dependencies x -> d ∈ U ∪ cbound p -> d ∈ U.
Proof.
  intros Hnd [HU Hpair] -> Hsat Hd Hb. unfold candidateDependenciesSatisfied in Hsat. rewrite forallb_forall in Hsat.
  specialize (Hsat d ltac:(by apply list_elem_of_In, elem_of_elements)).
  apply orb_true_iff in Hsat as [Hs|Hs]; apply bool_decide_eq_true in Hs; [done|]. exfalso.
  apply elem_of_union in Hb as [Hb|Hb]; [by apply (HU x ltac:(set_solver) d)|].
  apply elem_bound in Hb as (c' & Hc' & Hd'). apply (Hpair x c' ltac:(set_solver) ltac:(set_solver)) with d; [|done..].
  intros ->. apply NoDup_app in Hnd as (_ & Hnd & _). apply (Hnd c' Hc'). set_solver.
Qed.

(** Taking [x] first and then keeping the order of the rest. *)
Lemma keeps_take U t x r out :
  NoDup (t ++ x :: r) -> fresh U (t ++ x :: r) -> candidateDependenciesSatisfied x U = true ->
  ckeeps (U ∪ cand_declarations x) (t ++ r) out -> ckeeps U (t ++ x :: r) (x :: out).
Proof.
  intros Hnd Hfr Hsat [Hout Hkeep]. split; [by rewrite <- Hout, Permutation_middle|].
  intros p c q p' q' Eold Enew d Hd Hb. destruct p' as [|y p']; cbn in Enew.
  { injection Enew as <- ->. apply elem_of_union. left. by eapply scheduled_satisfied. }
  injection Enew as <- Enew.
  assert (Hnd' : NoDup (x :: t ++ r)) by (by rewrite Permutation_middle). apply NoDup_cons in Hnd' as [Hx Hnd'].
  assert (Hc : c ∈ t ++ r) by (rewrite Hout, Enew; set_solver).
  assert (Hcx : c <> x) by (by intros ->).
  apply list_elem_of_split in Hc as (p0 & q0 & E0). specialize (Hkeep p0 c q0 p' q' E0 Enew d Hd).
  rewrite bound_cons, assoc_L by apply _. apply Hkeep.
  apply elem_of_union in Hb as [Hb|Hb]; [set_solver|]. apply elem_bound in Hb as (y & Hy & Hdy).
  destruct (taken_before t r x p c q p0 q0 Hnd' Hcx Eold E0 y Hy) as [->|Hy0]; [set_solver|].
  apply elem_of_union. right. apply elem_bound. by exists y.
Qed.

Lemma movable_keeps fuel cs U : length cs <= fuel -> NoDup cs -> fresh U cs -> ckeeps U cs (movable_loop fuel cs U).1.
Proof.
  revert cs U. induction fuel as [|fuel IH]; intros [|c0 cs] U Hf Hnd Hfr; cbn [movable_loop length] in *; try lia.
  1,2: by apply keeps_refl.
  destruct (bestSchedulableCandidateIndex (c0 :: cs) U) as [i|] eqn:Hbest; [|by apply keeps_refl].
  destruct (best_schedulable _ _ _ Hbest) as (x & Hi & Hsat). rewrite Hi. set (l := c0 :: cs) in *.
  destruct (delete_split l i x Hi) as [El Ed].
  assert (Hlen : length (delete i l) <= fuel) by (rewrite length_delete by (by eexists); cbn in *; lia).
  set (t := take i l) in *. set (r := drop (S i) l) in *. rewrite Ed in *. clearbody l t r. subst l.
  assert (Hnd' : NoDup (x :: t ++ r)) by (by rewrite Permutation_middle).
  assert (Hfr' : fresh (U ∪ cbound [x]) (t ++ r)).
  { apply (fresh_later U [x]); [done|]. eapply fresh_sub; [exact Hfr|]. set_solver. }
  replace (cbound [x]) with (cand_declarations x) in Hfr' by (unfold bound; cbn; set_solver).
  apply NoDup_cons in Hnd' as [_ Hnd']. specialize (IH (t ++ r) (U ∪ cand_declarations x) Hlen Hnd' Hfr').
  destruct (movable_loop fuel (t ++ r) (U ∪ cand_declarations x)) as [out av]. by apply keeps_take.
Qed.

(** *** Segments *)

Lemma merge_declarations_bound U cs : merge_declarations U cs = U ∪ cbound cs.
Proof.
  unfold merge_declarations. revert U. induction cs as [|c cs IH]; intros U; cbn [foldl]; [unfold bound; cbn; set_solver|].
  rewrite IH. unfold bound. cbn. set_solver.
Qed.

(** After the candidates [pre]: the ones before the open segment are placed. *)
Definition placed (U : gset string) (pre : list reorderCandidate) (s : segments_state) : Prop :=
  exists head, pre = head ++ s.2 /\ ckeeps U head s.1.1 /\ s.1.2 = U ∪ cbound head.

Lemma flush_placed U pre s : NoDup pre -> fresh U pre -> placed U pre s ->
  placed U pre (flushSegment s) /\ (flushSegment s).2 = [].
Proof.
  destruct s as [[out av] seg]. intros Hnd Hfr (head & -> & Hk & Hav). cbn [fst snd] in *. subst av.
  unfold flushSegment. destruct seg as [|c seg]; [split; [by exists head|done]|]. set (l := c :: seg) in *. clearbody l.
  apply NoDup_app in Hnd as Hnd'. destruct Hnd' as (_ & _ & Hl). pose proof (fresh_later U head l Hnd Hfr) as Hfl.
  pose proof (movable_keeps (length l) l _ (le_n _) Hl Hfl) as Hm.
  pose proof (movable_available (length l) l (U ∪ cbound head) (le_n _)) as [Hav1 Hav2].
  unfold reorderMovableCandidates. destruct (movable_loop _ l _) as [next av']. cbn [fst snd] in *. split; [|done].
  exists (head ++ l). cbn [fst snd]. split; [by rewrite app_nil_r|]. split; [by apply keeps_app|].
  rewrite merge_declarations_bound, bound_app, <- (bound_perm _ _ _ (proj1 Hm)). set_solver.
Qed.

Lemma turn_placed U pre s c : NoDup (pre ++ [c]) -> fresh U (pre ++ [c]) -> placed U pre s ->
  placed U (pre ++ [c]) (segments_turn s c).
Proof.
  intros Hnd Hfr Hs. unfold segments_turn. destruct (cand_movable c).
  - destruct s as [[out av] seg], Hs as (head & -> & Hk & Hav). exists head. by rewrite <- app_assoc.
  - apply NoDup_app in Hnd as Hnd'. destruct Hnd' as (Hpre & _ & _).
    destruct (flush_placed U pre s Hpre) as [(head & Hp & Hk & Hav) Hseg]; [eapply fresh_sub; [done|set_solver]|done|].
    destruct (flushSegment s) as [[out av] seg]. cbn [fst snd] in *. subst seg av. rewrite app_nil_r in Hp. subst pre.
    exists (head ++ [c]). cbn [fst snd]. split; [by rewrite app_nil_r|]. split.
    + apply keeps_app; [done|done|]. apply keeps_refl, NoDup_singleton.
    + rewrite bound_app. unfold bound at 3. cbn. set_solver.
Qed.

Lemma segments_keep U cs : NoDup cs -> fresh U cs -> ckeeps U cs (reorderCandidateSegments cs U).
Proof.
  intros Hnd Hfr. unfold reorderCandidateSegments.
  assert (Hall : placed U cs (foldl segments_turn ([], U, []) cs)).
  { induction cs as [|c cs IH] using rev_ind.
    - exists []. split; [done|]. split; [apply keeps_refl, NoDup_nil_2|]. unfold bound. cbn. set_solver.
    - rewrite foldl_app. cbn [foldl]. apply turn_placed; [done|done|]. apply IH.
      + by apply NoDup_app in Hnd as (? & _).
      + eapply fresh_sub; [done|set_solver]. }
  destruct (flush_placed U cs _ Hnd Hfr Hall) as [(head & Hp & Hk & _) Hseg].
  rewrite Hseg, app_nil_r in Hp. by subst head.
Qed.

(** *** What the candidates stand for *)

(** The symbols a clause refers to: those it binds and those of its expressions. *)
Definition clause_binds (c : option ReadingClause) : gset string := list_to_set (clause_symbols c).
Definition clause_refs (c : option ReadingClause) : gset string :=
  clause_binds c ∪ list_to_set (localMatchDependencies (c ≫= clause_Match)).

Lemma bind_variable_symbols v k i j i' : bd_Symbol <$> bind_variable v k i j = bd_Symbol <$> bind_variable v k i' j.
Proof. destruct v as [s|]; [|done]. cbn. by case_bool_decide. Qed.

Lemma bind_pattern_symbols i i' j p : bd_Symbol <$> bind_pattern i j p = bd_Symbol <$> bind_pattern i' j p.
Proof.
  destruct p as [p|]; [|done]. cbn. rewrite !fmap_app, (bind_variable_symbols _ _ i j i'). f_equal.
  induction (pp_PatternElements p) as [|e es IH]; [done|]. cbn. rewrite !fmap_app, IH. f_equal.
  destruct e as [[n|r|o]|]; [apply bind_variable_symbols..|done|done].
Qed.

Lemma fmap_concat_imap {A X Y} (h : X -> Y) (f f' : nat -> A -> list X) (l : list A) :
  (forall j a, h <$> f j a = h <$> f' j a) -> h <$> concat (imap f l) = h <$> concat (imap f' l).
Proof.
  revert f f'. induction l as [|a l IH]; intros f f' Hf; [done|]. cbn. rewrite !fmap_app, Hf. f_equal.
  by apply IH; intros j b; cbn.
Qed.

Lemma symbols_index idx c : bd_Symbol <$> bindingsForReadingClause idx c = clause_symbols c.
Proof.
  unfold clause_symbols, bindingsForReadingClause. destruct (c ≫= clause_Match) as [m|]; [|done].
  apply fmap_concat_imap. intros j p. apply bind_pattern_symbols.
Qed.

Lemma symbols_set (cs : list (option ReadingClause)) :
  list_to_set (C := gset string) (concat (imap (fun idx c => bd_Symbol <$> bindingsForReadingClause idx c) cs)) =
  bound clause_binds cs.
Proof.
  assert (Hall : forall n, list_to_set (C := gset string)
      (concat (imap (fun idx c => bd_Symbol <$> bindingsForReadingClause (n + idx) c) cs)) = bound clause_binds cs).
  { induction cs as [|c cs IH]; intros n; [done|]. cbn [imap List.concat]. rewrite symbols_index, list_to_set_app_L, bound_cons.
    f_equal. rewrite <- (IH (S n)). do 2 f_equal. apply imap_ext. intros i x _. cbn. by rewrite Nat.add_succ_r. }
  apply (Hall 0).
Qed.

Lemma declaredBeforeClause_bound cs k : declaredBeforeClause cs k = bound clause_binds (take k cs).
Proof. apply symbols_set. Qed.

Lemma candidate_bindings symbols : forall F D E,
  let '(F', D', E') := foldl candidate_binding (F, D, E) symbols in
  F' = F ∪ list_to_set symbols /\ D' = D ∪ ((list_to_set symbols : gset string) ∖ F) /\
  E ⊆ E' /\ forall d, d ∈ symbols -> d ∈ F -> d ∈ E'.
Proof.
  induction symbols as [|x symbols IH]; intros F D E; cbn [foldl]; [cbn; set_solver|].
  unfold candidate_binding at 2. case_bool_decide as Hx.
  - specialize (IH F D ({[x]} ∪ E)). destruct (foldl _ _ symbols) as [[F' D'] E']. destruct IH as (-> & -> & H1 & H2).
    cbn. split_and!; [set_solver..|]. intros d Hd HF. apply elem_of_cons in Hd as [->|Hd]; [set_solver|by apply H2].
  - specialize (IH ({[x]} ∪ F) ({[x]} ∪ D) E). destruct (foldl _ _ symbols) as [[F' D'] E']. destruct IH as (-> & -> & H1 & H2).
    cbn. split_and!; [set_solver| |done|].
    + apply set_eq. intros d. destruct (decide (d = x)) as [->|]; set_solver.
    + intros d Hd HF. apply elem_of_cons in Hd as [->|Hd]; [done|]. apply H2; set_solver.
Qed.

Section candidates.
Variable score : option ReadingClause -> Z.
Variables before symbols : gset string.

Notation loop := (candidates_loop score before symbols).

Lemma candidate_turn_spec idx clause F :
  let '(c, F') := candidate_turn score before symbols idx clause F in
  cand_clause c = clause /\ cand_index c = idx /\ F' = F ∪ clause_binds clause /\
  cand_declarations c = clause_binds clause ∖ F /\
  (forall d, d ∈ clause_refs clause -> d ∈ F -> d ∈ cand_dependencies c).
Proof using Type.
  unfold candidate_turn. rewrite symbols_index. pose proof (candidate_bindings (clause_symbols clause) F ∅ ∅) as Hb.
  destruct (foldl candidate_binding _ _) as [[F' D'] E']. destruct Hb as (-> & -> & _ & HE). cbn. split_and!; try done.
  - unfold clause_binds. set_solver.
  - intros d Hd HF. unfold clause_refs, clause_binds in Hd. apply elem_of_union in Hd as [Hd|Hd]; [|set_solver].
    apply elem_of_union. right. apply HE; [by apply elem_of_list_to_set in Hd|done].
Qed.

Lemma loop_clauses clauses : forall idx F, cand_clause <$> loop idx clauses F = clauses.
Proof using Type.
  induction clauses as [|c clauses IH]; intros idx F; [done|]. cbn [candidates_loop].
  pose proof (candidate_turn_spec idx c F) as Hc. destruct (candidate_turn score before symbols idx c F) as [x F'].
  destruct Hc as (Hc & _). cbn. by rewrite Hc, IH.
Qed.

Lemma loop_indices clauses : forall idx F c, c ∈ loop idx clauses F -> idx <= cand_index c.
Proof using Type.
  induction clauses as [|c clauses IH]; intros idx F y; cbn [candidates_loop]; [set_solver|].
  pose proof (candidate_turn_spec idx c F) as Hc. destruct (candidate_turn score before symbols idx c F) as [x F'].
  destruct Hc as (_ & Hi & _). intros Hy. apply elem_of_cons in Hy as [->|Hy]; [lia|]. apply IH in Hy. lia.
Qed.

Lemma loop_NoDup clauses : forall idx F, NoDup (loop idx clauses F).
Proof using Type.
  induction clauses as [|c clauses IH]; intros idx F; cbn [candidates_loop]; [apply NoDup_nil_2|].
  pose proof (candidate_turn_spec idx c F) as Hc. destruct (candidate_turn score before symbols idx c F) as [x F'].
  destruct Hc as (_ & Hi & _). apply NoDup_cons. split; [|apply IH]. intros Hx. apply loop_indices in Hx. lia.
Qed.

(** What is declared after [F] is not in [F]. *)
Lemma loop_declares clauses : forall idx F c d,
  c ∈ loop idx clauses F -> d ∈ cand_declarations c -> d ∉ F /\ d ∈ clause_binds (cand_clause c).
Proof using Type.
  induction clauses as [|c clauses IH]; intros idx F y d; cbn [candidates_loop]; [set_solver|].
  pose proof (candidate_turn_spec idx c F) as Hc. destruct (candidate_turn score before symbols idx c F) as [x F'].
  destruct Hc as (Hcl & _ & HF & HD & _). intros Hy Hd. apply elem_of_cons in Hy as [->|Hy]; [rewrite HD in Hd; rewrite Hcl; set_solver|].
  destruct (IH _ _ _ _ Hy Hd). set_solver.
Qed.

Lemma loop_fresh clauses : forall idx F, fresh F (loop idx clauses F).
Proof using Type.
  intros idx F. split; [intros c Hc d Hd HF; by destruct (loop_declares _ _ _ _ _ Hc Hd)|].
  revert idx F. induction clauses as [|c clauses IH]; intros idx F; cbn [candidates_loop]; [set_solver|].
  pose proof (candidate_turn_spec idx c F) as Hc. destruct (candidate_turn score before symbols idx c F) as [x F'].
  destruct Hc as (_ & _ & HF & HD & _).
  assert (Hx : forall y, y ∈ loop (S idx) clauses F' -> cand_declarations y ## cand_declarations x).
  { intros y Hy d Hd Hd'. destruct (loop_declares _ _ _ _ _ Hy Hd) as [Hn _]. rewrite HD in Hd'. set_solver. }
  intros y y' Hy Hy' Hne. apply elem_of_cons in Hy as [->|Hy], Hy' as [->|Hy']; [done|..].
  - symmetry. by apply Hx.
  - by apply Hx.
  - by apply (IH (S idx) F').
Qed.

(** Up to a candidate, its predecessors declare what their clauses bind. *)
Lemma loop_before clauses : forall idx F p x q, loop idx clauses F = p ++ x :: q ->
  F ∪ cbound p = F ∪ bound clause_binds (cand_clause <$> p) /\
  forall d, d ∈ clause_refs (cand_clause x) -> d ∈ F ∪ cbound p -> d ∈ cand_dependencies x.
Proof using Type.
  induction clauses as [|c clauses IH]; intros idx F p x q; cbn [candidates_loop]; [by destruct p|].
  pose proof (candidate_turn_spec idx c F) as Hc. destruct (candidate_turn score before symbols idx c F) as [y F'].
  destruct Hc as (Hcl & _ & -> & HD & Href). destruct p as [|y' p]; cbn [app].
  - intros [= <- _]. split; [done|]. rewrite Hcl. intros d Hd HF. apply Href; [done|]. unfold bound in HF. set_solver.
  - intros [= <- E]. destruct (IH _ _ _ _ _ E) as [Heq Hdep]. rewrite fmap_cons, !bound_cons, Hcl, HD.
    assert (HF : F ∪ (clause_binds c ∖ F ∪ cbound p) = F ∪ clause_binds c ∪ cbound p).
    { apply set_eq. intros d. destruct (decide (d ∈ F)); set_solver. }
    rewrite HF. split; [rewrite Heq; set_solver|exact Hdep].
Qed.
End candidates.

(** *** Regions *)

Notation keeps_clauses := (keeps clause_binds clause_refs).
Notation bound_by := (bound clause_binds).

Section regions.
Variable score : option ReadingClause -> Z.

(** Distinct clauses at distinct addresses. *)
Definition distinct (cs : list (option ReadingClause)) : Prop := NoDup (address <$> cs).

Lemma distinct_same cs a b : distinct cs -> a ∈ cs -> b ∈ cs -> same_clause a b = true -> a = b.
Proof using Type.
  intros Hd Ha Hb Hs. apply bool_decide_eq_true in Hs. apply list_elem_of_lookup in Ha as [i Hi], Hb as [j Hj].
  assert (i = j) as ->.
  { eapply (NoDup_lookup (address <$> cs)); [done|by rewrite list_lookup_fmap, Hi|by rewrite list_lookup_fmap, Hj, Hs]. }
  congruence.
Qed.

Lemma distinct_NoDup cs : distinct cs -> NoDup cs.
Proof using Type. apply NoDup_fmap_1. Qed.

Lemma region_keeps cs U : distinct cs ->
  keeps_clauses U cs (cand_clause <$> reorderCandidateSegments (reorderCandidates score cs U) U).
Proof using Type.
  intros Hd. unfold reorderCandidates. set (symbols := list_to_set _). set (xs := candidates_loop _ _ _ _ _ _).
  assert (Hxs : NoDup xs) by apply loop_NoDup. assert (Hcl : cand_clause <$> xs = cs) by apply loop_clauses.
  destruct (segments_keep U xs Hxs ltac:(apply loop_fresh)) as [Hperm Hkeep].
  set (ys := reorderCandidateSegments xs U) in *.
  split; [rewrite <- Hcl; by apply Permutation_map|]. intros p c q p' q' Eold Enew d Hd' Hb.
  rewrite <- Hcl in Eold. apply fmap_app_inv in Eold as (p0 & r0 & -> & Er & E0).
  destruct r0 as [|x q0]; cbn in Er; [done|]. injection Er as -> ->.
  apply fmap_app_inv in Enew as (p0' & r0' & -> & Er' & E0'). destruct r0' as [|x' q0']; cbn in Er'; [done|].
  injection Er' as Hx' ->.
  assert (x' = x) as ->.
  { assert (Hin' : x' ∈ xs) by (rewrite Hperm, E0'; set_solver). assert (Hin : x ∈ xs) by (rewrite E0; set_solver).
    apply list_elem_of_lookup in Hin as [i Hi], Hin' as [j Hj]. assert (i = j) as ->; [|congruence].
    eapply (NoDup_lookup cs); [by apply distinct_NoDup|..]; rewrite <- Hcl, list_lookup_fmap; [by rewrite Hi|by rewrite Hj; cbn; f_equal]. }
  destruct (loop_before score U symbols cs 0 U p0 x q0 E0) as [Heq Hdep]. rewrite <- Heq in Hb.
  specialize (Hkeep p0 x q0 p0' q0' E0 E0' d (Hdep d Hd' Hb) Hb).
  apply elem_of_union in Hkeep as [Hk|Hk]; [set_solver|]. apply elem_of_union. right.
  apply elem_bound in Hk as (y & Hy & Hdy). apply elem_bound. exists (cand_clause y). split; [by apply list_elem_of_fmap_2|].
  assert (Hyx : y ∈ xs) by (rewrite Hperm, E0'; set_solver). by destruct (loop_declares _ _ _ _ _ _ _ _ Hyx Hdy).
Qed.

Lemma reorderRegion_clauses cs U : distinct cs ->
  (reorderRegion score cs U).1 = cand_clause <$> reorderCandidateSegments (reorderCandidates score cs U) U.
Proof using Type.
  intros Hd. destruct (region_keeps cs U Hd) as [Hperm _]. cbn [reorderRegion fst].
  set (ys := reorderCandidateSegments _ _) in *. assert (Hlen : length cs = length ys).
  { by rewrite Hperm, length_fmap. }
  assert (Hin : forall y, y ∈ ys -> cand_clause y ∈ cs).
  { intros y Hy. rewrite Hperm. by apply list_elem_of_fmap_2. }
  apply list_eq. intros i. rewrite lookup_zip_with, list_lookup_fmap.
  destruct (ys !! i) as [y|] eqn:Hy; cbn.
  - destruct (cs !! i) as [c|] eqn:Hc; cbn; [|apply lookup_ge_None in Hc; apply lookup_lt_Some in Hy; lia].
    f_equal. unfold write_clause. destruct (same_clause c (cand_clause y)) eqn:Hs; [|done].
    apply (distinct_same cs); [done|by eapply list_elem_of_lookup_2|apply Hin; by eapply list_elem_of_lookup_2|done].
  - by destruct (cs !! i).
Qed.

Lemma reorderRegion_keeps cs U : distinct cs -> keeps_clauses U cs (reorderRegion score cs U).1.
Proof using Type. intros Hd. rewrite reorderRegion_clauses by done. by apply region_keeps. Qed.

(** What one region does to the list of clauses: it keeps the order safe, and
    only moves clauses within the region. *)
Definition moves_within (region : Region) (cs cs' : list (option ReadingClause)) : Prop :=
  keeps_clauses ∅ cs cs' /\
  forall i j c, cs !! i = Some c -> cs' !! j = Some c -> i = j \/ (covers region i /\ covers region j).

Lemma region_split cs region : region_in_range cs region = true ->
  cs = take (rg_StartClause region) cs ++ region_clauses cs region ++ drop (S (rg_EndClause region)) cs /\
  length (take (rg_StartClause region) cs) = rg_StartClause region /\
  length (region_clauses cs region) = S (rg_EndClause region) - rg_StartClause region.
Proof using Type.
  unfold region_in_range, region_clauses. rewrite andb_true_iff, !Nat.ltb_lt. intros [He Hs]. split_and!.
  - rewrite <- (take_drop (rg_StartClause region) cs) at 1. f_equal.
    rewrite <- (take_drop (S (rg_EndClause region) - rg_StartClause region) (drop _ cs)) at 1. f_equal.
    rewrite drop_drop. f_equal. lia.
  - rewrite length_take. lia.
  - rewrite length_take, length_drop. lia.
Qed.

(** A clause of a permuted middle part stays in that part. *)
Lemma middle_moves (pre mid mid' post : list (option ReadingClause)) i j c :
  NoDup (pre ++ mid ++ post) -> mid ≡ₚ mid' ->
  (pre ++ mid ++ post) !! i = Some c -> (pre ++ mid' ++ post) !! j = Some c ->
  i = j \/ (length pre <= i < length pre + length mid /\ length pre <= j < length pre + length mid).
Proof using Type.
  intros Hnd Hp Hi Hj. assert (Hl : length mid = length mid') by by rewrite Hp.
  apply NoDup_app in Hnd as (Hpre & Hx & Hnd). apply NoDup_app in Hnd as (Hmid & Hy & Hpost).
  assert (Hx' : forall a, a ∈ pre -> a ∉ mid' ++ post).
  { intros a Ha. rewrite <- Hp. by apply Hx. }
  apply lookup_app_Some in Hi as [Hi|[Hi1 Hi]], Hj as [Hj|[Hj1 Hj]].
  - left. by apply (NoDup_lookup pre i j c).
  - exfalso. apply list_elem_of_lookup_2 in Hi, Hj. by apply (Hx' c).
  - exfalso. apply list_elem_of_lookup_2 in Hi, Hj. by apply (Hx c).
  - apply lookup_app_Some in Hi as [Hi|[Hi2 Hi]], Hj as [Hj|[Hj2 Hj]].
    + right. apply lookup_lt_Some in Hi, Hj. lia.
    + exfalso. apply list_elem_of_lookup_2 in Hi, Hj. by apply (Hy c).
    + exfalso. apply list_elem_of_lookup_2 in Hi, Hj. apply (Hy c); [by rewrite Hp|done].
    + left. assert (i - length pre - length mid = j - length pre - length mid); [|lia]. rewrite <- Hl in Hj.
      by apply (NoDup_lookup post _ _ c).
Qed.

Lemma reorder_turn_moves cs applied region : distinct cs ->
  moves_within region cs (reorder_turn score (cs, applied) region).1.
Proof using Type.
  intros Hd. unfold reorder_turn. pose proof (distinct_NoDup cs Hd) as Hnd.
  destruct (region_in_range cs region) eqn:Hr.
  2:{ split; [by apply keeps_refl|]. intros i j c Hi Hj. left. by apply (NoDup_lookup cs i j c). }
  destruct (region_split cs region Hr) as (E & Hpre & Hmid). rewrite declaredBeforeClause_bound.
  apply andb_true_iff in Hr as [Hr1 Hr2]. apply Nat.ltb_lt in Hr1, Hr2.
  set (pre := take (rg_StartClause region) cs) in *. set (mid := region_clauses cs region) in *.
  set (post := drop (S (rg_EndClause region)) cs) in *. clearbody pre mid post. subst cs.
  assert (Hdm : distinct mid).
  { unfold distinct in *. rewrite !fmap_app in Hd. by apply NoDup_app in Hd as (_ & _ & (? & _)%NoDup_app). }
  pose proof (reorderRegion_keeps mid (bound_by pre) Hdm) as Hk.
  destruct (reorderRegion score mid (bound_by pre)) as [mid' moved]. cbn [fst] in *. split.
  - apply NoDup_app in Hnd as Hnd'. destruct Hnd' as (Hn1 & _ & Hn2). apply keeps_app; [done|by apply keeps_refl|].
    apply keeps_app; [done|by rewrite (left_id_L ∅ (∪))|]. apply keeps_refl. by apply NoDup_app in Hn2 as (_ & _ & ?).
  - intros i j c Hi Hj. destruct (middle_moves pre mid mid' post i j c Hnd (proj1 Hk) Hi Hj) as [->|[? ?]]; [by left|].
    right. unfold covers. lia.
Qed.

Lemma distinct_perm cs cs' : cs ≡ₚ cs' -> distinct cs -> distinct cs'.
Proof using Type. unfold distinct. intros Hp. by rewrite Hp. Qed.

(** No clause passes a position outside the regions. *)
Lemma reorder_moves cs regions : distinct cs ->
  let cs' := (reorderReadingClauses score cs regions).1 in
  keeps_clauses ∅ cs cs' /\
  forall k, (forall r, r ∈ regions -> ~ covers r k) ->
    forall i j c, cs !! i = Some c -> cs' !! j = Some c -> (i < k <-> j < k) /\ (i = k <-> j = k).
Proof using Type.
  unfold reorderReadingClauses. generalize false. revert cs.
  induction regions as [|region regions IH]; intros cs applied Hd; cbn [foldl fst].
  - pose proof (distinct_NoDup cs Hd) as Hnd. split; [by apply keeps_refl|].
    intros k _ i j c Hi Hj. by rewrite (NoDup_lookup cs i j c).
  - pose proof (reorder_turn_moves cs applied region Hd) as [Hk Hm].
    destruct (reorder_turn score (cs, applied) region) as [cs1 applied1]. cbn [fst] in *.
    destruct (IH cs1 applied1 (distinct_perm _ _ (proj1 Hk) Hd)) as [Hk1 Hm1].
    split; [eapply keeps_trans; [by apply distinct_NoDup|done..]|]. intros k Hout i j c Hi Hj.
    assert (Hc : c ∈ cs1) by (rewrite <- (proj1 Hk); by eapply list_elem_of_lookup_2).
    apply list_elem_of_lookup in Hc as [l Hl].
    assert (Hreg : ~ covers region k) by (apply Hout; by left). unfold covers in Hreg.
    destruct (Hm1 k ltac:(intros r Hr; apply Hout; by right) l j c Hl Hj) as [H1 H2].
    destruct (Hm i l c Hi Hl) as [->|[Hci Hcl]]; [done|]. unfold covers in *. lia.
Qed.

(** *** The test whether anything would move *)

Lemma reordered_length cs U : length (reorderCandidateSegments (reorderCandidates score cs U) U) = length cs.
Proof using Type.
  unfold reorderCandidates. set (xs := candidates_loop _ _ _ _ _ _).
  assert (Hxs : NoDup xs) by apply loop_NoDup. destruct (segments_keep U xs Hxs ltac:(apply loop_fresh)) as [Hperm _].
  assert (Hcl : cand_clause <$> xs = cs) by apply loop_clauses. rewrite <- Hperm, <- (length_fmap cand_clause xs). by f_equal.
Qed.

Lemma reorderRegion_unmoved cs U : (reorderRegion score cs U).2 = false -> (reorderRegion score cs U).1 = cs.
Proof using Type.
  cbn [reorderRegion fst snd]. pose proof (reordered_length cs U) as Hlen.
  generalize dependent (reorderCandidateSegments (reorderCandidates score cs U) U).
  induction cs as [|c cs IH]; intros [|y ys] Hlen Hno; cbn in *; try done.
  apply orb_false_iff in Hno as [Hc Hno]. apply negb_false_iff in Hc. unfold write_clause at 1. rewrite Hc. f_equal.
  apply IH; [lia|done].
Qed.

Lemma reorder_turn_would cs applied region :
  reorder_turn score (cs, applied) region =
  if region_in_range cs region &&
     reorderRegionWouldApply score (region_clauses cs region) (declaredBeforeClause cs (rg_StartClause region))
  then ((reorder_turn score (cs, applied) region).1, true) else (cs, applied).
Proof using Type.
  unfold reorder_turn. destruct (region_in_range cs region) eqn:Hr; [|done]. cbn [andb].
  set (U := declaredBeforeClause _ _). set (mid := region_clauses cs region).
  change (reorderRegionWouldApply score mid U) with ((reorderRegion score mid U).2).
  pose proof (reorderRegion_unmoved mid U) as Hu. destruct (reorderRegion score mid U) as [mid' moved]. cbn [fst snd] in *.
  destruct moved; [done|]. rewrite Hu by done. unfold mid. by destruct (region_split cs region Hr) as (<- & _).
Qed.

Lemma reorder_applied regions : forall cs, (foldl (reorder_turn score) (cs, true) regions).2 = true.
Proof using Type.
  induction regions as [|region regions IH]; intros cs; cbn [foldl]; [done|].
  rewrite reorder_turn_would. destruct (_ && _); apply IH.
Qed.

Lemma reorder_would cs regions :
  reorderReadingClauses score cs regions =
  if readingClausesWouldReorder score cs regions then ((reorderReadingClauses score cs regions).1, true) else (cs, false).
Proof using Type.
  unfold reorderReadingClauses, readingClausesWouldReorder.
  induction regions as [|region regions IH]; cbn [foldl existsb]; [done|].
  rewrite reorder_turn_would. destruct (_ && _); cbn [orb]; [|apply IH].
  pose proof (reorder_applied regions (reorder_turn score (cs, false) region).1) as Ht. revert Ht.
  destruct (foldl _ (_, true) regions) as [cs' applied']. cbn. by intros ->.
Qed.

Lemma reorder_part_would analysis index cs :
  reorder_part score analysis index cs =
  if would_reorder_part score analysis index cs then ((reorder_part score analysis index cs).1, true) else (cs, false).
Proof using Type.
  unfold reorder_part, would_reorder_part. destruct (analysisQueryPart analysis index); [|done]. apply reorder_would.
Qed.

Lemma reorderSingle_would analysis index p :
  reorderSinglePartQuery score analysis index p =
  if would_reorder_part score analysis index (sp_ReadingClauses p)
  then ((reorderSinglePartQuery score analysis index p).1, true) else (p, false).
Proof using Type.
  unfold reorderSinglePartQuery. rewrite reorder_part_would. destruct (would_reorder_part _ _ _ _), p; done.
Qed.

Definition would_reorder_multi (analysis : list QueryPart) (index : nat) (part : option MultiPartQueryPart) : bool :=
  match part with Some p => would_reorder_part score analysis index (mp_ReadingClauses p) | None => false end.

Lemma reorderMulti_would analysis index part :
  reorder_multi_part score analysis index part =
  if would_reorder_multi analysis index part then ((reorder_multi_part score analysis index part).1, true) else (part, false).
Proof using Type.
  destruct part as [p|]; [|done]. cbn. rewrite reorder_part_would. destruct (would_reorder_part _ _ _ _), p; done.
Qed.

Lemma reorder_parts_flag (f : nat -> option MultiPartQueryPart -> option MultiPartQueryPart * bool) (w : nat -> option MultiPartQueryPart -> bool) parts :
  (forall i p, f i p = if w i p then ((f i p).1, true) else (p, false)) ->
  existsb snd (imap f parts) = existsb id (imap w parts) /\
  (existsb id (imap w parts) = false -> fst <$> imap f parts = parts).
Proof using Type.
  revert f w. induction parts as [|p parts IH]; intros f w Hf; [done|]. cbn [imap existsb fmap list_fmap].
  destruct (IH (f ∘ S) (w ∘ S) ltac:(intros; apply Hf)) as [H1 H2]. rewrite H1, (Hf 0 p). unfold id at 1 4.
  destruct (w 0 p); [done|]. split; [done|]. intros Hno. cbn in Hno. cbn [fst]. by rewrite H2.
Qed.

Lemma reorder_last_flag analysis index (last : option SinglePartQuery) :
  let f := reorderSinglePartQuery score analysis index <$> last in
  let w := match last with Some p => would_reorder_part score analysis index (sp_ReadingClauses p) | None => false end in
  default false (snd <$> f) = w /\ (w = false -> fst <$> f = last).
Proof using Type.
  destruct last as [p|]; [|done]. cbn [fmap option_fmap option_map]. rewrite reorderSingle_would.
  by destruct (would_reorder_part _ _ _ _).
Qed.

Lemma reorder_query_would query analysis :
  (reorder_query score query analysis).2 = queryWouldReorder score query analysis /\
  (queryWouldReorder score query analysis = false -> reorder_query score query analysis = (query, false)).
Proof using Type.
  unfold reorder_query, queryWouldReorder. destruct query as [[[single multi]|]|]; cbn [mjoin option_join]; [|done..].
  cbn [sq_MultiPartQuery sq_SinglePartQuery]. destruct multi as [[parts last]|].
  - unfold reorderMultiPartQuery. cbn [mq_Parts mq_SinglePartQuery].
    destruct (reorder_parts_flag (reorder_multi_part score analysis) (would_reorder_multi analysis) parts
      (reorderMulti_would analysis)) as [H1 H2]. unfold would_reorder_multi in *.
    destruct (reorder_last_flag analysis (length parts) last) as [H3 H4]. rewrite H1, H3. cbn [snd]. split; [done|].
    intros [Hp Hl]%orb_false_iff. rewrite H2, H4, Hp, Hl by done. done.
  - destruct single as [p|]; [|done]. rewrite reorderSingle_would. by destruct (would_reorder_part _ _ _ _).
Qed.
End regions.

(** ** The choice is the best one *)

Definition schedulable (available : gset string) (l : list reorderCandidate) (i : nat) (c : reorderCandidate) : Prop :=
  l !! i = Some c /\ candidateDependenciesSatisfied c available = true.

Lemma better_irrefl c : better c c = false.
Proof. unfold better. rewrite Z.ltb_irrefl, Z.eqb_refl, Nat.ltb_irrefl. done. Qed.

(** A better candidate beats all that the one it replaces beats. *)
Lemma better_trans a b c : better b c = true -> better a c = false -> better a b = false.
Proof.
  unfold better. rewrite orb_true_iff, andb_true_iff, !orb_false_iff, !andb_false_iff, !Z.ltb_lt, !Z.eqb_eq, !Z.ltb_ge,
    !Z.eqb_neq, !Nat.ltb_lt, !Nat.ltb_ge. lia.
Qed.

(** The best of the first [n] candidates. *)
Definition best_of (available : gset string) (l : list reorderCandidate) (n : nat) (best : option nat) : Prop :=
  match best with
  | None => forall j c, j < n -> ~ schedulable available l j c
  | Some i => exists b, schedulable available l i b /\ forall j c, j < n -> schedulable available l j c -> better c b = false
  end.

Lemma best_turn_best available l n c best : l !! n = Some c ->
  best_of available l n best -> best_of available l (S n) (best_turn l available best (n, c)).
Proof.
  intros Hn Hb. unfold best_turn. destruct (candidateDependenciesSatisfied c available) eqn:Hsat; cbn [negb].
  - destruct best as [i|]; cbn [mbind option_bind].
    + destruct Hb as (b & [Hi Hbs] & Hbest). rewrite Hi. destruct (better c b) eqn:Hcb.
      * exists c. split; [done|]. intros j c' Hj [Hl Hs]. destruct (decide (j = n)) as [->|].
        { assert (c' = c) as -> by congruence. apply better_irrefl. }
        eapply better_trans; [done|]. apply (Hbest j); [lia|done].
      * exists b. split; [done|]. intros j c' Hj [Hl Hs]. destruct (decide (j = n)) as [->|]; [by assert (c' = c) as -> by congruence|].
        apply (Hbest j); [lia|done].
    + exists c. split; [done|]. intros j c' Hj Hs. destruct (decide (j = n)) as [->|]; [|exfalso; eapply (Hb j c'); [lia|done]].
      destruct Hs as [Hl _]. assert (c' = c) as -> by congruence. apply better_irrefl.
  - assert (Hnot : forall c', ~ schedulable available l n c') by (intros c' [Hl Hs]; congruence).
    destruct best as [i|].
    + destruct Hb as (b & Hbs & Hbest). exists b. split; [done|]. intros j c' Hj Hs.
      destruct (decide (j = n)) as [->|]; [by apply Hnot in Hs|apply (Hbest j); [lia|done]].
    + intros j c' Hj. destruct (decide (j = n)) as [->|]; [apply Hnot|apply Hb; lia].
Qed.

Lemma best_loop available l : forall rest n best, drop n l = rest -> best_of available l n best ->
  best_of available l (n + length rest) (foldl (best_turn l available) best (imap (fun i c => (n + i, c)) rest)).
Proof.
  induction rest as [|c rest IH]; intros n best Hd Hb; cbn [imap foldl length]; [by rewrite Nat.add_0_r|].
  assert (Hn : l !! n = Some c) by by rewrite <- (Nat.add_0_r n), <- lookup_drop, Hd.
  rewrite Nat.add_0_r, Nat.add_succ_r, <- Nat.add_succ_l.
  replace (imap _ rest) with (imap (fun i c => (S n + i, c)) rest) by (apply imap_ext; intros; cbn; f_equal; lia).
  apply IH; [|by apply best_turn_best]. replace (S n) with (n + 1) by lia. by rewrite <- drop_drop, Hd.
Qed.

(** The candidate scheduled next is the most selective one whose
    dependencies are available, and of several the one that came first; there is
    none exactly when no candidate can be scheduled. *)
Theorem bestSchedulableCandidateIndex_best available candidates :
  match bestSchedulableCandidateIndex candidates available with
  | None => forall j c, ~ schedulable available candidates j c
  | Some i => exists b, schedulable available candidates i b /\
      forall j c, schedulable available candidates j c ->
        (cand_score c < cand_score b)%Z \/ (cand_score c = cand_score b /\ cand_index b <= cand_index c)
  end.
Proof.
  pose proof (best_loop available candidates candidates 0 None eq_refl ltac:(intros ? ? ?; lia)) as Hb.
  unfold bestSchedulableCandidateIndex. change (imap pair candidates) with (imap (fun i c => (0 + i, c)) candidates).
  destruct (foldl _ _ _) as [i|]; cbn in Hb.
  - destruct Hb as (b & Hbs & Hbest). exists b. split; [done|]. intros j c Hs.
    specialize (Hbest j c ltac:(by destruct Hs as [?%lookup_lt_Some _]) Hs). unfold better in Hbest.
    rewrite orb_false_iff, andb_false_iff, Z.ltb_ge, Z.eqb_neq, Nat.ltb_ge in Hbest. lia.
  - intros j c Hs. apply (Hb j c); [by destruct Hs as [?%lookup_lt_Some _]|done].
Qed.

(** ** The rule is safe *)

(** [C15] Reordering keeps a query part meaningful, whatever the estimates of
    selectivity are: the clauses are the same up to order; no clause passes an
    [UNWIND], an [OPTIONAL MATCH] or a missing clause, which stay where they
    are; and every symbol that a clause binds again, or that its predicates and
    property maps refer to, and that an earlier clause had bound, is still bound
    by an earlier clause. *)
Theorem reorderReadingClauses_safe score part cs : distinct cs ->
  let cs' := (reorderReadingClauses score cs (analyzeReadingClauses part cs).1).1 in
  cs ≡ₚ cs' /\
  (forall k b, cs !! k = Some b -> is_barrier b = true ->
     forall i j c, cs !! i = Some c -> cs' !! j = Some c -> (i < k <-> j < k) /\ (i = k <-> j = k)) /\
  (forall i j c x, cs !! i = Some c -> cs' !! j = Some c -> x ∈ clause_refs c ->
     x ∈ bound_by (take i cs) -> x ∈ bound_by (take j cs')).
Proof.
  intros Hd. destruct (reorder_moves score cs (analyzeReadingClauses part cs).1 Hd) as [[Hp Hk] Hm].
  split_and!; [done|..].
  - intros k b Hb Hbar. apply Hm. intros r Hr Hcov.
    destruct (regions_no_barrier part cs r k Hr Hcov) as (c & Hc & Hnb). congruence.
  - intros i j c x Hi Hj Hx Hb. apply take_drop_middle in Hi, Hj.
    assert (Hin : x ∈ ∅ ∪ bound_by (take i cs)) by set_solver.
    pose proof (Hk _ c _ _ _ (eq_sym Hi) (eq_sym Hj) x Hx Hin). set_solver.
Qed.

(** The rule reports a change exactly when it makes one: testing first
    whether anything would move, before the query is copied, gives the query and
    the answer that reordering without the test gives. *)
Theorem Apply_guarded score query analysis :
  ConservativePatternReorderingRule_Apply score query analysis = reorder_query score query analysis /\
  (ConservativePatternReorderingRule_Apply score query analysis).2 = queryWouldReorder score query analysis.
Proof.
  unfold ConservativePatternReorderingRule_Apply. destruct (reorder_query_would score query analysis) as [H1 H2].
  destruct (queryWouldReorder score query analysis); [done|]. by rewrite H2.
Qed.

(** *** A query part: [MATCH (a) MATCH (b) WHERE ... UNWIND ... MATCH (c)-[]->(a)] *)

Definition demo_node (v : string) : option (PatternElement Expression) := Some (NodeElement (mkNodePattern (Some v) [] None)).

Definition demo_clause (addr : nat) (variables : list string) (where_ : Where) : option ReadingClause :=
  Some (mkReadingClause addr
    (Some (mkMatch false [Some (mkPatternPart addr None false false (demo_node <$> variables) false)] (Some where_))) None).

Definition demo_part : list (option ReadingClause) :=
  [ demo_clause 0 ["a"] [];
    demo_clause 1 ["b"] [Some (EPropertyLookup (Some (EVariable "b")) "name")];
    Some (mkReadingClause 2 None (Some (mkUnwind None None)));
    demo_clause 3 ["c"; "a"] [] ].

(** Clauses with a predicate are the more selective ones. *)
Definition demo_score (c : option ReadingClause) : Z :=
  match c ≫= clause_Match with Some m => Z.of_nat (wherePredicateCount (match_Where m)) | None => 0 end.

Lemma reorderReadingClauses_safe_witness :
  let cs' := (reorderReadingClauses demo_score demo_part (analyzeReadingClauses 0 demo_part).1).1 in
  address <$> cs' = [Some 1; Some 0; Some 2; Some 3] /\ "a" ∈ bound_by (take 3 cs').
Proof.
  assert (Hd : distinct demo_part) by (unfold distinct; vm_compute; repeat constructor; set_solver).
  destruct (reorderReadingClauses_safe demo_score 0 demo_part Hd) as (_ & _ & Hkeep).
  split; [vm_compute; reflexivity|].
  apply (Hkeep 3 3 (demo_clause 3 ["c"; "a"] []) "a"); [reflexivity|vm_compute; reflexivity|..].
  - apply elem_of_union. left. apply elem_of_list_to_set. vm_compute. set_solver.
  - apply elem_bound. exists (demo_clause 0 ["a"] []). split; [by left|]. apply elem_of_list_to_set. vm_compute. set_solver.
Defined.
