(* ===== verification/SourceReferences.v ===== *)
(** * Source references (cypher/models/pgsql/optimize/source_references.go, pattern_predicates.go)

    Which identifiers of a query part are used besides being bound by its
    patterns, and which pattern predicates and quantifiers it holds.  The
    collector follows the walk in and out of pattern parts;
    [collectReferencedSourceIdentifiers_exact] gives what it computes by recursion
    on the tree. *)

From S2P Require Import Prelude Framing Walk WalkTree Kinds Digraph CypherAst Analysis.

(** ** The collector *)

Record sourceReferenceCollector := mkCollector {
  src_referencedIdentifiers : gset string;
  src_matchPatternDeclarationRefs : gmap string nat;
  src_matchPatternDeclarations : gset nat;
  src_matchPatternDeclarationDepth : Z;
}.

Definition newSourceReferenceCollector : sourceReferenceCollector := mkCollector ∅ ∅ ∅ 0%Z.

Definition addVariable (variable : option string) (s : sourceReferenceCollector) : sourceReferenceCollector :=
  match variable with
  | Some symbol =>
      if bool_decide (symbol = "") then s
      else mkCollector ({[symbol]} ∪ src_referencedIdentifiers s) (src_matchPatternDeclarationRefs s)
             (src_matchPatternDeclarations s) (src_matchPatternDeclarationDepth s)
  | None => s
  end.

Definition count_of (refs : gmap string nat) (symbol : string) : nat := default 0 (refs !! symbol).

Definition addMatchPatternDeclaration (variable : option string) (s : sourceReferenceCollector) : sourceReferenceCollector :=
  match variable with
  | Some symbol =>
      if bool_decide (symbol = "") then s
      else mkCollector (src_referencedIdentifiers s)
             (<[symbol := S (count_of (src_matchPatternDeclarationRefs s) symbol)]> (src_matchPatternDeclarationRefs s))
             (src_matchPatternDeclarations s) (src_matchPatternDeclarationDepth s)
  | None => s
  end.

Definition collectRepeatedMatchPatternDeclarations (s : sourceReferenceCollector) : gset string :=
  src_referencedIdentifiers s ∪ dom (filter (fun kv : string * nat => 1 < kv.2) (src_matchPatternDeclarationRefs s)).

Definition isMatchPatternDeclaration (patternPart : PatternPart Expression) (s : sourceReferenceCollector) : bool :=
  bool_decide (pp_addr patternPart ∈ src_matchPatternDeclarations s).

Definition declare_parts (m : Match) (s : sourceReferenceCollector) : sourceReferenceCollector :=
  mkCollector (src_referencedIdentifiers s) (src_matchPatternDeclarationRefs s)
    (src_matchPatternDeclarations s ∪ list_to_set (omap (fmap pp_addr) (match_Pattern m))) (src_matchPatternDeclarationDepth s).

Definition add_depth (d : Z) (s : sourceReferenceCollector) : sourceReferenceCollector :=
  mkCollector (src_referencedIdentifiers s) (src_matchPatternDeclarationRefs s) (src_matchPatternDeclarations s)
    (src_matchPatternDeclarationDepth s + d).

Definition source_Enter (node : SyntaxNode) (s : sourceReferenceCollector) : sourceReferenceCollector :=
  let outside := bool_decide (src_matchPatternDeclarationDepth s = 0%Z) in
  match node with
  | NMatch m => declare_parts m s
  | NPatternPart p =>
      if isMatchPatternDeclaration p s then add_depth 1 (addMatchPatternDeclaration (pp_Variable p) s)
      else addVariable (pp_Variable p) s
  | NNodePattern n => if outside then addVariable (np_Variable n) s else addMatchPatternDeclaration (np_Variable n) s
  | NRelationshipPattern r => if outside then addVariable (rp_Variable r) s else addMatchPatternDeclaration (rp_Variable r) s
  | NExpression (EPropertyLookup (Some (EVariable symbol)) _) => addVariable (Some symbol) s
  | NExpression (EVariable symbol) => if outside then addVariable (Some symbol) s else s
  | _ => s
  end.

Definition source_Exit (node : SyntaxNode) (s : sourceReferenceCollector) : sourceReferenceCollector :=
  match node with
  | NPatternPart p => if isMatchPatternDeclaration p s then add_depth (-1) s else s
  | _ => s
  end.

Definition collectReferencedSourceIdentifiers (root : option SyntaxNode) : gset string * option error :=
  match root with
  | None => (∅, None)
  | Some root =>
      match Cypher (bracketing source_Enter source_Exit) root newSourceReferenceCollector with
      | (s, Some err) => (src_referencedIdentifiers s, Some err)
      | (s, None) => (collectRepeatedMatchPatternDeclarations s, None)
      end
  end.

Definition referencesSourceIdentifier (references : gset string) (symbol : string) : bool :=
  if bool_decide (TokenLiteralAsterisk ∈ references) then true
  else if bool_decide (symbol = "") then false
  else bool_decide (symbol ∈ references).

(** ** Pattern predicates and quantifiers *)

Record predicate := mkPredicateNode {
  pred_addr : nat;
  pred_PatternElements : list (option (PatternElement Expression));
}.

Definition collect_predicate (node : SyntaxNode) (predicates : list predicate) : list predicate :=
  match node with
  | NExpression (EPatternPredicate addr elements) => predicates ++ [mkPredicateNode addr elements]
  | _ => predicates
  end.

Definition patternPredicatesInQueryPart (queryPart : SyntaxNode) : list predicate :=
  match Cypher (NewSimpleVisitor (acting (collector collect_predicate))) queryPart [] with
  | (_, Some _) => []
  | (predicates, None) => predicates
  end.

Record indexedPatternPredicate := mkIndexedPatternPredicate {
  ip_ClauseIndex : nat;
  ip_PredicateIndex : nat;
  ip_Predicate : predicate;
}.

(** Appends with the next index. *)
Definition index_predicate (clauseIndex : nat) (indexed : list indexedPatternPredicate) (p : predicate)
    : list indexedPatternPredicate :=
  indexed ++ [mkIndexedPatternPredicate clauseIndex (length indexed) p].

(** The predicates of [WHERE] clauses, with the index of their clause. *)
Definition where_predicates (clauseIndex : nat) (readingClause : option ReadingClause) : list (nat * predicate) :=
  match (readingClause ≫= clause_Match) ≫= match_Where with
  | Some where_ => pair clauseIndex <$> patternPredicatesInQueryPart (NWhere where_)
  | None => []
  end.

Definition query_part_clauses (queryPart : SyntaxNode) : list (option ReadingClause) :=
  match queryPart with
  | NSinglePartQuery p => sp_ReadingClauses p
  | NMultiPartQueryPart p => mp_ReadingClauses p
  | _ => []
  end.

Definition indexedPatternPredicatesInQueryPart (queryPart : SyntaxNode) : list indexedPatternPredicate :=
  let wheres := concat (imap where_predicates (query_part_clauses queryPart)) in
  let seen : gset nat := list_to_set (pred_addr ∘ snd <$> wheres) in
  let others := filter (fun p => pred_addr p ∉ seen) (patternPredicatesInQueryPart queryPart) in
  foldl (fun indexed p => index_predicate p.1 indexed p.2) [] (wheres ++ (pair 0 <$> others)).

Definition patternPartForPredicate (p : predicate) : PatternPart Expression :=
  mkPatternPart 0 None false false (pred_PatternElements p) false.

Record quantifier := mkQuantifier {
  qt_addr : nat;
  qt_Type : QuantifierType;
  qt_Filter : option (FilterExpression Expression);
}.

Definition collect_quantifier (node : SyntaxNode) (quantifiers : list quantifier) : list quantifier :=
  match node with
  | NExpression (EQuantifier addr type filter) => quantifiers ++ [mkQuantifier addr type filter]
  | _ => quantifiers
  end.

(** The quantifiers below a node, in the order of the walk, which numbers them. *)
Definition quantifiersInSyntax (node : SyntaxNode) : list quantifier :=
  match Cypher (NewSimpleVisitor (acting (collector collect_quantifier))) node [] with
  | (_, Some _) => []
  | (quantifiers, None) => quantifiers
  end.

Definition indexedQuantifiersInQueryPart (queryPart : SyntaxNode) : list (nat * quantifier) :=
  imap pair (quantifiersInSyntax queryPart).

(** ** What the collector computes *)

(** [in_match]: the node is a branch of a match; [inside]: it lies in a pattern
    of a match. *)
Definition uses (in_match inside : bool) (n : SyntaxNode) : list string :=
  match n with
  | NPatternPart p => if in_match then [] else named (pp_Variable p)
  | NNodePattern n => if inside then [] else named (np_Variable n)
  | NRelationshipPattern r => if inside then [] else named (rp_Variable r)
  | NExpression (EPropertyLookup (Some (EVariable symbol)) _) => named (Some symbol)
  | NExpression (EVariable symbol) => if inside then [] else named (Some symbol)
  | _ => []
  end.

Definition binds (in_match inside : bool) (n : SyntaxNode) : list string :=
  match n with
  | NPatternPart p => if in_match then named (pp_Variable p) else []
  | NNodePattern n => if inside then named (np_Variable n) else []
  | NRelationshipPattern r => if inside then named (rp_Variable r) else []
  | _ => []
  end.

Definition is_match (n : SyntaxNode) : bool := match n with NMatch _ => true | _ => false end.
Definition is_part (n : SyntaxNode) : bool := match n with NPatternPart _ => true | _ => false end.

Definition match_parts (n : SyntaxNode) : list nat :=
  match n with NMatch m => omap (fmap pp_addr) (match_Pattern m) | _ => [] end.

Section over_the_tree.
Context {X : Type}.
Variable f : bool -> bool -> SyntaxNode -> list X.

(** What [f] gives at every node, with the flags of the node. *)
Fixpoint gather (in_match inside : bool) (t : tree (N := SyntaxNode)) : list X :=
  match t with
  | Broken _ => []
  | Tree n ts => f in_match inside n ++ concat (gather (is_match n) (in_match && is_part n || inside) <$> ts)
  end.
End over_the_tree.

(** A pattern part that is not a branch of a match is not the part of another match. *)
Definition part_apart (M : gset nat) (in_match : bool) (n : SyntaxNode) : bool :=
  match n with NPatternPart p => in_match || bool_decide (pp_addr p ∉ M) | _ => true end.

Definition match_addresses (n : SyntaxNode) : list nat := gather (fun _ _ => match_parts) false false (cypher_tree n).

Definition parts_apart (n : SyntaxNode) : bool :=
  let M := list_to_set (match_addresses n) in
  forallb id (gather (fun in_match _ n => [part_apart M in_match n]) false false (cypher_tree n)).

(** The collector after uses, bindings and declared parts. *)
Definition counts (refs : gmap string nat) (symbols : list string) : gmap string nat :=
  foldl (fun m x => <[x := S (count_of m x)]> m) refs symbols.

Definition plus (s : sourceReferenceCollector) (used bound : list string) (parts : list nat) : sourceReferenceCollector :=
  mkCollector (src_referencedIdentifiers s ∪ list_to_set used) (counts (src_matchPatternDeclarationRefs s) bound)
    (src_matchPatternDeclarations s ∪ list_to_set parts) (src_matchPatternDeclarationDepth s).

Lemma plus_app s u u' b b' p p' : plus (plus s u b p) u' b' p' = plus s (u ++ u') (b ++ b') (p ++ p').
Proof. unfold plus, counts. cbn. rewrite !list_to_set_app_L, foldl_app, !assoc_L by apply _. done. Qed.

Lemma plus_nil s : plus s [] [] [] = s.
Proof. destruct s. unfold plus. cbn. by rewrite !(right_id_L ∅ (∪)). Qed.

Lemma plus_depth s u b p d : plus (add_depth d s) u b p = add_depth d (plus s u b p).
Proof. done. Qed.

Lemma add_depth_cancel s d : add_depth (-d) (add_depth d s) = s.
Proof. destruct s. unfold add_depth. cbn. f_equal. lia. Qed.

Lemma addVariable_plus v s : addVariable v s = plus s (named v) [] [].
Proof.
  destruct v as [x|]; [|by rewrite plus_nil]. cbn. case_bool_decide; [by rewrite plus_nil|]. destruct s. unfold plus. cbn.
  rewrite !(right_id_L ∅ (∪)). by rewrite (comm_L (∪)).
Qed.

Lemma addMatchPatternDeclaration_plus v s : addMatchPatternDeclaration v s = plus s [] (named v) [].
Proof.
  destruct v as [x|]; [|by rewrite plus_nil]. cbn. case_bool_decide; [by rewrite plus_nil|]. destruct s. unfold plus. cbn.
  by rewrite !(right_id_L ∅ (∪)).
Qed.

(** The state in which a node is entered. *)
Definition fits (M : gset nat) (in_match inside : bool) (n : SyntaxNode) (s : sourceReferenceCollector) : Prop :=
  (src_matchPatternDeclarationDepth s = 0%Z <-> inside = false) /\ (0 <= src_matchPatternDeclarationDepth s)%Z /\
  src_matchPatternDeclarations s ⊆ M /\ part_apart M in_match n = true /\
  (in_match = true -> forall p, n = NPatternPart p -> pp_addr p ∈ src_matchPatternDeclarations s).

Definition step_in (in_match : bool) (n : SyntaxNode) : Z := if in_match && is_part n then 1 else 0.

Lemma is_declaration M b i n p s parts : fits M b i n s -> n = NPatternPart p -> list_to_set parts ⊆ M ->
  isMatchPatternDeclaration p (plus s [] [] parts) = b.
Proof.
  intros (_ & _ & HM & Hap & Hin) -> Hp. unfold isMatchPatternDeclaration, plus. cbn. destruct b.
  - apply bool_decide_eq_true. specialize (Hin eq_refl p eq_refl). set_solver.
  - apply bool_decide_eq_false. cbn in Hap. apply bool_decide_eq_true in Hap. set_solver.
Qed.

Lemma Enter_plus M b i n s : fits M b i n s ->
  source_Enter n s = add_depth (step_in b n) (plus s (uses b i n) (binds b i n) (match_parts n)).
Proof.
  intros Hf. pose proof Hf as ([H0 H0'] & _). assert (Hz : forall s', add_depth 0 s' = s') by
    (intros []; unfold add_depth; cbn; f_equal; lia).
  assert (Hout : bool_decide (src_matchPatternDeclarationDepth s = 0%Z) = negb i) by
    (destruct i; [apply bool_decide_eq_false; intros Hd; by specialize (H0 Hd)|by apply bool_decide_eq_true, H0']).
  unfold source_Enter. rewrite Hout. destruct n as [[]| | | | | | | | | | | | | | | | | | | | | | | | | | | | | | | | |]; unfold step_in; cbn -[named addVariable addMatchPatternDeclaration]; rewrite ?andb_false_r, ?Hz, ?plus_nil; try done.
  - destruct i; cbn -[named addVariable addMatchPatternDeclaration]; [by rewrite plus_nil|by rewrite <- addVariable_plus].
  - destruct atom as [[]|]; cbn -[named addVariable addMatchPatternDeclaration]; rewrite ?plus_nil; try done. by rewrite <- addVariable_plus.
  - destruct i; cbn -[named addVariable addMatchPatternDeclaration]; [by rewrite <- addMatchPatternDeclaration_plus|by rewrite <- addVariable_plus].
  - destruct i; cbn -[named addVariable addMatchPatternDeclaration]; [by rewrite <- addMatchPatternDeclaration_plus|by rewrite <- addVariable_plus].
  - pose proof (is_declaration M b i _ _ s [] Hf eq_refl ltac:(set_solver)) as Hd. rewrite plus_nil in Hd. rewrite Hd.
    destruct b; cbn -[named addVariable addMatchPatternDeclaration]; rewrite ?Hz; [by rewrite addMatchPatternDeclaration_plus|by rewrite <- addVariable_plus].
  - destruct s. unfold plus, declare_parts. cbn. by rewrite (right_id_L ∅ (∪)).
Qed.

Lemma Exit_plus M b i n s u bd parts : fits M b i n s -> list_to_set parts ⊆ M ->
  source_Exit n (add_depth (step_in b n) (plus s u bd parts)) = plus s u bd parts.
Proof.
  intros Hf Hp. assert (Hz : forall s', add_depth 0 s' = s') by (intros []; unfold add_depth; cbn; f_equal; lia).
  unfold step_in. destruct n; cbn [source_Exit is_part]; rewrite ?andb_false_r, ?Hz; try done.
  change (isMatchPatternDeclaration patternPart _) with (isMatchPatternDeclaration patternPart (plus s [] [] parts)).
  rewrite (is_declaration M b i _ _ s parts Hf eq_refl Hp). destruct b; cbn [andb]; [by rewrite (add_depth_cancel _ 1)|by rewrite Hz].
Qed.

Notation apart_at M := (fun in_match (_ : bool) n => [part_apart M in_match n]).
Notation parts_at := (fun _ _ : bool => match_parts).

(** The collector on a node from a state that fits, and then on its branches. *)
Definition summed (n : SyntaxNode) : Prop :=
  forall M b i s, fits M b i n s -> forallb id (gather (apart_at M) b i (cypher_tree n)) = true ->
  list_to_set (gather parts_at b i (cypher_tree n)) ⊆ M ->
  bracket source_Enter source_Exit (cypher_tree n) s =
  plus s (gather uses b i (cypher_tree n)) (gather binds b i (cypher_tree n)) (gather parts_at b i (cypher_tree n)).

Lemma branches_summed M b i bs : (forall c, c ∈ bs -> summed c) -> forall s,
  (src_matchPatternDeclarationDepth s = 0%Z <-> i = false) -> (0 <= src_matchPatternDeclarationDepth s)%Z ->
  src_matchPatternDeclarations s ⊆ M ->
  (b = true -> forall p, NPatternPart p ∈ bs -> pp_addr p ∈ src_matchPatternDeclarations s) ->
  forallb id (concat (gather (apart_at M) b i <$> (cypher_tree <$> bs))) = true ->
  list_to_set (concat (gather parts_at b i <$> (cypher_tree <$> bs))) ⊆ M ->
  foldl (fun s t => bracket source_Enter source_Exit t s) s (cypher_tree <$> bs) =
  plus s (concat (gather uses b i <$> (cypher_tree <$> bs))) (concat (gather binds b i <$> (cypher_tree <$> bs)))
    (concat (gather parts_at b i <$> (cypher_tree <$> bs))).
Proof.
  induction bs as [|c bs IH]; intros Hall s H0 Hd HM Hin Hap HP; [by rewrite plus_nil|].
  cbn [fmap list_fmap foldl concat] in *. rewrite forallb_app in Hap. apply andb_true_iff in Hap as [Hap1 Hap2].
  rewrite list_to_set_app_L in HP.
  assert (Hroot : part_apart M b c = true).
  { rewrite tree_of_eq in Hap1. destruct (branches_of c) eqn:Hb; cbn in Hap1; [by apply andb_true_iff in Hap1 as [? _]|].
    destruct c as [[]| | | | | | | | | | | | | | | | | | | | | | | | | | | | | | | | |]; cbn in Hb; try done; by destruct parameter. }
  rewrite (Hall c ltac:(by left) M b i s); [|split_and!; try done; intros Hb p ->; by apply Hin; [|left]|done|set_solver].
  rewrite IH; [apply plus_app|..]; cbn; try done.
  - intros c' Hc'. apply Hall. by right.
  - set_solver.
  - intros Hb p Hp. apply elem_of_union_l, Hin; [done|by right].
  - set_solver.
Qed.

Lemma part_of_match m p bs : cypher_branches (NMatch m) = inl bs -> NPatternPart p ∈ bs -> pp_addr p ∈ match_parts (NMatch m).
Proof.
  intros [= <-] Hp. apply elem_of_app in Hp as [Hp|Hp].
  - apply list_elem_of_fmap in Hp as ([q|] & [= ->] & Hq). cbn. apply list_elem_of_omap. by exists (Some q).
  - destruct (match_Where m); cbn in Hp; [|by apply not_elem_of_nil in Hp]. by apply list_elem_of_singleton in Hp.
Qed.

Lemma all_summed n : walkable n = true -> summed n.
Proof.
  induction n as [n IH] using syntax_ind. intros Hw M b i s Hf. destruct (walkable_branches n Hw) as (bs & Hb & Hbw).
  rewrite tree_of_eq, Hb. cbn [bracket gather]. rewrite forallb_app, list_to_set_app_L.
  intros [_ Hap]%andb_true_iff HP. rewrite (Enter_plus M b i n s Hf).
  pose proof Hf as (H0 & Hd & HM & _ & _).
  rewrite (branches_summed M (is_match n) (b && is_part n || i) bs).
  - rewrite plus_depth, plus_app. apply (Exit_plus M b i); [done|]. rewrite list_to_set_app_L. set_solver.
  - intros c Hc. apply (IH bs); [done|done|by apply Hbw].
  - unfold step_in. destruct (b && is_part n); cbn; [split; [lia|done]|]. by rewrite Z.add_0_r.
  - unfold step_in. destruct (b && is_part n); cbn; lia.
  - cbn. set_solver.
  - intros Hm p Hp. destruct n; try done. cbn. apply elem_of_union_r, elem_of_list_to_set. by eapply part_of_match.
  - done.
  - set_solver.
Qed.

(** How often a symbol occurs. *)
Definition occurrences (x : string) (l : list string) : nat := length (filter (.= x) l).

Lemma count_counts l : forall m x, count_of (counts m l) x = count_of m x + occurrences x l.
Proof.
  induction l as [|y l IH]; intros m x; [unfold occurrences; cbn; lia|]. change (counts m (y :: l)) with (counts (<[y := S (count_of m y)]> m) l).
  rewrite IH. unfold occurrences. rewrite filter_cons. unfold count_of at 1. case_decide as Hx.
  - subst. rewrite lookup_insert_eq. cbn. lia.
  - by rewrite lookup_insert_ne.
Qed.

Lemma repeated_counts x s u bd p :
  x ∈ collectRepeatedMatchPatternDeclarations (plus s u bd p) <->
  x ∈ src_referencedIdentifiers s \/ x ∈ u \/ 1 < count_of (src_matchPatternDeclarationRefs s) x + occurrences x bd.
Proof.
  unfold collectRepeatedMatchPatternDeclarations. cbn [plus src_referencedIdentifiers src_matchPatternDeclarationRefs].
  rewrite !elem_of_union, elem_of_list_to_set, elem_of_dom, <- count_counts.
  enough (is_Some (filter (fun kv : string * nat => 1 < kv.2) (counts (src_matchPatternDeclarationRefs s) bd) !! x) <->
          1 < count_of (counts (src_matchPatternDeclarationRefs s) bd) x) as -> by tauto. unfold count_of. split.
  - intros [k (Hk & Hlt)%map_lookup_filter_Some]. by rewrite Hk.
  - destruct (counts _ _ !! x) as [k|] eqn:Hk; cbn; [|lia]. intros Hlt. exists k. by apply map_lookup_filter_Some.
Qed.

(** The uses and the bindings of a query part. *)
Definition used_symbols (root : SyntaxNode) : list string := gather uses false false (cypher_tree root).
Definition bound_symbols (root : SyntaxNode) : list string := gather binds false false (cypher_tree root).

Lemma references_spec root : walkable root = true -> parts_apart root = true ->
  exists refs, collectReferencedSourceIdentifiers (Some root) = (refs, None) /\
    forall x, x ∈ refs <-> x ∈ used_symbols root \/ 1 < occurrences x (bound_symbols root).
Proof.
  intros Hw Hap. unfold collectReferencedSourceIdentifiers. rewrite Cypher_run, run_bracket by done. eexists. split; [done|].
  intros x. rewrite (all_summed root Hw (list_to_set (match_addresses root)) false false).
  - rewrite repeated_counts. cbn. unfold count_of. rewrite lookup_empty. cbn. set_solver.
  - split_and!; try done. unfold parts_apart in Hap. cbn zeta in Hap. rewrite tree_of_eq in Hap.
    destruct (walkable_branches root Hw) as (bs & Hb & _). rewrite Hb in Hap. by apply andb_true_iff in Hap as [? _].
  - done.
  - done.
Qed.

(** The collector fails exactly on a tree that cannot be walked. *)
Lemma references_error root : (collectReferencedSourceIdentifiers (Some root)).2 = None <-> walkable root = true.
Proof.
  unfold collectReferencedSourceIdentifiers. rewrite Cypher_run. destruct (walkable root) eqn:Hw.
  - by rewrite run_bracket.
  - pose proof (run_bracket_broken source_Enter source_Exit root newSourceReferenceCollector Hw) as [e He].
    destruct (run_walk _ _ _) as [s o]. cbn in He. subst o. done.
Qed.

(** ** Every pattern predicate is indexed once *)

Definition node_predicate (n : SyntaxNode) : option predicate :=
  match n with NExpression (EPatternPredicate addr elements) => Some (mkPredicateNode addr elements) | _ => None end.

Definition predicates_below (n : SyntaxNode) : list predicate := omap node_predicate (nodes n).

Lemma collect_predicates ns : forall acc, foldl (fun s n => collect_predicate n s) acc ns = acc ++ omap node_predicate ns.
Proof.
  induction ns as [|n ns IH]; intros acc; [by rewrite app_nil_r|]. cbn [foldl]. rewrite IH.
  destruct n as [[]| | | | | | | | | | | | | | | | | | | | | | | | | | | | | | | | |]; try done. cbn. by rewrite <- app_assoc.
Qed.

Lemma patternPredicatesInQueryPart_walkable n : walkable n = true -> patternPredicatesInQueryPart n = predicates_below n.
Proof.
  intros Hw. unfold patternPredicatesInQueryPart. rewrite Cypher_run, collector_nodes by done. by rewrite collect_predicates.
Qed.

Lemma index_loop ps : forall acc,
  foldl (fun indexed p => index_predicate p.1 indexed p.2) acc ps =
  acc ++ imap (fun k p => mkIndexedPatternPredicate p.1 (length acc + k) p.2) ps.
Proof.
  induction ps as [|p ps IH]; intros acc; [by rewrite app_nil_r|]. cbn [foldl imap]. rewrite IH. unfold index_predicate.
  rewrite <- app_assoc. f_equal. cbn. f_equal; [f_equal; lia|]. apply imap_ext. intros k q _. cbn. rewrite length_app. cbn. f_equal. lia.
Qed.

Lemma predicates_below_eq n bs : branches_of n = inl bs -> node_predicate n = None ->
  predicates_below n = concat (predicates_below <$> bs).
Proof.
  intros Hb Hn. unfold predicates_below. rewrite (nodes_eq n bs Hb). cbn. rewrite Hn. clear Hb Hn.
  induction bs as [|b bs IH]; [done|]. cbn. by rewrite omap_app, IH.
Qed.

Lemma below_branch n bs b : branches_of n = inl bs -> b ∈ bs -> predicates_below b `sublist_of` predicates_below n.
Proof.
  intros Hb Hin. unfold predicates_below. rewrite (nodes_eq n bs Hb). apply list_elem_of_split in Hin as (l1 & l2 & ->).
  rewrite fmap_app, concat_app. cbn. rewrite !omap_app. destruct (node_predicate n); cbn.
  - apply sublist_cons, sublist_inserts_l, sublist_inserts_r. done.
  - apply sublist_inserts_l, sublist_inserts_r. done.
Qed.

Definition clause_where (c : option ReadingClause) : option Where := (c ≫= clause_Match) ≫= match_Where.

Notation reading_node := (element "*cypher.ReadingClause" NReadingClause).

Lemma where_walkable c where_ : clause_where c = Some where_ -> walkable (reading_node c) = true ->
  walkable (NWhere where_) = true /\ predicates_below (NWhere where_) `sublist_of` predicates_below (reading_node c).
Proof.
  destruct c as [[a [m|] u]|]; try done. intros Hm Hw. change (match_Where m = Some where_) in Hm. cbn [element] in Hw |- *.
  destruct (walkable_branches (NReadingClause (mkReadingClause a (Some m) u)) Hw) as (bs & Hb & Hall). injection Hb as Hb.
  assert (Hmw : walkable (NMatch m) = true) by (apply Hall; rewrite <- Hb; by left).
  destruct (walkable_branches (NMatch m) Hmw) as (bs' & Hb' & Hall'). injection Hb' as Hb'.
  assert (Hin : NWhere where_ ∈ bs') by (rewrite <- Hb', Hm; set_solver). split; [by apply Hall'|].
  transitivity (predicates_below (NMatch m)).
  - apply (below_branch (NMatch m) bs'); [cbn; by rewrite Hb'|done].
  - apply (below_branch (NReadingClause (mkReadingClause a (Some m) u)) bs); [cbn; by rewrite Hb|]. rewrite <- Hb. by left.
Qed.

Definition where_below (c : option ReadingClause) : list predicate :=
  match clause_where c with Some where_ => predicates_below (NWhere where_) | None => [] end.

Lemma where_predicates_below k c : walkable (reading_node c) = true -> where_predicates k c = pair k <$> where_below c.
Proof.
  intros Hw. unfold where_predicates, where_below. fold (clause_where c). destruct (clause_where c) as [x|] eqn:Hc; [|done].
  destruct (where_walkable c x Hc Hw) as [Hx _]. by rewrite patternPredicatesInQueryPart_walkable.
Qed.

Lemma wheres_sublist cs : (forall c, c ∈ cs -> walkable (reading_node c) = true) -> forall k,
  snd <$> concat (imap (fun i => where_predicates (k + i)) cs) = concat (where_below <$> cs) /\
  concat (where_below <$> cs) `sublist_of` concat (predicates_below <$> (reading_node <$> cs)).
Proof.
  induction cs as [|c cs IH]; intros Hw k; [done|]. destruct (IH (fun c' Hc' => Hw c' ltac:(by right)) (S k)) as [IH1 IH2].
  cbn [fmap list_fmap imap concat]. rewrite fmap_app, where_predicates_below by (apply Hw; by left). split.
  - f_equal; [rewrite <- list_fmap_compose; by apply list_fmap_id|]. rewrite <- IH1. do 2 f_equal. apply imap_ext. intros i x _. cbn.
    by rewrite Nat.add_succ_r.
  - apply sublist_app; [|done]. unfold where_below. destruct (clause_where c) eqn:Hc; [|apply sublist_nil_l].
    apply where_walkable; [done|]. apply Hw. by left.
Qed.

Lemma filter_agree {A} (P Q : A -> Prop) `{forall x, Decision (P x), forall x, Decision (Q x)} (l : list A) :
  (forall x, x ∈ l -> P x <-> Q x) -> filter P l = filter Q l.
Proof.
  induction l as [|x l IH]; intros Hpq; [done|]. rewrite !filter_cons, IH by set_solver.
  specialize (Hpq x ltac:(by left)). destruct (decide (P x)), (decide (Q x)); tauto.
Qed.

(** A part of a list and what is left of it are the list. *)
Lemma sublist_partition {A} (key : A -> nat) (l' l : list A) : NoDup (key <$> l) -> l' `sublist_of` l ->
  l' ++ filter (fun x => key x ∉ (list_to_set (key <$> l') : gset nat)) l ≡ₚ l.
Proof.
  intros Hnd Hs. assert (Hf : forall K : list nat, filter (fun x => key x ∉ (list_to_set K : gset nat)) l =
    filter (fun x => key x ∉ K) l) by (intros K; apply list_filter_iff; intros x; by rewrite elem_of_list_to_set).
  rewrite Hf. clear Hf. induction Hs as [|x l' l Hs IH|x l' l Hs IH].
  - done.
  - cbn [fmap list_fmap] in Hnd. apply NoDup_cons in Hnd as [Hx Hnd]. rewrite filter_cons_False by (cbn; set_solver). cbn. constructor.
    rewrite <- (IH Hnd) at 2. apply Permutation_app; [done|]. rewrite (filter_agree _ (fun y => key y ∉ key <$> l')); [done|].
    intros y Hy. cbn. rewrite not_elem_of_cons. split; [tauto|]. intros Hn. split; [|done]. intros Heq.
    apply Hx. rewrite <- Heq. by apply list_elem_of_fmap_2.
  - cbn [fmap list_fmap] in Hnd. apply NoDup_cons in Hnd as [Hx Hnd]. rewrite filter_cons_True.
    + rewrite <- Permutation_middle. constructor. by apply IH.
    + intros (y & Heq & Hy)%list_elem_of_fmap. apply Hx, list_elem_of_fmap. exists y. split; [done|]. by eapply elem_of_sublist.
Qed.

Lemma query_part_walkable q : walkable q = true ->
  (forall c, c ∈ query_part_clauses q -> walkable (reading_node c) = true) /\
  concat (predicates_below <$> (reading_node <$> query_part_clauses q)) `sublist_of` predicates_below q.
Proof.
  intros Hw. destruct (walkable_branches q Hw) as (bs & Hb & Hall). destruct q; try by (split; [set_solver|apply sublist_nil_l]).
  all: pose proof Hb as E; injection E as E; split;
    [intros c Hc; apply Hall; rewrite <- E; apply elem_of_app; left; by apply list_elem_of_fmap_2|].
  all: rewrite (predicates_below_eq _ bs Hb) by done; rewrite <- E; unfold query_part_branches, addCypherBranches;
    rewrite fmap_app, concat_app; by apply sublist_inserts_r.
Qed.

Lemma indexed_spec q : walkable q = true -> NoDup (pred_addr <$> predicates_below q) ->
  ip_Predicate <$> indexedPatternPredicatesInQueryPart q ≡ₚ predicates_below q /\
  (forall k ip, indexedPatternPredicatesInQueryPart q !! k = Some ip -> ip_PredicateIndex ip = k) /\
  forall k c where_ p, query_part_clauses q !! k = Some c -> clause_where c = Some where_ -> p ∈ predicates_below (NWhere where_) ->
    exists ip, ip ∈ indexedPatternPredicatesInQueryPart q /\ ip_ClauseIndex ip = k /\ ip_Predicate ip = p.
Proof.
  intros Hw Hnd. destruct (query_part_walkable q Hw) as [Hcs Hsub]. destruct (wheres_sublist _ Hcs 0) as [Hwh Hsub'].
  cbn [Nat.add] in Hwh. change (imap (fun i => where_predicates i)) with (imap where_predicates) in Hwh. unfold indexedPatternPredicatesInQueryPart. rewrite patternPredicatesInQueryPart_walkable, index_loop by done.
  cbn [app length Nat.add]. split_and!.
  - rewrite fmap_imap. rewrite (imap_ext _ (const snd)) by done. rewrite imap_const, fmap_app, Hwh, <- list_fmap_compose.
    rewrite (list_fmap_ext (snd ∘ pair 0) id) by done. rewrite list_fmap_id, list_fmap_compose, Hwh.
    apply sublist_partition; [done|]. by transitivity (concat (predicates_below <$> (reading_node <$> query_part_clauses q))).
  - intros k ip Hk. rewrite list_lookup_imap in Hk. apply fmap_Some in Hk as (x & _ & ->). done.
  - intros k c where_ p Hc Hx Hp. assert (Hin : (k, p) ∈ concat (imap where_predicates (query_part_clauses q))).
    { apply elem_of_concat. exists (where_predicates k c). split.
      - rewrite where_predicates_below by (apply Hcs; by eapply list_elem_of_lookup_2). unfold where_below. rewrite Hx.
        apply list_elem_of_fmap. by exists p.
      - apply (list_elem_of_lookup_2 _ k). rewrite list_lookup_imap, Hc. done. }
    apply list_elem_of_lookup_1 in Hin as [j Hj]. exists (mkIndexedPatternPredicate k j p). split; [|done].
    apply (list_elem_of_lookup_2 _ j). rewrite list_lookup_imap, (lookup_app_l_Some _ _ _ _ Hj). done.
Qed.

(** ** Theorems *)

(** The collector fails exactly when the tree cannot be walked, and otherwise
    returns exactly the symbols that are used in the tree, or that the patterns of
    its matches bind more than once.  The pattern parts of matches have addresses
    of their own. *)
Theorem collectReferencedSourceIdentifiers_exact root : parts_apart root = true ->
  match collectReferencedSourceIdentifiers (Some root) with
  | (refs, None) => walkable root = true /\ forall x, x ∈ refs <-> x ∈ used_symbols root \/ 1 < occurrences x (bound_symbols root)
  | (_, Some _) => walkable root = false
  end.
Proof.
  intros Ha. pose proof (references_error root) as He. destruct (collectReferencedSourceIdentifiers (Some root)) as [refs [e|]] eqn:Hr.
  - apply not_true_iff_false. intros Hw%He. done.
  - assert (Hw : walkable root = true) by by apply He. split; [done|]. destruct (references_spec root Hw Ha) as (refs' & Hr' & Hin).
    rewrite Hr in Hr'. by injection Hr' as <-.
Qed.

(** Every pattern predicate of a query part is indexed exactly once, the indices
    are the positions, and a predicate of the [WHERE] of a match is indexed with
    that match's clause.  The predicates have addresses of their own. *)
Theorem indexedPatternPredicatesInQueryPart_once q : walkable q = true -> NoDup (pred_addr <$> predicates_below q) ->
  ip_Predicate <$> indexedPatternPredicatesInQueryPart q ≡ₚ predicates_below q /\
  ip_PredicateIndex <$> indexedPatternPredicatesInQueryPart q = seq 0 (length (predicates_below q)) /\
  forall k c where_ p, query_part_clauses q !! k = Some c -> clause_where c = Some where_ -> p ∈ predicates_below (NWhere where_) ->
    exists ip, ip ∈ indexedPatternPredicatesInQueryPart q /\ ip_ClauseIndex ip = k /\ ip_Predicate ip = p.
Proof.
  intros Hw Hn. destruct (indexed_spec q Hw Hn) as (H1 & H2 & H3). split_and!; [done| |done].
  apply list_eq_same_length with (n := length (predicates_below q)).
  - by rewrite length_seq.
  - rewrite length_fmap, <- (Permutation_length H1). by rewrite length_fmap.
  - intros i x y Hi Hx Hy. apply lookup_seq in Hy as [-> _]. rewrite list_lookup_fmap in Hx. apply fmap_Some in Hx as (ip & Hip & ->).
    by apply H2.
Qed.

(** *** [MATCH (a)-[r]->(b) WHERE (b)-[]->(a) RETURN a, (a)-[]->()] *)

Definition demo_hop (l : option string) (r : option string) (d : option string) : list (option (PatternElement Expression)) :=
  [Some (NodeElement (mkNodePattern l [] None)); Some (RelationshipElement (mkRelationshipPattern r [] DirectionOutbound None None));
   Some (NodeElement (mkNodePattern d [] None))].

Definition demo_root : SyntaxNode :=
  NSinglePartQuery (mkSinglePartQuery
    [Some (mkReadingClause 1 (Some (mkMatch false [Some (mkPatternPart 2 None false false (demo_hop (Some "a") (Some "r") (Some "b")) false)]
       (Some [Some (EPatternPredicate 3 (demo_hop (Some "b") None (Some "a")))]))) None)]
    [] (Some (mkReturn (Some (mkProjection false false None None None
      [Some (EProjectionItem (Some (EVariable "a")) None); Some (EProjectionItem (Some (EPatternPredicate 4 (demo_hop (Some "a") None None))) None)]))))).

Lemma collectReferencedSourceIdentifiers_exact_witness :
  exists refs, collectReferencedSourceIdentifiers (Some demo_root) = (refs, None) /\ "b" ∈ refs /\ "r" ∉ refs.
Proof.
  pose proof (collectReferencedSourceIdentifiers_exact demo_root ltac:(vm_compute; reflexivity)) as H.
  destruct (collectReferencedSourceIdentifiers (Some demo_root)) as [refs [e|]]; [by vm_compute in H|]. exists refs. split; [done|].
  destruct H as [_ H]. rewrite !H. split.
  - left. by apply (bool_decide_unpack _).
  - intros [Hu|Ho]; [by apply (bool_decide_pack _) in Hu|vm_compute in Ho; lia].
Defined.

Lemma indexedPatternPredicatesInQueryPart_once_witness :
  length (predicates_below demo_root) = 2 /\ ip_PredicateIndex <$> indexedPatternPredicatesInQueryPart demo_root = seq 0 2.
Proof.
  split; [vm_compute; reflexivity|].
  destruct (indexedPatternPredicatesInQueryPart_once demo_root ltac:(vm_compute; reflexivity)) as (_ & H & _); [|exact H].
  apply (bool_decide_unpack _). vm_compute. done.
Defined.
