(* ===== verification/Mentions.v ===== *)
(** * What a query part mentions

    The symbols that stand anywhere in a part of a query, by recursion on the types of
    the syntax tree (cypher/models/cypher/model.go) and without the walk:
    [mentions] for a symbol that is used, [declared] for one that a pattern of a
    [MATCH] binds.  [overlooked] collects the places that the walk of
    cypher/models/walk/walk_cypher.go or the collector of
    cypher/models/pgsql/optimize/source_references.go do not look at; everything else
    that is mentioned is among the uses that the collector finds ([mentions_found]),
    and a symbol that is declared twice is found, too ([declared_found]). *)

From S2P Require Import Prelude Framing Walk WalkTree Kinds Digraph CypherAst Analysis SourceReferences.

(** ** Lists of optional parts *)

Definition maybe {A B} (f : A -> list B) (o : option A) : list B := match o with Some a => f a | None => [] end.
Definition every {A B} (f : A -> list B) (l : list (option A)) : list B := flat_map (maybe f) l.

Lemma elem_of_flat_map {A B} (f : A -> list B) l x : x ∈ flat_map f l <-> exists a, a ∈ l /\ x ∈ f a.
Proof. rewrite list_elem_of_In, in_flat_map. by setoid_rewrite list_elem_of_In. Qed.

(** ** Mentions *)

Section shapes.
Context {E : Type} (m : E -> list string).

(** [declares]: the pattern binds its symbols, so that only its properties use any. *)
Definition node_mentions (declares : bool) (n : NodePattern E) : list string :=
  (if declares then [] else named (np_Variable n)) ++ maybe m (np_Properties n).
Definition relationship_mentions (declares : bool) (r : RelationshipPattern E) : list string :=
  (if declares then [] else named (rp_Variable r)) ++ maybe m (rp_Properties r).
Definition element_mentions (declares : bool) (e : PatternElement E) : list string :=
  match e with
  | NodeElement n => node_mentions declares n
  | RelationshipElement r => relationship_mentions declares r
  | OtherElement e => maybe m e
  end.
Definition pattern_mentions (declares : bool) (p : PatternPart E) : list string :=
  (if declares then [] else named (pp_Variable p)) ++ every (element_mentions declares) (pp_PatternElements p).
Definition specifier_mentions (i : IDInCollection E) : list string := maybe m (ic_Expression i).
Definition filter_mentions (f : FilterExpression E) : list string :=
  maybe specifier_mentions (fe_Specifier f) ++ maybe (every m) (fe_Where f).
End shapes.

Fixpoint expression_mentions (e : Expression) : list string :=
  let one := maybe expression_mentions in
  match e with
  | EVariable symbol => [symbol]
  | ELiteral _ _ | EParameter _ | ERangeQuantifier _ | EOtherExpression _ => []
  | EPropertyLookup atom _ => one atom
  | EKindMatcher reference _ _ => one reference
  | EMapLiteral items => flat_map (fun kv => one kv.2) items
  | EProperties map _ => flat_map (fun kv => one kv.2) map
  | EListLiteral es | EConjunction es | EDisjunction es | EExclusiveDisjunction es | EFunctionInvocation _ _ _ es =>
      every expression_mentions es
  | EParenthetical e | ENegation e | EUnaryAddOrSubtractExpression _ e | EProjectionItem e _ => one e
  | EQuantifier _ _ filter => maybe (filter_mentions expression_mentions) filter
  | EArithmeticExpression l partials | EComparison l partials => one l ++ flat_map (fun p => one p.2) partials
  | EPatternPredicate _ elements => every (element_mentions expression_mentions false) elements
  end.

Notation em := expression_mentions.

Definition match_mentions (m : Match) : list string := every (pattern_mentions em true) (match_Pattern m) ++ maybe (every em) (match_Where m).
Definition unwind_mentions (u : Unwind) : list string := maybe em (unwind_Expression u).
Definition reading_mentions (c : ReadingClause) : list string := maybe match_mentions (clause_Match c) ++ maybe unwind_mentions (clause_Unwind c).
Definition sort_mentions (i : SortItem) : list string := maybe em (si_Expression i).
Definition projection_mentions (p : Projection) : list string :=
  (if pj_All p then [TokenLiteralAsterisk] else []) ++ every em (pj_Items p) ++ maybe (every sort_mentions) (pj_Order p) ++
  maybe (maybe em) (pj_Skip p) ++ maybe (maybe em) (pj_Limit p).
Definition with_mentions (w : With) : list string := maybe projection_mentions (with_Projection w) ++ maybe (every em) (with_Where w).
Definition return_mentions (r : Return) : list string := maybe projection_mentions (return_Projection r).
Definition remove_mentions (i : RemoveItem) : list string :=
  maybe (fun matcher => maybe em matcher.1) (ri_KindMatcher i) ++ maybe em (ri_Property i).
Definition set_mentions (i : SetItem) : list string := maybe em (set_Left i) ++ maybe em (set_Right i).
Definition merge_mentions (a : MergeAction) : list string := maybe (every set_mentions) (ma_Set a).
Definition clause_mentions (c : UpdatingClause) : list string :=
  match c with
  | Create pattern => every (pattern_mentions em false) pattern
  | Delete es => every em es
  | Remove items => every remove_mentions items
  | Set_ items => every set_mentions items
  | Merge part actions => maybe (pattern_mentions em false) part ++ every merge_mentions actions
  | NoClause => []
  end.
Definition multi_part_mentions (p : MultiPartQueryPart) : list string :=
  every reading_mentions (mp_ReadingClauses p) ++ every clause_mentions (mp_UpdatingClauses p) ++ maybe with_mentions (mp_With p).
Definition single_part_mentions (p : SinglePartQuery) : list string :=
  every reading_mentions (sp_ReadingClauses p) ++ every clause_mentions (sp_UpdatingClauses p) ++ maybe return_mentions (sp_Return p).

Definition multi_mentions (q : MultiPartQuery) : list string := every multi_part_mentions (mq_Parts q) ++ maybe single_part_mentions (mq_SinglePartQuery q).
Definition single_mentions (q : SingleQuery) : list string := maybe single_part_mentions (sq_SinglePartQuery q) ++ maybe multi_mentions (sq_MultiPartQuery q).

(** Of a part of a query. *)
Definition mentions (part : SyntaxNode) : list string :=
  match part with
  | NMultiPartQueryPart p => multi_part_mentions p
  | NSinglePartQuery p => single_part_mentions p
  | _ => []
  end.

(** ** What is overlooked

    The values of a map literal; the map of properties that have a parameter, too; the
    values of [SKIP] and [LIMIT]; a projection of everything that is not written as a
    variable; the matcher of a kind to remove; and in the properties of a pattern of a
    [MATCH], variables that are not followed by a property and pattern predicates. *)

Section overlooked_shapes.
Context {E : Type} (o : E -> list string).

Definition element_overlooked (e : PatternElement E) : list string :=
  match e with
  | NodeElement n => maybe o (np_Properties n)
  | RelationshipElement r => maybe o (rp_Properties r)
  | OtherElement e => maybe o e
  end.
Definition pattern_overlooked (p : PatternPart E) : list string := every element_overlooked (pp_PatternElements p).
Definition specifier_overlooked (i : IDInCollection E) : list string := maybe o (ic_Expression i).
Definition filter_overlooked (f : FilterExpression E) : list string :=
  maybe specifier_overlooked (fe_Specifier f) ++ maybe (every o) (fe_Where f).
End overlooked_shapes.

Fixpoint expression_overlooked (inside : bool) (e : Expression) : list string :=
  let one := maybe (expression_overlooked inside) in
  match e with
  | EVariable symbol => if inside then [symbol] else []
  | EPropertyLookup (Some (EVariable _)) _ => []
  | ELiteral _ _ | EParameter _ | ERangeQuantifier _ | EOtherExpression _ => []
  | EPropertyLookup atom _ => one atom
  | EKindMatcher reference _ _ => one reference
  | EMapLiteral items => flat_map (fun kv => maybe expression_mentions kv.2) items
  | EProperties map (Some _) => flat_map (fun kv => maybe expression_mentions kv.2) map
  | EProperties map None => flat_map (fun kv => one kv.2) map
  | EListLiteral es | EConjunction es | EDisjunction es | EExclusiveDisjunction es | EFunctionInvocation _ _ _ es =>
      every (expression_overlooked inside) es
  | EParenthetical e | ENegation e | EUnaryAddOrSubtractExpression _ e | EProjectionItem e _ => one e
  | EQuantifier _ _ filter => maybe (filter_overlooked (expression_overlooked inside)) filter
  | EArithmeticExpression l partials | EComparison l partials => one l ++ flat_map (fun p => one p.2) partials
  | EPatternPredicate addr elements =>
      (if inside then expression_mentions (EPatternPredicate addr elements) else []) ++
      every (element_overlooked (expression_overlooked inside)) elements
  end.

Notation eo := (expression_overlooked false).

Definition match_overlooked (m : Match) : list string :=
  every (pattern_overlooked (expression_overlooked true)) (match_Pattern m) ++ maybe (every eo) (match_Where m).
Definition unwind_overlooked (u : Unwind) : list string := maybe eo (unwind_Expression u).
Definition reading_overlooked (c : ReadingClause) : list string :=
  maybe match_overlooked (clause_Match c) ++ maybe unwind_overlooked (clause_Unwind c).
Definition sort_overlooked (i : SortItem) : list string := maybe eo (si_Expression i).
Definition projection_overlooked (p : Projection) : list string :=
  (if pj_All p then [TokenLiteralAsterisk] else []) ++ every eo (pj_Items p) ++ maybe (every sort_overlooked) (pj_Order p) ++
  maybe (maybe em) (pj_Skip p) ++ maybe (maybe em) (pj_Limit p).
Definition with_overlooked (w : With) : list string := maybe projection_overlooked (with_Projection w) ++ maybe (every eo) (with_Where w).
Definition return_overlooked (r : Return) : list string := maybe projection_overlooked (return_Projection r).
Definition remove_overlooked (i : RemoveItem) : list string :=
  maybe (fun matcher => maybe em matcher.1) (ri_KindMatcher i) ++ maybe eo (ri_Property i).
Definition set_overlooked (i : SetItem) : list string := maybe eo (set_Left i) ++ maybe eo (set_Right i).
Definition merge_overlooked (a : MergeAction) : list string := maybe (every set_overlooked) (ma_Set a).
Definition clause_overlooked (c : UpdatingClause) : list string :=
  match c with
  | Create pattern => every (pattern_overlooked eo) pattern
  | Delete es => every eo es
  | Remove items => every remove_overlooked items
  | Set_ items => every set_overlooked items
  | Merge part actions => maybe (pattern_overlooked eo) part ++ every merge_overlooked actions
  | NoClause => []
  end.
Definition multi_part_overlooked (p : MultiPartQueryPart) : list string :=
  every reading_overlooked (mp_ReadingClauses p) ++ every clause_overlooked (mp_UpdatingClauses p) ++ maybe with_overlooked (mp_With p).
Definition single_part_overlooked (p : SinglePartQuery) : list string :=
  every reading_overlooked (sp_ReadingClauses p) ++ every clause_overlooked (sp_UpdatingClauses p) ++ maybe return_overlooked (sp_Return p).

Definition multi_overlooked (q : MultiPartQuery) : list string := every multi_part_overlooked (mq_Parts q) ++ maybe single_part_overlooked (mq_SinglePartQuery q).
Definition single_overlooked (q : SingleQuery) : list string := maybe single_part_overlooked (sq_SinglePartQuery q) ++ maybe multi_overlooked (sq_MultiPartQuery q).

Definition overlooked (part : SyntaxNode) : list string :=
  match part with
  | NMultiPartQueryPart p => multi_part_overlooked p
  | NSinglePartQuery p => single_part_overlooked p
  | _ => []
  end.

(** ** Declarations: the symbols of the patterns of [MATCH] clauses, where they stand *)

Definition element_declares {E} (e : PatternElement E) : list string :=
  match e with
  | NodeElement n => named (np_Variable n)
  | RelationshipElement r => named (rp_Variable r)
  | OtherElement _ => []
  end.
Definition pattern_declares {E} (p : PatternPart E) : list string := named (pp_Variable p) ++ every element_declares (pp_PatternElements p).
Definition reading_declares (c : ReadingClause) : list string := maybe (fun m => every pattern_declares (match_Pattern m)) (clause_Match c).

Definition declared (part : SyntaxNode) : list string := every reading_declares (query_part_clauses part).

(** ** What the collector finds

    The same lists for every node of the walk; the flags are those of [gather]. *)

Definition says (in_match inside : bool) (n : SyntaxNode) : list string :=
  match n with
  | NExpression e => em e
  | NMapItem _ value => maybe em value
  | NOperator _ | NNil _ => []
  | NPartialArithmeticExpression _ r | NPartialComparison _ r => maybe em r
  | NIDInCollection i => specifier_mentions em i
  | NFilterExpression f => filter_mentions em f
  | NWhere es => every em es
  | NPatternElement e => element_mentions em inside e
  | NNodePattern n => node_mentions em inside n
  | NRelationshipPattern r => relationship_mentions em inside r
  | NPatternPart p => (if in_match then [] else named (pp_Variable p)) ++ every (element_mentions em (in_match || inside)) (pp_PatternElements p)
  | NMatch m => match_mentions m
  | NUnwind u => unwind_mentions u
  | NReadingClause c => reading_mentions c
  | NSortItem i => sort_mentions i
  | NOrder o => every sort_mentions o
  | NSkip v | NLimit v => maybe em v
  | NProjection p => projection_mentions p
  | NWith w => with_mentions w
  | NReturn r => return_mentions r
  | NRemoveItem i => remove_mentions i
  | NSetItem i => set_mentions i
  | NSet items => every set_mentions items
  | NMergeAction a => merge_mentions a
  | NClause c | NUpdatingClause c => clause_mentions c
  | NMultiPartQueryPart p => multi_part_mentions p
  | NSinglePartQuery p => single_part_mentions p
  | NMultiPartQuery q => multi_mentions q
  | NSingleQuery q => single_mentions q
  | NRegularQuery q => maybe single_mentions q
  end.

Definition misses (in_match inside : bool) (n : SyntaxNode) : list string :=
  let e := expression_overlooked inside in
  match n with
  | NExpression x => e x
  | NMapItem _ value => maybe e value
  | NOperator _ | NNil _ => []
  | NPartialArithmeticExpression _ r | NPartialComparison _ r => maybe e r
  | NIDInCollection i => specifier_overlooked e i
  | NFilterExpression f => filter_overlooked e f
  | NWhere es => every e es
  | NPatternElement x => element_overlooked e x
  | NNodePattern n => maybe e (np_Properties n)
  | NRelationshipPattern r => maybe e (rp_Properties r)
  | NPatternPart p => pattern_overlooked (expression_overlooked (in_match || inside)) p
  | NMatch m => match_overlooked m
  | NUnwind u => unwind_overlooked u
  | NReadingClause c => reading_overlooked c
  | NSortItem i => sort_overlooked i
  | NOrder o => every sort_overlooked o
  | NSkip v | NLimit v => maybe em v
  | NProjection p => projection_overlooked p
  | NWith w => with_overlooked w
  | NReturn r => return_overlooked r
  | NRemoveItem i => remove_overlooked i
  | NSetItem i => set_overlooked i
  | NSet items => every set_overlooked items
  | NMergeAction a => merge_overlooked a
  | NClause c | NUpdatingClause c => clause_overlooked c
  | NMultiPartQueryPart p => multi_part_overlooked p
  | NSinglePartQuery p => single_part_overlooked p
  | NMultiPartQuery q => multi_overlooked q
  | NSingleQuery q => single_overlooked q
  | NRegularQuery q => maybe single_overlooked q
  end.

Definition binds_below (in_match inside : bool) (n : SyntaxNode) : list string :=
  match n with
  | NPatternElement e => if inside then element_declares e else []
  | NNodePattern n => if inside then named (np_Variable n) else []
  | NRelationshipPattern r => if inside then named (rp_Variable r) else []
  | NPatternPart p => if in_match then pattern_declares p else []
  | NMatch m => every pattern_declares (match_Pattern m)
  | NReadingClause c => reading_declares c
  | NMultiPartQueryPart _ | NSinglePartQuery _ => declared n
  | _ => []
  end.

(** A function of nodes over the branches of one. *)
Section branches.
Context {X : Type} (f : SyntaxNode -> list X).

Lemma over_optional {A} (g : A -> SyntaxNode) o : flat_map f (optional g o) = maybe (fun a => f (g a)) o.
Proof using Type. destruct o; cbn; [apply app_nil_r|done]. Qed.

Lemma over_slice {A} t (g : A -> SyntaxNode) l : f (NNil t) = [] -> flat_map f (addCypherBranches t g l) = every (fun a => f (g a)) l.
Proof using Type.
  intros Hn. unfold every, addCypherBranches. induction l as [|[a|] l IH]; [done|..]; cbn; rewrite IH; [done|]. by rewrite Hn.
Qed.

Lemma over_fmap {A} (g : A -> SyntaxNode) l : flat_map f (g <$> l) = flat_map (fun a => f (g a)) l.
Proof using Type. induction l as [|a l IH]; [done|]. cbn. by rewrite IH. Qed.

Lemma every_ext {A B} (g h : A -> list B) l : (forall a, g a = h a) -> every g l = every h l.
Proof using Type. intros Hg. induction l as [|[a|] l IH]; [done|..]; unfold every in *; cbn; rewrite IH; [by rewrite Hg|done]. Qed.
End branches.

Lemma every_nil {A B} (l : list (option A)) : every (fun _ => @nil B) l = [].
Proof. induction l as [|[a|] l IH]; done. Qed.

Ltac over_branches :=
  unfold query_part_branches, clause_branches, expressions_, elements_, parts_, newCypherWalkCursorWithMapItems in *;
  rewrite ?flat_map_app, ?over_optional, ?over_slice, ?over_fmap by done.

(** Property lookups of a variable, which the collector knows. *)
Definition is_lookup (n : SyntaxNode) : bool :=
  match n with NExpression (EPropertyLookup (Some (EVariable _)) _) => true | _ => false end.

Notation inner b i n := (b && is_part n || i).

Lemma elem_of_named x v : x ∈ named v <-> v = Some x /\ x <> "".
Proof.
  unfold named. destruct v as [y|]; [|set_solver]. case_bool_decide; [set_solver|]. rewrite list_elem_of_singleton. naive_solver.
Qed.

Ltac unfold_mentions :=
  unfold specifier_mentions, filter_mentions, node_mentions, relationship_mentions, pattern_mentions, match_mentions, unwind_mentions,
    reading_mentions, sort_mentions, projection_mentions, with_mentions, return_mentions, remove_mentions, set_mentions, merge_mentions,
    clause_mentions, multi_part_mentions, single_part_mentions, multi_mentions, single_mentions,
    specifier_overlooked, filter_overlooked, pattern_overlooked, match_overlooked, unwind_overlooked,
    reading_overlooked, sort_overlooked, projection_overlooked, with_overlooked, return_overlooked, remove_overlooked, set_overlooked,
    merge_overlooked, clause_overlooked, multi_part_overlooked, single_part_overlooked, multi_overlooked,
    single_overlooked in *.

(** The nodes that can lie in a pattern of a match. *)
Definition low (n : SyntaxNode) : bool :=
  match n with
  | NExpression _ | NMapItem _ _ | NOperator _ | NPartialArithmeticExpression _ _ | NPartialComparison _ _ | NIDInCollection _
  | NFilterExpression _ | NWhere _ | NPatternElement _ | NNodePattern _ | NRelationshipPattern _ | NNil _ => true
  | _ => false
  end.

(** What a node says is used or overlooked there, or said by a branch. *)
Lemma says_step b i n bs x : x <> "" -> (i = true -> low n = true) -> cypher_branches n = inl bs -> x ∈ says b i n ->
  x ∈ uses b i n \/ x ∈ misses b i n \/ x ∈ flat_map (says (is_match n) (inner b i n)) bs.
Proof.
  intros Hx Hi Hb. rewrite andb_comm.
  destruct n as [[]| | | | | | | |[]| | | | | | | | | | | | | | | | | |[]|[]| | | | | |]; cbn [cypher_branches expression_branches] in Hb;
    repeat case_match; simplify_eq; over_branches.
  all: destruct i; [try (by specialize (Hi eq_refl))|].
  all: cbn [says uses misses is_match is_part andb orb expression_mentions expression_overlooked flat_map element_mentions clause_mentions].
  all: try (by intros ?%elem_of_nil); try (intros H; by right; right).
  all: rewrite ?over_optional, ?app_nil_r; try (intros H; by right; left); try (intros H; by right; right).
  all: unfold_mentions; rewrite ?elem_of_app; rewrite ?orb_true_r, ?orb_false_r; try tauto; try (destruct b; tauto).
  intros ->%list_elem_of_singleton. left. by apply elem_of_named.
Qed.

(** A branch overlooks nothing that the node does not. *)
Lemma misses_step b i n bs x : (i = true -> low n = true) -> is_lookup n = false -> cypher_branches n = inl bs ->
  x ∈ flat_map (misses (is_match n) (inner b i n)) bs -> x ∈ misses b i n.
Proof.
  intros Hi Hl Hb. rewrite andb_comm.
  destruct n as [[]| | | | | | | |[]| | | | | | | | | | | | | | | | | |[]|[]| | | | | |]; cbn [cypher_branches expression_branches] in Hb;
    repeat case_match; simplify_eq; over_branches.
  all: destruct i; [try (by specialize (Hi eq_refl))|].
  all: cbn [misses is_match is_part andb orb expression_overlooked flat_map element_overlooked clause_overlooked].
  all: try (by intros ?%elem_of_nil); rewrite ?over_optional, ?app_nil_r; try done.
  all: unfold_mentions; rewrite ?orb_true_r, ?orb_false_r, ?elem_of_app; try tauto; try (destruct b; tauto).
  - destruct atom as [[]|]; done.
  - destruct atom as [[]|]; done.
  - intros [H|H]; [done|]. destruct (unwind_Variable unwind); by apply elem_of_nil in H.
Qed.

Lemma maybe_nil {A B} (o : option A) : maybe (fun _ => @nil B) o = [].
Proof. by destruct o. Qed.

Lemma flat_map_nil {A B} (l : list A) : flat_map (fun _ => @nil B) l = [].
Proof. by induction l. Qed.

Lemma low_branches n bs c : low n || is_part n = true -> cypher_branches n = inl bs -> c ∈ bs -> low c = true.
Proof.
  intros Hn Hb Hc. assert (Hnil : flat_map (fun c => if low c then [] else [c]) bs = []).
  { clear Hc. destruct n as [[]| | | | | | | |[]| | | | | | | | | | | | | | | | | |[]|[]| | | | | |]; try discriminate Hn;
      cbn [cypher_branches expression_branches] in Hb; repeat case_match; simplify_eq; over_branches; cbn [low flat_map];
      rewrite ?over_optional; cbn [low app]; by rewrite ?every_nil, ?maybe_nil, ?flat_map_nil. }
  destruct (low c) eqn:Hl; [done|]. assert (H : c ∈ flat_map (fun c => if low c then [] else [c]) bs).
  { apply elem_of_flat_map. exists c. rewrite Hl. split; [done|by left]. }
  rewrite Hnil in H. by apply elem_of_nil in H.
Qed.

Lemma gather_eq {X} (f : bool -> bool -> SyntaxNode -> list X) b i n bs : cypher_branches n = inl bs ->
  gather f b i (cypher_tree n) = f b i n ++ flat_map (fun c => gather f (is_match n) (inner b i n) (cypher_tree c)) bs.
Proof.
  intros Hb. rewrite tree_of_eq. cbn [branches_of Cypher_Syntax]. rewrite Hb. cbn [gather]. f_equal.
  clear Hb. induction bs as [|c bs IH]; [done|]. cbn in *. by rewrite IH.
Qed.

(** Everything that is said and not overlooked is gathered. *)
Lemma says_gathered n x : x <> "" -> walkable n = true -> forall b i, (i = true -> low n = true) -> x ∈ says b i n ->
  x ∈ misses b i n \/ x ∈ gather uses b i (cypher_tree n).
Proof.
  intros Hx. induction n as [n IH] using syntax_ind. intros Hw b i Hi Hs. destruct (walkable_branches n Hw) as (bs & Hb & Hbw).
  rewrite (gather_eq _ _ _ _ _ Hb), elem_of_app.
  destruct (says_step b i n bs x Hx Hi Hb Hs) as [H|[H|H]]; [by right; left|by left|].
  destruct (is_lookup n) eqn:Hl.
  - destruct n as [[]| | | | | | | | | | | | | | | | | | | | | | | | | | | | | | | | |]; try done. destruct atom as [[]|]; try done.
    right. left. cbn in Hs. apply list_elem_of_singleton in Hs as ->. by apply elem_of_named.
  - apply elem_of_flat_map in H as (c & Hc & H). destruct (IH bs Hb c Hc (Hbw c Hc) (is_match n) (inner b i n)) as [H'|H']; [|done| |].
    + intros Hin. apply (low_branches n bs c); [|done|done]. apply orb_true_iff in Hin as [Hin|Hin]; [apply andb_true_iff in Hin as [_ ->]; apply orb_true_r|].
      by rewrite (Hi Hin).
    + left. eapply misses_step; [done|done|exact Hb|]. apply elem_of_flat_map. by exists c.
    + right. right. apply elem_of_flat_map. by exists c.
Qed.

(** ** The declarations are gathered *)

Lemma sublist_flat_map {A B} (f g : A -> list B) l : (forall a, a ∈ l -> f a `sublist_of` g a) -> flat_map f l `sublist_of` flat_map g l.
Proof.
  intros Hfg. induction l as [|a l IH]; [done|]. cbn. apply sublist_app; [apply Hfg; by left|]. apply IH. intros a' Ha'. apply Hfg. by right.
Qed.

Lemma binds_step b i n bs : cypher_branches n = inl bs ->
  binds_below b i n `sublist_of` binds b i n ++ flat_map (binds_below (is_match n) (inner b i n)) bs.
Proof.
  intros Hb. rewrite andb_comm.
  destruct n as [[]| | | | | | | |[]| | | | | | | | | | | | | | | | | |[]|[]| | | | | |]; cbn [cypher_branches expression_branches] in Hb;
    repeat case_match; simplify_eq; over_branches; cbn [binds_below binds is_match is_part andb orb app flat_map];
    rewrite ?every_nil, ?maybe_nil, ?app_nil_r; try apply sublist_nil_l; try done.
  - by destruct i.
  - destruct b; [done|apply sublist_nil_l].
Qed.

Lemma binds_gathered n : walkable n = true -> forall b i, binds_below b i n `sublist_of` gather binds b i (cypher_tree n).
Proof.
  induction n as [n IH] using syntax_ind. intros Hw b i. destruct (walkable_branches n Hw) as (bs & Hb & Hbw).
  rewrite (gather_eq _ _ _ _ _ Hb). etrans; [by apply binds_step|]. apply sublist_app; [done|].
  apply sublist_flat_map. intros c Hc. apply (IH bs Hb c Hc). by apply Hbw.
Qed.

(** What a part of a query mentions and does not only mention in places that are
    overlooked is among the uses. *)
Lemma mentions_found part x : walkable part = true -> x <> "" -> x ∈ mentions part -> x ∈ overlooked part \/ x ∈ used_symbols part.
Proof.
  intros Hw Hx Hm. destruct part; try (by apply elem_of_nil in Hm); by apply (says_gathered _ x Hx Hw false false).
Qed.

Lemma occurrences_sublist x l l' : l `sublist_of` l' -> occurrences x l <= occurrences x l'.
Proof.
  unfold occurrences. induction 1 as [|y l l' _ IH|y l l' _ IH]; [done|..]; rewrite ?filter_cons; case_decide; cbn; lia.
Qed.

Lemma declared_found part x : walkable part = true -> occurrences x (declared part) <= occurrences x (bound_symbols part).
Proof.
  intros Hw. destruct part; try (cbn; lia); by apply occurrences_sublist, (binds_gathered _ Hw false false).
Qed.
