(* ===== verification/PatternSteps.v ===== *)
(** * Traversal steps and selectivity of patterns (cypher/models/pgsql/optimize/lowering_plan.go)

    What the optimizer reads off a pattern: its traversal steps, the symbols it
    declares, and how selective its constraints are.  [matchClauseSelectivity]
    (reordering.go) is the score of the reordering of clauses. *)

From S2P Require Import Prelude Framing Walk WalkTree Kinds Digraph CypherAst Analysis Reordering SourceReferences.

(** ** Steps *)

Record sourceTraversalStep := mkSourceStep {
  LeftNode : NodePattern Expression;
  Relationship : RelationshipPattern Expression;
  RightNode : NodePattern Expression;
}.

(** [steps], [leftNode] and [relationship] of the loop. *)
Definition steps_state : Type :=
  (list sourceTraversalStep * option (NodePattern Expression) * option (RelationshipPattern Expression))%type.

Definition steps_turn (s : steps_state) (element : option (PatternElement Expression)) : steps_state :=
  let '(steps, leftNode, relationship) := s in
  match element with
  | Some (NodeElement nodePattern) =>
      match leftNode with
      | None => (steps, Some nodePattern, relationship)
      | Some l =>
          let steps' := match relationship with Some r => steps ++ [mkSourceStep l r nodePattern] | None => steps end in
          (steps', Some nodePattern, None)
      end
  | Some (RelationshipElement r) => (steps, leftNode, Some r)
  | _ => s
  end.

Definition traversalStepsForPattern (patternPart : option (PatternPart Expression)) : list sourceTraversalStep :=
  match patternPart with
  | None => []
  | Some p => (foldl steps_turn ([], None, None) (pp_PatternElements p)).1.1
  end.

Definition variableSymbol (variable : option string) : string := default "" variable.

Definition nodePatternsForPattern (patternPart : option (PatternPart Expression)) : list (NodePattern Expression) :=
  match patternPart with
  | None => []
  | Some p => omap (fun e => match e with Some (NodeElement n) => Some n | _ => None end) (pp_PatternElements p)
  end.

Definition nodePatternHasConstraints (nodePattern : NodePattern Expression) : bool :=
  (0 <? length (np_Kinds nodePattern)) || bool_decide (is_Some (np_Properties nodePattern)).

Definition relationshipPatternHasProperties (relationshipPattern : RelationshipPattern Expression) : bool :=
  bool_decide (is_Some (rp_Properties relationshipPattern)).

(** ** Declared symbols *)

Definition addSymbol (symbol : string) (symbols : gset string) : gset string :=
  if bool_decide (symbol = "") then symbols else {[symbol]} ∪ symbols.

Definition declare_element (declared : gset string) (element : option (PatternElement Expression)) : gset string :=
  match element with
  | Some (NodeElement n) => addSymbol (variableSymbol (np_Variable n)) declared
  | Some (RelationshipElement r) => addSymbol (variableSymbol (rp_Variable r)) declared
  | _ => declared
  end.

Definition declarePatternSymbols (declared : gset string) (patternPart : option (PatternPart Expression)) : gset string :=
  match patternPart with
  | None => declared
  | Some p => foldl declare_element (addSymbol (variableSymbol (pp_Variable p)) declared) (pp_PatternElements p)
  end.

Definition declareWhereSymbols (declared : gset string) (m : Match) : gset string :=
  foldl (fun declared dependency => addSymbol dependency declared) declared (dependenciesForMatch (Some m)).

Definition declareMatchSymbols (declared : gset string) (m : option Match) : gset string :=
  match m with
  | None => declared
  | Some m => declareWhereSymbols (foldl declarePatternSymbols declared (match_Pattern m)) m
  end.

Definition declareReadingClauseSymbols (symbols : gset string) (readingClauses : list (option ReadingClause)) : gset string :=
  foldl (fun symbols c => declareMatchSymbols symbols (c ≫= clause_Match)) symbols readingClauses.

Record declaredStepEndpoints := mkEndpoints {
  BeforeLeftNode : gset string;
  BeforeRightNode : gset string;
}.

Fixpoint declaredSymbolsBeforeStepEndpoints (declared : gset string) (steps : list sourceTraversalStep) : list declaredStepEndpoints :=
  match steps with
  | [] => []
  | step :: steps' =>
      let right := addSymbol (variableSymbol (rp_Variable (Relationship step)))
                     (addSymbol (variableSymbol (np_Variable (LeftNode step))) declared) in
      mkEndpoints declared right ::
      declaredSymbolsBeforeStepEndpoints (addSymbol (variableSymbol (np_Variable (RightNode step))) right) steps'
  end.

Definition leftEndpointBoundForStep (stepIndex : nat) (step : sourceTraversalStep) (declaredEndpoints : declaredStepEndpoints) : bool :=
  let leftSymbol := variableSymbol (np_Variable (LeftNode step)) in
  if bool_decide (leftSymbol = "") then 0 <? stepIndex else bool_decide (leftSymbol ∈ BeforeLeftNode declaredEndpoints).

(** ** Selectivity *)

Inductive boundSourceSelectivity :=
| boundSourceSelectivityNone | boundSourceSelectivityKindOnly | boundSourceSelectivityPredicate
| boundSourceSelectivityUnique | boundSourceSelectivityLimited | boundSourceSelectivityTopN.

(** The constants are numbered by [iota]. *)
Definition rank (s : boundSourceSelectivity) : nat :=
  match s with
  | boundSourceSelectivityNone => 0
  | boundSourceSelectivityKindOnly => 1
  | boundSourceSelectivityPredicate => 2
  | boundSourceSelectivityUnique => 3
  | boundSourceSelectivityLimited => 4
  | boundSourceSelectivityTopN => 5
  end.

Definition mergeSelectivityValue (current next : boundSourceSelectivity) : boundSourceSelectivity :=
  if rank current <? rank next then next else current.

Definition selectivity_of (symbols : gmap string boundSourceSelectivity) (symbol : string) : boundSourceSelectivity :=
  default boundSourceSelectivityNone (symbols !! symbol).

Definition mergeBoundSourceSelectivity (symbols : gmap string boundSourceSelectivity) (symbol : string)
    (selectivity : boundSourceSelectivity) : gmap string boundSourceSelectivity :=
  if rank (selectivity_of symbols symbol) <? rank selectivity then <[symbol := selectivity]> symbols else symbols.

Definition expressionIsConstant (expression : option Expression) : bool :=
  match expression with
  | Some (ELiteral _ null) => negb null
  | Some (EParameter _) => true
  | _ => false
  end.

Definition propertySelectivity (property : string) (value : option Expression) : boundSourceSelectivity :=
  if EqualFold property "objectid" && expressionIsConstant value then boundSourceSelectivityUnique
  else if expressionIsConstant value then boundSourceSelectivityPredicate
  else boundSourceSelectivityNone.

Definition propertyConstraintSelectivity (expression : option Expression) : boundSourceSelectivity :=
  match expression with
  | Some (EProperties map None) =>
      foldl (fun highest kv => mergeSelectivityValue highest (propertySelectivity kv.1 kv.2)) boundSourceSelectivityNone map
  | _ => boundSourceSelectivityNone
  end.

Definition propertyLookupSymbol (expression : option Expression) : option (string * string) :=
  match expression with
  | Some (EPropertyLookup (Some (EVariable variable)) property) =>
      if bool_decide (variable = "") || bool_decide (property = "") then None else Some (variable, property)
  | _ => None
  end.

Definition propertyLookupVariableSymbol (expression : option Expression) : option string :=
  match expression with
  | Some (EPropertyLookup (Some (EVariable variable)) _) => if bool_decide (variable = "") then None else Some variable
  | _ => None
  end.

Definition expressionReferencesAnySource (expression : option Expression) : bool :=
  match expression with
  | None | Some (ELiteral _ _) | Some (EParameter _) => false
  | Some e =>
      let '(references, err) := collectReferencedSourceIdentifiers (Some (NExpression e)) in
      bool_decide (is_Some err) || (0 <? size references)
  end.

(** The symbol and selectivity of an equality between a property and an
    expression without references. *)
Definition propertyPredicateSelectivity (expression : option Expression) : option (string * boundSourceSelectivity) :=
  match expression with
  | Some (EComparison l [(operator, r)]) =>
      if negb (bool_decide (operator = OperatorEquals)) then None
      else
        match propertyLookupSymbol l, negb (expressionReferencesAnySource r) with
        | Some (symbol, property), true => Some (symbol, propertySelectivity property r)
        | _, _ =>
            match propertyLookupSymbol r, negb (expressionReferencesAnySource l) with
            | Some (symbol, property), true => Some (symbol, propertySelectivity property l)
            | _, _ => None
            end
        end
  | _ => None
  end.

Definition nodePatternSelectivity (nodePattern : NodePattern Expression) (hasAttachedPredicate : bool) : boundSourceSelectivity :=
  let selectivity := if 0 <? length (np_Kinds nodePattern) then boundSourceSelectivityKindOnly else boundSourceSelectivityNone in
  let selectivity := mergeSelectivityValue selectivity (propertyConstraintSelectivity (np_Properties nodePattern)) in
  if hasAttachedPredicate then mergeSelectivityValue selectivity boundSourceSelectivityPredicate else selectivity.

(** The terms of nested conjunctions, which may be nil themselves. *)
Fixpoint conjunction_terms (expression : Expression) : list (option Expression) :=
  match expression with
  | EConjunction expressions =>
      concat ((fun o => match o with Some e => conjunction_terms e | None => [None] end) <$> expressions)
  | _ => [Some expression]
  end.

Definition cypherConjunctionTerms (expression : option Expression) : list (option Expression) :=
  match expression with Some e => conjunction_terms e | None => [None] end.

Definition isEndpointSearchOperator (operator : Operator) : bool :=
  bool_decide (operator ∈ [OperatorEquals; OperatorRegexMatch; OperatorGreaterThan; OperatorGreaterThanOrEqualTo; OperatorLessThan;
    OperatorLessThanOrEqualTo; OperatorStartsWith; OperatorEndsWith; OperatorContains; OperatorIn]).

Definition shortestPathSearchPredicateSymbol (expression : option Expression) : option string :=
  match expression with
  | Some (EComparison l [(operator, r)]) =>
      if negb (isEndpointSearchOperator operator) then None
      else
        match propertyLookupVariableSymbol l, negb (expressionReferencesAnySource r) with
        | Some symbol, true => Some symbol
        | _, _ =>
            match propertyLookupVariableSymbol r, negb (expressionReferencesAnySource l) with
            | Some symbol, true => Some symbol
            | _, _ => None
            end
        end
  | _ => None
  end.

Definition addShortestPathSearchPredicateSymbols (symbols : gset string) (expression : option Expression) : gset string :=
  foldl (fun symbols term => match shortestPathSearchPredicateSymbol term with Some s => addSymbol s symbols | None => symbols end)
    symbols (cypherConjunctionTerms expression).

Definition whereSearchPredicateSymbols (m : Match) : gset string :=
  match match_Where m with
  | None => ∅
  | Some expressions => foldl addShortestPathSearchPredicateSymbols ∅ expressions
  end.

Definition shortestPathSearchPredicateSymbols (readingClauses : list (option ReadingClause)) : gset string :=
  foldl (fun symbols c =>
    match clause_where c with
    | Some expressions => foldl addShortestPathSearchPredicateSymbols symbols expressions
    | None => symbols
    end) ∅ readingClauses.

Definition endpointHasSearchConstraint (nodePattern : NodePattern Expression) (symbol : string)
    (predicateConstrainedSymbols : gset string) : bool :=
  bool_decide (is_Some (np_Properties nodePattern)) || referencesSourceIdentifier predicateConstrainedSymbols symbol.

Definition endpointHasTerminalFilterConstraint (nodePattern : NodePattern Expression) (symbol : string)
    (predicateConstrainedSymbols : gset string) : bool :=
  nodePatternHasConstraints nodePattern || referencesSourceIdentifier predicateConstrainedSymbols symbol.

(** ** The score of a clause *)

Definition step_selectivity (selectivity : boundSourceSelectivity) (step : sourceTraversalStep) : boundSourceSelectivity :=
  let selectivity :=
    if 0 <? length (rp_Kinds (Relationship step)) then mergeSelectivityValue selectivity boundSourceSelectivityKindOnly
    else selectivity in
  mergeSelectivityValue selectivity (propertyConstraintSelectivity (rp_Properties (Relationship step))).

Definition pattern_selectivity (selectivity : boundSourceSelectivity) (patternPart : option (PatternPart Expression)) : boundSourceSelectivity :=
  foldl step_selectivity
    (foldl (fun s n => mergeSelectivityValue s (nodePatternSelectivity n false)) selectivity (nodePatternsForPattern patternPart))
    (traversalStepsForPattern patternPart).

Definition term_selectivity (selectivity : boundSourceSelectivity) (term : option Expression) : boundSourceSelectivity :=
  mergeSelectivityValue selectivity
    (match propertyPredicateSelectivity term with Some (_, s) => s | None => boundSourceSelectivityPredicate end).

Definition matchClauseSelectivity (readingClause : option ReadingClause) : boundSourceSelectivity :=
  match readingClause ≫= clause_Match with
  | None => boundSourceSelectivityNone
  | Some m =>
      let selectivity := foldl pattern_selectivity boundSourceSelectivityNone (match_Pattern m) in
      match match_Where m with
      | None => selectivity
      | Some expressions => foldl term_selectivity selectivity (concat (cypherConjunctionTerms <$> expressions))
      end
  end.

Definition clause_score (readingClause : option ReadingClause) : Z := Z.of_nat (rank (matchClauseSelectivity readingClause)).

(** ** What a projection carries *)

Definition expressionVariableSymbol (expression : option Expression) : option string :=
  match expression with
  | Some (EVariable symbol) => if bool_decide (symbol = "") then None else Some symbol
  | _ => None
  end.

Definition projectionItemVariableSymbol (expression : option Expression) : option string :=
  match expression with
  | Some (EProjectionItem e None) => expressionVariableSymbol e
  | _ => None
  end.

Definition projectionItemVariableSymbolAndAlias (expression : option Expression) : option (string * string) :=
  match expression with
  | Some (EProjectionItem e alias) =>
      match expressionVariableSymbol e with
      | None => None
      | Some symbol =>
          match alias with
          | None => Some (symbol, symbol)
          | Some a => if bool_decide (a = "") then None else Some (symbol, a)
          end
      end
  | _ => None
  end.

Definition expressionHasAggregate (expression : option Expression) : bool :=
  match expression with Some (EFunctionInvocation _ _ name _) => EqualFold name CountFunction | _ => false end.

Definition projectionHasAggregate (projection : Projection) : bool :=
  existsb (fun item => match item with Some (EProjectionItem e _) => expressionHasAggregate e | _ => false end) (pj_Items projection).

Definition projectionCardinalitySelectivity (projection : Projection) : boundSourceSelectivity :=
  match pj_Limit projection with
  | None => boundSourceSelectivityNone
  | Some _ =>
      if bool_decide (is_Some (pj_Order projection)) || projectionHasAggregate projection
      then boundSourceSelectivityTopN else boundSourceSelectivityLimited
  end.

Definition is_asterisk (symbol : option string) : bool := bool_decide (symbol = Some TokenLiteralAsterisk).

Definition projectionCarriesAllSymbols (projection : Projection) : bool :=
  pj_All projection || (length (pj_Items projection) =? 0) ||
  existsb (fun item => is_asterisk (fst <$> projectionItemVariableSymbolAndAlias item) || is_asterisk (expressionVariableSymbol item))
    (pj_Items projection).

(** The carried symbols and their selectivity. *)
Definition carried : Type := (gset string * gmap string boundSourceSelectivity)%type.

Definition carry (alias : string) (incoming projectionSelectivity : boundSourceSelectivity) (st : carried) : carried :=
  (addSymbol alias st.1,
   mergeBoundSourceSelectivity (mergeBoundSourceSelectivity st.2 alias incoming) alias projectionSelectivity).

Definition carry_item (incomingSelectivity : gmap string boundSourceSelectivity) (projectionSelectivity : boundSourceSelectivity)
    (st : carried) (item : option Expression) : carried :=
  match projectionItemVariableSymbolAndAlias item with
  | None => st
  | Some (symbol, alias) =>
      if bool_decide (symbol = TokenLiteralAsterisk) then st
      else carry alias (selectivity_of incomingSelectivity symbol) projectionSelectivity st
  end.

Definition carryProjectionSelectivity (projection : option Projection) (incomingSymbols : gset string)
    (incomingSelectivity : gmap string boundSourceSelectivity) : carried :=
  match projection with
  | None => (∅, ∅)
  | Some p =>
      let projectionSelectivity := projectionCardinalitySelectivity p in
      let all :=
        if projectionCarriesAllSymbols p
        then foldl (fun st symbol => carry symbol (selectivity_of incomingSelectivity symbol) projectionSelectivity st) (∅, ∅)
               (elements incomingSymbols)
        else (∅, ∅) in
      foldl (carry_item incomingSelectivity projectionSelectivity) all (pj_Items p)
  end.

Definition declare_selective_node (symbols : gmap string boundSourceSelectivity) (nodePattern : NodePattern Expression)
    : gmap string boundSourceSelectivity :=
  let symbol := variableSymbol (np_Variable nodePattern) in
  if bool_decide (symbol = "") then symbols
  else mergeBoundSourceSelectivity symbols symbol (propertyConstraintSelectivity (np_Properties nodePattern)).

Definition declareSelectiveMatchSymbols (symbols : gmap string boundSourceSelectivity) (m : Match) : gmap string boundSourceSelectivity :=
  let symbols := foldl declare_selective_node symbols (concat (nodePatternsForPattern <$> match_Pattern m)) in
  match match_Where m with
  | None => symbols
  | Some expressions =>
      foldl (fun symbols term =>
        match propertyPredicateSelectivity term with
        | Some (symbol, selectivity) => mergeBoundSourceSelectivity symbols symbol selectivity
        | None => symbols
        end) symbols (concat (cypherConjunctionTerms <$> expressions))
  end.

Definition declareReadingClauseSelectivity (symbols : gmap string boundSourceSelectivity) (readingClauses : list (option ReadingClause))
    : gmap string boundSourceSelectivity :=
  foldl (fun symbols c =>
    match c ≫= clause_Match with
    | Some m => if match_Optional m then symbols else declareSelectiveMatchSymbols symbols m
    | None => symbols
    end) symbols readingClauses.
