(* ===== verification/Reversal.v ===== *)
(** * Reversal of inbound traversals (cypher/models/pgsql/optimize/direction.go)

    A pattern that starts with an unbounded expansion from an endpoint that is no
    more selective than its other end is turned around: its elements are reversed
    and so are the directions of its relationships.  What is proved is that the
    pattern turned around is matched by the paths of the original one, walked
    from the other end, and that testing first whether anything would be turned
    around is exact. *)

From S2P Require Import Prelude Framing Walk WalkTree Kinds Digraph CypherAst Analysis Reordering SourceReferences PatternSteps.

(** ** The rule *)

Definition reverse_element (element : option (PatternElement Expression)) : option (PatternElement Expression) :=
  match element with
  | Some (RelationshipElement r) =>
      Some (RelationshipElement (mkRelationshipPattern (rp_Variable r) (rp_Kinds r) (Direction_Reverse (rp_Direction r))
        (rp_Range r) (rp_Properties r)))
  | _ => element
  end.

Definition reversePatternElements (patternPart : PatternPart Expression) : PatternPart Expression :=
  mkPatternPart (pp_addr patternPart) (pp_Variable patternPart) (pp_ShortestPathPattern patternPart)
    (pp_AllShortestPathsPattern patternPart) (reverse_element <$> reverse (pp_PatternElements patternPart))
    (pp_PathDirectionReversed patternPart).

Definition endpointSelectivity (nodePattern : NodePattern Expression) (symbol : string) (searchSymbols : gset string)
    : boundSourceSelectivity :=
  let selectivity := nodePatternSelectivity nodePattern false in
  if bool_decide (symbol ∈ searchSymbols) && negb (bool_decide (symbol = ""))
  then mergeSelectivityValue selectivity boundSourceSelectivityPredicate else selectivity.

(** The leading relationship is an unbounded expansion in one direction, without a name. *)
Definition leads_unbounded (r : RelationshipPattern Expression) : bool :=
  match rp_Range r with
  | Some range => negb (bool_decide (is_Some (range_EndIndex range)))
  | None => false
  end && negb (bool_decide (rp_Direction r = DirectionBoth)) && negb (bool_decide (is_Some (rp_Variable r))).

Definition inboundTraversalReversalCandidate (patternPart : option (PatternPart Expression)) (declaredSymbols searchSymbols : gset string)
    : bool :=
  match patternPart with
  | None => false
  | Some p =>
      if pp_ShortestPathPattern p || pp_AllShortestPathsPattern p then false
      else
        match traversalStepsForPattern patternPart with
        | leadingStep :: second :: rest =>
            if negb (leads_unbounded (Relationship leadingStep)) then false
            else
              let sourceNode := LeftNode leadingStep in
              let terminalNode := RightNode (List.last rest second) in
              let sourceSymbol := variableSymbol (np_Variable sourceNode) in
              let terminalSym := variableSymbol (np_Variable terminalNode) in
              if negb (bool_decide (sourceSymbol = "")) && bool_decide (sourceSymbol ∈ declaredSymbols) then false
              else if negb (endpointHasSearchConstraint terminalNode terminalSym searchSymbols) then false
              else rank (endpointSelectivity sourceNode sourceSymbol searchSymbols)
                     <=? rank (endpointSelectivity terminalNode terminalSym searchSymbols)
        | _ => false
        end
  end.

Definition set_reversed (p : PatternPart Expression) : PatternPart Expression :=
  mkPatternPart (pp_addr p) (pp_Variable p) (pp_ShortestPathPattern p) (pp_AllShortestPathsPattern p) (pp_PatternElements p)
    (negb (pp_PathDirectionReversed p)).

Definition reverseInboundTraversalPatternPart (patternPart : option (PatternPart Expression)) (declaredSymbols searchSymbols : gset string)
    : option (PatternPart Expression) * bool :=
  if inboundTraversalReversalCandidate patternPart declaredSymbols searchSymbols
  then ((fun p => set_reversed (reversePatternElements p)) <$> patternPart, true)
  else (patternPart, false).

(** The patterns of a match, and whether one was turned around. *)
Definition reverse_match (declaredSymbols : gset string) (m : Match) : Match * bool :=
  if match_Optional m then (m, false)
  else
    let searchSymbols := whereSearchPredicateSymbols m in
    let parts := (fun p => reverseInboundTraversalPatternPart p declaredSymbols searchSymbols) <$> match_Pattern m in
    (mkMatch (match_Optional m) (fst <$> parts) (match_Where m), existsb snd parts).

Definition declare_unwind (declaredSymbols : gset string) (unwind : option Unwind) : gset string :=
  match unwind with Some u => addSymbol (variableSymbol (unwind_Variable u)) declaredSymbols | None => declaredSymbols end.

Definition reverse_clause (declaredSymbols : gset string) (readingClause : option ReadingClause)
    : option ReadingClause * bool * gset string :=
  match readingClause with
  | None => (None, false, declaredSymbols)
  | Some c =>
      match clause_Match c with
      | Some m =>
          let '(m', applied) := reverse_match declaredSymbols m in
          (Some (mkReadingClause (clause_addr c) (Some m') (clause_Unwind c)), applied,
           declare_unwind (declareMatchSymbols declaredSymbols (Some m')) (clause_Unwind c))
      | None => (readingClause, false, declare_unwind declaredSymbols (clause_Unwind c))
      end
  end.

(** The clauses, whether a pattern was turned around, and the declared symbols. *)
Fixpoint reverseInboundTraversalReadingClauses (readingClauses : list (option ReadingClause)) (declaredSymbols : gset string)
    : list (option ReadingClause) * bool * gset string :=
  match readingClauses with
  | [] => ([], false, declaredSymbols)
  | c :: cs =>
      let '(c', applied, declared) := reverse_clause declaredSymbols c in
      let '(cs', applied', declared') := reverseInboundTraversalReadingClauses cs declared in
      (c' :: cs', applied || applied', declared')
  end.

Definition reverseInboundTraversalSinglePartQuery (query : SinglePartQuery) (declaredSymbols : gset string) : SinglePartQuery * bool :=
  let '(clauses, applied, _) := reverseInboundTraversalReadingClauses (sp_ReadingClauses query) declaredSymbols in
  (mkSinglePartQuery clauses (sp_UpdatingClauses query) (sp_Return query), applied).

Definition carry_with (with_ : option With) (declaredSymbols : gset string) : gset string :=
  match with_ with
  | Some w => (carryProjectionSelectivity (with_Projection w) declaredSymbols ∅).1
  | None => declaredSymbols
  end.

Fixpoint reverse_parts (parts : list (option MultiPartQueryPart)) (declaredSymbols : gset string)
    : list (option MultiPartQueryPart) * bool * gset string :=
  match parts with
  | [] => ([], false, declaredSymbols)
  | None :: parts' =>
      let '(parts'', applied, declared) := reverse_parts parts' declaredSymbols in (None :: parts'', applied, declared)
  | Some p :: parts' =>
      let '(clauses, applied, declared) := reverseInboundTraversalReadingClauses (mp_ReadingClauses p) declaredSymbols in
      let '(parts'', applied', declared') := reverse_parts parts' (carry_with (mp_With p) declared) in
      (Some (mkMultiPartQueryPart clauses (mp_UpdatingClauses p) (mp_With p)) :: parts'', applied || applied', declared')
  end.

Definition reverseInboundTraversalMultiPartQuery (query : MultiPartQuery) : MultiPartQuery * bool :=
  match mq_SinglePartQuery query with
  | None => (query, false)
  | Some finalPart =>
      let '(parts, applied, declared) := reverse_parts (mq_Parts query) ∅ in
      let '(finalPart', applied') := reverseInboundTraversalSinglePartQuery finalPart declared in
      (mkMultiPartQuery parts (Some finalPart'), applied || applied')
  end.

(** The reversal of a query, without the test that it changes anything. *)
Definition reverse_query (query : RegularQuery) : RegularQuery * bool :=
  match mjoin query with
  | None => (query, false)
  | Some q =>
      match sq_SinglePartQuery q, sq_MultiPartQuery q with
      | Some p, None =>
          let '(p', applied) := reverseInboundTraversalSinglePartQuery p ∅ in (Some (Some (mkSingleQuery (Some p') None)), applied)
      | None, Some m =>
          let '(m', applied) := reverseInboundTraversalMultiPartQuery m in (Some (Some (mkSingleQuery None (Some m'))), applied)
      | _, _ => (query, false)
      end
  end.

(** ** The test *)

(** [inl]: a pattern would be turned around; [inr]: the declared symbols otherwise. *)
Definition would_reverse_clause (declaredSymbols : gset string) (readingClause : option ReadingClause) : unit + gset string :=
  match readingClause with
  | None => inr declaredSymbols
  | Some c =>
      match clause_Match c with
      | Some m =>
          if negb (match_Optional m) &&
             existsb (fun p => inboundTraversalReversalCandidate p declaredSymbols (whereSearchPredicateSymbols m)) (match_Pattern m)
          then inl ()
          else inr (declare_unwind (declareMatchSymbols declaredSymbols (Some m)) (clause_Unwind c))
      | None => inr (declare_unwind declaredSymbols (clause_Unwind c))
      end
  end.

Fixpoint readingClausesWouldReverseInboundTraversal (readingClauses : list (option ReadingClause)) (declaredSymbols : gset string)
    : unit + gset string :=
  match readingClauses with
  | [] => inr declaredSymbols
  | c :: cs =>
      match would_reverse_clause declaredSymbols c with
      | inl _ => inl ()
      | inr declared => readingClausesWouldReverseInboundTraversal cs declared
      end
  end.

Fixpoint would_reverse_parts (parts : list (option MultiPartQueryPart)) (declaredSymbols : gset string) : unit + gset string :=
  match parts with
  | [] => inr declaredSymbols
  | None :: parts' => would_reverse_parts parts' declaredSymbols
  | Some p :: parts' =>
      match readingClausesWouldReverseInboundTraversal (mp_ReadingClauses p) declaredSymbols with
      | inl _ => inl ()
      | inr declared => would_reverse_parts parts' (carry_with (mp_With p) declared)
      end
  end.

Definition is_reversed (r : unit + gset string) : bool := match r with inl _ => true | inr _ => false end.

Definition multiPartQueryWouldReverseInboundTraversal (query : MultiPartQuery) : bool :=
  match mq_SinglePartQuery query with
  | None => false
  | Some finalPart =>
      match would_reverse_parts (mq_Parts query) ∅ with
      | inl _ => true
      | inr declared => is_reversed (readingClausesWouldReverseInboundTraversal (sp_ReadingClauses finalPart) declared)
      end
  end.

Definition queryWouldReverseInboundTraversal (query : RegularQuery) : bool :=
  match mjoin query with
  | None => false
  | Some q =>
      match sq_SinglePartQuery q, sq_MultiPartQuery q with
      | Some p, None => is_reversed (readingClausesWouldReverseInboundTraversal (sp_ReadingClauses p) ∅)
      | None, Some m => multiPartQueryWouldReverseInboundTraversal m
      | _, _ => false
      end
  end.

Definition InboundTraversalReversalRule_Apply (query : RegularQuery) : RegularQuery * bool :=
  if queryWouldReverseInboundTraversal query then reverse_query query else (query, false).

(** ** The test is exact *)

Lemma part_would p D S :
  reverseInboundTraversalPatternPart p D S =
  (if inboundTraversalReversalCandidate p D S then (fun p => set_reversed (reversePatternElements p)) <$> p else p,
   inboundTraversalReversalCandidate p D S).
Proof. unfold reverseInboundTraversalPatternPart. by destruct (inboundTraversalReversalCandidate p D S). Qed.

Lemma parts_would ps D S :
  existsb snd ((fun p => reverseInboundTraversalPatternPart p D S) <$> ps) =
  existsb (fun p => inboundTraversalReversalCandidate p D S) ps /\
  (existsb (fun p => inboundTraversalReversalCandidate p D S) ps = false ->
   fst <$> ((fun p => reverseInboundTraversalPatternPart p D S) <$> ps) = ps).
Proof.
  induction ps as [|p ps [IH1 IH2]]; [done|]. cbn [fmap list_fmap existsb]. rewrite part_would. cbn [fst snd]. rewrite IH1.
  split; [done|]. intros [-> Hps]%orb_false_iff. f_equal. by apply IH2.
Qed.

Lemma match_would D m :
  let applied := negb (match_Optional m) && existsb (fun p => inboundTraversalReversalCandidate p D (whereSearchPredicateSymbols m)) (match_Pattern m) in
  (reverse_match D m).2 = applied /\ (applied = false -> (reverse_match D m).1 = m).
Proof.
  cbn zeta. unfold reverse_match. destruct m as [[] ps w]; [done|]. cbn [match_Optional match_Pattern match_Where fst snd negb andb].
  destruct (parts_would ps D (whereSearchPredicateSymbols (mkMatch false ps w))) as [H1 H2]. split; [done|]. intros Hno. by rewrite H2.
Qed.

(** A test and the reversal that it guards. *)
Definition guards {A} (test : unit + gset string) (before : A) (after : A * bool * gset string) : Prop :=
  match test with
  | inl _ => after.1.2 = true
  | inr declared => after = (before, false, declared)
  end.

Lemma clause_guards D c : guards (would_reverse_clause D c) c (reverse_clause D c).
Proof.
  destruct c as [[a [m|] u]|]; [|done..]. unfold would_reverse_clause, reverse_clause. cbn [clause_Match clause_Unwind clause_addr].
  destruct (match_would D m) as [H1 H2]. destruct (reverse_match D m) as [m' applied]. cbn [fst snd] in H1, H2. rewrite <- H1 in *.
  destruct applied; cbn; [done|]. by rewrite H2.
Qed.

Lemma clauses_guards cs : forall D,
  guards (readingClausesWouldReverseInboundTraversal cs D) cs (reverseInboundTraversalReadingClauses cs D).
Proof.
  induction cs as [|c cs IH]; intros D; [done|]. cbn. pose proof (clause_guards D c) as Hc.
  destruct (would_reverse_clause D c) as [|D1]; cbn in Hc.
  - destruct (reverse_clause D c) as [[c' a] D']. cbn in Hc. subst. by destruct (reverseInboundTraversalReadingClauses cs D') as [[]].
  - rewrite Hc. specialize (IH D1). destruct (readingClausesWouldReverseInboundTraversal cs D1); cbn in IH.
    + destruct (reverseInboundTraversalReadingClauses cs D1) as [[cs' a'] D']. cbn in *. done.
    + by rewrite IH.
Qed.

Lemma multi_parts_guards ps : forall D, guards (would_reverse_parts ps D) ps (reverse_parts ps D).
Proof.
  induction ps as [|[[cs us w]|] ps IH]; intros D; [done|..]; cbn.
  - pose proof (clauses_guards cs D) as Hc. destruct (readingClausesWouldReverseInboundTraversal cs D) as [|D1]; cbn in Hc.
    + destruct (reverseInboundTraversalReadingClauses cs D) as [[cs' a] D']. cbn in Hc. subst.
      by destruct (reverse_parts ps (carry_with w D')) as [[]].
    + rewrite Hc. specialize (IH (carry_with w D1)). destruct (would_reverse_parts ps (carry_with w D1)); cbn in IH.
      * destruct (reverse_parts ps (carry_with w D1)) as [[ps' a'] D']. cbn in *. done.
      * by rewrite IH.
  - specialize (IH D). destruct (would_reverse_parts ps D); cbn in IH; [|by rewrite IH].
    by destruct (reverse_parts ps D) as [[ps' a'] D'].
Qed.

(** The query is as it was when nothing was turned around. *)
Definition exact {A} (test : bool) (before : A) (after : A * bool) : Prop :=
  after.2 = test /\ (test = false -> after.1 = before).

Lemma single_exact p D :
  exact (is_reversed (readingClausesWouldReverseInboundTraversal (sp_ReadingClauses p) D)) p (reverseInboundTraversalSinglePartQuery p D).
Proof.
  destruct p as [cs us r]. unfold reverseInboundTraversalSinglePartQuery. cbn [sp_ReadingClauses]. pose proof (clauses_guards cs D) as Hc.
  destruct (readingClausesWouldReverseInboundTraversal cs D); cbn in Hc; [|by rewrite Hc].
  destruct (reverseInboundTraversalReadingClauses cs D) as [[cs' a] D']. cbn in Hc. by subst.
Qed.

Lemma multi_exact m : exact (multiPartQueryWouldReverseInboundTraversal m) m (reverseInboundTraversalMultiPartQuery m).
Proof.
  destruct m as [ps [f|]]; [|done]. unfold multiPartQueryWouldReverseInboundTraversal, reverseInboundTraversalMultiPartQuery.
  cbn [mq_Parts mq_SinglePartQuery]. pose proof (multi_parts_guards ps ∅) as Hp. destruct (would_reverse_parts ps ∅) as [|D]; cbn in Hp.
  - destruct (reverse_parts ps ∅) as [[ps' a] D']. cbn in Hp. subst.
    by destruct (reverseInboundTraversalSinglePartQuery f D') as [f' b].
  - rewrite Hp. destruct (single_exact f D) as [H1 H2].
    destruct (reverseInboundTraversalSinglePartQuery f D) as [f' b]. cbn [fst snd orb] in *. split; [done|]. cbn. intros Hf. by rewrite H2.
Qed.

Lemma query_exact query : exact (queryWouldReverseInboundTraversal query) query (reverse_query query).
Proof.
  unfold queryWouldReverseInboundTraversal, reverse_query. destruct query as [[[[p|] [m|]]|]|]; cbn; try done.
  - destruct (single_exact p ∅) as [H1 H2]. destruct (reverseInboundTraversalSinglePartQuery p ∅) as [p' a]. cbn [fst snd] in *.
    split; [done|]. cbn. intros Hf. by rewrite H2.
  - destruct (multi_exact m) as [H1 H2]. destruct (reverseInboundTraversalMultiPartQuery m) as [m' a]. cbn [fst snd] in *.
    split; [done|]. cbn. intros Hf. by rewrite H2.
Qed.

(** ** The steps of a pattern turned around *)

(** A node, and relationships that lead to further nodes. *)
Definition link : Type := (RelationshipPattern Expression * NodePattern Expression)%type.

Fixpoint tail_elements (ls : list link) : list (option (PatternElement Expression)) :=
  match ls with [] => [] | (r, n) :: ls' => Some (RelationshipElement r) :: Some (NodeElement n) :: tail_elements ls' end.

Definition chain_elements (n : NodePattern Expression) (ls : list link) : list (option (PatternElement Expression)) :=
  Some (NodeElement n) :: tail_elements ls.

Fixpoint chain_steps (n : NodePattern Expression) (ls : list link) : list sourceTraversalStep :=
  match ls with [] => [] | (r, m) :: ls' => mkSourceStep n r m :: chain_steps m ls' end.

(** The elements of a pattern as the frontend builds them. *)
Fixpoint links_of (es : list (option (PatternElement Expression))) : option (list link) :=
  match es with
  | [] => Some []
  | Some (RelationshipElement r) :: Some (NodeElement n) :: es' => cons (r, n) <$> links_of es'
  | _ => None
  end.

Definition chain_of (p : PatternPart Expression) : option (NodePattern Expression * list link) :=
  match pp_PatternElements p with Some (NodeElement n) :: es => pair n <$> links_of es | _ => None end.

Lemma links_of_elements es : forall ls, links_of es = Some ls -> es = tail_elements ls.
Proof.
  assert (Hlen : forall k es, length es <= k -> forall ls, links_of es = Some ls -> es = tail_elements ls).
  { clear es. induction k as [|k IH]; intros es Hk ls; destruct es as [|[[|r|]|] [|[[n| |]|] es]]; cbn in *; try done; try lia;
      try (by intros [= <-]).
    intros (ls' & Hls & ->)%fmap_Some. cbn. do 2 f_equal. apply IH; [lia|done]. }
  by apply (Hlen (length es)).
Qed.

Lemma chain_of_elements p n ls : chain_of p = Some (n, ls) -> pp_PatternElements p = chain_elements n ls.
Proof.
  unfold chain_of. destruct (pp_PatternElements p) as [|[[m| |]|] es]; try done.
  intros (ls' & Hls & [= <- <-])%fmap_Some. unfold chain_elements. f_equal. by apply links_of_elements.
Qed.

Lemma steps_tail ls : forall acc n, foldl steps_turn (acc, Some n, None) (tail_elements ls) =
  (acc ++ chain_steps n ls, Some (default n (snd <$> last ls)), None).
Proof.
  induction ls as [|[r m] ls IH]; intros acc n; [by rewrite app_nil_r|]. cbn [tail_elements foldl steps_turn chain_steps].
  rewrite IH, <- app_assoc. do 3 f_equal. rewrite last_cons. by destruct (last ls).
Qed.

Lemma steps_chain p n ls : pp_PatternElements p = chain_elements n ls -> traversalStepsForPattern (Some p) = chain_steps n ls.
Proof. intros Hp. unfold traversalStepsForPattern. rewrite Hp. cbn [chain_elements foldl steps_turn]. by rewrite steps_tail. Qed.

Definition flip_relationship (r : RelationshipPattern Expression) : RelationshipPattern Expression :=
  mkRelationshipPattern (rp_Variable r) (rp_Kinds r) (Direction_Reverse (rp_Direction r)) (rp_Range r) (rp_Properties r).

Definition flip_step (s : sourceTraversalStep) : sourceTraversalStep :=
  mkSourceStep (RightNode s) (flip_relationship (Relationship s)) (LeftNode s).

(** The chain from its other end. *)
Fixpoint rev_chain (n : NodePattern Expression) (ls : list link) : NodePattern Expression * list link :=
  match ls with
  | [] => (n, [])
  | (r, m) :: ls' => let '(first, back) := rev_chain m ls' in (first, back ++ [(flip_relationship r, n)])
  end.

Lemma tail_elements_app ls ls' : tail_elements (ls ++ ls') = tail_elements ls ++ tail_elements ls'.
Proof. induction ls as [|[r m] ls IH]; [done|]. cbn. by rewrite IH. Qed.

Lemma chain_steps_snoc ls r m : forall n,
  chain_steps n (ls ++ [(r, m)]) = chain_steps n ls ++ [mkSourceStep (default n (snd <$> last ls)) r m].
Proof.
  induction ls as [|[r' m'] ls IH]; intros n; [done|]. cbn [app chain_steps]. rewrite IH, last_cons. by destruct (last ls).
Qed.

Lemma rev_chain_last ls : forall n, default (rev_chain n ls).1 (snd <$> last (rev_chain n ls).2) = n.
Proof.
  destruct ls as [|[r m] ls]; intros n; [done|]. cbn. destruct (rev_chain m ls) as [f b]. cbn. by rewrite last_snoc.
Qed.

Lemma reverse_chain_elements ls : forall n,
  reverse_element <$> reverse (chain_elements n ls) = chain_elements (rev_chain n ls).1 (rev_chain n ls).2.
Proof.
  induction ls as [|[r m] ls IH]; intros n; [done|]. change (chain_elements n ((r, m) :: ls)) with
    (Some (NodeElement n) :: Some (RelationshipElement r) :: chain_elements m ls).
  rewrite !reverse_cons, !fmap_app, IH. cbn [rev_chain]. destruct (rev_chain m ls) as [f b]. cbn [fst snd].
  unfold chain_elements. rewrite tail_elements_app, <- app_assoc. done.
Qed.

Lemma rev_chain_steps ls : forall n,
  chain_steps (rev_chain n ls).1 (rev_chain n ls).2 = reverse (flip_step <$> chain_steps n ls).
Proof.
  induction ls as [|[r m] ls IH]; intros n; [done|]. cbn [chain_steps fmap list_fmap rev_chain]. rewrite reverse_cons.
  specialize (IH m). pose proof (rev_chain_last ls m) as Hlast. destruct (rev_chain m ls) as [f b]. cbn [fst snd] in *.
  rewrite chain_steps_snoc, IH. unfold flip_step at 3. cbn [LeftNode Relationship RightNode]. by subst m.
Qed.

Lemma reverse_steps p n ls : chain_of p = Some (n, ls) ->
  traversalStepsForPattern (Some (reversePatternElements p)) = reverse (flip_step <$> traversalStepsForPattern (Some p)).
Proof.
  intros Hp%chain_of_elements. rewrite (steps_chain p n ls Hp), <- rev_chain_steps. apply steps_chain. cbn. rewrite Hp.
  apply reverse_chain_elements.
Qed.

(** ** What a pattern matches

    In any graph, with any meaning of the constraints of a node and of the
    relationships of a step, which may also say what the variables are bound to. *)

Section paths.
Context {V E : Type}.
Variables start_ end_ : E -> V.
Variable node_ok : NodePattern Expression -> V -> Prop.
(** The name, kinds and properties of a relationship pattern, on the relationships
    of a step in the order of the query. *)
Variable relationships_ok : option string -> list Kind -> option Expression -> list E -> Prop.

Definition joins (d : Direction) (u : V) (e : E) (v : V) : Prop :=
  match d with
  | DirectionOutbound => start_ e = u /\ end_ e = v
  | DirectionInbound => end_ e = u /\ start_ e = v
  | DirectionBoth => start_ e = u /\ end_ e = v \/ end_ e = u /\ start_ e = v
  end.

Fixpoint walks (d : Direction) (u : V) (es : list E) (v : V) : Prop :=
  match es with
  | [] => u = v
  | e :: es' => exists w, joins d u e w /\ walks d w es' v
  end.

Definition in_range (range : option PatternRange) (k : nat) : Prop :=
  match range with
  | None => k = 1
  | Some r => (default 1%Z (range_StartIndex r) <= Z.of_nat k)%Z /\ (forall m, range_EndIndex r = Some m -> (Z.of_nat k <= m)%Z)
  end.

(** One step; [reversed] says that the pattern was turned around. *)
Definition step_ok (reversed : bool) (s : sourceTraversalStep) (u : V) (es : list E) (v : V) : Prop :=
  node_ok (LeftNode s) u /\ node_ok (RightNode s) v /\
  in_range (rp_Range (Relationship s)) (length es) /\ walks (rp_Direction (Relationship s)) u es v /\
  relationships_ok (rp_Variable (Relationship s)) (rp_Kinds (Relationship s)) (rp_Properties (Relationship s))
    (if reversed then reverse es else es).

(** A path: a node, and the relationships and the node of each step. *)
Definition path : Type := (V * list (list E * V))%type.

Fixpoint steps_ok (reversed : bool) (ss : list sourceTraversalStep) (u : V) (rest : list (list E * V)) : Prop :=
  match ss, rest with
  | [], [] => True
  | s :: ss', (es, v) :: rest' => step_ok reversed s u es v /\ steps_ok reversed ss' v rest'
  | _, _ => False
  end.

(** The relationships of a path are distinct. *)
Definition path_matches (p : PatternPart Expression) (x : path) : Prop :=
  steps_ok (pp_PathDirectionReversed p) (traversalStepsForPattern (Some p)) x.1 x.2 /\ NoDup (concat (fst <$> x.2)).

Fixpoint rev_path (u : V) (rest : list (list E * V)) : path :=
  match rest with
  | [] => (u, [])
  | (es, v) :: rest' => let '(first, back) := rev_path v rest' in (first, back ++ [(reverse es, u)])
  end.

Lemma joins_flip d u e v : joins (Direction_Reverse d) v e u <-> joins d u e v.
Proof using Type. destruct d; cbn; tauto. Qed.

Lemma walks_app d es es' : forall u v, walks d u (es ++ es') v <-> exists w, walks d u es w /\ walks d w es' v.
Proof using Type.
  induction es as [|e es IH]; intros u v; cbn; [split; [by exists u|by intros (w & -> & ?)]|]. setoid_rewrite IH. naive_solver.
Qed.

Lemma walks_flip d es : forall u v, walks (Direction_Reverse d) v (reverse es) u <-> walks d u es v.
Proof using Type.
  induction es as [|e es IH]; intros u v; [by split|]. rewrite reverse_cons, walks_app. cbn [walks]. setoid_rewrite IH. split.
  - intros (w & Hw & u' & Hj & <-). exists w. by rewrite <- joins_flip.
  - intros (w & Hj & Hw). exists w. split; [done|]. exists u. by rewrite joins_flip.
Qed.

Lemma step_flip b s u es v : step_ok (negb b) (flip_step s) v (reverse es) u <-> step_ok b s u es v.
Proof using Type.
  unfold step_ok. cbn. rewrite length_reverse, walks_flip.
  assert ((if negb b then reverse (reverse es) else reverse es) = if b then reverse es else es) as -> by
    (destruct b; cbn; by rewrite ?reverse_involutive). tauto.
Qed.

Lemma steps_ok_snoc b ss s es v : forall u rest,
  steps_ok b (ss ++ [s]) u (rest ++ [(es, v)]) <-> steps_ok b ss u rest /\ step_ok b s (default u (snd <$> last rest)) es v.
Proof using Type.
  induction ss as [|s' ss IH]; intros u [|[es' v'] rest]; cbn.
  - tauto.
  - split; [intros [_ H]; by destruct rest|tauto].
  - split; [intros [_ H]; by destruct ss|tauto].
  - rewrite IH. change (match last rest with Some _ => _ | None => _ end) with (last ((es', v') :: rest)).
    rewrite last_cons. destruct (last rest); cbn; tauto.
Qed.

Lemma rev_path_last rest : forall u, default (rev_path u rest).1 (snd <$> last (rev_path u rest).2) = u.
Proof using Type. destruct rest as [|[es v] rest]; intros u; [done|]. cbn. destruct (rev_path v rest) as [f b]. cbn. by rewrite last_snoc. Qed.

Lemma steps_flip b ss : forall u rest,
  steps_ok (negb b) (reverse (flip_step <$> ss)) (rev_path u rest).1 (rev_path u rest).2 <-> steps_ok b ss u rest.
Proof using Type.
  induction ss as [|s ss IH]; intros u [|[es v] rest]; cbn [fmap list_fmap rev_path]; rewrite ?reverse_cons.
  - done.
  - destruct (rev_path v rest) as [f bk]. cbn. by destruct bk.
  - cbn. by destruct (reverse (flip_step <$> ss)).
  - specialize (IH v rest). pose proof (rev_path_last rest v) as Hl. destruct (rev_path v rest) as [f bk]. cbn [fst snd] in *.
    rewrite steps_ok_snoc, IH, Hl, step_flip. cbn. tauto.
Qed.

Lemma rev_path_relationships rest : forall u, concat (fst <$> (rev_path u rest).2) = reverse (concat (fst <$> rest)).
Proof using Type.
  induction rest as [|[es v] rest IH]; intros u; [done|]. cbn [rev_path fmap list_fmap concat fst]. specialize (IH v).
  destruct (rev_path v rest) as [f b]. cbn [snd] in *. rewrite fmap_app, concat_app, IH, reverse_app. cbn. by rewrite app_nil_r.
Qed.

Lemma rev_path_app rest rest' : forall u,
  rev_path u (rest ++ rest') =
  let '(first, back) := rev_path (default u (snd <$> last rest)) rest' in (first, back ++ (rev_path u rest).2).
Proof using Type.
  induction rest as [|[es v] rest IH]; intros u; cbn [app rev_path].
  - cbn. destruct (rev_path u rest') as [f b]. by rewrite app_nil_r.
  - rewrite IH. change (last ((es, v) :: rest)) with (last ([(es, v)] ++ rest)). cbn [app]. rewrite last_cons.
    destruct (last rest) as [[]|]; cbn; destruct (rev_path _ rest') as [f b]; destruct (rev_path v rest) as [f' b']; cbn; by rewrite app_assoc.
Qed.

Lemma rev_path_involutive rest : forall u, rev_path (rev_path u rest).1 (rev_path u rest).2 = (u, rest).
Proof using Type.
  induction rest as [|[es v] rest IH]; intros u; [done|]. cbn [rev_path]. specialize (IH v). pose proof (rev_path_last rest v) as Hl.
  destruct (rev_path v rest) as [f b]. cbn [fst snd] in *. rewrite rev_path_app, Hl, IH. cbn. by rewrite reverse_involutive.
Qed.
End paths.

(** ** What the rule keeps *)

(** [C10] A pattern turned around matches the same paths from their other end: in every
    graph and whatever the constraints of nodes and relationships mean, a path
    matches the pattern exactly when the path walked backwards matches the reversed
    pattern, where the relationships of a step are read in the order of the query as
    the flag on the pattern says; walking backwards twice gives the path, so the two
    sets of matches correspond one to one. *)
Theorem reversal_matches {V E} (start_ end_ : E -> V) node_ok relationships_ok p : is_Some (chain_of p) ->
  forall u rest,
    (path_matches start_ end_ node_ok relationships_ok (set_reversed (reversePatternElements p)) (rev_path u rest) <->
     path_matches start_ end_ node_ok relationships_ok p (u, rest)) /\
    rev_path (rev_path u rest).1 (rev_path u rest).2 = (u, rest).
Proof.
  intros [[n ls] Hc] u rest. split; [|apply rev_path_involutive]. unfold path_matches.
  change (traversalStepsForPattern (Some (set_reversed (reversePatternElements p))))
    with (traversalStepsForPattern (Some (reversePatternElements p))).
  rewrite (reverse_steps p n ls Hc). cbn [set_reversed reversePatternElements pp_PathDirectionReversed fst snd].
  by rewrite steps_flip, rev_path_relationships, reverse_Permutation.
Qed.

(** The rule reports a change exactly when it turns a pattern around: testing first,
    before the query is copied, with a pass that stops at the first pattern it would
    turn around, gives the query and the answer of the reversal without the test. *)
Theorem InboundTraversalReversalRule_guarded query :
  InboundTraversalReversalRule_Apply query = reverse_query query /\
  (InboundTraversalReversalRule_Apply query).2 = queryWouldReverseInboundTraversal query.
Proof.
  unfold InboundTraversalReversalRule_Apply. destruct (query_exact query) as [H1 H2].
  destruct (queryWouldReverseInboundTraversal query); [done|]. specialize (H2 eq_refl).
  destruct (reverse_query query) as [q b]. cbn in *. by subst.
Qed.

(** *** A pattern: [(s)-[*]->(g)-[:AdminTo]->(d {objectid: 1})] *)

Definition demo_relationship (range : option PatternRange) (d : Direction) : option (PatternElement Expression) :=
  Some (RelationshipElement (mkRelationshipPattern None [] d range None)).

Definition demo_end (v : string) (properties : option Expression) : option (PatternElement Expression) :=
  Some (NodeElement (mkNodePattern (Some v) [] properties)).

Definition demo_pattern : PatternPart Expression :=
  mkPatternPart 7 None false false
    [demo_end "s" None; demo_relationship (Some (mkPatternRange None None)) DirectionOutbound; demo_end "g" None;
     demo_relationship None DirectionOutbound; demo_end "d" (Some (EProperties [("objectid", Some (ELiteral (IntValue 1) false))] None))] false.

(** The path 0, 1, 2 over the relationships 0-1, 1-2 and 2-3 with [g] at 2. *)
Definition demo_steps : list (list (nat * nat) * nat) := [([(0, 1); (1, 2)], 2); ([(2, 3)], 3)].

Lemma reversal_matches_witness :
  path_matches fst snd (fun _ _ => True) (fun _ _ _ _ => True) (set_reversed (reversePatternElements demo_pattern))
    (3, [([(2, 3)], 2); ([(1, 2); (0, 1)], 0)]).
Proof.
  apply (reversal_matches fst snd (fun _ _ => True) (fun _ _ _ _ => True) demo_pattern ltac:(by eexists) 0 demo_steps).
  split; [|vm_compute; repeat constructor; set_solver].
  change (traversalStepsForPattern (Some demo_pattern)) with
    [mkSourceStep (mkNodePattern (Some "s") [] None) (mkRelationshipPattern None [] DirectionOutbound (Some (mkPatternRange None None)) None)
       (mkNodePattern (Some "g") [] None);
     mkSourceStep (mkNodePattern (Some "g") [] None) (mkRelationshipPattern None [] DirectionOutbound None None)
       (mkNodePattern (Some "d") [] (Some (EProperties [("objectid", Some (ELiteral (IntValue 1) false))] None)))].
  cbn. repeat first [done | lia | split | eexists].
Defined.

(** The rule turns the pattern around, unless its source is bound before. *)
Example demo_candidate : inboundTraversalReversalCandidate (Some demo_pattern) ∅ ∅ = true.
Proof. vm_compute. reflexivity. Qed.

Example demo_bound : inboundTraversalReversalCandidate (Some demo_pattern) {["s"]} ∅ = false.
Proof. vm_compute. reflexivity. Qed.

(** A query with both parts is left as it is. *)
Definition demo_match : option ReadingClause := Some (mkReadingClause 0 (Some (mkMatch false [Some demo_pattern] None)) None).
Definition demo_single : SinglePartQuery := mkSinglePartQuery [demo_match] [] None.

(** [WITH head(collect(n)) AS s MATCH (s)-[*]->(g)-[]->(d {objectid: 1})]: the source
    is provided by the part before the [WITH], and the pattern is turned around,
    since only projected variables are carried over a [WITH]. *)
Definition demo_aliased : RegularQuery :=
  Some (Some (mkSingleQuery None (Some (mkMultiPartQuery
    [Some (mkMultiPartQueryPart
       [Some (mkReadingClause 1 (Some (mkMatch false [Some (mkPatternPart 8 None false false [demo_end "n" None] false)] None)) None)] []
       (Some (mkWith (Some (mkProjection false false None None None
          [Some (EProjectionItem (Some (EFunctionInvocation false [] "head"
             [Some (EFunctionInvocation false [] "collect" [Some (EVariable "n")])])) (Some "s"))])) None)))]
    (Some demo_single))))).

Theorem aliased_source_reversed : (InboundTraversalReversalRule_Apply demo_aliased).2 = true.
Proof. vm_compute. reflexivity. Qed.
