(* ===== verification/LoweringPlan.v ===== *)
(** * The lowering plan (cypher/models/pgsql/optimize/lowering.go, lowering_plan.go)

    For each traversal step of a query the optimizer records decisions that the
    translator reads by the target of the step.  The operations below append to
    the lists of a plan in the order of the code; some read what earlier ones
    appended.  [Place] names where a step is in a query part, so that a decision
    can be traced back to the step it is about. *)

From S2P Require Import Prelude Framing Walk WalkTree Kinds Digraph CypherAst Analysis Reordering SourceReferences PatternSteps.

(** ** Targets and decisions *)

Record PatternTarget := mkPatternTarget {
  pt_QueryPartIndex : nat;
  pt_ClauseIndex : nat;
  pt_PatternIndex : nat;
  pt_Predicate : bool;
  pt_PredicateIndex : nat;
}.

Record TraversalStepTarget := mkStepTarget {
  st_QueryPartIndex : nat;
  st_ClauseIndex : nat;
  st_PatternIndex : nat;
  st_Predicate : bool;
  st_PredicateIndex : nat;
  st_StepIndex : nat;
}.

#[export] Instance TraversalStepTarget_eq_dec : EqDecision TraversalStepTarget.
Proof. solve_decision. Defined.

Definition PatternTarget_TraversalStep (s : PatternTarget) (stepIndex : nat) : TraversalStepTarget :=
  mkStepTarget (pt_QueryPartIndex s) (pt_ClauseIndex s) (pt_PatternIndex s) (pt_Predicate s) (pt_PredicateIndex s) stepIndex.

Record ProjectionPruningDecision := mkPruning {
  pd_Target : TraversalStepTarget;
  pd_ReferencedSymbols : list string;
  pd_PatternBindingReferenced : bool;
  pd_OmitLeftNode : bool;
  pd_OmitRelationship : bool;
  pd_OmitRightNode : bool;
  pd_OmitPathBinding : bool;
}.

Inductive LatePathMaterializationMode :=
| LatePathMaterializationPathEdgeID | LatePathMaterializationExpansionPath | LatePathMaterializationEdgeComposite.

Record TraversalDirectionDecision := mkDirection {
  td_Target : TraversalStepTarget;
  td_Flip : bool;
  td_Reason : string;
}.

Inductive ShortestPathStrategy := ShortestPathStrategyBidirectional | ShortestPathStrategyUnidirectional.

Record ShortestPathStrategyDecision := mkStrategy {
  ss_Target : TraversalStepTarget;
  ss_Strategy : ShortestPathStrategy;
  ss_Reason : string;
}.

Inductive ShortestPathFilterMode := ShortestPathFilterTerminal | ShortestPathFilterEndpointPair.

Record ShortestPathFilterDecision := mkFilterDecision {
  sf_Target : TraversalStepTarget;
  sf_Mode : ShortestPathFilterMode;
  sf_Reason : string;
}.

Inductive LimitPushdownMode := LimitPushdownTraversalCTE | LimitPushdownShortestPathHarness.

Inductive PredicateAttachmentScope := PredicateAttachmentScopeBinding | PredicateAttachmentScopeRegion.

Record PredicateAttachment := mkAttachment {
  at_QueryPartIndex : nat;
  at_RegionIndex : nat;
  at_ClauseIndex : nat;
  at_ExpressionIndex : nat;
  at_Scope : PredicateAttachmentScope;
  at_BindingSymbols : list string;
  at_Dependencies : list string;
}.

Record ExpansionSuffixPushdownDecision := mkSuffix {
  sx_Target : TraversalStepTarget;
  sx_SuffixLength : nat;
  sx_SuffixStartStep : nat;
  sx_SuffixEndStep : nat;
  sx_PredicateAttachments : list PredicateAttachment;
}.

Record PredicatePlacementDecision := mkPlacement {
  pl_Target : TraversalStepTarget;
  pl_Attachment : PredicateAttachment;
  pl_Placement : PredicateAttachmentScope;
}.

Inductive CountStoreFastPathTarget := CountStoreFastPathNode | CountStoreFastPathEdge.

#[export] Instance CountStoreFastPathTarget_eq_dec : EqDecision CountStoreFastPathTarget.
Proof. solve_decision. Defined.

Record CountStoreFastPathDecision := mkCountStore {
  cs_QueryPartIndex : nat;
  cs_ClauseIndex : nat;
  cs_PatternIndex : nat;
  cs_BindingSymbol : string;
  cs_Target : CountStoreFastPathTarget;
  cs_KindSymbols : list string;
}.

Record PathRelationshipPredicateDecision := mkPathPredicate {
  pq_QueryPartIndex : nat;
  pq_QuantifierIndex : nat;
  pq_PathSymbol : string;
  pq_BindingSymbol : string;
}.

Record AggregateTraversalCountDecision := mkAggregate {
  ag_QueryPartIndex : nat;
  ag_SourceSymbol : string;
  ag_TerminalSymbol : string;
  ag_CountAlias : string;
  ag_Limit : Z;
  ag_Target : TraversalStepTarget;
}.

(** Decisions that only have a target, or a target and a mode, are pairs. *)
Record LoweringPlan := mkLoweringPlan {
  ProjectionPruning : list ProjectionPruningDecision;
  LatePathMaterialization : list (TraversalStepTarget * LatePathMaterializationMode);
  ExpandInto : list TraversalStepTarget;
  TraversalDirection : list TraversalDirectionDecision;
  ShortestPathStrategies : list ShortestPathStrategyDecision;
  ShortestPathFilter : list ShortestPathFilterDecision;
  LimitPushdown : list (TraversalStepTarget * LimitPushdownMode);
  ExpansionSuffixPushdown : list ExpansionSuffixPushdownDecision;
  PredicatePlacement : list PredicatePlacementDecision;
  PatternPredicates : list TraversalStepTarget;
  CountStoreFastPath : list CountStoreFastPathDecision;
  ExactRangeExpansion : list (TraversalStepTarget * Z);
  PathRelationshipPredicate : list PathRelationshipPredicateDecision;
  AggregateTraversalCount : list AggregateTraversalCountDecision;
}.

Definition empty_plan : LoweringPlan := mkLoweringPlan [] [] [] [] [] [] [] [] [] [] [] [] [] [].

Definition append_pruning (p : LoweringPlan) ds : LoweringPlan :=
  let '(mkLoweringPlan a b c d e f g h i j k l m n) := p in mkLoweringPlan (a ++ ds) b c d e f g h i j k l m n.
Definition append_late (p : LoweringPlan) ds : LoweringPlan :=
  let '(mkLoweringPlan a b c d e f g h i j k l m n) := p in mkLoweringPlan a (b ++ ds) c d e f g h i j k l m n.
Definition append_into (p : LoweringPlan) ds : LoweringPlan :=
  let '(mkLoweringPlan a b c d e f g h i j k l m n) := p in mkLoweringPlan a b (c ++ ds) d e f g h i j k l m n.
Definition append_direction (p : LoweringPlan) ds : LoweringPlan :=
  let '(mkLoweringPlan a b c d e f g h i j k l m n) := p in mkLoweringPlan a b c (d ++ ds) e f g h i j k l m n.
Definition append_strategy (p : LoweringPlan) ds : LoweringPlan :=
  let '(mkLoweringPlan a b c d e f g h i j k l m n) := p in mkLoweringPlan a b c d (e ++ ds) f g h i j k l m n.
Definition append_filter (p : LoweringPlan) ds : LoweringPlan :=
  let '(mkLoweringPlan a b c d e f g h i j k l m n) := p in mkLoweringPlan a b c d e (f ++ ds) g h i j k l m n.
Definition append_limit (p : LoweringPlan) ds : LoweringPlan :=
  let '(mkLoweringPlan a b c d e f g h i j k l m n) := p in mkLoweringPlan a b c d e f (g ++ ds) h i j k l m n.
Definition append_suffix (p : LoweringPlan) ds : LoweringPlan :=
  let '(mkLoweringPlan a b c d e f g h i j k l m n) := p in mkLoweringPlan a b c d e f g (h ++ ds) i j k l m n.
Definition append_placement (p : LoweringPlan) ds : LoweringPlan :=
  let '(mkLoweringPlan a b c d e f g h i j k l m n) := p in mkLoweringPlan a b c d e f g h (i ++ ds) j k l m n.
Definition append_pattern_predicate (p : LoweringPlan) ds : LoweringPlan :=
  let '(mkLoweringPlan a b c d e f g h i j k l m n) := p in mkLoweringPlan a b c d e f g h i (j ++ ds) k l m n.
Definition append_count_store (p : LoweringPlan) ds : LoweringPlan :=
  let '(mkLoweringPlan a b c d e f g h i j k l m n) := p in mkLoweringPlan a b c d e f g h i j (k ++ ds) l m n.
Definition append_exact (p : LoweringPlan) ds : LoweringPlan :=
  let '(mkLoweringPlan a b c d e f g h i j k l m n) := p in mkLoweringPlan a b c d e f g h i j k (l ++ ds) m n.
Definition append_path_predicate (p : LoweringPlan) ds : LoweringPlan :=
  let '(mkLoweringPlan a b c d e f g h i j k l m n) := p in mkLoweringPlan a b c d e f g h i j k l (m ++ ds) n.
Definition append_aggregate (p : LoweringPlan) ds : LoweringPlan :=
  let '(mkLoweringPlan a b c d e f g h i j k l m n) := p in mkLoweringPlan a b c d e f g h i j k l m (n ++ ds).
Definition set_suffix (p : LoweringPlan) ds : LoweringPlan :=
  let '(mkLoweringPlan a b c d e f g h i j k l m n) := p in mkLoweringPlan a b c d e f g ds i j k l m n.

Definition none {A} (l : list A) : bool := length l =? 0.

Definition LoweringPlan_Empty (s : LoweringPlan) : bool :=
  none (ProjectionPruning s) && none (LatePathMaterialization s) && none (ExpandInto s) && none (TraversalDirection s) &&
  none (ShortestPathStrategies s) && none (ShortestPathFilter s) && none (LimitPushdown s) && none (ExpansionSuffixPushdown s) &&
  none (PredicatePlacement s) && none (PatternPredicates s) && none (CountStoreFastPath s) && none (ExactRangeExpansion s) &&
  none (PathRelationshipPredicate s) && none (AggregateTraversalCount s).

(** The names of the lowerings that apply. *)
Definition LoweringPlan_Decisions (s : LoweringPlan) : list string :=
  let add name applied := if (applied : bool) then [name] else [] in
  add "ProjectionPruning" (negb (none (ProjectionPruning s))) ++
  add "LatePathMaterialization" (negb (none (LatePathMaterialization s))) ++
  add "ExpandIntoDetection" (negb (none (ExpandInto s))) ++
  add "TraversalDirectionSelection" (negb (none (TraversalDirection s))) ++
  add "ShortestPathStrategySelection" (negb (none (ShortestPathStrategies s))) ++
  add "ShortestPathFilterMaterialization" (negb (none (ShortestPathFilter s))) ++
  add "LimitPushdown" (negb (none (LimitPushdown s))) ++
  add "ExpansionSuffixPushdown" (negb (none (ExpansionSuffixPushdown s))) ++
  add "PredicatePlacement" (negb (none (PredicatePlacement s)) || negb (none (PatternPredicates s))) ++
  add "CountStoreFastPath" (negb (none (CountStoreFastPath s))) ++
  add "ExactRangeExpansion" (negb (none (ExactRangeExpansion s))) ++
  add "PathRelationshipPredicate" (negb (none (PathRelationshipPredicate s))) ++
  add "AggregateTraversalCount" (negb (none (AggregateTraversalCount s))).

Definition traversalDirectionReasonRightBound : string := "right_bound".
Definition traversalDirectionReasonRightConstrained : string := "right_constrained".
Definition traversalDirectionReasonRightPredicate : string := "right_predicate".
Definition traversalDirectionReasonTerminalKindOnlyEstimateWide : string := "terminal kind-only estimate too broad".
Definition traversalDirectionReasonBoundSourceSelective : string := "bound source estimate selective".
Definition shortestPathStrategyReasonBoundEndpointPairs : string := "bound_endpoint_pairs".
Definition shortestPathStrategyReasonEndpointPredicates : string := "endpoint_predicates".
Definition shortestPathFilterReasonTerminalPredicate : string := "terminal_predicate".
Definition shortestPathFilterReasonEndpointPairPredicates : string := "endpoint_pair_predicates".

Definition maxExactRangeExpansionDepth : Z := 2.

(** [for index, x := range l]. *)
Definition foldi {A St} (f : nat -> A -> St -> St) (l : list A) (s : St) : St :=
  foldl (fun s p => f p.1 p.2 s) s (imap pair l).

Definition clause_target (queryPartIndex clauseIndex patternIndex : nat) : PatternTarget :=
  mkPatternTarget queryPartIndex clauseIndex patternIndex false 0.

Definition predicate_target (queryPartIndex : nat) (p : indexedPatternPredicate) : PatternTarget :=
  mkPatternTarget queryPartIndex (ip_ClauseIndex p) (ip_PredicateIndex p) true (ip_PredicateIndex p).

(** Every pattern of the matches that are not optional. *)
Definition each_pattern {St} (f : nat -> nat -> option (PatternPart Expression) -> St -> St)
    (readingClauses : list (option ReadingClause)) (s : St) : St :=
  foldi (fun clauseIndex c s =>
    match c ≫= clause_Match with
    | Some m => if match_Optional m then s else foldi (f clauseIndex) (match_Pattern m) s
    | None => s
    end) readingClauses s.

(** The same with the symbols declared so far, which every pattern and match adds to. *)
Definition each_declared {St} (f : nat -> nat -> option (PatternPart Expression) -> gset string -> St -> St)
    (leave : Match -> St -> St) (readingClauses : list (option ReadingClause)) (declared : gset string) (s : St) : gset string * St :=
  foldi (fun clauseIndex c st =>
    match c ≫= clause_Match with
    | None => st
    | Some m =>
        if match_Optional m then (declareMatchSymbols st.1 (Some m), st.2)
        else
          let '(declared, s) :=
            foldi (fun patternIndex part st =>
              (declarePatternSymbols st.1 part, f clauseIndex patternIndex part st.1 st.2)) (match_Pattern m) st in
          (declareWhereSymbols declared m, leave m s)
    end) readingClauses (declared, s).

(** ** Expansions of an exact length *)

Definition ExactPatternRangeDepth (patternRange : option PatternRange) : Z :=
  match patternRange with
  | Some (mkPatternRange (Some start) (Some end_)) => if (start =? end_)%Z then start else 0
  | _ => 0
  end.

Definition exactRangeExpansionCandidate (patternPart : option (PatternPart Expression)) (step : sourceTraversalStep) : bool :=
  match patternPart with
  | None => false
  | Some p =>
      if pp_ShortestPathPattern p || pp_AllShortestPathsPattern p || bool_decide (rp_Direction (Relationship step) = DirectionBoth) ||
         bool_decide (is_Some (rp_Variable (Relationship step)))
      then false
      else
        let depth := ExactPatternRangeDepth (rp_Range (Relationship step)) in
        (1 <=? depth)%Z && (depth <=? maxExactRangeExpansionDepth)%Z
  end.

Definition appendPatternExactRangeExpansionDecisions (plan : LoweringPlan) (target : PatternTarget)
    (patternPart : option (PatternPart Expression)) : LoweringPlan :=
  foldi (fun stepIndex step plan =>
    if exactRangeExpansionCandidate patternPart step
    then append_exact plan [(PatternTarget_TraversalStep target stepIndex, ExactPatternRangeDepth (rp_Range (Relationship step)))]
    else plan) (traversalStepsForPattern patternPart) plan.

Definition appendExactRangeExpansionDecisions (plan : LoweringPlan) (queryPartIndex : nat)
    (readingClauses : list (option ReadingClause)) : LoweringPlan :=
  each_pattern (fun clauseIndex patternIndex patternPart plan =>
    appendPatternExactRangeExpansionDecisions plan (clause_target queryPartIndex clauseIndex patternIndex) patternPart)
    readingClauses plan.

Definition appendPatternPredicateExactRangeExpansionDecisions (plan : LoweringPlan) (queryPartIndex : nat)
    (indexedPredicates : list indexedPatternPredicate) : LoweringPlan :=
  foldl (fun plan p =>
    appendPatternExactRangeExpansionDecisions plan (predicate_target queryPartIndex p) (Some (patternPartForPredicate (ip_Predicate p))))
    plan indexedPredicates.

Definition hasExactRangeExpansionDecision (plan : LoweringPlan) (target : TraversalStepTarget) : bool :=
  existsb (fun d => bool_decide (d.1 = target)) (ExactRangeExpansion plan).

(** ** Quantifiers over the relationships of a path *)

Definition pathRelationshipQuantifierCandidate (q : quantifier) : option (string * string) :=
  match qt_Type q, qt_Filter q with
  | (QuantifierTypeAny | QuantifierTypeNone), Some (mkFilterExpression (Some (mkIDInCollection (Some bindingSymbol)
        (Some (EFunctionInvocation _ _ name [Some (EVariable pathSymbol)])))) _) =>
      if negb (EqualFold name RelationshipsFunction) || bool_decide (pathSymbol = "") || bool_decide (bindingSymbol = "") then None
      else Some (pathSymbol, bindingSymbol)
  | _, _ => None
  end.

(** The index of a quantifier of the query part; the last entry of an address stays. *)
Definition quantifierIndexes (queryPart : SyntaxNode) : gmap nat nat :=
  foldl (fun m q => <[qt_addr q.2 := q.1]> m) ∅ (indexedQuantifiersInQueryPart queryPart).

Definition appendPathRelationshipPredicateDecisions (plan : LoweringPlan) (queryPartIndex : nat) (queryPart : SyntaxNode) : LoweringPlan :=
  let indexes := quantifierIndexes queryPart in
  foldl (fun plan c =>
    match clause_where c with
    | None => plan
    | Some where_ =>
        foldl (fun plan q =>
          match indexes !! qt_addr q, pathRelationshipQuantifierCandidate q with
          | Some quantifierIndex, Some (pathSymbol, bindingSymbol) =>
              append_path_predicate plan [mkPathPredicate queryPartIndex quantifierIndex pathSymbol bindingSymbol]
          | _, _ => plan
          end) plan (quantifiersInSyntax (NWhere where_))
    end) plan (query_part_clauses queryPart).

(** ** What a step need not project *)

Definition is_expansion (plan : LoweringPlan) (target : TraversalStepTarget) (step : sourceTraversalStep) : bool :=
  bool_decide (is_Some (rp_Range (Relationship step))) && negb (hasExactRangeExpansionDecision plan target).

Definition pruning_decision (plan : LoweringPlan) (target : PatternTarget) (pathReferenced : bool) (stepCount : nat)
    (sourceReferences : gset string) (stepIndex : nat) (step : sourceTraversalStep) : ProjectionPruningDecision :=
  let stepTarget := PatternTarget_TraversalStep target stepIndex in
  let referenced variable := referencesSourceIdentifier sourceReferences (variableSymbol variable) in
  let edgeReferenced := referenced (rp_Variable (Relationship step)) in
  if is_expansion plan stepTarget step
  then mkPruning stepTarget (sortedMapKeys sourceReferences) pathReferenced false (negb edgeReferenced) false (negb pathReferenced)
  else mkPruning stepTarget (sortedMapKeys sourceReferences) pathReferenced
         (negb (referenced (np_Variable (LeftNode step)) || pathReferenced))
         (negb (edgeReferenced || pathReferenced))
         (negb (referenced (np_Variable (RightNode step)) || pathReferenced || (S stepIndex <? stepCount)))
         false.

Definition hasPruning (d : ProjectionPruningDecision) : bool :=
  pd_OmitLeftNode d || pd_OmitRelationship d || pd_OmitRightNode d || pd_OmitPathBinding d.

Definition appendPatternProjectionPruningDecisions (plan : LoweringPlan) (target : PatternTarget) (patternPart : PatternPart Expression)
    (steps : list sourceTraversalStep) (sourceReferences : gset string) : LoweringPlan :=
  let pathReferenced := referencesSourceIdentifier sourceReferences (variableSymbol (pp_Variable patternPart)) in
  foldi (fun stepIndex step plan =>
    let d := pruning_decision plan target pathReferenced (length steps) sourceReferences stepIndex step in
    if hasPruning d then append_pruning plan [d] else plan) steps plan.

(** A pattern with steps is not nil. *)
Definition appendProjectionPruningDecisions (plan : LoweringPlan) (queryPartIndex : nat) (readingClauses : list (option ReadingClause))
    (sourceReferences : gset string) : LoweringPlan :=
  each_pattern (fun clauseIndex patternIndex patternPart plan =>
    match patternPart with
    | None => plan
    | Some p =>
        let steps := traversalStepsForPattern (Some p) in
        if none steps then plan
        else appendPatternProjectionPruningDecisions plan (clause_target queryPartIndex clauseIndex patternIndex) p steps sourceReferences
    end) readingClauses plan.

(** ** How the path of a step is materialized *)

Definition late_decision (plan : LoweringPlan) (target : PatternTarget) (pathReferenced : bool) (stepCount : nat)
    (sourceReferences : gset string) (stepIndex : nat) (step : sourceTraversalStep)
    : option (TraversalStepTarget * LatePathMaterializationMode) :=
  let stepTarget := PatternTarget_TraversalStep target stepIndex in
  if is_expansion plan stepTarget step
  then if pathReferenced then Some (stepTarget, LatePathMaterializationExpansionPath) else None
  else
    let edgeReferenced := referencesSourceIdentifier sourceReferences (variableSymbol (rp_Variable (Relationship step))) in
    if pathReferenced
    then Some (stepTarget, if edgeReferenced then LatePathMaterializationEdgeComposite else LatePathMaterializationPathEdgeID)
    else if negb edgeReferenced && (S stepIndex <? stepCount) then Some (stepTarget, LatePathMaterializationPathEdgeID)
    else None.

Definition appendPatternLatePathMaterializationDecisions (plan : LoweringPlan) (target : PatternTarget)
    (patternPart : PatternPart Expression) (steps : list sourceTraversalStep) (sourceReferences : gset string) : LoweringPlan :=
  let pathReferenced := referencesSourceIdentifier sourceReferences (variableSymbol (pp_Variable patternPart)) in
  foldi (fun stepIndex step plan =>
    match late_decision plan target pathReferenced (length steps) sourceReferences stepIndex step with
    | Some d => append_late plan [d]
    | None => plan
    end) steps plan.

(** The code reads the variable of a nil pattern here; the walk that collects the
    references has failed on such a pattern before ([nil_part_rejected]). *)
Definition appendLatePathMaterializationDecisions (plan : LoweringPlan) (queryPartIndex : nat) (readingClauses : list (option ReadingClause))
    (sourceReferences : gset string) : LoweringPlan :=
  each_pattern (fun clauseIndex patternIndex patternPart plan =>
    match patternPart with
    | None => plan
    | Some p =>
        appendPatternLatePathMaterializationDecisions plan (clause_target queryPartIndex clauseIndex patternIndex) p
          (traversalStepsForPattern (Some p)) sourceReferences
    end) readingClauses plan.

Definition appendPatternPredicateProjectionLowerings (plan : LoweringPlan) (queryPartIndex : nat)
    (indexedPredicates : list indexedPatternPredicate) (sourceReferences : gset string) : LoweringPlan :=
  foldl (fun plan p =>
    let patternPart := patternPartForPredicate (ip_Predicate p) in
    let steps := traversalStepsForPattern (Some patternPart) in
    if none steps then plan
    else
      let target := predicate_target queryPartIndex p in
      appendPatternLatePathMaterializationDecisions
        (appendPatternProjectionPruningDecisions plan target patternPart steps sourceReferences)
        target patternPart steps sourceReferences) plan indexedPredicates.

(** A single step in any direction between endpoints without constraints. *)
Definition appendPatternPredicatePlacementDecisions (plan : LoweringPlan) (queryPartIndex : nat)
    (indexedPredicates : list indexedPatternPredicate) : LoweringPlan :=
  foldl (fun plan p =>
    match traversalStepsForPattern (Some (patternPartForPredicate (ip_Predicate p))) with
    | [step] =>
        if negb (bool_decide (rp_Direction (Relationship step) = DirectionBoth)) ||
           relationshipPatternHasProperties (Relationship step) || nodePatternHasConstraints (LeftNode step) ||
           nodePatternHasConstraints (RightNode step) || negb (bool_decide (variableSymbol (rp_Variable (Relationship step)) = ""))
        then plan
        else append_pattern_predicate plan [PatternTarget_TraversalStep (predicate_target queryPartIndex p) 0]
    | _ => plan
    end) plan indexedPredicates.

(** ** Steps between bound endpoints *)

Definition expand_into (step : sourceTraversalStep) (stepIndex : nat) (endpoints : declaredStepEndpoints) : bool :=
  let leftSymbol := variableSymbol (np_Variable (LeftNode step)) in
  let rightSymbol := variableSymbol (np_Variable (RightNode step)) in
  let leftBound := if bool_decide (leftSymbol = "") then 0 <? stepIndex else bool_decide (leftSymbol ∈ BeforeLeftNode endpoints) in
  negb (bool_decide (is_Some (rp_Range (Relationship step)))) && negb (bool_decide (rightSymbol = "")) && leftBound &&
  bool_decide (rightSymbol ∈ BeforeRightNode endpoints).

(** Every step with what is declared before its endpoints. *)
Definition each_step {St} (f : nat -> sourceTraversalStep -> declaredStepEndpoints -> St -> St) (declared : gset string)
    (steps : list sourceTraversalStep) (s : St) : St :=
  foldi (fun stepIndex p s => f stepIndex p.1 p.2 s) (zip steps (declaredSymbolsBeforeStepEndpoints declared steps)) s.

Definition appendExpandIntoDecisions (plan : LoweringPlan) (queryPartIndex : nat) (readingClauses : list (option ReadingClause)) : LoweringPlan :=
  (each_declared (fun clauseIndex patternIndex patternPart declared plan =>
    each_step (fun stepIndex step endpoints plan =>
      if expand_into step stepIndex endpoints
      then append_into plan [PatternTarget_TraversalStep (clause_target queryPartIndex clauseIndex patternIndex) stepIndex]
      else plan) declared (traversalStepsForPattern patternPart) plan)
    (fun _ plan => plan) readingClauses ∅ plan).2.

(** ** The direction of a step *)

Definition traversalDirectionDecisionForStep (target : TraversalStepTarget) (stepIndex : nat) (step : sourceTraversalStep)
    (declaredEndpoints : declaredStepEndpoints) (leftHasAttachedPredicate rightHasAttachedPredicate : bool)
    : option TraversalDirectionDecision :=
  if leftEndpointBoundForStep stepIndex step declaredEndpoints then None
  else
    let rightSymbol := variableSymbol (np_Variable (RightNode step)) in
    let leftSymbol := variableSymbol (np_Variable (LeftNode step)) in
    if negb (bool_decide (rightSymbol = "")) && bool_decide (rightSymbol ∈ BeforeRightNode declaredEndpoints) then
      if bool_decide (rightSymbol = leftSymbol) then None
      else Some (mkDirection target true traversalDirectionReasonRightBound)
    else
      let leftConstrained := nodePatternHasConstraints (LeftNode step) || leftHasAttachedPredicate in
      let rightConstrained := nodePatternHasConstraints (RightNode step) || rightHasAttachedPredicate in
      if rightConstrained && negb leftConstrained then
        let reason :=
          if negb (nodePatternHasConstraints (RightNode step)) && rightHasAttachedPredicate
          then traversalDirectionReasonRightPredicate else traversalDirectionReasonRightConstrained in
        Some (mkDirection target true reason)
      else None.

(** The pattern is one directed expansion without names from an endpoint without
    constraints to one with. *)
Definition bound_left_shape (patternPart : option (PatternPart Expression)) (steps : list sourceTraversalStep) (stepIndex : nat)
    (step : sourceTraversalStep) : bool :=
  match patternPart with
  | None => false
  | Some p =>
      negb (bool_decide (is_Some (pp_Variable p))) && negb (pp_ShortestPathPattern p) && negb (pp_AllShortestPathsPattern p) &&
      (length steps =? 1) && (stepIndex =? 0) && bool_decide (is_Some (rp_Range (Relationship step))) &&
      negb (bool_decide (rp_Direction (Relationship step) = DirectionBoth)) &&
      negb (bool_decide (is_Some (rp_Variable (Relationship step)))) &&
      negb (nodePatternHasConstraints (LeftNode step)) && nodePatternHasConstraints (RightNode step)
  end.

Definition boundLeftExpansionDirectionDecisionForStep (target : TraversalStepTarget) (patternPart : option (PatternPart Expression))
    (steps : list sourceTraversalStep) (stepIndex : nat) (step : sourceTraversalStep) (declaredEndpoints : declaredStepEndpoints)
    (rightHasAttachedPredicate : bool) (rightSelectivity leftSourceSelectivity : boundSourceSelectivity)
    : option TraversalDirectionDecision :=
  if negb (bound_left_shape patternPart steps stepIndex step) then None
  else
    let leftSymbol := variableSymbol (np_Variable (LeftNode step)) in
    let rightSymbol := variableSymbol (np_Variable (RightNode step)) in
    if bool_decide (leftSymbol = "") || bool_decide (leftSymbol = rightSymbol) then None
    else if negb (bool_decide (leftSymbol ∈ BeforeLeftNode declaredEndpoints)) then None
    else if negb (bool_decide (rightSymbol = "")) && bool_decide (rightSymbol ∈ BeforeRightNode declaredEndpoints) then None
    else if (rank boundSourceSelectivityUnique <=? rank leftSourceSelectivity) && (rank rightSelectivity <? rank boundSourceSelectivityUnique)
      then Some (mkDirection target false traversalDirectionReasonBoundSourceSelective)
    else if negb (bool_decide (is_Some (np_Properties (RightNode step)))) && negb rightHasAttachedPredicate
      then Some (mkDirection target false traversalDirectionReasonTerminalKindOnlyEstimateWide)
    else Some (mkDirection target true traversalDirectionReasonRightConstrained).

Definition step_direction (target : TraversalStepTarget) (patternPart : option (PatternPart Expression)) (steps : list sourceTraversalStep)
    (predicateConstrainedSymbols : gset string) (selectivity : gmap string boundSourceSelectivity)
    (stepIndex : nat) (step : sourceTraversalStep) (endpoints : declaredStepEndpoints) : option TraversalDirectionDecision :=
  let constrained n := referencesSourceIdentifier predicateConstrainedSymbols (variableSymbol (np_Variable n)) in
  match traversalDirectionDecisionForStep target stepIndex step endpoints (constrained (LeftNode step)) (constrained (RightNode step)) with
  | Some d => Some d
  | None =>
      boundLeftExpansionDirectionDecisionForStep target patternPart steps stepIndex step endpoints (constrained (RightNode step))
        (nodePatternSelectivity (RightNode step) (constrained (RightNode step)))
        (selectivity_of selectivity (variableSymbol (np_Variable (LeftNode step))))
  end.

(** The loop state holds the selectivity of declared symbols besides the plan. *)
Definition appendTraversalDirectionDecisions (plan : LoweringPlan) (queryPartIndex : nat) (readingClauses : list (option ReadingClause))
    (predicateConstrainedSymbols initialDeclaredSymbols : gset string) (initialSelectivity : gmap string boundSourceSelectivity)
    : LoweringPlan :=
  (each_declared (fun clauseIndex patternIndex patternPart declared (st : LoweringPlan * gmap string boundSourceSelectivity) =>
    let steps := traversalStepsForPattern patternPart in
    (each_step (fun stepIndex step endpoints plan =>
       match step_direction (PatternTarget_TraversalStep (clause_target queryPartIndex clauseIndex patternIndex) stepIndex) patternPart steps
               predicateConstrainedSymbols st.2 stepIndex step endpoints with
       | Some d => append_direction plan [d]
       | None => plan
       end) declared steps st.1, st.2))
    (fun m st => (st.1, declareSelectiveMatchSymbols st.2 m)) readingClauses initialDeclaredSymbols (plan, initialSelectivity)).2.1.

Definition bindingPredicateSymbols (predicateAttachments : list PredicateAttachment) (queryPartIndex : nat) : gset string :=
  foldl (fun symbols a =>
    if at_QueryPartIndex a =? queryPartIndex then foldl (fun symbols s => addSymbol s symbols) symbols (at_BindingSymbols a) else symbols)
    ∅ predicateAttachments.

(** ** Shortest paths *)

Definition is_shortest (patternPart : option (PatternPart Expression)) : bool :=
  match patternPart with Some p => pp_ShortestPathPattern p || pp_AllShortestPathsPattern p | None => false end.

Definition shortestPathStrategyDecisionForStep (target : TraversalStepTarget) (step : sourceTraversalStep)
    (declaredEndpoints : declaredStepEndpoints) (predicateConstrainedSymbols : gset string) : option ShortestPathStrategyDecision :=
  let leftSymbol := variableSymbol (np_Variable (LeftNode step)) in
  let rightSymbol := variableSymbol (np_Variable (RightNode step)) in
  if leftEndpointBoundForStep (st_StepIndex target) step declaredEndpoints && negb (bool_decide (rightSymbol = "")) &&
     bool_decide (rightSymbol ∈ BeforeRightNode declaredEndpoints)
  then Some (mkStrategy target ShortestPathStrategyBidirectional shortestPathStrategyReasonBoundEndpointPairs)
  else if endpointHasSearchConstraint (LeftNode step) leftSymbol predicateConstrainedSymbols &&
          endpointHasSearchConstraint (RightNode step) rightSymbol predicateConstrainedSymbols
  then Some (mkStrategy target ShortestPathStrategyBidirectional shortestPathStrategyReasonEndpointPredicates)
  else None.

Definition appendShortestPathStrategyDecisions (plan : LoweringPlan) (queryPartIndex : nat) (readingClauses : list (option ReadingClause))
    (predicateConstrainedSymbols : gset string) : LoweringPlan :=
  (each_declared (fun clauseIndex patternIndex patternPart declared plan =>
    if negb (is_shortest patternPart) then plan
    else
      each_step (fun stepIndex step endpoints plan =>
        match rp_Range (Relationship step) with
        | None => plan
        | Some _ =>
            match shortestPathStrategyDecisionForStep
                    (PatternTarget_TraversalStep (clause_target queryPartIndex clauseIndex patternIndex) stepIndex)
                    step endpoints predicateConstrainedSymbols with
            | Some d => append_strategy plan [d]
            | None => plan
            end
        end) declared (traversalStepsForPattern patternPart) plan)
    (fun _ plan => plan) readingClauses ∅ plan).2.

Definition hasShortestPathBidirectionalStrategy (plan : LoweringPlan) (target : TraversalStepTarget) : bool :=
  existsb (fun d => bool_decide (ss_Target d = target) &&
    match ss_Strategy d with ShortestPathStrategyBidirectional => true | _ => false end) (ShortestPathStrategies plan).

Definition shortestPathFilterDecisionForStep (plan : LoweringPlan) (target : TraversalStepTarget) (step : sourceTraversalStep)
    (declaredEndpoints : declaredStepEndpoints) (predicateConstrainedSymbols : gset string) : option ShortestPathFilterDecision :=
  let leftSymbol := variableSymbol (np_Variable (LeftNode step)) in
  let rightSymbol := variableSymbol (np_Variable (RightNode step)) in
  if negb (bool_decide (rightSymbol = "")) && bool_decide (rightSymbol ∈ BeforeRightNode declaredEndpoints) then None
  else
    let leftSearchConstrained := endpointHasSearchConstraint (LeftNode step) leftSymbol predicateConstrainedSymbols in
    let rightSearchConstrained := endpointHasSearchConstraint (RightNode step) rightSymbol predicateConstrainedSymbols in
    if negb (endpointHasTerminalFilterConstraint (RightNode step) rightSymbol predicateConstrainedSymbols) then None
    else if hasShortestPathBidirectionalStrategy plan target && leftSearchConstrained && rightSearchConstrained
    then Some (mkFilterDecision target ShortestPathFilterEndpointPair shortestPathFilterReasonEndpointPairPredicates)
    else Some (mkFilterDecision target ShortestPathFilterTerminal shortestPathFilterReasonTerminalPredicate).

Definition appendShortestPathFilterDecisions (plan : LoweringPlan) (queryPartIndex : nat) (readingClauses : list (option ReadingClause))
    (predicateConstrainedSymbols : gset string) : LoweringPlan :=
  (each_declared (fun clauseIndex patternIndex patternPart declared plan =>
    if negb (is_shortest patternPart) then plan
    else
      each_step (fun stepIndex step endpoints plan =>
        match rp_Range (Relationship step) with
        | None => plan
        | Some _ =>
            match shortestPathFilterDecisionForStep plan
                    (PatternTarget_TraversalStep (clause_target queryPartIndex clauseIndex patternIndex) stepIndex)
                    step endpoints predicateConstrainedSymbols with
            | Some d => append_filter plan [d]
            | None => plan
            end
        end) declared (traversalStepsForPattern patternPart) plan)
    (fun _ plan => plan) readingClauses ∅ plan).2.

(** ** Limits *)

Definition queryPartProjection (queryPart : SyntaxNode) : option Projection * nat :=
  match queryPart with
  | NSinglePartQuery p => (sp_Return p ≫= return_Projection, length (sp_UpdatingClauses p))
  | NMultiPartQueryPart p => (mp_With p ≫= with_Projection, length (mp_UpdatingClauses p))
  | _ => (None, 0)
  end.

Definition queryPartAllowsLimitPushdown (queryPart : SyntaxNode) (readingClauses : list (option ReadingClause)) : bool :=
  let '(projection, updatingClauseCount) := queryPartProjection queryPart in
  match projection with
  | None => false
  | Some p =>
      bool_decide (is_Some (pj_Limit p)) && negb (bool_decide (is_Some (pj_Skip p))) && negb (bool_decide (is_Some (pj_Order p))) &&
      negb (pj_Distinct p) && (length readingClauses =? 1) && (updatingClauseCount =? 0)
  end.

Definition appendLimitPushdownDecisions (plan : LoweringPlan) (queryPartIndex : nat) (queryPart : SyntaxNode)
    (readingClauses : list (option ReadingClause)) : LoweringPlan :=
  if negb (queryPartAllowsLimitPushdown queryPart readingClauses) then plan
  else
    each_pattern (fun clauseIndex patternIndex patternPart plan =>
      match patternPart with
      | None => plan
      | Some p =>
          if pp_AllShortestPathsPattern p then plan
          else
            foldi (fun stepIndex step plan =>
              let mode :=
                if pp_ShortestPathPattern p && bool_decide (is_Some (rp_Range (Relationship step)))
                then LimitPushdownShortestPathHarness else LimitPushdownTraversalCTE in
              append_limit plan [(PatternTarget_TraversalStep (clause_target queryPartIndex clauseIndex patternIndex) stepIndex, mode)])
              (traversalStepsForPattern patternPart) plan
      end) readingClauses plan.

(** ** Suffixes of an expansion *)

Fixpoint expansionSuffixPushdownLength (suffixSteps : list sourceTraversalStep) : nat :=
  match suffixSteps with
  | [] => 0
  | step :: steps =>
      if bool_decide (is_Some (rp_Range (Relationship step))) || bool_decide (rp_Direction (Relationship step) = DirectionBoth) then 0
      else S (expansionSuffixPushdownLength steps)
  end.

Definition hasTraversalDirectionFlip (plan : LoweringPlan) (target : TraversalStepTarget) : bool :=
  existsb (fun d => bool_decide (td_Target d = target) && td_Flip d) (TraversalDirection plan).

Definition expansionStepMayFlipForConstraintBalance (stepIndex : nat) (step : sourceTraversalStep)
    (declaredEndpoints : declaredStepEndpoints) : bool :=
  bool_decide (is_Some (traversalDirectionDecisionForStep (mkStepTarget 0 0 0 false 0 0) stepIndex step declaredEndpoints false false)).

Definition suffix_decision (plan : LoweringPlan) (target : TraversalStepTarget) (steps : list sourceTraversalStep) (stepIndex : nat)
    (step : sourceTraversalStep) (endpoints : declaredStepEndpoints) : option ExpansionSuffixPushdownDecision :=
  if negb (bool_decide (is_Some (rp_Range (Relationship step)))) || (length steps <=? S stepIndex) then None
  else if hasExactRangeExpansionDecision plan target then None
  else if hasTraversalDirectionFlip plan target || expansionStepMayFlipForConstraintBalance stepIndex step endpoints then None
  else
    let suffixLength := expansionSuffixPushdownLength (drop (S stepIndex) steps) in
    if 0 <? suffixLength then Some (mkSuffix target suffixLength (S stepIndex) (stepIndex + suffixLength) []) else None.

Definition appendExpansionSuffixPushdownDecisions (plan : LoweringPlan) (queryPartIndex : nat)
    (readingClauses : list (option ReadingClause)) : LoweringPlan :=
  (each_declared (fun clauseIndex patternIndex patternPart declared plan =>
    let steps := traversalStepsForPattern patternPart in
    each_step (fun stepIndex step endpoints plan =>
      match suffix_decision plan (PatternTarget_TraversalStep (clause_target queryPartIndex clauseIndex patternIndex) stepIndex)
              steps stepIndex step endpoints with
      | Some d => append_suffix plan [d]
      | None => plan
      end) declared steps plan)
    (fun _ plan => plan) readingClauses ∅ plan).2.

(** ** Where predicates go *)

(** The first step that has the symbol. *)
Definition setBindingTarget (queryPartIndex : nat) (symbol : string) (target : TraversalStepTarget)
    (targets : gmap (nat * string) TraversalStepTarget) : gmap (nat * string) TraversalStepTarget :=
  if bool_decide (symbol = "") then targets
  else match targets !! (queryPartIndex, symbol) with Some _ => targets | None => <[(queryPartIndex, symbol) := target]> targets end.

Definition indexReadingClauseBindingTargets (queryPartIndex : nat) (readingClauses : list (option ReadingClause))
    (targets : gmap (nat * string) TraversalStepTarget) : gmap (nat * string) TraversalStepTarget :=
  foldi (fun clauseIndex c targets =>
    match c ≫= clause_Match with
    | None => targets
    | Some m =>
        foldi (fun patternIndex part targets =>
          foldi (fun stepIndex step targets =>
            let target := PatternTarget_TraversalStep (clause_target queryPartIndex clauseIndex patternIndex) stepIndex in
            setBindingTarget queryPartIndex (variableSymbol (np_Variable (RightNode step))) target
              (setBindingTarget queryPartIndex (variableSymbol (rp_Variable (Relationship step))) target
                (setBindingTarget queryPartIndex (variableSymbol (np_Variable (LeftNode step))) target targets)))
            (traversalStepsForPattern part) targets) (match_Pattern m) targets
    end) readingClauses targets.

Definition indexBindingTargets (query : RegularQuery) : gmap (nat * string) TraversalStepTarget :=
  match mjoin query with
  | None => ∅
  | Some q =>
      match sq_MultiPartQuery q, sq_SinglePartQuery q with
      | Some m, _ =>
          let targets := foldi (fun index part targets =>
            match part with Some p => indexReadingClauseBindingTargets index (mp_ReadingClauses p) targets | None => targets end)
            (mq_Parts m) ∅ in
          match mq_SinglePartQuery m with
          | Some p => indexReadingClauseBindingTargets (length (mq_Parts m)) (sp_ReadingClauses p) targets
          | None => targets
          end
      | None, Some p => indexReadingClauseBindingTargets 0 (sp_ReadingClauses p) ∅
      | None, None => ∅
      end
  end.

Definition placement_of (bindingTargets : gmap (nat * string) TraversalStepTarget) (attachment : PredicateAttachment)
    : list PredicatePlacementDecision :=
  match at_Scope attachment, at_BindingSymbols attachment with
  | PredicateAttachmentScopeBinding, [symbol] =>
      match bindingTargets !! (at_QueryPartIndex attachment, symbol) with
      | Some target =>
          if st_ClauseIndex target =? at_ClauseIndex attachment then [mkPlacement target attachment (at_Scope attachment)] else []
      | None => []
      end
  | _, _ => []
  end.

Definition appendPredicatePlacementDecisions (plan : LoweringPlan) (query : RegularQuery) (predicateAttachments : list PredicateAttachment)
    : LoweringPlan :=
  if none predicateAttachments then plan
  else append_placement plan (concat (placement_of (indexBindingTargets query) <$> predicateAttachments)).

(** The placement is on one of the steps that the suffix pushes down. *)
Definition in_suffix (s : ExpansionSuffixPushdownDecision) (placement : PredicatePlacementDecision) : bool :=
  let t := pl_Target placement in
  (st_QueryPartIndex t =? st_QueryPartIndex (sx_Target s)) && (st_ClauseIndex t =? st_ClauseIndex (sx_Target s)) &&
  (st_PatternIndex t =? st_PatternIndex (sx_Target s)) &&
  (st_StepIndex (sx_Target s) <? st_StepIndex t) && (st_StepIndex t <=? st_StepIndex (sx_Target s) + sx_SuffixLength s).

Definition attachPredicatePlacementsToSuffixPushdowns (plan : LoweringPlan) : LoweringPlan :=
  set_suffix plan ((fun s =>
    mkSuffix (sx_Target s) (sx_SuffixLength s) (sx_SuffixStartStep s) (sx_SuffixEndStep s)
      (sx_PredicateAttachments s ++ (pl_Attachment <$> filter (fun p => in_suffix s p = true) (PredicatePlacement plan))))
    <$> ExpansionSuffixPushdown plan).

(** ** Where the translator finds the target of a pattern (lowering.go)

    The maps are keyed by addresses; that of a nil pattern is [None]. *)

Definition indexReadingClauseTargets (targets : gmap (option nat) PatternTarget) (queryPartIndex : nat)
    (readingClauses : list (option ReadingClause)) : gmap (option nat) PatternTarget :=
  foldi (fun clauseIndex c targets =>
    match c ≫= clause_Match with
    | None => targets
    | Some m =>
        foldi (fun patternIndex patternPart targets =>
          <[pp_addr <$> patternPart := clause_target queryPartIndex clauseIndex patternIndex]> targets) (match_Pattern m) targets
    end) readingClauses targets.

Definition indexQueryPartPatternPredicateTargets (targets : gmap nat PatternTarget) (queryPartIndex : nat) (queryPart : SyntaxNode)
    : gmap nat PatternTarget :=
  foldl (fun targets p => <[pred_addr (ip_Predicate p) := predicate_target queryPartIndex p]> targets) targets
    (indexedPatternPredicatesInQueryPart queryPart).

(** Every part of the query with its index. *)
Definition each_query_part {M} (f : nat -> SyntaxNode -> list (option ReadingClause) -> M -> M) (query : RegularQuery) (m : M) : M :=
  match mjoin query with
  | None => m
  | Some q =>
      match sq_MultiPartQuery q, sq_SinglePartQuery q with
      | Some multi, _ =>
          let m := foldi (fun queryPartIndex part m =>
            match part with Some part => f queryPartIndex (NMultiPartQueryPart part) (mp_ReadingClauses part) m | None => m end)
            (mq_Parts multi) m in
          match mq_SinglePartQuery multi with
          | Some finalPart => f (length (mq_Parts multi)) (NSinglePartQuery finalPart) (sp_ReadingClauses finalPart) m
          | None => m
          end
      | None, Some single => f 0 (NSinglePartQuery single) (sp_ReadingClauses single) m
      | None, None => m
      end
  end.

Definition IndexPatternTargets (query : RegularQuery) : gmap (option nat) PatternTarget :=
  each_query_part (fun queryPartIndex _ readingClauses targets => indexReadingClauseTargets targets queryPartIndex readingClauses) query ∅.

Definition IndexPatternPredicateTargets (query : RegularQuery) : gmap nat PatternTarget :=
  each_query_part (fun queryPartIndex queryPart _ targets => indexQueryPartPatternPredicateTargets targets queryPartIndex queryPart) query ∅.
