(* ===== verification/CountShapes.v ===== *)
(** * Counts answered without a traversal (cypher/models/pgsql/optimize/lowering_plan.go)

    Two shapes of whole queries: a count of all nodes or relationships of some
    kinds, which the count store answers, and an ordered and limited count of the
    terminals reached from each source, which is aggregated during the
    traversal. *)

From S2P Require Import Prelude Framing Walk WalkTree Kinds Digraph CypherAst Analysis Reordering SourceReferences PatternSteps LoweringPlan.

(** ** Counts of nodes and relationships *)

(** The argument of a projection that is just a count. *)
Definition simpleCountProjectionArgument (returnClause : option Return) : option string :=
  match returnClause ≫= return_Projection with
  | None => None
  | Some p =>
      if pj_Distinct p || pj_All p || bool_decide (is_Some (pj_Order p)) || bool_decide (is_Some (pj_Skip p)) ||
         bool_decide (is_Some (pj_Limit p))
      then None
      else
        match pj_Items p with
        | [Some (EProjectionItem (Some (EFunctionInvocation false [] name [argument])) _)] =>
            if negb (EqualFold name CountFunction) then None
            else
              match argument with
              | Some (EVariable symbol) => Some symbol
              | Some (ERangeQuantifier value) => if bool_decide (value = TokenLiteralAsterisk) then Some TokenLiteralAsterisk else None
              | _ => None
              end
        | _ => None
        end
  end.

Definition constrainedCountFastPathEndpoint (nodePattern : NodePattern Expression) : bool :=
  bool_decide (is_Some (np_Variable nodePattern)) || (0 <? length (np_Kinds nodePattern)) ||
  bool_decide (is_Some (np_Properties nodePattern)).

(** [Kind.String] of a nil kind panics. *)
Fixpoint kindSymbols (kinds : list Kind) : outcome (list string) :=
  match kinds with
  | [] => Done []
  | k :: ks => s ← Kind_String k; ss ← kindSymbols ks; Done (s :: ss)
  end.

Definition counts_binding (countArgument bindingSymbol : string) : bool :=
  bool_decide (countArgument = TokenLiteralAsterisk) || bool_decide (countArgument = bindingSymbol).

Definition count_store (target : CountStoreFastPathTarget) (bindingSymbol : string) (kinds : list Kind)
    : outcome (option CountStoreFastPathDecision) :=
  symbols ← kindSymbols kinds; Done (Some (mkCountStore 0 0 0 bindingSymbol target symbols)).

Definition count_store_elements (countArgument : string) (elements : list (option (PatternElement Expression)))
    : outcome (option CountStoreFastPathDecision) :=
  match elements with
  | [Some (NodeElement n)] =>
      let bindingSymbol := variableSymbol (np_Variable n) in
      if bool_decide (is_Some (np_Properties n)) || negb (counts_binding countArgument bindingSymbol) then Done None
      else count_store CountStoreFastPathNode bindingSymbol (np_Kinds n)
  | [Some (NodeElement l); Some (RelationshipElement r); Some (NodeElement r')] =>
      let bindingSymbol := variableSymbol (rp_Variable r) in
      if constrainedCountFastPathEndpoint l || constrainedCountFastPathEndpoint r' || bool_decide (is_Some (rp_Range r)) ||
         bool_decide (is_Some (rp_Properties r)) || bool_decide (rp_Direction r = DirectionBoth) ||
         negb (counts_binding countArgument bindingSymbol)
      then Done None
      else count_store CountStoreFastPathEdge bindingSymbol (rp_Kinds r)
  | _ => Done None
  end.

Definition countStoreFastPathDecision (query : RegularQuery) : outcome (option CountStoreFastPathDecision) :=
  match mjoin query ≫= sq_SinglePartQuery with
  | Some (mkSinglePartQuery [readingClause] [] return_) =>
      match simpleCountProjectionArgument return_, readingClause ≫= clause_Match with
      | Some countArgument, Some (mkMatch false [Some p] None) =>
          if bool_decide (is_Some (pp_Variable p)) || pp_ShortestPathPattern p || pp_AllShortestPathsPattern p then Done None
          else count_store_elements countArgument (pp_PatternElements p)
      | _, _ => Done None
      end
  | _ => Done None
  end.

(** ** Counts of terminals by source *)

Definition singleNodePattern (pattern : option (PatternPart Expression)) : option (NodePattern Expression) :=
  match pattern with
  | Some p =>
      match pp_Variable p, pp_PatternElements p with
      | None, [Some (NodeElement n)] => Some n
      | _, _ => None
      end
  | None => None
  end.

(** A where clause that refers to no other symbol. *)
Definition where_only (symbol : string) (where_ : option Where) : bool :=
  forallb (fun dependency => bool_decide (dependency = symbol)) (sortedDependencies (NWhere <$> where_)).

Definition aggregateTraversalSourceMatch (readingClause : option ReadingClause) : option (Match * NodePattern Expression * string) :=
  match readingClause ≫= clause_Match with
  | Some (mkMatch false [part] where_ as m) =>
      match singleNodePattern part with
      | Some (mkNodePattern (Some symbol) _ None as n) =>
          if bool_decide (symbol = "") || negb (where_only symbol where_) then None else Some (m, n, symbol)
      | _ => None
      end
  | _ => None
  end.

Definition aggregateTraversalMatch (readingClause : option ReadingClause) (sourceSymbol : string)
    : option (Match * RelationshipPattern Expression * NodePattern Expression * string) :=
  match readingClause ≫= clause_Match with
  | Some (mkMatch false [Some p] where_ as m) =>
      if bool_decide (is_Some (pp_Variable p)) || pp_ShortestPathPattern p || pp_AllShortestPathsPattern p then None
      else
        match pp_PatternElements p with
        | [Some (NodeElement l); Some (RelationshipElement r); Some (NodeElement n)] =>
            if negb (bool_decide (variableSymbol (np_Variable l) = sourceSymbol)) || bool_decide (is_Some (np_Properties l)) ||
               bool_decide (is_Some (rp_Variable r)) || negb (bool_decide (is_Some (rp_Range r))) ||
               bool_decide (is_Some (rp_Properties r)) || bool_decide (rp_Direction r = DirectionBoth) ||
               bool_decide (is_Some (np_Properties n))
            then None
            else
              match np_Variable n with
              | Some symbol => if bool_decide (symbol = "") || negb (where_only symbol where_) then None else Some (m, r, n, symbol)
              | None => None
              end
        | _ => None
        end
  | _ => None
  end.

Definition aggregateTraversalCountArgumentMatches (expression : option Expression) (terminalSymbol : string) : bool :=
  match expressionVariableSymbol expression with
  | Some symbol => bool_decide (symbol = terminalSymbol)
  | None => match expression with Some (ERangeQuantifier value) => bool_decide (value = TokenLiteralAsterisk) | _ => false end
  end.

Definition projectionItemCountAlias (expression : option Expression) (terminalSymbol : string) : option string :=
  match expression with
  | Some (EProjectionItem (Some (EFunctionInvocation false [] name [argument])) (Some alias)) =>
      if bool_decide (alias = "") || negb (EqualFold name CountFunction) ||
         negb (aggregateTraversalCountArgumentMatches argument terminalSymbol)
      then None else Some alias
  | _ => None
  end.

Definition aggregateTraversalWithProjection (projection : option Projection) (sourceSymbol terminalSymbol : string) : option string :=
  match projection with
  | None => None
  | Some p =>
      if pj_All p || bool_decide (is_Some (pj_Order p)) || bool_decide (is_Some (pj_Skip p)) || bool_decide (is_Some (pj_Limit p)) then None
      else
        match pj_Items p with
        | [source; count] =>
            if bool_decide (projectionItemVariableSymbol source = Some sourceSymbol) then projectionItemCountAlias count terminalSymbol
            else None
        | _ => None
        end
  end.

Record aggregateTraversalFinalProjectionShape := mkFinalProjection {
  fp_SourceAlias : string;
  fp_CountAlias : string;
  fp_ReturnCount : bool;
  fp_Limit : Z;
}.

Definition literalInt64 (expression : option Expression) : option Z :=
  match expression with
  | Some (ELiteral (IntValue z) false) => if (0 <=? z)%Z then Some z else None
  | _ => None
  end.

(** The shape so far, and whether the source and the count were seen. *)
Definition final_state : Type := (aggregateTraversalFinalProjectionShape * bool * bool)%type.

Definition final_item (sourceSymbol countAlias : string) (st : option final_state) (item : option Expression) : option final_state :=
  '(shape, sourceSeen, countSeen) ← st;
  '(symbol, alias) ← projectionItemVariableSymbolAndAlias item;
  if bool_decide (symbol = sourceSymbol) then
    if sourceSeen : bool then None
    else Some (mkFinalProjection alias (fp_CountAlias shape) (fp_ReturnCount shape) (fp_Limit shape), true, countSeen)
  else if bool_decide (symbol = countAlias) then
    if countSeen : bool then None
    else Some (mkFinalProjection (fp_SourceAlias shape) alias true (fp_Limit shape), sourceSeen, true)
  else None.

Definition aggregateTraversalFinalProjection (queryPart : option SinglePartQuery) (sourceSymbol countAlias : string)
    : option aggregateTraversalFinalProjectionShape :=
  match queryPart with
  | Some (mkSinglePartQuery [] [] (Some (mkReturn (Some p)))) =>
      if pj_Distinct p || pj_All p || bool_decide (is_Some (pj_Skip p)) || (length (pj_Items p) <? 1) || (2 <? length (pj_Items p)) then None
      else
        match pj_Order p, pj_Limit p with
        | Some order, Some limitValue =>
            match foldl (final_item sourceSymbol countAlias) (Some (mkFinalProjection sourceSymbol countAlias false 0, false, false)) (pj_Items p), order with
            | Some (shape, true, _), [Some (mkSortItem false expression)] =>
                match expressionVariableSymbol expression with
                | Some orderSymbol =>
                    if negb (bool_decide (orderSymbol = countAlias)) && negb (bool_decide (orderSymbol = fp_CountAlias shape)) then None
                    else
                      match literalInt64 limitValue with
                      | Some limit => Some (mkFinalProjection (fp_SourceAlias shape) (fp_CountAlias shape) (fp_ReturnCount shape) limit)
                      | None => None
                      end
                | None => None
                end
            | _, _ => None
            end
        | _, _ => None
        end
  | _ => None
  end.

Definition aggregateTraversalDepthBounds (patternRange : option PatternRange) : option (Z * Z) :=
  match patternRange with
  | None => None
  | Some r =>
      let minDepth := default 1%Z (range_StartIndex r) in
      let maxDepth := default 15%Z (range_EndIndex r) in
      if (minDepth <? 1)%Z || (maxDepth <? minDepth)%Z then None else Some (minDepth, maxDepth)
  end.

Record AggregateTraversalCountShape := mkAggregateShape {
  as_SourceSymbol : string;
  as_TerminalSymbol : string;
  as_CountAlias : string;
  as_ReturnSourceAlias : string;
  as_ReturnCountAlias : string;
  as_ReturnCount : bool;
  as_Limit : Z;
  as_SourceMatch : Match;
  as_TerminalMatch : Match;
  as_SourceKinds : list Kind;
  as_TerminalKinds : list Kind;
  as_RelationshipKinds : list Kind;
  as_Direction : Direction;
  as_MinDepth : Z;
  as_MaxDepth : Z;
  as_Target : TraversalStepTarget;
}.

Definition AggregateTraversalCountShapeForQuery (query : RegularQuery) : option AggregateTraversalCountShape :=
  match mjoin query ≫= sq_MultiPartQuery with
  | Some (mkMultiPartQuery [Some (mkMultiPartQueryPart [first; second] [] (Some (mkWith projection None)))] (Some last)) =>
      '(sourceMatch, sourceNode, sourceSymbol) ← aggregateTraversalSourceMatch first;
      '(terminalMatch, relationship, terminalNode, terminalSymbol) ← aggregateTraversalMatch second sourceSymbol;
      countAlias ← aggregateTraversalWithProjection projection sourceSymbol terminalSymbol;
      finalProjection ← aggregateTraversalFinalProjection (Some last) sourceSymbol countAlias;
      '(minDepth, maxDepth) ← aggregateTraversalDepthBounds (rp_Range relationship);
      Some (mkAggregateShape sourceSymbol terminalSymbol countAlias (fp_SourceAlias finalProjection) (fp_CountAlias finalProjection)
        (fp_ReturnCount finalProjection) (fp_Limit finalProjection) sourceMatch terminalMatch (np_Kinds sourceNode) (np_Kinds terminalNode)
        (rp_Kinds relationship) (rp_Direction relationship) minDepth maxDepth (mkStepTarget 0 1 0 false 0 0))
  | _ => None
  end.
