(* ===== verification/Optimizer.v ===== *)
(** * The optimizer (cypher/models/pgsql/optimize/optimizer.go, lowering_plan.go)

    Puts the parts together: the rules run in order on a query and its analysis,
    which is renewed when a rule has changed the query, predicates are attached to
    the regions of the analysis, and the lowering plan is built for the query that
    results.  A rule is an interface of the code: any value with a name and an [Apply]
    that works on the plan, with the two promises it may make.  The copy that
    [EnsureMutable] makes of the query is the same value here; that it was made is
    part of the plan. *)

From S2P Require Import Prelude Framing Walk WalkTree Kinds Digraph CypherAst Analysis Reordering SourceReferences PatternSteps Reversal LoweringPlan CountShapes.

(** ** Attaching predicates to regions *)

Definition regionBindingSymbols (region : Region) : gset string := list_to_set (bd_Symbol <$> rg_Bindings region).

Definition predicateBindingSymbols (predicate : Predicate) (regionBindings : gset string) : list string :=
  filter (fun dependency => dependency ∈ regionBindings) (pr_Dependencies predicate).

Definition attach_predicate (regionIndex : nat) (region : Region) (predicate : Predicate) : PredicateAttachment :=
  let bindingSymbols := predicateBindingSymbols predicate (regionBindingSymbols region) in
  let scope :=
    if (length bindingSymbols =? 1) && (length (pr_Dependencies predicate) =? 1)
    then PredicateAttachmentScopeBinding else PredicateAttachmentScopeRegion in
  mkAttachment (rg_QueryPartIndex region) regionIndex (pr_ClauseIndex predicate) (pr_ExpressionIndex predicate) scope bindingSymbols
    (pr_Dependencies predicate).

Definition AttachPredicates (analysis : list QueryPart) : list PredicateAttachment :=
  concat ((fun queryPart =>
    concat (imap (fun regionIndex region => attach_predicate regionIndex region <$> rg_Predicates region) (qp_Regions queryPart)))
    <$> analysis).

(** ** The plan of a query part *)

Definition appendQueryPartLowerings (plan : LoweringPlan) (queryPartIndex : nat) (queryPart : SyntaxNode)
    (readingClauses : list (option ReadingClause)) (predicateAttachments : list PredicateAttachment)
    (initialDeclaredSymbols : gset string) (initialSelectivity : gmap string boundSourceSelectivity) : LoweringPlan + error :=
  match collectReferencedSourceIdentifiers (Some queryPart) with
  | (_, Some err) => inr err
  | (sourceReferences, None) =>
      let indexedPatternPredicates := indexedPatternPredicatesInQueryPart queryPart in
      let plan := appendExactRangeExpansionDecisions plan queryPartIndex readingClauses in
      let plan := appendPatternPredicateExactRangeExpansionDecisions plan queryPartIndex indexedPatternPredicates in
      let plan := appendPathRelationshipPredicateDecisions plan queryPartIndex queryPart in
      let plan := appendProjectionPruningDecisions plan queryPartIndex readingClauses sourceReferences in
      let plan := appendLatePathMaterializationDecisions plan queryPartIndex readingClauses sourceReferences in
      let plan := appendPatternPredicateProjectionLowerings plan queryPartIndex indexedPatternPredicates sourceReferences in
      let plan := appendPatternPredicatePlacementDecisions plan queryPartIndex indexedPatternPredicates in
      let plan := appendExpandIntoDecisions plan queryPartIndex readingClauses in
      let plan := appendTraversalDirectionDecisions plan queryPartIndex readingClauses
                    (bindingPredicateSymbols predicateAttachments queryPartIndex) initialDeclaredSymbols initialSelectivity in
      let shortestPathSearchSymbols := shortestPathSearchPredicateSymbols readingClauses in
      let plan := appendShortestPathStrategyDecisions plan queryPartIndex readingClauses shortestPathSearchSymbols in
      let plan := appendShortestPathFilterDecisions plan queryPartIndex readingClauses shortestPathSearchSymbols in
      let plan := appendLimitPushdownDecisions plan queryPartIndex queryPart readingClauses in
      inl (appendExpansionSuffixPushdownDecisions plan queryPartIndex readingClauses)
  end.

(** What the next part starts with. *)
Definition carry_part (part : MultiPartQueryPart) (st : carried) : carried :=
  let currentSymbols := declareReadingClauseSymbols st.1 (mp_ReadingClauses part) in
  let currentSelectivity := declareReadingClauseSelectivity st.2 (mp_ReadingClauses part) in
  match mp_With part with
  | None => (currentSymbols, currentSelectivity)
  | Some w => carryProjectionSelectivity (with_Projection w) currentSymbols currentSelectivity
  end.

Fixpoint append_parts (predicateAttachments : list PredicateAttachment) (queryPartIndex : nat)
    (parts : list (option MultiPartQueryPart)) (plan : LoweringPlan) (st : carried) : (LoweringPlan * carried) + error :=
  match parts with
  | [] => inl (plan, st)
  | None :: parts' => append_parts predicateAttachments (S queryPartIndex) parts' plan st
  | Some part :: parts' =>
      match appendQueryPartLowerings plan queryPartIndex (NMultiPartQueryPart part) (mp_ReadingClauses part) predicateAttachments st.1 st.2 with
      | inr err => inr err
      | inl plan' => append_parts predicateAttachments (S queryPartIndex) parts' plan' (carry_part part st)
      end
  end.

(** The lowerings of the parts of a query. *)
Definition append_query (query : SingleQuery) (predicateAttachments : list PredicateAttachment) : LoweringPlan + error :=
  match sq_MultiPartQuery query, sq_SinglePartQuery query with
  | Some m, _ =>
      match append_parts predicateAttachments 0 (mq_Parts m) empty_plan (∅, ∅) with
      | inr err => inr err
      | inl (plan, st) =>
          match mq_SinglePartQuery m with
          | Some finalPart =>
              appendQueryPartLowerings plan (length (mq_Parts m)) (NSinglePartQuery finalPart) (sp_ReadingClauses finalPart)
                predicateAttachments st.1 st.2
          | None => inl plan
          end
      end
  | None, Some singlePart =>
      appendQueryPartLowerings empty_plan 0 (NSinglePartQuery singlePart) (sp_ReadingClauses singlePart) predicateAttachments ∅ ∅
  | None, None => inl empty_plan
  end.

Definition appendCountStoreFastPathDecisions (plan : LoweringPlan) (query : RegularQuery) : outcome LoweringPlan :=
  d ← countStoreFastPathDecision query;
  Done (match d with Some d => append_count_store plan [d] | None => plan end).

Definition appendAggregateTraversalCountDecisions (plan : LoweringPlan) (query : RegularQuery) : LoweringPlan :=
  match AggregateTraversalCountShapeForQuery query with
  | Some shape =>
      append_aggregate plan
        [mkAggregate 0 (as_SourceSymbol shape) (as_TerminalSymbol shape) (as_CountAlias shape) (as_Limit shape) (as_Target shape)]
  | None => plan
  end.

Definition BuildLoweringPlan (query : RegularQuery) (predicateAttachments : list PredicateAttachment) : outcome (LoweringPlan + error) :=
  match mjoin query with
  | None => Done (inl empty_plan)
  | Some q =>
      match append_query q predicateAttachments with
      | inr err => Done (inr err)
      | inl plan =>
          let plan := appendPredicatePlacementDecisions plan query predicateAttachments in
          let plan := attachPredicatePlacementsToSuffixPushdowns plan in
          plan ← appendCountStoreFastPathDecisions plan query;
          Done (inl (appendAggregateTraversalCountDecisions plan query))
      end
  end.

(** ** Plans *)

Record RuleResult := mkRuleResult {
  rr_Name : string;
  rr_Applied : bool;
}.

Record Plan := mkPlan {
  plan_Query : RegularQuery;
  plan_Analysis : list QueryPart;
  plan_LoweringPlan : LoweringPlan;
  plan_Rules : list RuleResult;
  plan_PredicateAttachments : list PredicateAttachment;
  plan_queryCopied : bool;
}.

Definition empty_result : Plan := mkPlan None [] empty_plan [] [] false.

Definition set_query (plan : Plan) (query : RegularQuery) : Plan :=
  mkPlan query (plan_Analysis plan) (plan_LoweringPlan plan) (plan_Rules plan) (plan_PredicateAttachments plan) (plan_queryCopied plan).

Definition set_attachments (plan : Plan) (attachments : list PredicateAttachment) : Plan :=
  mkPlan (plan_Query plan) (plan_Analysis plan) (plan_LoweringPlan plan) (plan_Rules plan) attachments (plan_queryCopied plan).

(** A copy is the same value; only that it is owned is new. *)
Definition Plan_EnsureMutable (plan : Plan) : Plan :=
  if negb (plan_queryCopied plan) && bool_decide (is_Some (plan_Query plan))
  then mkPlan (plan_Query plan) (plan_Analysis plan) (plan_LoweringPlan plan) (plan_Rules plan) (plan_PredicateAttachments plan) true
  else plan.

(** ** Rules

    [Apply] works on the plan that its pointer names and may fail or panic.  A rule
    may have the methods [preservesAnalysis] and [usesLazyCopy], or not. *)

Record Rule := mkRule {
  Name : string;
  Apply : Plan -> outcome (Plan * (bool + error));
  preservesAnalysis : option bool;
  usesLazyCopy : option bool;
}.

Definition rulePreservesAnalysis (rule : Rule) : bool := default false (preservesAnalysis rule).

Definition reordering_apply (plan : Plan) : Plan * bool :=
  if queryWouldReorder clause_score (plan_Query plan) (plan_Analysis plan) then
    let plan := Plan_EnsureMutable plan in
    let '(query, applied) := reorder_query clause_score (plan_Query plan) (plan_Analysis plan) in (set_query plan query, applied)
  else (plan, false).

Definition reversal_apply (plan : Plan) : Plan * bool :=
  if queryWouldReverseInboundTraversal (plan_Query plan) then
    let plan := Plan_EnsureMutable plan in
    let '(query, applied) := reverse_query (plan_Query plan) in (set_query plan query, applied)
  else (plan, false).

Definition attachment_apply (plan : Plan) : Plan * bool :=
  let attachments := AttachPredicates (plan_Analysis plan) in (set_attachments plan attachments, negb (none attachments)).

(** An [Apply] that never fails. *)
Definition succeeds (f : Plan -> Plan * bool) (plan : Plan) : outcome (Plan * (bool + error)) :=
  let '(plan', applied) := f plan in Done (plan', inl applied).

Definition ConservativePatternReorderingRule : Rule :=
  mkRule "ConservativePatternReordering" (succeeds reordering_apply) None (Some true).
Definition InboundTraversalReversalRule : Rule :=
  mkRule "InboundTraversalReversal" (succeeds reversal_apply) None (Some true).
Definition PredicateAttachmentRule : Rule :=
  mkRule "PredicateAttachment" (succeeds attachment_apply) (Some true) (Some true).

Definition DefaultRules : list Rule := [ConservativePatternReorderingRule; InboundTraversalReversalRule; PredicateAttachmentRule].

(** ** Running the rules *)

(** The plan after a rule that has not failed. *)
Definition report (rule : Rule) (plan : Plan) (applied : bool) : Plan :=
  mkPlan (plan_Query plan)
    (if applied && negb (rulePreservesAnalysis rule) then Analyze (plan_Query plan) else plan_Analysis plan)
    (plan_LoweringPlan plan) (plan_Rules plan ++ [mkRuleResult (Name rule) applied]) (plan_PredicateAttachments plan)
    (plan_queryCopied plan).

Definition run_rule (rule : Rule) (plan : Plan) : outcome (Plan + error) :=
  let plan := if default false (usesLazyCopy rule) then plan else Plan_EnsureMutable plan in
  '(plan, r) ← Apply rule plan;
  Done (match r with inl applied => inl (report rule plan applied) | inr err => inr err end).

Fixpoint run_rules (rules : list Rule) (plan : Plan) : outcome (Plan + error) :=
  match rules with
  | [] => Done (inl plan)
  | rule :: rules' =>
      r ← run_rule rule plan;
      match r with inl plan => run_rules rules' plan | inr err => Done (inr err) end
  end.

Definition Optimizer_optimize (rules : list Rule) (query : RegularQuery) (queryCopied : bool) : outcome (Plan + error) :=
  match query with
  | None => Done (inl empty_result)
  | Some _ =>
      r ← run_rules rules (mkPlan query (Analyze query) empty_plan [] [] queryCopied);
      match r with
      | inr err => Done (inr err)
      | inl plan =>
          r ← BuildLoweringPlan (plan_Query plan) (plan_PredicateAttachments plan);
          Done (match r with
                | inr err => inr err
                | inl loweringPlan =>
                    inl (mkPlan (plan_Query plan) (plan_Analysis plan) loweringPlan (plan_Rules plan) (plan_PredicateAttachments plan)
                           (plan_queryCopied plan))
                end)
      end
  end.

Definition Optimize (query : RegularQuery) : outcome (Plan + error) := Optimizer_optimize DefaultRules query true.
Definition OptimizeBorrowed (query : RegularQuery) : outcome (Plan + error) := Optimizer_optimize DefaultRules query false.
