(* ===== verification/PlanTargets.v ===== *)
(** * Where the decisions of a plan are (cypher/models/pgsql/optimize/lowering_plan.go)

    The lists of a lowering plan only grow, and each operation adds decisions for
    steps of the query part, in the order of the steps and at most one per step.
    [extends] is this relation between two plans, for one of the lists; the loops
    of the planner respect it, and so it holds from the empty plan to the plan of
    a query.  On top of it are the theorems on unique targets and on what the
    decisions say about their steps. *)

From S2P Require Import Prelude Framing Walk WalkTree Kinds Digraph CypherAst Analysis Reordering SourceReferences PatternSteps LoweringPlan CountShapes Reversal Optimizer.

(** ** The targets of a query part *)

Definition pattern_targets (q c p : nat) (part : option (PatternPart Expression)) : list TraversalStepTarget :=
  imap (fun i _ => PatternTarget_TraversalStep (clause_target q c p) i) (traversalStepsForPattern part).

Definition clause_targets (q c : nat) (clause : option ReadingClause) : list TraversalStepTarget :=
  match clause ≫= clause_Match with
  | Some m => if match_Optional m then [] else concat (imap (pattern_targets q c) (match_Pattern m))
  | None => []
  end.

Definition part_targets (q : nat) (clauses : list (option ReadingClause)) : list TraversalStepTarget :=
  concat (imap (clause_targets q) clauses).

Definition predicate_targets (q : nat) (p : indexedPatternPredicate) : list TraversalStepTarget :=
  imap (fun i _ => PatternTarget_TraversalStep (predicate_target q p) i)
    (traversalStepsForPattern (Some (patternPartForPredicate (ip_Predicate p)))).

Definition where_targets (q : nat) (ps : list indexedPatternPredicate) : list TraversalStepTarget :=
  concat (predicate_targets q <$> ps).

(** The pattern of a match that is not optional. *)
Definition pattern_at (clauses : list (option ReadingClause)) (c p : nat) (part : option (PatternPart Expression)) : Prop :=
  exists clause m, clauses !! c = Some clause /\ clause ≫= clause_Match = Some m /\ match_Optional m = false /\ match_Pattern m !! p = Some part.

(** The step a target names. *)
Definition step_at (clauses : list (option ReadingClause)) (t : TraversalStepTarget) (part : option (PatternPart Expression))
    (step : sourceTraversalStep) : Prop :=
  pattern_at clauses (st_ClauseIndex t) (st_PatternIndex t) part /\ traversalStepsForPattern part !! st_StepIndex t = Some step.

(** ** Growing lists *)

(** [F] is one list of the state; what the operation says about a decision may
    depend on a [view] of the state, which it does not change. *)
Section extends.
Context {St X W : Type}.
Variable F : St -> list X.
Variable key : X -> TraversalStepTarget.
Variable view : St -> W.
Variable Q : W -> X -> Prop.

Definition extends (ts : list TraversalStepTarget) (s s' : St) : Prop :=
  exists ds, F s' = F s ++ ds /\ (key <$> ds) `sublist_of` ts /\ Forall (Q (view s)) ds /\ view s' = view s.

Lemma extends_refl ts s s' : F s' = F s -> view s' = view s -> extends ts s s'.
Proof using Type. intros E Ev. exists []. rewrite app_nil_r. split_and!; [done|apply sublist_nil_l|done|done]. Qed.

Lemma extends_trans ts ts' s1 s2 s3 : extends ts s1 s2 -> extends ts' s2 s3 -> extends (ts ++ ts') s1 s3.
Proof using Type.
  intros (d1 & E1 & S1 & Q1 & V1) (d2 & E2 & S2 & Q2 & V2). rewrite V1 in Q2. exists (d1 ++ d2). rewrite E2, E1, <- app_assoc, fmap_app.
  split_and!; [done|by apply sublist_app|by apply Forall_app|congruence].
Qed.

Lemma extends_one t s s' d : F s' = F s ++ [d] -> view s' = view s -> key d = t -> Q (view s) d -> extends [t] s s'.
Proof using Type. intros E Ev <- Hq. exists [d]. split_and!; [done|done|by constructor|done]. Qed.

Lemma foldi_imap {A} (f : nat -> A -> St -> St) k l s :
  foldl (fun s p => f p.1 p.2 s) s (imap (fun i a => (k + i, a)) l) =
  match l with
  | [] => s
  | a :: l' => foldl (fun s p => f p.1 p.2 s) (f k a s) (imap (fun i a => (S k + i, a)) l')
  end.
Proof using Type.
  destruct l as [|a l]; [done|]. cbn. rewrite Nat.add_0_r. f_equal. apply imap_ext. intros i x _. cbn. by rewrite Nat.add_succ_r.
Qed.

Lemma foldi_extends {A} (f : nat -> A -> St -> St) (g : nat -> A -> list TraversalStepTarget) l s :
  (forall i a s, l !! i = Some a -> extends (g i a) s (f i a s)) -> extends (concat (imap g l)) s (foldi f l s).
Proof using Type.
  unfold foldi. assert (Hall : forall l k s, (forall i a s, l !! i = Some a -> extends (g (k + i) a) s (f (k + i) a s)) ->
    extends (concat (imap (fun i => g (k + i)) l)) s (foldl (fun s p => f p.1 p.2 s) s (imap (fun i a => (k + i, a)) l))).
  { clear. induction l as [|a l IH]; intros k s Hf; [by apply extends_refl|]. rewrite foldi_imap. cbn [imap concat].
    apply extends_trans with (f k a s).
    - specialize (Hf 0 a s eq_refl). by rewrite Nat.add_0_r in *.
    - assert (Hg : imap ((fun i => g (k + i)) ∘ S) l = imap (fun i => g (S k + i)) l) by
        (apply imap_ext; intros i x _; cbn; by rewrite Nat.add_succ_r). rewrite Hg. apply IH. intros i x s' Hi.
      specialize (Hf (S i) x s' Hi). by rewrite Nat.add_succ_r in Hf. }
  intros Hf. apply (Hall l 0 s). exact Hf.
Qed.

Lemma foldl_extends {A} (f : St -> A -> St) (g : A -> list TraversalStepTarget) l : forall s,
  (forall a s, a ∈ l -> extends (g a) s (f s a)) -> extends (concat (g <$> l)) s (foldl f s l).
Proof using Type.
  induction l as [|a l IH]; intros s Hf; [by apply extends_refl|]. cbn. apply extends_trans with (f s a); [apply Hf; by left|].
  apply IH. intros b s' Hb. apply Hf. by right.
Qed.

Lemma each_pattern_extends (f : nat -> nat -> option (PatternPart Expression) -> St -> St) q clauses s :
  (forall c p part s, pattern_at clauses c p part -> extends (pattern_targets q c p part) s (f c p part s)) ->
  extends (part_targets q clauses) s (each_pattern f clauses s).
Proof using Type.
  intros Hf. unfold each_pattern, part_targets. apply foldi_extends. intros c clause s' Hc. unfold clause_targets.
  destruct (clause ≫= clause_Match) as [m|] eqn:Hm; [|by apply extends_refl].
  destruct (match_Optional m) eqn:Ho; [by apply extends_refl|]. apply foldi_extends. intros p part s'' Hp. apply Hf. by exists clause, m.
Qed.
End extends.

Lemma each_declared_extends {St X W} (F : St -> list X) key (view : St -> W) Q
    (f : nat -> nat -> option (PatternPart Expression) -> gset string -> St -> St) leave q clauses D s :
  (forall c p part D s, pattern_at clauses c p part -> extends F key view Q (pattern_targets q c p part) s (f c p part D s)) ->
  (forall m s, F (leave m s) = F s /\ view (leave m s) = view s) ->
  extends F key view Q (part_targets q clauses) s (each_declared f leave clauses D s).2.
Proof.
  intros Hf Hl. unfold each_declared, part_targets.
  enough (extends (fun st : gset string * St => F st.2) key (fun st => view st.2) Q (concat (imap (clause_targets q) clauses)) (D, s)
    (foldi (fun clauseIndex c st =>
      match c ≫= clause_Match with
      | None => st
      | Some m =>
        if match_Optional m then (declareMatchSymbols st.1 (Some m), st.2)
        else
          let '(declared, s) :=
            foldi (fun patternIndex part st =>
              (declarePatternSymbols st.1 part, f clauseIndex patternIndex part st.1 st.2)) (match_Pattern m) st in
          (declareWhereSymbols declared m, leave m s)
      end) clauses (D, s))) as H by exact H.
  apply foldi_extends. intros c clause [D' s'] Hc. unfold clause_targets.
  destruct (clause ≫= clause_Match) as [m|] eqn:Hm; [|by apply extends_refl].
  destruct (match_Optional m) eqn:Ho; [by apply extends_refl|].
  pose proof (foldi_extends (fun st : gset string * St => F st.2) key (fun st => view st.2) Q
    (fun p part st => (declarePatternSymbols st.1 part, f c p part st.1 st.2)) (pattern_targets q c) (match_Pattern m) (D', s')) as H.
  destruct (foldi _ (match_Pattern m) (D', s')) as [D'' s'']. destruct H as (ds & E & Hs & Hq & Hv).
  { intros p part [D1 s1] Hp. destruct (Hf c p part D1 s1) as (ds & E & Hs & Hq & Hv); [by exists clause, m|]. by exists ds. }
  exists ds. cbn in *. destruct (Hl m s'') as [-> ->]. done.
Qed.

(** ** Each operation appends to its own list *)

Class Appends {X} (app : LoweringPlan -> list X -> LoweringPlan) := {
  append_nil : forall p, app p [] = p;
  append_append : forall p l l', app (app p l) l' = app p (l ++ l');
}.

Ltac solve_appends := split; intros []; intros; unfold append_pruning, append_late, append_into, append_direction, append_strategy,
  append_filter, append_limit, append_suffix, append_placement, append_pattern_predicate, append_exact, append_path_predicate;
  rewrite ?app_nil_r, <- ?app_assoc; reflexivity.

#[export] Instance append_pruning_Appends : Appends append_pruning. Proof. solve_appends. Qed.
#[export] Instance append_late_Appends : Appends append_late. Proof. solve_appends. Qed.
#[export] Instance append_into_Appends : Appends append_into. Proof. solve_appends. Qed.
#[export] Instance append_direction_Appends : Appends append_direction. Proof. solve_appends. Qed.
#[export] Instance append_strategy_Appends : Appends append_strategy. Proof. solve_appends. Qed.
#[export] Instance append_filter_Appends : Appends append_filter. Proof. solve_appends. Qed.
#[export] Instance append_limit_Appends : Appends append_limit. Proof. solve_appends. Qed.
#[export] Instance append_suffix_Appends : Appends append_suffix. Proof. solve_appends. Qed.
#[export] Instance append_pattern_predicate_Appends : Appends append_pattern_predicate. Proof. solve_appends. Qed.
#[export] Instance append_exact_Appends : Appends append_exact. Proof. solve_appends. Qed.
#[export] Instance append_path_predicate_Appends : Appends append_path_predicate. Proof. solve_appends. Qed.

Definition grows {X} (app : LoweringPlan -> list X -> LoweringPlan) (p p' : LoweringPlan) : Prop := exists ds, p' = app p ds.

#[export] Instance grows_PreOrder {X} (app : LoweringPlan -> list X -> LoweringPlan) `{Appends X app} : PreOrder (grows app).
Proof.
  split.
  - intros p. exists []. by rewrite append_nil.
  - intros p1 p2 p3 [a ->] [b ->]. exists (a ++ b). by rewrite append_append.
Qed.

(** Loops stay in a preorder that their bodies stay in. *)
Section loops.
Context {St : Type} (R : relation St) `{!PreOrder R}.

Lemma foldl_rel {A} (f : St -> A -> St) l : (forall a s, R s (f s a)) -> forall s, R s (foldl f s l).
Proof using All. intros Hf. induction l as [|a l IH]; intros s; [reflexivity|]. cbn. etransitivity; [apply Hf|apply IH]. Qed.

Lemma foldi_rel {A} (f : nat -> A -> St -> St) l s : (forall i a s, R s (f i a s)) -> R s (foldi f l s).
Proof using All. intros Hf. unfold foldi. apply foldl_rel. intros [i a] s'. apply Hf. Qed.

Lemma each_pattern_rel f clauses s : (forall c p part s, R s (f c p part s)) -> R s (each_pattern f clauses s).
Proof using All.
  intros Hf. unfold each_pattern. apply foldi_rel. intros c clause s'. destruct (clause ≫= clause_Match) as [m|]; [|reflexivity].
  destruct (match_Optional m); [reflexivity|]. apply foldi_rel. intros. apply Hf.
Qed.

Lemma each_step_rel f D steps s : (forall i step e s, R s (f i step e s)) -> R s (each_step f D steps s).
Proof using All. intros Hf. unfold each_step. apply foldi_rel. intros i [step e] s'. apply Hf. Qed.
End loops.

(** A preorder on the second part of the state of a loop. *)
Definition on_state {D St} (R : relation St) : relation (D * St) := fun st st' => R st.2 st'.2.

#[export] Instance on_state_PreOrder {D St} (R : relation St) `{!PreOrder R} : PreOrder (on_state (D := D) R).
Proof. split; [intros st; unfold on_state; reflexivity|]. intros a b c H1 H2. unfold on_state in *. by etransitivity. Qed.

Lemma each_declared_rel {St} (R : relation St) `{!PreOrder R} f leave clauses D s :
  (forall c p part D s, R s (f c p part D s)) -> (forall m s, R s (leave m s)) -> R s (each_declared f leave clauses D s).2.
Proof.
  intros Hf Hl. unfold each_declared. apply (foldi_rel (on_state R) _ clauses (D, s)). intros c clause [D' s'].
  destruct (clause ≫= clause_Match) as [m|]; [|reflexivity]. destruct (match_Optional m); [unfold on_state; cbn; reflexivity|].
  pose proof (foldi_rel (on_state R) (fun p part st => (declarePatternSymbols st.1 part, f c p part st.1 st.2)) (match_Pattern m) (D', s')) as H.
  destruct (foldi _ (match_Pattern m) (D', s')) as [D'' s'']. unfold on_state in *. cbn in *. etransitivity; [apply H; intros p part []; apply Hf|apply Hl].
Qed.

Ltac grow :=
  lazymatch goal with
  | |- grows ?app ?p ?p => reflexivity
  | |- grows ?app ?p (?app ?p ?ds) => by exists ds
  | |- grows _ _ (foldi _ _ _) => apply foldi_rel; [apply _|intros]; grow
  | |- grows _ _ (foldl _ _ _) => apply foldl_rel; [apply _|intros]; grow
  | |- grows _ _ (each_pattern _ _ _) => apply each_pattern_rel; [apply _|intros]; grow
  | |- grows _ _ (each_step _ _ _ _) => apply each_step_rel; [apply _|intros]; grow
  | |- grows _ _ (each_declared _ _ _ _ _).2 => apply each_declared_rel; [apply _|intros; grow|intros; grow]
  | |- grows _ _ (match ?x with _ => _ end) => destruct x; grow
  end.
Ltac solve_grow f := unfold f; cbv zeta; grow.

Lemma exact_pattern_grows p t part : grows append_exact p (appendPatternExactRangeExpansionDecisions p t part).
Proof. solve_grow appendPatternExactRangeExpansionDecisions. Qed.

Lemma exact_grows p q cs : grows append_exact p (appendExactRangeExpansionDecisions p q cs).
Proof. unfold appendExactRangeExpansionDecisions. apply each_pattern_rel; [apply _|]. intros. apply exact_pattern_grows. Qed.

Lemma exact_predicates_grows p q ps : grows append_exact p (appendPatternPredicateExactRangeExpansionDecisions p q ps).
Proof. unfold appendPatternPredicateExactRangeExpansionDecisions. apply foldl_rel; [apply _|]. intros. apply exact_pattern_grows. Qed.

Lemma path_predicates_grows p q n : grows append_path_predicate p (appendPathRelationshipPredicateDecisions p q n).
Proof. solve_grow appendPathRelationshipPredicateDecisions. Qed.

Lemma pruning_pattern_grows p t part steps refs : grows append_pruning p (appendPatternProjectionPruningDecisions p t part steps refs).
Proof. solve_grow appendPatternProjectionPruningDecisions. Qed.

Lemma pruning_grows p q cs refs : grows append_pruning p (appendProjectionPruningDecisions p q cs refs).
Proof.
  unfold appendProjectionPruningDecisions. apply each_pattern_rel; [apply _|]. intros c i [part|] s; cbv zeta; [|reflexivity].
  destruct (none _); [reflexivity|apply pruning_pattern_grows].
Qed.

Lemma late_pattern_grows p t part steps refs : grows append_late p (appendPatternLatePathMaterializationDecisions p t part steps refs).
Proof. solve_grow appendPatternLatePathMaterializationDecisions. Qed.

Lemma late_grows p q cs refs : grows append_late p (appendLatePathMaterializationDecisions p q cs refs).
Proof.
  unfold appendLatePathMaterializationDecisions. apply each_pattern_rel; [apply _|]. intros c i [part|] s; [apply late_pattern_grows|reflexivity].
Qed.

Lemma placements_grows p q ps : grows append_pattern_predicate p (appendPatternPredicatePlacementDecisions p q ps).
Proof. solve_grow appendPatternPredicatePlacementDecisions. Qed.

Lemma into_grows p q cs : grows append_into p (appendExpandIntoDecisions p q cs).
Proof. solve_grow appendExpandIntoDecisions. Qed.

Lemma strategy_grows p q cs syms : grows append_strategy p (appendShortestPathStrategyDecisions p q cs syms).
Proof. solve_grow appendShortestPathStrategyDecisions. Qed.

Lemma filter_grows p q cs syms : grows append_filter p (appendShortestPathFilterDecisions p q cs syms).
Proof. solve_grow appendShortestPathFilterDecisions. Qed.

Lemma limit_grows p q n cs : grows append_limit p (appendLimitPushdownDecisions p q n cs).
Proof. solve_grow appendLimitPushdownDecisions. Qed.

Lemma suffix_grows p q cs : grows append_suffix p (appendExpansionSuffixPushdownDecisions p q cs).
Proof. solve_grow appendExpansionSuffixPushdownDecisions. Qed.

Lemma direction_grows p q cs syms D sel : grows append_direction p (appendTraversalDirectionDecisions p q cs syms D sel).
Proof.
  unfold appendTraversalDirectionDecisions. set (R := fun st st' : LoweringPlan * gmap string boundSourceSelectivity => grows append_direction st.1 st'.1).
  assert (PreOrder R) by (split; [intros st; unfold R; reflexivity|intros a b c H1 H2; unfold R in *; by etransitivity]).
  apply (each_declared_rel R _ _ cs D (p, sel)); [|intros; unfold R; reflexivity].
  intros c i part D' [s sel']. unfold R. cbn. apply each_step_rel; [apply _|]. intros. grow.
Qed.

(** The pattern predicates append to two lists. *)
Definition grows_projection (p p' : LoweringPlan) : Prop := exists ds ds', p' = append_late (append_pruning p ds) ds'.

#[export] Instance grows_projection_PreOrder : PreOrder grows_projection.
Proof.
  split.
  - intros p. exists [], []. by rewrite !append_nil.
  - intros p1 p2 p3 (a & a' & ->) (b & b' & ->). exists (a ++ b), (a' ++ b'). destruct p1. cbn. by rewrite <- !app_assoc.
Qed.

Lemma projection_grows p q ps refs : grows_projection p (appendPatternPredicateProjectionLowerings p q ps refs).
Proof.
  unfold appendPatternPredicateProjectionLowerings. apply foldl_rel; [apply _|]. intros ip s. cbv zeta. destruct (none _); [reflexivity|].
  destruct (pruning_pattern_grows s (predicate_target q ip) (patternPartForPredicate (ip_Predicate ip))
    (traversalStepsForPattern (Some (patternPartForPredicate (ip_Predicate ip)))) refs) as [ds ->].
  destruct (late_pattern_grows (append_pruning s ds) (predicate_target q ip) (patternPartForPredicate (ip_Predicate ip))
    (traversalStepsForPattern (Some (patternPartForPredicate (ip_Predicate ip)))) refs) as [ds' ->]. by exists ds, ds'.
Qed.

(** ** Which decisions an operation appends *)

Lemma singles {A} (t : nat -> TraversalStepTarget) (l : list A) : concat (imap (fun i _ => [t i]) l) = imap (fun i _ => t i) l.
Proof. revert t. induction l as [|a l IH]; intros t; [done|]. cbn. f_equal. apply (IH (t ∘ S)). Qed.

Lemma imap_length_only {A C} (t : nat -> TraversalStepTarget) (l : list A) (l' : list C) : length l = length l' ->
  imap (fun i _ => t i) l = imap (fun i _ => t i) l'.
Proof.
  revert t l'. induction l as [|a l IH]; intros t [|c l'] Hl; try done. cbn. f_equal. apply (IH (t ∘ S) l'). cbn in Hl. lia.
Qed.

Lemma endpoints_length steps : forall D, length (declaredSymbolsBeforeStepEndpoints D steps) = length steps.
Proof. induction steps as [|s steps IH]; intros D; [done|]. cbn. by rewrite IH. Qed.

Section stepwise.
Context {St X W : Type} (F : St -> list X) (key : X -> TraversalStepTarget) (view : St -> W) (Q : W -> X -> Prop) (t : PatternTarget).
Notation at_step i := (PatternTarget_TraversalStep t i).

Lemma steps_extends (f : nat -> sourceTraversalStep -> St -> St) steps s :
  (forall i step s, steps !! i = Some step -> extends F key view Q [at_step i] s (f i step s)) ->
  extends F key view Q (imap (fun i _ => at_step i) steps) s (foldi f steps s).
Proof using Type.
  intros Hf. rewrite <- singles. apply (foldi_extends F key view Q f (fun i _ => [at_step i])). intros i a s' Hi. by apply Hf.
Qed.

Lemma each_step_extends (f : nat -> sourceTraversalStep -> declaredStepEndpoints -> St -> St) D steps s :
  (forall i step e s, steps !! i = Some step -> extends F key view Q [at_step i] s (f i step e s)) ->
  extends F key view Q (imap (fun i _ => at_step i) steps) s (each_step f D steps s).
Proof using Type.
  intros Hf. unfold each_step. rewrite (imap_length_only _ steps (zip steps (declaredSymbolsBeforeStepEndpoints D steps))) by
    (rewrite length_zip, endpoints_length; lia).
  rewrite <- singles. apply (foldi_extends F key view Q _ (fun i _ => [at_step i])). intros i [step e] s' Hi. apply Hf.
  apply lookup_zip_Some in Hi. tauto.
Qed.
End stepwise.

Definition no_view (_ : LoweringPlan) : unit := ().

(** *** Expand into *)

Definition into_ok (cs : list (option ReadingClause)) (t : TraversalStepTarget) : Prop :=
  exists part step, step_at cs t part step /\ rp_Range (Relationship step) = None /\
    variableSymbol (np_Variable (RightNode step)) <> "".

Lemma into_extends p q cs :
  extends ExpandInto id no_view (fun _ => into_ok cs) (part_targets q cs) p (appendExpandIntoDecisions p q cs).
Proof.
  unfold appendExpandIntoDecisions. apply each_declared_extends; [|done]. intros c i part D s Hp. apply each_step_extends.
  intros k step e s' Hk. destruct (expand_into step k e) eqn:He; [|by apply extends_refl].
  eapply extends_one; [by destruct s'|done|done|]. unfold expand_into in He. rewrite !andb_true_iff, !negb_true_iff in He.
  destruct He as [[[H1 H2] _] _]. exists part, step. split; [done|]. split; [|by apply bool_decide_eq_false in H2].
  destruct (rp_Range (Relationship step)); [|done]. by apply bool_decide_eq_false in H1 as [].
Qed.

(** *** Exact expansions *)

Definition exact_ok (part : option (PatternPart Expression)) (d : TraversalStepTarget * Z) : Prop :=
  exists step, traversalStepsForPattern part !! st_StepIndex d.1 = Some step /\
    (1 <= d.2 <= maxExactRangeExpansionDepth)%Z /\
    rp_Range (Relationship step) = Some (mkPatternRange (Some d.2) (Some d.2)) /\
    rp_Direction (Relationship step) <> DirectionBoth /\ rp_Variable (Relationship step) = None.

Lemma exact_pattern_extends p t part :
  extends ExactRangeExpansion fst no_view (fun _ => exact_ok part)
    (imap (fun i _ => PatternTarget_TraversalStep t i) (traversalStepsForPattern part))
    p (appendPatternExactRangeExpansionDecisions p t part).
Proof.
  unfold appendPatternExactRangeExpansionDecisions. apply steps_extends. intros k step s Hk.
  destruct (exactRangeExpansionCandidate part step) eqn:He; [|by apply extends_refl].
  eapply extends_one; [by destruct s|done|done|]. exists step. split; [done|]. unfold exactRangeExpansionCandidate in He.
  destruct part as [part|]; [|done]. case_match eqn:Hc; [done|]. rewrite !orb_false_iff, !bool_decide_eq_false in Hc.
  destruct Hc as [[[_ _] Hd] Hv]. apply andb_true_iff in He as [H1 H2]. unfold ExactPatternRangeDepth in *. cbn [snd].
  destruct (rp_Range (Relationship step)) as [[[a|] [b|]]|]; try done. destruct (Z.eqb_spec a b) as [->|]; [|done].
  apply Z.leb_le in H1, H2. split_and!; try done. by destruct (rp_Variable (Relationship step)); [destruct Hv|].
Qed.

(** *** Shortest paths, limits and directions *)

Lemma strategy_extends p q cs syms :
  extends ShortestPathStrategies ss_Target no_view (fun _ d => exists part step, step_at cs (ss_Target d) part step /\ is_shortest part = true)
    (part_targets q cs) p (appendShortestPathStrategyDecisions p q cs syms).
Proof.
  unfold appendShortestPathStrategyDecisions. apply each_declared_extends; [|done]. intros c i part D s Hp.
  destruct (is_shortest part) eqn:Hs; [|by apply extends_refl]. apply each_step_extends. intros k step e s' Hk.
  destruct (rp_Range (Relationship step)); [|by apply extends_refl].
  destruct (shortestPathStrategyDecisionForStep _ step e syms) as [d|] eqn:Hd; [|by apply extends_refl].
  assert (Ht : ss_Target d = PatternTarget_TraversalStep (clause_target q c i) k) by
    (unfold shortestPathStrategyDecisionForStep in Hd; repeat case_match; by simplify_eq).
  eapply extends_one; [by destruct s'|done|done|]. rewrite Ht. by exists part, step.
Qed.

(** A pair of endpoints is filtered only where both are searched from. *)
Definition filter_ok (cs : list (option ReadingClause)) (strategies : list ShortestPathStrategyDecision) (d : ShortestPathFilterDecision) : Prop :=
  (exists part step, step_at cs (sf_Target d) part step /\ is_shortest part = true) /\
  (sf_Mode d = ShortestPathFilterEndpointPair ->
   exists s, s ∈ strategies /\ ss_Target s = sf_Target d /\ ss_Strategy s = ShortestPathStrategyBidirectional).

Lemma filter_extends p q cs syms :
  extends ShortestPathFilter sf_Target ShortestPathStrategies (filter_ok cs)
    (part_targets q cs) p (appendShortestPathFilterDecisions p q cs syms).
Proof.
  unfold appendShortestPathFilterDecisions. apply each_declared_extends; [|done]. intros c i part D s Hp.
  destruct (is_shortest part) eqn:Hs; [|by apply extends_refl]. apply each_step_extends. intros k step e s' Hk.
  destruct (rp_Range (Relationship step)); [|by apply extends_refl].
  destruct (shortestPathFilterDecisionForStep s' _ step e syms) as [d|] eqn:Hd; [|by apply extends_refl].
  assert (Ht : sf_Target d = PatternTarget_TraversalStep (clause_target q c i) k /\ (sf_Mode d = ShortestPathFilterEndpointPair ->
    hasShortestPathBidirectionalStrategy s' (sf_Target d) = true)).
  { unfold shortestPathFilterDecisionForStep in Hd. repeat case_match; simplify_eq; cbn; split; try done.
    intros _. match goal with H : _ && _ && _ = true |- _ => rewrite !andb_true_iff in H; tauto end. }
  destruct Ht as [Ht Hb]. eapply extends_one; [by destruct s'|by destruct s'|done|]. split; [rewrite Ht; by exists part, step|].
  intros (x & Hx & Hx')%Hb%existsb_exists. apply list_elem_of_In in Hx. apply andb_true_iff in Hx' as [H1 H2].
  exists x. split; [done|]. apply bool_decide_eq_true in H1. by destruct (ss_Strategy x).
Qed.

Lemma limit_extends p q n cs :
  extends LimitPushdown fst no_view (fun _ _ => True) (part_targets q cs) p (appendLimitPushdownDecisions p q n cs).
Proof.
  unfold appendLimitPushdownDecisions. destruct (queryPartAllowsLimitPushdown n cs); [|by apply extends_refl].
  apply each_pattern_extends. intros c i [part|] s Hp; [|by apply extends_refl].
  destruct (pp_AllShortestPathsPattern part); [by apply extends_refl|]. apply steps_extends. intros k step s' Hk.
  eapply extends_one; [by destruct s'|done..].
Qed.

(** A step is flipped only when its left endpoint is free, or when it is one whole
    expansion from a bound endpoint; its right endpoint is bound or constrained. *)
Lemma step_direction_target t part steps syms sel k step e d :
  step_direction t part steps syms sel k step e = Some d -> td_Target d = t.
Proof.
  unfold step_direction, traversalDirectionDecisionForStep, boundLeftExpansionDirectionDecisionForStep. intros Hd.
  repeat case_match; by simplify_eq.
Qed.

Lemma direction_extends p q cs syms D sel :
  extends TraversalDirection td_Target no_view (fun _ d => exists part step, step_at cs (td_Target d) part step)
    (part_targets q cs) p (appendTraversalDirectionDecisions p q cs syms D sel).
Proof.
  unfold appendTraversalDirectionDecisions.
  pose (F := fun st : LoweringPlan * gmap string boundSourceSelectivity => TraversalDirection st.1).
  match goal with |- context [each_declared ?f ?l cs D (p, sel)] =>
    enough (extends F td_Target (fun st => no_view st.1) (fun _ d => exists part step, step_at cs (td_Target d) part step)
      (part_targets q cs) (p, sel) (each_declared f l cs D (p, sel)).2) as H by exact H end.
  apply each_declared_extends; [|done]. intros c i part D' [s sel'] Hp. cbn [fst snd].
  destruct (each_step_extends TraversalDirection td_Target no_view (fun _ d => exists part step, step_at cs (td_Target d) part step)
    (clause_target q c i) (fun stepIndex step endpoints plan =>
       match step_direction (PatternTarget_TraversalStep (clause_target q c i) stepIndex) part (traversalStepsForPattern part)
               syms sel' stepIndex step endpoints with
       | Some d => append_direction plan [d]
       | None => plan
       end) D' (traversalStepsForPattern part) s) as (ds & E & Hs & Hq & Hv); [|by exists ds].
  intros k step e s' Hk. destruct (step_direction _ _ _ _ _ _ _ _) as [d|] eqn:Hd; [|by apply extends_refl].
  pose proof (step_direction_target _ _ _ _ _ _ _ _ _ Hd) as Ht. eapply extends_one; [by destruct s'|done|done|].
  rewrite Ht. by exists part, step.
Qed.

(** *** Suffixes *)

(** The step is fixed and directed. *)
Definition plain_step (step : sourceTraversalStep) : Prop :=
  rp_Range (Relationship step) = None /\ rp_Direction (Relationship step) <> DirectionBoth.

Lemma suffix_length_spec steps :
  let k := expansionSuffixPushdownLength steps in
  k <= length steps /\ (forall i step, i < k -> steps !! i = Some step -> plain_step step) /\
  (forall step, steps !! k = Some step -> ~ plain_step step).
Proof.
  induction steps as [|s steps IH]; [by split_and!|]. cbn [expansionSuffixPushdownLength]. unfold plain_step in *.
  case_bool_decide as Hr; [|case_bool_decide as Hd]; cbn [orb].
  1-2: split_and!; [cbn; lia|intros; lia|intros step [= <-] [H1 H2]; first [by apply H2|rewrite H1 in Hr; by destruct Hr]].
  destruct IH as (H1 & H2 & H3). split_and!; [cbn; lia| |done]. intros [|i] step Hi Hs; [|by apply (H2 i); [lia|]].
  injection Hs as <-. split; [|done]. by destruct (rp_Range (Relationship s)); [destruct Hr|].
Qed.

Definition suffix_ok (cs : list (option ReadingClause)) (v : list (TraversalStepTarget * Z) * list TraversalDirectionDecision)
    (d : ExpansionSuffixPushdownDecision) : Prop :=
  (exists part step, step_at cs (sx_Target d) part step /\ is_Some (rp_Range (Relationship step)) /\
    sx_SuffixStartStep d = S (st_StepIndex (sx_Target d)) /\ sx_SuffixEndStep d = st_StepIndex (sx_Target d) + sx_SuffixLength d /\
    0 < sx_SuffixLength d /\ sx_SuffixEndStep d < length (traversalStepsForPattern part) /\
    (forall i step', sx_SuffixStartStep d <= i <= sx_SuffixEndStep d -> traversalStepsForPattern part !! i = Some step' -> plain_step step') /\
    (forall step', traversalStepsForPattern part !! S (sx_SuffixEndStep d) = Some step' -> ~ plain_step step')) /\
  (forall x, x ∈ v.1 -> x.1 <> sx_Target d) /\ (forall x, x ∈ v.2 -> td_Target x = sx_Target d -> td_Flip x = false) /\
  sx_PredicateAttachments d = [].

Lemma suffix_extends p q cs :
  extends ExpansionSuffixPushdown sx_Target (fun p => (ExactRangeExpansion p, TraversalDirection p)) (suffix_ok cs)
    (part_targets q cs) p (appendExpansionSuffixPushdownDecisions p q cs).
Proof.
  unfold appendExpansionSuffixPushdownDecisions. apply each_declared_extends; [|done]. intros c i part D s Hp.
  apply each_step_extends. intros k step e s' Hk. unfold suffix_decision.
  destruct (bool_decide (is_Some (rp_Range (Relationship step)))) eqn:Hr; [|by apply extends_refl]. apply bool_decide_eq_true in Hr.
  destruct (Nat.leb_spec (length (traversalStepsForPattern part)) (S k)) as [|Hlen]; [by apply extends_refl|]. cbn [negb orb].
  destruct (hasExactRangeExpansionDecision s' _) eqn:Hex; [by apply extends_refl|].
  destruct (hasTraversalDirectionFlip s' _ || _) eqn:Hfl; [by apply extends_refl|]. apply orb_false_iff in Hfl as [Hfl _].
  destruct (suffix_length_spec (drop (S k) (traversalStepsForPattern part))) as (H1 & H2 & H3).
  destruct (Nat.ltb_spec 0 (expansionSuffixPushdownLength (drop (S k) (traversalStepsForPattern part)))) as [Hpos|]; [|by apply extends_refl].
  rewrite length_drop in H1. eapply extends_one; [by destruct s'|by destruct s'|done|]. split_and!.
  - exists part, step. cbn. split_and!; try done; try lia.
    + intros j step' Hj Hs. apply (H2 (j - S k)); [lia|]. rewrite lookup_drop. by replace (S k + (j - S k)) with j by lia.
    + intros step' Hs. apply H3. rewrite lookup_drop. by replace (S k + expansionSuffixPushdownLength (drop (S k) (traversalStepsForPattern part)))
        with (S (k + expansionSuffixPushdownLength (drop (S k) (traversalStepsForPattern part)))) by lia.
  - intros x Hx Heq. cbn in Hx, Heq. unfold hasExactRangeExpansionDecision in Hex. apply not_true_iff_false in Hex. apply Hex, existsb_exists.
    exists x. split; [by apply list_elem_of_In|]. by apply bool_decide_eq_true.
  - intros x Hx Heq. cbn in Hx, Heq. unfold hasTraversalDirectionFlip in Hfl. apply not_true_iff_false in Hfl.
    destruct (td_Flip x) eqn:Hflip; [|done]. destruct Hfl. apply existsb_exists. exists x. split; [by apply list_elem_of_In|].
    rewrite Hflip, andb_true_r. by apply bool_decide_eq_true.
  - done.
Qed.

(** *** Pruned projections *)

Definition unreferenced (refs : gset string) (variable : option string) : Prop :=
  referencesSourceIdentifier refs (variableSymbol variable) = false.

(** What a decision omits is not referenced, and the last node of a step is kept
    for the step that follows. *)
Definition omits_unreferenced (refs : gset string) (part : PatternPart Expression) (i : nat) (step : sourceTraversalStep)
    (d : ProjectionPruningDecision) : Prop :=
  (pd_OmitLeftNode d = true -> unreferenced refs (np_Variable (LeftNode step)) /\ unreferenced refs (pp_Variable part)) /\
  (pd_OmitRelationship d = true -> unreferenced refs (rp_Variable (Relationship step))) /\
  (pd_OmitRightNode d = true -> unreferenced refs (np_Variable (RightNode step)) /\ unreferenced refs (pp_Variable part) /\
     length (traversalStepsForPattern (Some part)) = S i) /\
  (pd_OmitPathBinding d = true -> unreferenced refs (pp_Variable part)).

Definition pruning_ok (refs : gset string) (t : PatternTarget) (part : PatternPart Expression) (d : ProjectionPruningDecision) : Prop :=
  exists i step, pd_Target d = PatternTarget_TraversalStep t i /\ traversalStepsForPattern (Some part) !! i = Some step /\
    omits_unreferenced refs part i step d.

Lemma pruning_pattern_extends p t part refs :
  extends ProjectionPruning pd_Target no_view (fun _ => pruning_ok refs t part)
    (imap (fun i _ => PatternTarget_TraversalStep t i) (traversalStepsForPattern (Some part))) p
    (appendPatternProjectionPruningDecisions p t part (traversalStepsForPattern (Some part)) refs).
Proof.
  unfold appendPatternProjectionPruningDecisions. apply steps_extends. intros k step s Hk.
  set (d := pruning_decision _ _ _ _ _ _ _). destruct (hasPruning d); [|by apply extends_refl].
  eapply extends_one; [by destruct s|done|by unfold d, pruning_decision; case_match|]. exists k, step.
  apply lookup_lt_Some in Hk as Hlt. unfold d, pruning_decision, omits_unreferenced, unreferenced. clear d.
  destruct (is_expansion _ _ _); cbn [pd_Target pd_OmitLeftNode pd_OmitRelationship pd_OmitRightNode pd_OmitPathBinding];
    rewrite ?negb_true_iff, ?orb_false_iff; split_and!; try done; try tauto.
  intros [[H1 H2] H3%Nat.ltb_ge]. split_and!; [done..|lia].
Qed.

Lemma extends_weaken {St X W} (F : St -> list X) key (view : St -> W) (Q Q' : W -> X -> Prop) ts s s' :
  (forall w x, Q w x -> Q' w x) -> extends F key view Q ts s s' -> extends F key view Q' ts s s'.
Proof. intros HQ (ds & E & Hs & Hq & Hv). exists ds. split_and!; [done..| |done]. by eapply Forall_impl; [exact Hq|apply HQ]. Qed.

(** The decision is about a pattern of the clauses, or about a pattern predicate. *)
Definition pruning_at (q : nat) (cs : list (option ReadingClause)) (ps : list indexedPatternPredicate) (refs : gset string)
    (d : ProjectionPruningDecision) : Prop :=
  (exists c i part, pattern_at cs c i (Some part) /\ pruning_ok refs (clause_target q c i) part d) \/
  (exists ip, ip ∈ ps /\ pruning_ok refs (predicate_target q ip) (patternPartForPredicate (ip_Predicate ip)) d).

Lemma pruning_extends p q cs ps refs :
  extends ProjectionPruning pd_Target no_view (fun _ => pruning_at q cs ps refs)
    (part_targets q cs) p (appendProjectionPruningDecisions p q cs refs).
Proof.
  unfold appendProjectionPruningDecisions. apply each_pattern_extends. intros c i [part|] s Hp; [|by apply extends_refl].
  cbv zeta. destruct (none _); [by apply extends_refl|]. eapply extends_weaken; [|apply pruning_pattern_extends].
  intros w d Hd. left. by exists c, i, part.
Qed.

Lemma late_pattern_extends p t part refs :
  extends LatePathMaterialization fst no_view (fun _ _ => True)
    (imap (fun i _ => PatternTarget_TraversalStep t i) (traversalStepsForPattern (Some part))) p
    (appendPatternLatePathMaterializationDecisions p t part (traversalStepsForPattern (Some part)) refs).
Proof.
  unfold appendPatternLatePathMaterializationDecisions. apply steps_extends. intros k step s Hk.
  destruct (late_decision _ _ _ _ _ _ _) as [d|] eqn:Hd; [|by apply extends_refl].
  eapply extends_one; [by destruct s|done| |done]. unfold late_decision in Hd. repeat case_match; by simplify_eq.
Qed.

Lemma late_extends p q cs refs :
  extends LatePathMaterialization fst no_view (fun _ _ => True) (part_targets q cs) p (appendLatePathMaterializationDecisions p q cs refs).
Proof.
  unfold appendLatePathMaterializationDecisions. apply each_pattern_extends. intros c i [part|] s Hp; [|by apply extends_refl].
  apply late_pattern_extends.
Qed.

Lemma exact_extends p q cs :
  extends ExactRangeExpansion fst no_view (fun _ _ => True) (part_targets q cs) p (appendExactRangeExpansionDecisions p q cs).
Proof.
  unfold appendExactRangeExpansionDecisions. apply each_pattern_extends. intros c i part s Hp.
  eapply extends_weaken; [|apply exact_pattern_extends]. done.
Qed.

Lemma exact_predicates_extends p q ps :
  extends ExactRangeExpansion fst no_view (fun _ _ => True) (where_targets q ps) p (appendPatternPredicateExactRangeExpansionDecisions p q ps).
Proof.
  unfold appendPatternPredicateExactRangeExpansionDecisions. apply foldl_extends. intros ip s Hip.
  eapply extends_weaken; [|apply exact_pattern_extends]. done.
Qed.

Lemma projection_pruning_extends p q cs ps refs :
  extends ProjectionPruning pd_Target no_view (fun _ => pruning_at q cs ps refs) (where_targets q ps) p
    (appendPatternPredicateProjectionLowerings p q ps refs).
Proof.
  unfold appendPatternPredicateProjectionLowerings. apply foldl_extends. intros ip s Hip. cbv zeta.
  destruct (none _); [by apply extends_refl|].
  destruct (pruning_pattern_extends s (predicate_target q ip) (patternPartForPredicate (ip_Predicate ip)) refs) as (ds & E & Hs & Hq & _).
  match goal with |- context [appendPatternLatePathMaterializationDecisions ?x ?t ?pt ?st ?r] => destruct (late_pattern_grows x t pt st r) as [l ->] end.
  exists ds. split_and!; [|done| |done].
  - rewrite <- E. by destruct (appendPatternProjectionPruningDecisions _ _ _ _ _).
  - eapply Forall_impl; [exact Hq|]. intros d Hd. right. by exists ip.
Qed.

Lemma projection_late_extends p q ps refs :
  extends LatePathMaterialization fst no_view (fun _ _ => True) (where_targets q ps) p (appendPatternPredicateProjectionLowerings p q ps refs).
Proof.
  unfold appendPatternPredicateProjectionLowerings. apply foldl_extends. intros ip s Hip. cbv zeta.
  destruct (none _); [by apply extends_refl|].
  match goal with |- context [appendPatternProjectionPruningDecisions ?x ?t ?pt ?st ?r] => destruct (pruning_pattern_grows x t pt st r) as [l ->] end.
  destruct (late_pattern_extends (append_pruning s l) (predicate_target q ip) (patternPartForPredicate (ip_Predicate ip)) refs) as (ds & E & Hs & Hq & _).
  exists ds. split_and!; [|done|done|done]. rewrite E. by destruct s.
Qed.

Lemma placement_extends p q ps :
  extends PatternPredicates id no_view (fun _ _ => True) (where_targets q ps) p (appendPatternPredicatePlacementDecisions p q ps).
Proof.
  unfold appendPatternPredicatePlacementDecisions. apply foldl_extends. intros ip s Hip. unfold predicate_targets.
  destruct (traversalStepsForPattern (Some (patternPartForPredicate (ip_Predicate ip)))) as [|step [|]]; [by apply extends_refl| |by apply extends_refl].
  case_match; [by apply extends_refl|]. by eapply extends_one; [by destruct s|done..].
Qed.

(** ** The plan of a query part *)

(** From the plan before a query part to the plan after it. *)
Record part_planned (q : nat) (cs : list (option ReadingClause)) (ps : list indexedPatternPredicate) (refs : gset string)
    (p p' : LoweringPlan) : Prop := {
  planned_pruning : extends ProjectionPruning pd_Target no_view (fun _ => pruning_at q cs ps refs) (part_targets q cs ++ where_targets q ps) p p';
  planned_late : extends LatePathMaterialization fst no_view (fun _ _ => True) (part_targets q cs ++ where_targets q ps) p p';
  planned_exact : extends ExactRangeExpansion fst no_view (fun _ _ => True) (part_targets q cs ++ where_targets q ps) p p';
  planned_into : extends ExpandInto id no_view (fun _ => into_ok cs) (part_targets q cs) p p';
  planned_direction : extends TraversalDirection td_Target no_view (fun _ d => exists part step, step_at cs (td_Target d) part step) (part_targets q cs) p p';
  planned_strategy : extends ShortestPathStrategies ss_Target no_view
    (fun _ d => exists part step, step_at cs (ss_Target d) part step /\ is_shortest part = true) (part_targets q cs) p p';
  planned_limit : extends LimitPushdown fst no_view (fun _ _ => True) (part_targets q cs) p p';
  planned_predicates : extends PatternPredicates id no_view (fun _ _ => True) (where_targets q ps) p p';
  planned_filter : extends ShortestPathFilter sf_Target no_view (fun _ => filter_ok cs (ShortestPathStrategies p')) (part_targets q cs) p p';
  planned_suffix : extends ExpansionSuffixPushdown sx_Target no_view
    (fun _ => suffix_ok cs (ExactRangeExpansion p', TraversalDirection p')) (part_targets q cs) p p';
  planned_rest : PredicatePlacement p' = PredicatePlacement p /\ CountStoreFastPath p' = CountStoreFastPath p /\
    AggregateTraversalCount p' = AggregateTraversalCount p;
}.

(** The list is as it was before and after the operation on it. *)
Lemma extends_frame {St X W} (F : St -> list X) key (view : St -> W) Q Q' ts s0 s s' s1 :
  F s = F s0 -> F s1 = F s' -> (forall x, Q (view s) x -> Q' x) ->
  extends F key view Q ts s s' -> extends F key (fun _ : St => ()) (fun _ => Q') ts s0 s1.
Proof.
  intros E0 E1 HQ (ds & E & Hs & Hq & _). exists ds. rewrite E1, E, E0. split_and!; [done..| |done].
  eapply Forall_impl; [exact Hq|apply HQ].
Qed.

Lemma extends_frame2 {St X} (F : St -> list X) key Q ts ts' s0 s1 s2 s3 s4 s5 :
  F s1 = F s0 -> F s3 = F s2 -> F s5 = F s4 ->
  extends F key (fun _ => ()) Q ts s1 s2 -> extends F key (fun _ => ()) Q ts' s3 s4 -> extends F key (fun _ => ()) Q (ts ++ ts') s0 s5.
Proof.
  intros E0 E1 E2 (ds & E & Hs & Hq & _) (ds' & E' & Hs' & Hq' & _). exists (ds ++ ds').
  rewrite E2, E', E1, E, E0, <- app_assoc, fmap_app. split_and!; [done|by apply sublist_app|by apply Forall_app|done].
Qed.

Lemma part_is_planned p q n cs att D sel p' :
  appendQueryPartLowerings p q n cs att D sel = inl p' ->
  exists refs, collectReferencedSourceIdentifiers (Some n) = (refs, None) /\
    part_planned q cs (indexedPatternPredicatesInQueryPart n) refs p p'.
Proof.
  unfold appendQueryPartLowerings. destruct (collectReferencedSourceIdentifiers (Some n)) as [refs [err|]]; [done|]. cbv zeta.
  set (ps := indexedPatternPredicatesInQueryPart n). intros [= <-]. exists refs. split; [done|].
  set (syms := shortestPathSearchPredicateSymbols cs). set (bsyms := bindingPredicateSymbols att q).
  set (p1 := appendExactRangeExpansionDecisions p q cs). pose proof (exact_grows p q cs) as [d1 E1].
  set (p2 := appendPatternPredicateExactRangeExpansionDecisions p1 q ps). pose proof (exact_predicates_grows p1 q ps) as [d2 E2].
  set (p3 := appendPathRelationshipPredicateDecisions p2 q n). pose proof (path_predicates_grows p2 q n) as [d3 E3].
  set (p4 := appendProjectionPruningDecisions p3 q cs refs). pose proof (pruning_grows p3 q cs refs) as [d4 E4].
  set (p5 := appendLatePathMaterializationDecisions p4 q cs refs). pose proof (late_grows p4 q cs refs) as [d5 E5].
  set (p6 := appendPatternPredicateProjectionLowerings p5 q ps refs). pose proof (projection_grows p5 q ps refs) as (d6 & d6' & E6).
  set (p7 := appendPatternPredicatePlacementDecisions p6 q ps). pose proof (placements_grows p6 q ps) as [d7 E7].
  set (p8 := appendExpandIntoDecisions p7 q cs). pose proof (into_grows p7 q cs) as [d8 E8].
  set (p9 := appendTraversalDirectionDecisions p8 q cs bsyms D sel). pose proof (direction_grows p8 q cs bsyms D sel) as [d9 E9].
  set (pA := appendShortestPathStrategyDecisions p9 q cs syms). pose proof (strategy_grows p9 q cs syms) as [dA EA].
  set (pB := appendShortestPathFilterDecisions pA q cs syms). pose proof (filter_grows pA q cs syms) as [dB EB].
  set (pC := appendLimitPushdownDecisions pB q n cs). pose proof (limit_grows pB q n cs) as [dC EC].
  set (pD := appendExpansionSuffixPushdownDecisions pC q cs). pose proof (suffix_grows pC q cs) as [dD ED].
  pose proof (exact_extends p q cs) as X1. pose proof (exact_predicates_extends p1 q ps) as X2.
  pose proof (pruning_extends p3 q cs ps refs) as X4. pose proof (late_extends p4 q cs refs) as X5.
  pose proof (projection_pruning_extends p5 q cs ps refs) as X6. pose proof (projection_late_extends p5 q ps refs) as X6'.
  pose proof (placement_extends p6 q ps) as X7. pose proof (into_extends p7 q cs) as X8.
  pose proof (direction_extends p8 q cs bsyms D sel) as X9. pose proof (strategy_extends p9 q cs syms) as XA.
  pose proof (filter_extends pA q cs syms) as XB. pose proof (limit_extends pB q n cs) as XC. pose proof (suffix_extends pC q cs) as XD.
  fold p1 in E1, X1. fold p2 in E2, X2. fold p3 in E3. fold p4 in E4, X4. fold p5 in E5, X5. fold p6 in E6, X6, X6'. fold p7 in E7, X7.
  fold p8 in E8, X8. fold p9 in E9, X9. fold pA in EA, XA. fold pB in EB, XB. fold pC in EC, XC. fold pD in ED, XD.
  clearbody p1 p2 p3 p4 p5 p6 p7 p8 p9 pA pB pC pD. subst.
  destruct p. split.
  - eapply extends_frame2; [..|exact X4|exact X6]; done.
  - eapply extends_frame2; [..|exact X5|exact X6']; done.
  - eapply extends_frame2; [..|exact X1|exact X2]; done.
  - eapply extends_frame; [..|exact X8]; done.
  - eapply extends_frame; [..|exact X9]; done.
  - eapply extends_frame; [..|exact XA]; done.
  - eapply extends_frame; [..|exact XC]; done.
  - eapply extends_frame; [..|exact X7]; done.
  - eapply extends_frame; [..|exact XB]; done.
  - eapply extends_frame; [..|exact XD]; done.
  - done.
Qed.
