(* ===== verification/Plans.v ===== *)
(** * The plan of a query (cypher/models/pgsql/optimize/lowering_plan.go, optimizer.go)

    Theorems on the results of [BuildLoweringPlan] and [Optimize]: when they fail,
    that a list of the plan has one decision for a step at most, what the decisions
    on pruned projections and on pushed down suffixes guarantee, and that a plan's
    analysis and attachments are those of the query it returns. *)

From S2P Require Import Prelude Framing Walk WalkTree Kinds Digraph CypherAst Analysis Reordering SourceReferences PatternSteps Reversal LoweringPlan CountShapes Optimizer PlanTargets Mentions.

(** ** Lists of tagged elements *)

Lemma NoDup_tagged {A B} (tag : B -> nat) (g : nat -> A -> list B) l :
  (forall i a, l !! i = Some a -> NoDup (g i a) /\ forall x, x ∈ g i a -> tag x = i) -> NoDup (concat (imap g l)).
Proof.
  assert (Hall : forall l k, (forall i a, l !! i = Some a -> NoDup (g (k + i) a) /\ forall x, x ∈ g (k + i) a -> tag x = k + i) ->
    NoDup (concat (imap (fun i => g (k + i)) l)) /\ forall x, x ∈ concat (imap (fun i => g (k + i)) l) -> k <= tag x).
  { clear. induction l as [|a l IH]; intros k Hg; [split; [constructor|set_solver]|]. cbn [imap concat].
    assert (E : imap ((fun i => g (k + i)) ∘ S) l = imap (fun i => g (S k + i)) l) by
      (apply imap_ext; intros i x _; cbn; by rewrite Nat.add_succ_r). rewrite E.
    destruct (IH (S k)) as [H1 H2]; [intros i b Hi; specialize (Hg (S i) b Hi); by rewrite Nat.add_succ_r in Hg|].
    destruct (Hg 0 a eq_refl) as [G1 G2]. rewrite Nat.add_0_r in *. split.
    - apply NoDup_app. split_and!; [done| |done]. intros x Hx Hx'. apply G2 in Hx. apply H2 in Hx'. lia.
    - intros x [Hx|Hx]%elem_of_app; [apply G2 in Hx; lia|apply H2 in Hx; lia]. }
  intros Hg. apply (Hall l 0), Hg.
Qed.

Lemma concat_imap_elem {A B} (g : nat -> A -> list B) l x : x ∈ concat (imap g l) <-> exists i a, l !! i = Some a /\ x ∈ g i a.
Proof.
  rewrite elem_of_concat. split.
  - intros (ys & Hx & Hys). apply list_elem_of_lookup in Hys as [i Hi]. rewrite list_lookup_imap in Hi.
    apply fmap_Some in Hi as (a & Ha & ->). by exists i, a.
  - intros (i & a & Ha & Hx). exists (g i a). split; [done|]. apply (list_elem_of_lookup_2 _ i). by rewrite list_lookup_imap, Ha.
Qed.

(** ** The targets of a part are different *)

Section targets.
Variable q : nat.

Lemma step_targets_elem {A} t (steps : list A) x : x ∈ imap (fun i _ => PatternTarget_TraversalStep t i) steps ->
  exists i, i < length steps /\ x = PatternTarget_TraversalStep t i.
Proof using Type.
  intros [i Hi]%list_elem_of_lookup. rewrite list_lookup_imap in Hi. apply fmap_Some in Hi as (a & Ha & ->). exists i.
  split; [by eapply lookup_lt_Some|done].
Qed.

Lemma step_targets_NoDup {A} t (steps : list A) : NoDup (imap (fun i _ => PatternTarget_TraversalStep t i) steps).
Proof using Type.
  rewrite <- singles. apply (NoDup_tagged st_StepIndex). intros i a _. split; [apply NoDup_singleton|].
  intros x ->%list_elem_of_singleton. done.
Qed.

Lemma part_targets_elem cs x : x ∈ part_targets q cs ->
  st_QueryPartIndex x = q /\ st_Predicate x = false /\ st_PredicateIndex x = 0 /\ exists part step, step_at cs x part step.
Proof using Type.
  intros (c & clause & Hc & Hx)%concat_imap_elem. unfold clause_targets in Hx.
  destruct (clause ≫= clause_Match) as [m|] eqn:Hm; [|set_solver]. destruct (match_Optional m) eqn:Ho; [set_solver|].
  apply concat_imap_elem in Hx as (p & part & Hp & Hx). apply step_targets_elem in Hx as (i & Hi & ->). split_and!; [done..|].
  apply lookup_lt_is_Some in Hi as [step Hs]. exists part, step. split; [by exists clause, m|done].
Qed.

Lemma part_targets_NoDup cs : NoDup (part_targets q cs).
Proof using Type.
  apply (NoDup_tagged st_ClauseIndex). intros c clause _. unfold clause_targets. destruct (clause ≫= clause_Match) as [m|]; [|by split; [constructor|set_solver]].
  destruct (match_Optional m); [by split; [constructor|set_solver]|]. split.
  - apply (NoDup_tagged st_PatternIndex). intros p part _. split; [apply step_targets_NoDup|]. intros x (i & _ & ->)%step_targets_elem. done.
  - intros x (p & part & _ & (i & _ & ->)%step_targets_elem)%concat_imap_elem. done.
Qed.

Lemma where_targets_elem ps x : x ∈ where_targets q ps ->
  st_QueryPartIndex x = q /\ st_Predicate x = true /\
  exists ip, ip ∈ ps /\ st_ClauseIndex x = ip_ClauseIndex ip /\ st_PredicateIndex x = ip_PredicateIndex ip /\
    st_StepIndex x < length (traversalStepsForPattern (Some (patternPartForPredicate (ip_Predicate ip)))).
Proof using Type.
  intros (ts & Hx & Hts)%elem_of_concat. apply list_elem_of_fmap in Hts as (ip & -> & Hip).
  apply step_targets_elem in Hx as (i & Hi & ->). split_and!; [done..|]. by exists ip.
Qed.

Lemma indexed_positions n k ip : indexedPatternPredicatesInQueryPart n !! k = Some ip -> ip_PredicateIndex ip = k.
Proof using Type.
  unfold indexedPatternPredicatesInQueryPart. rewrite index_loop. cbn [app]. intros Hk. rewrite list_lookup_imap in Hk.
  apply fmap_Some in Hk as (x & _ & ->). done.
Qed.

Lemma where_targets_NoDup n : NoDup (where_targets q (indexedPatternPredicatesInQueryPart n)).
Proof using Type.
  unfold where_targets. rewrite <- (imap_const _ (indexedPatternPredicatesInQueryPart n)). apply (NoDup_tagged st_PredicateIndex).
  intros k ip Hk. split; [apply step_targets_NoDup|]. intros x (i & _ & ->)%step_targets_elem. cbn. by eapply indexed_positions.
Qed.

Lemma all_targets_NoDup cs n : NoDup (part_targets q cs ++ where_targets q (indexedPatternPredicatesInQueryPart n)).
Proof using Type.
  apply NoDup_app. split_and!; [apply part_targets_NoDup| |apply where_targets_NoDup].
  intros x (_ & H1 & _)%part_targets_elem (_ & H2 & _)%where_targets_elem. congruence.
Qed.
End targets.

(** ** The parts of a query *)

Record source_part := mkPart {
  part_index : nat;
  part_node : SyntaxNode;
  part_clauses : list (option ReadingClause);
}.

Definition part_predicates (x : source_part) : list indexedPatternPredicate := indexedPatternPredicatesInQueryPart (part_node x).

Definition targets (x : source_part) : list TraversalStepTarget :=
  part_targets (part_index x) (part_clauses x) ++ where_targets (part_index x) (part_predicates x).

Definition final_part (k : nat) (s : SinglePartQuery) : source_part := mkPart k (NSinglePartQuery s) (sp_ReadingClauses s).

Fixpoint multi_parts (k : nat) (parts : list (option MultiPartQueryPart)) : list source_part :=
  match parts with
  | [] => []
  | None :: parts' => multi_parts (S k) parts'
  | Some part :: parts' => mkPart k (NMultiPartQueryPart part) (mp_ReadingClauses part) :: multi_parts (S k) parts'
  end.

(** The parts the planner looks at, with their indices. *)
Definition query_parts (q : SingleQuery) : list source_part :=
  match sq_MultiPartQuery q, sq_SinglePartQuery q with
  | Some m, _ => multi_parts 0 (mq_Parts m) ++ option_list (final_part (length (mq_Parts m)) <$> mq_SinglePartQuery m)
  | None, Some s => [final_part 0 s]
  | None, None => []
  end.

(** Every part comes before those that follow it. *)
Fixpoint in_order (xs : list source_part) : Prop :=
  match xs with
  | [] => True
  | x :: xs' => (forall y, y ∈ xs' -> part_index x < part_index y) /\ in_order xs'
  end.

Lemma multi_parts_index parts : forall k x, x ∈ multi_parts k parts -> k <= part_index x < k + length parts.
Proof.
  induction parts as [|[part|] parts IH]; intros k x Hx; cbn in *; [set_solver| |].
  - apply elem_of_cons in Hx as [->|Hx%IH]; cbn; lia.
  - apply IH in Hx. lia.
Qed.

Lemma in_order_app xs ys : in_order xs -> in_order ys -> (forall x y, x ∈ xs -> y ∈ ys -> part_index x < part_index y) -> in_order (xs ++ ys).
Proof.
  intros Hxs Hys Hxy. induction xs as [|x xs IH]; [done|]. destruct Hxs as [H1 H2]. split.
  - intros y [Hy|Hy]%elem_of_app; [by apply H1|]. apply Hxy; [by left|done].
  - apply IH; [done|]. intros x' y Hx'. apply Hxy. by right.
Qed.

Lemma multi_parts_in_order parts : forall k, in_order (multi_parts k parts).
Proof.
  induction parts as [|[part|] parts IH]; intros k; cbn; [done| |apply IH]. split; [|apply IH].
  intros y Hy%multi_parts_index. lia.
Qed.

Lemma query_parts_in_order q : in_order (query_parts q).
Proof.
  unfold query_parts. destruct (sq_MultiPartQuery q) as [m|]; [|destruct (sq_SinglePartQuery q); cbn; set_solver].
  apply in_order_app; [apply multi_parts_in_order|destruct (mq_SinglePartQuery m); cbn; set_solver|].
  intros x y Hx%multi_parts_index Hy. destruct (mq_SinglePartQuery m); cbn in Hy; [|set_solver].
  apply list_elem_of_singleton in Hy as ->. cbn. lia.
Qed.

Lemma targets_index x t : t ∈ targets x -> st_QueryPartIndex t = part_index x.
Proof. intros [Ht|Ht]%elem_of_app; [by apply part_targets_elem in Ht as [? _]|by apply where_targets_elem in Ht as [? _]]. Qed.

Lemma targets_NoDup xs : in_order xs -> NoDup (concat (targets <$> xs)).
Proof.
  induction xs as [|x xs IH]; [constructor|]. intros [H1 H2]. cbn. apply NoDup_app. split_and!; [apply all_targets_NoDup| |by apply IH].
  intros t Ht%targets_index (ts & Hts & Hx)%elem_of_concat. apply list_elem_of_fmap in Hx as (y & -> & Hy).
  apply targets_index in Hts. apply H1 in Hy. lia.
Qed.

(** ** From the parts to the plan *)

Inductive planned : list source_part -> LoweringPlan -> LoweringPlan -> Prop :=
| planned_nil p : planned [] p p
| planned_cons x xs refs p p1 p2 :
    collectReferencedSourceIdentifiers (Some (part_node x)) = (refs, None) ->
    part_planned (part_index x) (part_clauses x) (part_predicates x) refs p p1 ->
    planned xs p1 p2 -> planned (x :: xs) p p2.

Lemma planned_app xs ys p1 p2 p3 : planned xs p1 p2 -> planned ys p2 p3 -> planned (xs ++ ys) p1 p3.
Proof. intros Hxs Hys. induction Hxs as [p|x xs refs p p1 p2 Hr Hx Hp IH]; [exact Hys|]. cbn. eapply planned_cons; [exact Hr|exact Hx|by apply IH]. Qed.

Definition part_error (x : source_part) : option error := (collectReferencedSourceIdentifiers (Some (part_node x))).2.

Lemma part_step x att D sel p :
  match appendQueryPartLowerings p (part_index x) (part_node x) (part_clauses x) att D sel with
  | inl p' => planned [x] p p'
  | inr e => part_error x = Some e
  end.
Proof.
  destruct (appendQueryPartLowerings _ _ _ _ _ _ _) as [p'|e] eqn:E.
  - apply part_is_planned in E as (refs & Hr & Hp). econstructor; [exact Hr|exact Hp|constructor].
  - unfold appendQueryPartLowerings in E. unfold part_error. destruct (collectReferencedSourceIdentifiers _) as [refs [err|]]; [|done].
    by injection E as ->.
Qed.

Lemma append_parts_planned att parts : forall k p st,
  match append_parts att k parts p st with
  | inl (p', _) => planned (multi_parts k parts) p p'
  | inr e => exists x, x ∈ multi_parts k parts /\ part_error x = Some e
  end.
Proof.
  induction parts as [|[part|] parts IH]; intros k p st; cbn [append_parts multi_parts]; [constructor| |apply IH].
  set (x := mkPart k (NMultiPartQueryPart part) (mp_ReadingClauses part)). pose proof (part_step x att st.1 st.2 p) as Hx. cbn in Hx.
  destruct (appendQueryPartLowerings _ _ _ _ _ _ _) as [p1|e]; [|exists x; split; [by left|done]].
  specialize (IH (S k) p1 (carry_part part st)). destruct (append_parts _ _ _ _ _) as [[p2 st']|e].
  - by apply (planned_app [x] _ _ _ _ Hx).
  - destruct IH as (y & Hy & He). exists y. split; [by right|done].
Qed.

Lemma append_query_planned q att :
  match append_query q att with
  | inl p => planned (query_parts q) empty_plan p
  | inr e => exists x, x ∈ query_parts q /\ part_error x = Some e
  end.
Proof.
  unfold append_query, query_parts. destruct (sq_MultiPartQuery q) as [m|].
  - pose proof (append_parts_planned att (mq_Parts m) 0 empty_plan (∅, ∅)) as H. destruct (append_parts _ _ _ _ _) as [[p st]|e].
    + destruct (mq_SinglePartQuery m) as [s|]; cbn [fmap option_fmap option_map option_list]; [|by rewrite app_nil_r].
      pose proof (part_step (final_part (length (mq_Parts m)) s) att st.1 st.2 p) as Hs. cbn in Hs.
      destruct (appendQueryPartLowerings _ _ _ _ _ _ _) as [p'|e]; [by eapply planned_app|]. eexists. split; [|exact Hs]. set_solver.
    + destruct H as (x & Hx & He). exists x. set_solver.
  - destruct (sq_SinglePartQuery q) as [s|]; [|constructor]. pose proof (part_step (final_part 0 s) att ∅ ∅ empty_plan) as Hs. cbn in Hs.
    destruct (appendQueryPartLowerings _ _ _ _ _ _ _) as [p'|e]; [done|]. eexists. split; [|exact Hs]. set_solver.
Qed.

(** One list of the plan, and what its decisions guarantee in the final plan. *)
Section one_list.
Context {X : Type} (F : LoweringPlan -> list X) (key : X -> TraversalStepTarget) (ts : source_part -> list TraversalStepTarget).
Variable Q : source_part -> LoweringPlan -> X -> Prop.
Hypothesis Hpart : forall x refs p p', collectReferencedSourceIdentifiers (Some (part_node x)) = (refs, None) ->
  part_planned (part_index x) (part_clauses x) (part_predicates x) refs p p' -> extends F key no_view (fun _ => Q x p') (ts x) p p'.
Hypothesis Hlift : forall x xs p p' d, in_order xs -> planned xs p p' -> (forall y, y ∈ xs -> part_index x < part_index y) ->
  key d ∈ ts x -> Q x p d -> Q x p' d.

Lemma planned_list xs p p' : in_order xs -> planned xs p p' ->
  exists ds, F p' = F p ++ ds /\ (key <$> ds) `sublist_of` concat (ts <$> xs) /\
    Forall (fun d => exists x, x ∈ xs /\ key d ∈ ts x /\ Q x p' d) ds.
Proof using All.
  intros Ho Hp. induction Hp as [p|x xs refs p p1 p2 Hr Hx Hp IH].
  - exists []. by rewrite app_nil_r.
  - destruct Ho as [Ho1 Ho2]. destruct (IH Ho2) as (ds' & E' & Hs' & Hq'). destruct (Hpart x refs p p1 Hr Hx) as (ds & E & Hs & Hq & _).
    exists (ds ++ ds'). rewrite E', E, <- app_assoc, fmap_app. cbn [fmap list_fmap concat]. split_and!; [done|by apply sublist_app|].
    apply Forall_app. split.
    + apply Forall_forall. intros d Hd. rewrite Forall_forall in Hq. assert (Hk : key d ∈ ts x) by
        (eapply elem_of_sublist; [by apply list_elem_of_fmap_2|exact Hs]). exists x. split_and!; [by left|done|]. eauto.
    + eapply Forall_impl; [exact Hq'|]. intros d (y & Hy & H). exists y. split; [by right|done].
Qed.
End one_list.

(** ** From the query to the plan *)

Definition parts_of (query : RegularQuery) : list source_part :=
  match mjoin query with Some q => query_parts q | None => [] end.

Lemma parts_of_in_order query : in_order (parts_of query).
Proof. unfold parts_of. destruct (mjoin query); [apply query_parts_in_order|done]. Qed.

(** What follows the parts changes the lists of the parts only by the predicates
    that suffixes take with them. *)
Record finishes (p0 p : LoweringPlan) : Prop := {
  finishes_pruning : ProjectionPruning p = ProjectionPruning p0;
  finishes_late : LatePathMaterialization p = LatePathMaterialization p0;
  finishes_exact : ExactRangeExpansion p = ExactRangeExpansion p0;
  finishes_into : ExpandInto p = ExpandInto p0;
  finishes_direction : TraversalDirection p = TraversalDirection p0;
  finishes_strategy : ShortestPathStrategies p = ShortestPathStrategies p0;
  finishes_limit : LimitPushdown p = LimitPushdown p0;
  finishes_predicates : PatternPredicates p = PatternPredicates p0;
  finishes_filter : ShortestPathFilter p = ShortestPathFilter p0;
  finishes_suffix : ExpansionSuffixPushdown p = (fun s =>
    mkSuffix (sx_Target s) (sx_SuffixLength s) (sx_SuffixStartStep s) (sx_SuffixEndStep s)
      (sx_PredicateAttachments s ++ (pl_Attachment <$> filter (fun x => in_suffix s x = true) (PredicatePlacement p))))
    <$> ExpansionSuffixPushdown p0;
}.

Lemma build_planned query att :
  match BuildLoweringPlan query att with
  | Done (inl p) => exists p0, planned (parts_of query) empty_plan p0 /\ finishes p0 p
  | Done (inr e) => exists x, x ∈ parts_of query /\ part_error x = Some e
  | Panic => countStoreFastPathDecision query = Panic /\ forall x, x ∈ parts_of query -> part_error x = None
  | Spent => False
  end.
Proof.
  unfold BuildLoweringPlan, parts_of. destruct (mjoin query) as [q|] eqn:Hq; [|by exists empty_plan; split; [constructor|]].
  pose proof (append_query_planned q att) as H. destruct (append_query q att) as [p0|e]; [|done].
  unfold appendCountStoreFastPathDecisions. destruct (countStoreFastPathDecision query) as [d| |] eqn:Hd; cbn.
  - exists p0. split; [done|]. unfold appendAggregateTraversalCountDecisions, appendPredicatePlacementDecisions.
    destruct p0, d, (none att), (AggregateTraversalCountShapeForQuery query); done.
  - split; [done|]. clear Hq Hd. induction H as [p|x xs refs p p1 p2 Hr Hx Hp IH]; [set_solver|].
    intros y [->|Hy]%elem_of_cons; [unfold part_error; by rewrite Hr|by apply IH].
  - unfold countStoreFastPathDecision, count_store_elements, count_store in Hd.
    assert (Hk : forall ks, kindSymbols ks <> Spent) by
      (induction ks as [|[k|] ks IH]; cbn; [done| |done]; destruct (kindSymbols ks); done).
    repeat case_match; try done. all: destruct (kindSymbols _) eqn:Hs; cbn in Hd; try done; by apply Hk in Hs.
Qed.

Lemma planned_counts xs p p' : planned xs p p' -> CountStoreFastPath p' = CountStoreFastPath p.
Proof. induction 1 as [p|x xs refs p p1 p2 Hr Hx Hp IH]; [done|]. destruct (planned_rest _ _ _ _ _ _ Hx) as (_ & H & _). congruence. Qed.

Lemma build_count_store query att p : BuildLoweringPlan query att = Done (inl p) ->
  exists d, countStoreFastPathDecision query = Done d /\ CountStoreFastPath p = option_list d.
Proof.
  unfold BuildLoweringPlan. destruct (mjoin query) as [q|] eqn:Hq.
  - pose proof (append_query_planned q att) as H. destruct (append_query q att) as [p0|e]; [|done].
    unfold appendCountStoreFastPathDecisions. destruct (countStoreFastPathDecision query) as [d| |]; cbn; [|done|done]. intros [= <-].
    exists d. split; [done|]. apply planned_counts in H. cbn in H.
    unfold appendAggregateTraversalCountDecisions, appendPredicatePlacementDecisions.
    destruct p0, d, (none att), (AggregateTraversalCountShapeForQuery query); cbn in *; by subst.
  - intros [= <-]. exists None. split; [|done]. unfold countStoreFastPathDecision. by rewrite Hq.
Qed.

(** A part that is planned could be walked. *)
Lemma planned_walkable xs p p' : planned xs p p' -> forall x, x ∈ xs -> walkable (part_node x) = true.
Proof.
  induction 1 as [p|x xs refs p p1 p2 Hr Hx Hp IH]; [set_solver|]. intros y [->|Hy]%elem_of_cons; [|by apply IH].
  apply references_error. by rewrite Hr.
Qed.

(** ** One decision for a step *)

(** The lists of a plan that are about steps. *)
Definition step_lists (p : LoweringPlan) : list (list TraversalStepTarget) :=
  [pd_Target <$> ProjectionPruning p; fst <$> LatePathMaterialization p; fst <$> ExactRangeExpansion p; ExpandInto p;
   td_Target <$> TraversalDirection p; ss_Target <$> ShortestPathStrategies p; fst <$> LimitPushdown p; PatternPredicates p;
   sf_Target <$> ShortestPathFilter p; sx_Target <$> ExpansionSuffixPushdown p].

Lemma extends_any {X} (F : LoweringPlan -> list X) key Q ts ts' p p' : ts `sublist_of` ts' ->
  extends F key no_view Q ts p p' -> extends F key no_view (fun _ _ => True) ts' p p'.
Proof. intros Hs (ds & E & Hd & _ & _). exists ds. split_and!; [done|by transitivity ts|by apply Forall_true|done]. Qed.

(** Every list starts empty and takes steps of the query in their order. *)
Lemma planned_targets {X} (F : LoweringPlan -> list X) key xs p :
  (forall x refs p p', part_planned (part_index x) (part_clauses x) (part_predicates x) refs p p' ->
    extends F key no_view (fun _ _ => True) (targets x) p p') ->
  in_order xs -> planned xs empty_plan p -> F empty_plan = [] -> (key <$> F p) `sublist_of` concat (targets <$> xs).
Proof.
  intros HF Ho Hp E0. destruct (planned_list F key targets (fun _ _ _ => True)) with (xs := xs) (p := empty_plan) (p' := p) as (ds & E & Hs & _); eauto.
  by rewrite E, E0.
Qed.

Lemma planned_step_lists xs p : in_order xs -> planned xs empty_plan p ->
  Forall (fun l => l `sublist_of` concat (targets <$> xs)) (step_lists p).
Proof.
  intros Ho Hp. assert (Hl : forall x, part_targets (part_index x) (part_clauses x) `sublist_of` targets x) by
    (intros x; by apply sublist_inserts_r).
  assert (Hr : forall x, where_targets (part_index x) (part_predicates x) `sublist_of` targets x) by (intros x; by apply sublist_inserts_l).
  unfold step_lists. rewrite <- (list_fmap_id (ExpandInto p)), <- (list_fmap_id (PatternPredicates p)).
  repeat apply Forall_cons_2; [..|apply Forall_nil_2].
  all: apply (planned_targets _ _ _ _); [|done|done|done].
  all: intros x refs p1 p2 [].
  all: eapply extends_any; [|eassumption]; first [apply Hl|apply Hr|done].
Qed.

(** [C13] In the plan of a query, each of the ten lists of decisions about steps
    names steps of the query in the order of the query, and so has one decision for
    a step at most: no two steps of the query's parts, of their patterns or of the
    pattern predicates have the same target. *)
Theorem BuildLoweringPlan_targets query att p : BuildLoweringPlan query att = Done (inl p) ->
  NoDup (concat (targets <$> parts_of query)) /\
  Forall (fun l => l `sublist_of` concat (targets <$> parts_of query) /\ NoDup l) (step_lists p).
Proof.
  intros Hb. pose proof (build_planned query att) as H. rewrite Hb in H. destruct H as (p0 & Hp & Hf).
  pose proof (targets_NoDup _ (parts_of_in_order query)) as Hn. split; [done|].
  assert (E : step_lists p = step_lists p0).
  { destruct Hf. unfold step_lists. repeat match goal with E : _ = _ |- _ => rewrite E; clear E end.
    by rewrite <- list_fmap_compose. }
  rewrite E. eapply Forall_impl; [by apply planned_step_lists; [apply parts_of_in_order|exact Hp]|].
  intros l Hl. split; [done|]. by eapply sublist_NoDup.
Qed.

(** ** Pruned projections *)

(** The pattern and the step that a target of the part names. *)
Definition names_step (x : source_part) (t : TraversalStepTarget) (part : PatternPart Expression) (step : sourceTraversalStep) : Prop :=
  st_QueryPartIndex t = part_index x /\ traversalStepsForPattern (Some part) !! st_StepIndex t = Some step /\
  if st_Predicate t
  then exists ip, ip ∈ part_predicates x /\ part = patternPartForPredicate (ip_Predicate ip) /\
         st_ClauseIndex t = ip_ClauseIndex ip /\ st_PredicateIndex t = ip_PredicateIndex ip
  else pattern_at (part_clauses x) (st_ClauseIndex t) (st_PatternIndex t) (Some part).

(** The variable, if there is one, is mentioned in the part in no place but those that
    are overlooked, and declared by the patterns of the part at most once; and the part
    does not refer to everything. *)
Definition unused_in (root : SyntaxNode) (variable : option string) : Prop :=
  (TokenLiteralAsterisk ∈ mentions root -> TokenLiteralAsterisk ∈ overlooked root) /\
  forall s, variable = Some s -> s <> "" -> (s ∈ mentions root -> s ∈ overlooked root) /\ occurrences s (declared root) <= 1.

Lemma unreferenced_unused root refs variable : parts_apart root = true ->
  collectReferencedSourceIdentifiers (Some root) = (refs, None) -> unreferenced refs variable -> unused_in root variable.
Proof.
  intros Ha Hr Hu. assert (Hw : walkable root = true) by (apply references_error; by rewrite Hr).
  destruct (references_spec root Hw Ha) as (refs' & Hr' & Hin). rewrite Hr in Hr'. injection Hr' as <-.
  assert (Hf : forall x, x <> "" -> x ∉ refs -> x ∈ mentions root -> x ∈ overlooked root).
  { intros x Hx Hn Hm. destruct (mentions_found root x Hw Hx Hm) as [H|H]; [done|]. destruct Hn. apply Hin. by left. }
  unfold unreferenced, referencesSourceIdentifier in Hu. case_bool_decide as Hstar; [done|]. split; [by apply Hf|].
  intros s -> Hs. cbn in Hu. rewrite bool_decide_eq_false_2 in Hu by done. apply bool_decide_eq_false in Hu.
  split; [by apply Hf|]. pose proof (declared_found root s Hw). rewrite Hin in Hu. lia.
Qed.

(** What is omitted at a step is not used. *)
Definition omits_unused (x : source_part) (d : ProjectionPruningDecision) : Prop :=
  exists part step, names_step x (pd_Target d) part step /\
    (pd_OmitLeftNode d = true -> unused_in (part_node x) (np_Variable (LeftNode step)) /\ unused_in (part_node x) (pp_Variable part)) /\
    (pd_OmitRelationship d = true -> unused_in (part_node x) (rp_Variable (Relationship step))) /\
    (pd_OmitRightNode d = true -> unused_in (part_node x) (np_Variable (RightNode step)) /\ unused_in (part_node x) (pp_Variable part) /\
       length (traversalStepsForPattern (Some part)) = S (st_StepIndex (pd_Target d))) /\
    (pd_OmitPathBinding d = true -> unused_in (part_node x) (pp_Variable part)).

Lemma pruning_unused x refs d : parts_apart (part_node x) = true ->
  collectReferencedSourceIdentifiers (Some (part_node x)) = (refs, None) ->
  pruning_at (part_index x) (part_clauses x) (part_predicates x) refs d -> omits_unused x d.
Proof.
  intros Ha Hr. assert (Hu := fun v => unreferenced_unused (part_node x) refs v Ha Hr).
  assert (Hok : forall t part, pruning_ok refs t part d ->
    (forall i step, pd_Target d = PatternTarget_TraversalStep t i -> traversalStepsForPattern (Some part) !! i = Some step ->
      names_step x (pd_Target d) part step) -> omits_unused x d).
  { intros t part (i & step & Ht & Hi & H1 & H2 & H3 & H4) Hn. exists part, step. split; [by apply (Hn i)|].
    split_and!; [intros H%H1|intros H%H2|intros H%H3|intros H%H4]; rewrite ?Ht; intuition. }
  intros [(c & i & part & Hp & Hd)|(ip & Hip & Hd)]; apply (Hok _ _ Hd); intros k step -> Hk; split_and!; try done.
  exists ip. done.
Qed.


(** ** Suffixes and shortest paths *)

(** Decisions that later parts add are about later parts. *)
Lemma planned_later {X} (F : LoweringPlan -> list X) key xs p p' k d :
  (forall x refs p p', part_planned (part_index x) (part_clauses x) (part_predicates x) refs p p' ->
    extends F key no_view (fun _ _ => True) (targets x) p p') ->
  in_order xs -> planned xs p p' -> (forall y, y ∈ xs -> k < part_index y) -> d ∈ F p' -> d ∈ F p \/ k < st_QueryPartIndex (key d).
Proof.
  intros HF Ho Hp Hk Hd. destruct (planned_list F key targets (fun _ _ _ => True)) with (xs := xs) (p := p) (p' := p') as (ds & E & _ & Hq); eauto.
  rewrite E in Hd. apply elem_of_app in Hd as [Hd|Hd]; [by left|]. right. rewrite Forall_forall in Hq.
  destruct (Hq d Hd) as (x & Hx & Ht & _). apply targets_index in Ht. specialize (Hk x Hx). lia.
Qed.

(** The decision is about the steps after an expansion of variable length: they are
    all the fixed and directed steps that follow it, and there is one. *)
Definition suffix_of (x : source_part) (d : ExpansionSuffixPushdownDecision) : Prop :=
  exists part step, names_step x (sx_Target d) part step /\ st_Predicate (sx_Target d) = false /\ is_Some (rp_Range (Relationship step)) /\
    sx_SuffixStartStep d = S (st_StepIndex (sx_Target d)) /\ sx_SuffixEndStep d = st_StepIndex (sx_Target d) + sx_SuffixLength d /\
    0 < sx_SuffixLength d /\ sx_SuffixEndStep d < length (traversalStepsForPattern (Some part)) /\
    (forall i step', sx_SuffixStartStep d <= i <= sx_SuffixEndStep d ->
       traversalStepsForPattern (Some part) !! i = Some step' -> plain_step step') /\
    (forall step', traversalStepsForPattern (Some part) !! S (sx_SuffixEndStep d) = Some step' -> ~ plain_step step').

Definition untouched (p : LoweringPlan) (t : TraversalStepTarget) : Prop :=
  t ∉ fst <$> ExactRangeExpansion p /\ forall x, x ∈ TraversalDirection p -> td_Target x = t -> td_Flip x = false.

Lemma planned_suffixes xs p : in_order xs -> planned xs empty_plan p ->
  Forall (fun d => exists x, x ∈ xs /\ suffix_of x d /\ untouched p (sx_Target d) /\ sx_PredicateAttachments d = []) (ExpansionSuffixPushdown p).
Proof.
  intros Ho Hp. destruct (planned_list ExpansionSuffixPushdown sx_Target (fun x => part_targets (part_index x) (part_clauses x))
    (fun x p d => suffix_ok (part_clauses x) (ExactRangeExpansion p, TraversalDirection p) d)) with (xs := xs) (p := empty_plan) (p' := p)
    as (ds & E & _ & Hq); [intros x refs p1 p2 _ Hx; apply (planned_suffix _ _ _ _ _ _ Hx)| |done|done|].
  - intros x ys p1 p2 d Ho' Hp' Hlt Ht [H1 [H2 [H3 H4]]]. apply part_targets_elem in Ht as (Ht & _). split; [done|]. split_and!; [..|done].
    + intros e [He|He]%(planned_later ExactRangeExpansion fst ys p1 p2 (part_index x)) Heq; [by eapply H2|rewrite Heq in He; lia|..|done|done|done].
      intros y refs q1 q2 Hy. eapply extends_any; [|apply (planned_exact _ _ _ _ _ _ Hy)]. done.
    + intros e [He|He]%(planned_later TraversalDirection td_Target ys p1 p2 (part_index x)) Heq; [by eapply H3|rewrite Heq in He; lia|..|done|done|done].
      intros y refs q1 q2 Hy. eapply extends_any; [|apply (planned_direction _ _ _ _ _ _ Hy)]. by apply sublist_inserts_r.
  - rewrite E. eapply Forall_impl; [exact Hq|]. intros d (x & Hx & Ht & (part & step & [Hs1 Hs2] & Hd) & H2 & H3 & H4). exists x. split; [done|].
    apply part_targets_elem in Ht as (Ht & Htp & _). split_and!; [..|done].
    + destruct part as [part|]; [|done]. exists part, step. unfold names_step. rewrite Htp. done.
    + split; [|exact H3]. intros (e & Heq & He)%list_elem_of_fmap. by eapply H2.
Qed.

(** Where a step is: its part, clause and pattern and its place in the pattern. *)
Definition place (t : TraversalStepTarget) : nat * nat * nat * nat :=
  (st_QueryPartIndex t, st_ClauseIndex t, st_PatternIndex t, st_StepIndex t).

(** The places of the steps of a suffix: those from its first step to its last one, in
    the pattern of the expansion. *)
Definition suffix_places (d : ExpansionSuffixPushdownDecision) : list (nat * nat * nat * nat) :=
  let t := sx_Target d in
  (fun i => (st_QueryPartIndex t, st_ClauseIndex t, st_PatternIndex t, i))
    <$> seq (sx_SuffixStartStep d) (S (sx_SuffixEndStep d) - sx_SuffixStartStep d).

Lemma suffix_places_exact d y :
  sx_SuffixStartStep d = S (st_StepIndex (sx_Target d)) -> sx_SuffixEndStep d = st_StepIndex (sx_Target d) + sx_SuffixLength d ->
  place (pl_Target y) ∈ suffix_places d <-> in_suffix d y = true.
Proof.
  intros H1 H2. unfold suffix_places, place, in_suffix. rewrite list_elem_of_fmap. setoid_rewrite elem_of_seq.
  rewrite !andb_true_iff, !Nat.eqb_eq, Nat.ltb_lt, Nat.leb_le. split.
  - intros (i & [= ? ? ? ?] & ?). lia.
  - intros [[[[-> ->] ->] ?] ?]. eexists. split; [reflexivity|lia].
Qed.

(** [C14] A suffix that the plan pushes into an expansion is the run of all fixed and
    directed steps after a step of variable length; that step is neither rewritten
    as an expansion of exact length nor flipped by the plan, and the suffix takes
    the attachments of exactly those placements of the plan, in order, whose step is
    in the pattern of the expansion, from the first step of the suffix to its last. *)
Theorem BuildLoweringPlan_suffixes query att p d : BuildLoweringPlan query att = Done (inl p) -> d ∈ ExpansionSuffixPushdown p ->
  exists x, x ∈ parts_of query /\ suffix_of x d /\ untouched p (sx_Target d) /\
    sx_PredicateAttachments d = pl_Attachment <$> filter (fun y => place (pl_Target y) ∈ suffix_places d) (PredicatePlacement p).
Proof.
  intros Hb Hd. pose proof (build_planned query att) as H. rewrite Hb in H. destruct H as (p0 & Hp & Hf).
  rewrite (finishes_suffix _ _ Hf) in Hd. apply list_elem_of_fmap in Hd as (d0 & -> & Hd).
  pose proof (planned_suffixes _ _ (parts_of_in_order query) Hp) as Hall. rewrite Forall_forall in Hall.
  destruct (Hall d0 Hd) as (x & Hx & Hs & Hu & Ha). exists x. rewrite Ha. unfold untouched in *.
  rewrite (finishes_exact _ _ Hf), (finishes_direction _ _ Hf). split; [done|]. split; [done|]. split; [done|]. cbn.
  f_equal. apply list_filter_iff. intros y. destruct Hs as (part & step & Hs). symmetry. apply suffix_places_exact; apply Hs.
Qed.

(** The decision searches a shortest path step, and pairs of endpoints only from
    both ends. *)
Definition filter_of (x : source_part) (p : LoweringPlan) (d : ShortestPathFilterDecision) : Prop :=
  (exists part step, names_step x (sf_Target d) part step /\ is_shortest (Some part) = true) /\
  (sf_Mode d = ShortestPathFilterEndpointPair ->
   exists s, s ∈ ShortestPathStrategies p /\ ss_Target s = sf_Target d /\ ss_Strategy s = ShortestPathStrategyBidirectional).

(** A filter of the plan is on a step of a shortest path pattern, and a filter
    on pairs of endpoints is on a step that the same plan searches from both ends. *)
Theorem BuildLoweringPlan_filters query att p d : BuildLoweringPlan query att = Done (inl p) -> d ∈ ShortestPathFilter p ->
  exists x, x ∈ parts_of query /\ filter_of x p d.
Proof.
  intros Hb Hd. pose proof (build_planned query att) as H. rewrite Hb in H. destruct H as (p0 & Hp & Hf).
  rewrite (finishes_filter _ _ Hf) in Hd. unfold filter_of. rewrite (finishes_strategy _ _ Hf).
  destruct (planned_list ShortestPathFilter sf_Target (fun x => part_targets (part_index x) (part_clauses x))
    (fun x p d => filter_ok (part_clauses x) (ShortestPathStrategies p) d)) with (xs := parts_of query) (p := empty_plan) (p' := p0)
    as (ds & E & _ & Hq); [intros x refs p1 p2 _ Hx; apply (planned_filter _ _ _ _ _ _ Hx)| |apply parts_of_in_order|done|].
  - intros x xs p1 p2 e Ho Hp' _ _ [H1 H2]. split; [done|]. intros (s & Hs & H)%H2. exists s. split; [|done].
    destruct (planned_list ShortestPathStrategies ss_Target targets (fun _ _ _ => True)) with (xs := xs) (p := p1) (p' := p2)
      as (ds & E & _); [|done|done|done|rewrite E; set_solver].
    intros y refs q1 q2 _ Hy. eapply extends_any; [|apply (planned_strategy _ _ _ _ _ _ Hy)]. by apply sublist_inserts_r.
  - rewrite E in Hd. cbn in Hd. rewrite Forall_forall in Hq. destruct (Hq d Hd) as (x & Hx & Ht & (part & step & [Hs1 Hs2] & Hsp) & H2).
    exists x. split; [done|]. split; [|done]. destruct part as [part|]; [|done]. apply part_targets_elem in Ht as (Ht & Htp & _).
    exists part, step. unfold names_step. rewrite Htp. done.
Qed.

(** ** Failures *)

(** Planning fails with an error exactly when some part of the query cannot be
    walked, and the error is that of such a part; otherwise it returns a plan, or
    panics where the decision for the count store does. *)
Theorem BuildLoweringPlan_fails query att :
  match BuildLoweringPlan query att with
  | Done (inl _) => forall x, x ∈ parts_of query -> walkable (part_node x) = true
  | Done (inr e) => exists x, x ∈ parts_of query /\ walkable (part_node x) = false /\
      (collectReferencedSourceIdentifiers (Some (part_node x))).2 = Some e
  | Panic => countStoreFastPathDecision query = Panic /\ forall x, x ∈ parts_of query -> walkable (part_node x) = true
  | Spent => False
  end.
Proof.
  pose proof (build_planned query att) as H. destruct (BuildLoweringPlan query att) as [[p|e]| |]; [| | |done].
  - destruct H as (p0 & Hp & _). by eapply planned_walkable.
  - destruct H as (x & Hx & He). exists x. split_and!; [done| |done]. apply not_true_iff_false. rewrite <- references_error. unfold part_error in He.
    by rewrite He.
  - destruct H as [H1 H2]. split; [done|]. intros x Hx. apply references_error. by apply H2.
Qed.

(** ** The optimizer *)

(** What the optimizer relies on of a rule that has not failed: it leaves the analysis
    and the results of other rules to the optimizer, it says that it was applied when
    it has changed the query and does not say that it preserves the analysis then, the
    query that it leaves is not nil, a plan that owns its query still does, and when
    it is one of the rules that copy by themselves, it has not changed a query that
    the plan does not own. *)
Record keeps_promises (rule : Rule) (plan plan' : Plan) (applied : bool) : Prop := {
  kp_analysis : plan_Analysis plan' = plan_Analysis plan;
  kp_rules : plan_Rules plan' = plan_Rules plan;
  kp_query : applied = false \/ rulePreservesAnalysis rule = true -> plan_Query plan' = plan_Query plan;
  kp_some : is_Some (plan_Query plan) -> is_Some (plan_Query plan');
  kp_owned : plan_queryCopied plan = true -> plan_queryCopied plan' = true;
  kp_lazy : usesLazyCopy rule = Some true -> plan_queryCopied plan' = false -> plan_Query plan' = plan_Query plan;
}.

Definition trusted (rule : Rule) : Prop := forall plan plan' applied,
  Apply rule plan = Done (plan', inl applied) -> keeps_promises rule plan plan' applied.

Lemma EnsureMutable_query plan : plan_Query (Plan_EnsureMutable plan) = plan_Query plan.
Proof. unfold Plan_EnsureMutable. by destruct (_ && _). Qed.

Lemma EnsureMutable_rest plan :
  plan_Analysis (Plan_EnsureMutable plan) = plan_Analysis plan /\ plan_Rules (Plan_EnsureMutable plan) = plan_Rules plan /\
  plan_PredicateAttachments (Plan_EnsureMutable plan) = plan_PredicateAttachments plan /\
  (plan_queryCopied plan = true -> plan_queryCopied (Plan_EnsureMutable plan) = true) /\
  (is_Some (plan_Query plan) -> plan_queryCopied (Plan_EnsureMutable plan) = true).
Proof.
  unfold Plan_EnsureMutable. destruct (plan_queryCopied plan) eqn:E; cbn; [by split_and!|].
  case_bool_decide; cbn; split_and!; done.
Qed.

(** A rule that rewrites the query of a plan after it has made it its own. *)
Lemma rewrites_trusted rule (would : Plan -> bool) (rewrite : Plan -> RegularQuery * bool) :
  Apply rule = succeeds (fun plan => if would plan then
    let plan := Plan_EnsureMutable plan in let '(query, applied) := rewrite plan in (set_query plan query, applied) else (plan, false)) ->
  preservesAnalysis rule = None ->
  (forall plan, is_Some (plan_Query plan) -> is_Some (rewrite plan).1) ->
  (forall plan, would plan = true -> is_Some (plan_Query plan) /\ (rewrite (Plan_EnsureMutable plan)).2 = true) ->
  trusted rule.
Proof.
  intros Ha Hp Hsome Hw plan plan' applied. rewrite Ha. unfold succeeds. destruct (would plan) eqn:E.
  - destruct (Hw plan E) as [Hs Hb]. destruct (EnsureMutable_rest plan) as (H1 & H2 & H3 & H4 & H5).
    pose proof (Hsome (Plan_EnsureMutable plan)) as Hs'. rewrite EnsureMutable_query in Hs'.
    destruct (rewrite (Plan_EnsureMutable plan)) as [query b]. cbn in *. subst b. intros [= <- <-]. split; cbn; try done.
    + intros [?|Hr]; [done|]. unfold rulePreservesAnalysis in Hr. by rewrite Hp in Hr.
    + intros _. by rewrite H5.
  - intros [= <- <-]. by split.
Qed.

Lemma default_rules_trusted : Forall trusted DefaultRules.
Proof.
  unfold DefaultRules. rewrite !Forall_cons, Forall_nil. split_and!; [| | |done].
  - eapply (rewrites_trusted _ (fun plan => queryWouldReorder clause_score (plan_Query plan) (plan_Analysis plan))
      (fun plan => reorder_query clause_score (plan_Query plan) (plan_Analysis plan))); [reflexivity|done| |].
    + intros plan [q Hq]. unfold reorder_query. rewrite Hq. cbn. repeat case_match; cbn; by eexists.
    + intros plan Hw. split.
      * destruct (plan_Query plan); [by eexists|done].
      * destruct (EnsureMutable_rest plan) as (H1 & _). rewrite EnsureMutable_query, H1.
        destruct (reorder_query_would clause_score (plan_Query plan) (plan_Analysis plan)) as [H _]. by rewrite H.
  - eapply (rewrites_trusted _ (fun plan => queryWouldReverseInboundTraversal (plan_Query plan))
      (fun plan => reverse_query (plan_Query plan))); [reflexivity|done| |].
    + intros plan [q Hq]. unfold reverse_query. rewrite Hq. cbn. repeat case_match; cbn; by eexists.
    + intros plan Hw. split.
      * destruct (plan_Query plan); [by eexists|done].
      * rewrite EnsureMutable_query. destruct (query_exact (plan_Query plan)) as [H _]. by rewrite H.
  - intros plan plan' applied [= <- <-]. by split.
Qed.

(** What holds of the plan while the rules run. *)
Record coherent (query : RegularQuery) (copied : bool) (rules : list Rule) (plan : Plan) : Prop := {
  coherent_analysis : plan_Analysis plan = Analyze (plan_Query plan);
  coherent_rules : rr_Name <$> plan_Rules plan = Name <$> rules;
  coherent_attachments : last rules = Some PredicateAttachmentRule ->
    plan_PredicateAttachments plan = AttachPredicates (Analyze (plan_Query plan));
  coherent_query : Forall2 (fun rule r => rr_Applied r = true -> rulePreservesAnalysis rule = true) rules (plan_Rules plan) ->
    plan_Query plan = query;
  coherent_some : is_Some (plan_Query plan);
  coherent_owned : copied = true -> plan_queryCopied plan = true;
  coherent_borrowed : plan_queryCopied plan = false -> plan_Query plan = query;
}.

(** The plan that a rule is given. *)
Lemma given_coherent query copied rules plan rule : coherent query copied rules plan ->
  let given := if default false (usesLazyCopy rule) then plan else Plan_EnsureMutable plan in
  coherent query copied rules given /\ plan_Rules given = plan_Rules plan /\
  (usesLazyCopy rule = Some true \/ plan_queryCopied given = true).
Proof.
  intros Hc. assert (He : coherent query copied rules (Plan_EnsureMutable plan) /\ plan_Rules (Plan_EnsureMutable plan) = plan_Rules plan /\
    (usesLazyCopy rule = Some true \/ plan_queryCopied (Plan_EnsureMutable plan) = true)).
  { destruct Hc as [H1 H2 H3 H4 H5 H6 H7], (EnsureMutable_rest plan) as (E1 & E2 & E3 & E4 & E5).
    split_and!; [|done|right; by apply E5]. split; rewrite ?EnsureMutable_query, ?E1, ?E2, ?E3; try done.
    - intros Hf. by apply E4, H6.
    - intros Hf. by rewrite E5 in Hf. }
  intros given. subst given. destruct (usesLazyCopy rule) as [[]|]; [|exact He..]. split_and!; [done|done|by left].
Qed.

Lemma run_rule_coherent query copied rules plan rule plan' : trusted rule -> coherent query copied rules plan ->
  run_rule rule plan = Done (inl plan') -> coherent query copied (rules ++ [rule]) plan'.
Proof.
  intros Ht Hc. unfold run_rule. destruct (given_coherent _ _ _ _ rule Hc) as (Hg & Hrules & Hl).
  destruct (if default false (usesLazyCopy rule) then plan else Plan_EnsureMutable plan) as [gq ga gl gr gp gc] eqn:Eg. clear Hc.
  assert (Hat : rule = PredicateAttachmentRule -> Apply rule (mkPlan gq ga gl gr gp gc) =
    Done (set_attachments (mkPlan gq ga gl gr gp gc) (AttachPredicates ga), inl (negb (none (AttachPredicates ga))))) by (by intros ->).
  destruct (Apply rule _) as [[p r]| |] eqn:Ea; [|done..]. cbn. destruct r as [applied|err]; [|done]. intros [= <-].
  destruct (Ht _ _ _ Ea) as [K1 K2 K3 K4 K5 K6]. destruct Hg as [H1 H2 H3 H4 H5 H6 H7]. cbn in *. split; cbn.
  - destruct applied, (rulePreservesAnalysis rule); cbn; try done; rewrite K3, K1, H1 by tauto; done.
  - by rewrite K2, !fmap_app, H2.
  - rewrite last_snoc. intros [= ->]. specialize (Hat eq_refl). injection Hat as -> _. cbn. by rewrite H1.
  - rewrite K2. intros (Hall & Hlast)%Forall2_app_inv; [|rewrite <- (length_fmap Name), <- H2; by rewrite length_fmap].
    apply Forall2_cons in Hlast as [Hlast _]. cbn in Hlast. rewrite K3; [by apply H4|]. destruct applied; [right; by apply Hlast|by left].
  - by apply K4.
  - intros Hcp. by apply K5, H6.
  - intros Hno. destruct Hl as [Hl|Hl]; [|by rewrite (K5 Hl) in Hno]. rewrite (K6 Hl Hno). apply H7.
    destruct gc; [|done]. by rewrite K5 in Hno.
Qed.

Lemma run_rules_coherent query copied rules : Forall trusted rules -> forall before plan plan', coherent query copied before plan ->
  run_rules rules plan = Done (inl plan') -> coherent query copied (before ++ rules) plan'.
Proof.
  induction 1 as [|rule rules Ht _ IH]; intros before plan plan' Hc; cbn [run_rules]; [intros [= <-]; by rewrite app_nil_r|].
  destruct (run_rule rule plan) as [[p|e]| |] eqn:E; cbn; try done. intros Hrun.
  replace (before ++ rule :: rules) with ((before ++ [rule]) ++ rules) by by rewrite <- app_assoc.
  eapply IH; [|exact Hrun]. by eapply run_rule_coherent.
Qed.

(** [C31] The plan that the optimizer returns for a query that is not nil, with any
    rules that keep the promises of [trusted], as the three default rules do.  Its
    analysis is that of the query it returns; there is one result for each rule, in
    their order; when the last rule is [PredicateAttachmentRule], as it is by default,
    the attachments are those of the query returned, and nothing is said of them
    otherwise; the query is the given one unless a rule that does not preserve the
    analysis says that it was applied, and also when the plan does not own its query,
    so that a borrowed query is never changed; a query that was copied before is
    owned; and the lowerings are those of the query and the attachments returned. *)
Theorem Optimizer_optimize_coherent :
  Forall trusted DefaultRules /\
  forall rules query copied plan, is_Some query -> Forall trusted rules -> Optimizer_optimize rules query copied = Done (inl plan) ->
    coherent query copied rules plan /\
    BuildLoweringPlan (plan_Query plan) (plan_PredicateAttachments plan) = Done (inl (plan_LoweringPlan plan)).
Proof.
  split; [apply default_rules_trusted|]. intros rules query copied plan [q ->] Ht. unfold Optimizer_optimize.
  destruct (run_rules rules _) as [[p|e]| |] eqn:E; cbn; try done.
  apply (run_rules_coherent (Some q) copied rules Ht []) in E; [|split; cbn; try done; by eexists].
  destruct (BuildLoweringPlan _ _) as [[lp|e]| |] eqn:Hb; cbn; try done. intros [= <-]. split; [|done]. by destruct E.
Qed.

(** ** The translator finds the targets of the plan *)

Section entries.
Context {K : Type} `{Countable K} {T : Type}.

(** A map that is filled one entry after the other. *)
Definition put (m : gmap K T) (kv : K * T) : gmap K T := <[kv.1 := kv.2]> m.

Lemma puts_lookup (l : list (K * T)) k t : NoDup l.*1 -> foldl put ∅ l !! k = Some t <-> (k, t) ∈ l.
Proof using Type.
  intros Hn. rewrite (elem_of_list_to_map (M := gmap K) l k t Hn). assert (Hall : forall m, NoDup l.*1 -> foldl put m l = list_to_map l ∪ m);
    [|by rewrite (Hall ∅ Hn), (right_id_L ∅ (∪))]. clear Hn. induction l as [|[k' t'] l IH]; intros m Hn; cbn; [by rewrite (left_id_L ∅ (∪))|]. apply NoDup_cons in Hn as [Hk Hn].
  rewrite (IH _ Hn). unfold put. cbn [fst snd]. rewrite <- insert_union_l. rewrite insert_union_r; [done|]. by apply not_elem_of_list_to_map.
Qed.

Lemma foldi_puts {A} (f : nat -> A -> gmap K T -> gmap K T) (g : nat -> A -> list (K * T)) l m :
  (forall i a m, f i a m = foldl put m (g i a)) -> foldi f l m = foldl put m (concat (imap g l)).
Proof using Type.
  intros Hf. unfold foldi. assert (Hall : forall l k m, foldl (fun s p => f p.1 p.2 s) m (imap (fun i a => (k + i, a)) l) =
    foldl put m (concat (imap (fun i => g (k + i)) l))).
  { clear m l. induction l as [|a l IH]; intros k m; [done|]. rewrite foldi_imap, IH, Hf. cbn [imap concat]. rewrite Nat.add_0_r, foldl_app.
    f_equal. f_equal. apply imap_ext. intros i x _. cbn. by rewrite Nat.add_succ_r. }
  apply (Hall l 0 m).
Qed.

Lemma each_query_part_puts (f : nat -> SyntaxNode -> list (option ReadingClause) -> gmap K T -> gmap K T) (g : source_part -> list (K * T)) query :
  (forall k n cs m, f k n cs m = foldl put m (g (mkPart k n cs))) -> each_query_part f query ∅ = foldl put ∅ (concat (g <$> parts_of query)).
Proof using Type.
  intros Hf. unfold each_query_part, parts_of, query_parts. destruct (mjoin query) as [q|]; [|done].
  destruct (sq_MultiPartQuery q) as [multi|]; [|destruct (sq_SinglePartQuery q); [|done]; rewrite Hf; cbn; by rewrite app_nil_r].
  rewrite (foldi_puts _ (fun k part => match part with Some part => g (mkPart k (NMultiPartQueryPart part) (mp_ReadingClauses part)) | None => [] end))
    by (intros k [part|] m; [apply Hf|done]).
  assert (Hm : forall parts k, concat (imap (fun i part => match part with
    | Some part => g (mkPart (k + i) (NMultiPartQueryPart part) (mp_ReadingClauses part)) | None => [] end) parts) = concat (g <$> multi_parts k parts)).
  { induction parts as [|[part|] parts IH]; intros k; [done| |]; cbn [imap concat multi_parts fmap list_fmap].
    - rewrite Nat.add_0_r, <- IH. do 2 f_equal. apply imap_ext. intros i [] _; cbn; by rewrite ?Nat.add_succ_r.
    - rewrite <- IH. cbn. f_equal. apply imap_ext. intros i [] _; cbn; by rewrite ?Nat.add_succ_r. }
  specialize (Hm (mq_Parts multi) 0). cbn [Nat.add] in Hm. rewrite Hm, fmap_app, concat_app, foldl_app.
  destruct (mq_SinglePartQuery multi) as [s|]; cbn; [|done]. by rewrite Hf, app_nil_r.
Qed.
End entries.

(** The patterns of the matches of a part, optional ones too, and its pattern
    predicates. *)
Definition pattern_entries (x : source_part) : list (option nat * PatternTarget) :=
  concat (imap (fun c clause =>
    match clause ≫= clause_Match with
    | None => []
    | Some m => imap (fun i part => (pp_addr <$> part, clause_target (part_index x) c i)) (match_Pattern m)
    end) (part_clauses x)).

Definition predicate_entries (x : source_part) : list (nat * PatternTarget) :=
  (fun p => (pred_addr (ip_Predicate p), predicate_target (part_index x) p)) <$> part_predicates x.

(** The translator finds for the address of a pattern, or of a pattern
    predicate, exactly the target under which the planner decides on it: the maps
    that it looks into have one entry for each pattern of a match and for each
    predicate of the query, with the indices of its part, clause and pattern.
    Patterns and predicates have addresses of their own. *)
Theorem indexed_targets_exact query :
  NoDup (concat (pattern_entries <$> parts_of query)).*1 -> NoDup (concat (predicate_entries <$> parts_of query)).*1 ->
  (forall k t, IndexPatternTargets query !! k = Some t <-> (k, t) ∈ concat (pattern_entries <$> parts_of query)) /\
  (forall k t, IndexPatternPredicateTargets query !! k = Some t <-> (k, t) ∈ concat (predicate_entries <$> parts_of query)).
Proof.
  intros H1 H2. split; intros k t.
  - unfold IndexPatternTargets. rewrite (each_query_part_puts _ pattern_entries); [by apply puts_lookup|].
    intros q n cs m. unfold indexReadingClauseTargets, pattern_entries. apply foldi_puts. intros c [clause|] m'; [|done]. cbn.
    destruct (clause_Match clause) as [mt|]; [|done]. rewrite (foldi_puts _ (fun i part => [(pp_addr <$> part, clause_target q c i)])) by done.
    f_equal. generalize (match_Pattern mt). intros l. assert (Hs : forall l k, concat (imap (fun i (part : option (PatternPart Expression)) =>
      [(pp_addr <$> part, clause_target q c (k + i))]) l) = imap (fun i part => (pp_addr <$> part, clause_target q c (k + i))) l).
    { clear. induction l as [|a l IH]; intros k; [done|]. cbn. f_equal. specialize (IH (S k)). cbn in IH.
      transitivity (concat (imap (fun i (part : option (PatternPart Expression)) => [(pp_addr <$> part, clause_target q c (S (k + i)))]) l)).
      - f_equal. apply imap_ext. intros i x _. cbn. by rewrite Nat.add_succ_r.
      - rewrite IH. apply imap_ext. intros i x _. cbn. by rewrite Nat.add_succ_r. }
    apply (Hs l 0).
  - unfold IndexPatternPredicateTargets. rewrite (each_query_part_puts _ predicate_entries); [by apply puts_lookup|].
    intros q n cs m. unfold indexQueryPartPatternPredicateTargets, predicate_entries. cbn [part_index part_predicates part_node].
    unfold part_predicates. cbn [part_node]. generalize (indexedPatternPredicatesInQueryPart n). intros l. revert m.
    induction l as [|p l IH]; intros m; [done|]. cbn. apply IH.
Qed.

(** *** A query

    [MATCH (s)-[*]->(g)-[]->(d) WHERE d.name = 'x' AND (g)-[]->()
     MATCH shortestPath((a)-[*]->(b)) WHERE a.name = 'x' AND b.name = 'x'
     RETURN s, b] *)

Definition demo_term (v : string) : option Expression :=
  Some (EComparison (Some (EPropertyLookup (Some (EVariable v)) "name")) [(OperatorEquals, Some (ELiteral (StringValue "x") false))]).

Definition demo_any : option PatternRange := Some (mkPatternRange None None).

Definition demo_matching (addr : nat) (shortest : bool) (elements : list (option (PatternElement Expression))) (terms : list (option Expression))
    : option ReadingClause :=
  Some (mkReadingClause addr (Some (mkMatch false [Some (mkPatternPart (10 + addr) None shortest false elements false)]
    (Some [Some (EConjunction terms)]))) None).

Definition demo_query : RegularQuery :=
  Some (Some (mkSingleQuery (Some (mkSinglePartQuery
    [demo_matching 1 false
       [demo_end "s" None; demo_relationship demo_any DirectionOutbound; demo_end "g" None; demo_relationship None DirectionOutbound; demo_end "d" None]
       [demo_term "d"; Some (EPatternPredicate 20 [demo_end "g" None; demo_relationship None DirectionOutbound; Some (NodeElement (mkNodePattern None [] None))])];
     demo_matching 2 true [demo_end "a" None; demo_relationship demo_any DirectionOutbound; demo_end "b" None] [demo_term "a"; demo_term "b"]]
    [] (Some (mkReturn (Some (mkProjection false false None None None
      [Some (EProjectionItem (Some (EVariable "s")) None); Some (EProjectionItem (Some (EVariable "b")) None)])))))) None)).

Definition demo_attachments : list PredicateAttachment := AttachPredicates (Analyze demo_query).

Definition demo_plan : LoweringPlan :=
  match BuildLoweringPlan demo_query demo_attachments with Done (inl p) => p | _ => empty_plan end.

Lemma BuildLoweringPlan_targets_witness :
  length (ProjectionPruning demo_plan) = 4 /\ NoDup (concat (targets <$> parts_of demo_query)) /\
  Forall (fun l => l `sublist_of` concat (targets <$> parts_of demo_query) /\ NoDup l) (step_lists demo_plan).
Proof. split; [vm_compute; reflexivity|]. apply (BuildLoweringPlan_targets demo_query demo_attachments demo_plan). vm_compute. reflexivity. Defined.


Lemma BuildLoweringPlan_suffixes_witness :
  exists d, ExpansionSuffixPushdown demo_plan = [d] /\ sx_SuffixLength d = 1 /\
    exists x, x ∈ parts_of demo_query /\ suffix_of x d /\ untouched demo_plan (sx_Target d) /\
    sx_PredicateAttachments d = pl_Attachment <$> filter (fun y => place (pl_Target y) ∈ suffix_places d) (PredicatePlacement demo_plan).
Proof.
  eexists. split; [vm_compute; reflexivity|]. split; [reflexivity|].
  apply (BuildLoweringPlan_suffixes demo_query demo_attachments demo_plan); [vm_compute; reflexivity|].
  apply (list_elem_of_lookup_2 _ 0). vm_compute. reflexivity.
Defined.

Lemma BuildLoweringPlan_filters_witness :
  exists d, ShortestPathFilter demo_plan = [d] /\ sf_Mode d = ShortestPathFilterEndpointPair /\
    exists x, x ∈ parts_of demo_query /\ filter_of x demo_plan d.
Proof.
  eexists. split; [vm_compute; reflexivity|]. split; [reflexivity|].
  apply (BuildLoweringPlan_filters demo_query demo_attachments demo_plan); [vm_compute; reflexivity|].
  apply (list_elem_of_lookup_2 _ 0). vm_compute. reflexivity.
Defined.

Definition demo_result : Plan := match Optimize demo_query with Done (inl p) => p | _ => empty_result end.

Lemma Optimizer_optimize_coherent_witness :
  coherent demo_query true DefaultRules demo_result /\
  BuildLoweringPlan (plan_Query demo_result) (plan_PredicateAttachments demo_result) = Done (inl (plan_LoweringPlan demo_result)).
Proof.
  destruct Optimizer_optimize_coherent as [Ht Hall]. apply (Hall DefaultRules demo_query true demo_result); [by eexists|exact Ht|].
  vm_compute. reflexivity.
Defined.

Lemma indexed_targets_exact_witness :
  IndexPatternTargets demo_query !! Some 12 = Some (clause_target 0 1 0) /\
  forall t, IndexPatternPredicateTargets demo_query !! 20 = Some t -> pt_Predicate t = true.
Proof.
  destruct (indexed_targets_exact demo_query) as [H1 H2]; [apply (bool_decide_unpack _); vm_compute; exact I|apply (bool_decide_unpack _); vm_compute; exact I|]. split.
  - apply H1, (list_elem_of_lookup_2 _ 1). vm_compute. reflexivity.
  - intros t Ht%H2. vm_compute in Ht. apply list_elem_of_singleton in Ht. by injection Ht as ->.
Defined.

(** ** A node that is pruned although it is needed

    [MATCH (n)-[r]->(m) REMOVE n:Kind]: the walk does not enter the kind matcher of a
    [REMOVE] item, so [n] is not referenced, and the plan omits the node whose kinds
    the clause removes. *)

Definition remove_kind : RegularQuery :=
  Some (Some (mkSingleQuery (Some (mkSinglePartQuery
    [Some (mkReadingClause 1 (Some (mkMatch false [Some (mkPatternPart 11 None false false
       [demo_end "n" None; demo_relationship None DirectionOutbound; demo_end "m" None] false)] None)) None)]
    [Some (Remove [Some (mkRemoveItem (Some (Some (EVariable "n"), [Some "Kind"])) None)])] None)) None)).

Theorem removed_kind_pruned :
  exists p d, BuildLoweringPlan remove_kind (AttachPredicates (Analyze remove_kind)) = Done (inl p) /\
    ProjectionPruning p = [d] /\ pd_OmitLeftNode d = true /\ pd_ReferencedSymbols d = [].
Proof. eexists _, _. split; [vm_compute; reflexivity|]. split; [reflexivity|]. split; reflexivity. Qed.

(** The same of a symbol that is used in a map literal only:
    [MATCH (n)-[r]->(m) RETURN {name: n.name}]. *)
Definition return_map : RegularQuery :=
  Some (Some (mkSingleQuery (Some (mkSinglePartQuery
    [Some (mkReadingClause 1 (Some (mkMatch false [Some (mkPatternPart 11 None false false
       [demo_end "n" None; demo_relationship None DirectionOutbound; demo_end "m" None] false)] None)) None)]
    [] (Some (mkReturn (Some (mkProjection false false None None None
      [Some (EProjectionItem (Some (EMapLiteral [("name", Some (EPropertyLookup (Some (EVariable "n")) "name"))])) None)])))))) None)).

Theorem map_literal_pruned :
  exists p d, BuildLoweringPlan return_map (AttachPredicates (Analyze return_map)) = Done (inl p) /\
    ProjectionPruning p = [d] /\ pd_OmitLeftNode d = true /\ pd_ReferencedSymbols d = [].
Proof. eexists _, _. split; [vm_compute; reflexivity|]. split; [reflexivity|]. split; reflexivity. Qed.

(** ** Patterns that are nil *)

Lemma part_node_clauses q x : x ∈ query_parts q -> query_part_clauses (part_node x) = part_clauses x.
Proof.
  assert (Hm : forall parts k, x ∈ multi_parts k parts -> query_part_clauses (part_node x) = part_clauses x).
  { induction parts as [|[part|] parts IH]; intros k Hx; cbn in Hx; [set_solver| |by eapply IH].
    apply elem_of_cons in Hx as [->|Hx]; [done|by eapply IH]. }
  unfold query_parts. destruct (sq_MultiPartQuery q) as [m|].
  - intros [Hx|Hx]%elem_of_app; [by eapply Hm|]. destruct (mq_SinglePartQuery m); cbn in Hx; [|set_solver].
    by apply list_elem_of_singleton in Hx as ->.
  - destruct (sq_SinglePartQuery q); [|set_solver]. by intros ->%list_elem_of_singleton.
Qed.

(** A part with a nil pattern cannot be walked, so it is rejected before the
    decisions that read the variable of its patterns. *)
Lemma nil_part_rejected q x c i : x ∈ query_parts q -> pattern_at (part_clauses x) c i None -> walkable (part_node x) = false.
Proof.
  intros Hx (clause & m & Hc & Hm & _ & Hp). apply not_true_iff_false. intros Hw. destruct (query_part_walkable _ Hw) as [Hcs _].
  rewrite (part_node_clauses q x Hx) in Hcs. destruct clause as [[a mt u]|]; [|done]. cbn in Hm. subst mt.
  specialize (Hcs (Some (mkReadingClause a (Some m) u)) ltac:(by eapply list_elem_of_lookup_2)). cbn [element] in Hcs.
  destruct (walkable_branches _ Hcs) as (bs & Hb & Hall). injection Hb as Hb.
  assert (Hmw : walkable (NMatch m) = true) by (apply Hall; rewrite <- Hb; by left).
  destruct (walkable_branches _ Hmw) as (bs' & Hb' & Hall'). injection Hb' as Hb'.
  assert (Hin : NNil "*cypher.PatternPart" ∈ bs'); [|by apply Hall' in Hin]. rewrite <- Hb'. apply elem_of_app. left.
  apply list_elem_of_fmap. exists None. split; [done|]. by eapply list_elem_of_lookup_2.
Qed.
