(* ===== verification/Scope.v ===== *)
(** * Identifiers and scopes of the translator
      (cypher/models/pgsql/identifiers.go, translate/tracking.go)

    A scope holds the identifiers a query defines and a stack of frames that say
    which of them can be referred to.  Frames, bindings and the identifier
    generator are shared through pointers: a snapshot of a scope has its own
    definitions, but the frames and the generator of the original.  They live in a
    [heap] by address; identifier sets are owned by one frame each and are
    values. *)

From S2P Require Import Prelude Framing Kinds Mapper DataTypes.
From stdpp Require Import finite.
From Stdlib Require Import Ascii.

(** ** Identifier sets *)

Notation IdentifierSet := (gset string).

Definition AsIdentifierSet (identifiers : list string) : IdentifierSet :=
  foldl (fun s identifier => {[identifier]} ∪ s) ∅ identifiers.

Definition IdentifierSet_Add (s : IdentifierSet) (identifiers : list string) : IdentifierSet :=
  foldl (fun s identifier => if bool_decide (identifier ∈ s) then s else {[identifier]} ∪ s) s identifiers.

Definition IdentifierSet_CheckedAdd (s : IdentifierSet) (identifier : string) : IdentifierSet * bool :=
  if bool_decide (identifier ∈ s) then (s, false) else ({[identifier]} ∪ s, true).

Definition IdentifierSet_Remove (s : IdentifierSet) (others : list string) : IdentifierSet :=
  foldl (fun s identifier => s ∖ {[identifier]}) s others.

Definition IdentifierSet_RemoveSet (s other : IdentifierSet) : IdentifierSet := s ∖ other.

Definition IdentifierSet_MergeSet (s other : IdentifierSet) : IdentifierSet := s ∪ other.

Definition IdentifierSet_Slice (s : IdentifierSet) : list string := merge_sort String.le (elements s).

(** The identifiers of [other] are all in [s]; the range may stop at any of
    those that are not. *)
Definition IdentifierSet_Satisfies (s other : IdentifierSet) : bool :=
  forallb (fun identifier => bool_decide (identifier ∈ s)) (elements other).

Definition IdentifierSet_Matches (s other : IdentifierSet) : bool :=
  (size s =? size other) && IdentifierSet_Satisfies s other.

(** ** The identifier generator *)

Notation IdentifierGenerator := (gmap DataType Z).

(** The class of a data type, under which its identifiers are counted, and
    their prefix. *)
Definition identifier_class (dataType : DataType) : DataType * string :=
  match dataType with
  | ExpansionPattern => (ExpansionPattern, "ex")
  | ExpansionPath => (ExpansionPath, "ep")
  | PathComposite => (PathComposite, "pc")
  | NodeComposite => (NodeComposite, "n")
  | EdgeComposite => (EdgeComposite, "e")
  | PathEdge => (EdgeComposite, "e")
  | Scope => (Scope, "s")
  | ParameterIdentifier => (ParameterIdentifier, "pi")
  | _ => (UnknownDataType, "i")
  end.

(** A counter is an [int]; it is bounded by the number of calls. *)
Definition IdentifierGenerator_NewIdentifier (s : IdentifierGenerator) (dataType : DataType) : IdentifierGenerator * string :=
  let '(class, prefixStr) := identifier_class dataType in
  let nextID := default 0%Z (s !! class) in
  (<[class := wrap tint64 (nextID + 1)]> s, prefixStr +:+ pretty nextID).

(** ** Frames, bindings, scopes *)

Record Frame := mkFrame {
  fr_id : Z;
  fr_Previous : option nat;
  fr_Binding : option nat;
  fr_Visible : IdentifierSet;
  fr_stashedVisible : IdentifierSet;
  fr_Exported : IdentifierSet;
  fr_stashedExported : IdentifierSet;
  fr_Synthetic : bool;
}.

Record BoundIdentifier := mkBound {
  bi_Identifier : string;
  bi_Alias : option string;
  bi_Parameter : option nat;
  bi_LastProjection : option nat;
  bi_Dependencies : list (option nat);
  bi_DataType : DataType;
  bi_PathDirectionReversed : bool;
}.

Record heap := mkHeap {
  h_frames : list Frame;
  h_bindings : list BoundIdentifier;
  h_generators : list IdentifierGenerator;
}.

Record scope := mkScope {
  sc_nextFrameID : Z;
  sc_stack : list nat;
  sc_generator : nat;
  sc_aliases : gmap string string;
  sc_definitions : gmap string nat;
}.

Definition set_frames (h : heap) (fs : list Frame) : heap := mkHeap fs (h_bindings h) (h_generators h).
Definition set_bindings (h : heap) (bs : list BoundIdentifier) : heap := mkHeap (h_frames h) bs (h_generators h).
Definition set_generators (h : heap) (gs : list IdentifierGenerator) : heap := mkHeap (h_frames h) (h_bindings h) gs.

Definition get_frame (h : heap) (a : nat) : outcome Frame := slice_get (h_frames h) (Z.of_nat a).
Definition get_binding (h : heap) (a : nat) : outcome BoundIdentifier := slice_get (h_bindings h) (Z.of_nat a).

(** A method on a pointer that is nil panics when it reads a field. *)
Definition not_nil {A} (o : option A) : outcome A := match o with Some a => Done a | None => Panic end.

Definition update_frame (h : heap) (a : nat) (f : Frame -> Frame) : outcome heap :=
  frame ← get_frame h a;
  Done (set_frames h (<[a := f frame]> (h_frames h))).

Definition update_binding (h : heap) (a : nat) (f : BoundIdentifier -> BoundIdentifier) : outcome heap :=
  binding ← get_binding h a;
  Done (set_bindings h (<[a := f binding]> (h_bindings h))).

(** *** Frames *)

Definition with_sets (s : Frame) (visible stashedVisible exported stashedExported : IdentifierSet) : Frame :=
  mkFrame (fr_id s) (fr_Previous s) (fr_Binding s) visible stashedVisible exported stashedExported (fr_Synthetic s).

Definition Frame_RestoreStashed (s : Frame) : Frame :=
  with_sets s (IdentifierSet_MergeSet (fr_Visible s) (fr_stashedVisible s)) (fr_stashedVisible s)
    (IdentifierSet_MergeSet (fr_Exported s) (fr_stashedExported s)) (fr_stashedExported s).

Definition Frame_Known (s : Frame) : IdentifierSet := IdentifierSet_MergeSet (fr_Visible s) (fr_Exported s).

Definition Frame_Unexport (s : Frame) (identifier : string) : Frame :=
  with_sets s (fr_Visible s) (fr_stashedVisible s) (IdentifierSet_Remove (fr_Exported s) [identifier]) (fr_stashedExported s).

Definition Frame_Export (s : Frame) (identifier : string) : Frame :=
  with_sets s (fr_Visible s) (fr_stashedVisible s) (IdentifierSet_Add (fr_Exported s) [identifier]) (fr_stashedExported s).

Definition Frame_Reveal (s : Frame) (identifier : string) : Frame :=
  with_sets s (IdentifierSet_Add (fr_Visible s) [identifier]) (fr_stashedVisible s) (fr_Exported s) (fr_stashedExported s).

Definition Frame_Stash (s : Frame) (identifier : string) : Frame :=
  let s1 :=
    if bool_decide (identifier ∈ fr_Exported s) then
      with_sets s (fr_Visible s) (fr_stashedVisible s)
        (IdentifierSet_Remove (fr_Exported s) [identifier]) (IdentifierSet_Add (fr_stashedExported s) [identifier])
    else s in
  if bool_decide (identifier ∈ fr_Visible s1) then
    with_sets s1 (IdentifierSet_Remove (fr_Visible s1) [identifier]) (IdentifierSet_Add (fr_stashedVisible s1) [identifier])
      (fr_Exported s1) (fr_stashedExported s1)
  else s1.

(** *** Bindings *)

Definition BoundIdentifier_Copy (s : BoundIdentifier) : BoundIdentifier := s.

Definition BoundIdentifier_MaterializedBy (s : BoundIdentifier) (frame : option nat) : BoundIdentifier :=
  mkBound (bi_Identifier s) (bi_Alias s) (bi_Parameter s) frame (bi_Dependencies s) (bi_DataType s) (bi_PathDirectionReversed s).

Definition BoundIdentifier_Dematerialize (s : BoundIdentifier) : BoundIdentifier :=
  mkBound (bi_Identifier s) (bi_Alias s) (bi_Parameter s) None [] (bi_DataType s) (bi_PathDirectionReversed s).

Definition BoundIdentifier_Aliased (s : BoundIdentifier) : string := default (bi_Identifier s) (bi_Alias s).

Definition with_dependencies (s : BoundIdentifier) (deps : list (option nat)) : BoundIdentifier :=
  mkBound (bi_Identifier s) (bi_Alias s) (bi_Parameter s) (bi_LastProjection s) deps (bi_DataType s) (bi_PathDirectionReversed s).

Definition BoundIdentifier_DependOn (s : BoundIdentifier) (other : option nat) : BoundIdentifier :=
  with_dependencies s (bi_Dependencies s ++ [other]).

(** *** Scopes *)

Definition NewScope (h : heap) : heap * scope :=
  (set_generators h (h_generators h ++ [∅]), mkScope 0 [] (length (h_generators h)) ∅ ∅).

Definition Scope_FrameAt (s : scope) (depth : nat) : option nat :=
  if length (sc_stack s) <=? depth then None else sc_stack s !! (length (sc_stack s) - depth - 1).

Definition Scope_PreviousFrame (s : scope) : option nat := Scope_FrameAt s 1.
Definition Scope_CurrentFrame (s : scope) : option nat := Scope_FrameAt s 0.

Definition Scope_ReferenceFrame (s : scope) : option nat :=
  match Scope_PreviousFrame s with Some f => Some f | None => Scope_CurrentFrame s end.

Definition with_stack (s : scope) (stack : list nat) : scope :=
  mkScope (sc_nextFrameID s) stack (sc_generator s) (sc_aliases s) (sc_definitions s).

(** [None] is the error of the Go function. *)
Definition Scope_PopFrame (s : scope) : option scope :=
  if length (sc_stack s) <=? 0 then None else Some (with_stack s (take (length (sc_stack s) - 1) (sc_stack s))).

(** The loop from the top of the stack; [n] is [idx + 1]. *)
Fixpoint unwind_loop (h : heap) (s : scope) (id : Z) (n : nat) : outcome (option scope) :=
  match n with
  | O => Done None
  | S idx =>
      a ← slice_get (sc_stack s) (Z.of_nat idx);
      f ← get_frame h a;
      if (fr_id f =? id)%Z then Done (Some (with_stack s (take (S idx) (sc_stack s))))
      else unwind_loop h s id idx
  end.

Definition Scope_UnwindToFrame (h : heap) (s : scope) (frame : option nat) : outcome (option scope) :=
  a ← not_nil frame;
  f ← get_frame h a;
  unwind_loop h s (fr_id f) (length (sc_stack s)).

Definition Scope_Define (h : heap) (s : scope) (identifier : string) (dataType : DataType) : heap * scope * nat :=
  let a := length (h_bindings h) in
  (set_bindings h (h_bindings h ++ [mkBound identifier None None None [] dataType false]),
   mkScope (sc_nextFrameID s) (sc_stack s) (sc_generator s) (sc_aliases s) (<[identifier := a]> (sc_definitions s)), a).

Definition Scope_DefineNew (h : heap) (s : scope) (dataType : DataType) : outcome (heap * scope * nat) :=
  g ← slice_get (h_generators h) (Z.of_nat (sc_generator s));
  let '(g', identifier) := IdentifierGenerator_NewIdentifier g dataType in
  Done (Scope_Define (set_generators h (<[sc_generator s := g']> (h_generators h))) s identifier dataType).

Definition Scope_PushFrame (h : heap) (s : scope) : outcome (heap * scope * nat) :=
  let id := sc_nextFrameID s in
  let s0 := mkScope (wrap tint64 (id + 1)) (sc_stack s) (sc_generator s) (sc_aliases s) (sc_definitions s) in
  '(h1, s1, binding) ← Scope_DefineNew h s0 Scope;
  exported ←
    match Scope_CurrentFrame s1 with
    | Some a => current ← get_frame h1 a; Done (fr_Exported current)
    | None => Done ∅
    end;
  let newFrame := mkFrame id (Scope_CurrentFrame s1) (Some binding) exported ∅ exported ∅ false in
  let a := length (h_frames h1) in
  Done (set_frames h1 (h_frames h1 ++ [newFrame]), with_stack s1 (sc_stack s1 ++ [a]), a).

Definition Scope_CurrentFrameBinding (h : heap) (s : scope) : outcome (option nat) :=
  match Scope_CurrentFrame s with
  | Some a => f ← get_frame h a; Done (fr_Binding f)
  | None => Done None
  end.

Definition Scope_Lookup (s : scope) (identifier : string) : option nat := sc_definitions s !! identifier.

Definition Scope_IsMaterialized (h : heap) (s : scope) (identifier : string) : outcome bool :=
  match sc_definitions s !! identifier with
  | Some a => b ← get_binding h a; Done (bool_decide (is_Some (bi_LastProjection b)))
  | None => Done false
  end.

Definition Scope_Visible (h : heap) (s : scope) : outcome IdentifierSet :=
  a ← not_nil (Scope_CurrentFrame s);
  f ← get_frame h a;
  Done (fr_Visible f).

(** [None]: a missing identifier is an error. *)
Fixpoint Scope_LookupBindings (s : scope) (identifiers : list string) : option (list nat) :=
  match identifiers with
  | [] => Some []
  | identifier :: rest =>
      match sc_definitions s !! identifier with
      | None => None
      | Some a => match Scope_LookupBindings s rest with None => None | Some l => Some (a :: l) end
      end
  end.

Definition Scope_Alias (h : heap) (s : scope) (alias : string) (binding : nat) : outcome (heap * scope) :=
  b ← get_binding h binding;
  h' ← update_binding h binding (fun b =>
    mkBound (bi_Identifier b) (Some alias) (bi_Parameter b) (bi_LastProjection b) (bi_Dependencies b) (bi_DataType b)
      (bi_PathDirectionReversed b));
  Done (h', mkScope (sc_nextFrameID s) (sc_stack s) (sc_generator s) (<[alias := bi_Identifier b]> (sc_aliases s)) (sc_definitions s)).

Definition Scope_Declare (h : heap) (s : scope) (identifier : string) : outcome heap :=
  a ← not_nil (Scope_CurrentFrame s);
  update_frame h a (fun f => Frame_Reveal f identifier).

Definition Scope_AliasedLookup (s : scope) (identifier : string) : option nat :=
  match sc_aliases s !! identifier with
  | Some alias => Scope_Lookup s alias
  | None => None
  end.

Definition Scope_LookupString (s : scope) (identifierString : string) : option nat := Scope_AliasedLookup s identifierString.

Definition Scope_LookupDataType (h : heap) (s : scope) (identifier : string) : outcome (option DataType) :=
  match Scope_Lookup s identifier with
  | Some a => b ← get_binding h a; Done (Some (bi_DataType b))
  | None =>
      match Scope_AliasedLookup s identifier with
      | Some a => b ← get_binding h a; Done (Some (bi_DataType b))
      | None => Done None
      end
  end.

(** *** Pruning

    [order] is the order in which the range visits the aliases. *)

Definition prune_turn (s : scope) (order : list (string * string)) (protectedIdentifier : string)
    (st : gmap string string * gmap string nat) : option (gmap string string * gmap string nat) :=
  match sc_definitions s !! protectedIdentifier with
  | None => None
  | Some definition =>
      Some (match List.find (fun p => bool_decide (p.2 = protectedIdentifier)) order with
            | Some (alias, _) => <[alias := protectedIdentifier]> st.1
            | None => st.1
            end,
            <[protectedIdentifier := definition]> st.2)
  end.

Fixpoint prune_loop (s : scope) (order : list (string * string)) (protected : list string)
    (st : gmap string string * gmap string nat) : option (gmap string string * gmap string nat) :=
  match protected with
  | [] => Some st
  | p :: rest => match prune_turn s order p st with None => None | Some st' => prune_loop s order rest st' end
  end.

(** [inr] is the error: a protected identifier is not defined. *)
Definition Scope_PruneDefinitions (h : heap) (s : scope) (order : list (string * string)) (protectedIdentifiers : IdentifierSet)
    : outcome ((heap * scope) + unit) :=
  match prune_loop s order (IdentifierSet_Slice protectedIdentifiers) (∅, ∅) with
  | None => Done (inr tt)
  | Some (aliases, definitions) =>
      let s' := mkScope (sc_nextFrameID s) (sc_stack s) (sc_generator s) aliases definitions in
      a ← not_nil (Scope_CurrentFrame s');
      h' ← update_frame h a (fun f =>
        with_sets f protectedIdentifiers (fr_stashedVisible f) protectedIdentifiers (fr_stashedExported f));
      Done (inl (h', s'))
  end.

(** *** Snapshots *)

(** The bindings of the definitions are copied to new addresses, in the order
    of the range. *)
Fixpoint copy_definitions (h : heap) (definitions : list (string * nat)) : outcome (heap * list (string * nat)) :=
  match definitions with
  | [] => Done (h, [])
  | (k, v) :: rest =>
      b ← get_binding h v;
      let a := length (h_bindings h) in
      '(h', copies) ← copy_definitions (set_bindings h (h_bindings h ++ [BoundIdentifier_Copy b])) rest;
      Done (h', (k, a) :: copies)
  end.

(** A dependency becomes the copy of the definition it names, or a copy of its
    own. *)
Definition copy_dependency (definitionsCopy : gmap string nat) (h : heap) (dependency : option nat) : outcome (heap * option nat) :=
  match dependency with
  | None => Done (h, None)
  | Some d =>
      b ← get_binding h d;
      match definitionsCopy !! bi_Identifier b with
      | Some copied => Done (h, Some copied)
      | None => Done (set_bindings h (h_bindings h ++ [BoundIdentifier_Copy b]), Some (length (h_bindings h)))
      end
  end.

Fixpoint copy_dependencies (definitionsCopy : gmap string nat) (h : heap) (dependencies : list (option nat))
    : outcome (heap * list (option nat)) :=
  match dependencies with
  | [] => Done (h, [])
  | d :: rest =>
      '(h1, d') ← copy_dependency definitionsCopy h d;
      '(h2, rest') ← copy_dependencies definitionsCopy h1 rest;
      Done (h2, d' :: rest')
  end.

Fixpoint relink (definitionsCopy : gmap string nat) (h : heap) (copies : list (string * nat)) : outcome heap :=
  match copies with
  | [] => Done h
  | (_, a) :: rest =>
      b ← get_binding h a;
      '(h1, deps) ← copy_dependencies definitionsCopy h (bi_Dependencies b);
      h2 ← update_binding h1 a (fun b => with_dependencies b deps);
      relink definitionsCopy h2 rest
  end.

Definition Scope_Snapshot (h : heap) (s : scope) : outcome (heap * scope) :=
  '(h1, copies) ← copy_definitions h (map_to_list (sc_definitions s));
  let definitionsCopy := list_to_map copies in
  h2 ← relink definitionsCopy h1 copies;
  Done (h2, mkScope (sc_nextFrameID s) (sc_stack s) (sc_generator s) (sc_aliases s) definitionsCopy).

(** ** Generated identifiers *)

Definition identifier_classes : list (DataType * string) :=
  [(ExpansionPattern, "ex"); (ExpansionPath, "ep"); (PathComposite, "pc"); (NodeComposite, "n"); (EdgeComposite, "e");
   (Scope, "s"); (ParameterIdentifier, "pi"); (UnknownDataType, "i")].

Lemma identifier_class_listed t : identifier_class t ∈ identifier_classes.
Proof. apply (bool_decide_unpack _). destruct t; vm_compute; done. Qed.

Lemma digits_no_letter c x (k : Z) :
  digit_free c -> c <> "-"%char -> String c x <> pretty k.
Proof.
  intros Hc Hd E. pose proof (pretty_Z_char c k Hc Hd) as Hf. rewrite <- E in Hf. cbn in Hf.
  by rewrite bool_decide_eq_true_2 in Hf.
Qed.

(** The text of an identifier gives away its class and number. *)
Lemma identifier_text_inj c1 p1 c2 p2 (k1 k2 : Z) :
  (c1, p1) ∈ identifier_classes -> (c2, p2) ∈ identifier_classes -> p1 +:+ pretty k1 = p2 +:+ pretty k2 -> c1 = c2 /\ k1 = k2.
Proof.
  intros H1 H2. unfold identifier_classes in *.
  repeat (apply elem_of_cons in H1 as [[= -> ->]|H1]; [|try by apply not_elem_of_nil in H1]);
  repeat (apply elem_of_cons in H2 as [[= -> ->]|H2]; [|try by apply not_elem_of_nil in H2]).
  all: intros E; cbn [String.append] in E; try discriminate E.
  all: repeat first [injection E as E|progress cbn in E].
  all: first [split; [reflexivity|change (pretty k1 = pretty k2) in E; by apply (inj pretty) in E]
             |exfalso; eapply digits_no_letter; [| |exact E]; [digit_free|discriminate]
             |exfalso; eapply digits_no_letter; [| |symmetry; exact E]; [digit_free|discriminate]].
Qed.

(** ** Snapshots *)

(** Addresses in the heap are those of cells. *)
Definition deps_in (n : nat) (b : BoundIdentifier) : Prop := forall x, Some x ∈ bi_Dependencies b -> x < n.
Definition heap_closed (h : heap) : Prop := forall b, b ∈ h_bindings h -> deps_in (length (h_bindings h)) b.

Definition same_but_bindings (h h' : heap) : Prop :=
  h_frames h' = h_frames h /\ h_generators h' = h_generators h.

Lemma get_binding_Some h a b : h_bindings h !! a = Some b -> get_binding h a = Done b.
Proof. intros Ha. by apply slice_get_nat. Qed.

Lemma copy_definitions_spec defs : forall h,
  (forall d, d ∈ defs -> is_Some (h_bindings h !! d.2)) ->
  exists bs, Forall2 (fun d b => h_bindings h !! d.2 = Some b) defs bs /\
    copy_definitions h defs = Done (set_bindings h (h_bindings h ++ bs), zip defs.*1 (seq (length (h_bindings h)) (length defs))).
Proof.
  induction defs as [|[k v] defs IH]; intros h Hd; cbn [copy_definitions].
  - exists []. split; [constructor|]. rewrite app_nil_r. by destruct h.
  - destruct (Hd (k, v) ltac:(by left)) as [b Hb]. rewrite (get_binding_Some _ _ b) by done. cbn [mbind outcome_bind].
    destruct (IH (set_bindings h (h_bindings h ++ [b]))) as (bs & Hbs & Hcopy).
    { intros d Hin. destruct (Hd d ltac:(by right)) as [b' Hb']. cbn. exists b'. by apply lookup_app_l_Some. }
    cbn in Hcopy. unfold BoundIdentifier_Copy. rewrite Hcopy. exists (b :: bs). split.
    + constructor; [done|]. apply Forall2_same_length_lookup in Hbs as [Hlen Hl]. apply Forall2_same_length_lookup. split; [done|].
      intros i d b' Hi Hi'. specialize (Hl i d b' Hi Hi'). cbn in Hl. destruct (Hd d) as [b'' Hb''].
      { right. by eapply list_elem_of_lookup_2. }
      rewrite (lookup_app_l_Some _ _ _ _ Hb'') in Hl. congruence.
    + cbn. rewrite length_app, Nat.add_1_r, <- app_assoc. done.
Qed.

(** The copy [d'] of a dependency [d]: copies of its own stand from [m] on. *)
Definition linked (D : gmap string nat) (old : list BoundIdentifier) (m : nat) (new : list BoundIdentifier)
    (d d' : option nat) : Prop :=
  match d with
  | None => d' = None
  | Some x => exists b, old !! x = Some b /\
      match D !! bi_Identifier b with
      | Some c => d' = Some c
      | None => exists a, d' = Some a /\ m <= a /\ new !! a = Some b
      end
  end.

Lemma linked_mono D old m new new' d d' :
  (forall a b, m <= a -> new !! a = Some b -> new' !! a = Some b) ->
  linked D old m new d d' -> linked D old m new' d d'.
Proof.
  intros Hn. destruct d as [x|]; [|done]. cbn. intros (b & Hb & Hd). exists b. split; [done|].
  destruct (D !! bi_Identifier b); [done|]. destruct Hd as (a & -> & Ha & Hab). exists a. split_and!; [done..|]. by apply Hn.
Qed.

Section relink.
Context (D : gmap string nat) (old : list BoundIdentifier) (m : nat).

Lemma copy_dependencies_spec deps : forall h,
  old `prefix_of` h_bindings h -> m <= length (h_bindings h) -> (forall x, Some x ∈ deps -> x < length old) ->
  exists extra deps', copy_dependencies D h deps = Done (set_bindings h (h_bindings h ++ extra), deps') /\
    Forall2 (linked D old m (h_bindings h ++ extra)) deps deps' /\ (forall b, b ∈ extra -> b ∈ old).
Proof using Type.
  induction deps as [|d deps IH]; intros h Hpre Hm Hin; cbn [copy_dependencies].
  { exists [], []. rewrite app_nil_r. split_and!; [by destruct h|constructor|]. intros b Hb. by apply not_elem_of_nil in Hb. }
  assert (Hrest : forall x, Some x ∈ deps -> x < length old) by (intros x Hx; apply Hin; by right).
  destruct d as [x|]; cbn [copy_dependency].
  2:{ destruct (IH h Hpre Hm Hrest) as (extra & deps' & Hc & Hl & Hx). exists extra, (None :: deps').
      cbn [mbind outcome_bind]. rewrite Hc. split_and!; [done|by constructor|done]. }
  destruct (lookup_lt_is_Some_2 old x ltac:(apply Hin; by left)) as [b Hb].
  rewrite (get_binding_Some h x b) by (by eapply prefix_lookup_Some). cbn [mbind outcome_bind].
  destruct (D !! bi_Identifier b) as [c|] eqn:HD.
  - destruct (IH h Hpre Hm Hrest) as (extra & deps' & Hc & Hl & Hx). exists extra, (Some c :: deps').
    cbn [mbind outcome_bind]. rewrite Hc. split_and!; [done| |done]. constructor; [|done]. exists b. by rewrite HD.
  - destruct (IH (set_bindings h (h_bindings h ++ [b]))) as (extra & deps' & Hc & Hl & Hx); cbn.
    { by apply prefix_app_r. }
    { rewrite length_app. lia. }
    { done. }
    exists (b :: extra), (Some (length (h_bindings h)) :: deps'). cbn in Hc, Hl. unfold BoundIdentifier_Copy. rewrite Hc.
    rewrite <- app_assoc in *. split_and!; [done|..].
    + constructor; [|done]. exists b. rewrite HD. split; [done|].
      exists (length (h_bindings h)). split_and!; [done..|]. by apply list_lookup_middle.
    + intros b' Hb'. apply elem_of_cons in Hb' as [->|Hb']; [by eapply list_elem_of_lookup_2|by apply Hx].
Qed.

(** Linked dependencies point to cells. *)
Lemma linked_in new deps deps' : (forall k c, D !! k = Some c -> c < m) -> m <= length new ->
  Forall2 (linked D old m new) deps deps' -> forall x, Some x ∈ deps' -> x < length new.
Proof using Type.
  intros HD Hm Hl x Hx. apply list_elem_of_lookup in Hx as [i Hi]. destruct (Forall2_lookup_r _ _ _ _ _ Hl Hi) as ([y|] & Hy & Hly); [|done].
  destruct Hly as (b & Hb & Hcase). destruct (D !! bi_Identifier b) as [c|] eqn:Hc.
  - injection Hcase as ->. apply HD in Hc. lia.
  - destruct Hcase as (a & [= <-] & _ & Ha). by eapply lookup_lt_Some.
Qed.

Lemma relink_closed h extra a b deps :
  old `prefix_of` h_bindings h -> m <= length (h_bindings h) -> (forall k c, D !! k = Some c -> c < m) -> heap_closed h ->
  (forall b, b ∈ extra -> b ∈ old) -> Forall2 (linked D old m (h_bindings h ++ extra)) (bi_Dependencies b) deps ->
  heap_closed (set_bindings h (<[a := with_dependencies b deps]> (h_bindings h ++ extra))).
Proof using Type.
  intros [r Hr] Hm HD Hcl Hx Hl c Hc. cbn in *. rewrite length_insert. apply list_elem_of_lookup in Hc as [i Hi].
  apply list_lookup_insert_Some in Hi as [(-> & <- & _)|[_ Hi]].
  - intros x. cbn. eapply linked_in; [done| |done]. rewrite length_app. lia.
  - intros x Hxc. rewrite length_app. assert (Hin : c ∈ h_bindings h); [|specialize (Hcl c Hin x Hxc); lia].
    apply list_elem_of_lookup_2, elem_of_app in Hi as [Hi|Hi]; [done|]. rewrite Hr. apply elem_of_app. left. by apply Hx.
Qed.

Lemma relink_spec copies : forall h,
  old `prefix_of` h_bindings h -> m <= length (h_bindings h) -> NoDup copies.*2 ->
  (forall k a, (k, a) ∈ copies -> length old <= a < m /\ exists b, h_bindings h !! a = Some b /\ deps_in (length old) b) ->
  (forall k c, D !! k = Some c -> c < m) -> heap_closed h ->
  exists h', relink D h copies = Done h' /\ same_but_bindings h h' /\ heap_closed h' /\
    (forall a b, a ∉ copies.*2 -> h_bindings h !! a = Some b -> h_bindings h' !! a = Some b) /\
    (forall k a b, (k, a) ∈ copies -> h_bindings h !! a = Some b ->
       exists deps, h_bindings h' !! a = Some (with_dependencies b deps) /\
         Forall2 (linked D old m (h_bindings h')) (bi_Dependencies b) deps).
Proof using Type.
  induction copies as [|[k a] copies IH]; intros h Hpre Hm Hnd Hc HD Hcl; cbn [relink].
  { exists h. split_and!; [done..|]. set_solver. }
  destruct (Hc k a ltac:(by left)) as (Ha & b & Hb & Hdeps). rewrite (get_binding_Some h a b Hb). cbn [mbind outcome_bind].
  destruct (copy_dependencies_spec (bi_Dependencies b) h Hpre Hm Hdeps) as (extra & deps & -> & Hl & Hextra).
  cbn [mbind outcome_bind]. unfold update_binding.
  rewrite (get_binding_Some _ a b) by (cbn; by apply lookup_app_l_Some). cbn [mbind outcome_bind].
  set (h1 := set_bindings _ _). cbn in Hnd. apply NoDup_cons in Hnd as [Hnin Hnd].
  assert (Halt : a < length (h_bindings h)) by (by eapply lookup_lt_Some).
  assert (Hkeep : forall x y, x <> a -> h_bindings h !! x = Some y -> h_bindings h1 !! x = Some y).
  { intros x y Hx Hy. cbn. rewrite list_lookup_insert_ne by done. by apply lookup_app_l_Some. }
  destruct (IH h1) as (h' & Hr & [Hf Hg] & Hcl' & Hsame & Hnew).
  { cbn. destruct Hpre as [r Hr]. exists (<[a - length old := with_dependencies b deps]> (r ++ extra)).
    rewrite Hr, <- app_assoc, insert_app_r_alt by lia. done. }
  { cbn. rewrite length_insert, length_app. lia. }
  { done. }
  { intros k' a' Hin. destruct (Hc k' a' ltac:(by right)) as (Ha' & b' & Hb' & Hd'). split; [done|]. exists b'.
    split; [|done]. apply Hkeep; [|done]. intros ->. apply Hnin. apply (list_elem_of_fmap_2 snd _ (k', a)) in Hin. done. }
  { done. }
  { apply (relink_closed h extra a b deps); try done. }
  exists h'. split_and!; [done|by split; [rewrite Hf|rewrite Hg]|done|..].
  - intros x y Hx Hy. apply Hsame; [set_solver|]. apply Hkeep; [set_solver|done].
  - intros k' a' b' Hin Hb'. apply elem_of_cons in Hin as [[= -> ->]|Hin].
    + assert (b' = b) as -> by congruence. exists deps. split.
      * apply Hsame; [done|]. cbn. rewrite list_lookup_insert_eq; [done|]. rewrite length_app. lia.
      * eapply Forall2_impl; [exact Hl|]. intros d d' Hd. eapply linked_mono; [|exact Hd]. intros x y Hx Hy.
        assert (Hxc : x ∉ copies.*2).
        { intros Hx'. apply list_elem_of_fmap in Hx' as ([k2 a2] & -> & Hin2). destruct (Hc k2 a2 ltac:(by right)) as [? _]. cbn in *. lia. }
        apply Hsame; [done|]. cbn. rewrite list_lookup_insert_ne; [done|lia].
    + assert (Hne : a' <> a).
      { intros ->. apply Hnin. apply (list_elem_of_fmap_2 snd _ (k', a)) in Hin. done. }
      destruct (Hnew k' a' b' Hin (Hkeep _ _ Hne Hb')) as (deps' & Hd1 & Hd2). by exists deps'.
Qed.
End relink.

Definition scope_closed (h : heap) (s : scope) : Prop :=
  forall id a, sc_definitions s !! id = Some a -> exists b, h_bindings h !! a = Some b /\ bi_Identifier b = id.

(** The copies [zip defs.*1 (seq n _)] and the cells [bs] they were made from. *)
Lemma copies_lookup {A} (defs : list (string * nat)) (bs : list A) n k a :
  length bs = length defs -> (k, a) ∈ zip defs.*1 (seq n (length defs)) ->
  exists i d b, defs !! i = Some d /\ d.1 = k /\ a = n + i /\ bs !! i = Some b.
Proof.
  intros Hlen Hin. apply list_elem_of_lookup in Hin as [i Hi]. apply lookup_zip_Some in Hi as [Hk Ha].
  rewrite list_lookup_fmap in Hk. destruct (defs !! i) as [d|] eqn:Hd; [|done]. injection Hk as Hk.
  apply lookup_seq in Ha as [-> Hlt]. destruct (lookup_lt_is_Some_2 bs i ltac:(lia)) as [b Hb]. by exists i, d, b.
Qed.

Lemma copies_shape (defs : list (string * nat)) n :
  (zip defs.*1 (seq n (length defs))).*1 = defs.*1 /\ (zip defs.*1 (seq n (length defs))).*2 = seq n (length defs).
Proof. split; [apply fst_zip|apply snd_zip]; rewrite length_fmap, length_seq; lia. Qed.

(** A copied binding names the same dependencies, in cells of its own. *)
Definition same_dependency (h h' : heap) (s' : scope) (d d' : option nat) : Prop :=
  match d with
  | None => d' = None
  | Some x => exists b y c, h_bindings h !! x = Some b /\ d' = Some y /\ length (h_bindings h) <= y /\
      h_bindings h' !! y = Some c /\ bi_Identifier c = bi_Identifier b /\
      (forall z, sc_definitions s' !! bi_Identifier b = Some z -> y = z)
  end.

(** The first loop: every definition [k] has a copy [a] of its cell. *)
Lemma snapshot_copies h s : scope_closed h s ->
  let defs := map_to_list (sc_definitions s) in
  let n := length (h_bindings h) in
  exists bs, length bs = length defs /\ (forall b, b ∈ bs -> b ∈ h_bindings h) /\
    copy_definitions h defs = Done (set_bindings h (h_bindings h ++ bs), zip defs.*1 (seq n (length defs))) /\
    forall k a, (k, a) ∈ zip defs.*1 (seq n (length defs)) -> exists i b v, a = n + i /\ i < length defs /\
      sc_definitions s !! k = Some v /\ h_bindings h !! v = Some b /\ (h_bindings h ++ bs) !! a = Some b /\ bi_Identifier b = k.
Proof.
  intros Hs defs n.
  assert (Hcells : forall d, d ∈ defs -> exists b, h_bindings h !! d.2 = Some b /\ bi_Identifier b = d.1).
  { intros [id a] Hd. apply elem_of_map_to_list in Hd. by apply Hs. }
  destruct (copy_definitions_spec defs h) as (bs & Hbs & Hcopy).
  { intros d Hd. destruct (Hcells d Hd) as (b & Hb & _). by exists b. }
  apply Forall2_same_length_lookup in Hbs as [Hlen Hbs]. exists bs. split; [done|]. split.
  { intros b Hb. apply list_elem_of_lookup in Hb as [i Hi]. destruct (lookup_lt_is_Some_2 defs i) as [d Hd].
    { apply lookup_lt_Some in Hi. lia. }
    by eapply list_elem_of_lookup_2, Hbs. }
  split; [done|]. intros k a Hin.
  destruct (copies_lookup defs bs n k a ltac:(done) Hin) as (i & [k' v] & b & Hd & Hk & -> & Hb). cbn in Hk. subst k'.
  destruct (Hcells (k, v) ltac:(by eapply list_elem_of_lookup_2)) as (b' & Hb' & Hid). cbn in Hb', Hid.
  assert (b' = b) as -> by (specialize (Hbs i (k, v) b Hd Hb); cbn in Hbs; congruence).
  exists i, b, v. split_and!; try done.
  - by eapply lookup_lt_Some.
  - apply elem_of_map_to_list. by eapply list_elem_of_lookup_2.
  - rewrite lookup_app_r by (unfold n; lia). fold n. by replace (n + i - n) with i by lia.
Qed.

Lemma snapshot_dom (definitions : gmap string nat) n :
  let defs := map_to_list definitions in
  dom (list_to_map (zip defs.*1 (seq n (length defs))) : gmap string nat) = dom definitions.
Proof.
  intros defs. apply set_eq. intros id. destruct (copies_shape defs n) as [Hfst _].
  rewrite dom_list_to_map_L, Hfst, elem_of_list_to_set. unfold defs. rewrite list_elem_of_fmap, elem_of_dom. split.
  - intros ([k a] & -> & Hd). apply elem_of_map_to_list in Hd. by eexists.
  - intros [a Ha]. exists (id, a). by rewrite elem_of_map_to_list.
Qed.

Lemma Snapshot_spec h s : heap_closed h -> scope_closed h s ->
  exists h' s', Scope_Snapshot h s = Done (h', s') /\ same_but_bindings h h' /\ heap_closed h' /\
    (forall a b, h_bindings h !! a = Some b -> h_bindings h' !! a = Some b) /\
    sc_nextFrameID s' = sc_nextFrameID s /\ sc_stack s' = sc_stack s /\ sc_generator s' = sc_generator s /\
    sc_aliases s' = sc_aliases s /\ dom (sc_definitions s') = dom (sc_definitions s) /\
    (forall id a', sc_definitions s' !! id = Some a' -> length (h_bindings h) <= a') /\
    forall id a a' b, sc_definitions s !! id = Some a -> sc_definitions s' !! id = Some a' -> h_bindings h !! a = Some b ->
      exists deps, h_bindings h' !! a' = Some (with_dependencies b deps) /\
        Forall2 (same_dependency h h' s') (bi_Dependencies b) deps.
Proof.
  intros Hh Hs. unfold Scope_Snapshot. destruct (snapshot_copies h s Hs) as (bs & Hlen & Hbs & -> & Hcopy).
  pose proof (snapshot_dom (sc_definitions s) (length (h_bindings h))) as Hdom.
  set (defs := map_to_list (sc_definitions s)) in *. set (n := length (h_bindings h)) in *. cbn [mbind outcome_bind].
  destruct (copies_shape defs n) as [Hfst Hsnd]. set (copies := zip defs.*1 (seq n (length defs))) in *.
  set (D := list_to_map copies : gmap string nat) in *.
  assert (HD : forall id a', D !! id = Some a' -> (id, a') ∈ copies) by (intros id a' Ha'; by apply elem_of_list_to_map_2 in Ha').
  destruct (relink_spec D (h_bindings h) (n + length defs) copies (set_bindings h (h_bindings h ++ bs)))
    as (h' & -> & Hsame & Hcl & Hkeep & Hnew).
  { by apply prefix_app_r. }
  { cbn. rewrite length_app. unfold n. lia. }
  { rewrite Hsnd. apply NoDup_seq. }
  { intros k a Hin. destruct (Hcopy k a Hin) as (i & b & v & -> & Hi & _ & Hb & Hb1 & _).
    split; [unfold n in *; lia|]. exists b. split; [done|]. apply Hh. by eapply list_elem_of_lookup_2. }
  { intros k c Hc. destruct (Hcopy k c (HD _ _ Hc)) as (i & b & v & -> & Hi & _). lia. }
  { intros b Hb x Hx. cbn in *. rewrite length_app. assert (Hin : b ∈ h_bindings h) by (apply elem_of_app in Hb as [Hb|Hb]; [done|by apply Hbs]).
    specialize (Hh b Hin x Hx). lia. }
  exists h', (mkScope (sc_nextFrameID s) (sc_stack s) (sc_generator s) (sc_aliases s) D).
  cbn [mbind outcome_bind sc_nextFrameID sc_stack sc_generator sc_aliases sc_definitions]. split_and!; try done.
  - intros a b Hb. apply Hkeep; [|cbn; by apply lookup_app_l_Some]. rewrite Hsnd, elem_of_seq.
    apply lookup_lt_Some in Hb. unfold n. lia.
  - intros id a' Ha'. destruct (Hcopy id a' (HD _ _ Ha')) as (i & b & v & -> & _). unfold n. lia.
  - intros id a a' b Ha Ha' Hb. apply HD in Ha' as Hin. destruct (Hcopy id a' Hin) as (i & b' & v & -> & _ & Hv & Hb' & Hb1 & _).
    assert (b' = b) as -> by congruence. destruct (Hnew _ _ b Hin Hb1) as (deps & Hdeps & Hlink). exists deps. split; [done|].
    eapply Forall2_impl; [exact Hlink|]. intros [x|] d' Hd'; [|done]. destruct Hd' as (bx & Hbx & Hcase).
    destruct (D !! bi_Identifier bx) as [c|] eqn:HDx.
    + subst d'. destruct (Hcopy _ c (HD _ _ HDx)) as (j & bj & vj & -> & _ & _ & _ & Hbj1 & Hidj).
      destruct (Hnew _ _ bj (HD _ _ HDx) Hbj1) as (depsj & Hdj & _).
      exists bx, (n + j), (with_dependencies bj depsj). split_and!; try done; [unfold n; lia|]. cbn. intros z Hz. congruence.
    + destruct Hcase as (y & -> & Hy & Hyb). exists bx, y, bx. split_and!; try done; [unfold n in *; lia|]. cbn. intros z Hz. congruence.
Qed.

(** ** Runs of several scopes

    The translator works on one scope and snapshots of it.  An action of a scope
    or on a frame that does not exist does nothing; [generated] are the
    identifiers the generator handed out. *)

Record world := mkWorld { w_heap : heap; w_scopes : list scope }.

Inductive frame_edit := FExport (id : string) | FUnexport (id : string) | FReveal (id : string) | FStash (id : string) | FRestore.

Definition edit_frame (e : frame_edit) (f : Frame) : Frame :=
  match e with
  | FExport id => Frame_Export f id
  | FUnexport id => Frame_Unexport f id
  | FReveal id => Frame_Reveal f id
  | FStash id => Frame_Stash f id
  | FRestore => Frame_RestoreStashed f
  end.

Inductive scope_action :=
| ADefineNew (i : nat) (dataType : DataType)
| APushFrame (i : nat)
| APopFrame (i : nat)
| AUnwind (i : nat) (frame : nat)
| ASnapshot (i : nat)
| AAlias (i : nat) (alias identifier : string)
| ADepend (i : nat) (identifier other : string)
| AFrame (frame : nat) (e : frame_edit).

(** What the scope [s] does to the heap, the scopes it leaves (itself, and a
    snapshot), and the generated identifiers. *)
Definition scope_act (a : scope_action) (h : heap) (s : scope) : outcome (heap * list scope * list string) :=
  match a with
  | ADefineNew _ t =>
      '(h', s', b) ← Scope_DefineNew h s t;
      binding ← get_binding h' b;
      Done (h', [s'], [bi_Identifier binding])
  | APushFrame _ =>
      '(h', s', f) ← Scope_PushFrame h s;
      frame ← get_frame h' f;
      b ← not_nil (fr_Binding frame);
      binding ← get_binding h' b;
      Done (h', [s'], [bi_Identifier binding])
  | APopFrame _ => Done (h, [default s (Scope_PopFrame s)], [])
  | AUnwind _ f =>
      match h_frames h !! f with
      | None => Done (h, [s], [])
      | Some _ => r ← Scope_UnwindToFrame h s (Some f); Done (h, [default s r], [])
      end
  | ASnapshot _ => '(h', s') ← Scope_Snapshot h s; Done (h', [s; s'], [])
  | AAlias _ alias identifier =>
      match Scope_Lookup s identifier with
      | None => Done (h, [s], [])
      | Some b => '(h', s') ← Scope_Alias h s alias b; Done (h', [s'], [])
      end
  | ADepend _ identifier other =>
      match Scope_Lookup s identifier with
      | None => Done (h, [s], [])
      | Some b => h' ← update_binding h b (fun b => BoundIdentifier_DependOn b (Scope_Lookup s other)); Done (h', [s], [])
      end
  | AFrame f e =>
      match h_frames h !! f with
      | None => Done (h, [s], [])
      | Some _ => h' ← update_frame h f (edit_frame e); Done (h', [s], [])
      end
  end.

Definition actor (a : scope_action) : nat :=
  match a with
  | ADefineNew i _ | APushFrame i | APopFrame i | AUnwind i _ | ASnapshot i | AAlias i _ _ | ADepend i _ _ => i
  | AFrame _ _ => 0
  end.

Definition world_step (a : scope_action) (w : world) : outcome (world * list string) :=
  match w_scopes w !! actor a with
  | None => Done (w, [])
  | Some s =>
      '(h', ss, generated) ← scope_act a (w_heap w) s;
      Done (mkWorld h' (take (actor a) (w_scopes w) ++ take 1 ss ++ drop (S (actor a)) (w_scopes w) ++ drop 1 ss), generated)
  end.

Fixpoint world_run (actions : list scope_action) (w : world) : outcome (world * list string) :=
  match actions with
  | [] => Done (w, [])
  | a :: rest =>
      '(w1, generated) ← world_step a w;
      '(w2, later) ← world_run rest w1;
      Done (w2, generated ++ later)
  end.

Definition start_world : world := let '(h, s) := NewScope (mkHeap [] [] []) in mkWorld h [s].

(** *** The invariant of a run *)

Definition issued (g : IdentifierGenerator) (id : string) : Prop :=
  exists c p k, (c, p) ∈ identifier_classes /\ id = p +:+ pretty k /\ (0 <= k < default 0 (g !! c))%Z.

Definition class_counts (n : Z) (g : IdentifierGenerator) : Prop := forall c, (0 <= default 0 (g !! c) <= n)%Z.

Definition grows (g g' : IdentifierGenerator) : Prop := forall c, (default 0 (g !! c) <= default 0 (g' !! c))%Z.

Definition frame_id (h : heap) (a : nat) : option Z := fr_id <$> h_frames h !! a.

(** The frames of the stack carry increasing numbers below the next one. *)
Definition frames_ok (h : heap) (n : Z) (s : scope) : Prop :=
  exists ids, (frame_id h <$> sc_stack s) = Some <$> ids /\ StronglySorted Z.lt (ids ++ [sc_nextFrameID s]) /\
    (0 <= sc_nextFrameID s <= n)%Z.

Record wf_scope (h : heap) (g : IdentifierGenerator) (n : Z) (s : scope) : Prop := {
  ws_generator : sc_generator s = 0;
  ws_closed : scope_closed h s;
  ws_issued : forall id a, sc_definitions s !! id = Some a -> issued g id;
  ws_frames : frames_ok h n s;
}.

(** Cells stay, with their names and numbers. *)
Definition heap_le (h h' : heap) : Prop :=
  (forall a b, h_bindings h !! a = Some b -> exists b', h_bindings h' !! a = Some b' /\ bi_Identifier b' = bi_Identifier b) /\
  (forall a id, frame_id h a = Some id -> frame_id h' a = Some id).

Lemma heap_le_refl h : heap_le h h.
Proof. split; [intros a b Hb; by exists b|done]. Qed.

Lemma grows_refl g : grows g g.
Proof. intros c. lia. Qed.

Lemma issued_grows g g' id : grows g g' -> issued g id -> issued g' id.
Proof. intros Hg (c & p & k & Hc & -> & Hk). exists c, p, k. split_and!; [done..|lia|]. specialize (Hg c). lia. Qed.

Lemma frames_ok_le h h' n n' s : heap_le h h' -> (n <= n')%Z -> frames_ok h n s -> frames_ok h' n' s.
Proof.
  intros [_ Hf] Hn (ids & Hs & Hsort & Hnext). exists ids. split_and!; [|done|lia|lia].
  apply list_eq. intros i. apply (f_equal (.!! i)) in Hs. rewrite !list_lookup_fmap in *.
  destruct (sc_stack s !! i) as [a|], (ids !! i) as [id|]; try done. cbn in *. f_equal. apply Hf. congruence.
Qed.

Lemma wf_scope_le h h' g g' n n' s :
  heap_le h h' -> grows g g' -> (n <= n')%Z -> wf_scope h g n s -> wf_scope h' g' n' s.
Proof.
  intros Hh Hg Hn [H1 H2 H3 H4]. split; [done|..].
  - intros id a Ha. destruct (H2 id a Ha) as (b & Hb & Hid). destruct (proj1 Hh a b Hb) as (b' & Hb' & Hid'). exists b'. by rewrite Hid'.
  - intros id a Ha. eapply issued_grows; [done|]. by eapply H3.
  - by eapply frames_ok_le.
Qed.

(** *** The generator *)

Lemma NewIdentifier_fresh g t n : class_counts n g -> (n < 2 ^ 62)%Z ->
  let '(g', id) := IdentifierGenerator_NewIdentifier g t in
  class_counts (n + 1) g' /\ grows g g' /\ ~ issued g id /\ issued g' id.
Proof.
  intros Hc Hn. unfold IdentifierGenerator_NewIdentifier. pose proof (identifier_class_listed t) as Hin.
  destruct (identifier_class t) as [c p]. set (k := default 0%Z (g !! c)). pose proof (Hc c) as Hk. fold k in Hk.
  assert (Hw : wrap tint64 (k + 1) = (k + 1)%Z) by (apply wrap_id; unfold in_range; cbn; lia). rewrite Hw. split_and!.
  - intros c'. destruct (decide (c' = c)) as [->|]; [rewrite lookup_insert_eq; cbn; lia|]. rewrite lookup_insert_ne by done.
    specialize (Hc c'). lia.
  - intros c'. destruct (decide (c' = c)) as [->|]; [rewrite lookup_insert_eq; cbn; fold k; lia|]. by rewrite lookup_insert_ne.
  - intros (c' & p' & k' & Hin' & E & Hk'). destruct (identifier_text_inj c p c' p' k k' Hin Hin' E) as [<- <-]. fold k in Hk'. lia.
  - exists c, p, k. split_and!; [done..|lia|]. rewrite lookup_insert_eq. cbn. lia.
Qed.

(** *** What an action promises *)

(** From [h] and [g] to [h'] and scopes [ss], with new identifiers. *)
Record promises (h : heap) (g : IdentifierGenerator) (n : Z) (h' : heap) (ss : list scope) (generated : list string) : Prop := {
  pr_heap : heap_le h h';
  pr_closed : heap_closed h';
  pr_generator : exists g', h_generators h' !! 0 = Some g' /\ class_counts (n + 1) g' /\ grows g g' /\
    (forall s, s ∈ ss -> wf_scope h' g' (n + 1) s) /\ (forall id, id ∈ generated -> ~ issued g id /\ issued g' id);
  pr_one : length generated <= 1;
  pr_self : ss <> [];
}.

Section actions.
Context (h : heap) (g : IdentifierGenerator) (n : Z) (s : scope).
Context (Hg : h_generators h !! 0 = Some g) (Hc : class_counts n g) (Hn : (0 <= n < 2 ^ 62)%Z).
Context (Hh : heap_closed h) (Hs : wf_scope h g n s).

Lemma counters_weaken : class_counts (n + 1) g.
Proof using Hc. intros c. specialize (Hc c). lia. Qed.

(** An action that leaves the generator alone. *)
Lemma promises_quiet h' ss :
  heap_le h h' -> heap_closed h' -> h_generators h' = h_generators h -> ss <> [] ->
  (forall s', s' ∈ ss -> wf_scope h' g (n + 1) s') -> promises h g n h' ss [].
Proof using Hg Hc.
  intros Hle Hcl Hgen Hss Hwf. split; [done|done|..|done]; [|cbn; lia]. exists g. rewrite Hgen. split_and!; try done.
  - apply counters_weaken.
  - apply grows_refl.
  - intros id Hid. by apply not_elem_of_nil in Hid.
Qed.

Lemma wf_same h' : heap_le h h' -> wf_scope h' g (n + 1) s.
Proof using Hs. intros Hle. apply (wf_scope_le h h' g g n); [done|apply grows_refl|lia|done]. Qed.

(** A scope with other frames on its stack, or other aliases. *)
Lemma wf_restack h' stack aliases :
  heap_le h h' -> stack `prefix_of` sc_stack s ->
  wf_scope h' g (n + 1) (mkScope (sc_nextFrameID s) stack (sc_generator s) aliases (sc_definitions s)).
Proof using Hs.
  intros Hle [rest Hst]. destruct (wf_same h' Hle) as [H1 H2 H3 (ids & Hids & Hsort & Hnext)]. split; try done.
  rewrite Hst, fmap_app in Hids. symmetry in Hids. apply fmap_app_inv in Hids as (ids1 & ids2 & Hi1 & Hi2 & ->).
  exists ids1. cbn. split_and!; [done| |lia|lia]. rewrite <- app_assoc in Hsort. apply StronglySorted_app in Hsort as (Hcr & Ha & Hb).
  apply StronglySorted_app. split_and!; [|done|repeat constructor]. intros x y Hx Hy. apply Hcr; [done|]. apply elem_of_app. by right.
Qed.

Lemma promises_restack stack : stack `prefix_of` sc_stack s -> promises h g n h [with_stack s stack] [].
Proof using Hg Hc Hn Hh Hs.
  intros Hp. apply promises_quiet; [apply heap_le_refl|done|done|done|].
  intros s' ->%list_elem_of_singleton. apply wf_restack; [apply heap_le_refl|done].
Qed.

Lemma promises_self : promises h g n h [s] [].
Proof using Hg Hc Hn Hh Hs.
  apply promises_quiet; [apply heap_le_refl|done|done|done|]. intros s' ->%list_elem_of_singleton. apply wf_same, heap_le_refl.
Qed.

Lemma unwind_stack id : forall k, k <= length (sc_stack s) ->
  exists r, unwind_loop h s id k = Done r /\
    match r with None => True | Some s' => exists m, s' = with_stack s (take m (sc_stack s)) end.
Proof using Hs.
  destruct Hs as [_ _ _ (ids & Hids & _ & _)].
  induction k as [|k IH]; intros Hk; cbn [unwind_loop]; [by exists None|].
  destruct (lookup_lt_is_Some_2 (sc_stack s) k ltac:(lia)) as [a Ha]. rewrite (slice_get_nat _ _ a) by done. cbn [mbind outcome_bind].
  apply (f_equal (.!! k)) in Hids. rewrite !list_lookup_fmap, Ha in Hids. cbn in Hids. unfold frame_id in Hids.
  destruct (h_frames h !! a) as [f|] eqn:Hf.
  2:{ by destruct (ids !! k). }
  unfold get_frame. rewrite (slice_get_nat _ _ f) by done. cbn [mbind outcome_bind].
  destruct (fr_id f =? id)%Z; [|apply IH; lia]. eexists. split; [done|]. by eexists.
Qed.

Lemma heap_le_extend bs : heap_le h (set_bindings h (h_bindings h ++ bs)).
Proof using Type. split; [|done]. intros a b Hb. exists b. split; [|done]. cbn. by apply lookup_app_l_Some. Qed.

Lemma heap_le_insert a b b' : h_bindings h !! a = Some b -> bi_Identifier b' = bi_Identifier b ->
  heap_le h (set_bindings h (<[a := b']> (h_bindings h))).
Proof using Type.
  intros Hb Hid. split; [|done]. intros x c Hx. cbn. destruct (decide (x = a)) as [->|].
  - exists b'. rewrite list_lookup_insert_eq by (by eapply lookup_lt_Some). split; [done|]. congruence.
  - exists c. by rewrite list_lookup_insert_ne.
Qed.

Lemma closed_insert a b' : deps_in (length (h_bindings h)) b' -> heap_closed (set_bindings h (<[a := b']> (h_bindings h))).
Proof using Hh.
  intros Hd b Hb. cbn in *. rewrite length_insert. apply list_elem_of_lookup in Hb as [i Hi].
  apply list_lookup_insert_Some in Hi as [(-> & <- & _)|[_ Hi]]; [done|]. apply Hh. by eapply list_elem_of_lookup_2.
Qed.

(** The heap and the scope after [DefineNew]. *)
Lemma DefineNew_spec t : exists g' id,
  IdentifierGenerator_NewIdentifier g t = (g', id) /\
  forall s0, sc_generator s0 = 0 ->
  Scope_DefineNew h s0 t =
    Done (mkHeap (h_frames h) (h_bindings h ++ [mkBound id None None None [] t false]) (<[0 := g']> (h_generators h)),
          mkScope (sc_nextFrameID s0) (sc_stack s0) (sc_generator s0) (sc_aliases s0)
            (<[id := length (h_bindings h)]> (sc_definitions s0)), length (h_bindings h)).
Proof using Hg.
  destruct (IdentifierGenerator_NewIdentifier g t) as [g' id] eqn:E. exists g', id. split; [done|].
  intros s0 H0. unfold Scope_DefineNew. rewrite H0, (slice_get_nat _ 0 g) by done. cbn [mbind outcome_bind]. rewrite E. unfold Scope_Define. cbn. by rewrite H0.
Qed.

Lemma define_promises t g' id frames next stack :
  IdentifierGenerator_NewIdentifier g t = (g', id) ->
  let h' := mkHeap frames (h_bindings h ++ [mkBound id None None None [] t false]) (<[0 := g']> (h_generators h)) in
  let s' := mkScope next stack (sc_generator s) (sc_aliases s) (<[id := length (h_bindings h)]> (sc_definitions s)) in
  (forall a i, frame_id h a = Some i -> frame_id h' a = Some i) -> frames_ok h' (n + 1) s' ->
  promises h g n h' [s'] [id].
Proof using Hg Hc Hn Hh Hs.
  intros E h' s' Hfr Hok. pose proof (NewIdentifier_fresh g t n Hc ltac:(lia)) as Hnew. rewrite E in Hnew.
  destruct Hnew as (Hc' & Hgr & Hnot & Hiss).
  assert (Hle : heap_le h h').
  { split; [|done]. intros a b Hb. exists b. split; [|done]. cbn. by apply lookup_app_l_Some. }
  split; [done|..].
  - intros b Hb. cbn in *. rewrite length_app. cbn. apply elem_of_app in Hb as [Hb|Hb].
    + intros x Hx. specialize (Hh b Hb x Hx). lia.
    + apply list_elem_of_singleton in Hb as ->. intros x Hx. by apply not_elem_of_nil in Hx.
  - exists g'. split_and!; try done.
    + cbn. apply list_lookup_insert_eq. by eapply lookup_lt_Some.
    + intros s1 ->%list_elem_of_singleton. destruct (wf_scope_le h h' g g' n (n + 1) s Hle Hgr ltac:(lia) Hs) as [H1 H2 H3 _].
      split; [done|..|done]; intros k a Hk; cbn in Hk; apply lookup_insert_Some in Hk as [[<- <-]|[_ Hk]].
      * eexists. split; [cbn; by apply list_lookup_middle|done].
      * by apply H2.
      * done.
      * by eapply H3.
    + intros k ->%list_elem_of_singleton. done.
  - done.
  - done.
Qed.

Lemma push_frames_ok (f : Frame) (bs : list BoundIdentifier) gs aliases defs :
  fr_id f = sc_nextFrameID s -> (sc_nextFrameID s <= n)%Z ->
  frames_ok (mkHeap (h_frames h ++ [f]) bs gs) (n + 1)
    (mkScope (sc_nextFrameID s + 1) (sc_stack s ++ [length (h_frames h)]) (sc_generator s) aliases defs).
Proof using Hs.
  intros Hf Hnn. destruct Hs as [_ _ _ (ids & Hids & Hsort & Hnext)]. exists (ids ++ [sc_nextFrameID s]). cbn. split_and!; [| |lia|lia].
  - rewrite !fmap_app. f_equal.
    + rewrite <- Hids. apply list_fmap_ext. intros i a Ha. unfold frame_id. cbn.
      apply (f_equal (.!! i)) in Hids. rewrite !list_lookup_fmap, Ha in Hids. cbn in Hids. unfold frame_id in Hids.
      destruct (h_frames h !! a) as [fa|] eqn:Hfa; [by rewrite (lookup_app_l_Some _ _ _ _ Hfa)|]. by destruct (ids !! i).
    + cbn. unfold frame_id. cbn. rewrite list_lookup_middle by done. cbn. by rewrite Hf.
  - apply StronglySorted_app. split_and!; [|done|repeat constructor]. intros x y Hx ->%list_elem_of_singleton.
    apply elem_of_app in Hx as [Hx| ->%list_elem_of_singleton]; [|lia].
    apply StronglySorted_app in Hsort as (Hcr & _ & _). specialize (Hcr x (sc_nextFrameID s) Hx ltac:(by left)). lia.
Qed.

Lemma act_define i t : exists h' ss ids, scope_act (ADefineNew i t) h s = Done (h', ss, ids) /\ promises h g n h' ss ids.
Proof using Hg Hc Hn Hh Hs.
  destruct (DefineNew_spec t) as (g' & id & E & Hdef). cbn [scope_act]. rewrite (Hdef s (ws_generator _ _ _ _ Hs)).
  cbn [mbind outcome_bind]. rewrite (get_binding_Some _ _ (mkBound id None None None [] t false)) by (cbn; by apply list_lookup_middle).
  cbn [mbind outcome_bind bi_Identifier]. eexists _, _, _. split; [done|]. apply define_promises; [done|done|].
  destruct (ws_frames _ _ _ _ Hs) as (ids & Hids & Hsort & Hnext). exists ids. cbn. split_and!; [done..|lia|lia].
Qed.

Lemma act_push i : exists h' ss ids, scope_act (APushFrame i) h s = Done (h', ss, ids) /\ promises h g n h' ss ids.
Proof using Hg Hc Hn Hh Hs.
  destruct (DefineNew_spec Scope) as (g' & id & E & Hdef). cbn [scope_act]. unfold Scope_PushFrame. rewrite Hdef by apply (ws_generator _ _ _ _ Hs).
  cbn [mbind outcome_bind sc_nextFrameID sc_stack sc_generator sc_aliases sc_definitions].
  destruct (ws_frames _ _ _ _ Hs) as (ids & Hids & Hsort & Hnext).
  assert (Hexp : exists e, match Scope_CurrentFrame (mkScope (wrap tint64 (sc_nextFrameID s + 1)) (sc_stack s) (sc_generator s) (sc_aliases s)
      (<[id := length (h_bindings h)]> (sc_definitions s))) with
    | Some a => current ← get_frame (mkHeap (h_frames h) (h_bindings h ++ [mkBound id None None None [] Scope false]) (<[0 := g']> (h_generators h))) a;
        Done (fr_Exported current)
    | None => Done ∅ end = Done e).
  { destruct (Scope_CurrentFrame _) as [a|] eqn:Ha; [|by eexists]. unfold Scope_CurrentFrame, Scope_FrameAt in Ha.
    destruct (_ <=? _); [done|]. cbn in Ha. apply (f_equal (.!! (length (sc_stack s) - 0 - 1))) in Hids.
    rewrite !list_lookup_fmap, Ha in Hids. cbn in Hids. unfold frame_id in Hids.
    destruct (h_frames h !! a) as [f|] eqn:Hf; [|by destruct (ids !! _)]. unfold get_frame. cbn. rewrite (slice_get_nat _ _ f) by done. by eexists. }
  destruct Hexp as [e ->]. cbn [mbind outcome_bind].
  unfold get_frame. cbn [h_frames set_frames]. rewrite (slice_get_nat _ _ (mkFrame (sc_nextFrameID s) _ (Some (length (h_bindings h))) e ∅ e ∅ false)) by by apply list_lookup_middle.
  cbn [mbind outcome_bind fr_Binding not_nil].
  rewrite (get_binding_Some _ _ (mkBound id None None None [] Scope false)) by (cbn; by apply list_lookup_middle).
  cbn [mbind outcome_bind bi_Identifier]. eexists _, _, _. split; [done|].
  assert (Hw : wrap tint64 (sc_nextFrameID s + 1) = (sc_nextFrameID s + 1)%Z) by (apply wrap_id; unfold in_range; cbn; lia).
  unfold set_frames, with_stack. cbn [h_bindings h_generators h_frames sc_nextFrameID sc_stack sc_generator sc_aliases sc_definitions]. rewrite Hw.
  apply define_promises; [done|..].
  - intros a i' Ha. unfold frame_id in *. cbn. destruct (h_frames h !! a) as [f|] eqn:Hf; [|done]. by rewrite (lookup_app_l_Some _ _ _ _ Hf).
  - apply push_frames_ok; [done|lia].
Qed.

Lemma act_stack a : (exists i, a = APopFrame i) \/ (exists i f, a = AUnwind i f) ->
  exists h' ss ids, scope_act a h s = Done (h', ss, ids) /\ promises h g n h' ss ids.
Proof using Hg Hc Hn Hh Hs.
  intros [[i ->]|(i & f & ->)]; cbn [scope_act].
  - eexists _, _, _. split; [done|]. unfold Scope_PopFrame. destruct (_ <=? 0); cbn [default]; [apply promises_self; done|].
    apply promises_restack; try done. apply prefix_take.
  - destruct (h_frames h !! f) as [fr|] eqn:Hf; [|eexists _, _, _; split; [done|by apply promises_self]].
    unfold Scope_UnwindToFrame, get_frame. cbn [not_nil mbind outcome_bind]. rewrite (slice_get_nat _ _ fr) by done. cbn [mbind outcome_bind].
    destruct (unwind_stack (fr_id fr) (length (sc_stack s)) ltac:(done)) as (r & -> & Hr). cbn [mbind outcome_bind].
    eexists _, _, _. split; [done|]. destruct r as [s'|]; cbn [default]; [|by apply promises_self].
    destruct Hr as [m ->]. apply promises_restack; try done. apply prefix_take.
Qed.

Lemma act_snapshot i : exists h' ss ids, scope_act (ASnapshot i) h s = Done (h', ss, ids) /\ promises h g n h' ss ids.
Proof using Hg Hc Hn Hh Hs.
  destruct (Snapshot_spec h s Hh (ws_closed _ _ _ _ Hs))
    as (h' & s' & E & [Hf Hgen] & Hcl & Hcells & Hnext & Hst & Hge & _ & Hdom & _ & Hcopy).
  cbn [scope_act]. rewrite E. cbn [mbind outcome_bind]. eexists _, _, _. split; [done|].
  assert (Hle : heap_le h h').
  { split; [intros a b Hb; exists b; by split; [apply Hcells|]|]. intros a id. unfold frame_id. by rewrite Hf. }
  assert (Hdef : forall id a', sc_definitions s' !! id = Some a' -> exists a, sc_definitions s !! id = Some a).
  { intros id a' Ha'. apply elem_of_dom. rewrite <- Hdom. apply elem_of_dom. by eexists. }
  pose proof (wf_same h' Hle) as [H1 H2 H3 H4].
  apply promises_quiet; try done. intros t Ht. apply elem_of_cons in Ht as [->|Ht]; [by split|].
  apply list_elem_of_singleton in Ht as ->. split.
  - by rewrite Hge.
  - intros id a' Ha'. destruct (Hdef id a' Ha') as [a Ha]. destruct (ws_closed _ _ _ _ Hs id a Ha) as (b & Hb & Hid).
    destruct (Hcopy id a a' b Ha Ha' Hb) as (deps & Hd & _). by exists (with_dependencies b deps).
  - intros id a' Ha'. destruct (Hdef id a' Ha') as [a Ha]. by eapply H3.
  - unfold frames_ok in *. by rewrite Hst, Hnext.
Qed.

(** Writing a binding of the scope, with the same name. *)
Lemma promises_write b (f : BoundIdentifier -> BoundIdentifier) aliases :
  (exists id, sc_definitions s !! id = Some b) -> (forall c, bi_Identifier (f c) = bi_Identifier c) ->
  (forall c x, Some x ∈ bi_Dependencies (f c) -> Some x ∈ bi_Dependencies c \/ x < length (h_bindings h)) ->
  exists h' c, get_binding h b = Done c /\ update_binding h b f = Done h' /\
    promises h g n h' [mkScope (sc_nextFrameID s) (sc_stack s) (sc_generator s) aliases (sc_definitions s)] [].
Proof using Hg Hc Hn Hh Hs.
  intros [id Hid] Hf Hdep. destruct (ws_closed _ _ _ _ Hs id b Hid) as (c & Hcell & _).
  unfold update_binding. rewrite (get_binding_Some h b c Hcell). cbn [mbind outcome_bind]. eexists _, c. split_and!; [done..|].
  assert (Hle : heap_le h (set_bindings h (<[b := f c]> (h_bindings h)))) by by apply (heap_le_insert b c).
  apply promises_quiet; try done.
  - apply closed_insert. intros x Hx. destruct (Hdep c x Hx) as [Hx'|]; [|done]. eapply Hh; [|exact Hx']. by eapply list_elem_of_lookup_2.
  - intros t ->%list_elem_of_singleton. by apply wf_restack.
Qed.

Lemma act_write a : (exists i x y, a = AAlias i x y) \/ (exists i x y, a = ADepend i x y) ->
  exists h' ss ids, scope_act a h s = Done (h', ss, ids) /\ promises h g n h' ss ids.
Proof using Hg Hc Hn Hh Hs.
  intros [(i & x & y & ->)|(i & x & y & ->)]; cbn [scope_act].
  - destruct (Scope_Lookup s y) as [b|] eqn:Hb; [|eexists _, _, _; split; [done|by apply promises_self]].
    destruct (promises_write b (fun b => mkBound (bi_Identifier b) (Some x) (bi_Parameter b) (bi_LastProjection b) (bi_Dependencies b)
      (bi_DataType b) (bi_PathDirectionReversed b)) (<[x := y]> (sc_aliases s))) as (h' & c & Hc1 & Hu & Hp); [by exists y|done|by left|].
    unfold Scope_Alias. rewrite Hc1. cbn [mbind outcome_bind]. rewrite Hu. cbn [mbind outcome_bind]. eexists _, _, _. split; [done|].
    destruct (ws_closed _ _ _ _ Hs y b Hb) as (c' & Hc' & Hid). apply get_binding_Some in Hc'. rewrite Hc1 in Hc'. injection Hc' as ->.
    by rewrite Hid.
  - destruct (Scope_Lookup s x) as [b|] eqn:Hb; [|eexists _, _, _; split; [done|by apply promises_self]].
    destruct (promises_write b (fun b => BoundIdentifier_DependOn b (Scope_Lookup s y)) (sc_aliases s)) as (h' & c & Hc1 & Hu & Hp);
      [by exists x|done| |].
    { intros c z Hz. cbn in Hz. apply elem_of_app in Hz as [Hz|Hz]; [by left|right]. apply list_elem_of_singleton in Hz.
      destruct (ws_closed _ _ _ _ Hs y z ltac:(done)) as (cz & Hcz & _). by eapply lookup_lt_Some. }
    rewrite Hu. cbn [mbind outcome_bind]. eexists _, _, _. split; [done|]. by destruct s.
Qed.

Lemma edit_frame_id e f : fr_id (edit_frame e f) = fr_id f.
Proof using Type. destruct e; try done. cbn. unfold Frame_Stash. by repeat case_bool_decide. Qed.

Lemma act_frame f e : exists h' ss ids, scope_act (AFrame f e) h s = Done (h', ss, ids) /\ promises h g n h' ss ids.
Proof using Hg Hc Hn Hh Hs.
  cbn [scope_act]. destruct (h_frames h !! f) as [fr|] eqn:Hf; [|eexists _, _, _; split; [done|by apply promises_self]].
  unfold update_frame, get_frame. rewrite (slice_get_nat _ _ fr) by done. cbn [mbind outcome_bind].
  eexists _, _, _. split; [done|].
  assert (Hle : heap_le h (set_frames h (<[f := edit_frame e fr]> (h_frames h)))).
  { split; [intros a b Hb; by exists b|]. intros a id. unfold frame_id. cbn. destruct (decide (a = f)) as [->|].
    - rewrite Hf, list_lookup_insert_eq by (by eapply lookup_lt_Some). cbn. by rewrite edit_frame_id.
    - by rewrite list_lookup_insert_ne. }
  apply promises_quiet; try done. intros t ->%list_elem_of_singleton. by apply wf_same.
Qed.

Lemma act_promises a : exists h' ss ids, scope_act a h s = Done (h', ss, ids) /\ promises h g n h' ss ids.
Proof using Hg Hc Hn Hh Hs.
  destruct a; [by apply act_define|by apply act_push|apply act_stack; eauto|apply act_stack; eauto|by apply act_snapshot
    |apply act_write; eauto 6|apply act_write; eauto 6|by apply act_frame].
Qed.
End actions.

Definition run_inv (n : Z) (w : world) (log : list string) : Prop :=
  heap_closed (w_heap w) /\ exists g, h_generators (w_heap w) !! 0 = Some g /\ class_counts n g /\
    (forall s, s ∈ w_scopes w -> wf_scope (w_heap w) g n s) /\ NoDup log /\ (forall id, id ∈ log -> issued g id).

Lemma world_step_inv n w log a : (0 <= n < 2 ^ 62)%Z -> run_inv n w log ->
  exists w' ids, world_step a w = Done (w', ids) /\ run_inv (n + 1) w' (log ++ ids).
Proof.
  intros Hn (Hh & g & Hg & Hc & Hwf & Hnd & Hlog). unfold world_step.
  destruct (w_scopes w !! actor a) as [s|] eqn:Hs.
  2:{ exists w, []. split; [done|]. rewrite app_nil_r. split; [done|]. exists g. split_and!; try done; [by apply counters_weaken|].
      intros s Hin. eapply wf_same; [by apply Hwf|apply heap_le_refl]. }
  apply list_elem_of_lookup_2 in Hs as Hin.
  destruct (act_promises (w_heap w) g n s Hg Hc Hn Hh (Hwf s Hin) a) as (h' & ss & ids & -> & [Hle Hcl (g' & Hg' & Hc' & Hgr & Hss & Hids) Hone Hself]).
  cbn [mbind outcome_bind]. eexists _, ids. split; [done|]. split; [done|]. exists g'. split_and!; try done.
  - intros t Ht. cbn in Ht. assert (Ht' : t ∈ w_scopes w \/ t ∈ ss).
    { rewrite !elem_of_app in Ht. destruct Ht as [Ht|[Ht|[Ht|Ht]]].
      - left. rewrite <- (take_drop (actor a) (w_scopes w)). apply elem_of_app. by left.
      - right. rewrite <- (take_drop 1 ss). apply elem_of_app. by left.
      - left. rewrite <- (take_drop (S (actor a)) (w_scopes w)). apply elem_of_app. by right.
      - right. rewrite <- (take_drop 1 ss). apply elem_of_app. by right. }
    destruct Ht' as [Ht'|Ht']; [|by apply Hss]. eapply (wf_scope_le (w_heap w)); [done|done| |by apply Hwf]. lia.
  - apply NoDup_app. split_and!; [done| |].
    + intros id Hid Hid'. destruct (Hids id Hid') as [Hnot _]. by apply Hnot, Hlog.
    + destruct ids as [|x [|y ids]]; [constructor|apply NoDup_singleton|cbn in Hone; lia].
  - intros id Hid. apply elem_of_app in Hid as [Hid|Hid]; [eapply issued_grows; [done|by apply Hlog]|by apply Hids].
Qed.

Lemma world_run_inv actions : forall n w log,
  (0 <= n)%Z -> (n + Z.of_nat (length actions) <= 2 ^ 62)%Z -> run_inv n w log ->
  exists w' ids, world_run actions w = Done (w', ids) /\ run_inv (n + Z.of_nat (length actions)) w' (log ++ ids).
Proof.
  induction actions as [|a actions IH]; intros n w log Hn Hlen Hinv; cbn [world_run].
  { exists w, []. rewrite app_nil_r, Z.add_0_r. done. }
  cbn [length] in Hlen. destruct (world_step_inv n w log a ltac:(lia) Hinv) as (w1 & ids1 & -> & Hinv1).
  destruct (IH (n + 1)%Z w1 (log ++ ids1) ltac:(lia) ltac:(lia) Hinv1) as (w2 & ids2 & Hrun & Hinv2).
  cbn [mbind outcome_bind]. rewrite Hrun. cbn [mbind outcome_bind]. exists w2, (ids1 ++ ids2). split; [done|].
  rewrite app_assoc. replace (n + Z.of_nat (length (a :: actions)))%Z with (n + 1 + Z.of_nat (length actions))%Z by (cbn [length]; lia). done.
Qed.

Lemma start_inv : run_inv 0 start_world [].
Proof.
  split; [intros b Hb; by apply not_elem_of_nil in Hb|]. exists ∅. split_and!; try done.
  - intros s ->%list_elem_of_singleton. split; try done. exists []. cbn. split_and!; try done. repeat constructor.
  - constructor.
  - intros id Hid. by apply not_elem_of_nil in Hid.
Qed.

(** ** Theorems *)

(** A snapshot of a scope is a scope of its own over the same frames and the
    same generator: it defines the same identifiers under the same aliases, in
    cells that did not exist before, so that what is done to a definition of one
    is not seen by the other; each copy is the original with dependencies of the
    same names, and a dependency that is itself defined is the copy of that
    definition. *)
Theorem Scope_Snapshot_isolated h s : heap_closed h -> scope_closed h s ->
  exists h' s', Scope_Snapshot h s = Done (h', s') /\ same_but_bindings h h' /\ heap_closed h' /\
    (forall a b, h_bindings h !! a = Some b -> h_bindings h' !! a = Some b) /\
    sc_nextFrameID s' = sc_nextFrameID s /\ sc_stack s' = sc_stack s /\ sc_generator s' = sc_generator s /\
    sc_aliases s' = sc_aliases s /\ dom (sc_definitions s') = dom (sc_definitions s) /\
    (forall id a', sc_definitions s' !! id = Some a' -> length (h_bindings h) <= a') /\
    forall id a a' b, sc_definitions s !! id = Some a -> sc_definitions s' !! id = Some a' -> h_bindings h !! a = Some b ->
      exists deps, h_bindings h' !! a' = Some (with_dependencies b deps) /\
        Forall2 (same_dependency h h' s') (bi_Dependencies b) deps.
Proof. apply Snapshot_spec. Qed.

(** The names a translation generates are never used twice: in any run of
    definitions, frames, aliases and dependencies over a scope and snapshots of
    it, nothing panics, the generated identifiers are pairwise different, and in
    every scope each identifier leads to a binding of that name and the frames on
    the stack carry increasing numbers. *)
Theorem generated_identifiers_fresh actions : (Z.of_nat (length actions) <= 2 ^ 62)%Z ->
  exists w ids, world_run actions start_world = Done (w, ids) /\ NoDup ids /\
    forall s, s ∈ w_scopes w -> scope_closed (w_heap w) s /\
      exists numbers, (frame_id (w_heap w) <$> sc_stack s) = Some <$> numbers /\ StronglySorted Z.lt numbers.
Proof.
  intros Hlen. destruct (world_run_inv actions 0 start_world [] ltac:(lia) ltac:(lia) start_inv) as (w & ids & Hrun & Hinv).
  destruct Hinv as (_ & g & _ & _ & Hwf & Hnd & _). exists w, ids. split_and!; [done..|].
  intros s Hs. destruct (Hwf s Hs) as [_ H2 _ (nums & Hn & Hsort & _)]. split; [done|]. exists nums. split; [done|].
  by apply StronglySorted_app in Hsort as (_ & ? & _).
Qed.

(** *** Frames and the stack *)

Lemma IdentifierSet_Add_spec s ids : IdentifierSet_Add s ids = s ∪ list_to_set ids.
Proof.
  unfold IdentifierSet_Add. revert s. induction ids as [|id ids IH]; intros s; cbn [foldl list_to_set]; [set_solver|].
  rewrite IH. case_bool_decide; set_solver.
Qed.

Lemma IdentifierSet_Remove_spec s ids : IdentifierSet_Remove s ids = s ∖ list_to_set ids.
Proof.
  unfold IdentifierSet_Remove. revert s. induction ids as [|id ids IH]; intros s; cbn [foldl list_to_set]; [set_solver|].
  rewrite IH. set_solver.
Qed.

Lemma IdentifierSet_Satisfies_spec s other : IdentifierSet_Satisfies s other = true <-> other ⊆ s.
Proof.
  unfold IdentifierSet_Satisfies. rewrite forallb_forall. split.
  - intros H x Hx. specialize (H x ltac:(by apply list_elem_of_In, elem_of_elements)). by apply bool_decide_eq_true in H.
  - intros H x Hx. apply bool_decide_eq_true, H, elem_of_elements. by apply list_elem_of_In.
Qed.

Lemma IdentifierSet_Matches_spec s other : IdentifierSet_Matches s other = true <-> s = other.
Proof.
  unfold IdentifierSet_Matches. rewrite andb_true_iff, Nat.eqb_eq, IdentifierSet_Satisfies_spec. split; [|by intros ->].
  intros [Hs Hsub]. symmetry. apply set_subseteq_size_eq; [done|lia].
Qed.

Lemma Frame_Stash_sets f id :
  fr_Visible (Frame_Stash f id) = fr_Visible f ∖ {[id]} /\ fr_Exported (Frame_Stash f id) = fr_Exported f ∖ {[id]} /\
  fr_stashedVisible (Frame_Stash f id) = fr_stashedVisible f ∪ (fr_Visible f ∩ {[id]}) /\
  fr_stashedExported (Frame_Stash f id) = fr_stashedExported f ∪ (fr_Exported f ∩ {[id]}).
Proof.
  unfold Frame_Stash. repeat case_bool_decide; cbn in *; rewrite ?IdentifierSet_Remove_spec, ?IdentifierSet_Add_spec; cbn.
  all: split_and!; repeat case_bool_decide; set_solver.
Qed.

Lemma stash_more (T V L : IdentifierSet) x : T ∪ (V ∩ {[x]}) ∪ ((V ∖ {[x]}) ∩ L) = T ∪ (V ∩ ({[x]} ∪ L)).
Proof. apply set_eq. intros y. destruct (decide (y = x)) as [->|]; set_solver. Qed.

Lemma stash_back (T V L : IdentifierSet) : T ⊆ V -> (V ∖ L) ∪ (T ∪ (V ∩ L)) = V.
Proof. intros H. apply set_eq. intros y. destruct (decide (y ∈ L)); set_solver. Qed.

Lemma Frame_Stash_all ids : forall f, let g := foldl Frame_Stash f ids in
  fr_Visible g = fr_Visible f ∖ list_to_set ids /\ fr_Exported g = fr_Exported f ∖ list_to_set ids /\
  fr_stashedVisible g = fr_stashedVisible f ∪ (fr_Visible f ∩ list_to_set ids) /\
  fr_stashedExported g = fr_stashedExported f ∪ (fr_Exported f ∩ list_to_set ids).
Proof.
  induction ids as [|id ids IH]; intros f; cbn [foldl list_to_set]; [clear; cbn; set_solver|].
  destruct (IH (Frame_Stash f id)) as (H1 & H2 & H3 & H4), (Frame_Stash_sets f id) as (E1 & E2 & E3 & E4). clear IH.
  cbn zeta in *. rewrite H1, H2, H3, H4, E1, E2, E3, E4, !stash_more. clear.
  split_and!; [by rewrite difference_difference_l_L..|done|done].
Qed.

(** Stashing hides identifiers, and restoring shows what was visible or
    exported before; what is stashed already must have been so. *)
Lemma Frame_Stash_restore ids f :
  let g := foldl Frame_Stash f ids in
  fr_Visible g = fr_Visible f ∖ list_to_set ids /\ fr_Exported g = fr_Exported f ∖ list_to_set ids /\
  (fr_stashedVisible f ⊆ fr_Visible f -> fr_stashedExported f ⊆ fr_Exported f ->
   fr_Visible (Frame_RestoreStashed g) = fr_Visible f /\ fr_Exported (Frame_RestoreStashed g) = fr_Exported f).
Proof.
  intros g. destruct (Frame_Stash_all ids f) as (H1 & H2 & H3 & H4). fold g in H1, H2, H3, H4. split_and!; try done.
  intros Hv He. unfold Frame_RestoreStashed, IdentifierSet_MergeSet. cbn. rewrite H1, H2, H3, H4. by rewrite !stash_back.
Qed.

(** UnwindToFrame goes back to exactly the given frame: of a frame on the
    stack, everything above it is popped and nothing else, since no other frame of
    the stack has its number; for a frame whose number is not on the stack the
    call is an error and the scope stays as it was. *)
Theorem Scope_UnwindToFrame_exact h s n a f : frames_ok h n s -> h_frames h !! a = Some f ->
  (forall i, sc_stack s !! i = Some a -> Scope_UnwindToFrame h s (Some a) = Done (Some (with_stack s (take (S i) (sc_stack s))))) /\
  ((forall b, b ∈ sc_stack s -> frame_id h b <> Some (fr_id f)) -> Scope_UnwindToFrame h s (Some a) = Done None).
Proof.
  intros (ids & Hids & Hsort & _) Hf. unfold Scope_UnwindToFrame, get_frame. cbn [not_nil mbind outcome_bind].
  rewrite (slice_get_nat _ _ f) by done. cbn [mbind outcome_bind]. apply StronglySorted_app in Hsort as (_ & Hsort & _).
  assert (Hframe : forall k b, sc_stack s !! k = Some b -> exists fb, h_frames h !! b = Some fb /\ ids !! k = Some (fr_id fb)).
  { intros k b Hb. apply (f_equal (.!! k)) in Hids. rewrite !list_lookup_fmap, Hb in Hids. cbn in Hids. unfold frame_id in Hids.
    destruct (h_frames h !! b) as [fb|]; [|by destruct (ids !! k)]. exists fb. split; [done|]. destruct (ids !! k); cbn in Hids; congruence. }
  assert (Hturn : forall k b fb, sc_stack s !! k = Some b -> h_frames h !! b = Some fb ->
    unwind_loop h s (fr_id f) (S k) = if (fr_id fb =? fr_id f)%Z then Done (Some (with_stack s (take (S k) (sc_stack s))))
                                      else unwind_loop h s (fr_id f) k).
  { intros k b fb Hb Hfb. cbn [unwind_loop]. rewrite (slice_get_nat _ _ b) by done. cbn [mbind outcome_bind]. unfold get_frame.
    by rewrite (slice_get_nat _ _ fb) by done. }
  split.
  - intros i Hi. destruct (Hframe i a Hi) as (f' & Hf' & Hidi). assert (f' = f) as -> by congruence.
    assert (Hgo : forall k, i < k <= length (sc_stack s) -> unwind_loop h s (fr_id f) k = Done (Some (with_stack s (take (S i) (sc_stack s))))).
    { induction k as [|k IH]; intros Hk; [lia|]. destruct (lookup_lt_is_Some_2 (sc_stack s) k ltac:(lia)) as [b Hb].
      destruct (Hframe k b Hb) as (fb & Hfb & Hidk). rewrite (Hturn k b fb Hb Hfb). destruct (decide (k = i)) as [->|Hne].
      - assert (fb = f) as -> by congruence. by rewrite Z.eqb_refl.
      - assert (Hlt : (fr_id f < fr_id fb)%Z) by (apply (sorted_lookup_lt ids _ _ _ _ ltac:(done) Hidi Hidk); lia).
        rewrite (proj2 (Z.eqb_neq _ _)) by lia. apply IH. lia. }
    apply Hgo. apply lookup_lt_Some in Hi. lia.
  - intros Hnone. assert (Hgo : forall k, k <= length (sc_stack s) -> unwind_loop h s (fr_id f) k = Done None); [|by apply Hgo].
    induction k as [|k IH]; intros Hk; [done|]. destruct (lookup_lt_is_Some_2 (sc_stack s) k ltac:(lia)) as [b Hb].
    destruct (Hframe k b Hb) as (fb & Hfb & _). rewrite (Hturn k b fb Hb Hfb).
    specialize (Hnone b ltac:(by eapply list_elem_of_lookup_2)). unfold frame_id in Hnone. rewrite Hfb in Hnone. cbn in Hnone.
    rewrite (proj2 (Z.eqb_neq _ _)) by congruence. apply IH. lia.
Qed.

(** *** Pruning *)

(** The alias under which the range first meets [id]. *)
Definition first_alias (order : list (string * string)) (id : string) : option string :=
  fst <$> List.find (fun p => bool_decide (p.2 = id)) order.

Section prune.
Context (s : scope) (order : list (string * string)) (Horder : order ≡ₚ map_to_list (sc_aliases s)).

Lemma first_alias_Some id alias : first_alias order id = Some alias -> sc_aliases s !! alias = Some id.
Proof using Horder.
  unfold first_alias. destruct (List.find _ order) as [[al i]|] eqn:Hf; [|done]. intros [= <-].
  apply find_some in Hf as [Hin Hi]. apply bool_decide_eq_true in Hi. cbn in Hi. subst i.
  apply elem_of_map_to_list. rewrite <- Horder. by apply list_elem_of_In.
Qed.

Lemma first_alias_None id alias : first_alias order id = None -> sc_aliases s !! alias <> Some id.
Proof using Horder.
  unfold first_alias. destruct (List.find _ order) as [|] eqn:Hf; [done|]. intros _ Ha.
  apply elem_of_map_to_list in Ha. rewrite <- Horder in Ha. apply list_elem_of_In in Ha.
  apply (find_none _ _ Hf) in Ha. by apply bool_decide_eq_false in Ha.
Qed.

(** The maps after the identifiers [P]. *)
Definition pruned (P : gset string) (st : gmap string string * gmap string nat) : Prop :=
  (forall alias id, st.1 !! alias = Some id <-> id ∈ P /\ first_alias order id = Some alias) /\
  (forall id, st.2 !! id = if decide (id ∈ P) then sc_definitions s !! id else None).

Lemma prune_turn_pruned P st id a : sc_definitions s !! id = Some a -> pruned P st ->
  exists st', prune_turn s order id st = Some st' /\ pruned ({[id]} ∪ P) st'.
Proof using Horder.
  intros Hid [Hal Hdef]. unfold prune_turn. rewrite Hid. eexists. split; [done|]. split; cbn [fst snd].
  - intros alias i. destruct (List.find _ order) as [[al i0]|] eqn:Hf.
    + assert (Hfirst : first_alias order id = Some al) by (unfold first_alias; by rewrite Hf).
      apply first_alias_Some in Hfirst as Hs'. destruct (decide (alias = al)) as [->|Hne].
      * rewrite lookup_insert_eq. split; [intros [= <-]; set_solver|]. intros [_ Hi]. apply first_alias_Some in Hi. congruence.
      * rewrite lookup_insert_ne by done. rewrite Hal. split; [set_solver|]. intros [Hi Hfi]. split; [|done].
        apply elem_of_union in Hi as [->%elem_of_singleton|Hi]; [|done]. congruence.
    + assert (Hfirst : first_alias order id = None) by (unfold first_alias; by rewrite Hf).
      rewrite Hal. split; [set_solver|]. intros [Hi Hfi]. split; [|done].
      apply elem_of_union in Hi as [->%elem_of_singleton|Hi]; [|done]. congruence.
  - intros i. destruct (decide (i = id)) as [->|Hne].
    + rewrite lookup_insert_eq, decide_True by set_solver. done.
    + rewrite lookup_insert_ne, Hdef by done. destruct (decide (i ∈ P)), (decide (i ∈ {[id]} ∪ P)); set_solver.
Qed.

Lemma prune_loop_spec ids : forall P st, pruned P st ->
  match prune_loop s order ids st with
  | Some st' => pruned (list_to_set ids ∪ P) st' /\ forall id, id ∈ ids -> is_Some (sc_definitions s !! id)
  | None => exists id, id ∈ ids /\ sc_definitions s !! id = None
  end.
Proof using Horder.
  induction ids as [|id ids IH]; intros P st Hp; cbn [prune_loop list_to_set].
  { rewrite (left_id_L ∅ (∪)). split; [done|]. intros id Hid. by apply not_elem_of_nil in Hid. }
  destruct (sc_definitions s !! id) as [a|] eqn:Hid.
  - destruct (prune_turn_pruned P st id a Hid Hp) as (st1 & -> & Hp1). specialize (IH _ _ Hp1).
    destruct (prune_loop s order ids st1) as [st'|].
    + destruct IH as [H1 H2]. split; [by rewrite (union_comm_L {[id]}), <- (assoc_L (∪))|].
      intros i Hi. apply elem_of_cons in Hi as [->|Hi]; [by exists a|by apply H2].
    + destruct IH as (i & Hi & Hn). exists i. split; [by right|done].
  - unfold prune_turn. rewrite Hid. exists id. split; [by left|done].
Qed.
End prune.

Lemma elem_Slice (P : IdentifierSet) id : id ∈ IdentifierSet_Slice P <-> id ∈ P.
Proof. unfold IdentifierSet_Slice. by rewrite merge_sort_Permutation, elem_of_elements. Qed.

(** PruneDefinitions leaves exactly the protected identifiers: when all of
    them are defined, the scope keeps their definitions and no other, one alias of
    each that has any, and the current frame shows and exports exactly them; when
    one is not defined, the call is an error.  Which alias is kept depends on the
    order in which the range visits them. *)
Theorem Scope_PruneDefinitions_exact h s order P a f :
  order ≡ₚ map_to_list (sc_aliases s) -> Scope_CurrentFrame s = Some a -> h_frames h !! a = Some f ->
  (P ⊆ dom (sc_definitions s) ->
   exists s', Scope_PruneDefinitions h s order P =
      Done (inl (set_frames h (<[a := with_sets f P (fr_stashedVisible f) P (fr_stashedExported f)]> (h_frames h)), s')) /\
     sc_stack s' = sc_stack s /\ sc_generator s' = sc_generator s /\
     (forall id, sc_definitions s' !! id = if decide (id ∈ P) then sc_definitions s !! id else None) /\
     (forall alias id, sc_aliases s' !! alias = Some id -> id ∈ P /\ sc_aliases s !! alias = Some id) /\
     (forall alias id, id ∈ P -> sc_aliases s !! alias = Some id -> exists kept, sc_aliases s' !! kept = Some id /\
        forall other, sc_aliases s' !! other = Some id -> other = kept)) /\
  (~ P ⊆ dom (sc_definitions s) -> Scope_PruneDefinitions h s order P = Done (inr tt)).
Proof.
  intros Horder Ha Hf. unfold Scope_PruneDefinitions.
  assert (H0 : pruned s order ∅ (∅, ∅)).
  { split; [intros alias id; cbn; rewrite lookup_empty; set_solver|]. intros id. cbn. by rewrite lookup_empty, decide_False by set_solver. }
  pose proof (prune_loop_spec s order Horder (IdentifierSet_Slice P) ∅ (∅, ∅) H0) as Hloop.
  assert (Hset : list_to_set (IdentifierSet_Slice P) ∪ ∅ = P) by (apply set_eq; intros id; rewrite elem_of_union, elem_of_list_to_set, elem_Slice; set_solver).
  rewrite Hset in Hloop. destruct (prune_loop _ _ _ _) as [[aliases definitions]|].
  - destruct Hloop as [[Hal Hdef] Hall]. cbn [fst snd] in *. split.
    + intros _. eexists. split.
      { change (Scope_CurrentFrame (mkScope (sc_nextFrameID s) (sc_stack s) (sc_generator s) aliases definitions)) with (Scope_CurrentFrame s).
        rewrite Ha. cbn [not_nil mbind outcome_bind]. unfold update_frame, get_frame. by rewrite (slice_get_nat _ _ f) by done. }
      cbn. split_and!; try done.
      * intros alias id Hid. apply Hal in Hid as [HP Hfirst]. split; [done|]. by eapply first_alias_Some.
      * intros alias id HP Hid. destruct (first_alias order id) as [kept|] eqn:Hk.
        { exists kept. split; [by apply Hal|]. intros other Ho. apply Hal in Ho as [_ Ho]. congruence. }
        exfalso. by apply (first_alias_None s order Horder id alias Hk).
    + intros Hn. exfalso. apply Hn. intros id Hid. apply elem_of_dom, Hall. by apply elem_Slice.
  - destruct Hloop as (id & Hid & Hnone). split; [|done]. intros Hsub. exfalso. apply elem_Slice, Hsub, elem_of_dom in Hid.
    rewrite Hnone in Hid. by destruct Hid.
Qed.

(** *** A run: a node in a frame, a snapshot, and definitions on both sides *)

Definition demo_actions : list scope_action :=
  [APushFrame 0; ADefineNew 0 NodeComposite; AAlias 0 "a" "n0"; ADefineNew 0 EdgeComposite; ADepend 0 "e0" "n0"; ASnapshot 0;
   ADefineNew 0 NodeComposite; ADefineNew 1 NodeComposite; APushFrame 1; ADefineNew 1 PathEdge].

Definition demo_world : world := match world_run demo_actions start_world with Done (w, _) => w | _ => start_world end.
Definition demo_generated : list string := match world_run demo_actions start_world with Done (_, ids) => ids | _ => [] end.
Definition demo_scope : scope := default (mkScope 0 [] 0 ∅ ∅) (head (w_scopes demo_world)).

Lemma generated_identifiers_fresh_witness :
  demo_generated = ["s0"; "n0"; "e0"; "n1"; "n2"; "s1"; "e1"] /\ NoDup demo_generated.
Proof.
  split; [vm_compute; reflexivity|].
  destruct (generated_identifiers_fresh demo_actions) as (w & ids & Hrun & Hnd & _); [vm_compute; discriminate|].
  unfold demo_generated. rewrite Hrun. exact Hnd.
Defined.

(** Closedness is decidable; the demo is checked by evaluation. *)
Definition closed_check (h : heap) (s : scope) : bool :=
  forallb (fun b => forallb (fun d => match d with Some x => x <? length (h_bindings h) | None => true end) (bi_Dependencies b)) (h_bindings h) &&
  forallb (fun p => bool_decide (bi_Identifier <$> h_bindings h !! p.2 = Some p.1)) (map_to_list (sc_definitions s)).

Lemma closed_check_sound h s : closed_check h s = true -> heap_closed h /\ scope_closed h s.
Proof.
  unfold closed_check. rewrite andb_true_iff, !forallb_forall. intros [H1 H2]. split.
  - intros b Hb x Hx. apply list_elem_of_In in Hb. specialize (H1 b Hb). rewrite forallb_forall in H1.
    specialize (H1 (Some x) ltac:(by apply list_elem_of_In)). by apply Nat.ltb_lt in H1.
  - intros id a Ha. apply elem_of_map_to_list, list_elem_of_In in Ha. specialize (H2 _ Ha). apply bool_decide_eq_true in H2. cbn in H2.
    destruct (h_bindings h !! a) as [b|]; [|done]. exists b. split; [done|]. cbn in H2. congruence.
Qed.

Lemma Scope_Snapshot_isolated_witness :
  exists h' s', Scope_Snapshot (w_heap demo_world) demo_scope = Done (h', s') /\
    dom (sc_definitions s') = dom (sc_definitions demo_scope) /\ sc_stack s' = [0].
Proof.
  destruct (closed_check_sound (w_heap demo_world) demo_scope) as [H1 H2]; [vm_compute; reflexivity|].
  destruct (Scope_Snapshot_isolated (w_heap demo_world) demo_scope H1 H2) as (h' & s' & E & _ & _ & _ & _ & Hst & _ & _ & Hdom & _).
  exists h', s'. split; [exact E|]. split; [exact Hdom|]. rewrite Hst. vm_compute. reflexivity.
Defined.

Definition demo_frame (id : Z) : Frame := mkFrame id None None {["n0"; "e0"]} ∅ {["n0"]} ∅ false.
Definition demo_heap : heap := mkHeap [demo_frame 0; demo_frame 1; demo_frame 2] [] [].
Definition demo_stack : scope :=
  mkScope 3 [0; 1; 2] 0 {["a" := "n0"; "b" := "n0"; "c" := "e0"]} {["n0" := 0; "e0" := 1; "n1" := 2]}.

Lemma Scope_UnwindToFrame_exact_witness :
  Scope_UnwindToFrame demo_heap demo_stack (Some 1) = Done (Some (with_stack demo_stack [0; 1])).
Proof.
  assert (Hok : frames_ok demo_heap 3 demo_stack).
  { exists [0; 1; 2]%Z. split; [reflexivity|]. split; [repeat constructor|cbn; lia]. }
  destruct (Scope_UnwindToFrame_exact demo_heap demo_stack 3 1 (demo_frame 1) Hok eq_refl) as [Hon _]. exact (Hon 1 eq_refl).
Defined.

Lemma Scope_PruneDefinitions_exact_witness :
  exists s' h', Scope_PruneDefinitions demo_heap demo_stack (map_to_list (sc_aliases demo_stack)) {["n0"]} = Done (inl (h', s')) /\
    sc_definitions s' !! "n0" = Some 0 /\ sc_definitions s' !! "e0" = None.
Proof.
  destruct (Scope_PruneDefinitions_exact demo_heap demo_stack (map_to_list (sc_aliases demo_stack)) {["n0"]} 2 (demo_frame 2)) as [Hok _];
    [done|reflexivity|reflexivity|].
  destruct Hok as (s' & E & _ & _ & Hdef & _); [apply (bool_decide_unpack _); vm_compute; exact I|].
  exists s'. eexists. split; [exact E|]. split; rewrite Hdef; reflexivity.
Defined.
