(* ===== verification/SqlAst.v ===== *)
(** * The SQL syntax tree and its walk (cypher/models/pgsql/model.go, cypher/models/walk/walk_pgsql.go)

    [SyntaxNode] has a constructor for every type [newSQLWalkCursor] negotiates,
    with the fields that the walk or one of its visitors reads; [SNil] is the nil
    interface.  A flag tells a pointer from a value where the code treats them
    differently.  The cursor constructor is total and each branch is smaller than
    its node ([branch_weight]), so every walk of a tree ends, and visitors that look
    for a node or collect from all of them have closed forms ([finder_nodes],
    [collector_nodes]) that the analyses of the translator share. *)

From S2P Require Import Prelude Framing Walk WalkTree Kinds Mapper DataTypes Scope.

(** ** Syntax nodes *)

(** The value of a literal: a string, an array of kind identifiers, or something else. *)
Inductive literal := LText (text : string) | LInt2Array (values : list Z) | LOther.

Inductive SyntaxNode :=
| SNil
| SQuery (ctes body : SyntaxNode) (orderBy : list SyntaxNode) (offset limit : SyntaxNode)
| SWith (expressions : list SyntaxNode)
| SCommonTableExpression (query alias : SyntaxNode)
| SProjection (items : list SyntaxNode)
| SCase (operand : SyntaxNode) (conditions thens : list SyntaxNode) (otherwise : SyntaxNode)
| SOrderBy (expression : SyntaxNode)
| SSelect (projection from : list SyntaxNode) (condition : SyntaxNode) (groupBy : list SyntaxNode) (having : SyntaxNode)
| SFromClause (source : SyntaxNode) (joins : list SyntaxNode)
| SAliasedExpression (expression : SyntaxNode) (alias : option string)
| SSetOperation (l r : SyntaxNode)
| SCompositeValue (values : list SyntaxNode)
| STableReference (name : list string) (binding : option string)
| STableAlias (name : string) (shape : option (list string))
| SRecordShape (pointer : bool) (columns : list string)
| STypeCast (expression : SyntaxNode) (cast : DataType)
| SParenthetical (expression : SyntaxNode)
| SEdgeArrayFromPathIDs (pathIDs : SyntaxNode)
| SFunctionCall (function : string) (parameters : list SyntaxNode)
| SVariadic (expression : SyntaxNode)
| SCompoundIdentifier (identifiers : list string)
| SOperator (operator : Operator)
| SLiteral (value : literal) (cast : DataType)
| SIdentifier (identifier : string)
| SParameter (identifier : string)
| SArrayLiteral (values : list SyntaxNode)
| SArrayExpression (expression : SyntaxNode)
| SAllExpression (expression : SyntaxNode)
| SAnyExpression (pointer : bool) (expression : SyntaxNode)
| SUnaryExpression (pointer : bool) (operator : Operator) (operand : SyntaxNode)
| SBinaryExpression (pointer : bool) (operator : Operator) (l r : SyntaxNode)
| SJoin (table joinOperator : SyntaxNode)
| SLateralSubquery (query : SyntaxNode) (binding : option string)
| SJoinOperator (constraint : SyntaxNode)
| SRowColumnReference (identifier : SyntaxNode) (column : string)
| SArrayIndex (expression : SyntaxNode) (indexes : list SyntaxNode)
| SArraySlice (expression lower upper : SyntaxNode)
| SExistsExpression (subquery : SyntaxNode)
| SProjectionFrom (projection from : list SyntaxNode)
| SSubquery (query : SyntaxNode)
| SFormattingLiteral (text : string)
| SFuture (node : SyntaxNode)
| SOther (type_name : string).

Definition is_nil (n : SyntaxNode) : bool := match n with SNil => true | _ => false end.

Definition NewLiteral (value : literal) (cast : DataType) : SyntaxNode := SLiteral value cast.
Definition NewParenthetical (expression : SyntaxNode) : SyntaxNode := SParenthetical expression.
Definition NewBinaryExpression (l : SyntaxNode) (operator : Operator) (r : SyntaxNode) : SyntaxNode :=
  SBinaryExpression true operator l r.

Definition OptionalAnd (l r : SyntaxNode) : SyntaxNode :=
  if is_nil l then r else if is_nil r then l else NewBinaryExpression l OperatorAnd r.

Definition ColumnID : string := "id".
Definition ColumnStartID : string := "start_id".
Definition ColumnEndID : string := "end_id".
Definition ColumnKindIDs : string := "kind_ids".
Definition ColumnKindID : string := "kind_id".

(** ** The cursor constructor *)

Definition unsupported (type_name : string) : error :=
  Errorf ("unable to negotiate sql type " +:+ type_name +:+ " into a translation cursor").

(** A nil element fails the conversion of its slice. *)
Definition pgsqlSyntaxNodeSliceTypeConvert (fs : list SyntaxNode) : list SyntaxNode + error :=
  if existsb is_nil fs
  then inr (Errorf "cypherSyntaxNodeSliceTypeConvert[F]: invalid type <nil> does not convert to <nil>")
  else inl fs.

Definition present (n : SyntaxNode) : list SyntaxNode := if is_nil n then [] else [n].
Definition bound (identifier : option string) : list SyntaxNode :=
  match identifier with Some i => [SIdentifier i] | None => [] end.

Fixpoint alternate (conditions thens : list SyntaxNode) : list SyntaxNode :=
  match conditions, thens with
  | c :: cs, t :: ts => c :: t :: alternate cs ts
  | _, _ => []
  end.

Definition newSQLCaseWalkCursor (operand : SyntaxNode) (conditions thens : list SyntaxNode) (otherwise : SyntaxNode)
    : list SyntaxNode + error :=
  if length conditions =? length thens
  then inl (present operand ++ alternate conditions thens ++ present otherwise)
  else inr (Errorf ("case expression has " +:+ pretty (length conditions) +:+ " conditions and " +:+
                    pretty (length thens) +:+ " then expressions")).

Definition with_slice (fs : list SyntaxNode) (k : list SyntaxNode -> list SyntaxNode) : list SyntaxNode + error :=
  match pgsqlSyntaxNodeSliceTypeConvert fs with inl branches => inl (k branches) | inr err => inr err end.

(** The branches of a node. *)
Definition sql_branches (node : SyntaxNode) : list SyntaxNode + error :=
  match node with
  | SNil => inr (unsupported "<nil>")
  | SQuery ctes body _ _ _ => inl (present ctes ++ [body])
  | SWith expressions => with_slice expressions id
  | SCommonTableExpression query alias => inl [query; alias]
  | SProjection items => inl items
  | SCase operand conditions thens otherwise => newSQLCaseWalkCursor operand conditions thens otherwise
  | SOrderBy expression => inl [expression]
  | SSelect projection from condition _ having =>
      with_slice from (fun branches => SProjection projection :: branches ++ present condition ++ present having)
  | SFromClause source joins => with_slice joins (fun branches => source :: branches)
  | SAliasedExpression expression alias => inl (expression :: bound alias)
  | SSetOperation l r => inl [l; r]
  | SCompositeValue values => with_slice values id
  | STableReference name binding => inl (SCompoundIdentifier name :: bound binding)
  | STableAlias name shape =>
      inl (SIdentifier name :: match shape with Some columns => [SRecordShape true columns] | None => [] end)
  | SRecordShape false columns => inl (SIdentifier <$> columns)
  | SRecordShape true _ => inr (unsupported "*pgsql.RecordShape")
  | STypeCast expression _ => inl [expression]
  | SParenthetical expression => inl [expression]
  | SEdgeArrayFromPathIDs pathIDs => inl [pathIDs]
  | SFunctionCall _ parameters => with_slice parameters id
  | SVariadic expression => inl [expression]
  | SCompoundIdentifier _ | SOperator _ | SLiteral _ _ | SIdentifier _ | SParameter _ => inl []
  | SArrayLiteral values => with_slice values id
  | SArrayExpression expression => inl [expression]
  | SAllExpression expression => inl [expression]
  | SAnyExpression true expression => inl [expression]
  | SAnyExpression false _ => inr (unsupported "pgsql.AnyExpression")
  | SUnaryExpression _ _ operand => inl [operand]
  | SBinaryExpression _ _ l r => inl [l; r]
  | SJoin table joinOperator => inl [table; joinOperator]
  | SLateralSubquery query binding => inl (query :: bound binding)
  | SJoinOperator constraint => inl [constraint]
  | SRowColumnReference identifier column => inl [identifier; SIdentifier column]
  | SArrayIndex expression indexes => with_slice indexes (fun branches => expression :: branches)
  | SArraySlice expression lower upper => inl (expression :: present lower ++ present upper)
  | SExistsExpression subquery => inl [subquery]
  | SProjectionFrom projection from => with_slice from (fun branches => SProjection projection :: branches)
  | SSubquery query => inl [query]
  | SFormattingLiteral _ => inl []
  | SFuture node => inl (present node)
  | SOther type_name => inr (unsupported type_name)
  end.

Definition newSQLWalkCursor (node : SyntaxNode) : Cursor SyntaxNode + error :=
  match sql_branches node with inl branches => inl (mkCursor node branches 0) | inr err => inr err end.

(** ** The size of a node *)

Fixpoint weight (n : SyntaxNode) : nat :=
  let many := sum_list_with weight in
  match n with
  | SNil | SCompoundIdentifier _ | SOperator _ | SLiteral _ _ | SIdentifier _ | SParameter _ | SFormattingLiteral _
  | SOther _ => 1
  | SRecordShape _ columns => 2 + length columns
  | STableReference _ _ => 3
  | STableAlias _ shape => match shape with Some columns => 4 + length columns | None => 3 end
  | SQuery ctes body orderBy offset limit => S (weight ctes + weight body + many orderBy + weight offset + weight limit)
  | SWith ns | SProjection ns | SCompositeValue ns | SFunctionCall _ ns | SArrayLiteral ns => S (many ns)
  | SCommonTableExpression a b | SSetOperation a b | SBinaryExpression _ _ a b | SJoin a b => S (weight a + weight b)
  | SCase operand conditions thens otherwise => S (weight operand + many conditions + many thens + weight otherwise)
  | SSelect projection from condition groupBy having =>
      2 + many projection + many from + weight condition + many groupBy + weight having
  | SFromClause n ns | SArrayIndex n ns => S (weight n + many ns)
  | SAliasedExpression n _ | SLateralSubquery n _ | SRowColumnReference n _ => 2 + weight n
  | SOrderBy n | STypeCast n _ | SParenthetical n | SEdgeArrayFromPathIDs n | SVariadic n | SArrayExpression n
  | SAllExpression n | SAnyExpression _ n | SUnaryExpression _ _ n | SJoinOperator n | SExistsExpression n
  | SSubquery n | SFuture n => S (weight n)
  | SArraySlice a b c => S (weight a + weight b + weight c)
  | SProjectionFrom projection from => 2 + many projection + many from
  end.

Notation weights := (sum_list_with weight).

Lemma weight_pos n : 0 < weight n.
Proof. destruct n; cbn; try lia. destruct shape; lia. Qed.

Lemma weights_elem n ns : n ∈ ns -> weight n <= weights ns.
Proof. induction 1; cbn; lia. Qed.

Lemma weights_app ns ns' : weights (ns ++ ns') = weights ns + weights ns'.
Proof. induction ns; cbn; lia. Qed.

Lemma weights_present n : weights (present n) <= weight n.
Proof. unfold present. destruct (is_nil n); cbn; lia. Qed.

Lemma weights_bound i : weights (bound i) <= 1.
Proof. destruct i; cbn; lia. Qed.

Lemma weights_alternate cs : forall ts, weights (alternate cs ts) <= weights cs + weights ts.
Proof. induction cs as [|c cs IH]; intros [|t ts]; cbn; try lia. specialize (IH ts). lia. Qed.

Lemma weights_identifiers is_ : weights (SIdentifier <$> is_) = length is_.
Proof. induction is_; cbn; lia. Qed.

Lemma with_slice_inl fs k bs : with_slice fs k = inl bs -> bs = k fs.
Proof. unfold with_slice, pgsqlSyntaxNodeSliceTypeConvert. destruct (existsb is_nil fs); congruence. Qed.

Ltac bound_weights :=
  repeat match goal with
  | |- context [weights (present ?n)] => unless (weights (present n) <= weight n) by assumption; pose proof (weights_present n)
  | |- context [weights (bound ?i)] => unless (weights (bound i) <= 1) by assumption; pose proof (weights_bound i)
  | |- context [weights (alternate ?cs ?ts)] =>
      unless (weights (alternate cs ts) <= weights cs + weights ts) by assumption; pose proof (weights_alternate cs ts)
  end.

(** A node is heavier than its branches together. *)
Lemma branches_weight n bs : sql_branches n = inl bs -> weights bs < weight n.
Proof.
  destruct n; cbn [sql_branches]; unfold newSQLCaseWalkCursor; intros Hb; repeat case_match; simplify_eq;
    try (apply with_slice_inl in Hb as ->; unfold id); cbn; rewrite ?weights_app, ?weights_identifiers; cbn;
    bound_weights; lia.
Qed.

Lemma branch_weight n bs b : sql_branches n = inl bs -> b ∈ bs -> weight b < weight n.
Proof. intros Hb%branches_weight Hin%weights_elem. lia. Qed.

(** ** walk.PgSQL *)

#[export] Instance Sql_Syntax : Syntax SyntaxNode :=
  {| branches_of := sql_branches; weight_of := weight; branch_lighter := branch_weight |}.

Notation sql_tree := (tree_of (N := SyntaxNode)).

Definition PgSQL {St} (visitor : Visitor (N := SyntaxNode) (St := St)) (node : SyntaxNode) (s : St) : St * option error :=
  match Generic visitor newSQLWalkCursor (S (cost (sql_tree node))) node (NewCancelableErrorHandler, s) with
  | Done (st, err) => (st.2, err)
  | _ => (s, None)
  end.

Lemma PgSQL_run {St} (visitor : Visitor (N := SyntaxNode) (St := St)) node s : PgSQL visitor node s = run_walk visitor node s.
Proof. done. Qed.

Lemma sql_tree_eq n :
  sql_tree n = match sql_branches n with inl bs => Tree n (sql_tree <$> bs) | inr err => Broken err end.
Proof. exact (tree_of_eq n). Qed.

Lemma sql_walkable_branches n :
  walkable n = true -> exists bs, sql_branches n = inl bs /\ forall b, b ∈ bs -> walkable b = true.
Proof. exact (walkable_branches n). Qed.

(** ** Helpers of the translator on expressions (translate/expression.go, translate/constraints.go, translate/model.go) *)

(** The loop of [unwrapParenthetical]: a nil expression inside gives back what it started from. *)
Fixpoint unwrap_loop (parenthetical next : SyntaxNode) : SyntaxNode :=
  match next with
  | SNil => parenthetical
  | SParenthetical expression => unwrap_loop parenthetical expression
  | _ => next
  end.

Definition unwrapParenthetical (parenthetical : SyntaxNode) : SyntaxNode := unwrap_loop parenthetical parenthetical.

(** A future that is not satisfied yet. *)
Definition open_future (n : SyntaxNode) : bool := match n with SFuture SNil => true | _ => false end.

Definition future_visit (n : SyntaxNode) (satisfied : bool) : bool * action :=
  match n with
  | SFuture SNil => (false, Finish)
  | SFuture _ => (true, Proceed)
  | _ => (satisfied, Proceed)
  end.

Definition isSyntaxNodeSatisfied (node : SyntaxNode) : bool * option error :=
  PgSQL (NewSimpleVisitor (acting future_visit)) node true.

Definition reservedIdentifiers : list string := ["epoch"; "*"].

Definition IsReservedIdentifier (identifier : string) : bool :=
  existsb (fun reserved => bool_decide (identifier = reserved)) reservedIdentifiers.

(** [CompoundIdentifier.Root] panics on an empty one: [None]. *)
Definition reference_visit (n : SyntaxNode) (dependencies : option IdentifierSet) : option IdentifierSet * action :=
  let add identifier :=
    if IsReservedIdentifier identifier then dependencies
    else (fun d => IdentifierSet_Add d [identifier]) <$> dependencies in
  match n with
  | SIdentifier identifier => (add identifier, Proceed)
  | SCompoundIdentifier [] => (None, Finish)
  | SCompoundIdentifier (root :: _) => (add root, Proceed)
  | _ => (dependencies, Proceed)
  end.

Definition ExtractSyntaxNodeReferences (root : SyntaxNode) : option (IdentifierSet * option error) :=
  match PgSQL (NewSimpleVisitor (acting reference_visit)) root (Some ∅) with
  | (Some dependencies, err) => Some (dependencies, err)
  | (None, _) => None
  end.

Definition isEndpointIDReference (expression : SyntaxNode) (endpoint : string) : bool :=
  match unwrapParenthetical expression with
  | SCompoundIdentifier [root; column] => bool_decide (root = endpoint) && bool_decide (column = ColumnID)
  | _ => false
  end.

Definition is_inequality (leftEndpoint rightEndpoint : string) (n : SyntaxNode) : bool :=
  match n with
  | SBinaryExpression true operator l r =>
      OperatorIsIn operator [OperatorNotEquals; OperatorCypherNotEquals] &&
      ((isEndpointIDReference l leftEndpoint && isEndpointIDReference r rightEndpoint) ||
       (isEndpointIDReference l rightEndpoint && isEndpointIDReference r leftEndpoint))
  | _ => false
  end.

(** The error of the walk is dropped. *)
Definition expressionHasEndpointInequality (expression : SyntaxNode) (leftEndpoint rightEndpoint : string) : bool :=
  (PgSQL (NewSimpleVisitor (acting (finder (is_inequality leftEndpoint rightEndpoint)))) expression false).1.

Definition OperatorIsPropertyLookup (operator : Operator) : bool :=
  OperatorIsIn operator [OperatorPropertyLookup; OperatorJSONField; OperatorJSONTextField].

(** The reference and the field of a property lookup with the given operands;
    [type_name] is the name of a node's type that an error is formatted with. *)
Definition binaryExpressionToPropertyLookup (type_name : SyntaxNode -> string) (l r : SyntaxNode)
    : (list string * string) + error :=
  match l with
  | SCompoundIdentifier reference =>
      match r with
      | SLiteral value cast =>
          if bool_decide (cast = TText) then
            match value with
            | LText field => inl (reference, field)
            | _ => inr (Errorf ("expected property lookup field a string literal but found data type: " +:+ type_name r))
            end
          else inr (Errorf ("expected property lookup field a string literal but found data type: " +:+ DataType_String cast))
      | _ => inr (Errorf ("expected right operand for property lookup to be a literal but found type: " +:+ type_name r))
      end
  | _ => inr (Errorf ("expected left operand for property lookup to be a compound identifier but found type: " +:+ type_name l))
  end.

Definition is_lookup_of (root : string) (n : SyntaxNode) : bool :=
  match n with
  | SBinaryExpression true operator l r =>
      OperatorIsPropertyLookup operator &&
      match binaryExpressionToPropertyLookup (fun _ => "") l r with
      | inl (first :: _, _) => bool_decide (first = root)
      | _ => false
      end
  | _ => false
  end.

Definition expressionHasPropertyLookupRoot (expression : SyntaxNode) (root : string) : bool :=
  (PgSQL (NewSimpleVisitor (acting (finder (is_lookup_of root)))) expression false).1.

(** *** What they compute *)

Definition negated (r : bool * option (option error)) : bool * option (option error) := (negb r.1, r.2).

Lemma scan_future t : forall satisfied, satisfied = true ->
  scan future_visit t satisfied = negated (scan (finder open_future) t false).
Proof.
  induction t as [n ts IH|e] using tree_rect_nested; intros satisfied ->; [|done]. cbn [scan].
  assert (future_visit n true = (negb (finder open_future n false).1, (finder open_future n false).2)) as ->
    by (unfold finder; destruct n; try done; by destruct n).
  change (finder open_future n false) with (if open_future n then (true, Finish) else (false, Proceed)).
  destruct (open_future n); [done|]. cbn [fst snd negb].
  induction IH as [|t ts Ht _ IHts]; [done|]. cbn [scan_all]. rewrite Ht by done.
  assert (Hf : (scan (finder open_future) t false).2 = None -> (scan (finder open_future) t false).1 = false).
  { clear. induction t as [n ts IH|e] using tree_rect_nested; [|done]. cbn [scan].
    change (finder open_future n false) with (if open_future n then (true, Finish) else (false, Proceed)).
    destruct (open_future n); [done|]. induction IH as [|t ts Ht _ IHts]; [done|]. cbn [scan_all]. destruct (scan (finder open_future) t false) as [b [e|]]; [done|].
    cbn in Ht. by rewrite Ht. }
  destruct (scan (finder open_future) t false) as [b [e|]]; [done|]. cbn in Hf |- *. by rewrite Hf.
Qed.

(** An expression is satisfied when none of its futures is open. *)
Lemma isSyntaxNodeSatisfied_exact n : walkable n = true -> isSyntaxNodeSatisfied n = (negb (existsb open_future (nodes n)), None).
Proof.
  intros Hw. unfold isSyntaxNodeSatisfied. rewrite PgSQL_run, run_scan, scan_future by done. pose proof (finder_nodes open_future n Hw) as Hf.
  rewrite run_scan in Hf. injection Hf as <- Hs. unfold negated. cbn [fst snd]. by rewrite Hs.
Qed.

(** The identifier a node refers to. *)
Definition reference_of (n : SyntaxNode) : option string :=
  match n with
  | SIdentifier identifier => Some identifier
  | SCompoundIdentifier (root :: _) => Some root
  | _ => None
  end.

Definition rooted (n : SyntaxNode) : bool := match n with SCompoundIdentifier [] => false | _ => true end.

(** The identifiers an expression refers to, without the reserved ones. *)
Definition references (n : SyntaxNode) : IdentifierSet :=
  list_to_set (filter (fun i => IsReservedIdentifier i = false) (omap reference_of (nodes n))).

Definition add_reference (n : SyntaxNode) (d : option IdentifierSet) : option IdentifierSet :=
  match reference_of n with
  | Some i => if IsReservedIdentifier i then d else (fun d => IdentifierSet_Add d [i]) <$> d
  | None => d
  end.

Lemma scan_references t : forallb rooted (visits OrderPrefix t) = true -> forall d,
  scan reference_visit t d = scan (collector add_reference) t d.
Proof.
  induction t as [n ts IH|e] using tree_rect_nested; intros Hr d; [|done]. cbn [visits forallb] in Hr. apply andb_true_iff in Hr as [Hn Hr].
  cbn [scan]. assert (reference_visit n d = collector add_reference n d) as -> by (destruct n as [| | | | | | | | | | | | | | | | | | | |[]| | | | | | | | | | | | | | | | | | | | | |]; done).
  cbn [collector]. generalize (add_reference n d). induction IH as [|t ts Ht _ IHts]; intros s; [done|].
  cbn [fmap list_fmap concat] in Hr. rewrite forallb_app in Hr. apply andb_true_iff in Hr as [Hr1 Hr2].
  cbn [scan_all]. rewrite Ht by done. destruct (scan (collector add_reference) t s) as [s' [e|]]; [done|]. by apply IHts.
Qed.

Lemma add_references ns : forall d, foldl (fun d n => add_reference n d) (Some d) ns =
  Some (d ∪ list_to_set (filter (fun i => IsReservedIdentifier i = false) (omap reference_of ns))).
Proof.
  induction ns as [|n ns IH]; intros d; cbn [foldl omap list_omap]; [f_equal; set_solver|].
  unfold add_reference at 2. destruct (reference_of n) as [i|]; [|apply IH]. rewrite filter_cons.
  destruct (IsReservedIdentifier i); [rewrite decide_False by done; apply IH|]. rewrite decide_True by done.
  cbn [fmap option_fmap option_map]. rewrite IH. f_equal. cbn. case_bool_decide; set_solver.
Qed.

(** Every identifier an expression refers to is extracted, and nothing else. *)
Lemma ExtractSyntaxNodeReferences_exact n : walkable n = true -> forallb rooted (nodes n) = true ->
  ExtractSyntaxNodeReferences n = Some (references n, None).
Proof.
  intros Hw Hr. unfold ExtractSyntaxNodeReferences. rewrite PgSQL_run, run_scan, scan_references by done.
  rewrite scan_collector by done. cbn [fst snd]. change (visits OrderPrefix (sql_tree n)) with (nodes n).
  rewrite add_references. unfold references. cbn. do 2 f_equal. set_solver.
Qed.

Lemma expressionHasEndpointInequality_exact n l r : walkable n = true ->
  expressionHasEndpointInequality n l r = existsb (is_inequality l r) (nodes n).
Proof. intros Hw. unfold expressionHasEndpointInequality. by rewrite PgSQL_run, finder_nodes. Qed.

Lemma expressionHasPropertyLookupRoot_exact n root : walkable n = true ->
  expressionHasPropertyLookupRoot n root = existsb (is_lookup_of root) (nodes n).
Proof. intros Hw. unfold expressionHasPropertyLookupRoot. by rewrite PgSQL_run, finder_nodes. Qed.

(** *** What the walk does not reach *)

(** The shape of a table alias is a pointer, for which there is no cursor. *)
Example TableAlias_shape_unsupported :
  ExtractSyntaxNodeReferences
    (SWith [SCommonTableExpression (SQuery SNil (SSelect [] [] SNil [] SNil) [] SNil SNil) (STableAlias "s0" (Some ["root_id"]))]) =
  Some ({["s0"]}, Some (Errorf "unable to negotiate sql type *pgsql.RecordShape into a translation cursor")).
Proof. vm_compute. reflexivity. Qed.

(** Of a query the walk sees the body, but not the ordering, and of a select not
    the grouping. *)
Example walk_skips_order :
  ExtractSyntaxNodeReferences
    (SQuery SNil (SSelect [] [] SNil [SIdentifier "g"] SNil) [SOrderBy (SIdentifier "o")] SNil (SIdentifier "l")) =
  Some (∅, None).
Proof. vm_compute. reflexivity. Qed.
