(* ===== verification/Selectivity.v ===== *)
(** * The selectivity model (cypher/models/pgsql/optimize/selectivity.go)

    The weight of a constraint is measured by a visitor that keeps a stack of
    sums, one for each negation it is below; it is proved to compute the sum of the
    weights over the tree, negated below every [NOT], with the error of the first
    property lookup it cannot make sense of.  Sums are unbounded integers: a sum
    that leaves Go's [int] takes more than 10^16 operators. *)

From S2P Require Import Prelude Framing Walk WalkTree Kinds Mapper DataTypes Scope SqlAst.
Local Open Scope Z_scope.

Definition selectivityWeightEntityIDReference : Z := 125.
Definition selectivityWeightUniqueNodeProperty : Z := 100.
Definition selectivityWeightBoundIdentifier : Z := 700.
Definition selectivityWeightNarrowSearch : Z := 30.
Definition selectivityWeightStringSearch : Z := 20.
Definition selectivityWeightRangeComparison : Z := 10.
Definition selectivityWeightConjunction : Z := 5.
Definition selectivityWeightNotEquals : Z := 1.
Definition selectivityWeightDisjunction : Z := -100.
Definition selectivityFlipThreshold : Z := selectivityWeightNarrowSearch.
Definition selectivityBidirectionalAnchorThreshold : Z := selectivityWeightNarrowSearch * 2.

Definition knownNodePropertySelectivity (field : string) : option Z :=
  if bool_decide (field = "objectid") then Some selectivityWeightUniqueNodeProperty
  else if bool_decide (field = "name") then Some selectivityWeightUniqueNodeProperty
  else if bool_decide (field = "system_tags") then Some selectivityWeightNarrowSearch
  else None.

Section model.
(** The bindings, [None] for nil ones, and the type names of error messages. *)
Variable bindings : option (string -> option DataType).
Variable type_name : SyntaxNode -> string.

(** ** The visitor

    The stack has its top first; [None] is the panic of [Root] on an empty
    identifier, which ends the walk. *)
Notation selectivityStack := (option (list Z)).
Notation vstate := (cancelableVisitorHandler * selectivityStack)%type.

Definition newMeasureSelectivityVisitor : vstate := (NewCancelableErrorHandler, Some [0]).

Definition Selectivity (stack : list Z) : option Z := last stack.

Definition pushSelectivity (value : Z) (stack : list Z) : list Z := value :: stack.

Definition addSelectivity (value : Z) (stack : list Z) : list Z :=
  match stack with
  | [] => pushSelectivity value []
  | top :: rest => top + value :: rest
  end.

Definition isColumnIDRef (expression : SyntaxNode) : bool :=
  match expression with
  | SCompoundIdentifier (_ :: field :: _) => bool_decide (field = ColumnID)
  | _ => false
  end.

Definition add (value : Z) (st : vstate) : vstate := (st.1, addSelectivity value <$> st.2).

Definition lookup_weight (dataType : DataType) (field : string) : Z :=
  match dataType with
  | ExpansionRootNode | ExpansionTerminalNode | NodeComposite => default 0 (knownNodePropertySelectivity field)
  | _ => 0
  end.

Definition enter_lookup (l r : SyntaxNode) (st : vstate) : vstate :=
  match binaryExpressionToPropertyLookup type_name l r with
  | inr err => (handler_SetError (Some err) st.1, st.2)
  | inl ([], _) => (handler_SetDone st.1, None)
  | inl (leftIdentifier :: _, field) =>
      match bindings with
      | None => st
      | Some lookup =>
          match lookup leftIdentifier with
          | None => (handler_SetError (Some (Errorf ("unable to lookup identifier " +:+ leftIdentifier))) st.1, st.2)
          | Some dataType => add (lookup_weight dataType field) st
          end
      end
  end.

Definition measure_Enter (node : SyntaxNode) (st : vstate) : vstate :=
  match node with
  | SUnaryExpression true OperatorNot _ => (st.1, pushSelectivity 0 <$> st.2)
  | SBinaryExpression true operator l r =>
      let lOperandIsID := isColumnIDRef l in
      let rOperandIsID := isColumnIDRef r in
      match operator with
      | OperatorOr => add selectivityWeightDisjunction st
      | OperatorNotEquals => add selectivityWeightNotEquals st
      | OperatorAnd => add selectivityWeightConjunction st
      | OperatorLessThan | OperatorGreaterThan | OperatorLessThanOrEqualTo | OperatorGreaterThanOrEqualTo =>
          add selectivityWeightRangeComparison st
      | OperatorLike | OperatorILike | OperatorRegexMatch | OperatorSimilarTo => add selectivityWeightStringSearch st
      | OperatorIn | OperatorEquals =>
          let st' := add selectivityWeightNarrowSearch st in
          if (lOperandIsID && negb rOperandIsID) || (rOperandIsID && negb lOperandIsID)
          then add selectivityWeightEntityIDReference st' else st'
      | OperatorIs => add selectivityWeightNarrowSearch st
      | OperatorPGArrayOverlap | OperatorArrayOverlap => add selectivityWeightNarrowSearch st
      | OperatorPGArrayLHSContainsRHS => add (selectivityWeightNarrowSearch + selectivityWeightConjunction) st
      | OperatorJSONField | OperatorJSONTextField | OperatorPropertyLookup => enter_lookup l r st
      | _ => st
      end
  | _ => st
  end.

(** [popSelectivity], then [addSelectivity] of what it returns, negated. *)
Definition measure_Exit (node : SyntaxNode) (st : vstate) : vstate :=
  match node with
  | SUnaryExpression true OperatorNot _ =>
      (st.1, match st.2 with
             | Some (selectivity :: rest) => Some (addSelectivity (- selectivity) rest)
             | _ => None
             end)
  | _ => st
  end.

Definition measureSelectivityVisitor : Visitor (N := SyntaxNode) (St := selectivityStack) :=
  mkVisitor measure_Enter (fun _ st => st) measure_Exit.

Inductive measure_result := Measured (selectivity : Z) | MeasureError (err : error) | MeasurePanic.

Definition Measure (expression : SyntaxNode) : measure_result :=
  let '(stack, err) :=
    if is_nil expression then (newMeasureSelectivityVisitor.2, None)
    else PgSQL measureSelectivityVisitor expression newMeasureSelectivityVisitor.2 in
  match stack with
  | None => MeasurePanic
  | Some stack =>
      match err with
      | Some err => MeasureError err
      | None => match Selectivity stack with Some selectivity => Measured selectivity | None => MeasurePanic end
      end
  end.

Definition ShouldFlipTraversalDirection (leftBound rightBound : bool) (leftExpression rightExpression : SyntaxNode)
    : outcome (bool + error) :=
  if leftBound then Done (inl false)
  else if rightBound then Done (inl true)
  else
    match Measure leftExpression with
    | MeasurePanic => Panic
    | MeasureError err => Done (inr err)
    | Measured leftSelectivity =>
        match Measure rightExpression with
        | MeasurePanic => Panic
        | MeasureError err => Done (inr err)
        | Measured rightSelectivity => Done (inl (selectivityFlipThreshold <=? rightSelectivity - leftSelectivity))
        end
    end.

Definition EndpointSelectivity (expression : SyntaxNode) (bound hasPreviousFrameBinding : bool) : measure_result :=
  match Measure expression with
  | Measured selectivity =>
      Measured (if bound && hasPreviousFrameBinding then selectivity + selectivityWeightBoundIdentifier else selectivity)
  | failed => failed
  end.

Definition IsBidirectionalSearchAnchor (selectivity : Z) : bool := selectivityBidirectionalAnchorThreshold <=? selectivity.

(** ** The weight of a tree *)

(** What a node adds to the sum it is in; [None] is the panic. *)
Definition node_weight (n : SyntaxNode) : option (Z + error) :=
  match n with
  | SBinaryExpression true operator l r =>
      match operator with
      | OperatorOr => Some (inl (-100))
      | OperatorNotEquals => Some (inl 1)
      | OperatorAnd => Some (inl 5)
      | OperatorLessThan | OperatorGreaterThan | OperatorLessThanOrEqualTo | OperatorGreaterThanOrEqualTo => Some (inl 10)
      | OperatorLike | OperatorILike | OperatorRegexMatch | OperatorSimilarTo => Some (inl 20)
      | OperatorIn | OperatorEquals => Some (inl (if xorb (isColumnIDRef l) (isColumnIDRef r) then 155 else 30))
      | OperatorIs | OperatorPGArrayOverlap | OperatorArrayOverlap => Some (inl 30)
      | OperatorPGArrayLHSContainsRHS => Some (inl 35)
      | OperatorJSONField | OperatorJSONTextField | OperatorPropertyLookup =>
          match binaryExpressionToPropertyLookup type_name l r with
          | inr err => Some (inr err)
          | inl ([], _) => None
          | inl (root :: _, field) =>
              match bindings with
              | None => Some (inl 0)
              | Some lookup =>
                  match lookup root with
                  | None => Some (inr (Errorf ("unable to lookup identifier " +:+ root)))
                  | Some dataType => Some (inl (lookup_weight dataType field))
                  end
              end
          end
      | _ => Some (inl 0)
      end
  | _ => Some (inl 0)
  end.

Definition is_not (n : SyntaxNode) : bool := match n with SUnaryExpression true OperatorNot _ => true | _ => false end.

Definition total_weights (rec : tree (N := SyntaxNode) -> option (Z + error)) : list (tree (N := SyntaxNode)) -> option (Z + error) :=
  fix go ts :=
    match ts with
    | [] => Some (inl 0)
    | t :: ts' =>
        match rec t with
        | Some (inl k) => match go ts' with Some (inl k') => Some (inl (k + k')) | failed => failed end
        | failed => failed
        end
    end.

(** The first failure in prefix order, or the sum. *)
Fixpoint total_weight (t : tree (N := SyntaxNode)) : option (Z + error) :=
  match t with
  | Broken e => Some (inr e)
  | Tree n ts =>
      match node_weight n with
      | Some (inl k) =>
          match total_weights total_weight ts with
          | Some (inl k') => Some (inl (if is_not n then - k' else k + k'))
          | failed => failed
          end
      | failed => failed
      end
  end.

(** The walk of a tree in the state [stack] has this outcome. *)
Definition flows_to (f : flow (St := selectivityStack)) (top : Z) (rest : list Z) (r : option (Z + error)) : Prop :=
  match r with
  | Some (inl k) => f = Go (NewCancelableErrorHandler, Some (top + k :: rest))
  | Some (inr e) => exists h stack, f = Stop (h, Some stack) (Some e)
  | None => exists h, f = Stop (h, None) None
  end.

Ltac sum_up :=
  unfold flows_to, add; cbn; do 4 f_equal;
  unfold selectivityWeightNarrowSearch, selectivityWeightEntityIDReference, selectivityWeightConjunction; lia.

Lemma enter_not n stack : is_not n = true ->
  check (measure_Enter n (NewCancelableErrorHandler, Some stack)) = Go (NewCancelableErrorHandler, Some (0 :: stack)).
Proof using Type. destruct n; try done. destruct pointer; [|done]. by destruct operator. Qed.

Lemma node_weight_not n : is_not n = true -> node_weight n = Some (inl 0).
Proof using Type. by destruct n. Qed.

Lemma enter_weight n top rest : is_not n = false ->
  flows_to (check (measure_Enter n (NewCancelableErrorHandler, Some (top :: rest)))) top rest (node_weight n).
Proof using Type.
  intros Hn. destruct n; try (sum_up).
  { destruct pointer; [|sum_up].
    destruct operator; try done; sum_up. }
  destruct pointer; [|sum_up].
  destruct operator; cbn [node_weight measure_Enter]; try (sum_up).
  all: try (destruct (isColumnIDRef n1), (isColumnIDRef n2); sum_up).
  all: unfold enter_lookup; destruct (binaryExpressionToPropertyLookup type_name n1 n2) as [[[|root ids] field]|err];
    [by eexists| |by do 2 eexists].
  all: destruct bindings as [lookup|]; [|sum_up].
  all: destruct (lookup root); [sum_up|by do 2 eexists].
Qed.

Lemma leave_measure n top rest :
  leave measureSelectivityVisitor n (NewCancelableErrorHandler, Some (top :: rest)) =
  Go (NewCancelableErrorHandler, if is_not n then Some (addSelectivity (- top) rest) else Some (top :: rest)).
Proof using Type. destruct n; try done. destruct pointer; [|done]. by destruct operator. Qed.

Definition measures (t : tree (N := SyntaxNode)) : Prop := forall top rest,
  flows_to (walk measureSelectivityVisitor t (NewCancelableErrorHandler, Some (top :: rest))) top rest (total_weight t).

Lemma branches_measure n ts : Forall measures ts -> forall first top rest,
  match total_weights total_weight ts with
  | Some (inl k) =>
      branches measureSelectivityVisitor (walk measureSelectivityVisitor) n first ts (NewCancelableErrorHandler, Some (top :: rest)) =
      leave measureSelectivityVisitor n (NewCancelableErrorHandler, Some (top + k :: rest))
  | failed =>
      flows_to (branches measureSelectivityVisitor (walk measureSelectivityVisitor) n first ts
        (NewCancelableErrorHandler, Some (top :: rest))) top rest failed
  end.
Proof using Type.
  induction 1 as [|t ts Ht _ IH]; intros first top rest; cbn [total_weights]; [by rewrite Z.add_0_r|]. cbn [branches].
  assert ((if first then Go (NewCancelableErrorHandler, Some (top :: rest))
           else check (visitor_Visit measureSelectivityVisitor n (NewCancelableErrorHandler, Some (top :: rest)))) =
          Go (NewCancelableErrorHandler, Some (top :: rest))) as -> by by destruct first.
  cbn [fst vh_consumed NewCancelableErrorHandler]. rewrite andb_false_r. change (mkHandler false false None) with NewCancelableErrorHandler.
  specialize (Ht top rest). unfold flows_to in Ht. destruct (total_weight t) as [[k|e]|].
  - rewrite Ht. cbn [fst vh_done NewCancelableErrorHandler]. change (mkHandler false false None) with NewCancelableErrorHandler.
    specialize (IH false (top + k) rest). destruct (total_weights total_weight ts) as [[k'|e]|]; [|done..].
    rewrite IH. by rewrite Z.add_assoc.
  - destruct Ht as (h & stack & ->). by do 2 eexists.
  - destruct Ht as (h & ->). by eexists.
Qed.

Lemma walk_measure t : measures t.
Proof using Type.
  induction t as [n ts IH|e] using tree_rect_nested; intros top rest; [|by do 2 eexists]. cbn [walk total_weight].
  pose proof (branches_measure n ts IH true) as Hb.
  destruct (is_not n) eqn:Hn.
  - rewrite node_weight_not by done. cbn [visitor_Enter measureSelectivityVisitor]. rewrite enter_not by done.
    specialize (Hb 0 (top :: rest)). destruct ts as [|t ts].
    + cbn [total_weights]. unfold flows_to. rewrite leave_measure, Hn. cbn. by rewrite Z.add_0_r.
    + cbn [fst vh_consumed NewCancelableErrorHandler]. change (mkHandler false false None) with NewCancelableErrorHandler.
      destruct (total_weights total_weight (t :: ts)) as [[k|e]|]; [|done..]. rewrite Hb. unfold flows_to.
      rewrite leave_measure, Hn. cbn. by do 4 f_equal.
  - pose proof (enter_weight n top rest Hn) as He. unfold flows_to in He. cbn [visitor_Enter measureSelectivityVisitor].
    destruct (node_weight n) as [[k|e]|]; [|destruct He as (h & stack & ->); by do 2 eexists|destruct He as (h & ->); by eexists].
    rewrite He. specialize (Hb (top + k) rest). destruct ts as [|t ts].
    + cbn [total_weights]. unfold flows_to. rewrite leave_measure, Hn. do 4 f_equal. lia.
    + cbn [fst vh_consumed NewCancelableErrorHandler]. change (mkHandler false false None) with NewCancelableErrorHandler.
      destruct (total_weights total_weight (t :: ts)) as [[k'|e]|]; [|done..]. rewrite Hb. unfold flows_to.
      rewrite leave_measure, Hn. do 4 f_equal. lia.
Qed.

Definition weighed (expression : SyntaxNode) : measure_result :=
  match total_weight (sql_tree expression) with
  | Some (inl k) => Measured k
  | Some (inr e) => MeasureError e
  | None => MeasurePanic
  end.

(** The stack machine computes the sum over the tree. *)
Lemma Measure_weighed expression : is_nil expression = false -> Measure expression = weighed expression.
Proof using Type.
  intros Hn. unfold Measure, weighed. rewrite Hn, PgSQL_run, run_walked. unfold walked.
  pose proof (walk_measure (sql_tree expression) 0 []) as Hw.
  destruct (sql_tree expression) as [n ts|e]; [|done]. cbn [fst vh_done NewCancelableErrorHandler newMeasureSelectivityVisitor snd].
  change (mkHandler false false None) with NewCancelableErrorHandler. unfold flows_to in Hw.
  destruct (total_weight (Tree n ts)) as [[k|e]|]; [by rewrite Hw|destruct Hw as (h & stack & ->); done|by destruct Hw as (h & ->)].
Qed.
End model.

(** The selectivity of a constraint is its weight: the visitor with its stack
    of sums returns the sum of the weights of the operators over the whole tree,
    each sum below a NOT negated, or the error of the first property lookup, in
    prefix order, whose operands or whose identifier it cannot resolve; a missing
    constraint weighs nothing. *)
Theorem Measure_refines bindings type_name expression :
  Measure bindings type_name expression =
  if is_nil expression then Measured 0 else weighed bindings type_name expression.
Proof. destruct (is_nil expression) eqn:Hn; [by destruct expression|by apply Measure_weighed]. Qed.

Lemma ShouldFlip_once bindings type_name leftBound rightBound l r :
  ShouldFlipTraversalDirection bindings type_name leftBound rightBound l r = Done (inl true) ->
  ShouldFlipTraversalDirection bindings type_name rightBound leftBound r l = Done (inl false).
Proof.
  unfold ShouldFlipTraversalDirection. destruct leftBound; [done|]. destruct rightBound; [done|].
  destruct (Measure bindings type_name l) as [kl| |]; try done. destruct (Measure bindings type_name r) as [kr| |]; try done.
  intros [= Hd%Z.leb_le]. do 2 f_equal. apply Z.leb_gt. unfold selectivityFlipThreshold, selectivityWeightNarrowSearch in *. lia.
Qed.

(** Conjoining two constraints adds up their weights. *)
Lemma Measure_And bindings type_name l r kl kr : is_nil l = false -> is_nil r = false ->
  Measure bindings type_name l = Measured kl -> Measure bindings type_name r = Measured kr ->
  Measure bindings type_name (NewBinaryExpression l OperatorAnd r) = Measured (kl + kr + selectivityWeightConjunction).
Proof.
  intros Hl Hr. rewrite !Measure_weighed by done. unfold weighed.
  rewrite (sql_tree_eq (NewBinaryExpression l OperatorAnd r)). cbn [sql_branches NewBinaryExpression total_weight node_weight fmap list_fmap total_weights is_not].
  destruct (total_weight bindings type_name (sql_tree l)) as [[|]|]; try done. intros [= ->].
  destruct (total_weight bindings type_name (sql_tree r)) as [[|]|]; try done. intros [= ->].
  f_equal. unfold selectivityWeightConjunction. lia.
Qed.

(** *** An example: [n0.id = 1 and not (n1.name = 'a' or n1.value > 3)] *)

Definition demo_bindings : option (string -> option DataType) :=
  Some (fun i => if bool_decide (i = "n0") || bool_decide (i = "n1") then Some NodeComposite else None).

Definition demo_lookup (identifier field : string) : SyntaxNode :=
  NewBinaryExpression (SCompoundIdentifier [identifier; "properties"]) OperatorJSONTextField (SLiteral (LText field) TText).

Definition demo_constraint : SyntaxNode :=
  NewBinaryExpression
    (NewBinaryExpression (SCompoundIdentifier ["n0"; "id"]) OperatorEquals (SLiteral LOther TInt8))
    OperatorAnd
    (SUnaryExpression true OperatorNot
       (SParenthetical
          (NewBinaryExpression
             (NewBinaryExpression (demo_lookup "n1" "name") OperatorEquals (SLiteral (LText "a") TText))
             OperatorOr
             (NewBinaryExpression (demo_lookup "n1" "value") OperatorGreaterThan (SLiteral LOther TInt8))))).

(** 5 + 155 - (-100 + 30 + 100 + 10) *)
Example Measure_demo : Measure demo_bindings (fun _ => "") demo_constraint = Measured 120.
Proof. vm_compute. reflexivity. Qed.

Example Measure_unbound :
  Measure demo_bindings (fun _ => "") (demo_lookup "n7" "name") = MeasureError (Errorf "unable to lookup identifier n7").
Proof. vm_compute. reflexivity. Qed.
