(* ===== verification/Locality.v ===== *)
(** * Locality of constraints (cypher/models/pgsql/optimize/locality.go)

    A conjunction is split into the terms that refer only to identifiers in a local
    scope, which may go into a JOIN, and the others, which must stay in the WHERE.
    [refers] says which identifiers the visitor meets free, [free] which ones a scalar
    expression leaves free by its structure and the scoping rules of SQL; the visitor is
    proved never to call an expression local that leaves anything else free.  The visitor and the checks of subqueries call
    each other: they are defined with fuel, and the weight of the node is enough. *)

From S2P Require Import Prelude Framing Walk WalkTree Kinds Mapper DataTypes Scope SqlAst.

(** ** Conjunctions *)

Fixpoint FlattenConjunction (expr : SyntaxNode) : list SyntaxNode :=
  match expr with
  | SBinaryExpression _ OperatorAnd l r => FlattenConjunction l ++ FlattenConjunction r
  | _ => [expr]
  end.

(** ** References to identifiers *)

Definition AddFromExpressionBinding (localScope : IdentifierSet) (expression : SyntaxNode) : IdentifierSet :=
  match expression with
  | STableReference _ (Some binding) | SLateralSubquery _ (Some binding) => IdentifierSet_Add localScope [binding]
  | _ => localScope
  end.

(** The bindings of the clauses; what is not a clause or a join cannot occur. *)
Definition AddFromClauseBindings (localScope : IdentifierSet) (fromClauses : list SyntaxNode) : IdentifierSet :=
  foldl (fun scope fromClause =>
    match fromClause with
    | SFromClause source joins =>
        foldl (fun scope join => match join with SJoin table _ => AddFromExpressionBinding scope table | _ => scope end)
          (AddFromExpressionBinding scope source) joins
    | _ => scope
    end) localScope fromClauses.

(** What the visitor does at a node. *)
Inductive verdict := Reject | Prune | Descend.

Section checks.
(** The checks of an expression and of a query that the others call. *)
Variable expression_local query_local : SyntaxNode -> IdentifierSet -> bool.

Definition SubqueryReferencesOnlyLocalIdentifiers (subquery : SyntaxNode) (localScope : IdentifierSet) : bool :=
  match subquery with SSubquery query => query_local query localScope | _ => false end.

Definition locality_verdict (localScope : IdentifierSet) (node : SyntaxNode) : verdict :=
  match node with
  | SExistsExpression subquery =>
      if SubqueryReferencesOnlyLocalIdentifiers subquery localScope then Prune else Reject
  | SCompoundIdentifier (root :: _) => if bool_decide (root ∈ localScope) then Descend else Reject
  | SIdentifier identifier => if bool_decide (identifier ∈ localScope) then Descend else Reject
  | SRowColumnReference identifier _ => if expression_local identifier localScope then Prune else Reject
  | _ => Descend
  end.

Definition locality_visit (localScope : IdentifierSet) (node : SyntaxNode) (isLocal : bool) : bool * action :=
  match locality_verdict localScope node with
  | Reject => (false, Finish)
  | Prune => (isLocal, ConsumeNode)
  | Descend => (isLocal, Proceed)
  end.

Definition FromExpressionReferencesOnlyLocalIdentifiers (expression : SyntaxNode) (localScope : IdentifierSet) : bool :=
  match expression with
  | STableReference _ _ => true
  | SLateralSubquery query _ => query_local query localScope
  | _ => false
  end.

(** The loops of [SelectReferencesOnlyLocalIdentifiers] over the joins of a clause
    and over the clauses; [None] is the return of false. *)
Fixpoint joins_loop (joins : list SyntaxNode) (scopedIdentifiers : IdentifierSet) : option IdentifierSet :=
  match joins with
  | [] => Some scopedIdentifiers
  | SJoin table (SJoinOperator constraint) :: rest =>
      if negb (FromExpressionReferencesOnlyLocalIdentifiers table scopedIdentifiers) then None
      else if negb (is_nil constraint) && negb (expression_local constraint scopedIdentifiers) then None
      else joins_loop rest (AddFromExpressionBinding scopedIdentifiers table)
  | _ => None
  end.

Fixpoint from_loop (from : list SyntaxNode) (scopedIdentifiers : IdentifierSet) : option IdentifierSet :=
  match from with
  | [] => Some scopedIdentifiers
  | SFromClause source joins :: rest =>
      if negb (FromExpressionReferencesOnlyLocalIdentifiers source scopedIdentifiers) then None
      else
        match joins_loop joins (AddFromExpressionBinding scopedIdentifiers source) with
        | None => None
        | Some scopedIdentifiers' => from_loop rest scopedIdentifiers'
        end
  | _ => None
  end.

Definition optional_local (expression : SyntaxNode) (localScope : IdentifierSet) : bool :=
  is_nil expression || expression_local expression localScope.

Definition SelectReferencesOnlyLocalIdentifiers (projection from : list SyntaxNode) (condition : SyntaxNode)
    (groupBy : list SyntaxNode) (having : SyntaxNode) (localScope : IdentifierSet) : bool :=
  match from_loop from localScope with
  | None => false
  | Some scopedIdentifiers =>
      forallb (fun item => expression_local item scopedIdentifiers) projection &&
      forallb (fun expression => expression_local expression scopedIdentifiers) groupBy &&
      optional_local condition scopedIdentifiers && optional_local having scopedIdentifiers
  end.

Definition query_check (query : SyntaxNode) (localScope : IdentifierSet) : bool :=
  match query with
  | SQuery ctes body orderBy offset limit =>
      match ctes, body with
      | SWith (_ :: _), _ => false
      | _, SSelect projection from condition groupBy having =>
          SelectReferencesOnlyLocalIdentifiers projection from condition groupBy having localScope &&
          forallb (fun order => match order with SOrderBy expression => expression_local expression localScope | _ => true end)
            orderBy &&
          optional_local offset localScope && optional_local limit localScope
      | _, _ => false
      end
  | _ => false
  end.
End checks.

Fixpoint expression_check (fuel : nat) (expression : SyntaxNode) (localScope : IdentifierSet) : bool :=
  match fuel with
  | 0 => false
  | S fuel' =>
      (PgSQL (NewSimpleVisitor (acting (locality_visit (expression_check fuel') (query_check_fuel fuel') localScope)))
         expression true).1
  end
with query_check_fuel (fuel : nat) (query : SyntaxNode) (localScope : IdentifierSet) : bool :=
  match fuel with
  | 0 => false
  | S fuel' => query_check (expression_check fuel') (query_check_fuel fuel') query localScope
  end.

(** The error of the walk is dropped. *)
Definition ExpressionReferencesOnlyLocalIdentifiers (expression : SyntaxNode) (localScope : IdentifierSet) : bool :=
  expression_check (weight expression) expression localScope.

Definition QueryReferencesOnlyLocalIdentifiers (query : SyntaxNode) (localScope : IdentifierSet) : bool :=
  query_check_fuel (weight query) query localScope.

Definition IsLocalToScope (expression : SyntaxNode) (localScope : IdentifierSet) : bool :=
  is_nil expression || ExpressionReferencesOnlyLocalIdentifiers expression localScope.

Definition partition_turn (localScope : IdentifierSet) (s : SyntaxNode * SyntaxNode) (term : SyntaxNode) : SyntaxNode * SyntaxNode :=
  let '(joinConstraints, whereConstraints) := s in
  if IsLocalToScope term localScope then (OptionalAnd joinConstraints term, whereConstraints)
  else (joinConstraints, OptionalAnd whereConstraints term).

Definition PartitionConstraintByLocality (expression : SyntaxNode) (localScope : IdentifierSet) : SyntaxNode * SyntaxNode :=
  foldl (partition_turn localScope) (SNil, SNil) (FlattenConjunction expression).

(** ** Free references

    [refers e x]: [e] refers to [x] and does not bind it itself.  The column of a
    row reference is not an identifier of the scope; a table is named, not referred
    to.  A walk does not enter GROUP BY, ORDER BY, OFFSET and LIMIT, so that for
    these the rules ask that they can be walked. *)

Notation bindings_of := (AddFromClauseBindings ∅).

Definition binding_of (expression : SyntaxNode) : IdentifierSet := AddFromExpressionBinding ∅ expression.

Definition joined (joins : list SyntaxNode) : IdentifierSet :=
  foldl (fun scope join => match join with SJoin table _ => AddFromExpressionBinding scope table | _ => scope end) ∅ joins.

Definition plain (n : SyntaxNode) : bool :=
  match n with SExistsExpression _ | SRowColumnReference _ _ => false | _ => true end.

Inductive refers : SyntaxNode -> string -> Prop :=
| refers_identifier i : refers (SIdentifier i) i
| refers_compound i ids : refers (SCompoundIdentifier (i :: ids)) i
| refers_row e column x : refers e x -> refers (SRowColumnReference e column) x
| refers_exists q x : refers_query q x -> refers (SExistsExpression (SSubquery q)) x
| refers_branch n bs b x : plain n = true -> sql_branches n = inl bs -> b ∈ bs -> refers b x -> refers n x
with refers_query : SyntaxNode -> string -> Prop :=
| refers_projection ctes projection from condition groupBy having orderBy offset limit p x :
    p ∈ projection -> refers p x -> x ∉ bindings_of from ->
    refers_query (SQuery ctes (SSelect projection from condition groupBy having) orderBy offset limit) x
| refers_where ctes projection from condition groupBy having orderBy offset limit x :
    refers condition x -> x ∉ bindings_of from ->
    refers_query (SQuery ctes (SSelect projection from condition groupBy having) orderBy offset limit) x
| refers_having ctes projection from condition groupBy having orderBy offset limit x :
    refers having x -> x ∉ bindings_of from ->
    refers_query (SQuery ctes (SSelect projection from condition groupBy having) orderBy offset limit) x
| refers_group ctes projection from condition groupBy having orderBy offset limit g x :
    g ∈ groupBy -> walkable g = true -> refers g x -> x ∉ bindings_of from ->
    refers_query (SQuery ctes (SSelect projection from condition groupBy having) orderBy offset limit) x
| refers_order ctes projection from condition groupBy having orderBy offset limit e x :
    SOrderBy e ∈ orderBy -> walkable e = true -> refers e x -> x ∉ bindings_of from ->
    refers_query (SQuery ctes (SSelect projection from condition groupBy having) orderBy offset limit) x
| refers_offset ctes body orderBy offset limit x :
    walkable offset = true -> refers offset x -> refers_query (SQuery ctes body orderBy offset limit) x
| refers_limit ctes body orderBy offset limit x :
    walkable limit = true -> refers limit x -> refers_query (SQuery ctes body orderBy offset limit) x
| refers_source ctes projection pre q binding joins post condition groupBy having orderBy offset limit x :
    refers_query q x -> x ∉ bindings_of pre ->
    refers_query (SQuery ctes
      (SSelect projection (pre ++ SFromClause (SLateralSubquery q binding) joins :: post) condition groupBy having)
      orderBy offset limit) x
| refers_table ctes projection pre source jpre q binding c jpost post condition groupBy having orderBy offset limit x :
    refers_query q x -> x ∉ bindings_of pre -> x ∉ binding_of source -> x ∉ joined jpre ->
    refers_query (SQuery ctes
      (SSelect projection (pre ++ SFromClause source (jpre ++ SJoin (SLateralSubquery q binding) (SJoinOperator c) :: jpost) :: post)
         condition groupBy having) orderBy offset limit) x
| refers_constraint ctes projection pre source jpre table c jpost post condition groupBy having orderBy offset limit x :
    refers c x -> x ∉ bindings_of pre -> x ∉ binding_of source -> x ∉ joined jpre -> x ∉ binding_of table ->
    refers_query (SQuery ctes
      (SSelect projection (pre ++ SFromClause source (jpre ++ SJoin table (SJoinOperator c) :: jpost) :: post)
         condition groupBy having) orderBy offset limit) x.

Scheme refers_mut := Minimality for refers Sort Prop
  with refers_query_mut := Minimality for refers_query Sort Prop.
Combined Scheme refers_mutual from refers_mut, refers_query_mut.

(** ** The check of a node *)

Section tree_checks.
Variable expression_local query_local : SyntaxNode -> IdentifierSet -> bool.
Variable localScope : IdentifierSet.
Notation verdict_at := (locality_verdict expression_local query_local localScope).

Fixpoint accepted (t : tree (N := SyntaxNode)) : bool :=
  match t with
  | Broken _ => true
  | Tree n ts =>
      match verdict_at n with
      | Reject => false
      | Prune => true
      | Descend => forallb accepted ts
      end
  end.

Lemma scan_locality t : intact t = true ->
  scan (locality_visit expression_local query_local localScope) t true =
  if accepted t then (true, None) else (false, Some None).
Proof using Type.
  induction t as [n ts IH|e] using tree_rect_nested; [|done]. cbn [intact scan accepted]. intros Hi. unfold locality_visit at 1.
  destruct (verdict_at n); [done..|]. induction IH as [|t ts Ht _ IHts]; [done|]. cbn in Hi. apply andb_true_iff in Hi as [Hi1 Hi2].
  cbn [scan_all forallb]. rewrite Ht by done. destruct (accepted t); [by apply IHts|done].
Qed.
End tree_checks.

(** The check of a node by those of its branches. *)
Lemma expression_check_eq fuel n bs scope : walkable n = true -> sql_branches n = inl bs ->
  expression_check (S fuel) n scope =
  match locality_verdict (expression_check fuel) (query_check_fuel fuel) scope n with
  | Reject => false
  | Prune => true
  | Descend => forallb (fun b => expression_check (S fuel) b scope) bs
  end.
Proof.
  intros Hw Hb. assert (Heq : forall m, walkable m = true -> expression_check (S fuel) m scope =
    accepted (expression_check fuel) (query_check_fuel fuel) scope (sql_tree m)).
  { intros m Hm. cbn [expression_check]. rewrite PgSQL_run, run_scan, scan_locality by done. by destruct (accepted _ _ _ _). }
  rewrite Heq by done. rewrite sql_tree_eq, Hb. cbn [accepted]. destruct (locality_verdict _ _ _ _); [done..|].
  destruct (sql_walkable_branches n Hw) as (bs' & Hb' & Hbw). rewrite Hb in Hb'. injection Hb' as <-.
  clear -Hbw Heq. induction bs as [|b bs IH]; [done|].
  cbn [fmap list_fmap forallb]. rewrite Heq by (apply Hbw; by left). f_equal. apply IH. intros b' Hin. apply Hbw. by right.
Qed.

(** ** Scopes of clauses *)

Lemma AddFromExpressionBinding_spec scope e : AddFromExpressionBinding scope e = scope ∪ binding_of e.
Proof.
  unfold binding_of. destruct e; cbn -[IdentifierSet_Add]; try set_solver; destruct binding; cbn -[IdentifierSet_Add];
    rewrite ?IdentifierSet_Add_spec; cbn; set_solver.
Qed.

Lemma joined_from joins : forall scope,
  foldl (fun scope join => match join with SJoin table _ => AddFromExpressionBinding scope table | _ => scope end) scope joins =
  scope ∪ joined joins.
Proof.
  unfold joined. induction joins as [|j joins IH]; intros scope; cbn [foldl]; [set_solver|]. rewrite IH, (IH (match j with SJoin _ _ => _ | _ => _ end)).
  destruct j; rewrite ?AddFromExpressionBinding_spec; set_solver.
Qed.

Lemma joined_cons table op joins : joined (SJoin table op :: joins) = binding_of table ∪ joined joins.
Proof. unfold joined at 1. cbn [foldl]. by rewrite joined_from. Qed.

Lemma bindings_of_from from : forall scope, AddFromClauseBindings scope from = scope ∪ bindings_of from.
Proof.
  unfold AddFromClauseBindings. induction from as [|c from IH]; intros scope; cbn [foldl]; [set_solver|].
  rewrite IH, (IH (match c with SFromClause _ _ => _ | _ => _ end)).
  destruct c; rewrite ?joined_from, ?AddFromExpressionBinding_spec; set_solver.
Qed.

Lemma bindings_of_cons source joins from :
  bindings_of (SFromClause source joins :: from) = binding_of source ∪ joined joins ∪ bindings_of from.
Proof.
  change (bindings_of (SFromClause source joins :: from))
    with (AddFromClauseBindings (foldl (fun scope join => match join with SJoin table _ => AddFromExpressionBinding scope table | _ => scope end)
            (AddFromExpressionBinding ∅ source) joins) from).
  rewrite bindings_of_from, joined_from. by unfold binding_of.
Qed.

Section loops.
Variable expression_local query_local : SyntaxNode -> IdentifierSet -> bool.

Lemma joins_loop_scope joins : forall scope scope', joins_loop expression_local query_local joins scope = Some scope' ->
  scope' = scope ∪ joined joins.
Proof using Type.
  induction joins as [|j joins IH]; intros scope scope'; cbn [joins_loop]; [intros [= ->]; unfold joined; cbn; set_solver|].
  destruct j as [| | | | | | | | | | | | | | | | | | | | | | | | | | | | | | |table op| | | | | | | | | | |]; try done. destruct op; try done.
  case_match; [done|]. case_match; [done|]. intros ->%IH. rewrite joined_cons, AddFromExpressionBinding_spec. set_solver.
Qed.

Lemma joins_loop_split pre table c post : forall scope scope',
  joins_loop expression_local query_local (pre ++ SJoin table (SJoinOperator c) :: post) scope = Some scope' ->
  FromExpressionReferencesOnlyLocalIdentifiers query_local table (scope ∪ joined pre) = true /\
  (is_nil c = true \/ expression_local c (scope ∪ joined pre) = true).
Proof using Type.
  induction pre as [|j pre IH]; intros scope scope'; cbn [app joins_loop].
  { replace (scope ∪ joined []) with scope by (unfold joined; cbn; set_solver).
    destruct (FromExpressionReferencesOnlyLocalIdentifiers query_local table scope); [|done]. cbn [negb].
    destruct (is_nil c), (expression_local c scope); try done; auto. }
  destruct j as [| | | | | | | | | | | | | | | | | | | | | | | | | | | | | | |table' op| | | | | | | | | | |]; try done. destruct op; try done.
  case_match; [done|]. case_match; [done|]. intros Hj%IH. rewrite AddFromExpressionBinding_spec in Hj.
  rewrite joined_cons. by rewrite assoc_L by apply _.
Qed.

Lemma from_loop_scope from : forall scope scope', from_loop expression_local query_local from scope = Some scope' ->
  scope' = scope ∪ bindings_of from.
Proof using Type.
  induction from as [|c from IH]; intros scope scope'; cbn [from_loop]; [intros [= ->]; cbn; set_solver|].
  destruct c as [| | | | | | | |source joins| | | | | | | | | | | | | | | | | | | | | | | | | | | | | | | | | |]; try done.
  case_match; [done|]. destruct (joins_loop _ _ joins _) as [scope1|] eqn:Hj; [|done]. intros ->%IH.
  apply joins_loop_scope in Hj as ->. rewrite bindings_of_cons, AddFromExpressionBinding_spec. set_solver.
Qed.

Lemma from_loop_split pre source joins post : forall scope scope',
  from_loop expression_local query_local (pre ++ SFromClause source joins :: post) scope = Some scope' ->
  FromExpressionReferencesOnlyLocalIdentifiers query_local source (scope ∪ bindings_of pre) = true /\
  exists scope1, joins_loop expression_local query_local joins (scope ∪ bindings_of pre ∪ binding_of source) = Some scope1.
Proof using Type.
  induction pre as [|c pre IH]; intros scope scope'; cbn [app from_loop].
  { replace (scope ∪ bindings_of []) with scope by (cbn; set_solver). rewrite <- AddFromExpressionBinding_spec.
    destruct (FromExpressionReferencesOnlyLocalIdentifiers query_local source scope); [|done]. cbn [negb].
    destruct (joins_loop _ _ joins _); [|done]. eauto. }
  destruct c as [| | | | | | | |source' joins'| | | | | | | | | | | | | | | | | | | | | | | | | | | | | | | | | |]; try done.
  case_match; [done|]. destruct (joins_loop _ _ joins' _) as [scope1|] eqn:Hj; [|done]. intros Hpost%IH.
  apply joins_loop_scope in Hj as ->. rewrite AddFromExpressionBinding_spec in Hpost. rewrite bindings_of_cons.
  by replace (scope ∪ (binding_of source' ∪ joined joins' ∪ bindings_of pre))
    with (scope ∪ binding_of source' ∪ joined joins' ∪ bindings_of pre) by set_solver.
Qed.
End loops.

(** ** Soundness *)

Lemma walkable_branch n bs b : sql_branches n = inl bs -> b ∈ bs -> walkable n = true -> walkable b = true.
Proof. intros Hb Hin (bs' & Hb' & H)%sql_walkable_branches. rewrite Hb in Hb'. injection Hb' as <-. by apply H. Qed.

Lemma refers_some e x : refers e x -> is_nil e = false.
Proof. destruct e; try done. inversion 1. by simplify_eq. Qed.

Lemma present_some n : is_nil n = false -> present n = [n].
Proof. unfold present. by intros ->. Qed.

Lemma walkable_body ctes body orderBy offset limit :
  walkable (SQuery ctes body orderBy offset limit) = true -> walkable body = true.
Proof. apply (walkable_branch _ (present ctes ++ [body])); [done|]. apply elem_of_app. right. by left. Qed.

Lemma walkable_select projection from condition groupBy having b :
  walkable (SSelect projection from condition groupBy having) = true ->
  b ∈ SProjection projection :: from ++ present condition ++ present having -> walkable b = true.
Proof.
  intros Hw Hb. destruct (sql_walkable_branches _ Hw) as (bs & Hbs & H). apply H. cbn [sql_branches] in Hbs.
  by apply with_slice_inl in Hbs as ->.
Qed.

Lemma walkable_from source joins b : walkable (SFromClause source joins) = true -> b ∈ source :: joins -> walkable b = true.
Proof.
  intros Hw Hb. destruct (sql_walkable_branches _ Hw) as (bs & Hbs & H). apply H. cbn [sql_branches] in Hbs.
  by apply with_slice_inl in Hbs as ->.
Qed.

(** What a check of a query that passes has passed. *)
Lemma query_check_passed fuel ctes projection from condition groupBy having orderBy offset limit scope :
  query_check_fuel (S fuel) (SQuery ctes (SSelect projection from condition groupBy having) orderBy offset limit) scope = true ->
  exists scope', from_loop (expression_check fuel) (query_check_fuel fuel) from scope = Some scope' /\
    (forall p, p ∈ projection -> expression_check fuel p scope' = true) /\
    (forall g, g ∈ groupBy -> expression_check fuel g scope' = true) /\
    (is_nil condition = false -> expression_check fuel condition scope' = true) /\
    (is_nil having = false -> expression_check fuel having scope' = true) /\
    (forall e, SOrderBy e ∈ orderBy -> expression_check fuel e scope = true) /\
    (is_nil offset = false -> expression_check fuel offset scope = true) /\
    (is_nil limit = false -> expression_check fuel limit scope = true).
Proof.
  cbn [query_check_fuel]. unfold query_check. intros H.
  assert (Hs : SelectReferencesOnlyLocalIdentifiers (expression_check fuel) (query_check_fuel fuel) projection from condition groupBy having scope &&
    forallb (fun order => match order with SOrderBy expression => expression_check fuel expression scope | _ => true end) orderBy &&
    optional_local (expression_check fuel) offset scope && optional_local (expression_check fuel) limit scope = true)
    by (destruct ctes as [| |[|]| | | | | | | | | | | | | | | | | | | | | | | | | | | | | | | | | | | | | | | |]; done).
  clear H. unfold SelectReferencesOnlyLocalIdentifiers, optional_local in Hs.
  destruct (from_loop _ _ from scope) as [scope'|]; [|done]. exists scope'. rewrite !andb_true_iff, !orb_true_iff, !forallb_forall in Hs.
  destruct Hs as [[[[[[Hp Hg] Hc] Hh] Ho] Hoff] Hl].
  split_and!; try done; intros; first [by apply Hp, list_elem_of_In|by apply Hg, list_elem_of_In|by destruct Hc; congruence
    |by destruct Hh; congruence|by apply list_elem_of_In, Ho in H|by destruct Hoff; congruence|by destruct Hl; congruence].
Qed.

Definition sound_at (check : nat -> SyntaxNode -> IdentifierSet -> bool) (n : SyntaxNode) (x : string) : Prop :=
  walkable n = true -> forall fuel scope, check fuel n scope = true -> x ∈ scope.

Lemma sound_branch n bs b x : plain n = true -> sql_branches n = inl bs -> b ∈ bs ->
  sound_at expression_check b x -> sound_at expression_check n x.
Proof.
  intros Hp Hb Hin IH Hw [|fuel] scope; [done|]. rewrite (expression_check_eq _ _ bs) by done.
  destruct (locality_verdict _ _ _ _) eqn:Hv; [done| |].
  - exfalso. clear -Hp Hv. destruct n; try done; cbn in Hv; [destruct identifiers; [done|]|]; by case_bool_decide.
  - rewrite forallb_forall. intros Hall. eapply IH; [by eapply walkable_branch|]. by apply Hall, list_elem_of_In.
Qed.

Lemma sound_row e column x : sound_at expression_check e x -> sound_at expression_check (SRowColumnReference e column) x.
Proof.
  intros IH Hw [|fuel] scope; [done|]. rewrite (expression_check_eq _ _ [e; SIdentifier column]) by done. cbn [locality_verdict].
  destruct (expression_check fuel e scope) eqn:He; [|done]. intros _. eapply IH; [|done].
  eapply walkable_branch; [|by left|done]. done.
Qed.

Lemma sound_exists q x : sound_at query_check_fuel q x -> sound_at expression_check (SExistsExpression (SSubquery q)) x.
Proof.
  intros IH Hw [|fuel] scope; [done|]. rewrite (expression_check_eq _ _ [SSubquery q]) by done.
  cbn [locality_verdict SubqueryReferencesOnlyLocalIdentifiers].
  destruct (query_check_fuel fuel q scope) eqn:Hq; [|done]. intros _. eapply IH; [|done].
  eapply (walkable_branch (SSubquery q) [q]); [done|by left|]. eapply walkable_branch; [|by left|done]. done.
Qed.

(** A reference in a part of a select that is checked in the scope of its clauses. *)
Lemma sound_scoped x from fuel scope scope' : from_loop (expression_check fuel) (query_check_fuel fuel) from scope = Some scope' ->
  x ∉ bindings_of from -> x ∈ scope' -> x ∈ scope.
Proof. intros ->%from_loop_scope. set_solver. Qed.

Lemma walkable_item ctes projection from condition groupBy having orderBy offset limit b :
  walkable (SQuery ctes (SSelect projection from condition groupBy having) orderBy offset limit) = true ->
  b ∈ SProjection projection :: from ++ present condition ++ present having -> walkable b = true.
Proof. intros Hw%walkable_body. by eapply walkable_select. Qed.

Lemma sound_source ctes projection pre source joins post condition groupBy having orderBy offset limit fuel scope :
  query_check_fuel (S fuel) (SQuery ctes (SSelect projection (pre ++ SFromClause source joins :: post) condition groupBy having)
    orderBy offset limit) scope = true ->
  walkable (SQuery ctes (SSelect projection (pre ++ SFromClause source joins :: post) condition groupBy having)
    orderBy offset limit) = true ->
  walkable (SFromClause source joins) = true /\
  FromExpressionReferencesOnlyLocalIdentifiers (query_check_fuel fuel) source (scope ∪ bindings_of pre) = true /\
  exists scope1, joins_loop (expression_check fuel) (query_check_fuel fuel) joins
    (scope ∪ bindings_of pre ∪ binding_of source) = Some scope1.
Proof.
  intros (scope' & Hf & _)%query_check_passed Hw. apply from_loop_split in Hf as [Hs Hj]. split_and!; [|done..].
  eapply walkable_item; [done|]. set_solver.
Qed.

Lemma walkable_lateral q binding : walkable (SLateralSubquery q binding) = true -> walkable q = true.
Proof. apply (walkable_branch _ (q :: bound binding)); [done|by left]. Qed.

Lemma walkable_join table op : walkable (SJoin table op) = true -> walkable table = true /\ walkable op = true.
Proof. intros Hw. split; (eapply (walkable_branch (SJoin table op)); [done| |done]; set_solver). Qed.

Lemma sound_join ctes projection pre source jpre table c jpost post condition groupBy having orderBy offset limit fuel scope :
  let q := SQuery ctes
    (SSelect projection (pre ++ SFromClause source (jpre ++ SJoin table (SJoinOperator c) :: jpost) :: post)
       condition groupBy having) orderBy offset limit in
  query_check_fuel (S fuel) q scope = true -> walkable q = true ->
  let scope' := scope ∪ bindings_of pre ∪ binding_of source ∪ joined jpre in
  walkable table = true /\ walkable c = true /\
  FromExpressionReferencesOnlyLocalIdentifiers (query_check_fuel fuel) table scope' = true /\
  (is_nil c = false -> expression_check fuel c scope' = true).
Proof.
  intros q Hq Hw scope'. apply sound_source in Hq as (Hwf & _ & scope1 & Hl); [|done]. apply joins_loop_split in Hl as [Ht Hc].
  assert (Hj : walkable (SJoin table (SJoinOperator c)) = true) by (eapply walkable_from; [exact Hwf|set_solver]).
  apply walkable_join in Hj as [Hwt Hwo]. split_and!; [done| |done|].
  - eapply (walkable_branch (SJoinOperator c) [c]); [done|by left|done].
  - intros Hn. destruct Hc; [congruence|done].
Qed.

Lemma query_check_select fuel ctes body orderBy offset limit scope :
  query_check_fuel fuel (SQuery ctes body orderBy offset limit) scope = true -> exists p f c g h, body = SSelect p f c g h.
Proof.
  destruct fuel; [done|]. cbn. intros Hq.
  destruct body, ctes as [| |[|]| | | | | | | | | | | | | | | | | | | | | | | | | | | | | | | | | | | | | | | |]; try done; by repeat eexists.
Qed.

(** Whatever an expression that passes the check refers to is in the scope. *)
Lemma check_sound :
  (forall e x, refers e x -> sound_at expression_check e x) /\ (forall q x, refers_query q x -> sound_at query_check_fuel q x).
Proof.
  apply refers_mutual.
  - intros i Hw [|fuel] scope; [done|]. rewrite (expression_check_eq _ _ []) by done. cbn. by case_bool_decide.
  - intros i ids Hw [|fuel] scope; [done|]. rewrite (expression_check_eq _ _ []) by done. cbn. by case_bool_decide.
  - intros. by apply sound_row.
  - intros. by apply sound_exists.
  - intros. by eapply sound_branch.
  - intros ctes projection from condition groupBy having orderBy offset limit p x Hp _ IH Hx Hw [|fuel] scope Hq; [done|].
    apply query_check_passed in Hq as (scope' & Hf & Hproj & _). eapply sound_scoped; [done..|]. eapply IH, Hproj; [|done].
    eapply (walkable_branch (SProjection projection) projection); [done..|]. eapply walkable_item; [done|by left].
  - intros ctes projection from condition groupBy having orderBy offset limit x Hr IH Hx Hw [|fuel] scope Hq; [done|].
    apply query_check_passed in Hq as (scope' & Hf & _ & _ & Hc & _). apply refers_some in Hr. eapply sound_scoped; [done..|].
    eapply IH, Hc; [|done]. eapply walkable_item; [done|]. rewrite present_some by done. set_solver.
  - intros ctes projection from condition groupBy having orderBy offset limit x Hr IH Hx Hw [|fuel] scope Hq; [done|].
    apply query_check_passed in Hq as (scope' & Hf & _ & _ & _ & Hh & _). apply refers_some in Hr. eapply sound_scoped; [done..|].
    eapply IH, Hh; [|done]. eapply walkable_item; [done|]. rewrite (present_some having) by done. set_solver.
  - intros ctes projection from condition groupBy having orderBy offset limit g x Hg Hgw _ IH Hx Hw [|fuel] scope Hq; [done|].
    apply query_check_passed in Hq as (scope' & Hf & _ & Hgs & _). eapply sound_scoped; [done..|]. by eapply IH, Hgs.
  - intros ctes projection from condition groupBy having orderBy offset limit e x He Hew _ IH Hx Hw [|fuel] scope Hq; [done|].
    apply query_check_passed in Hq as (scope' & Hf & _ & _ & _ & _ & Ho & _). by eapply IH, Ho.
  - intros ctes body orderBy offset limit x How Hr IH Hw [|fuel] scope Hq; [done|]. apply refers_some in Hr.
    destruct (query_check_select _ _ _ _ _ _ _ Hq) as (p & f & c & g & h & ->).
    apply query_check_passed in Hq as (scope' & _ & _ & _ & _ & _ & _ & Ho & _). by eapply IH, Ho.
  - intros ctes body orderBy offset limit x How Hr IH Hw [|fuel] scope Hq; [done|]. apply refers_some in Hr.
    destruct (query_check_select _ _ _ _ _ _ _ Hq) as (p & f & c & g & h & ->).
    apply query_check_passed in Hq as (scope' & _ & _ & _ & _ & _ & _ & _ & Hl). by eapply IH, Hl.
  - intros ctes projection pre q binding joins post condition groupBy having orderBy offset limit x _ IH Hx Hw [|fuel] scope Hq; [done|].
    apply sound_source in Hq as (Hwf & Hs & _); [|done]. cbn in Hs.
    assert (x ∈ scope ∪ bindings_of pre); [|set_solver]. eapply IH, Hs. eapply walkable_lateral, walkable_from; [done|by left].
  - intros until x. intros _ IH Hx Hs Hj Hw [|fuel] scope Hq; [done|].
    apply sound_join in Hq as (Hwt & _ & Ht & _); [|done]. cbn in Ht. apply walkable_lateral in Hwt.
    specialize (IH Hwt _ _ Ht). set_solver.
  - intros until x. intros Hr IH Hx Hs Hj Ht Hw [|fuel] scope Hq; [done|].
    apply sound_join in Hq as (_ & Hwc & _ & Hc); [|done]. apply refers_some in Hr. specialize (IH Hwc _ _ (Hc Hr)). set_solver.
Qed.

(** ** Completeness, without EXISTS *)

Definition exists_free (n : SyntaxNode) : Prop := forall m, m ∈ nodes n -> match m with SExistsExpression _ => False | _ => True end.

Lemma exists_free_branch n bs b : sql_branches n = inl bs -> b ∈ bs -> exists_free n -> exists_free b.
Proof.
  intros Hb Hin Hf m Hm. apply Hf. rewrite (nodes_eq n bs) by done. right. apply list_elem_of_In, in_concat. exists (nodes b).
  split; apply list_elem_of_In; [by apply list_elem_of_fmap_2|done].
Qed.

Lemma check_complete n : forall fuel scope, walkable n = true -> exists_free n -> weight n <= fuel ->
  (forall x, refers n x -> x ∈ scope) -> expression_check fuel n scope = true.
Proof.
  induction n as [n IH] using syntax_ind. intros [|fuel] scope Hw Hf Hle Hr; [pose proof (weight_pos n); lia|].
  destruct (sql_walkable_branches n Hw) as (bs & Hb & Hbw). rewrite (expression_check_eq _ _ bs) by done.
  destruct (locality_verdict (expression_check fuel) (query_check_fuel fuel) scope n) eqn:Hv; [|done|].
  - exfalso. destruct n; try done; cbn in Hv.
    + destruct identifiers; [done|]. case_bool_decide as Hx; [done|]. apply Hx, Hr. constructor.
    + case_bool_decide as Hx; [done|]. apply Hx, Hr. constructor.
    + destruct (expression_check fuel n scope) eqn:Hc; [done|]. injection Hb as <-. enough (Htrue : expression_check fuel n scope = true) by congruence.
      eapply IH; [done|by left|apply Hbw; by left|eapply exists_free_branch; [|by left|done]; done| |].
      * cbn in Hle. lia.
      * intros x Hx. apply Hr. by constructor.
    + apply (Hf (SExistsExpression n)). rewrite (nodes_eq _ bs) by done. by left.
  - apply forallb_forall. intros b Hin%list_elem_of_In. pose proof (branch_weight _ _ _ Hb Hin) as Hlt.
    eapply IH; [done..|by apply Hbw|by eapply exists_free_branch|lia|]. intros x Hx. apply Hr.
    apply (refers_branch n bs b); try done. destruct n; try done; cbn in Hv; by case_match.
Qed.

(** ** The partition *)

Lemma FlattenConjunction_walkable e : walkable e = true -> forall t, t ∈ FlattenConjunction e -> walkable t = true.
Proof.
  intros Hw t. revert Hw. induction e; intros Hw; try (by intros ->%list_elem_of_singleton). cbn [FlattenConjunction].
  destruct operator; try (by intros ->%list_elem_of_singleton). intros [Ht|Ht]%elem_of_app.
  - apply IHe1; [|done]. eapply walkable_branch; [|by left|done]. done.
  - apply IHe2; [|done]. eapply walkable_branch; [|right; by left|done]. done.
Qed.

Lemma refers_And a b x : refers (NewBinaryExpression a OperatorAnd b) x -> refers a x \/ refers b x.
Proof. inversion 1 as [| | | |n bs c y Hp Hb Hin Hx]; simplify_eq. cbn in Hb. simplify_eq. set_solver. Qed.

Lemma refers_OptionalAnd a b x : refers (OptionalAnd a b) x -> refers a x \/ refers b x.
Proof. unfold OptionalAnd. destruct (is_nil a); [tauto|]. destruct (is_nil b); [tauto|]. apply refers_And. Qed.

Definition conjoined_terms (terms : list SyntaxNode) : SyntaxNode := foldl OptionalAnd SNil terms.

Lemma partition_terms scope terms : forall j w,
  foldl (partition_turn scope) (j, w) terms =
  (foldl OptionalAnd j (filter (fun t => IsLocalToScope t scope = true) terms),
   foldl OptionalAnd w (filter (fun t => IsLocalToScope t scope = false) terms)).
Proof.
  induction terms as [|t terms IH]; intros j w; [done|]. cbn [foldl partition_turn]. rewrite !filter_cons.
  destruct (IsLocalToScope t scope) eqn:Hl.
  - rewrite decide_True, decide_False by done. apply IH.
  - rewrite decide_False, decide_True by done. apply IH.
Qed.

Lemma refers_terms terms x : forall e, refers (foldl OptionalAnd e terms) x -> refers e x \/ exists t, t ∈ terms /\ refers t x.
Proof.
  induction terms as [|t terms IH]; intros e; [by left|]. cbn [foldl]. intros [Ht%refers_OptionalAnd|(t' & Ht' & Hr)]%IH.
  - destruct Ht; [by left|right; exists t; split; [by left|done]].
  - right. exists t'. split; [by right|done].
Qed.

(** *** The truth of a conjunction, in the logic of SQL *)

Inductive truth := TTrue | TFalse | TUnknown.

Definition and3 (a b : truth) : truth :=
  match a, b with
  | TFalse, _ | _, TFalse => TFalse
  | TTrue, TTrue => TTrue
  | _, _ => TUnknown
  end.

#[export] Instance and3_comm : Comm (=) and3.
Proof. by intros [] []. Qed.
#[export] Instance and3_assoc : Assoc (=) and3.
Proof. by intros [] [] []. Qed.
#[export] Instance and3_left_id : LeftId (=) TTrue and3.
Proof. by intros []. Qed.
#[export] Instance and3_right_id : RightId (=) TTrue and3.
Proof. by intros []. Qed.

Section truth.
(** The truth of every term that is not a conjunction. *)
Variable v : SyntaxNode -> truth.

(** A missing condition holds. *)
Fixpoint truth_of (e : SyntaxNode) : truth :=
  match e with
  | SNil => TTrue
  | SBinaryExpression _ OperatorAnd l r => and3 (truth_of l) (truth_of r)
  | _ => v e
  end.

Lemma truth_OptionalAnd a b : truth_of (OptionalAnd a b) = and3 (truth_of a) (truth_of b).
Proof using Type.
  unfold OptionalAnd. destruct (is_nil a) eqn:Ha; [destruct a; try done; symmetry; apply (left_id TTrue and3)|].
  destruct (is_nil b) eqn:Hb; [destruct b; try done; symmetry; apply (right_id TTrue and3)|]. done.
Qed.

Lemma truth_terms terms : forall e, truth_of (foldl OptionalAnd e terms) = foldl and3 (truth_of e) (truth_of <$> terms).
Proof using Type. induction terms as [|t terms IH]; intros e; [done|]. cbn. by rewrite IH, truth_OptionalAnd. Qed.

Lemma foldl_and3 l : forall a b, foldl and3 (and3 a b) l = and3 a (foldl and3 b l).
Proof using Type. induction l as [|c l IH]; intros a b; [done|]. cbn. by rewrite <- (assoc and3), IH. Qed.

Lemma truth_flatten e : truth_of e = foldl and3 TTrue (truth_of <$> FlattenConjunction e).
Proof using Type.
  induction e; try done; try (cbn [FlattenConjunction fmap list_fmap foldl]; symmetry; apply (left_id TTrue and3)).
  destruct operator; try (cbn [FlattenConjunction fmap list_fmap foldl]; symmetry; apply (left_id TTrue and3)).
  cbn [FlattenConjunction truth_of]. rewrite fmap_app, foldl_app, <- IHe1, IHe2. rewrite <- foldl_and3. by rewrite (right_id TTrue and3).
Qed.

Lemma truth_partition scope terms : 
  and3 (foldl and3 TTrue (truth_of <$> filter (fun t => IsLocalToScope t scope = true) terms))
       (foldl and3 TTrue (truth_of <$> filter (fun t => IsLocalToScope t scope = false) terms)) =
  foldl and3 TTrue (truth_of <$> terms).
Proof using Type.
  assert (Hunit : forall a l, foldl and3 (and3 TTrue a) l = and3 a (foldl and3 TTrue l)).
  { intros a l. rewrite (comm and3 TTrue a). apply foldl_and3. }
  induction terms as [|t terms IH]; [done|]. rewrite !filter_cons. cbn [fmap list_fmap foldl]. rewrite Hunit, <- IH.
  destruct (IsLocalToScope t scope).
  - rewrite decide_True, decide_False by done. cbn [fmap list_fmap foldl]. rewrite Hunit. by rewrite (assoc and3).
  - rewrite decide_False, decide_True by done. cbn [fmap list_fmap foldl]. rewrite Hunit.
    rewrite !(assoc and3). f_equal. apply (comm and3).
Qed.
End truth.

(** ** Free identifiers

    The identifiers that an expression leaves free, by the structure of SQL
    expressions and the scoping of SQL, without the walk. *)

(** The expressions that an expression is made of. *)
Definition operands (n : SyntaxNode) : list SyntaxNode :=
  match n with
  | SCase operand conditions thens otherwise => operand :: otherwise :: conditions ++ thens
  | SCompositeValue ns | SFunctionCall _ ns | SArrayLiteral ns => ns
  | SAliasedExpression e _ | STypeCast e _ | SParenthetical e | SEdgeArrayFromPathIDs e | SVariadic e | SArrayExpression e
  | SAllExpression e | SAnyExpression _ e | SUnaryExpression _ _ e | SRowColumnReference e _ | SFuture e => [e]
  | SBinaryExpression _ _ l r => [l; r]
  | SArrayIndex e indexes => e :: indexes
  | SArraySlice e lower upper => [e; lower; upper]
  | _ => []
  end.

(** In a query, the sources of the clauses before a lateral subquery are in its scope,
    those and the joined table in the scope of a constraint, and all in that of the
    other parts; the offset and the limit of a query see none. *)
Inductive free : SyntaxNode -> string -> Prop :=
| free_identifier i : free (SIdentifier i) i
| free_compound i ids : free (SCompoundIdentifier (i :: ids)) i
| free_operand n e x : e ∈ operands n -> free e x -> free n x
| free_exists q x : free_query q x -> free (SExistsExpression (SSubquery q)) x
with free_query : SyntaxNode -> string -> Prop :=
| free_item ctes projection from condition groupBy having orderBy offset limit e x :
    e ∈ projection ++ groupBy ++ [condition; having] \/ SOrderBy e ∈ orderBy -> free e x -> x ∉ bindings_of from ->
    free_query (SQuery ctes (SSelect projection from condition groupBy having) orderBy offset limit) x
| free_bounds ctes body orderBy offset limit e x :
    e ∈ [offset; limit] -> free e x -> free_query (SQuery ctes body orderBy offset limit) x
| free_source ctes projection pre q binding joins post condition groupBy having orderBy offset limit x :
    free_query q x -> x ∉ bindings_of pre ->
    free_query (SQuery ctes
      (SSelect projection (pre ++ SFromClause (SLateralSubquery q binding) joins :: post) condition groupBy having)
      orderBy offset limit) x
| free_table ctes projection pre source jpre q binding c jpost post condition groupBy having orderBy offset limit x :
    free_query q x -> x ∉ bindings_of pre -> x ∉ binding_of source -> x ∉ joined jpre ->
    free_query (SQuery ctes
      (SSelect projection (pre ++ SFromClause source (jpre ++ SJoin (SLateralSubquery q binding) (SJoinOperator c) :: jpost) :: post)
         condition groupBy having) orderBy offset limit) x
| free_constraint ctes projection pre source jpre table c jpost post condition groupBy having orderBy offset limit x :
    free c x -> x ∉ bindings_of pre -> x ∉ binding_of source -> x ∉ joined jpre -> x ∉ binding_of table ->
    free_query (SQuery ctes
      (SSelect projection (pre ++ SFromClause source (jpre ++ SJoin table (SJoinOperator c) :: jpost) :: post)
         condition groupBy having) orderBy offset limit) x.

Scheme free_mut := Minimality for free Sort Prop
  with free_query_mut := Minimality for free_query Sort Prop.
Combined Scheme free_mutual from free_mut, free_query_mut.

(** Scalar expressions: their only subqueries are those of [EXISTS], which are plain
    selects over tables and lateral subqueries.  In a select, what the walk of a
    surrounding node does not enter must be walkable by itself. *)
Inductive role := AsExpression | AsQuery | AsClause | AsJoin | AsSource.

Fixpoint scalar (r : role) (n : SyntaxNode) {struct n} : bool :=
  let e := scalar AsExpression in
  let maybe x := is_nil x || e x in
  let apart x := walkable x && e x in
  match r, n with
  | AsExpression, (SIdentifier _ | SCompoundIdentifier _ | SOperator _ | SLiteral _ _ | SParameter _ | SFormattingLiteral _) => true
  | AsExpression, (SCompositeValue ns | SFunctionCall _ ns | SArrayLiteral ns) => forallb e ns
  | AsExpression, (SAliasedExpression a _ | STypeCast a _ | SParenthetical a | SEdgeArrayFromPathIDs a | SVariadic a | SArrayExpression a
      | SAllExpression a | SAnyExpression _ a | SUnaryExpression _ _ a | SRowColumnReference a _) => e a
  | AsExpression, SFuture a => maybe a
  | AsExpression, SBinaryExpression _ _ a b => e a && e b
  | AsExpression, SCase operand conditions thens otherwise => maybe operand && maybe otherwise && forallb e conditions && forallb e thens
  | AsExpression, SArrayIndex a ns => e a && forallb e ns
  | AsExpression, SArraySlice a lower upper => e a && maybe lower && maybe upper
  | AsExpression, SExistsExpression (SSubquery q) => scalar AsQuery q
  | AsQuery, SQuery ctes (SSelect projection from condition groupBy having) orderBy offset limit =>
      forallb e projection && forallb apart groupBy && maybe condition && maybe having && forallb (scalar AsClause) from &&
      forallb (fun o => match o with SOrderBy x => apart x | _ => false end) orderBy &&
      (is_nil offset || apart offset) && (is_nil limit || apart limit)
  | AsClause, SFromClause source joins => scalar AsSource source && forallb (scalar AsJoin) joins
  | AsJoin, SJoin table (SJoinOperator c) => scalar AsSource table && maybe c
  | AsSource, STableReference _ _ => true
  | AsSource, SLateralSubquery q _ => scalar AsQuery q
  | _, _ => false
  end.

(** The operands of a scalar expression are scalar expressions, and the branches of its
    walk; besides, the walk goes to the name of an alias and to the column of a row. *)
Lemma scalar_operand n e : scalar AsExpression n = true -> e ∈ operands n -> is_nil e = false -> scalar AsExpression e = true.
Proof.
  intros Hs He Hn. destruct n; cbn in He; try (by apply elem_of_nil in He); cbn in Hs;
    rewrite ?andb_true_iff, ?orb_true_iff, ?forallb_forall in Hs; rewrite ?elem_of_cons, ?elem_of_app in He;
    rewrite ?list_elem_of_In in He; destruct_and?; destruct_or?; subst; try congruence; auto; try (by destruct He).
Qed.

Lemma elem_of_alternate x cs : forall ts, length cs = length ts -> x ∈ alternate cs ts <-> x ∈ cs \/ x ∈ ts.
Proof.
  induction cs as [|c cs IH]; intros [|t ts] Hl; try done; cbn; [set_solver|]. injection Hl as Hl. rewrite !elem_of_cons, (IH ts Hl). tauto.
Qed.

Lemma elem_of_present x n : x ∈ present n <-> x = n /\ is_nil n = false.
Proof. unfold present. destruct (is_nil n); rewrite ?list_elem_of_singleton; [|tauto]. split; [by intros ?%elem_of_nil|by intros []]. Qed.

Lemma scalar_branches n bs : scalar AsExpression n = true -> plain n = true -> sql_branches n = inl bs ->
  (forall e, e ∈ operands n -> is_nil e = false -> e ∈ bs) /\
  (forall e, e ∈ bs -> e ∈ operands n \/ exists a i, n = SAliasedExpression a (Some i)).
Proof.
  intros Hs Hp Hb. destruct n; try discriminate Hp; cbn in Hs; try discriminate Hs; cbn [sql_branches operands] in *;
    try (apply with_slice_inl in Hb as ->; unfold id); try (injection Hb as <-); try (by split; [|by left]).
  - unfold newSQLCaseWalkCursor in Hb. destruct (length conditions =? length thens) eqn:Hl; [|done]. apply Nat.eqb_eq in Hl. injection Hb as <-.
    split; intros e; rewrite !elem_of_cons, !elem_of_app, elem_of_alternate, !elem_of_present by done; [|naive_solver].
    intros [->|[->|H]] He; tauto.
  - destruct alias as [i|]; [|by split; [|by left]]. split; [set_solver|]. intros e _. right. by eexists _, _.
  - by destruct pointer; [injection Hb as <-; split; [|by left]|].
  - split; intros e; rewrite !elem_of_cons, ?elem_of_app, !elem_of_present; [|naive_solver]. intros [->|[->|[->|[]%elem_of_nil]]]; tauto.
  - split; intros e; rewrite ?elem_of_cons, !elem_of_present; [|naive_solver]. intros [->|[]%elem_of_nil]; tauto.
Qed.

Lemma scalar_clause pre source joins post : forallb (scalar AsClause) (pre ++ SFromClause source joins :: post) = true ->
  scalar AsSource source = true /\ forallb (scalar AsJoin) joins = true.
Proof. rewrite forallb_app. cbn. rewrite !andb_true_iff. tauto. Qed.

Lemma scalar_join jpre table c jpost : forallb (scalar AsJoin) (jpre ++ SJoin table (SJoinOperator c) :: jpost) = true ->
  scalar AsSource table = true /\ (is_nil c = false -> scalar AsExpression c = true).
Proof. rewrite forallb_app. cbn. rewrite !andb_true_iff, orb_true_iff. intros (_ & [? [?|?]] & _); split; congruence. Qed.

(** The parts of a scalar select. *)
Lemma scalar_select ctes projection from condition groupBy having orderBy offset limit :
  scalar AsQuery (SQuery ctes (SSelect projection from condition groupBy having) orderBy offset limit) = true ->
  (forall e, e ∈ projection -> scalar AsExpression e = true) /\
  (forall e, e ∈ groupBy -> walkable e = true /\ scalar AsExpression e = true) /\
  (forall e, e ∈ [condition; having] -> is_nil e = false -> scalar AsExpression e = true) /\
  (forall e, SOrderBy e ∈ orderBy -> walkable e = true /\ scalar AsExpression e = true) /\
  (forall e, e ∈ [offset; limit] -> is_nil e = false -> walkable e = true /\ scalar AsExpression e = true) /\
  forallb (scalar AsClause) from = true.
Proof.
  cbn. rewrite !andb_true_iff, !orb_true_iff, !forallb_forall. intros (((((((H1 & H2) & H3) & H4) & H5) & H6) & H7) & H8).
  split_and!; [..|done].
  - intros e He%list_elem_of_In. by apply H1.
  - intros e He%list_elem_of_In. by apply andb_true_iff, H2.
  - intros e [->|[->|[]%elem_of_nil]%elem_of_cons]%elem_of_cons Hn; [destruct H3|destruct H4]; congruence.
  - intros e He%list_elem_of_In%H6. by apply andb_true_iff in He.
  - intros e [->|[->|[]%elem_of_nil]%elem_of_cons]%elem_of_cons Hn; apply andb_true_iff; [destruct H7|destruct H8]; congruence.
Qed.

Lemma walkable_clause ctes projection pre source joins post condition groupBy having orderBy offset limit :
  walkable (SQuery ctes (SSelect projection (pre ++ SFromClause source joins :: post) condition groupBy having) orderBy offset limit) = true ->
  walkable (SFromClause source joins) = true.
Proof. intros Hw. eapply walkable_item; [exact Hw|]. rewrite elem_of_cons, !elem_of_app, elem_of_cons. tauto. Qed.

Lemma walkable_joined source jpre table op jpost : walkable (SFromClause source (jpre ++ SJoin table op :: jpost)) = true ->
  walkable table = true /\ walkable op = true.
Proof. intros Hw. apply walkable_join. eapply walkable_from; [exact Hw|]. rewrite elem_of_cons, elem_of_app, elem_of_cons. tauto. Qed.

Lemma free_some e x : free e x -> is_nil e = false.
Proof. destruct e; try done. inversion 1. by set_solver. Qed.

(** What is free in a scalar expression is referred to. *)
Lemma free_refers :
  (forall e x, free e x -> scalar AsExpression e = true -> walkable e = true -> refers e x) /\
  (forall q x, free_query q x -> scalar AsQuery q = true -> walkable q = true -> refers_query q x).
Proof.
  apply free_mutual.
  - constructor.
  - constructor.
  - intros n e x He Hf IH Hs Hw. apply free_some in Hf as Hn. pose proof (scalar_operand n e Hs He Hn) as Hse.
    destruct (sql_walkable_branches n Hw) as (bs & Hb & Hbw). destruct (plain n) eqn:Hp.
    + destruct (scalar_branches n bs Hs Hp Hb) as [Hin _]. apply (refers_branch n bs e); auto.
    + destruct n; try done; [|by apply elem_of_nil in He]. injection Hb as <-. apply list_elem_of_singleton in He as ->.
      apply refers_row, IH; [done|]. apply Hbw. by left.
  - intros q x _ IH Hs Hw. apply refers_exists, IH; [done|].
    eapply (walkable_branch (SSubquery q) [q]); [done|by left|]. eapply walkable_branch; [|by left|done]. done.
  - intros ctes projection from condition groupBy having orderBy offset limit e x He Hf IH Hx Hs Hw.
    destruct (scalar_select _ _ _ _ _ _ _ _ _ Hs) as (H1 & H2 & H3 & H4 & _). apply free_some in Hf as Hn.
    destruct He as [[He|[He|He]%elem_of_app]%elem_of_app|He].
    + apply (refers_projection _ _ _ _ _ _ _ _ _ e); [done| |done]. apply IH; [by apply H1|].
      eapply (walkable_branch (SProjection projection) projection); [done..|]. eapply walkable_item; [done|by left].
    + destruct (H2 e He). apply (refers_group _ _ _ _ _ _ _ _ _ e); auto.
    + pose proof (H3 e He Hn) as Hse. apply elem_of_cons in He as [->|He%list_elem_of_singleton]; [|subst e].
      * apply refers_where; [|done]. apply IH; [done|]. eapply walkable_item; [done|]. rewrite (present_some condition) by done. set_solver.
      * apply refers_having; [|done]. apply IH; [done|]. eapply walkable_item; [done|]. rewrite (present_some having) by done. set_solver.
    + destruct (H4 e He). apply (refers_order _ _ _ _ _ _ _ _ _ e); auto.
  - intros ctes body orderBy offset limit e x He Hf IH Hs Hw. apply free_some in Hf as Hn.
    destruct body as [| | | | | | |projection from condition groupBy having| | | | | | | | | | | | | | | | | | | | | | | | | | | | | | | | | | |]; try done.
    destruct (scalar_select _ _ _ _ _ _ _ _ _ Hs) as (_ & _ & _ & _ & H5 & _). destruct (H5 e He Hn).
    apply elem_of_cons in He as [->|He%list_elem_of_singleton]; [|subst e]; [apply refers_offset|apply refers_limit]; auto.
  - intros until x. intros _ IH Hx Hs Hw. destruct (scalar_select _ _ _ _ _ _ _ _ _ Hs) as (_ & _ & _ & _ & _ & Hc).
    apply scalar_clause in Hc as [Hsource _]. apply refers_source; [|done]. apply IH; [done|].
    apply walkable_clause in Hw. eapply walkable_lateral, walkable_from; [exact Hw|by left].
  - intros until x. intros _ IH Hx Hsrc Hj Hs Hw. destruct (scalar_select _ _ _ _ _ _ _ _ _ Hs) as (_ & _ & _ & _ & _ & Hc).
    apply scalar_clause in Hc as [_ [Ht _]%scalar_join]. apply refers_table; [|done..]. apply IH; [done|].
    apply walkable_clause, walkable_joined in Hw as [Hwt _]. by eapply walkable_lateral.
  - intros until x. intros Hf IH Hx Hsrc Hj Ht Hs Hw. apply free_some in Hf as Hn.
    destruct (scalar_select _ _ _ _ _ _ _ _ _ Hs) as (_ & _ & _ & _ & _ & Hc).
    apply scalar_clause in Hc as [_ [_ Hcs]%scalar_join]. apply refers_constraint; [|done..]. apply IH; [by apply Hcs|].
    apply walkable_clause, walkable_joined in Hw as [_ Hwo]. by eapply (walkable_branch (SJoinOperator c) [c]); [|by left|].
Qed.

(** Without EXISTS and aliases. *)
Definition bare (n : SyntaxNode) : Prop :=
  forall m, m ∈ nodes n -> match m with SExistsExpression _ | SAliasedExpression _ (Some _) => False | _ => True end.

Lemma bare_node n : bare n -> walkable n = true -> match n with SExistsExpression _ | SAliasedExpression _ (Some _) => False | _ => True end.
Proof. intros Hb (bs & Hbs & _)%sql_walkable_branches. apply Hb. rewrite (nodes_eq n bs) by done. by left. Qed.

Lemma bare_branch n bs b : sql_branches n = inl bs -> b ∈ bs -> bare n -> bare b.
Proof.
  intros Hb Hin Hf m Hm. apply Hf. rewrite (nodes_eq n bs) by done. right. apply list_elem_of_In, in_concat. exists (nodes b).
  split; apply list_elem_of_In; [by apply list_elem_of_fmap_2|done].
Qed.

Lemma refers_free n x : scalar AsExpression n = true -> walkable n = true -> bare n -> refers n x -> free n x.
Proof.
  induction n as [n IH] using syntax_ind. intros Hs Hw Hbare Hr. pose proof (bare_node n Hbare Hw) as Hn.
  destruct (sql_walkable_branches n Hw) as (bs & Hb & Hbw).
  assert (Hstep : forall b, b ∈ bs -> b ∈ operands n -> refers b x -> free n x).
  { intros b Hin Ho Hx. apply (free_operand n b); [done|]. apply (IH bs Hb b Hin); [|by apply Hbw|by eapply bare_branch|done].
    eapply scalar_operand; [done..|]. by eapply refers_some. }
  destruct Hr as [i|i ids|e column x Hx|q x Hx|n bs' b x Hp Hb' Hin Hx]; [constructor|constructor| |done|].
  - injection Hb as <-. apply (Hstep e); [by left|by left|done].
  - rewrite Hb in Hb'. injection Hb' as <-. destruct (scalar_branches n bs Hs Hp Hb) as [_ Hop].
    destruct (Hop b Hin) as [Ho|(a & i & ->)]; [by eapply Hstep|done].
Qed.

(** [C33] A scalar expression, one whose only subqueries are those of EXISTS, that can
    be walked (the check drops the errors of the walk) and that is called local leaves
    no identifier free outside the local scope, where what is free is given by the
    structure of the expression and the scoping of SQL through selects, lateral
    sources and joins, with the GROUP BY, ORDER BY, OFFSET and LIMIT of the selects,
    which can be walked by themselves.  Without EXISTS and aliases it is called local
    whenever that is so. *)
Theorem ExpressionReferencesOnlyLocalIdentifiers_sound e scope :
  walkable e = true -> scalar AsExpression e = true ->
  (ExpressionReferencesOnlyLocalIdentifiers e scope = true -> forall x, free e x -> x ∈ scope) /\
  (bare e -> (forall x, free e x -> x ∈ scope) -> ExpressionReferencesOnlyLocalIdentifiers e scope = true).
Proof.
  intros Hw Hs. split.
  - intros He x Hx. eapply (proj1 check_sound); [|exact Hw|exact He]. by apply (proj1 free_refers).
  - intros Hb Hx. apply check_complete; [done| |done|].
    + intros m Hm. specialize (Hb m Hm). by destruct m.
    + intros x Hr. by apply Hx, refers_free.
Qed.

(** [C16] Splitting a constraint between the JOIN and the WHERE changes no answer:
    in three-valued logic the two parts together are worth what the constraint was,
    whatever its terms are worth; the terms keep their order; what the JOIN part
    refers to is in the local scope, and no term that is left to the WHERE was
    local. *)
Theorem PartitionConstraintByLocality_exact e scope :
  walkable e = true ->
  let '(join, rest) := PartitionConstraintByLocality e scope in
  (forall v, and3 (truth_of v join) (truth_of v rest) = truth_of v e) /\
  join = foldl OptionalAnd SNil (filter (fun t => IsLocalToScope t scope = true) (FlattenConjunction e)) /\
  rest = foldl OptionalAnd SNil (filter (fun t => IsLocalToScope t scope = false) (FlattenConjunction e)) /\
  (forall x, refers join x -> x ∈ scope).
Proof.
  intros Hw. unfold PartitionConstraintByLocality. rewrite partition_terms. split_and!; [|done..|].
  - intros v. by rewrite !truth_terms, truth_partition, <- truth_flatten.
  - intros x [Hx|(t & Ht & Hx)]%refers_terms; [by apply refers_some in Hx|].
    apply list_elem_of_filter in Ht as [Hl Ht]. unfold IsLocalToScope in Hl. rewrite (refers_some _ _ Hx) in Hl.
    eapply (proj1 check_sound); [done| |done]. by eapply FlattenConjunction_walkable.
Qed.

(** *** Examples *)

Definition compare (a b : string) : SyntaxNode :=
  NewBinaryExpression (SCompoundIdentifier [a; "id"]) OperatorEquals (SCompoundIdentifier [b; "id"]).

Definition demo_conjunction : SyntaxNode :=
  NewBinaryExpression (NewBinaryExpression (compare "n0" "e0") OperatorAnd (compare "n0" "s1")) OperatorAnd
    (SExistsExpression (SSubquery (SQuery SNil
      (SSelect [SLiteral LOther TInt4] [SFromClause (STableReference ["edge"] (Some "e1")) []] (compare "e1" "n0") [] SNil)
      [] SNil SNil))).

Lemma ExpressionReferencesOnlyLocalIdentifiers_sound_witness :
  ExpressionReferencesOnlyLocalIdentifiers demo_conjunction {["n0"; "e0"; "s1"]} = true /\
  (forall x, free demo_conjunction x -> x ∈ ({["n0"; "e0"; "s1"]} : IdentifierSet)) /\
  "s1" ∈ ({["n0"; "e0"; "s1"]} : IdentifierSet).
Proof.
  destruct (ExpressionReferencesOnlyLocalIdentifiers_sound demo_conjunction {["n0"; "e0"; "s1"]}) as [H _];
    [vm_compute; reflexivity|vm_compute; reflexivity|].
  assert (Hl : ExpressionReferencesOnlyLocalIdentifiers demo_conjunction {["n0"; "e0"; "s1"]} = true) by (vm_compute; reflexivity).
  split; [exact Hl|]. split; [exact (H Hl)|]. apply (H Hl).
  apply (free_operand _ (NewBinaryExpression (compare "n0" "e0") OperatorAnd (compare "n0" "s1"))); [by left|].
  apply (free_operand _ (compare "n0" "s1")); [by right; left|].
  apply (free_operand _ (SCompoundIdentifier ["s1"; "id"])); [by right; left|constructor].
Defined.

Lemma PartitionConstraintByLocality_exact_witness :
  PartitionConstraintByLocality demo_conjunction {["n0"; "e0"]} =
    (NewBinaryExpression (compare "n0" "e0") OperatorAnd
      (SExistsExpression (SSubquery (SQuery SNil
        (SSelect [SLiteral LOther TInt4] [SFromClause (STableReference ["edge"] (Some "e1")) []] (compare "e1" "n0") [] SNil)
        [] SNil SNil))), compare "n0" "s1") /\
  forall v, and3 (truth_of v (PartitionConstraintByLocality demo_conjunction {["n0"; "e0"]}).1) (v (compare "n0" "s1")) =
    truth_of v demo_conjunction.
Proof.
  split; [vm_compute; reflexivity|]. intros v.
  pose proof (PartitionConstraintByLocality_exact demo_conjunction {["n0"; "e0"]} ltac:(vm_compute; reflexivity)) as H.
  assert (Hp : PartitionConstraintByLocality demo_conjunction {["n0"; "e0"]} =
    ((PartitionConstraintByLocality demo_conjunction {["n0"; "e0"]}).1, compare "n0" "s1")) by (vm_compute; reflexivity).
  rewrite Hp in H. destruct H as [H _]. exact (H v).
Defined.

(** The constraint of a join is checked before the joined table is in scope: a
    subquery that joins two tables of its own is not called local, though it refers to
    nothing from outside. *)
Definition self_contained : SyntaxNode :=
  SExistsExpression (SSubquery (SQuery SNil
    (SSelect [SLiteral LOther TInt4]
       [SFromClause (STableReference ["edge"] (Some "e1")) [SJoin (STableReference ["node"] (Some "n1")) (SJoinOperator (compare "n1" "e1"))]]
       SNil [] SNil) [] SNil SNil)).

Example join_constraint_rejected : ExpressionReferencesOnlyLocalIdentifiers self_contained ∅ = false.
Proof. vm_compute. reflexivity. Qed.
