(* ===== verification/Constraints.v ===== *)
(** * Constraints of the translator (cypher/models/pgsql/translate/constraints.go, expression.go)

    A WHERE clause is taken apart into constraints, each with the identifiers it
    depends on; a step of a traversal consumes the constraints that the identifiers
    in scope satisfy.  The type hints that are applied to every conjunction
    ([applyBinaryExpressionTypeHints] at an AND) rewrite its two operands in place or
    fail.  They are a variable here: what is proved holds whatever they do. *)

From S2P Require Import Prelude Framing Walk WalkTree Kinds Mapper DataTypes Scope SqlAst.

(** ** Constraints *)

Record Constraint := mkConstraint {
  co_Dependencies : IdentifierSet;
  co_Expression : SyntaxNode;
}.

(** A tracker is its slice of constraints; every call returns it as it is left. *)
Notation ConstraintTracker := (list Constraint).

Section tracker.
(** The operands of a conjunction after the hints. *)
Variable applyBinaryExpressionTypeHints : SyntaxNode -> SyntaxNode -> (SyntaxNode * SyntaxNode) + error.

Definition conjoin (l r : SyntaxNode) : SyntaxNode + error :=
  match applyBinaryExpressionTypeHints l r with
  | inl (l', r') => inl (NewBinaryExpression l' OperatorAnd r')
  | inr err => inr err
  end.

Fixpoint conjoin_loop (conjoined : SyntaxNode) (expressions : list SyntaxNode) : SyntaxNode + error :=
  match expressions with
  | [] => inl conjoined
  | expression :: rest =>
      if is_nil expression then conjoin_loop conjoined rest
      else if is_nil conjoined then conjoin_loop expression rest
      else
        match conjoin conjoined expression with
        | inl conjoined' => conjoin_loop conjoined' rest
        | inr err => inr err
        end
  end.

Definition ConjoinExpressions (expressions : list SyntaxNode) : SyntaxNode + error := conjoin_loop SNil expressions.

Definition conjoin_constraints (dependencies : IdentifierSet) (expressions : list SyntaxNode) : Constraint + error :=
  match ConjoinExpressions expressions with
  | inl conjoined => inl (mkConstraint dependencies conjoined)
  | inr err => inr err
  end.

Fixpoint ConstraintTracker_HasConstraints (s : ConstraintTracker) (scope : IdentifierSet) : bool + error :=
  match s with
  | [] => inl false
  | c :: rest =>
      match isSyntaxNodeSatisfied (co_Expression c) with
      | (_, Some err) => inr err
      | (satisfied, None) =>
          if satisfied && IdentifierSet_Satisfies scope (co_Dependencies c) then inl true
          else ConstraintTracker_HasConstraints rest scope
      end
  end.

Definition ConstraintTracker_HasEndpointInequality (s : ConstraintTracker) (leftEndpoint rightEndpoint : string) : bool :=
  existsb (fun c => expressionHasEndpointInequality (co_Expression c) leftEndpoint rightEndpoint) s.

Definition ConstraintTracker_ConsumeAll (s : ConstraintTracker) : ConstraintTracker * (Constraint + error) :=
  ([], conjoin_constraints (foldl (fun d c => IdentifierSet_MergeSet d (co_Dependencies c)) ∅ s) (co_Expression <$> s)).

(** The loop of [ConsumeSet] from the constraint at [idx] on: what stays, what is
    consumed, and the error that ends it. *)
Fixpoint consume_loop (visible : IdentifierSet) (s : ConstraintTracker) : ConstraintTracker * list Constraint * option error :=
  match s with
  | [] => ([], [], None)
  | c :: rest =>
      match isSyntaxNodeSatisfied (co_Expression c) with
      | (_, Some err) => (s, [], Some err)
      | (satisfied, None) =>
          let '(kept, consumed, err) := consume_loop visible rest in
          if negb satisfied || negb (IdentifierSet_Satisfies visible (co_Dependencies c)) then (c :: kept, consumed, err)
          else (kept, c :: consumed, err)
      end
  end.

Definition ConstraintTracker_ConsumeSet (s : ConstraintTracker) (visible : IdentifierSet) : ConstraintTracker * (Constraint + error) :=
  let '(kept, consumed, err) := consume_loop visible s in
  (kept,
   match err with
   | Some e => inr e
   | None =>
       conjoin_constraints (foldl (fun d c => IdentifierSet_MergeSet d (co_Dependencies c)) ∅ consumed) (co_Expression <$> consumed)
   end).

(** [None] is success. *)
Fixpoint ConstraintTracker_Constrain (s : ConstraintTracker) (dependencies : IdentifierSet) (constraintExpression : SyntaxNode)
    : ConstraintTracker * option error :=
  match s with
  | [] => ([mkConstraint dependencies constraintExpression], None)
  | c :: rest =>
      if IdentifierSet_Matches (co_Dependencies c) dependencies then
        match conjoin constraintExpression (co_Expression c) with
        | inl joined => (mkConstraint (co_Dependencies c) joined :: rest, None)
        | inr err => (s, Some err)
        end
      else
        let '(rest', err) := ConstraintTracker_Constrain rest dependencies constraintExpression in
        (c :: rest', err)
  end.

(** ** The constraints of the expression tree translator *)

Record ExpressionTreeTranslator := mkTranslator {
  et_UserConstraints : ConstraintTracker;
  et_TranslationConstraints : ConstraintTracker;
}.

Definition NewExpressionTreeTranslator : ExpressionTreeTranslator := mkTranslator [] [].

Definition mergeUserAndTranslationConstraints (user translation : Constraint) : Constraint :=
  if is_nil (co_Expression user) then translation
  else
    mkConstraint (IdentifierSet_MergeSet (co_Dependencies translation) (co_Dependencies user))
      (OptionalAnd (NewParenthetical (co_Expression user)) (co_Expression translation)).

Definition HasAnyConstraints (s : ExpressionTreeTranslator) (scope : IdentifierSet) : bool + error :=
  match ConstraintTracker_HasConstraints (et_UserConstraints s) scope with
  | inr err => inr err
  | inl true => inl true
  | inl false => ConstraintTracker_HasConstraints (et_TranslationConstraints s) scope
  end.

Definition HasEndpointInequality (s : ExpressionTreeTranslator) (leftEndpoint rightEndpoint : string) : bool :=
  ConstraintTracker_HasEndpointInequality (et_UserConstraints s) leftEndpoint rightEndpoint ||
  ConstraintTracker_HasEndpointInequality (et_TranslationConstraints s) leftEndpoint rightEndpoint.

(** The user constraints are consumed before the others are tried. *)
Definition ConsumeConstraintsFromVisibleSet (s : ExpressionTreeTranslator) (visible : IdentifierSet)
    : ExpressionTreeTranslator * (Constraint + error) :=
  let '(user, ru) := ConstraintTracker_ConsumeSet (et_UserConstraints s) visible in
  match ru with
  | inr err => (mkTranslator user (et_TranslationConstraints s), inr err)
  | inl u =>
      let '(translation, rt) := ConstraintTracker_ConsumeSet (et_TranslationConstraints s) visible in
      (mkTranslator user translation,
       match rt with inr err => inr err | inl t => inl (mergeUserAndTranslationConstraints u t) end)
  end.

Definition ConsumeAllConstraints (s : ExpressionTreeTranslator) : ExpressionTreeTranslator * (Constraint + error) :=
  let '(user, ru) := ConstraintTracker_ConsumeAll (et_UserConstraints s) in
  match ru with
  | inr err => (mkTranslator user (et_TranslationConstraints s), inr err)
  | inl u =>
      let '(translation, rt) := ConstraintTracker_ConsumeAll (et_TranslationConstraints s) in
      (mkTranslator user translation,
       match rt with inr err => inr err | inl t => inl (mergeUserAndTranslationConstraints u t) end)
  end.

Definition AddTranslationConstraint (s : ExpressionTreeTranslator) (requiredIdentifiers : IdentifierSet) (e : SyntaxNode)
    : ExpressionTreeTranslator * option error :=
  let '(t, err) := ConstraintTracker_Constrain (et_TranslationConstraints s) requiredIdentifiers e in
  (mkTranslator (et_UserConstraints s) t, err).

Definition AddUserConstraint (s : ExpressionTreeTranslator) (requiredIdentifiers : IdentifierSet) (e : SyntaxNode)
    : ExpressionTreeTranslator * option error :=
  let '(u, err) := ConstraintTracker_Constrain (et_UserConstraints s) requiredIdentifiers e in
  (mkTranslator u (et_TranslationConstraints s), err).

End tracker.

(** No future in the expression is left open. *)
Definition realized (n : SyntaxNode) : bool := negb (existsb open_future (nodes n)).

(** ** Conjunctions

    [built l e]: [e] is the conjunction of the expressions [l], in order, with
    the type hints of every conjunction applied. *)

Section conjunctions.
Variable hints : SyntaxNode -> SyntaxNode -> (SyntaxNode * SyntaxNode) + error.

Inductive built : list SyntaxNode -> SyntaxNode -> Prop :=
| built_one e : built [e] e
| built_and l1 a l2 b c : built l1 a -> built l2 b -> conjoin hints a b = inl c -> built (l1 ++ l2) c.

(** The conjunction of a possibly empty list. *)
Definition conjunction (l : list SyntaxNode) (e : SyntaxNode) : Prop :=
  match l with [] => e = SNil | _ => built l e end.

Lemma conjoin_some a b c : conjoin hints a b = inl c -> is_nil c = false.
Proof using Type. unfold conjoin. destruct (hints a b) as [[]|]; [|done]. by intros [= <-]. Qed.

Lemma conjoin_loop_built gs : forall l e r, conjunction l e -> (l <> [] -> is_nil e = false) ->
  Forall (fun g => g.1 <> [] /\ built g.1 g.2 /\ is_nil g.2 = false) gs ->
  conjoin_loop hints e gs.*2 = inl r -> conjunction (l ++ concat gs.*1) r /\ (l ++ concat gs.*1 <> [] -> is_nil r = false).
Proof using Type.
  induction gs as [|[lg eg] gs IH]; intros l e r Hc Hnil Hgs; cbn [fmap list_fmap snd fst conjoin_loop List.concat].
  { intros [= <-]. by rewrite app_nil_r. }
  apply Forall_cons in Hgs as [(Hne & Hb & Hn) Hgs]. cbn [fst snd] in *. rewrite Hn. rewrite app_assoc.
  destruct l as [|x l].
  - cbn in Hc. subst e. cbn [is_nil]. intros Hr. apply (IH lg eg); try done. by destruct lg.
  - rewrite Hnil by done. destruct (conjoin hints e eg) as [c|] eqn:Hh; [|done]. intros Hr.
    apply (IH ((x :: l) ++ lg) c); try done; [|by intros _; eapply conjoin_some]. cbn. by apply (built_and (x :: l) e lg eg).
Qed.

(** ** What a tracker holds *)

(** The expressions added with the dependencies [d], newest first. *)
Definition group : Type := (IdentifierSet * list SyntaxNode)%type.

Definition holds_group (c : Constraint) (g : group) : Prop :=
  co_Dependencies c = g.1 /\ g.2 <> [] /\ built g.2 (co_Expression c) /\ is_nil (co_Expression c) = false.

Definition holds (s : ConstraintTracker) (gs : list group) : Prop := Forall2 holds_group s gs /\ NoDup gs.*1.

Definition group_add (d : IdentifierSet) (e : SyntaxNode) : list group -> list group :=
  fix go gs :=
    match gs with
    | [] => [(d, [e])]
    | g :: gs' => if decide (g.1 = d) then (d, e :: g.2) :: gs' else g :: go gs'
    end.

Lemma group_add_keys d e gs : (group_add d e gs).*1 = if decide (d ∈ gs.*1) then gs.*1 else gs.*1 ++ [d].
Proof using Type.
  induction gs as [|[d0 l] gs IH]; [done|]. cbn. destruct (decide (d0 = d)) as [->|Hne].
  - rewrite decide_True by (by left). done.
  - cbn. rewrite IH. destruct (decide (d ∈ gs.*1)) as [Hin|Hnin].
    + by rewrite decide_True by (by right).
    + rewrite decide_False; [done|]. rewrite elem_of_cons. intros [->|]; done.
Qed.

(** Constrain adds an expression to its group, or fails and changes nothing. *)
Lemma Constrain_holds s gs d e : holds s gs -> is_nil e = false ->
  match ConstraintTracker_Constrain hints s d e with
  | (s', None) => holds s' (group_add d e gs)
  | (s', Some _) => s' = s
  end.
Proof using Type.
  intros [Hf Hnd] He.
  assert (Hmain : match ConstraintTracker_Constrain hints s d e with
    | (s', None) => Forall2 holds_group s' (group_add d e gs) | (s', Some _) => s' = s end).
  { clear Hnd. induction Hf as [|c [dg lg] s gs (Hd & Hne & Hb & Hn) Htail IH]; cbn [ConstraintTracker_Constrain group_add].
    { constructor; [|constructor]. split_and!; try done. apply built_one. }
    cbn [fst snd] in *. destruct (IdentifierSet_Matches (co_Dependencies c) d) eqn:Hm.
    - apply IdentifierSet_Matches_spec in Hm. rewrite decide_True by congruence.
      destruct (conjoin hints e (co_Expression c)) as [joined|] eqn:Hh; [|done].
      constructor; [|exact Htail]. split_and!; try done; [|by eapply conjoin_some].
      by apply (built_and [e] e lg (co_Expression c)); [apply built_one|..].
    - rewrite decide_False; [|intros <-; rewrite <- Hd in Hm; by rewrite (proj2 (IdentifierSet_Matches_spec _ _) eq_refl) in Hm].
      destruct (ConstraintTracker_Constrain hints s d e) as [s' [err|]]; [by rewrite IH|]. by constructor. }
  destruct (ConstraintTracker_Constrain hints s d e) as [s' [err|]]; [done|]. split; [done|]. rewrite group_add_keys.
  destruct (decide (d ∈ gs.*1)); [done|]. apply NoDup_app. split_and!; [done| |apply NoDup_singleton].
  intros x Hx ->%list_elem_of_singleton. done.
Qed.

(** *** Consuming *)

Definition ready (visible : IdentifierSet) (c : Constraint) : bool :=
  realized (co_Expression c) && IdentifierSet_Satisfies visible (co_Dependencies c).

Definition all_walkable (s : ConstraintTracker) : Prop := forall c, c ∈ s -> walkable (co_Expression c) = true.

Lemma all_walkable_check s : forallb (fun c => walkable (co_Expression c)) s = true -> all_walkable s.
Proof using Type. rewrite forallb_forall. intros H c Hc. by apply H, list_elem_of_In. Qed.

Lemma consume_loop_exact visible s : all_walkable s ->
  consume_loop visible s =
  (filter (fun c => ready visible c = false) s, filter (fun c => ready visible c = true) s, None).
Proof using Type.
  induction s as [|c s IH]; intros Hw; [done|]. cbn [consume_loop]. rewrite isSyntaxNodeSatisfied_exact by (apply Hw; by left).
  change (negb (existsb open_future (nodes (co_Expression c)))) with (realized (co_Expression c)).
  rewrite IH by (intros x Hx; apply Hw; by right). rewrite !filter_cons, <- negb_andb.
  change (realized (co_Expression c) && IdentifierSet_Satisfies visible (co_Dependencies c)) with (ready visible c).
  by destruct (ready visible c).
Qed.

(** The dependencies of a list of constraints together. *)
Definition dependencies_of (cs : list Constraint) : IdentifierSet := ⋃ (co_Dependencies <$> cs).

Lemma merge_dependencies cs : forall d,
  foldl (fun d c => IdentifierSet_MergeSet d (co_Dependencies c)) d cs = d ∪ dependencies_of cs.
Proof using Type.
  induction cs as [|c cs IH]; intros d; cbn; [set_solver|]. rewrite IH. unfold dependencies_of, IdentifierSet_MergeSet. cbn. set_solver.
Qed.

(** What the constraints [cs] become when they are consumed together: their
    dependencies, and the conjunction of the expressions they were made of. *)
Definition consumed_as (cs : list Constraint) (gs : list group) (r : Constraint + error) : Prop :=
  match r with
  | inl c => co_Dependencies c = dependencies_of cs /\ conjunction (concat gs.*2) (co_Expression c) /\
             (cs <> [] -> is_nil (co_Expression c) = false)
  | inr err => exists a b, hints a b = inr err
  end.

Lemma conjoin_loop_error es : forall e err, conjoin_loop hints e es = inr err -> exists a b, hints a b = inr err.
Proof using Type.
  induction es as [|x es IH]; intros e err; cbn [conjoin_loop]; [done|]. case_match; [apply IH|]. case_match; [apply IH|].
  unfold conjoin. destruct (hints e x) as [[]|] eqn:Hh; [apply IH|]. intros [= <-]. eauto.
Qed.

Lemma conjoin_constraints_spec cs gs : Forall2 holds_group cs gs ->
  consumed_as cs gs (conjoin_constraints hints (foldl (fun d c => IdentifierSet_MergeSet d (co_Dependencies c)) ∅ cs) (co_Expression <$> cs)).
Proof using Type.
  intros Hf. unfold conjoin_constraints, ConjoinExpressions, consumed_as. rewrite merge_dependencies.
  destruct (conjoin_loop hints SNil (co_Expression <$> cs)) as [r|err] eqn:Hc; [|by eapply conjoin_loop_error].
  cbn [co_Dependencies co_Expression]. set (gs' := zip_with (fun g c => (g.2, co_Expression c)) gs cs).
  assert (Hg : gs'.*2 = co_Expression <$> cs /\ gs'.*1 = gs.*2 /\
    Forall (fun g => g.1 <> [] /\ built g.1 g.2 /\ is_nil g.2 = false) gs' /\ (cs <> [] -> concat gs.*2 <> [])).
  { clear Hc. subst gs'. induction Hf as [|c g cs gs (Hd & Hne & Hb & Hn) Hf (IH1 & IH2 & IH3 & _)]; [done|].
    split_and!; [cbn; by f_equal|cbn; by f_equal|by constructor|]. cbn. intros _ [? _]%app_eq_nil. done. }
  destruct Hg as (Hg1 & Hg2 & Hg3 & Hg4). rewrite <- Hg1 in Hc.
  destruct (conjoin_loop_built gs' [] SNil r) as [Hr1 Hr2]; try done. rewrite Hg2 in Hr1, Hr2.
  split_and!; [set_solver|done|auto].
Qed.

(** The groups of the constraints that are ready, and of the others. *)
Lemma holds_split (p : Constraint -> bool) s gs : Forall2 holds_group s gs -> exists gs1 gs2, gs ≡ₚ gs1 ++ gs2 /\
  Forall2 holds_group (filter (fun c => p c = true) s) gs1 /\ Forall2 holds_group (filter (fun c => p c = false) s) gs2.
Proof using Type.
  induction 1 as [|c g s gs Hc Hf (gs1 & gs2 & Hp & H1 & H2)]; [by exists [], []|]. rewrite !filter_cons. destruct (p c).
  - exists (g :: gs1), gs2. rewrite decide_True, decide_False by done. split_and!; [by rewrite Hp|by constructor|done].
  - exists gs1, (g :: gs2). rewrite decide_False, decide_True by done. split_and!; [|done|by constructor].
    by rewrite Hp, Permutation_middle.
Qed.

Lemma ConsumeSet_spec s gs visible : holds s gs -> all_walkable s ->
  let '(s', r) := ConstraintTracker_ConsumeSet hints s visible in
  exists gs1 gs2, gs ≡ₚ gs1 ++ gs2 /\
    s' = filter (fun c => ready visible c = false) s /\ holds s' gs2 /\
    Forall2 holds_group (filter (fun c => ready visible c = true) s) gs1 /\
    consumed_as (filter (fun c => ready visible c = true) s) gs1 r.
Proof using Type.
  intros [Hf Hnd] Hw. unfold ConstraintTracker_ConsumeSet. rewrite consume_loop_exact by done.
  destruct (holds_split (ready visible) s gs Hf) as (gs1 & gs2 & Hp & H1 & H2). exists gs1, gs2. split_and!; try done.
  - split; [done|]. rewrite Hp, fmap_app in Hnd. by apply NoDup_app in Hnd as (_ & _ & Hnd).
  - by apply conjoin_constraints_spec.
Qed.

Lemma dependencies_ready visible s : dependencies_of (filter (fun c => ready visible c = true) s) ⊆ visible.
Proof using Type.
  unfold dependencies_of. induction s as [|c s IH]; [cbn; set_solver|]. rewrite filter_cons. case_decide as Hr; [|done].
  cbn. apply andb_true_iff in Hr as [_ Hs%IdentifierSet_Satisfies_spec]. set_solver.
Qed.
End conjunctions.

(** A tracker is a set of groups: Constrain puts an expression in front of the
    group with the same dependencies, or starts a new group for them, so that no two
    constraints share their dependencies and each is the conjunction of the
    expressions of its group; when the type hints of the conjunction fail, the
    tracker is as before. *)
Theorem Constrain_refines hints s gs d e : holds hints s gs -> is_nil e = false ->
  match ConstraintTracker_Constrain hints s d e with
  | (s', None) => holds hints s' (group_add d e gs)
  | (s', Some _) => s' = s
  end.
Proof. apply Constrain_holds. Qed.

(** ConsumeSet takes exactly the constraints that are ready: those without an
    open future whose dependencies are all visible.  They leave the tracker and come
    back as one constraint, with their dependencies together, all of them visible,
    and the conjunction of all the expressions that were added to them; the others
    stay as they are.  It fails only when the type hints do. *)
Theorem ConsumeSet_exact hints s gs visible : holds hints s gs -> all_walkable s ->
  let '(s', r) := ConstraintTracker_ConsumeSet hints s visible in
  exists gs1 gs2, gs ≡ₚ gs1 ++ gs2 /\
    s' = filter (fun c => ready visible c = false) s /\ holds hints s' gs2 /\
    consumed_as hints (filter (fun c => ready visible c = true) s) gs1 r /\
    (forall c, r = inl c -> co_Dependencies c ⊆ visible).
Proof.
  intros Hh Hw. pose proof (ConsumeSet_spec hints s gs visible Hh Hw) as H.
  destruct (ConstraintTracker_ConsumeSet hints s visible) as [s' r]. destruct H as (gs1 & gs2 & Hp & Hs & Hh' & _ & Hc).
  exists gs1, gs2. split_and!; try done. intros c ->. destruct Hc as [-> _]. apply dependencies_ready.
Qed.

(** ** Runs of a tracker *)

Inductive tracker_action :=
| AddConstraint (dependencies : IdentifierSet) (e : SyntaxNode)
| ConsumeVisible (visible : IdentifierSet)
| ConsumeRest.

(** The tracker and the consumed constraints, oldest first, or the first error. *)
Fixpoint tracker_run hints (actions : list tracker_action) (s : ConstraintTracker) (consumed : list Constraint)
    : (ConstraintTracker * list Constraint) + error :=
  match actions with
  | [] => inl (s, consumed)
  | AddConstraint d e :: rest =>
      match ConstraintTracker_Constrain hints s d e with
      | (s', None) => tracker_run hints rest s' consumed
      | (_, Some err) => inr err
      end
  | ConsumeVisible visible :: rest =>
      match ConstraintTracker_ConsumeSet hints s visible with
      | (s', inl c) => tracker_run hints rest s' (consumed ++ [c])
      | (_, inr err) => inr err
      end
  | ConsumeRest :: rest =>
      match ConstraintTracker_ConsumeAll hints s with
      | (s', inl c) => tracker_run hints rest s' (consumed ++ [c])
      | (_, inr err) => inr err
      end
  end.

Definition added (actions : list tracker_action) : list SyntaxNode :=
  omap (fun a => match a with AddConstraint _ e => Some e | _ => None end) actions.

Section runs.
Variable hints : SyntaxNode -> SyntaxNode -> (SyntaxNode * SyntaxNode) + error.
Hypothesis hints_walkable : forall a b a' b', hints a b = inl (a', b') -> walkable a = true -> walkable b = true ->
  walkable a' = true /\ walkable b' = true.

Lemma walkable_And a b : walkable a = true -> walkable b = true -> walkable (NewBinaryExpression a OperatorAnd b) = true.
Proof using Type. intros Ha Hb. clear hints_walkable hints. apply (branches_walkable _ [a; b]); [done|set_solver]. Qed.

Lemma Constrain_walkable s d e : all_walkable s -> walkable e = true ->
  all_walkable (ConstraintTracker_Constrain hints s d e).1.
Proof using hints_walkable.
  intros Hw He. induction s as [|c s IH]; cbn [ConstraintTracker_Constrain].
  { intros x ->%list_elem_of_singleton. done. }
  destruct (IdentifierSet_Matches (co_Dependencies c) d).
  - unfold conjoin. destruct (hints e (co_Expression c)) as [[a b]|] eqn:Hh; [|done].
    assert (Hc : walkable (co_Expression c) = true) by (apply Hw; by left). destruct (hints_walkable _ _ _ _ Hh He Hc).
    intros x [->|Hx]%elem_of_cons; [by apply walkable_And|]. apply Hw. by right.
  - assert (IHs : all_walkable (ConstraintTracker_Constrain hints s d e).1) by (apply IH; intros x Hx; apply Hw; by right).
    destruct (ConstraintTracker_Constrain hints s d e) as [s' err]. cbn in *. intros x [->|Hx]%elem_of_cons; [|by apply IHs].
    apply Hw. by left.
Qed.

Lemma group_add_leaves d e gs : concat (group_add d e gs).*2 ≡ₚ e :: concat gs.*2.
Proof using Type.
  induction gs as [|g gs IH]; [done|]. cbn [group_add]. destruct (decide (g.1 = d)); [done|]. cbn. rewrite IH. by rewrite Permutation_middle.
Qed.

(** Each consumed constraint is the conjunction of some of the expressions. *)
Definition accounts (consumed : list Constraint) (ls : list (list SyntaxNode)) : Prop :=
  Forall2 (fun c l => conjunction hints l (co_Expression c)) consumed ls.

Lemma tracker_run_accounts actions : forall s gs consumed ls s' consumed',
  holds hints s gs -> all_walkable s -> accounts consumed ls ->
  (forall e, e ∈ added actions -> is_nil e = false /\ walkable e = true) ->
  tracker_run hints actions s consumed = inl (s', consumed') ->
  exists gs' ls', holds hints s' gs' /\ accounts consumed' ls' /\
    concat ls' ++ concat gs'.*2 ≡ₚ concat ls ++ concat gs.*2 ++ added actions.
Proof using hints_walkable.
  induction actions as [|a actions IH]; intros s gs consumed ls s' consumed' Hh Hw Hc Ha; cbn [tracker_run].
  { intros [= <- <-]. exists gs, ls. by rewrite app_nil_r. }
  destruct a as [d e|visible|].
  - pose proof (Ha e ltac:(by left)) as [He1 He2]. pose proof (Constrain_holds hints s gs d e Hh He1) as H.
    pose proof (Constrain_walkable s d e Hw He2) as Hw'.
    destruct (ConstraintTracker_Constrain hints s d e) as [s1 [err|]]; [done|]. intros Hrun.
    edestruct IH as (gs' & ls' & Hh' & Hc' & Hp); [exact H|done|exact Hc|intros x Hx; apply Ha; by right|exact Hrun|].
    exists gs', ls'. split_and!; try done. rewrite Hp, group_add_leaves. apply Permutation_app_head, Permutation_middle.
  - pose proof (ConsumeSet_spec hints s gs visible Hh Hw) as H.
    destruct (ConstraintTracker_ConsumeSet hints s visible) as [s1 [c|err]]; [|done]. intros Hrun.
    destruct H as (gs1 & gs2 & Hp1 & -> & Hh1 & _ & (_ & Hcj & _)).
    edestruct IH as (gs' & ls' & Hh' & Hc' & Hp); [exact Hh1| |apply Forall2_app; [exact Hc|constructor; [exact Hcj|constructor]]
      |intros x Hx; apply Ha; done|exact Hrun|].
    { intros x [_ Hx]%list_elem_of_filter. by apply Hw. }
    exists gs', ls'. split_and!; try done. rewrite Hp, concat_app. cbn. rewrite app_nil_r, <- app_assoc, Hp1, fmap_app, concat_app.
    by rewrite <- !app_assoc.
  - unfold ConstraintTracker_ConsumeAll. pose proof (conjoin_constraints_spec hints s gs (proj1 Hh)) as H.
    destruct (conjoin_constraints hints _ _) as [c|err]; [|done]. destruct H as (_ & Hcj & _). intros Hrun.
    edestruct IH as (gs' & ls' & Hh' & Hc' & Hp); [split; [constructor|constructor]|by intros x Hx%elem_of_nil
      |apply Forall2_app; [exact Hc|constructor; [exact Hcj|constructor]]|intros x Hx; apply Ha; done|exact Hrun|].
    exists gs', ls'. split_and!; try done. rewrite Hp, concat_app. cbn. by rewrite app_nil_r, <- app_assoc.
Qed.
End runs.

(** [C34] No constraint is lost and none is applied twice: however constraints are
    added to a tracker and consumed from it, the expressions added are, each once,
    those of the conjunctions that were consumed and those the tracker still holds. *)
Theorem tracker_run_conserves hints actions s consumed :
  (forall a b a' b', hints a b = inl (a', b') -> walkable a = true -> walkable b = true -> walkable a' = true /\ walkable b' = true) ->
  (forall e, e ∈ added actions -> is_nil e = false /\ walkable e = true) ->
  tracker_run hints actions [] [] = inl (s, consumed) ->
  exists gs ls, holds hints s gs /\ accounts hints consumed ls /\ concat ls ++ concat gs.*2 ≡ₚ added actions.
Proof.
  intros Hh Ha Hrun. eapply (tracker_run_accounts hints Hh actions [] [] [] []) in Hrun as (gs & ls & H1 & H2 & H3); eauto.
  - by repeat constructor.
  - by intros x Hx%elem_of_nil.
  - constructor.
Qed.

(** *** Examples: a.id = 1 and b.id = 2 and a.id = b.id *)

Definition no_hints (a b : SyntaxNode) : (SyntaxNode * SyntaxNode) + error := inl (a, b).

Definition id_equals (identifier : string) (r : SyntaxNode) : SyntaxNode :=
  NewBinaryExpression (SCompoundIdentifier [identifier; ColumnID]) OperatorEquals r.

Definition only_a : SyntaxNode := id_equals "a" (SLiteral LOther TInt8).
Definition only_b : SyntaxNode := id_equals "b" (SLiteral LOther TInt8).
Definition a_and_b : SyntaxNode := id_equals "a" (SCompoundIdentifier ["b"; ColumnID]).

Definition demo_tracker : ConstraintTracker := [mkConstraint {["a"]} only_a; mkConstraint {["a"; "b"]} a_and_b].

Lemma demo_holds : holds no_hints demo_tracker [({["a"]}, [only_a]); ({["a"; "b"]}, [a_and_b])].
Proof.
  split; [|by apply (bool_decide_unpack _); vm_compute]. repeat constructor; try done; apply built_one.
Qed.

Lemma demo_walkable : all_walkable demo_tracker.
Proof. apply all_walkable_check. by vm_compute. Qed.

Lemma Constrain_refines_witness :
  holds no_hints [mkConstraint {["a"]} only_a; mkConstraint {["a"; "b"]} a_and_b; mkConstraint {["b"]} only_b]
    [({["a"]}, [only_a]); ({["a"; "b"]}, [a_and_b]); ({["b"]}, [only_b])].
Proof. exact (Constrain_refines no_hints demo_tracker _ {["b"]} only_b demo_holds eq_refl). Defined.

Lemma ConsumeSet_exact_witness :
  let '(s', r) := ConstraintTracker_ConsumeSet no_hints demo_tracker {["a"; "c"]} in
  s' = [mkConstraint {["a"; "b"]} a_and_b] /\ forall c, r = inl c -> co_Dependencies c ⊆ {["a"; "c"]}.
Proof.
  pose proof (ConsumeSet_exact no_hints demo_tracker _ {["a"; "c"]} demo_holds demo_walkable) as H.
  assert (Hs : (ConstraintTracker_ConsumeSet no_hints demo_tracker {["a"; "c"]}).1 = [mkConstraint {["a"; "b"]} a_and_b])
    by (vm_compute; reflexivity).
  destruct (ConstraintTracker_ConsumeSet no_hints demo_tracker {["a"; "c"]}) as [s' r].
  destruct H as (gs1 & gs2 & _ & _ & _ & _ & Hv). split; [exact Hs|exact Hv].
Defined.

Definition demo_run : list tracker_action :=
  [AddConstraint {["a"]} only_a; AddConstraint {["a"; "b"]} a_and_b; ConsumeVisible {["a"]};
   AddConstraint {["b"]} only_b; ConsumeVisible {["a"; "b"]}].

Lemma tracker_run_conserves_witness :
  exists gs ls, holds no_hints [] gs /\
    accounts no_hints [mkConstraint {["a"]} only_a; mkConstraint {["a"; "b"]} (NewBinaryExpression a_and_b OperatorAnd only_b)] ls /\
    concat ls ++ concat gs.*2 ≡ₚ [only_a; a_and_b; only_b].
Proof.
  apply (tracker_run_conserves no_hints demo_run []
    [mkConstraint {["a"]} only_a; mkConstraint {["a"; "b"]} (NewBinaryExpression a_and_b OperatorAnd only_b)]).
  - intros a b a' b' [= <- <-]. done.
  - intros e He. repeat (apply elem_of_cons in He as [->|He]; [by vm_compute|]). by apply elem_of_nil in He.
  - vm_compute. reflexivity.
Defined.
