(* ===== verification/Steps.v ===== *)
(** * Traversal steps of the translator (cypher/models/pgsql/translate/model.go, constraints.go)

    A step of a pattern joins an edge to the nodes at its two ends; its direction
    says which end is which.  Modelled: the join conditions of a step, flipping it to
    start from its more selective side, the constraints each part of it consumes,
    and the decisions for bidirectional search.  A bound identifier is its name,
    [None] for a nil pointer, and the edge has its data type too; the frame, behind a
    pointer in Go, is passed and returned where it is changed. *)

From S2P Require Import Prelude Framing Digraph Walk WalkTree Kinds Mapper DataTypes Scope SqlAst Selectivity Locality Constraints.
Local Open Scope Z_scope.

(** ** Steps and expansions *)

Record Expansion := mkExpansion {
  ex_FindShortestPath : bool;
  ex_FindAllShortestPaths : bool;
  ex_PrimerNodeConstraints : SyntaxNode;
  ex_TerminalNodeConstraints : SyntaxNode;
  ex_EdgeStartIdentifier : string;
  ex_EdgeStartColumn : list string;
  ex_EdgeEndIdentifier : string;
  ex_EdgeEndColumn : list string;
}.

Record TraversalStep := mkStep {
  ts_Frame : option Frame;
  ts_Direction : Direction;
  ts_Expansion : option Expansion;
  ts_PathReversed : bool;
  ts_LeftNode : option string;
  ts_LeftNodeBound : bool;
  ts_Edge : option (string * DataType);
  ts_RightNode : option string;
  ts_RightNodeBound : bool;
}.

Definition ErrUnsupportedExpansionDirection : error := Errorf "unsupported expansion direction".

Definition CompletePattern (s : Expansion) (traversalStep : TraversalStep) : outcome (Expansion * option error) :=
  let complete start_ end_ :=
    match ts_Edge traversalStep with
    | None => Panic
    | Some (edge, _) =>
        Done (mkExpansion (ex_FindShortestPath s) (ex_FindAllShortestPaths s) (ex_PrimerNodeConstraints s)
                (ex_TerminalNodeConstraints s) start_ [edge; start_] end_ [edge; end_], None)
    end in
  match ts_Direction traversalStep with
  | DirectionInbound => complete ColumnEndID ColumnStartID
  | DirectionOutbound => complete ColumnStartID ColumnEndID
  | DirectionBoth => Done (s, Some ErrUnsupportedExpansionDirection)
  end.

Definition FlipDirection (s : Expansion) : Expansion :=
  mkExpansion (ex_FindShortestPath s) (ex_FindAllShortestPaths s) (ex_PrimerNodeConstraints s) (ex_TerminalNodeConstraints s)
    (ex_EdgeStartIdentifier s) (ex_EdgeEndColumn s) (ex_EdgeEndIdentifier s) (ex_EdgeStartColumn s).

Definition Expansion_CanExecuteBidirectionalSearch (s : Expansion) : bool :=
  negb (is_nil (ex_PrimerNodeConstraints s)) && negb (is_nil (ex_TerminalNodeConstraints s)).

Definition hasPreviousFrameBinding (s : TraversalStep) : bool :=
  match ts_Frame s with Some frame => bool_decide (fr_Previous frame <> None) | None => false end.

Definition TraversalStep_CanExecuteBidirectionalSearch (s : TraversalStep) : bool :=
  match ts_Expansion s with
  | None => false
  | Some expansion =>
      Expansion_CanExecuteBidirectionalSearch expansion ||
      (ts_LeftNodeBound s && ts_RightNodeBound s && hasPreviousFrameBinding s)
  end.

Definition usesBoundEndpointPairs (s : TraversalStep) : bool :=
  ts_LeftNodeBound s && ts_RightNodeBound s && hasPreviousFrameBinding s.

Definition usesBoundTerminalIDs (s : TraversalStep) : bool := ts_RightNodeBound s && hasPreviousFrameBinding s.

Definition Direction_String (s : Direction) : string :=
  match s with DirectionInbound => "inbound" | DirectionOutbound => "outbound" | DirectionBoth => "both" end.

Definition unsupported_direction (direction : Direction) : error := Errorf ("unsupported direction: " +:+ Direction_String direction).

Definition StartNode (s : TraversalStep) : option string + error :=
  match ts_Direction s with
  | DirectionInbound => inl (ts_RightNode s)
  | DirectionOutbound => inl (ts_LeftNode s)
  | DirectionBoth => inr (unsupported_direction (ts_Direction s))
  end.

Definition EndNode (s : TraversalStep) : option string + error :=
  match ts_Direction s with
  | DirectionInbound => inl (ts_LeftNode s)
  | DirectionOutbound => inl (ts_RightNode s)
  | DirectionBoth => inr (unsupported_direction (ts_Direction s))
  end.

Definition TraversalStep_FlipNodes (s : TraversalStep) : TraversalStep :=
  mkStep (ts_Frame s)
    (match ts_Direction s with
     | DirectionOutbound => DirectionInbound
     | DirectionInbound => DirectionOutbound
     | DirectionBoth => DirectionBoth
     end)
    (FlipDirection <$> ts_Expansion s) (negb (ts_PathReversed s))
    (ts_RightNode s) (ts_RightNodeBound s) (ts_Edge s) (ts_LeftNode s) (ts_LeftNodeBound s).

(** ** Join conditions *)

Definition column (identifier field : string) : SyntaxNode := SCompoundIdentifier [identifier; field].

Definition column_equals (l r : SyntaxNode) : SyntaxNode := SBinaryExpression true OperatorEquals l r.

Definition either (a b : SyntaxNode) : SyntaxNode := NewParenthetical (NewBinaryExpression a OperatorOr b).

(** The direction is one of the three, so that the error for another is not reached. *)
Definition leftNodeConstraint (edge node : string) (direction : Direction) : SyntaxNode :=
  match direction with
  | DirectionOutbound => column_equals (column node ColumnID) (column edge ColumnStartID)
  | DirectionInbound => column_equals (column node ColumnID) (column edge ColumnEndID)
  | DirectionBoth =>
      either (column_equals (column node ColumnID) (column edge ColumnEndID))
             (column_equals (column node ColumnID) (column edge ColumnStartID))
  end.

Definition terminalNodeConstraint (edge node : string) (direction : Direction) : SyntaxNode :=
  match direction with
  | DirectionOutbound => column_equals (column node ColumnID) (column edge ColumnEndID)
  | DirectionInbound => column_equals (column node ColumnID) (column edge ColumnStartID)
  | DirectionBoth =>
      either (column_equals (column node ColumnID) (column edge ColumnEndID))
             (column_equals (column node ColumnID) (column edge ColumnStartID))
  end.

Definition leftNodeTraversalStepConstraint (s : TraversalStep) : outcome SyntaxNode :=
  match ts_Edge s, ts_LeftNode s with
  | Some (edge, _), Some node => Done (leftNodeConstraint edge node (ts_Direction s))
  | _, _ => Panic
  end.

Definition rightNodeTraversalStepJoinCondition (s : TraversalStep) : outcome SyntaxNode :=
  match ts_Edge s, ts_RightNode s with
  | Some (edge, _), Some node => Done (terminalNodeConstraint edge node (ts_Direction s))
  | _, _ => Panic
  end.

(** The left node is joined to the start column of an expansion. *)
Definition expansionEdgeJoinCondition (traversalStep : TraversalStep) : outcome SyntaxNode :=
  match ts_LeftNode traversalStep, ts_Expansion traversalStep with
  | Some node, Some expansion => Done (column_equals (column node ColumnID) (SCompoundIdentifier (ex_EdgeStartColumn expansion)))
  | _, _ => Panic
  end.

(** The last element of the path an expansion has found. *)
Definition last_edge (edge : string) : SyntaxNode :=
  SArrayIndex (SIdentifier edge) [SFunctionCall "array_length" [SIdentifier edge; SLiteral LOther TInt]].

Definition rightEdgeConstraint (s : TraversalStep) : outcome (SyntaxNode + error) :=
  match ts_Edge s with
  | None => Panic
  | Some (edge, EdgeComposite) =>
      match ts_LeftNode s with
      | None => Panic
      | Some node =>
          Done (inl (match ts_Direction s with
                     | DirectionOutbound => column_equals (column node ColumnID) (column edge ColumnStartID)
                     | DirectionInbound => column_equals (column node ColumnID) (column edge ColumnEndID)
                     | DirectionBoth =>
                         either (column_equals (column node ColumnID) (column edge ColumnStartID))
                                (column_equals (column node ColumnID) (column edge ColumnEndID))
                     end))
      end
  | Some (edge, ExpansionEdge) =>
      Done (match ts_Direction s with
            | DirectionOutbound =>
                inl (column_equals (SRowColumnReference (last_edge edge) ColumnEndID) (column edge ColumnStartID))
            | DirectionInbound => inl (column_equals (column edge ColumnStartID) (column edge ColumnEndID))
            | DirectionBoth => inr (Errorf "unsupported direction: 2")
            end)
  | Some (_, dataType) => Done (inr (Errorf ("invalid root edge type: " +:+ DataType_String dataType)))
  end.

(** ** Constraints on an endpoint *)

Definition isIdentifierIDReference (expression : SyntaxNode) (identifier : string) : bool :=
  match unwrapParenthetical expression with
  | SCompoundIdentifier [root; field] => bool_decide (root = identifier) && bool_decide (field = ColumnID)
  | _ => false
  end.

Definition is_reference (n : SyntaxNode) : bool :=
  match n with SIdentifier _ | SCompoundIdentifier _ | SRowColumnReference _ _ => true | _ => false end.

(** The errors of these walks are dropped. *)
Definition isStaticIDEqualityOperand (expression : SyntaxNode) : bool :=
  negb (is_nil expression) &&
  negb (PgSQL (NewSimpleVisitor (acting (finder is_reference))) (unwrapParenthetical expression) false).1.

Definition is_id_equality (identifier : string) (term : SyntaxNode) : bool :=
  match unwrapParenthetical term with
  | SBinaryExpression true OperatorEquals l r =>
      (isIdentifierIDReference l identifier && isStaticIDEqualityOperand r) ||
      (isIdentifierIDReference r identifier && isStaticIDEqualityOperand l)
  | _ => false
  end.

Definition hasIDEqualityConstraint (expression : SyntaxNode) (identifier : string) : bool :=
  existsb (is_id_equality identifier) (FlattenConjunction expression).

Definition reference_check (rec : SyntaxNode -> bool) (identifier : string) (n : SyntaxNode) (references : bool) : bool * action :=
  match n with
  | SCompoundIdentifier (root :: _) => if bool_decide (root = identifier) then (true, Finish) else (references, Proceed)
  | SIdentifier i => if bool_decide (i = identifier) then (true, Finish) else (references, Proceed)
  | SRowColumnReference e _ => if rec e then (true, Finish) else (references, ConsumeNode)
  | _ => (references, Proceed)
  end.

Fixpoint references_fuel (fuel : nat) (identifier : string) (expression : SyntaxNode) : bool :=
  match fuel with
  | O => false
  | S fuel' =>
      (PgSQL (NewSimpleVisitor (acting (reference_check (references_fuel fuel' identifier) identifier))) expression false).1
  end.

Definition referencesIdentifier (expression : SyntaxNode) (identifier : string) : bool :=
  references_fuel (weight expression) identifier expression.

Definition hasLocalEndpointConstraint (expression : SyntaxNode) (identifier : string) : bool :=
  negb (is_nil expression || negb (referencesIdentifier expression identifier)) &&
  is_nil (PartitionConstraintByLocality expression (AsIdentifierSet [identifier])).2.

Definition hasLocalIDEqualityConstraint (expression : SyntaxNode) (identifier : string) : bool :=
  hasIDEqualityConstraint expression identifier && hasLocalEndpointConstraint expression identifier.

Definition is_search_column (identifier : string) (n : SyntaxNode) : bool :=
  match n with
  | SCompoundIdentifier (root :: field :: _) => bool_decide (root = identifier) && bool_decide (field <> ColumnKindIDs)
  | _ => false
  end.

Definition referencesEndpointSearchColumn (expression : SyntaxNode) (identifier : string) : bool :=
  (PgSQL (NewSimpleVisitor (acting (finder (is_search_column identifier)))) expression false).1.

Definition hasPairAwareEndpointConstraint (expression : SyntaxNode) (identifier : string) : bool :=
  hasLocalEndpointConstraint expression identifier && referencesEndpointSearchColumn expression identifier.

Definition canMaterializeTerminalFilterForStep (traversalStep : TraversalStep) (expansionModel : Expansion) : bool :=
  match ts_RightNode traversalStep with
  | None => false
  | Some rightNode =>
      if is_nil (ex_TerminalNodeConstraints expansionModel) || usesBoundEndpointPairs traversalStep ||
         usesBoundTerminalIDs traversalStep
      then false
      else is_nil (PartitionConstraintByLocality (ex_TerminalNodeConstraints expansionModel) (AsIdentifierSet [rightNode])).2
  end.

Definition canMaterializeEndpointPairFilterForStep (traversalStep : TraversalStep) (expansionModel : Expansion) : bool :=
  match ts_LeftNode traversalStep, ts_RightNode traversalStep with
  | Some leftNode, Some rightNode =>
      negb (usesBoundEndpointPairs traversalStep) &&
      negb (is_nil (ex_PrimerNodeConstraints expansionModel)) &&
      negb (is_nil (ex_TerminalNodeConstraints expansionModel)) &&
      hasPairAwareEndpointConstraint (ex_PrimerNodeConstraints expansionModel) leftNode &&
      hasPairAwareEndpointConstraint (ex_TerminalNodeConstraints expansionModel) rightNode
  | _, _ => false
  end.

(** It returns no error. *)
Definition CanExecuteSelectiveBidirectionalSearch (s : TraversalStep) : bool :=
  match ts_Expansion s with
  | None => false
  | Some expansion =>
      if usesBoundEndpointPairs s then true
      else if negb (Expansion_CanExecuteBidirectionalSearch expansion) then false
      else
        match ts_LeftNode s, ts_RightNode s with
        | Some leftNode, Some rightNode =>
            hasLocalIDEqualityConstraint (ex_PrimerNodeConstraints expansion) leftNode &&
            hasLocalIDEqualityConstraint (ex_TerminalNodeConstraints expansion) rightNode
        | _, _ => false
        end
  end.

Section selective.
(** The data types of the scope's identifiers. *)
Variable LookupDataType : string -> option DataType.
Variable type_name : SyntaxNode -> string.

Definition endpointSelectivity (s : TraversalStep) (expression : SyntaxNode) (bound : bool) : measure_result :=
  EndpointSelectivity (Some LookupDataType) type_name expression bound (hasPreviousFrameBinding s).

Definition CanExecutePairAwareBidirectionalSearch (s : TraversalStep) : outcome (bool + error) :=
  if CanExecuteSelectiveBidirectionalSearch s then Done (inl true)
  else
    match ts_Expansion s, ts_LeftNode s, ts_RightNode s with
    | Some expansion, Some leftNode, Some rightNode =>
        if (negb (ex_FindShortestPath expansion) && negb (ex_FindAllShortestPaths expansion)) ||
           negb (Expansion_CanExecuteBidirectionalSearch expansion) ||
           negb (hasPairAwareEndpointConstraint (ex_PrimerNodeConstraints expansion) leftNode) ||
           negb (hasPairAwareEndpointConstraint (ex_TerminalNodeConstraints expansion) rightNode)
        then Done (inl false)
        else
          match endpointSelectivity s (ex_PrimerNodeConstraints expansion) (ts_LeftNodeBound s) with
          | MeasurePanic => Panic
          | MeasureError err => Done (inr err)
          | Measured primerSelectivity =>
              if negb (IsBidirectionalSearchAnchor primerSelectivity) then Done (inl false)
              else
                match endpointSelectivity s (ex_TerminalNodeConstraints expansion) (ts_RightNodeBound s) with
                | MeasurePanic => Panic
                | MeasureError err => Done (inr err)
                | Measured terminalSelectivity => Done (inl (IsBidirectionalSearchAnchor terminalSelectivity))
                end
          end
    | _, _, _ => Done (inl false)
    end.

(** ** Starting from the more selective side *)

Record PatternConstraints := mkPattern { pc_LeftNode : Constraint; pc_Edge : Constraint; pc_RightNode : Constraint }.

Definition PatternConstraints_FlipNodes (s : PatternConstraints) : PatternConstraints :=
  mkPattern (pc_RightNode s) (pc_Edge s) (pc_LeftNode s).

(** Whether it flipped, the step and the constraints after it. *)
Definition OptimizePatternConstraintBalance (s : PatternConstraints) (traversalStep : TraversalStep)
    : outcome ((bool * TraversalStep * PatternConstraints) + error) :=
  if ts_LeftNodeBound traversalStep then Done (inl (false, traversalStep, s))
  else if ts_RightNodeBound traversalStep && negb (hasPreviousFrameBinding traversalStep)
  then Done (inl (false, traversalStep, s))
  else
    match ShouldFlipTraversalDirection (Some LookupDataType) type_name (ts_LeftNodeBound traversalStep)
            (ts_RightNodeBound traversalStep) (co_Expression (pc_LeftNode s)) (co_Expression (pc_RightNode s)) with
    | Done (inl true) => Done (inl (true, TraversalStep_FlipNodes traversalStep, PatternConstraints_FlipNodes s))
    | Done (inl false) => Done (inl (false, traversalStep, s))
    | Done (inr err) => Done (inr err)
    | Panic => Panic
    | Spent => Spent
    end.
End selective.

(** ** The constraints of a step *)

Definition list_lookup_error (edge : string) : error :=
  Errorf ("variable-length relationship binding " +:+ edge +:+ " is a list and does not support direct property lookup").

Definition with_frame (s : TraversalStep) (frame : Frame) : TraversalStep :=
  mkStep (Some frame) (ts_Direction s) (ts_Expansion s) (ts_PathReversed s) (ts_LeftNode s) (ts_LeftNodeBound s) (ts_Edge s)
    (ts_RightNode s) (ts_RightNodeBound s).

(** The step's frame and the translator as they are left, and the constraints or
    an error; a step of a pattern has its frame, its edge and both nodes. *)
Definition consumePatternConstraints hints (isFirstTraversalStep isRecursivePattern : bool) (traversalStep : TraversalStep)
    (t : ExpressionTreeTranslator) : outcome (TraversalStep * ExpressionTreeTranslator * (PatternConstraints + error)) :=
  match ts_Frame traversalStep, ts_LeftNode traversalStep, ts_Edge traversalStep, ts_RightNode traversalStep with
  | Some frame, Some leftIdentifier, Some (edgeIdentifier, _), Some rightIdentifier =>
      let frame1 := if isFirstTraversalStep then Frame_Export frame leftIdentifier else frame in
      let known1 := Frame_Known frame1 in
      let '(t1, r1) := ConsumeConstraintsFromVisibleSet hints t known1 in
      match r1 with
      | inr err => Done (with_frame traversalStep frame1, t1, inr err)
      | inl leftNode =>
          let known2 := if isRecursivePattern then IdentifierSet_Remove known1 [leftIdentifier] else known1 in
          let frame2 := Frame_Export frame1 edgeIdentifier in
          let known3 := IdentifierSet_Add known2 [edgeIdentifier] in
          let '(t2, r2) := ConsumeConstraintsFromVisibleSet hints t1 known3 in
          match r2 with
          | inr err => Done (with_frame traversalStep frame2, t2, inr err)
          | inl edge =>
              if isRecursivePattern && negb (is_nil (co_Expression edge)) &&
                 expressionHasPropertyLookupRoot (co_Expression edge) edgeIdentifier
              then Done (with_frame traversalStep frame2, t2, inr (list_lookup_error edgeIdentifier))
              else
                let frame3 := Frame_Export frame2 rightIdentifier in
                let known4 := IdentifierSet_Add known3 [rightIdentifier] in
                let '(t3, r3) := ConsumeConstraintsFromVisibleSet hints t2 known4 in
                match r3 with
                | inr err => Done (with_frame traversalStep frame3, t3, inr err)
                | inl rightNode => Done (with_frame traversalStep frame3, t3, inl (mkPattern leftNode edge rightNode))
                end
          end
      end
  | _, _, _, _ => Panic
  end.

(** ** Which rows a step joins *)

(** The identity of a node and the two ends of an edge, by alias and column. *)
Notation row := (string -> string -> Z).

Definition operand_value (r : row) (e : SyntaxNode) : option Z :=
  match e with SCompoundIdentifier [identifier; field] => Some (r identifier field) | _ => None end.

Fixpoint matches (r : row) (e : SyntaxNode) : bool :=
  match e with
  | SParenthetical x => matches r x
  | SBinaryExpression _ OperatorAnd a b => matches r a && matches r b
  | SBinaryExpression _ OperatorOr a b => matches r a || matches r b
  | SBinaryExpression _ OperatorEquals a b =>
      match operand_value r a, operand_value r b with
      | Some x, Some y => bool_decide (x = y)
      | _, _ => false
      end
  | _ => false
  end.

(** The end column of an expansion is the next node that it reaches. *)
Definition expansion_end_condition (s : TraversalStep) : outcome SyntaxNode :=
  match ts_RightNode s, ts_Expansion s with
  | Some node, Some expansion => Done (column_equals (column node ColumnID) (SCompoundIdentifier (ex_EdgeEndColumn expansion)))
  | _, _ => Panic
  end.

(** The rows on which both join conditions of a step hold.  The first edge of an
    expansion is joined by the columns of the expansion: its start to the left node,
    and its end, which is the next node, to the right one. *)
Definition joins (s : TraversalStep) (r : row) : outcome bool :=
  let conditions :=
    match ts_Expansion s with
    | None => (leftNodeTraversalStepConstraint s, rightNodeTraversalStepJoinCondition s)
    | Some _ => (expansionEdgeJoinCondition s, expansion_end_condition s)
    end in
  match conditions with
  | (Done l, Done rc) => Done (matches r l && matches r rc)
  | _ => Panic
  end.

(** An edge from [start] to [end_] leads from [left] to [right] in the direction. *)
Definition leads (direction : Direction) (start end_ left right : Z) : Prop :=
  match direction with
  | DirectionOutbound => start = left /\ end_ = right
  | DirectionInbound => start = right /\ end_ = left
  | DirectionBoth => (start = left /\ end_ = right) \/ (start = right /\ end_ = left)
  end.

(** The columns of an expansion are those of the edge, in the step's direction. *)
Definition columns_right (s : TraversalStep) : Prop :=
  forall x edge t, ts_Expansion s = Some x -> ts_Edge s = Some (edge, t) ->
  match ts_Direction s with
  | DirectionOutbound => ex_EdgeStartColumn x = [edge; ColumnStartID] /\ ex_EdgeEndColumn x = [edge; ColumnEndID]
  | DirectionInbound => ex_EdgeStartColumn x = [edge; ColumnEndID] /\ ex_EdgeEndColumn x = [edge; ColumnStartID]
  | DirectionBoth => False
  end.

Lemma CompletePattern_columns x s x' : CompletePattern x s = Done (x', None) ->
  columns_right (mkStep (ts_Frame s) (ts_Direction s) (Some x') (ts_PathReversed s) (ts_LeftNode s) (ts_LeftNodeBound s) (ts_Edge s)
    (ts_RightNode s) (ts_RightNodeBound s)).
Proof.
  unfold CompletePattern. intros H y edge t [= <-] He. cbn in *. destruct (ts_Direction s); try done;
    rewrite He in H; by injection H as <-.
Qed.

Lemma FlipNodes_columns s : columns_right s -> columns_right (TraversalStep_FlipNodes s).
Proof.
  intros Hc x edge t Hx He. cbn in Hx, He |- *. destruct (ts_Expansion s) as [y|] eqn:Ey; [|done]. injection Hx as <-.
  specialize (Hc y edge t Ey He). destruct (ts_Direction s); cbn; [tauto..|done].
Qed.

Lemma joins_eq s r edge t l n : ts_Edge s = Some (edge, t) -> ts_LeftNode s = Some l -> ts_RightNode s = Some n -> columns_right s ->
  joins s r = Done (matches r (leftNodeConstraint edge l (ts_Direction s)) && matches r (terminalNodeConstraint edge n (ts_Direction s))).
Proof.
  intros He Hl Hn Hc. unfold joins, leftNodeTraversalStepConstraint, rightNodeTraversalStepJoinCondition, expansionEdgeJoinCondition, expansion_end_condition.
  rewrite He, Hl, Hn. destruct (ts_Expansion s) as [x|] eqn:Ex; [|done]. specialize (Hc x edge t Ex He).
  destruct (ts_Direction s); [destruct Hc as [-> ->]; done..|done].
Qed.

(** Both conditions of an undirected step hold of the edge's own ends. *)
Lemma joins_leads s r edge t l n : ts_Edge s = Some (edge, t) -> ts_LeftNode s = Some l -> ts_RightNode s = Some n -> columns_right s ->
  (ts_Direction s = DirectionBoth -> r l ColumnID <> r n ColumnID) ->
  joins s r = Done true <->
  leads (ts_Direction s) (r edge ColumnStartID) (r edge ColumnEndID) (r l ColumnID) (r n ColumnID).
Proof.
  intros He Hl Hn Hc Hne. rewrite (joins_eq _ _ _ _ _ _ He Hl Hn Hc). unfold leads.
  destruct (ts_Direction s); cbn; [| |specialize (Hne eq_refl)]; repeat case_bool_decide; cbn; split; intros;
    first [discriminate|done|lia|exfalso; lia].
Qed.

(** Flipping a step turns its two conditions into each other. *)
Lemma FlipNodes_joins s r : joins (TraversalStep_FlipNodes s) r = joins s r.
Proof.
  unfold joins, leftNodeTraversalStepConstraint, rightNodeTraversalStepJoinCondition, expansionEdgeJoinCondition, expansion_end_condition. cbn.
  destruct (ts_Expansion s) as [x|], (ts_Edge s) as [[edge t]|], (ts_LeftNode s), (ts_RightNode s); cbn; try done; f_equal;
    rewrite andb_comm; try done; by destruct (ts_Direction s).
Qed.

Lemma FlipNodes_involutive s : TraversalStep_FlipNodes (TraversalStep_FlipNodes s) = s.
Proof.
  destruct s as [frame d e rev l lb edge n nb]. unfold TraversalStep_FlipNodes. cbn. rewrite negb_involutive.
  f_equal; [by destruct d|]. destruct e as [[]|]; done.
Qed.

(** The join conditions of a step, by the columns of its expansion where it has one, hold
    of exactly the edges that lead from its left to its right node in its direction;
    for an undirected step this is so for two different nodes. *)
Theorem step_joins_leads s r edge t l n :
  ts_Edge s = Some (edge, t) -> ts_LeftNode s = Some l -> ts_RightNode s = Some n -> columns_right s ->
  (ts_Direction s = DirectionBoth -> r l ColumnID <> r n ColumnID) ->
  joins s r = Done true <->
  leads (ts_Direction s) (r edge ColumnStartID) (r edge ColumnEndID) (r l ColumnID) (r n ColumnID).
Proof. apply joins_leads. Qed.

(** [C35] Starting a step from its more selective side, when it returns without an error.
    The balanced step has the same rows in its joins: a fixed step by the conditions
    on its two nodes, a step of variable length by the start and end columns of its
    expansion, which are swapped with the nodes, and which are those of the edge in the
    new direction when they were those in the old one.  Nothing is said of the
    identifiers of these columns, which are not swapped ([FlipDirection_disagrees]).
    The constraints stay with their nodes; a step is flipped only when its left node
    is not bound, its path is then reversed, and it is left alone when it is balanced
    again. *)
Theorem OptimizePatternConstraintBalance_safe LookupDataType type_name s step flipped step' s' :
  OptimizePatternConstraintBalance LookupDataType type_name s step = Done (inl (flipped, step', s')) ->
  (forall r, joins step' r = joins step r) /\ (columns_right step -> columns_right step') /\
  (if flipped
   then ts_LeftNodeBound step = false /\ ts_PathReversed step' = negb (ts_PathReversed step) /\
        ts_LeftNode step' = ts_RightNode step /\ pc_LeftNode s' = pc_RightNode s /\
        ts_RightNode step' = ts_LeftNode step /\ pc_RightNode s' = pc_LeftNode s /\ pc_Edge s' = pc_Edge s
   else step' = step /\ s' = s) /\
  OptimizePatternConstraintBalance LookupDataType type_name s' step' = Done (inl (false, step', s')).
Proof.
  intros Ho. pose proof Ho as Ho'. unfold OptimizePatternConstraintBalance in Ho. destruct (ts_LeftNodeBound step) eqn:Hl; [by simplify_eq|].
  destruct (ts_RightNodeBound step && negb (hasPreviousFrameBinding step)) eqn:Hb; [by simplify_eq|].
  destruct (ShouldFlipTraversalDirection _ _ _ _ _ _) as [[[]|]| |] eqn:Hs; simplify_eq; [|done].
  split; [intros r; apply FlipNodes_joins|]. split; [apply FlipNodes_columns|]. split; [done|].
  unfold OptimizePatternConstraintBalance. cbn -[ShouldFlipTraversalDirection].
  destruct (ts_RightNodeBound step) eqn:Hr; [done|]. rewrite Hl. cbn -[ShouldFlipTraversalDirection]. apply ShouldFlip_once in Hs. by rewrite Hs.
Qed.

(** ** The constraints each part of a step consumes *)

Definition translator_walkable (t : ExpressionTreeTranslator) : Prop :=
  all_walkable (et_UserConstraints t) /\ all_walkable (et_TranslationConstraints t).

Definition waiting (visible : IdentifierSet) (s : list Constraint) : list Constraint := filter (fun c => ready visible c = false) s.

Lemma ConsumeSet_kept hints s visible : all_walkable s ->
  (ConstraintTracker_ConsumeSet hints s visible).1 = waiting visible s /\
  forall c, (ConstraintTracker_ConsumeSet hints s visible).2 = inl c -> co_Dependencies c ⊆ visible.
Proof.
  intros Hw. unfold ConstraintTracker_ConsumeSet. rewrite consume_loop_exact by done. split; [done|]. cbn [snd].
  intros c. unfold conjoin_constraints. rewrite merge_dependencies. case_match; [|done]. intros [= <-]. cbn.
  pose proof (dependencies_ready visible s). set_solver.
Qed.

Lemma waiting_walkable visible s : all_walkable s -> all_walkable (waiting visible s).
Proof. intros Hw c [_ Hc]%list_elem_of_filter. by apply Hw. Qed.

Lemma Consume_scoped hints t visible t' c : translator_walkable t ->
  ConsumeConstraintsFromVisibleSet hints t visible = (t', inl c) ->
  et_UserConstraints t' = waiting visible (et_UserConstraints t) /\
  et_TranslationConstraints t' = waiting visible (et_TranslationConstraints t) /\
  co_Dependencies c ⊆ visible /\ translator_walkable t'.
Proof.
  intros [Hu Ht]. unfold ConsumeConstraintsFromVisibleSet.
  destruct (ConsumeSet_kept hints (et_UserConstraints t) visible Hu) as [Hu1 Hu2].
  destruct (ConsumeSet_kept hints (et_TranslationConstraints t) visible Ht) as [Ht1 Ht2].
  destruct (ConstraintTracker_ConsumeSet hints (et_UserConstraints t) visible) as [user [u|]]; [|done].
  destruct (ConstraintTracker_ConsumeSet hints (et_TranslationConstraints t) visible) as [translation [c'|]]; [|done].
  cbn in *. intros [= <- <-]. subst user translation. cbn. split_and!; [done..| |by split; apply waiting_walkable].
  specialize (Hu2 u eq_refl). specialize (Ht2 c' eq_refl). unfold mergeUserAndTranslationConstraints, IdentifierSet_MergeSet.
  case_match; cbn; set_solver.
Qed.

Lemma Frame_Known_Export frame i : Frame_Known (Frame_Export frame i) = Frame_Known frame ∪ {[i]}.
Proof.
  unfold Frame_Known, Frame_Export, IdentifierSet_MergeSet. cbn [with_sets fr_Visible fr_Exported]. rewrite IdentifierSet_Add_spec. set_solver.
Qed.

(** The identifiers known to the three parts of a step. *)
Definition known_left (first : bool) (frame : Frame) (l : string) : IdentifierSet :=
  Frame_Known (if first then Frame_Export frame l else frame).
Definition known_edge (first recursive : bool) (frame : Frame) (l e : string) : IdentifierSet :=
  (if recursive then known_left first frame l ∖ {[l]} else known_left first frame l) ∪ {[e]}.
Definition known_right (first recursive : bool) (frame : Frame) (l e r : string) : IdentifierSet :=
  known_edge first recursive frame l e ∪ {[r]}.

(** The constraints of a tracker that no part of the step consumes. *)
Definition left_over (first recursive : bool) (frame : Frame) (l e r : string) (s : list Constraint) : list Constraint :=
  waiting (known_right first recursive frame l e r)
    (waiting (known_edge first recursive frame l e) (waiting (known_left first frame l) s)).

(** Each part of a step consumes the constraints its identifiers satisfy, in
    order: the left node those of the known identifiers, then the edge, then the
    right node; what none of them satisfies waits, in order, for a later step.  Each
    depends only on what its part knows; in a recursive expansion neither the edge's
    nor the right node's constraints depend on the root, which the recursion no longer
    sees. *)
Theorem consumePatternConstraints_scoped hints first recursive step t step' t' cs frame l e dt r :
  ts_Frame step = Some frame -> ts_LeftNode step = Some l -> ts_Edge step = Some (e, dt) -> ts_RightNode step = Some r ->
  translator_walkable t ->
  consumePatternConstraints hints first recursive step t = Done (step', t', inl cs) ->
  et_UserConstraints t' = left_over first recursive frame l e r (et_UserConstraints t) /\
  et_TranslationConstraints t' = left_over first recursive frame l e r (et_TranslationConstraints t) /\
  co_Dependencies (pc_LeftNode cs) ⊆ known_left first frame l /\
  co_Dependencies (pc_Edge cs) ⊆ known_edge first recursive frame l e /\
  co_Dependencies (pc_RightNode cs) ⊆ known_right first recursive frame l e r /\
  (recursive = true -> l <> e -> l <> r -> l ∉ co_Dependencies (pc_Edge cs) ∪ co_Dependencies (pc_RightNode cs)) /\
  Frame_Known <$> ts_Frame step' = Some (known_left first frame l ∪ {[e]} ∪ {[r]}).
Proof.
  intros Hf Hl He Hr Hw. unfold consumePatternConstraints. rewrite Hf, Hl, He, Hr.
  set (frame1 := if first then Frame_Export frame l else frame).
  assert (Hk1 : Frame_Known frame1 = known_left first frame l) by done.
  destruct (ConsumeConstraintsFromVisibleSet hints t (Frame_Known frame1)) as [t1 [c1|]] eqn:H1; [|done].
  apply Consume_scoped in H1 as (Hu1 & Ht1 & Hd1 & Hw1); [|done].
  assert (Hk2 : IdentifierSet_Add (if recursive then IdentifierSet_Remove (Frame_Known frame1) [l] else Frame_Known frame1) [e] =
    known_edge first recursive frame l e).
  { rewrite IdentifierSet_Add_spec. unfold known_edge. destruct recursive; rewrite ?IdentifierSet_Remove_spec, Hk1; set_solver. }
  rewrite Hk2. destruct (ConsumeConstraintsFromVisibleSet hints t1 _) as [t2 [c2|]] eqn:H2; [|done].
  apply Consume_scoped in H2 as (Hu2 & Ht2 & Hd2 & Hw2); [|done]. destruct (recursive && _ && _); [done|].
  assert (Hk3 : IdentifierSet_Add (known_edge first recursive frame l e) [r] = known_right first recursive frame l e r).
  { rewrite IdentifierSet_Add_spec. unfold known_right. set_solver. }
  rewrite Hk3. destruct (ConsumeConstraintsFromVisibleSet hints t2 _) as [t3 [c3|]] eqn:H3; [|done].
  apply Consume_scoped in H3 as (Hu3 & Ht3 & Hd3 & _); [|done]. intros [= <- <- <-]. cbn [pc_LeftNode pc_Edge pc_RightNode].
  rewrite Hk1 in *. unfold left_over. split_and!; try congruence; try done.
  - intros -> Hle Hlr. unfold known_right, known_edge in *. set_solver.
  - cbn [fmap option_fmap option_map ts_Frame with_frame]. by rewrite !Frame_Known_Export, Hk1.
Qed.

(** ** Columns of an expansion *)

(** CompletePattern names the columns of the edge by its identifiers. *)
Definition columns_agree (edge : string) (x : Expansion) : Prop :=
  ex_EdgeStartColumn x = [edge; ex_EdgeStartIdentifier x] /\ ex_EdgeEndColumn x = [edge; ex_EdgeEndIdentifier x].

Lemma CompletePattern_agrees x step x' edge dt : ts_Edge step = Some (edge, dt) ->
  CompletePattern x step = Done (x', None) -> columns_agree edge x'.
Proof. intros He. unfold CompletePattern. rewrite He. destruct (ts_Direction step); try done; by intros [= <-]. Qed.

(** Flipping swaps the columns and not the identifiers: they never agree again. *)
Lemma FlipDirection_disagrees x step x' edge dt : ts_Edge step = Some (edge, dt) ->
  CompletePattern x step = Done (x', None) -> ~ columns_agree edge (FlipDirection x').
Proof. intros He. unfold CompletePattern. rewrite He. destruct (ts_Direction step); try done; by intros [= <-] [? _]. Qed.

(** *** An example: (n0)-[e0]->(n1 {name: 'a'}) *)

Definition demo_frame : Frame := mkFrame 0 None None ∅ ∅ ∅ ∅ false.

Definition demo_step : TraversalStep :=
  mkStep (Some demo_frame) DirectionOutbound None false (Some "n0") false (Some ("e0", EdgeComposite)) (Some "n1") false.

Definition demo_row : row := fun identifier field =>
  if bool_decide (identifier = "n0") then 1
  else if bool_decide (identifier = "n1") then 2
  else if bool_decide (field = ColumnStartID) then 1 else 2.

(** The same step as an expansion, with its columns. *)
Definition demo_expansion : TraversalStep :=
  mkStep (Some demo_frame) DirectionOutbound
    (Some (mkExpansion false false SNil SNil ColumnStartID ["e0"; ColumnStartID] ColumnEndID ["e0"; ColumnEndID])) false
    (Some "n0") false (Some ("e0", EdgeComposite)) (Some "n1") false.

Lemma demo_columns : columns_right demo_expansion.
Proof. intros x edge t [= <-] [= <- <-]. done. Qed.

Lemma step_joins_leads_witness :
  (joins demo_expansion demo_row = Done true <-> leads DirectionOutbound 1 2 1 2) /\ joins demo_expansion demo_row = Done true.
Proof.
  pose proof (step_joins_leads demo_expansion demo_row "e0" EdgeComposite "n0" "n1" eq_refl eq_refl eq_refl demo_columns ltac:(done)) as H.
  split; [exact H|]. apply H. cbn. done.
Defined.

Definition by_name : Constraint :=
  mkConstraint {["n1"]} (NewBinaryExpression (demo_lookup "n1" "name") OperatorEquals (SLiteral (LText "a") TText)).
Definition unconstrained : Constraint := mkConstraint ∅ SNil.

Definition demo_types (identifier : string) : option DataType := if bool_decide (identifier = "e0") then Some EdgeComposite else Some NodeComposite.

Lemma OptimizePatternConstraintBalance_safe_witness :
  OptimizePatternConstraintBalance demo_types (fun _ => "") (mkPattern unconstrained unconstrained by_name) demo_expansion =
    Done (inl (true, TraversalStep_FlipNodes demo_expansion, mkPattern by_name unconstrained unconstrained)) /\
  joins (TraversalStep_FlipNodes demo_expansion) demo_row = joins demo_expansion demo_row /\
  columns_right (TraversalStep_FlipNodes demo_expansion).
Proof.
  assert (H : OptimizePatternConstraintBalance demo_types (fun _ => "") (mkPattern unconstrained unconstrained by_name) demo_expansion =
    Done (inl (true, TraversalStep_FlipNodes demo_expansion, mkPattern by_name unconstrained unconstrained))) by (vm_compute; reflexivity).
  destruct (OptimizePatternConstraintBalance_safe demo_types (fun _ => "") _ demo_expansion true _ _ H) as (Hj & Hc & _).
  split; [exact H|]. split; [exact (Hj demo_row)|exact (Hc demo_columns)].
Defined.

Definition root_and_terminal : Constraint := mkConstraint {["n0"; "n1"]} (column_equals (column "n0" "id") (column "n1" "id")).

Definition demo_translator : ExpressionTreeTranslator := mkTranslator [root_and_terminal; by_name] [].

Lemma consumePatternConstraints_scoped_witness :
  exists step' cs, consumePatternConstraints no_hints true true demo_step demo_translator =
    Done (step', mkTranslator [root_and_terminal] [], inl cs) /\
  "n0" ∉ co_Dependencies (pc_Edge cs) ∪ co_Dependencies (pc_RightNode cs).
Proof.
  destruct (consumePatternConstraints no_hints true true demo_step demo_translator) as [[[step' t'] [cs|]]| |] eqn:H;
    [|vm_compute in H; discriminate..].
  assert (Hw : translator_walkable demo_translator) by (split; apply all_walkable_check; vm_compute; reflexivity).
  pose proof (consumePatternConstraints_scoped no_hints true true demo_step demo_translator step' t' cs demo_frame "n0" "e0" EdgeComposite "n1"
    eq_refl eq_refl eq_refl eq_refl Hw H) as (Hu & Ht & _ & _ & _ & Hroot & _).
  assert (Ht' : t' = mkTranslator [root_and_terminal] []).
  { destruct t' as [u tr]. cbn [et_UserConstraints et_TranslationConstraints] in Hu, Ht. rewrite Hu, Ht. vm_compute. reflexivity. }
  exists step', cs. split; [by rewrite <- Ht'|]. apply Hroot; done.
Defined.
