(* ===== verification/CountStore.v ===== *)
(** * Counts from the tables (cypher/models/pgsql/translate/count_fast_path.go)

    A query that only counts the nodes or the relationships of some kinds is
    answered by a select that counts rows.  The translator looks for the shape of
    such a query on its own; it is the shape the planner decides on, and the rows
    that the select counts are the matches of the query's pattern.

    The meaning of the select is that of PostgreSQL for the fragment it uses: a
    join pairs the rows with those of the joined table that satisfy its constraint,
    the condition keeps rows, and [count] of everything counts them. *)

From S2P Require Import Prelude Framing Walk WalkTree Kinds Digraph CypherAst Analysis SourceReferences PatternSteps Reversal LoweringPlan CountShapes Optimizer PlanTargets Plans.
From S2P Require Import Mapper DataTypes Scope SqlAst.

(** ** The shape of the query *)

Record countStoreFastPathShape := mkCountStoreShape {
  sh_Target : CountStoreFastPathTarget;
  sh_Alias : string;
  sh_Kinds : list Kind;
}.

Definition countStoreVariableSymbol (variable : option string) : string := default "" variable.

(** The argument of the count and the alias of its projection. *)
Definition simpleCountProjection (returnClause : option Return) : option (string * string) :=
  match returnClause ≫= return_Projection with
  | None => None
  | Some p =>
      if pj_Distinct p || pj_All p || bool_decide (is_Some (pj_Order p)) || bool_decide (is_Some (pj_Skip p)) ||
         bool_decide (is_Some (pj_Limit p))
      then None
      else
        match pj_Items p with
        | [Some (EProjectionItem (Some (EFunctionInvocation false [] name [argument])) alias)] =>
            if negb (EqualFold name CountFunction) then None
            else
              match argument with
              | Some (EVariable symbol) => Some (symbol, countStoreVariableSymbol alias)
              | Some (ERangeQuantifier value) =>
                  if bool_decide (value = TokenLiteralAsterisk) then Some (TokenLiteralAsterisk, countStoreVariableSymbol alias) else None
              | _ => None
              end
        | _ => None
        end
  end.

Definition constrainedCountStoreEndpoint (nodePattern : NodePattern Expression) : bool :=
  bool_decide (is_Some (np_Variable nodePattern)) || (0 <? length (np_Kinds nodePattern)) ||
  bool_decide (is_Some (np_Properties nodePattern)).

Definition shape_elements (countArgument alias : string) (elements : list (option (PatternElement Expression)))
    : option countStoreFastPathShape :=
  match elements with
  | [Some (NodeElement n)] =>
      if bool_decide (is_Some (np_Properties n)) then None
      else
        let bindingSymbol := countStoreVariableSymbol (np_Variable n) in
        if negb (bool_decide (countArgument = TokenLiteralAsterisk)) && negb (bool_decide (countArgument = bindingSymbol)) then None
        else Some (mkCountStoreShape CountStoreFastPathNode alias (np_Kinds n))
  | [Some (NodeElement l); Some (RelationshipElement r); Some (NodeElement r')] =>
      if constrainedCountStoreEndpoint l || constrainedCountStoreEndpoint r' || bool_decide (is_Some (rp_Range r)) ||
         bool_decide (is_Some (rp_Properties r)) || bool_decide (rp_Direction r = DirectionBoth)
      then None
      else
        let bindingSymbol := countStoreVariableSymbol (rp_Variable r) in
        if negb (bool_decide (countArgument = TokenLiteralAsterisk)) && negb (bool_decide (countArgument = bindingSymbol)) then None
        else Some (mkCountStoreShape CountStoreFastPathEdge alias (rp_Kinds r))
  | _ => None
  end.

Definition countStoreFastPathShapeForQuery (query : RegularQuery) : option countStoreFastPathShape :=
  match mjoin query ≫= sq_SinglePartQuery with
  | Some (mkSinglePartQuery [readingClause] [] return_) =>
      match simpleCountProjection return_, readingClause ≫= clause_Match with
      | Some (countArgument, alias), Some (mkMatch false [Some p] None) =>
          if bool_decide (is_Some (pp_Variable p)) || pp_ShortestPathPattern p || pp_AllShortestPathsPattern p then None
          else shape_elements countArgument alias (pp_PatternElements p)
      | _, _ => None
      end
  | _ => None
  end.

(** ** The select *)

Definition countStoreNodeAlias : string := "n0".
Definition countStoreEdgeAlias : string := "e0".
Definition countStoreStartEndpointAlias : string := "n0".
Definition countStoreEndEndpointAlias : string := "n1".

Definition TableNode : string := "node".
Definition TableEdge : string := "edge".
Definition FunctionCount : string := "count".
Definition Wildcard : SyntaxNode := SOther "pgsql.Wildcard".

Section translation.
(** [KindMapper.MapKinds]. *)
Variable MapKinds : list Kind -> list Z + error.

(** A slice of identifiers is a literal of type int2[]. *)
Definition kind_literal (kindIDs : list Z) : SyntaxNode := NewLiteral (LInt2Array kindIDs) Int2Array.

Definition countStoreNodeKindConstraint (kinds : list Kind) : SyntaxNode + error :=
  if none kinds then inl SNil
  else
    match MapKinds kinds with
    | inr err => inr err
    | inl kindIDs =>
        inl (NewBinaryExpression (SCompoundIdentifier [countStoreNodeAlias; ColumnKindIDs]) OperatorPGArrayLHSContainsRHS
               (kind_literal kindIDs))
    end.

Definition countStoreEdgeKindConstraint (kinds : list Kind) : SyntaxNode + error :=
  if none kinds then inl SNil
  else
    match MapKinds kinds with
    | inr err => inr err
    | inl kindIDs =>
        inl (NewBinaryExpression (SCompoundIdentifier [countStoreEdgeAlias; ColumnKindID]) DataTypes.OperatorEquals
               (SAnyExpression true (kind_literal kindIDs)))
    end.

Definition countStoreEndpointJoin (nodeAlias edgeEndpoint : string) : SyntaxNode :=
  SJoin (STableReference [TableNode] (Some nodeAlias))
    (SJoinOperator (NewBinaryExpression (SCompoundIdentifier [nodeAlias; ColumnID]) DataTypes.OperatorEquals
       (SCompoundIdentifier [countStoreEdgeAlias; edgeEndpoint]))).

Definition countStoreFastPathFromAndWhere (shape : countStoreFastPathShape) : (SyntaxNode * SyntaxNode) + error :=
  match sh_Target shape with
  | CountStoreFastPathNode =>
      match countStoreNodeKindConstraint (sh_Kinds shape) with
      | inr err => inr err
      | inl condition => inl (SFromClause (STableReference [TableNode] (Some countStoreNodeAlias)) [], condition)
      end
  | CountStoreFastPathEdge =>
      match countStoreEdgeKindConstraint (sh_Kinds shape) with
      | inr err => inr err
      | inl condition =>
          inl (SFromClause (STableReference [TableEdge] (Some countStoreEdgeAlias))
                 [countStoreEndpointJoin countStoreStartEndpointAlias ColumnStartID;
                  countStoreEndpointJoin countStoreEndEndpointAlias ColumnEndID], condition)
      end
  end.

(** The statement, or none when the query is not translated this way. *)
Definition translateCountStoreFastPath (query : RegularQuery) (plan : LoweringPlan) : option SyntaxNode + error :=
  match CountStoreFastPath plan, countStoreFastPathShapeForQuery query with
  | decision :: _, Some shape =>
      if negb (bool_decide (sh_Target shape = cs_Target decision)) then inl None
      else
        let countExpression := SFunctionCall FunctionCount [Wildcard] in
        let countProjection :=
          if bool_decide (sh_Alias shape = "") then countExpression else SAliasedExpression countExpression (Some (sh_Alias shape)) in
        match countStoreFastPathFromAndWhere shape with
        | inr err => inr err
        | inl (fromClause, whereClause) =>
            inl (Some (SQuery SNil (SSelect [countProjection] [fromClause] whereClause [] SNil) [] SNil SNil))
        end
  | _, _ => inl None
  end.
End translation.

(** ** What the select counts *)

Record node_row := mkNodeRow {
  nr_id : Z;
  nr_kind_ids : list Z;
}.

Record edge_row := mkEdgeRow {
  er_id : Z;
  er_start_id : Z;
  er_end_id : Z;
  er_kind_id : Z;
}.

#[export] Instance edge_row_eq_dec : EqDecision edge_row.
Proof. solve_decision. Defined.

Record tables := mkTables {
  nodes_of : list node_row;
  edges_of : list edge_row;
}.

Inductive value := VInt (z : Z) | VInts (zs : list Z).

(** The columns of a row, and the rows that the aliases of a select stand for. *)
Definition row : Type := string -> option value.
Definition rows : Type := list (string * row).

Definition node_columns (r : node_row) : row := fun column =>
  if bool_decide (column = ColumnID) then Some (VInt (nr_id r))
  else if bool_decide (column = ColumnKindIDs) then Some (VInts (nr_kind_ids r)) else None.

Definition edge_columns (r : edge_row) : row := fun column =>
  if bool_decide (column = ColumnID) then Some (VInt (er_id r))
  else if bool_decide (column = ColumnStartID) then Some (VInt (er_start_id r))
  else if bool_decide (column = ColumnEndID) then Some (VInt (er_end_id r))
  else if bool_decide (column = ColumnKindID) then Some (VInt (er_kind_id r)) else None.

Definition table_rows (db : tables) (name : list string) : option (list row) :=
  match name with
  | [table] =>
      if bool_decide (table = TableNode) then Some (node_columns <$> nodes_of db)
      else if bool_decide (table = TableEdge) then Some (edge_columns <$> edges_of db) else None
  | _ => None
  end.

Fixpoint row_of (rs : rows) (alias : string) : option row :=
  match rs with
  | [] => None
  | (a, r) :: rs' => if bool_decide (a = alias) then Some r else row_of rs' alias
  end.

Definition eval_value (rs : rows) (e : SyntaxNode) : option value :=
  match e with
  | SCompoundIdentifier [alias; column] => row_of rs alias ≫= (fun r => r column)
  | SLiteral (LInt2Array values) _ => Some (VInts values)
  | _ => None
  end.

Definition eval_condition (rs : rows) (e : SyntaxNode) : option bool :=
  match e with
  | SNil => Some true
  | SBinaryExpression _ DataTypes.OperatorEquals l (SAnyExpression _ r) =>
      match eval_value rs l, eval_value rs r with
      | Some (VInt z), Some (VInts zs) => Some (bool_decide (z ∈ zs))
      | _, _ => None
      end
  | SBinaryExpression _ DataTypes.OperatorEquals l r =>
      match eval_value rs l, eval_value rs r with
      | Some (VInt a), Some (VInt b) => Some (bool_decide (a = b))
      | _, _ => None
      end
  | SBinaryExpression _ OperatorPGArrayLHSContainsRHS l r =>
      match eval_value rs l, eval_value rs r with
      | Some (VInts xs), Some (VInts ys) => Some (forallb (fun y => bool_decide (y ∈ xs)) ys)
      | _, _ => None
      end
  | _ => None
  end.

Fixpoint keep (test : rows -> option bool) (l : list rows) : option (list rows) :=
  match l with
  | [] => Some []
  | rs :: l' => b ← test rs; l'' ← keep test l'; Some (if b : bool then rs :: l'' else l'')
  end.

Fixpoint join_rows (l : list rows) (alias : string) (rs : list row) (constraint : SyntaxNode) : option (list rows) :=
  match l with
  | [] => Some []
  | x :: l' =>
      joined ← keep (fun y => eval_condition y constraint) ((fun r => (alias, r) :: x) <$> rs);
      joined' ← join_rows l' alias rs constraint; Some (joined ++ joined')
  end.

Fixpoint all_joins (db : tables) (joins : list SyntaxNode) (l : list rows) : option (list rows) :=
  match joins with
  | [] => Some l
  | SJoin (STableReference name (Some alias)) (SJoinOperator constraint) :: joins' =>
      rs ← table_rows db name; l' ← join_rows l alias rs constraint; all_joins db joins' l'
  | _ => None
  end.

Definition is_count (projection : SyntaxNode) : bool :=
  match projection with
  | SFunctionCall f [SOther w] | SAliasedExpression (SFunctionCall f [SOther w]) _ =>
      bool_decide (f = FunctionCount) && bool_decide (w = "pgsql.Wildcard")
  | _ => false
  end.

(** The number that a select of this kind returns. *)
Definition select_count (db : tables) (statement : SyntaxNode) : option nat :=
  match statement with
  | SQuery SNil (SSelect [projection] [SFromClause (STableReference name (Some alias)) joins] condition [] SNil) [] SNil SNil =>
      if is_count projection then
        rs ← table_rows db name;
        l ← all_joins db joins ((fun r => [(alias, r)]) <$> rs);
        kept ← keep (fun y => eval_condition y condition) l; Some (length kept)
      else None
  | _ => None
  end.

Lemma fmap_sublist {A B} (f : A -> B) l l' : l `sublist_of` l' -> f <$> l `sublist_of` f <$> l'.
Proof. induction 1; cbn; by constructor. Qed.

Lemma forallb_fmap {A B} (f : A -> B) (test : B -> bool) l : forallb test (f <$> l) = forallb (fun a => test (f a)) l.
Proof. induction l as [|a l IH]; [done|]. cbn. by rewrite <- IH. Qed.

Lemma keep_fmap {A} (embed : A -> rows) (check : rows -> option bool) (test : A -> bool) l :
  (forall a, check (embed a) = Some (test a)) -> keep check (embed <$> l) = Some (embed <$> filter (fun a => test a = true) l).
Proof.
  intros Hc. induction l as [|a l IH]; [done|]. cbn [fmap list_fmap keep]. rewrite Hc. change (list_fmap A rows embed l) with (embed <$> l).
  rewrite IH, filter_cons. cbn. case_decide as H; destruct (test a); done.
Qed.

Lemma join_rows_fmap {A B} (embed : A -> rows) (columns : B -> row) alias constraint (test : A -> B -> bool) bs l :
  (forall a b, eval_condition ((alias, columns b) :: embed a) constraint = Some (test a b)) ->
  join_rows (embed <$> l) alias (columns <$> bs) constraint =
  Some ((fun ab => (alias, columns ab.2) :: embed ab.1) <$> (l ≫= (fun a => pair a <$> filter (fun b => test a b = true) bs))).
Proof.
  intros Hc. induction l as [|a l IH]; [done|]. cbn [fmap list_fmap join_rows]. change (list_fmap A rows embed l) with (embed <$> l).
  rewrite <- list_fmap_compose.
  rewrite (keep_fmap ((fun r => (alias, r) :: embed a) ∘ columns) _ (test a)) by (intros b; apply Hc). cbn [mbind option_bind].
  rewrite IH. cbn. rewrite fmap_app. do 2 f_equal. rewrite <- list_fmap_compose. done.
Qed.

(** ** The matches of the pattern *)

Section matches.
Variable kind_id : Kind -> Z.
Variable db : tables.

(** A node of the graph is the identifier of a row with all kinds of the pattern, a
    relationship is a row of one of them. *)
Definition node_matches (n : NodePattern Expression) (v : Z) : Prop :=
  exists r, r ∈ nodes_of db /\ nr_id r = v /\ forall k, k ∈ np_Kinds n -> kind_id k ∈ nr_kind_ids r.

Definition relationships_match (_ : option string) (kinds : list Kind) (_ : option Expression) (es : list edge_row) : Prop :=
  forall e, e ∈ es -> e ∈ edges_of db /\ (kinds = [] \/ er_kind_id e ∈ kind_id <$> kinds).

(** What a pattern without properties matches; a pattern that is one node has no
    step. *)
Definition pattern_matches (p : PatternPart Expression) (x : Z * list (list edge_row * Z)) : Prop :=
  match pp_PatternElements p with
  | [Some (NodeElement n)] => x.2 = [] /\ node_matches n x.1
  | _ => path_matches er_start_id er_end_id node_matches relationships_match p x
  end.

Hypothesis node_ids : NoDup (nr_id <$> nodes_of db).

Lemma rows_with_id z :
  (exists r, r ∈ nodes_of db /\ nr_id r = z /\ filter (fun r => bool_decide (nr_id r = z) = true) (nodes_of db) = [r]) \/
  (z ∉ nr_id <$> nodes_of db /\ filter (fun r => bool_decide (nr_id r = z) = true) (nodes_of db) = []).
Proof using node_ids.
  induction (nodes_of db) as [|r rs IH]; [right; split; [set_solver|done]|]. cbn in node_ids. apply NoDup_cons in node_ids as [Hr Hn].
  rewrite filter_cons. destruct (decide (nr_id r = z)) as [Hz|Hz].
  - rewrite decide_True by by apply bool_decide_eq_true. left. exists r. split_and!; [by left|done|].
    destruct (IH Hn) as [(r' & Hin & Hz' & _)|[_ ->]]; [|done]. destruct Hr. rewrite Hz, <- Hz'. by apply list_elem_of_fmap_2.
  - rewrite decide_False by by rewrite bool_decide_eq_true. destruct (IH Hn) as [(r' & Hin & Hz' & ->)|[Hz' ->]].
    + left. exists r'. split_and!; [by right|done|done].
    + right. split; [|done]. cbn. set_solver.
Qed.

(** The rows of a select over relationships and their two endpoints. *)
Definition triples (es : list edge_row) : list (edge_row * node_row * node_row) :=
  (es ≫= (fun e => pair e <$> filter (fun n => bool_decide (nr_id n = er_start_id e) = true) (nodes_of db)))
  ≫= (fun en => pair en <$> filter (fun n => bool_decide (nr_id n = er_end_id en.1) = true) (nodes_of db)).

Definition attached (e : edge_row) : Prop := er_start_id e ∈ nr_id <$> nodes_of db /\ er_end_id e ∈ nr_id <$> nodes_of db.

Lemma triples_length (test : edge_row -> bool) es :
  length (filter (fun x => test x.1.1 = true) (triples es)) = length (filter (fun e => attached e /\ test e = true) es).
Proof using node_ids.
  unfold triples. induction es as [|e es IH]; [done|]. rewrite bind_cons, bind_app, filter_app, length_app, IH, filter_cons. clear IH.
  unfold attached. destruct (rows_with_id (er_start_id e)) as [(r & Hr & Hrz & ->)|[Hz ->]].
  - assert (Hs : er_start_id e ∈ nr_id <$> nodes_of db) by (rewrite <- Hrz; by apply list_elem_of_fmap_2). cbn.
    rewrite app_nil_r. cbn. destruct (rows_with_id (er_end_id e)) as [(m & Hm & Hmz & ->)|[Hz ->]].
    + assert (He : er_end_id e ∈ nr_id <$> nodes_of db) by (rewrite <- Hmz; by apply list_elem_of_fmap_2). cbn.
      destruct (decide (test e = true)); case_decide; cbn; [done|tauto|tauto|done].
    + rewrite decide_False by tauto. done.
  - rewrite decide_False by tauto. done.
Qed.
End matches.

(** ** The counts are right *)

(** The pattern of a query that is one match and nothing before it. *)
Definition query_pattern (query : RegularQuery) : option (PatternPart Expression) :=
  match mjoin query ≫= sq_SinglePartQuery with
  | Some (mkSinglePartQuery [Some (mkReadingClause _ (Some (mkMatch false [Some p] None)) _)] [] _) => Some p
  | _ => None
  end.

(** The pattern is what the shape says. *)
Definition shaped (p : PatternPart Expression) (shape : countStoreFastPathShape) : Prop :=
  match sh_Target shape with
  | CountStoreFastPathNode => exists v, pp_PatternElements p = [Some (NodeElement (mkNodePattern v (sh_Kinds shape) None))]
  | CountStoreFastPathEdge => exists v d, d <> DirectionBoth /\
      pp_PatternElements p = chain_elements (mkNodePattern None [] None)
        [(mkRelationshipPattern v (sh_Kinds shape) d None None, mkNodePattern None [] None)]
  end.

Lemma unconstrained n : constrainedCountStoreEndpoint n = false -> n = mkNodePattern None [] None.
Proof.
  destruct n as [v ks ps]. unfold constrainedCountStoreEndpoint. cbn. rewrite !orb_false_iff. intros [[H1 H2] H3].
  apply bool_decide_eq_false in H1, H3. destruct v; [by destruct H1|]. destruct ps; [by destruct H3|]. by destruct ks.
Qed.

Lemma shape_pattern query shape : countStoreFastPathShapeForQuery query = Some shape ->
  exists p, query_pattern query = Some p /\ shaped p shape.
Proof.
  unfold countStoreFastPathShapeForQuery, query_pattern. intros Hs.
  destruct (mjoin query ≫= sq_SinglePartQuery) as [[[|c [|]] [|] ret]|]; try done.
  destruct (simpleCountProjection ret) as [[arg alias]|]; [|done]. destruct c as [[addr [m|] u]|]; cbn in Hs; try done.
  destruct m as [[] [|[p|] [|]] [w|]]; try done. exists p. split; [done|].
  destruct (_ || _ || _); [done|]. unfold shape_elements in Hs. unfold shaped.
  destruct (pp_PatternElements p) as [|[[n|r|]|] [|[[n'|r'|]|] [|[[n''|r''|]|] [|]]]] eqn:E; try done.
  - case_match eqn:Hp; [done|]. apply bool_decide_eq_false in Hp. case_match; [done|]. injection Hs as <-. cbn.
    destruct n as [v ks [ps|]]; [by destruct Hp|]. by exists v.
  - case_match eqn:Hc; [done|]. case_match; [done|]. injection Hs as <-. cbn. rewrite !orb_false_iff in Hc.
    destruct Hc as [[[[H1%unconstrained H2%unconstrained] H3] H4] H5]. apply bool_decide_eq_false in H3, H4, H5.
    destruct r' as [v ks d [rg|] [ps|]]; try (by destruct H3); try (by destruct H4). exists v, d. subst. done.
Qed.

Section counting.
Variable MapKinds : list Kind -> list Z + error.
Variable kind_id : Kind -> Z.
Variable db : tables.
(** Kinds are mapped one by one. *)
Hypothesis maps_kinds : forall ks ids, MapKinds ks = inl ids -> ids = kind_id <$> ks.
(** The identifiers are primary keys. *)
Hypothesis node_ids : NoDup (nr_id <$> nodes_of db).
Hypothesis edges_distinct : NoDup (edges_of db).

Definition counted (projection from condition : SyntaxNode) : SyntaxNode := SQuery SNil (SSelect [projection] [from] condition [] SNil) [] SNil SNil.

Lemma count_nodes projection kinds condition : is_count projection = true -> countStoreNodeKindConstraint MapKinds kinds = inl condition ->
  select_count db (counted projection (SFromClause (STableReference [TableNode] (Some countStoreNodeAlias)) []) condition) =
  Some (length (filter (fun r => forallb (fun k => bool_decide (kind_id k ∈ nr_kind_ids r)) kinds = true) (nodes_of db))).
Proof using maps_kinds.
  intros Hp Hc. unfold select_count, counted. rewrite Hp. change (table_rows db [TableNode]) with (Some (node_columns <$> nodes_of db)).
  cbn [mbind option_bind all_joins]. rewrite <- list_fmap_compose.
  rewrite (keep_fmap _ _ (fun r => forallb (fun k => bool_decide (kind_id k ∈ nr_kind_ids r)) kinds)); [cbn; by rewrite length_fmap|].
  intros r. unfold countStoreNodeKindConstraint in Hc. destruct kinds as [|k ks]; cbn [none] in Hc; [by injection Hc as <-|].
  destruct (MapKinds (k :: ks)) as [ids|] eqn:Hm; [|done]. apply maps_kinds in Hm as ->. injection Hc as <-.
  exact (f_equal Some (forallb_fmap kind_id (fun y => bool_decide (y ∈ nr_kind_ids r)) (k :: ks))).
Qed.

(** The kind of a relationship is one of the kinds, if there are any. *)
Definition of_kinds (kinds : list Kind) (e : edge_row) : bool := none kinds || bool_decide (er_kind_id e ∈ kind_id <$> kinds).

Lemma count_edges projection kinds condition : is_count projection = true -> countStoreEdgeKindConstraint MapKinds kinds = inl condition ->
  select_count db (counted projection
    (SFromClause (STableReference [TableEdge] (Some countStoreEdgeAlias))
       [countStoreEndpointJoin countStoreStartEndpointAlias ColumnStartID; countStoreEndpointJoin countStoreEndEndpointAlias ColumnEndID])
    condition) =
  Some (length (filter (fun e => attached db e /\ of_kinds kinds e = true) (edges_of db))).
Proof using maps_kinds node_ids.
  intros Hp Hc. unfold select_count, counted. rewrite Hp. change (table_rows db [TableEdge]) with (Some (edge_columns <$> edges_of db)).
  unfold countStoreEndpointJoin. cbn [mbind option_bind all_joins]. change (table_rows db [TableNode]) with (Some (node_columns <$> nodes_of db)).
  rewrite <- list_fmap_compose. cbn [mbind option_bind].
  rewrite (join_rows_fmap _ _ _ _ (fun e n => bool_decide (nr_id n = er_start_id e))) by done. cbn [mbind option_bind].
  rewrite (join_rows_fmap _ _ _ _ (fun en n => bool_decide (nr_id n = er_end_id en.1))) by done. cbn [mbind option_bind].
  rewrite (keep_fmap _ _ (fun x => of_kinds kinds x.1.1)).
  - cbn. rewrite length_fmap. f_equal. by apply (triples_length db node_ids (of_kinds kinds)).
  - intros [[e n] m]. unfold countStoreEdgeKindConstraint in Hc. destruct kinds as [|k ks]; cbn [none] in Hc; [by injection Hc as <-|].
    destruct (MapKinds (k :: ks)) as [ids|] eqn:Hm; [|done]. apply maps_kinds in Hm as ->. by injection Hc as <-.
Qed.
Definition edge_path (d : Direction) (e : edge_row) : Z * list (list edge_row * Z) :=
  match d with
  | DirectionInbound => (er_end_id e, [([e], er_start_id e)])
  | _ => (er_start_id e, [([e], er_end_id e)])
  end.

Lemma single_steps p n r m : pp_PatternElements p = chain_elements n [(r, m)] -> traversalStepsForPattern (Some p) = [mkSourceStep n r m].
Proof using Type. intros Hp. exact (steps_chain p n [(r, m)] Hp). Qed.

Lemma edge_matches p v kinds d x : d <> DirectionBoth ->
  pp_PatternElements p = chain_elements (mkNodePattern None [] None) [(mkRelationshipPattern v kinds d None None, mkNodePattern None [] None)] ->
  pattern_matches kind_id db p x <->
  exists e, e ∈ edges_of db /\ attached db e /\ of_kinds kinds e = true /\ x = edge_path d e.
Proof using All.
  intros Hd Hp. unfold pattern_matches. rewrite Hp. cbn [chain_elements tail_elements]. unfold path_matches.
  rewrite (single_steps _ _ _ _ Hp).
  assert (Hn : forall z, node_matches kind_id db (mkNodePattern None [] None) z <-> z ∈ nr_id <$> nodes_of db).
  { intros z. unfold node_matches. rewrite list_elem_of_fmap. split; [intros (r & H1 & H2 & _); by exists r|intros (r & -> & H); exists r; set_solver]. }
  assert (Hk : forall e, of_kinds kinds e = true <-> kinds = [] \/ er_kind_id e ∈ kind_id <$> kinds).
  { intros e. unfold of_kinds. rewrite orb_true_iff, bool_decide_eq_true. destruct kinds; cbn; intuition congruence. }
  unfold attached. destruct x as [u rest]. cbn [fst snd]. split.
  - intros [Hs _]. destruct rest as [|[es w] [|]]; try done; [|by destruct Hs]. destruct Hs as [(H1 & H2 & H3 & H4 & H5) _]. cbn in H1, H2, H3, H4, H5.
    destruct es as [|e [|]]; try done. destruct H4 as (w' & Hj & ->). apply Hn in H1, H2.
    assert (He : e ∈ edges_of db /\ (kinds = [] \/ er_kind_id e ∈ kind_id <$> kinds)) by
      (apply H5; destruct (pp_PathDirectionReversed p); by left). exists e. rewrite Hk.
    destruct d; [| |done]; destruct Hj as [<- <-]; tauto.
  - intros (e & He & [Ha1 Ha2] & Hke%Hk & Hx).
    assert (Hr : relationships_match kind_id db v kinds None (if pp_PathDirectionReversed p then reverse [e] else [e])).
    { destruct (pp_PathDirectionReversed p); intros e' ->%list_elem_of_singleton; done. }
    destruct d; [| |done]; injection Hx as -> ->; (split; [split; [split_and!; [by apply Hn|by apply Hn|done|by eexists|done]|done]|]); apply NoDup_singleton.
Qed.

Lemma edge_path_inj d : d <> DirectionBoth -> Inj (=) (=) (edge_path d).
Proof using Type. intros Hd e e' H. destruct d; [| |done]; by injection H. Qed.

Lemma shape_counts p shape projection from condition : shaped p shape -> is_count projection = true ->
  countStoreFastPathFromAndWhere MapKinds shape = inl (from, condition) ->
  exists ms, NoDup ms /\ (forall x, x ∈ ms <-> pattern_matches kind_id db p x) /\ select_count db (counted projection from condition) = Some (length ms).
Proof using All.
  intros Hs Hp. unfold shaped, countStoreFastPathFromAndWhere in *. destruct (sh_Target shape).
  - destruct Hs as [v Hs]. destruct (countStoreNodeKindConstraint MapKinds (sh_Kinds shape)) as [c|] eqn:Hc; [|done]. intros [= <- <-].
    rewrite (count_nodes _ _ _ Hp Hc). set (l := filter _ _). exists ((fun r => (nr_id r, [])) <$> l). split_and!; [| |by rewrite length_fmap].
    + apply (NoDup_fmap_1 fst). rewrite <- list_fmap_compose. eapply sublist_NoDup; [exact node_ids|]. apply fmap_sublist, sublist_filter.
    + intros [z rest]. unfold pattern_matches, node_matches. rewrite Hs, list_elem_of_fmap. cbn. split.
      * intros (r & [= -> ->] & [Hk Hr]%list_elem_of_filter). split; [done|]. exists r. split_and!; [done..|]. intros k Hk'.
        rewrite forallb_forall in Hk. by apply list_elem_of_In, Hk, bool_decide_eq_true in Hk'.
      * intros (-> & r & Hr & <- & Hk). exists r. split; [done|]. apply list_elem_of_filter. split; [|done]. apply forallb_forall. intros k Hk'.
        apply bool_decide_eq_true, Hk. by apply list_elem_of_In.
  - destruct Hs as (v & d & Hd & Hs). destruct (countStoreEdgeKindConstraint MapKinds (sh_Kinds shape)) as [c|] eqn:Hc; [|done]. intros [= <- <-].
    rewrite (count_edges _ _ _ Hp Hc). set (l := filter _ _). exists (edge_path d <$> l). split_and!; [| |by rewrite length_fmap].
    + pose proof (edge_path_inj d Hd). apply (NoDup_fmap_2 (edge_path d)). eapply sublist_NoDup; [exact edges_distinct|apply sublist_filter].
    + intros x. rewrite (edge_matches p v _ d x Hd Hs), list_elem_of_fmap. unfold l. split.
      * intros (e & -> & [[H1 H2] H3]%list_elem_of_filter). by exists e.
      * intros (e & H1 & H2 & H3 & ->). exists e. split; [done|]. by apply list_elem_of_filter.
Qed.
End counting.

(** [C1] A query that the translator answers by counting rows gets the right answer:
    the select returns the number of matches of the query's pattern, which is one
    node or two nodes and a directed relationship, in any tables whose rows have
    identifiers of their own.  The kinds of a node pattern are all required, one of
    those of a relationship pattern is, and both endpoints of a relationship are
    rows of the node table. *)
Theorem translateCountStoreFastPath_counts MapKinds kind_id db query plan statement :
  (forall ks ids, MapKinds ks = inl ids -> ids = kind_id <$> ks) -> NoDup (nr_id <$> nodes_of db) -> NoDup (edges_of db) ->
  translateCountStoreFastPath MapKinds query plan = inl (Some statement) ->
  exists p ms, query_pattern query = Some p /\ NoDup ms /\ (forall x, x ∈ ms <-> pattern_matches kind_id db p x) /\
    select_count db statement = Some (length ms).
Proof.
  intros Hm Hn He. unfold translateCountStoreFastPath. destruct (CountStoreFastPath plan) as [|decision ds]; [done|].
  destruct (countStoreFastPathShapeForQuery query) as [shape|] eqn:Hs; [|done]. destruct (negb _); [done|]. cbv zeta.
  destruct (countStoreFastPathFromAndWhere MapKinds shape) as [[from condition]|] eqn:Hf; [|done]. intros [= <-].
  destruct (shape_pattern query shape Hs) as (p & Hp & Hsp). exists p.
  destruct (shape_counts MapKinds kind_id db Hm Hn He p shape (if bool_decide (sh_Alias shape = "")
    then SFunctionCall FunctionCount [Wildcard] else SAliasedExpression (SFunctionCall FunctionCount [Wildcard]) (Some (sh_Alias shape)))
    from condition Hsp) as (ms & H); [by case_bool_decide|done|]. by exists ms.
Qed.

(** ** The planner and the translator agree *)

Lemma projection_argument ret : simpleCountProjectionArgument ret = fst <$> simpleCountProjection ret.
Proof. unfold simpleCountProjectionArgument, simpleCountProjection. repeat case_match; done. Qed.

Lemma elements_agree argument alias es :
  match shape_elements argument alias es with
  | Some shape => exists symbol, count_store_elements argument es = count_store (sh_Target shape) symbol (sh_Kinds shape)
  | None => count_store_elements argument es = Done None
  end.
Proof.
  unfold shape_elements, count_store_elements, counts_binding. destruct es as [|[[n|r|]|] [|[[n'|r'|]|] [|[[n''|r''|]|] [|]]]]; try done.
  - change (countStoreVariableSymbol (np_Variable n)) with (variableSymbol (np_Variable n)). rewrite negb_orb.
    destruct (bool_decide (is_Some (np_Properties n))); [done|]. cbn [orb]. destruct (_ && _); [done|]. by eexists.
  - change (countStoreVariableSymbol (rp_Variable r')) with (variableSymbol (rp_Variable r')). rewrite negb_orb.
    change constrainedCountStoreEndpoint with constrainedCountFastPathEndpoint.
    destruct (constrainedCountFastPathEndpoint n || constrainedCountFastPathEndpoint n'' || bool_decide (is_Some (rp_Range r')) ||
      bool_decide (is_Some (rp_Properties r')) || bool_decide (rp_Direction r' = DirectionBoth)); [done|]. cbn [orb].
    destruct (_ && _); [done|]. by eexists.
Qed.

Lemma shape_decision query :
  match countStoreFastPathShapeForQuery query with
  | Some shape => exists symbol, countStoreFastPathDecision query = count_store (sh_Target shape) symbol (sh_Kinds shape)
  | None => countStoreFastPathDecision query = Done None
  end.
Proof.
  unfold countStoreFastPathShapeForQuery, countStoreFastPathDecision.
  destruct (mjoin query ≫= sq_SinglePartQuery) as [[[|c [|]] [|] ret]|]; try done. rewrite projection_argument.
  destruct (simpleCountProjection ret) as [[argument alias]|]; [|done]. cbn [fmap option_fmap option_map fst].
  destruct (c ≫= clause_Match) as [[[] [|[p|] [|]] [w|]]|]; try done. destruct (_ || _ || _); [done|]. apply elements_agree.
Qed.

(** [C30] The planner decides to answer a query from the tables exactly when the
    translator, which looks for the shape on its own, finds it: then the decision
    is the only one, it has the target and the kinds of the shape, and the
    translator uses it unless the kinds cannot be mapped; otherwise the translator
    leaves the query to the other translations. *)
Theorem countStore_planned MapKinds query att p : BuildLoweringPlan query att = Done (inl p) ->
  match countStoreFastPathShapeForQuery query with
  | Some shape =>
      (exists d, CountStoreFastPath p = [d] /\ cs_Target d = sh_Target shape /\ kindSymbols (sh_Kinds shape) = Done (cs_KindSymbols d)) /\
      match translateCountStoreFastPath MapKinds query p with
      | inl statement => is_Some statement
      | inr err => MapKinds (sh_Kinds shape) = inr err
      end
  | None => CountStoreFastPath p = [] /\ translateCountStoreFastPath MapKinds query p = inl None
  end.
Proof.
  intros (d & Hd & Hp)%build_count_store. unfold translateCountStoreFastPath. rewrite Hp. pose proof (shape_decision query) as H.
  destruct (countStoreFastPathShapeForQuery query) as [shape|]; [|rewrite Hd in H; by injection H as ->].
  destruct H as [symbol H]. rewrite Hd in H. unfold count_store in H. destruct (kindSymbols (sh_Kinds shape)) as [symbols| |] eqn:Hk; try done.
  injection H as ->. cbn [option_list cs_Target]. split; [eexists; split_and!; [reflexivity|done|done]|].
  destruct (bool_decide (sh_Target shape = sh_Target shape)) eqn:Ht; [|by apply bool_decide_eq_false in Ht]. cbn [negb]. unfold countStoreFastPathFromAndWhere, countStoreNodeKindConstraint, countStoreEdgeKindConstraint.
  destruct (sh_Target shape), (none (sh_Kinds shape)), (MapKinds (sh_Kinds shape)) eqn:Hm; cbn; first [done|by eexists].
Qed.

(** *** [MATCH ()<-[r:Admin]-() RETURN count(r) AS n] *)

Definition demo_count : RegularQuery :=
  Some (Some (mkSingleQuery (Some (mkSinglePartQuery
    [Some (mkReadingClause 1 (Some (mkMatch false [Some (mkPatternPart 2 None false false
       (chain_elements (mkNodePattern None [] None)
          [(mkRelationshipPattern (Some "r") [Some "Admin"] DirectionInbound None None, mkNodePattern None [] None)]) false)] None)) None)]
    [] (Some (mkReturn (Some (mkProjection false false None None None
      [Some (EProjectionItem (Some (EFunctionInvocation false [] "COUNT" [Some (EVariable "r")])) (Some "n"))]))))))
    None)).

Definition demo_kind_id (k : Kind) : Z := if bool_decide (k = Some "Admin") then 7%Z else 8%Z.
Definition demo_MapKinds (ks : list Kind) : list Z + error := inl (demo_kind_id <$> ks).

(** Two relationships of the kind, one of which has an endpoint that is missing. *)
Definition demo_tables : tables :=
  mkTables [mkNodeRow 1 []; mkNodeRow 2 [7%Z]] [mkEdgeRow 10 1 2 7; mkEdgeRow 11 2 1 8; mkEdgeRow 12 2 3 7].

Definition demo_count_plan : LoweringPlan := match BuildLoweringPlan demo_count [] with Done (inl p) => p | _ => empty_plan end.
Definition demo_statement : SyntaxNode :=
  match translateCountStoreFastPath demo_MapKinds demo_count demo_count_plan with inl (Some s) => s | _ => SNil end.

Lemma translateCountStoreFastPath_counts_witness :
  select_count demo_tables demo_statement = Some 1 /\
  exists p ms, query_pattern demo_count = Some p /\ NoDup ms /\ (forall x, x ∈ ms <-> pattern_matches demo_kind_id demo_tables p x) /\
    select_count demo_tables demo_statement = Some (length ms).
Proof.
  split; [vm_compute; reflexivity|].
  apply (translateCountStoreFastPath_counts demo_MapKinds demo_kind_id demo_tables demo_count demo_count_plan).
  - intros ks ids [= <-]. reflexivity.
  - by apply (bool_decide_unpack _).
  - by apply (bool_decide_unpack _).
  - vm_compute. reflexivity.
Defined.

Lemma countStore_planned_witness :
  exists d, CountStoreFastPath demo_count_plan = [d] /\ cs_Target d = CountStoreFastPathEdge /\ cs_KindSymbols d = ["Admin"].
Proof.
  pose proof (countStore_planned demo_MapKinds demo_count [] demo_count_plan ltac:(vm_compute; reflexivity)) as H.
  destruct (countStoreFastPathShapeForQuery demo_count) as [shape|] eqn:Hs; [|by vm_compute in Hs].
  destruct H as [(d & H1 & H2 & H3) _]. exists d. vm_compute in Hs. injection Hs as <-. split; [done|]. split; [done|]. destruct d. vm_compute in H3. by injection H3 as <-.
Defined.
