(* ===== verification/IndexDefinitions.v ===== *)
(** * Definitions of indexes in the catalog (drivers/pg/query/definitions.go, format.go)

    PostgreSQL shows an index as the text of the statement that creates it.
    [describeGraphPartition] lower-cases that text and reads the name, the
    uniqueness, the method and the property of an index out of it with a regular
    expression.  The file models the part of Go's [regexp] the two expressions of
    definitions.go need, as a backtracking matcher with captures, and shows what is
    read from the text of a property index.  Letters are ASCII. *)

From S2P Require Import Prelude.
From Stdlib Require Import Ascii.

(** ** Strings *)

Definition lower (c : ascii) : ascii :=
  let n := nat_of_ascii c in
  if decide (65 <= n <= 90) then ascii_of_nat (n + 32) else c.

Definition chars (s : string) : list ascii := String.list_ascii_of_string s.
Definition text (l : list ascii) : string := String.string_of_list_ascii l.

(** [strings.ToLower]. *)
Definition ToLower (s : string) : string := text (lower <$> chars s).

Lemma chars_app s t : chars (s +:+ t) = chars s ++ chars t.
Proof. unfold chars. induction s as [|c s IH]; [done|].
  change (String.String c s +:+ t) with (String.String c (s +:+ t)). cbn. by rewrite IH.
Qed.

Lemma chars_cons c s : chars (String.String c s) = c :: chars s.
Proof. done. Qed.

Lemma text_chars s : text (chars s) = s.
Proof. apply String.string_of_list_ascii_of_string. Qed.

Lemma chars_text l : chars (text l) = l.
Proof. apply String.list_ascii_of_string_of_list_ascii. Qed.

(** ** Regular expressions *)

(** Repetition is of character classes only, which is all the two expressions
    use; [Cls] is one character of a class and [Plus] one or more of them. *)
Inductive regex :=
| Cls (p : ascii -> bool)
| Plus (p : ascii -> bool)
| Cat (r1 r2 : regex)
| Opt (r : regex)
| Group (n : nat) (r : regex)
| End_.

Notation captures := (gmap nat string).

(** Greedy repetition: the longest match first, shorter ones on backtracking. *)
Fixpoint star (p : ascii -> bool) (s : list ascii) (k : list ascii -> option captures) : option captures :=
  match s with
  | c :: s' => if p c then match star p s' k with Some x => Some x | None => k s end else k s
  | [] => k []
  end.

Fixpoint match_at (r : regex) (s : list ascii) (c : captures)
    (k : list ascii -> captures -> option captures) : option captures :=
  match r with
  | Cls p => match s with x :: s' => if p x then k s' c else None | [] => None end
  | Plus p => match s with x :: s' => if p x then star p s' (fun s => k s c) else None | [] => None end
  | Cat r1 r2 => match_at r1 s c (fun s c => match_at r2 s c k)
  | Opt r => match match_at r s c k with Some x => Some x | None => k s c end
  | Group n r => match_at r s c (fun s' c => k s' (<[n := text (take (length s - length s') s)]> c))
  | End_ => match s with [] => k [] c | _ => None end
  end.

(** [FindStringSubmatch] of an expression that starts with [^]; a group that took
    no part in the match is the empty string. *)
Definition FindStringSubmatch (r : regex) (s : string) : option captures :=
  match_at r (chars s) ∅ (fun _ c => Some c).

Definition MatchString (r : regex) (s : string) : bool := bool_decide (is_Some (FindStringSubmatch r s)).

Definition group (c : captures) (n : nat) : string := default "" (c !! n).

(** Classes of characters: [\s], [\S], [.], a literal under [(?i)], [[^c]]. *)
Definition space (c : ascii) : bool :=
  bool_decide (nat_of_ascii c ∈ [9; 10; 12; 13; 32]).
Definition nonspace (c : ascii) : bool := negb (space c).
Definition dot (c : ascii) : bool := bool_decide (nat_of_ascii c <> 10).
Definition same (x c : ascii) : bool := bool_decide (lower c = lower x).
Definition except (x c : ascii) : bool := bool_decide (c <> x).

(** A literal, followed by the rest of the expression. *)
Fixpoint lit (s : string) (r : regex) : regex :=
  match s with
  | EmptyString => r
  | String.String c s' => Cat (Cls (same c)) (lit s' r)
  end.

Declare Scope regex_scope.
Delimit Scope regex_scope with re.
Notation "r1 ∙ r2" := (Cat r1 r2) (at level 60, right associativity) : regex_scope.
Bind Scope regex_scope with regex.
Local Open Scope regex_scope.

Definition word (s : string) : regex :=
  match s with
  | EmptyString => End_
  | String.String c s' => foldl (fun r c => Cat r (Cls (same c))) (Cls (same c)) (chars s')
  end.

(** [create\s+(unique)?(?:\s+)?index\s+([^ ]+)\s+on\s+\S+\s+using\s+([^ ]+)\s+] *)
Definition indexPrefix (r : regex) : regex :=
  lit "create" (Plus space ∙ Opt (Group 1 (word "unique")) ∙ Opt (Plus space) ∙
  lit "index" (Plus space ∙ Group 2 (Plus (except " ")) ∙ Plus space ∙
  lit "on" (Plus space ∙ Plus nonspace ∙ Plus space ∙
  lit "using" (Plus space ∙ Group 3 (Plus (except " ")) ∙ Plus space ∙ r)))).

(** [\(+properties\s+->>\s+'([^:]+)::.+$] *)
Definition pgPropertyIndexRegex : regex :=
  indexPrefix (Plus (same "(") ∙ lit "properties" (Plus space ∙ lit "->>" (Plus space ∙
    lit "'" (Group 4 (Plus (except ":")) ∙ lit "::" (Plus dot ∙ End_))))).

(** [\(([^)]+)\)(?:\s+include\s+\(([^)]+)\))?$] *)
Definition pgColumnIndexRegex : regex :=
  indexPrefix (lit "(" (Group 4 (Plus (except ")")) ∙ lit ")" (
    Opt (Plus space ∙ lit "include" (Plus space ∙ lit "(" (Group 5 (Plus (except ")")) ∙ Cls (same ")")))) ∙ End_))).

Example column_index_ok :
  (fun c => group c <$> [1; 2; 3; 4; 5]) <$>
    FindStringSubmatch pgColumnIndexRegex "create unique index node_pkey on public.node_1 using btree (id, graph_id) include (kind_ids)" =
  Some ["unique"; "node_pkey"; "btree"; "id, graph_id"; "kind_ids"].
Proof. vm_compute. reflexivity. Qed.
Example property_index_ok :
  (fun c => group c <$> [1; 2; 3; 4]) <$>
    FindStringSubmatch pgPropertyIndexRegex "create index node_1_name_index on public.node_1 using gin (((properties ->> 'name'::text)) gin_trgm_ops)" =
  Some [""; "node_1_name_index"; "gin"; "name'"].
Proof. vm_compute. reflexivity. Qed.

(** ** Types of indexes *)

Notation IndexType := Z (only parsing).
Definition UnsupportedIndex : IndexType := 0.
Definition BTreeIndex : IndexType := 1.
Definition TextSearchIndex : IndexType := 2.

Definition pgIndexTypeBTree : string := "btree".
Definition pgIndexTypeGIN : string := "gin".
Definition pgIndexUniqueStr : string := "unique".

Definition postgresIndexType (indexType : IndexType) : string :=
  if decide (indexType = BTreeIndex) then pgIndexTypeBTree
  else if decide (indexType = TextSearchIndex) then pgIndexTypeGIN
  else "NOT SUPPORTED".

Definition parsePostgresIndexType (pgType : string) : IndexType :=
  if decide (ToLower pgType = pgIndexTypeBTree) then BTreeIndex
  else if decide (ToLower pgType = pgIndexTypeGIN) then TextSearchIndex
  else UnsupportedIndex.

Definition supported (t : IndexType) : Prop := t = BTreeIndex \/ t = TextSearchIndex.

Lemma parse_postgresIndexType t : supported t -> parsePostgresIndexType (postgresIndexType t) = t.
Proof. intros [-> | ->]; reflexivity. Qed.

(** ** Lemmas of the matcher *)

Definition stops (p : ascii -> bool) (s : list ascii) : Prop :=
  match s with [] => True | c :: _ => p c = false end.

Lemma star_greedy p w rest k r :
  Forall (fun c => p c = true) w -> stops p rest -> k rest = Some r -> star p (w ++ rest) k = Some r.
Proof.
  intros Hw Hstop Hk. induction Hw as [|c w Hc Hw IH]; cbn.
  - destruct rest as [|c rest]; cbn; [done|]. cbn in Hstop. by rewrite Hstop.
  - by rewrite Hc, IH.
Qed.

Lemma plus_greedy p w rest c k r :
  w <> [] -> Forall (fun c => p c = true) w -> stops p rest -> k rest c = Some r ->
  match_at (Plus p) (w ++ rest) c k = Some r.
Proof.
  intros Hne Hw Hstop Hk. destruct Hw as [|x w Hx Hw]; [done|]. cbn. rewrite Hx.
  by apply (star_greedy p w rest (fun s => k s c)).
Qed.

Lemma group_greedy n p w rest c k r :
  w <> [] -> Forall (fun c => p c = true) w -> stops p rest -> k rest (<[n := text w]> c) = Some r ->
  match_at (Group n (Plus p)) (w ++ rest) c k = Some r.
Proof.
  intros Hne Hw Hstop Hk. cbn [match_at].
  apply (plus_greedy p w rest c (fun s' c => k s' (<[n := text (take (length (w ++ rest) - length s') (w ++ rest))]> c))); [done..|].
  by rewrite length_app, Nat.add_sub, take_app_length.
Qed.

Lemma same_refl x : same x x = true.
Proof. unfold same. by rewrite bool_decide_true. Qed.

Lemma lit_match w r s c k : match_at (lit w r) (chars w ++ s) c k = match_at r s c k.
Proof.
  induction w as [|x w IH]; [done|]. cbn. rewrite same_refl. exact IH.
Qed.

Lemma match_cat r1 r2 s c k :
  match_at (Cat r1 r2) s c k = match_at r1 s c (fun s c => match_at r2 s c k).
Proof. done. Qed.

Lemma match_opt r s c k :
  match_at (Opt r) s c k = match match_at r s c k with Some x => Some x | None => k s c end.
Proof. done. Qed.

(** A run of spaces is one space, followed by something else. *)
Lemma space_match rest c k r :
  stops space rest -> k rest c = Some r -> match_at (Plus space) (" "%char :: rest) c k = Some r.
Proof.
  intros Hstop Hk. apply (plus_greedy space [" "%char] rest); [done| |done|done].
  constructor; [reflexivity|constructor].
Qed.

(** ** The text of an index of a property *)

Definition definition_text (unique : bool) (name table method opens field rest : string) : string :=
  "create " +:+ (if unique then "unique " else "") +:+ "index " +:+ name +:+ " on " +:+ table +:+
  " using " +:+ method +:+ " " +:+ opens +:+ "properties ->> '" +:+ field +:+ "'::" +:+ rest.

Definition all (p : ascii -> bool) (s : string) : bool := forallb p (chars s).
Definition some_of (p : ascii -> bool) (s : string) : bool := bool_decide (s <> "") && all p s.

(** What a text must look like to be read back: names without blanks, at least
    one parenthesis, a property without a colon, and a cast that ends the line. *)
Definition readable (name table method opens field rest : string) : Prop :=
  some_of nonspace name = true /\ some_of nonspace table = true /\ some_of nonspace method = true /\
  some_of (same "(") opens = true /\ all (except ":") field = true /\ some_of dot rest = true.

Lemma all_Forall p s : all p s = true -> Forall (fun c => p c = true) (chars s).
Proof. unfold all. rewrite forallb_forall, Forall_forall. intros H c Hc. apply H. by apply list_elem_of_In. Qed.

Lemma some_of_Forall p s : some_of p s = true -> chars s <> [] /\ Forall (fun c => p c = true) (chars s).
Proof.
  unfold some_of. intros [Hne%bool_decide_eq_true Hall%all_Forall]%andb_true_iff. split; [|done].
  intros Hs. apply Hne. rewrite <- (text_chars s), Hs. done.
Qed.

(** The first character of a word decides whether a run before it stops there. *)
Lemma stops_word p q s rest :
  some_of q s = true -> (forall c, q c = true -> p c = false) -> stops p (chars s ++ rest).
Proof.
  intros [Hne Hall]%some_of_Forall Himp. destruct (chars s) as [|c l]; [done|].
  cbn. inversion Hall. by apply Himp.
Qed.

Lemma nonspace_space c : nonspace c = true -> space c = false.
Proof. unfold nonspace. by destruct (space c). Qed.

Lemma nonspace_except c : nonspace c = true -> except " " c = true.
Proof. intros H%nonspace_space. unfold except. apply bool_decide_eq_true. intros ->. done. Qed.

Lemma paren_space c : same "(" c = true -> space c = false.
Proof.
  unfold same, space. intros H%bool_decide_eq_true. apply bool_decide_eq_false. intros Hin.
  rewrite !elem_of_cons, elem_of_nil in Hin.
  assert (Hc : c = ascii_of_nat (nat_of_ascii c)) by (by rewrite ascii_nat_embedding).
  destruct_or! Hin; rewrite Hin in Hc; subst c; done.
Qed.

(** A literal that starts with a character outside the class stops a run. *)
Lemma stops_lit p c w rest : p c = false -> stops p (chars (String.String c w) ++ rest).
Proof. done. Qed.

(** One step of a match along a text: over a literal, a blank, or a word. *)
Tactic Notation "pass" uconstr(w) := eapply eq_trans; [apply (lit_match w)|].
Ltac pass_space := try rewrite match_cat; apply space_match.
Ltac pass_word H :=
  let Hne := fresh in let Hall := fresh in
  destruct (some_of_Forall _ _ H) as [Hne Hall];
  try rewrite match_cat; first [apply group_greedy | apply plus_greedy];
  [exact Hne|first [exact Hall|eapply Forall_impl; [exact Hall|exact nonspace_except]]|done|].

Definition group1 (unique : bool) : captures := if unique then {[1 := "unique"%string]} else ∅.

(** The optional word [unique]: taken when it is there, skipped before [index]. *)
Lemma match_unique rest k out :
  k rest (group1 true) = Some out ->
  match_at (Opt (Group 1 (word "unique"))) (chars "unique" ++ rest) ∅ k = Some out.
Proof.
  intros Hk. rewrite match_opt.
  assert (match_at (Group 1 (word "unique")) (chars "unique" ++ rest) ∅ k = Some out) as ->; [|done].
  cbn [match_at word foldl chars String.list_ascii_of_string app]. rewrite !same_refl.
  replace (length _ - length rest) with 6 by (cbn; lia). exact Hk.
Qed.

Lemma match_no_unique rest k :
  match_at (Opt (Group 1 (word "unique"))) (chars "index " ++ rest) ∅ k = k (chars "index " ++ rest) ∅.
Proof. reflexivity. Qed.

Lemma match_no_space rest c k :
  match_at (Opt (Plus space)) (chars "index " ++ rest) c k = k (chars "index " ++ rest) c.
Proof. reflexivity. Qed.

(** The part of the text that both expressions share. *)
Lemma indexPrefix_match unique name table method s r k out :
  some_of nonspace name = true -> some_of nonspace table = true -> some_of nonspace method = true ->
  stops space s ->
  match_at r s (<[3 := method]> (<[2 := name]> (group1 unique))) k = Some out ->
  match_at (indexPrefix r)
    (chars "create " ++ chars (if unique then "unique " else "") ++ chars "index " ++ chars name ++ chars " on " ++
     chars table ++ chars " using " ++ chars method ++ chars " " ++ s) ∅ k = Some out.
Proof.
  intros Hname Htable Hmethod Hs Hr. unfold indexPrefix. pass "create".
  assert (Hrest : match_at (lit "index" (Plus space ∙ Group 2 (Plus (except " ")) ∙ Plus space ∙
      lit "on" (Plus space ∙ Plus nonspace ∙ Plus space ∙
      lit "using" (Plus space ∙ Group 3 (Plus (except " ")) ∙ Plus space ∙ r))))
    (chars "index " ++ chars name ++ chars " on " ++ chars table ++ chars " using " ++ chars method ++ chars " " ++ s)
    (group1 unique) k = Some out).
  { pass "index". pass_space. { by eapply stops_word, nonspace_space. }
    pass_word Hname. pass_space; [done|]. pass "on". pass_space. { by eapply stops_word, nonspace_space. }
    pass_word Htable. pass_space; [done|]. pass "using". pass_space. { by eapply stops_word, nonspace_space. }
    pass_word Hmethod. pass_space; [done|]. by rewrite !text_chars. }
  destruct unique; pass_space; [done| |done|]; rewrite match_cat; revert Hrest;
    generalize (lit "index" (Plus space ∙ Group 2 (Plus (except " ")) ∙ Plus space ∙
      lit "on" (Plus space ∙ Plus nonspace ∙ Plus space ∙
      lit "using" (Plus space ∙ Group 3 (Plus (except " ")) ∙ Plus space ∙ r))));
    intros r' Hrest.
  - apply match_unique. rewrite match_cat, match_opt.
    erewrite space_match; [reflexivity|done|exact Hrest].
  - eapply eq_trans; [apply match_no_unique|]. rewrite match_cat.
    eapply eq_trans; [apply match_no_space|]. exact Hrest.
Qed.

Lemma quoted_Forall field :
  all (except ":") field = true -> Forall (fun c => except ":" c = true) (chars (field +:+ "'")).
Proof.
  intros H%all_Forall. rewrite chars_app. apply Forall_app. split; [done|]. by repeat constructor.
Qed.

(** From the text of an index of a property the expression reads back its
    uniqueness, its name, its method, and the property with the quote that
    closes it. *)
Lemma pgPropertyIndexRegex_reads unique name table method opens field rest :
  readable name table method opens field rest ->
  exists c, FindStringSubmatch pgPropertyIndexRegex (definition_text unique name table method opens field rest) = Some c /\
    group c 1 = (if unique then "unique" else "") /\ group c 2 = name /\ group c 3 = method /\
    group c 4 = field +:+ "'".
Proof.
  intros (Hname & Htable & Hmethod & Hopens & Hfield & Hrest).
  exists (<[4 := field +:+ "'"]> (<[3 := method]> (<[2 := name]> (group1 unique)))).
  split_and!; try (unfold group; by simplify_map_eq).
  - unfold FindStringSubmatch, definition_text. rewrite !chars_app.
    apply indexPrefix_match; [done..| |].
    { by eapply stops_word, paren_space. }
    pass_word Hopens. pass "properties". pass_space; [done|]. pass "->>". pass_space; [done|]. pass "'".
    change (chars "'::" ++ chars rest) with (chars "'" ++ chars "::" ++ chars rest).
    rewrite app_assoc, <- chars_app, match_cat. apply group_greedy; [|by apply quoted_Forall|done|].
    { rewrite chars_app. by destruct (chars field). }
    rewrite text_chars. pass "::". rewrite <- (app_nil_r (chars rest)). by pass_word Hrest.
  - unfold group, group1. destruct unique; by simplify_map_eq.
Qed.
