(* ===== verification/GraphSchema.v ===== *)
(** * Statements and schemas of a graph (drivers/pg/query/query.go, drivers/pg/model, graph/schema.go)

    The statements the driver sends to read and to change the schema: kinds,
    graphs, their partitions and the indexes of a partition.  The database and its
    driver are a parameter, the class [Database]; [DatabaseLaws] states what is
    used of them.  [Query_AssertGraph] compares the indexes of a graph with those
    its schema asks for and drops and creates what differs: when its transaction is
    still alive afterwards, the indexes are those of the schema and a second
    comparison finds nothing to do. *)

From S2P Require Import Prelude Kinds IndexDefinitions.
From stdpp Require Import pretty.

(** ** Data *)

Inductive error :=
| ErrNoRows
| ErrDefinition (definition : string)
| ErrConstraintType
| ErrMapKinds (missing : list Kind)
| ErrMapKindIDs (missing : list Z)
| ErrMessage (text : string)
| ErrDriver (code : Z).

#[export] Instance error_eq_dec : EqDecision error.
Proof. solve_decision. Defined.

Record Index := mkIndex { ix_Name : string; ix_Field : string; ix_Type : IndexType }.

(** [type Constraint Index]. *)
Notation Constraint := Index (only parsing).

(** [graph.Graph], the schema of one graph. *)
Record GraphSchema := mkGraphSchema {
  gs_Name : string;
  gs_Nodes : list Kind;
  gs_Edges : list Kind;
  gs_NodeConstraints : list Constraint;
  gs_EdgeConstraints : list Constraint;
  gs_NodeIndexes : list Index;
  gs_EdgeIndexes : list Index
}.

Record Schema := mkSchema { sc_Graphs : list GraphSchema; sc_DefaultGraph : GraphSchema }.

Record GraphPartition := mkPartition {
  gp_Name : string;
  gp_Indexes : gmap string Index;
  gp_Constraints : gmap string Constraint
}.

Record GraphPartitions := mkPartitions { gps_Node : GraphPartition; gps_Edge : GraphPartition }.

(** [model.Graph]. *)
Record GraphModel := mkGraphModel { gm_ID : Z; gm_Name : string; gm_Partitions : GraphPartitions }.

Record IndexChangeSet := mkChanges {
  NodeIndexesToRemove : list string;
  EdgeIndexesToRemove : list string;
  NodeConstraintsToRemove : list string;
  EdgeConstraintsToRemove : list string;
  NodeIndexesToAdd : gmap string Index;
  EdgeIndexesToAdd : gmap string Index;
  NodeConstraintsToAdd : gmap string Constraint;
  EdgeConstraintsToAdd : gmap string Constraint
}.

Definition NodeTable : string := "node".
Definition EdgeTable : string := "edge".

Definition partitionTableName (parent : string) (graphID : Z) : string := parent +:+ "_" +:+ pretty graphID.
Definition NodePartitionTableName (graphID : Z) : string := partitionTableName NodeTable graphID.
Definition EdgePartitionTableName (graphID : Z) : string := partitionTableName EdgeTable graphID.

Definition IndexName (table : string) (index : Index) : string := table +:+ "_" +:+ ix_Field index +:+ "_index".
Definition ConstraintName (table : string) (constraint : Constraint) : string :=
  table +:+ "_" +:+ ix_Field constraint +:+ "_constraint".

Definition NewGraphPartition (name : string) : GraphPartition := mkPartition name ∅ ∅.

Definition NewGraphPartitionFromSchema (name : string) (indexes : list Index) (constraints : list Constraint) : GraphPartition :=
  mkPartition name
    (foldl (fun m index => <[IndexName name index := index]> m) ∅ indexes)
    (foldl (fun m constraint => <[ConstraintName name constraint := constraint]> m) ∅ constraints).

(** ** The database *)

(** The statements, by the columns their rows are scanned into; arguments are
    the ones the driver passes.  The last four are formatted as text.
    [SqlSelectKindID] is the text of select_table_indexes.sql, which the variable of
    that name is loaded with, and its only argument is the name of a kind. *)
Inductive statement : Type -> Type :=
| SqlSelectKinds : statement (Z * string)
| SqlInsertKind (name : string) : statement Z
| SqlSelectKindID (name : string) : statement Z
| SqlSelectGraphs : statement (Z * string)
| SqlSelectGraphByName (name : string) : statement Z
| SqlInsertGraph (name : string) : statement Z
| SqlSelectTableIndexes (tablename : string) : statement string
| SqlSchemaUp : statement unit
| SqlSchemaDown : statement unit
| SqlCreatePartitionTable (name parent : string) (graphID : Z) : statement unit
| SqlCreatePropertyIndex (indexName tableName fieldName : string) (indexType : IndexType) : statement unit
| SqlCreatePropertyConstraint (constraintName tableName fieldName : string) (indexType : IndexType) : statement unit
| SqlDropIndex (name : string) : statement unit.

(** A [graph.Result]: the rows [Next] goes through, each with the outcome of
    [Scan], and what [Error] answers before ([false]) and after ([true]) [Next]
    has returned false. *)
Record Result (R : Type) := mkResult { rows : list (R + error); Result_Error : bool -> option error }.
Arguments mkResult {R}.
Arguments rows {R}.
Arguments Result_Error {R}.

(** A connection, within a transaction or not.  [Acquire] and [BeginTx] may fail
    before a transaction starts; [Commit before now] and [Rollback before now] end
    one that started in the state [before] and is in the state [now]. *)
Class Database (DB : Type) := {
  Raw : forall {R}, statement R -> DB -> DB * Result R;
  Acquire : DB -> option error;
  BeginTx : DB -> option error;
  Commit : DB -> DB -> DB * option error;
  Rollback : DB -> DB -> DB;
}.

(** The order in which [range] goes through a map. *)
Class MapRange := {
  range : forall {A}, gmap string A -> list (string * A);
  range_perm : forall {A} (m : gmap string A), range m ≡ₚ map_to_list m;
}.

(** Code that talks to the database, may fail and may panic. *)
Definition M (DB A : Type) : Type := DB -> outcome (DB * (A + error)).

#[export] Instance M_ret DB : MRet (M DB) := fun A a db => Done (db, inl a).
#[export] Instance M_bind DB : MBind (M DB) := fun A B f m db =>
  match m db with
  | Done (db', inl a) => f a db'
  | Done (db', inr e) => Done (db', inr e)
  | Panic => Panic
  | Spent => Spent
  end.
Definition fails {DB A} (e : error) : M DB A := fun db => Done (db, inr e).

(** ** Queries *)

Section query.
Context {DB : Type} `{Database DB} `{MapRange}.

Definition send {R} (st : statement R) : M DB (Result R) := fun db =>
  let '(db', r) := Raw st db in Done (db', inl r).

Definition error_or {A} (e : option error) (a : A) : M DB A :=
  match e with Some e => fails e | None => mret a end.

(** [Error] is asked before the rows are read or closed. *)
Definition Query_exec (st : statement unit) : M DB unit :=
  result ← send st; error_or (Result_Error result false) tt.

(** A loop over the rows that stops at the first [Scan] that fails. *)
Fixpoint scan_all {R} (l : list (R + error)) : list R + error :=
  match l with
  | [] => inl []
  | inr e :: _ => inr e
  | inl row :: l' => match scan_all l' with inl t => inl (row :: t) | inr e => inr e end
  end.

Definition select_rows {R} (st : statement R) : M DB (list R) :=
  result ← send st;
  match scan_all (rows result) with
  | inr e => fails e
  | inl l => error_or (Result_Error result true) l
  end.

(** The first row, scanned; [None] is a [Next] that returned false. *)
Definition first_row {R} (result : Result R) : M DB (option R) :=
  match rows result with
  | [] => mret None
  | inr e :: _ => fails e
  | inl row :: _ => mret (Some row)
  end.

Definition Query_SelectKinds : M DB (gmap Kind Z) :=
  l ← select_rows SqlSelectKinds;
  mret (foldl (fun (kinds : gmap Kind Z) row => <[Some row.2 := row.1]> kinds) ∅ l).

(** [kind.String()] of a nil kind panics. *)
Definition Query_InsertOrGetKind (kind : Kind) : M DB Z := fun db =>
  name ← Kind_String kind;
  (result ← send (SqlInsertKind name);
   row ← first_row result;
   match row with None => fails ErrNoRows | Some kindID => error_or (Result_Error result false) kindID end) db.

Definition Query_SelectKindID (kind : Kind) : M DB Z := fun db =>
  name ← Kind_String kind;
  (result ← send (SqlSelectKindID name);
   row ← first_row result;
   match row with None => fails ErrNoRows | Some kindID => error_or (Result_Error result false) kindID end) db.

Definition Query_SelectTableIndexDefinitions (tableName : string) : M DB (list string) :=
  l ← select_rows (SqlSelectTableIndexes tableName); mret (ToLower <$> l).

(** One definition of the catalog read into a partition. *)
Definition describe_definition (p : GraphPartition) (tableIndexDefinition : string) : GraphPartition + error :=
  match FindStringSubmatch pgPropertyIndexRegex tableIndexDefinition with
  | None =>
      if negb (MatchString pgColumnIndexRegex tableIndexDefinition) then inr (ErrDefinition tableIndexDefinition)
      else inl p
  | Some captureGroups =>
      let indexName := group captureGroups 2 in
      let index := mkIndex indexName (group captureGroups 4) (parsePostgresIndexType (group captureGroups 3)) in
      if decide (group captureGroups 1 = pgIndexUniqueStr)
      then inl (mkPartition (gp_Name p) (gp_Indexes p) (<[indexName := index]> (gp_Constraints p)))
      else inl (mkPartition (gp_Name p) (<[indexName := index]> (gp_Indexes p)) (gp_Constraints p))
  end.

Fixpoint describe_definitions (p : GraphPartition) (l : list string) : GraphPartition + error :=
  match l with
  | [] => inl p
  | d :: l' => match describe_definition p d with inl p' => describe_definitions p' l' | inr e => inr e end
  end.

Definition Query_describeGraphPartition (name : string) : M DB GraphPartition :=
  l ← Query_SelectTableIndexDefinitions name;
  match describe_definitions (NewGraphPartition name) l with inl p => mret p | inr e => fails e end.

Definition Query_selectGraphPartitions (graphID : Z) : M DB GraphPartitions :=
  nodePartition ← Query_describeGraphPartition (NodePartitionTableName graphID);
  edgePartition ← Query_describeGraphPartition (EdgePartitionTableName graphID);
  mret (mkPartitions nodePartition edgePartition).

Definition no_partitions : GraphPartitions := mkPartitions (mkPartition "" ∅ ∅) (mkPartition "" ∅ ∅).
Definition no_graph : GraphModel := mkGraphModel 0 "" no_partitions.

Definition Query_selectGraphPartialByName (name : string) : M DB GraphModel :=
  result ← send (SqlSelectGraphByName name);
  row ← first_row result;
  match row with
  | None => fails ErrNoRows
  | Some graphID => error_or (Result_Error result false) (mkGraphModel graphID name no_partitions)
  end.

Definition with_partitions (definition : GraphModel) (p : GraphPartitions) : GraphModel :=
  mkGraphModel (gm_ID definition) (gm_Name definition) p.

Definition Query_SelectGraphByName (name : string) : M DB GraphModel :=
  definition ← Query_selectGraphPartialByName name;
  graphPartitions ← Query_selectGraphPartitions (gm_ID definition);
  mret (with_partitions definition graphPartitions).

Definition Query_selectGraphPartials : M DB (list GraphModel) :=
  l ← select_rows SqlSelectGraphs;
  mret ((fun '(graphID, graphName) => mkGraphModel graphID graphName no_partitions) <$> l).

Fixpoint select_graphs (indexed : gmap string GraphModel) (definitions : list GraphModel) : M DB (gmap string GraphModel) :=
  match definitions with
  | [] => mret indexed
  | definition :: definitions' =>
      graphPartitions ← Query_selectGraphPartitions (gm_ID definition);
      select_graphs (<[gm_Name definition := with_partitions definition graphPartitions]> indexed) definitions'
  end.

Definition Query_SelectGraphs : M DB (gmap string GraphModel) :=
  definitions ← Query_selectGraphPartials; select_graphs ∅ definitions.

Definition Query_CreatePropertyIndex (indexName tableName fieldName : string) (indexType : IndexType) : M DB unit :=
  Query_exec (SqlCreatePropertyIndex indexName tableName fieldName indexType).

Definition Query_CreatePropertyConstraint (indexName tableName fieldName : string) (indexType : IndexType) : M DB unit :=
  if decide (indexType <> BTreeIndex) then fails ErrConstraintType
  else Query_exec (SqlCreatePropertyConstraint indexName tableName fieldName indexType).

Definition Query_DropIndex (indexName : string) : M DB unit := Query_exec (SqlDropIndex indexName).
Definition Query_DropConstraint (constraintName : string) : M DB unit := Query_exec (SqlDropIndex constraintName).
Definition Query_CreateSchema : M DB unit := Query_exec SqlSchemaUp.
Definition Query_DropSchema : M DB unit := Query_exec SqlSchemaDown.

(** Without a row the zero value is returned with whatever [Error] answers. *)
Definition Query_insertGraph (name : string) : M DB GraphModel :=
  result ← send (SqlInsertGraph name);
  row ← first_row result;
  match row with
  | None => error_or (Result_Error result true) no_graph
  | Some graphID => mret (mkGraphModel graphID name no_partitions)
  end.

Definition Query_CreatePartitionTable (name parent : string) (graphID : Z) : M DB GraphPartition :=
  _ ← Query_exec (SqlCreatePartitionTable name parent graphID);
  mret (mkPartition name ∅ ∅).

(** ** Changes of the indexes *)

Fixpoint for_each {A} (f : A -> M DB unit) (l : list A) : M DB unit :=
  match l with
  | [] => mret tt
  | x :: l' => _ ← f x; for_each f l'
  end.

Definition Query_assertGraphPartitionIndexes (partitions : GraphPartitions) (indexChanges : IndexChangeSet) : M DB unit :=
  _ ← for_each Query_DropIndex (NodeIndexesToRemove indexChanges ++ EdgeIndexesToRemove indexChanges);
  _ ← for_each Query_DropConstraint (NodeConstraintsToRemove indexChanges ++ EdgeConstraintsToRemove indexChanges);
  _ ← for_each (fun '(indexName, index) =>
        Query_CreatePropertyIndex indexName (gp_Name (gps_Node partitions)) (ix_Field index) (ix_Type index))
        (range (NodeIndexesToAdd indexChanges));
  _ ← for_each (fun '(constraintName, constraint) =>
        Query_CreatePropertyConstraint constraintName (gp_Name (gps_Node partitions)) (ix_Field constraint) (ix_Type constraint))
        (range (NodeConstraintsToAdd indexChanges));
  _ ← for_each (fun '(indexName, index) =>
        Query_CreatePropertyIndex indexName (gp_Name (gps_Edge partitions)) (ix_Field index) (ix_Type index))
        (range (EdgeIndexesToAdd indexChanges));
  for_each (fun '(constraintName, constraint) =>
        Query_CreatePropertyConstraint constraintName (gp_Name (gps_Edge partitions)) (ix_Field constraint) (ix_Type constraint))
        (range (EdgeConstraintsToAdd indexChanges)).

(** The turn of the loop over the required indexes: one that is missing is to be
    created, one of another type is to be dropped first. *)
Definition change_index (present : gmap string Index) (changes : list string * gmap string Index)
    (required : string * Index) : list string * gmap string Index :=
  let '(remove, add) := changes in
  let '(name, index) := required in
  match present !! name with
  | None => (remove, <[name := index]> add)
  | Some presentIndex =>
      if decide (ix_Type index <> ix_Type presentIndex) then (remove ++ [name], <[name := index]> add)
      else (remove, add)
  end.

(** The two loops over one map of a partition: what is present and not required,
    then what is required. *)
Definition index_changes (present required : gmap string Index) : list string * gmap string Index :=
  let unwanted := (filter (fun '(name, _) => required !! name = None) (range present)).*1 in
  foldl (change_index present) (unwanted, ∅) (range required).

Definition NewIndexChangeSet : IndexChangeSet := mkChanges [] [] [] [] ∅ ∅ ∅ ∅.

(** The partitions a schema asks for, under the names of the partitions at hand. *)
Definition required_partitions (schema : GraphSchema) (partitions : GraphPartitions) : GraphPartitions :=
  mkPartitions
    (NewGraphPartitionFromSchema (gp_Name (gps_Node partitions)) (gs_NodeIndexes schema) (gs_NodeConstraints schema))
    (NewGraphPartitionFromSchema (gp_Name (gps_Edge partitions)) (gs_EdgeIndexes schema) (gs_EdgeConstraints schema)).

(** The comparison of what is required with what is present. *)
Definition graph_changes (required partitions : GraphPartitions) : M DB IndexChangeSet :=
  presentNodePartition ← Query_describeGraphPartition (gp_Name (gps_Node partitions));
  let '(nir, nia) := index_changes (gp_Indexes presentNodePartition) (gp_Indexes (gps_Node required)) in
  let '(ncr, nca) := index_changes (gp_Constraints presentNodePartition) (gp_Constraints (gps_Node required)) in
  presentEdgePartition ← Query_describeGraphPartition (gp_Name (gps_Edge partitions));
  let '(eir, eia) := index_changes (gp_Indexes presentEdgePartition) (gp_Indexes (gps_Edge required)) in
  let '(ecr, eca) := index_changes (gp_Constraints presentEdgePartition) (gp_Constraints (gps_Edge required)) in
  mret (mkChanges nir eir ncr ecr nia eia nca eca).

Definition Query_AssertGraph (schema : GraphSchema) (definition : GraphModel) : M DB GraphModel :=
  let required := required_partitions schema (gm_Partitions definition) in
  indexChangeSet ← graph_changes required (gm_Partitions definition);
  _ ← Query_assertGraphPartitionIndexes (gm_Partitions definition) indexChangeSet;
  mret (mkGraphModel (gm_ID definition) (gm_Name definition) required).

Definition Query_createGraphPartitions (definition : GraphModel) : M DB GraphModel :=
  nodePartition ← Query_CreatePartitionTable (NodePartitionTableName (gm_ID definition)) NodeTable (gm_ID definition);
  edgePartition ← Query_CreatePartitionTable (EdgePartitionTableName (gm_ID definition)) EdgeTable (gm_ID definition);
  mret (with_partitions definition (mkPartitions nodePartition edgePartition)).

Definition Query_CreateGraph (schema : GraphSchema) : M DB GraphModel :=
  definition ← Query_insertGraph (gs_Name schema);
  definition ← Query_createGraphPartitions definition;
  Query_AssertGraph schema definition.

End query.

(** ** What is used of the database *)

(** An index as the catalog has it: over a property of a row, which is what the
    driver creates, or over columns. *)
Inductive pgindex :=
| PropertyIndex (table : string) (unique : bool) (type : IndexType) (field : string)
| ColumnIndex (table definition : string).

#[export] Instance pgindex_eq_dec : EqDecision pgindex.
Proof. solve_decision. Defined.

Definition pgindex_table (ix : pgindex) : string :=
  match ix with PropertyIndex t _ _ _ => t | ColumnIndex t _ => t end.

(** Lower-case letters, digits and underscores. *)
Definition plain (c : Ascii.ascii) : bool :=
  let n := Ascii.nat_of_ascii c in
  bool_decide (97 <= n <= 122) || bool_decide (48 <= n <= 57) || bool_decide (n = 95).

(** Names that PostgreSQL takes as they are: it folds other letters and cuts
    names after 63 bytes. *)
Definition identifier (s : string) : Prop := some_of plain s = true /\ String.length s <= 63.

Definition column_definition (definition : string) : Prop :=
  FindStringSubmatch pgPropertyIndexRegex (ToLower definition) = None.

(** The part of the state of a database the statements are about: whether the
    transaction has not been aborted by a statement that failed, and the tables of
    kinds and graphs and the catalog of indexes as the transaction sees them. *)
Class Catalog (DB : Type) := {
  alive : DB -> Prop;
  kinds_of : DB -> gmap string Z;
  graphs_of : DB -> gmap string Z;
  indexes_of : DB -> gmap string pgindex;
  ident : string -> string;
  indexdef : string -> pgindex -> string;
}.

Definition keeps_kinds {R} (st : statement R) : bool :=
  match st with SqlSchemaDown => false | _ => true end.
Definition keeps_graphs {R} (st : statement R) : bool :=
  match st with SqlInsertGraph _ | SqlSchemaDown => false | _ => true end.
Definition keeps_indexes {R} (st : statement R) : bool :=
  match st with
  | SqlSelectKinds | SqlInsertKind _ | SqlSelectKindID _ | SqlSelectGraphs | SqlSelectGraphByName _
  | SqlInsertGraph _ | SqlSelectTableIndexes _ => true
  | _ => false
  end.

(** Kinds may be added by other sessions at any time and are never removed or
    renamed; graphs and indexes are changed by this session only.  An insert of a
    kind answers no row when another session has inserted it meanwhile.  A named
    argument that is not given is null, and no table has that name.  A statement that
    has failed says so once its rows are read, and an insert that failed answers no
    row. *)
Class DatabaseLaws (DB : Type) `{Database DB} `{Catalog DB} : Prop := {
  raw_alive {R} (st : statement R) db db' r : Raw st db = (db', r) -> alive db' -> alive db;
  raw_kinds {R} (st : statement R) db db' r :
    Raw st db = (db', r) -> alive db' -> keeps_kinds st = true -> kinds_of db ⊆ kinds_of db';
  raw_graphs {R} (st : statement R) db db' r :
    Raw st db = (db', r) -> alive db' -> keeps_graphs st = true -> graphs_of db' = graphs_of db;
  raw_indexes {R} (st : statement R) db db' r :
    Raw st db = (db', r) -> alive db' -> keeps_indexes st = true -> indexes_of db' = indexes_of db;
  raw_read {R} (st : statement R) db db' r : Raw st db = (db', r) -> Result_Error r true = None -> alive db';
  insert_kind_alive name db db' r id l :
    Raw (SqlInsertKind name) db = (db', r) -> rows r = inl id :: l -> alive db';
  kinds_inj db n1 n2 i : kinds_of db !! n1 = Some i -> kinds_of db !! n2 = Some i -> n1 = n2;
  select_kinds_rows db db' r :
    Raw SqlSelectKinds db = (db', r) -> alive db' ->
    exists l, rows r = inl <$> l /\ l ≡ₚ (fun '(n, i) => (i, n)) <$> map_to_list (kinds_of db');
  insert_kind_rows name db db' r :
    Raw (SqlInsertKind name) db = (db', r) -> alive db' ->
    rows r = [] \/ exists id, rows r = [inl id] /\ kinds_of db' !! name = Some id;
  select_kind_id_rows name db db' r :
    Raw (SqlSelectKindID name) db = (db', r) -> alive db' -> rows r = [];
  select_graph_rows name db db' r :
    Raw (SqlSelectGraphByName name) db = (db', r) -> alive db' ->
    rows r = match graphs_of db' !! name with Some id => [inl id] | None => [] end;
  insert_graph_rows name db db' r :
    Raw (SqlInsertGraph name) db = (db', r) -> alive db' ->
    exists id, rows r = [inl id] /\ graphs_of db !! name = None /\ graphs_of db' = <[name := id]> (graphs_of db);
  create_partition name parent id db db' r :
    Raw (SqlCreatePartitionTable name parent id) db = (db', r) -> alive db' ->
    exists extra, indexes_of db' = indexes_of db ∪ extra /\
      map_Forall (fun _ ix => exists d, ix = ColumnIndex (ident name) d /\ column_definition d) extra;
  create_index name table field type db db' r :
    Raw (SqlCreatePropertyIndex name table field type) db = (db', r) -> alive db' ->
    indexes_of db !! ident name = None /\
    indexes_of db' = <[ident name := PropertyIndex (ident table) false type field]> (indexes_of db);
  create_constraint name table field type db db' r :
    Raw (SqlCreatePropertyConstraint name table field type) db = (db', r) -> alive db' ->
    indexes_of db !! ident name = None /\
    indexes_of db' = <[ident name := PropertyIndex (ident table) true type field]> (indexes_of db);
  drop_index name db db' r :
    Raw (SqlDropIndex name) db = (db', r) -> alive db' -> indexes_of db' = delete (ident name) (indexes_of db);
  table_indexes_rows table db db' r :
    Raw (SqlSelectTableIndexes table) db = (db', r) -> alive db' ->
    exists l, rows r = inl <$> l /\
      l ≡ₚ (fun '(n, ix) => indexdef n ix) <$> filter (fun '(_, ix) => pgindex_table ix = table) (map_to_list (indexes_of db'));
  ident_plain s : identifier s -> ident s = s;
  indexdef_property name table unique type field :
    identifier name -> identifier table -> all plain field = true -> supported type ->
    exists qualified opens rest,
      ToLower (indexdef name (PropertyIndex table unique type field)) =
        definition_text unique name qualified (postgresIndexType type) opens field rest /\
      readable name qualified (postgresIndexType type) opens field rest;
  indexdef_column name table definition : indexdef name (ColumnIndex table definition) = definition;
  commit_ok before now db' :
    Commit before now = (db', None) ->
    alive now /\ kinds_of now ⊆ kinds_of db' /\ graphs_of db' = graphs_of now /\ indexes_of db' = indexes_of now;
  commit_failed before now db' e : Commit before now = (db', Some e) -> kinds_of before ⊆ kinds_of db';
  rollback_kinds before now : kinds_of before ⊆ kinds_of (Rollback before now);
}.

(** ** Lemmas of the monad *)

Lemma M_bind_inv {DB A B} (m : M DB A) (f : A -> M DB B) db db' b :
  (m ≫= f) db = Done (db', inl b) ->
  exists db1 a, m db = Done (db1, inl a) /\ f a db1 = Done (db', inl b).
Proof.
  unfold mbind, M_bind. destruct (m db) as [[db1 [a|e]]| |] eqn:E; try done.
  intros Hf. by exists db1, a.
Qed.

Lemma scan_all_inl {R} (l : list R) : scan_all (inl <$> l) = inl l.
Proof. induction l as [|x l IH]; [done|]. cbn. by rewrite IH. Qed.

Section laws.
Context {DB : Type} `{HD : Database DB} `{HC : Catalog DB} `{HR : MapRange} `{!DatabaseLaws DB}.

Lemma send_inv {R} (st : statement R) db db' r : send st db = Done (db', inl r) -> Raw st db = (db', r).
Proof. unfold send. destruct (Raw st db). congruence. Qed.

Lemma error_or_inv {A} e (a a' : A) (db db' : DB) :
  error_or e a db = Done (db', inl a') -> e = None /\ db' = db /\ a' = a.
Proof. destruct e; cbn; [done|]. unfold mret, M_ret. intros [= -> ->]. done. Qed.

Lemma select_rows_inv {R} (st : statement R) db db' l :
  select_rows st db = Done (db', inl l) ->
  exists r, Raw st db = (db', r) /\ scan_all (rows r) = inl l.
Proof.
  intros (db1 & r & Hsend%send_inv & Hl)%M_bind_inv. exists r.
  destruct (scan_all (rows r)) eqn:E; [|done]. by apply error_or_inv in Hl as (_ & -> & ->).
Qed.

Lemma exec_inv (st : statement unit) db db' u :
  Query_exec st db = Done (db', inl u) -> exists r, Raw st db = (db', r).
Proof.
  intros (db1 & r & Hsend%send_inv & Hl)%M_bind_inv. apply error_or_inv in Hl as (_ & -> & _). by exists r.
Qed.

End laws.
