(* ===== verification/SmallDatabase.v ===== *)
(** * A database that keeps the laws

    A database small enough to run: names of kinds in the order of their insertion,
    graphs likewise, a catalog of indexes, the number of kinds that may still be
    inserted, and whether the transaction has been aborted.  A statement that fails
    aborts the transaction; [Error] tells so only after the rows are read, as pgx
    documents.  It shows that the laws of [DatabaseLaws] can be kept and is what the
    examples of the files that use them run on. *)

From S2P Require Import Prelude Kinds IndexDefinitions GraphSchema.
From stdpp Require Import pretty.

Record SmallDB := mkDB {
  db_kinds : list string;
  db_graphs : list string;
  db_indexes : gmap string pgindex;
  db_room : nat;
  db_alive : bool
}.

Definition numbered (l : list string) : gmap string Z := list_to_map (imap (fun i n => (n, Z.of_nat i)) l).

Definition set_indexes (db : SmallDB) (m : gmap string pgindex) : SmallDB :=
  mkDB (db_kinds db) (db_graphs db) m (db_room db) (db_alive db).

Definition abort (db : SmallDB) : SmallDB :=
  mkDB (db_kinds db) (db_graphs db) (db_indexes db) (db_room db) false.

Definition fold_ident (s : string) : string := text (take 63 (chars (ToLower s))).

Definition show_index (name : string) (ix : pgindex) : string :=
  match ix with
  | PropertyIndex t u ty f =>
      "CREATE " +:+ (if u then "UNIQUE " else "") +:+ "INDEX " +:+ name +:+ " ON public." +:+ t +:+
      " USING " +:+ postgresIndexType ty +:+ " (((" +:+ "properties ->> '" +:+ f +:+ "'::" +:+ "text))" +:+
      (if decide (ty = TextSearchIndex) then " gin_trgm_ops)" else ")")
  | ColumnIndex _ d => d
  end.

Definition answer {R} (l : list R) : Result R := mkResult (inl <$> l) (fun _ => None).
Definition failed {R} : Result R := mkResult [] (fun read => if read then Some (ErrDriver 1) else None).

Definition small_create (name table field : string) (unique : bool) (ty : IndexType) (db : SmallDB) : SmallDB :=
  match db_indexes db !! fold_ident name with
  | None => set_indexes db (<[fold_ident name := PropertyIndex (fold_ident table) unique ty field]> (db_indexes db))
  | Some _ => abort db
  end.

Definition result_of {R} (db : SmallDB) (l : list R) : Result R := if db_alive db then answer l else failed.

Definition small_step {R} (st : statement R) (db : SmallDB) : SmallDB :=
  match st with
  | SqlInsertKind name =>
      if decide (name ∈ db_kinds db) then db
      else match db_room db with
           | O => abort db
           | S room => mkDB (db_kinds db ++ [name]) (db_graphs db) (db_indexes db) room true
           end
  | SqlInsertGraph name =>
      if decide (name ∈ db_graphs db) then abort db
      else mkDB (db_kinds db) (db_graphs db ++ [name]) (db_indexes db) (db_room db) true
  | SqlSchemaDown => mkDB [] [] ∅ (db_room db) true
  | SqlCreatePropertyIndex name table field ty => small_create name table field false ty db
  | SqlCreatePropertyConstraint name table field ty => small_create name table field true ty db
  | SqlDropIndex name => set_indexes db (delete (fold_ident name) (db_indexes db))
  | _ => db
  end.

Definition small_rows {R} (st : statement R) (db : SmallDB) : list R :=
  match st with
  | SqlSelectKinds => (fun '(n, i) => (i, n)) <$> map_to_list (numbered (db_kinds db))
  | SqlInsertKind name => option_list (numbered (db_kinds db) !! name)
  | SqlSelectGraphs => (fun '(n, i) => (i, n)) <$> map_to_list (numbered (db_graphs db))
  | SqlSelectGraphByName name => option_list (numbered (db_graphs db) !! name)
  | SqlInsertGraph name => option_list (numbered (db_graphs db) !! name)
  | SqlSelectTableIndexes table =>
      (fun '(n, ix) => show_index n ix) <$> filter (fun '(_, ix) => pgindex_table ix = table) (map_to_list (db_indexes db))
  | _ => []
  end.

#[export] Instance SmallDB_Database : Database SmallDB := {
  Raw R st db :=
    let db' := if db_alive db then small_step st db else db in
    (db', result_of db' (small_rows st db'));
  Acquire _ := None;
  BeginTx _ := None;
  Commit before now := if db_alive now then (now, None) else (before, Some (ErrDriver 2));
  Rollback before now := before;
}.

#[export] Instance SmallDB_Catalog : Catalog SmallDB := {
  alive db := db_alive db = true;
  kinds_of db := numbered (db_kinds db);
  graphs_of db := numbered (db_graphs db);
  indexes_of := db_indexes;
  ident := fold_ident;
  indexdef := show_index;
}.

#[export] Instance map_to_list_range : MapRange := {
  range A m := map_to_list m;
  range_perm A m := Permutation_refl (map_to_list m);
}.

(** ** The laws *)

Lemma numbered_Some l n i : numbered l !! n = Some i -> exists k, i = Z.of_nat k /\ l !! k = Some n.
Proof.
  unfold numbered. intros Hl%elem_of_list_to_map_2. apply elem_of_lookup_imap in Hl as (k & x & [= -> ->] & Hk).
  by exists k.
Qed.

Lemma numbered_app l n : n ∉ l -> numbered (l ++ [n]) = <[n := Z.of_nat (length l)]> (numbered l).
Proof.
  intros Hn. unfold numbered. rewrite imap_app. cbn. rewrite list_to_map_app. cbn. rewrite Nat.add_0_r.
  apply map_eq. intros m. destruct (decide (m = n)) as [->|Hne].
  - rewrite lookup_insert_eq, lookup_union_r; [by rewrite lookup_insert_eq|].
    apply not_elem_of_list_to_map_1. intros ([? ?] & -> & (k & x & [= -> ->] & Hk)%elem_of_lookup_imap)%list_elem_of_fmap.
    by apply list_elem_of_lookup_2 in Hk.
  - rewrite lookup_insert_ne by done. rewrite lookup_union. by rewrite lookup_insert_ne, lookup_empty, (right_id_L None _) by done.
Qed.

Lemma numbered_elem l n : n ∈ l -> is_Some (numbered l !! n).
Proof.
  intros [k Hk]%list_elem_of_lookup_1. apply not_eq_None_Some. intros Hnone.
  apply not_elem_of_list_to_map_2 in Hnone. apply Hnone, list_elem_of_fmap.
  exists (n, Z.of_nat k). split; [done|]. apply elem_of_lookup_imap. by exists k, n.
Qed.

Lemma plain_lower c : plain c = true -> lower c = c.
Proof.
  unfold plain, lower. intros H. rewrite !orb_true_iff, !bool_decide_eq_true in H. rewrite decide_False; [done|lia].
Qed.

Lemma plain_nonspace c : plain c = true -> nonspace c = true.
Proof.
  unfold plain, nonspace, space. intros H. rewrite !orb_true_iff, !bool_decide_eq_true in H.
  rewrite bool_decide_false; [done|]. rewrite !elem_of_cons, elem_of_nil. lia.
Qed.

Lemma plain_except c : plain c = true -> except (Ascii.ascii_of_nat 58) c = true.
Proof.
  unfold except. intros H. apply bool_decide_eq_true. intros ->. done.
Qed.

Lemma all_impl (p q : Ascii.ascii -> bool) s :
  (forall c, p c = true -> q c = true) -> all p s = true -> all q s = true.
Proof. unfold all. rewrite !forallb_forall. intros Himp H c Hc. by apply Himp, H. Qed.

Lemma some_of_impl (p q : Ascii.ascii -> bool) s :
  (forall c, p c = true -> q c = true) -> some_of p s = true -> some_of q s = true.
Proof.
  unfold some_of. rewrite !andb_true_iff. intros Himp [Hne Hall]. split; [done|]. by eapply all_impl.
Qed.

Lemma ToLower_plain s : all plain s = true -> ToLower s = s.
Proof.
  intros H%all_Forall. unfold ToLower. rewrite <- (text_chars s) at 2. f_equal.
  induction H as [|c l Hc _ IH]; [done|]. cbn. by rewrite plain_lower, IH.
Qed.

Lemma ToLower_app s t : ToLower (s +:+ t) = ToLower s +:+ ToLower t.
Proof.
  unfold ToLower. rewrite chars_app, fmap_app. unfold text.
  induction (lower <$> chars s) as [|c l IH]; [done|].
  cbn [app String.string_of_list_ascii]. rewrite IH. done.
Qed.

Lemma chars_length s : length (chars s) = String.length s.
Proof. induction s as [|c s IH]; [done|]. cbn. f_equal. exact IH. Qed.

Lemma fold_ident_plain s : identifier s -> fold_ident s = s.
Proof.
  intros [[_ Hall]%andb_true_iff Hlen]. unfold fold_ident. rewrite ToLower_plain by done.
  rewrite take_ge by (by rewrite chars_length). apply text_chars.
Qed.

Lemma show_index_property name table unique type field :
  identifier name -> identifier table -> all plain field = true -> supported type ->
  exists qualified opens rest,
    ToLower (show_index name (PropertyIndex table unique type field)) =
      definition_text unique name qualified (postgresIndexType type) opens field rest /\
    readable name qualified (postgresIndexType type) opens field rest.
Proof.
  intros [Hname _] [Htable _] Hfield Htype.
  pose proof (proj2 (proj1 (andb_true_iff _ _) Hname)) as Hn. pose proof (proj2 (proj1 (andb_true_iff _ _) Htable)) as Ht.
  exists ("public." +:+ table), "(((", ("text))" +:+ (if decide (type = TextSearchIndex) then " gin_trgm_ops)" else ")")).
  split.
  - unfold show_index. rewrite !ToLower_app, (ToLower_plain name Hn), (ToLower_plain table Ht), (ToLower_plain field Hfield).
    unfold definition_text. destruct unique, Htype as [-> | ->]; reflexivity.
  - split_and!; [by eapply some_of_impl, Hname; apply plain_nonspace| | |done| |].
    + unfold some_of, all. rewrite chars_app, forallb_app, !andb_true_iff. split_and!; [done|done|].
      eapply all_impl, Ht. apply plain_nonspace.
    + by destruct Htype as [-> | ->].
    + eapply all_impl, Hfield. apply plain_except.
    + by destruct Htype as [-> | ->].
Qed.

Lemma small_raw_inv {R} (st : statement R) (db db' : SmallDB) r :
  Raw st db = (db', r) -> db_alive db' = true ->
  db_alive db = true /\ db' = small_step st db /\ r = answer (small_rows st db').
Proof.
  unfold Raw, SmallDB_Database. destruct (db_alive db) eqn:E; intros [= <- <-] Ha; [|congruence].
  split_and!; [done|done|]. unfold result_of. by rewrite Ha.
Qed.

Lemma small_create_inv name table field unique ty db :
  db_alive (small_create name table field unique ty db) = true ->
  db_indexes db !! fold_ident name = None /\
  small_create name table field unique ty db =
    set_indexes db (<[fold_ident name := PropertyIndex (fold_ident table) unique ty field]> (db_indexes db)).
Proof. unfold small_create. by destruct (db_indexes db !! fold_ident name). Qed.

Lemma create_kinds name table field unique ty db :
  db_kinds (small_create name table field unique ty db) = db_kinds db /\
  db_graphs (small_create name table field unique ty db) = db_graphs db.
Proof. unfold small_create. by destruct (db_indexes db !! fold_ident name). Qed.

(** Statements that keep a table keep it; kinds are only added. *)
Lemma small_step_kinds {R} (st : statement R) db :
  keeps_kinds st = true -> numbered (db_kinds db) ⊆ numbered (db_kinds (small_step st db)).
Proof.
  destruct st; cbn; try done; intros _.
  - case_decide as Hin; [done|]. destruct (db_room db); [done|]. cbn [db_kinds]. rewrite numbered_app by done.
    apply insert_subseteq, not_elem_of_list_to_map_1.
    intros ([? ?] & -> & (k & x & [= -> ->] & Hk)%elem_of_lookup_imap)%list_elem_of_fmap.
    by apply list_elem_of_lookup_2 in Hk.
  - by case_decide.
  - by rewrite (proj1 (create_kinds _ _ _ _ _ _)).
  - by rewrite (proj1 (create_kinds _ _ _ _ _ _)).
Qed.

Lemma small_step_graphs {R} (st : statement R) db :
  keeps_graphs st = true -> db_graphs (small_step st db) = db_graphs db.
Proof.
  destruct st; cbn; try done; intros _; [|apply create_kinds..].
  case_decide; [done|]. by destruct (db_room db).
Qed.

Lemma small_step_indexes {R} (st : statement R) db :
  keeps_indexes st = true -> db_indexes (small_step st db) = db_indexes db.
Proof. destruct st; cbn; try done; intros _; case_decide; try done. by destruct (db_room db). Qed.

Lemma small_insert_graph name db :
  db_alive (small_step (SqlInsertGraph name) db) = true -> db_alive db = true ->
  numbered (db_graphs db) !! name = None /\
  numbered (db_graphs (small_step (SqlInsertGraph name) db)) = <[name := Z.of_nat (length (db_graphs db))]> (numbered (db_graphs db)).
Proof.
  cbn. case_decide as Hin; [done|]. cbn. intros _ _. split; [|by apply numbered_app].
  apply eq_None_not_Some. intros [i (k & _ & Hk%list_elem_of_lookup_2)%numbered_Some]. done.
Qed.

#[export] Instance SmallDB_Laws : DatabaseLaws SmallDB.
Proof.
  split.
  - intros R st db db' r H Ha. by apply (small_raw_inv _ _ _ _ H) in Ha as (Ha & _).
  - intros R st db db' r H Ha Hk. apply (small_raw_inv _ _ _ _ H) in Ha as (_ & -> & _). by apply small_step_kinds.
  - intros R st db db' r H Ha Hk. apply (small_raw_inv _ _ _ _ H) in Ha as (_ & -> & _). cbn. by rewrite small_step_graphs.
  - intros R st db db' r H Ha Hk. apply (small_raw_inv _ _ _ _ H) in Ha as (_ & -> & _). by apply small_step_indexes.
  - intros R st db db' r [= <- <-]. unfold result_of. by destruct (db_alive (if db_alive db then _ else _)) eqn:E.
  - intros name db db' r id l [= <- <-]. unfold result_of. by destruct (db_alive (if db_alive db then _ else _)) eqn:E.
  - intros db n1 n2 i (k & -> & H1)%numbered_Some (k' & Hk & H2)%numbered_Some. apply Nat2Z.inj in Hk. congruence.
  - intros db db' r H Ha. apply (small_raw_inv _ _ _ _ H) in Ha as (_ & _ & ->). by eexists.
  - intros name db db' r H Ha. apply (small_raw_inv _ _ _ _ H) in Ha as (_ & _ & ->). cbn.
    destruct (numbered (db_kinds db') !! name) as [id|]; [right; by exists id|by left].
  - intros name db db' r H Ha. by apply (small_raw_inv _ _ _ _ H) in Ha as (_ & _ & ->).
  - intros name db db' r H Ha. apply (small_raw_inv _ _ _ _ H) in Ha as (_ & _ & ->). cbn.
    by destruct (numbered (db_graphs db') !! name).
  - intros name db db' r H Ha. pose proof (small_raw_inv _ _ _ _ H Ha) as (Ha0 & Hdb' & ->).
    rewrite Hdb' in Ha. destruct (small_insert_graph name db Ha Ha0) as [Hnone Heq]. cbn [rows answer small_rows].
    rewrite Hdb'. eexists. split_and!; [|exact Hnone|exact Heq]. by rewrite Heq, lookup_insert_eq.
  - intros name parent id db db' r H Ha. apply (small_raw_inv _ _ _ _ H) in Ha as (_ & -> & _). exists ∅.
    split; [by rewrite (right_id_L ∅ (∪))|apply map_Forall_empty].
  - intros name table field ty db db' r H Ha. pose proof (small_raw_inv _ _ _ _ H Ha) as (_ & -> & _).
    destruct (small_create_inv _ _ _ _ _ _ Ha) as [Hnone Heq]. cbn [small_step]. by rewrite Heq.
  - intros name table field ty db db' r H Ha. pose proof (small_raw_inv _ _ _ _ H Ha) as (_ & -> & _).
    destruct (small_create_inv _ _ _ _ _ _ Ha) as [Hnone Heq]. cbn [small_step]. by rewrite Heq.
  - intros name db db' r H Ha. by apply (small_raw_inv _ _ _ _ H) in Ha as (_ & -> & _).
  - intros table db db' r H Ha. apply (small_raw_inv _ _ _ _ H) in Ha as (_ & _ & ->). by eexists.
  - apply fold_ident_plain.
  - apply show_index_property.
  - done.
  - intros before now db'. cbn. destruct (db_alive now) eqn:E; [|done]. by intros [= <-].
  - intros before now db' e. cbn. destruct (db_alive now) eqn:E; [done|]. by intros [= <-].
  - done.
Qed.
