(* ===== verification/IndexChanges.v ===== *)
(** * The indexes of a graph after its schema is asserted (drivers/pg/query/query.go)

    Theorems about [Query_AssertGraph], over any database that keeps the laws of
    [DatabaseLaws], and a small database that keeps them. *)

From S2P Require Import Prelude Kinds IndexDefinitions GraphSchema SmallDatabase.
From stdpp Require Import pretty.

(** ** Reading the catalog *)

(** The indexes over properties of a table, unique ones or not, with their types. *)
Definition shown (m : gmap string pgindex) (table : string) (unique : bool) : gmap string IndexType :=
  omap (fun ix => match ix with
                  | PropertyIndex t u ty _ => if decide (t = table /\ u = unique) then Some ty else None
                  | ColumnIndex _ _ => None
                  end) m.

Definition described (p : GraphPartition) (unique : bool) : gmap string Index :=
  if unique then gp_Constraints p else gp_Indexes p.

(** Every index over a property has a name, a table and a property the driver
    could have given it, and no other index is taken for one. *)
Definition wf_index (name : string) (ix : pgindex) : Prop :=
  match ix with
  | PropertyIndex t _ ty f => identifier name /\ identifier t /\ all plain f = true /\ supported ty
  | ColumnIndex _ d => column_definition d
  end.
Definition wf_catalog (m : gmap string pgindex) : Prop := map_Forall wf_index m.

Lemma table_NoDup table (m : gmap string pgindex) :
  NoDup (filter (fun '(_, ix) => pgindex_table ix = table) (map_to_list m)).*1.
Proof.
  eapply sublist_NoDup; [apply (NoDup_fst_map_to_list m)|]. apply fmap_sublist, sublist_filter.
Qed.

Lemma shown_table table u (m : gmap string pgindex) :
  shown (list_to_map (filter (fun '(_, ix) => pgindex_table ix = table) (map_to_list m))) table u = shown m table u.
Proof.
  apply map_eq. intros n. unfold shown. rewrite !lookup_omap.
  set (L := filter _ _). assert (HL : forall ix, (list_to_map L : gmap string pgindex) !! n = Some ix <->
    m !! n = Some ix /\ pgindex_table ix = table).
  { intros ix. rewrite <- elem_of_list_to_map by apply table_NoDup. unfold L.
    rewrite list_elem_of_filter, elem_of_map_to_list. naive_solver. }
  destruct (m !! n) as [ix|] eqn:Em, (list_to_map L !! n) as [ix'|] eqn:EL; cbn.
  - destruct (proj1 (HL ix') eq_refl) as [[= ->] _]. done.
  - destruct ix as [t u' ty f|]; [|done]. case_decide as Hd; [|done]. destruct Hd as [-> _].
    discriminate (proj2 (HL _) (conj eq_refl eq_refl)).
  - by destruct (proj1 (HL ix') eq_refl).
  - done.
Qed.

Section catalog.
Context {DB : Type} `{HD : Database DB} `{HC : Catalog DB} `{HR : MapRange} `{!DatabaseLaws DB}.

(** One definition adds its index to the described partition, or nothing. *)
Lemma describe_definition_inv p name ix p' :
  wf_index name ix -> describe_definition p (ToLower (indexdef name ix)) = inl p' ->
  forall u n, ix_Type <$> described p' u !! n =
    match ix with
    | PropertyIndex _ u' ty _ =>
        if decide (n = name /\ u' = u) then Some ty else ix_Type <$> described p u !! n
    | ColumnIndex _ _ => ix_Type <$> described p u !! n
    end.
Proof using Type*.
  destruct ix as [t u' ty f|t d]; unfold describe_definition; cbn [wf_index].
  - intros (Hname & Ht & Hf & Hty).
    destruct (indexdef_property name t u' ty f Hname Ht Hf Hty) as (q & opens & rest & -> & Hread).
    destruct (pgPropertyIndexRegex_reads u' _ _ _ _ _ _ Hread) as (c & -> & H1 & H2 & H3 & H4).
    rewrite H1, H2, H3, parse_postgresIndexType by done. intros Hp u n.
    destruct u'; cbn in Hp; injection Hp as <-; destruct u; cbn;
      destruct (decide (n = name)) as [->|Hne];
      rewrite ?lookup_insert_eq, ?lookup_insert_ne by done; repeat case_decide; naive_solver.
  - rewrite indexdef_column. unfold column_definition. intros ->. case_match; [done|]. by intros [= <-].
Qed.

Lemma describe_definitions_inv table l : forall p p',
  NoDup l.*1 -> Forall (fun '(n, ix) => wf_index n ix /\ pgindex_table ix = table) l ->
  describe_definitions p ((fun '(n, ix) => ToLower (indexdef n ix)) <$> l) = inl p' ->
  forall u n, ix_Type <$> described p' u !! n =
    match shown (list_to_map l) table u !! n with
    | Some ty => Some ty
    | None => ix_Type <$> described p u !! n
    end.
Proof using Type*.
  unfold shown. induction l as [|[name ix] l IH]; intros p p' Hnd Hwf.
  - cbn. intros [= <-] u n. by rewrite lookup_omap, lookup_empty.
  - apply NoDup_cons in Hnd as [Hname Hnd]. apply Forall_cons in Hwf as [[Hix Ht] Hwf].
    cbn [fmap list_fmap describe_definitions]. case_match eqn:E; [|done]. intros Hp' u n.
    rewrite (IH _ _ Hnd Hwf Hp' u n), (describe_definition_inv _ _ _ _ Hix E u n).
    cbn [list_to_map foldr]. cbn. rewrite !lookup_omap.
    destruct (decide (n = name)) as [->|Hne].
    + rewrite lookup_insert_eq, (not_elem_of_list_to_map_1 l name) by done. cbn.
      destruct ix; cbn in Ht; subst; repeat case_decide; naive_solver.
    + rewrite lookup_insert_ne by done. case_match; [done|]. destruct ix; [|done]. rewrite decide_False; [done|naive_solver].
Qed.

(** Describing a partition shows the indexes of its table. *)
Lemma describe_inv table db db' p :
  Query_describeGraphPartition table db = Done (db', inl p) -> alive db' -> wf_catalog (indexes_of db) ->
  alive db /\ indexes_of db' = indexes_of db /\ kinds_of db ⊆ kinds_of db' /\ graphs_of db' = graphs_of db /\
  forall u, ix_Type <$> described p u = shown (indexes_of db) table u.
Proof using Type*.
  intros (db1 & defs & Hsel & Hp)%M_bind_inv Halive Hwf.
  apply M_bind_inv in Hsel as (db2 & l & (r & Hraw & Hscan)%select_rows_inv & [= <- <-]).
  destruct (describe_definitions _ _) as [p1|] eqn:E; [|done]. injection Hp as <- <-.
  destruct (table_indexes_rows _ _ _ _ Hraw Halive) as (l' & Hrows & Hl').
  rewrite Hrows, scan_all_inl in Hscan. injection Hscan as ->.
  pose proof (raw_indexes _ _ _ _ Hraw Halive eq_refl) as Hix.
  split_and!; [by eapply raw_alive|done|by eapply raw_kinds|by eapply raw_graphs|].
  rewrite Hix in Hl'. apply Permutation_map_inv in Hl' as (L & -> & HL).
  pose proof (table_NoDup table (indexes_of db)) as Hnd.
  assert (Hnd' : NoDup L.*1) by (by rewrite <- HL).
  intros u. apply map_eq. intros n. rewrite lookup_fmap.
  change (map ?f L) with (f <$> L) in E. rewrite <- list_fmap_compose in E.
  rewrite (describe_definitions_inv table L (NewGraphPartition table) p1 Hnd').
  - rewrite <- (list_to_map_proper _ _ Hnd HL), shown_table. destruct (shown _ _ _ !! n); [done|].
    by destruct u; cbn; rewrite lookup_empty.
  - rewrite <- HL. apply Forall_forall. intros [m ix] [Ht Hin%elem_of_map_to_list]%list_elem_of_filter.
    split; [by apply Hwf|done].
  - rewrite <- E. f_equal. apply list_fmap_ext. by intros ? [? ?].
Qed.
End catalog.

(** ** What changes *)

(** A required index is created when it is missing or of another type. *)
Definition needed (present : gmap string Index) (name : string) (index : Index) : bool :=
  match present !! name with
  | None => true
  | Some presentIndex => bool_decide (ix_Type index <> ix_Type presentIndex)
  end.

Section changes.
Context `{HR : MapRange}.
Context (present required : gmap string Index).

Lemma change_add remove add name index n :
  (change_index present (remove, add) (name, index)).2 !! n =
    if decide (n = name /\ needed present name index = true) then Some index else add !! n.
Proof using Type.
  unfold change_index, needed. destruct (decide (n = name)) as [->|Hne].
  - destruct (present !! name) as [ix|]; [|by rewrite decide_True; [apply lookup_insert_eq|]].
    case_decide as Hty.
    + rewrite bool_decide_true, decide_True by done. apply lookup_insert_eq.
    + rewrite bool_decide_false, decide_False by (done || naive_solver). done.
  - rewrite decide_False by naive_solver.
    destruct (present !! name) as [ix|]; [case_decide|]; cbn; rewrite ?lookup_insert_ne by done; done.
Qed.

Lemma change_remove remove add name index n :
  n ∈ (change_index present (remove, add) (name, index)).1 <->
    n ∈ remove \/ (n = name /\ is_Some (present !! name) /\ needed present name index = true).
Proof using Type.
  unfold change_index, needed. destruct (present !! name) as [ix|] eqn:E; [case_decide as Hty|]; cbn.
  - rewrite bool_decide_true, elem_of_app, list_elem_of_singleton by done. naive_solver.
  - case_bool_decide; naive_solver.
  - split; [naive_solver|]. intros [|(_ & [? ?] & _)]; done.
Qed.

Lemma changes_fold l : forall remove add remove' add',
  NoDup l.*1 -> foldl (change_index present) (remove, add) l = (remove', add') ->
  (forall n, n ∈ remove' <-> n ∈ remove \/
     exists r, (n, r) ∈ l /\ is_Some (present !! n) /\ needed present n r = true) /\
  (forall n, add' !! n = match (list_to_map l : gmap string Index) !! n with
                         | Some r => if needed present n r then Some r else add !! n
                         | None => add !! n
                         end).
Proof using Type.
  induction l as [|[name index] l IH]; intros remove add remove' add' Hnd Hf.
  - injection Hf as <- <-. split; intros n; [|done]. split; [by left|]. intros [|(r & Hr%elem_of_nil & _)]; done.
  - apply NoDup_cons in Hnd as [Hname Hnd]. cbn [foldl] in Hf.
    pose proof (change_add remove add name index) as Hadd. pose proof (change_remove remove add name index) as Hrm.
    destruct (change_index present (remove, add) (name, index)) as [remove1 add1]. cbn in Hadd, Hrm.
    destruct (IH _ _ _ _ Hnd Hf) as [H1 H2]. split; intros n.
    + rewrite H1, Hrm. setoid_rewrite elem_of_cons. naive_solver.
    + rewrite H2, Hadd. cbn. destruct (decide (n = name)) as [->|Hne].
      * rewrite lookup_insert_eq, (not_elem_of_list_to_map_1 l name) by done.
        destruct (needed present name index); [by rewrite decide_True|by rewrite decide_False by naive_solver].
      * rewrite lookup_insert_ne by done. rewrite decide_False by naive_solver. done.
Qed.

Lemma range_NoDup {A} (m : gmap string A) : NoDup (range m).*1.
Proof using Type. rewrite range_perm. apply NoDup_fst_map_to_list. Qed.

Lemma range_elem {A} (m : gmap string A) n x : (n, x) ∈ range m <-> m !! n = Some x.
Proof using Type. by rewrite range_perm, elem_of_map_to_list. Qed.

Lemma range_map {A} (m : gmap string A) : list_to_map (range m) = m.
Proof using Type.
  rewrite <- (list_to_map_to_list m) at 2. apply list_to_map_proper; [apply range_NoDup|apply range_perm].
Qed.

(** What is dropped is present, and not required or of another type; what is
    created is what is needed of the required. *)
Lemma index_changes_spec remove add :
  index_changes present required = (remove, add) ->
  (forall n, n ∈ remove <-> is_Some (present !! n) /\ forall r, required !! n = Some r -> needed present n r = true) /\
  (forall n, add !! n = match required !! n with
                        | Some r => if needed present n r then Some r else None
                        | None => None
                        end).
Proof using Type.
  unfold index_changes. intros Hf. apply (changes_fold (range required)) in Hf; [|apply range_NoDup].
  destruct Hf as [H1 H2]. rewrite range_map in H2. split; intros n.
  - rewrite H1, list_elem_of_fmap. setoid_rewrite range_elem. split.
    + intros [([m ix] & -> & [Hreq Hin%range_elem]%list_elem_of_filter)|(r & Hr & Hp & Hn)]; cbn in *.
      * split; [by eexists|]. intros r Hr. congruence.
      * split; [done|]. intros r' Hr'. by simplify_eq.
    + intros [[ix Hix] Hreq]. destruct (required !! n) as [r|] eqn:E.
      * right. exists r. split_and!; [done|by eexists|by apply Hreq].
      * left. exists (n, ix). split; [done|]. apply list_elem_of_filter. split; [done|]. by apply range_elem.
  - rewrite H2. by destruct (required !! n).
Qed.

End changes.

(** ** The effect of the changes *)

(** The four groups of indexes of a graph: of the edge table or not, unique or not. *)
Notation slot := (bool * bool)%type.
Definition slots : list slot := [(false, false); (false, true); (true, false); (true, true)].

Lemma slots_all (s : slot) : s ∈ slots.
Proof. destruct s as [[] []]; unfold slots; set_solver. Qed.

Definition created (unique : bool) (table : string) (index : Index) : pgindex :=
  PropertyIndex table unique (ix_Type index) (ix_Field index).

Lemma shown_lookup m table u n ty :
  shown m table u !! n = Some ty <-> exists f, m !! n = Some (PropertyIndex table u ty f).
Proof.
  unfold shown. rewrite lookup_omap. destruct (m !! n) as [[t u' ty' f|]|]; cbn; [|naive_solver..].
  case_decide; naive_solver.
Qed.

(** The same with the property an index is over. *)
Definition indexed (m : gmap string pgindex) (table : string) (unique : bool) : gmap string (IndexType * string) :=
  omap (fun ix => match ix with
                  | PropertyIndex t u ty f => if decide (t = table /\ u = unique) then Some (ty, f) else None
                  | ColumnIndex _ _ => None
                  end) m.
Definition asked (index : Index) : IndexType * string := (ix_Type index, ix_Field index).

Lemma indexed_lookup m table u n ty f :
  indexed m table u !! n = Some (ty, f) <-> m !! n = Some (PropertyIndex table u ty f).
Proof.
  unfold indexed. rewrite lookup_omap. destruct (m !! n) as [[t u' ty' f'|]|]; cbn; [|naive_solver..].
  case_decide; naive_solver.
Qed.

Lemma indexed_shown m table u : shown m table u = fst <$> indexed m table u.
Proof.
  apply map_eq. intros n. unfold shown, indexed. rewrite lookup_fmap, !lookup_omap.
  destruct (m !! n) as [[t u' ty' f'|]|]; cbn; [|done..]. by case_decide.
Qed.

Lemma asked_type (m : gmap string Index) : fst <$> (asked <$> m) = ix_Type <$> m.
Proof. rewrite <- map_fmap_compose. by apply map_fmap_ext. Qed.

Section effect.
Context `{HR : MapRange}.
Context (table : bool -> string) (add : slot -> gmap string Index).

(** The indexes of the groups [l], created one group after the other, none of
    them over a name that exists. *)
Fixpoint staged (l : list slot) (m m' : gmap string pgindex) : Prop :=
  match l with
  | [] => m' = m
  | s :: l' =>
      (forall n x, add s !! n = Some x -> m !! n = None) /\
      staged l' ((created s.2 (table s.1) <$> add s) ∪ m) m'
  end.

Lemma staged_spec l n : forall m m',
  staged l m m' ->
  (forall y, m !! n = Some y -> m' !! n = Some y) /\
  (forall s x, s ∈ l -> add s !! n = Some x -> m !! n = None /\ m' !! n = Some (created s.2 (table s.1) x)) /\
  ((forall s, s ∈ l -> add s !! n = None) -> m' !! n = m !! n).
Proof using Type.
  induction l as [|s l IH]; intros m m'; cbn [staged].
  - intros ->. split_and!; [done|by intros ? ? ?%elem_of_nil|done].
  - intros [Hfresh (Hkeep & Hadd & Hnone)%IH].
    assert (Hs : forall x, add s !! n = Some x ->
      ((created s.2 (table s.1) <$> add s) ∪ m) !! n = Some (created s.2 (table s.1) x)).
    { intros x Hx. apply lookup_union_Some_l. by rewrite lookup_fmap, Hx. }
    split_and!.
    + intros y Hy. apply Hkeep. destruct (add s !! n) as [x|] eqn:E; [by apply Hfresh in E; congruence|].
      by rewrite lookup_union_r by (by rewrite lookup_fmap, E).
    + intros s' x [->|Hin]%elem_of_cons Hx; [split; [by eapply Hfresh|by apply Hkeep, Hs]|].
      destruct (Hadd _ _ Hin Hx) as [Hnew Hfin]. split; [|done]. by apply lookup_union_None in Hnew as [_ ?].
    + intros Hall. rewrite Hnone by (intros; apply Hall; by right).
      apply lookup_union_r. by rewrite lookup_fmap, (Hall s) by by left.
Qed.

Lemma staged_Forall (P : string -> pgindex -> Prop) l : forall m m',
  staged l m m' -> map_Forall P m ->
  (forall s n x, add s !! n = Some x -> P n (created s.2 (table s.1) x)) -> map_Forall P m'.
Proof using Type.
  induction l as [|s l IH]; intros m m'; cbn [staged]; [by intros ->|].
  intros [_ Hst] Hm Hadd. eapply (IH _ _ Hst); [|done].
  intros n ix [(x & <- & Hx)%lookup_fmap_Some|[_ Hn]]%lookup_union_Some_raw; [by apply Hadd|by apply Hm].
Qed.

Context (present required : slot -> gmap string Index) (remove : slot -> list string).
Context (m0 mD mF : gmap string pgindex).
Context (Htables : table false <> table true).
Context (Hpresent : forall s, ix_Type <$> present s = shown m0 (table s.1) s.2).
Context (Hchanges : forall s, index_changes (present s) (required s) = (remove s, add s)).
Context (Hdropped : forall n, (exists s, n ∈ remove s) -> mD !! n = None).
Context (Hkept : forall n, (forall s, n ∉ remove s) -> mD !! n = m0 !! n).
Context (Hstaged : staged slots mD mF).

Lemma table_inj b b' : table b = table b' -> b = b'.
Proof using Htables. destruct b, b'; congruence. Qed.

(** An index is in one group only. *)
Lemma group_unique s s' n ix : present s !! n = Some ix -> is_Some (present s' !! n) -> s = s'.
Proof using Hpresent Htables.
  intros Hs [ix' Hs'].
  assert (Hix : forall s ix, present s !! n = Some ix -> exists f, m0 !! n = Some (PropertyIndex (table s.1) s.2 (ix_Type ix) f)).
  { intros s1 ix1 H1. apply shown_lookup. by rewrite <- Hpresent, lookup_fmap, H1. }
  destruct (Hix _ _ Hs) as [f Hf], (Hix _ _ Hs') as [f' Hf']. rewrite Hf in Hf'.
  injection Hf' as Ht Hu _ _. destruct s, s'. cbn in *. subst. by apply table_inj in Ht as ->.
Qed.

Lemma removed_spec s n :
  n ∈ remove s <-> is_Some (present s !! n) /\ forall r, required s !! n = Some r -> needed (present s) n r = true.
Proof using Hchanges. apply (index_changes_spec (present s) (required s) _ _ (Hchanges s)). Qed.

Lemma added_spec s n :
  add s !! n = match required s !! n with
               | Some r => if needed (present s) n r then Some r else None
               | None => None
               end.
Proof using Hchanges. apply (index_changes_spec (present s) (required s) _ _ (Hchanges s)). Qed.

(** A required index that is there with its type survives as it was. *)
Lemma kept_final s n r :
  required s !! n = Some r -> needed (present s) n r = false ->
  exists f, mF !! n = Some (PropertyIndex (table s.1) s.2 (ix_Type r) f) /\ mF !! n = m0 !! n.
Proof using All.
  intros Hr Hn. unfold needed in Hn. destruct (present s !! n) as [ix|] eqn:Hp; [|done].
  apply bool_decide_eq_false, dec_stable in Hn.
  assert (Hm0 : shown m0 (table s.1) s.2 !! n = Some (ix_Type ix)) by (by rewrite <- Hpresent, lookup_fmap, Hp).
  apply shown_lookup in Hm0 as [f Hf]. exists f. rewrite Hn, Hf.
  destruct (staged_spec slots n mD mF Hstaged) as (Hkeep & _).
  enough (mF !! n = Some (PropertyIndex (table s.1) s.2 (ix_Type ix) f)) by done.
  apply Hkeep. rewrite Hkept; [done|].
  intros s' [Hp' Hnd]%removed_spec. assert (s = s') as <- by (by eapply group_unique).
  specialize (Hnd r Hr). unfold needed in Hnd. rewrite Hp in Hnd. by apply bool_decide_eq_true in Hnd.
Qed.

(** A required index is created over its property or is the one that was there. *)
Lemma required_final s n r :
  required s !! n = Some r ->
  exists f, mF !! n = Some (PropertyIndex (table s.1) s.2 (ix_Type r) f) /\ (f = ix_Field r \/ mF !! n = m0 !! n).
Proof using All.
  intros Hr. destruct (needed (present s) n r) eqn:Hn.
  2:{ destruct (kept_final s n r Hr Hn) as (f & Hf & Hm). exists f. auto. }
  exists (ix_Field r). split; [|by left]. destruct (staged_spec slots n mD mF Hstaged) as (_ & Hadd & _).
  apply (Hadd s r (slots_all s)). by rewrite added_spec, Hr, Hn.
Qed.

(** After the changes the indexes of every group are those required. *)
Lemma effect s : shown mF (table s.1) s.2 = ix_Type <$> required s.
Proof using All.
  apply map_eq. intros n. rewrite lookup_fmap. destruct (required s !! n) as [r|] eqn:Hr; cbn.
  { apply shown_lookup. destruct (required_final s n r Hr) as (f & Hf & _). by exists f. }
  destruct (shown mF (table s.1) s.2 !! n) as [ty|] eqn:Hs; [|done]. exfalso.
  apply shown_lookup in Hs as [f Hf]. destruct (staged_spec slots n mD mF Hstaged) as (_ & Hadd & Hnone).
  destruct (decide (Exists (fun s' => is_Some (add s' !! n)) slots)) as [Hex|Hall].
  - apply Exists_exists in Hex as (s' & Hin & [x Hx]). destruct (Hadd s' x Hin Hx) as [_ Hfin].
    rewrite Hf in Hfin. injection Hfin as Ht Hu _ _.
    assert (s = s') as <- by (destruct s, s'; cbn in *; subst; by apply table_inj in Ht as ->).
    by rewrite added_spec, Hr in Hx.
  - rewrite Hnone in Hf.
    2:{ intros s' Hin. apply eq_None_not_Some. intros Hx. apply Hall, Exists_exists. by exists s'. }
    destruct (decide (Exists (fun s' => n ∈ remove s') slots)) as [Hex|Hrm].
    + apply Exists_exists in Hex as (s' & _ & Hin). by rewrite Hdropped in Hf by by exists s'.
    + rewrite Hkept in Hf.
      2:{ intros s' Hin. apply Hrm, Exists_exists. exists s'. split; [apply slots_all|done]. }
      apply Hrm, Exists_exists. exists s. split; [apply slots_all|]. apply removed_spec. split; [|congruence].
      assert (Hsh : shown m0 (table s.1) s.2 !! n = Some ty) by (apply shown_lookup; by exists f).
      rewrite <- Hpresent, lookup_fmap in Hsh. by destruct (present s !! n).
Qed.

(** With the properties, when an index that has the name of a required one is over
    the property of that one. *)
Lemma effect_fields s :
  (forall n r ty f, required s !! n = Some r -> m0 !! n = Some (PropertyIndex (table s.1) s.2 ty f) -> f = ix_Field r) ->
  indexed mF (table s.1) s.2 = asked <$> required s.
Proof using All.
  intros Hnames. apply map_eq. intros n. rewrite lookup_fmap.
  pose proof (f_equal (lookup n) (effect s)) as Hn. rewrite lookup_fmap in Hn.
  destruct (required s !! n) as [r|] eqn:Hr; cbn in *.
  - apply indexed_lookup. destruct (required_final s n r Hr) as (f & Hf & [->|Hm]); [done|].
    rewrite Hf in Hm. by rewrite <- (Hnames n r _ _ Hr (eq_sym Hm)).
  - destruct (indexed mF (table s.1) s.2 !! n) as [[ty f]|] eqn:Hi; [|done].
    apply indexed_lookup in Hi. assert (Hs : shown mF (table s.1) s.2 !! n = Some ty) by (apply shown_lookup; by exists f).
    congruence.
Qed.

End effect.

(** ** Running the changes *)

Section run.
Context {DB : Type} `{HD : Database DB} `{HC : Catalog DB} `{HR : MapRange} `{!DatabaseLaws DB}.

(** What a run of statements that leaves the transaction alive keeps. *)
Definition evolves (db db' : DB) : Prop :=
  alive db /\ kinds_of db ⊆ kinds_of db' /\ graphs_of db' = graphs_of db.

Lemma evolves_trans db1 db2 db3 : evolves db1 db2 -> evolves db2 db3 -> evolves db1 db3.
Proof using Type. intros (Ha & Hk & Hg) (_ & Hk' & Hg'). split_and!; [done|by etrans|congruence]. Qed.

Lemma raw_evolves {R} (st : statement R) db db' r :
  Raw st db = (db', r) -> alive db' -> keeps_kinds st = true -> keeps_graphs st = true -> evolves db db'.
Proof using Type*. intros. split_and!; [by eapply raw_alive|by eapply raw_kinds|by eapply raw_graphs]. Qed.

(** A transaction that is alive after some code was alive before it. *)
Definition backward {A} (m : M DB A) : Prop :=
  forall db db' a, m db = Done (db', inl a) -> alive db' -> alive db.

Lemma backward_ret {A} (a : A) : backward (mret a).
Proof using Type. intros db db' a' [= <- _]. done. Qed.

Lemma backward_bind {A B} (m : M DB A) (f : A -> M DB B) :
  backward m -> (forall a, backward (f a)) -> backward (m ≫= f).
Proof using Type. intros Hm Hf db db' b (db1 & a & H1 & H2)%M_bind_inv Ha. by eapply Hm, Hf. Qed.

Lemma backward_select {R} (st : statement R) : backward (select_rows st).
Proof using Type*. intros db db' l (r & Hraw & _)%select_rows_inv. by eapply raw_alive. Qed.

Lemma backward_exec (st : statement unit) : backward (Query_exec st).
Proof using Type*. intros db db' l (r & Hraw)%exec_inv. by eapply raw_alive. Qed.

Lemma backward_for_each {A} (f : A -> M DB unit) l : (forall x, backward (f x)) -> backward (for_each f l).
Proof using Type. intros Hf. induction l; cbn; [apply backward_ret|]. by apply backward_bind. Qed.

Lemma backward_describe table : backward (Query_describeGraphPartition table).
Proof using Type*.
  apply backward_bind; [apply backward_bind; [apply backward_select|intros; apply backward_ret]|].
  intros l. by case_match; [apply backward_ret|intros ? ? ? ?].
Qed.

Lemma backward_create name table field type : backward (Query_CreatePropertyConstraint name table field type).
Proof using Type*. unfold Query_CreatePropertyConstraint. case_decide; [by intros ? ? ? ?|apply backward_exec]. Qed.

Lemma backward_changes p c : backward (Query_assertGraphPartitionIndexes p c).
Proof using Type*.
  repeat (apply backward_bind; [|intros _]);
    apply backward_for_each; intros; try case_match; first [apply backward_create|apply backward_exec].
Qed.

Lemma drops_inv names : forall db db' u,
  for_each Query_DropIndex names db = Done (db', inl u) -> alive db' -> Forall identifier names ->
  evolves db db' /\
  forall n, indexes_of db' !! n = if decide (n ∈ names) then None else indexes_of db !! n.
Proof using Type*.
  induction names as [|name names IH]; intros db db' u Hrun Halive Hid.
  - injection Hrun as <- <-. done.
  - apply M_bind_inv in Hrun as (db1 & [] & (r & Hraw)%exec_inv & Hrun). apply Forall_cons in Hid as [Hname Hid].
    destruct (IH _ _ _ Hrun Halive Hid) as [Hev Hix].
    assert (Ha : alive db1) by apply Hev. split.
    { eapply evolves_trans; [by eapply raw_evolves|done]. }
    intros n. rewrite Hix, (drop_index _ _ _ _ Hraw Ha), (ident_plain name Hname).
    destruct (decide (n = name)) as [->|Hne].
    + rewrite lookup_delete_eq, (decide_True (P := name ∈ name :: names)) by set_solver. by case_decide.
    + rewrite lookup_delete_ne by done. repeat case_decide; set_solver.
Qed.

Definition create (unique : bool) (table : string) (x : string * Index) : M DB unit :=
  let '(name, index) := x in
  if unique then Query_CreatePropertyConstraint name table (ix_Field index) (ix_Type index)
  else Query_CreatePropertyIndex name table (ix_Field index) (ix_Type index).

Lemma create_inv unique table name index db db' u :
  create unique table (name, index) db = Done (db', inl u) -> alive db' -> identifier name -> identifier table ->
  evolves db db' /\ indexes_of db !! name = None /\
  indexes_of db' = <[name := created unique table index]> (indexes_of db).
Proof using Type*.
  intros Hrun Halive Hname%ident_plain Htable%ident_plain. unfold created. destruct unique; cbn in Hrun.
  - unfold Query_CreatePropertyConstraint in Hrun. case_decide; [done|].
    apply exec_inv in Hrun as (r & Hraw). split; [by eapply raw_evolves|].
    apply create_constraint in Hraw; [|done]. by rewrite Hname, Htable in Hraw.
  - apply exec_inv in Hrun as (r & Hraw). split; [by eapply raw_evolves|].
    apply create_index in Hraw; [|done]. by rewrite Hname, Htable in Hraw.
Qed.

Lemma creates_inv unique table l : forall db db' u,
  for_each (create unique table) l db = Done (db', inl u) -> alive db' ->
  Forall (fun x => identifier x.1) l -> NoDup l.*1 -> identifier table ->
  evolves db db' /\
  (forall n x, (n, x) ∈ l -> indexes_of db !! n = None) /\
  indexes_of db' = (created unique table <$> (list_to_map l : gmap string Index)) ∪ indexes_of db.
Proof using Type*.
  induction l as [|[name index] l IH]; intros db db' u Hrun Halive Hid Hnd Ht.
  - injection Hrun as <- <-. split; [done|]. split; [by intros ? ? ?%elem_of_nil|].
    cbn. by rewrite fmap_empty, (left_id_L ∅ (∪)).
  - apply M_bind_inv in Hrun as (db1 & [] & Hc & Hrun). apply Forall_cons in Hid as [Hname Hid].
    apply NoDup_cons in Hnd as [Hnew Hnd].
    destruct (IH _ _ _ Hrun Halive Hid Hnd Ht) as (Hev & Hfresh & Hix).
    assert (Ha : alive db1) by apply Hev.
    destruct (create_inv _ _ _ _ _ _ _ Hc Ha Hname Ht) as (Hev1 & Hnone & Hix1).
    split_and!; [by eapply evolves_trans| |].
    + intros n x [[= -> ->]|Hin]%elem_of_cons; [done|]. apply Hfresh in Hin. rewrite Hix1 in Hin.
      by apply lookup_insert_None in Hin as [? _].
    + rewrite Hix, Hix1. cbn [list_to_map foldr]. cbn. rewrite fmap_insert, <- insert_union_l.
      symmetry. apply insert_union_r. rewrite lookup_fmap, not_elem_of_list_to_map_1; [done|exact Hnew].
Qed.

(** ** The indexes of a graph *)

Definition partition_of (p : GraphPartitions) (edge : bool) : GraphPartition :=
  if edge then gps_Edge p else gps_Node p.
Definition group_of (p : GraphPartitions) (s : slot) : gmap string Index := described (partition_of p s.1) s.2.
Definition table_of (p : GraphPartitions) (edge : bool) : string := gp_Name (partition_of p edge).

Definition removals (c : IndexChangeSet) (s : slot) : list string :=
  match s with
  | (false, false) => NodeIndexesToRemove c
  | (false, true) => NodeConstraintsToRemove c
  | (true, false) => EdgeIndexesToRemove c
  | (true, true) => EdgeConstraintsToRemove c
  end.
Definition additions (c : IndexChangeSet) (s : slot) : gmap string Index :=
  match s with
  | (false, false) => NodeIndexesToAdd c
  | (false, true) => NodeConstraintsToAdd c
  | (true, false) => EdgeIndexesToAdd c
  | (true, true) => EdgeConstraintsToAdd c
  end.

(** Creating the groups one after the other. *)
Fixpoint create_groups (p : GraphPartitions) (c : IndexChangeSet) (l : list slot) : M DB unit :=
  match l with
  | [] => mret tt
  | s :: l' => _ ← for_each (create s.2 (table_of p s.1)) (range (additions c s)); create_groups p c l'
  end.

Lemma staged_run p c l : forall db db' u,
  create_groups p c l db = Done (db', inl u) ->
  alive db' -> (forall s, map_Forall (fun n _ => identifier n) (additions c s)) -> (forall b, identifier (table_of p b)) ->
  evolves db db' /\ staged (table_of p) (additions c) l (indexes_of db) (indexes_of db').
Proof using Type*.
  induction l as [|s l IH]; intros db db' u Hrun Halive Hid Ht.
  - injection Hrun as <-. done.
  - apply M_bind_inv in Hrun as (db1 & [] & Hc & Hrun).
    destruct (IH _ _ _ Hrun Halive Hid Ht) as [Hev Hst]. assert (Ha : alive db1) by apply Hev.
    apply creates_inv in Hc as (Hev1 & Hfresh & Hix); [|done| |apply range_NoDup|apply Ht].
    2:{ apply Forall_forall. intros [n x] Hin%range_elem. by apply (Hid s n x). }
    split; [by eapply evolves_trans|]. cbn. split.
    + intros n x Hx%range_elem. by eapply Hfresh.
    + by rewrite Hix, range_map in Hst.
Qed.

(** The drops come first, then the groups in order. *)
Lemma assertGraphPartitionIndexes_inv p c db db' u :
  Query_assertGraphPartitionIndexes p c db = Done (db', inl u) ->
  exists db1 db2,
    for_each Query_DropIndex (removals c (false, false) ++ removals c (true, false)) db = Done (db1, inl tt) /\
    for_each Query_DropIndex (removals c (false, true) ++ removals c (true, true)) db1 = Done (db2, inl tt) /\
    create_groups p c slots db2 = Done (db', inl tt).
Proof using Type.
  intros (db1 & [] & H1 & (db2 & [] & H2 & (db3 & [] & H3 & (db4 & [] & H4 & (db5 & [] & H5 & H6)%M_bind_inv)%M_bind_inv)%M_bind_inv)%M_bind_inv)%M_bind_inv.
  exists db1, db2. split_and!; [done|done|]. destruct u.
  unfold create_groups, slots, mbind, M_bind. cbn [fst snd additions].
  change (for_each (create false (table_of p false)) (range (NodeIndexesToAdd c)) db2 = Done (db3, inl tt)) in H3.
  change (for_each (create true (table_of p false)) (range (NodeConstraintsToAdd c)) db3 = Done (db4, inl tt)) in H4.
  change (for_each (create false (table_of p true)) (range (EdgeIndexesToAdd c)) db4 = Done (db5, inl tt)) in H5.
  change (for_each (create true (table_of p true)) (range (EdgeConstraintsToAdd c)) db5 = Done (db', inl tt)) in H6.
  by rewrite H3, H4, H5, H6.
Qed.

Lemma changes_run p c db db' u :
  Query_assertGraphPartitionIndexes p c db = Done (db', inl u) -> alive db' ->
  (forall s, Forall identifier (removals c s)) -> (forall s, map_Forall (fun n _ => identifier n) (additions c s)) ->
  (forall b, identifier (table_of p b)) ->
  evolves db db' /\ exists mD,
    (forall n, (exists s, n ∈ removals c s) -> mD !! n = None) /\
    (forall n, (forall s, n ∉ removals c s) -> mD !! n = indexes_of db !! n) /\
    staged (table_of p) (additions c) slots mD (indexes_of db').
Proof using Type*.
  intros (db1 & db2 & H1 & H2 & H3)%assertGraphPartitionIndexes_inv Halive Hrm Hadd Ht.
  destruct (staged_run _ _ _ _ _ _ H3 Halive Hadd Ht) as [Hev3 Hst]. assert (Ha2 : alive db2) by apply Hev3.
  apply drops_inv in H2 as [Hev2 Hix2]; [|done|by apply Forall_app_2]. assert (Ha1 : alive db1) by apply Hev2.
  apply drops_inv in H1 as [Hev1 Hix1]; [|done|by apply Forall_app_2].
  split; [by do 2 (eapply evolves_trans; [done|])|].
  exists (indexes_of db2). split_and!; [| |done]; intros n Hn; rewrite Hix2, Hix1.
  - destruct Hn as [[[] []] Hn]; repeat case_decide; set_solver.
  - rewrite !decide_False; [done|rewrite elem_of_app; intros [?|?]; by eapply Hn..].
Qed.

Lemma graph_changes_inv required p db db' c :
  graph_changes required p db = Done (db', inl c) -> alive db' -> wf_catalog (indexes_of db) ->
  evolves db db' /\ indexes_of db' = indexes_of db /\ exists present : slot -> gmap string Index,
    (forall s, ix_Type <$> present s = shown (indexes_of db) (table_of p s.1) s.2) /\
    (forall s, index_changes (present s) (group_of required s) = (removals c s, additions c s)).
Proof using Type*.
  intros (db1 & pn & Hn & Hrun)%M_bind_inv Halive Hwf.
  destruct (index_changes (gp_Indexes pn) _) as [nir nia] eqn:Eni.
  destruct (index_changes (gp_Constraints pn) _) as [ncr nca] eqn:Enc.
  apply M_bind_inv in Hrun as (db2 & pe & He & Hrun).
  destruct (index_changes (gp_Indexes pe) _) as [eir eia] eqn:Eei.
  destruct (index_changes (gp_Constraints pe) _) as [ecr eca] eqn:Eec.
  injection Hrun as <- <-.
  assert (Ha1 : alive db1) by (by eapply backward_describe).
  destruct (describe_inv _ _ _ _ Hn Ha1 Hwf) as (Ha & Hix1 & Hk1 & Hg1 & Hs1).
  rewrite <- Hix1 in Hwf. destruct (describe_inv _ _ _ _ He Halive Hwf) as (_ & Hix2 & Hk2 & Hg2 & Hs2).
  split; [split_and!; [done|by etrans|congruence]|]. split; [congruence|].
  exists (fun s : slot => described (if s.1 then pe else pn) s.2). rewrite Hix1 in Hs2.
  split; intros [[] []]; cbn; [apply (Hs2 true)|apply (Hs2 false)|apply (Hs1 true)|apply (Hs1 false)|done..].
Qed.

(** What a schema may ask for: names the database takes as they are, plain
    property names and types it has. *)
Definition wf_required (required : GraphPartitions) : Prop :=
  forall s, map_Forall (fun n ix => identifier n /\ all plain (ix_Field ix) = true /\ supported (ix_Type ix)) (group_of required s).

(** An index of a partition that has the name of a required one is over its
    property, as every index the driver created is: its name is made of it. *)
Definition fields_named (m : gmap string pgindex) (required : GraphPartitions) (table : bool -> string) : Prop :=
  forall s n r ty f, group_of required s !! n = Some r ->
    m !! n = Some (PropertyIndex (table s.1) s.2 ty f) -> f = ix_Field r.

Record assertable (db : DB) (required p : GraphPartitions) : Prop := {
  as_catalog : wf_catalog (indexes_of db);
  as_required : wf_required required;
  as_tables : forall b, identifier (table_of p b);
  as_distinct : table_of p false <> table_of p true;
  as_fields : fields_named (indexes_of db) required (table_of p);
}.

Lemma removals_present (present : slot -> gmap string Index) required c (m : gmap string pgindex) (tb : bool -> string) :
  wf_catalog m -> (forall s, ix_Type <$> present s = shown m (tb s.1) s.2) ->
  (forall s, index_changes (present s) (group_of required s) = (removals c s, additions c s)) ->
  forall s, Forall identifier (removals c s).
Proof using Type.
  intros Hwf Hp Hc s. apply Forall_forall. intros n Hn.
  apply (index_changes_spec _ _ _ _ (Hc s)) in Hn as [[ix Hix] _].
  assert (Hs : shown m (tb s.1) s.2 !! n = Some (ix_Type ix)) by (by rewrite <- Hp, lookup_fmap, Hix).
  apply shown_lookup in Hs as [f Hf]. by destruct (Hwf _ _ Hf).
Qed.

Lemma additions_required (P : string -> Index -> Prop) (present : slot -> gmap string Index) required c s :
  index_changes (present s) (group_of required s) = (removals c s, additions c s) ->
  map_Forall P (group_of required s) -> map_Forall P (additions c s).
Proof using Type.
  intros Hc HP n ix. rewrite (proj2 (index_changes_spec _ _ _ _ Hc) n).
  destruct (group_of required s !! n) as [r|] eqn:E; [|done]. case_match; [|done]. intros [= <-]. by apply HP.
Qed.

(** The comparison, then the changes. *)
Lemma changes_exact required p db db1 c db' u :
  assertable db required p ->
  graph_changes required p db = Done (db1, inl c) ->
  Query_assertGraphPartitionIndexes p c db1 = Done (db', inl u) -> alive db' ->
  evolves db db' /\ (forall s, indexed (indexes_of db') (table_of p s.1) s.2 = asked <$> group_of required s) /\
  wf_catalog (indexes_of db').
Proof using Type*.
  intros [Hwf Hreq Ht Hd Hf] Hc Hrun Halive.
  assert (Ha1 : alive db1) by (by eapply backward_changes).
  destruct (graph_changes_inv _ _ _ _ _ Hc Ha1 Hwf) as (Hev & Hix & present & Hp & Hch).
  pose proof (removals_present _ _ _ _ _ Hwf Hp Hch) as Hrm.
  assert (Hadd : forall s, map_Forall (fun n x => identifier n /\ all plain (ix_Field x) = true /\ supported (ix_Type x)) (additions c s)).
  { intros s. by eapply additions_required. }
  destruct (changes_run _ _ _ _ _ Hrun Halive Hrm) as (Hev' & mD & HmD & Hkeep & Hst); [|done|].
  { intros s n x Hx. by destruct (Hadd s n x Hx). }
  rewrite Hix in Hkeep. split_and!; [by eapply evolves_trans| |].
  - intros s. eapply (effect_fields (table_of p) (additions c) present (group_of required) (removals c)); try done.
    intros n r ty f. apply (Hf s).
  - eapply (staged_Forall (table_of p) (additions c)); [exact Hst| |].
    + intros n ix Hn. destruct (decide (Exists (fun s => n ∈ removals c s) slots)) as [Hex|Hno].
      * apply Exists_exists in Hex as (s & _ & Hs). by rewrite HmD in Hn by by exists s.
      * apply Hwf. rewrite <- Hkeep; [done|]. intros s Hs. apply Hno, Exists_exists. exists s.
        split; [apply slots_all|done].
    + intros s n x Hx. by destruct (Hadd s n x Hx) as (? & ? & ?).
Qed.

Lemma settled_changes (present required : gmap string Index) :
  ix_Type <$> present = ix_Type <$> required -> index_changes present required = ([], ∅).
Proof using Type.
  intros Hty. destruct (index_changes present required) as [remove add] eqn:E.
  apply index_changes_spec in E as [Hrm Hadd].
  assert (Hn : forall n r, required !! n = Some r -> needed present n r = false).
  { intros n r Hr. assert (Hl : (ix_Type <$> present) !! n = Some (ix_Type r)) by (by rewrite Hty, lookup_fmap, Hr).
    apply lookup_fmap_Some in Hl as (ix & He & Hix). unfold needed. rewrite Hix. apply bool_decide_eq_false. congruence. }
  f_equal.
  - apply elem_of_nil_inv. intros n [[ix Hix] Hall]%Hrm.
    assert (Hl : (ix_Type <$> required) !! n = Some (ix_Type ix)) by (by rewrite <- Hty, lookup_fmap, Hix).
    apply lookup_fmap_Some in Hl as (r & _ & Hr). specialize (Hall r Hr). by rewrite (Hn n r Hr) in Hall.
  - apply map_eq. intros n. rewrite Hadd, lookup_empty. destruct (required !! n) eqn:Hr; [|done]. by rewrite (Hn n _ Hr).
Qed.

Lemma settled_graph required p db db' c :
  wf_catalog (indexes_of db) ->
  (forall s, shown (indexes_of db) (table_of p s.1) s.2 = ix_Type <$> group_of required s) ->
  graph_changes required p db = Done (db', inl c) -> alive db' -> c = NewIndexChangeSet.
Proof using Type*.
  intros Hwf Hs Hc Ha. destruct (graph_changes_inv _ _ _ _ _ Hc Ha Hwf) as (_ & _ & present & Hp & Hch).
  assert (He : forall s, removals c s = [] /\ additions c s = ∅).
  { intros s. specialize (Hch s). rewrite settled_changes in Hch by (by rewrite Hp). by injection Hch. }
  destruct c. pose proof (He (false, false)) as [H1 H2]. pose proof (He (false, true)) as [H3 H4].
  pose proof (He (true, false)) as [H5 H6]. pose proof (He (true, true)) as [H7 H8]. cbn in *. by subst.
Qed.

(** [C3] Asserting the schema of a graph, for names the database takes as they are.
    Suppose that the names of the partitions (two different ones) and of the indexes
    the schema asks for are lower-case plain identifiers of at most 63 bytes, over
    plain properties and of supported types; that the indexes over properties in the
    catalog are of that form too, and no other index is taken for one; and that an
    index with the name of one asked for is over its property, as the driver names
    them.  Then, when [AssertGraph] returns without an error and its transaction is
    still alive, the indexes over properties of the two partitions are, by name,
    uniqueness, type and property, exactly the indexes and constraints of the schema,
    the model it returns is the one of the schema, the graphs are untouched, no kind
    is lost, and a second comparison with the catalog finds nothing to change.
    Without the condition on names it does not settle, [upper_case_index_never_settles]. *)
Theorem assert_graph_settles schema definition db db' g :
  Query_AssertGraph schema definition db = Done (db', inl g) -> alive db' ->
  assertable db (required_partitions schema (gm_Partitions definition)) (gm_Partitions definition) ->
  g = mkGraphModel (gm_ID definition) (gm_Name definition) (required_partitions schema (gm_Partitions definition)) /\
  (forall edge unique,
     indexed (indexes_of db') (table_of (gm_Partitions definition) edge) unique =
       asked <$> group_of (gm_Partitions g) (edge, unique)) /\
  graphs_of db' = graphs_of db /\ kinds_of db ⊆ kinds_of db' /\
  (forall db'' c, graph_changes (gm_Partitions g) (gm_Partitions definition) db' = Done (db'', inl c) -> alive db'' ->
     c = NewIndexChangeSet).
Proof using Type*.
  intros (db1 & c & Hc & (db2 & [] & Hrun & [= <- <-])%M_bind_inv)%M_bind_inv Halive Has.
  destruct (changes_exact _ _ _ _ _ _ _ Has Hc Hrun Halive) as ((_ & Hk & Hg) & Hs & Hwf).
  split_and!; [done| |done|done|].
  - intros edge unique. apply (Hs (edge, unique)).
  - intros db'' c' Hc' Ha'. eapply settled_graph; [done| |done|done]. intros s. by rewrite indexed_shown, Hs, asked_type.
Qed.
End run.

(** ** Examples *)

#[export] Instance identifier_dec s : Decision (identifier s).
Proof. unfold identifier. apply _. Defined.
#[export] Instance supported_dec t : Decision (supported t).
Proof. unfold supported. apply _. Defined.
#[export] Instance column_definition_dec d : Decision (column_definition d).
Proof. unfold column_definition. apply _. Defined.
#[export] Instance wf_index_dec n ix : Decision (wf_index n ix).
Proof. destruct ix; apply _. Defined.
#[export] Instance wf_catalog_dec m : Decision (wf_catalog m).
Proof. unfold wf_catalog. apply _. Defined.

(** [fields_named], by looking at the required indexes. *)
Definition named_over (m : gmap string pgindex) (n : string) (r : Index) : bool :=
  match m !! n with
  | Some (PropertyIndex _ _ _ f) => bool_decide (f = ix_Field r)
  | _ => true
  end.

Lemma fields_named_check m required table :
  (forall s, map_Forall (fun n r => named_over m n r = true) (group_of required s)) -> fields_named m required table.
Proof.
  intros Hall s n r ty f Hr Hm. specialize (Hall s n r Hr). unfold named_over in Hall. rewrite Hm in Hall.
  by apply bool_decide_eq_true in Hall.
Qed.

Definition node_1 : GraphPartition := mkPartition "node_1" ∅ ∅.
Definition edge_1 : GraphPartition := mkPartition "edge_1" ∅ ∅.
Definition graph_1 : GraphModel := mkGraphModel 1 "base" (mkPartitions node_1 edge_1).

(** A primary key, an index that is no longer wanted and one of another type. *)
Definition before_assert : SmallDB := mkDB ["User"] ["base"]
  (list_to_map [
    ("node_1_pkey", ColumnIndex "node_1" "CREATE UNIQUE INDEX node_1_pkey ON public.node_1 USING btree (id, graph_id)");
    ("node_1_old_index", PropertyIndex "node_1" false BTreeIndex "old");
    ("node_1_name_index", PropertyIndex "node_1" false BTreeIndex "name")]) 8 true.

Definition schema_1 : GraphSchema := mkGraphSchema "base" [] []
  [mkIndex "" "objectid" BTreeIndex] [] [mkIndex "" "name" TextSearchIndex] [mkIndex "" "lastseen" BTreeIndex].

Definition after_assert : outcome (SmallDB * (GraphModel + error)) :=
  Query_AssertGraph schema_1 graph_1 before_assert.

Definition after_db : SmallDB := match after_assert with Done (db, _) => db | _ => before_assert end.

Lemma assert_graph_settles_witness :
  indexed (db_indexes after_db) "node_1" false = {["node_1_name_index" := (TextSearchIndex, "name")]} /\
  indexed (db_indexes after_db) "node_1" true = {["node_1_objectid_constraint" := (BTreeIndex, "objectid")]} /\
  indexed (db_indexes after_db) "edge_1" false = {["edge_1_lastseen_index" := (BTreeIndex, "lastseen")]}.
Proof.
  assert (Has : assertable before_assert (required_partitions schema_1 (gm_Partitions graph_1)) (gm_Partitions graph_1)).
  { split.
    - apply (bool_decide_unpack _). vm_compute. exact I.
    - intros [[] []]; apply (bool_decide_unpack _); vm_compute; exact I.
    - intros []; apply (bool_decide_unpack _); vm_compute; exact I.
    - done.
    - apply fields_named_check. intros [[] []]; apply (bool_decide_unpack _); vm_compute; exact I. }
  destruct (assert_graph_settles schema_1 graph_1 before_assert after_db
    (mkGraphModel 1 "base" (required_partitions schema_1 (gm_Partitions graph_1)))) as (_ & Hs & _).
  - vm_compute. reflexivity.
  - vm_compute. reflexivity.
  - exact Has.
  - split_and!; [etransitivity; [exact (Hs false false)|]|etransitivity; [exact (Hs false true)|]|
      etransitivity; [exact (Hs true false)|]]; vm_compute; reflexivity.
Defined.

(** A property with an upper-case letter: the name of its index is folded when it
    is created and lower-cased when it is read, but not when it is compared, so
    every comparison drops the index and creates it again. *)
Definition schema_upper : GraphSchema := mkGraphSchema "base" [] [] [] [] [mkIndex "" "objectId" BTreeIndex] [].

Definition changes_of (m : outcome (SmallDB * (IndexChangeSet + error))) : option (list string * list string) :=
  match m with
  | Done (_, inl c) => Some (NodeIndexesToRemove c, (map_to_list (NodeIndexesToAdd c)).*1)
  | _ => None
  end.

(** An index on a property whose name has an upper-case letter never
    settles: after the schema has been asserted, the next comparison asks again for
    the drop of the index and for its creation. *)
Theorem upper_case_index_never_settles :
  exists db,
    (exists g, Query_AssertGraph schema_upper graph_1 (mkDB [] ["base"] ∅ 8 true) = Done (db, inl g)) /\
    changes_of (graph_changes (required_partitions schema_upper (gm_Partitions graph_1)) (gm_Partitions graph_1) db) =
      Some (["node_1_objectid_index"], ["node_1_objectId_index"]).
Proof.
  eexists. split; [eexists; vm_compute; reflexivity|]. vm_compute. reflexivity.
Qed.

(** The property read from the catalog carries the quote that closes it. *)
Example described_field_has_quote :
  match Query_describeGraphPartition "node_1" before_assert with
  | Done (_, inl p) => ix_Field <$> gp_Indexes p !! "node_1_name_index" = Some "name'"
  | _ => False
  end.
Proof. vm_compute. reflexivity. Qed.
