(* ===== verification/SchemaManager.v ===== *)
(** * The schema manager (drivers/pg/manager.go)

    [SchemaManager] keeps the kinds of the database with their identifiers in
    memory, both ways, and the graphs it has asserted.  Its methods work in critical
    sections under one lock: a look into the maps under the read lock first, then,
    when something is missing, a section under the write lock that asks the database.
    A section is one function here; a method is its sections one after the other,
    and [step] lets sections of different callers, whether they fail or not, and other
    sessions of the database alternate. *)

From S2P Require Import Prelude Kinds IndexDefinitions GraphSchema SmallDatabase IndexChanges.
From stdpp Require Import relations.

(** ** State *)

(** [kindsByID] maps kinds to identifiers and [kindIDsByKind] the other way.  [T] is
    the translation cache. *)
Record SchemaManager (T : Type) := mkManager {
  defaultGraph : GraphModel;
  hasDefaultGraph : bool;
  graphs : gmap string GraphModel;
  kindsByID : gmap Kind Z;
  kindIDsByKind : gmap Z Kind;
  translationCache : T
}.
Arguments mkManager {T}.
Arguments defaultGraph {T}.
Arguments hasDefaultGraph {T}.
Arguments graphs {T}.
Arguments kindsByID {T}.
Arguments kindIDsByKind {T}.
Arguments translationCache {T}.

Section manager.
Context {T : Type} (Invalidate : T -> T).
Context {DB : Type} `{Database DB} `{MapRange}.

Notation SM := (SchemaManager T).
Notation W := (M (SM * DB)).

Definition NewSchemaManager (cache : T) : SM := mkManager no_graph false ∅ ∅ ∅ cache.

Definition set_kinds (s : SM) (byID : gmap Kind Z) (ids : gmap Z Kind) : SM :=
  mkManager (defaultGraph s) (hasDefaultGraph s) (graphs s) byID ids (translationCache s).
Definition set_graphs (s : SM) (g : gmap string GraphModel) : SM :=
  mkManager (defaultGraph s) (hasDefaultGraph s) g (kindsByID s) (kindIDsByKind s) (translationCache s).

(** Statements of the transaction at hand, and reads and writes of the maps. *)
Definition lift {A} (m : M DB A) : W A := fun '(s, db) =>
  match m db with Done (db', r) => Done ((s, db'), r) | Panic => Panic | Spent => Spent end.
Definition get : W SM := fun '(s, db) => Done ((s, db), inl s).
Definition put (s : SM) : W unit := fun '(_, db) => Done ((s, db), inl tt).
Definition panic {A} : W A := fun _ => Panic.

(** ** Transactions *)

(** The deferred [tx.Close] rolls back what was not committed; what the delegate
    has written to the maps stays. *)
Definition WriteTransaction {A} (txDelegate : W A) : W A := fun '(s, db) =>
  match Acquire db, BeginTx db with
  | Some e, _ => Done ((s, db), inr e)
  | None, Some e => Done ((s, db), inr e)
  | None, None =>
      match txDelegate (s, db) with
      | Done ((s', db'), inr e) => Done ((s', Rollback db db'), inr e)
      | Done ((s', db'), inl a) =>
          let '(db'', e) := Commit db db' in
          Done ((s', db''), match e with None => inl a | Some e => inr e end)
      | Panic => Panic
      | Spent => Spent
      end
  end.

(** No transaction is begun: statements run on the connection. *)
Definition ReadTransaction {A} (txDelegate : W A) : W A := fun '(s, db) =>
  match Acquire db with
  | Some e => Done ((s, db), inr e)
  | None => txDelegate (s, db)
  end.

(** ** Kinds *)

Definition fetch : W unit :=
  kinds ← lift Query_SelectKinds;
  s ← get;
  put (set_kinds s kinds
    (foldl (fun ids entry => <[entry.2 := entry.1]> ids) (kindIDsByKind s) (map_to_list kinds))).

Definition Fetch : W unit := WriteTransaction fetch.

Fixpoint defineKinds (kinds : list Kind) : W unit :=
  match kinds with
  | [] => mret tt
  | kind :: kinds' =>
      kindID ← lift (Query_InsertOrGetKind kind);
      s ← get;
      _ ← put (set_kinds s (<[kind := kindID]> (kindsByID s)) (<[kindID := kind]> (kindIDsByKind s)));
      defineKinds kinds'
  end.

(** The loops of [mapKinds] and [mapKindIDs]: what is found and what is missing. *)
Definition map_all {K V} (find : K -> option V) (keys : list K) : list V * list K :=
  foldl (fun '(found, missing) key =>
    match find key with
    | Some v => (found ++ [v], missing)
    | None => (found, missing ++ [key])
    end) ([], []) keys.

Definition mapKinds (s : SM) (kinds : list Kind) : list Z * list Kind :=
  map_all (fun kind => kindsByID s !! kind) kinds.
Definition mapKindIDs (s : SM) (kindIDs : list Z) : list Kind * list Z :=
  map_all (fun kindID => kindIDsByKind s !! kindID) kindIDs.

(** [fmt.Errorf] of the missing kinds calls [String] on them. *)
Definition unable_to_map {A} (missing : list Kind) : W A :=
  if decide (Forall is_Some missing) then fails (ErrMapKinds missing) else panic.

Definition MapKind_locked (kind : Kind) : W Z :=
  _ ← Fetch;
  s ← get;
  match kindsByID s !! kind with
  | Some id => mret id
  | None => unable_to_map [kind]
  end.

Definition MapKind (kind : Kind) : W Z :=
  s ← get;
  match kindsByID s !! kind with
  | Some id => mret id
  | None => MapKind_locked kind
  end.

Definition MapKinds_locked (kinds : list Kind) : W (list Z) :=
  _ ← Fetch;
  s ← get;
  let '(mappedKinds, missingKinds) := mapKinds s kinds in
  if decide (missingKinds = []) then mret mappedKinds else unable_to_map missingKinds.

Definition MapKinds (kinds : list Kind) : W (list Z) :=
  s ← get;
  let '(mappedKinds, missingKinds) := mapKinds s kinds in
  if decide (missingKinds = []) then mret mappedKinds else MapKinds_locked kinds.

Definition MapKindIDs_locked (kindIDs : list Z) : W (list Kind) :=
  _ ← Fetch;
  s ← get;
  let '(kinds, missingKinds) := mapKindIDs s kindIDs in
  if decide (missingKinds = []) then mret kinds else fails (ErrMapKindIDs missingKinds).

Definition MapKindIDs (kindIDs : list Z) : W (list Kind) :=
  s ← get;
  let '(kinds, missingKinds) := mapKindIDs s kindIDs in
  if decide (missingKinds = []) then mret kinds else MapKindIDs_locked kindIDs.

Definition MapKindID (kindID : Z) : W Kind :=
  kinds ← MapKindIDs [kindID];
  match kinds with kind :: _ => mret kind | [] => panic end.

Definition assertKinds (kinds : list Kind) : W (list Z) :=
  s ← get;
  let '(_, missingKinds) := mapKinds s kinds in
  _ ← (if decide (missingKinds = []) then mret tt else WriteTransaction (defineKinds missingKinds));
  s ← get;
  mret (mapKinds s kinds).1.

Definition AssertKinds (kinds : list Kind) : W (list Z) :=
  s ← get;
  let '(kindIDs, missingKinds) := mapKinds s kinds in
  if decide (missingKinds = []) then mret kindIDs else assertKinds kinds.

(** ** Graphs *)

Definition setDefaultGraph (graphModel : GraphModel) (schema : GraphSchema) : W unit :=
  s ← get;
  if hasDefaultGraph s then mret tt
  else put (mkManager graphModel true (<[gs_Name schema := graphModel]> (graphs s))
              (kindsByID s) (kindIDsByKind s) (translationCache s)).

Definition SetDefaultGraph (schema : GraphSchema) : W unit :=
  ReadTransaction (
    graphModel ← lift (Query_SelectGraphByName (gs_Name schema));
    setDefaultGraph graphModel schema).

(** [ErrNoRows] says that the graph has to be created. *)
Definition assert_definition (schema : GraphSchema) : M DB GraphModel := fun db =>
  match Query_SelectGraphByName (gs_Name schema) db with
  | Done (db', inr e) => if decide (e = ErrNoRows) then Query_CreateGraph schema db' else Done (db', inr e)
  | Done (db', inl definition) => Query_AssertGraph schema definition db'
  | Panic => Panic
  | Spent => Spent
  end.

Definition assertGraph (schema : GraphSchema) : W GraphModel :=
  assertedGraph ← lift (assert_definition schema);
  s ← get;
  _ ← put (set_graphs s (<[gs_Name schema := assertedGraph]> (graphs s)));
  mret assertedGraph.

Definition AssertGraph_locked (schema : GraphSchema) : W GraphModel :=
  s ← get;
  match graphs s !! gs_Name schema with
  | Some graphInstance => mret graphInstance
  | None => assertGraph schema
  end.

Definition AssertGraph (schema : GraphSchema) : W GraphModel :=
  s ← get;
  match graphs s !! gs_Name schema with
  | Some graphInstance => mret graphInstance
  | None => AssertGraph_locked schema
  end.

Definition AssertDefaultGraph (schema : GraphSchema) : W unit :=
  WriteTransaction (
    graphModel ← AssertGraph schema;
    setDefaultGraph graphModel schema).

Definition DefaultGraph (s : SM) : GraphModel * bool := (defaultGraph s, hasDefaultGraph s).

(** ** The whole schema *)

Definition define_missing (kinds : list Kind) : W unit :=
  s ← get;
  let '(_, missingKinds) := mapKinds s kinds in
  if decide (missingKinds = []) then mret tt else defineKinds missingKinds.

Fixpoint define_graphs (l : list GraphSchema) : W unit :=
  match l with
  | [] => mret tt
  | graphSchema :: l' =>
      _ ← define_missing (gs_Nodes graphSchema);
      _ ← define_missing (gs_Edges graphSchema);
      define_graphs l'
  end.

Definition assertSchema (schema : Schema) : W unit :=
  _ ← lift Query_CreateSchema;
  _ ← fetch;
  define_graphs (sc_Graphs schema).

Definition AssertSchema (schema : Schema) : W unit :=
  _ ← WriteTransaction (assertSchema schema);
  s ← get;
  put (mkManager (defaultGraph s) (hasDefaultGraph s) (graphs s) (kindsByID s) (kindIDsByKind s)
         (Invalidate (translationCache s))).

End manager.

(** ** The maps and the table of kinds *)

Lemma map_all_app {K V} (find : K -> option V) keys : forall found missing,
  foldl (fun '(found, missing) key =>
    match find key with
    | Some v => (found ++ [v], missing)
    | None => (found, missing ++ [key])
    end) (found, missing) keys =
  (found ++ omap find keys, missing ++ filter (fun key => find key = None) keys).
Proof.
  induction keys as [|key keys IH]; intros found missing; [cbn; by rewrite !app_nil_r|].
  rewrite filter_cons. cbn -[filter]. destruct (find key) as [v|] eqn:E; rewrite IH.
  - rewrite decide_False by done. by rewrite <- app_assoc.
  - rewrite decide_True by done. by rewrite <- app_assoc.
Qed.

Lemma map_all_spec {K V} (find : K -> option V) keys :
  map_all find keys = (omap find keys, filter (fun key => find key = None) keys).
Proof. unfold map_all. by rewrite map_all_app. Qed.

Lemma map_all_complete {K V} (find : K -> option V) keys :
  (map_all find keys).2 = [] -> Forall2 (fun key v => find key = Some v) keys (map_all find keys).1.
Proof.
  rewrite map_all_spec. cbn [fst snd]. induction keys as [|key keys IH]; [by constructor|]. rewrite filter_cons.
  cbn -[filter]. destruct (find key) as [v|] eqn:E.
  - rewrite decide_False by done. intros. constructor; auto.
  - by rewrite decide_True.
Qed.

Lemma map_all_found {K V} (find : K -> option V) keys vs :
  Forall2 (fun key v => find key = Some v) keys vs -> map_all find keys = (vs, []).
Proof.
  rewrite map_all_spec. induction 1 as [|key v keys vs Hk _ [= IH1 IH2]]; [done|].
  rewrite filter_cons. cbn -[filter]. rewrite Hk, decide_False by done. by rewrite IH1, IH2.
Qed.

Lemma map_all_missing {K V} (find : K -> option V) keys :
  Forall (fun key => is_Some (find key)) keys -> (map_all find keys).2 = [].
Proof.
  rewrite map_all_spec. cbn [fst snd]. induction 1 as [|key keys [v Hv] _ IH]; [done|].
  rewrite filter_cons, Hv, decide_False by done. done.
Qed.

(** A loop that stores entries under keys that determine them. *)
Lemma foldl_insert_spec {A K V} `{Countable K} (key : A -> K) (val : A -> V) l : forall acc : gmap K V,
  (forall a b, a ∈ l -> b ∈ l -> key a = key b -> val a = val b) ->
  (forall a, a ∈ l -> foldl (fun m a => <[key a := val a]> m) acc l !! key a = Some (val a)) /\
  (forall k, (forall a, a ∈ l -> key a <> k) -> foldl (fun m a => <[key a := val a]> m) acc l !! k = acc !! k).
Proof.
  induction l as [|x l IH]; intros acc Hf; [split; [by intros a ?%elem_of_nil|done]|].
  destruct (IH (<[key x := val x]> acc)) as [H1 H2]; [intros; apply Hf; [by right..|done]|]. cbn [foldl]. split.
  - intros a [->|Ha]%elem_of_cons; [|by apply H1].
    destruct (decide (Exists (fun b => key b = key x) l)) as [(b & Hb & He)%Exists_exists|Hno].
    + pose proof (H1 b Hb) as Hl. rewrite He in Hl. rewrite Hl. f_equal. apply Hf; [by right|by left|done].
    + rewrite H2; [apply lookup_insert_eq|]. intros b Hb He. apply Hno, Exists_exists. by exists b.
  - intros k Hk. rewrite H2 by (intros; apply Hk; by right). apply lookup_insert_ne. apply Hk. by left.
Qed.

Section invariant.
Context {T : Type}.
Context {DB : Type} `{HD : Database DB} `{HC : Catalog DB} `{HR : MapRange} `{!DatabaseLaws DB}.

Notation SM := (SchemaManager T).

(** The identifier of a kind in the database. *)
Definition named (db : DB) (k : Kind) : option Z := k ≫= fun n => kinds_of db !! n.

Lemma named_inj db k1 k2 i : named db k1 = Some i -> named db k2 = Some i -> k1 = k2.
Proof using Type*.
  intros (n1 & -> & H1)%bind_Some (n2 & -> & H2)%bind_Some. by rewrite (kinds_inj _ _ _ _ H1 H2).
Qed.

Lemma named_mono db db' k i : kinds_of db ⊆ kinds_of db' -> named db k = Some i -> named db' k = Some i.
Proof using Type. intros Hsub (n & -> & Hn)%bind_Some. cbn. by eapply lookup_weaken. Qed.

(** Everything the maps say of the kinds that are not in doubt is in the database,
    and the maps are inverse to each other on these kinds. *)
Record coherent (doubtful : Kind -> Prop) (s : SM) (db : DB) : Prop := {
  co_kinds k id : ~ doubtful k -> kindsByID s !! k = Some id -> named db k = Some id /\ kindIDsByKind s !! id = Some k;
  co_ids id k : ~ doubtful k -> kindIDsByKind s !! id = Some k -> named db k = Some id;
}.

Definition nothing : Kind -> Prop := fun _ => False.

Lemma coherent_new D cache db : coherent D (NewSchemaManager cache) db.
Proof using Type. split; cbn; intros ? ?; by rewrite lookup_empty. Qed.

Lemma coherent_mono D s db db' : coherent D s db -> kinds_of db ⊆ kinds_of db' -> coherent D s db'.
Proof using Type.
  intros [Hk Hi] Hsub. split.
  - intros k id Hd [Hn Hid]%Hk; [|done]. split; [by eapply named_mono|done].
  - intros id k Hd Hn%Hi; [|done]. by eapply named_mono.
Qed.

Definition same_maps (s s' : SM) : Prop := kindsByID s' = kindsByID s /\ kindIDsByKind s' = kindIDsByKind s.

Lemma coherent_same D s s' db : same_maps s s' -> coherent D s db -> coherent D s' db.
Proof using Type. intros [H1 H2] [Hk Hi]. split; by rewrite ?H1, ?H2. Qed.

(** What is right in the maps stays, and no other identifier is mapped to a kind
    that is in the database. *)
Record kept (s : SM) (db : DB) (s' : SM) : Prop := {
  ke_kinds k id : kindsByID s !! k = Some id -> named db k = Some id -> kindsByID s' !! k = Some id;
  ke_ids id k : kindIDsByKind s !! id = Some k -> named db k = Some id -> kindIDsByKind s' !! id = Some k;
  ke_new id k id' : kindIDsByKind s' !! id = Some k -> named db k = Some id' -> id' = id \/ kindIDsByKind s !! id = Some k;
}.

Lemma kept_same s s' db : same_maps s s' -> kept s db s'.
Proof using Type. intros [H1 H2]. split; rewrite ?H1, ?H2; auto. Qed.

Lemma kept_trans s1 db1 s2 db2 s3 : kept s1 db1 s2 -> kinds_of db1 ⊆ kinds_of db2 -> kept s2 db2 s3 -> kept s1 db1 s3.
Proof using Type.
  intros [H1 H2 H3] Hsub [G1 G2 G3]. split.
  - intros k id Hk Hn. apply G1; [by apply H1|by eapply named_mono].
  - intros id k Hk Hn. apply G2; [by apply H2|by eapply named_mono].
  - intros id k id' Hk Hn. destruct (G3 id k id' Hk) as [->|Hk2]; [by eapply named_mono|by left|by apply H3].
Qed.

(** An entry of the database is written to both maps. *)
Lemma kept_insert s db k id :
  named db k = Some id -> kept s db (set_kinds s (<[k := id]> (kindsByID s)) (<[id := k]> (kindIDsByKind s))).
Proof using Type*.
  intros Hn. split; cbn.
  - intros k' id' Hl Hn'. destruct (decide (k' = k)) as [->|Hne]; [rewrite lookup_insert_eq; congruence|by rewrite lookup_insert_ne].
  - intros id' k' Hl Hn'. destruct (decide (id' = id)) as [->|Hne]; [|by rewrite lookup_insert_ne].
    rewrite lookup_insert_eq. f_equal. by eapply named_inj.
  - intros id' k' id'' [[<- <-]|[_ Hl]]%lookup_insert_Some Hn'; [left; congruence|by right].
Qed.

Lemma coherent_insert D s db k id :
  coherent D s db -> named db k = Some id ->
  coherent D (set_kinds s (<[k := id]> (kindsByID s)) (<[id := k]> (kindIDsByKind s))) db.
Proof using Type*.
  intros [Hk Hi] Hn. split; cbn.
  - intros k' id' Hd [[<- <-]|[Hne Hl]]%lookup_insert_Some; [by rewrite lookup_insert_eq|].
    apply Hk in Hl as [Hn' Hid]; [|done]. split; [done|]. destruct (decide (id' = id)) as [->|Hni].
    + by destruct Hne; apply (named_inj db _ _ id).
    + by rewrite lookup_insert_ne.
  - intros id' k' Hd [[<- <-]|[Hne Hl]]%lookup_insert_Some; [done|by apply Hi].
Qed.

(** ** Sections *)

(** What code under the write lock does within a transaction, however it ends: it
    revives no aborted transaction and loses no kind; it changes the maps only while
    the transaction is alive, and keeps what is right in them; and while the
    transaction is alive the maps agree with what it sees. *)
Record worked (s : SM) (db : DB) (s' : SM) (db' : DB) : Prop := {
  wo_alive : alive db' -> alive db /\ kinds_of db ⊆ kinds_of db';
  wo_maps : same_maps s s' \/ (alive db /\ kept s db s');
  wo_coherent D : alive db' -> coherent D s db -> coherent D s' db';
}.

Definition works {A} (d : M (SM * DB) A) : Prop :=
  forall s db s' db' r, d (s, db) = Done ((s', db'), r) -> worked s db s' db'.

Lemma worked_refl s db : worked s db s db.
Proof using Type. split; [done|by left|done]. Qed.

Lemma worked_trans s1 db1 s2 db2 s3 db3 : worked s1 db1 s2 db2 -> worked s2 db2 s3 db3 -> worked s1 db1 s3 db3.
Proof using Type.
  intros [A1 M1 C1] [A2 M2 C2]. split.
  - intros (Ha2 & Hk2)%A2. apply A1 in Ha2 as [Ha1 Hk1]. split; [done|by etrans].
  - destruct M2 as [[E1 E2]|[(Ha & Hk)%A1 K2]].
    + destruct M1 as [[F1 F2]|[Ha [K1 K2 K3]]]; [left; split; congruence|right].
      split; [done|]. split; rewrite ?E1, ?E2; auto.
    + right. split; [done|]. eapply kept_trans; [|done|done]. destruct M1 as [Hs|[_ Hkept]]; [by apply kept_same|done].
  - intros D Ha3 Hco. destruct (A2 Ha3) as [Ha2 _]. by apply C2, C1.
Qed.

Lemma works_ret {A} (a : A) : works (mret a).
Proof using Type. intros s db s' db' r [= <- <- <-]. apply worked_refl. Qed.

Lemma works_get : works get.
Proof using Type. intros s db s' db' r [= <- <- <-]. apply worked_refl. Qed.

Lemma works_bind {A B} (m : M (SM * DB) A) (f : A -> M (SM * DB) B) : works m -> (forall a, works (f a)) -> works (m ≫= f).
Proof using Type.
  intros Hm Hf s db s' db' r. unfold mbind, M_bind.
  destruct (m (s, db)) as [[[s1 db1] [a|e]]| |] eqn:E; [|intros [= <- <- _]; by eapply Hm|done..].
  intros Hr. eapply worked_trans; [by eapply Hm|by eapply Hf].
Qed.

(** Statements leave the maps alone. *)
Lemma works_lift {A} (m : M DB A) :
  (forall db db' r, m db = Done (db', r) -> alive db' -> alive db /\ kinds_of db ⊆ kinds_of db') -> works (lift m).
Proof using Type.
  intros Hm s db s' db' r. unfold lift. destruct (m db) as [[db1 r1]| |] eqn:E; [|done..]. intros [= <- <- _].
  split; [by eapply Hm|by left|]. intros D Ha Hco. eapply coherent_mono; [done|]. by eapply Hm.
Qed.

Lemma send_quiet {R} (st : statement R) db db' r :
  Raw st db = (db', r) -> keeps_kinds st = true -> alive db' -> alive db /\ kinds_of db ⊆ kinds_of db'.
Proof using Type*. intros. split; [by eapply raw_alive|by eapply raw_kinds]. Qed.

(** An identifier answered for a kind is the one in the database, which the
    statement has left alive. *)
Lemma insert_kind_inv k db db' r :
  Query_InsertOrGetKind k db = Done (db', r) ->
  (alive db' -> alive db /\ kinds_of db ⊆ kinds_of db') /\ forall id, r = inl id -> alive db' /\ named db' k = Some id.
Proof using Type*.
  unfold Query_InsertOrGetKind. destruct k as [n|]; cbn [Kind_String]; [|done]. unfold mbind at 1, outcome_bind.
  unfold mbind, M_bind, send. destruct (Raw (SqlInsertKind n) db) as [db1 res] eqn:Hraw. unfold first_row.
  pose proof (send_quiet _ _ _ _ Hraw eq_refl) as Hq.
  destruct (rows res) as [|[id|e] l] eqn:Er; cbn; [by intros [= <- <-]| |by intros [= <- <-]].
  pose proof (insert_kind_alive _ _ _ _ _ _ Hraw Er) as Ha.
  destruct (insert_kind_rows _ _ _ _ Hraw Ha) as [Hnil|(i & Hi & Hn)]; [congruence|].
  rewrite Er in Hi. injection Hi as -> _.
  destruct (Result_Error res false); intros [= <- <-]; split; try done. by intros ? [= <-].
Qed.

(** Looking up the identifier of one kind never succeeds in a transaction that is
    alive afterwards, whether the kind is in the database or not: the statement it
    sends lists the indexes of a table that is not named. *)
Lemma select_kind_id_never k db db' r :
  Query_SelectKindID k db = Done (db', r) -> alive db' -> r = inr ErrNoRows.
Proof using Type*.
  unfold Query_SelectKindID. destruct k as [n|]; cbn [Kind_String]; [|done]. unfold mbind at 1, outcome_bind.
  unfold mbind, M_bind, send. destruct (Raw (SqlSelectKindID n) db) as [db1 r1] eqn:Hraw. unfold first_row.
  destruct (rows r1) as [|[id|e] l] eqn:Er; cbn; [by intros [= <- <-]| |];
    intros Hd Ha; exfalso; (assert (db1 = db') as -> by (destruct (Result_Error r1 false); by injection Hd || by injection Hd));
    by rewrite (select_kind_id_rows _ _ _ _ Hraw Ha) in Er.
Qed.

Definition defineKind (kind : Kind) : M (SM * DB) unit :=
  kindID ← lift (Query_InsertOrGetKind kind);
  s ← get;
  put (set_kinds s (<[kind := kindID]> (kindsByID s)) (<[kindID := kind]> (kindIDsByKind s))).

Lemma defineKinds_cons kind kinds st :
  defineKinds (kind :: kinds) st = (defineKind kind ≫= fun _ => defineKinds kinds) st.
Proof using Type.
  destruct st as [s db]. cbn [defineKinds]. unfold defineKind, mbind, M_bind, lift, get, put.
  by destruct (Query_InsertOrGetKind kind db) as [[db1 [id|e]]| |].
Qed.

Lemma works_defineKind k : works (defineKind k).
Proof using Type*.
  intros s db s' db' r. unfold defineKind, mbind, M_bind, lift, get, put.
  destruct (Query_InsertOrGetKind k db) as [[db1 [id|e]]| |] eqn:E; [| |done..]; intros [= <- <- _];
    destruct (insert_kind_inv _ _ _ _ E) as [Hq Hid].
  - destruct (Hid id eq_refl) as [Ha Hn]. destruct (Hq Ha) as [Ha0 Hk]. split; [done| |].
    + right. split; [done|]. eapply kept_trans; [by apply (kept_same s)|exact Hk|by apply kept_insert].
    + intros D _ Hco. apply coherent_insert; [|done]. by eapply coherent_mono.
  - split; [done|by left|]. intros D Ha Hco. eapply coherent_mono; [done|by apply Hq].
Qed.

Lemma works_defineKinds kinds : works (defineKinds kinds).
Proof using Type*.
  induction kinds as [|k kinds IH]; [apply works_ret|].
  intros s db s' db' r Hrun. rewrite defineKinds_cons in Hrun. revert Hrun.
  apply (works_bind (defineKind k) (fun _ => defineKinds kinds)); [apply works_defineKind|done].
Qed.

(** The kinds that have been read are those of the database, which is alive. *)
Lemma select_kinds_inv db db' r :
  Query_SelectKinds db = Done (db', r) ->
  (alive db' -> alive db /\ kinds_of db ⊆ kinds_of db') /\
  forall kinds, r = inl kinds -> alive db' /\ forall k, kinds !! k = named db' k.
Proof using Type*.
  unfold Query_SelectKinds, select_rows, mbind, M_bind, send.
  destruct (Raw SqlSelectKinds db) as [db1 res] eqn:Hraw. pose proof (send_quiet _ _ _ _ Hraw eq_refl) as Hq.
  destruct (scan_all (rows res)) as [l|e] eqn:Hscan; [|by intros [= <- <-]].
  destruct (Result_Error res true) as [e|] eqn:He; cbn; [by intros [= <- <-]|].
  pose proof (raw_read _ _ _ _ Hraw He) as Ha. intros [= <- <-]. split; [done|]. intros kinds [= <-]. split; [done|].
  destruct (select_kinds_rows _ _ _ Hraw Ha) as (l' & Hrows & Hl). rewrite Hrows, scan_all_inl in Hscan.
  injection Hscan as ->.
  assert (Hin : forall i n, (i, n) ∈ l <-> kinds_of db1 !! n = Some i).
  { intros i n. rewrite Hl, list_elem_of_fmap, <- elem_of_map_to_list. split; [by intros ([? ?] & [= -> ->] & ?)|].
    intros. by exists (n, i). }
  destruct (foldl_insert_spec (fun row : Z * string => Some row.2) fst l ∅) as [H1 H2].
  { intros [i n] [i' n'] Ha1%Hin Hb1%Hin. cbn. intros [= <-]. congruence. }
  intros k. destruct (named db1 k) as [i|] eqn:Ek.
  - apply bind_Some in Ek as (n & -> & Hn%Hin). by apply (H1 (i, n)).
  - rewrite H2; [apply lookup_empty|]. intros [i n] Hn%Hin <-. cbn in Ek. congruence.
Qed.

(** The table is written over the maps. *)
Lemma refresh_maps s db kinds (s' := set_kinds s kinds
    (foldl (fun ids entry => <[entry.2 := entry.1]> ids) (kindIDsByKind s) (map_to_list kinds))) :
  (forall k, kinds !! k = named db k) -> kept s db s' /\ forall D, coherent D s db -> coherent D s' db.
Proof using Type*.
  intros Hkinds. destruct (foldl_insert_spec (snd : Kind * Z -> Z) fst (map_to_list kinds) (kindIDsByKind s)) as [H1 H2].
  { intros [k i] [k' i'] Hk1%elem_of_map_to_list Hk2%elem_of_map_to_list. cbn. intros <-.
    rewrite Hkinds in Hk1, Hk2. by eapply named_inj. }
  assert (Hids : forall id k, kindIDsByKind s' !! id = Some k ->
    named db k = Some id \/ (kindIDsByKind s !! id = Some k /\ forall k', named db k' <> Some id)).
  { intros id k Hid.
    destruct (decide (Exists (fun e => e.2 = id) (map_to_list kinds))) as [([k' id'] & Hin & He)%Exists_exists|Hno].
    - cbn in He. subst id'. pose proof (H1 _ Hin) as Hl. cbn in Hl, Hid. rewrite Hid in Hl. injection Hl as <-.
      left. by rewrite <- Hkinds; apply elem_of_map_to_list.
    - cbn in Hid. rewrite H2 in Hid; [|intros e Hin He; apply Hno, Exists_exists; by exists e].
      right. split; [done|]. intros k' Hk'. apply Hno, Exists_exists. exists (k', id). split; [|done].
      apply elem_of_map_to_list. by rewrite Hkinds. }
  assert (Hentry : forall k id, named db k = Some id -> kindsByID s' !! k = Some id /\ kindIDsByKind s' !! id = Some k).
  { intros k id Hn. cbn. rewrite Hkinds. split; [done|]. apply (H1 (k, id)), elem_of_map_to_list. by rewrite Hkinds. }
  split.
  - split; [by intros k id _ []%Hentry|by intros id k _ []%Hentry|]. intros id k id' [Hn|[Hid _]]%Hids Hn'; [left; congruence|by right].
  - intros D [Hk Hi]. split.
    + intros k id _ Hl. cbn in Hl. rewrite Hkinds in Hl. split; [done|by apply Hentry].
    + intros id k Hd [Hn|[Hid _]]%Hids; [done|by apply Hi].
Qed.

Lemma fetch_inv s db s' db' r :
  fetch (s, db) = Done ((s', db'), r) ->
  worked s db s' db' /\ (r = inl tt -> alive db' /\ forall k, kindsByID s' !! k = named db' k).
Proof using Type*.
  unfold fetch, mbind, M_bind, lift, get, put.
  destruct (Query_SelectKinds db) as [[db1 [kinds|e]]| |] eqn:E; [| |done..]; intros [= <- <- <-];
    destruct (select_kinds_inv _ _ _ E) as [Hq Hk].
  - destruct (Hk _ eq_refl) as [Ha Hkinds]. destruct (Hq Ha) as [Ha0 Hsub].
    destruct (refresh_maps s db1 kinds Hkinds) as [Hkept Hco]. split; [|done]. split; [done| |].
    + right. split; [done|]. eapply kept_trans; [by apply (kept_same s)|exact Hsub|exact Hkept].
    + intros D _ Hc. apply Hco. by eapply coherent_mono.
  - split; [|done]. split; [done|by left|]. intros D Ha Hc. eapply coherent_mono; [done|by apply Hq].
Qed.

Lemma works_fetch : works fetch.
Proof using Type*. intros s db s' db' r Hrun. by apply fetch_inv in Hrun as [? _]. Qed.

Lemma works_define_missing kinds : works (define_missing kinds).
Proof using Type*.
  apply works_bind; [apply works_get|]. intros s. destruct (mapKinds s kinds). case_decide; [apply works_ret|apply works_defineKinds].
Qed.

Lemma works_define_graphs l : works (define_graphs l).
Proof using Type*.
  induction l as [|g l IH]; [apply works_ret|]. repeat (apply works_bind; [apply works_define_missing|intros _]). done.
Qed.

Lemma works_assertSchema schema : works (assertSchema schema).
Proof using Type*.
  apply works_bind; [|intros _; apply works_bind; [apply works_fetch|intros _; apply works_define_graphs]].
  apply works_lift. intros db db' r. unfold Query_CreateSchema, Query_exec, mbind, M_bind, send.
  destruct (Raw SqlSchemaUp db) as [db1 res] eqn:Hraw. pose proof (send_quiet _ _ _ _ Hraw eq_refl) as Hq.
  destruct (Result_Error res false); by intros [= <- _].
Qed.

Lemma lift_inv {A} (m : M DB A) (s : SM) db st' a :
  lift m (s, db) = Done (st', inl a) -> exists db', m db = Done (db', inl a) /\ st' = (s, db').
Proof using Type. unfold lift. destruct (m db) as [[db1 r]| |] eqn:E; [|done..]. intros [= <- ->]. by exists db1. Qed.

Lemma write_inv {A} (d : M (SM * DB) A) s db s' db' a :
  WriteTransaction d (s, db) = Done ((s', db'), inl a) ->
  exists now, d (s, db) = Done ((s', now), inl a) /\ Commit db now = (db', None).
Proof using Type.
  unfold WriteTransaction. destruct (Acquire db); [done|]. destruct (BeginTx db); [done|].
  destruct (d (s, db)) as [[[s1 now] [b|e]]| |] eqn:E; [|done..].
  destruct (Commit db now) as [db1 [e|]] eqn:Ec; [done|]. intros [= <- <- <-]. by exists now.
Qed.

(** A section under the write lock, however it ends: no kind is lost and what is
    right in the maps stays.  When it commits, the maps agree with the database. *)
Definition ended (s : SM) (db : DB) (s' : SM) (db' : DB) (ok : bool) : Prop :=
  kinds_of db ⊆ kinds_of db' /\ kept s db s' /\ (ok = true -> forall D, coherent D s db -> coherent D s' db').

Definition is_inl {A B} (r : A + B) : bool := match r with inl _ => true | inr _ => false end.

Lemma ended_refl s db ok : ended s db s db ok.
Proof using Type. split_and!; [done|by apply kept_same|done]. Qed.

Lemma write_ended {A} (d : M (SM * DB) A) s db s' db' r :
  works d -> WriteTransaction d (s, db) = Done ((s', db'), r) -> ended s db s' db' (is_inl r).
Proof using Type*.
  intros Hd. unfold WriteTransaction. destruct (Acquire db); [intros [= <- <- <-]; apply ended_refl|].
  destruct (BeginTx db); [intros [= <- <- <-]; apply ended_refl|].
  destruct (d (s, db)) as [[[s1 now] r1]| |] eqn:E; [|done..]. destruct (Hd _ _ _ _ _ E) as [Ha Hm Hco].
  assert (Hkept : kept s db s1) by (destruct Hm as [Hs|[_ Hk]]; [by apply kept_same|done]).
  destruct r1 as [a|e].
  - destruct (Commit db now) as [db1 [e|]] eqn:Ec; intros [= <- <- <-].
    + split_and!; [by eapply commit_failed|done|done].
    + destruct (commit_ok _ _ _ Ec) as (Hnow & Hk & _ & _). destruct (Ha Hnow) as [_ Hk'].
      split_and!; [by etrans|done|]. intros _ D Hc. eapply coherent_mono; [|exact Hk]. by apply Hco.
  - intros [= <- <- <-]. split_and!; [apply rollback_kinds|done|done].
Qed.

(** Kinds that are defined are in the map afterwards, and none is taken out. *)
Lemma defineKinds_defined kinds : forall (s : SM) (db : DB) s' db' u,
  defineKinds kinds (s, db) = Done ((s', db'), inl u) ->
  forall k, k ∈ kinds \/ is_Some (kindsByID s !! k) -> is_Some (kindsByID s' !! k).
Proof using Type.
  induction kinds as [|kind kinds IH]; intros s db s' db' u Hrun k Hk.
  - injection Hrun as <- <- <-. by destruct Hk as [?%elem_of_nil|].
  - apply M_bind_inv in Hrun as (st1 & id & (db1 & Hins & ->)%lift_inv & Hrun).
    apply M_bind_inv in Hrun as (st2 & s2 & [= <- <-] & Hrun).
    apply M_bind_inv in Hrun as (st3 & [] & [= <-] & Hrun). apply (IH _ _ _ _ _ Hrun). cbn.
    destruct (decide (k = kind)) as [->|Hne]; [right; by rewrite lookup_insert_eq|rewrite lookup_insert_ne by done].
    destruct Hk as [[->|Hk]%elem_of_cons|Hk]; [done|by left|by right].
Qed.

Lemma assertKinds_ended kinds s db s' db' r :
  assertKinds kinds (s, db) = Done ((s', db'), r) -> ended s db s' db' (is_inl r).
Proof using Type*.
  unfold assertKinds, mbind, M_bind, get. destruct (mapKinds s kinds) as [found missing].
  case_decide; [intros [= <- <- <-]; apply ended_refl|].
  destruct (WriteTransaction (defineKinds missing) (s, db)) as [[[s1 db1] [u|e]]| |] eqn:E; [| |done..];
    intros [= <- <- <-]; apply (write_ended _ _ _ _ _ _ (works_defineKinds missing) E).
Qed.

Lemma assertKinds_inv kinds (s : SM) (db : DB) s' db' ids :
  assertKinds kinds (s, db) = Done ((s', db'), inl ids) -> Forall2 (fun k id => kindsByID s' !! k = Some id) kinds ids.
Proof using Type.
  intros (st1 & s1 & [= <- <-] & Hrun)%M_bind_inv.
  pose proof (map_all_spec (fun kind => kindsByID s !! kind) kinds) as Hmap. fold (mapKinds s kinds) in Hmap.
  destruct (mapKinds s kinds) as [found missing]. injection Hmap as Hfound Hmissing.
  apply M_bind_inv in Hrun as ([s2 db2] & [] & Hdef & (st3 & s3 & [= <- <-] & [= <- <- <-])%M_bind_inv).
  apply map_all_complete, map_all_missing. apply Forall_forall. intros k Hin.
  assert (Hk : k ∈ missing \/ is_Some (kindsByID s !! k)).
  { destruct (kindsByID s !! k) as [id|] eqn:E; [by right|left]. rewrite Hmissing. by apply list_elem_of_filter. }
  case_decide as Hnil.
  - injection Hdef as <- <-. by destruct Hk as [Hk|]; [rewrite Hnil in Hk; apply elem_of_nil in Hk|].
  - apply write_inv in Hdef as (now & Hdef & _). by eapply defineKinds_defined.
Qed.

(** A kind that is mapped keeps its identifier when kinds are asserted. *)
Lemma defineKinds_keeps kinds : forall (s : SM) (db : DB) s' db' u k,
  defineKinds kinds (s, db) = Done ((s', db'), inl u) -> k ∉ kinds -> kindsByID s' !! k = kindsByID s !! k.
Proof using Type.
  induction kinds as [|kind kinds IH]; intros s db s' db' u k Hrun Hk; [by injection Hrun as <- <- <-|].
  apply M_bind_inv in Hrun as (st1 & id & (db1 & Hins & ->)%lift_inv & Hrun).
  apply M_bind_inv in Hrun as (st2 & s2 & [= <- <-] & Hrun).
  apply M_bind_inv in Hrun as (st3 & [] & [= <-] & Hrun). apply not_elem_of_cons in Hk as [Hne Hk].
  rewrite (IH _ _ _ _ _ _ Hrun Hk). cbn. by rewrite lookup_insert_ne.
Qed.

Lemma AssertKinds_maps kinds (s s' : SM) (db db' : DB) ids :
  AssertKinds kinds (s, db) = Done ((s', db'), inl ids) ->
  kindsByID s ⊆ kindsByID s' /\ Forall2 (fun k id => kindsByID s' !! k = Some id) kinds ids.
Proof using Type.
  intros (st1 & s1 & [= <- <-] & Hrun)%M_bind_inv.
  pose proof (map_all_complete (fun kind => kindsByID s !! kind) kinds) as Hall.
  pose proof (map_all_spec (fun kind => kindsByID s !! kind) kinds) as Hsp. fold (mapKinds s kinds) in Hall, Hsp.
  destruct (mapKinds s kinds) as [found missing] eqn:Em. case_decide as Hnil.
  { injection Hrun as <- <- <-. split; [done|]. by apply Hall. }
  split; [|by eapply assertKinds_inv]. apply M_bind_inv in Hrun as (st2 & s2 & [= <- <-] & Hrun). rewrite Em in Hrun.
  rewrite decide_False in Hrun by done.
  apply M_bind_inv in Hrun as ([s3 db3] & [] & (now & Hdef & _)%write_inv & (st4 & s4 & [= <- <-] & [= <- <- _])%M_bind_inv).
  apply map_subseteq_spec. intros k id Hk. rewrite (defineKinds_keeps _ _ _ _ _ _ _ Hdef); [done|].
  injection Hsp as _ ->. intros [? _]%list_elem_of_filter. congruence.
Qed.

(** [AssertKinds] returns through the read lock or through the write lock. *)
Lemma AssertKinds_inv D kinds s db s' db' ids :
  coherent D s db -> AssertKinds kinds (s, db) = Done ((s', db'), inl ids) ->
  coherent D s' db' /\ kinds_of db ⊆ kinds_of db' /\ Forall2 (fun k id => kindsByID s' !! k = Some id) kinds ids.
Proof using Type*.
  intros Hco (st1 & s1 & [= <- <-] & Hrun)%M_bind_inv.
  pose proof (map_all_complete (fun kind => kindsByID s !! kind) kinds) as Hall. fold (mapKinds s kinds) in Hall.
  destruct (mapKinds s kinds) as [found missing]. case_decide as Hnil.
  - injection Hrun as <- <- <-. split_and!; [done|done|]. by apply Hall.
  - destruct (assertKinds_ended _ _ _ _ _ _ Hrun) as (Hk & _ & Hc). split_and!; [by apply Hc|done|by eapply assertKinds_inv].
Qed.

Lemma found_kinds (s : SM) (db : DB) kinds ids :
  Forall2 (fun k id => kindsByID s !! k = Some id) kinds ids ->
  MapKinds kinds (s, db) = Done ((s, db), inl ids).
Proof using Type.
  intros H. unfold MapKinds, mbind, M_bind, get. unfold mapKinds. by rewrite (map_all_found _ _ _ H).
Qed.

Lemma found_ids D (s : SM) db kinds ids :
  coherent D s db -> Forall (fun k => ~ D k) kinds -> Forall2 (fun k id => kindsByID s !! k = Some id) kinds ids ->
  MapKindIDs ids (s, db) = Done ((s, db), inl kinds).
Proof using Type.
  intros Hco Hd H. unfold MapKindIDs, mbind, M_bind, get. unfold mapKindIDs.
  rewrite (map_all_found _ ids kinds); [done|].
  apply Forall2_flip. induction H as [|k id kinds ids Hk _ IH]; [constructor|]. apply Forall_cons in Hd as [Hdk Hd].
  constructor; [by apply (co_kinds _ _ _ Hco)|by apply IH].
Qed.

(** ** Runs *)

Context (Invalidate : T -> T).

(** The sections that change the maps of kinds, with any outcome but a panic. *)
Inductive section : bool -> SM * DB -> SM * DB -> Prop :=
| section_fetch st st' r : Fetch st = Done (st', r) -> section (is_inl r) st st'
| section_assert_kinds kinds st st' r : assertKinds kinds st = Done (st', r) -> section (is_inl r) st st'
| section_assert_schema schema st st' r : AssertSchema Invalidate schema st = Done (st', r) -> section (is_inl r) st st'.

(** The kinds a section has written to one of the maps. *)
Definition written (s s' : SM) (k : Kind) : Prop :=
  exists id, (kindsByID s' !! k = Some id /\ kindsByID s !! k <> Some id) \/
             (kindIDsByKind s' !! id = Some k /\ kindIDsByKind s !! id <> Some k).

(** Sections of any callers, and anything that leaves the maps of kinds alone while
    the database keeps its kinds: graphs that are asserted, other sessions.  What a
    section that ended with an error has written is in doubt from then on. *)
Inductive step : (Kind -> Prop) * (SM * DB) -> (Kind -> Prop) * (SM * DB) -> Prop :=
| step_done D st st' : section true st st' -> step (D, st) (D, st')
| step_failed D st st' : section false st st' -> step (D, st) (fun k => D k \/ written st.1 st'.1 k, st')
| step_other D s s' db db' : same_maps s s' -> kinds_of db ⊆ kinds_of db' -> step (D, (s, db)) (D, (s', db')).

Lemma section_ended ok s db s' db' : section ok (s, db) (s', db') -> ended s db s' db' ok.
Proof using Type*.
  intros Hs. inversion Hs as [? ? r Hf|kinds ? ? r Ha|schema ? ? r Ha]; subst.
  - eapply write_ended; [apply works_fetch|exact Hf].
  - by eapply assertKinds_ended.
  - unfold AssertSchema, mbind, M_bind, get, put in Ha.
    destruct (WriteTransaction (assertSchema schema) (s, db)) as [[[s1 db1] [u|e]]| |] eqn:E; [| |done..];
      injection Ha as <- <- <-; destruct (write_ended _ _ _ _ _ _ (works_assertSchema schema) E) as (Hk & [K1 K2 K3] & Hco).
    + split_and!; [done|by split|]. intros _ D Hc. eapply coherent_same; [|by apply Hco]. done.
    + by split_and!.
Qed.

Lemma Fetch_inv D s db s' db' u :
  Fetch (s, db) = Done ((s', db'), inl u) -> coherent D s db ->
  coherent D s' db' /\ kinds_of db ⊆ kinds_of db' /\
  exists now, kinds_of db ⊆ kinds_of now /\ kinds_of now ⊆ kinds_of db' /\ forall k, kindsByID s' !! k = named now k.
Proof using Type*.
  intros Hf Hco. destruct (write_ended _ _ _ _ _ _ works_fetch Hf) as (Hk & _ & Hc). split_and!; [by apply Hc|done|].
  apply write_inv in Hf as (now & Hrun & Hcm). destruct (commit_ok _ _ _ Hcm) as (Ha & Hk1 & _ & _). destruct u.
  destruct (fetch_inv _ _ _ _ _ Hrun) as [[Hal _ _] [_ Hall]]; [done|]. exists now. split_and!; [by apply Hal|done|done].
Qed.

(** A kind that is in the map and not in doubt. *)
Definition settled (D : Kind -> Prop) (s : SM) (k : Kind) (id : Z) : Prop := ~ D k /\ kindsByID s !! k = Some id.

Lemma step_coherent D s db D' s' db' :
  step (D, (s, db)) (D', (s', db')) -> coherent D s db ->
  coherent D' s' db' /\ kinds_of db ⊆ kinds_of db' /\ forall k id, settled D s k id -> settled D' s' k id.
Proof using Type*.
  intros Hstep Hco. inversion Hstep as [? ? ? Hs|? ? ? Hs|? ? ? ? ? Hs Hk]; subst.
  - destruct (section_ended _ _ _ _ _ Hs) as (Hk & Hkept & Hc). split_and!; [by apply Hc|done|].
    intros k id [Hd Hl]. split; [done|]. apply (ke_kinds _ _ _ Hkept); [done|by apply (co_kinds _ _ _ Hco)].
  - destruct (section_ended _ _ _ _ _ Hs) as (Hk & Hkept & _). destruct Hkept as [K1 K2 K3]. cbn. split_and!; [|done|].
    + split; intros x y Hd Hl; cbn in Hd.
      * destruct (decide (kindsByID s !! x = Some y)) as [Hx|Hx]; [|exfalso; apply Hd; right; exists y; by left].
        destruct (co_kinds _ _ _ Hco x y) as [Hn Hid]; [tauto|done|]. split; [by eapply named_mono|by apply K2].
      * destruct (decide (kindIDsByKind s !! x = Some y)) as [Hx|Hx]; [|exfalso; apply Hd; right; exists x; by right].
        eapply named_mono; [done|]. apply (co_ids _ _ _ Hco); [tauto|done].
    + intros k id [Hd Hl]. destruct (co_kinds _ _ _ Hco k id Hd Hl) as [Hn Hid]. pose proof (K1 _ _ Hl Hn) as Hl'.
      split; [|done]. intros [?|(id' & [[H1 H2]|[H1 H2]])]; [done|congruence|].
      destruct (K3 id' k id H1 Hn) as [->|?]; done.
  - destruct Hs as [H1 H2]. split_and!; [|done|].
    + eapply coherent_mono; [by eapply coherent_same|done].
    + unfold settled. by rewrite H1.
Qed.

Lemma steps_coherent st st' :
  rtc step st st' -> coherent st.1 st.2.1 st.2.2 ->
  coherent st'.1 st'.2.1 st'.2.2 /\ kinds_of st.2.2 ⊆ kinds_of st'.2.2 /\
  forall k id, settled st.1 st.2.1 k id -> settled st'.1 st'.2.1 k id.
Proof using Type*.
  induction 1 as [st|[D1 [s1 db1]] [D2 [s2 db2]] st3 H12 _ IH]; [done|]. intros Hco.
  destruct (step_coherent _ _ _ _ _ _ H12 Hco) as (Hco2 & Hk & Hs). destruct (IH Hco2) as (Hco3 & Hk' & Hs').
  split_and!; [done|by etrans|]. cbn in *. intros k id Hset. by apply Hs', Hs.
Qed.

Lemma settled_kinds D D' (s s' : SM) kinds ids :
  (forall k id, settled D s k id -> settled D' s' k id) -> Forall (fun k => ~ D k) kinds ->
  Forall2 (fun k id => kindsByID s !! k = Some id) kinds ids ->
  Forall (fun k => ~ D' k) kinds /\ Forall2 (fun k id => kindsByID s' !! k = Some id) kinds ids.
Proof using Type.
  intros Hs Hd Hall. induction Hall as [|k id kinds ids Hk _ IH]; [by split|]. apply Forall_cons in Hd as [Hdk Hd].
  destruct (Hs k id) as [Hd' Hk']; [by split|]. destruct (IH Hd) as [IH1 IH2]. split; by constructor.
Qed.

(** From a new manager. *)
Lemma run_coherent cache db D s' db' :
  rtc step (nothing, (NewSchemaManager cache, db)) (D, (s', db')) -> coherent D s' db'.
Proof using Type*. intros Hrun. by destruct (steps_coherent _ _ Hrun (coherent_new _ cache db)) as [? _]. Qed.

(** [C4] The maps of kinds and the database, in every run of the schema manager's
    sections, whoever runs them, whether they end with an error or without, and
    whatever kinds other sessions insert meanwhile.  For every kind but those that a
    section which ended with an error has written to the maps (its transaction is
    rolled back, the maps are not, [rolled_back_kinds_stay]): a kind that is mapped
    to an identifier has it in the database, and the identifier is mapped back to the
    kind; an identifier that is mapped to a kind is that kind's identifier; and a
    kind that is mapped keeps its identifier, and does not come in doubt, whatever
    sections run later, those that fail included. *)
Theorem manager_coherent cache db D s' db' :
  rtc step (nothing, (NewSchemaManager cache, db)) (D, (s', db')) ->
  (forall k id, ~ D k -> kindsByID s' !! k = Some id -> named db' k = Some id /\ kindIDsByKind s' !! id = Some k) /\
  (forall id k, ~ D k -> kindIDsByKind s' !! id = Some k -> named db' k = Some id) /\
  (forall D2 s2 db2 k id, rtc step (D, (s', db')) (D2, (s2, db2)) -> ~ D k -> kindsByID s' !! k = Some id ->
     ~ D2 k /\ kindsByID s2 !! k = Some id).
Proof using Type*.
  intros Hrun%run_coherent. split_and!; [apply Hrun|apply Hrun|]. intros D2 s2 db2 k id Hrun2 Hd Hk.
  destruct (steps_coherent _ _ Hrun2 Hrun) as (_ & _ & Hs). by apply Hs.
Qed.

(** [C11] [AssertKinds] in any run of the sections, with or without errors.  When it
    returns without an error it gives one identifier per kind, in order; it adds kinds
    and removes none; every kind that no section which ended with an error has written
    to the maps is given its identifier in the database; and when none of the kinds is
    such a one, the identifiers map back to the kinds and the kinds to the identifiers
    without asking the database, then and in every later state of the run. *)
Theorem assert_kinds_round_trip cache db D st kinds s' db' ids :
  rtc step (nothing, (NewSchemaManager cache, db)) (D, st) ->
  AssertKinds kinds st = Done ((s', db'), inl ids) ->
  Forall2 (fun k id => ~ D k -> named db' k = Some id) kinds ids /\ kinds_of st.2 ⊆ kinds_of db' /\
  (Forall (fun k => ~ D k) kinds -> forall D2 s2 db2, rtc step (D, (s', db')) (D2, (s2, db2)) ->
     MapKindIDs ids (s2, db2) = Done ((s2, db2), inl kinds) /\
     MapKinds kinds (s2, db2) = Done ((s2, db2), inl ids)).
Proof using Type*.
  intros Hrun Ha. destruct st as [s db1]. apply run_coherent in Hrun as Hco.
  destruct (AssertKinds_inv _ _ _ _ _ _ _ Hco Ha) as (Hco' & Hk & Hall). split_and!; [|done|].
  - eapply Forall2_impl; [exact Hall|]. intros k id Hl Hd. by apply (co_kinds _ _ _ Hco').
  - intros Hd D2 s2 db2 Hrun2. destruct (steps_coherent _ _ Hrun2 Hco') as (Hco2 & _ & Hs). cbn in *.
    destruct (settled_kinds D D2 s' s2 kinds ids Hs Hd Hall) as [Hd2 Hall2].
    split; [by eapply found_ids|by apply found_kinds].
Qed.

(** [C23] [MapKinds] in any run of the sections, with or without errors, reports kinds
    as missing only when they are: without an error every kind that no section which
    ended with an error has written to the maps has been given its identifier in the
    database, and every kind at all when the kinds had to be fetched; an error is the
    one the fetch of the kinds has returned, or it names, in order, exactly those of
    the kinds the database did not have when it was asked. *)
Theorem map_kinds_exact cache db D st kinds s' db' r :
  rtc step (nothing, (NewSchemaManager cache, db)) (D, st) ->
  MapKinds kinds st = Done ((s', db'), r) ->
  match r with
  | inl ids =>
      Forall2 (fun k id => ~ D k -> named db' k = Some id) kinds ids /\
      ((exists k, k ∈ kinds /\ kindsByID st.1 !! k = None) -> Forall2 (fun k id => named db' k = Some id) kinds ids)
  | inr e =>
      Fetch st = Done ((s', db'), inr e) \/
      exists missing now, e = ErrMapKinds missing /\ missing <> [] /\
        kinds_of st.2 ⊆ kinds_of now /\ kinds_of now ⊆ kinds_of db' /\
        missing = filter (fun k => named now k = None) kinds
  end.
Proof using Type*.
  intros Hrun Hm. destruct st as [s db1]. apply run_coherent in Hrun as Hco.
  cbn [fst snd] in *. revert Hm. unfold MapKinds, mbind, M_bind, get.
  pose proof (map_all_complete (fun kind => kindsByID s !! kind) kinds) as Hall.
  pose proof (map_all_spec (fun kind => kindsByID s !! kind) kinds) as Hsp. fold (mapKinds s kinds) in Hall, Hsp.
  destruct (mapKinds s kinds) as [found missing]. case_decide as Hnil.
  { intros [= <- <- <-]. split.
    - eapply Forall2_impl; [by apply Hall|]. intros k id Hl Hd. by apply (co_kinds _ _ _ Hco).
    - intros (k & Hin & Hk). injection Hsp as _ Hmiss. assert (Hk' : k ∈ missing) by (rewrite Hmiss; by apply list_elem_of_filter).
      rewrite Hnil in Hk'. by apply elem_of_nil in Hk'. }
  unfold MapKinds_locked, mbind, M_bind, get.
  destruct (Fetch (s, db1)) as [[[s2 db2] [[]|e]]| |] eqn:Ef; [|intros [= <- <- <-]; by left|done..].
  destruct (Fetch_inv _ _ _ _ _ _ Ef Hco) as (_ & Hk & now & Hk1 & Hk2 & Hnow).
  clear Hall. pose proof (map_all_complete (fun kind => kindsByID s2 !! kind) kinds) as Hall.
  pose proof (map_all_spec (fun kind => kindsByID s2 !! kind) kinds) as Hspec.
  fold (mapKinds s2 kinds) in Hall, Hspec. destruct (mapKinds s2 kinds) as [found2 missing2]. case_decide as Hnil2.
  - intros [= <- <- <-]. assert (Hright : Forall2 (fun k id => named db2 k = Some id) kinds found2).
    { eapply Forall2_impl; [by apply Hall|]. intros k id. cbn. rewrite Hnow. by apply named_mono. }
    split; [|done]. eapply Forall2_impl; [exact Hright|done].
  - unfold unable_to_map. case_decide; [|done]. intros [= <- <- <-]. right. exists missing2, now. split_and!; try done.
    injection Hspec as _ ->. apply list_filter_iff. intros k. by rewrite Hnow.
Qed.
End invariant.
