(* ===== verification/ManagedGraphs.v ===== *)
(** * Graphs under the schema manager (drivers/pg/manager.go, drivers/pg/query/query.go)

    [AssertGraph] of the manager in a transaction of the caller: the graph is looked
    up or created with its partitions, its indexes are brought to the schema, and
    its model is kept in memory.  The examples at the end run the manager on a small
    database, also where a transaction is rolled back. *)

From S2P Require Import Prelude Kinds IndexDefinitions GraphSchema SmallDatabase IndexChanges SchemaManager.
From stdpp Require Import pretty relations.

Section graphs.
Context {T : Type}.
Context {DB : Type} `{HD : Database DB} `{HC : Catalog DB} `{HR : MapRange} `{!DatabaseLaws DB}.

(** Code that only reads: with an error or without, what it leaves is what it
    found, as long as the transaction lives. *)
Definition quiet {A} (m : M DB A) : Prop :=
  forall db db' r, m db = Done (db', r) -> alive db' -> evolves db db' /\ indexes_of db' = indexes_of db.

Lemma evolves_refl (db : DB) : alive db -> evolves db db.
Proof using Type. done. Qed.

Lemma quiet_ret {A} (a : A) : quiet (mret a).
Proof using Type. intros db db' r [= <- _] Ha. split; [by apply evolves_refl|done]. Qed.

Lemma quiet_fails {A} e : quiet (fails e : M DB A).
Proof using Type. intros db db' r [= <- _] Ha. split; [by apply evolves_refl|done]. Qed.

Lemma quiet_bind {A B} (m : M DB A) (f : A -> M DB B) : quiet m -> (forall a, quiet (f a)) -> quiet (m ≫= f).
Proof using Type.
  intros Hm Hf db db' r. unfold mbind, M_bind. destruct (m db) as [[db1 [a|e]]| |] eqn:E; [|intros [= <- _]; by eapply Hm|done..].
  intros Hr Ha. destruct (Hf a _ _ _ Hr Ha) as [Hev Hix]. destruct (Hm _ _ _ E (proj1 Hev)) as [Hev1 Hix1].
  split; [by eapply evolves_trans|congruence].
Qed.

Lemma quiet_send {R} (st : statement R) :
  keeps_kinds st = true -> keeps_graphs st = true -> keeps_indexes st = true -> quiet (send st).
Proof using Type*.
  intros Hk Hg Hi db db' r. unfold send. destruct (Raw st db) as [db1 r1] eqn:E. intros [= <- _] Ha.
  split; [by eapply raw_evolves|by eapply raw_indexes].
Qed.

Lemma quiet_error_or {A} e (a : A) : quiet (error_or e a).
Proof using Type. destruct e; [apply quiet_fails|apply quiet_ret]. Qed.

Lemma quiet_first_row {R} (r : Result R) : quiet (first_row r).
Proof using Type. unfold first_row. destruct (rows r) as [|[?|?] ?]; [apply quiet_ret|apply quiet_ret|apply quiet_fails]. Qed.

Create HintDb quiet.
#[local] Hint Resolve quiet_ret quiet_fails quiet_error_or quiet_first_row : quiet.

Lemma quiet_describe table : quiet (Query_describeGraphPartition table).
Proof using Type*.
  apply quiet_bind; [|intros l; case_match; auto with quiet].
  apply quiet_bind; [|auto with quiet]. apply quiet_bind; [by apply quiet_send|]. intros r. case_match; auto with quiet.
Qed.

Lemma quiet_select_partial name : quiet (Query_selectGraphPartialByName name).
Proof using Type*.
  apply quiet_bind; [by apply quiet_send|]. intros r. apply quiet_bind; [auto with quiet|].
  intros row. case_match; auto with quiet.
Qed.

Lemma quiet_select_partitions id : quiet (Query_selectGraphPartitions id).
Proof using Type*. do 2 (apply quiet_bind; [apply quiet_describe|intros ?]). auto with quiet. Qed.

Lemma quiet_select_graph name : quiet (Query_SelectGraphByName name).
Proof using Type*.
  apply quiet_bind; [apply quiet_select_partial|]. intros d.
  apply quiet_bind; [apply quiet_select_partitions|auto with quiet].
Qed.

(** ** Definitions of a graph *)

Definition partition_table (edge : bool) (graphID : Z) : string :=
  if edge then EdgePartitionTableName graphID else NodePartitionTableName graphID.

Lemma partition_tables_distinct id : partition_table false id <> partition_table true id.
Proof using Type. unfold partition_table, NodePartitionTableName, EdgePartitionTableName, partitionTableName. done. Qed.

Lemma describe_definitions_name l : forall p p', describe_definitions p l = inl p' -> gp_Name p' = gp_Name p.
Proof using Type.
  induction l as [|d l IH]; intros p p'; cbn; [by intros [= <-]|].
  unfold describe_definition. repeat case_match; simplify_eq; intros H'; try done; by apply IH in H'.
Qed.

Lemma describe_name table db db' p : Query_describeGraphPartition table db = Done (db', inl p) -> gp_Name p = table.
Proof using Type.
  intros (db1 & l & _ & Hp)%M_bind_inv. destruct (describe_definitions _ l) as [p1|] eqn:E; [|done].
  injection Hp as _ <-. by apply describe_definitions_name in E.
Qed.

(** A graph that is found has the identifier of its row and its partitions. *)
Lemma select_graph_inv name db db' d :
  Query_SelectGraphByName name db = Done (db', inl d) -> alive db' ->
  graphs_of db' !! name = Some (gm_ID d) /\ gm_Name d = name /\
  forall edge, table_of (gm_Partitions d) edge = partition_table edge (gm_ID d).
Proof using Type*.
  intros (db1 & d1 & Hd & (db2 & ps & Hps & [= <- <-])%M_bind_inv)%M_bind_inv Ha. cbn.
  assert (Hq : evolves db1 db2).
  { by destruct (quiet_select_partitions (gm_ID d1) _ _ _ Hps Ha). }
  apply M_bind_inv in Hps as (db3 & pn & Hn & (db4 & pe & He & [= <- <-])%M_bind_inv).
  apply M_bind_inv in Hd as (db5 & r & Hraw%send_inv & (db6 & row & Hrow & Hd)%M_bind_inv).
  destruct row as [id|]; [|done]. apply error_or_inv in Hd as (_ & <- & ->).
  unfold first_row in Hrow. destruct (rows r) as [|[id'|e] l] eqn:Er; [done| |done]. injection Hrow as <- <-.
  pose proof (select_graph_rows _ _ _ _ Hraw (proj1 Hq)) as Hrows. rewrite Er in Hrows.
  destruct Hq as (_ & _ & Hg). rewrite Hg. split_and!; [|done|].
  - destruct (graphs_of _ !! name); [|done]. by injection Hrows as -> _.
  - intros []; cbn; by eapply describe_name.
Qed.

(** What the creation of a partition keeps of the catalog: it adds no index over a property. *)
Definition same_properties (m m' : gmap string pgindex) : Prop :=
  (wf_catalog m -> wf_catalog m') /\
  forall n t u ty f, m' !! n = Some (PropertyIndex t u ty f) -> m !! n = Some (PropertyIndex t u ty f).

Lemma same_properties_trans m1 m2 m3 : same_properties m1 m2 -> same_properties m2 m3 -> same_properties m1 m3.
Proof using Type. intros [Hw Hp] [Hw' Hp']. split; [by auto|]. intros. by apply Hp, Hp'. Qed.

(** A graph that is created has a new row and two empty partitions. *)
Lemma create_partition_inv name parent id db db' p :
  Query_CreatePartitionTable name parent id db = Done (db', inl p) -> alive db' ->
  evolves db db' /\ same_properties (indexes_of db) (indexes_of db') /\ gp_Name p = name.
Proof using Type*.
  intros (db1 & [] & (r & Hraw)%exec_inv & [= <- <-])%M_bind_inv Ha. split_and!; [by eapply raw_evolves| |done].
  destruct (create_partition _ _ _ _ _ _ Hraw Ha) as (extra & -> & Hex). split.
  - intros Hwf n ix [Hn|[_ Hn]]%lookup_union_Some_raw; [by apply Hwf|]. by destruct (Hex _ _ Hn) as (d & -> & Hd).
  - intros n t u ty f [Hn|[_ Hn]]%lookup_union_Some_raw; [done|]. by destruct (Hex _ _ Hn) as (d & ? & Hd).
Qed.

Lemma insert_graph_inv name db db' d :
  Query_insertGraph name db = Done (db', inl d) -> alive db' ->
  alive db /\ kinds_of db ⊆ kinds_of db' /\ indexes_of db' = indexes_of db /\ graphs_of db !! name = None /\
  graphs_of db' = <[name := gm_ID d]> (graphs_of db) /\ gm_Name d = name.
Proof using Type*.
  intros (db1 & r & Hraw%send_inv & (db2 & row & Hrow & Hd)%M_bind_inv)%M_bind_inv Ha.
  unfold first_row in Hrow. destruct row as [id|].
  - injection Hd as <- <-. destruct (rows r) as [|[id'|e] l] eqn:Er; [done| |done]. injection Hrow as <- <-.
    destruct (insert_graph_rows _ _ _ _ Hraw Ha) as (i & Hi & Hnone & Hg). rewrite Er in Hi. injection Hi as <- _.
    split_and!; [by eapply raw_alive|by eapply raw_kinds|by eapply raw_indexes|done|done|done].
  - apply error_or_inv in Hd as (_ & <- & _). destruct (rows r) as [|[id'|e] l] eqn:Er; [|done..].
    injection Hrow as <-. destruct (insert_graph_rows _ _ _ _ Hraw Ha) as (i & Hi & _). by rewrite Er in Hi.
Qed.

Lemma create_partitions_inv d db db' d' :
  Query_createGraphPartitions d db = Done (db', inl d') -> alive db' ->
  evolves db db' /\ same_properties (indexes_of db) (indexes_of db') /\
  gm_ID d' = gm_ID d /\ gm_Name d' = gm_Name d /\
  forall edge, table_of (gm_Partitions d') edge = partition_table edge (gm_ID d').
Proof using Type*.
  intros (db1 & pn & Hn & (db2 & pe & He & [= <- <-])%M_bind_inv)%M_bind_inv Ha.
  destruct (create_partition_inv _ _ _ _ _ _ He Ha) as (Hev2 & Hwf2 & Hpe).
  destruct (create_partition_inv _ _ _ _ _ _ Hn (proj1 Hev2)) as (Hev1 & Hwf1 & Hpn).
  split_and!; [by eapply evolves_trans|by eapply same_properties_trans|done|done|]. by intros [].
Qed.

(** The partitions of the graph with an identifier, and those a schema asks for it. *)
Definition empty_partitions (id : Z) : GraphPartitions :=
  mkPartitions (NewGraphPartition (partition_table false id)) (NewGraphPartition (partition_table true id)).
Definition schema_partitions (schema : GraphSchema) (id : Z) : GraphPartitions :=
  required_partitions schema (empty_partitions id).

(** What the names of a schema and of the catalog must be for the database to take
    them as they are. *)
Record nameable (schema : GraphSchema) (id : Z) (m : gmap string pgindex) : Prop := {
  na_catalog : wf_catalog m;
  na_required : wf_required (schema_partitions schema id);
  na_tables : forall edge, identifier (partition_table edge id);
  na_fields : fields_named m (schema_partitions schema id) (fun edge => partition_table edge id);
}.

Lemma same_nameable schema id m m' : same_properties m m' -> nameable schema id m -> nameable schema id m'.
Proof using Type. intros [Hw Hp] [H1 H2 H3 H4]. split; [by auto|done|done|]. intros s n r ty f Hr Hm. by eapply H4, Hp. Qed.

(** A definition whose tables are those of its identifier, asserted. *)
Lemma asserted_inv schema d db db' g :
  Query_AssertGraph schema d db = Done (db', inl g) -> alive db' -> nameable schema (gm_ID g) (indexes_of db) ->
  (forall edge, table_of (gm_Partitions d) edge = partition_table edge (gm_ID d)) ->
  evolves db db' /\ gm_ID g = gm_ID d /\ gm_Name g = gm_Name d /\
  gm_Partitions g = schema_partitions schema (gm_ID g) /\
  forall edge unique, indexed (indexes_of db') (partition_table edge (gm_ID g)) unique =
    asked <$> group_of (gm_Partitions g) (edge, unique).
Proof using Type*.
  intros (db1 & c & Hc & (db2 & [] & Hrun & [= <- <-])%M_bind_inv)%M_bind_inv Ha [Hwf Hreq Hid Hf] Ht. cbn in *.
  assert (Hp : required_partitions schema (gm_Partitions d) = schema_partitions schema (gm_ID d)).
  { unfold schema_partitions, required_partitions. pose proof (Ht false) as Hn. pose proof (Ht true) as He.
    unfold table_of, partition_of in Hn, He. cbn. by rewrite Hn, He. }
  assert (Has : assertable db (required_partitions schema (gm_Partitions d)) (gm_Partitions d)).
  { split; [done|by rewrite Hp|intros b; rewrite Ht; apply Hid| |].
    - rewrite !Ht. apply partition_tables_distinct.
    - rewrite Hp. intros [edge u] n r ty f. rewrite Ht. apply (Hf (edge, u)). }
  destruct (changes_exact _ _ _ _ _ _ _ Has Hc Hrun Ha) as (Hev & Hs & _).
  split_and!; [done|done|done|done|]. intros edge unique. rewrite <- Ht. apply (Hs (edge, unique)).
Qed.

Lemma backward_changes_of required p : backward (graph_changes required p).
Proof using Type*.
  apply backward_bind; [apply backward_describe|]. intros pn. repeat case_match.
  apply backward_bind; [apply backward_describe|]. intros pe. repeat case_match. apply backward_ret.
Qed.

Lemma backward_assert schema d : backward (Query_AssertGraph schema d).
Proof using Type*.
  apply backward_bind; [apply backward_changes_of|]. intros c.
  apply backward_bind; [apply backward_changes|]. intros _. apply backward_ret.
Qed.

Lemma assert_definition_inv schema db db' g :
  assert_definition schema db = Done (db', inl g) -> alive db' -> nameable schema (gm_ID g) (indexes_of db) ->
  kinds_of db ⊆ kinds_of db' /\ gm_Name g = gs_Name schema /\
  graphs_of db' = <[gs_Name schema := gm_ID g]> (graphs_of db) /\
  (forall id, graphs_of db !! gs_Name schema = Some id -> id = gm_ID g) /\
  gm_Partitions g = schema_partitions schema (gm_ID g) /\
  forall edge unique, indexed (indexes_of db') (partition_table edge (gm_ID g)) unique =
    asked <$> group_of (gm_Partitions g) (edge, unique).
Proof using Type*.
  unfold assert_definition. intros Hrun Ha Hwf.
  destruct (Query_SelectGraphByName (gs_Name schema) db) as [[db1 [d|e]]| |] eqn:Esel; [| |done..].
  - pose proof (backward_assert _ _ _ _ _ Hrun Ha) as Ha1.
    destruct (quiet_select_graph _ _ _ _ Esel Ha1) as [(_ & Hk & Hg) Hix].
    destruct (select_graph_inv _ _ _ _ Esel Ha1) as (Hrow & Hname & Ht). rewrite <- Hix in Hwf.
    destruct (asserted_inv _ _ _ _ _ Hrun Ha Hwf Ht) as ((_ & Hk' & Hg') & Hgid & Hgn & Hp & Hs).
    rewrite <- Hg, Hg'. split_and!; [by etrans|congruence|by rewrite Hgid, insert_id|congruence|done|done].
  - case_decide; [|done]. apply M_bind_inv in Hrun as (db2 & d & Hi & (db3 & d' & Hp & Hrun)%M_bind_inv).
    pose proof (backward_assert _ _ _ _ _ Hrun Ha) as Ha3.
    destruct (create_partitions_inv _ _ _ _ Hp Ha3) as (Hev3 & Hwf3 & Hid3 & Hn3 & Ht3).
    destruct (insert_graph_inv _ _ _ _ Hi (proj1 Hev3)) as (Ha1 & Hk2 & Hix2 & Hnone & Hg2 & Hn2).
    destruct (quiet_select_graph _ _ _ _ Esel Ha1) as [(_ & Hk & Hg) Hix]. rewrite <- Hix, <- Hix2 in Hwf.
    destruct (asserted_inv _ _ _ _ _ Hrun Ha (same_nameable _ _ _ _ Hwf3 Hwf) Ht3) as ((_ & Hk' & Hg') & Hgid & Hgn & Hpp & Hs).
    destruct Hev3 as (_ & Hk3 & Hg3).
    split_and!; [|congruence|congruence|congruence|done|done].
    etrans; [exact Hk|]. etrans; [exact Hk2|]. by etrans.
Qed.

End graphs.

(** ** Examples *)

Definition empty_db : SmallDB := mkDB [] [] ∅ 8 true.
Definition new_manager : SchemaManager unit := NewSchemaManager tt.

(** The state a method leaves. *)
Definition left_by {A} (m : M (SchemaManager unit * SmallDB) A) (st : SchemaManager unit * SmallDB) :
    SchemaManager unit * SmallDB :=
  match m st with Done (st', _) => st' | _ => st end.

Definition users : list Kind := [Some "User"; Some "Group"].
Definition st_users : SchemaManager unit * SmallDB := left_by (assertKinds users) (new_manager, empty_db).

Lemma run_users : rtc (step (fun c : unit => c)) (nothing, (new_manager, empty_db)) (nothing, st_users).
Proof.
  apply rtc_once, step_done. apply (section_assert_kinds _ users _ st_users (inl [0; 1]%Z)). vm_compute. reflexivity.
Qed.

(** A section that inserts two more kinds fails at the second. *)
Definition st_small : SchemaManager unit * SmallDB := (st_users.1, mkDB ["User"; "Group"] [] ∅ 1 true).
Definition st_broken : SchemaManager unit * SmallDB := left_by (assertKinds [Some "Disk"; Some "Net"]) st_small.
Definition doubts : Kind -> Prop := fun k => nothing k \/ written st_users.1 st_broken.1 k.

(** Another session inserts a kind, and the kinds are fetched. *)
Definition st_other : SchemaManager unit * SmallDB :=
  (st_broken.1, mkDB ["User"; "Group"; "Host"] [] ∅ 5 true).
Definition st_fetched : SchemaManager unit * SmallDB := left_by Fetch st_other.

Lemma run_fetched : rtc (step (fun c : unit => c)) (nothing, (new_manager, empty_db)) (doubts, st_fetched).
Proof.
  etrans; [apply run_users|]. eapply rtc_l; [|eapply rtc_l; [|eapply rtc_l; [|apply rtc_once, step_done]]].
  - rewrite (surjective_pairing st_users). apply (step_other _ nothing st_users.1 st_users.1 st_users.2 st_small.2); [done|].
    apply (bool_decide_unpack _). vm_compute. exact I.
  - apply (step_failed _ nothing st_small st_broken).
    apply (section_assert_kinds _ [Some "Disk"; Some "Net"] _ st_broken (inr ErrNoRows)). vm_compute. reflexivity.
  - rewrite (surjective_pairing st_broken). apply (step_other _ _ st_broken.1 st_broken.1 st_broken.2 st_other.2); [done|].
    apply (bool_decide_unpack _). vm_compute. exact I.
  - apply (section_fetch _ st_other st_fetched (inl tt)). vm_compute. reflexivity.
Qed.

(** Only the kind the failed section had inserted is in doubt. *)
Lemma doubts_disk k : doubts k -> k = Some "Disk".
Proof.
  intros [[]|(id & [[H1 H2]|[H1 H2]])].
  - assert (He : kindsByID st_broken.1 = <[Some "Disk" := 2%Z]> (kindsByID st_users.1)) by (vm_compute; reflexivity).
    rewrite He in H1. by apply lookup_insert_Some in H1 as [[<- _]|[_ ?]].
  - assert (He : kindIDsByKind st_broken.1 = <[2%Z := Some "Disk"]> (kindIDsByKind st_users.1)) by (vm_compute; reflexivity).
    rewrite He in H1. by apply lookup_insert_Some in H1 as [[_ <-]|[_ ?]].
Qed.

Lemma manager_coherent_witness :
  kindsByID st_fetched.1 !! Some "Host" = Some 2%Z /\ named st_fetched.2 (Some "Host") = Some 2%Z /\
  kindIDsByKind st_fetched.1 !! 2%Z = Some (Some "Host").
Proof.
  destruct (manager_coherent (fun c : unit => c) tt empty_db doubts st_fetched.1 st_fetched.2) as (Hk & _ & _).
  { rewrite <- surjective_pairing. exact run_fetched. }
  assert (H : kindsByID st_fetched.1 !! Some "Host" = Some 2%Z) by (vm_compute; reflexivity).
  split; [exact H|]. apply (Hk _ _); [|exact H]. by intros ?%doubts_disk.
Defined.

Definition st_domain : SchemaManager unit * SmallDB := left_by (AssertKinds [Some "Domain"; Some "User"]) st_fetched.

Lemma assert_kinds_round_trip_witness :
  MapKindIDs [3; 0]%Z st_domain = Done (st_domain, inl [Some "Domain"; Some "User"]).
Proof.
  destruct (assert_kinds_round_trip (fun c : unit => c) tt empty_db doubts st_fetched [Some "Domain"; Some "User"]
    st_domain.1 st_domain.2 [3; 0]%Z run_fetched) as (_ & _ & H).
  - rewrite <- surjective_pairing. vm_compute. reflexivity.
  - rewrite (surjective_pairing st_domain). destruct (H ltac:(repeat constructor; by intros ?%doubts_disk) doubts st_domain.1 st_domain.2) as [H1 _];
      [reflexivity|exact H1].
Defined.

Definition st_missing : SchemaManager unit * SmallDB := left_by (MapKinds [Some "User"; Some "Nobody"]) st_users.

Lemma map_kinds_exact_witness :
  MapKinds [Some "User"; Some "Nobody"] st_users = Done (st_missing, inr (ErrMapKinds [Some "Nobody"])) /\
  (Fetch st_users = Done (st_missing, inr (ErrMapKinds [Some "Nobody"])) \/
   exists missing now, ErrMapKinds [Some "Nobody"] = ErrMapKinds missing /\ missing <> [] /\
     kinds_of st_users.2 ⊆ kinds_of now /\ kinds_of now ⊆ kinds_of st_missing.2 /\
     missing = filter (fun k => named now k = None) [Some "User"; Some "Nobody"]).
Proof.
  assert (H : MapKinds [Some "User"; Some "Nobody"] st_users = Done (st_missing, inr (ErrMapKinds [Some "Nobody"])))
    by (vm_compute; reflexivity).
  split; [exact H|]. rewrite (surjective_pairing st_missing) in H |- *.
  exact (map_kinds_exact (fun c : unit => c) tt empty_db nothing st_users _ st_missing.1 st_missing.2 _ run_users H).
Defined.

Definition asserted : SchemaManager unit * SmallDB := left_by (AssertGraph schema_1) (new_manager, empty_db).
Definition asserted_model : GraphModel := default no_graph (graphs asserted.1 !! "base").


(** Kinds that were defined in a transaction that is rolled back stay in the
    maps: when the second of two kinds cannot be inserted, [AssertKinds] returns the
    error and the database has neither, yet the next [AssertKinds] of the first
    answers, without an error and without asking the database, an identifier that no
    kind of the database has. *)
Theorem rolled_back_kinds_stay :
  exists s db e,
    AssertKinds [Some "A"; Some "B"] (new_manager, mkDB [] [] ∅ 1 true) = Done ((s, db), inr e) /\
    kinds_of db = ∅ /\
    AssertKinds [Some "A"] (s, db) = Done ((s, db), inl [0%Z]).
Proof. eexists _, _, _. split_and!; [vm_compute; reflexivity|vm_compute; reflexivity|vm_compute; reflexivity]. Qed.

(** A default graph whose transaction fails stays the default graph: the name
    of an index is taken, the statement that fails goes unnoticed because its error
    is asked for before the rows are closed, the commit fails and
    [AssertDefaultGraph] returns its error, the database has no such graph, and yet
    the manager answers that it has a default graph. *)
Theorem failed_default_graph_stays :
  exists s db e,
    AssertDefaultGraph schema_1 (new_manager,
      mkDB [] [] {["node_0_name_index" := PropertyIndex "other" false BTreeIndex "name"]} 8 true) = Done ((s, db), inr e) /\
    graphs_of db = ∅ /\ (DefaultGraph s).2 = true /\ gm_Name (DefaultGraph s).1 = "base".
Proof. eexists _, _, _. split_and!; [vm_compute; reflexivity..]. Qed.
