(* ===== verification/Composites.v ===== *)
(** * Rows read back into the graph (drivers/pg/types.go, drivers/pg/mapper.go)

    The values pgx hands out for nodes, relationships and paths are maps of dynamic
    values.  The composites check and convert their fields and turn the identifiers
    of kinds into kinds with the schema manager's [MapKindIDs], which is the
    implementation of [KindMapper] the driver uses. *)

From S2P Require Import Prelude Kinds Mapper IndexDefinitions GraphSchema SmallDatabase SchemaManager ManagedGraphs.
From stdpp Require Import relations.

(** ** Values *)

(** [map[string]any], [[]any], and every other dynamic value.  A map is the list of
    its entries. *)
Inductive wire :=
| Scalar (a : any)
| WMap (fields : list (string * wire))
| WSlice (l : list wire).

Notation fields := (list (string * wire)).

Fixpoint field (m : fields) (key : string) : option wire :=
  match m with
  | [] => None
  | (k, v) :: m' => if decide (k = key) then Some v else field m' key
  end.

Definition int_of (t : intty) (w : wire) : option Z :=
  match w with Scalar (Int t' z) => if decide (t' = t) then Some z else None | _ => None end.

(** [castSlice[int16]]. *)
Definition castSlice_int16 (raw : wire) : option (list Z) :=
  match raw with
  | Scalar (SliceInt tint16 rawSlice) => Some rawSlice
  | WSlice rawSlice => mapM (int_of tint16) rawSlice
  | _ => None
  end.

Definition castMapValueAsSliceOf_int16 (compositeMap : fields) (key : string) : option (list Z) :=
  src ← field compositeMap key; castSlice_int16 src.

(** The integer cases of the switch, then [case T]. *)
Definition assignable (src dst : intty) : bool :=
  match src, dst with
  | tint8, (tint8 | tint16 | tint32 | tint64 | tint) => true
  | tint16, (tint16 | tint32 | tint64 | tint) => true
  | tint32, (tint32 | tint64 | tint) => true
  | tint64, (tint64 | tint) => true
  | tint, (tint64 | tint) => true
  | (tint8 | tint16 | tint32 | tint64 | tint), _ => false
  | _, _ => bool_decide (src = dst)
  end.

(** [castAndAssignMapValue] into an integer of type [dst]; [None] is an error. *)
Definition castAndAssignMapValue_int (compositeMap : fields) (key : string) (dst : intty) : option Z :=
  src ← field compositeMap key;
  match src with
  | Scalar (Int t z) => if assignable t dst then Some (wrap dst z) else None
  | _ => None
  end.

Definition castAndAssignMapValue_map (compositeMap : fields) (key : string) : option fields :=
  src ← field compositeMap key;
  match src with WMap m => Some m | _ => None end.

(** ** Composites *)

Record edgeComposite := mkEdge { ec_ID : Z; ec_StartID : Z; ec_EndID : Z; ec_KindID : Z; ec_Properties : fields }.
Record nodeComposite := mkNodeC { nc_ID : Z; nc_KindIDs : list Z; nc_Properties : fields }.
Record pathComposite := mkPathC { pc_Nodes : list nodeComposite; pc_Edges : list edgeComposite }.

Definition edgeComposite_FromMap (compositeMap : fields) : option edgeComposite :=
  id ← castAndAssignMapValue_int compositeMap "id" tint64;
  start ← castAndAssignMapValue_int compositeMap "start_id" tint64;
  end_ ← castAndAssignMapValue_int compositeMap "end_id" tint64;
  kind ← castAndAssignMapValue_int compositeMap "kind_id" tint16;
  properties ← castAndAssignMapValue_map compositeMap "properties";
  Some (mkEdge id start end_ kind properties).

Definition nodeComposite_FromMap (compositeMap : fields) : option nodeComposite :=
  id ← castAndAssignMapValue_int compositeMap "id" tint64;
  kindIDs ← castMapValueAsSliceOf_int16 compositeMap "kind_ids";
  properties ← castAndAssignMapValue_map compositeMap "properties";
  Some (mkNodeC id kindIDs properties).

Definition raw_map (w : wire) : option fields := match w with WMap m => Some m | _ => None end.

Definition nodeCompositesFromRaw (raw : wire) : option (list nodeComposite) :=
  match raw with
  | WSlice rawNodes => mapM (fun rawNode => m ← raw_map rawNode; nodeComposite_FromMap m) rawNodes
  | _ => None
  end.

Definition edgeCompositesFromRaw (raw : wire) : option (list edgeComposite) :=
  match raw with
  | WSlice rawEdges => mapM (fun rawEdge => m ← raw_map rawEdge; edgeComposite_FromMap m) rawEdges
  | _ => None
  end.

(** A key that is not there leaves the list empty. *)
Definition pathComposite_FromMap (compositeMap : fields) : option pathComposite :=
  nodes ← match field compositeMap "nodes" with Some rawNodes => nodeCompositesFromRaw rawNodes | None => Some [] end;
  edges ← match field compositeMap "edges" with Some rawEdges => edgeCompositesFromRaw rawEdges | None => Some [] end;
  Some (mkPathC nodes edges).

(** ** Nodes, relationships and paths *)

Record node := mkN { n_ID : Z; n_Kinds : list Kind; n_Properties : fields }.
Record relationship := mkR { r_ID : Z; r_StartID : Z; r_EndID : Z; r_Kind : Kind; r_Properties : fields }.
Record path := mkP { p_Nodes : list node; p_Edges : list relationship }.

Section mapper.
Context {T : Type} {DB : Type} `{Database DB} `{MapRange}.
Notation W := (M (SchemaManager T * DB)).

Definition ToNode (s : nodeComposite) : W node :=
  kinds ← MapKindIDs (nc_KindIDs s);
  mret (mkN (wrap tID (nc_ID s)) kinds (nc_Properties s)).

Definition ToRelationship (s : edgeComposite) : W relationship :=
  kind ← MapKindID (ec_KindID s);
  mret (mkR (wrap tID (ec_ID s)) (wrap tID (ec_StartID s)) (wrap tID (ec_EndID s)) kind (ec_Properties s)).

Fixpoint traverse {A B} (f : A -> W B) (l : list A) : W (list B) :=
  match l with
  | [] => mret []
  | x :: l' => y ← f x; ys ← traverse f l'; mret (y :: ys)
  end.

Definition ToPath (s : pathComposite) : W path :=
  nodes ← traverse ToNode (pc_Nodes s);
  edges ← traverse ToRelationship (pc_Edges s);
  mret (mkP nodes edges).

(** ** Kinds *)

Definition minKindID : Z := - 2 ^ 15.
Definition maxKindID : Z := 2 ^ 15 - 1.

Definition asKindID (value : wire) : option Z :=
  match value with
  | Scalar (Int (tint | tint32 | tint64) z) =>
      if decide (z < minKindID \/ maxKindID < z)%Z then None else Some (wrap tint16 z)
  | Scalar (Int (tint8 | tuint8) z) => Some (wrap tint16 z)
  | Scalar (Int tint16 z) => Some z
  | Scalar (Int (tuint | tuint16 | tuint32 | tuint64) z) =>
      if decide (maxKindID < z)%Z then None else Some (wrap tint16 z)
  | _ => None
  end.

(** An error becomes the answer false. *)
Definition attempt {A} (m : W A) : W (option A) := fun st =>
  match m st with
  | Done (st', inl a) => Done (st', inl (Some a))
  | Done (st', inr _) => Done (st', inl None)
  | Panic => Panic
  | Spent => Spent
  end.

Definition map_kind_ids (kindIDs : list Z) : W (option (list Kind)) :=
  if decide (kindIDs = []) then mret (Some []) else attempt (MapKindIDs kindIDs).

(** The loop of [mapAnyKinds]; nil slices are [None]. *)
Fixpoint split_kinds (values : list wire) (kindIDs : option (list Z)) (kindStrings : option (list string)) :
    option (option (list Z) * option (list string)) :=
  match values with
  | [] => Some (kindIDs, kindStrings)
  | Scalar (Str kindString) :: values' =>
      match kindIDs with
      | Some _ => None
      | None => split_kinds values' None (Some (default [] kindStrings ++ [kindString]))
      end
  | value :: values' =>
      kindID ← asKindID value;
      match kindStrings with
      | Some _ => None
      | None => split_kinds values' (Some (default [] kindIDs ++ [kindID])) None
      end
  end.

Definition mapAnyKinds (values : list wire) : W (option (list Kind)) :=
  if decide (length values = 0) then mret (Some [])
  else match split_kinds values None None with
       | None => mret None
       | Some (_, Some kindStrings) => mret (Some (Some <$> kindStrings))
       | Some (kindIDs, None) => map_kind_ids (default [] kindIDs)
       end.

Definition map_kinds (untypedValue : wire) : W (option (list Kind)) :=
  match untypedValue with
  | WSlice l => mapAnyKinds l
  | Scalar (SliceInt tint16 l) => map_kind_ids l
  | Scalar (SliceStr l) => mret (Some (Some <$> l))
  | _ => mret None
  end.

(** ** The map function of the driver *)

(** What a value may be mapped into, and what has been written there. *)
Inductive map_target :=
| TRelationship | TRelationshipPointers | TRelationships | TNode | TNodePointers | TNodes | TPath | TKind | TKinds | TOther.

Inductive mapped :=
| MRelationship (r : relationship)
| MRelationships (l : list relationship)
| MNode (n : node)
| MNodes (l : list node)
| MPath (p : path)
| MKind (k : Kind)
| MKinds (l : list Kind).

Definition try {C A} (c : option C) (f : C -> W A) (g : A -> mapped) : W (option mapped) :=
  match c with
  | None => mret None
  | Some c => r ← attempt (f c); mret (g <$> r)
  end.

Definition mapNodeCompositeArray (value : wire) : W (option mapped) :=
  try (nodeCompositesFromRaw value) (traverse ToNode) MNodes.
Definition mapEdgeCompositeArray (value : wire) : W (option mapped) :=
  try (edgeCompositesFromRaw value) (traverse ToRelationship) MRelationships.

Definition newMapFunc (value : wire) (typedTarget : map_target) : W (option mapped) :=
  match typedTarget with
  | TRelationship => try (m ← raw_map value; edgeComposite_FromMap m) ToRelationship MRelationship
  | TRelationshipPointers | TRelationships => mapEdgeCompositeArray value
  | TNode => try (m ← raw_map value; nodeComposite_FromMap m) ToNode MNode
  | TNodePointers | TNodes => mapNodeCompositeArray value
  | TPath => try (m ← raw_map value; pathComposite_FromMap m) ToPath MPath
  | TKind => try (int_of tint16 value) MapKindID MKind
  | TKinds => r ← map_kinds value; mret (MKinds <$> r)
  | TOther => mret None
  end.

End mapper.

(** ** Integers *)

Lemma assignable_range src dst z : assignable src dst = true -> in_range src z -> in_range dst z.
Proof.
  destruct src, dst; cbn; try done; unfold in_range; cbn; lia.
Qed.

Lemma kind_id_of_int t z : in_range t z -> t <> tID -> in_range tint16 z -> asKindID (Scalar (Int t z)) = Some z.
Proof.
  intros Hr Ht H16. pose proof (wrap_id tint16 z H16) as Hw. unfold in_range in H16. cbn in H16.
  destruct t; cbn -[wrap]; unfold minKindID, maxKindID; repeat case_decide; try lia; try done; by rewrite Hw.
Qed.

(** An identifier of a kind is read from an integer of any built-in type
    exactly when its value fits 16 signed bits, and then it is that value; other
    values are never taken for one. *)
Theorem asKindID_exact (w : wire) :
  match w with
  | Scalar (Int t z) =>
      in_range t z -> asKindID w = (if decide (t <> tID /\ in_range tint16 z) then Some z else None)
  | _ => asKindID w = None
  end.
Proof.
  destruct w as [[]| |]; try done. intros Hr.
  assert (Hw : forall x, in_range tint16 x -> wrap tint16 x = x) by (intros; by apply wrap_id).
  unfold in_range in Hr, Hw |- *. destruct t; cbn in *; unfold minKindID, maxKindID;
    repeat case_decide; try done; try (rewrite Hw by lia); try done; exfalso; naive_solver lia.
Qed.

(** ** Reading back what was written *)

(** A row of a node, a relationship or a path as pgx hands it out. *)
Definition node_row (id : Z) (kindIDs : list Z) (properties : fields) : wire :=
  WMap [("id", Scalar (Int tint64 id)); ("kind_ids", WSlice ((fun k => Scalar (Int tint16 k)) <$> kindIDs));
        ("properties", WMap properties)].
Definition edge_row (id start end_ kindID : Z) (properties : fields) : wire :=
  WMap [("id", Scalar (Int tint64 id)); ("start_id", Scalar (Int tint64 start)); ("end_id", Scalar (Int tint64 end_));
        ("kind_id", Scalar (Int tint16 kindID)); ("properties", WMap properties)].
Definition path_row (nodes edges : list wire) : wire := WMap [("nodes", WSlice nodes); ("edges", WSlice edges)].

Section rows.
Context {T : Type} {DB : Type} `{HD : Database DB} `{HR : MapRange}.
Notation SM := (SchemaManager T).

Lemma int_of_slice l : mapM (int_of tint16) ((fun k => Scalar (Int tint16 k)) <$> l) = Some l.
Proof using Type. apply mapM_fmap_Some. intros k. unfold int_of. by rewrite decide_True. Qed.

(** A field of a smaller or equal type is assigned as it is. *)
Lemma cast_int_field m key t dst z :
  field m key = Some (Scalar (Int t z)) -> assignable t dst = true -> in_range t z ->
  castAndAssignMapValue_int m key dst = Some z.
Proof using Type.
  intros Hf Ha Hr. unfold castAndAssignMapValue_int. rewrite Hf. cbn -[wrap]. rewrite Ha.
  by rewrite wrap_id by (by eapply assignable_range).
Qed.

Lemma node_row_composite id kindIDs properties :
  in_range tint64 id ->
  (m ← raw_map (node_row id kindIDs properties); nodeComposite_FromMap m) = Some (mkNodeC id kindIDs properties).
Proof using Type.
  intros Hid. unfold node_row. cbn [raw_map mbind option_bind]. unfold nodeComposite_FromMap.
  rewrite (cast_int_field _ "id" tint64 tint64 id) by done. cbn [mbind option_bind].
  unfold castMapValueAsSliceOf_int16, castAndAssignMapValue_map.
  change (field _ "kind_ids") with (Some (WSlice ((fun k => Scalar (Int tint16 k)) <$> kindIDs))).
  change (field _ "properties") with (Some (WMap properties)). cbn [mbind option_bind castSlice_int16].
  by rewrite int_of_slice.
Qed.

Lemma edge_row_composite id start end_ kindID properties :
  in_range tint64 id -> in_range tint64 start -> in_range tint64 end_ -> in_range tint16 kindID ->
  (m ← raw_map (edge_row id start end_ kindID properties); edgeComposite_FromMap m) =
    Some (mkEdge id start end_ kindID properties).
Proof using Type.
  intros H1 H2 H3 H4. unfold edge_row. cbn [raw_map mbind option_bind]. unfold edgeComposite_FromMap.
  rewrite (cast_int_field _ "id" tint64 tint64 id), (cast_int_field _ "start_id" tint64 tint64 start),
    (cast_int_field _ "end_id" tint64 tint64 end_), (cast_int_field _ "kind_id" tint16 tint16 kindID) by done.
  done.
Qed.

(** Identifiers the manager knows are mapped without the database. *)
Lemma known_ids (s : SM) (db : DB) ids ks :
  Forall2 (fun id k => kindIDsByKind s !! id = Some k) ids ks -> MapKindIDs ids (s, db) = Done ((s, db), inl ks).
Proof using Type.
  intros Hk. unfold MapKindIDs, mbind, M_bind, get, mapKindIDs. by rewrite (map_all_found _ _ _ Hk).
Qed.

(** A node or a relationship as it was written: its database identifier, its kinds
    with their identifiers, and its properties. *)
Record written_node := mkWN { wn_id : Z; wn_kinds : list (Z * Kind); wn_properties : fields }.
Record written_edge := mkWE { we_id : Z; we_start : Z; we_end : Z; we_kind : Z * Kind; we_properties : fields }.

Definition id64 (z : Z) : Prop := (0 <= z < 2 ^ 63)%Z.

Definition known_node (s : SM) (w : written_node) : Prop :=
  id64 (wn_id w) /\ Forall (fun x => kindIDsByKind s !! x.1 = Some x.2) (wn_kinds w).
Definition known_edge (s : SM) (w : written_edge) : Prop :=
  id64 (we_id w) /\ id64 (we_start w) /\ id64 (we_end w) /\ in_range tint16 (we_kind w).1 /\
  kindIDsByKind s !! (we_kind w).1 = Some (we_kind w).2.

Definition row_of_node (w : written_node) : wire := node_row (wn_id w) (wn_kinds w).*1 (wn_properties w).
Definition row_of_edge (w : written_edge) : wire :=
  edge_row (we_id w) (we_start w) (we_end w) (we_kind w).1 (we_properties w).
Definition node_of (w : written_node) : node := mkN (wn_id w) (wn_kinds w).*2 (wn_properties w).
Definition edge_of (w : written_edge) : relationship :=
  mkR (we_id w) (we_start w) (we_end w) (we_kind w).2 (we_properties w).

Lemma id64_wrap z : id64 z -> wrap tID z = z /\ in_range tint64 z.
Proof using Type. unfold id64, wrap, in_range. cbn. intros. split; [apply Z.mod_small|]; lia. Qed.

Definition composite_of_node (w : written_node) : nodeComposite := mkNodeC (wn_id w) (wn_kinds w).*1 (wn_properties w).
Definition composite_of_edge (w : written_edge) : edgeComposite :=
  mkEdge (we_id w) (we_start w) (we_end w) (we_kind w).1 (we_properties w).

Lemma ToNode_known (s : SM) (db : DB) w :
  known_node s w -> ToNode (composite_of_node w) (s, db) = Done ((s, db), inl (node_of w)).
Proof using Type.
  intros [Hid Hk]. unfold ToNode, mbind, M_bind, composite_of_node. cbn [nc_KindIDs nc_ID nc_Properties].
  rewrite (known_ids s db _ (wn_kinds w).*2).
  - unfold mret, M_ret, node_of. by rewrite (proj1 (id64_wrap _ Hid)).
  - apply Forall2_fmap. apply Forall_Forall2_diag. exact Hk.
Qed.

Lemma ToRelationship_known (s : SM) (db : DB) w :
  known_edge s w -> ToRelationship (composite_of_edge w) (s, db) = Done ((s, db), inl (edge_of w)).
Proof using Type.
  intros (H1 & H2 & H3 & _ & Hk). unfold ToRelationship, MapKindID, mbind, M_bind, composite_of_edge.
  cbn [ec_KindID ec_ID ec_StartID ec_EndID ec_Properties]. rewrite (known_ids s db _ [(we_kind w).2]) by (by repeat constructor).
  unfold mret, M_ret, edge_of. by rewrite (proj1 (id64_wrap _ H1)), (proj1 (id64_wrap _ H2)), (proj1 (id64_wrap _ H3)).
Qed.

Lemma traverse_known {A B C} (f : B -> M (SM * DB) C) (g : A -> B) (h : A -> C) (P : A -> Prop) st l :
  (forall a, P a -> f (g a) st = Done (st, inl (h a))) -> Forall P l ->
  traverse f (g <$> l) st = Done (st, inl (h <$> l)).
Proof using Type.
  intros Hf. induction 1 as [|a l Ha _ IH]; [done|]. rewrite !fmap_cons. cbn [traverse]. unfold mbind, M_bind. by rewrite (Hf a Ha), IH.
Qed.

Lemma mapM_rows {A C} (row : A -> wire) (c : A -> C) (FromMap : fields -> option C) (P : A -> Prop) l :
  (forall a, P a -> (m ← raw_map (row a); FromMap m) = Some (c a)) -> Forall P l ->
  mapM (fun w => m ← raw_map w; FromMap m) (row <$> l) = Some (c <$> l).
Proof using Type.
  intros Hr HP. apply mapM_Some, Forall2_fmap, Forall_Forall2_diag. by eapply Forall_impl.
Qed.

Lemma known_node_row (s : SM) w :
  known_node s w -> (m ← raw_map (row_of_node w); nodeComposite_FromMap m) = Some (composite_of_node w).
Proof using Type. intros [[_ Hid]%id64_wrap _]. by apply node_row_composite. Qed.

Lemma known_edge_row (s : SM) w :
  known_edge s w -> (m ← raw_map (row_of_edge w); edgeComposite_FromMap m) = Some (composite_of_edge w).
Proof using Type.
  intros ([_ H1]%id64_wrap & [_ H2]%id64_wrap & [_ H3]%id64_wrap & H4 & _). by apply edge_row_composite.
Qed.

Lemma try_known {C A} (c : C) (f : C -> M (SM * DB) A) g st a :
  f c st = Done (st, inl a) -> try (Some c) f g st = Done (st, inl (Some (g a))).
Proof using Type. intros Hf. unfold try, attempt, mbind, M_bind. by rewrite Hf. Qed.

(** Rows are read back as they were written: when the manager knows the kinds'
    identifiers, a node, a list of nodes and a whole path with its nodes and its
    relationships, in the shape pgx hands them out, are mapped to exactly the
    identifiers, kinds and properties they were written with, in order, and the
    database is not asked. *)
Theorem rows_read_back (s : SM) (db : DB) (nodes : list written_node) (edges : list written_edge) :
  Forall (known_node s) nodes -> Forall (known_edge s) edges ->
  newMapFunc (path_row (row_of_node <$> nodes) (row_of_edge <$> edges)) TPath (s, db) =
    Done ((s, db), inl (Some (MPath (mkP (node_of <$> nodes) (edge_of <$> edges))))) /\
  newMapFunc (WSlice (row_of_node <$> nodes)) TNodes (s, db) =
    Done ((s, db), inl (Some (MNodes (node_of <$> nodes)))) /\
  newMapFunc (WSlice (row_of_edge <$> edges)) TRelationships (s, db) =
    Done ((s, db), inl (Some (MRelationships (edge_of <$> edges)))) /\
  (forall n, n ∈ nodes -> newMapFunc (row_of_node n) TNode (s, db) = Done ((s, db), inl (Some (MNode (node_of n))))).
Proof using Type.
  intros Hn He.
  pose proof (mapM_rows row_of_node composite_of_node nodeComposite_FromMap _ nodes (known_node_row s) Hn) as Rn.
  pose proof (mapM_rows row_of_edge composite_of_edge edgeComposite_FromMap _ edges (known_edge_row s) He) as Re.
  pose proof (traverse_known ToNode composite_of_node node_of _ (s, db) nodes (ToNode_known s db) Hn) as Tn.
  pose proof (traverse_known ToRelationship composite_of_edge edge_of _ (s, db) edges (ToRelationship_known s db) He) as Te.
  split_and!.
  - assert (Hp : (m ← raw_map (path_row (row_of_node <$> nodes) (row_of_edge <$> edges)); pathComposite_FromMap m) =
      Some (mkPathC (composite_of_node <$> nodes) (composite_of_edge <$> edges))).
    { unfold path_row. cbn [raw_map mbind option_bind]. unfold pathComposite_FromMap.
      change (field _ "nodes") with (Some (WSlice (row_of_node <$> nodes))).
      change (field _ "edges") with (Some (WSlice (row_of_edge <$> edges))).
      unfold nodeCompositesFromRaw, edgeCompositesFromRaw. by rewrite Rn, Re. }
    unfold newMapFunc. rewrite Hp. apply try_known. unfold ToPath, mbind, M_bind. cbn [pc_Nodes pc_Edges]. by rewrite Tn, Te.
  - unfold newMapFunc, mapNodeCompositeArray, nodeCompositesFromRaw. rewrite Rn. by apply try_known.
  - unfold newMapFunc, mapEdgeCompositeArray, edgeCompositesFromRaw. rewrite Re. by apply try_known.
  - intros n Hin. rewrite Forall_forall in Hn. unfold newMapFunc. rewrite (known_node_row s n (Hn n Hin)).
    by apply try_known, ToNode_known, Hn.
Qed.

(** Identifiers of any integer type are mapped as the 16-bit ones they stand for. *)
Lemma split_kinds_ids l : forall ids,
  Forall (fun x => x.1 <> tID /\ in_range x.1 x.2 /\ in_range tint16 x.2) l ->
  split_kinds ((fun x => Scalar (Int x.1 x.2)) <$> l) (Some ids) None = Some (Some (ids ++ l.*2), None).
Proof using Type.
  induction l as [|[t z] l IH]; intros ids Hl; [by cbn; rewrite app_nil_r|].
  apply Forall_cons in Hl as [(Ht & Hr & H16) Hl]. rewrite !fmap_cons. cbn [split_kinds fst snd].
  rewrite (kind_id_of_int t z) by done. cbn [mbind option_bind default]. rewrite IH by done. by rewrite <- app_assoc.
Qed.
End rows.

Lemma split_kinds_strings l : forall strs,
  split_kinds ((fun x => Scalar (Str x)) <$> l) None (Some strs) = Some (None, Some (strs ++ l)).
Proof.
  induction l as [|x l IH]; intros strs; [by cbn; rewrite app_nil_r|]. rewrite fmap_cons. cbn [split_kinds default].
  rewrite IH. by rewrite <- app_assoc.
Qed.

(** The kinds of a list of dynamic values are those of the typed list it stands
    for: integers of any built-in types whose values fit 16 bits are mapped as the
    list of 16-bit identifiers, and strings as the list of strings. *)
Theorem any_kinds_as_typed {T DB : Type} `{Database DB} (st : SchemaManager T * DB) (l : list (intty * Z)) (strs : list string) :
  Forall (fun x => x.1 <> tID /\ in_range x.1 x.2 /\ in_range tint16 x.2) l ->
  map_kinds (WSlice ((fun x => Scalar (Int x.1 x.2)) <$> l)) st = map_kinds (Scalar (SliceInt tint16 l.*2)) st /\
  map_kinds (WSlice ((fun x => Scalar (Str x)) <$> strs)) st = map_kinds (Scalar (SliceStr strs)) st.
Proof.
  intros Hl. split.
  - destruct l as [|[t z] l]; [done|]. apply Forall_cons in Hl as [(Ht & Hr & H16) Hl]. cbn [map_kinds].
    rewrite !fmap_cons. unfold mapAnyKinds. rewrite decide_False by done. cbn [split_kinds fst snd].
    rewrite (kind_id_of_int t z) by done. cbn [mbind option_bind default]. by rewrite split_kinds_ids.
  - destruct strs as [|x strs]; [done|]. cbn [map_kinds]. rewrite !fmap_cons. unfold mapAnyKinds.
    rewrite decide_False by done. cbn [split_kinds default]. by rewrite split_kinds_strings.
Qed.

(** The identifiers [AssertKinds] has answered in a run are mapped to the kinds in
    every later state of it. *)
Lemma asserted_ids_known {T DB : Type} `{HD : Database DB} `{HC : Catalog DB} `{HR : MapRange} `{!DatabaseLaws DB}
    (Invalidate : T -> T) cache (db : DB) D st kinds s' db' ids D2 s2 db2 :
  rtc (step Invalidate) (nothing, (NewSchemaManager cache, db)) (D, st) ->
  AssertKinds kinds st = Done ((s', db'), inl ids) -> Forall (fun k => ~ D k) kinds ->
  rtc (step Invalidate) (D, (s', db')) (D2, (s2, db2)) ->
  forall id k, (id, k) ∈ zip ids kinds -> kindIDsByKind s2 !! id = Some k.
Proof.
  intros Hrun Ha Hd Hrun2. destruct st as [s db1]. apply run_coherent in Hrun as Hco.
  destruct (AssertKinds_inv _ _ _ _ _ _ _ Hco Ha) as (Hco' & _ & Hall).
  destruct (steps_coherent _ _ _ Hrun2 Hco') as (Hco2 & _ & Hs). cbn in *.
  destruct (settled_kinds D D2 s' s2 kinds ids Hs Hd Hall) as [Hd2 Hall2]. clear -Hco2 Hd2 Hall2.
  intros id k. induction Hall2 as [|k' id' kinds ids Hk _ IH]; [by intros ?%elem_of_nil|].
  apply Forall_cons in Hd2 as [Hdk Hd2]. intros [[= -> ->]|Hin]%elem_of_cons; [by apply (co_kinds _ _ _ Hco2)|by apply IH].
Qed.

(** [C24] Rows are read back with the kinds they were created with.  In any run of the
    schema manager, sections that fail and other sessions included, let [AssertKinds]
    have answered identifiers for kinds none of which a section that failed had written
    to the maps before.  In every later state of the run, whatever sections have run or
    failed since, the rows of a path, of lists of nodes and relationships and of single
    nodes, in the shape pgx hands them out, whose kinds are stored as these identifiers
    and whose own identifiers are non-negative, are mapped to exactly the kinds that
    were asserted, the identifiers and the properties, in order, without asking the
    database. *)
Theorem created_rows_read_back {T DB : Type} `{HD : Database DB} `{HC : Catalog DB} `{HR : MapRange} `{!DatabaseLaws DB}
    (Invalidate : T -> T) cache (db : DB) D st kinds s' db' ids D2 s2 db2 nodes edges :
  rtc (step Invalidate) (nothing, (NewSchemaManager cache, db)) (D, st) ->
  AssertKinds kinds st = Done ((s', db'), inl ids) -> Forall (fun k => ~ D k) kinds ->
  rtc (step Invalidate) (D, (s', db')) (D2, (s2, db2)) ->
  Forall (fun w => id64 (wn_id w) /\ Forall (fun x => x ∈ zip ids kinds) (wn_kinds w)) nodes ->
  Forall (fun w => id64 (we_id w) /\ id64 (we_start w) /\ id64 (we_end w) /\ in_range tint16 (we_kind w).1 /\
                   we_kind w ∈ zip ids kinds) edges ->
  newMapFunc (path_row (row_of_node <$> nodes) (row_of_edge <$> edges)) TPath (s2, db2) =
    Done ((s2, db2), inl (Some (MPath (mkP (node_of <$> nodes) (edge_of <$> edges))))) /\
  newMapFunc (WSlice (row_of_node <$> nodes)) TNodes (s2, db2) =
    Done ((s2, db2), inl (Some (MNodes (node_of <$> nodes)))) /\
  newMapFunc (WSlice (row_of_edge <$> edges)) TRelationships (s2, db2) =
    Done ((s2, db2), inl (Some (MRelationships (edge_of <$> edges)))) /\
  (forall n, n ∈ nodes -> newMapFunc (row_of_node n) TNode (s2, db2) = Done ((s2, db2), inl (Some (MNode (node_of n))))).
Proof.
  intros Hrun Ha Hd Hrun2 Hn He. pose proof (asserted_ids_known _ _ _ _ _ _ _ _ _ _ _ _ Hrun Ha Hd Hrun2) as Hk.
  apply rows_read_back.
  - eapply Forall_impl; [exact Hn|]. intros w [Hid Hw]. split; [done|]. eapply Forall_impl; [exact Hw|]. intros [id k]. apply Hk.
  - eapply Forall_impl; [exact He|]. intros w (H1 & H2 & H3 & H4 & Hw). split_and!; try done. apply Hk. by destruct (we_kind w).
Qed.

(** ** Examples *)

Definition wn_user : written_node := mkWN 7 [(0, Some "User"); (1, Some "Group")]%Z [("name", Scalar (Str "bob"))].
Definition we_member : written_edge := mkWE 9 7 8 (1, Some "Group")%Z [].

Lemma rows_read_back_witness :
  newMapFunc (path_row [row_of_node wn_user] [row_of_edge we_member]) TPath st_users =
    Done (st_users, inl (Some (MPath (mkP [node_of wn_user] [edge_of we_member])))).
Proof.
  rewrite (surjective_pairing st_users).
  destruct (rows_read_back st_users.1 st_users.2 [wn_user] [we_member]) as [H _].
  - constructor; [|constructor]. split; [unfold id64; cbn; lia|].
    repeat (constructor; [vm_compute; reflexivity|]). constructor.
  - constructor; [|constructor]. split_and!; [unfold id64; cbn; lia..| |vm_compute; reflexivity].
    unfold in_range. cbn. lia.
  - exact H.
Defined.

Lemma any_kinds_as_typed_witness :
  map_kinds (WSlice [Scalar (Int tint64 1); Scalar (Int tuint8 0)]) st_users =
    map_kinds (Scalar (SliceInt tint16 [1; 0]%Z)) st_users.
Proof.
  apply (any_kinds_as_typed st_users [(tint64, 1%Z); (tuint8, 0%Z)] []).
  repeat (constructor; [unfold in_range; cbn; split_and!; (done || lia)|]). constructor.
Defined.

Definition st_computers : SchemaManager unit * SmallDB := left_by (AssertKinds [Some "Computer"; Some "User"]) st_users.

(** The kinds are asserted, a section that inserts two more fails at the second, and
    the path is read then. *)
Definition st_failed : SchemaManager unit * SmallDB :=
  left_by (assertKinds [Some "A"; Some "B"]) (st_computers.1, mkDB ["User"; "Group"; "Computer"] [] ∅ 1 true).

Lemma run_failed : exists D, rtc (step (fun c : unit => c)) (nothing, st_computers) (D, st_failed).
Proof.
  exists (fun k => nothing k \/ written st_computers.1 st_failed.1 k). eapply rtc_l; [|apply rtc_once].
  - rewrite (surjective_pairing st_computers).
    apply (step_other _ nothing st_computers.1 st_computers.1 st_computers.2
      (mkDB ["User"; "Group"; "Computer"] [] ∅ 1 true)); [done|].
    apply (bool_decide_unpack _). vm_compute. exact I.
  - apply (step_failed _ nothing (st_computers.1, mkDB ["User"; "Group"; "Computer"] [] ∅ 1 true) st_failed).
    apply (section_assert_kinds _ [Some "A"; Some "B"] _ st_failed (inr ErrNoRows)). vm_compute. reflexivity.
Qed.

Definition wn_computer : written_node := mkWN 12 [(2, Some "Computer"); (0, Some "User")]%Z [].

Lemma created_rows_read_back_witness :
  newMapFunc (row_of_node wn_computer) TNode st_failed =
    Done (st_failed, inl (Some (MNode (mkN 12 [Some "Computer"; Some "User"] [])))).
Proof.
  rewrite (surjective_pairing st_failed). destruct run_failed as [D HD].
  rewrite (surjective_pairing st_computers), (surjective_pairing st_failed) in HD.
  destruct (created_rows_read_back (fun c : unit => c) tt empty_db nothing st_users [Some "Computer"; Some "User"]
    st_computers.1 st_computers.2 [2; 0]%Z D st_failed.1 st_failed.2 [wn_computer] [] run_users) as (_ & _ & _ & H).
  - rewrite <- surjective_pairing. vm_compute. reflexivity.
  - repeat constructor; by intros [].
  - exact HD.
  - constructor; [|constructor]. split; [unfold id64; cbn; lia|]. apply (bool_decide_unpack _). vm_compute. exact I.
  - constructor.
  - apply H. by left.
Defined.
