(* ===== verification/Batches.v ===== *)
(** * Batches of writes (drivers/pg/batch.go)

    A batch keeps seven buffers.  Every operation appends to one of them and calls
    [tryFlush], which writes each buffer that has grown over the limit, in a fixed
    order, and stops at the first error; [Commit] flushes them all.  The columns of the
    statements are built with the kinds the schema manager knows.  The connection keeps
    a list of the statements it has executed without an error, with their arguments,
    their answers and the state they were executed in, which [exec] and [query], and
    nothing else, extend; the theorems compare it with the operations.  [CreateNodes]
    writes at once and puts the identifiers the database answers into the order of the
    nodes. *)

From S2P Require Import Prelude Kinds Mapper Properties Nodes Paths WriteBatch IndexDefinitions GraphSchema SmallDatabase SchemaManager ManagedGraphs.
From stdpp Require Import relations.

(** ** Data *)

(** A [*graph.Node] as a flush reads it; the pointers of the buffers are not nil. *)
Record batch_node := mkBatchNode {
  bn_ID : Z;
  bn_Kinds : list Kind;
  bn_DeletedKinds : list Kind;
  bn_Properties : option Properties
}.

Definition LargeNodeUpdateThreshold : Z := 1000000.

(** The parameters of an upsert of nodes and of one of relationships. *)
Record node_rows (J : Type) := mkNodeRows { np_graphID : Z; np_KindIDSlices : list string; np_Properties : list J }.
Record relationship_rows (J : Type) := mkRelationshipRows {
  rp_graphID : Z;
  rp_StartIDs : list Z;
  rp_EndIDs : list Z;
  rp_KindIDs : list Z;
  rp_Properties : list J
}.
Arguments mkNodeRows {J}.
Arguments np_graphID {J}.
Arguments np_KindIDSlices {J}.
Arguments np_Properties {J}.
Arguments mkRelationshipRows {J}.
Arguments rp_graphID {J}.
Arguments rp_StartIDs {J}.
Arguments rp_EndIDs {J}.
Arguments rp_KindIDs {J}.
Arguments rp_Properties {J}.

(** The statements, with their parameters; those of upserts are formatted as text. *)
Inductive command (J : Type) :=
| CreateNodesWithIDs (graphID : Z) (nodeIDs : list Z) (kindIDSlices : list string) (properties : list J)
| CreateNodesWithoutIDs (graphID : Z) (kindIDSlices : list string) (properties : list J)
| UpdateNodesIn (partition : string) (nodeIDs : list Z) (kindSlices deletedKindSlices : list string)
    (properties : list J) (deletedProperties : list string)
| DeleteNodesWith (ids : list Z)
| DeleteEdgesWith (ids : list Z)
| CreateEdges (graphID : Z) (createBatch : relationshipCreateBatch (J := J))
| UpsertNodes (text : string) (parameters : node_rows J)
| UpsertRelationships (text : string) (parameters : relationship_rows J).
Arguments CreateNodesWithIDs {J}.
Arguments CreateNodesWithoutIDs {J}.
Arguments UpdateNodesIn {J}.
Arguments DeleteNodesWith {J}.
Arguments DeleteEdgesWith {J}.
Arguments CreateEdges {J}.
Arguments UpsertNodes {J}.
Arguments UpsertRelationships {J}.

(** A statement that was executed without an error: the state of the schema manager
    and of the database it was executed in, and the rows of its answer. *)
Record executed (T DB J : Type) := mkExecuted {
  ex_manager : SchemaManager T;
  ex_db : DB;
  ex_command : command J;
  ex_answer : list (Z + error)
}.
Arguments mkExecuted {T DB J}.
Arguments ex_manager {T DB J}.
Arguments ex_db {T DB J}.
Arguments ex_command {T DB J}.
Arguments ex_answer {T DB J}.

Section batch.
Context {X T DB J NU RU : Type} `{Database DB} `{MapRange}.
Notation W := (M (SchemaManager T * DB)).

(** What the connection has executed, and [X], the rest of the heap that a flush may
    read and write. *)
Notation V := (M ((list (executed T DB J) * X) * (SchemaManager T * DB))).

(** The connection outside of a transaction of the driver: statements without rows,
    and those whose rows are one identifier each, with the error after them; [Insert]
    answers the rows of an ordinal and an identifier and the error after them. *)
Variable Exec : command J -> DB -> DB * option error.
Variable Query : command J -> DB -> DB * (list (Z + error) * option error).
Variable Insert : Z -> list string -> list J -> DB -> DB * (list ((Z * Z) + error) * option error).

(** The JSON encoder, and the text of the deleted properties. *)
Variable PropertiesToJSONB : option Properties -> J + error.
Variable DeletedPropertiesToString : option Properties -> string.

(** How the buffers of upserts and of new relationships are written, and large
    updates: what is shown of the buffers holds whatever they do. *)
Variable flushNodeUpserts : list NU -> V unit.
Variable flushRelationshipUpserts : list RU -> V unit.
Variable flushRelationshipCreates : list Relationship -> V unit.
Variable largeUpdate : list batch_node -> V unit.

(** [WithGraph] has set the target, or not. *)
Variable targetSchema : option GraphSchema.

Definition in_world {A} (m : W A) : V A := fun '(x, w) =>
  match m w with Done (w', r) => Done ((x, w'), r) | Panic => Panic | Spent => Spent end.

Definition exec (c : command J) : V unit := fun '((l, x), (s, db)) =>
  match Exec c db with
  | (db', None) => Done (((l ++ [mkExecuted s db c []], x), (s, db')), inl tt)
  | (db', Some e) => Done (((l, x), (s, db')), inr e)
  end.

Definition query (c : command J) : V (list (Z + error) * option error) := fun '((l, x), (s, db)) =>
  match Query c db with
  | (db', (answer, None)) => Done (((l ++ [mkExecuted s db c answer], x), (s, db')), inl (answer, None))
  | (db', (answer, Some e)) => Done (((l, x), (s, db')), inl (answer, Some e))
  end.

Definition getTargetGraph : W GraphModel :=
  match targetSchema with
  | Some schema => AssertGraph schema
  | None =>
      s ← get;
      let '(g, hasDefaultGraph) := DefaultGraph s in
      if hasDefaultGraph : bool then mret g
      else fails (ErrMessage "driver operation requires a graph target to be set")
  end.

(** ** Columns *)

Definition jsonb (p : option Properties) : W J :=
  match PropertiesToJSONB p with inl j => mret j | inr e => fails e end.

(** The columns of kinds and properties of new nodes. *)
Fixpoint create_columns (nodes : list batch_node) : W (list string * list J) :=
  match nodes with
  | [] => mret ([], [])
  | nextNode :: nodes' =>
      mappedKindIDs ← AssertKinds (bn_Kinds nextNode);
      propertiesJSONB ← jsonb (bn_Properties nextNode);
      '(kindIDSlices, properties) ← create_columns nodes';
      mret (Int2ArrayEncoder_Encode mappedKindIDs :: kindIDSlices, propertiesJSONB :: properties)
  end.

Definition flushNodeCreateBufferWithIDs (nodes : list batch_node) : V unit :=
  '(kindIDSlices, properties) ← in_world (create_columns nodes);
  graphTarget ← in_world getTargetGraph;
  exec (CreateNodesWithIDs (gm_ID graphTarget) (bn_ID <$> nodes) kindIDSlices properties).

Definition flushNodeCreateBufferWithoutIDs (nodes : list batch_node) : V unit :=
  '(kindIDSlices, properties) ← in_world (create_columns nodes);
  graphTarget ← in_world getTargetGraph;
  exec (CreateNodesWithoutIDs (gm_ID graphTarget) kindIDSlices properties).

Definition without_id (node : batch_node) : bool :=
  bool_decide (bn_ID node = 0 \/ bn_ID node = UnregisteredNodeID)%Z.

(** The loop that looks for a mixture; [None] is the error. *)
Fixpoint mix_loop (withoutIDs withIDs : bool) (nodes : list batch_node) : option (bool * bool) :=
  match nodes with
  | [] => Some (withoutIDs, withIDs)
  | node :: nodes' =>
      let withoutIDs := withoutIDs || without_id node in
      let withIDs := withIDs || negb (without_id node) in
      if withIDs && withoutIDs then None else mix_loop withoutIDs withIDs nodes'
  end.

Definition flushNodeCreates (nodes : list batch_node) : V unit :=
  match mix_loop false false nodes with
  | None => fails (ErrMessage "batch may not mix preset node IDs with entries that require an auto-generated ID")
  | Some (withoutIDs, _) =>
      if withoutIDs : bool then flushNodeCreateBufferWithoutIDs nodes else flushNodeCreateBufferWithIDs nodes
  end.

Record NodeUpdateParameters := mkUpdateParameters {
  up_NodeIDs : list Z;
  up_KindSlices : list string;
  up_DeletedKindSlices : list string;
  up_Properties : list J;
  up_DeletedProperties : list string
}.

Definition NewNodeUpdateParameters : NodeUpdateParameters := mkUpdateParameters [] [] [] [] [].

Definition NodeUpdateParameters_Append (s : NodeUpdateParameters) (node : batch_node) : W NodeUpdateParameters :=
  kindIDs ← AssertKinds (bn_Kinds node);
  deletedKindIDs ← AssertKinds (bn_DeletedKinds node);
  propertiesJSONB ← jsonb (bn_Properties node);
  mret (mkUpdateParameters (up_NodeIDs s ++ [bn_ID node])
          (up_KindSlices s ++ [Int2ArrayEncoder_Encode kindIDs])
          (up_DeletedKindSlices s ++ [Int2ArrayEncoder_Encode deletedKindIDs])
          (up_Properties s ++ [propertiesJSONB])
          (up_DeletedProperties s ++ [DeletedPropertiesToString (bn_Properties node)])).

Fixpoint NodeUpdateParameters_AppendAll (s : NodeUpdateParameters) (nodes : list batch_node) : W NodeUpdateParameters :=
  match nodes with
  | [] => mret s
  | node :: nodes' => s' ← NodeUpdateParameters_Append s node; NodeUpdateParameters_AppendAll s' nodes'
  end.

(** The rows that a large update streams into its staging table; the identifier is
    read as a signed number, and [json_text] is the text of the encoded properties. *)
Variable json_text : J -> string.

Definition staging_row : Type := Z * string * string * string * string.

Definition LargeNodeUpdateRows_Append (s : list staging_row) (node : batch_node) : W (list staging_row) :=
  addedKindIDs ← AssertKinds (bn_Kinds node);
  deletedKindIDs ← AssertKinds (bn_DeletedKinds node);
  propertiesJSONB ← jsonb (bn_Properties node);
  mret (s ++ [(wrap tint64 (bn_ID node), Int2ArrayEncoder_Encode addedKindIDs, Int2ArrayEncoder_Encode deletedKindIDs,
               json_text propertiesJSONB, DeletedPropertiesToString (bn_Properties node))]).

Fixpoint LargeNodeUpdateRows_AppendAll (s : list staging_row) (nodes : list batch_node) : W (list staging_row) :=
  match nodes with
  | [] => mret s
  | node :: nodes' => s' ← LargeNodeUpdateRows_Append s node; LargeNodeUpdateRows_AppendAll s' nodes'
  end.

Definition flushNodeUpdateBatch (nodes : list batch_node) : V unit :=
  parameters ← in_world (NodeUpdateParameters_AppendAll NewNodeUpdateParameters nodes);
  graphTarget ← in_world getTargetGraph;
  exec (UpdateNodesIn (gp_Name (gps_Node (gm_Partitions graphTarget)))
    (up_NodeIDs parameters) (up_KindSlices parameters) (up_DeletedKindSlices parameters)
    (up_Properties parameters) (up_DeletedProperties parameters)).

(** ** Buffers *)

Record batch := mkBatch {
  nodeDeletionBuffer : list Z;
  relationshipDeletionBuffer : list Z;
  nodeCreateBuffer : list batch_node;
  nodeUpdateBuffer : list batch_node;
  nodeUpdateByBuffer : list NU;
  relationshipCreateBuffer : list Relationship;
  relationshipUpdateByBuffer : list RU;
  batchWriteSize : Z
}.

Definition newBatch (BatchWriteSize : Z) : batch := mkBatch [] [] [] [] [] [] [] BatchWriteSize.

Notation state := (batch * ((list (executed T DB J) * X) * (SchemaManager T * DB)))%type.
Notation B := (M state).

(** A flush: the buffer is emptied when the statement has run without an error. *)
Definition flush_buffer {A} (buffer : batch -> list A) (write : list A -> V unit) (clear : batch -> batch) : B unit :=
  fun '(b, st) =>
    match write (buffer b) st with
    | Done (st', inl _) => Done ((clear b, st'), inl tt)
    | Done (st', inr e) => Done ((b, st'), inr e)
    | Panic => Panic
    | Spent => Spent
    end.

Definition tryFlushNodeUpdateByBuffer : B unit :=
  flush_buffer nodeUpdateByBuffer flushNodeUpserts (fun b =>
    mkBatch (nodeDeletionBuffer b) (relationshipDeletionBuffer b) (nodeCreateBuffer b) (nodeUpdateBuffer b) []
      (relationshipCreateBuffer b) (relationshipUpdateByBuffer b) (batchWriteSize b)).
Definition tryFlushNodeUpdateBuffer : B unit :=
  flush_buffer nodeUpdateBuffer flushNodeUpdateBatch (fun b =>
    mkBatch (nodeDeletionBuffer b) (relationshipDeletionBuffer b) (nodeCreateBuffer b) [] (nodeUpdateByBuffer b)
      (relationshipCreateBuffer b) (relationshipUpdateByBuffer b) (batchWriteSize b)).
Definition tryFlushRelationshipUpdateByBuffer : B unit :=
  flush_buffer relationshipUpdateByBuffer flushRelationshipUpserts (fun b =>
    mkBatch (nodeDeletionBuffer b) (relationshipDeletionBuffer b) (nodeCreateBuffer b) (nodeUpdateBuffer b) (nodeUpdateByBuffer b)
      (relationshipCreateBuffer b) [] (batchWriteSize b)).
Definition flushRelationshipCreateBuffer : B unit :=
  flush_buffer relationshipCreateBuffer flushRelationshipCreates (fun b =>
    mkBatch (nodeDeletionBuffer b) (relationshipDeletionBuffer b) (nodeCreateBuffer b) (nodeUpdateBuffer b) (nodeUpdateByBuffer b)
      [] (relationshipUpdateByBuffer b) (batchWriteSize b)).
Definition flushNodeCreateBuffer : B unit :=
  flush_buffer nodeCreateBuffer flushNodeCreates (fun b =>
    mkBatch (nodeDeletionBuffer b) (relationshipDeletionBuffer b) [] (nodeUpdateBuffer b) (nodeUpdateByBuffer b)
      (relationshipCreateBuffer b) (relationshipUpdateByBuffer b) (batchWriteSize b)).
Definition flushNodeDeleteBuffer : B unit :=
  flush_buffer nodeDeletionBuffer (fun ids => exec (DeleteNodesWith ids)) (fun b =>
    mkBatch [] (relationshipDeletionBuffer b) (nodeCreateBuffer b) (nodeUpdateBuffer b) (nodeUpdateByBuffer b)
      (relationshipCreateBuffer b) (relationshipUpdateByBuffer b) (batchWriteSize b)).
Definition flushRelationshipDeleteBuffer : B unit :=
  flush_buffer relationshipDeletionBuffer (fun ids => exec (DeleteEdgesWith ids)) (fun b =>
    mkBatch (nodeDeletionBuffer b) [] (nodeCreateBuffer b) (nodeUpdateBuffer b) (nodeUpdateByBuffer b)
      (relationshipCreateBuffer b) (relationshipUpdateByBuffer b) (batchWriteSize b)).

Definition over {A} (buffer : batch -> list A) (limit : Z) (flush : B unit) : B unit := fun st =>
  if decide (limit < Z.of_nat (length (buffer st.1)))%Z then flush st else (mret tt : B unit) st.

Definition tryFlush (limit : Z) : B unit :=
  _ ← over nodeUpdateByBuffer limit tryFlushNodeUpdateByBuffer;
  _ ← over nodeUpdateBuffer limit tryFlushNodeUpdateBuffer;
  _ ← over relationshipUpdateByBuffer limit tryFlushRelationshipUpdateByBuffer;
  _ ← over relationshipCreateBuffer limit flushRelationshipCreateBuffer;
  _ ← over nodeCreateBuffer limit flushNodeCreateBuffer;
  _ ← over nodeDeletionBuffer limit flushNodeDeleteBuffer;
  over relationshipDeletionBuffer limit flushRelationshipDeleteBuffer.

(** ** Operations *)

(** What is appended to a buffer. *)
Inductive item :=
| CreateNode (node : batch_node)
| UpdateNode (node : batch_node)
| UpdateNodeBy (update : NU)
| CreateRelationship (relationship : Relationship)
| UpdateRelationshipBy (update : RU)
| DeleteNode (id : Z)
| DeleteRelationship (id : Z).

Definition append (i : item) (b : batch) : batch :=
  match i with
  | CreateNode node => mkBatch (nodeDeletionBuffer b) (relationshipDeletionBuffer b) (nodeCreateBuffer b ++ [node]) (nodeUpdateBuffer b)
      (nodeUpdateByBuffer b) (relationshipCreateBuffer b) (relationshipUpdateByBuffer b) (batchWriteSize b)
  | UpdateNode node => mkBatch (nodeDeletionBuffer b) (relationshipDeletionBuffer b) (nodeCreateBuffer b) (nodeUpdateBuffer b ++ [node])
      (nodeUpdateByBuffer b) (relationshipCreateBuffer b) (relationshipUpdateByBuffer b) (batchWriteSize b)
  | UpdateNodeBy update => mkBatch (nodeDeletionBuffer b) (relationshipDeletionBuffer b) (nodeCreateBuffer b) (nodeUpdateBuffer b)
      (nodeUpdateByBuffer b ++ [update]) (relationshipCreateBuffer b) (relationshipUpdateByBuffer b) (batchWriteSize b)
  | CreateRelationship r => mkBatch (nodeDeletionBuffer b) (relationshipDeletionBuffer b) (nodeCreateBuffer b) (nodeUpdateBuffer b)
      (nodeUpdateByBuffer b) (relationshipCreateBuffer b ++ [r]) (relationshipUpdateByBuffer b) (batchWriteSize b)
  | UpdateRelationshipBy update => mkBatch (nodeDeletionBuffer b) (relationshipDeletionBuffer b) (nodeCreateBuffer b) (nodeUpdateBuffer b)
      (nodeUpdateByBuffer b) (relationshipCreateBuffer b) (relationshipUpdateByBuffer b ++ [update]) (batchWriteSize b)
  | DeleteNode id => mkBatch (nodeDeletionBuffer b ++ [id]) (relationshipDeletionBuffer b) (nodeCreateBuffer b) (nodeUpdateBuffer b)
      (nodeUpdateByBuffer b) (relationshipCreateBuffer b) (relationshipUpdateByBuffer b) (batchWriteSize b)
  | DeleteRelationship id => mkBatch (nodeDeletionBuffer b) (relationshipDeletionBuffer b ++ [id]) (nodeCreateBuffer b) (nodeUpdateBuffer b)
      (nodeUpdateByBuffer b) (relationshipCreateBuffer b) (relationshipUpdateByBuffer b) (batchWriteSize b)
  end.

(** The seven operations that append; [UpdateNode] is a turn of [UpdateNodes]. *)
Definition submit (i : item) : B unit := fun '(b, st) =>
  tryFlush (batchWriteSize b) (append i b, st).

Fixpoint update_nodes (nodes : list batch_node) : B unit :=
  match nodes with
  | [] => mret tt
  | node :: nodes' => _ ← submit (UpdateNode node); update_nodes nodes'
  end.

Definition UpdateNodes (nodes : list batch_node) : B unit := fun '(b, st) =>
  if decide (LargeNodeUpdateThreshold < Z.of_nat (length nodes))%Z
  then match largeUpdate nodes st with
       | Done (st', r) => Done ((b, st'), r)
       | Panic => Panic
       | Spent => Spent
       end
  else update_nodes nodes (b, st).

(** The transaction of a batch is only a connection: there is nothing to commit. *)
Definition batch_Commit : B unit := tryFlush 0.

(** ** Nodes created at once *)

(** One row of the answer: its ordinal has to be a new one of the range. *)
Fixpoint collect_ids (n : nat) (answer : list ((Z * Z) + error)) (createdIDs : list Z) (seen : list bool) :
    outcome ((list Z * list bool) + error) :=
  match answer with
  | [] => Done (inl (createdIDs, seen))
  | inr e :: _ => Done (inr e)
  | inl (ordinal, id) :: answer' =>
      if decide (id < 0 \/ ordinal < 1 \/ Z.of_nat n < ordinal)%Z
      then Done (inr (ErrMessage "bulk create returned invalid node ordinal"))
      else
        was ← slice_get seen (ordinal - 1);
        if was : bool then Done (inr (ErrMessage "bulk create returned invalid node ordinal"))
        else
          createdIDs' ← slice_set createdIDs (ordinal - 1) (wrap tID id);
          seen' ← slice_set seen (ordinal - 1) true;
          collect_ids n answer' createdIDs' seen'
  end.

Definition created_ids (n : nat) (answer : list ((Z * Z) + error)) (rowsErr : option error) : outcome (list Z + error) :=
  r ← collect_ids n answer (replicate n 0%Z) (replicate n false);
  match r with
  | inr e => Done (inr e)
  | inl (createdIDs, seen) =>
      match rowsErr with
      | Some e => Done (inr e)
      | None =>
          if forallb (fun found => found) seen then Done (inl createdIDs)
          else Done (inr (ErrMessage "bulk create did not return node ordinal"))
      end
  end.

Fixpoint node_columns (nodes : list (option batch_node)) : W (list string * list J) :=
  match nodes with
  | [] => mret ([], [])
  | None :: _ => fails (ErrMessage "bulk create node is nil")
  | Some node :: nodes' =>
      mappedKindIDs ← AssertKinds (bn_Kinds node);
      propertiesJSONB ← jsonb (bn_Properties node);
      '(kindIDSlices, properties) ← node_columns nodes';
      mret (Int2ArrayEncoder_Encode mappedKindIDs :: kindIDSlices, propertiesJSONB :: properties)
  end.

Definition insert_nodes (graphID : Z) (kindIDSlices : list string) (properties : list J) (n : nat) : M DB (list Z) := fun db =>
  match BeginTx db with
  | Some e => Done (db, inr e)
  | None =>
      let '(now, (answer, rowsErr)) := Insert graphID kindIDSlices properties db in
      r ← created_ids n answer rowsErr;
      match r with
      | inr e => Done (Rollback db now, inr e)
      | inl ids => let '(db', e) := Commit db now in Done (db', match e with None => inl ids | Some e => inr e end)
      end
  end.

Definition CreateNodes (nodes : list (option batch_node)) : W (list Z) :=
  if decide (length nodes = 0) then mret []
  else
    '(kindIDSlices, properties) ← node_columns nodes;
    graphTarget ← getTargetGraph;
    lift (insert_nodes (gm_ID graphTarget) kindIDSlices properties (length nodes)).

End batch.

(** ** Columns *)

Section columns.
Context {T DB J : Type} `{HD : Database DB} `{HR : MapRange}.
Context (PropertiesToJSONB : option Properties -> J + error) (DeletedPropertiesToString : option Properties -> string).

(** A text of a column of kinds is the array of the identifiers that the manager maps
    the kinds to. *)
Definition kinds_text (s : SchemaManager T) (kinds : list Kind) (t : string) : Prop :=
  exists ids, t = Int2ArrayEncoder_Encode ids /\ Forall2 (fun k id => kindsByID s !! k = Some id) kinds ids.

Lemma kinds_text_mono s s' kinds t : kindsByID s ⊆ kindsByID s' -> kinds_text s kinds t -> kinds_text s' kinds t.
Proof using Type.
  intros Hsub (ids & -> & Hf). exists ids. split; [done|]. eapply Forall2_impl; [exact Hf|]. intros k id Hk. exact (lookup_weaken _ _ _ _ Hk Hsub).
Qed.

Lemma jsonb_inv p (st st' : SchemaManager T * DB) j :
  jsonb PropertiesToJSONB p st = Done (st', inl j) -> PropertiesToJSONB p = inl j /\ st' = st.
Proof using Type. unfold jsonb. destruct (PropertiesToJSONB p); [|done]. by intros [= <- <-]. Qed.

Lemma AssertKinds_text kinds (s s' : SchemaManager T) (db db' : DB) ids :
  AssertKinds kinds (s, db) = Done ((s', db'), inl ids) ->
  kindsByID s ⊆ kindsByID s' /\ kinds_text s' kinds (Int2ArrayEncoder_Encode ids).
Proof using Type. intros [Hk Hall]%AssertKinds_maps. split; [done|]. by exists ids. Qed.

(** The columns of new nodes. *)
Definition create_row (s : SchemaManager T) (node : batch_node) (t : string) (j : J) : Prop :=
  kinds_text s (bn_Kinds node) t /\ PropertiesToJSONB (bn_Properties node) = inl j.

Lemma create_columns_inv nodes : forall (s s' : SchemaManager T) (db db' : DB) texts js,
  create_columns PropertiesToJSONB nodes (s, db) = Done ((s', db'), inl (texts, js)) ->
  kindsByID s ⊆ kindsByID s' /\ Forall3 (create_row s') nodes texts js.
Proof using Type.
  induction nodes as [|node nodes IH]; intros s s' db db' texts js Hrun.
  - injection Hrun as <- <- <- <-. split; [done|constructor].
  - apply M_bind_inv in Hrun as ([s1 db1] & ids & Ha & (st2 & j & [Hj ->]%jsonb_inv & Hrun)%M_bind_inv).
    apply M_bind_inv in Hrun as ([s3 db3] & [texts' js'] & Hrest & [= <- <- <- <-]).
    destruct (AssertKinds_text _ _ _ _ _ _ Ha) as (Hk1 & Ht1). destruct (IH _ _ _ _ _ _ Hrest) as (Hk3 & Ht3).
    split; [by etrans|]. constructor; [|done]. split; [by eapply kinds_text_mono|done].
Qed.

(** What the columns of an update hold of the nodes. *)
Record update_columns (s : SchemaManager T) (nodes : list batch_node) (p : NodeUpdateParameters (J := J)) : Prop := {
  uc_ids : up_NodeIDs p = bn_ID <$> nodes;
  uc_kinds : Forall2 (fun node t => kinds_text s (bn_Kinds node) t) nodes (up_KindSlices p);
  uc_deleted : Forall2 (fun node t => kinds_text s (bn_DeletedKinds node) t) nodes (up_DeletedKindSlices p);
  uc_properties : Forall2 (fun node j => PropertiesToJSONB (bn_Properties node) = inl j) nodes (up_Properties p);
  uc_deleted_properties : up_DeletedProperties p = (fun node => DeletedPropertiesToString (bn_Properties node)) <$> nodes
}.

Lemma Append_inv node before (p p' : NodeUpdateParameters (J := J)) (s s' : SchemaManager T) (db db' : DB) :
  update_columns s before p ->
  NodeUpdateParameters_Append PropertiesToJSONB DeletedPropertiesToString p node (s, db) = Done ((s', db'), inl p') ->
  kindsByID s ⊆ kindsByID s' /\ update_columns s' (before ++ [node]) p'.
Proof using Type.
  intros [H1 H2 H3 H4 H5] ([s1 db1] & ids & Ha & ([s2 db2] & dels & Hd & (st3 & j & [Hj ->]%jsonb_inv & [= <- <- <-])%M_bind_inv)%M_bind_inv)%M_bind_inv.
  destruct (AssertKinds_text _ _ _ _ _ _ Ha) as (Hk1 & Ht1). destruct (AssertKinds_text _ _ _ _ _ _ Hd) as (Hk2 & Ht2).
  assert (Hk : kindsByID s ⊆ kindsByID s2) by (by etrans).
  split; [done|]. split; cbn.
  - by rewrite H1, fmap_app.
  - apply Forall2_app; [|constructor; [exact (kinds_text_mono _ _ _ _ Hk2 Ht1)|constructor]].
    eapply Forall2_impl; [exact H2|]. intros n t. by apply kinds_text_mono.
  - apply Forall2_app; [|constructor; [exact Ht2|constructor]]. eapply Forall2_impl; [exact H3|]. intros n t. by apply kinds_text_mono.
  - apply Forall2_app; [done|constructor; [exact Hj|constructor]].
  - by rewrite H5, fmap_app.
Qed.

Lemma AppendAll_inv nodes : forall before (p p' : NodeUpdateParameters (J := J)) (s s' : SchemaManager T) (db db' : DB),
  update_columns s before p ->
  NodeUpdateParameters_AppendAll PropertiesToJSONB DeletedPropertiesToString p nodes (s, db) = Done ((s', db'), inl p') ->
  kindsByID s ⊆ kindsByID s' /\ update_columns s' (before ++ nodes) p'.
Proof using Type.
  induction nodes as [|node nodes IH]; intros before p p' s s' db db' Huc Hrun.
  - injection Hrun as <- <- <-. by rewrite app_nil_r.
  - apply M_bind_inv in Hrun as ([s1 db1] & p1 & Happ & Hrun).
    destruct (Append_inv _ _ _ _ _ _ _ _ Huc Happ) as (Hk1 & Huc1).
    destruct (IH _ _ _ _ _ _ _ Huc1 Hrun) as (Hk2 & Huc2). rewrite <- app_assoc in Huc2.
    split; [by etrans|done].
Qed.

(** The target graph is found without touching the kinds. *)
Lemma getTargetGraph_kinds schema (s s' : SchemaManager T) (db db' : DB) r :
  getTargetGraph schema (s, db) = Done ((s', db'), r) -> kindsByID s' = kindsByID s.
Proof using Type.
  unfold getTargetGraph. destruct schema as [schema|].
  - unfold AssertGraph, AssertGraph_locked, assertGraph, mbind, M_bind, get, put, lift.
    destruct (graphs s !! gs_Name schema) eqn:E; [by intros [= <- <- <-]|]. rewrite E.
    destruct (assert_definition schema db) as [[db1 [g|e]]| |]; [intros [= <- _ _]; done|intros [= <- _ _]; done|done..].
  - unfold mbind, M_bind, get. destruct (DefaultGraph s) as [g []]; by intros [= <- <- <-].
Qed.

(** The loop finds out whether every node has an identifier, or none. *)
Lemma mix_loop_spec nodes : forall a b a' b',
  mix_loop a b nodes = Some (a', b') ->
  (a && b) = false -> (a' && b') = false /\ (a = true -> a' = true) /\ (b = true -> b' = true) /\
  (a' = false -> Forall (fun n => without_id n = false) nodes) /\ (b' = false -> Forall (fun n => without_id n = true) nodes).
Proof using Type.
  induction nodes as [|n nodes IH]; intros a b a' b'; cbn.
  { intros [= <- <-] Hab. split_and!; done. }
  destruct ((b || negb (without_id n)) && (a || without_id n)) eqn:E; [done|]. intros Hrun Hab.
  rewrite andb_comm in E. destruct (IH _ _ _ _ Hrun E) as (H1 & H2 & H3 & H4 & H5).
  split_and!; [done|intros ->; by apply H2|intros ->; by apply H3| |].
  - intros ->. constructor; [|by apply H4]. destruct (without_id n); [|done]. rewrite orb_true_r in H2. by discriminate H2.
  - intros ->. constructor; [|by apply H5]. destruct (without_id n); [done|]. rewrite orb_true_r in H3. by discriminate H3.
Qed.
End columns.

(** ** Every item is written once *)

(** The seven ways an item can go. *)
Inductive channel := ChNodeUpsert | ChNodeUpdate | ChRelUpsert | ChRelCreate | ChNodeCreate | ChNodeDelete | ChRelDelete.

#[export] Instance channel_eq_dec : EqDecision channel.
Proof. solve_decision. Defined.

(** The channel a statement writes; upserts merge their items first. *)
Definition command_channel {J} (c : command J) : option channel :=
  match c with
  | CreateNodesWithIDs _ _ _ _ | CreateNodesWithoutIDs _ _ _ => Some ChNodeCreate
  | UpdateNodesIn _ _ _ _ _ _ => Some ChNodeUpdate
  | DeleteNodesWith _ => Some ChNodeDelete
  | DeleteEdgesWith _ => Some ChRelDelete
  | CreateEdges _ _ => Some ChRelCreate
  | UpsertNodes _ _ | UpsertRelationships _ _ => None
  end.

Definition direct (k : channel) : bool :=
  match k with ChNodeUpsert | ChRelUpsert => false | _ => true end.

Section conservation.
Context {X T DB J NU RU : Type} `{HD : Database DB} `{HR : MapRange}.
Context (Exec : command J -> DB -> DB * option error).
Context (PropertiesToJSONB : option Properties -> J + error) (DeletedPropertiesToString : option Properties -> string).
Notation V := (M ((list (executed T DB J) * X) * (SchemaManager T * DB))).
Context (flushNodeUpserts : list NU -> V unit) (flushRelationshipUpserts : list RU -> V unit).
Context (flushRelationshipCreates : list Relationship -> V unit) (targetSchema : option GraphSchema).

(** What a statement for new relationships holds of them. *)
Context (created : relationshipCreateBatch (J := J) -> list Relationship -> Prop).

Notation batch := (batch (NU := NU) (RU := RU)).
Notation item := (item (NU := NU) (RU := RU)).
Notation log := (list (executed T DB J)).
Notation state := (batch * ((log * X) * (SchemaManager T * DB)))%type.
Notation B := (M state).
Notation tryFlush := (tryFlush Exec PropertiesToJSONB DeletedPropertiesToString flushNodeUpserts
  flushRelationshipUpserts flushRelationshipCreates targetSchema).
Notation submit := (submit Exec PropertiesToJSONB DeletedPropertiesToString flushNodeUpserts
  flushRelationshipUpserts flushRelationshipCreates targetSchema).
Notation batch_Commit := (batch_Commit Exec PropertiesToJSONB DeletedPropertiesToString flushNodeUpserts
  flushRelationshipUpserts flushRelationshipCreates targetSchema).

Definition channel_of (i : item) : channel :=
  match i with
  | CreateNode _ => ChNodeCreate
  | UpdateNode _ => ChNodeUpdate
  | UpdateNodeBy _ => ChNodeUpsert
  | CreateRelationship _ => ChRelCreate
  | UpdateRelationshipBy _ => ChRelUpsert
  | DeleteNode _ => ChNodeDelete
  | DeleteRelationship _ => ChRelDelete
  end.

Definition buffered (c : channel) (b : batch) : list item :=
  match c with
  | ChNodeUpsert => UpdateNodeBy <$> nodeUpdateByBuffer b
  | ChNodeUpdate => UpdateNode <$> nodeUpdateBuffer b
  | ChRelUpsert => UpdateRelationshipBy <$> relationshipUpdateByBuffer b
  | ChRelCreate => CreateRelationship <$> relationshipCreateBuffer b
  | ChNodeCreate => CreateNode <$> nodeCreateBuffer b
  | ChNodeDelete => DeleteNode <$> nodeDeletionBuffer b
  | ChRelDelete => DeleteRelationship <$> relationshipDeletionBuffer b
  end.

Definition of_channel (c : channel) (l : list item) : list item := filter (fun i => channel_of i = c) l.

(** What an executed statement has written: one row for each item, in order. *)
Definition writes (en : executed T DB J) (group : list item) : Prop :=
  match ex_command en with
  | CreateNodesWithIDs _ ids texts js => exists nodes, group = CreateNode <$> nodes /\ ids = bn_ID <$> nodes /\
      Forall (fun n => without_id n = false) nodes /\ Forall3 (create_row PropertiesToJSONB (ex_manager en)) nodes texts js
  | CreateNodesWithoutIDs _ texts js => exists nodes, group = CreateNode <$> nodes /\
      Forall (fun n => without_id n = true) nodes /\ Forall3 (create_row PropertiesToJSONB (ex_manager en)) nodes texts js
  | UpdateNodesIn _ ids kinds deletedKinds properties deletedProperties => exists nodes, group = UpdateNode <$> nodes /\
      update_columns PropertiesToJSONB DeletedPropertiesToString (ex_manager en) nodes
        (mkUpdateParameters ids kinds deletedKinds properties deletedProperties)
  | DeleteNodesWith ids => group = DeleteNode <$> ids
  | DeleteEdgesWith ids => group = DeleteRelationship <$> ids
  | CreateEdges _ b => exists edges, group = CreateRelationship <$> edges /\ created b edges
  | UpsertNodes _ _ | UpsertRelationships _ _ => False
  end.

(** The statements of a channel. *)
Definition entry_channel (en : executed T DB J) : option channel := command_channel (ex_command en).
Definition logged (c : channel) (l : log) : log := filter (fun en => entry_channel en = Some c) l.

(** The statements executed and the buffer together hold the items, in order. *)
Definition conserved (c : channel) (l : log) (b : batch) (items : list item) : Prop :=
  exists groups, Forall2 writes (logged c l) groups /\ concat groups ++ buffered c b = items.

(** The statement for one flush is executed exactly when it succeeds. *)
Definition one_statement (k : channel) (items : list item) (m : V unit) : Prop :=
  forall l x w l' x' w' r, m ((l, x), w) = Done (((l', x'), w'), r) ->
    match r with
    | inl _ => exists en, l' = l ++ [en] /\ entry_channel en = Some k /\ writes en items
    | inr _ => l' = l
    end.

(** Only upserts are executed. *)
Definition upserts_only (m : V unit) : Prop :=
  forall l x w l' x' w' r, m ((l, x), w) = Done (((l', x'), w'), r) ->
    exists ext, l' = l ++ ext /\ Forall (fun en => entry_channel en = None) ext.

Context (Hnodes : forall updates, upserts_only (flushNodeUpserts updates)).
Context (Hrelationships : forall updates, upserts_only (flushRelationshipUpserts updates)).
Context (Hcreates : forall edges, one_statement ChRelCreate (CreateRelationship <$> edges) (flushRelationshipCreates edges)).

Lemma in_world_any {A} (m : M (SchemaManager T * DB) A) (x : log * X) w st r :
  in_world m (x, w) = Done (st, r) -> exists w', st = (x, w') /\ m w = Done (w', r).
Proof using Type. cbn. destruct (m w) as [[w' r']| |]; [|done..]. intros [= <- ->]. by exists w'. Qed.

(** A statement that is executed last. *)
Lemma exec_one k items c (l : log) (x : X) s db l' x' w' r :
  exec Exec c ((l, x), (s, db)) = Done (((l', x'), w'), r) -> command_channel c = Some k ->
  (writes (mkExecuted s db c []) items) ->
  match r with
  | inl _ => exists en, l' = l ++ [en] /\ entry_channel en = Some k /\ writes en items
  | inr _ => l' = l
  end.
Proof using Type.
  unfold exec. destruct (Exec c db) as [db' [e|]]; intros [= <- <- <- <-] Hc Hw; [done|]. by eexists.
Qed.

Lemma delete_one k (mk : Z -> item) (c : list Z -> command J) ids :
  (command_channel (c ids) = Some k) -> (forall s db, writes (mkExecuted s db (c ids) []) (mk <$> ids)) ->
  one_statement k (mk <$> ids) (exec Exec (c ids)).
Proof using Type. intros Hk Hw l x [s db] l' x' w' r Hrun. by eapply exec_one. Qed.

Lemma update_one nodes :
  one_statement ChNodeUpdate (UpdateNode <$> nodes)
    (flushNodeUpdateBatch Exec PropertiesToJSONB DeletedPropertiesToString targetSchema nodes).
Proof using Type.
  intros l x [s db] l' x' w' r. unfold flushNodeUpdateBatch. unfold mbind at 1, M_bind at 1.
  destruct (in_world _ _) as [[st [p|e]]| |] eqn:E1; [| |done..];
    apply in_world_any in E1 as ([s1 db1] & -> & E1); [|by intros [= <- _ _ <-]].
  unfold mbind, M_bind. destruct (in_world (getTargetGraph targetSchema) _) as [[st [g|e]]| |] eqn:E2; [| |done..];
    apply in_world_any in E2 as ([s2 db2] & -> & E2); [|by intros [= <- _ _ <-]].
  intros Hrun. eapply exec_one; [exact Hrun|done|]. exists nodes. split; [done|].
  assert (Huc : update_columns PropertiesToJSONB DeletedPropertiesToString s1 ([] ++ nodes) p).
  { eapply AppendAll_inv; [|exact E1]. by split; try constructor. }
  apply getTargetGraph_kinds in E2. destruct Huc as [U1 U2 U3 U4 U5]. cbn [app ex_manager] in *.
  split; cbn; try done; (eapply Forall2_impl; [eassumption|]); intros n t; apply kinds_text_mono; by rewrite E2.
Qed.

Lemma create_one nodes : one_statement ChNodeCreate (CreateNode <$> nodes) (flushNodeCreates Exec PropertiesToJSONB targetSchema nodes).
Proof using Type.
  unfold flushNodeCreates. destruct (mix_loop false false nodes) as [[without with_]|] eqn:Em.
  2:{ intros l x w l' x' w' r. by intros [= <- _ _ <-]. }
  destruct (mix_loop_spec _ _ _ _ _ Em eq_refl) as (Hab & _ & _ & Hwith & Hwithout).
  intros l x [s db] l' x' w' r.
  destruct without; unfold flushNodeCreateBufferWithIDs, flushNodeCreateBufferWithoutIDs; unfold mbind at 1, M_bind at 1;
    (destruct (in_world (create_columns _ _) _) as [[st [[texts js]|e]]| |] eqn:E1; [| |done..];
     apply in_world_any in E1 as ([s1 db1] & -> & E1); [|by intros [= <- _ _ <-]]);
    unfold mbind, M_bind; (destruct (in_world (getTargetGraph targetSchema) _) as [[st [g|e]]| |] eqn:E2; [| |done..];
     apply in_world_any in E2 as ([s2 db2] & -> & E2); [|by intros [= <- _ _ <-]]);
    apply create_columns_inv in E1 as [_ Hrows]; apply getTargetGraph_kinds in E2;
    (assert (Hrows' : Forall3 (create_row PropertiesToJSONB s2) nodes texts js) by
      (eapply Forall3_impl; [exact Hrows|]; intros n t j; unfold create_row, kinds_text; by rewrite E2));
    intros Hrun; (eapply exec_one; [exact Hrun|done|]); exists nodes; split_and!; try done.
  - apply Hwithout. by destruct with_.
  - by apply Hwith.
Qed.

(** Items of one channel are all of a list, or none. *)
Lemma append_buffered c i b : buffered c (append i b) = buffered c b ++ of_channel c [i].
Proof using Type.
  unfold of_channel. rewrite filter_cons, filter_nil. destruct i, c; cbn -[filter]; rewrite ?fmap_app, ?app_nil_r; done.
Qed.

Lemma append_conserved c i l b items : conserved c l b items -> conserved c l (append i b) (items ++ of_channel c [i]).
Proof using Type.
  intros (groups & Hg & <-). exists groups. split; [done|]. by rewrite append_buffered, app_assoc.
Qed.

(** A flush of one channel: when it succeeds its buffer is empty and, for the channels
    whose items are not merged, written by one more statement; when it fails the
    buffer stays and no statement of these channels has been executed. *)
Definition flushes (k : channel) (m : B unit) : Prop :=
  forall b l x w b' l' x' w' r, m (b, ((l, x), w)) = Done ((b', ((l', x'), w')), r) ->
    batchWriteSize b' = batchWriteSize b /\
    match r with
    | inl _ => (forall c, buffered c b' = if decide (c = k) then [] else buffered c b) /\
        if direct k then exists en, l' = l ++ [en] /\ entry_channel en = Some k /\ writes en (buffered k b)
        else exists ext, l' = l ++ ext /\ Forall (fun en => entry_channel en = None) ext
    | inr _ => b' = b /\ exists ext, l' = l ++ ext /\ Forall (fun en => entry_channel en = None) ext
    end.

Lemma flush_flushes {A} (k : channel) (buffer : batch -> list A) (f : A -> item) (write : list A -> V unit) (clear : batch -> batch) :
  (forall b, buffered k b = f <$> buffer b) ->
  (if direct k then forall l, one_statement k (f <$> l) (write l) else forall l, upserts_only (write l)) ->
  (forall b, batchWriteSize (clear b) = batchWriteSize b) ->
  (forall b c, buffered c (clear b) = if decide (c = k) then [] else buffered c b) ->
  flushes k (flush_buffer buffer write clear).
Proof using Type.
  intros Hb Hw Hsize Hclear b l x w b' l' x' w' r. unfold flush_buffer.
  destruct (write (buffer b) ((l, x), w)) as [[[[l1 x1] w1] [u|e]]| |] eqn:E; [| |done..]; intros [= <- <- <- <- <-].
  - split_and!; [done|done|]. rewrite Hb. destruct (direct k); [exact (Hw _ _ _ _ _ _ _ _ E)|exact (Hw _ _ _ _ _ _ _ _ E)].
  - split; [done|]. split; [done|]. destruct (direct k); [|exact (Hw _ _ _ _ _ _ _ _ E)].
    pose proof (Hw _ _ _ _ _ _ _ _ E) as Hl. cbn in Hl. subst. exists []. by rewrite app_nil_r.
Qed.

Lemma flushes_all :
  flushes ChNodeUpsert (tryFlushNodeUpdateByBuffer flushNodeUpserts) /\
  flushes ChNodeUpdate (tryFlushNodeUpdateBuffer Exec PropertiesToJSONB DeletedPropertiesToString targetSchema) /\
  flushes ChRelUpsert (tryFlushRelationshipUpdateByBuffer flushRelationshipUpserts) /\
  flushes ChRelCreate (flushRelationshipCreateBuffer flushRelationshipCreates) /\
  flushes ChNodeCreate (flushNodeCreateBuffer Exec PropertiesToJSONB targetSchema) /\
  flushes ChNodeDelete (flushNodeDeleteBuffer Exec) /\
  flushes ChRelDelete (flushRelationshipDeleteBuffer Exec).
Proof using Hnodes Hrelationships Hcreates.
  split_and!.
  - by apply (flush_flushes _ _ (@UpdateNodeBy NU RU)); [..|intros b []].
  - apply (flush_flushes _ _ (@UpdateNode NU RU)); [done|exact update_one|done|by intros b []].
  - by apply (flush_flushes _ _ (@UpdateRelationshipBy NU RU)); [..|intros b []].
  - by apply (flush_flushes _ _ (@CreateRelationship NU RU)); [..|intros b []].
  - apply (flush_flushes _ _ (@CreateNode NU RU)); [done|exact create_one|done|by intros b []].
  - apply (flush_flushes _ _ (@DeleteNode NU RU)); [done|intros l; by apply (delete_one ChNodeDelete (@DeleteNode NU RU))|done|by intros b []].
  - apply (flush_flushes _ _ (@DeleteRelationship NU RU)); [done|intros l; by apply (delete_one ChRelDelete (@DeleteRelationship NU RU))|done|by intros b []].
Qed.

Lemma logged_app c l1 l2 : logged c (l1 ++ l2) = logged c l1 ++ logged c l2.
Proof using Type. apply filter_app. Qed.

Lemma logged_none c ext : Forall (fun en => entry_channel en = None) ext -> logged c ext = [].
Proof using Type.
  unfold logged. induction 1 as [|en ext He _ IH]; [done|]. rewrite filter_cons, decide_False by (by rewrite He). done.
Qed.

Lemma flushes_conserved k m b l x w b' l' x' w' r c items :
  flushes k m -> m (b, ((l, x), w)) = Done ((b', ((l', x'), w')), r) -> direct c = true ->
  conserved c l b items -> conserved c l' b' items.
Proof using Type.
  intros Hm Hrun Hc (groups & Hg & Hitems). destruct (Hm _ _ _ _ _ _ _ _ _ Hrun) as (_ & Hr).
  assert (Hnone : forall ext, Forall (fun en => entry_channel en = None) ext -> logged c (l ++ ext) = logged c l).
  { intros ext He. by rewrite logged_app, (logged_none c ext He), app_nil_r. }
  destruct r as [u|e].
  - destruct Hr as [Hb Hl]. destruct (direct k) eqn:Hk.
    + destruct Hl as (en & -> & Hen & Hw). unfold conserved. rewrite logged_app, Hb. unfold logged at 2. rewrite filter_cons, filter_nil, Hen.
      destruct (decide (c = k)) as [->|Hne].
      * rewrite decide_True by done. exists (groups ++ [buffered k b]). rewrite concat_app. cbn [concat].
        rewrite !app_nil_r. split; [|done]. by apply Forall2_app; [|repeat constructor].
      * rewrite decide_False by congruence. rewrite app_nil_r. by exists groups.
    + destruct Hl as (ext & -> & He). exists groups. rewrite (Hnone ext He), Hb, decide_False by congruence. done.
  - destruct Hr as (-> & ext & -> & He). exists groups. by rewrite (Hnone ext He).
Qed.

(** Flushes above a limit: nothing is lost or repeated, and without an error the
    channels [ks] are at the limit, or below, and none has grown over it. *)
Definition within (limit : Z) (c : channel) (b : batch) : Prop := (Z.of_nat (length (buffered c b)) <= limit)%Z.

Definition settles (limit : Z) (ks : list channel) (m : B unit) : Prop :=
  forall b l x w b' l' x' w' r, m (b, ((l, x), w)) = Done ((b', ((l', x'), w')), r) ->
    batchWriteSize b' = batchWriteSize b /\
    (forall c items, direct c = true -> conserved c l b items -> conserved c l' b' items) /\
    (r = inl tt -> (0 <= limit)%Z -> forall c, c ∈ ks \/ within limit c b -> within limit c b').

Lemma over_settles {A} limit k (buffer : batch -> list A) m :
  flushes k m -> (forall b, length (buffered k b) = length (buffer b)) -> settles limit [k] (over buffer limit m).
Proof using Type.
  intros Hm Hlen b l x w b' l' x' w' r. unfold over. cbn [fst]. case_decide as Hover.
  - intros Hrun. destruct (Hm _ _ _ _ _ _ _ _ _ Hrun) as (Hs & Hr). split_and!; [done|intros; by eapply flushes_conserved|].
    intros -> Hl c Hin. destruct Hr as [Hr _].
    unfold within. rewrite Hr. case_decide; [cbn; lia|]. destruct Hin as [Hin|Hin]; [by apply list_elem_of_singleton in Hin|exact Hin].
  - intros [= <- <- <- <- <-]. split_and!; [done|done|]. intros _ _ c [->%list_elem_of_singleton|Hin]; [|done].
    unfold within. rewrite Hlen. lia.
Qed.

Lemma bind_settles limit ks1 ks2 (m1 m2 : B unit) :
  settles limit ks1 m1 -> settles limit ks2 m2 -> settles limit (ks1 ++ ks2) (_ ← m1; m2).
Proof using Type.
  intros H1 H2 b l x w b' l' x' w' r. unfold mbind, M_bind.
  destruct (m1 (b, ((l, x), w))) as [[[b1 [[l1 x1] w1]] [[]|e]]| |] eqn:E; [| |done..].
  - intros Hrun. destruct (H1 _ _ _ _ _ _ _ _ _ E) as (Hs1 & Hc1 & Hr1). destruct (H2 _ _ _ _ _ _ _ _ _ Hrun) as (Hs2 & Hc2 & Hr2).
    split_and!; [congruence|intros c items Hd Hc; by apply Hc2, Hc1|]. intros Hr Hl c Hin. apply (Hr2 Hr Hl).
    rewrite elem_of_app in Hin. destruct Hin as [[Hin|Hin]|Hin]; [right; apply Hr1; auto|by left|right; apply Hr1; auto].
  - intros [= <- <- <- <- <-]. by destruct (H1 _ _ _ _ _ _ _ _ _ E) as (Hs1 & Hc1 & _).
Qed.

Definition flush_order : list channel :=
  [ChNodeUpsert; ChNodeUpdate; ChRelUpsert; ChRelCreate; ChNodeCreate; ChNodeDelete; ChRelDelete].

Lemma flush_order_all c : c ∈ flush_order.
Proof using Type. apply (bool_decide_unpack _). by destruct c. Qed.

Lemma tryFlush_settles limit : settles limit flush_order (tryFlush limit).
Proof using Hnodes Hrelationships Hcreates.
  destruct flushes_all as (H1 & H2 & H3 & H4 & H5 & H6 & H7).
  change flush_order with ([ChNodeUpsert] ++ [ChNodeUpdate] ++ [ChRelUpsert] ++ [ChRelCreate] ++ [ChNodeCreate] ++ [ChNodeDelete] ++ [ChRelDelete]).
  repeat apply bind_settles; apply over_settles; try done; intros b; apply length_fmap.
Qed.

(** A run: operations of the batch and commits, each with any result, while the
    heap, the manager and the database change in any way between them; the connection
    is the batch's own. *)
Inductive runs (BatchWriteSize : Z) : list item -> state -> Prop :=
| run_new x w : runs BatchWriteSize [] (newBatch BatchWriteSize, (([], x), w))
| run_submit items i st st' r :
    runs BatchWriteSize items st -> submit i st = Done (st', r) -> runs BatchWriteSize (items ++ [i]) st'
| run_commit items st st' r :
    runs BatchWriteSize items st -> batch_Commit st = Done (st', r) -> runs BatchWriteSize items st'
| run_other items b l x w x' w' :
    runs BatchWriteSize items (b, ((l, x), w)) -> runs BatchWriteSize items (b, ((l, x'), w')).

Lemma of_channel_app c l1 l2 : of_channel c (l1 ++ l2) = of_channel c l1 ++ of_channel c l2.
Proof using Type. apply filter_app. Qed.

Lemma runs_conserved n items st :
  runs n items st -> batchWriteSize st.1 = n /\
  forall c, direct c = true -> conserved c st.2.1.1 st.1 (of_channel c items).
Proof using Hnodes Hrelationships Hcreates.
  induction 1 as [x w|items i [b [[l x] w]] [b' [[l' x'] w']] r _ [Hs IH] Hrun|
    items [b [[l x] w]] [b' [[l' x'] w']] r _ [Hs IH] Hrun|items b l x w x' w' _ IH]; cbn [fst snd] in *.
  - split; [done|]. intros c _. exists []. split; [constructor|]. by destruct c.
  - destruct (tryFlush_settles (batchWriteSize b) _ _ _ _ _ _ _ _ _ Hrun) as (Hs' & Hc & _). split.
    + rewrite Hs', <- Hs. by destruct i.
    + intros c Hd. rewrite of_channel_app. apply Hc; [done|]. by apply append_conserved, IH.
  - destruct (tryFlush_settles 0 _ _ _ _ _ _ _ _ _ Hrun) as (Hs' & Hc & _). split; [congruence|]. intros c Hd. by apply Hc, IH.
  - done.
Qed.

(** What holds of every run. *)
Lemma runs_written n items b l x w :
  runs n items (b, ((l, x), w)) ->
  (forall c, direct c = true -> conserved c l b (of_channel c items)) /\
  (forall i b' w', (0 <= n)%Z -> submit i (b, ((l, x), w)) = Done ((b', w'), inl tt) -> forall c, within n c b') /\
  (forall b' l' x' w', batch_Commit (b, ((l, x), w)) = Done ((b', ((l', x'), w')), inl tt) ->
     (forall c, buffered c b' = []) /\
     forall c, direct c = true -> exists groups, Forall2 writes (logged c l') groups /\ concat groups = of_channel c items).
Proof using Hnodes Hrelationships Hcreates.
  intros Hrun. destruct (runs_conserved _ _ _ Hrun) as [Hs Hc]. cbn [fst snd] in *. split_and!; [exact Hc| |].
  - intros i b' [[l' x'] w'] Hn Hsub c. unfold submit in Hsub. rewrite Hs in Hsub.
    destruct (tryFlush_settles n _ _ _ _ _ _ _ _ _ Hsub) as (_ & _ & Hr). apply Hr; [done|done|]. left. apply flush_order_all.
  - intros b' l' x' w' Hcom. destruct (tryFlush_settles 0 _ _ _ _ _ _ _ _ _ Hcom) as (_ & Hc' & Hr).
    assert (Hnil : forall c, buffered c b' = []).
    { intros c. assert (within 0 c b') as H0 by (apply Hr; [done|done|]; left; apply flush_order_all).
      unfold within in H0. apply length_zero_iff_nil. lia. }
    split; [done|]. intros c Hd. destruct (Hc' c _ Hd (Hc c Hd)) as (groups & Hg & Hi). exists groups. split; [done|].
    by rewrite Hnil, app_nil_r in Hi.
Qed.
End conservation.

(** ** Identifiers in the order of the nodes *)

Definition ordinal_ok (n : nat) (row : Z * Z) : Prop := (0 <= row.2 /\ 1 <= row.1 <= Z.of_nat n)%Z.

(** The position of an ordinal. *)
Definition position (o : Z) : nat := Z.to_nat (o - 1).

Lemma collect_step n o id answer ids seen :
  length ids = n -> length seen = n -> ordinal_ok n (o, id) -> seen !! position o = Some false ->
  collect_ids n (inl (o, id) :: answer) ids seen =
    collect_ids n answer (<[position o := wrap tID id]> ids) (<[position o := true]> seen).
Proof.
  intros Hi Hs [H1 H2] Hseen. cbn [collect_ids]. cbn in H1, H2. rewrite decide_False by lia.
  assert (slice_get seen (o - 1) = Done false) as -> by (apply slice_get_Done; split; [lia|done]).
  cbn [mbind outcome_bind]. unfold slice_set. rewrite !decide_True by lia. done.
Qed.

(** Ordinals of the range are told apart by their positions. *)
Lemma position_inj n o o' : (1 <= o <= Z.of_nat n)%Z -> (1 <= o' <= Z.of_nat n)%Z -> position o = position o' -> o = o'.
Proof. unfold position. lia. Qed.

Definition fresh_rows (n : nat) (seen : list bool) (l : list (Z * Z)) : Prop :=
  Forall (ordinal_ok n) l /\ NoDup l.*1 /\ forall o, o ∈ l.*1 -> seen !! position o = Some false.

Lemma fresh_rows_cons n seen o id l :
  length seen = n ->
  fresh_rows n seen ((o, id) :: l) <->
  ordinal_ok n (o, id) /\ seen !! position o = Some false /\ fresh_rows n (<[position o := true]> seen) l.
Proof.
  intros Hs. unfold fresh_rows. rewrite Forall_cons, fmap_cons, NoDup_cons. cbn [fst]. split.
  - intros ([Hok Hall] & [Hnew Hnd] & Hseen). split_and!; [done|apply Hseen; by left|done|done|].
    intros o' Ho'. rewrite list_lookup_insert_ne; [apply Hseen; by right|]. intros Heq. apply Hnew.
    apply list_elem_of_fmap in Ho' as (row & -> & Hin). rewrite Forall_forall in Hall. destruct Hok as [_ Ho].
    destruct (Hall row Hin) as [_ Hr]. assert (o = row.1) as -> by (by eapply position_inj). by apply list_elem_of_fmap_2.
  - intros (Hok & Hf & Hall & Hnd & Hseen).
    assert (Hpos : position o < length seen) by (by apply lookup_lt_is_Some; eexists).
    assert (Hne : forall o', o' ∈ l.*1 -> position o' <> position o).
    { intros o' Ho' Heq. apply Hseen in Ho'. rewrite Heq, list_lookup_insert_eq in Ho' by done. done. }
    split_and!; [done|done|by intros Ho; apply (Hne o Ho)|done|].
    intros o' [->|Ho']%elem_of_cons; [done|]. specialize (Hseen o' Ho').
    rewrite list_lookup_insert_ne in Hseen; [done|]. intros Heq. by apply (Hne o' Ho').
Qed.

Lemma slice_get_seen n (seen : list bool) o :
  length seen = n -> (1 <= o <= Z.of_nat n)%Z -> exists b, seen !! position o = Some b /\ slice_get seen (o - 1) = Done b.
Proof.
  intros Hs Ho. destruct (lookup_lt_is_Some_2 seen (position o)) as [b Hb]; [unfold position; lia|].
  exists b. split; [done|]. apply slice_get_Done. split; [lia|done].
Qed.

Definition store_ids (ids : list Z) (l : list (Z * Z)) : list Z :=
  foldl (fun ids row => <[position row.1 := wrap tID row.2]> ids) ids l.
Definition store_seen (seen : list bool) (l : list (Z * Z)) : list bool :=
  foldl (fun seen row => <[position row.1 := true]> seen) seen l.

(** The loop answers always, and without an error exactly when the rows are scanned
    and have new ordinals of the range. *)
Lemma collect_spec n answer : forall ids seen, length ids = n -> length seen = n ->
  (exists r, collect_ids n answer ids seen = Done r) /\
  forall ids' seen', collect_ids n answer ids seen = Done (inl (ids', seen')) <->
    exists l, answer = inl <$> l /\ fresh_rows n seen l /\ ids' = store_ids ids l /\ seen' = store_seen seen l.
Proof.
  induction answer as [|[[o id]|e] answer IH]; intros ids seen Hi Hs.
  - split; [by eexists|]. intros ids' seen'. split.
    + intros [= <- <-]. exists []. split_and!; [done| |done|done]. split_and!; [done|constructor|by intros ? ?%elem_of_nil].
    + intros (l & Hl & _ & -> & ->). by destruct l.
  - assert (Hdec : ordinal_ok n (o, id) /\ seen !! position o = Some false \/
      (exists e, collect_ids n (inl (o, id) :: answer) ids seen = Done (inr e)) /\
      ~ (ordinal_ok n (o, id) /\ seen !! position o = Some false)).
    { cbn [collect_ids]. unfold ordinal_ok. cbn [fst snd]. case_decide as Hr; [right; split; [by eexists|lia]|].
      destruct (slice_get_seen n seen o Hs) as (b & Hb & ->); [lia|]. cbn [mbind outcome_bind].
      destruct b; [right; split; [by eexists|by intros [_ ?]; congruence]|left; split; [lia|done]]. }
    destruct Hdec as [[Hok Hf]|[[e He] Hno]].
    + rewrite collect_step by done.
      destruct (IH (<[position o := wrap tID id]> ids) (<[position o := true]> seen)) as [Hdone Hiff]; [by rewrite length_insert..|].
      split; [done|]. intros ids' seen'. rewrite Hiff. split.
      * intros (l & -> & Hl & -> & ->). exists ((o, id) :: l). split_and!; [done| |done|done]. by apply fresh_rows_cons.
      * intros (l & Hl & Hfr & -> & ->). destruct l as [|row l]; [done|]. injection Hl as <- ->. exists l.
        apply fresh_rows_cons in Hfr as (_ & _ & Hfr); [|done]. done.
    + rewrite He. split; [by eexists|]. intros ids' seen'. split; [done|].
      intros (l & Hl & Hfr & _ & _). destruct l as [|row l]; [done|]. injection Hl as <- ->.
      apply fresh_rows_cons in Hfr as (H1 & H2 & _); [|done]. by destruct Hno.
  - split; [by eexists|]. intros ids' seen'. split; [done|]. intros (l & Hl & _). by destruct l.
Qed.

Lemma store_ids_length ids l : length (store_ids ids l) = length ids.
Proof. revert ids. induction l as [|row l IH]; intros ids; [done|]. cbn. rewrite IH. apply length_insert. Qed.

Lemma store_seen_length seen l : length (store_seen seen l) = length seen.
Proof. revert seen. induction l as [|row l IH]; intros seen; [done|]. cbn. rewrite IH. apply length_insert. Qed.

Lemma store_ids_other i l : forall ids,
  (forall row, row ∈ l -> position row.1 <> i) -> store_ids ids l !! i = ids !! i.
Proof.
  induction l as [|row l IH]; intros ids Hi; [done|]. cbn. rewrite IH by (intros; apply Hi; by right).
  apply list_lookup_insert_ne. apply Hi. by left.
Qed.

Lemma store_ids_in n o id l : forall ids,
  length ids = n -> Forall (ordinal_ok n) l -> NoDup l.*1 -> (o, id) ∈ l -> store_ids ids l !! position o = Some (wrap tID id).
Proof.
  induction l as [|row l IH]; intros ids Hlen Hok Hnd Hin; [by apply elem_of_nil in Hin|].
  apply Forall_cons in Hok as [Hrow Hok]. apply NoDup_cons in Hnd as [Hnew Hnd]. cbn.
  apply elem_of_cons in Hin as [<-|Hin]; [|apply IH; [by rewrite length_insert|done..]].
  destruct Hrow as [_ Ho]. cbn in *. rewrite store_ids_other.
  - apply list_lookup_insert_eq. unfold position. lia.
  - intros row' Hin' Heq. apply Hnew. rewrite Forall_forall in Hok. destruct (Hok row' Hin') as [_ Ho'].
    rewrite <- (position_inj n row'.1 o Ho' Ho Heq). by apply list_elem_of_fmap_2.
Qed.

Lemma store_seen_true i l : forall seen,
  i < length seen -> store_seen seen l !! i = Some true <-> seen !! i = Some true \/ exists o, o ∈ l.*1 /\ position o = i.
Proof.
  induction l as [|row l IH]; intros seen Hi; cbn [store_seen foldl].
  - split; [by left|]. intros [|(o & Ho%elem_of_nil & _)]; done.
  - change (foldl _ ?x l) with (store_seen x l). rewrite IH by (by rewrite length_insert). rewrite fmap_cons.
    destruct (decide (position row.1 = i)) as [<-|Hne].
    + rewrite list_lookup_insert_eq by done. split; [|by left]. intros _. right. exists row.1. split; [by left|done].
    + rewrite list_lookup_insert_ne by done. setoid_rewrite elem_of_cons. naive_solver.
Qed.

(** All ordinals are seen exactly when they are those of the range. *)
Lemma seen_all n l :
  Forall (ordinal_ok n) l -> NoDup l.*1 ->
  forallb (fun found => found) (store_seen (replicate n false) l) = true <-> l.*1 ≡ₚ seqZ 1 (Z.of_nat n).
Proof.
  intros Hok Hnd. rewrite forallb_forall.
  assert (Hcover : (forall x, In x (store_seen (replicate n false) l) -> x = true) <->
    (forall i, i < n -> exists o, o ∈ l.*1 /\ position o = i)).
  { assert (Hlen : length (store_seen (replicate n false) l) = n) by (by rewrite store_seen_length, length_replicate).
    split.
    - intros Hall i Hi. destruct (lookup_lt_is_Some_2 (store_seen (replicate n false) l) i) as [x Hx]; [lia|].
      assert (x = true) as -> by (apply Hall, list_elem_of_In; by eapply list_elem_of_lookup_2).
      apply store_seen_true in Hx; [|by rewrite length_replicate]. destruct Hx as [Hx|Hx]; [|done].
      by apply lookup_replicate in Hx as [? _].
    - intros Hall x [i Hx]%list_elem_of_In%list_elem_of_lookup_1. pose proof (lookup_lt_Some _ _ _ Hx) as Hi.
      rewrite Hlen in Hi. assert (store_seen (replicate n false) l !! i = Some true).
      { apply store_seen_true; [by rewrite length_replicate|]. right. by apply Hall. }
      congruence. }
  rewrite Hcover. split.
  - intros Hall. apply NoDup_Permutation; [done|apply NoDup_seqZ|]. intros o. rewrite elem_of_seqZ. split.
    + intros (row & -> & Hin)%list_elem_of_fmap. rewrite Forall_forall in Hok. destruct (Hok row Hin). lia.
    + intros Ho. destruct (Hall (position o)) as (o' & Ho' & Heq); [unfold position; lia|].
      pose proof Ho' as (row & -> & Hin)%list_elem_of_fmap. rewrite Forall_forall in Hok. destruct (Hok row Hin) as [_ Hr].
      by rewrite <- (position_inj n row.1 o) by (done || lia).
  - intros Hperm i Hi. exists (Z.of_nat i + 1)%Z. split; [rewrite Hperm, elem_of_seqZ; lia|unfold position; lia].
Qed.

(** [CreateNodes] reads the answer of the insert to the end and returns, with
    identifiers exactly when every row could be scanned, no error followed, no
    identifier is negative and the ordinals are those of the nodes, each once. *)
Lemma created_ids_spec n answer rowsErr :
  (exists r, created_ids n answer rowsErr = Done r) /\
  forall ids, created_ids n answer rowsErr = Done (inl ids) <->
    rowsErr = None /\ exists l, answer = inl <$> l /\ l.*1 ≡ₚ seqZ 1 (Z.of_nat n) /\ Forall (fun row => (0 <= row.2)%Z) l /\
      length ids = n /\ forall o id, (o, id) ∈ l -> ids !! Z.to_nat (o - 1) = Some (wrap tID id).
Proof.
  destruct (collect_spec n answer (replicate n 0%Z) (replicate n false)) as [[r Hr] Hspec]; [by rewrite length_replicate..|].
  unfold created_ids. rewrite Hr. cbn [mbind outcome_bind]. split.
  { destruct r as [[ids seen]|e]; [|by eexists]. destruct rowsErr; [by eexists|]. case_match; by eexists. }
  intros ids. split.
  - destruct r as [[ids' seen]|e]; [|done]. destruct rowsErr as [e|]; [done|]. destruct (forallb _ seen) eqn:Eall; [|done].
    intros [= <-]. apply Hspec in Hr as (l & -> & (Hok & Hnd & _) & -> & ->). split; [done|]. exists l.
    apply seen_all in Eall; [|done..]. split_and!; [done|done| |by rewrite store_ids_length, length_replicate|].
    + eapply Forall_impl; [exact Hok|]. by intros row [? _].
    + intros o id Hin. apply (store_ids_in n); [apply length_replicate|done..].
  - intros (-> & l & -> & Hperm & Hpos & Hlen & Hids).
    assert (Hok : Forall (ordinal_ok n) l).
    { apply Forall_forall. intros row Hin. rewrite Forall_forall in Hpos. split; [by apply Hpos|].
      assert (row.1 ∈ l.*1) as Ho by (by apply list_elem_of_fmap_2). rewrite Hperm, elem_of_seqZ in Ho. lia. }
    assert (Hnd : NoDup l.*1) by (rewrite Hperm; apply NoDup_seqZ).
    assert (Hfr : fresh_rows n (replicate n false) l).
    { split_and!; [done|done|]. intros o Ho. rewrite Hperm, elem_of_seqZ in Ho. apply lookup_replicate_2. unfold position. lia. }
    assert (Hc : collect_ids n (inl <$> l) (replicate n 0%Z) (replicate n false) =
      Done (inl (store_ids (replicate n 0%Z) l, store_seen (replicate n false) l))) by (apply Hspec; by exists l).
    rewrite Hc in Hr. injection Hr as <-. rewrite (proj2 (seen_all n l Hok Hnd) Hperm). do 2 f_equal.
    apply list_eq. intros i. destruct (decide (i < n)) as [Hi|Hi].
    + assert (Z.of_nat i + 1 ∈ l.*1)%Z as ([o id] & Ho & Hin)%list_elem_of_fmap by (rewrite Hperm, elem_of_seqZ; lia).
      cbn in Ho. pose proof (Hids o id Hin) as H1. pose proof (store_ids_in n o id l (replicate n 0%Z) (length_replicate _ _) Hok Hnd Hin) as H2.
      unfold position in H2. replace i with (Z.to_nat (o - 1)) by lia. congruence.
    + rewrite !lookup_ge_None_2; [done|lia|rewrite store_ids_length, length_replicate; lia].
Qed.

(** ** Code that always returns *)

Definition calm {S A : Type} (m : M S A) : Prop := forall s, exists r, m s = Done r.

Section calm.
Context {T DB J : Type} `{HD : Database DB} `{HR : MapRange}.

Lemma calm_ret {S A} (a : A) : calm (S := S) (mret a).
Proof using Type. intros s. by eexists. Qed.
Lemma calm_fails {S A} e : calm (S := S) (A := A) (fails e).
Proof using Type. intros s. by eexists. Qed.
Lemma calm_bind {S A B} (m : M S A) (f : A -> M S B) : calm m -> (forall a, calm (f a)) -> calm (m ≫= f).
Proof using Type.
  intros Hm Hf s. unfold mbind, M_bind. destruct (Hm s) as [[s' [a|e]] ->]; [apply Hf|by eexists].
Qed.
Lemma calm_send {R} (st : statement R) : calm (S := DB) (send st).
Proof using Type. intros db. unfold send. destruct (Raw st db). by eexists. Qed.
Lemma calm_lift {A} (m : M DB A) : calm m -> calm (lift (T := T) m).
Proof using Type. intros Hm [s db]. unfold lift. destruct (Hm db) as [[db' r] ->]. by eexists. Qed.
Lemma calm_get : calm (S := SchemaManager T * DB) get.
Proof using Type. intros [s db]. by eexists. Qed.
Lemma calm_put s : calm (S := SchemaManager T * DB) (put s).
Proof using Type. intros [s' db]. by eexists. Qed.
Lemma calm_write {A} (m : M (SchemaManager T * DB) A) : calm m -> calm (WriteTransaction m).
Proof using Type.
  intros Hm [s db]. unfold WriteTransaction. destruct (Acquire db); [by eexists|]. destruct (BeginTx db); [by eexists|].
  destruct (Hm (s, db)) as [[[s' db'] [a|e]] ->]; [|by eexists]. destruct (Commit db db'). by eexists.
Qed.
Lemma calm_for_each {A} (f : A -> M DB unit) l : (forall x, calm (f x)) -> calm (for_each f l).
Proof using Type. intros Hf. induction l; [apply calm_ret|]. by apply calm_bind. Qed.

End calm.

Ltac calm :=
  repeat lazymatch goal with
  | |- forall _, calm _ => intro
  | |- calm (mret _) => apply calm_ret
  | |- calm (fails _) => apply calm_fails
  | |- calm (send _) => apply calm_send
  | |- calm get => apply calm_get
  | |- calm (put _) => apply calm_put
  | |- calm (_ ≫= _) => apply calm_bind
  | |- calm (lift _) => apply calm_lift
  | |- calm (for_each _ _) => apply calm_for_each
  | |- calm (match ?x with _ => _ end) => destruct x
  | |- calm (error_or ?e _) => destruct e; unfold error_or
  end.

Section creates.
Context {T DB J : Type} `{HD : Database DB} `{HR : MapRange}.
Context (Insert : Z -> list string -> list J -> DB -> DB * (list ((Z * Z) + error) * option error)).
Context (PropertiesToJSONB : option Properties -> J + error) (targetSchema : option GraphSchema).
Notation CreateNodes := (CreateNodes (T := T) Insert PropertiesToJSONB targetSchema).

Lemma calm_exec (st : statement unit) : calm (S := DB) (Query_exec st).
Proof using Type. unfold Query_exec. calm. Qed.

Lemma calm_describe name : calm (S := DB) (Query_describeGraphPartition name).
Proof using Type. unfold Query_describeGraphPartition, Query_SelectTableIndexDefinitions, select_rows. calm. Qed.

Lemma calm_select name : calm (S := DB) (Query_SelectGraphByName name).
Proof using Type.
  unfold Query_SelectGraphByName, Query_selectGraphPartialByName, Query_selectGraphPartitions, first_row. calm;
    apply calm_describe.
Qed.

Lemma calm_assert schema definition : calm (S := DB) (Query_AssertGraph schema definition).
Proof using Type.
  unfold Query_AssertGraph, graph_changes, Query_assertGraphPartitionIndexes, Query_DropIndex, Query_DropConstraint,
    Query_CreatePropertyIndex, Query_CreatePropertyConstraint. calm; first [apply calm_describe|apply calm_exec].
Qed.

Lemma calm_definition schema : calm (S := DB) (assert_definition schema).
Proof using Type.
  intros db. unfold assert_definition. destruct (calm_select (gs_Name schema) db) as [[db' [d|e]] ->]; [apply calm_assert|].
  case_decide; [|by eexists]. revert db'. change (calm (S := DB) (Query_CreateGraph schema)).
  unfold Query_CreateGraph, Query_insertGraph, Query_createGraphPartitions, Query_CreatePartitionTable, first_row.
  calm; first [apply calm_exec|apply calm_assert].
Qed.

Lemma calm_target : calm (S := SchemaManager T * DB) (getTargetGraph targetSchema).
Proof using Type.
  unfold getTargetGraph, AssertGraph, AssertGraph_locked, assertGraph. calm. apply calm_definition.
Qed.

(** Kinds that are not nil are asserted without a panic. *)
Lemma calm_define (kinds : list Kind) : Forall is_Some kinds -> calm (S := SchemaManager T * DB) (defineKinds kinds).
Proof using Type.
  induction 1 as [|k kinds [n ->] _ IH]; cbn [defineKinds]; calm; [|done].
  intros db. unfold Query_InsertOrGetKind. cbn [Kind_String]. unfold mbind at 1, outcome_bind.
  apply (calm_bind (S := DB)); [apply calm_send|]. unfold first_row. calm.
Qed.

Lemma calm_assert_kinds (kinds : list Kind) : Forall is_Some kinds -> calm (S := SchemaManager T * DB) (AssertKinds kinds).
Proof using Type.
  intros Hk [s db]. unfold AssertKinds, assertKinds, mbind, M_bind, get.
  pose proof (map_all_spec (fun kind => kindsByID s !! kind) kinds) as Hsp. fold (mapKinds s kinds) in Hsp.
  destruct (mapKinds s kinds) as [found missing] eqn:Em. case_decide; [by eexists|]. rewrite Em, decide_False by done.
  injection Hsp as _ Hmiss. assert (Hm : Forall is_Some missing).
  { rewrite Hmiss, Forall_forall. intros k [_ Hin]%list_elem_of_filter. rewrite Forall_forall in Hk. by apply Hk. }
  destruct (calm_write _ (calm_define missing Hm) (s, db)) as [[[s1 db1] [u|e]] ->]; by eexists.
Qed.

(** The kinds of the nodes that are not nil are not nil. *)
Definition no_nil_kinds (nodes : list (option batch_node)) : Prop :=
  Forall (fun node => match node with Some n => Forall is_Some (bn_Kinds n) | None => True end) nodes.

Lemma calm_node_columns nodes : no_nil_kinds nodes -> calm (S := SchemaManager T * DB) (node_columns PropertiesToJSONB nodes).
Proof using Type.
  induction 1 as [|[n|] nodes Hn _ IH]; cbn [node_columns]; unfold jsonb; calm; [by apply calm_assert_kinds|done].
Qed.

Lemma calm_insert graphID texts js n : calm (insert_nodes Insert graphID texts js n).
Proof using Type.
  intros db. unfold insert_nodes. destruct (BeginTx db); [by eexists|].
  destruct (Insert graphID texts js db) as [now [answer rowsErr]].
  destruct (created_ids_spec n answer rowsErr) as [[r ->] _]. cbn [mbind outcome_bind]. destruct r; [|by eexists].
  destruct (Commit db now). by eexists.
Qed.

Lemma node_columns_inv nodes : forall (s s' : SchemaManager T) (db db' : DB) texts js,
  node_columns PropertiesToJSONB nodes (s, db) = Done ((s', db'), inl (texts, js)) ->
  kindsByID s ⊆ kindsByID s' /\ exists ns, nodes = Some <$> ns /\ Forall3 (create_row PropertiesToJSONB s') ns texts js.
Proof using Type.
  induction nodes as [|[node|] nodes IH]; intros s s' db db' texts js Hrun; [| |done].
  - injection Hrun as <- <- <- <-. split; [done|]. exists []. split; [done|constructor].
  - apply M_bind_inv in Hrun as ([s1 db1] & ids & Ha & (st2 & j & [Hj ->]%jsonb_inv & Hrun)%M_bind_inv).
    apply M_bind_inv in Hrun as ([s3 db3] & [texts' js'] & Hrest & [= <- <- <- <-]).
    destruct (AssertKinds_text _ _ _ _ _ _ Ha) as (Hk1 & Ht1). destruct (IH _ _ _ _ _ _ Hrest) as (Hk3 & ns & -> & Ht3).
    split; [by etrans|]. exists (node :: ns). split; [done|]. constructor; [|done]. split; [by eapply kinds_text_mono|done].
Qed.

(** An answer that gives every one of [n] nodes its identifier, in any order. *)
Definition answers (n : nat) (answer : list ((Z * Z) + error)) (rowsErr : option error) (ids : list Z) : Prop :=
  rowsErr = None /\ exists l, answer = inl <$> l /\ l.*1 ≡ₚ seqZ 1 (Z.of_nat n) /\ Forall (fun row => (0 <= row.2)%Z) l /\
    length ids = n /\ forall o id, (o, id) ∈ l -> ids !! Z.to_nat (o - 1) = Some (wrap tID id).

(** [C25] Nodes that are created at once.  [CreateNodes] panics only on a nil kind.
    When it returns identifiers without an error for a list that is not empty, no node
    was nil, and one insert was executed in a transaction that was begun for it and
    committed: with one row for each node in order, whose kinds are the array of the
    identifiers the schema manager maps the node's kinds to and whose properties are
    the encoded ones; its answer was read to the end without an error, had no negative
    identifier and the ordinals of the nodes, each once, in any order; and the
    identifier of the row with a node's ordinal stands at the node's place.  With any
    other answer the transaction is rolled back and an error is returned. *)
Theorem CreateNodes_exact nodes (s : SchemaManager T) (db : DB) :
  (no_nil_kinds nodes -> exists r, CreateNodes nodes (s, db) = Done r) /\
  (forall s' db' ids, nodes <> [] -> CreateNodes nodes (s, db) = Done ((s', db'), inl ids) ->
     exists ns g st1 db1 texts js now answer rowsErr, nodes = Some <$> ns /\
       node_columns PropertiesToJSONB nodes (s, db) = Done (st1, inl (texts, js)) /\
       getTargetGraph targetSchema st1 = Done ((s', db1), inl g) /\ BeginTx db1 = None /\
       Insert (gm_ID g) texts js db1 = (now, (answer, rowsErr)) /\ Commit db1 now = (db', None) /\
       Forall3 (create_row PropertiesToJSONB s') ns texts js /\ answers (length nodes) answer rowsErr ids) /\
  (forall st1 texts js s2 db2 g now answer rowsErr, nodes <> [] ->
     node_columns PropertiesToJSONB nodes (s, db) = Done (st1, inl (texts, js)) ->
     getTargetGraph targetSchema st1 = Done ((s2, db2), inl g) -> BeginTx db2 = None ->
     Insert (gm_ID g) texts js db2 = (now, (answer, rowsErr)) -> (forall ids, ~ answers (length nodes) answer rowsErr ids) ->
     exists e, CreateNodes nodes (s, db) = Done ((s2, Rollback db2 now), inr e)).
Proof using Type.
  split_and!.
  - intros Hn. assert (Hc : calm (CreateNodes nodes)); [|apply Hc]. unfold CreateNodes. calm;
      [by apply calm_node_columns|apply calm_target|apply calm_insert].
  - intros s' db' ids Hne Hrun. unfold CreateNodes in Hrun.
    rewrite decide_False in Hrun by (intros Hl; by apply Hne, length_zero_iff_nil).
    apply M_bind_inv in Hrun as ([s1 db1] & [texts js] & Hcols & ([s2 db2] & g & Hg & (db3 & Hins & [= -> ->])%lift_inv)%M_bind_inv).
    destruct (node_columns_inv _ _ _ _ _ _ _ Hcols) as (_ & ns & Hns & Hrows). apply getTargetGraph_kinds in Hg as Hk.
    unfold insert_nodes in Hins. destruct (BeginTx db2) eqn:Eb; [done|].
    destruct (Insert (gm_ID g) texts js db2) as [now [answer rowsErr]] eqn:Ei.
    destruct (created_ids (length nodes) answer rowsErr) as [[ids'|e]| |] eqn:Ec; cbn [mbind outcome_bind] in Hins; [|done..].
    destruct (Commit db2 now) as [db4 [e|]] eqn:Ecm; [done|]. injection Hins as <- <-.
    exists ns, g, (s1, db1), db2, texts, js, now, answer, rowsErr. split_and!; try done.
    + eapply Forall3_impl; [exact Hrows|]. intros n t j [Ht Hj]. split; [|done]. eapply kinds_text_mono; [|exact Ht]. by rewrite Hk.
    + by apply created_ids_spec.
  - intros st1 texts js s2 db2 g now answer rowsErr Hne Hcols Hg Hb Hi Hbad. unfold CreateNodes.
    rewrite decide_False by (intros Hl; by apply Hne, length_zero_iff_nil).
    unfold mbind at 1, M_bind at 1. rewrite Hcols. unfold mbind, M_bind. rewrite Hg. unfold lift, insert_nodes. rewrite Hb, Hi.
    destruct (created_ids_spec (length nodes) answer rowsErr) as [[r Hr] Hiff]. rewrite Hr. cbn [mbind outcome_bind].
    destruct r as [ids|e]; [|by eexists]. exfalso. by apply (Hbad ids), Hiff.
Qed.
End creates.

(** ** Large updates *)

Section large.
Context {T DB J : Type} `{HD : Database DB} `{HR : MapRange}.
Context (PropertiesToJSONB : option Properties -> J + error) (DeletedPropertiesToString : option Properties -> string).
Context (json_text : J -> string).

(** The rows that columns stand for. *)
Definition rows_of_columns (p : NodeUpdateParameters (J := J)) : list staging_row :=
  zip (zip (zip (zip (wrap tint64 <$> up_NodeIDs p) (up_KindSlices p)) (up_DeletedKindSlices p)) (json_text <$> up_Properties p))
    (up_DeletedProperties p).

(** All columns have the same length. *)
Definition even_columns (p : NodeUpdateParameters (J := J)) (n : nat) : Prop :=
  length (up_NodeIDs p) = n /\ length (up_KindSlices p) = n /\ length (up_DeletedKindSlices p) = n /\
  length (up_Properties p) = n /\ length (up_DeletedProperties p) = n.

Definition same_rows (r : outcome ((SchemaManager T * DB) * (NodeUpdateParameters (J := J) + error))) :
    outcome ((SchemaManager T * DB) * (list staging_row + error)) :=
  match r with
  | Done (st, inl p) => Done (st, inl (rows_of_columns p))
  | Done (st, inr e) => Done (st, inr e)
  | Panic => Panic
  | Spent => Spent
  end.

Lemma Append_rows p n node (st : SchemaManager T * DB) :
  even_columns p n ->
  LargeNodeUpdateRows_Append PropertiesToJSONB DeletedPropertiesToString json_text (rows_of_columns p) node st =
    same_rows (NodeUpdateParameters_Append PropertiesToJSONB DeletedPropertiesToString p node st) /\
  forall st' p', NodeUpdateParameters_Append PropertiesToJSONB DeletedPropertiesToString p node st = Done (st', inl p') ->
    even_columns p' (S n).
Proof using Type.
  intros (H1 & H2 & H3 & H4 & H5). unfold LargeNodeUpdateRows_Append, NodeUpdateParameters_Append, mbind, M_bind.
  destruct (AssertKinds (bn_Kinds node) st) as [[st1 [ids|e]]| |]; try done.
  destruct (AssertKinds (bn_DeletedKinds node) st1) as [[st2 [dels|e]]| |]; try done.
  unfold jsonb. destruct (PropertiesToJSONB (bn_Properties node)) as [j|e]; [|done]. cbn. split.
  - unfold rows_of_columns. cbn. rewrite !fmap_app. do 3 f_equal.
    rewrite !zip_with_app by (rewrite ?length_zip_with, ?length_fmap; lia). done.
  - intros st' p' [= <- <-]. unfold even_columns. cbn. rewrite !length_app. cbn. lia.
Qed.

(** The two ways to update nodes encode them alike: the rows that a large update
    copies are the columns of a small one read across, the kinds are asserted in the
    same order with the same effect on the manager and the database, and the first
    node that cannot be encoded stops both. *)
Theorem large_update_rows (nodes : list batch_node) (st : SchemaManager T * DB) :
  LargeNodeUpdateRows_AppendAll PropertiesToJSONB DeletedPropertiesToString json_text [] nodes st =
  same_rows (NodeUpdateParameters_AppendAll PropertiesToJSONB DeletedPropertiesToString NewNodeUpdateParameters nodes st).
Proof using Type.
  assert (Hall : forall p n st, even_columns p n ->
    LargeNodeUpdateRows_AppendAll PropertiesToJSONB DeletedPropertiesToString json_text (rows_of_columns p) nodes st =
    same_rows (NodeUpdateParameters_AppendAll PropertiesToJSONB DeletedPropertiesToString p nodes st)).
  { clear st. induction nodes as [|node nodes IH]; intros p n st Hp; [done|]. cbn. unfold mbind, M_bind.
    destruct (Append_rows p n node st Hp) as [-> Hnext].
    destruct (NodeUpdateParameters_Append _ _ p node st) as [[st' [p'|e]]| |]; cbn; [|done..]. by eapply IH, Hnext. }
  by apply (Hall NewNodeUpdateParameters 0).
Qed.
End large.

(** ** Examples *)

Definition demo_exec (c : command string) (db : SmallDB) : SmallDB * option error := (db, None).
Definition demo_json (p : option Properties) : string + error := inl "{}".
Definition demo_deleted (p : option Properties) : string := "{}".

Definition demo_world : SchemaManager unit * SmallDB :=
  (mkManager (mkGraphModel 3 "base" no_partitions) true ∅ ∅ ∅ tt, empty_db).

Definition bn (kind : string) : batch_node := mkBatchNode 0 [Some kind] [] None.

(** Identifiers 100, 101 and so on, the last row first. *)
Definition demo_insert (_ : Z) (_ : list string) (js : list string) (db : SmallDB) :
    SmallDB * (list ((Z * Z) + error) * option error) :=
  (db, (reverse (imap (fun i _ => inl (Z.of_nat i + 1, 100 + Z.of_nat i)%Z) js), None)).

Lemma CreateNodes_exact_witness :
  match CreateNodes demo_insert demo_json None [Some (bn "User"); Some (bn "Group")] demo_world with
  | Done ((s', _), inl ids) =>
      ids = [100; 101]%Z /\ exists ns texts js, [Some (bn "User"); Some (bn "Group")] = Some <$> ns /\
        Forall3 (create_row demo_json s') ns texts js
  | _ => False
  end.
Proof.
  destruct (CreateNodes demo_insert demo_json None [Some (bn "User"); Some (bn "Group")] demo_world) as [[[s' db'] [ids|e]]| |] eqn:E;
    try (vm_compute in E; discriminate E).
  split; [vm_compute in E; congruence|]. rewrite (surjective_pairing demo_world) in E.
  destruct (CreateNodes_exact demo_insert demo_json None [Some (bn "User"); Some (bn "Group")] demo_world.1 demo_world.2) as (_ & Hok & _).
  destruct (Hok s' db' ids ltac:(discriminate) E) as (ns & g & st1 & db1 & texts & js & now & answer & rowsErr & Hns & _ & _ & _ & _ & _ & Hrows & _).
  exists ns, texts, js. split; [exact Hns|exact Hrows].
Defined.

Example created_in_any_order :
  created_ids 3 [inl (2, 20); inl (3, 30); inl (1, 10)]%Z None = Done (inl [10; 20; 30]%Z) /\
  created_ids 2 [inl (1, 10); inl (1, 11)]%Z None = Done (inr (ErrMessage "bulk create returned invalid node ordinal")).
Proof. split; vm_compute; reflexivity. Qed.

(** A node with a nil kind makes [CreateNodes] panic: [String] is called on it. *)
Example nil_kind_panics :
  CreateNodes demo_insert demo_json None [Some (mkBatchNode 0 [None] [] None)] demo_world = Panic.
Proof. vm_compute. reflexivity. Qed.
