(* ===== verification/Upserts.v ===== *)
(** * Upserts of nodes and relationships (drivers/pg/query/format.go, drivers/pg/batch.go)

    The updates of a buffer that name the same identity are merged before they are
    written: [NodeUpdateBatch] keeps one node for each identity key and merges later
    ones into it, [RelationshipUpdateBatch] does the same for relationships and for
    the nodes at their ends.  The identifiers of the nodes are known only when the
    statement for the nodes has answered, so an end of a relationship is a future
    that the flush of the nodes fills.

    Nodes and relationships are pointers of the caller, and merging writes to them:
    the heap [heap] holds their cells, the kind arrays of [Kinds] and the futures.  A
    pointer with no cell is nil.  A property bag belongs to one cell. *)

From S2P Require Import Prelude Kinds Mapper Properties Nodes Paths WriteBatch IndexDefinitions GraphSchema SmallDatabase SchemaManager ManagedGraphs Batches.
From stdpp Require Import relations.

(** ** The heap *)

Record heap := mkHeap {
  h_mem : Mem;
  h_nodes : gmap nat Node;
  h_rels : gmap nat Relationship;
  h_futures : list Z
}.

Definition set_node (h : heap) (m : Mem) (p : nat) (n : Node) : heap :=
  mkHeap m (<[p := n]> (h_nodes h)) (h_rels h) (h_futures h).

Notation H := (M heap).

Definition node_at (p : nat) : H Node := fun h =>
  match h_nodes h !! p with Some n => Done (h, inl n) | None => Panic end.
Definition rel_at (p : nat) : H Relationship := fun h =>
  match h_rels h !! p with Some r => Done (h, inl r) | None => Panic end.

(** [NewFuture]; a future is its place in the list. *)
Definition NewFuture (value : Z) : H nat := fun h =>
  Done (mkHeap (h_mem h) (h_nodes h) (h_rels h) (h_futures h ++ [value]), inl (length (h_futures h))).

Definition of_outcome {A} (o : outcome A) : H A := fun h =>
  match o with Done a => Done (h, inl a) | Panic => Panic | Spent => Spent end.

(** Property errors, by what tells them apart. *)
Definition property_error (e : perr) : error :=
  ErrMessage (match e with
              | ErrPropertyNotFound key => "property " +:+ key +:+ ": property not found"
              | ErrType expected => expected
              | ErrNumeric => "numeric"
              | ErrTime => "time"
              end).

Definition of_result {A} (r : result A) : H A :=
  match r with inl a => mret a | inr e => fails (property_error e) end.

(** ** Merging through pointers *)

Section merge.
Variable growslice : nat -> nat -> nat.

(** One statement that writes to the node at [p] and reads the one at [q], which may
    be the same. *)
Definition update_node (p q : nat) (f : Mem -> Node -> Node -> outcome (Mem * Node)) : H unit := fun h =>
  match h_nodes h !! p, h_nodes h !! q with
  | Some s, Some other =>
      '(m, s') ← f (h_mem h) s other;
      Done (set_node h m p s', inl tt)
  | _, _ => Panic
  end.

(** A bag merged into itself: the keys that are deleted are read after the modified
    ones have left. *)
Definition Properties_Merge_self (s : Properties) : Properties :=
  let d := deleted s ∖ modified s in
  mkProperties ((fun m => filter (fun kv => kv.1 ∉ d) m) <$> Map s) ((fun _ => d) <$> Deleted s) (Modified s).

Definition merge_properties (p q : nat) (s other : option Properties) : outcome (option Properties) :=
  if decide (p = q) then Done (Properties_Merge_self <$> s) else Properties_Merge s other.

(** [existingUpdate.Node.Merge(update.Node)], statement by statement. *)
Definition merge_nodes (p q : nat) : H unit :=
  _ ← update_node p q (fun m s other =>
        '(m', ks) ← Kinds_Add growslice m (node_Kinds s) (node_Kinds other); Done (m', with_Kinds s ks));
  _ ← update_node p q (fun m s other =>
        range_kinds (Merge_added_turn growslice) m s (node_AddedKinds other) (seq 0 (len (node_AddedKinds other))));
  _ ← update_node p q (fun m s other =>
        range_kinds (Merge_deleted_turn growslice) m s (node_DeletedKinds other) (seq 0 (len (node_DeletedKinds other))));
  _ ← update_node p q (fun m s other =>
        '(m', ks) ← Kinds_Add growslice m (node_AddedKinds s) (node_AddedKinds other); Done (m', with_Added s ks));
  _ ← update_node p q (fun m s other =>
        '(m', ks) ← Kinds_Add growslice m (node_DeletedKinds s) (node_DeletedKinds other); Done (m', with_Deleted s ks));
  update_node p q (fun m s other =>
    ps ← merge_properties p q (node_Properties s) (node_Properties other); Done (m, with_Properties s ps)).

(** [update.Node.AddKinds(update.Node.Kinds...)]. *)
Definition add_own_kinds (p : nat) : H unit :=
  update_node p p (fun m s _ => Node_AddKinds growslice m s (node_Kinds s)).

(** [Relationship.Merge]. *)
Definition merge_relationships (p q : nat) : H unit := fun h =>
  match h_rels h !! p, h_rels h !! q with
  | Some s, Some other =>
      ps ← merge_properties p q (rel_Properties s) (rel_Properties other);
      Done (mkHeap (h_mem h) (h_nodes h)
              (<[p := mkRelationship (rel_ID s) (rel_StartID s) (rel_EndID s) (rel_Kind s) ps]> (h_rels h))
              (h_futures h), inl tt)
  | _, _ => Panic
  end.

(** ** Identity keys *)

(** The loop of [Key]: a nil bag is read at the first name. *)
Definition property_key (properties : option Properties) (IdentityProperties : list string) : outcome (result string) :=
  match properties, IdentityProperties with
  | Some p, _ => Done (NodeUpdate_Key p IdentityProperties)
  | None, [] => Done (inl "")
  | None, _ :: _ => Panic
  end.

Definition node_key (p : nat) (IdentityProperties : list string) : H string :=
  n ← node_at p;
  r ← of_outcome (property_key (node_Properties n) IdentityProperties);
  of_result r.

(** ** NodeUpdateBatch *)

(** [graph.NodeUpdate]. *)
Record NodeUpdate := mkNodeUpdate {
  nu_Node : nat;
  nu_IdentityKind : Kind;
  nu_IdentityProperties : list string
}.

(** [query.NodeUpdate]. *)
Record sqlNodeUpdate := mkSqlNodeUpdate { su_IDFuture : nat; su_Node : nat }.

Record NodeUpdateBatch := mkNodeUpdateBatch {
  nb_IdentityProperties : list string;
  nb_Updates : gmap string sqlNodeUpdate
}.

Definition NewNodeUpdateBatch : NodeUpdateBatch := mkNodeUpdateBatch [] ∅.

(** The two checks against the identity properties of the batch. *)
Definition mixes (expected identity : list string) : bool :=
  (negb (bool_decide (expected = [])) && negb (bool_decide (length identity = length expected))) ||
  existsb (fun e => negb (existsb (String.eqb e) identity)) expected.

(** The identity properties of the batch are those of its first update that has some;
    [Key] has sorted them by then. *)
Definition adopt (own identity : list string) : list string :=
  match own with [] => merge_sort String.le identity | _ => own end.

Definition NodeUpdateBatch_Add (s : NodeUpdateBatch) (update : NodeUpdate) : H (NodeUpdateBatch * nat) :=
  if mixes (nb_IdentityProperties s) (nu_IdentityProperties update)
  then fails (ErrMessage "node update mixes identity properties with pre-existing updates")
  else
    key ← node_key (nu_Node update) (nu_IdentityProperties update);
    _ ← add_own_kinds (nu_Node update);
    let IdentityProperties := adopt (nb_IdentityProperties s) (nu_IdentityProperties update) in
    match nb_Updates s !! key with
    | Some existingUpdate =>
        _ ← merge_nodes (su_Node existingUpdate) (nu_Node update);
        mret (mkNodeUpdateBatch IdentityProperties (nb_Updates s), su_IDFuture existingUpdate)
    | None =>
        newIDFuture ← NewFuture 0;
        mret (mkNodeUpdateBatch IdentityProperties (<[key := mkSqlNodeUpdate newIDFuture (nu_Node update)]> (nb_Updates s)),
              newIDFuture)
    end.

Fixpoint add_node_updates (updateBatch : NodeUpdateBatch) (updates : list NodeUpdate) : H NodeUpdateBatch :=
  match updates with
  | [] => mret updateBatch
  | update :: updates' =>
      '(updateBatch', _) ← NodeUpdateBatch_Add updateBatch update;
      add_node_updates updateBatch' updates'
  end.

Definition ValidateNodeUpdateByBatch (updates : list NodeUpdate) : H NodeUpdateBatch :=
  add_node_updates NewNodeUpdateBatch updates.

(** ** RelationshipUpdateBatch *)

(** [graph.RelationshipUpdate]. *)
Record RelationshipUpdate := mkRelationshipUpdate {
  ru_Relationship : nat;
  ru_IdentityProperties : list string;
  ru_Start : NodeUpdate;
  ru_End : NodeUpdate
}.

(** [query.RelationshipUpdate]. *)
Record sqlRelationshipUpdate := mkSqlRelationshipUpdate {
  sr_StartID : nat;
  sr_EndID : nat;
  sr_Relationship : nat
}.

Record RelationshipUpdateBatch := mkRelationshipUpdateBatch {
  rb_NodeUpdates : NodeUpdateBatch;
  rb_IdentityProperties : list string;
  rb_Updates : gmap string sqlRelationshipUpdate
}.

Definition NewRelationshipUpdateBatch : RelationshipUpdateBatch := mkRelationshipUpdateBatch NewNodeUpdateBatch [] ∅.

(** [RelationshipUpdate.Key]. *)
Definition relationship_key (update : RelationshipUpdate) : H string :=
  r ← rel_at (ru_Relationship update);
  kind ← of_outcome (Kind_String (rel_Kind r));
  startKey ← node_key (nu_Node (ru_Start update)) (nu_IdentityProperties (ru_Start update));
  endKey ← node_key (nu_Node (ru_End update)) (nu_IdentityProperties (ru_End update));
  own ← of_outcome (property_key (rel_Properties r) (ru_IdentityProperties update));
  own ← of_result own;
  mret (kind +:+ startKey +:+ own +:+ endKey).

Definition RelationshipUpdateBatch_Add (s : RelationshipUpdateBatch) (update : RelationshipUpdate) : H RelationshipUpdateBatch :=
  if mixes (rb_IdentityProperties s) (ru_IdentityProperties update)
  then fails (ErrMessage "relationship update mixes identity properties with pre-existing updates")
  else
    '(nodes1, startNodeID) ← NodeUpdateBatch_Add (rb_NodeUpdates s) (ru_Start update);
    '(nodes2, endNodeID) ← NodeUpdateBatch_Add nodes1 (ru_End update);
    key ← relationship_key update;
    let IdentityProperties := adopt (rb_IdentityProperties s) (ru_IdentityProperties update) in
    match rb_Updates s !! key with
    | Some existingUpdate =>
        _ ← merge_relationships (sr_Relationship existingUpdate) (ru_Relationship update);
        mret (mkRelationshipUpdateBatch nodes2 IdentityProperties (rb_Updates s))
    | None =>
        mret (mkRelationshipUpdateBatch nodes2 IdentityProperties
                (<[key := mkSqlRelationshipUpdate startNodeID endNodeID (ru_Relationship update)]> (rb_Updates s)))
    end.

Fixpoint add_relationship_updates (updateBatch : RelationshipUpdateBatch) (updates : list RelationshipUpdate) :
    H RelationshipUpdateBatch :=
  match updates with
  | [] => mret updateBatch
  | update :: updates' =>
      updateBatch' ← RelationshipUpdateBatch_Add updateBatch update;
      add_relationship_updates updateBatch' updates'
  end.

Definition ValidateRelationshipUpdateByBatch (updates : list RelationshipUpdate) : H RelationshipUpdateBatch :=
  add_relationship_updates NewRelationshipUpdateBatch updates.
End merge.

(** ** Statements *)

Fixpoint conflict_columns (first : bool) (propertyNames : list string) : string :=
  match propertyNames with
  | [] => ""
  | propertyName :: propertyNames' =>
      (if first then "" else ", ") +:+ "(properties->>'" +:+ propertyName +:+ "')" +:+ conflict_columns false propertyNames'
  end.

Definition formatConflictMatcher (propertyNames : list string) (defaultOnConflict : string) : string :=
  "on conflict (" +:+
  (match propertyNames with [] => defaultOnConflict | _ => conflict_columns true propertyNames end) +:+ ") ".

Definition FormatNodeUpsert (graphTarget : GraphModel) (identityProperties : list string) : string :=
  "insert into " +:+ gp_Name (gps_Node (gm_Partitions graphTarget)) +:+ " as n " +:+
  "(graph_id, kind_ids, properties) " +:+
  "select $1, unnest($2::text[])::int2[], unnest($3::jsonb[]) " +:+
  formatConflictMatcher identityProperties "id, graph_id" +:+
  "do update set properties = n.properties || excluded.properties, kind_ids = uniq(sort(n.kind_ids || excluded.kind_ids)) " +:+
  "returning id;".

Definition FormatRelationshipPartitionUpsert (graphTarget : GraphModel) (identityProperties : list string) : string :=
  "insert into " +:+ gp_Name (gps_Edge (gm_Partitions graphTarget)) +:+ " as e " +:+
  "(graph_id, start_id, end_id, kind_id, properties) " +:+
  "select $1, unnest($2::int8[]), unnest($3::int8[]), unnest($4::int2[]), unnest($5::jsonb[]) " +:+
  formatConflictMatcher identityProperties "start_id, end_id, kind_id, graph_id" +:+
  "do update set properties = e.properties || excluded.properties;".

(** ** Flushes *)

Section flush.
Context {T DB J : Type} `{Database DB} `{MapRange}.
Variable growslice : nat -> nat -> nat.
Variable PropertiesToJSONB : option Properties -> J + error.
Variable targetSchema : option GraphSchema.

(** The connection, as in [Batches]. *)
Variable Exec : command J -> DB -> DB * option error.
Variable Query : command J -> DB -> DB * (list (Z + error) * option error).

Notation W := (M (SchemaManager T * DB)).
Notation state := ((list (executed T DB J) * heap) * (SchemaManager T * DB))%type.
Notation V := (M state).

Definition in_heap {A} (m : H A) : V A := fun '((l, h), w) =>
  match m h with Done (h', r) => Done (((l, h'), w), r) | Panic => Panic | Spent => Spent end.

Record NodeUpsertParameters := mkNodeUpsertParameters {
  nup_IDFutures : list nat;
  nup_KindIDSlices : list string;
  nup_Properties : list J
}.

Definition NodeUpsertParameters_Format (s : NodeUpsertParameters) (graphTarget : GraphModel) : node_rows J :=
  mkNodeRows (gm_ID graphTarget) (nup_KindIDSlices s) (nup_Properties s).

Definition NodeUpsertParameters_Append (s : NodeUpsertParameters) (update : sqlNodeUpdate) : V NodeUpsertParameters :=
  fun '((l, h), w) =>
    match h_nodes h !! su_Node update with
    | None => Panic
    | Some node =>
        in_world (
          mappedKindIDs ← AssertKinds (view (h_mem h) (node_Kinds node));
          propertiesJSONB ← jsonb PropertiesToJSONB (node_Properties node);
          mret (mkNodeUpsertParameters (nup_IDFutures s ++ [su_IDFuture update])
                  (nup_KindIDSlices s ++ [Int2ArrayEncoder_Encode mappedKindIDs])
                  (nup_Properties s ++ [propertiesJSONB]))) ((l, h), w)
    end.

(** The range over the map of updates. *)
Fixpoint NodeUpsertParameters_AppendAll (s : NodeUpsertParameters) (updates : list (string * sqlNodeUpdate)) :
    V NodeUpsertParameters :=
  match updates with
  | [] => mret s
  | (_, nextUpdate) :: updates' =>
      s' ← NodeUpsertParameters_Append s nextUpdate;
      NodeUpsertParameters_AppendAll s' updates'
  end.

(** The rows of the answer, each scanned into the next future; a row too many is
    out of range. *)
Fixpoint fill_futures (answer : list (Z + error)) (futures : list nat) (values : list Z) : outcome (list Z * option error) :=
  match answer with
  | [] => Done (values, None)
  | row :: answer' =>
      match futures with
      | [] => Panic
      | f :: futures' =>
          match row with
          | inr e => Done (values, Some e)
          | inl id => fill_futures answer' futures' (<[f := id]> values)
          end
      end
  end.

Definition flushNodeUpsertBatch (updates : NodeUpdateBatch) : V unit :=
  parameters ← NodeUpsertParameters_AppendAll (mkNodeUpsertParameters [] [] []) (range (nb_Updates updates));
  graphTarget ← in_world (getTargetGraph targetSchema);
  '(answer, rowsErr) ← query Query (UpsertNodes (FormatNodeUpsert graphTarget (nb_IdentityProperties updates))
      (NodeUpsertParameters_Format parameters graphTarget));
  (fun '((l, h), w) =>
     '(values, scanErr) ← fill_futures answer (nup_IDFutures parameters) (h_futures h);
     let h' := mkHeap (h_mem h) (h_nodes h) (h_rels h) values in
     Done (((l, h'), w),
           match scanErr with
           | Some e => inr e
           | None => match rowsErr with Some e => inr e | None => inl tt end
           end)) : V unit.

Definition flush_node_updates (buffer : list NodeUpdate) : V unit :=
  updates ← in_heap (ValidateNodeUpdateByBatch growslice buffer);
  flushNodeUpsertBatch updates.

Record RelationshipUpdateByParameters := mkRelationshipUpdateByParameters {
  rup_StartIDs : list Z;
  rup_EndIDs : list Z;
  rup_KindIDs : list Z;
  rup_Properties : list J
}.

Definition RelationshipUpdateByParameters_Format (s : RelationshipUpdateByParameters) (graphTarget : GraphModel) : relationship_rows J :=
  mkRelationshipRows (gm_ID graphTarget) (rup_StartIDs s) (rup_EndIDs s) (rup_KindIDs s) (rup_Properties s).

(** The value of a future. *)
Definition future (h : heap) (f : nat) : Z := default 0%Z (h_futures h !! f).

Definition RelationshipUpdateByParameters_Append (s : RelationshipUpdateByParameters) (update : sqlRelationshipUpdate) :
    V RelationshipUpdateByParameters := fun '((l, h), w) =>
  match h_rels h !! sr_Relationship update with
  | None => Panic
  | Some r =>
      in_world (
        mappedKindIDs ← AssertKinds [rel_Kind r];
        propertiesJSONB ← jsonb PropertiesToJSONB (rel_Properties r);
        mret (mkRelationshipUpdateByParameters
                (rup_StartIDs s ++ [future h (sr_StartID update)])
                (rup_EndIDs s ++ [future h (sr_EndID update)])
                (rup_KindIDs s ++ mappedKindIDs)
                (rup_Properties s ++ [propertiesJSONB]))) ((l, h), w)
  end.

Fixpoint RelationshipUpdateByParameters_AppendAll (s : RelationshipUpdateByParameters)
    (updates : list (string * sqlRelationshipUpdate)) : V RelationshipUpdateByParameters :=
  match updates with
  | [] => mret s
  | (_, nextUpdate) :: updates' =>
      s' ← RelationshipUpdateByParameters_Append s nextUpdate;
      RelationshipUpdateByParameters_AppendAll s' updates'
  end.

Definition flushRelationshipUpdateByBuffer (updates : RelationshipUpdateBatch) : V unit :=
  _ ← flushNodeUpsertBatch (rb_NodeUpdates updates);
  parameters ← RelationshipUpdateByParameters_AppendAll (mkRelationshipUpdateByParameters [] [] [] []) (range (rb_Updates updates));
  graphTarget ← in_world (getTargetGraph targetSchema);
  exec Exec (UpsertRelationships (FormatRelationshipPartitionUpsert graphTarget (rb_IdentityProperties updates))
    (RelationshipUpdateByParameters_Format parameters graphTarget)).

Definition flush_relationship_updates (buffer : list RelationshipUpdate) : V unit :=
  updateBatch ← in_heap (ValidateRelationshipUpdateByBatch growslice buffer);
  flushRelationshipUpdateByBuffer updateBatch.
End flush.

(** ** Heaps of separate nodes *)

(** The cells of [L] show the lists of kinds that [L] says and share no arrays. *)
Record heap_ok (h : heap) (L : gmap nat lists) : Prop := {
  ho_shows : forall p l, L !! p = Some l -> exists n, h_nodes h !! p = Some n /\ node_shows (h_mem h) n l;
  ho_apart : forall p q l n o, p <> q -> is_Some (L !! p) -> L !! q = Some l ->
    h_nodes h !! p = Some n -> h_nodes h !! q = Some o -> separate (h_mem h) n o l
}.

Lemma separate_shows m n o l lo :
  node_shows m n l -> node_shows m o lo -> separate m n o lo -> separate m o n l.
Proof.
  intros [Hm HK HA HD _ _ _] _ ([_ K1 K2 K3] & [_ A1 A2 A3] & [_ D1 D2 D3]).
  split_and!; split; try done; by apply apart_sym.
Qed.

(** A step of one node leaves the others as they are. *)
Lemma heap_step h L p n m' n' l' :
  heap_ok h L -> is_Some (L !! p) -> h_nodes h !! p = Some n -> node_shows m' n' l' ->
  (forall t lt, outside (h_mem h) n t lt -> outside m' n' t lt) ->
  heap_ok (set_node h m' p n') (<[p := l']> L).
Proof.
  intros [Hs Ha] Hp Hn Hn' Hf.
  assert (Hout : forall q l o, q <> p -> L !! q = Some l -> h_nodes h !! q = Some o -> separate m' n' o l).
  { intros q l o Hq Hl Ho. destruct (Ha p q l n o) as (H1 & H2 & H3); auto. split_and!; by apply Hf. }
  assert (Hsh : forall q l o, q <> p -> L !! q = Some l -> h_nodes h !! q = Some o -> node_shows m' o l).
  { intros q l o Hq Hl Ho. destruct (Hout q l o Hq Hl Ho) as ([H1 _ _ _] & [H2 _ _ _] & [H3 _ _ _]).
    destruct (Hs q l Hl) as (o' & Ho' & [_ _ _ _ ? ? ?]). simplify_eq. split; try done. apply Hn'. }
  split; cbn.
  - intros q l. destruct (decide (q = p)) as [->|Hq].
    + rewrite !lookup_insert_eq. intros [= <-]. by exists n'.
    + rewrite !lookup_insert_ne by done. intros Hl. destruct (Hs q l Hl) as (o & Ho & _). exists o. eauto.
  - intros q r l nq nr Hqr. destruct (decide (q = p)) as [->|Hq]; [|destruct (decide (r = p)) as [->|Hr]].
    + rewrite !lookup_insert_eq, !lookup_insert_ne by done. intros _ Hl [= <-] Hr. by eapply Hout.
    + rewrite !lookup_insert_eq, !lookup_insert_ne by done. intros [lq Hlq] [= <-] Hnq [= <-].
      eapply separate_shows; [exact Hn'|by eapply Hsh|by eapply Hout].
    + rewrite !lookup_insert_ne by done. intros Hlq Hl Hnq Hnr.
      destruct (Ha q r l nq nr) as ([_ ? ? ?] & [_ ? ? ?] & [_ ? ? ?]); try done.
      destruct (Hsh r l nr) as [_ ? ? ? _ _ _]; [done..|]. split_and!; by split.
Qed.

(** ** A node's own kinds *)

Section kinds.
Context (g : nat -> nat -> nat).

(** The lists of a node after [AddKinds] with its kinds. *)
Definition prepared (l : lists) : lists := (l.1.1, kinds_add l.1.2 l.1.1, remove_all l.2 l.1.1).

Lemma Add1_present m s l k :
  mem_ok m -> Rep m s l -> nonnil k -> k ∈ l -> exists m', Kinds_Add1 g m s k = Done (m', s).
Proof using Type.
  intros Hm Hs Hk Hin. unfold Kinds_Add1. destruct (literal_rep m [k] Hm) as (Hm1 & Hlit & Hfr).
  destruct (literal m [k]) as [m1 ks]. destruct (Hfr s l Hs) as [Hs1 _].
  cbn [fst snd] in *. unfold Kinds_Add. rewrite <- (rep_length _ _ _ Hlit). cbn [length seq Add_loop].
  rewrite (rep_view _ _ _ Hlit), (slice_get_nat [k] 0 k) by done. cbn [mbind outcome_bind].
  rewrite (rep_view _ _ _ Hs1), Kinds_ContainsOneOf_one, bool_decide_eq_true_2 by done. by eexists.
Qed.

Lemma kinds_add_present l k : k ∈ l -> kinds_add l [k] = l.
Proof using Type. intros Hk. cbn. by rewrite decide_True. Qed.

(** The header of the kinds stays, so that the range goes over the same list. *)
Lemma AddKinds_own_loop K kinds (idx : list nat) : forall m n A D,
  node_rep m n K A D -> node_Kinds n = kinds -> Forall nonnil K -> Forall (fun i => i < length K) idx ->
  exists r, range_kinds (AddKinds_turn g) m n kinds idx = Done r /\
    steps_to m n r K (kinds_add A (omap (K !!.) idx)) (remove_all D (omap (K !!.) idx)).
Proof using Type.
  induction idx as [|i idx IH]; intros m n A D Hn Hk Hnn Hidx.
  { eexists. split; [done|]. by apply steps_refl. }
  apply Forall_cons in Hidx as [Hi Hidx]. destruct (lookup_lt_is_Some_2 K i Hi) as [k HKi]. cbn [range_kinds omap list_omap].
  pose proof (list_elem_of_lookup_2 _ _ _ HKi) as Hin. pose proof (Forall_lookup_1 _ _ _ _ Hnn HKi) as Hkn.
  rewrite <- Hk, (rep_view _ _ _ (nr_K _ _ _ _ _ Hn)), (slice_get_nat _ _ _ HKi), HKi. cbn [mbind outcome_bind].
  destruct (AddKinds_turn_steps g m n K A D k Hn Hkn) as ([m1 n1] & E & S). rewrite E. cbn [mbind outcome_bind].
  rewrite (kinds_add_present K k Hin) in S.
  assert (Hhead : node_Kinds n1 = node_Kinds n).
  { unfold AddKinds_turn in E. destruct Hkn as [x ->].
    destruct (Add1_present m (node_Kinds n) K (Some x)) as [m' E']; [apply Hn|apply Hn|by eexists|done|].
    rewrite E' in E. cbn [mbind outcome_bind] in E.
    destruct (Kinds_Add1 g m' (node_AddedKinds n) (Some x)) as [[m2 added]| |]; cbn [mbind outcome_bind] in E; [|congruence..].
    destruct (Kinds_Remove _ _ _ _) as [m3 dels]. by injection E as <- <-. }
  destruct (IH m1 n1 (kinds_add A [k]) (kinds_remove k D)) as (r & Er & Sr); [apply S|by rewrite Hhead|done|done|].
  exists r. rewrite Hk. split; [done|]. by eapply steps_trans.
Qed.

Lemma Node_AddKinds_own m n l :
  node_shows m n l -> Forall nonnil l.1.1 ->
  exists r, Node_AddKinds g m n (node_Kinds n) = Done r /\
    steps_to m n r (prepared l).1.1 (prepared l).1.2 (prepared l).2.
Proof using Type.
  intros Hn Hnn. pose proof (rep_length _ _ _ (nr_K _ _ _ _ _ Hn)) as Hlen.
  destruct (AddKinds_own_loop l.1.1 (node_Kinds n) (seq 0 (len (node_Kinds n))) m n l.1.2 l.2 Hn eq_refl Hnn) as (r & Er & Sr).
  { apply Forall_forall. intros i Hi%elem_of_seq. lia. }
  exists r. split; [done|]. by rewrite <- Hlen, omap_lookup_seq in Sr.
Qed.
End kinds.

(** ** Operations on cells *)

Section cells.
Context (g : nat -> nat -> nat).

Lemma update_node_eval p q h s o f m s' :
  h_nodes h !! p = Some s -> h_nodes h !! q = Some o -> f (h_mem h) s o = Done (m, s') ->
  update_node p q f h = Done (set_node h m p s', inl tt).
Proof using Type. intros Hp Hq Hf. unfold update_node. by rewrite Hp, Hq, Hf. Qed.

Lemma set_node_twice h m p s m' s' : set_node (set_node h m p s) m' p s' = set_node h m' p s'.
Proof using Type. unfold set_node. cbn. by rewrite insert_insert_eq. Qed.

(** With two pointers the statements of [Merge] are those of [Node_Merge]. *)
Lemma merge_nodes_apart p q h s o m' s' :
  p <> q -> h_nodes h !! p = Some s -> h_nodes h !! q = Some o ->
  Node_Merge g (h_mem h) s o = Done (m', s') -> merge_nodes g p q h = Done (set_node h m' p s', inl tt).
Proof using Type.
  intros Hpq Hp Hq Hm. unfold Node_Merge in Hm. unfold merge_nodes, mbind, M_bind.
  assert (Hcell : forall m x, h_nodes (set_node h m p x) !! p = Some x) by (intros; apply lookup_insert_eq).
  assert (Hother : forall m x, h_nodes (set_node h m p x) !! q = Some o) by (intros; cbn; by rewrite lookup_insert_ne).
  destruct (Kinds_Add g (h_mem h) (node_Kinds s) (node_Kinds o)) as [[m1 ks]| |] eqn:E1; [|done..]. cbn [mbind outcome_bind] in Hm.
  rewrite (update_node_eval p q h s o _ m1 (with_Kinds s ks)) by (done || by rewrite E1).
  destruct (range_kinds (Merge_added_turn g) _ _ _ _) as [[m2 s2]| |] eqn:E2; [|done..]. cbn [mbind outcome_bind] in Hm.
  rewrite (update_node_eval p q _ (with_Kinds s ks) o _ m2 s2) by done. rewrite set_node_twice.
  destruct (range_kinds (Merge_deleted_turn g) _ _ _ _) as [[m3 s3]| |] eqn:E3; [|done..]. cbn [mbind outcome_bind] in Hm.
  rewrite (update_node_eval p q _ s2 o _ m3 s3) by done. rewrite set_node_twice.
  destruct (Kinds_Add g m3 (node_AddedKinds s3) _) as [[m4 added]| |] eqn:E4; [|done..]. cbn [mbind outcome_bind] in Hm.
  rewrite (update_node_eval p q _ s3 o _ m4 (with_Added s3 added)) by (done || by cbn; rewrite E4). rewrite set_node_twice.
  destruct (Kinds_Add g m4 (node_DeletedKinds s3) _) as [[m5 dels]| |] eqn:E5; [|done..]. cbn [mbind outcome_bind] in Hm.
  rewrite (update_node_eval p q _ (with_Added s3 added) o _ m5 (with_Deleted (with_Added s3 added) dels)) by (done || by cbn; rewrite E5).
  rewrite set_node_twice.
  destruct (Properties_Merge _ _) as [ps| |] eqn:E6; [|done..]. injection Hm as <- <-.
  rewrite (update_node_eval p q _ (with_Deleted (with_Added s3 added) dels) o _ m5 (with_Properties (with_Deleted (with_Added s3 added) dels) ps)).
  - by rewrite set_node_twice.
  - done.
  - done.
  - unfold merge_properties. rewrite decide_False by done. cbn. by rewrite E6.
Qed.

(** [AddKinds] and [Merge] on a heap of separate nodes. *)
Lemma add_own_kinds_ok h L p l n :
  heap_ok h L -> L !! p = Some l -> h_nodes h !! p = Some n -> Forall nonnil l.1.1 ->
  exists m' n', add_own_kinds g p h = Done (set_node h m' p n', inl tt) /\
    heap_ok (set_node h m' p n') (<[p := prepared l]> L) /\ node_Properties n' = node_Properties n.
Proof using Type.
  intros Hok Hl Hn Hnn. destruct (ho_shows _ _ Hok p l Hl) as (n0 & Hn0 & Hs). rewrite Hn in Hn0. injection Hn0 as <-.
  destruct (Node_AddKinds_own g _ _ _ Hs Hnn) as ([m' n'] & E & Hrep & Hf & Hp & _). exists m', n'.
  split_and!; [by apply (update_node_eval p p h n n)| |done].
  eapply heap_step; [done|by eexists|done|by destruct (prepared l) as [[??]?]|done].
Qed.

Lemma merge_nodes_ok h L p q s o ls lo ps qs :
  p <> q -> heap_ok h L -> L !! p = Some ls -> L !! q = Some lo -> h_nodes h !! p = Some s -> h_nodes h !! q = Some o ->
  node_Properties s = Some ps -> node_Properties o = Some qs -> Forall nonnil (lo.1.1 ++ lo.1.2 ++ lo.2) ->
  exists m' s', merge_nodes g p q h = Done (set_node h m' p s', inl tt) /\
    heap_ok (set_node h m' p s') (<[p := merged ls lo]> L) /\ node_Properties s' = Some (Properties_Merge_body ps qs).
Proof using Type.
  intros Hpq Hok Hlp Hlq Hs Ho Hps Hqs [H1 [H2 H3]%Forall_app]%Forall_app.
  destruct (ho_shows _ _ Hok p ls Hlp) as (s0 & Hs0 & Hss). rewrite Hs in Hs0. injection Hs0 as <-.
  pose proof (ho_apart _ _ Hok p q lo s o Hpq (mk_is_Some _ _ Hlp) Hlq Hs Ho) as Hsep.
  destruct (Node_Merge_steps g _ _ _ ls lo (Some (Properties_Merge_body ps qs)) Hss Hsep H1 H2 H3)
    as (m' & s' & E & Hs' & Hf & _ & Hp' & _); [by rewrite Hps, Hqs|].
  exists m', s'. split_and!; [by eapply merge_nodes_apart| |done]. by eapply heap_step.
Qed.
End cells.

(** ** What a batch merges *)

(** The updates of a batch as values: the lists of kinds and the bag of each key. *)
Notation merged_updates := (gmap string (lists * Properties)).

Definition merge_update (S : merged_updates) (u : string * (lists * Properties)) : merged_updates :=
  match S !! u.1 with
  | Some (l, ps) => <[u.1 := (merged l u.2.1, Properties_Merge_body ps u.2.2)]> S
  | None => <[u.1 := u.2]> S
  end.

(** A node holds the lists and the bag of an entry. *)
Definition holds_entry (h : heap) (L : gmap nat lists) (u : sqlNodeUpdate) (e : lists * Properties) : Prop :=
  L !! su_Node u = Some e.1 /\ exists n, h_nodes h !! su_Node u = Some n /\ node_Properties n = Some e.2.

Definition contents (h : heap) (L : gmap nat lists) (U : gmap string sqlNodeUpdate) (S : merged_updates) : Prop :=
  forall key, option_Forall2 (holds_entry h L) (U !! key) (S !! key).

(** A node of the caller with what it holds. *)
Definition ready (h : heap) (L : gmap nat lists) (p : nat) (e : lists * Properties) : Prop :=
  L !! p = Some e.1 /\ Forall nonnil (e.1.1.1 ++ e.1.1.2 ++ e.1.2) /\
  exists n, h_nodes h !! p = Some n /\ node_Properties n = Some e.2.

(** The state between two calls of [Add]: the nodes [todo] have not been added. *)
Record batch_inv (h0 : heap) (L0 : gmap nat lists) (h : heap) (L : gmap nat lists) (U : gmap string sqlNodeUpdate)
    (S : merged_updates) (todo : list nat) : Prop := {
  bi_heap : heap_ok h L;
  bi_contents : contents h L U S;
  bi_inj : forall k1 k2 u1 u2, U !! k1 = Some u1 -> U !! k2 = Some u2 ->
    su_Node u1 = su_Node u2 \/ su_IDFuture u1 = su_IDFuture u2 -> k1 = k2;
  bi_future : forall k u, U !! k = Some u -> h_futures h !! su_IDFuture u = Some 0%Z;
  bi_todo : NoDup todo;
  bi_new : forall p k u, p ∈ todo -> U !! k = Some u -> su_Node u <> p;
  bi_same : forall p, p ∈ todo -> h_nodes h !! p = h_nodes h0 !! p /\ L !! p = L0 !! p
}.

Lemma heap_ok_ext h h' L : h_mem h' = h_mem h -> h_nodes h' = h_nodes h -> heap_ok h L -> heap_ok h' L.
Proof. intros Hm Hn [H1 H2]. split; rewrite Hm, Hn; done. Qed.

Lemma elem_of_kinds_remove_1 k l x : x ∈ kinds_remove k l -> x ∈ l.
Proof. induction l as [|y l IH]; cbn; [done|]. case_decide; set_solver. Qed.

Lemma elem_of_remove_all_1 ks : forall l x, x ∈ remove_all l ks -> x ∈ l.
Proof. induction ks as [|k ks IH]; intros l x Hx; [done|]. by apply IH, elem_of_kinds_remove_1 in Hx. Qed.

Lemma prepared_nonnil (l : lists) :
  Forall nonnil (l.1.1 ++ l.1.2 ++ l.2) -> Forall nonnil ((prepared l).1.1 ++ (prepared l).1.2 ++ (prepared l).2).
Proof.
  rewrite !Forall_forall. intros Hl k Hk. apply Hl. cbn in Hk. rewrite !elem_of_app, elem_of_kinds_add in Hk.
  rewrite !elem_of_app. destruct Hk as [|[[|]|?%elem_of_remove_all_1]]; auto.
Qed.

Lemma entry_same h L h' L' ou oe :
  (forall u, ou = Some u -> h_nodes h' !! su_Node u = h_nodes h !! su_Node u /\ L' !! su_Node u = L !! su_Node u) ->
  option_Forall2 (holds_entry h L) ou oe -> option_Forall2 (holds_entry h' L') ou oe.
Proof.
  intros Hsame Hc. destruct Hc as [u e [Hl Hn]|]; constructor. destruct (Hsame u eq_refl) as [H1 H2].
  split; by rewrite ?H1, ?H2.
Qed.

(** The update with its entry, and the key under which it is merged. *)
Lemma node_key_eval h p n ps names key :
  h_nodes h !! p = Some n -> node_Properties n = Some ps -> NodeUpdate_Key ps names = inl key ->
  node_key p names h = Done (h, inl key).
Proof.
  intros Hn Hp Hk. unfold node_key, node_at, mbind, M_bind, of_outcome. rewrite Hn, Hp. cbn. by rewrite Hk.
Qed.

Lemma node_key_fails h p n ps names e :
  h_nodes h !! p = Some n -> node_Properties n = Some ps -> NodeUpdate_Key ps names = inr e ->
  node_key p names h = Done (h, inr (property_error e)).
Proof.
  intros Hn Hp Hk. unfold node_key, node_at, mbind, M_bind, of_outcome. rewrite Hn, Hp. cbn. by rewrite Hk.
Qed.

(** The cell at [p] leaves the nodes to come and is not one of the batch. *)
Lemma inv_cells h0 L0 h L U S p todo m n l :
  batch_inv h0 L0 h L U S (p :: todo) -> forall k u, U !! k = Some u ->
  h_nodes (set_node h m p n) !! su_Node u = h_nodes h !! su_Node u /\ <[p := l]> L !! su_Node u = L !! su_Node u.
Proof.
  intros Hi k u Hu. assert (p <> su_Node u) by (intros Heq; eapply (bi_new _ _ _ _ _ _ _ Hi p); [set_solver|exact Hu|done]).
  split; [cbn|]; by rewrite lookup_insert_ne.
Qed.

Lemma inv_todo h0 L0 h L U S p todo m n l q :
  batch_inv h0 L0 h L U S (p :: todo) -> q ∈ todo ->
  h_nodes (set_node h m p n) !! q = h_nodes h0 !! q /\ <[p := l]> L !! q = L0 !! q.
Proof.
  intros Hi Hq. destruct (bi_same _ _ _ _ _ _ _ Hi q) as [<- <-]; [set_solver|].
  pose proof (bi_todo _ _ _ _ _ _ _ Hi) as [Hp _]%NoDup_cons. assert (p <> q) by set_solver.
  split; [cbn|]; by rewrite lookup_insert_ne.
Qed.

(** A key that is there: its node is merged with the new one. *)
Lemma inv_merge h0 L0 h L U S p todo m1 n1 l m2 s2 l2 ps2 key x :
  batch_inv h0 L0 h L U S (p :: todo) -> U !! key = Some x ->
  heap_ok (set_node (set_node h m1 p n1) m2 (su_Node x) s2) (<[su_Node x := l2]> (<[p := l]> L)) ->
  node_Properties s2 = Some ps2 ->
  batch_inv h0 L0 (set_node (set_node h m1 p n1) m2 (su_Node x) s2) (<[su_Node x := l2]> (<[p := l]> L)) U
    (<[key := (l2, ps2)]> S) todo.
Proof.
  intros Hi Hx Hok Hps. pose proof Hi as [_ Hc Hinj Hfut [_ Htodo]%NoDup_cons Hnew _]. split; try done.
  - intros k. destruct (decide (k = key)) as [->|Hkk].
    + rewrite Hx, lookup_insert_eq. constructor. split; [apply lookup_insert_eq|]. exists s2. split; [apply lookup_insert_eq|done].
    + rewrite lookup_insert_ne by done. eapply entry_same, Hc. intros u Hu.
      assert (su_Node x <> su_Node u) by (intros Heq; apply Hkk; eapply Hinj; eauto).
      destruct (inv_cells _ _ _ _ _ _ _ _ m1 n1 l Hi k u Hu) as [<- <-]. split; [cbn|]; by rewrite (lookup_insert_ne _ (su_Node x)).
  - intros q k u Hq. apply Hnew. set_solver.
  - intros q Hq. destruct (inv_todo _ _ _ _ _ _ _ _ m1 n1 l q Hi Hq) as [<- <-].
    assert (su_Node x <> q) by (eapply Hnew; [set_solver|done]).
    split; [cbn|]; by rewrite (lookup_insert_ne _ (su_Node x)).
Qed.

Definition add_future (h : heap) : heap := mkHeap (h_mem h) (h_nodes h) (h_rels h) (h_futures h ++ [0%Z]).

(** A new key: the node is kept with a future of its own. *)
Lemma inv_insert h0 L0 h L U S p todo m1 n1 l ps key :
  batch_inv h0 L0 h L U S (p :: todo) -> U !! key = None ->
  heap_ok (set_node h m1 p n1) (<[p := l]> L) -> node_Properties n1 = Some ps ->
  batch_inv h0 L0 (add_future (set_node h m1 p n1)) (<[p := l]> L)
    (<[key := mkSqlNodeUpdate (length (h_futures h)) p]> U) (<[key := (l, ps)]> S) todo.
Proof.
  intros Hi Hx Hok Hps. pose proof Hi as [_ Hc Hinj Hfut [Hp Htodo]%NoDup_cons Hnew _].
  assert (Hlt : forall k u, U !! k = Some u -> su_IDFuture u < length (h_futures h)).
  { intros k u Hu. by eapply lookup_lt_Some, Hfut. }
  assert (Hfresh : forall k u, U !! k = Some u -> ~ (p = su_Node u \/ length (h_futures h) = su_IDFuture u)).
  { intros k u Hu [->|Heq]; [by eapply (Hnew (su_Node u)); [set_solver|..]|]. pose proof (Hlt k u Hu). lia. }
  split; try done; cbn.
  - by apply (heap_ok_ext (set_node h m1 p n1)).
  - intros k. destruct (decide (k = key)) as [->|Hkk].
    + rewrite !lookup_insert_eq. constructor. split; [apply lookup_insert_eq|]. exists n1. split; [apply lookup_insert_eq|done].
    + rewrite !lookup_insert_ne by done. eapply entry_same, Hc. intros u Hu. exact (inv_cells _ _ _ _ _ _ _ _ m1 n1 l Hi k u Hu).
  - intros k1 k2 u1 u2. destruct (decide (k1 = key)) as [->|H1], (decide (k2 = key)) as [->|H2]; [done| | |].
    + rewrite lookup_insert_eq, lookup_insert_ne by done. intros [= <-] Hu2 Hor. by destruct (Hfresh k2 u2 Hu2).
    + rewrite lookup_insert_eq, lookup_insert_ne by done. intros Hu1 [= <-] Hor. destruct (Hfresh k1 u1 Hu1). cbn in Hor. naive_solver.
    + rewrite !lookup_insert_ne by done. apply Hinj.
  - intros k u. destruct (decide (k = key)) as [->|Hkk].
    + rewrite lookup_insert_eq. intros [= <-]. cbn. by rewrite lookup_app_r, Nat.sub_diag by lia.
    + rewrite lookup_insert_ne by done. intros Hu. rewrite lookup_app_l by (by eapply Hlt). by eapply Hfut.
  - intros q k u Hq. destruct (decide (k = key)) as [->|Hkk].
    + rewrite lookup_insert_eq. intros [= <-]. cbn. set_solver.
    + rewrite lookup_insert_ne by done. apply Hnew. set_solver.
  - intros q Hq. exact (inv_todo _ _ _ _ _ _ _ _ m1 n1 l q Hi Hq).
Qed.

(** The cells after an update with a key has been added: the node that was added has
    its own bag, other cells than it and the one under the key are as they were, and
    the node that was added is under no other key. *)
Record added_cells (b : NodeUpdateBatch) (h : heap) (p : nat) (key : string) (e : lists * Properties) (h' : heap)
    (U' : gmap string sqlNodeUpdate) : Prop := {
  ac_rels : h_rels h' = h_rels h;
  ac_own : exists n, h_nodes h' !! p = Some n /\ node_Properties n = Some e.2;
  ac_frame q : q <> p -> (forall y, nb_Updates b !! key = Some y -> su_Node y <> q) -> h_nodes h' !! q = h_nodes h !! q;
  ac_key k y : U' !! k = Some y -> su_Node y = p -> k = key
}.

Section add.
Context (g : nat -> nat -> nat).

Lemma Add_spec h0 L0 h L b S update todo e key :
  batch_inv h0 L0 h L (nb_Updates b) S (nu_Node update :: todo) -> ready h0 L0 (nu_Node update) e ->
  mixes (nb_IdentityProperties b) (nu_IdentityProperties update) = false ->
  NodeUpdate_Key e.2 (nu_IdentityProperties update) = inl key ->
  exists h' L' U' x,
    NodeUpdateBatch_Add g b update h =
      Done (h', inl (mkNodeUpdateBatch (adopt (nb_IdentityProperties b) (nu_IdentityProperties update)) U', su_IDFuture x)) /\
    batch_inv h0 L0 h' L' U' (merge_update S (key, (prepared e.1, e.2))) todo /\
    U' !! key = Some x /\ nb_Updates b ⊆ U' /\ added_cells b h (nu_Node update) key e h' U'.
Proof using Type.
  intros Hi (Hl & Hnn & n & Hn & Hps) Hmix Hkey. pose proof Hi as [Hok Hc _ _ _ Hnew Hsame].
  unfold NodeUpdateBatch_Add. rewrite Hmix. unfold mbind, M_bind. set (p := nu_Node update) in *.
  destruct (Hsame p) as [Hnp Hlp]; [set_solver|]. rewrite Hn in Hnp. rewrite Hl in Hlp.
  rewrite (node_key_eval h p n e.2 _ key Hnp Hps Hkey).
  destruct (add_own_kinds_ok g h L p e.1 n Hok Hlp Hnp) as (m1 & n1 & E1 & Hok1 & Hp1).
  { by apply Forall_app in Hnn as [? _]. }
  rewrite E1. rewrite Hps in Hp1. unfold merge_update. cbn [fst snd].
  pose proof (Hc key) as Hk. destruct (nb_Updates b !! key) as [x|] eqn:Ex.
  - destruct (S !! key) as [[ls ps]|]; [|by inversion Hk]. inversion Hk as [? ? [Hlx (s & Hs & Hsp)]|]; subst.
    destruct (inv_cells _ _ _ _ _ _ _ _ m1 n1 (prepared e.1) Hi key x Ex) as [Hn1 Hl1].
    destruct (merge_nodes_ok g _ _ (su_Node x) p s n1 ls (prepared e.1) ps e.2 ltac:(eapply Hnew; [set_solver|exact Ex]) Hok1)
      as (m2 & s2 & E2 & Hok2 & Hp2); [by rewrite Hl1|apply lookup_insert_eq|by rewrite Hn1|apply lookup_insert_eq|done|done|by apply prepared_nonnil|].
    rewrite E2. cbn [mret M_ret]. do 3 eexists. exists x. split; [reflexivity|]. split; [by eapply inv_merge|]. split_and!; [done|done|].
    assert (Hxp : su_Node x <> p) by (eapply Hnew; [set_solver|exact Ex]). split; [done| | |].
    + exists n1. cbn. by rewrite lookup_insert_ne, lookup_insert_eq by done.
    + intros q Hq Hy. cbn. by rewrite !lookup_insert_ne by (done || by apply Hy).
    + intros k y Hy Heq. exfalso. eapply (Hnew p); [set_solver|exact Hy|done].
  - destruct (S !! key); [by inversion Hk|]. unfold NewFuture. cbn [mret M_ret]. set (x := mkSqlNodeUpdate (length (h_futures h)) p).
    exists (add_future (set_node h m1 p n1)), (<[p := prepared e.1]> L), (<[key := x]> (nb_Updates b)), x. split; [reflexivity|].
    split; [by eapply inv_insert|]. split; [by rewrite lookup_insert_eq|split; [by apply insert_subseteq|]]. split; [done| | |].
    + exists n1. cbn. by rewrite lookup_insert_eq.
    + intros q Hq _. cbn. by rewrite lookup_insert_ne.
    + intros k y [[<- _]|[_ Hy]]%lookup_insert_Some Heq; [done|]. exfalso. eapply (Hnew p); [set_solver|exact Hy|done].
Qed.
End add.

(** ** Identity properties of a batch *)

(** Updates without identity properties come first; the others name the same ones. *)
Definition one_identity (updates : list NodeUpdate) (ids : list string) : Prop :=
  exists before after, updates = before ++ after /\
    Forall (fun u => nu_IdentityProperties u = []) before /\ Forall (fun u => nu_IdentityProperties u ≡ₚ ids) after.

(** The same for the rest of the updates, once the batch has the properties [own]. *)
Definition accepted (own : list string) (updates : list NodeUpdate) (ids : list string) : Prop :=
  if decide (own = []) then one_identity updates ids
  else ids = own /\ Forall (fun u => nu_IdentityProperties u ≡ₚ own) updates.

Lemma mixes_spec own ids : NoDup own -> mixes own ids = false <-> own = [] \/ ids ≡ₚ own.
Proof.
  intros Hnd. unfold mixes. rewrite orb_false_iff, andb_false_iff, !negb_false_iff, !bool_decide_eq_true.
  assert (Hsub : existsb (fun e => negb (existsb (String.eqb e) ids)) own = false <-> own ⊆ ids).
  { rewrite <- not_true_iff_false, existsb_exists. split.
    - intros Hn x Hx. destruct (existsb (String.eqb x) ids) eqn:E.
      + apply existsb_exists in E as (y & Hy & ->%String.eqb_eq). by apply list_elem_of_In.
      + destruct Hn. exists x. rewrite E. split; [by apply list_elem_of_In|done].
    - intros Hs (x & Hx%list_elem_of_In & Hneg). apply Hs in Hx. apply negb_true_iff in Hneg.
      rewrite <- not_true_iff_false, existsb_exists in Hneg. apply Hneg. exists x. split; [by apply list_elem_of_In|apply String.eqb_refl]. }
  rewrite Hsub. split.
  - intros [[->|Hlen] Hs]; [by left|]. right. symmetry. apply submseteq_length_Permutation; [by apply NoDup_submseteq|lia].
  - intros [->|Hp]; [split; [by left|set_solver]|]. split; [right; by apply Permutation_length|]. intros x Hx. by rewrite Hp.
Qed.

Lemma adopt_perm ids : adopt [] ids ≡ₚ ids.
Proof. apply merge_sort_Permutation. Qed.

Lemma adopt_own own ids : own <> [] -> adopt own ids = own.
Proof. by destruct own. Qed.

Lemma adopt_NoDup own ids : NoDup own -> NoDup ids -> NoDup (adopt own ids).
Proof. destruct own; [|done]. intros _ Hn. by rewrite adopt_perm. Qed.

(** One update accepted, then the rest. *)
Lemma accepted_step own u updates ids :
  NoDup own -> mixes own (nu_IdentityProperties u) = false -> accepted (adopt own (nu_IdentityProperties u)) updates ids ->
  accepted own (u :: updates) ids.
Proof.
  intros Hnd Hmix%mixes_spec Hacc; [|done]. unfold accepted in *. destruct (decide (own = [])) as [->|Hown].
  - pose proof (adopt_perm (nu_IdentityProperties u)) as Hp. destruct (decide (adopt [] _ = [])) as [Hnil|Hnil].
    + rewrite Hnil in Hp. symmetry in Hp. apply Permutation_nil_r in Hp. destruct Hacc as (before & after & -> & Hb & Ha).
      exists (u :: before), after. split_and!; [done|by constructor|done].
    + destruct Hacc as [-> Hall]. exists [], (u :: updates). split_and!; [done|done|]. by constructor.
  - rewrite (adopt_own own) in Hacc by done. rewrite decide_False in Hacc by done. destruct Hacc as [-> Hall].
    split; [done|]. constructor; [naive_solver|done].
Qed.

Lemma accepted_inv own u updates ids :
  NoDup own -> accepted own (u :: updates) ids ->
  mixes own (nu_IdentityProperties u) = false /\ exists ids', accepted (adopt own (nu_IdentityProperties u)) updates ids'.
Proof.
  intros Hnd. unfold accepted. rewrite mixes_spec by done. destruct (decide (own = [])) as [->|Hown].
  - pose proof (adopt_perm (nu_IdentityProperties u)) as Hp. intros ([|u' before] & after & Heq & Hb & Ha).
    + cbn in Heq. subst after. apply Forall_cons in Ha as [Hu Ha]. split; [by left|]. case_decide as Hnil.
      * exists ids. by exists [], updates.
      * eexists. split; [done|]. eapply Forall_impl; [exact Ha|]. intros x Hx. cbn in Hx. by rewrite Hx, Hp.
    + injection Heq as <- ->. apply Forall_cons in Hb as [Hu Hb]. split; [by left|]. rewrite Hu.
      exists ids. rewrite decide_True by done. by exists before, after.
  - intros [-> [Hu Hall]%Forall_cons]. split; [by right|]. exists own. by rewrite adopt_own, decide_False by done.
Qed.

(** ** Merging by keys *)

Definition merge_entry (e e' : lists * Properties) : lists * Properties :=
  (merged e.1 e'.1, Properties_Merge_body e.2 e'.2).

(** The updates under one key, merged in order. *)
Definition merge_under (key : string) (l : list (string * (lists * Properties))) : option (lists * Properties) :=
  match (filter (fun u => u.1 = key) l).*2 with
  | [] => None
  | e :: es => Some (foldl merge_entry e es)
  end.

Lemma merge_updates_lookup key l :
  foldl merge_update ∅ l !! key = merge_under key l.
Proof.
  induction l as [|[k e] l IH] using rev_ind; [done|]. rewrite foldl_app. cbn [foldl]. unfold merge_update at 1. cbn [fst snd].
  unfold merge_under in *. rewrite filter_app, fmap_app. destruct (decide (k = key)) as [->|Hk].
  - rewrite filter_cons_True by done. rewrite IH. destruct ((filter _ l).*2) as [|e0 es]; cbn.
    + apply lookup_insert_eq.
    + rewrite foldl_app. destruct (foldl merge_entry e0 es) as [l0 p0]. apply lookup_insert_eq.
  - rewrite filter_cons_False, filter_nil, app_nil_r by done. rewrite <- IH.
    destruct (_ !! k) as [[l0 p0]|]; by rewrite lookup_insert_ne.
Qed.

Lemma batch_inv_start h L todo :
  heap_ok h L -> NoDup todo -> batch_inv h L h L ∅ ∅ todo.
Proof. intros Hok Hnd. split; try done; intros *; rewrite ?lookup_empty; try done. constructor. Qed.

(** The key of every update, the bag of its node being that of the entry. *)
Definition keyed (u : NodeUpdate) (e : lists * Properties) (key : string) : Prop :=
  NodeUpdate_Key e.2 (nu_IdentityProperties u) = inl key.

Definition prepare (e : lists * Properties) : lists * Properties := (prepared e.1, e.2).

Section validate.
Context (g : nat -> nat -> nat).

Lemma add_node_updates_spec h0 L0 updates es :
  Forall2 (fun u e => ready h0 L0 (nu_Node u) e) updates es -> Forall (fun u => NoDup (nu_IdentityProperties u)) updates ->
  forall h L b S, batch_inv h0 L0 h L (nb_Updates b) S (nu_Node <$> updates) -> NoDup (nb_IdentityProperties b) ->
  exists h' r, add_node_updates g b updates h = Done (h', r) /\
    match r with
    | inl b' => accepted (nb_IdentityProperties b) updates (nb_IdentityProperties b') /\
        exists keys L', Forall3 keyed updates es keys /\
          batch_inv h0 L0 h' L' (nb_Updates b') (foldl merge_update S (zip keys (prepare <$> es))) []
    | inr _ => (forall ids, ~ accepted (nb_IdentityProperties b) updates ids) \/ ~ exists keys, Forall3 keyed updates es keys
    end.
Proof using Type.
  intros Hes Hids. induction Hes as [|u e updates es Hu Hes IH]; intros h L b S Hi Hnd.
  - do 2 eexists. split; [reflexivity|]. split.
    + unfold accepted. case_decide as Hd; [exists [], []; by rewrite Hd|done].
    + exists [], L. split; [constructor|done].
  - apply Forall_cons in Hids as [Hid Hids]. cbn [add_node_updates].
    destruct (mixes (nb_IdentityProperties b) (nu_IdentityProperties u)) eqn:Hmix.
    { unfold NodeUpdateBatch_Add, mbind, M_bind. rewrite Hmix. do 2 eexists. split; [reflexivity|].
      left. intros ids [Hm _]%accepted_inv; [congruence|done]. }
    destruct (NodeUpdate_Key e.2 (nu_IdentityProperties u)) as [key|err] eqn:Hkey.
    + destruct (Add_spec g h0 L0 h L b S u _ e key Hi Hu Hmix Hkey) as (h1 & L1 & U1 & x & E1 & Hi1 & _).
      unfold mbind, M_bind. rewrite E1.
      destruct (IH Hids h1 L1 (mkNodeUpdateBatch (adopt (nb_IdentityProperties b) (nu_IdentityProperties u)) U1) _ Hi1)
        as (h' & r & E' & Hr); [by apply adopt_NoDup|].
      exists h', r. split; [exact E'|]. destruct r as [b'|err].
      * destruct Hr as [Hacc (keys & L' & Hkeys & Hinv)]. split; [by apply accepted_step|].
        exists (key :: keys), L'. split; [by constructor|exact Hinv].
      * destruct Hr as [Hr|Hr]; [left|right].
        -- intros ids [_ [ids' Hacc]]%accepted_inv; [|done]. by apply (Hr ids').
        -- intros [keys Hk]. inversion Hk; subst. eauto.
    + destruct Hu as (_ & _ & n & Hn & Hps).
      assert (Hn' : h_nodes h !! nu_Node u = Some n) by (rewrite <- Hn; apply (bi_same _ _ _ _ _ _ _ Hi); set_solver).
      unfold NodeUpdateBatch_Add, mbind, M_bind. rewrite Hmix, (node_key_fails _ _ _ _ _ err Hn' Hps Hkey).
      do 2 eexists. split; [reflexivity|]. right. intros [keys Hk]. inversion Hk as [|? ? ? ? ? ? Hk1]; subst. unfold keyed in Hk1. congruence.
Qed.
End validate.

Lemma keyed_unique updates es keys keys' : Forall3 keyed updates es keys -> Forall3 keyed updates es keys' -> keys = keys'.
Proof.
  intros Hk. revert keys'. induction Hk as [|u e key updates es keys Hu _ IH]; intros keys' Hk'; inversion Hk' as [|? ? key' ? ? ? Hu']; subst; [done|].
  unfold keyed in *. rewrite Hu in Hu'. injection Hu' as <-. f_equal. by apply IH.
Qed.

(** [C21] Updates that name the same identity become one row.  Let the nodes of the
    updates be different objects that are not nil, have property bags and no nil kind,
    and share no arrays of kinds, and let no list of identity properties name a
    property twice.  Then validating the buffer never panics; it succeeds exactly when
    every update has a key and the updates fall into a beginning without identity
    properties, which may be empty, and a rest that names the same ones in any order;
    and then the batch has exactly the keys of the updates, with one node each, whose
    kinds, added and deleted kinds and properties are those of the updates under the
    key merged in order. *)
Theorem node_updates_merged g h L updates es :
  heap_ok h L -> NoDup (nu_Node <$> updates) -> Forall2 (fun u e => ready h L (nu_Node u) e) updates es ->
  Forall (fun u => NoDup (nu_IdentityProperties u)) updates ->
  exists h' r, ValidateNodeUpdateByBatch g updates h = Done (h', r) /\
    ((exists b, r = inl b) <-> (exists ids, one_identity updates ids) /\ exists keys, Forall3 keyed updates es keys) /\
    forall b keys, r = inl b -> Forall3 keyed updates es keys ->
      one_identity updates (nb_IdentityProperties b) /\
      exists L', heap_ok h' L' /\
        forall key, option_Forall2 (holds_entry h' L') (nb_Updates b !! key) (merge_under key (zip keys (prepare <$> es))).
Proof.
  intros Hok Hnd Hes Hids.
  destruct (add_node_updates_spec g h L updates es Hes Hids h L NewNodeUpdateBatch ∅) as (h' & r & E & Hr);
    [by apply batch_inv_start|constructor|].
  exists h', r. split; [exact E|]. destruct r as [b|err].
  - destruct Hr as [Hacc (keys & L' & Hkeys & Hinv)]. split.
    + split; [|by eexists]. intros _. split; by eexists.
    + intros b' keys' [= <-] Hk'. rewrite (keyed_unique _ _ _ _ Hk' Hkeys). split; [exact Hacc|]. exists L'.
      split; [apply Hinv|]. intros key. rewrite <- merge_updates_lookup. apply Hinv.
  - split; [|by intros b keys [=]]. split; [by intros [b [=]]|]. intros [[ids Hids'] Hk].
    destruct Hr as [Hr|Hr]; [by destruct (Hr ids)|done].
Qed.

(** ** Rows of one statement differ *)

Lemma Get_props p k : Properties_Get p k = NewPropertyResult k (map_read (props p) k).
Proof. unfold Properties_Get, props. by destruct (Map p). Qed.

(** A text of the other bag that it does not delete is that of the merged bag. *)
Lemma Merge_keeps_string p q name v :
  name ∉ deleted q -> safePropertyValue_String (Properties_Get q name) = inl v ->
  safePropertyValue_String (Properties_Get (Properties_Merge_body p q) name) = inl v.
Proof.
  intros Hd. rewrite !Get_props. autorewrite with props. unfold map_read.
  destruct (props q !! name) as [x|] eqn:E; [|done].
  assert (filter (fun kv => kv.1 ∉ deleted q) (props q ∪ props p) !! name = Some x) as ->; [|done].
  apply map_lookup_filter_Some. split; [by apply lookup_union_Some_l|done].
Qed.

Lemma key_loop_merge p q names : forall key,
  Forall (fun name => name ∉ deleted q) names -> key_loop q names = inl key ->
  key_loop (Properties_Merge_body p q) names = inl key.
Proof.
  induction names as [|name names IH]; intros key Hd Hk; [done|]. apply Forall_cons in Hd as [Hn Hd]. cbn in *.
  destruct (safePropertyValue_String (Properties_Get q name)) as [v|] eqn:Ev; [|done].
  rewrite (Merge_keeps_string p q name v Hn Ev). cbn in *.
  destruct (key_loop q names) as [rest|]; [|done]. by rewrite (IH rest Hd eq_refl).
Qed.

(** A key is the texts of the properties, one after the other. *)
Definition text (p : Properties) (name : string) : string :=
  match map_read (props p) name with Str v => v | _ => "" end.

Lemma key_loop_texts p names : forall key, key_loop p names = inl key ->
  key = foldr (fun name rest => text p name +:+ rest) "" names /\
  Forall (fun name => map_read (props p) name = Str (text p name)) names.
Proof.
  induction names as [|name names IH]; intros key Hk; [by injection Hk as <-|]. cbn in Hk. rewrite Get_props in Hk.
  unfold safePropertyValue_String, safePropertyValue_getValue, safePropertyValue_IsNil in Hk. cbn in Hk.
  destruct (map_read (props p) name) as [] eqn:Ev; try discriminate Hk. cbn in Hk.
  destruct (key_loop p names) as [rest|]; [|done]. injection Hk as <-. destruct (IH rest eq_refl) as [-> Hall].
  match type of Ev with _ = Str ?v => assert (text p name = v) as Ht by (unfold text; by rewrite Ev) end.
  cbn. rewrite Ht. split; [done|]. constructor; [by rewrite Ht|done].
Qed.

Lemma key_loop_differ p q names k1 k2 :
  key_loop p names = inl k1 -> key_loop q names = inl k2 -> k1 <> k2 ->
  exists name, name ∈ names /\ map_read (props p) name <> map_read (props q) name.
Proof.
  intros [-> Hp]%key_loop_texts [-> Hq]%key_loop_texts Hne.
  destruct (decide (Exists (fun name => text p name <> text q name) names)) as [Hex|Hno].
  - apply Exists_exists in Hex as (name & Hname & Hdiff). exists name. split; [done|].
    rewrite Forall_forall in Hp, Hq. rewrite (Hp name Hname), (Hq name Hname). congruence.
  - destruct Hne. clear Hp Hq. induction names as [|name names IH]; [done|]. cbn.
    rewrite Exists_cons in Hno. f_equal; [|by apply IH; naive_solver].
    destruct (decide (text p name = text q name)); naive_solver.
Qed.

Definition identity_kept (u : NodeUpdate) (e : lists * Properties) : Prop :=
  Forall (fun name => name ∉ deleted e.2) (nu_IdentityProperties u).

Lemma merge_entries_key ids key es : forall e,
  identity_key e.2 ids = inl key ->
  Forall (fun e' => identity_key e'.2 ids = inl key /\ Forall (fun name => name ∉ deleted e'.2) ids) es ->
  identity_key (foldl merge_entry e es).2 ids = inl key.
Proof.
  induction es as [|e' es IH]; intros e He Hes; [done|]. apply Forall_cons in Hes as [[Hk Hd] Hes]. cbn. apply IH; [|done].
  unfold identity_key in *. cbn. apply key_loop_merge; [|done]. by rewrite (merge_sort_Permutation String.le).
Qed.

(** The merged bag of a key still has it. *)
Lemma merge_under_key updates es keys ids key e :
  Forall (fun u => nu_IdentityProperties u ≡ₚ ids) updates -> Forall3 keyed updates es keys -> Forall2 identity_kept updates es ->
  merge_under key (zip keys (prepare <$> es)) = Some e -> identity_key e.2 ids = inl key.
Proof.
  intros Hids Hk Hd Hm. unfold merge_under in Hm. set (l := filter _ _) in Hm.
  assert (Hall : Forall (fun e' => identity_key e'.2 ids = inl key /\ Forall (fun name => name ∉ deleted e'.2) ids) l.*2).
  { clear Hm. subst l. revert Hd. induction Hk as [|u e' k updates es keys Hu _ IH]; intros Hd; [constructor|].
    apply Forall_cons in Hids as [Hid Hids]. apply Forall2_cons in Hd as [Hde Hd]. cbn [fmap list_fmap zip zip_with].
    destruct (decide (k = key)) as [->|Hne]; [|by rewrite filter_cons_False by done; auto].
    rewrite filter_cons_True by done. constructor; [|by auto]. split.
    - cbn. rewrite <- Hu. by apply identity_key_order.
    - cbn. unfold identity_kept in Hde. by rewrite <- Hid. }
  destruct l.*2 as [|e0 es0]; [done|]. injection Hm as <-. apply Forall_cons in Hall as [[H0 _] Hall]. by apply merge_entries_key.
Qed.

(** [C26] No two rows of an upsert name the same node.  Let the nodes of the updates be
    different objects that are not nil, have property bags and no nil kind, and share
    no arrays of kinds, let all updates of the buffer have the same identity
    properties, each once, and let no update delete one of them.  Then the nodes that a
    validated batch holds under different keys differ in an identity property, so
    that the statement, whose conflict is decided by these, touches no row twice. *)
Theorem upsert_rows_distinct g h L updates es ids h' b k1 k2 u1 u2 :
  heap_ok h L -> NoDup (nu_Node <$> updates) -> Forall2 (fun u e => ready h L (nu_Node u) e) updates es ->
  Forall (fun u => NoDup (nu_IdentityProperties u)) updates ->
  Forall (fun u => nu_IdentityProperties u ≡ₚ ids) updates -> Forall2 identity_kept updates es ->
  ValidateNodeUpdateByBatch g updates h = Done (h', inl b) ->
  nb_Updates b !! k1 = Some u1 -> nb_Updates b !! k2 = Some u2 -> k1 <> k2 ->
  exists n1 n2 ps1 ps2 name, h_nodes h' !! su_Node u1 = Some n1 /\ h_nodes h' !! su_Node u2 = Some n2 /\
    node_Properties n1 = Some ps1 /\ node_Properties n2 = Some ps2 /\
    name ∈ ids /\ map_read (props ps1) name <> map_read (props ps2) name.
Proof.
  intros Hok Hnd Hes Hnds Hids Hkept Hrun Hu1 Hu2 Hne.
  destruct (add_node_updates_spec g h L updates es Hes Hnds h L NewNodeUpdateBatch ∅) as (h1 & r & E & Hr);
    [by apply batch_inv_start|constructor|].
  unfold ValidateNodeUpdateByBatch in Hrun. rewrite Hrun in E. injection E as <- <-.
  destruct Hr as [_ (keys & L' & Hkeys & Hinv)].
  assert (Hrow : forall k u, nb_Updates b !! k = Some u -> exists n ps, h_nodes h' !! su_Node u = Some n /\ node_Properties n = Some ps /\ identity_key ps ids = inl k).
  { intros k u Hu. pose proof (bi_contents _ _ _ _ _ _ _ Hinv k) as Hc. rewrite Hu, merge_updates_lookup in Hc.
    destruct (merge_under k _) as [e|] eqn:Em; [|by inversion Hc]. inversion Hc as [? ? [_ (n & Hn & Hps)]|]; subst.
    exists n, e.2. split_and!; [done|done|]. by eapply merge_under_key. }
  destruct (Hrow k1 u1 Hu1) as (n1 & ps1 & Hn1 & Hp1 & Hk1), (Hrow k2 u2 Hu2) as (n2 & ps2 & Hn2 & Hp2 & Hk2).
  destruct (key_loop_differ ps1 ps2 _ k1 k2 Hk1 Hk2 Hne) as (name & Hname & Hdiff).
  exists n1, n2, ps1, ps2, name. split_and!; try done. by rewrite (merge_sort_Permutation String.le) in Hname.
Qed.

(** ** The ends of relationships *)

Section relationships.
Context (g : nat -> nat -> nat).

(** [Add_spec], from a call that succeeded. *)
Lemma Add_success h0 L0 h L b S update todo e h' b' f :
  batch_inv h0 L0 h L (nb_Updates b) S (nu_Node update :: todo) -> ready h0 L0 (nu_Node update) e ->
  NodeUpdateBatch_Add g b update h = Done (h', inl (b', f)) ->
  exists key L' x, keyed update e key /\
    batch_inv h0 L0 h' L' (nb_Updates b') (merge_update S (key, prepare e)) todo /\
    nb_Updates b' !! key = Some x /\ f = su_IDFuture x /\ nb_Updates b ⊆ nb_Updates b' /\
    added_cells b h (nu_Node update) key e h' (nb_Updates b').
Proof using Type.
  intros Hi Hu Hrun. destruct (mixes (nb_IdentityProperties b) (nu_IdentityProperties update)) eqn:Hmix.
  { unfold NodeUpdateBatch_Add, mbind, M_bind in Hrun. by rewrite Hmix in Hrun. }
  destruct (NodeUpdate_Key e.2 (nu_IdentityProperties update)) as [key|err] eqn:Hkey.
  - destruct (Add_spec g h0 L0 h L b S update todo e key Hi Hu Hmix Hkey) as (h1 & L1 & U1 & x & E1 & Hi1 & Hx & Hsub & Hcells).
    rewrite E1 in Hrun. injection Hrun as <- <- <-. by exists key, L1, x.
  - destruct Hu as (_ & _ & n & Hn & Hps).
    assert (Hn' : h_nodes h !! nu_Node update = Some n) by (rewrite <- Hn; apply (bi_same _ _ _ _ _ _ _ Hi); set_solver).
    unfold NodeUpdateBatch_Add, mbind, M_bind in Hrun. by rewrite Hmix, (node_key_fails _ _ _ _ _ err Hn' Hps Hkey) in Hrun.
Qed.

(** Relationships are other cells than nodes. *)
Lemma batch_inv_rels h0 L0 h L U S todo R :
  batch_inv h0 L0 h L U S todo -> batch_inv h0 L0 (mkHeap (h_mem h) (h_nodes h) R (h_futures h)) L U S todo.
Proof using Type. intros [Hok ? ? ? ? ? ?]. split; try done. by apply (heap_ok_ext h). Qed.

(** The two nodes of every update, in order. *)
Definition end_updates (updates : list RelationshipUpdate) : list NodeUpdate :=
  updates ≫= fun u => [ru_Start u; ru_End u].

(** A cell has a bag with an identity key. *)
Definition shows_key (h : heap) (p : nat) (names : list string) (key : string) : Prop :=
  exists n ps, h_nodes h !! p = Some n /\ node_Properties n = Some ps /\ NodeUpdate_Key ps names = inl key.

Lemma shows_key_eval h p names key : shows_key h p names key -> node_key p names h = Done (h, inl key).
Proof using Type. intros (n & ps & Hn & Hps & Hk). by eapply node_key_eval. Qed.

(** A start keeps its key when the end of its relationship is added, which may be
    merged into it. *)
Lemma start_keeps_key h0 L0 h L b S update todo e key h' L' b' S' p names k x :
  batch_inv h0 L0 h L (nb_Updates b) S (nu_Node update :: todo) ->
  batch_inv h0 L0 h' L' (nb_Updates b') S' todo ->
  added_cells b h (nu_Node update) key e h' (nb_Updates b') -> keyed update e key ->
  S' = merge_update S (key, prepare e) -> nb_Updates b ⊆ nb_Updates b' ->
  p <> nu_Node update -> shows_key h p names k -> (forall y, nb_Updates b !! key = Some y -> su_Node y = p -> k = key) ->
  nu_IdentityProperties update ≡ₚ names -> identity_kept update e ->
  nb_Updates b' !! key = Some x -> shows_key h' p names k.
Proof using Type.
  intros Hi Hi' Hcells Hkey -> Hsub Hp Hk Hsame Hperm Hkept Hx.
  assert (Hex : (exists y, nb_Updates b !! key = Some y /\ su_Node y = p) \/ forall y, nb_Updates b !! key = Some y -> su_Node y <> p).
  { destruct (nb_Updates b !! key) as [y|]; [|by right]. destruct (decide (su_Node y = p)); [left; by exists y|right; by intros ? [= <-]]. }
  destruct Hex as [(y & Hy & Hyp)|Hno].
  - assert (k = key) as -> by (by eapply Hsame).
    assert (x = y) as -> by (pose proof (lookup_weaken _ _ _ _ Hy Hsub); congruence).
    pose proof (bi_contents _ _ _ _ _ _ _ Hi key) as Hc. pose proof (bi_contents _ _ _ _ _ _ _ Hi' key) as Hc'.
    unfold merge_update in Hc'. cbn [fst snd] in Hc'. rewrite Hy in Hc. rewrite Hx in Hc'.
    destruct (S !! key) as [[l ps]|] eqn:ES; [|by inversion Hc]. rewrite lookup_insert_eq in Hc'.
    inversion Hc' as [? ? [_ (n & Hn & Hps)]|]; subst. exists n, (Properties_Merge_body ps e.2). split_and!; [done|done|].
    unfold NodeUpdate_Key. rewrite <- (identity_key_order _ _ _ Hperm). unfold keyed, NodeUpdate_Key in Hkey.
    unfold identity_key in *. apply key_loop_merge; [|done]. unfold identity_kept in Hkept.
    by rewrite (merge_sort_Permutation String.le).
  - destruct Hk as (n & ps & Hn & Hps & Hk). exists n, ps. split_and!; [|done|done]. rewrite <- Hn.
    by apply (ac_frame _ _ _ _ _ _ _ Hcells).
Qed.

(** The key of a relationship is read from its cell and the cells of its ends. *)
Lemma relationship_key_inv update h h' key :
  relationship_key update h = Done (h', inl key) -> h' = h /\
  exists r kind startKey endKey own, h_rels h !! ru_Relationship update = Some r /\ Kind_String (rel_Kind r) = Done kind /\
    node_key (nu_Node (ru_Start update)) (nu_IdentityProperties (ru_Start update)) h = Done (h, inl startKey) /\
    node_key (nu_Node (ru_End update)) (nu_IdentityProperties (ru_End update)) h = Done (h, inl endKey) /\
    property_key (rel_Properties r) (ru_IdentityProperties update) = Done (inl own) /\
    key = kind +:+ startKey +:+ own +:+ endKey.
Proof using Type.
  assert (Hnode : forall p names h h' key, node_key p names h = Done (h', inl key) -> h' = h).
  { intros p names h1 h2 k (h3 & n & E1 & (h4 & r & E2 & E3)%M_bind_inv)%M_bind_inv.
    unfold node_at in E1. destruct (h_nodes h1 !! p); [|done]. injection E1 as <- <-.
    unfold of_outcome in E2. destruct (property_key _ _) as [res| |]; [|done..]. injection E2 as <- <-.
    unfold of_result in E3. destruct res; [|done]. by injection E3 as <- <-. }
  intros (h1 & r & E1 & (h2 & k & E2 & (h3 & ks & E3 & (h4 & ke & E4 & (h5 & own & E5 & (h6 & o & E6 & E7)%M_bind_inv)%M_bind_inv)%M_bind_inv)%M_bind_inv)%M_bind_inv)%M_bind_inv.
  unfold rel_at in E1. destruct (h_rels h !! _) as [r'|] eqn:Er; [|done]. injection E1 as <- <-.
  unfold of_outcome in E2. destruct (Kind_String _) as [kind| |] eqn:Ek; [|done..]. injection E2 as <- <-.
  pose proof (Hnode _ _ _ _ _ E3) as ->. pose proof (Hnode _ _ _ _ _ E4) as ->.
  unfold of_outcome in E5. destruct (property_key _ _) as [res| |] eqn:Ep; [|done..]. injection E5 as <- <-.
  unfold of_result in E6. destruct res; [|done]. injection E6 as <- <-. injection E7 as <- <-. split; [done|].
  by exists r', kind, ks, ke, s.
Qed.

Lemma relationship_key_same update h h0 key :
  relationship_key update h = Done (h, inl key) -> h_rels h !! ru_Relationship update = h_rels h0 !! ru_Relationship update ->
  (forall u k, u = ru_Start update \/ u = ru_End update ->
     node_key (nu_Node u) (nu_IdentityProperties u) h = Done (h, inl k) ->
     node_key (nu_Node u) (nu_IdentityProperties u) h0 = Done (h0, inl k)) ->
  relationship_key update h0 = Done (h0, inl key).
Proof using Type.
  intros (_ & r & kind & ks & ke & own & Hr & Hk & Hs & He & Ho & ->)%relationship_key_inv Hsame Hends.
  unfold relationship_key, mbind, M_bind, rel_at, of_outcome. rewrite <- Hsame, Hr, Hk.
  rewrite (Hends _ _ (or_introl eq_refl) Hs), (Hends _ _ (or_intror eq_refl) He), Ho. done.
Qed.

(** The key of an update in the heap the flush starts from. *)
Definition rel_key (h : heap) (u : RelationshipUpdate) : option string :=
  match relationship_key u h with Done (_, inl key) => Some key | _ => None end.

Definition under (h : heap) (key : string) (updates : list RelationshipUpdate) : list RelationshipUpdate :=
  filter (fun u => rel_key h u = Some key) updates.

(** The bag of the relationship of an update. *)
Definition rel_bag (h : heap) (u : RelationshipUpdate) (p : Properties) : Prop :=
  exists r, h_rels h !! ru_Relationship u = Some r /\ rel_Properties r = Some p.

(** The future of an end is that of the node kept under the key of the end. *)
Definition end_of (h0 : heap) (U : gmap string sqlNodeUpdate) (u : NodeUpdate) (f : nat) : Prop :=
  exists n ps key x, h_nodes h0 !! nu_Node u = Some n /\ node_Properties n = Some ps /\
    NodeUpdate_Key ps (nu_IdentityProperties u) = inl key /\ U !! key = Some x /\ f = su_IDFuture x.

(** An entry holds the first update under its key, merged with the later ones. *)
Definition holds_relationship (h0 : heap) (U : gmap string sqlNodeUpdate) (R : gmap nat Relationship) (x : sqlRelationshipUpdate)
    (updates : list RelationshipUpdate) : Prop :=
  exists u us r p bags, updates = u :: us /\ sr_Relationship x = ru_Relationship u /\
    end_of h0 U (ru_Start u) (sr_StartID x) /\ end_of h0 U (ru_End u) (sr_EndID x) /\
    h_rels h0 !! ru_Relationship u = Some r /\ rel_Properties r = Some p /\ Forall2 (rel_bag h0) us bags /\
    R !! ru_Relationship u = Some (mkRelationship (rel_ID r) (rel_StartID r) (rel_EndID r) (rel_Kind r)
                                     (Some (foldl Properties_Merge_body p bags))).

(** The state between two updates: those in [before] have been added, those in [todo]
    have their cells as they were. *)
Record rel_inv (h0 : heap) (U : gmap string sqlNodeUpdate) (R : gmap nat Relationship) (M : gmap string sqlRelationshipUpdate)
    (before todo : list RelationshipUpdate) : Prop := {
  ri_entries key x : M !! key = Some x -> holds_relationship h0 U R x (under h0 key before);
  ri_keys u : u ∈ before -> exists key, rel_key h0 u = Some key /\ is_Some (M !! key);
  ri_todo u : u ∈ todo -> R !! ru_Relationship u = h_rels h0 !! ru_Relationship u;
}.

Lemma end_of_mono h0 U U' u f : U ⊆ U' -> end_of h0 U u f -> end_of h0 U' u f.
Proof using Type. intros Hs (n & ps & key & x & ? & ? & ? & Hx & ?). exists n, ps, key, x. split_and!; try done. by eapply lookup_weaken. Qed.

Lemma under_snoc h key us u : under h key (us ++ [u]) = under h key us ++ (if decide (rel_key h u = Some key) then [u] else []).
Proof using Type. unfold under. rewrite filter_app, filter_cons, filter_nil. done. Qed.

Lemma under_elem h key us u : u ∈ under h key us -> u ∈ us.
Proof using Type. by intros [_ ?]%list_elem_of_filter. Qed.

(** The first update under a key. *)
Lemma rel_inv_new h0 U U' R M before u todo key x p :
  rel_inv h0 U R M before (u :: todo) -> U ⊆ U' -> M !! key = None -> rel_key h0 u = Some key ->
  sr_Relationship x = ru_Relationship u -> end_of h0 U' (ru_Start u) (sr_StartID x) -> end_of h0 U' (ru_End u) (sr_EndID x) ->
  rel_bag h0 u p -> rel_inv h0 U' R (<[key := x]> M) (before ++ [u]) todo.
Proof using Type.
  intros [He Hk Ht] HU HM Hkey Hx Hs Hd (r & Hr & Hp). split.
  - intros key' x' [[<- <-]|[Hne Hx']]%lookup_insert_Some; rewrite under_snoc.
    + rewrite decide_True by done. assert (Hnil : under h0 key before = []).
      { apply elem_of_nil_inv. intros v [Hv Hin]%list_elem_of_filter. destruct (Hk v Hin) as (k & Hvk & [y Hy]). congruence. }
      rewrite Hnil. exists u, [], r, p, []. split_and!; try done. cbn. rewrite (Ht u) by set_solver. rewrite Hr. destruct r. cbn in *. by rewrite Hp.
    + rewrite decide_False by congruence. rewrite app_nil_r.
      destruct (He key' x' Hx') as (v & vs & rv & pv & bags & ? & ? & H1 & H2 & ? & ? & ? & ?). exists v, vs, rv, pv, bags.
      split_and!; try done; by eapply end_of_mono.
  - intros v [Hv| ->%list_elem_of_singleton]%elem_of_app; [|exists key; rewrite lookup_insert_eq; by split].
    destruct (Hk v Hv) as (k & Hvk & [y Hy]). exists k. split; [done|]. rewrite lookup_insert_ne by congruence. by eexists.
  - intros v Hv. apply Ht. by right.
Qed.

(** A later update under a key is merged into the first. *)
Lemma rel_inv_merge h0 U U' R M before u todo key x h h' p :
  rel_inv h0 U R M before (u :: todo) -> U ⊆ U' -> M !! key = Some x -> rel_key h0 u = Some key ->
  NoDup (ru_Relationship <$> before ++ u :: todo) -> h_rels h = R -> rel_bag h0 u p ->
  merge_relationships (sr_Relationship x) (ru_Relationship u) h = Done (h', inl tt) ->
  rel_inv h0 U' (h_rels h') M (before ++ [u]) todo.
Proof using Type.
  intros [He Hk Ht] HU HM Hkey Hnd <- (r & Hr & Hp) Hrun.
  rewrite fmap_app, fmap_cons in Hnd. apply NoDup_app in Hnd as (Hndb & Hdisj & Hndt). apply NoDup_cons in Hndt as [Hut _].
  destruct (He key x HM) as (v & vs & rv & pv & bags & Hv & Hxv & H1 & H2 & Hrv & Hpv & Hbags & Hcell).
  assert (Hvb : forall w k, w ∈ under h0 k before -> ru_Relationship w ∈ ru_Relationship <$> before).
  { intros w k Hw%under_elem. by apply list_elem_of_fmap_2. }
  assert (Hvin : v ∈ under h0 key before) by (rewrite Hv; by left).
  assert (Hvu : ru_Relationship v <> ru_Relationship u).
  { intros Heq. apply (Hdisj (ru_Relationship v)); [by eapply Hvb|]. rewrite Heq. by left. }
  assert (Hrels : h_rels h' = <[ru_Relationship v := mkRelationship (rel_ID rv) (rel_StartID rv) (rel_EndID rv) (rel_Kind rv)
      (Some (foldl Properties_Merge_body pv (bags ++ [p])))]> (h_rels h)).
  { revert Hrun. unfold merge_relationships. rewrite Hxv, Hcell, (Ht u) by set_solver. rewrite Hr. unfold merge_properties.
    rewrite decide_False by done. cbn. rewrite Hp. cbn. intros [= <-]. cbn. by rewrite foldl_app. }
  split.
  - intros key' x' Hx'. rewrite under_snoc. destruct (decide (key' = key)) as [->|Hne].
    + rewrite decide_True by done. assert (x' = x) as -> by congruence. rewrite Hv.
      exists v, (vs ++ [u]), rv, pv, (bags ++ [p]). split_and!; try done; [by eapply end_of_mono..| |].
      * apply Forall2_app; [done|]. constructor; [|constructor]. by exists r.
      * by rewrite Hrels, lookup_insert_eq.
    + rewrite decide_False by congruence. rewrite app_nil_r.
      destruct (He key' x' Hx') as (w & ws & rw & pw & bagsw & Hw & ? & Hw1 & Hw2 & ? & ? & ? & Hcw). exists w, ws, rw, pw, bagsw.
      split_and!; try done; [by eapply end_of_mono..|]. rewrite Hrels, lookup_insert_ne; [done|]. intros Heq.
      assert (Hwin : w ∈ under h0 key' before) by (rewrite Hw; by left).
      assert (w = v) as ->.
      { apply list_elem_of_filter in Hwin as [_ [i Hi]%list_elem_of_lookup_1]. apply list_elem_of_filter in Hvin as [_ [j Hj]%list_elem_of_lookup_1].
        assert (i = j) as ->; [|congruence]. apply (NoDup_lookup _ _ _ (ru_Relationship v) Hndb); rewrite list_lookup_fmap; [rewrite Hi; cbn; by rewrite Heq|by rewrite Hj]. }
      apply list_elem_of_filter in Hwin as [Hk1 _]. apply list_elem_of_filter in Hvin as [Hk2 _]. congruence.
  - intros w [Hw| ->%list_elem_of_singleton]%elem_of_app; [by apply Hk|]. exists key. by rewrite HM.
  - intros w Hw. rewrite Hrels, lookup_insert_ne; [apply Ht; by right|]. intros Heq. apply (Hdisj (ru_Relationship v)); [by eapply Hvb|].
    rewrite Heq. right. by apply list_elem_of_fmap_2.
Qed.

Lemma merge_relationships_heap p q h h' :
  merge_relationships p q h = Done (h', inl tt) -> exists rels, h' = mkHeap (h_mem h) (h_nodes h) rels (h_futures h).
Proof using Type.
  unfold merge_relationships. destruct (h_rels h !! p) as [s|]; [|done]. destruct (h_rels h !! q) as [o|]; [|done].
  destruct (merge_properties _ _ _ _) as [ps| |]; [|done..]. intros [= <-]. by eexists.
Qed.

(** What the ends must be: they name the same identity properties and delete none. *)
Definition ends_named (ids : list string) (updates : list RelationshipUpdate) (es : list (lists * Properties)) : Prop :=
  Forall (fun u => nu_IdentityProperties u ≡ₚ ids) (end_updates updates) /\ Forall2 identity_kept (end_updates updates) es.

(** What a buffer of relationship updates is validated to. *)
Lemma add_relationship_updates_spec h0 L0 ids updates : forall es before done_keys h L b h' b',
  Forall2 (fun u e => ready h0 L0 (nu_Node u) e) (end_updates updates) es -> ends_named ids updates es ->
  NoDup (ru_Relationship <$> before ++ updates) -> Forall (fun u => exists p, rel_bag h0 u p) updates ->
  batch_inv h0 L0 h L (nb_Updates (rb_NodeUpdates b)) (foldl merge_update ∅ done_keys) (nu_Node <$> end_updates updates) ->
  rel_inv h0 (nb_Updates (rb_NodeUpdates b)) (h_rels h) (rb_Updates b) before updates ->
  add_relationship_updates g b updates h = Done (h', inl b') ->
  exists keys L', Forall3 keyed (end_updates updates) es keys /\
    batch_inv h0 L0 h' L' (nb_Updates (rb_NodeUpdates b')) (foldl merge_update ∅ (done_keys ++ zip keys (prepare <$> es))) [] /\
    rel_inv h0 (nb_Updates (rb_NodeUpdates b')) (h_rels h') (rb_Updates b') (before ++ updates) [].
Proof using Type.
  induction updates as [|u updates IH]; intros es before done_keys h L b h' b' Hes Hnames Hnd Hbags Hi Hr Hrun.
  { injection Hrun as <- <-. inversion Hes; subst. exists [], L. rewrite !app_nil_r. split; [constructor|done]. }
  cbn [end_updates mbind list_bind app] in Hes. inversion Hes as [|? e1 ? ? Hu1 Hes1]; subst.
  inversion Hes1 as [|? e2 ? es' Hu2 Hes2]; subst.
  destruct Hnames as [Hids Hkept]. cbn [end_updates mbind list_bind app] in Hids, Hkept.
  apply Forall_cons in Hids as [Hid1 [Hid2 Hids]%Forall_cons]. apply Forall2_cons in Hkept as [Hk1 [Hk2 Hkept]%Forall2_cons].
  apply Forall_cons in Hbags as [[p Hbag] Hbags].
  apply M_bind_inv in Hrun as (h1 & b1 & Hadd & Hrun).
  unfold RelationshipUpdateBatch_Add in Hadd. destruct (mixes _ _); [done|].
  apply M_bind_inv in Hadd as (h2 & [nodes1 f1] & E1 & Hadd). apply M_bind_inv in Hadd as (h3 & [nodes2 f2] & E2 & Hadd).
  apply M_bind_inv in Hadd as (h4 & key & E3 & Hadd). pose proof (relationship_key_inv _ _ _ _ E3) as [-> _].
  destruct (Add_success _ _ _ _ _ _ _ _ _ _ _ _ Hi Hu1 E1) as (k1 & L1 & x1 & Hkey1 & Hi1 & Hx1 & -> & Hs1 & Hc1).
  destruct (Add_success _ _ _ _ _ _ _ _ _ _ _ _ Hi1 Hu2 E2) as (k2 & L2 & x2 & Hkey2 & Hi2 & Hx2 & -> & Hs2 & Hc2).
  assert (Hends : end_of h0 (nb_Updates nodes2) (ru_Start u) (su_IDFuture x1) /\ end_of h0 (nb_Updates nodes2) (ru_End u) (su_IDFuture x2)).
  { destruct Hu1 as (_ & _ & n1 & Hn1 & Hp1), Hu2 as (_ & _ & n2 & Hn2 & Hp2). split.
    - exists n1, e1.2, k1, x1. split_and!; try done. by eapply lookup_weaken.
    - exists n2, e2.2, k2, x2. done. }
  assert (Hrels : h_rels h3 = h_rels h) by (rewrite (ac_rels _ _ _ _ _ _ _ Hc2); apply (ac_rels _ _ _ _ _ _ _ Hc1)).
  assert (Hstart : shows_key h3 (nu_Node (ru_Start u)) (nu_IdentityProperties (ru_Start u)) k1).
  { destruct (ac_own _ _ _ _ _ _ _ Hc1) as (n1 & Hn1 & Hp1).
    eapply (start_keeps_key _ _ _ _ nodes1 _ _ _ _ _ h3 _ nodes2); [exact Hi1|exact Hi2|exact Hc2|exact Hkey2|done|done| | | | |exact Hk2|exact Hx2].
    - pose proof (bi_todo _ _ _ _ _ _ _ Hi) as Htodo. apply NoDup_cons in Htodo as [Hn _]. cbn in Hn. set_solver.
    - exists n1, e1.2. done.
    - intros y Hy Hyp. symmetry. by eapply (ac_key _ _ _ _ _ _ _ Hc1).
    - by rewrite Hid2. }
  assert (Hend : shows_key h3 (nu_Node (ru_End u)) (nu_IdentityProperties (ru_End u)) k2).
  { destruct (ac_own _ _ _ _ _ _ _ Hc2) as (n2 & Hn2 & Hp2). by exists n2, e2.2. }
  assert (Hkey : rel_key h0 u = Some key).
  { unfold rel_key. rewrite (relationship_key_same u h3 h0 key E3); [done| |].
    - rewrite Hrels. apply (ri_todo _ _ _ _ _ _ Hr). by left.
    - destruct Hu1 as (_ & _ & n1 & Hn1 & Hp1), Hu2 as (_ & _ & n2 & Hn2 & Hp2). intros v k [-> | ->] Hk.
      + rewrite (shows_key_eval _ _ _ _ Hstart) in Hk. injection Hk as <-. by eapply node_key_eval.
      + rewrite (shows_key_eval _ _ _ _ Hend) in Hk. injection Hk as <-. by eapply node_key_eval. }
  assert (HU : nb_Updates (rb_NodeUpdates b) ⊆ nb_Updates nodes2) by (by etrans).
  assert (Hnext : exists rels, h1 = mkHeap (h_mem h3) (h_nodes h3) rels (h_futures h3) /\ rb_NodeUpdates b1 = nodes2 /\
    rel_inv h0 (nb_Updates nodes2) rels (rb_Updates b1) (before ++ [u]) updates).
  { destruct (rb_Updates b !! key) as [x|] eqn:Ex.
    - apply M_bind_inv in Hadd as (h4 & [] & Hm & [= <- <-]). pose proof (merge_relationships_heap _ _ _ _ Hm) as [rels ->].
      exists rels. split_and!; [done|done|]. cbn [rb_Updates].
      change rels with (h_rels (mkHeap (h_mem h3) (h_nodes h3) rels (h_futures h3))).
      by eapply (rel_inv_merge h0 _ _ (h_rels h)).
    - injection Hadd as <- <-. exists (h_rels h3). split_and!; [by destruct h3|done|]. cbn [rb_Updates]. rewrite Hrels.
      eapply rel_inv_new; [exact Hr|exact HU|exact Ex|exact Hkey|done|apply Hends|apply Hends|exact Hbag]. }
  destruct Hnext as (rels & -> & Hnodes & Hr1).
  destruct (IH es' (before ++ [u]) (done_keys ++ [(k1, prepare e1); (k2, prepare e2)]) (mkHeap (h_mem h3) (h_nodes h3) rels (h_futures h3)) L2 b1 h' b' Hes2) as (keys & L' & Hkeys & Hinv & Hrel);
    [by split|by rewrite <- app_assoc|done| |by rewrite Hnodes|done|].
  { rewrite Hnodes, foldl_app. by apply batch_inv_rels. }
  exists (k1 :: k2 :: keys), L'. rewrite <- app_assoc in Hrel, Hinv. split_and!; [by repeat constructor|done|done].
Qed.
End relationships.

(** ** Filling the futures *)

Lemma fill_futures_spec (answer : list (Z + error)) : forall (futures : list nat) (values values' : list Z),
  NoDup futures -> Forall (fun f => f < length values) futures ->
  fill_futures answer futures values = Done (values', None) ->
  exists ids, answer = inl <$> ids /\ length ids <= length futures /\
    (forall j f, futures !! j = Some f -> values' !! f = match ids !! j with Some id => Some id | None => values !! f end) /\
    (forall f, f ∉ futures -> values' !! f = values !! f).
Proof.
  induction answer as [|row answer IH]; intros futures values values' Hnd Hlt Hrun.
  - injection Hrun as <-. exists []. split_and!; [done|cbn; lia|done|done].
  - destruct futures as [|f futures]; [done|]. destruct row as [id|e]; [|done]. cbn in Hrun.
    apply NoDup_cons in Hnd as [Hf Hnd]. apply Forall_cons in Hlt as [Hlf Hlt].
    destruct (IH futures (<[f := id]> values) values' Hnd) as (ids & -> & Hlen & Hin & Hout); [by rewrite length_insert|done|].
    exists (id :: ids). split_and!; [done|cbn; lia| |].
    + intros [|j] f'; cbn.
      * intros [= <-]. rewrite Hout by done. by apply list_lookup_insert_eq.
      * intros Hj. rewrite (Hin j f' Hj). destruct (ids !! j); [done|]. apply list_lookup_insert_ne.
        intros ->. apply Hf. by eapply list_elem_of_lookup_2.
    + intros f' [Hne Hf']%not_elem_of_cons. rewrite Hout by done. by apply list_lookup_insert_ne.
Qed.

Section columns.
Context {T DB J : Type} `{HD : Database DB} `{HR : MapRange}.
Context (g : nat -> nat -> nat) (PropertiesToJSONB : option Properties -> J + error) (targetSchema : option GraphSchema).
Context (Exec : command J -> DB -> DB * option error).
Context (Query : command J -> DB -> DB * (list (Z + error) * option error)).
Notation log := (list (executed T DB J)).

Lemma in_world_inv {A} (m : M (SchemaManager T * DB) A) (x : log * heap) w st a :
  in_world m (x, w) = Done (st, inl a) -> exists w', st = (x, w') /\ m w = Done (w', inl a).
Proof using Type. cbn. destruct (m w) as [[w' r]| |]; [|done..]. intros [= <- ->]. by exists w'. Qed.

(** The columns of an upsert of nodes, one row for each node of the batch. *)
Lemma upsert_columns_inv (l : list (string * sqlNodeUpdate)) :
  forall (s p : NodeUpsertParameters (J := J)) (x : log * heap) (m : SchemaManager T) db st,
  NodeUpsertParameters_AppendAll PropertiesToJSONB s l (x, (m, db)) = Done (st, inl p) ->
  st.1 = x /\ kindsByID m ⊆ kindsByID st.2.1 /\ nup_IDFutures p = nup_IDFutures s ++ (su_IDFuture <$> l.*2) /\
  exists texts js, nup_Properties p = nup_Properties s ++ js /\ nup_KindIDSlices p = nup_KindIDSlices s ++ texts /\
    Forall3 (fun kx t j => exists n, h_nodes x.2 !! su_Node kx.2 = Some n /\ PropertiesToJSONB (node_Properties n) = inl j /\
      kinds_text st.2.1 (view (h_mem x.2) (node_Kinds n)) t) l texts js.
Proof using Type.
  induction l as [|[k y] l IH]; intros s p [lg h] m db st Hrun.
  { injection Hrun as <- <-. cbn. rewrite app_nil_r. split_and!; [done|done|done|]. exists [], []. rewrite !app_nil_r. split_and!; [done|done|constructor]. }
  apply M_bind_inv in Hrun as (st1 & s1 & Happ & Hrun). unfold NodeUpsertParameters_Append in Happ.
  destruct (h_nodes h !! su_Node y) as [n|] eqn:Hn; [|done].
  apply in_world_inv in Happ as (w1 & -> & ([m2 db2] & kinds & Hk & (w3 & j & [Hj ->]%jsonb_inv & [= <- <-])%M_bind_inv)%M_bind_inv).
  apply AssertKinds_text in Hk as [Hsub Ht].
  destruct (IH _ _ _ _ _ _ Hrun) as (Hh & Hsub' & Hf & texts & js & Hjs & Hts & Hall). cbn in *.
  split_and!; [done|by etrans|by rewrite Hf, <- app_assoc|].
  exists (Int2ArrayEncoder_Encode kinds :: texts), (j :: js). split_and!; [by rewrite Hjs, <- app_assoc|by rewrite Hts, <- app_assoc|].
  constructor; [|done]. exists n. split_and!; [done|done|by eapply kinds_text_mono].
Qed.

Lemma relationship_columns_inv (l : list (string * sqlRelationshipUpdate)) :
  forall (s p : RelationshipUpdateByParameters (J := J)) (x : log * heap) (m : SchemaManager T) db st,
  RelationshipUpdateByParameters_AppendAll PropertiesToJSONB s l (x, (m, db)) = Done (st, inl p) ->
  st.1 = x /\ kindsByID m ⊆ kindsByID st.2.1 /\
  rup_StartIDs p = rup_StartIDs s ++ ((fun kx => future x.2 (sr_StartID kx.2)) <$> l) /\
  rup_EndIDs p = rup_EndIDs s ++ ((fun kx => future x.2 (sr_EndID kx.2)) <$> l) /\
  exists ids js, rup_KindIDs p = rup_KindIDs s ++ ids /\ rup_Properties p = rup_Properties s ++ js /\
    Forall3 (fun kx id j => exists r, h_rels x.2 !! sr_Relationship kx.2 = Some r /\
      kindsByID st.2.1 !! rel_Kind r = Some id /\ PropertiesToJSONB (rel_Properties r) = inl j) l ids js.
Proof using Type.
  induction l as [|[k y] l IH]; intros s p [lg h] m db st Hrun.
  { injection Hrun as <- <-. cbn. rewrite !app_nil_r. split_and!; [done..|]. exists [], []. rewrite !app_nil_r. split_and!; [done|done|constructor]. }
  apply M_bind_inv in Hrun as (st1 & s1 & Happ & Hrun). unfold RelationshipUpdateByParameters_Append in Happ.
  destruct (h_rels h !! sr_Relationship y) as [r|] eqn:Hn; [|done].
  apply in_world_inv in Happ as (w1 & -> & ([m2 db2] & kinds & Hk & (w3 & j & [Hj ->]%jsonb_inv & [= <- <-])%M_bind_inv)%M_bind_inv).
  apply AssertKinds_maps in Hk as [Hsub Hid].
  apply Forall2_cons_inv_l in Hid as (id & ids0 & Hid & Hnil & ->). apply Forall2_nil_inv_l in Hnil as ->.
  destruct (IH _ _ _ _ _ _ Hrun) as (Hh & Hsub' & Hs & He & ids & js & Hids & Hjs & Hall). cbn in *.
  split_and!; [done|by etrans|by rewrite Hs, <- app_assoc|by rewrite He, <- app_assoc|].
  exists (id :: ids), (j :: js). split_and!; [by rewrite Hids, <- app_assoc|by rewrite Hjs, <- app_assoc|].
  constructor; [|done]. exists r. split_and!; [done|by eapply lookup_weaken|done].
Qed.

Lemma range_lookup {A} (m : gmap string A) k x : m !! k = Some x <-> exists j, range m !! j = Some (k, x).
Proof using Type.
  rewrite <- elem_of_map_to_list, <- (range_perm m). apply list_elem_of_lookup.
Qed.

Lemma range_entries_NoDup {A} (m : gmap string A) : NoDup (range m).
Proof using Type. rewrite (range_perm m). apply NoDup_map_to_list. Qed.

Lemma futures_NoDup h0 L0 h L U S todo : batch_inv h0 L0 h L U S todo -> NoDup (su_IDFuture <$> (range U).*2).
Proof using Type.
  intros Hi. apply NoDup_alt. intros i j f. rewrite !list_lookup_fmap.
  destruct (range U !! i) as [[k1 x1]|] eqn:E1, (range U !! j) as [[k2 x2]|] eqn:E2; try done. cbn. intros [= H1] [= H2].
  assert (Hx1 : U !! k1 = Some x1) by (apply range_lookup; by eexists).
  assert (Hx2 : U !! k2 = Some x2) by (apply range_lookup; by eexists).
  assert (k1 = k2) as -> by (eapply (bi_inj _ _ _ _ _ _ _ Hi); [exact Hx1|exact Hx2|right; congruence]).
  rewrite Hx1 in Hx2. injection Hx2 as <-. exact (NoDup_lookup _ _ _ _ (range_entries_NoDup U) E1 E2).
Qed.

(** A lookup in three columns. *)
Lemma Forall3_lookup {A B C} (P : A -> B -> C -> Prop) l1 l2 l3 i a :
  Forall3 P l1 l2 l3 -> l1 !! i = Some a -> exists b c, l2 !! i = Some b /\ l3 !! i = Some c /\ P a b c.
Proof using Type.
  intros Hall. revert i. induction Hall as [|x y z l1 l2 l3 HP _ IH]; intros [|i]; cbn; [done|done| |apply IH].
  intros [= <-]. by exists y, z.
Qed.

(** The row of an upsert of nodes that holds the node kept under a key: the kinds and
    the bag of the entry. *)
Definition node_row_holds (m : SchemaManager T) (rows : node_rows J) (j : nat) (e : lists * Properties) : Prop :=
  exists t js, np_KindIDSlices rows !! j = Some t /\ kinds_text m e.1.1.1 t /\
    np_Properties rows !! j = Some js /\ PropertiesToJSONB (Some e.2) = inl js.

(** The flush of the nodes: the future of a key is the identifier of its row. *)
Lemma flush_nodes_inv h0 L0 lg lg' h L b S (w w' : SchemaManager T * DB) h' :
  batch_inv h0 L0 h L (nb_Updates b) S [] ->
  flushNodeUpsertBatch PropertiesToJSONB targetSchema Query b ((lg, h), w) = Done (((lg', h'), w'), inl tt) ->
  h_rels h' = h_rels h /\ exists m db text rows ids,
    lg' = lg ++ [mkExecuted m db (UpsertNodes text rows) (inl <$> ids)] /\
    forall key x e, nb_Updates b !! key = Some x -> S !! key = Some e -> exists j,
      node_row_holds m rows j e /\ future h' (su_IDFuture x) = default 0%Z (ids !! j).
Proof using Type.
  destruct w as [m0 db0]. intros Hi Hrun. apply M_bind_inv in Hrun as ([x1 [m1 db1]] & p & Hcols & Hrun).
  apply upsert_columns_inv in Hcols as (Hh & _ & Hf & texts & js & Hjs & Hts & Hall).
  cbn [fst snd nup_IDFutures nup_KindIDSlices nup_Properties app] in *. subst x1.
  apply M_bind_inv in Hrun as (st2 & target & ([m2 db2] & -> & Ht)%in_world_inv & Hrun). apply getTargetGraph_kinds in Ht.
  apply M_bind_inv in Hrun as (st3 & [answer rowsErr] & Hq & Hrun). unfold query in Hq.
  destruct (Query _ db2) as [db3 [answer' [e'|]]] eqn:Eup; injection Hq as <- <- <-;
    (destruct (fill_futures answer' _ _) as [[values scanErr]| |] eqn:Efill; [|done..]); cbn in Hrun; destruct scanErr; try done.
  injection Hrun as <- <- <-. split; [done|].
  pose proof (futures_NoDup _ _ _ _ _ _ _ Hi) as Hnd. rewrite Hf in Efill.
  apply fill_futures_spec in Efill as (ids & -> & _ & Hin & _); [|done|].
  - eexists m2, db2, _, _, ids. split; [reflexivity|]. intros key x e Hx He.
    pose proof Hx as [j Hj]%range_lookup. destruct (Forall3_lookup _ _ _ _ _ _ Hall Hj) as (t & json & Ht' & Hjson & n & Hn & Henc & Hkt).
    pose proof (bi_contents _ _ _ _ _ _ _ Hi key) as Hc. rewrite Hx, He in Hc. inversion Hc as [? ? [Hl (n' & Hn' & Hps)]|]; subst.
    cbn in Hn, Hkt. rewrite Hn in Hn'. injection Hn' as <-.
    destruct (ho_shows _ _ (bi_heap _ _ _ _ _ _ _ Hi) _ _ Hl) as (n' & Hn' & Hshow). rewrite Hn in Hn'. injection Hn' as <-.
    exists j. split.
    + exists t, json. cbn. rewrite <- Hps. split_and!; try done. apply (kinds_text_mono m1); [by rewrite Ht|].
      rewrite <- (rep_view _ _ _ (nr_K _ _ _ _ _ Hshow)). exact Hkt.
    + unfold future. cbn. rewrite (Hin j) by (by rewrite !list_lookup_fmap, Hj).
      rewrite (bi_future _ _ _ _ _ _ _ Hi key x Hx). by destruct (ids !! j).
  - apply Forall_forall. intros f (? & -> & (? & -> & Hx)%list_elem_of_fmap)%list_elem_of_fmap.
    apply list_elem_of_lookup in Hx as [j Hj]. destruct x0 as [k x]. eapply lookup_lt_Some, (bi_future _ _ _ _ _ _ _ Hi k).
    apply range_lookup. by eexists.
Qed.

(** [v] is the identifier answered for the row that holds the merged kinds and
    properties of the nodes with the key of [u]. *)
Definition answered_for (h : heap) (entries : list (string * (lists * Properties))) (m : SchemaManager T) (rows : node_rows J)
    (ids : list Z) (u : NodeUpdate) (v : Z) : Prop :=
  exists key e j, shows_key h (nu_Node u) (nu_IdentityProperties u) key /\ merge_under key entries = Some e /\
    node_row_holds m rows j e /\ v = default 0%Z (ids !! j).

Lemma end_of_answered h entries L1 h1 L b h' m rows ids u f :
  batch_inv h L1 h1 L (nb_Updates b) (foldl merge_update ∅ entries) [] ->
  (forall key x e, nb_Updates b !! key = Some x -> foldl merge_update ∅ entries !! key = Some e -> exists j,
      node_row_holds m rows j e /\ future h' (su_IDFuture x) = default 0%Z (ids !! j)) ->
  end_of h (nb_Updates b) u f -> answered_for h entries m rows ids u (future h' f).
Proof using Type.
  intros Hi Hrows (n & ps & key & x & Hn & Hps & Hkey & Hx & ->).
  pose proof (bi_contents _ _ _ _ _ _ _ Hi key) as Hc. rewrite Hx in Hc.
  destruct (foldl merge_update ∅ entries !! key) as [e|] eqn:He; [|by inversion Hc].
  destruct (Hrows key x e Hx He) as (j & Hj & Hv). rewrite merge_updates_lookup in He.
  exists key, e, j. split_and!; try done. by exists n, ps.
Qed.

(** The row of an upsert of relationships for the updates under one key: the first
    one's ends and kind, and the merged properties of them all. *)
Definition relationship_row (h : heap) (answered : NodeUpdate -> Z -> Prop) (m : SchemaManager T) (rows : relationship_rows J)
    (i : nat) (updates : list RelationshipUpdate) : Prop :=
  exists u us r p bags start end_ kindID js, updates = u :: us /\
    h_rels h !! ru_Relationship u = Some r /\ rel_Properties r = Some p /\ Forall2 (rel_bag h) us bags /\
    rp_StartIDs rows !! i = Some start /\ answered (ru_Start u) start /\
    rp_EndIDs rows !! i = Some end_ /\ answered (ru_End u) end_ /\
    rp_KindIDs rows !! i = Some kindID /\ kindsByID m !! rel_Kind r = Some kindID /\
    rp_Properties rows !! i = Some js /\ PropertiesToJSONB (Some (foldl Properties_Merge_body p bags)) = inl js.

(** [C20] Relationships are written between the nodes they name.  Take a buffer of
    relationship updates whose relationships are different cells with bags, whose ends
    are different cells of nodes with bags, without nil kinds and that share no arrays,
    all ends with the same identity properties, none of which is deleted by an end.
    When the flush returns without an error, it has executed two statements.  The one
    for relationships has exactly one row for each key of the updates, where the key is
    that of the cells before the flush; updates with the same key text become one row.
    The row has the ends of the first update with the key, as the identifiers that the
    statement for nodes answered for the rows with the merged kinds and properties of
    all nodes with the key of the start and of the end (0 where that answer was too
    short), the identifier that the schema manager maps the first update's kind to, and
    the properties of the updates with the key, merged in order. *)
Theorem relationship_ends h L updates es ids lg lg' (w w' : SchemaManager T * DB) h' :
  heap_ok h L -> NoDup (nu_Node <$> end_updates updates) ->
  Forall2 (fun u e => ready h L (nu_Node u) e) (end_updates updates) es -> ends_named ids updates es ->
  NoDup (ru_Relationship <$> updates) -> Forall (fun u => exists p, rel_bag h u p) updates ->
  flush_relationship_updates g PropertiesToJSONB targetSchema Exec Query updates ((lg, h), w) = Done (((lg', h'), w'), inl tt) ->
  exists keys rel_keys m1 db1 text rows answered m2 db2 text' rows',
    lg' = lg ++ [mkExecuted m1 db1 (UpsertNodes text rows) (inl <$> answered);
                 mkExecuted m2 db2 (UpsertRelationships text' rows') []] /\
    Forall3 keyed (end_updates updates) es keys /\
    NoDup rel_keys /\ (forall key, key ∈ rel_keys <-> exists u, u ∈ updates /\ rel_key h u = Some key) /\
    length (rp_StartIDs rows') = length rel_keys /\ length (rp_EndIDs rows') = length rel_keys /\
    length (rp_KindIDs rows') = length rel_keys /\ length (rp_Properties rows') = length rel_keys /\
    forall i key, rel_keys !! i = Some key ->
      relationship_row h (answered_for h (zip keys (prepare <$> es)) m1 rows answered) m2 rows' i (under h key updates).
Proof using Type.
  intros Hok Hnd Hes Hnames Hndr Hbags Hrun. apply M_bind_inv in Hrun as ([[lg1 h1] w1] & b & Hval & Hrun).
  assert (Hval' : lg1 = lg /\ ValidateRelationshipUpdateByBatch g updates h = Done (h1, inl b)).
  { cbn in Hval. destruct (ValidateRelationshipUpdateByBatch g updates h) as [[? ?]| |]; [|done..]. by injection Hval as <- <- _ ->. }
  destruct Hval' as [-> Hval'].
  destruct (add_relationship_updates_spec g h L ids updates es [] [] h L NewRelationshipUpdateBatch h1 b Hes Hnames Hndr Hbags)
    as (keys & L' & Hkeys & Hinv & Hrel); [by apply batch_inv_start| |done|].
  { split; [|by intros ? ?%not_elem_of_nil|done]. intros key x Hx. cbn in Hx. by rewrite lookup_empty in Hx. }
  apply M_bind_inv in Hrun as ([[lg2 h2] [m2 db2]] & [] & Hnodes & Hrun).
  destruct (flush_nodes_inv _ _ _ _ _ _ _ _ _ _ _ Hinv Hnodes) as (Hrels & m1 & db1 & text & rows & answered & -> & Hrows).
  apply M_bind_inv in Hrun as ([x3 [m3 db3]] & p & (Hh & _ & Hs & He & kids & js & Hkids & Hjs & Hall)%relationship_columns_inv & Hrun).
  cbn in Hh, Hs, He, Hkids, Hjs, Hall. subst x3.
  apply M_bind_inv in Hrun as (st4 & target & ([m4 db4] & -> & Ht)%in_world_inv & Hrun). apply getTargetGraph_kinds in Ht.
  unfold exec in Hrun. destruct (Exec _ db4) as [db5 [err|]] eqn:Erel; [done|]. injection Hrun as <- <- _.
  eexists keys, (range (rb_Updates b)).*1, m1, db1, text, rows, answered, m4, db4, _, _. rewrite <- app_assoc.
  split; [reflexivity|]. cbn [rp_StartIDs rp_EndIDs rp_KindIDs rp_Properties RelationshipUpdateByParameters_Format].
  assert (Hlen : length kids = length (range (rb_Updates b)) /\ length js = length (range (rb_Updates b))) by
    (clear -Hall; induction Hall; cbn; [done|lia]).
  split_and!; [done|rewrite (range_perm (rb_Updates b)); apply NoDup_fst_map_to_list| |rewrite ?Hs, ?He, ?Hkids, ?Hjs, ?length_fmap; lia..|].
  - intros key. rewrite list_elem_of_fmap. split.
    + intros ([k x] & -> & Hx%list_elem_of_lookup_1). cbn. apply range_lookup in Hx.
      destruct (ri_entries _ _ _ _ _ _ Hrel k x Hx) as (u & us & _ & _ & _ & Hu & _). exists u.
      assert (Hin : u ∈ under h k ([] ++ updates)) by (rewrite Hu; by left). by apply list_elem_of_filter in Hin as [? ?].
    + intros (u & Hu & Hk). destruct (ri_keys _ _ _ _ _ _ Hrel u Hu) as (k & Hk' & [x Hx]). assert (k = key) as -> by congruence.
      exists (key, x). split; [done|]. apply list_elem_of_lookup. by apply range_lookup.
  - intros i key Hi. rewrite list_lookup_fmap in Hi. destruct (range (rb_Updates b) !! i) as [[k x]|] eqn:Ei; [|done]. injection Hi as ->.
    destruct (Forall3_lookup _ _ _ _ _ _ Hall Ei) as (kid & j & Hkid & Hj & r' & Hr' & Hmap & Henc). cbn in Hr'.
    destruct (ri_entries _ _ _ _ _ _ Hrel key x) as (u & us & r & pu & bags & Hu & Hxu & H1 & H2 & Hr & Hp & Hb & Hcell); [apply range_lookup; by eexists|].
    rewrite Hrels, Hxu, Hcell in Hr'. injection Hr' as <-. cbn in Hmap, Henc.
    exists u, us, r, pu, bags, (future h2 (sr_StartID x)), (future h2 (sr_EndID x)), kid, j.
    cbn. rewrite Hs, He, Hkids, Hjs, !list_lookup_fmap, Ei, Ht. cbn. split_and!; try done; by eapply end_of_answered.
Qed.
End columns.

(** ** Examples *)

Definition grow (_ n : nat) : nat := n.
Definition object (id : string) : Properties := mkProperties (Some {["objectid" := Str id]}) None None.
Definition demo_mem : Mem := mkMem {[ 1 := [Some "User"]; 2 := [Some "Group"]; 3 := [Some "Admin"] ]} 4.
Definition demo_node (base : nat) (id : string) : Node := mkNode UnregisteredNodeID (mkSlice base 1) nilKinds nilKinds (Some (object id)).
Definition demo_heap : heap :=
  mkHeap demo_mem {[ 10 := demo_node 1 "A"; 11 := demo_node 2 "B"; 12 := demo_node 3 "A" ]}
    {[ 20 := mkRelationship 0 0 0 (Some "MemberOf") (Some NewProperties) ]} [].
Definition demo_lists : gmap nat lists :=
  {[ 10 := ([Some "User"], [], []); 11 := ([Some "Group"], [], []); 12 := ([Some "Admin"], [], []) ]}.
Definition demo_updates : list NodeUpdate :=
  [mkNodeUpdate 10 None ["objectid"]; mkNodeUpdate 11 None ["objectid"]; mkNodeUpdate 12 None ["objectid"]].
Definition demo_entries : list (lists * Properties) :=
  [(([Some "User"], [], []), object "A"); (([Some "Group"], [], []), object "B"); (([Some "Admin"], [], []), object "A")].

Ltac pick_cell H :=
  repeat (apply lookup_insert_Some in H as [[<- <-]|[? H]]); try (apply lookup_singleton_Some in H as [<- <-]).

Lemma demo_shows base kind id : array demo_mem base = [kind] -> 0 < base < 4 ->
  node_shows demo_mem (demo_node base id) ([kind], [], []).
Proof.
  intros Ha Hb. split; cbn; try (unfold apart; cbn; lia).
  - by apply mem_ok_check.
  - split; cbn; [lia|by unfold cap; cbn; rewrite Ha|by unfold view; cbn; rewrite Ha].
  - by apply rep_nil, mem_ok_check.
  - by apply rep_nil, mem_ok_check.
Qed.

Lemma demo_heap_ok : heap_ok demo_heap demo_lists.
Proof.
  split.
  - intros p l Hl. unfold demo_lists in Hl. pick_cell Hl; eexists; (split; [reflexivity|]); apply demo_shows; (reflexivity || lia).
  - intros p q l n o Hpq [lp Hp] Hq Hn Ho. unfold demo_lists in Hp, Hq. unfold demo_heap in *. cbn [h_nodes h_mem] in *.
    pick_cell Hp; pick_cell Hq; try done; vm_compute in Hn, Ho; injection Hn as <-; injection Ho as <-;
      split_and!; split; cbn; try (by apply rep_nil, mem_ok_check); try (unfold apart; cbn; lia);
      (split; [vm_compute; lia|vm_compute; lia|reflexivity]).
Qed.

Lemma demo_ready : Forall2 (fun u e => ready demo_heap demo_lists (nu_Node u) e) demo_updates demo_entries.
Proof.
  repeat constructor; try reflexivity; try (by eexists); eexists; split; reflexivity.
Qed.

Definition demo_validated : heap * NodeUpdateBatch :=
  match ValidateNodeUpdateByBatch grow demo_updates demo_heap with
  | Done (h, inl b) => (h, b)
  | _ => (demo_heap, NewNodeUpdateBatch)
  end.

Lemma demo_nodes_NoDup : NoDup (nu_Node <$> demo_updates).
Proof. apply (bool_decide_unpack _). vm_compute. exact I. Qed.

Lemma demo_ids_NoDup : Forall (fun u => NoDup (nu_IdentityProperties u)) demo_updates.
Proof. apply (bool_decide_unpack _). vm_compute. exact I. Qed.

Lemma demo_keyed : Forall3 keyed demo_updates demo_entries ["A"; "B"; "A"].
Proof. repeat constructor. Qed.

Lemma node_updates_merged_witness :
  exists h' b, ValidateNodeUpdateByBatch grow demo_updates demo_heap = Done (h', inl b) /\
    exists L' u, nb_Updates b !! "A" = Some u /\ L' !! su_Node u = Some ([Some "User"; Some "Admin"], [Some "User"; Some "Admin"], []) /\
      heap_ok h' L'.
Proof.
  destruct (node_updates_merged grow demo_heap demo_lists demo_updates demo_entries demo_heap_ok demo_nodes_NoDup demo_ready demo_ids_NoDup)
    as (h' & r & E & [_ Hok] & Hall).
  destruct Hok as [b ->].
  - split; [|by exists ["A"; "B"; "A"]; apply demo_keyed]. exists ["objectid"], [], demo_updates.
    split_and!; [done|done|]. repeat constructor.
  - destruct (Hall b ["A"; "B"; "A"] eq_refl demo_keyed) as (_ & L' & Hh & Hc). exists h', b. split; [done|].
    specialize (Hc "A"). exists L'. destruct (nb_Updates b !! "A") as [u|]; [|vm_compute in Hc; inversion Hc].
    exists u. inversion Hc as [? e [Hl _]|]; subst. split_and!; [done| |done]. exact Hl.
Defined.

Lemma upsert_rows_distinct_witness :
  exists n1 n2 ps1 ps2,
    h_nodes demo_validated.1 !! 10 = Some n1 /\ h_nodes demo_validated.1 !! 11 = Some n2 /\
    node_Properties n1 = Some ps1 /\ node_Properties n2 = Some ps2 /\
    map_read (props ps1) "objectid" <> map_read (props ps2) "objectid".
Proof.
  destruct (upsert_rows_distinct grow demo_heap demo_lists demo_updates demo_entries ["objectid"] demo_validated.1 demo_validated.2 "A" "B"
    (mkSqlNodeUpdate 0 10) (mkSqlNodeUpdate 1 11) demo_heap_ok demo_nodes_NoDup demo_ready demo_ids_NoDup)
    as (n1 & n2 & ps1 & ps2 & name & H1 & H2 & H3 & H4 & Hname & Hdiff).
  - repeat constructor.
  - repeat constructor; apply (bool_decide_unpack _); vm_compute; exact I.
  - vm_compute. reflexivity.
  - vm_compute. reflexivity.
  - vm_compute. reflexivity.
  - discriminate.
  - apply list_elem_of_singleton in Hname as ->. exists n1, n2, ps1, ps2. repeat (split; [assumption|]). assumption.
Defined.

(** Rows are answered the identifiers 100, 101 and so on. *)
Definition demo_query (c : command string) (db : SmallDB) : SmallDB * (list (Z + error) * option error) :=
  match c with
  | UpsertNodes _ rows => (db, (imap (fun i _ => inl (100 + Z.of_nat i)%Z) (np_Properties rows), None))
  | _ => (db, ([], None))
  end.
Definition demo_relationship : RelationshipUpdate :=
  mkRelationshipUpdate 20 [] (mkNodeUpdate 10 None ["objectid"]) (mkNodeUpdate 11 None ["objectid"]).

Lemma demo_ends_NoDup : NoDup (nu_Node <$> end_updates [demo_relationship]).
Proof. apply (bool_decide_unpack _). vm_compute. exact I. Qed.

Lemma demo_ends_named : ends_named ["objectid"] [demo_relationship] (take 2 demo_entries).
Proof.
  split; [repeat constructor|].
  repeat (constructor; [apply (bool_decide_unpack _); vm_compute; exact I|]). constructor.
Qed.

Lemma relationship_ends_witness :
  match flush_relationship_updates grow demo_json None demo_exec demo_query [demo_relationship] (([], demo_heap), demo_world) with
  | Done (((lg, _), _), inl tt) => exists keys (m1 : SchemaManager unit) rows ids en text rows',
      lg !! 1 = Some en /\ ex_command en = UpsertRelationships text rows' /\
      relationship_row demo_json demo_heap
        (answered_for demo_json demo_heap (zip keys (prepare <$> take 2 demo_entries)) m1 rows ids) (ex_manager en) rows' 0 [demo_relationship]
  | _ => False
  end.
Proof.
  destruct (flush_relationship_updates grow demo_json None demo_exec demo_query [demo_relationship] (([], demo_heap), demo_world))
    as [[[[lg h'] w'] [[]|e]]| |] eqn:E; try (vm_compute in E; discriminate E).
  destruct (relationship_ends grow demo_json None demo_exec demo_query demo_heap demo_lists
    [demo_relationship] (take 2 demo_entries) ["objectid"] [] lg demo_world w' h' demo_heap_ok demo_ends_NoDup
    (Forall2_take _ _ _ 2 demo_ready) demo_ends_named)
    as (keys & rel_keys & m1 & db1 & text & rows & ids & m2 & db2 & text' & rows' & Hlg & _ & Hnd & Hkeys & _ & _ & _ & _ & Hrows).
  - apply (bool_decide_unpack _). vm_compute. exact I.
  - constructor; [|constructor]. exists NewProperties. eexists. split; vm_compute; reflexivity.
  - exact E.
  - subst lg. eexists keys, m1, rows, ids, _, text', rows'. split; [reflexivity|]. split; [reflexivity|].
    assert (Hk : rel_keys = ["MemberOfAB"]).
    { apply Permutation_singleton_r, NoDup_Permutation; [exact Hnd|apply NoDup_singleton|]. intros k. rewrite Hkeys, list_elem_of_singleton. split.
      - intros (u & ->%list_elem_of_singleton & Hu). vm_compute in Hu. congruence.
      - intros ->. exists demo_relationship. split; [by left|vm_compute; reflexivity]. }
    subst rel_keys. exact (Hrows 0 "MemberOfAB" eq_refl).
Defined.

(** ** Identities that are taken for the same *)

Definition rows_of (updates : list NodeUpdate) (h : heap) : option nat :=
  match ValidateNodeUpdateByBatch grow updates h with Done (_, inl b) => Some (size (nb_Updates b)) | _ => None end.
Definition relationship_rows_of (updates : list RelationshipUpdate) (h : heap) : option (nat * nat) :=
  match ValidateRelationshipUpdateByBatch grow updates h with
  | Done (_, inl b) => Some (size (nb_Updates (rb_NodeUpdates b)), size (rb_Updates b))
  | _ => None
  end.

(** Updates without identity properties all have the empty key: of two nodes with
    different properties one row is written, although the conflict of the statement is
    then decided by the identifier of the row, which is new. *)
Theorem updates_without_identity_merge :
  rows_of [mkNodeUpdate 10 None []; mkNodeUpdate 11 None []] demo_heap = Some 1.
Proof. vm_compute. reflexivity. Qed.

Definition collision_heap : heap :=
  mkHeap demo_mem {[ 10 := demo_node 1 "1"; 11 := demo_node 2 "23"; 12 := demo_node 3 "12"; 13 := mkNode 0 nilKinds nilKinds nilKinds (Some (object "3")) ]}
    {[ 20 := mkRelationship 0 0 0 (Some "MemberOf") (Some NewProperties); 21 := mkRelationship 0 0 0 (Some "MemberOf") (Some NewProperties) ]} [].

(** The key of a relationship is the texts of its parts without separators: of two
    relationships between four different nodes one is written. *)
Theorem relationship_update_lost :
  relationship_rows_of
    [mkRelationshipUpdate 20 [] (mkNodeUpdate 10 None ["objectid"]) (mkNodeUpdate 11 None ["objectid"]);
     mkRelationshipUpdate 21 [] (mkNodeUpdate 12 None ["objectid"]) (mkNodeUpdate 13 None ["objectid"])] collision_heap
  = Some (4, 1).
Proof. vm_compute. reflexivity. Qed.

Example upsert_text :
  FormatNodeUpsert (mkGraphModel 3 "base" (mkPartitions (NewGraphPartition "node_3") (NewGraphPartition "edge_3"))) ["name"; "objectid"] =
  "insert into node_3 as n (graph_id, kind_ids, properties) select $1, unnest($2::text[])::int2[], unnest($3::jsonb[]) on conflict ((properties->>'name'), (properties->>'objectid')) do update set properties = n.properties || excluded.properties, kind_ids = uniq(sort(n.kind_ids || excluded.kind_ids)) returning id;".
Proof. reflexivity. Qed.
