(* ===== verification/PgBatch.v ===== *)
(** * A batch of the PostgreSQL driver (drivers/pg/batch.go)

    The flush of new relationships with the kinds of the schema manager, and the batch
    put together: the buffers of [Batches] with the flushes of [WriteBatch] and
    [Upserts] over one heap and one connection.  New relationships map their kinds one
    by one through [MapKind], which may fetch them. *)

From S2P Require Import Prelude Kinds Mapper Properties Nodes Paths WriteBatch IndexDefinitions GraphSchema SmallDatabase IndexChanges SchemaManager ManagedGraphs Batches Upserts.
From stdpp Require Import relations.

Section pg.
Context {X T DB J : Type} `{Database DB} `{MapRange}.
Variable PropertiesToJSONB : option Properties -> J + error.
Variable targetSchema : option GraphSchema.
Variable Exec : command J -> DB -> DB * option error.
Notation W := (M (SchemaManager T * DB)).
Notation V := (M ((list (executed T DB J) * X) * (SchemaManager T * DB))).

(** ** New relationships *)

Definition encode (p : Properties) : option J :=
  match PropertiesToJSONB (Some p) with inl j => Some j | inr _ => None end.

(** [Add] with the answer of the kind mapper at hand. *)
Definition add_with (kindID : option Z) (s : relationshipCreateBatchBuilder) (edge : Relationship) :
    W (relationshipCreateBatchBuilder (J := J)) := fun w =>
  '(s', e) ← Builder_Add (fun _ => kindID) s edge;
  Done (w, match e : option batch_error with None => inl s' | Some _ => inr (ErrMessage "relationship") end).

(** [Builder.Add]: the kind is mapped when the key is new and the bag has been cloned. *)
Definition Builder_Add_mapped (s : relationshipCreateBatchBuilder) (edge : Relationship) :
    W (relationshipCreateBatchBuilder (J := J)) := fun w =>
  key ← edge_key edge;
  (match keyToEdgeID s !! key, rel_Properties edge with
   | Some _, _ => add_with None s edge
   | None, None => panic
   | None, Some _ => edgeKindID ← MapKind (rel_Kind edge); add_with (Some edgeKindID) s edge
   end) w.

Fixpoint add_edges (s : relationshipCreateBatchBuilder) (edges : list Relationship) :
    W (relationshipCreateBatchBuilder (J := J)) :=
  match edges with
  | [] => mret s
  | nextRel :: edges' => s' ← Builder_Add_mapped s nextRel; add_edges s' edges'
  end.

Definition flush_relationship_creates (edges : list Relationship) : V unit :=
  batchBuilder ← in_world (add_edges newRelationshipCreateBatchBuilder edges);
  match Builder_Build encode batchBuilder with
  | (_, Some _) => fails (ErrMessage "properties")
  | (createBatch, None) =>
      graphTarget ← in_world (getTargetGraph targetSchema);
      exec Exec (CreateEdges (gm_ID graphTarget) createBatch)
  end.
End pg.

(** ** The batch *)

Section batch.
Context {T DB J : Type} `{Database DB} `{MapRange}.
Variable PropertiesToJSONB : option Properties -> J + error.
Variable targetSchema : option GraphSchema.
Variable growslice : nat -> nat -> nat.
Variable Exec : command J -> DB -> DB * option error.
Variable Query : command J -> DB -> DB * (list (Z + error) * option error).
Variable DeletedPropertiesToString : option Properties -> string.

Notation state := (batch (NU := NodeUpdate) (RU := RelationshipUpdate) *
  ((list (executed T DB J) * heap) * (SchemaManager T * DB)))%type.

Definition pg_submit (i : item (NU := NodeUpdate) (RU := RelationshipUpdate)) : M state unit :=
  submit Exec PropertiesToJSONB DeletedPropertiesToString
    (flush_node_updates growslice PropertiesToJSONB targetSchema Query)
    (flush_relationship_updates growslice PropertiesToJSONB targetSchema Exec Query)
    (flush_relationship_creates PropertiesToJSONB targetSchema Exec) targetSchema i.

Definition pg_Commit : M state unit :=
  batch_Commit Exec PropertiesToJSONB DeletedPropertiesToString
    (flush_node_updates growslice PropertiesToJSONB targetSchema Query)
    (flush_relationship_updates growslice PropertiesToJSONB targetSchema Exec Query)
    (flush_relationship_creates PropertiesToJSONB targetSchema Exec) targetSchema.
End batch.

(** ** New relationships as the builder holds them *)

Section creates.
Context {X T DB J : Type} `{HD : Database DB} `{HR : MapRange}.
Context (PropertiesToJSONB : option Properties -> J + error) (targetSchema : option GraphSchema).
Context (Exec : command J -> DB -> DB * option error).
Notation flush_creates := (flush_relationship_creates (X := X) (T := T) PropertiesToJSONB targetSchema Exec).

(** The builder after relationships with keys of their own; [P] is what their kinds
    were mapped to. *)
Record builder_rows (P : Kind -> Z -> Prop) (s : relationshipCreateBatchBuilder (J := J)) (keys : list string)
    (edges : list Relationship) : Prop := {
  br_keys : forall k, k ∈ keys <-> is_Some (keyToEdgeID s !! k);
  br_start : startIDs (relationshipUpdateBatch s) = rel_StartID <$> edges;
  br_end : endIDs (relationshipUpdateBatch s) = rel_EndID <$> edges;
  br_kind : Forall2 (fun e k => P (rel_Kind e) k) edges (edgeKindIDs (relationshipUpdateBatch s));
  br_bags : Forall2 (fun e p => rel_Properties e = Some p) edges (edgePropertiesBatch s);
  br_none : edgePropertyBags (relationshipUpdateBatch s) = []
}.

Lemma builder_rows_new P : builder_rows P newRelationshipCreateBatchBuilder [] [].
Proof using Type.
  split; try done; [|constructor..]. intros k. cbn. rewrite lookup_empty. split; [by intros ?%elem_of_nil|by intros [? ?]].
Qed.

Lemma builder_rows_mono (P Q : Kind -> Z -> Prop) s keys edges :
  (forall k id, P k id -> Q k id) -> builder_rows P s keys edges -> builder_rows Q s keys edges.
Proof using Type. intros HPQ [H1 H2 H3 H4 H5 H6]. split; try done. eapply Forall2_impl; [exact H4|]. intros e k. apply HPQ. Qed.

(** A relationship with a key of its own. *)
Lemma Builder_Add_rows (P : Kind -> Z -> Prop) (s s' : relationshipCreateBatchBuilder (J := J)) keys edges e key id :
  builder_rows P s keys edges -> edge_key e = Done key -> key ∉ keys -> P (rel_Kind e) id ->
  Builder_Add (fun _ => Some id) s e = Done (s', None) -> builder_rows P s' (keys ++ [key]) (edges ++ [e]).
Proof using Type.
  intros [Hk Hs He Hki Hb Hn] Hkey Hfresh Hid. unfold Builder_Add. rewrite Hkey. cbn [mbind outcome_bind].
  destruct (keyToEdgeID s !! key) eqn:E; [exfalso; apply Hfresh, Hk; by eexists|].
  destruct (rel_Properties e) as [p|] eqn:Ep; [|done]. intros [= <-].
  split; cbn [keyToEdgeID relationshipUpdateBatch edgePropertiesBatch relationshipCreateBatch_Add startIDs endIDs edgeKindIDs edgePropertyBags].
  - intros k. rewrite elem_of_app, list_elem_of_singleton, lookup_insert_is_Some, Hk. naive_solver.
  - by rewrite Hs, fmap_app.
  - by rewrite He, fmap_app.
  - apply Forall2_app; [done|]. by repeat constructor.
  - apply Forall2_app; [done|]. rewrite Clone_eq. by repeat constructor.
  - done.
Qed.

Lemma add_with_inv kindID (s s' : relationshipCreateBatchBuilder (J := J)) edge (w w' : SchemaManager T * DB) :
  add_with kindID s edge w = Done (w', inl s') -> w' = w /\ Builder_Add (fun _ => kindID) s edge = Done (s', None).
Proof using Type.
  unfold add_with. destruct (Builder_Add (fun _ => kindID) s edge) as [[s1 e]| |]; [|done..]. cbn.
  destruct e; [done|]. by intros [= <- <-].
Qed.

(** What is known of the kinds, [Q], may depend on the state of the manager and the
    database, as long as mapping a kind establishes it and keeps it. *)
Context (Inv : SchemaManager T * DB -> Prop) (Q : SchemaManager T * DB -> Kind -> Z -> Prop).
Context (Hmap : forall k w w' id, Inv w -> MapKind k w = Done (w', inl id) ->
  Inv w' /\ Q w' k id /\ forall k' id', Q w k' id' -> Q w' k' id').

Lemma add_edges_rows edges : forall (s b : relationshipCreateBatchBuilder (J := J)) keys0 edges0 keys w w',
  Inv w -> builder_rows (Q w) s keys0 edges0 -> Forall2 (fun e k => edge_key e = Done k) edges keys -> NoDup (keys0 ++ keys) ->
  add_edges s edges w = Done (w', inl b) -> Inv w' /\ builder_rows (Q w') b (keys0 ++ keys) (edges0 ++ edges).
Proof using Hmap.
  induction edges as [|e edges IH]; intros s b keys0 edges0 keys w w' Hinv Hrows Hkeys Hnd Hrun.
  { apply Forall2_nil_inv_l in Hkeys as ->. injection Hrun as <- <-. by rewrite !app_nil_r. }
  apply Forall2_cons_inv_l in Hkeys as (key & keys' & Hkey & Hkeys & ->).
  assert (Hfresh : key ∉ keys0) by (apply NoDup_app in Hnd as (_ & Hd & _); intros Hin; apply (Hd key Hin); by left).
  apply M_bind_inv in Hrun as (w1 & s1 & Hadd & Hrun). unfold Builder_Add_mapped in Hadd. rewrite Hkey in Hadd. cbn [mbind outcome_bind] in Hadd.
  destruct (keyToEdgeID s !! key) eqn:E; [exfalso; apply Hfresh, (br_keys _ _ _ _ Hrows); by eexists|].
  destruct (rel_Properties e) eqn:Ep; [|done].
  apply M_bind_inv in Hadd as (w2 & id & Hm & [-> Hadd]%add_with_inv). destruct (Hmap _ _ _ _ Hinv Hm) as (Hinv2 & Hid & Hmono).
  pose proof (Builder_Add_rows _ _ _ _ _ _ _ _ (builder_rows_mono _ _ _ _ _ Hmono Hrows) Hkey Hfresh Hid Hadd) as Hrows2.
  destruct (IH s1 b (keys0 ++ [key]) (edges0 ++ [e]) keys' w2 w' Hinv2 Hrows2 Hkeys ltac:(by rewrite <- app_assoc) Hrun) as [H1 H2].
  by rewrite <- !app_assoc in H2.
Qed.

Lemma EncodeProperties_inv enc (b b' : relationshipCreateBatch (J := J)) bags :
  EncodeProperties enc b bags = (b', None) ->
  exists js, Forall2 (fun p j => enc p = Some j) bags js /\
    b' = mkCreateBatch (startIDs b) (endIDs b) (edgeKindIDs b) (edgePropertyBags b ++ js).
Proof using Type.
  revert b. induction bags as [|p bags IH]; intros b Hb; cbn [EncodeProperties] in Hb.
  - injection Hb as <-. exists []. rewrite app_nil_r. by destruct b.
  - destruct (enc p) as [j|] eqn:Ej; [|done]. apply IH in Hb as (js & Hjs & ->). exists (j :: js). cbn.
    rewrite <- app_assoc. split; [by constructor|done].
Qed.

(** The columns of a statement for new relationships, one row for each, in order. *)
Definition create_columns_of (P : Kind -> Z -> Prop) (b : relationshipCreateBatch (J := J)) (edges : list Relationship) : Prop :=
  startIDs b = rel_StartID <$> edges /\ endIDs b = rel_EndID <$> edges /\
  Forall2 (fun e k => P (rel_Kind e) k) edges (edgeKindIDs b) /\
  Forall2 (fun e j => PropertiesToJSONB (rel_Properties e) = inl j) edges (edgePropertyBags b).

Lemma Build_columns P (s : relationshipCreateBatchBuilder (J := J)) b keys edges :
  builder_rows P s keys edges -> Builder_Build (encode PropertiesToJSONB) s = (b, None) -> create_columns_of P b edges.
Proof using Type.
  intros [_ Hs He Hk Hb Hn] (js & Hjs & ->)%EncodeProperties_inv. unfold create_columns_of. cbn. rewrite Hn. split_and!; [done..|]. cbn.
  clear -Hb Hjs. revert js Hjs. induction Hb as [|e p edges bags Hp _ IH]; intros js Hjs; inversion Hjs as [|? j ? js' Hj Hjs']; subst; constructor; [|by apply IH].
  unfold encode in Hj. rewrite Hp. destruct (PropertiesToJSONB (Some p)); [|done]. by injection Hj as <-.
Qed.

(** A flush of new relationships executes one statement when it succeeds and none when
    it fails. *)
Lemma flush_creates_cases edges l (x : X) (w w' : SchemaManager T * DB) l' x' r :
  flush_creates edges ((l, x), w) = Done (((l', x'), w'), r) ->
  match r with
  | inr _ => l' = l
  | inl _ => exists s w1 b g s2 db2, add_edges newRelationshipCreateBatchBuilder edges w = Done (w1, inl s) /\
      Builder_Build (encode PropertiesToJSONB) s = (b, None) /\ getTargetGraph targetSchema w1 = Done ((s2, db2), inl g) /\
      l' = l ++ [mkExecuted s2 db2 (CreateEdges (gm_ID g) b) []]
  end.
Proof using Type.
  unfold flush_relationship_creates. unfold mbind at 1, M_bind at 1.
  destruct (in_world _ _) as [[st [s|e]]| |] eqn:E1; [| |done..]; apply in_world_any in E1 as (w1 & -> & E1); [|by intros [= <- _ _ <-]].
  destruct (Builder_Build _ s) as [b [e|]] eqn:Eb; [by intros [= <- _ _ <-]|].
  unfold mbind, M_bind. destruct (in_world (getTargetGraph targetSchema) _) as [[st [g|e]]| |] eqn:E2; [| |done..];
    apply in_world_any in E2 as ([s2 db2] & -> & E2); [|by intros [= <- _ _ <-]].
  unfold exec. destruct (Exec _ db2) as [db3 [e|]]; intros [= <- _ _ <-]; [done|]. by exists s, w1, b, g, s2, db2.
Qed.
End creates.

(** ** Every item is written once *)

Section conservation.
Context {T DB J : Type} `{HD : Database DB} `{HR : MapRange}.
Context (PropertiesToJSONB : option Properties -> J + error) (targetSchema : option GraphSchema).
Context (growslice : nat -> nat -> nat) (DeletedPropertiesToString : option Properties -> string).
Context (Exec : command J -> DB -> DB * option error).
Context (Query : command J -> DB -> DB * (list (Z + error) * option error)).
Notation log := (list (executed T DB J)).
Notation V := (M ((log * heap) * (SchemaManager T * DB))).

(** What the statement for new relationships holds of relationships that differ in the
    text of their start, end and kind: one row for each. *)
Definition created_rows (b : relationshipCreateBatch (J := J)) (edges : list Relationship) : Prop :=
  forall keys, Forall2 (fun e k => edge_key e = Done k) edges keys -> NoDup keys ->
    create_columns_of PropertiesToJSONB (fun _ _ => True) b edges.

Notation writes := (writes (T := T) (DB := DB) (NU := NodeUpdate) (RU := RelationshipUpdate) PropertiesToJSONB
  DeletedPropertiesToString created_rows).

Lemma creates_one edges :
  one_statement (T := T) (NU := NodeUpdate) (RU := RelationshipUpdate) PropertiesToJSONB DeletedPropertiesToString created_rows
    ChRelCreate (CreateRelationship <$> edges) (flush_relationship_creates (X := heap) PropertiesToJSONB targetSchema Exec edges).
Proof using Type.
  intros l x w l' x' w' r Hrun. apply flush_creates_cases in Hrun. destruct r as [u|e]; [|done].
  destruct Hrun as (s & w1 & b & g & s2 & db2 & Hadd & Hb & _ & ->). eexists. split; [reflexivity|]. split; [done|].
  exists edges. split; [done|]. intros keys Hkeys Hnd.
  destruct (add_edges_rows (J := J) (fun _ => True) (fun _ _ _ => True) ltac:(done) edges
    newRelationshipCreateBatchBuilder s [] [] keys w w1 I (builder_rows_new _) Hkeys Hnd Hadd) as [_ Hrows].
  by eapply Build_columns.
Qed.

(** Code that executes nothing but upserts. *)
Definition adds (m : V unit) : Prop := upserts_only m.

Lemma in_heap_log {A} (m : M heap A) (l : log) h w l' h' w' r :
  in_heap m ((l, h), w) = Done (((l', h'), w'), r) -> l' = l.
Proof using Type. cbn. destruct (m h) as [[h1 r1]| |]; [|done..]. by intros [= <- _ _ _]. Qed.

Lemma node_columns_log (l : list (string * sqlNodeUpdate)) : forall (s : NodeUpsertParameters (J := J)) (lg : log) h w lg' h' w' r,
  NodeUpsertParameters_AppendAll PropertiesToJSONB s l ((lg, h), w) = Done (((lg', h'), w'), r) -> lg' = lg.
Proof using Type.
  induction l as [|[k y] l IH]; intros s lg h w lg' h' w' r; [by intros [= <- _ _ _]|]. cbn [NodeUpsertParameters_AppendAll].
  unfold mbind, M_bind. destruct (NodeUpsertParameters_Append _ s y _) as [[[[lg1 h1] w1] [p|e]]| |] eqn:E; [| |done..];
    unfold NodeUpsertParameters_Append in E; (destruct (h_nodes h !! su_Node y); [|done]); apply in_world_any in E as (? & [= -> -> ->] & _);
    [apply IH|by intros [= <- _ _ _]].
Qed.

Lemma relationship_columns_log (l : list (string * sqlRelationshipUpdate)) :
  forall (s : RelationshipUpdateByParameters (J := J)) (lg : log) h w lg' h' w' r,
  RelationshipUpdateByParameters_AppendAll PropertiesToJSONB s l ((lg, h), w) = Done (((lg', h'), w'), r) -> lg' = lg.
Proof using Type.
  induction l as [|[k y] l IH]; intros s lg h w lg' h' w' r; [by intros [= <- _ _ _]|]. cbn [RelationshipUpdateByParameters_AppendAll].
  unfold mbind, M_bind. destruct (RelationshipUpdateByParameters_Append _ s y _) as [[[[lg1 h1] w1] [p|e]]| |] eqn:E; [| |done..];
    unfold RelationshipUpdateByParameters_Append in E; (destruct (h_rels h !! sr_Relationship y); [|done]); apply in_world_any in E as (? & [= -> -> ->] & _);
    [apply IH|by intros [= <- _ _ _]].
Qed.

Lemma flush_nodes_adds b : upserts_only (flushNodeUpsertBatch (T := T) PropertiesToJSONB targetSchema Query b).
Proof using Type.
  intros l x w l' x' w' r. unfold flushNodeUpsertBatch. unfold mbind at 1, M_bind at 1.
  destruct (NodeUpsertParameters_AppendAll _ _ _ _) as [[[[l1 x1] w1] [p|e]]| |] eqn:E1; [| |done..]; apply node_columns_log in E1 as ->.
  2:{ intros [= <- _ _ _]. exists []. by rewrite app_nil_r. }
  unfold mbind at 1, M_bind at 1. destruct (in_world (getTargetGraph targetSchema) _) as [[st [g|e]]| |] eqn:E2; [| |done..];
    apply in_world_any in E2 as ([s2 db2] & -> & _).
  2:{ intros [= <- _ _ _]. exists []. by rewrite app_nil_r. }
  unfold mbind at 1, M_bind at 1. unfold query. destruct (Query _ db2) as [db3 [answer [e|]]];
    (destruct (fill_futures answer _ _) as [[values scanErr]| |] eqn:Ef; [|done..]); cbn; intros [= <- _ _ _].
  - exists []. by rewrite app_nil_r.
  - eexists. split; [reflexivity|]. by repeat constructor.
Qed.

Lemma flush_node_updates_adds updates :
  upserts_only (flush_node_updates (T := T) growslice PropertiesToJSONB targetSchema Query updates).
Proof using Type.
  intros l x w l' x' w' r. unfold flush_node_updates, mbind, M_bind.
  destruct (in_heap _ _) as [[[[l1 x1] w1] [b|e]]| |] eqn:E; [| |done..]; apply in_heap_log in E as ->; [apply flush_nodes_adds|].
  intros [= <- _ _ _]. exists []. by rewrite app_nil_r.
Qed.

Lemma flush_relationship_updates_adds updates :
  upserts_only (flush_relationship_updates (T := T) growslice PropertiesToJSONB targetSchema Exec Query updates).
Proof using Type.
  intros l x w l' x' w' r. unfold flush_relationship_updates, flushRelationshipUpdateByBuffer. unfold mbind at 1, M_bind at 1.
  destruct (in_heap _ _) as [[[[l1 x1] w1] [b|e]]| |] eqn:E; [| |done..]; apply in_heap_log in E as ->.
  2:{ intros [= <- _ _ _]. exists []. by rewrite app_nil_r. }
  unfold mbind at 1, M_bind at 1. destruct (flushNodeUpsertBatch _ _ _ _ _) as [[[[l2 x2] w2] [[]|e]]| |] eqn:E2; [| |done..];
    apply flush_nodes_adds in E2 as (ext & -> & Hext); [|intros [= <- _ _ _]; by exists ext].
  unfold mbind at 1, M_bind at 1. destruct (RelationshipUpdateByParameters_AppendAll _ _ _ _) as [[[[l3 x3] w3] [p|e]]| |] eqn:E3; [| |done..];
    apply relationship_columns_log in E3 as ->; [|intros [= <- _ _ _]; by exists ext].
  unfold mbind, M_bind. destruct (in_world (getTargetGraph targetSchema) _) as [[st [g|e]]| |] eqn:E4; [| |done..];
    apply in_world_any in E4 as ([s4 db4] & -> & _); [|intros [= <- _ _ _]; by exists ext].
  unfold exec. destruct (Exec _ db4) as [db5 [e|]]; intros [= <- _ _ _]; [by exists ext|].
  eexists. rewrite <- app_assoc. split; [reflexivity|]. apply Forall_app. split; [done|]. by repeat constructor.
Qed.

Notation pg_runs := (runs (X := heap) (T := T) Exec PropertiesToJSONB DeletedPropertiesToString
    (flush_node_updates growslice PropertiesToJSONB targetSchema Query)
    (flush_relationship_updates growslice PropertiesToJSONB targetSchema Exec Query)
    (flush_relationship_creates PropertiesToJSONB targetSchema Exec) targetSchema).
Notation pg_submit := (pg_submit PropertiesToJSONB targetSchema growslice Exec Query DeletedPropertiesToString).
Notation pg_Commit := (pg_Commit PropertiesToJSONB targetSchema growslice Exec Query DeletedPropertiesToString).

End conservation.

(** ** New relationships and the database *)

Section creates_db.
Context {X T DB J : Type} `{HD : Database DB} `{HC : Catalog DB} `{HR : MapRange} `{!DatabaseLaws DB}.
Context (PropertiesToJSONB : option Properties -> J + error) (targetSchema : option GraphSchema).
Context (Exec : command J -> DB -> DB * option error).

(** The kinds that are not in doubt are mapped to their identifiers. *)
Definition mapped_right (D : Kind -> Prop) (w : SchemaManager T * DB) (k : Kind) (id : Z) : Prop :=
  ~ D k -> kindsByID w.1 !! k = Some id /\ named w.2 k = Some id.

Lemma MapKind_inv D db0 k (w w' : SchemaManager T * DB) id :
  coherent D w.1 w.2 /\ kinds_of db0 ⊆ kinds_of w.2 -> MapKind k w = Done (w', inl id) ->
  (coherent D w'.1 w'.2 /\ kinds_of db0 ⊆ kinds_of w'.2) /\ mapped_right D w' k id /\
  forall k' id', mapped_right D w k' id' -> mapped_right D w' k' id'.
Proof using Type*.
  destruct w as [s db]. cbn. intros [Hco Hsub] (st1 & s1 & [= <- <-] & Hrun)%M_bind_inv. destruct (kindsByID s !! k) as [i|] eqn:Ek.
  - injection Hrun as <- <-. split_and!; [done|done| |done]. intros Hd. split; [done|]. by apply (co_kinds _ _ _ Hco).
  - apply M_bind_inv in Hrun as ([s2 db2] & [] & Hf & Hrun). destruct (Fetch_inv (fun c : T => c) _ _ _ _ _ _ Hf Hco) as (Hco2 & Hk & _).
    destruct (write_ended _ _ _ _ _ _ works_fetch Hf) as (_ & Hkept & _).
    apply M_bind_inv in Hrun as (st3 & s3 & [= <- <-] & Hrun). destruct (kindsByID s2 !! k) as [i|] eqn:Ek2.
    + injection Hrun as <- <-. cbn. split_and!; [done|by etrans| |].
      * intros Hd. split; [done|]. by apply (co_kinds _ _ _ Hco2).
      * intros k' id' Hq Hd. destruct (Hq Hd) as [Hl Hn]. split; [by apply (ke_kinds _ _ _ Hkept)|by eapply named_mono].
    + unfold unable_to_map in Hrun. by case_decide.
Qed.

(** [C27] Relationships that can be told apart are created as they are.  In any run of
    the schema manager, sections that fail and other sessions included, let new
    relationships be flushed without an error whose texts of start, end and kind, put
    together without a separator, are all different.  Then the connection has executed
    exactly one more statement, and its columns have one row for each relationship, in
    order: its start and end, its own properties encoded, and for its kind, unless a
    section that failed had written the kind to the maps, the identifier that the
    manager maps it to when the statement is executed and that the database has for it
    since the kinds were mapped. *)
Theorem created_relationships_exact (Invalidate : T -> T) cache (db : DB) D st st' edges keys l l' (x x' : X) :
  rtc (step Invalidate) (nothing, (NewSchemaManager cache, db)) (D, st) ->
  flush_relationship_creates PropertiesToJSONB targetSchema Exec edges ((l, x), st) = Done (((l', x'), st'), inl tt) ->
  Forall2 (fun e k => edge_key e = Done k) edges keys -> NoDup keys ->
  exists en graphID b db1, l' = l ++ [en] /\ ex_command en = CreateEdges graphID b /\ kinds_of st.2 ⊆ kinds_of db1 /\
    startIDs b = rel_StartID <$> edges /\ endIDs b = rel_EndID <$> edges /\
    Forall2 (fun e k => ~ D (rel_Kind e) -> kindsByID (ex_manager en) !! rel_Kind e = Some k /\ named db1 (rel_Kind e) = Some k)
      edges (edgeKindIDs b) /\
    Forall2 (fun e j => PropertiesToJSONB (rel_Properties e) = inl j) edges (edgePropertyBags b).
Proof using Type*.
  intros Hrtc Hrun Hkeys Hnd. destruct st as [s0 db0]. apply run_coherent in Hrtc as Hco.
  apply flush_creates_cases in Hrun as (s & [s1 db1] & b & g & s2 & db2 & Hadd & Hb & Ht%getTargetGraph_kinds & ->).
  destruct (add_edges_rows (J := J) (fun w => coherent D w.1 w.2 /\ kinds_of db0 ⊆ kinds_of w.2) (mapped_right D)
    ltac:(intros; by eapply MapKind_inv) edges newRelationshipCreateBatchBuilder s [] [] keys (s0, db0) (s1, db1)
    (conj Hco (reflexivity _)) (builder_rows_new _) Hkeys Hnd Hadd) as [[_ Hsub] Hrows].
  destruct (Build_columns PropertiesToJSONB _ _ _ _ _ Hrows Hb) as (Hs & He & Hk & Hj).
  eexists _, (gm_ID g), b, db1. split; [reflexivity|]. split_and!; try done. cbn [ex_manager].
  eapply Forall2_impl; [exact Hk|]. intros e k Hm. rewrite Ht. exact Hm.
Qed.
End creates_db.

(** ** Examples *)

Definition demo_edges : list Relationship :=
  [mkRelationship 0 1 2 (Some "User") (Some NewProperties); mkRelationship 0 3 1 (Some "Group") (Some NewProperties)].

Lemma demo_edge_keys : Forall2 (fun e k => edge_key e = Done k) demo_edges ["12User"; "31Group"].
Proof. repeat constructor. Qed.

Lemma created_relationships_exact_witness :
  exists (en : executed unit SmallDB string) g b, ex_command en = CreateEdges g b /\ startIDs b = [1; 3]%Z /\ endIDs b = [2; 1]%Z /\
    Forall2 (fun e k => ~ nothing (rel_Kind e) -> kindsByID (ex_manager en) !! rel_Kind e = Some k) demo_edges (edgeKindIDs b).
Proof.
  destruct (flush_relationship_creates demo_json (Some schema_1) demo_exec demo_edges (([], tt), st_users))
    as [[[[l' x'] st'] [[]|e]]| |] eqn:E; try (vm_compute in E; discriminate E).
  destruct (created_relationships_exact demo_json (Some schema_1) demo_exec (fun c : unit => c) tt empty_db nothing st_users st'
    demo_edges ["12User"; "31Group"] [] l' tt x' run_users E demo_edge_keys) as (en & g & b & db1 & _ & Hc & _ & Hs & He & Hk & _).
  - apply (bool_decide_unpack _). vm_compute. exact I.
  - exists en, g, b. split; [exact Hc|]. split; [exact Hs|]. split; [exact He|]. eapply Forall2_impl; [exact Hk|].
    intros r k H Hd. exact (proj1 (H Hd)).
Defined.

(** A batch over a heap: an update of a relationship, new nodes and relationships and
    deletions, then the commit. *)
Notation demo_state := (batch (NU := NodeUpdate) (RU := RelationshipUpdate) *
  ((list (executed unit SmallDB string) * heap) * (SchemaManager unit * SmallDB)))%type.

Definition demo_submit (i : item) : M demo_state unit :=
  pg_submit demo_json (Some schema_1) grow demo_exec demo_query demo_deleted i.
Definition demo_commit : M demo_state unit :=
  pg_Commit demo_json (Some schema_1) grow demo_exec demo_query demo_deleted.

Definition after_batch (m : M demo_state unit) st : demo_state :=
  match m st with Done (st', _) => st' | _ => st end.

Definition demo_items : list (item (NU := NodeUpdate) (RU := RelationshipUpdate)) :=
  [CreateNode (bn "User"); DeleteNode 5; UpdateRelationshipBy demo_relationship; CreateNode (bn "Group"); DeleteNode 6;
   CreateRelationship (mkRelationship 0 1 2 (Some "User") (Some NewProperties))].

Definition demo_start : demo_state := (newBatch 1, (([], demo_heap), st_users)).
Definition demo_batch : demo_state := foldl (fun st i => after_batch (demo_submit i) st) demo_start demo_items.

Lemma demo_batch_run :
  runs (X := heap) demo_exec demo_json demo_deleted (flush_node_updates grow demo_json (Some schema_1) demo_query)
    (flush_relationship_updates grow demo_json (Some schema_1) demo_exec demo_query)
    (flush_relationship_creates demo_json (Some schema_1) demo_exec) (Some schema_1) 1 demo_items demo_batch.
Proof.
  assert (Hall : forall items done_ st, runs (X := heap) demo_exec demo_json demo_deleted (flush_node_updates grow demo_json (Some schema_1) demo_query)
      (flush_relationship_updates grow demo_json (Some schema_1) demo_exec demo_query)
      (flush_relationship_creates demo_json (Some schema_1) demo_exec) (Some schema_1) 1 done_ st ->
    (fix ok st items := match items with
       | [] => True
       | i :: items' => match demo_submit i st with Done (st', _) => ok st' items' | _ => False end
       end) st items ->
    runs (X := heap) demo_exec demo_json demo_deleted (flush_node_updates grow demo_json (Some schema_1) demo_query)
      (flush_relationship_updates grow demo_json (Some schema_1) demo_exec demo_query)
      (flush_relationship_creates demo_json (Some schema_1) demo_exec) (Some schema_1) 1 (done_ ++ items)
      (foldl (fun st i => after_batch (demo_submit i) st) st items)).
  { induction items as [|i items IH]; intros done_ st Hst Hok; [by rewrite app_nil_r|]. cbn [foldl].
    replace (done_ ++ i :: items) with ((done_ ++ [i]) ++ items) by (by rewrite <- app_assoc).
    unfold after_batch at 2. destruct (demo_submit i st) as [[st' r]| |] eqn:E; [|done..]. apply IH; [|done]. by eapply run_submit. }
  apply (Hall demo_items [] demo_start); [constructor|]. vm_compute. exact I.
Qed.


Example batch_over_heap :
  map (fun en => command_channel (ex_command en)) (after_batch demo_commit demo_batch).2.1.1 =
    [Some ChNodeCreate; Some ChNodeDelete; None; None; Some ChRelCreate].
Proof. vm_compute. reflexivity. Qed.
